(* ===== verification/_CoqProject ===== *)
-Q . S2P
Prelude.v
LinSpec.v
Events.v
History.v
Linearizability.v
Search.v
LincheckRecursive.v
Wgl.v
LincheckDual.v
Checkers.v
VectorClock.v
WmmEvent.v
Graph.v
GraphConsistent.v
GraphSteps.v
GraphInvariant.v
GraphRead.v
GraphTry.v
WmmCorrect.v
Latomic.v
StableVector.v
Verifier.v
BlockManager.v
Blocking.v
SharedMutex.v
Pthread.v
Resources.v
Specs.v
SpecsDual.v
SpecsLocks.v
SpecsQueues.v
SpecsCorrect.v
Effects.v
Runtime.v
DualMethods.v
Strategy.v
Strategies.v
Tla.v
Scheduler.v
Rounds.v
Minimization.v
Run.v
Options.v
PrettyPrint.v
Futex.v
UniqueArgs.v
Ir.v
YieldPass.v
CoYieldPass.v
ResMockPass.v
LaunchPasses.v
Litmus.v
LitmusTests.v
Machine.v
Targets.v
TargetsCorrect.v
TargetsDual.v
WorldInv.v
Choosing.v
Slices.v
Recorded.v
RoundCorrect.v
StrategyLaws.v
PctLaws.v
Resets.v
Scheduling.v
ReplayCorrect.v
MinimizeCorrect.v
CustomRounds.v
RunCorrect.v
Program.v
ProgramCorrect.v
StrategyRounds.v
DualRounds.v
TaskVerifiers.v
SchedulerCorrect.v
StrategyCorrect.v
Witnesses.v
SchedulerWitnesses.v
RuntimeWitnesses.v
