(* ===== verification/Prelude.v ===== *)
(** * A verification development for LTest

    LTest (src/) is a C++ framework that tests concurrent data structures: it
    runs generated tasks on coroutines under its own scheduler, records a
    history of invocations and responses, and checks the history against a
    sequential specification. This library models the parts of it whose
    correctness decides whether a verdict can be trusted, and proves what
    they promise. Code is translated definition by definition: a function
    becomes a function with the same name, a loop a [Fixpoint] (with fuel
    where it is not structural), a pointer an index, an [assert], an
    exception or an undefined access a value of [outcome] (below), and a
    machine integer a [Z] with its wrap-around written out.

    ** The parts of the program and the files that model them

    - The linearizability checkers (src/runtime/include/lincheck.h,
      lincheck_recursive.h, lincheck_dual.h, linearization_search.h,
      src/runtime/lin_check.cpp). [History] has the events, tasks and
      [get_inv_res_mapping]; [Search] the recursive backtracking search with
      its cache of failed states, over the adapter contract that [LinSpec]
      states as a class; [LincheckRecursive] and [LincheckDual] the two
      adapters and their [Check]; [Wgl] the iterative checker
      [LinearizabilityChecker::Check] with its two stacks. [LinSpec],
      [Events] and [Linearizability] are the specification: sequences of
      events, pairing of responses with invocations, linearizations, and a
      transition system whose complete paths are the linearizations.
      [Checkers] proves that each checker returns and decides it.
    - The sequential specifications (src/verifying/specs/*.h, and the results
      of src/runtime/include/value_wrapper.h) in [Specs], the dual ones
      (src/verifying/specs/coro_async_stack.h, coroutine_queue.h,
      dual_stack_split.h, libcoro/*.h, folly/*.h) in [SpecsDual],
      [SpecsLocks] and [SpecsQueues]; [SpecsCorrect] has their properties and
      the instances of the classes [SpecCongruence] and [DualSpecCongruence]
      under which the checkers are exact.
    - The weak-memory execution graph (src/runtime/include/wmm/*.h):
      [VectorClock], [WmmEvent] (common.h, edge.h, event.h), [Graph]
      (graph.h and wmm.h). [GraphConsistent] is the depth-first search of
      [IsConsistent]; [GraphSteps], [GraphInvariant], [GraphRead] and
      [GraphTry] follow one operation through the graph (append the event,
      add coherence edges, accept or undo a read-from edge); [WmmCorrect]
      proves the operations of [ExecutionGraph] correct in every reachable
      state. [Latomic] is the class of atomics that the tested code uses
      (latomic.h), over the graph and the native cell.
    - The stable vector (src/runtime/include/stable_vector.h) in
      [StableVector]: blocks, slots, construction and destruction.
    - Workload policies and the strategy verifier
      (src/runtime/include/workload_policy.h, strategy_verifier.h) in
      [Verifier].
    - Blocking: the block manager (block_manager.h, block_state.h, and
      [SetBlocked]/[IsBlocked] of lib.h) in [BlockManager], [mutex] and
      [shared_mutex_r] (blocking_primitives.h) in [Blocking],
      [condition_variable] and [shared_mutex] in [SharedMutex], as systems of
      coroutines that interleave at their yields.
    - The simulated system (src/syscall_intercept/*.cpp,
      src/runtime/mock_res.cpp, coro_ctx_guard.cpp): [Pthread] has the calls
      on mutexes, condition variables and read-write locks, with the tables
      of [ltest::mutex], [ltest::condition_variable] and
      [ltest::shared_mutex] they stand for; [Resources] the intercepted
      allocation functions and the pointers a round remembers; [Futex] the
      hooks of futex and sched_yield.
    - The coroutine runtime (src/runtime/include/lib.h, src/runtime/lib.cpp,
      the requests of src/syscall_intercept/pthread.cpp) in [Runtime]: a heap
      of tasks, their life cycle, wake-up conditions, dual events and the
      effect of one slice on the globals. [Effects] is the state and error
      monad of it, with a total Hoare logic ([hoare]) and its tactic [mstep].
      [DualMethods] has the wrappers of awaitable and of dual methods and the
      task builders of verifying_macro.h.
    - The strategies (src/runtime/include/scheduler.h, pick_strategy.h,
      round_robin_strategy.h, random_strategy.h, pct_strategy.h,
      tla_strategy.h, custom_round.h, os_simulator.h,
      src/runtime/os_simulator.cpp): [Strategy] has the state and every
      operation of [BaseStrategyWithThreads] over a record [VerifierOps] of
      verifier operations, and the record [StrategyOps] of the virtual
      functions; [Strategies] the round-robin, random and PCT strategies;
      [Tla] the exhaustive one.
    - The schedulers (scheduler.h, scheduler_fwd.h): [Scheduler] has the
      recorded events and the record [EventOps] in which the ordinary and the
      dual scheduler differ; [Rounds] the rounds (generate, explore, replay,
      roll back a deadlock); [Run] the test loops.
    - Minimization (minimization.h, minimization_smart.h) in [Minimization],
      with the fitness of the genetic minimizer in IEEE single precision.
    - The verifiers that guard generated rounds (strategy_verifier.h,
      src/verifying/blocking/verifiers/*.h,
      src/verifying/dual/folly/verifiers/*.h) in [TaskVerifiers], as values
      of [VerifierOps].
    - The program around them: [Options] has the flags, literals and options
      of verifying.h and verifying.cpp, [Program] the construction of a
      strategy, [MakeStrategy], [MakeScheduler], [TrapRun], [Run] and
      [RunDual] of verifying.h; [PrettyPrint] the three tables of
      pretty_print.h; [UniqueArgs] the specification, verifier and structure
      of unique_args.h and targets/unique_args.cpp.
    - The compiler passes (src/codegen): [Ir] is the part of LLVM's
      intermediate representation they work on; [YieldPass] inserts the
      yields of the tested code, [CoYieldPass] the status changes of C++
      coroutines, [ResMockPass] routes allocations through the runtime and
      [LaunchPasses] replaces main and the initialization of globals; each
      file also proves what its pass does to a module.
    - The litmus tests (src/verifying/targets/wmm_litmus): [Litmus] is a
      machine of threads over [Latomic] with an exploration of all schedules
      and candidate orders, [LitmusTests] has the tests and their outcomes.
    - The tested structures: [Machine] is a machine of threads that run
      methods slice by slice, with the proof method of linearization points
      (classes [LinPoints] and [SelfPoints]); [Targets] has the lock-free
      structures (src/verifying/targets) and the blocking ones
      (src/verifying/blocking); [TargetsCorrect] decides which are
      linearizable and which deadlock. [TargetsDual] has the dual stack and
      the channel of coroutines of src/verifying/dual, with the proofs that
      they answer as their specifications do.
    - The proofs about them: [WorldInv] (the invariant [winv] of heap and
      threads), [Choosing] (eligibility of threads), [Slices] (one slice),
      [Resets] (restarting, resetting, next round), [StrategyLaws] and
      [PctLaws] (the strategies discharge [NextLaws]), [Scheduling]
      ([ReplayLaws]), [CustomRounds] ([CustomLaws]), [Checkers]
      ([ModelChecker]: what a round needs of a checker, discharged by the
      iterative and the recursive one), [Recorded] (the recorded history is
      well formed), [RoundCorrect], [ReplayCorrect], [MinimizeCorrect] (over
      [SchedulerLaws], discharged in [RunCorrect]), [StrategyRounds] (round
      robin and PCT over several picks and rounds), [DualRounds].
      [SchedulerCorrect] and [StrategyCorrect] state the theorems,
      [ProgramCorrect] the one about the exit code.
    - [Witnesses], [RuntimeWitnesses] and [SchedulerWitnesses] instantiate
      every theorem that has hypotheses at a concrete input;
      [SchedulerWitnesses] runs the schedulers, and the program from its flags
      to its exit code, on a counter whose increment can be interrupted.

    ** What the theorems show

    - C1, C5 to C7: on every well-formed history each checker returns, and it
      answers [true] exactly on the linearizable histories (dual
      linearizable, for the dual one); the iterative and the recursive one
      agree, with or without the cache.
    - C2 to C4: a test run returns, and what it reports is a history of the
      round that is not linearizable (or is stuck, under the policy that
      reports deadlocks); a generated round ends, records a well-formed
      history and judges it exactly, under every deadlock policy. These
      compose the strategies, the runtime, the minimizers and the checkers
      through their interfaces. C2 asks that the strategy survives the
      scenarios, which the random one does only when no scenario has fewer
      threads than a generated round ([random_weights_after_scenario]), and
      that minimized rounds have at most 64 tasks and threads.
    - C8, C9, C11 to C13: modification order stays acyclic and per location;
      loads and compare-exchanges return and record what the memory model
      says (stores: lemma [wmm_store_succeeds]); a rejected read-from edge is
      undone; [IsConsistent] is sound.
      C14: the operations of [latomic] give the tested code the weak memory of
      the graph, and a read-modify-write is undefined only where its
      arithmetic is; without the memory model they are those of a register (lemma
      [run_ops_register]). C40: the litmus tests of the repository have the
      outcomes that its build file expects.
    - C10, C21, C31: the compiler passes: where yields are inserted, which
      calls are routed to the runtime, and which calls are bracketed by status
      changes.
    - C15, C16, C18, C19: exploration, replay and minimization of a round:
      they return (explorations when the code under test is bounded), keep
      the round, report only bad histories, of the tasks they were asked to
      run; the assertions on fitness hold.
    - C17: the printed tables are aligned, show every event and number the
      coroutine objects in the order in which they appear.
    - C20, C22 to C24: resets bring a round back to its start; the random
      strategy keeps its invariant as long as its weights suffice for the
      next round, the round-robin one is fair, the PCT one picks the thread
      of the greatest priority among those that the tests and the verifier
      let run.
    - C25, C30: the simulated system. A round's memory is freed exactly once;
      programs of threads that call the intercepted pthread functions keep
      exclusion on every mutex and read-write lock and lose no wake-up.
    - C26, C28: dual rounds: drained events are chronological, and the
      rollback of a deadlock, which takes a task back too early, fails an
      assertion.
    - C27: the program, with the round-robin or the random strategy and
      within the bounds of C2: the exit code 3 or 4 is the truth about the
      target, and the printed history is the evidence.
    - C29: the stable vector is a vector whose elements do not move.
    - C32: the workload verifier keeps the prefix budget of rules that
      reserve no more threads than there are, the credit included.
    - C33, C35: mutual exclusion and no lost wake-up for the locks.
    - C34: every structure that a test takes for a correct one (atomic and
      locked registers, mutex, channel, bank) is linearizable in all
      interleavings, and each deliberate mistake has a history that is not;
      C36: the order of its locks keeps the bank from deadlocks, and its twin
      without the order deadlocks.
    - C37: options written as literals are read back; C38: a dual method
      reports its phases in order and finishes once its waker has run.
    - C39: refinement between the specifications of the two dual stacks.
    Further results are lemmas of their files: exclusion of the lock
    specifications and of the reader-preferring lock, pairing of sends and
    receives, scenarios that are built exactly, the four kinds of rules that
    the workload verifier decides, acyclic graphs that
    [IsConsistent] rejects, atomics whose cell and graph disagree, uses of
    memory that the round does not account for, change points of the PCT
    strategy that replays make undefined, the refinement of the
    unique-argument specification, the capacity the bounded queue loses,
    what move assignment of the stable vector leaves behind, where the budget's unsigned arithmetic
    wraps, first-in-first-out wake-ups, order of the queue and stack
    specifications, conservation in the bank, the clock a rejected attempt
    leaks, the protocols that the mutex verifiers enforce.

    ** Bounds, fuel and parameters

    The iterative checker's loop takes its fuel as an argument; [check_fuel]
    bounds the number of its iterations, and C1 is stated for every larger
    fuel. The recursive search and [IsConsistent] compute their own fuel
    from the size of their input, and the theorems show that it suffices:
    they return a value and never [OutOfFuel]. A round takes its fuel as an
    argument: the code under test may spin, so C3 and C15 hold for any fuel
    and show that the result does not depend on it once there is one, and
    C2, C4 and C15 show that [max_tasks * (K + 2)] iterations (for a replay,
    [K + 1] for each task) are enough when every slice lowers a rank that
    starts at most at [K] (class [RankLaws]). Fitness is bounded for rounds of at most
    64 tasks and threads ([fitness_bound]), by evaluating the formula in
    single precision at every size.

    The litmus tests are explored to at most 20 slices, and C40 shows that no
    run of a test that passes is longer. Loops of the coroutine pass are
    bounded by [visit_fuel], which C31 shows to be enough.

    The code under test is a parameter (classes [TargetTypes], [TargetCode],
    [TargetObject]): what a slice does to the memory it shares, and whether
    it yields, blocks or returns; [PlainTarget] says that it creates no
    threads of its own and lets no exception escape. So are
    the random engine and the distributions (class [Random]; [ShuffleLaws]
    says that a shuffle permutes), the hash functions of the caches,
    [std::hash<std::vector<bool>>] and the shuffle of the read-from
    candidates. A specification's equality has to be sound for its
    methods, which is proved for every specification modelled here.

    ** What is not modelled

    The source rewriting tool (clangpass) is a list of matchers that Clang
    evaluates; LLVM's demangler, its YAML reader and its verifier are
    parameters of the passes; gflags, the switch of stacks and logging are
    libraries or input and output; the adapter of folly's awaiters depends on
    that library, and so do the blocking structures taken from it. Of
    src/verifying/dual, the lock-free stack of coroutines and the structures
    of folly and libcoro are not modelled, only their specifications. In
    [TargetsDual] a coroutine that is resumed goes on at some later action,
    not inside the call that resumes it. The memory of the other tested structures is
    sequentially consistent in [Machine]; weak memory is the subject of the
    litmus tests. Condition variables of [Machine] do not wake up spuriously,
    and weak exchanges fail only when the values differ. A call
    of an intercepted function outside a coroutine goes to the real function
    and is not modelled. Of the rounds, exactness of the verdict is proved
    for the ordinary scheduler: the dual one is modelled, and what is proved
    of it is C26 and C28. The exhaustive strategy is modelled; that it visits
    every schedule is not proved. The verifiers that fail an assertion on a
    name they do not know ([TaskVerifiers]) do not meet [VerifierTotal] and
    are not composed with the rounds. *)
From stdpp Require Import base list gmap strings.

(** ** Outcomes of C++ code

    [Ret] is a normal return; [Throw] an exception; [AssertFail] a failed
    [assert]; [UB] an access outside a container or through a null pointer;
    [OutOfFuel] is not an outcome of the code: it marks a bound on the
    number of loop iterations that was chosen too small. *)
Inductive outcome (A : Type) : Type :=
  | Ret (a : A)
  | Throw (what : string)
  | AssertFail
  | UB
  | OutOfFuel.
Arguments Ret {A} _.
Arguments Throw {A} _.
Arguments AssertFail {A}.
Arguments UB {A}.
Arguments OutOfFuel {A}.

#[export] Instance outcome_ret : MRet outcome := @Ret.
#[export] Instance outcome_bind : MBind outcome := λ A B f m,
  match m with
  | Ret a => f a
  | Throw w => Throw w
  | AssertFail => AssertFail
  | UB => UB
  | OutOfFuel => OutOfFuel
  end.
#[export] Instance outcome_fmap : FMap outcome := λ A B f m, m ≫= (λ a, Ret (f a)).

(** [o ⇓ a]: the code returns [a]. *)
Declare Scope ltest_scope.
Delimit Scope ltest_scope with ltest.
Notation "o ⇓ a" := (o = Ret a) (at level 70, no associativity) : ltest_scope.

(** [assert(b)] and [v[i]] / [*p]. *)
Definition cassert (b : bool) : outcome unit := if b then Ret () else AssertFail.
Definition deref {A} (o : option A) : outcome A :=
  match o with Some a => Ret a | None => UB end.

Lemma outcome_bind_ret {A B} (m : outcome A) (f : A → outcome B) b :
  m ≫= f = Ret b ↔ ∃ a, m = Ret a ∧ f a = Ret b.
Proof. destruct m; naive_solver. Qed.

Lemma cassert_ret b : cassert b = Ret () ↔ b = true.
Proof. by destruct b. Qed.

Lemma deref_ret {A} (o : option A) a : deref o = Ret a ↔ o = Some a.
Proof. destruct o; naive_solver. Qed.

(** The development's hints: facts about marks, counters and outcomes that
    close side conditions. *)
Create HintDb ltest.

(** Invert the binds of a computation that returned. *)
Ltac outcome_inv H :=
  repeat match type of H with
    | _ ≫= _ = Ret _ =>
        let a := fresh "a" in let Ha := fresh "H" in
        apply outcome_bind_ret in H as (a&Ha&H); try outcome_inv Ha
    | deref _ = Ret _ => apply deref_ret in H
    | cassert _ = Ret _ => apply cassert_ret in H
    end.

(** ** Boolean vectors used as "already linearized" marks *)
Fixpoint count_true (L : list bool) : nat :=
  match L with
  | [] => 0
  | b :: L => (if b then 1 else 0) + count_true L
  end.

Definition all_true (L : list bool) : Prop := ∀ i, i < length L → L !! i = Some true.

Lemma count_true_le L : count_true L ≤ length L.
Proof. induction L as [|[] L IH]; simpl; lia. Qed.

Lemma count_true_replicate n : count_true (replicate n false) = 0.
Proof. induction n; simpl; auto. Qed.

Lemma count_true_full L : count_true L = length L ↔ all_true L.
Proof.
  unfold all_true. induction L as [|b L IH]; simpl.
  - split; [lia|done].
  - pose proof (count_true_le L). split.
    + intros Hc [|i] Hi; destruct b; simpl in *; try done; try lia.
      apply IH; lia.
    + intros Ha. assert (Hb : b = true) by (specialize (Ha 0); naive_solver lia).
      subst b. f_equal. apply IH. intros i Hi. apply (Ha (S i)). lia.
Qed.

Lemma count_true_insert L i :
  L !! i = Some false → count_true (<[i:=true]> L) = S (count_true L).
Proof.
  revert i. induction L as [|b L IH]; intros [|i] Hi; simplify_eq/=; [done|].
  rewrite IH by done. lia.
Qed.

Lemma count_true_insert_false L i :
  L !! i = Some true → S (count_true (<[i:=false]> L)) = count_true L.
Proof.
  revert i. induction L as [|b L IH]; intros [|i] Hi; simplify_eq/=; [done|].
  rewrite <-(IH i Hi). lia.
Qed.

Lemma insert_insert_back {A} (L : list A) i a b :
  L !! i = Some b → <[i:=b]> (<[i:=a]> L) = L.
Proof. intros Hi. rewrite list_insert_insert_eq. by apply list_insert_id. Qed.

Lemma lookup_bool_total (L : list bool) i : i < length L → L !! i = Some true ∨ L !! i = Some false.
Proof. intros Hi. apply lookup_lt_is_Some in Hi as [[] ?]; auto. Qed.

#[export] Hint Resolve count_true_le lookup_bool_total insert_insert_back : ltest.

(** ** Counting the elements of a list with a property *)
Fixpoint countb {A} (p : A → bool) (l : list A) : nat :=
  match l with
  | [] => 0
  | x :: l => (if p x then 1 else 0) + countb p l
  end.

Lemma countb_insert {A} (p : A → bool) (l : list A) i x y :
  l !! i = Some x →
  countb p (<[i := y]> l) + (if p x then 1 else 0) = countb p l + (if p y then 1 else 0).
Proof.
  revert i. induction l as [|z l IH]; intros [|i] Hi; simplify_eq/=; [lia|].
  specialize (IH i Hi). lia.
Qed.

Lemma countb_pos {A} (p : A → bool) (l : list A) i x :
  l !! i = Some x → p x = true → 0 < countb p l.
Proof.
  revert i. induction l as [|z l IH]; intros [|i] Hi Hp; simplify_eq/=; [rewrite Hp; lia|].
  specialize (IH i Hi Hp). lia.
Qed.

Lemma countb_zero {A} (p : A → bool) (l : list A) i x :
  countb p l = 0 → l !! i = Some x → p x = false.
Proof.
  intros Hc Hi. destruct (p x) eqn:Hp; [|done]. pose proof (countb_pos p l i x Hi Hp). lia.
Qed.

(** Two different positions with the property make two. *)
Lemma countb_two {A} (p : A → bool) (l : list A) i j x y :
  i ≠ j → l !! i = Some x → l !! j = Some y → p x = true → p y = true → 1 < countb p l.
Proof.
  revert i j. induction l as [|z l IH]; intros [|i] [|j] Hne Hi Hj Hx Hy; simplify_eq/=.
  - pose proof (countb_pos p l j y Hj Hy). rewrite Hx. lia.
  - pose proof (countb_pos p l i x Hi Hx). rewrite Hy. lia.
  - assert (1 < countb p l) by (apply (IH i j); congruence || done). lia.
Qed.
