(* ===== verification/LinSpec.v ===== *)
(** * Linearizations and the transition system that searches for one

    The recursive checkers of [runtime/include] reach the history only through
    an adapter (the "Adapter contract" comment of linearization_search.h).
    This file states what such an adapter promises ([AdapterWf]), the
    declarative notion of a linearization of the adapter's operations, and a
    transition system on pairs (linearized marks, specification state) whose
    reachable complete configurations are exactly the linearizations. *)
From stdpp Require Import base list relations gmap.
From S2P Require Import Prelude.

(** The adapter contract of linearization_search.h. [kNoResponseIndex] is
    [None]; [TryApply] returns its verdict and the mutated state. *)
Record Adapter (St : Type) := mkAdapter {
  IsInvoke : nat → bool;
  IsResponse : nat → bool;
  ResponseIndex : nat → option nat;
  CanDropPendingInvoke : nat → bool;
  TryApply : nat → St → bool * St;
}.
Arguments IsInvoke {St} _ _.
Arguments IsResponse {St} _ _.
Arguments ResponseIndex {St} _ _.
Arguments CanDropPendingInvoke {St} _ _.
Arguments TryApply {St} _ _ _.

(** What a history of [n] events promises through its adapter. *)
Class AdapterWf {St} (n : nat) (a : Adapter St) : Prop := {
  wf_kind i : i < n → IsInvoke a i = negb (IsResponse a i);
  wf_resp i r : i < n → IsInvoke a i = true → ResponseIndex a i = Some r →
    i < r < n ∧ IsResponse a r = true;
  wf_matched r : r < n → IsResponse a r = true →
    ∃ i, i < n ∧ IsInvoke a i = true ∧ ResponseIndex a i = Some r;
  wf_inj i j r : i < n → j < n → IsInvoke a i = true → IsInvoke a j = true →
    ResponseIndex a i = Some r → ResponseIndex a j = Some r → i = j;
  wf_drop i : CanDropPendingInvoke a i = true → ResponseIndex a i = None;
}.

(** Two specification states the code may identify (its [Equal] functor)
    must be indistinguishable for the operations of the history. *)
Class AdapterCongruence {St} (a : Adapter St) (eqv : relation St) : Prop := {
  congr_equiv :: Equivalence eqv;
  congr_apply i s t : eqv s t →
    (TryApply a i s).1 = (TryApply a i t).1 ∧
    eqv (TryApply a i s).2 (TryApply a i t).2;
}.

Section Linearizations.
Context {St : Type} (n : nat) (a : Adapter St).
Implicit Types (L : list bool) (s : St) (i j r : nat) (lin : list nat).

(** [i] completed before [j] was invoked. *)
Definition precedes i j : Prop := ∃ r, ResponseIndex a i = Some r ∧ r < j.

(** Run the operations of [lin] one after the other. *)
Fixpoint run lin s : option St :=
  match lin with
  | [] => Some s
  | i :: lin =>
      match TryApply a i s with
      | (true, s') => run lin s'
      | (false, _) => None
      end
  end.

(** A linearization of the operations not yet marked in [L]: a sequence of
    distinct invocations, with every operation that may not be dropped, in
    an order that respects the real-time order, accepted by the
    specification from [s] to [s']. *)
Record linearization_from L lin s s' : Prop := {
  lin_nodup : NoDup lin;
  lin_ops i : i ∈ lin → i < n ∧ IsInvoke a i = true ∧ L !! i = Some false;
  lin_total i : i < n → IsInvoke a i = true → L !! i = Some false →
    CanDropPendingInvoke a i = false → i ∈ lin;
  lin_order p q i j : lin !! p = Some i → lin !! q = Some j → precedes i j → p < q;
  lin_run : run lin s = Some s';
}.

(** Linearizations of the whole history. *)
Definition linearization lin s s' : Prop :=
  linearization_from (replicate n false) lin s s'.

(** ** The transition system *)

(** [i] can be chosen next: no operation that completed before it was
    invoked is still open. *)
Definition minimal L i : Prop :=
  L !! i = Some false ∧ IsInvoke a i = true ∧
  ∀ r, r < i → IsResponse a r = true → L !! r = Some true.

Definition mark_op L i : list bool :=
  match ResponseIndex a i with
  | Some r => <[r:=true]> (<[i:=true]> L)
  | None => <[i:=true]> L
  end.

Inductive lin_step : list bool * St → list bool * St → Prop :=
  | lin_step_apply L s i s' :
      minimal L i → TryApply a i s = (true, s') →
      (∀ r, ResponseIndex a i = Some r → L !! r = Some false) →
      lin_step (L, s) (mark_op L i, s')
  | lin_step_drop L s i :
      minimal L i → ResponseIndex a i = None → CanDropPendingInvoke a i = true →
      lin_step (L, s) (<[i:=true]> L, s).

Definition completable (P : St → Prop) L s : Prop :=
  ∃ L' s', rtc lin_step (L, s) (L', s') ∧ all_true L' ∧ P s'.

(** ** Single steps *)

(** A configuration is completable through event [i]. *)
Definition via (P : St → Prop) (i : nat) L s : Prop :=
  minimal L i ∧
  ((ResponseIndex a i = None ∧ CanDropPendingInvoke a i = true ∧
    completable P (<[i:=true]> L) s) ∨
   (∃ s', TryApply a i s = (true, s') ∧
      (∀ r, ResponseIndex a i = Some r → L !! r = Some false) ∧
      completable P (mark_op L i) s')).

Lemma completable_via P L s :
  ¬ all_true L → completable P L s ↔ ∃ i, via P i L s.
Proof.
  intros Hna. split.
  - intros (L'&s'&Hr&Ht&HP). apply rtc_inv in Hr as [Heq|(c&Hs&Hr)]; [naive_solver|].
    inversion Hs; simplify_eq.
    + eexists. split; [done|]. right. eexists. split_and!; [done..|]. by exists L', s'.
    + eexists. split; [done|]. left. split_and!; [done..|]. by exists L', s'.
  - intros (i&Hm&[(Hn&Hd&L'&s'&Hr&Ht&HP)|(s1&Ha&Hresp&L'&s'&Hr&Ht&HP)]);
      exists L', s'; (split; [|done]); (eapply rtc_l; [|exact Hr]).
    + by apply lin_step_drop.
    + by apply lin_step_apply.
Qed.

Lemma completable_done P L s : all_true L → completable P L s ↔ P s.
Proof.
  intros Ht. split.
  - intros (L'&s'&Hr&_&HP). apply rtc_inv in Hr as [Heq|(c&Hs&_)]; [naive_solver|].
    assert (∃ i, L !! i = Some false) as [i Hi].
    { inversion Hs as [???? (Hi&_)|??? (Hi&_)]; simplify_eq; eauto. }
    rewrite Ht in Hi; [done|]. by eapply lookup_lt_Some.
  - intros HP. exists L, s. done.
Qed.

(** An open response blocks every later operation. *)
Lemma via_before_response P i j L s :
  IsInvoke a i = negb (IsResponse a i) → IsResponse a i = true → L !! i = Some false →
  via P j L s → j < i.
Proof.
  intros Hk Ri HF [(HFj&Ij&Hmin) _]. destruct (decide (j < i)) as [|Hge]; [done|].
  destruct (decide (j = i)) as [->|]; [by rewrite Ri, Ij in Hk|].
  rewrite Hmin in HF; [done|lia|done].
Qed.

Definition unmark_op L i : list bool :=
  match ResponseIndex a i with
  | Some r => <[r:=false]> (<[i:=false]> L)
  | None => <[i:=false]> L
  end.

(** Marks are closed: an operation and its response are marked together. *)
Definition closed L : Prop :=
  length L = n ∧
  ∀ i r, i < n → IsInvoke a i = true → ResponseIndex a i = Some r → L !! i = L !! r.

Lemma length_mark_op L i : length (mark_op L i) = length L.
Proof. unfold mark_op. destruct (ResponseIndex a i); by rewrite ?length_insert. Qed.

Context `{!AdapterWf n a}.

Lemma invoke_not_response i j r :
  i < n → j < n → IsInvoke a i = true → IsInvoke a j = true →
  ResponseIndex a i = Some r → r ≠ j.
Proof.
  intros Hi Hj Ii Ij Hr ->. destruct (wf_resp i j Hi Ii Hr) as [? Hrj].
  pose proof (wf_kind j Hj) as Hk. rewrite Ij, Hrj in Hk. done.
Qed.

Lemma mark_op_count L i :
  i < n → IsInvoke a i = true → L !! i = Some false →
  (∀ r, ResponseIndex a i = Some r → L !! r = Some false) →
  count_true (mark_op L i) =
    count_true L + 1 + (if bool_decide (is_Some (ResponseIndex a i)) then 1 else 0).
Proof.
  intros Hi Ii HF Hr. unfold mark_op. destruct (ResponseIndex a i) as [r|] eqn:Hri.
  - pose proof (invoke_not_response i i r Hi Hi Ii Ii Hri).
    rewrite !count_true_insert; [| done |].
    + rewrite bool_decide_true by eauto. lia.
    + rewrite list_lookup_insert_ne by done. auto.
  - rewrite count_true_insert by done. rewrite bool_decide_false by (intros []; done). lia.
Qed.

Lemma unmark_mark_op L i :
  i < n → IsInvoke a i = true → L !! i = Some false →
  (∀ r, ResponseIndex a i = Some r → L !! r = Some false) →
  unmark_op (mark_op L i) i = L.
Proof.
  intros Hi Ii HF Hr. unfold mark_op, unmark_op.
  destruct (ResponseIndex a i) as [r|] eqn:Hri.
  - pose proof (invoke_not_response i i r Hi Hi Ii Ii Hri).
    rewrite (list_insert_insert_ne _ i r) by done.
    rewrite list_insert_insert_eq, list_insert_insert_eq.
    rewrite (list_insert_id L i false) by done. rewrite list_insert_id; auto.
  - by rewrite insert_insert_back.
Qed.

Lemma closed_replicate : closed (replicate n false).
Proof.
  split; [apply length_replicate|]. intros i r Hi Ii Hr.
  destruct (wf_resp i r Hi Ii Hr) as [[? ?] _]. by rewrite !lookup_replicate_2 by lia.
Qed.

Lemma mark_op_lookup L i j :
  closed L → i < n → IsInvoke a i = true → j < n → IsInvoke a j = true → j ≠ i →
  mark_op L i !! j = L !! j.
Proof.
  intros Hc Hi Ii Hj Ij Hne. unfold mark_op. destruct (ResponseIndex a i) as [r|] eqn:Hr.
  - pose proof (invoke_not_response i j r Hi Hj Ii Ij Hr).
    rewrite !list_lookup_insert_ne by done. done.
  - by rewrite list_lookup_insert_ne by done.
Qed.

Lemma mark_op_self L i : closed L → i < n → IsInvoke a i = true → mark_op L i !! i = Some true.
Proof.
  intros [Hl _] Hi Ii. unfold mark_op. destruct (ResponseIndex a i) as [r|] eqn:Hr.
  - pose proof (invoke_not_response i i r Hi Hi Ii Ii Hr).
    rewrite list_lookup_insert_ne by done. apply list_lookup_insert_eq. lia.
  - apply list_lookup_insert_eq. lia.
Qed.

Lemma closed_mark_op L i : closed L → i < n → IsInvoke a i = true → closed (mark_op L i).
Proof.
  intros Hc Hi Ii. split; [rewrite length_mark_op; apply Hc|].
  intros j r Hj Ij Hr. destruct Hc as [Hlen Hc].
  destruct (decide (j = i)) as [->|Hne].
  - rewrite mark_op_self by done. unfold mark_op. rewrite Hr.
    destruct (wf_resp i r Hi Ii Hr) as [[? ?] _].
    symmetry. apply list_lookup_insert_eq. rewrite length_insert. lia.
  - rewrite mark_op_lookup by done. unfold mark_op.
    pose proof (invoke_not_response j i r Hj Hi Ij Ii Hr).
    destruct (ResponseIndex a i) as [r'|] eqn:Hr'.
    + assert (r ≠ r') by (intros ->; by destruct Hne; eapply wf_inj).
      rewrite !list_lookup_insert_ne by done. by apply Hc.
    + rewrite list_lookup_insert_ne by done. by apply Hc.
Qed.

Lemma closed_drop L i :
  closed L → i < n → IsInvoke a i = true → ResponseIndex a i = None →
  closed (<[i:=true]> L).
Proof.
  intros Hc Hi Ii Hn. pose proof (closed_mark_op L i Hc Hi Ii) as H.
  unfold mark_op in H. by rewrite Hn in H.
Qed.

Lemma closed_lt L i b : closed L → L !! i = Some b → i < n.
Proof. intros [<- _] ?. by eapply lookup_lt_Some. Qed.

Lemma closed_step c c' : closed c.1 → lin_step c c' → closed c'.1.
Proof.
  intros Hc Hs. destruct Hs as [L s i s' (Hi&Ii&_) _ _|L s i (Hi&Ii&_) Hn _]; simpl in *.
  - apply closed_mark_op; eauto using closed_lt.
  - apply closed_drop; eauto using closed_lt.
Qed.

(** A marked response means that its operation is marked. *)
Lemma open_response_op L r :
  closed L → r < n → IsResponse a r = true → L !! r = Some false →
  ∃ i, i < n ∧ IsInvoke a i = true ∧ ResponseIndex a i = Some r ∧ L !! i = Some false.
Proof.
  intros [Hl Hc] Hr Ir HL. destruct (wf_matched r Hr Ir) as (i&Hi&Ii&Hir).
  exists i. rewrite (Hc i r) by done. done.
Qed.

(** ** Every linearization is a path *)

Lemma drop_all L s :
  closed L →
  (∀ i, i < n → L !! i = Some false →
     IsInvoke a i = true ∧ CanDropPendingInvoke a i = true) →
  ∃ L', rtc lin_step (L, s) (L', s) ∧ all_true L'.
Proof.
  remember (length L - count_true L) as k eqn:Hk. revert L Hk.
  induction k as [|k IH]; intros L Hk Hc Hdrop; pose proof (count_true_le L).
  - exists L. split; [done|]. apply count_true_full. lia.
  - destruct (decide (Exists (eq false) L)) as [He|He].
    2:{ exists L. split; [done|]. intros i Hi.
        destruct (lookup_bool_total L i Hi) as [|HF]; [done|].
        destruct He. apply Exists_exists. exists false. split; [|done].
        by eapply list_elem_of_lookup_2. }
    apply Exists_exists in He as (b&Hb&<-).
    apply list_elem_of_lookup in Hb as [i Hi].
    pose proof (closed_lt _ _ _ Hc Hi) as Hin.
    destruct (Hdrop i Hin Hi) as [Ii Hd]. pose proof (wf_drop i Hd) as Hn.
    destruct (IH (<[i:=true]> L)) as (L'&Hr&Ht).
    + rewrite length_insert, count_true_insert by done. lia.
    + by apply closed_drop.
    + intros j Hj HF. destruct (decide (i = j)) as [->|].
      * rewrite list_lookup_insert_eq in HF; [done|]. destruct Hc; lia.
      * rewrite list_lookup_insert_ne in HF by done. auto.
    + exists L'. split; [|done]. eapply rtc_l; [|exact Hr].
      apply lin_step_drop; [|done|done]. split_and!; [done|done|].
      intros r Hri Ir. destruct (lookup_bool_total L r) as [|HF]; [|done|].
      { destruct Hc; lia. }
      destruct (Hdrop r) as [Ir' _]; [lia|done|].
      pose proof (wf_kind r ltac:(lia)) as Hk'. rewrite Ir, Ir' in Hk'. done.
Qed.

Lemma linearization_tail L i lin s s' :
  closed L → linearization_from L (i :: lin) s s' →
  ∃ s1, TryApply a i s = (true, s1) ∧ linearization_from (mark_op L i) lin s1 s'.
Proof.
  intros Hc [Hnd Hops Htot Hord Hrun]. simpl in Hrun.
  destruct (TryApply a i s) as [[] s1] eqn:Ha; [|done]. exists s1. split; [done|].
  apply NoDup_cons in Hnd as [Hni Hnd].
  destruct (Hops i ltac:(by left)) as (Hi&Ii&HLi).
  split; [done| | | |done].
  - intros j Hj. destruct (Hops j ltac:(by right)) as (Hj'&Ij&HLj).
    rewrite mark_op_lookup; [done..|]. intros ->. done.
  - intros j Hj Ij HLj Hd. destruct (decide (j = i)) as [->|Hne].
    + rewrite mark_op_self in HLj by done. done.
    + rewrite mark_op_lookup in HLj by done.
      specialize (Htot j Hj Ij HLj Hd). apply elem_of_cons in Htot as [->|]; done.
  - intros p q x y Hp Hq Hxy. specialize (Hord (S p) (S q) x y Hp Hq Hxy). lia.
Qed.

Lemma linearization_path L lin s s' :
  closed L → linearization_from L lin s s' →
  ∃ L', rtc lin_step (L, s) (L', s') ∧ all_true L'.
Proof.
  revert L s. induction lin as [|i lin IH]; intros L s Hc Hlin.
  - destruct Hlin as [_ _ Htot _ Hrun]. simplify_eq/=. apply drop_all; [done|].
    intros i Hi HF. destruct (IsInvoke a i) eqn:Ii.
    + split; [done|]. destruct (CanDropPendingInvoke a i) eqn:Hd; [done|].
      specialize (Htot i Hi Ii HF Hd). by apply not_elem_of_nil in Htot.
    + pose proof (wf_kind i Hi) as Hk. rewrite Ii in Hk.
      destruct (IsResponse a i) eqn:Ri; [|done].
      destruct (open_response_op L i Hc Hi Ri HF) as (j&Hj&Ij&Hjr&HFj).
      destruct (CanDropPendingInvoke a j) eqn:Hd.
      { apply wf_drop in Hd. by rewrite Hd in Hjr. }
      specialize (Htot j Hj Ij HFj Hd). by apply not_elem_of_nil in Htot.
  - destruct (lin_ops _ _ _ _ Hlin i ltac:(by left)) as (Hi&Ii&HF).
    destruct (linearization_tail _ _ _ _ _ Hc Hlin) as (s1&Ha&Htl).
    destruct (IH (mark_op L i) s1) as (L'&Hr&Ht); [by apply closed_mark_op|done|].
    exists L'. split; [|done]. eapply rtc_l; [|exact Hr].
    apply lin_step_apply; [|done|].
    + split_and!; [done|done|]. intros r Hri Ir.
      destruct (lookup_bool_total L r) as [|HFr]; [destruct Hc; lia|done|].
      destruct (open_response_op L r Hc ltac:(lia) Ir HFr) as (j&Hj&Ij&Hjr&HFj).
      destruct (CanDropPendingInvoke a j) eqn:Hd.
      { apply wf_drop in Hd. by rewrite Hd in Hjr. }
      pose proof (lin_total _ _ _ _ Hlin j Hj Ij HFj Hd) as Hin.
      apply list_elem_of_lookup in Hin as [p Hp].
      assert (p < 0); [|lia]. eapply (lin_order _ _ _ _ Hlin p 0 j i); [done..|].
      exists r. auto.
    + intros r Hr'. destruct Hc as [_ Hc]. by rewrite <-(Hc i r).
Qed.

(** ** Every path is a linearization *)

Lemma linearization_cons L i lin s s1 s' :
  closed L → minimal L i → TryApply a i s = (true, s1) →
  linearization_from (mark_op L i) lin s1 s' →
  linearization_from L (i :: lin) s s'.
Proof.
  intros Hc (HF&Ii&Hmin) Ha [Hnd Hops Htot Hord Hrun].
  pose proof (closed_lt _ _ _ Hc HF) as Hi.
  assert (Hni : i ∉ lin).
  { intros Hin. destruct (Hops i Hin) as (_&_&HF'). by rewrite mark_op_self in HF' by done. }
  split.
  - by apply NoDup_cons.
  - intros j Hj. apply elem_of_cons in Hj as [->|Hj]; [done|].
    destruct (Hops j Hj) as (Hjn&Ij&HFj). rewrite mark_op_lookup in HFj; [done..|].
    intros ->. done.
  - intros j Hj Ij HFj Hd. destruct (decide (j = i)) as [->|Hne]; [by left|].
    right. apply Htot; [done..| |done]. by rewrite mark_op_lookup.
  - intros [|p] [|q] x y Hp Hq Hxy; simplify_eq/=; [|lia| |].
    + destruct Hxy as (r&Hr&?). destruct (wf_resp x r Hi Ii Hr) as [[? ?] _]. lia.
    + destruct Hxy as (r&Hr&Hlt).
      destruct (Hops x ltac:(by eapply list_elem_of_lookup_2)) as (Hx&Ix&HFx).
      destruct (wf_resp x r Hx Ix Hr) as [[? ?] Ir].
      specialize (Hmin r Hlt Ir). rewrite mark_op_lookup in HFx; [|done..|].
      * destruct Hc as [_ Hc]. rewrite (Hc x r Hx Ix Hr) in HFx. naive_solver.
      * intros ->. apply Hni. by eapply list_elem_of_lookup_2.
    + pose proof (Hord p q x y Hp Hq Hxy). lia.
  - simpl. by rewrite Ha.
Qed.

Lemma path_linearization c c' :
  rtc lin_step c c' → closed c.1 → all_true c'.1 →
  ∃ lin, linearization_from c.1 lin c.2 c'.2.
Proof.
  induction 1 as [[L s]|c1 c2 c3 Hstep Hrtc IH]; intros Hc Ht; simpl in *.
  - exists []. split; [by apply NoDup_nil_2| | |done|done].
    + intros i Hi. by apply not_elem_of_nil in Hi.
    + intros i Hi Ii HF _. rewrite Ht in HF; [done|]. destruct Hc; lia.
  - pose proof (closed_step _ _ Hc Hstep) as Hc2.
    destruct (IH Hc2 Ht) as [lin Hlin].
    destruct Hstep as [L s i s' Hmin Ha Hresp|L s i (HF&Ii&Hmin) Hn Hd]; simpl in *.
    + exists (i :: lin). by eapply linearization_cons.
    + exists lin. destruct Hlin as [Hnd Hops Htot Hord Hrun].
      assert (Hne : ∀ j, j ≠ i → <[i:=true]> L !! j = L !! j).
      { intros j ?. by apply list_lookup_insert_ne. }
      split; [done| | |done|done].
      * intros j Hj. destruct (Hops j Hj) as (Hjn&Ij&HFj). rewrite Hne in HFj; [done|].
        intros ->. rewrite list_lookup_insert_eq in HFj; [done|]. destruct Hc; lia.
      * intros j Hj Ij HFj Hdj. apply Htot; [done..| |done]. rewrite Hne; [done|].
        intros ->. congruence.
Qed.

(** Reaching a complete configuration is having a linearization. *)
Lemma completable_linearization P s :
  completable P (replicate n false) s ↔ ∃ lin s', linearization lin s s' ∧ P s'.
Proof.
  pose proof closed_replicate as Hc. split.
  - intros (L'&s'&Hr&Ht&HP). destruct (path_linearization _ _ Hr Hc Ht) as [lin Hl].
    by exists lin, s'.
  - intros (lin&s'&Hl&HP). destruct (linearization_path _ _ _ _ Hc Hl) as (L'&Hr&Ht).
    by exists L', s'.
Qed.

End Linearizations.

#[export] Hint Resolve closed_replicate closed_mark_op closed_drop closed_lt : ltest.

(** Equivalent states complete together: the relation [eqv] is coarser than
    equality, so the result is a [Proper] instance. *)
#[export] Instance completable_proper {St} (a : Adapter St) (eqv : relation St)
    `{!AdapterCongruence a eqv} (P : St → Prop) `{!Proper (eqv ==> iff) P} L :
  Proper (eqv ==> iff) (completable a P L).
Proof.
  assert (Hsim : ∀ c c', rtc (lin_step a) c c' → ∀ t, eqv c.2 t →
            ∃ t', rtc (lin_step a) (c.1, t) (c'.1, t') ∧ eqv c'.2 t').
  { induction 1 as [[M s]|c1 c2 c3 Hstep Hrtc IH]; intros t Ht; simpl in *.
    - by exists t.
    - destruct Hstep as [M s i s' Hmin Ha Hresp|M s i Hmin Hn Hd]; simpl in *.
      + destruct (congr_apply (a:=a) (eqv:=eqv) i s t Ht) as [Hb He].
        destruct (TryApply a i t) as [b t1] eqn:Hat. rewrite Ha in Hb, He. simplify_eq/=.
        destruct (IH t1 He) as (t'&Hr&He'). exists t'. split; [|done].
        eapply rtc_l; [|done]. by apply lin_step_apply.
      + destruct (IH t Ht) as (t'&Hr&He'). exists t'. split; [|done].
        eapply rtc_l; [|done]. by apply lin_step_drop. }
  assert (Hone : ∀ s t, eqv s t → completable a P L s → completable a P L t).
  { intros s t Hst (L'&s'&Hr&Ht&HP).
    destruct (Hsim _ _ Hr t Hst) as (t'&Hr'&He). exists L', t'.
    split_and!; [done|done|]. by rewrite <-He. }
  intros s t Hst. split; apply Hone; [done|by symmetry].
Qed.
