(* ===== verification/Events.v ===== *)
(** * Sequences of invocation and response events

    The three history builders of the checkers (runtime/lin_check.cpp,
    lincheck_recursive.h, lincheck_dual.h) scan a sequence of events and pair
    every response with the invocation of the same operation. This file is
    the part they share: for any kind of event with a test [is_invoke] and an
    identification [event_key], the well-formedness of a history and the
    pairing [event_answers]. *)
From stdpp Require Import base list gmap.
From S2P Require Import Prelude LinSpec.

Section Events.
Context {E K : Type} `{Countable K} (is_invoke : E → bool) (event_key : E → K).
Implicit Types (h : list E) (e : E).

(** [r] answers the invocation [i]. *)
Definition event_answers h (i r : nat) : Prop :=
  ∃ ei er, h !! i = Some ei ∧ h !! r = Some er ∧ is_invoke ei = true ∧
    is_invoke er = false ∧ event_key ei = event_key er.

Record wf_events h : Prop := {
  wfh_invoke i j ei ej : h !! i = Some ei → h !! j = Some ej →
    is_invoke ei = true → is_invoke ej = true → event_key ei = event_key ej → i = j;
  wfh_response i j ei ej : h !! i = Some ei → h !! j = Some ej →
    is_invoke ei = false → is_invoke ej = false → event_key ei = event_key ej → i = j;
  wfh_matched r er : h !! r = Some er → is_invoke er = false →
    ∃ i ei, i < r ∧ h !! i = Some ei ∧ is_invoke ei = true ∧ event_key ei = event_key er;
}.

(** The executable form. *)
Fixpoint wf_go (opened answered : list K) h : bool :=
  match h with
  | [] => true
  | e :: h =>
      let k := event_key e in
      if is_invoke e then
        negb (bool_decide (k ∈ opened)) && wf_go (k :: opened) answered h
      else
        bool_decide (k ∈ opened) && negb (bool_decide (k ∈ answered)) &&
        wf_go opened (k :: answered) h
  end.

Definition wf_eventsb h : bool := wf_go [] [] h.

Lemma wf_go_fresh o a h i e :
  wf_go o a h = true → h !! i = Some e →
  if is_invoke e then event_key e ∉ o else event_key e ∉ a.
Proof.
  revert o a i. induction h as [|x h IH]; intros o a [|i] Hw Hi; simplify_eq/=.
  - destruct (is_invoke e); rewrite ?andb_true_iff, ?negb_true_iff, ?bool_decide_eq_false in Hw;
      naive_solver.
  - destruct (is_invoke x); rewrite ?andb_true_iff in Hw;
      specialize (IH _ _ i (proj2 Hw) Hi); destruct (is_invoke e); set_solver.
Qed.

Lemma wf_go_unique o a h i j ei ej :
  wf_go o a h = true → h !! i = Some ei → h !! j = Some ej →
  is_invoke ei = is_invoke ej → event_key ei = event_key ej → i = j.
Proof.
  revert o a i j. induction h as [|x h IH]; intros o a [|i] [|j] Hw Hi Hj Hk He;
    simplify_eq/=; [done| | |f_equal].
  - destruct (is_invoke ei) eqn:Ii; rewrite ?andb_true_iff in Hw; destruct Hw as [_ Hw];
      pose proof (wf_go_fresh _ _ _ _ _ Hw Hj) as Hf; rewrite <-Hk, <-He in Hf; set_solver.
  - destruct (is_invoke ej) eqn:Ij; rewrite ?andb_true_iff in Hw; destruct Hw as [_ Hw];
      pose proof (wf_go_fresh _ _ _ _ _ Hw Hi) as Hf; rewrite Hk, He in Hf; set_solver.
  - destruct (is_invoke x); rewrite ?andb_true_iff in Hw; destruct Hw as [_ Hw]; eauto.
Qed.

Lemma wf_go_matched o a h r er :
  wf_go o a h = true → h !! r = Some er → is_invoke er = false →
  event_key er ∈ o ∨
  ∃ i ei, i < r ∧ h !! i = Some ei ∧ is_invoke ei = true ∧ event_key ei = event_key er.
Proof.
  revert o a r. induction h as [|x h IH]; intros o a [|r] Hw Hr Ir; simplify_eq/=.
  - rewrite Ir in Hw. rewrite !andb_true_iff, bool_decide_eq_true in Hw. naive_solver.
  - destruct (is_invoke x) eqn:Ix; rewrite ?andb_true_iff in Hw; destruct Hw as [_ Hw];
      destruct (IH _ _ r Hw Hr Ir) as [Hin|(i&ei&?&?&?&?)].
    + apply elem_of_cons in Hin as [->|]; [|by left].
      right. exists 0, x. split_and!; [lia|done..].
    + right. exists (S i), ei. split_and!; [lia|done..].
    + by left.
    + right. exists (S i), ei. split_and!; [lia|done..].
Qed.

Lemma wf_eventsb_sound h : wf_eventsb h = true → wf_events h.
Proof.
  unfold wf_eventsb. intros Hw. split.
  - intros i j ei ej Hi Hj Ii Ij. eapply wf_go_unique; eauto; congruence.
  - intros i j ei ej Hi Hj Ii Ij. eapply wf_go_unique; eauto; congruence.
  - intros r er Hr Ir. destruct (wf_go_matched _ _ _ _ _ Hw Hr Ir) as [Hin|?]; [|done].
    by apply not_elem_of_nil in Hin.
Qed.

Lemma wf_events_prefix h h' : wf_events (h ++ h') → wf_events h.
Proof.
  intros [Hi Hr Hm]. split.
  - intros i j ei ej Hli Hlj. apply (Hi i j); by apply lookup_app_l_Some.
  - intros i j ei ej Hli Hlj. apply (Hr i j); by apply lookup_app_l_Some.
  - intros r er Hlr Ir. destruct (Hm r er) as (i&ei&Hlt&Hl&?); [by apply lookup_app_l_Some|done|].
    exists i, ei. split_and!; [done| |naive_solver..].
    rewrite lookup_app_l in Hl; [done|]. apply lookup_lt_Some in Hlr. lia.
Qed.

Lemma answers_order h i r : wf_events h → event_answers h i r → i < r.
Proof.
  intros Hw (ei&er&Hi&Hr&Ii&Ir&Hk). destruct (wfh_matched h Hw r er Hr Ir) as (j&ej&?&Hj&Ij&Hk').
  assert (i = j) as ->; [|done]. eapply (wfh_invoke h Hw); eauto. congruence.
Qed.

Lemma answers_unique_response h i r r' :
  wf_events h → event_answers h i r → event_answers h i r' → r = r'.
Proof.
  intros Hw (ei&er&Hi&Hr&Ii&Ir&Hk) (ei'&er'&Hi'&Hr'&Ii'&Ir'&Hk').
  eapply (wfh_response h Hw); eauto. congruence.
Qed.

Lemma answers_unique_invoke h i j r :
  wf_events h → event_answers h i r → event_answers h j r → i = j.
Proof.
  intros Hw (ei&er&Hi&Hr&Ii&Ir&Hk) (ej&er'&Hj&Hr'&Ij&Ir'&Hk').
  eapply (wfh_invoke h Hw); eauto. congruence.
Qed.

Lemma answers_app h e i r :
  event_answers (h ++ [e]) i r ↔
  event_answers h i r ∨
  (r = length h ∧ is_invoke e = false ∧
   ∃ ei, h !! i = Some ei ∧ is_invoke ei = true ∧ event_key ei = event_key e) ∨
  (i = length h ∧ is_invoke e = true ∧
   ∃ er, h !! r = Some er ∧ is_invoke er = false ∧ event_key e = event_key er).
Proof.
  unfold event_answers. setoid_rewrite lookup_snoc_Some. split.
  - intros (ei&er&[[? Hi]|[-> <-]]&[[? Hr]|[-> <-]]&Ii&Ir&Hk); [by left; eauto 10|..].
    + right; left. eauto 10.
    + right; right. eauto 10.
    + congruence.
  - intros [(ei&er&Hi&Hr&?)|[(->&Ie&ei&Hi&?)|(->&Ie&er&Hr&?)]].
    + apply lookup_lt_Some in Hi as ?. apply lookup_lt_Some in Hr as ?. naive_solver.
    + apply lookup_lt_Some in Hi as ?. exists ei, e. naive_solver.
    + apply lookup_lt_Some in Hr as ?. exists e, er. naive_solver.
Qed.

(** In a well-formed history a new invocation has no earlier response. *)
Lemma answers_snoc h e i r :
  wf_events (h ++ [e]) →
  event_answers (h ++ [e]) i r ↔
  event_answers h i r ∨
  (r = length h ∧ is_invoke e = false ∧
   ∃ ei, h !! i = Some ei ∧ is_invoke ei = true ∧ event_key ei = event_key e).
Proof.
  intros Hw. rewrite answers_app. split; [|tauto].
  intros [?|[?|(->&Ie&er&Hr&Ir&Hk)]]; [tauto|tauto|].
  destruct (wfh_matched _ Hw r er) as (j&ej&Hjr&Hj&Ij&Hk').
  { by apply lookup_app_l_Some. }
  { done. }
  apply lookup_lt_Some in Hr as Hlr.
  assert (j = length h); [|lia].
  eapply (wfh_invoke _ Hw j (length h) ej e); eauto; [|congruence].
  rewrite lookup_app_r by lia. by rewrite Nat.sub_diag.
Qed.

(** ** An adapter that answers by [event_answers] is well formed *)
Lemma history_adapter_wf {St} h (a : Adapter St) :
  wf_events h →
  (∀ i e, h !! i = Some e → IsInvoke a i = is_invoke e ∧ IsResponse a i = negb (is_invoke e)) →
  (∀ i e r, h !! i = Some e → is_invoke e = true → ResponseIndex a i = Some r ↔ event_answers h i r) →
  (∀ i, CanDropPendingInvoke a i = true → ResponseIndex a i = None) →
  AdapterWf (length h) a.
Proof.
  intros Hw Hkind Hresp Hdrop.
  assert (Hinv : ∀ i, i < length h → IsInvoke a i = true →
            ∃ e, h !! i = Some e ∧ is_invoke e = true).
  { intros i Hi Ii. apply lookup_lt_is_Some in Hi as [e He].
    destruct (Hkind i e He) as [Hk _]. exists e. split; [done|congruence]. }
  split; [| | | |exact Hdrop].
  - intros i Hi. apply lookup_lt_is_Some in Hi as [e He].
    destruct (Hkind i e He) as [-> ->]. by destruct (is_invoke e).
  - intros i r Hi Ii Hr. destruct (Hinv i Hi Ii) as (e&He&Ie).
    apply (Hresp i e r He Ie) in Hr. pose proof (answers_order h i r Hw Hr).
    destruct Hr as (_&er&_&Hr&_&Ir&_). apply lookup_lt_Some in Hr as ?.
    split; [lia|]. destruct (Hkind r er Hr) as [_ ->]. by rewrite Ir.
  - intros r Hr Rr. apply lookup_lt_is_Some in Hr as [er Her].
    destruct (Hkind r er Her) as [_ Hk]. rewrite Rr in Hk. symmetry in Hk.
    apply negb_true_iff in Hk.
    destruct (wfh_matched h Hw r er Her Hk) as (i&ei&Hlt&Hi&Ii&Hkey).
    apply lookup_lt_Some in Hi as ?. exists i. destruct (Hkind i ei Hi) as [-> _].
    split_and!; [done|done|]. apply (Hresp i ei r Hi Ii).
    by exists ei, er.
  - intros i j r Hi Hj Ii Ij Hr Hr'. destruct (Hinv i Hi Ii) as (ei&Hei&Iei).
    destruct (Hinv j Hj Ij) as (ej&Hej&Iej).
    apply (Hresp i ei r Hei Iei) in Hr. apply (Hresp j ej r Hej Iej) in Hr'.
    by eapply answers_unique_invoke.
Qed.

(** ** Maps from a task to the index of its invocation

    The three history builders keep such a map while they scan the history;
    these lemmas say what one more event does to it. *)
Definition uids_ok h (m : gmap K nat) : Prop :=
  ∀ k i, m !! k = Some i ↔
    ∃ e, h !! i = Some e ∧ is_invoke e = true ∧ event_key e = k.

Lemma uids_ok_nil : uids_ok [] ∅.
Proof. intros k i. split; [done|]. by intros (?&?&_). Qed.

Lemma lookup_snoc_eq h e : (h ++ [e]) !! length h = Some e.
Proof. apply lookup_snoc_Some. auto. Qed.

Lemma uids_ok_invoke h e m :
  wf_events (h ++ [e]) → is_invoke e = true → uids_ok h m →
  uids_ok (h ++ [e]) (<[event_key e := length h]> m).
Proof.
  intros Hw Ie Hu k i. setoid_rewrite lookup_snoc_Some.
  destruct (decide (event_key e = k)) as [<-|Hne].
  - rewrite lookup_insert_eq. split.
    + intros [= <-]. eexists. split; [by right|done].
    + intros (e'&[[Hlt Hi]|[-> <-]]&Ie'&Hk); [|done]. f_equal.
      eapply (wfh_invoke _ Hw); [apply lookup_snoc_eq|by apply lookup_app_l_Some|done..].
  - rewrite lookup_insert_ne by done. rewrite (Hu k i). split.
    + intros (e'&He'&?). apply lookup_lt_Some in He' as ?. exists e'. naive_solver.
    + intros (e'&[[Hlt Hi]|[-> <-]]&Ie'&Hk); [eauto|done].
Qed.

Lemma uids_ok_response h e m :
  is_invoke e = false → uids_ok h m → uids_ok (h ++ [e]) m.
Proof.
  intros Ie Hu k i. setoid_rewrite lookup_snoc_Some. rewrite (Hu k i). split.
  - intros (e'&He'&?). apply lookup_lt_Some in He' as ?. exists e'. naive_solver.
  - intros (e'&[[_ Hi]|[-> <-]]&Ie'&Hk); [eauto|congruence].
Qed.

(** A response finds its invocation, which had no response before. *)
Lemma uids_ok_find h e m :
  wf_events (h ++ [e]) → is_invoke e = false → uids_ok h m →
  ∃ i0, m !! event_key e = Some i0 ∧ i0 < length h ∧ (∀ r, ¬ event_answers h i0 r) ∧
    (∃ e0, h !! i0 = Some e0 ∧ is_invoke e0 = true) ∧
    ∀ i r, event_answers (h ++ [e]) i r ↔ event_answers h i r ∨ (i = i0 ∧ r = length h).
Proof.
  intros Hw Ie Hu.
  destruct (wfh_matched _ Hw (length h) e) as (i0&e0&Hlt&Hi0&Ie0&Hk0); [apply lookup_snoc_eq|done|].
  rewrite lookup_app_l in Hi0 by done.
  exists i0. split_and!; [apply Hu; eauto|done| |eauto|].
  - intros r (ei&er&Hi&Hr&Ii&Ir&Hk). simplify_eq. apply lookup_lt_Some in Hr as Hlr.
    assert (r = length h); [|lia].
    eapply (wfh_response _ Hw r (length h)); [by apply lookup_app_l_Some|apply lookup_snoc_eq|done..|].
    congruence.
  - intros i r. rewrite answers_snoc by done. split.
    + intros [?|(->&_&ei&Hi&Ii&Hk)]; [by left|]. right. split; [|done].
      eapply (wfh_invoke _ (wf_events_prefix _ _ Hw)); eauto. congruence.
    + intros [?|[-> ->]]; [by left|]. right. split_and!; [done..|]. by exists e0.
Qed.

Lemma answers_snoc_invoke h e i r :
  wf_events (h ++ [e]) → is_invoke e = true → event_answers (h ++ [e]) i r ↔ event_answers h i r.
Proof. intros Hw Ie. rewrite answers_snoc by done. rewrite Ie. naive_solver. Qed.

Lemma answers_lt h i r : event_answers h i r → i < length h ∧ r < length h.
Proof. intros (?&?&Hi&Hr&_). split; by eapply lookup_lt_Some. Qed.

(** ** Histories that grow *)
Lemma wf_events_nil : wf_events [].
Proof. by split. Qed.

Lemma wf_events_invoke h e :
  wf_events h → is_invoke e = true →
  (∀ e', e' ∈ h → is_invoke e' = true → event_key e' ≠ event_key e) → wf_events (h ++ [e]).
Proof.
  intros [Hi Hr Hm] Ie Hnew. split.
  - intros i j ei ej [[_ Hei]|[-> <-]]%lookup_snoc_Some [[_ Hej]|[-> <-]]%lookup_snoc_Some Ii Ij Hk; [eauto|..|done].
    + by destruct (Hnew ei); [eapply list_elem_of_lookup_2| |].
    + by destruct (Hnew ej); [eapply list_elem_of_lookup_2| |].
  - intros i j ei ej [[_ Hei]|[-> <-]]%lookup_snoc_Some [[_ Hej]|[-> <-]]%lookup_snoc_Some Ii Ij Hk;
      [eauto|congruence..].
  - intros r er [[_ Hr']|[-> <-]]%lookup_snoc_Some Ir; [|congruence].
    destruct (Hm r er Hr' Ir) as (i&ei&?&?&?&?). exists i, ei. split_and!; try done.
    by apply lookup_app_l_Some.
Qed.

Lemma wf_events_response h e :
  wf_events h → is_invoke e = false →
  (∃ e', e' ∈ h ∧ is_invoke e' = true ∧ event_key e' = event_key e) →
  (∀ e', e' ∈ h → is_invoke e' = false → event_key e' ≠ event_key e) → wf_events (h ++ [e]).
Proof.
  intros [Hi Hr Hm] Ie Hin Hnew. split.
  - intros i j ei ej [[_ Hei]|[-> <-]]%lookup_snoc_Some [[_ Hej]|[-> <-]]%lookup_snoc_Some Ii Ij Hk;
      [eauto|congruence..].
  - intros i j ei ej [[_ Hei]|[-> <-]]%lookup_snoc_Some [[_ Hej]|[-> <-]]%lookup_snoc_Some Ii Ij Hk; [eauto|..|done].
    + by destruct (Hnew ei); [eapply list_elem_of_lookup_2| |].
    + by destruct (Hnew ej); [eapply list_elem_of_lookup_2| |].
  - intros r er [[_ Hr']|[-> <-]]%lookup_snoc_Some Ir.
    + destruct (Hm r er Hr' Ir) as (i&ei&?&?&?&?). exists i, ei. split_and!; try done.
      by apply lookup_app_l_Some.
    + destruct Hin as (e'&(i&Hi')%list_elem_of_lookup_1&?&?). exists i, e'.
      split_and!; try done; [by eapply lookup_lt_Some|]. by apply lookup_app_l_Some.
Qed.

End Events.

(** Well-formedness only depends on the kinds and the keys. *)
Lemma wf_events_fmap {E K E' K'} `{Countable K, Countable K'} (inv : E → bool) (key : E → K)
    (inv' : E' → bool) (key' : E' → K') (g : E → E') h :
  (∀ e, e ∈ h → inv' (g e) = inv e) →
  (∀ e f, e ∈ h → f ∈ h → key' (g e) = key' (g f) ↔ key e = key f) →
  wf_events inv key h → wf_events inv' key' (g <$> h).
Proof.
  intros Hinv Hkey [Hi Hr Hm].
  assert (∀ i e, h !! i = Some e → e ∈ h) as Hin by (intros; by eapply list_elem_of_lookup_2).
  split.
  - intros i j ei ej (fi&->&Hfi)%list_lookup_fmap_Some (fj&->&Hfj)%list_lookup_fmap_Some.
    rewrite !Hinv, Hkey by eauto. eauto.
  - intros i j ei ej (fi&->&Hfi)%list_lookup_fmap_Some (fj&->&Hfj)%list_lookup_fmap_Some.
    rewrite !Hinv, Hkey by eauto. eauto.
  - intros r er (fr&->&Hfr)%list_lookup_fmap_Some. rewrite Hinv by eauto. intros Ir.
    destruct (Hm r fr Hfr Ir) as (i&fi&?&Hfi&?&?). exists i, (g fi).
    rewrite list_lookup_fmap, Hfi, Hinv, Hkey by eauto. done.
Qed.

(** ** The scan that fills one record per event

    [BuildRecursiveHistoryEventInfo] and [BuildDualHistoryEventInfo] have the
    same loop: fill the record of the event; for an invocation remember its
    index by task and by operation id; for a response store its index in the
    record of the invocation found by task or else by operation id. They
    differ in the record [D] and in how it is filled. *)
Record build_st (K I D : Type) `{Countable K} `{Countable I} := mkBuild {
  b_index : nat;
  b_info : list D;
  b_by_task : gmap K nat;
  b_by_id : gmap I nat;
}.
Arguments mkBuild {K I D _ _ _ _} _ _ _ _.
Arguments b_index {K I D _ _ _ _} _.
Arguments b_info {K I D _ _ _ _} _.
Arguments b_by_task {K I D _ _ _ _} _.
Arguments b_by_id {K I D _ _ _ _} _.

Section Builder.
Context {E K I D : Type} `{Countable K} `{Countable I}.
Context (is_invoke : E → bool) (event_key : E → K) (event_id : E → I).
Context (fill : E → D → D) (set_response_index : nat → D → D) (default : D).
Implicit Types (h : list E) (e : E).

Definition build_step (st : build_st K I D) e : build_st K I D :=
  let i := b_index st in
  let info := alter (fill e) i (b_info st) in
  if is_invoke e then
    mkBuild (S i) info (<[event_key e := i]> (b_by_task st)) (<[event_id e := i]> (b_by_id st))
  else
    let info :=
      match b_by_task st !! event_key e with
      | Some j => alter (set_response_index i) j info
      | None =>
          match b_by_id st !! event_id e with
          | Some j => alter (set_response_index i) j info
          | None => info
          end
      end in
    mkBuild (S i) info (b_by_task st) (b_by_id st).

Definition build_events h : list D :=
  b_info (fold_left build_step h (mkBuild 0 (replicate (length h) default) ∅ ∅)).

Abbreviation wf := (wf_events is_invoke event_key).
Abbreviation ans := (event_answers is_invoke event_key).

(** What the record of event [e] at index [i] holds after the prefix [h]. *)
Definition info_ok h (i : nat) e (d : D) : Prop :=
  (∃ r, ans h i r ∧ d = set_response_index r (fill e default)) ∨
  ((∀ r, ¬ ans h i r) ∧ d = fill e default).

Definition build_ok (N : nat) h (st : build_st K I D) : Prop :=
  b_index st = length h ∧ length (b_info st) = N ∧
  uids_ok is_invoke event_key h (b_by_task st) ∧
  (∀ i e, h !! i = Some e → ∃ d, b_info st !! i = Some d ∧ info_ok h i e d) ∧
  (∀ i, length h ≤ i < N → b_info st !! i = Some default).

Lemma info_ok_mono h e' i e d :
  (∀ r, ans (h ++ [e']) i r ↔ ans h i r) → info_ok h i e d → info_ok (h ++ [e']) i e d.
Proof.
  intros Ha [(r&Hr&->)|[Hn ->]]; [left; exists r|right]; split; try done.
  - by apply Ha.
  - intros r Hr. apply Ha in Hr. by apply Hn in Hr.
Qed.

Lemma build_step_invoke N h e st :
  is_invoke e = true → wf (h ++ [e]) → length h < N → build_ok N h st →
  build_ok N (h ++ [e]) (build_step st e).
Proof.
  intros Ie Hw HN (Hidx&Hlen&Hu&Hin&Hout). unfold build_ok, build_step. rewrite Ie. simpl.
  rewrite Hidx. split_and!.
  - rewrite length_app. simpl. lia.
  - by rewrite length_alter.
  - by apply uids_ok_invoke.
  - intros i e' [[Hlt Hi]|[-> <-]]%lookup_snoc_Some.
    + destruct (Hin i e' Hi) as (d&Hd&Hok). exists d.
      rewrite list_lookup_alter_ne by lia. split; [done|].
      apply info_ok_mono; [|done]. intros r. by apply answers_snoc_invoke.
    + eexists. rewrite list_lookup_alter_eq, (Hout (length h)) by lia. split; [done|].
      right. split; [|done]. intros r. rewrite answers_snoc_invoke by done.
      intros [? _]%answers_lt. lia.
  - intros i. rewrite length_app. simpl. intros ?.
    rewrite list_lookup_alter_ne by lia. apply Hout. lia.
Qed.

Lemma build_step_response N h e st :
  is_invoke e = false → wf (h ++ [e]) → length h < N → build_ok N h st →
  build_ok N (h ++ [e]) (build_step st e).
Proof.
  intros Ie Hw HN (Hidx&Hlen&Hu&Hin&Hout). unfold build_ok, build_step. rewrite Ie. simpl.
  rewrite Hidx. destruct (uids_ok_find _ _ _ _ _ Hw Ie Hu) as (i0&->&Hlt0&Hnone&_&Hans).
  split_and!.
  - rewrite length_app. simpl. lia.
  - by rewrite !length_alter.
  - by apply uids_ok_response.
  - intros i e' [[Hlt Hi]|[-> <-]]%lookup_snoc_Some.
    + destruct (Hin i e' Hi) as (d&Hd&Hok). destruct (decide (i = i0)) as [->|Hne].
      * exists (set_response_index (length h) d).
        rewrite list_lookup_alter_eq, list_lookup_alter_ne, Hd by lia. split; [done|].
        left. exists (length h). split; [apply Hans; auto|].
        destruct Hok as [(r&Hr&_)|[_ ->]]; [|done]. by apply Hnone in Hr.
      * exists d. rewrite !list_lookup_alter_ne by lia. split; [done|].
        apply info_ok_mono; [|done]. intros r. rewrite Hans. naive_solver.
    + eexists. rewrite list_lookup_alter_ne, list_lookup_alter_eq, (Hout (length h)) by lia.
      split; [done|]. right. split; [|done]. intros r Hr. apply Hans in Hr as [[? _]%answers_lt|[? _]]; lia.
  - intros i. rewrite length_app. simpl. intros ?.
    rewrite !list_lookup_alter_ne by lia. apply Hout. lia.
Qed.

Lemma build_fold_ok N h :
  wf h → length h ≤ N →
  build_ok N h (fold_left build_step h (mkBuild 0 (replicate N default) ∅ ∅)).
Proof.
  induction h as [|e h IH] using rev_ind; intros Hw HN.
  { split_and!; simpl; [done|apply length_replicate|apply uids_ok_nil|done|].
    intros i ?. apply lookup_replicate_2. lia. }
  rewrite length_app in HN. simpl in HN.
  rewrite fold_left_app. simpl. specialize (IH (wf_events_prefix _ _ _ _ Hw) ltac:(lia)).
  destruct (is_invoke e) eqn:Ie; [apply build_step_invoke|apply build_step_response]; auto; lia.
Qed.

Lemma build_events_lookup h i e :
  wf h → h !! i = Some e → ∃ d, build_events h !! i = Some d ∧ info_ok h i e d.
Proof.
  intros Hw Hi. destruct (build_fold_ok (length h) h Hw) as (_&_&_&Hin&_); [done|]. by apply Hin.
Qed.

Lemma build_events_length h : wf h → length (build_events h) = length h.
Proof. intros Hw. by destruct (build_fold_ok (length h) h Hw) as (_&?&_). Qed.

End Builder.
