(* ===== verification/History.v ===== *)
(** * Histories of invocations and responses

    Models the event types of runtime/include/lincheck.h, the mapping
    [get_inv_res_mapping] of runtime/lin_check.cpp, and the well-formedness
    every checker relies on: an operation is invoked once and answered at
    most once, after its invocation. *)
From stdpp Require Import base list gmap strings.
From Stdlib Require Import ZArith.
From S2P Require Import Prelude LinSpec Events.

(** A task as the checkers see it. An event holds a reference to a task
    handle ([std::reference_wrapper<const Task>]): [task_ref] is the address
    of the handle, [task_ptr] the coroutine object the handle owns.
    [task_ret] is [None] until the task has returned. *)
Record Task (A V : Type) := mkTask {
  task_ref : nat;
  task_ptr : nat;
  task_id : Z;
  task_name : string;
  task_args : A;
  task_ret : option V;
}.
Arguments mkTask {A V} _ _ _ _ _ _.
Arguments task_ref {A V} _.
Arguments task_ptr {A V} _.
Arguments task_id {A V} _.
Arguments task_name {A V} _.
Arguments task_args {A V} _.
Arguments task_ret {A V} _.

Inductive HistoryEvent (A V : Type) :=
  | Invoke (task : Task A V) (thread_id : Z)
  | Response (task : Task A V) (result : V) (thread_id : Z).
Arguments Invoke {A V} _ _.
Arguments Response {A V} _ _ _.

(** [CoroBase::GetRetVal] asserts that the task has returned. *)
Definition GetRetVal {A V} (t : Task A V) : outcome V :=
  match task_ret t with Some v => Ret v | None => AssertFail end.

Definition GetTask {A V} (e : HistoryEvent A V) : Task A V :=
  match e with Invoke t _ => t | Response t _ _ => t end.

Definition is_invoke {A V} (e : HistoryEvent A V) : bool :=
  match e with Invoke _ _ => true | Response _ _ _ => false end.

(** Tasks are identified by a field [key]: the address of the handle for
    the iterative checker, the coroutine object for the recursive ones. *)
Definition event_key {A V} (key : Task A V → nat) (e : HistoryEvent A V) : nat :=
  key (GetTask e).

Abbreviation wf_history key h := (wf_events is_invoke (event_key key) h).
Abbreviation wf_historyb key h := (wf_eventsb is_invoke (event_key key) h).
Abbreviation answers key h i r := (event_answers is_invoke (event_key key) h i r).


(** ** [get_inv_res_mapping] (runtime/lin_check.cpp) *)
Section InvRes.
Context {A V : Type}.
Implicit Types (h : list (HistoryEvent A V)) (e : HistoryEvent A V).

Record inv_res_st := mkIR {
  ir_index : nat;
  ir_uids : gmap nat nat;
  ir_map : gmap nat nat;
}.

Definition inv_res_step (st : outcome inv_res_st) e : outcome inv_res_st :=
  st ← st;
  match e with
  | Invoke t _ =>
      Ret (mkIR (S (ir_index st)) (<[task_ref t := ir_index st]> (ir_uids st)) (ir_map st))
  | Response t _ _ =>
      inv_id ← match ir_uids st !! task_ref t with
               | Some i => Ret i
               | None => AssertFail
               end;
      Ret (mkIR (S (ir_index st)) (ir_uids st) (<[inv_id := ir_index st]> (ir_map st)))
  end.

Definition get_inv_res_mapping h : outcome (gmap nat nat) :=
  st ← fold_left inv_res_step h (Ret (mkIR 0 ∅ ∅)); Ret (ir_map st).

Lemma inv_res_fold h :
  wf_history task_ref h →
  ∃ st, fold_left inv_res_step h (Ret (mkIR 0 ∅ ∅)) = Ret st ∧
    ir_index st = length h ∧ uids_ok is_invoke (event_key task_ref) h (ir_uids st) ∧
    (∀ i r, ir_map st !! i = Some r ↔ answers task_ref h i r).
Proof.
  induction h as [|e h IH] using rev_ind; intros Hw.
  { exists (mkIR 0 ∅ ∅). split_and!; [done|done|apply uids_ok_nil|].
    intros i r. split; [done|]. by intros (?&?&?&_). }
  destruct (IH (wf_events_prefix _ _ _ _ Hw)) as (st&Hf&Hidx&Hu&Hm).
  rewrite fold_left_app, Hf. simpl. destruct (is_invoke e) eqn:Ie.
  - destruct e as [t tid|]; [|done]. eexists. split; [done|]. simpl. rewrite Hidx.
    split_and!.
    + rewrite length_app. simpl. lia.
    + by apply (uids_ok_invoke is_invoke (event_key task_ref) h (Invoke t tid)).
    + intros i r. by rewrite Hm, answers_snoc_invoke.
  - destruct (uids_ok_find _ _ _ _ _ Hw Ie Hu) as (i0&Hi0&Hlt&Hnone&_&Hans).
    destruct e as [|t res tid]; [done|]. unfold event_key in Hi0. simpl in Hi0.
    rewrite Hi0. simpl. eexists. split; [done|]. simpl. rewrite Hidx. split_and!.
    + rewrite length_app. simpl. lia.
    + by apply uids_ok_response.
    + intros i r. rewrite Hans. destruct (decide (i0 = i)) as [<-|Hne].
      * rewrite lookup_insert_eq. pose proof (Hnone r).
        split; [intros [= <-]; by right|by intros [?|[_ ->]]].
      * rewrite lookup_insert_ne, Hm by done. naive_solver.
Qed.

(** The mapping holds exactly the answered invocations. *)
Lemma get_inv_res_mapping_spec h :
  wf_history task_ref h →
  ∃ m, get_inv_res_mapping h = Ret m ∧ ∀ i r, m !! i = Some r ↔ answers task_ref h i r.
Proof.
  intros Hw. destruct (inv_res_fold h Hw) as (st&Hf&_&_&Hm).
  exists (ir_map st). unfold get_inv_res_mapping. by rewrite Hf.
Qed.

End InvRes.
