(* ===== verification/Linearizability.v ===== *)
(** * Linearizability of a history with respect to a sequential specification

    The contract of [ModelChecker::Check] (runtime/include/lincheck.h): the
    history has a sequential explanation. A specification is the map from
    method names to methods that the checkers are constructed with; a method
    takes the state and the arguments and returns the new state and the
    result. This is the definition of Herlihy and Wing: operations without a
    response may take effect or not. *)
From stdpp Require Import base list gmap strings.
From S2P Require Import Prelude LinSpec Events History.

(** [MethodMap]: from method names to the methods of the specification. *)
Abbreviation MethodMap St A V := (gmap string (St → A → St * V)).

Section Linearizable.
Context {St A V : Type} (methods : MethodMap St A V) (veq : V → V → bool).
Context (key : Task A V → nat) (h : list (HistoryEvent A V)).

(** The specification result [v] agrees with the response of [i], if any. *)
Definition agrees (i : nat) (v : V) : Prop :=
  ∀ r u w th, answers key h i r → h !! r = Some (Response u w th) → veq v w = true.

(** The operations of [lin], run one after the other from [s]. *)
Inductive legal : list nat → St → Prop :=
  | legal_nil s : legal [] s
  | legal_cons i lin s t th m :
      h !! i = Some (Invoke t th) →
      methods !! task_name t = Some m →
      agrees i (m s (task_args t)).2 →
      legal lin (m s (task_args t)).1 →
      legal (i :: lin) s.

Record sequential_witness (lin : list nat) (s : St) : Prop := {
  sw_nodup : NoDup lin;
  sw_completed i r : answers key h i r → i ∈ lin;
  sw_order p q i j r : lin !! p = Some i → lin !! q = Some j →
    answers key h i r → r < j → p < q;
  sw_legal : legal lin s;
}.

Definition linearizable (s : St) : Prop := ∃ lin, sequential_witness lin s.

(** Every invoked method is part of the specification. *)
Definition methods_known : Prop :=
  ∀ i t th, h !! i = Some (Invoke t th) → is_Some (methods !! task_name t).

(** ** Adapters that run the specification *)

Class SpecAdapter (a : Adapter St) : Prop := {
  sa_kind i e : h !! i = Some e →
    IsInvoke a i = is_invoke e ∧ IsResponse a i = negb (is_invoke e);
  sa_response i e r : h !! i = Some e → is_invoke e = true →
    ResponseIndex a i = Some r ↔ answers key h i r;
  sa_drop i : CanDropPendingInvoke a i = false;
  sa_apply i t th m s b s' : h !! i = Some (Invoke t th) → methods !! task_name t = Some m →
    TryApply a i s = (b, s') →
    (b = true ↔ agrees i (m s (task_args t)).2) ∧ (b = true → s' = (m s (task_args t)).1);
}.

Context (a : Adapter St) `{!SpecAdapter a}.
Context (Hwf : wf_history key h) (Hknown : methods_known).

#[local] Instance spec_adapter_wf : AdapterWf (length h) a.
Proof.
  apply (history_adapter_wf is_invoke (event_key key) h a Hwf).
  - apply sa_kind.
  - apply sa_response.
  - intros i Hd. by rewrite sa_drop in Hd.
Qed.

Lemma invoke_lookup i :
  i < length h → IsInvoke a i = true ↔ ∃ t th, h !! i = Some (Invoke t th).
Proof.
  intros Hi. apply lookup_lt_is_Some in Hi as [e He]. destruct (sa_kind i e He) as [-> _].
  rewrite He. destruct e; naive_solver.
Qed.

Lemma answers_invoke i r : answers key h i r → ∃ t th, h !! i = Some (Invoke t th).
Proof. intros ([]&er&Hi&_&Ii&_); naive_solver. Qed.

Lemma precedes_answers i j :
  i < length h → IsInvoke a i = true →
  precedes a i j ↔ ∃ r, answers key h i r ∧ r < j.
Proof.
  intros Hi Ii. apply invoke_lookup in Ii as (t&th&He); [|done]. unfold precedes.
  split; intros (r&Hr&?); exists r; split; try done; eapply sa_response; eauto; done.
Qed.

Lemma run_legal lin s s' :
  (∀ i, i ∈ lin → i < length h ∧ IsInvoke a i = true) →
  run a lin s = Some s' → legal lin s.
Proof.
  revert s. induction lin as [|i lin IH]; intros s Hops Hr; [constructor|].
  simpl in Hr. destruct (TryApply a i s) as [[] s1] eqn:Ha; [|done].
  destruct (Hops i) as [Hi Ii]; [by left|].
  apply invoke_lookup in Ii as (t&th&He); [|done]. destruct (Hknown i t th He) as [m Hm].
  destruct (sa_apply i t th m s true s1 He Hm Ha) as [Hag Hs]. rewrite Hs in Hr by done.
  econstructor; [done..|naive_solver|]. apply IH; [|done]. intros j ?. apply Hops. by right.
Qed.

Lemma legal_run lin s : legal lin s → ∃ s', run a lin s = Some s'.
Proof.
  induction 1 as [s|i lin s t th m Hi Hm Hag Hl [s' IH]]; [by eexists|].
  simpl. destruct (TryApply a i s) as [b s1] eqn:Ha.
  destruct (sa_apply i t th m s b s1 Hi Hm Ha) as [Hb Hs].
  assert (b = true) as -> by by apply Hb. rewrite Hs by done. eauto.
Qed.

(** Pending operations can always be appended at the end. *)
Lemma legal_app_pending lin pend s :
  legal lin s →
  (∀ i, i ∈ pend → ∃ t th, h !! i = Some (Invoke t th) ∧ ∀ r, ¬ answers key h i r) →
  legal (lin ++ pend) s.
Proof.
  induction 1 as [s|i lin s t th m Hi Hm Hag Hl IH]; intros Hp; simpl.
  - revert s. induction pend as [|i pend IHp]; intros s; [constructor|].
    destruct (Hp i) as (t&th&Hi&Hn); [by left|]. destruct (Hknown i t th Hi) as [m Hm].
    econstructor; [done..| |].
    + intros r u w th' Hans. by apply Hn in Hans.
    + apply IHp. intros j ?. apply Hp. by right.
  - econstructor; eauto.
Qed.

Lemma linearization_linearizable lin s s' :
  linearization (length h) a lin s s' → sequential_witness lin s.
Proof.
  intros [Hnd Hops Htot Hord Hrun]. split; [done| | |].
  - intros i r Hans. destruct (answers_invoke i r Hans) as (t&th&He).
    apply lookup_lt_Some in He as Hi. apply Htot; [done| |by apply lookup_replicate_2|apply sa_drop].
    apply invoke_lookup; eauto.
  - intros p q i j r Hp Hq Hans Hlt. eapply Hord; eauto.
    destruct (Hops i) as (?&?&_); [by eapply list_elem_of_lookup_2|].
    apply precedes_answers; eauto.
  - eapply run_legal; eauto. intros i Hi. destruct (Hops i Hi) as (?&?&_). done.
Qed.

Definition missing (lin : list nat) : list nat :=
  filter (λ i, IsInvoke a i = true ∧ i ∉ lin) (seq 0 (length h)).

Lemma missing_spec lin i : i ∈ missing lin ↔ i < length h ∧ IsInvoke a i = true ∧ i ∉ lin.
Proof. unfold missing. rewrite list_elem_of_filter, elem_of_seq. naive_solver lia. Qed.

Lemma legal_ops lin s i : legal lin s → i ∈ lin → i < length h ∧ IsInvoke a i = true.
Proof.
  induction 1 as [s|j lin s t th m Hj]; intros Hin.
  - by apply not_elem_of_nil in Hin.
  - apply elem_of_cons in Hin as [->|]; [|auto]. apply lookup_lt_Some in Hj as ?.
    split; [done|]. apply invoke_lookup; eauto.
Qed.

Lemma linearizable_linearization lin s :
  sequential_witness lin s → ∃ s', linearization (length h) a (lin ++ missing lin) s s'.
Proof.
  intros [Hnd Hcomp Hord Hleg].
  assert (Hnone : ∀ i r, i ∈ missing lin → ¬ answers key h i r).
  { intros i r Hi Hans. apply missing_spec in Hi as (_&_&Hn). apply Hn. eauto. }
  destruct (legal_run (lin ++ missing lin) s) as [s' Hr].
  { apply legal_app_pending; [done|]. intros i Hi. pose proof (Hnone i) as Hn.
    apply missing_spec in Hi as Hi'. destruct Hi' as (Hlt&Ii&_).
    apply invoke_lookup in Ii as (t&th&He); [|done]. naive_solver. }
  assert (Hops : ∀ i, i ∈ lin ++ missing lin → i < length h ∧ IsInvoke a i = true).
  { intros i [Hi|Hi]%elem_of_app; [by eapply legal_ops|]. apply missing_spec in Hi. tauto. }
  exists s'. split; [| | | |done].
  - apply NoDup_app. split_and!; [done| |].
    + intros i Hi Hm. apply missing_spec in Hm. tauto.
    + apply NoDup_filter, NoDup_seq.
  - intros i Hi. destruct (Hops i Hi). split_and!; [done..|]. by apply lookup_replicate_2.
  - intros i Hi Ii _ _. rewrite elem_of_app, missing_spec. destruct (decide (i ∈ lin)); tauto.
  - intros p q i j Hp Hq Hpre.
    destruct (Hops i) as [Hi Ii]; [by eapply list_elem_of_lookup_2|].
    apply precedes_answers in Hpre as (r&Hans&Hlt); [|done..].
    destruct (decide (p < length lin)) as [Hpl|Hpl].
    + rewrite lookup_app_l in Hp by done. destruct (decide (q < length lin)) as [Hql|]; [|lia].
      rewrite lookup_app_l in Hq by done. eauto.
    + rewrite lookup_app_r in Hp by lia. apply list_elem_of_lookup_2 in Hp.
      by apply Hnone in Hans.
Qed.

(** The adapter's linearizations explain exactly the linearizable histories. *)
Lemma spec_adapter_linearizable s :
  completable a (λ _, True) (replicate (length h) false) s ↔ linearizable s.
Proof.
  rewrite (completable_linearization (length h) a). split.
  - intros (lin&s'&Hl&_). exists lin. by eapply linearization_linearizable.
  - intros [lin Hl]. destruct (linearizable_linearization lin s Hl) as [s' ?].
    by exists (lin ++ missing lin), s'.
Qed.

End Linearizable.
