(* ===== verification/Search.v ===== *)
(** * The shared recursive linearization search

    Models runtime/include/linearization_search.h: the failure cache with its
    64-bit key hash, the recursive [step] lambda with its inner loop over the
    events, and the public entry points. The vector [linearized] and the
    cache are the mutable variables the lambda captures by reference; they
    are threaded through the calls in [search_st]. *)
From stdpp Require Import base list relations gmap.
From Stdlib Require Import ZArith.
From S2P Require Import Prelude LinSpec.

(** Unsigned 64-bit wrap-around ([size_t]). *)
Definition u64 (z : Z) : Z := (z mod 2 ^ 64)%Z.

Record SearchCacheKey (St : Type) := mkKey { key_linearized : list bool; key_state : St }.
Arguments mkKey {St} _ _.
Arguments key_linearized {St} _.
Arguments key_state {St} _.

Record search_st (St : Type) := mkSt {
  linearized : list bool;
  failed : list (SearchCacheKey St);
}.
Arguments mkSt {St} _ _.
Arguments linearized {St} _.
Arguments failed {St} _.

Definition AcceptAnyCompletedLinearization {St : Type} (_ : St) : bool := true.

Section Search.
Context {St : Type} (Hash : St → Z) (Equal : St → St → bool) (Enabled : bool).

Definition SearchCacheKeyHash (key : SearchCacheKey St) : Z :=
  let h := fold_left (λ h (v : bool), u64 (Z.lxor h (Z.b2z v) * 1099511628211))
             (key_linearized key) 1469598103934665603%Z in
  Z.lxor h (u64 (Hash (key_state key) + 0x9e3779b97f4a7c15 + Z.shiftl h 6 + Z.shiftr h 2)).

Definition SearchCacheKeyEqual (lhs rhs : SearchCacheKey St) : bool :=
  bool_decide (key_linearized lhs = key_linearized rhs) &&
  Equal (key_state lhs) (key_state rhs).

(** [std::unordered_set::contains]: an element with the same hash that the
    key equality identifies. *)
Definition Contains (c : list (SearchCacheKey St)) (L : list bool) (s : St) : bool :=
  Enabled &&
  existsb (λ k, (SearchCacheKeyHash k =? SearchCacheKeyHash (mkKey L s))%Z &&
                SearchCacheKeyEqual k (mkKey L s)) c.

Definition Insert (c : list (SearchCacheKey St)) (L : list bool) (s : St) :
    list (SearchCacheKey St) :=
  if Enabled then (if Contains c L s then c else mkKey L s :: c) else c.

Context (history_size : nat) (a : Adapter St) (on_complete : St → bool).

Definition set_mark (i : nat) (b : bool) (st : search_st St) : search_st St :=
  mkSt (<[i:=b]> (linearized st)) (failed st).

Definition set_response (r : option nat) (b : bool) (st : search_st St) : search_st St :=
  match r with Some r => set_mark r b st | None => st end.

(** The [for] loop of [step]: [k] iterations are left, the next index is [i]. *)
Fixpoint search_loop (step : St → nat → search_st St → outcome (bool * search_st St))
    (state : St) (count i k : nat) (st : search_st St) : outcome (bool * search_st St) :=
  match k with
  | 0 => Ret (false, st)
  | S k =>
      marked ← deref (linearized st !! i);
      if (marked : bool) then search_loop step state count (S i) k st
      else if IsResponse a i then Ret (false, st)
      else if negb (IsInvoke a i) then search_loop step state count (S i) k st
      else
        let response_index := ResponseIndex a i in
        closed ← match response_index with
                 | Some r => deref (linearized st !! r)
                 | None => Ret false
                 end;
        if (closed : bool) then search_loop step state count (S i) k st
        else
          dropped ← (if negb (bool_decide (is_Some response_index)) &&
                        CanDropPendingInvoke a i
                     then
                       res ← step state (count + 1) (set_mark i true st);
                       if (res.1 : bool) then Ret res
                       else Ret (false, set_mark i false res.2)
                     else Ret (false, st));
          if (dropped.1 : bool) then Ret dropped
          else
            let st := dropped.2 in
            let tried := TryApply a i state in
            if negb tried.1 then search_loop step state count (S i) k st
            else
              let st := set_response response_index true (set_mark i true st) in
              let next_count := count + 1 + (if bool_decide (is_Some response_index) then 1 else 0) in
              res ← step tried.2 next_count st;
              if (res.1 : bool) then Ret res
              else search_loop step state count (S i) k
                     (set_response response_index false (set_mark i false res.2))
  end.

(** The recursive lambda [step]. [fuel] bounds the recursion depth. *)
Fixpoint search_step (fuel : nat) (state : St) (count : nat) (st : search_st St) :
    outcome (bool * search_st St) :=
  match fuel with
  | 0 => OutOfFuel
  | S fuel =>
      if count =? history_size then Ret (on_complete state, st)
      else if Contains (failed st) (linearized st) state then Ret (false, st)
      else
        res ← search_loop (search_step fuel) state count 0 history_size st;
        if (res.1 : bool) then Ret res
        else Ret (false, mkSt (linearized res.2)
                           (Insert (failed res.2) (linearized res.2) state))
  end.

(** Every recursive call marks at least one more event, so a depth of
    [history_size + 1] is never exceeded ([search_step_spec]). *)
Definition RunRecursiveLinearizationSearchImpl (initial_state : St) : outcome bool :=
  if history_size =? 0 then Ret true
  else
    res ← search_step (S history_size) initial_state 0
            (mkSt (replicate history_size false) []);
    Ret res.1.

(** ** Correctness of the search *)

Let accepts (s : St) : Prop := on_complete s = true.

Section Correctness.
Context `{!AdapterWf history_size a}.
Context (eqv : relation St) `{!AdapterCongruence a eqv}.
Context (Equal_eqv : ∀ s t, Equal s t = true → eqv s t).
Context (complete_eqv : ∀ s t, eqv s t → on_complete s = on_complete t).

#[local] Instance accepts_proper : Proper (eqv ==> iff) accepts.
Proof. intros s t Hst. unfold accepts. by rewrite (complete_eqv s t). Qed.

Definition cache_ok (c : list (SearchCacheKey St)) : Prop :=
  ∀ k, k ∈ c → ¬ completable a accepts (key_linearized k) (key_state k).

(** What a call promises about the configuration it was started in. *)
Definition promises (m : outcome (bool * search_st St)) (L : list bool) (s : St) : Prop :=
  ∃ b st', m = Ret (b, st') ∧ cache_ok (failed st') ∧
    if (b : bool) then completable a accepts L s
    else linearized st' = L ∧ ¬ completable a accepts L s.

Lemma Contains_sound c L s :
  cache_ok c → Contains c L s = true → ¬ completable a accepts L s.
Proof.
  intros Hc. unfold Contains. rewrite andb_true_iff, existsb_exists.
  intros [_ (k&Hk&Hek)]. apply andb_true_iff in Hek as [_ Hek].
  unfold SearchCacheKeyEqual in Hek. apply andb_true_iff in Hek as [HL HE].
  apply bool_decide_eq_true in HL. simpl in *. subst L.
  apply list_elem_of_In in Hk. specialize (Hc k Hk).
  by rewrite <-(Equal_eqv _ _ HE).
Qed.

Lemma Insert_ok c L s :
  cache_ok c → ¬ completable a accepts L s → cache_ok (Insert c L s).
Proof.
  intros Hc HL. unfold Insert. destruct Enabled, (Contains c L s); [done| |done..].
  intros k Hk. apply elem_of_cons in Hk as [->|Hk]; auto.
Qed.

Lemma all_true_count L : length L = history_size →
  all_true L ↔ count_true L = history_size.
Proof. intros <-. by rewrite count_true_full. Qed.

Section Loop.
Context (step : St → nat → search_st St → outcome (bool * search_st St)).
Context (L : list bool) (state : St).
Context (HL : length L = history_size).
Context (rec : ∀ L' s' c, length L' = history_size →
  count_true L < count_true L' → cache_ok c →
  promises (step s' (count_true L') (mkSt L' c)) L' s').

Lemma set_response_mark i c :
  set_response (ResponseIndex a i) true (set_mark i true (mkSt L c)) =
  mkSt (mark_op a L i) c.
Proof. unfold mark_op. by destruct (ResponseIndex a i). Qed.

Lemma set_response_unmark i c :
  i < history_size → IsInvoke a i = true → L !! i = Some false →
  (∀ r, ResponseIndex a i = Some r → L !! r = Some false) →
  set_response (ResponseIndex a i) false (set_mark i false (mkSt (mark_op a L i) c)) =
  mkSt L c.
Proof.
  intros Hi Ii HF Hr. rewrite <-(unmark_mark_op history_size a L i) at 2 by done.
  unfold unmark_op, set_response, set_mark. by destruct (ResponseIndex a i).
Qed.

(** The drop attempt of one iteration. *)
Definition try_drop (i : nat) (st : search_st St) : outcome (bool * search_st St) :=
  if negb (bool_decide (is_Some (ResponseIndex a i))) && CanDropPendingInvoke a i
  then
    res ← step state (count_true L + 1) (set_mark i true st);
    if (res.1 : bool) then Ret res else Ret (false, set_mark i false res.2)
  else Ret (false, st).

Lemma try_drop_spec i c :
  minimal a L i → cache_ok c →
  ∃ b st', try_drop i (mkSt L c) = Ret (b, st') ∧ cache_ok (failed st') ∧
    if (b : bool) then via a accepts i L state
    else linearized st' = L ∧
      ¬ (ResponseIndex a i = None ∧ CanDropPendingInvoke a i = true ∧
         completable a accepts (<[i:=true]> L) state).
Proof.
  intros Hm Hc. unfold try_drop. pose proof Hm as (HF&Ii&_).
  destruct (negb _ && _) eqn:Hb.
  - apply andb_true_iff in Hb as [Hn Hd]. apply negb_true_iff, bool_decide_eq_false in Hn.
    assert (Hni : ResponseIndex a i = None) by (destruct (ResponseIndex a i); naive_solver).
    destruct (rec (<[i:=true]> L) state c) as (b&st'&Hs&Hc'&Hres).
    + by rewrite length_insert.
    + rewrite count_true_insert by done. lia.
    + done.
    + rewrite count_true_insert in Hs by done.
      change (set_mark i true (mkSt L c)) with (mkSt (<[i:=true]> L) c).
      rewrite Nat.add_1_r, Hs. simpl. destruct b.
      * exists true, st'. split_and!; [done..|]. split; [done|]. left. auto.
      * exists false, (set_mark i false st'). destruct Hres as [Hl Hres].
        split_and!; [done|done| |naive_solver].
        simpl. by rewrite Hl, insert_insert_back.
  - exists false, (mkSt L c). split_and!; [done..|].
    intros (Hn&Hd&_). rewrite Hn, Hd in Hb. by rewrite bool_decide_false in Hb by (intros []; done).
Qed.

(** An unmatched response ends the scan: no later event is minimal. *)
Lemma response_blocks i :
  i < history_size → IsResponse a i = true → L !! i = Some false →
  (∀ j, j < i → ¬ via a accepts j L state) → ∀ j, ¬ via a accepts j L state.
Proof.
  intros Hi Ri HF Hvia j Hj. destruct (decide (j < i)) as [|Hge]; [by eapply Hvia|].
  destruct Hj as [(HFj&Ij&Hmin) _]. destruct (decide (j = i)) as [->|].
  - pose proof (wf_kind i Hi) as Hk. rewrite Ij, Ri in Hk. done.
  - rewrite Hmin in HF; [done|lia|done].
Qed.

(** The response of an unlinearized invocation is marked or not. *)
Lemma response_marked i :
  i < history_size → IsInvoke a i = true →
  (∃ r, ResponseIndex a i = Some r ∧ L !! r = Some true) ∨
  (match ResponseIndex a i with Some r => deref (L !! r) | None => Ret false end = Ret false ∧
   ∀ r, ResponseIndex a i = Some r → L !! r = Some false).
Proof.
  intros Hi Ii. destruct (ResponseIndex a i) as [r|] eqn:Hri; [|by right].
  destruct (wf_resp i r Hi Ii Hri) as [[? ?] _].
  destruct (lookup_bool_total L r) as [|Hr]; [lia|left; eauto|right]. rewrite Hr.
  split; [done|]. by intros ? [= <-].
Qed.

Lemma search_loop_spec k i c :
  i + k = history_size → cache_ok c →
  (∀ r, r < i → IsResponse a r = true → L !! r = Some true) →
  (∀ j, j < i → ¬ via a accepts j L state) →
  ∃ b st', search_loop step state (count_true L) i k (mkSt L c) = Ret (b, st') ∧
    cache_ok (failed st') ∧
    if (b : bool) then ∃ j, via a accepts j L state
    else linearized st' = L ∧ ∀ j, ¬ via a accepts j L state.
Proof.
  revert i c. induction k as [|k IH]; intros i c Hik Hc Hresp Hvia.
  { exists false, (mkSt L c). split_and!; [done..|]. intros j Hj.
    destruct (decide (j < i)) as [?|Hge]; [by eapply Hvia|].
    destruct Hj as [(HF&_) _]. apply lookup_lt_Some in HF. lia. }
  assert (Hnext : ∀ c', cache_ok c' → ¬ via a accepts i L state →
            (IsResponse a i = true → L !! i = Some true) →
            ∃ b st', search_loop step state (count_true L) (S i) k (mkSt L c') = Ret (b, st') ∧
              cache_ok (failed st') ∧
              if (b : bool) then ∃ j, via a accepts j L state
              else linearized st' = L ∧ ∀ j, ¬ via a accepts j L state).
  { intros c' Hc' Hvi Hri. apply IH; [lia|done| |].
    - intros r Hr Ir. destruct (decide (r = i)) as [->|]; [auto|]. apply Hresp; [lia|done].
    - intros j Hj. destruct (decide (j = i)) as [->|]; [done|]. apply Hvia. lia. }
  simpl. destruct (lookup_bool_total L i) as [HT|HF]; [lia| |].
  { rewrite HT. simpl. apply Hnext; [done| |done]. intros [(HF&_) _]. congruence. }
  rewrite HF. simpl. destruct (IsResponse a i) eqn:Ri.
  { exists false, (mkSt L c). split_and!; [done..|]. by apply (response_blocks i); [lia|..]. }
  assert (Ii : IsInvoke a i = true).
  { pose proof (wf_kind i ltac:(lia)) as Hk. by rewrite Ri in Hk. }
  rewrite Ii. simpl.
  assert (Hm : minimal a L i) by done.
  destruct (response_marked i) as [(r&Hri&HT)|[Hcl Hrf]]; [lia|done| |].
  { rewrite Hri, HT. simpl. apply Hnext; [done| |done].
    intros [_ [(Hn&_)|(s'&_&Hr&_)]]; [congruence|]. rewrite (Hr r Hri) in HT. done. }
  rewrite Hcl. simpl. fold (try_drop i (mkSt L c)).
  destruct (try_drop_spec i c Hm Hc) as (b&st1&Hd&Hc1&Hres). rewrite Hd. simpl.
  destruct b; simpl.
  { exists true, st1. eauto. }
  destruct Hres as [Hl1 Hnd]. destruct st1 as [L1 c1]. simpl in *. subst L1.
  destruct (TryApply a i state) as [ok next] eqn:Ha. simpl. destruct ok; simpl.
  2:{ apply Hnext; [done| |done]. intros [_ [?|(s'&Ha'&_)]]; [by apply Hnd|congruence]. }
  rewrite set_response_mark, <-(mark_op_count history_size) by (done || lia).
  destruct (rec (mark_op a L i) next c1) as (b&st2&Hs&Hc2&Hres).
  { by rewrite length_mark_op. }
  { rewrite (mark_op_count history_size) by (done || lia). lia. }
  { done. }
  rewrite Hs. simpl. destruct b.
  { exists true, st2. split_and!; [done..|]. exists i. split; [done|]. right. eauto. }
  destruct Hres as [Hl2 Hnc]. destruct st2 as [L2 c2]. simpl in *. subst L2.
  rewrite set_response_unmark by (done || lia).
  apply Hnext; [done| |done]. intros [_ [?|(s'&Ha'&_&?)]]; [by apply Hnd|].
  rewrite Ha in Ha'. simplify_eq. by apply Hnc.
Qed.

End Loop.

Lemma search_step_spec fuel L s c :
  length L = history_size → history_size - count_true L < fuel → cache_ok c →
  promises (search_step fuel s (count_true L) (mkSt L c)) L s.
Proof.
  revert L s c. induction fuel as [|fuel IH]; intros L s c HL Hf Hc; [lia|].
  simpl. pose proof (count_true_le L) as Hle.
  destruct (Nat.eqb_spec (count_true L) history_size) as [Hfull|Hnf].
  { exists (on_complete s), (mkSt L c). split_and!; [done|done|].
    apply (all_true_count L HL) in Hfull.
    destruct (on_complete s) eqn:Ho; simpl; [|split; [done|]];
      rewrite completable_done by done; unfold accepts; congruence. }
  assert (Hna : ¬ all_true L) by (by rewrite all_true_count).
  destruct (Contains c L s) eqn:Hcon.
  { exists false, (mkSt L c). split_and!; [done..|]. by eapply Contains_sound. }
  destruct (search_loop_spec (search_step fuel) L s HL) with (k := history_size) (i := 0) (c := c)
    as (b&st'&Hs&Hc'&Hres); [|lia|done|lia|lia|].
  { intros L' s' c' HL' Hlt Hc''. apply IH; [done| |done].
    pose proof (count_true_le L'). lia. }
  rewrite Hs. simpl. destruct b; simpl.
  - exists true, st'. split_and!; [done..|]. by apply completable_via.
  - destruct Hres as [Hl Hn].
    assert (Hnc : ¬ completable a accepts L s).
    { rewrite completable_via by done. intros [i Hi]. by eapply Hn. }
    eexists false, _. split; [done|]. simpl. rewrite Hl.
    split_and!; [|done|done]. by apply Insert_ok.
Qed.

(** The search returns (the depth bound is enough and no vector is read out
    of range), and its answer is whether a complete configuration accepted
    by [on_complete] is reachable. *)
Lemma search_reachable initial_state :
  0 < history_size →
  ∃ b, RunRecursiveLinearizationSearchImpl initial_state = Ret b ∧
    (b = true ↔ completable a accepts (replicate history_size false) initial_state).
Proof.
  intros Hpos. unfold RunRecursiveLinearizationSearchImpl.
  destruct (Nat.eqb_spec history_size 0); [lia|].
  pose proof (search_step_spec (S history_size) (replicate history_size false) initial_state [])
    as (b&st'&Hs&_&Hres).
  { apply length_replicate. }
  { lia. }
  { intros k Hk. by apply not_elem_of_nil in Hk. }
  rewrite count_true_replicate in Hs. rewrite Hs. simpl. exists b. split; [done|].
  destruct b; naive_solver.
Qed.

End Correctness.
End Search.
