(* ===== verification/LincheckRecursive.v ===== *)
(** * The recursive linearizability checker

    Models runtime/include/lincheck_recursive.h: the scan that builds the
    per-event information, the method table, the adapter and [Check]. *)
From stdpp Require Import base list gmap strings.
From Stdlib Require Import ZArith.
From S2P Require Import Prelude LinSpec Events History Linearizability Search.

(** [RecursiveHistoryEventInfo]; the null pointers of a default-constructed
    entry are [None], and so is [kNoResponseIndex]. *)
Record RecursiveHistoryEventInfo (A V : Type) := mkInfo {
  info_is_invoke : bool;
  info_is_response : bool;
  info_name : string;
  info_args : option A;
  info_response_index : option nat;
  info_result : option V;
}.
Arguments mkInfo {A V} _ _ _ _ _ _.
Arguments info_is_invoke {A V} _.
Arguments info_is_response {A V} _.
Arguments info_name {A V} _.
Arguments info_args {A V} _.
Arguments info_response_index {A V} _.
Arguments info_result {A V} _.

Section Build.
Context {A V : Type}.
Implicit Types (h : list (HistoryEvent A V)) (e : HistoryEvent A V).
Abbreviation Info := (RecursiveHistoryEventInfo A V).

Definition default_info : Info := mkInfo false false "" None None None.

Definition fill_invoke (t : Task A V) (d : Info) : Info :=
  mkInfo true (info_is_response d) (task_name t) (Some (task_args t))
    (info_response_index d) (info_result d).

Definition fill_response (t : Task A V) (res : V) (d : Info) : Info :=
  mkInfo (info_is_invoke d) true (task_name t) (Some (task_args t))
    (info_response_index d) (Some res).

Definition set_response_index (r : nat) (d : Info) : Info :=
  mkInfo (info_is_invoke d) (info_is_response d) (info_name d) (info_args d)
    (Some r) (info_result d).

Definition fill_event e : Info → Info :=
  match e with
  | Invoke t _ => fill_invoke t
  | Response t res _ => fill_response t res
  end.

(** The loop of [build_step] (Events), with the map [invoke_by_task] keyed by
    the coroutine object and [invoke_by_op_id] by the task id. *)
Definition BuildRecursiveHistoryEventInfo h : list Info :=
  build_events is_invoke (event_key task_ptr) (λ e, task_id (GetTask e))
    fill_event set_response_index default_info h.

(** What the entry of event [e] at index [i] holds. *)
Definition rec_info_ok h (i : nat) e (d : Info) : Prop :=
  match e with
  | Invoke t _ =>
      ∃ ri, d = mkInfo true false (task_name t) (Some (task_args t)) ri None ∧
        ∀ r, ri = Some r ↔ answers task_ptr h i r
  | Response t res _ => d = mkInfo false true (task_name t) (Some (task_args t)) None (Some res)
  end.

Lemma build_info_ok h i e :
  wf_history task_ptr h → h !! i = Some e →
  ∃ d, BuildRecursiveHistoryEventInfo h !! i = Some d ∧ rec_info_ok h i e d.
Proof.
  intros Hw Hi.
  destruct (build_events_lookup is_invoke (event_key task_ptr) (λ e, task_id (GetTask e))
              fill_event set_response_index default_info h i e Hw Hi) as (d&Hd&Hok).
  exists d. split; [done|]. destruct Hok as [(r&Hr&->)|[Hn ->]].
  - pose proof Hr as (ei&er&Hi'&_&Ie&_). simplify_eq. destruct e as [t th|]; [|done].
    exists (Some r). split; [done|]. intros r'. split; [intros [= <-]; done|].
    intros Hr'. f_equal. by eapply answers_unique_response.
  - destruct e as [t th|t res th]; simpl; [|done]. exists None. split; [done|].
    intros r. split; [done|]. intros Hr. by apply Hn in Hr.
Qed.

Lemma build_info_length h :
  wf_history task_ptr h → length (BuildRecursiveHistoryEventInfo h) = length h.
Proof. apply build_events_length. Qed.

End Build.

(** ** [Check] *)
Section Check.
Context {St A V : Type}.
Context (Hash : St → Z) (Equal : St → St → bool) (Enabled : bool).
Context (veq : V → V → bool).
Context (specification_methods : MethodMap St A V) (first_state : St).
Implicit Types (h : list (HistoryEvent A V)).

(** The loop that fills [method_by_event], throwing on an unknown method. *)
Fixpoint method_by_event (events : list (RecursiveHistoryEventInfo A V)) :
    outcome (list (option (St → A → St * V))) :=
  match events with
  | [] => Ret []
  | ev :: events =>
      m ← (if negb (info_is_invoke ev) then Ret None
           else match specification_methods !! info_name ev with
                | None => Throw ("No method in spec for: " +:+ info_name ev)
                | Some m => Ret (Some m)
                end);
      ms ← method_by_event events;
      Ret (m :: ms)
  end.

(** [Adapter]. The search calls [TryApply] on invocations only, for which
    the method pointer and the arguments are set. *)
Definition RecursiveAdapter (events : list (RecursiveHistoryEventInfo A V))
    (methods : list (option (St → A → St * V))) : Adapter St :=
  mkAdapter St
    (λ i, from_option info_is_invoke false (events !! i))
    (λ i, from_option info_is_response false (events !! i))
    (λ i, events !! i ≫= info_response_index)
    (λ _, false)
    (λ i s,
      match events !! i, mjoin (methods !! i) with
      | Some ev, Some m =>
          match info_args ev with
          | Some args =>
              let '(s', expected) := m s args in
              match info_response_index ev with
              | None => (true, s')
              | Some r =>
                  match events !! r ≫= info_result with
                  | Some res => (veq expected res, s')
                  | None => (false, s')
                  end
              end
          | None => (false, s)
          end
      | _, _ => (false, s)
      end).

Definition CheckRecursive h : outcome bool :=
  let event_info := BuildRecursiveHistoryEventInfo h in
  methods ← method_by_event event_info;
  RunRecursiveLinearizationSearchImpl Hash Equal Enabled (length h)
    (RecursiveAdapter event_info methods) AcceptAnyCompletedLinearization first_state.

Lemma method_by_event_ok events :
  (∀ i d, events !! i = Some d → info_is_invoke d = true →
     is_Some (specification_methods !! info_name d)) →
  ∃ ms, method_by_event events = Ret ms ∧
    ∀ i d, events !! i = Some d → info_is_invoke d = true →
      ms !! i = Some (specification_methods !! info_name d).
Proof.
  induction events as [|ev events IH]; intros Hk; simpl; [by exists []|].
  destruct IH as (ms&Hms&Hl); [by intros i d; apply (Hk (S i))|].
  destruct (info_is_invoke ev) eqn:Ie; simpl.
  - destruct (Hk 0 ev eq_refl Ie) as [m Hm]. rewrite Hm. simpl. rewrite Hms. simpl.
    eexists. split; [done|]. intros [|i] d Hd Id; simplify_eq/=; [by rewrite Hm|eauto].
  - rewrite Hms. simpl. eexists. split; [done|].
    intros [|i] d Hd Id; simplify_eq/=; [congruence|eauto].
Qed.

(** An unknown method makes the construction throw. *)
Lemma method_by_event_throw events i d :
  events !! i = Some d → info_is_invoke d = true →
  specification_methods !! info_name d = None →
  ∃ w, method_by_event events = Throw w.
Proof.
  revert i. induction events as [|ev events IH]; intros [|i] Hd Id Hn; simplify_eq/=.
  - rewrite Id. simpl. rewrite Hn. by eexists.
  - destruct (IH i Hd Id Hn) as [w Hw].
    destruct (negb (info_is_invoke ev)); simpl; [rewrite Hw; by eexists|].
    destruct (specification_methods !! info_name ev); simpl; [rewrite Hw|]; by eexists.
Qed.

Section Correct.
Context h (Hwf : wf_history task_ptr h) (Hknown : methods_known specification_methods h).

Lemma recursive_methods :
  ∃ ms, method_by_event (BuildRecursiveHistoryEventInfo h) = Ret ms ∧
    ∀ i t th, h !! i = Some (Invoke t th) → ms !! i = Some (specification_methods !! task_name t).
Proof.
  destruct (method_by_event_ok (BuildRecursiveHistoryEventInfo h)) as (ms&Hms&Hl).
  - intros i d Hd Id. apply lookup_lt_Some in Hd as Hi.
    rewrite build_info_length in Hi by done. apply lookup_lt_is_Some in Hi as [e He].
    destruct (build_info_ok h i e Hwf He) as (d'&Hd'&Hok). simplify_eq.
    destruct e as [t th|]; simpl in Hok; [|by subst d].
    destruct Hok as (ri&->&_). simpl. eauto.
  - exists ms. split; [done|]. intros i t th He.
    destruct (build_info_ok h i _ Hwf He) as (d&Hd&Hok). simpl in Hok.
    destruct Hok as (ri&->&_). by eapply Hl in Hd.
Qed.

Lemma recursive_spec_adapter ms :
  (∀ i t th, h !! i = Some (Invoke t th) → ms !! i = Some (specification_methods !! task_name t)) →
  SpecAdapter specification_methods veq task_ptr h
    (RecursiveAdapter (BuildRecursiveHistoryEventInfo h) ms).
Proof.
  intros Hms. split; simpl; [| |done|].
  - intros i e He. destruct (build_info_ok h i e Hwf He) as (d&->&Hok). simpl.
    destruct e; simpl in Hok; [destruct Hok as (?&->&_)|subst d]; done.
  - intros i e r He Ie. destruct (build_info_ok h i e Hwf He) as (d&->&Hok). simpl.
    destruct e; [|done]. destruct Hok as (ri&->&Hr). apply Hr.
  - intros i t th m s b s' He Hm. destruct (build_info_ok h i _ Hwf He) as (d&->&Hok).
    destruct Hok as (ri&->&Hr). rewrite (Hms i t th He), Hm. simpl.
    destruct (m s (task_args t)) as [s1 v]. simpl. unfold agrees.
    destruct ri as [r|].
    + assert (Ha : answers task_ptr h i r) by by apply Hr.
      pose proof Ha as (_&er&_&Her&_&Ier&_).
      destruct (build_info_ok h r er Hwf Her) as (dr&->&Hokr).
      destruct er as [|u w thr]; [done|]. simpl in Hokr. subst dr. simpl.
      intros [= <- <-]. split; [|done]. split; [|naive_solver].
      intros Hv r' u' w' th' Ha' Hr'. assert (r' = r) as -> by by eapply answers_unique_response.
      naive_solver.
    + intros [= <- <-]. split; [|done]. split; [|done].
      intros _ r u w th' Ha. apply Hr in Ha. done.
Qed.

Context (eqv : relation St) `{!Equivalence eqv}.
Context (Equal_eqv : ∀ s t, Equal s t = true → eqv s t).
Context (methods_eqv : ∀ name m args s t, specification_methods !! name = Some m → eqv s t →
  (m s args).2 = (m t args).2 ∧ eqv (m s args).1 (m t args).1).

Lemma recursive_congruence ms :
  method_by_event (BuildRecursiveHistoryEventInfo h) = Ret ms →
  (∀ i m, mjoin (ms !! i) = Some m → ∃ name, specification_methods !! name = Some m) →
  AdapterCongruence (RecursiveAdapter (BuildRecursiveHistoryEventInfo h) ms) eqv.
Proof.
  intros Hms Hfrom. split; [done|]. intros i s t Hst. simpl.
  destruct (_ !! i) as [ev|]; [|done]. destruct (mjoin (ms !! i)) as [m|] eqn:Hm; [|done].
  destruct (info_args ev) as [args|]; [|done]. destruct (Hfrom i m Hm) as [name Hn].
  destruct (methods_eqv name m args s t Hn Hst) as [Hv He].
  destruct (m s args) as [s1 v1], (m t args) as [t1 w1]. simpl in *. subst w1.
  destruct (info_response_index ev) as [r|]; [|done].
  by destruct (_ ≫= info_result).
Qed.

Lemma method_by_event_from events ms i m :
  method_by_event events = Ret ms → mjoin (ms !! i) = Some m →
  ∃ name, specification_methods !! name = Some m.
Proof.
  revert ms i. induction events as [|ev events IH]; intros ms i; simpl.
  { intros [= <-]. done. }
  rewrite outcome_bind_ret. intros (om&Hom&Hr). rewrite outcome_bind_ret in Hr.
  destruct Hr as (ms'&Hms'&[= <-]). destruct i as [|i]; simpl; [|eauto].
  intros Heq. destruct (negb (info_is_invoke ev)); [naive_solver|].
  destruct (specification_methods !! info_name ev) eqn:Hn; naive_solver.
Qed.

(** [Check] returns and decides linearizability. *)
Lemma check_recursive_spec :
  ∃ b, CheckRecursive h = Ret b ∧
    (b = true ↔ linearizable specification_methods veq task_ptr h first_state).
Proof.
  destruct recursive_methods as (ms&Hms&Hl). unfold CheckRecursive. rewrite Hms. simpl.
  pose proof (recursive_spec_adapter ms Hl) as Hsa.
  pose proof (recursive_congruence ms Hms (λ i m, method_by_event_from _ ms i m Hms)) as Hcong.
  setoid_rewrite <-(spec_adapter_linearizable _ _ _ _ _ Hwf Hknown).
  destruct (decide (length h = 0)) as [H0|H0].
  { exists true. unfold RunRecursiveLinearizationSearchImpl. rewrite H0. simpl. split; [done|].
    split; [|done]. intros _. exists [], first_state.
    split_and!; [done| |done]. intros i Hi. simpl in Hi. lia. }
  pose proof (spec_adapter_wf _ _ _ _ _ Hwf (SpecAdapter0 := Hsa)) as Hawf.
  destruct (search_reachable Hash Equal Enabled (length h) (RecursiveAdapter _ ms)
              AcceptAnyCompletedLinearization eqv Equal_eqv (λ _ _ _, eq_refl) first_state)
    as (b&Hb&Hiff); [lia|].
  exists b. split; [done|]. rewrite Hiff. unfold completable, AcceptAnyCompletedLinearization.
  split; intros (L'&s'&?&?&_); by exists L', s'.
Qed.

End Correct.
End Check.
