(* ===== verification/Wgl.v ===== *)
(** * The iterative (WGL) linearizability checker

    Models [LinearizabilityChecker::Check] of runtime/include/lincheck.h: one
    loop that walks over the history, opens a section for every operation it
    linearizes, backtracks at the first open response, and keeps a cache of
    visited (linearized marks, state) pairs. The two stacks are lists with
    the last pushed element first. *)
From stdpp Require Import base list relations gmap strings.
From Stdlib Require Import ZArith.
From S2P Require Import Prelude LinSpec Events History Linearizability.

Record wgl_st (St : Type) := mkWgl {
  current_section_start : nat;
  data_structure_state : St;
  open_sections_stack : list nat;
  states_stack : list St;
  wgl_linearized : list bool;
  linearized_entries_count : nat;
  states_cache : list (list bool * St);
}.
Arguments mkWgl {St} _ _ _ _ _ _ _.
Arguments current_section_start {St} _.
Arguments data_structure_state {St} _.
Arguments open_sections_stack {St} _.
Arguments states_stack {St} _.
Arguments wgl_linearized {St} _.
Arguments linearized_entries_count {St} _.
Arguments states_cache {St} _.

Section Wgl.
Context {St A V : Type}.
(** [std::hash<std::vector<bool>>], and the hash and equality of the spec. *)
Context (vector_hash : list bool → Z).
Context (SpecificationObjectHash : St → Z) (SpecificationObjectEqual : St → St → bool).
Context (veq : V → V → bool).
Context (specification_methods : MethodMap St A V) (first_state : St).
Context (history : list (HistoryEvent A V)).

Definition PairHash (p : list bool * St) : Z :=
  Z.lxor (vector_hash p.1) (SpecificationObjectHash p.2).

Definition PairEqual (lhs rhs : list bool * St) : bool :=
  bool_decide (lhs.1 = rhs.1) && SpecificationObjectEqual lhs.2 rhs.2.

(** [std::unordered_set::find]. *)
Definition cache_find (c : list (list bool * St)) (p : list bool * St) : bool :=
  existsb (λ k, (PairHash k =? PairHash p)%Z && PairEqual k p) c.

Definition unmark (inv_res : gmap nat nat) (i : nat) (L : list bool) : list bool :=
  match inv_res !! i with
  | Some r => <[r:=false]> (<[i:=false]> L)
  | None => <[i:=false]> L
  end.

Definition mark (inv_res : gmap nat nat) (i : nat) (L : list bool) : list bool :=
  match inv_res !! i with
  | Some r => <[r:=true]> (<[i:=true]> L)
  | None => <[i:=true]> L
  end.

Definition entries (inv_res : gmap nat nat) (i : nat) : nat :=
  match inv_res !! i with Some _ => 2 | None => 1 end.

Definition advance (st : wgl_st St) : wgl_st St :=
  mkWgl (S (current_section_start st)) (data_structure_state st) (open_sections_stack st)
    (states_stack st) (wgl_linearized st) (linearized_entries_count st) (states_cache st).

(** The branch of the loop body for an invocation. *)
Definition wgl_invoke (inv_res : gmap nat nat) (t : Task A V) (st : wgl_st St) :
    outcome (wgl_st St) :=
  let cur := current_section_start st in
  method ← match specification_methods !! task_name t with
           | Some m => Ret m
           | None => AssertFail
           end;
  let '(data_structure_state_copy, res) := method (data_structure_state st) (task_args t) in
  let doesnt_have_response := bool_decide (inv_res !! cur = None) in
  can_append ← (if doesnt_have_response then Ret true
                else ret_val ← GetRetVal t; Ret (veq res ret_val));
  if (can_append : bool) then
    let L := mark inv_res cur (wgl_linearized st) in
    let was_checked := cache_find (states_cache st) (L, data_structure_state_copy) in
    if was_checked then
      (* already checked an equal state: undo the marks and go to the next event *)
      Ret (mkWgl (S cur) (data_structure_state st) (open_sections_stack st) (states_stack st)
             (unmark inv_res cur L)
             (linearized_entries_count st + entries inv_res cur - entries inv_res cur)
             (states_cache st))
    else
      Ret (mkWgl 0 data_structure_state_copy (cur :: open_sections_stack st)
             (data_structure_state st :: states_stack st) L
             (linearized_entries_count st + entries inv_res cur)
             ((L, data_structure_state_copy) :: states_cache st))
  else Ret (advance st).

(** The branch for a response: [None] is [return false]. *)
Definition wgl_response (inv_res : gmap nat nat) (st : wgl_st St) : outcome (option (wgl_st St)) :=
  match open_sections_stack st with
  | [] => Ret None
  | last_inv :: sections =>
      prev ← deref (head (states_stack st));
      Ret (Some (mkWgl (S last_inv) prev sections (tail (states_stack st))
                   (unmark inv_res last_inv (wgl_linearized st))
                   (linearized_entries_count st - entries inv_res last_inv)
                   (states_cache st)))
  end.

(** One iteration of the [while] loop. *)
Definition wgl_iter (inv_res : gmap nat nat) (st : wgl_st St) : outcome (option (wgl_st St)) :=
  marked ← deref (wgl_linearized st !! current_section_start st);
  if (marked : bool) then Ret (Some (advance st))
  else
    ev ← deref (history !! current_section_start st);
    match ev with
    | Invoke t _ => st' ← wgl_invoke inv_res t st; Ret (Some st')
    | Response _ _ _ => wgl_response inv_res st
    end.

Fixpoint wgl_loop (fuel : nat) (inv_res : gmap nat nat) (st : wgl_st St) : outcome bool :=
  if linearized_entries_count st =? length history then Ret true
  else
    match fuel with
    | 0 => OutOfFuel
    | S fuel =>
        next ← wgl_iter inv_res st;
        match next with
        | None => Ret false
        | Some st' => wgl_loop fuel inv_res st'
        end
    end.

Definition wgl_init : wgl_st St :=
  mkWgl 0 first_state [] [] (replicate (length history) false) 0 [].

Definition Check (fuel : nat) : outcome bool :=
  inv_res ← get_inv_res_mapping history;
  wgl_loop fuel inv_res wgl_init.

(** A number of iterations that is always enough ([wgl_loop_spec]). *)
Definition check_fuel : nat := (length history + 3) ^ (length history + 2).

(** ** The loop explores the transition system of [LinSpec] *)

Definition wgl_adapter (inv_res : gmap nat nat) : Adapter St :=
  mkAdapter St
    (λ i, from_option is_invoke false (history !! i))
    (λ i, from_option (λ e, negb (is_invoke e)) false (history !! i))
    (λ i, inv_res !! i)
    (λ _, false)
    (λ i s,
      match history !! i with
      | Some (Invoke t _) =>
          match specification_methods !! task_name t with
          | Some m =>
              let '(s', v) := m s (task_args t) in
              (match inv_res !! i with
               | None => true
               | Some _ => match task_ret t with Some w => veq v w | None => false end
               end, s')
          | None => (false, s)
          end
      | _ => (false, s)
      end).

(** Responses carry the value the task returned ([GetRetVal]), as the
    scheduler builds them. *)
Definition returns_recorded : Prop :=
  ∀ i r t th u w th', answers task_ref history i r → history !! i = Some (Invoke t th) →
    history !! r = Some (Response u w th') → task_ret t = Some w.

Section Correct.
Context (Hwf : wf_history task_ref history).
Context (Hknown : methods_known specification_methods history).
Context (Hret : returns_recorded).
Context (inv_res : gmap nat nat)
  (Hinv : ∀ i r, inv_res !! i = Some r ↔ answers task_ref history i r).
Context (eqv : relation St) `{!Equivalence eqv}.
Context (Equal_eqv : ∀ s t, SpecificationObjectEqual s t = true → eqv s t).
Context (methods_eqv : ∀ name m args s t, specification_methods !! name = Some m → eqv s t →
  (m s args).2 = (m t args).2 ∧ eqv (m s args).1 (m t args).1).

Abbreviation n := (length history).
Abbreviation a := (wgl_adapter inv_res).
Abbreviation complete := (completable (wgl_adapter inv_res) (λ _, True)).
Abbreviation via := (via (wgl_adapter inv_res) (λ _, True)).

#[local] Instance wgl_spec_adapter :
  SpecAdapter specification_methods veq task_ref history (wgl_adapter inv_res).
Proof.
  clear methods_eqv Equal_eqv Equivalence0 Hknown vector_hash SpecificationObjectHash
    SpecificationObjectEqual first_state eqv.
  split; simpl.
  - intros i e ->. done.
  - intros i e r He Ie. apply Hinv.
  - done.
  - intros i t th m s b s' He Hm. rewrite He, Hm. destruct (m s (task_args t)) as [s1 v].
    intros [= <- <-]. split; [|done]. unfold agrees. simpl.
    destruct (inv_res !! i) as [r|] eqn:Hr.
    + apply Hinv in Hr as Ha. pose proof Ha as (_&er&_&Her&_&Ier&_).
      destruct er as [|u w thr]; [done|]. rewrite (Hret i r t th u w thr) by done.
      split; [|naive_solver].
      intros Hv r' u' w' th' Ha' Hr'. assert (r' = r) as -> by by eapply answers_unique_response.
      naive_solver.
    + split; [|done]. intros _ r u w th' Ha. apply Hinv in Ha. congruence.
Qed.

#[local] Instance wgl_adapter_wf : AdapterWf (length history) (wgl_adapter inv_res).
Proof. exact (spec_adapter_wf specification_methods veq task_ref history _ Hwf). Qed.

#[local] Instance wgl_congruence : AdapterCongruence (wgl_adapter inv_res) eqv.
Proof.
  split; [done|]. intros i s t Hst. simpl.
  destruct (history !! i) as [[tk th|]|]; [|done..].
  destruct (specification_methods !! task_name tk) as [m|] eqn:Hm; [|done].
  destruct (methods_eqv _ m (task_args tk) s t Hm Hst) as [Hv He].
  destruct (m s _) as [s1 v1], (m t _) as [t1 w1]. simpl in *. by subst w1.
Qed.

Lemma mark_mark_op i L : mark inv_res i L = mark_op a L i.
Proof. done. Qed.

Lemma unmark_unmark_op i L : unmark inv_res i L = unmark_op a L i.
Proof. done. Qed.

(** With no open response left, everything can be completed. *)
Lemma pending_completable L s :
  closed n a L → (∀ r, r < n → IsResponse a r = true → L !! r = Some true) → complete L s.
Proof.
  remember (n - count_true L) as k eqn:Hk. revert L s Hk.
  induction k as [|k IH]; intros L s Hk Hc Hr; pose proof (count_true_le L);
    destruct Hc as [Hlen Hc].
  { apply completable_done; [|done]. apply count_true_full. lia. }
  destruct (decide (Exists (eq false) L)) as [He|He].
  2:{ apply completable_done; [|done]. intros i Hi.
      destruct (lookup_bool_total L i Hi) as [|HF]; [done|].
      destruct He. apply Exists_exists. exists false. split; [|done].
      by eapply list_elem_of_lookup_2. }
  apply Exists_exists in He as (b&Hb&<-). apply list_elem_of_lookup in Hb as [i Hi].
  apply lookup_lt_Some in Hi as Hin.
  assert (Ii : IsInvoke a i = true).
  { rewrite (wf_kind i) by lia. destruct (IsResponse a i) eqn:Ri; [|done].
    rewrite Hr in Hi; [done|lia|done]. }
  assert (Hn : ResponseIndex a i = None).
  { destruct (ResponseIndex a i) as [r|] eqn:Hri; [|done].
    destruct (wf_resp i r ltac:(lia) Ii Hri) as [[? ?] Rr].
    rewrite (Hc i r), Hr in Hi by (done || lia). done. }
  apply completable_via. { intros Ht. rewrite Ht in Hi by done. done. }
  assert (∃ t th, history !! i = Some (Invoke t th)) as (t&th&He).
  { eapply (invoke_lookup specification_methods veq task_ref); [apply _|lia|done]. }
  destruct (Hknown i t th He) as [m Hm].
  exists i. split; [split_and!; [done|done|]; intros; apply Hr; [lia|done]|].
  right. exists (m s (task_args t)).1. split_and!.
  - simpl in *. rewrite He, Hm, Hn. by destruct (m s (task_args t)).
  - intros r. by rewrite Hn.
  - apply IH.
    + rewrite (mark_op_count n a); [|lia|done|done|].
      { rewrite Hn, bool_decide_false by (intros []; done). lia. }
       intros r. by rewrite Hn.
    + apply closed_mark_op; [apply _|by split|lia|done].
    + intros r ??. unfold mark_op. rewrite Hn.
      destruct (decide (i = r)) as [->|]; [by apply list_lookup_insert_eq|].
      rewrite list_lookup_insert_ne by done. auto.
Qed.

(** The sections opened so far, the states saved for them, and the
    configurations on the current path, the current one first. *)
Inductive path : list nat → list St → list (list bool * St) → Prop :=
  | path_nil : path [] [] [(replicate n false, first_state)]
  | path_cons sections states L s c i s' :
      path sections states ((L, s) :: c) →
      minimal a L i → TryApply a i s = (true, s') →
      (∀ r, ResponseIndex a i = Some r → L !! r = Some false) →
      (∀ j, j < i → ¬ via j L s) →
      path (i :: sections) (s :: states) ((mark_op a L i, s') :: (L, s) :: c).

Lemma path_closed sections states L s c :
  path sections states ((L, s) :: c) → closed n a L.
Proof.
  remember ((L, s) :: c) as cs eqn:Hcs. intros Hp. revert L s c Hcs.
  induction Hp as [|sections states L s c i s' Hp IH (HF&Ii&_) Ha Hr Hj]; intros; simplify_eq.
  - eauto with ltest typeclass_instances.
  - pose proof (IH L s c eq_refl) as Hc0.
    eauto with ltest typeclass_instances.
Qed.

Lemma path_counts sections states L s c :
  path sections states ((L, s) :: c) →
  length sections ≤ count_true L ∧ Forall (λ i, i < n) sections ∧
  ∀ k, k ∈ c → count_true k.1 < count_true L.
Proof.
  remember ((L, s) :: c) as cs eqn:Hcs. intros Hp. revert L s c Hcs.
  induction Hp as [|sections states L s c i s' Hp IH (HF&Ii&_) Ha Hr Hj]; intros; simplify_eq.
  - split_and!; [simpl; lia|constructor|]. intros k Hk. by apply not_elem_of_nil in Hk.
  - pose proof (path_closed _ _ _ _ _ Hp) as Hc. pose proof (closed_lt _ _ _ _ _ Hc HF).
    destruct (IH L s c eq_refl) as (Hle&Hall&Hlt). rewrite (mark_op_count n a) by done.
    simpl. split_and!; [lia|by constructor|].
    intros k [->|Hk]%elem_of_cons; simpl; [lia|]. specialize (Hlt k Hk). lia.
Qed.

Lemma path_reaches sections states L s c :
  path sections states ((L, s) :: c) →
  rtc (lin_step a) (replicate n false, first_state) (L, s).
Proof.
  remember ((L, s) :: c) as cs eqn:Hcs. intros Hp. revert L s c Hcs.
  induction Hp as [|sections states L s c i s' Hp IH Hm Ha Hr Hj]; intros; simplify_eq; [done|].
  eapply rtc_r; [by eapply IH|]. by apply lin_step_apply.
Qed.

(** The loop invariant. *)
Definition inv (st : wgl_st St) : Prop :=
  let L := wgl_linearized st in
  let s := data_structure_state st in
  ∃ c,
    path (open_sections_stack st) (states_stack st) ((L, s) :: c) ∧
    linearized_entries_count st = count_true L ∧
    current_section_start st ≤ n ∧
    (∀ r, r < current_section_start st → IsResponse a r = true → L !! r = Some true) ∧
    (∀ j, j < current_section_start st → ¬ via j L s) ∧
    (∀ k, k ∈ states_cache st → ¬ complete k.1 k.2 ∨ k ∈ (L, s) :: c).

(** Moving on past an event through which nothing can be completed. *)
Lemma inv_advance st :
  inv st → current_section_start st < n →
  ¬ via (current_section_start st) (wgl_linearized st) (data_structure_state st) →
  (IsResponse a (current_section_start st) = true →
   wgl_linearized st !! current_section_start st = Some true) →
  inv (advance st).
Proof.
  intros (c&Hp&Hcnt&Hle&Hr&Hv&Hcache) Hlt Hnv Hresp. exists c. simpl. split_and!; [done..|lia| | |done].
  - intros r Hlt' Rr. destruct (decide (r = current_section_start st)) as [->|]; [auto|].
    apply Hr; [lia|done].
  - intros j Hj. destruct (decide (j = current_section_start st)) as [->|]; [done|]. apply Hv. lia.
Qed.

(** The index never runs past the end of the history. *)
Lemma inv_in_range st :
  inv st → linearized_entries_count st ≠ n → current_section_start st < n.
Proof.
  intros (c&Hp&Hcnt&Hle&Hr&Hv&_) Hne. pose proof (path_closed _ _ _ _ _ Hp) as Hc.
  destruct (decide (current_section_start st = n)) as [Heq|]; [|lia]. exfalso.
  rewrite Heq in *. destruct Hc as [Hlen Hc].
  assert (Hna : ¬ all_true (wgl_linearized st)).
  { rewrite <-count_true_full, Hlen. lia. }
  assert (complete (wgl_linearized st) (data_structure_state st)) as Hcomp
    by (apply pending_completable; done).
  apply completable_via in Hcomp as [j Hj]; [|done].
  apply (Hv j); [|done]. destruct Hj as [(HF&_) _]. apply lookup_lt_Some in HF. lia.
Qed.

(** At an open response the current configuration is a dead end. *)
Lemma inv_dead_end st :
  inv st → current_section_start st < n →
  IsResponse a (current_section_start st) = true →
  wgl_linearized st !! current_section_start st = Some false →
  ¬ complete (wgl_linearized st) (data_structure_state st).
Proof.
  intros (c&Hp&Hcnt&Hle&Hr&Hv&_) Hlt Rc HF. rewrite completable_via.
  - intros [j Hj]. apply (Hv j); [|done].
    eapply via_before_response; [|done..]. by apply wf_kind.
  - intros Ht. rewrite Ht in HF; [done|]. by eapply lookup_lt_Some.
Qed.

Lemma wgl_response_ok st :
  inv st → current_section_start st < n →
  IsResponse a (current_section_start st) = true →
  wgl_linearized st !! current_section_start st = Some false →
  (wgl_response inv_res st = Ret None ∧ ¬ complete (replicate n false) first_state) ∨
  (∃ st' i sections, wgl_response inv_res st = Ret (Some st') ∧ inv st' ∧
     open_sections_stack st = i :: sections ∧ open_sections_stack st' = sections ∧
     current_section_start st' = S i).
Proof.
  intros Hi Hlt Rc HF. pose proof (inv_dead_end st Hi Hlt Rc HF) as Hdead.
  destruct Hi as (c&Hp&Hcnt&Hle&Hr&Hv&Hcache). unfold wgl_response.
  destruct st as [cur s0 secs sts L0 cnt cache]. simpl in *.
  inversion Hp as [|sections states L s c' i s' Hp' Hm Ha Hri Hvi]; simplify_eq/=.
  - left. done.
  - right. eexists _, i, sections. split_and!; [done| |done|done|done].
    pose proof Hm as (HFi&Ii&Hmin). pose proof (path_closed _ _ _ _ _ Hp') as Hc'.
    pose proof (closed_lt _ _ _ _ _ Hc' HFi) as Hin.
    exists c'. simpl. rewrite unmark_unmark_op, (unmark_mark_op n a) by done.
    split_and!; [done| |lia| | |].
    + rewrite (mark_op_count n a) by done. unfold entries. simpl.
      destruct (inv_res !! i); [rewrite bool_decide_true by eauto|
        rewrite bool_decide_false by (intros []; done)]; lia.
    + intros r Hlt' Rr. destruct (decide (r = i)) as [->|]; [|apply Hmin; [lia|done]].
      pose proof (wf_kind i Hin) as Hk. simpl in *. by rewrite Ii, Rr in Hk.
    + intros j Hj. destruct (decide (j = i)) as [->|]; [|apply Hvi; lia].
      intros [_ [(_&Hd&_)|(s1&Ha1&_&Hc1)]]; [done|].
      simpl in Ha1. rewrite Ha in Ha1. by simplify_eq.
    + intros k Hk. destruct (Hcache k Hk) as [|Hin']; [by left|].
      apply elem_of_cons in Hin' as [->|Hin']; [by left|by right].
Qed.

Lemma wgl_invoke_apply t th st :
  history !! current_section_start st = Some (Invoke t th) →
  ∃ s' b, TryApply a (current_section_start st) (data_structure_state st) = (b, s') ∧
    wgl_invoke inv_res t st =
      Ret (if (b : bool) then
             let cur := current_section_start st in
             let L := mark inv_res cur (wgl_linearized st) in
             if cache_find (states_cache st) (L, s') then
               mkWgl (S cur) (data_structure_state st) (open_sections_stack st)
                 (states_stack st) (unmark inv_res cur L)
                 (linearized_entries_count st + entries inv_res cur - entries inv_res cur)
                 (states_cache st)
             else
               mkWgl 0 s' (cur :: open_sections_stack st)
                 (data_structure_state st :: states_stack st) L
                 (linearized_entries_count st + entries inv_res cur)
                 ((L, s') :: states_cache st)
           else advance st).
Proof.
  intros He. destruct (Hknown _ t th He) as [m Hm]. unfold wgl_invoke. simpl.
  rewrite He, Hm. simpl. destruct (m _ (task_args t)) as [s' v].
  destruct (inv_res !! current_section_start st) as [r|] eqn:Hr.
  - rewrite bool_decide_false by done. apply Hinv in Hr as Ha.
    pose proof Ha as (_&er&_&Her&_&Ier&_). destruct er as [|u w thr]; [done|].
    unfold GetRetVal. rewrite (Hret _ r t th u w thr) by done. simpl.
    exists s', (veq v w). split; [done|]. destruct (veq v w); [|done]. by destruct (cache_find _ _).
  - rewrite bool_decide_true by done. simpl. exists s', true. split; [done|].
    by destruct (cache_find _ _).
Qed.

(** A cached configuration is known to be a dead end. *)
Lemma cached_dead_end cache c L s i s' :
  (∀ k, k ∈ cache → ¬ complete k.1 k.2 ∨ k ∈ (L, s) :: c) →
  (∀ k, k ∈ c → count_true k.1 < count_true L) →
  count_true L < count_true (mark_op a L i) →
  cache_find cache (mark_op a L i, s') = true → ¬ complete (mark_op a L i) s'.
Proof.
  intros Hcache Hcnt Hlt Hf. unfold cache_find in Hf. apply existsb_exists in Hf as (k&Hk&Hf).
  apply andb_true_iff in Hf as [_ Hf]. unfold PairEqual in Hf. apply andb_true_iff in Hf as [HL He].
  apply bool_decide_eq_true in HL. simpl in *. apply list_elem_of_In in Hk.
  destruct (Hcache k Hk) as [Hn|Hin].
  - rewrite <-HL, <-(Equal_eqv _ _ He). done.
  - exfalso. apply elem_of_cons in Hin as [->|Hin]; simpl in *; [rewrite <-HL in Hlt; lia|].
    specialize (Hcnt k Hin). rewrite HL in Hcnt. lia.
Qed.

(** One iteration at an invocation keeps the invariant; it either moves on
    or opens a section. *)
Lemma wgl_invoke_ok t th st :
  inv st → current_section_start st < n →
  history !! current_section_start st = Some (Invoke t th) →
  wgl_linearized st !! current_section_start st = Some false →
  ∃ st', wgl_invoke inv_res t st = Ret st' ∧ inv st' ∧
    ((open_sections_stack st' = open_sections_stack st ∧
      current_section_start st' = S (current_section_start st)) ∨
     (open_sections_stack st' = current_section_start st :: open_sections_stack st ∧
      current_section_start st' = 0)).
Proof.
  intros Hi Hlt He HF. pose proof Hi as (c&Hp&Hcnt&Hle&Hr&Hv&Hcache).
  pose proof (path_closed _ _ _ _ _ Hp) as Hc.
  destruct (path_counts _ _ _ _ _ Hp) as (_&_&Hcs).
  destruct (wgl_invoke_apply t th st He) as (s'&b&Ha&Hw). rewrite Hw.
  set (cur := current_section_start st) in *.
  assert (Ii : IsInvoke a cur = true) by (simpl; by rewrite He).
  assert (Hnr : IsResponse a cur = true → wgl_linearized st !! cur = Some true).
  { simpl. rewrite He. done. }
  assert (Hrf : ∀ r, ResponseIndex a cur = Some r → wgl_linearized st !! r = Some false).
  { intros r Hri. destruct Hc as [_ Hc]. by rewrite <-(Hc cur r). }
  pose proof (mark_op_count n a (wgl_linearized st) cur Hlt Ii HF Hrf) as Hmc.
  destruct b; [|eexists; split_and!; [done| |by left]].
  2:{ apply inv_advance; [done..| |done]. intros [_ [(_&Hd&_)|(s1&Ha1&_)]]; [done|].
      fold cur in Ha1. rewrite Ha in Ha1. done. }
  simpl. rewrite mark_mark_op. destruct (cache_find _ _) eqn:Hf.
  - eexists. split_and!; [done| |by left].
    assert (Hnv : ¬ via cur (wgl_linearized st) (data_structure_state st)).
    { intros [_ [(_&Hd&_)|(s1&Ha1&_&Hc1)]]; [done|]. rewrite Ha in Ha1. simplify_eq.
      eapply cached_dead_end; eauto. lia. }
    pose proof (inv_advance st Hi Hlt Hnv Hnr) as Hadv. unfold advance in Hadv.
    rewrite unmark_unmark_op, (unmark_mark_op n a) by done. by rewrite Nat.add_sub.
  - eexists. split_and!; [done| |by right].
    eexists. simpl. split_and!; [econstructor; eauto| |lia|lia|lia|].
    + split_and!; [done..|]. intros r Hlt' Rr. by apply Hr.
    + rewrite Hmc, Hcnt. unfold entries. simpl.
      destruct (inv_res !! cur); [rewrite bool_decide_true by eauto|
        rewrite bool_decide_false by (intros []; done)]; lia.
    + intros k [->|Hk]%elem_of_cons; [right; by left|].
      destruct (Hcache k Hk); [by left|right; by right].
Qed.

(** ** Termination: the sections and the index, read as digits, grow *)
Definition weight (k : nat) : nat := (n + 3) ^ (n + 1 - k).

Fixpoint sections_value (l : list nat) : nat :=
  match l with
  | [] => 0
  | i :: l => (i + 1) * weight (length l) + sections_value l
  end.

Definition progress (st : wgl_st St) : nat :=
  (current_section_start st + 1) * weight (length (open_sections_stack st)) +
  sections_value (open_sections_stack st).

Lemma weight_pos k : 0 < weight k.
Proof. unfold weight. assert ((n + 3) ^ (n + 1 - k) ≠ 0); [|lia]. apply Nat.pow_nonzero. lia. Qed.

Lemma weight_step k : k ≤ n → weight k = (n + 3) * weight (S k).
Proof.
  intros Hk. unfold weight. replace (n + 1 - k) with (S (n + 1 - S k)) by lia. done.
Qed.

Lemma sections_bound l :
  Forall (λ i, i < n) l → length l ≤ n + 1 →
  sections_value l + (n + 3) * weight (length l) ≤ (n + 3) ^ (n + 2).
Proof.
  induction 1 as [|i l Hi Hl IH]; simpl; intros Hlen.
  - unfold weight. replace (n + 1 - 0) with (n + 1) by lia.
    replace (n + 2) with (S (n + 1)) by lia. rewrite Nat.pow_succ_r'. lia.
  - specialize (IH ltac:(lia)). pose proof (weight_step (length l) ltac:(lia)). nia.
Qed.

Lemma progress_bound st : inv st → progress st ≤ check_fuel.
Proof.
  intros (c&Hp&Hcnt&Hle&_). destruct (path_counts _ _ _ _ _ Hp) as (Hlen&Hall&_).
  pose proof (path_closed _ _ _ _ _ Hp) as [HL _].
  pose proof (count_true_le (wgl_linearized st)).
  pose proof (sections_bound _ Hall ltac:(lia)). unfold progress, check_fuel. nia.
Qed.

Lemma wgl_iter_ok st :
  inv st → linearized_entries_count st ≠ n →
  (wgl_iter inv_res st = Ret None ∧ ¬ complete (replicate n false) first_state) ∨
  ∃ st', wgl_iter inv_res st = Ret (Some st') ∧ inv st' ∧ progress st < progress st'.
Proof.
  intros Hi Hne. pose proof (inv_in_range st Hi Hne) as Hlt.
  pose proof Hi as (c&Hp&Hcnt&Hle&Hr&Hv&Hcache). pose proof (path_closed _ _ _ _ _ Hp) as [HL _].
  destruct (path_counts _ _ _ _ _ Hp) as (Hlen&Hall&_).
  pose proof (count_true_le (wgl_linearized st)) as Hct.
  pose proof (weight_pos (length (open_sections_stack st))).
  unfold wgl_iter.
  destruct (lookup_bool_total (wgl_linearized st) (current_section_start st)) as [HT|HF]; [lia| |].
  { rewrite HT. simpl. right. eexists. split_and!; [done| |].
    - apply inv_advance; [done..| |done]. intros [(HF&_) _]. congruence.
    - unfold progress. simpl. lia. }
  rewrite HF. simpl. destruct (history !! current_section_start st) as [e|] eqn:He.
  2:{ apply lookup_ge_None in He. lia. }
  simpl. destruct e as [t th|u w th].
  - right. destruct (wgl_invoke_ok t th st Hi Hlt He HF) as (st'&Hw&Hi'&Hor).
    rewrite Hw. simpl. exists st'. split_and!; [done..|]. unfold progress.
    destruct Hor as [[-> ->]|[-> ->]]; simpl; [lia|].
    pose proof (weight_pos (S (length (open_sections_stack st)))). lia.
  - destruct (wgl_response_ok st Hi Hlt) as [[-> ?]|(st'&i&secs&->&Hi'&Hs&Hs'&Hcur)].
    { simpl. by rewrite He. }
    { done. }
    { by left. }
    right. exists st'. split_and!; [done..|]. unfold progress. rewrite Hs, Hs', Hcur in *. simpl in *.
    pose proof (weight_step (length secs) ltac:(lia)). nia.
Qed.

Lemma wgl_loop_spec fuel st :
  inv st → check_fuel - progress st < fuel →
  ∃ b, wgl_loop fuel inv_res st = Ret b ∧ (b = true ↔ complete (replicate n false) first_state).
Proof.
  revert st. induction fuel as [|fuel IH]; intros st Hi Hf; [lia|]. simpl.
  destruct (Nat.eqb_spec (linearized_entries_count st) n) as [Heq|Hne].
  - exists true. split; [done|]. split; [|done]. intros _.
    destruct Hi as (c&Hp&Hcnt&_). pose proof (path_closed _ _ _ _ _ Hp) as [HL _].
    exists (wgl_linearized st), (data_structure_state st). split_and!; [|by apply count_true_full; lia|done].
    by eapply path_reaches.
  - destruct (wgl_iter_ok st Hi Hne) as [[-> Hn]|(st'&->&Hi'&Hlt)]; simpl.
    + exists false. split; [done|]. split; [done|]. intros ?. done.
    + apply IH; [done|]. pose proof (progress_bound st' Hi'). lia.
Qed.

Lemma inv_init : inv wgl_init.
Proof.
  exists []. simpl. split_and!; [constructor| |lia|lia|lia|].
  - by rewrite count_true_replicate.
  - intros k Hk. by apply not_elem_of_nil in Hk.
Qed.

End Correct.
End Wgl.
