(* ===== verification/LincheckDual.v ===== *)
(** * The dual linearizability checker

    Models runtime/include/lincheck_dual.h. A blocking operation of a dual
    data structure is two operations of the history: a request (register or
    match) and a follow-up (deliver the result). The checker searches for an
    order of ordinary operations, requests and follow-ups. *)
From stdpp Require Import base list gmap strings.
From Stdlib Require Import ZArith.
From S2P Require Import Prelude LinSpec Events History Search.

(** [DualHistoryEvent]: ordinary [Invoke]/[Response] and the dual events. *)
Inductive DualHistoryEvent (A V : Type) :=
  | OrdinaryInvoke (task : Task A V) (thread_id : Z)
  | OrdinaryResponse (task : Task A V) (result : V) (thread_id : Z)
  | RequestInvoke (task : Task A V) (thread_id : Z)
  | RequestResponse (task : Task A V) (thread_id : Z)
  | FollowUpInvoke (task : Task A V) (thread_id : Z)
  | FollowUpResponse (task : Task A V) (result : V) (thread_id : Z).
Arguments OrdinaryInvoke {A V} _ _.
Arguments OrdinaryResponse {A V} _ _ _.
Arguments RequestInvoke {A V} _ _.
Arguments RequestResponse {A V} _ _.
Arguments FollowUpInvoke {A V} _ _.
Arguments FollowUpResponse {A V} _ _ _.

(** The kinds of specification methods ([DualMethod]). *)
Inductive DualMethod (St A V : Type) :=
  | DualNonBlockingMethod (f : St → A → St * V)
  | DualNonBlockingPredicateMethod (f : St → A → option V → bool * St)
  | DualBlockingMethod (request : St → A → Z → St) (followup : St → A → Z → option V * St).
Arguments DualNonBlockingMethod {St A V} _.
Arguments DualNonBlockingPredicateMethod {St A V} _.
Arguments DualBlockingMethod {St A V} _ _.

Abbreviation DualMethodMap St A V := (gmap string (DualMethod St A V)).

(** The three kinds of operation; the code keeps one pair of maps for each. *)
Inductive DualClass := Ordinary | Request | FollowUp.

#[export] Instance DualClass_eq_dec : EqDecision DualClass.
Proof. solve_decision. Defined.

#[export] Instance DualClass_countable : Countable DualClass.
Proof.
  refine (inj_countable'
    (λ c, match c with Ordinary => 0 | Request => 1 | FollowUp => 2 end)
    (λ n, match n with 0 => Ordinary | 1 => Request | _ => FollowUp end) _).
  by intros [].
Defined.

Section Events.
Context {A V : Type}.
Implicit Types (e : DualHistoryEvent A V) (h : list (DualHistoryEvent A V)).

Definition IsDualResponseEvent e : bool :=
  match e with
  | OrdinaryResponse _ _ _ | RequestResponse _ _ | FollowUpResponse _ _ _ => true
  | _ => false
  end.

Definition IsDualInvokeEvent e : bool :=
  match e with
  | OrdinaryInvoke _ _ | RequestInvoke _ _ | FollowUpInvoke _ _ => true
  | _ => false
  end.

Definition GetTaskOfEvent e : Task A V :=
  match e with
  | OrdinaryInvoke t _ | OrdinaryResponse t _ _ | RequestInvoke t _ | RequestResponse t _
  | FollowUpInvoke t _ | FollowUpResponse t _ _ => t
  end.

Definition event_class e : DualClass :=
  match e with
  | OrdinaryInvoke _ _ | OrdinaryResponse _ _ _ => Ordinary
  | RequestInvoke _ _ | RequestResponse _ _ => Request
  | FollowUpInvoke _ _ | FollowUpResponse _ _ _ => FollowUp
  end.

Definition result_of e : option V :=
  match e with
  | OrdinaryResponse _ v _ | FollowUpResponse _ v _ => Some v
  | _ => None
  end.

Definition dual_key e : DualClass * nat := (event_class e, task_ptr (GetTaskOfEvent e)).
Definition dual_id e : DualClass * Z := (event_class e, task_id (GetTaskOfEvent e)).

End Events.

Abbreviation wf_dual h := (wf_events IsDualInvokeEvent dual_key h).
Abbreviation dual_answers h i r := (event_answers IsDualInvokeEvent dual_key h i r).

Section Build.
Context {A V : Type}.
Implicit Types (e : DualHistoryEvent A V) (h : list (DualHistoryEvent A V)).

(** [DualHistoryEventInfo]: the kind is the class and the direction. *)
Record DualHistoryEventInfo := mkDualInfo {
  di_class : DualClass;
  di_is_invoke : bool;
  di_name : string;
  di_task : option nat;
  di_args : option A;
  di_op_id : Z;
  di_response_index : option nat;
  di_result : option V;
}.

(** Value initialization: kind 0 is [OrdinaryInvoke]. *)
Definition default_dual_info : DualHistoryEventInfo :=
  mkDualInfo Ordinary true "" None None 0 None None.

Definition fill_dual e (d : DualHistoryEventInfo) : DualHistoryEventInfo :=
  let t := GetTaskOfEvent e in
  mkDualInfo (event_class e) (IsDualInvokeEvent e) (task_name t) (Some (task_ptr t))
    (Some (task_args t)) (task_id t) (di_response_index d)
    (match result_of e with Some v => Some v | None => di_result d end).

Definition set_dual_response (r : nat) (d : DualHistoryEventInfo) : DualHistoryEventInfo :=
  mkDualInfo (di_class d) (di_is_invoke d) (di_name d) (di_task d) (di_args d) (di_op_id d)
    (Some r) (di_result d).

(** The loop of [build_step] (Events); the six maps of the code are the two
    maps of [build_st], keyed by the class as well. *)
Definition BuildDualHistoryEventInfo h : list DualHistoryEventInfo :=
  build_events IsDualInvokeEvent dual_key dual_id fill_dual set_dual_response
    default_dual_info h.

Definition get_dual_inv_res_mapping h : gmap nat nat :=
  list_to_map (omap (λ '(i, d), if di_is_invoke d
                                then (i,.) <$> di_response_index d else None)
                    (imap pair (BuildDualHistoryEventInfo h))).

(** What the record of event [e] at index [i] holds. *)
Definition dual_info_ok h (i : nat) e (d : DualHistoryEventInfo) : Prop :=
  ∃ ri, d = mkDualInfo (event_class e) (IsDualInvokeEvent e) (task_name (GetTaskOfEvent e))
              (Some (task_ptr (GetTaskOfEvent e))) (Some (task_args (GetTaskOfEvent e)))
              (task_id (GetTaskOfEvent e)) ri (result_of e) ∧
    ∀ r, ri = Some r ↔ dual_answers h i r.

Lemma build_dual_ok h i e :
  wf_dual h → h !! i = Some e →
  ∃ d, BuildDualHistoryEventInfo h !! i = Some d ∧ dual_info_ok h i e d.
Proof.
  intros Hw Hi.
  destruct (build_events_lookup IsDualInvokeEvent dual_key dual_id fill_dual set_dual_response
              default_dual_info h i e Hw Hi) as (d&Hd&Hok).
  exists d. split; [done|]. destruct Hok as [(r&Hr&->)|[Hn ->]].
  - exists (Some r). split; [by destruct e|]. intros r'. split; [intros [= <-]; done|].
    intros Hr'. f_equal. by eapply answers_unique_response.
  - exists None. split; [by destruct e|]. intros r. split; [done|]. intros Hr.
    by apply Hn in Hr.
Qed.

Lemma build_dual_length h :
  wf_dual h → length (BuildDualHistoryEventInfo h) = length h.
Proof. apply build_events_length. Qed.

Lemma response_kind e : IsDualResponseEvent e = negb (IsDualInvokeEvent e).
Proof. by destruct e. Qed.

End Build.
Arguments DualHistoryEventInfo A V : clear implicits.

(** ** [Check] *)
Section Check.
Context {St A V : Type}.
Context (SpecStateHash : St → Z) (SpecStateEqual : St → St → bool) (Enabled : bool).
Context (veq : V → V → bool).
Context (methods : DualMethodMap St A V) (init_state : St).
Implicit Types (h : list (DualHistoryEvent A V)).

Record PendingFollowUp := mkPending {
  pending_name : string;
  pending_task : option nat;
  pending_args : option A;
  pending_op_id : Z;
}.

Fixpoint dual_method_by_event (events : list (DualHistoryEventInfo A V)) :
    outcome (list (option (DualMethod St A V))) :=
  match events with
  | [] => Ret []
  | ev :: events =>
      m ← (if negb (di_is_invoke ev) then Ret None
           else match methods !! di_name ev with
                | None => Throw ("No method in dual spec for: " +:+ di_name ev)
                | Some m => Ret (Some m)
                end);
      ms ← dual_method_by_event events;
      Ret (m :: ms)
  end.

Definition completed_followups (events : list (DualHistoryEventInfo A V)) : list (option nat) :=
  omap (λ ev, if bool_decide (di_class ev = FollowUp) && negb (di_is_invoke ev)
              then Some (di_task ev) else None) events.

Definition incomplete_followups (events : list (DualHistoryEventInfo A V)) : list PendingFollowUp :=
  omap (λ ev,
    if negb (bool_decide (di_class ev = Request) && di_is_invoke ev) ||
       negb (bool_decide (is_Some (di_response_index ev))) ||
       bool_decide (di_task ev ∈ completed_followups events)
    then None
    else Some (mkPending (di_name ev) (di_task ev) (di_args ev) (di_op_id ev))) events.

Definition validate_completed_linearization (pending : list PendingFollowUp) (_ : St) : bool :=
  forallb (λ p, match methods !! pending_name p with
                | Some (DualBlockingMethod _ _) => true
                | _ => false
                end) pending.

(** [TryApply] of the adapter, on an invocation with its method. *)
Definition DualTryApply (events : list (DualHistoryEventInfo A V))
    (ev : DualHistoryEventInfo A V) (m : DualMethod St A V) (args : A) (s : St) : bool * St :=
  let result := di_response_index ev ≫= (λ r, events !! r ≫= di_result) in
  let has_response := bool_decide (is_Some (di_response_index ev)) in
  let agree (v : V) := negb has_response ||
                       match result with Some w => veq v w | None => false end in
  match di_class ev, m with
  | Ordinary, DualNonBlockingMethod f => let '(s', v) := f s args in (agree v, s')
  | Ordinary, DualNonBlockingPredicateMethod f => f s args result
  | Request, DualBlockingMethod request _ => (true, request s args (di_op_id ev))
  | FollowUp, DualBlockingMethod _ followup =>
      match followup s args (di_op_id ev) with
      | (None, s') => (false, s')
      | (Some v, s') => (agree v, s')
      end
  | _, _ => (false, s)
  end.

Definition DualAdapter (events : list (DualHistoryEventInfo A V))
    (ms : list (option (DualMethod St A V))) : Adapter St :=
  mkAdapter St
    (λ i, from_option di_is_invoke false (events !! i))
    (λ i, from_option (λ d, negb (di_is_invoke d)) false (events !! i))
    (λ i, events !! i ≫= di_response_index)
    (λ i, match events !! i with
          | Some d => negb (bool_decide (is_Some (di_response_index d))) && di_is_invoke d
          | None => false
          end)
    (λ i s, match events !! i, mjoin (ms !! i) with
            | Some ev, Some m =>
                match di_args ev with
                | Some args =>
                    if di_is_invoke ev then DualTryApply events ev m args s else (false, s)
                | None => (false, s)
                end
            | _, _ => (false, s)
            end).

Definition CheckDual h : outcome bool :=
  match h with
  | [] => Ret true
  | _ =>
      let event_info := BuildDualHistoryEventInfo h in
      ms ← dual_method_by_event event_info;
      RunRecursiveLinearizationSearchImpl SpecStateHash SpecStateEqual Enabled (length h)
        (DualAdapter event_info ms)
        (validate_completed_linearization (incomplete_followups event_info)) init_state
  end.

(** ** Dual linearizability *)
Section Spec.
Context h.

(** The result recorded for the invocation [i], if it was answered. *)
Definition recorded (i : nat) (ov : option V) : Prop :=
  match ov with
  | Some v => ∃ r e, dual_answers h i r ∧ h !! r = Some e ∧ result_of e = Some v
  | None => ∀ r, ¬ dual_answers h i r
  end.

(** One operation of the sequential explanation. *)
Inductive dual_apply (i : nat) : St → St → Prop :=
  | apply_ordinary t th f s ov :
      h !! i = Some (OrdinaryInvoke t th) →
      methods !! task_name t = Some (DualNonBlockingMethod f) →
      recorded i ov → (∀ w, ov = Some w → veq (f s (task_args t)).2 w = true) →
      dual_apply i s (f s (task_args t)).1
  | apply_predicate t th f s s' ov :
      h !! i = Some (OrdinaryInvoke t th) →
      methods !! task_name t = Some (DualNonBlockingPredicateMethod f) →
      recorded i ov → f s (task_args t) ov = (true, s') →
      dual_apply i s s'
  | apply_request t th req fol s :
      h !! i = Some (RequestInvoke t th) →
      methods !! task_name t = Some (DualBlockingMethod req fol) →
      dual_apply i s (req s (task_args t) (task_id t))
  | apply_followup t th req fol s s' v ov :
      h !! i = Some (FollowUpInvoke t th) →
      methods !! task_name t = Some (DualBlockingMethod req fol) →
      fol s (task_args t) (task_id t) = (Some v, s') →
      recorded i ov → (∀ w, ov = Some w → veq v w = true) →
      dual_apply i s s'.

Inductive dual_legal : list nat → St → Prop :=
  | dual_legal_nil s : dual_legal [] s
  | dual_legal_cons i lin s s' : dual_apply i s s' → dual_legal lin s' → dual_legal (i :: lin) s.

(** A sequential explanation: all answered requests, follow-ups and ordinary
    operations, some of the unanswered ones, in real-time order. *)
Record dual_witness (lin : list nat) (s : St) : Prop := {
  dw_nodup : NoDup lin;
  dw_completed i r : dual_answers h i r → i ∈ lin;
  dw_order p q i j r : lin !! p = Some i → lin !! q = Some j →
    dual_answers h i r → r < j → p < q;
  dw_legal : dual_legal lin s;
}.

Definition dual_linearizable : Prop := ∃ lin, dual_witness lin init_state.

Definition dual_methods_known : Prop :=
  ∀ i e, h !! i = Some e → IsDualInvokeEvent e = true →
    is_Some (methods !! task_name (GetTaskOfEvent e)).

(** Only ordinary and follow-up responses carry a result. *)
Definition results_recorded : Prop :=
  ∀ i r e, dual_answers h i r → h !! i = Some e → event_class e ≠ Request →
    ∃ er v, h !! r = Some er ∧ result_of er = Some v.

Lemma wf_results_recorded : results_recorded.
Proof.
  intros i r e (ei&er&Hi&Hr&Ii&Ir&Hk) He Hne. rewrite Hi in He. injection He as ->.
  exists er. unfold dual_key in Hk. destruct e, er; simplify_eq/=; eauto.
Qed.
End Spec.

(** ** The checker decides dual linearizability *)
Section Correct.
Context h (Hwf : wf_dual h) (Hknown : dual_methods_known h).
Abbreviation info := (BuildDualHistoryEventInfo h).

Lemma dual_method_by_event_ok events :
  (∀ i d, events !! i = Some d → di_is_invoke d = true → is_Some (methods !! di_name d)) →
  ∃ ms, dual_method_by_event events = Ret ms ∧
    (∀ i d, events !! i = Some d → di_is_invoke d = true → ms !! i = Some (methods !! di_name d)) ∧
    (∀ i m, mjoin (ms !! i) = Some m → ∃ name, methods !! name = Some m).
Proof.
  induction events as [|ev events IH]; intros Hk; simpl; [by exists []|].
  destruct IH as (ms&Hms&Hl&Hf); [by intros i d; apply (Hk (S i))|].
  destruct (di_is_invoke ev) eqn:Ie; simpl.
  - destruct (Hk 0 ev eq_refl Ie) as [m Hm]. rewrite Hm. simpl. rewrite Hms. simpl.
    eexists. split_and!; [done| |].
    + intros [|i] d Hd Id; simplify_eq/=; [by rewrite Hm|eauto].
    + intros [|i] m' Hm'; simplify_eq/=; eauto.
  - rewrite Hms. simpl. eexists. split_and!; [done| |].
    + intros [|i] d Hd Id; simplify_eq/=; [congruence|eauto].
    + intros [|i] m' Hm'; simplify_eq/=; eauto.
Qed.

Lemma dual_methods_table :
  ∃ ms, dual_method_by_event info = Ret ms ∧
    (∀ i e, h !! i = Some e → IsDualInvokeEvent e = true →
       ms !! i = Some (methods !! task_name (GetTaskOfEvent e))) ∧
    (∀ i m, mjoin (ms !! i) = Some m → ∃ name, methods !! name = Some m).
Proof.
  destruct (dual_method_by_event_ok info) as (ms&Hms&Hl&Hf).
  - intros i d Hd Id. apply lookup_lt_Some in Hd as Hi.
    rewrite build_dual_length in Hi by done. apply lookup_lt_is_Some in Hi as [e He].
    destruct (build_dual_ok h i e Hwf He) as (d'&Hd'&ri&->&_). simplify_eq. simpl in *. eauto.
  - exists ms. split_and!; [done| |done]. intros i e He Ie.
    destruct (build_dual_ok h i _ Hwf He) as (d&Hd&ri&->&_). by eapply Hl in Hd.
Qed.

Context (ms : list (option (DualMethod St A V))).
Context (Hms : ∀ i e, h !! i = Some e → IsDualInvokeEvent e = true →
  ms !! i = Some (methods !! task_name (GetTaskOfEvent e))).
Context (Hfrom : ∀ i m, mjoin (ms !! i) = Some m → ∃ name, methods !! name = Some m).
Abbreviation a := (DualAdapter (BuildDualHistoryEventInfo h) ms).

Lemma dual_kind i e :
  h !! i = Some e → IsInvoke a i = IsDualInvokeEvent e ∧ IsResponse a i = negb (IsDualInvokeEvent e).
Proof. intros He. simpl. by destruct (build_dual_ok h i e Hwf He) as (d&->&ri&->&_). Qed.

Lemma dual_response i e r :
  h !! i = Some e → ResponseIndex a i = Some r ↔ dual_answers h i r.
Proof. intros He. simpl. by destruct (build_dual_ok h i e Hwf He) as (d&->&ri&->&Hr). Qed.

Lemma dual_drop i e :
  h !! i = Some e → IsDualInvokeEvent e = true →
  CanDropPendingInvoke a i = true ↔ ∀ r, ¬ dual_answers h i r.
Proof.
  intros He Ie. simpl. destruct (build_dual_ok h i e Hwf He) as (d&->&ri&->&Hr). simpl.
  rewrite Ie, andb_true_r. destruct ri as [r|].
  - rewrite bool_decide_true by eauto. simpl. split; [done|]. intros Hn.
    destruct (Hn r). by apply Hr.
  - rewrite bool_decide_false by (intros []; done). simpl. split; [|done].
    intros _ r Ha. apply Hr in Ha. done.
Qed.

#[local] Instance dual_adapter_wf : AdapterWf (length h) a.
Proof.
  apply (history_adapter_wf IsDualInvokeEvent dual_key h _ Hwf).
  - apply dual_kind.
  - intros i e r He _. by apply (dual_response i e).
  - intros i. simpl. destruct (info !! i) as [d|]; [|done]. simpl.
    destruct (di_response_index d); [|done]. by rewrite bool_decide_true by eauto.
Qed.

(** The result the adapter passes on is the recorded one. *)
Lemma dual_recorded i e ri :
  h !! i = Some e → event_class e ≠ Request → (∀ r, ri = Some r ↔ dual_answers h i r) →
  ∃ ov, recorded h i ov ∧ (ri ≫= λ r, info !! r ≫= di_result) = ov ∧
    bool_decide (is_Some ri) = bool_decide (is_Some ov) ∧ ∀ ov', recorded h i ov' → ov' = ov.
Proof.
  intros He Hc Hri. destruct ri as [r|].
  - assert (Ha : dual_answers h i r) by by apply Hri.
    destruct (wf_results_recorded h i r e Ha He Hc) as (er&v&Her&Hv).
    exists (Some v). split_and!.
    + exists r, er. done.
    + simpl. destruct (build_dual_ok h r er Hwf Her) as (d&->&ri'&->&_). done.
    + by rewrite !bool_decide_true by eauto.
    + intros [v'|]; simpl.
      * intros (r'&e'&Ha'&Hr'&Hv'). assert (r' = r) as -> by by eapply answers_unique_response.
        naive_solver.
      * intros Hn. by apply Hn in Ha.
  - exists None. split_and!; [|done|done|].
    + intros r Ha. apply Hri in Ha. done.
    + intros [v'|]; simpl; [|done]. intros (r'&e'&Ha'&_). apply Hri in Ha'. done.
Qed.

Lemma dual_apply_ordinary i t th s s' :
  h !! i = Some (OrdinaryInvoke t th) →
  TryApply a i s = (true, s') ↔ dual_apply h i s s'.
Proof.
  intros He. simpl. destruct (build_dual_ok h i _ Hwf He) as (d&->&ri&->&Hri). simpl.
  destruct (dual_recorded i _ ri He ltac:(done) Hri) as (ov&Hrec&Hres&Hb&Huniq).
  rewrite (Hms i _ He eq_refl). destruct (Hknown i _ He eq_refl) as [m Hm]. simpl in *.
  rewrite Hm. unfold DualTryApply. simpl. rewrite Hres, Hb. clear Hres Hb.
  split.
  - destruct m as [f|f|req fol]; [| |done].
    + destruct (f s (task_args t)) as [s1 v] eqn:Hf. intros [= Hag <-].
      change s1 with (s1, v).1. rewrite <-Hf. eapply apply_ordinary; eauto.
      intros w ->. rewrite bool_decide_true in Hag by eauto. by rewrite Hf.
    + intros Hf. eapply apply_predicate; eauto.
  - inversion 1 as [t' th' f s0 ov' He' Hm' Hrec' Hag|t' th' f s0 s1 ov' He' Hm' Hrec' Hf|
                    t' th' req fol s0 He' Hm'|t' th' req fol s0 s1 v ov' He' Hm']; simplify_eq.
    + rewrite (Huniq _ Hrec') in Hag. destruct (f s _) as [s1 v].
      simpl in *. f_equal. destruct ov; simpl; [by rewrite Hag|done].
    + by rewrite (Huniq _ Hrec') in Hf.
Qed.

Lemma dual_apply_request i t th s s' :
  h !! i = Some (RequestInvoke t th) →
  TryApply a i s = (true, s') ↔ dual_apply h i s s'.
Proof.
  intros He. simpl. destruct (build_dual_ok h i _ Hwf He) as (d&->&ri&->&Hri). simpl.
  rewrite (Hms i _ He eq_refl). destruct (Hknown i _ He eq_refl) as [m Hm]. simpl in *.
  rewrite Hm. unfold DualTryApply. simpl. split.
  - destruct m as [f|f|req fol]; [done|done|]. intros [= <-]. by eapply apply_request.
  - inversion 1; by simplify_eq.
Qed.

Lemma dual_apply_followup i t th s s' :
  h !! i = Some (FollowUpInvoke t th) →
  TryApply a i s = (true, s') ↔ dual_apply h i s s'.
Proof.
  intros He. simpl. destruct (build_dual_ok h i _ Hwf He) as (d&->&ri&->&Hri). simpl.
  destruct (dual_recorded i _ ri He ltac:(done) Hri) as (ov&Hrec&Hres&Hb&Huniq).
  rewrite (Hms i _ He eq_refl). destruct (Hknown i _ He eq_refl) as [m Hm]. simpl in *.
  rewrite Hm. unfold DualTryApply. simpl. rewrite Hres, Hb. clear Hres Hb. split.
  - destruct m as [f|f|req fol]; [done|done|].
    destruct (fol s (task_args t) (task_id t)) as [[v|] s1] eqn:Hf; [|done].
    intros [= Hag <-]. eapply apply_followup; eauto.
    intros w ->. by rewrite bool_decide_true in Hag by eauto.
  - inversion 1 as [t' th' f s0 ov' He' Hm' Hrec' Hag|t' th' f s0 s1 ov' He' Hm' Hrec' Hf|
                    t' th' req fol s0 He' Hm'|t' th' req fol s0 s1 v ov' He' Hm' Hf Hrec' Hag];
      simplify_eq.
    rewrite Hf. f_equal. rewrite (Huniq _ Hrec') in Hag. destruct ov; simpl; [by rewrite Hag|done].
Qed.

Lemma dual_apply_adapter i e s s' :
  h !! i = Some e → IsDualInvokeEvent e = true →
  TryApply a i s = (true, s') ↔ dual_apply h i s s'.
Proof.
  intros He Ie. destruct e; try done; eauto using dual_apply_ordinary, dual_apply_request,
    dual_apply_followup.
Qed.

Lemma dual_apply_invoke i s s' :
  dual_apply h i s s' → ∃ e, h !! i = Some e ∧ IsDualInvokeEvent e = true.
Proof. destruct 1; eauto. Qed.

Lemma dual_invoke_lookup i :
  i < length h → IsInvoke a i = true → ∃ e, h !! i = Some e ∧ IsDualInvokeEvent e = true.
Proof.
  intros Hi Ii. apply lookup_lt_is_Some in Hi as [e He]. exists e. split; [done|].
  destruct (dual_kind i e He) as [Hk _]. congruence.
Qed.

Lemma run_dual_legal lin s :
  (∀ i, i ∈ lin → i < length h ∧ IsInvoke a i = true) →
  (∃ s', run a lin s = Some s') ↔ dual_legal h lin s.
Proof.
  revert s. induction lin as [|i lin IH]; intros s Hops.
  { split; [constructor|by eexists]. }
  destruct (Hops i) as [Hi Ii]; [by left|]. destruct (dual_invoke_lookup i Hi Ii) as (e&He&Ie).
  assert (Hops' : ∀ j, j ∈ lin → j < length h ∧ IsInvoke a j = true).
  { intros j ?. apply Hops. by right. }
  change (run a (i :: lin) s) with (let '(b, s1) := TryApply a i s in if b then run a lin s1 else None). split.
  - destruct (TryApply a i s) as [[] s1] eqn:Ha; [|by intros []]. intros Hr.
    apply (dual_apply_adapter i e) in Ha; [|done..]. econstructor; [done|]. by apply IH.
  - inversion 1 as [|i' lin' s0 s1 Ha Hl]; simplify_eq.
    apply (dual_apply_adapter i e) in Ha; [|done..]. rewrite Ha. by apply IH.
Qed.

Lemma dual_legal_ops lin s i :
  dual_legal h lin s → i ∈ lin → i < length h ∧ IsInvoke a i = true.
Proof.
  induction 1 as [s|j lin s s' Ha Hl IH]; intros Hin.
  { by apply not_elem_of_nil in Hin. }
  apply elem_of_cons in Hin as [->|]; [|auto].
  destruct (dual_apply_invoke _ _ _ Ha) as (e&He&Ie). split; [by eapply lookup_lt_Some|].
  destruct (dual_kind j e He) as [-> _]. done.
Qed.

Lemma dual_precedes i j :
  i < length h → precedes a i j ↔ ∃ r, dual_answers h i r ∧ r < j.
Proof.
  intros Hi. apply lookup_lt_is_Some in Hi as [e He]. unfold precedes.
  split; intros (r&Hr&?); exists r; (split; [|done]); by apply (dual_response i e).
Qed.

Lemma dual_witness_linearization lin s :
  (∃ s', linearization (length h) a lin s s') ↔ dual_witness h lin s.
Proof.
  split.
  - intros [s' [Hnd Hops Htot Hord Hrun]]. split; [done| | |].
    + intros i r Ha. pose proof Ha as (ei&_&Hi&_&Ii&_). apply lookup_lt_Some in Hi as Hlt.
      destruct (dual_kind i ei Hi) as [Hk _].
      apply Htot; [done|congruence|by apply lookup_replicate_2|].
      destruct (CanDropPendingInvoke a i) eqn:Hd; [|done].
      exfalso. apply (proj1 (dual_drop i ei Hi Ii) Hd r Ha).
    + intros p q i j r Hp Hq Ha Hlt. eapply Hord; eauto.
      apply dual_precedes; eauto. by destruct (answers_lt _ _ _ _ _ Ha).
    + apply run_dual_legal; [|eauto]. intros i Hi. by destruct (Hops i Hi) as (?&?&_).
  - intros [Hnd Hcomp Hord Hleg].
    assert (Hops := λ i, dual_legal_ops lin s i Hleg).
    apply run_dual_legal in Hleg as [s' Hr]; [|done]. exists s'. split; [done| | | |done].
    + intros i Hi. destruct (Hops i Hi). split_and!; [done..|]. by apply lookup_replicate_2.
    + intros i Hi Ii _ Hd. destruct (dual_invoke_lookup i Hi Ii) as (e&He&Ie).
      destruct (build_dual_ok h i e Hwf He) as (d&Hd'&ri&->&Hri). simpl in Hd.
      rewrite Hd' in Hd. simpl in Hd. rewrite Ie, andb_true_r in Hd.
      destruct ri as [r|]; [|done]. apply (Hcomp i r). by apply Hri.
    + intros p q i j Hp Hq Hpre. apply dual_precedes in Hpre as (r&Ha&Hlt); [eauto|].
      apply (Hops i). by eapply list_elem_of_lookup_2.
Qed.

(** The final validation holds whenever a linearization was found. *)
Lemma validate_holds lin s :
  dual_witness h lin s →
  ∀ s', validate_completed_linearization (incomplete_followups info) s' = true.
Proof.
  intros [_ Hcomp _ Hleg] s'. unfold validate_completed_linearization. apply forallb_forall.
  intros p Hp. apply list_elem_of_In in Hp. unfold incomplete_followups in Hp.
  apply list_elem_of_omap in Hp as (d&Hd&Hp). apply list_elem_of_lookup in Hd as [i Hi].
  apply lookup_lt_Some in Hi as Hlt. rewrite build_dual_length in Hlt by done.
  apply lookup_lt_is_Some in Hlt as [e He].
  destruct (build_dual_ok h i e Hwf He) as (d'&Hd'&ri&->&Hri). simplify_eq. simpl in Hp.
  destruct (negb _ || _ || _) eqn:Hb; [done|]. injection Hp as <-. simpl.
  apply orb_false_iff in Hb as [Hb _]. apply orb_false_iff in Hb as [Hb1 Hb2].
  apply negb_false_iff, andb_true_iff in Hb1 as [Hc Ie]. apply bool_decide_eq_true in Hc.
  destruct ri as [r|]; [|done]. assert (Hin : i ∈ lin) by (apply (Hcomp i r); by apply Hri).
  clear -Hleg Hin He Hc Ie. induction Hleg as [s|j lin s s' Ha Hl IH].
  { by apply not_elem_of_nil in Hin. }
  apply elem_of_cons in Hin as [->|Hin]; [|auto].
  destruct e as [| |t th| | |]; try done.
  inversion Ha; simplify_eq/=; by match goal with H : methods !! _ = _ |- _ => rewrite H end.
Qed.

Context (eqv : relation St) `{!Equivalence eqv}.
Context (Equal_eqv : ∀ s t, SpecStateEqual s t = true → eqv s t).
(** States identified by [SpecStateEqual] behave alike. *)
Context (methods_eqv : ∀ name m s t, methods !! name = Some m → eqv s t →
  match m with
  | DualNonBlockingMethod f => ∀ args,
      (f s args).2 = (f t args).2 ∧ eqv (f s args).1 (f t args).1
  | DualNonBlockingPredicateMethod f => ∀ args res,
      (f s args res).1 = (f t args res).1 ∧ eqv (f s args res).2 (f t args res).2
  | DualBlockingMethod req fol => ∀ args id,
      eqv (req s args id) (req t args id) ∧
      (fol s args id).1 = (fol t args id).1 ∧ eqv (fol s args id).2 (fol t args id).2
  end).

#[local] Instance dual_congruence : AdapterCongruence a eqv.
Proof.
  split; [done|]. intros i s t Hst. simpl.
  destruct (_ !! i) as [ev|]; [|done]. destruct (mjoin (ms !! i)) as [m|] eqn:Hm; [|done].
  destruct (di_args ev) as [args|]; [|done]. destruct (di_is_invoke ev); [|done].
  destruct (Hfrom i m Hm) as [name Hn]. pose proof (methods_eqv name m s t Hn Hst) as Hc.
  unfold DualTryApply.
  destruct m as [f|f|req fol], (di_class ev); try (split; [done|exact Hst]).
  - destruct (Hc args) as [Hv He]. destruct (f s args), (f t args). simpl in *. by subst.
  - apply Hc.
  - split; [done|]. apply Hc.
  - destruct (Hc args (di_op_id ev)) as (_&Hv&He).
    destruct (fol s args (di_op_id ev)) as [o1 s1], (fol t args (di_op_id ev)) as [o2 t1].
    simpl in *. subst o2. by destruct o1.
Qed.

Lemma check_dual_search :
  h ≠ [] →
  ∃ b, RunRecursiveLinearizationSearchImpl SpecStateHash SpecStateEqual Enabled (length h) a
         (validate_completed_linearization (incomplete_followups info)) init_state = Ret b ∧
    (b = true ↔ dual_linearizable h).
Proof.
  intros Hne.
  destruct (search_reachable SpecStateHash SpecStateEqual Enabled (length h) a
              (validate_completed_linearization (incomplete_followups info))
              eqv Equal_eqv (λ _ _ _, eq_refl) init_state) as (b&Hb&Hiff).
  { destruct h; [done|simpl; lia]. }
  exists b. split; [done|]. rewrite Hiff, (completable_linearization (length h) a).
  unfold dual_linearizable. split.
  - intros (lin&s'&Hl&_). exists lin. apply dual_witness_linearization. eauto.
  - intros [lin Hl]. pose proof (validate_holds lin init_state Hl) as Hv.
    apply dual_witness_linearization in Hl as [s' Hl]. exists lin, s'. auto.
Qed.

End Correct.
End Check.
