(* ===== verification/Checkers.v ===== *)
(** * What the three checkers decide

    The contract of [ModelChecker] and [DualModelChecker]: [Check] returns,
    and it returns [true] exactly on the (dual) linearizable histories. The
    hypotheses on the specification are those the state caches need: states
    that the specification's equality identifies must behave alike. *)
From stdpp Require Import base list relations gmap strings.
From Stdlib Require Import ZArith.
From S2P Require Import Prelude LinSpec Events History Linearizability Search.
From S2P Require Import LincheckRecursive Wgl LincheckDual.

(** [Equal] of a specification is sound for its methods: it implies an
    equivalence that the methods respect. *)
Class SpecCongruence {St A V} (methods : MethodMap St A V) (Equal : St → St → bool)
    (eqv : relation St) : Prop := {
  sc_equivalence : Equivalence eqv;
  sc_equal s t : Equal s t = true → eqv s t;
  sc_methods name m args s t : methods !! name = Some m → eqv s t →
    (m s args).2 = (m t args).2 ∧ eqv (m s args).1 (m t args).1;
}.

(** The same for the methods of a dual specification. *)
Definition dual_method_respects {St A V} (eqv : relation St) (m : DualMethod St A V) : Prop :=
  ∀ s t, eqv s t →
  match m with
  | DualNonBlockingMethod f => ∀ args,
      (f s args).2 = (f t args).2 ∧ eqv (f s args).1 (f t args).1
  | DualNonBlockingPredicateMethod f => ∀ args res,
      (f s args res).1 = (f t args res).1 ∧ eqv (f s args res).2 (f t args res).2
  | DualBlockingMethod req fol => ∀ args id,
      eqv (req s args id) (req t args id) ∧
      (fol s args id).1 = (fol t args id).1 ∧ eqv (fol s args id).2 (fol t args id).2
  end.

Class DualSpecCongruence {St A V} (methods : DualMethodMap St A V) (Equal : St → St → bool)
    (eqv : relation St) : Prop := {
  dsc_equivalence : Equivalence eqv;
  dsc_equal s t : Equal s t = true → eqv s t;
  dsc_methods name m : methods !! name = Some m → dual_method_respects eqv m;
}.

Section Sequential.
Context {St A V : Type} (methods : MethodMap St A V) (first_state : St).
Context (Hash : St → Z) (Equal : St → St → bool) (veq : V → V → bool).
Context (eqv : relation St) `{!SpecCongruence methods Equal eqv}.
Implicit Types (h : list (HistoryEvent A V)).

#[local] Existing Instance sc_equivalence.

Lemma wgl_check_decides vector_hash h fuel :
  wf_history task_ref h → methods_known methods h → returns_recorded h →
  check_fuel h < fuel →
  ∃ b, Check vector_hash Hash Equal veq methods first_state h fuel = Ret b ∧
    (b = true ↔ linearizable methods veq task_ref h first_state).
Proof.
  intros Hw Hk Hr Hf. destruct (get_inv_res_mapping_spec h Hw) as (m&Hm&Hinv).
  pose proof (wgl_spec_adapter veq methods h Hw Hr m Hinv) as Hsa.
  destruct (wgl_loop_spec vector_hash Hash Equal veq methods first_state h Hw Hk Hr m Hinv
              eqv sc_equal sc_methods fuel (wgl_init first_state h)) as (b&Hb&Hiff).
  { by apply inv_init. }
  { lia. }
  exists b. unfold Check. rewrite Hm. split; [exact Hb|]. rewrite Hiff.
  exact (spec_adapter_linearizable methods veq task_ref h (wgl_adapter veq methods h m) Hw Hk first_state).
Qed.

Lemma recursive_check_decides Enabled h :
  wf_history task_ptr h → methods_known methods h →
  ∃ b, CheckRecursive Hash Equal Enabled veq methods first_state h = Ret b ∧
    (b = true ↔ linearizable methods veq task_ptr h first_state).
Proof.
  intros Hw Hk.
  exact (check_recursive_spec Hash Equal Enabled veq methods first_state h Hw Hk
           eqv sc_equal sc_methods).
Qed.

(** The same operations are paired whether tasks are told apart by the
    address of the handle or by the coroutine they own. *)
Definition handles_agree h : Prop :=
  ∀ i j e f, h !! i = Some e → h !! j = Some f →
    event_key task_ref e = event_key task_ref f ↔ event_key task_ptr e = event_key task_ptr f.

Lemma answers_agree h i r : handles_agree h → answers task_ref h i r ↔ answers task_ptr h i r.
Proof.
  intros Ha. unfold event_answers.
  split; intros (ei&er&Hi&Hr&?&?&?); exists ei, er; split_and!; try done; by eapply Ha.
Qed.

Lemma legal_agree h lin s :
  handles_agree h → legal methods veq task_ref h lin s ↔ legal methods veq task_ptr h lin s.
Proof.
  intros Ha. split.
  - induction 1 as [s|i lin s t th m Hi Hm Hag _ IH]; [constructor|].
    econstructor; [done..| |done]. intros r u w th' Hans. eapply Hag. by apply answers_agree.
  - induction 1 as [s|i lin s t th m Hi Hm Hag _ IH]; [constructor|].
    econstructor; [done..| |done]. intros r u w th' Hans. eapply Hag. by apply answers_agree.
Qed.

Lemma linearizable_agree h s :
  handles_agree h →
  linearizable methods veq task_ref h s ↔ linearizable methods veq task_ptr h s.
Proof.
  intros Ha. split; intros (lin&[Hnd Hc Ho Hl]); exists lin; split; try done.
  - intros i r Hans. apply (Hc i r). by apply answers_agree.
  - intros p q i j r ?? Hans. eapply (Ho p q i j r); try done. by apply answers_agree.
  - by apply legal_agree.
  - intros i r Hans. apply (Hc i r). by apply answers_agree.
  - intros p q i j r ?? Hans. eapply (Ho p q i j r); try done. by apply answers_agree.
  - by apply legal_agree.
Qed.

Lemma wf_history_agree h : handles_agree h → wf_history task_ref h → wf_history task_ptr h.
Proof.
  intros Ha [Hi Hr Hm]. split.
  - intros i j ei ej ?? ?? Hk. eapply (Hi i j ei ej); try done. by eapply Ha.
  - intros i j ei ej ?? ?? Hk. eapply (Hr i j ei ej); try done. by eapply Ha.
  - intros r er Hr' Ir. destruct (Hm r er Hr' Ir) as (i&ei&?&?&?&?).
    exists i, ei. split_and!; try done. by eapply Ha.
Qed.

(** C1. The iterative checker is total and exact: on every well-formed
    history of known methods it returns (no failed assertion, no access out
    of bounds, within [check_fuel] iterations) and answers [true] exactly on
    the histories that are linearizable in the sense of Herlihy and Wing. *)
Theorem wgl_check_correct vector_hash h fuel :
  wf_history task_ref h → methods_known methods h → returns_recorded h →
  check_fuel h < fuel →
  ∃ b, Check vector_hash Hash Equal veq methods first_state h fuel = Ret b ∧
    (b = true ↔ linearizable methods veq task_ref h first_state).
Proof. apply wgl_check_decides. Qed.

(** C5. The recursive checker is total and exact, with its state cache
    enabled or disabled. *)
Theorem recursive_check_correct Enabled h :
  wf_history task_ptr h → methods_known methods h →
  ∃ b, CheckRecursive Hash Equal Enabled veq methods first_state h = Ret b ∧
    (b = true ↔ linearizable methods veq task_ptr h first_state).
Proof. apply recursive_check_decides. Qed.

(** C7. The optimised iterative checker and the recursive one return the
    same answer, with any hash functions and with or without the cache. *)
Theorem wgl_recursive_equivalent vector_hash Enabled h fuel :
  wf_history task_ref h → methods_known methods h → returns_recorded h →
  handles_agree h → check_fuel h < fuel →
  Check vector_hash Hash Equal veq methods first_state h fuel =
  CheckRecursive Hash Equal Enabled veq methods first_state h.
Proof.
  intros Hw Hk Hr Ha Hf.
  destruct (wgl_check_decides vector_hash h fuel Hw Hk Hr Hf) as (b&->&Hb).
  destruct (recursive_check_decides Enabled h (wf_history_agree h Ha Hw) Hk) as (b'&->&Hb').
  f_equal. apply eq_bool_prop_intro. rewrite !Is_true_true, Hb, Hb'. by apply linearizable_agree.
Qed.

End Sequential.

(** ** The dual checker *)
Section Dual.
Context {St A V : Type} (methods : DualMethodMap St A V) (init_state : St).
Context (Hash : St → Z) (Equal : St → St → bool) (veq : V → V → bool).
Context (eqv : relation St) `{!DualSpecCongruence methods Equal eqv}.

#[local] Existing Instance dsc_equivalence.

(** C6. The dual checker is total and exact: it answers [true] exactly on
    the histories whose requests, follow-ups and ordinary operations have a
    legal sequential order that respects real time. The empty history is
    accepted without a search. *)
Theorem dual_check_correct Enabled h :
  wf_dual h → dual_methods_known methods h →
  ∃ b, CheckDual Hash Equal Enabled veq methods init_state h = Ret b ∧
    (b = true ↔ dual_linearizable veq methods init_state h).
Proof.
  intros Hw Hk. destruct (decide (h = [])) as [->|Hne].
  { exists true. split; [done|]. split; [|done]. intros _. exists [].
    split; [constructor| |done|constructor]. by intros i r (?&?&?&_). }
  destruct (dual_methods_table methods h Hw Hk) as (ms&Hms&Hl&Hfrom).
  destruct (check_dual_search Hash Equal Enabled veq methods init_state h Hw Hk ms Hl Hfrom eqv
              dsc_equal (λ name m s t Hm Hst, dsc_methods name m Hm s t Hst) Hne) as (b&Hb&Hiff).
  exists b. split; [|done]. unfold CheckDual. destruct h as [|e h']; [done|].
  rewrite Hms. exact Hb.
Qed.

End Dual.

(** ** Specifications without the invoked method *)

(** An invocation of a method the specification lacks makes the
    recursive checker throw, wherever it is in the history. *)
Theorem recursive_check_unknown_method {St A V} Hash Equal Enabled veq
    (methods : MethodMap St A V) first_state h i t th :
  wf_history task_ptr h → h !! i = Some (Invoke t th) → methods !! task_name t = None →
  ∃ what, CheckRecursive Hash Equal Enabled veq methods first_state h = Throw what.
Proof.
  intros Hw Hi Hn. destruct (build_info_ok h i _ Hw Hi) as (d&Hd&ri&->&_).
  destruct (method_by_event_throw methods _ i _ Hd eq_refl Hn) as [w Hw'].
  exists w. unfold CheckRecursive. by rewrite Hw'.
Qed.

(** [get_inv_res_mapping] maps exactly the answered invocations, each to
    its response. *)
Theorem inv_res_mapping_exact {A V} (h : list (HistoryEvent A V)) :
  wf_history task_ref h →
  ∃ m, get_inv_res_mapping h = Ret m ∧ ∀ i r, m !! i = Some r ↔ answers task_ref h i r.
Proof. apply get_inv_res_mapping_spec. Qed.

(** ** What the scheduler needs of a checker

    [ModelChecker] of runtime/include/lincheck.h as an interface: on the
    histories the scheduler records, [Check] returns whether the history is
    linearizable. The iterative and the recursive checker implement it. *)
Class ModelChecker {St A V} (methods : MethodMap St A V) (veq : V → V → bool) (s0 : St)
    (checker : list (HistoryEvent A V) → outcome bool) : Prop := {
  mc_decides h :
    wf_history task_ref h → wf_history task_ptr h → handles_agree h →
    methods_known methods h → returns_recorded h →
    ∃ b, checker h = Ret b ∧ (b = true ↔ linearizable methods veq task_ref h s0);
}.

Section Instances.
Context {St A V : Type} (methods : MethodMap St A V) (first_state : St).
Context (Hash : St → Z) (Equal : St → St → bool) (veq : V → V → bool).
Context (eqv : relation St) `{!SpecCongruence methods Equal eqv}.

(** The fuel of the iterative checker is enough for the history at hand. *)
Definition wgl_checker vector_hash (h : list (HistoryEvent A V)) : outcome bool :=
  Check vector_hash Hash Equal veq methods first_state h (S (check_fuel h)).
Definition recursive_checker (Enabled : bool) : list (HistoryEvent A V) → outcome bool :=
  CheckRecursive Hash Equal Enabled veq methods first_state.

#[export] Instance wgl_model_checker vector_hash :
  ModelChecker methods veq first_state (wgl_checker vector_hash).
Proof.
  split. intros h Hr _ _ Hk Hret. apply (wgl_check_decides methods first_state Hash Equal veq eqv); auto.
Qed.

#[export] Instance recursive_model_checker Enabled :
  ModelChecker methods veq first_state (recursive_checker Enabled).
Proof.
  split. intros h _ Hp Ha Hk _.
  destruct (recursive_check_decides methods first_state Hash Equal veq eqv Enabled h Hp Hk) as (b&Hb&Hl).
  exists b. split; [done|]. rewrite Hl. symmetry. by apply linearizable_agree.
Qed.
End Instances.
