(* ===== verification/VectorClock.v ===== *)
(** * Vector clocks of the weak-memory execution graph

    Models runtime/include/wmm/vector_clock.h. A clock is the vector [times]
    of 32-bit counters, one for each thread. *)
From stdpp Require Import base list.
From Stdlib Require Import ZArith.
From S2P Require Import Prelude.

Module VectorClock.

Record VectorClock := mk { times : list Z }.

(** [VectorClock(int nThreads)]. *)
Definition zero (nThreads : nat) : VectorClock := mk (replicate nThreads 0%Z).

Definition INT_MAX : Z := 2147483647.

Definition IsSameLength (c other : VectorClock) : bool :=
  length (times c) =? length (times other).

(** The loop of [IsSubsetOf], over two vectors of the same length. *)
Fixpoint subset_loop (xs ys : list Z) : bool :=
  match xs, ys with
  | x :: xs, y :: ys => if (y <? x)%Z then false else subset_loop xs ys
  | _, _ => true
  end.

Definition IsSubsetOf (c other : VectorClock) : outcome bool :=
  cassert (IsSameLength c other);; Ret (subset_loop (times c) (times other)).

Definition UniteWith (c other : VectorClock) : outcome VectorClock :=
  cassert (IsSameLength c other);; Ret (mk (zip_with Z.max (times c) (times other))).

(** [times[threadId]++] on an [int]: the increment of [INT_MAX] is undefined. *)
Definition Increment (c : VectorClock) (threadId : Z) : outcome VectorClock :=
  cassert ((0 <=? threadId)%Z && (threadId <? Z.of_nat (length (times c)))%Z);;
  x ← deref (times c !! Z.to_nat threadId);
  if (x =? INT_MAX)%Z then UB else Ret (mk (<[Z.to_nat threadId := (x + 1)%Z]> (times c))).

(** ** The order of clocks *)

(** Pointwise order. *)
Definition le (c d : VectorClock) : Prop := Forall2 Z.le (times c) (times d).

#[global] Instance le_preorder : PreOrder le.
Proof.
  split; unfold le.
  - intros c. induction (times c); constructor; [lia|done].
  - intros [xs] [ys] [zs]; simpl. intros Hxy. revert zs.
    induction Hxy as [|x y xs ys Hxy _ IH]; intros [|z zs] Hyz; inversion Hyz; subst;
      constructor; [lia|auto].
Qed.

#[global] Instance le_antisym : AntiSymm (=) le.
Proof.
  intros [xs] [ys]; unfold le; simpl; intros H1 H2. f_equal.
  revert H2. induction H1 as [|x y xs ys Hxy _ IH]; intros H2; [done|].
  inversion H2; subst. f_equal; [lia|auto].
Qed.

Lemma subset_loop_spec xs ys :
  length xs = length ys → subset_loop xs ys = true ↔ Forall2 Z.le xs ys.
Proof.
  revert ys. induction xs as [|x xs IH]; intros [|y ys] Hl; simplify_eq/=.
  - split; [constructor|done].
  - rewrite Forall2_cons. destruct (Z.ltb_spec y x).
    + split; [done|]. intros [? _]. lia.
    + rewrite IH by done. split; [split; [lia|done]|tauto].
Qed.

Lemma IsSubsetOf_spec c d :
  length (times c) = length (times d) →
  ∃ b, IsSubsetOf c d = Ret b ∧ (b = true ↔ le c d).
Proof.
  intros Hl. unfold IsSubsetOf, IsSameLength. rewrite Hl, Nat.eqb_refl. simpl.
  eexists. split; [done|]. by apply subset_loop_spec.
Qed.

Lemma UniteWith_spec c d :
  length (times c) = length (times d) →
  ∃ e, UniteWith c d = Ret e ∧ length (times e) = length (times c) ∧
    ∀ x, le e x ↔ le c x ∧ le d x.
Proof.
  intros Hl. unfold UniteWith, IsSameLength. rewrite Hl, Nat.eqb_refl. simpl.
  eexists. split; [done|]. destruct c as [xs], d as [ys]. unfold le. simpl in *. split.
  { rewrite length_zip_with. lia. }
  intros [zs]. simpl. revert ys zs Hl. induction xs as [|x xs IH]; intros [|y ys] [|z zs] Hl;
    simplify_eq/=.
  - split; [by split|by intros []].
  - split; [by inversion 1|intros [Hc _]; by inversion Hc].
  - split; [by inversion 1|intros [Hc _]; by inversion Hc].
  - rewrite !Forall2_cons, IH by done. split.
    + intros [? []]. split_and!; try done; lia.
    + intros [[? ?] [? ?]]. split_and!; try done; lia.
Qed.

(** The join is bounded by every bound of both clocks. *)
Lemma UniteWith_Forall (P : Z → Prop) c d e :
  UniteWith c d = Ret e → Forall P (times c) → Forall P (times d) → Forall P (times e).
Proof.
  unfold UniteWith. destruct (IsSameLength c d); [|done]. simpl. intros [= <-]. simpl.
  intros Hc. revert d. destruct d as [ys]. simpl. revert ys.
  induction Hc as [|x xs Hx _ IH]; intros [|y ys] Hd; simpl; try constructor.
  - inversion Hd; subst. destruct (Z.max_spec x y) as [[_ ->]|[_ ->]]; done.
  - apply IH. by inversion Hd.
Qed.

Lemma Increment_spec c t (bound : Z) :
  (t < length (times c))%nat → (bound < INT_MAX)%Z → Forall (λ x, x ≤ bound)%Z (times c) →
  ∃ d, Increment c (Z.of_nat t) = Ret d ∧ length (times d) = length (times c) ∧
    le c d ∧ ¬ le d c ∧ Forall (λ x, x ≤ bound + 1)%Z (times d).
Proof.
  intros Ht Hb Hall. unfold Increment.
  rewrite (proj2 (Z.leb_le 0 (Z.of_nat t))), (proj2 (Z.ltb_lt _ _)) by lia. simpl.
  rewrite Nat2Z.id. apply lookup_lt_is_Some in Ht as [x Hx]. rewrite Hx. simpl.
  pose proof (proj1 (Forall_lookup _ _) Hall t x Hx) as Hxb. simpl in Hxb.
  rewrite (proj2 (Z.eqb_neq x INT_MAX)) by lia. eexists. split; [done|]. simpl.
  rewrite length_insert. split; [done|]. unfold le. simpl. split_and!.
  - apply Forall2_same_length_lookup. split; [by rewrite length_insert|].
    intros i y z Hy Hz. destruct (decide (t = i)) as [<-|Hne].
    + rewrite list_lookup_insert_eq in Hz by (by eapply lookup_lt_Some). simplify_eq. lia.
    + rewrite list_lookup_insert_ne in Hz by done. simplify_eq. lia.
  - intros Hle. eapply (Forall2_lookup_lr _ _ _ t) in Hle; [| |exact Hx].
    2:{ apply list_lookup_insert_eq. by eapply lookup_lt_Some. }
    lia.
  - apply Forall_insert; [|lia]. eapply Forall_impl; [done|]. simpl. lia.
Qed.

(** On clocks of the same length [IsSubsetOf] decides the pointwise
    order and [UniteWith] computes the least upper bound of that order; on
    clocks of different lengths both fail their assertion. *)
Theorem vector_clock_join c d :
  (length (times c) = length (times d) →
   (∃ b, IsSubsetOf c d = Ret b ∧ (b = true ↔ le c d)) ∧
   ∃ e, UniteWith c d = Ret e ∧ ∀ x, le e x ↔ le c x ∧ le d x) ∧
  (length (times c) ≠ length (times d) → IsSubsetOf c d = AssertFail ∧ UniteWith c d = AssertFail).
Proof.
  split; intros Hl.
  - split; [by apply IsSubsetOf_spec|]. destruct (UniteWith_spec c d Hl) as (e&He&_&Hx). eauto.
  - unfold IsSubsetOf, UniteWith, IsSameLength. by rewrite (proj2 (Nat.eqb_neq _ _) Hl).
Qed.

End VectorClock.
