(* ===== verification/WmmEvent.v ===== *)
(** * Events and edges of the weak-memory execution graph

    Models runtime/include/wmm/common.h, edge.h and event.h. An event is the
    data every event has and the part that depends on its class; pointers to
    events are their ids, which are their indices in [Graph::events]. The
    stored values have one type [T] with the operations [ApplyAtomicRmwOp]
    may use. *)
From stdpp Require Import base list.
From Stdlib Require Import ZArith.
From S2P Require Import Prelude VectorClock.

Inductive MemoryOrder := Relaxed | Acquire | Release | AcqRel | SeqCst.
Inductive EventType := DUMMY | READ | WRITE | RMW.
Inductive AtomicRmwOp :=
  | Exchange | FetchAdd | FetchSub | FetchAnd | FetchOr | FetchXor | FetchMin | FetchMax.
Inductive EdgeType := PO | SC | RF | MO.
Inductive RMWState := STATE_READ | STATE_MODIFY | STATE_UNSET.

#[export] Instance MemoryOrder_eq_dec : EqDecision MemoryOrder.
Proof. solve_decision. Defined.
#[export] Instance EventType_eq_dec : EqDecision EventType.
Proof. solve_decision. Defined.
#[export] Instance EdgeType_eq_dec : EqDecision EdgeType.
Proof. solve_decision. Defined.
#[export] Instance RMWState_eq_dec : EqDecision RMWState.
Proof. solve_decision. Defined.

(** The enumeration's order, for [order >= MemoryOrder::Acquire]. *)
Definition order_index (o : MemoryOrder) : nat :=
  match o with Relaxed => 0 | Acquire => 1 | Release => 2 | AcqRel => 3 | SeqCst => 4 end.

Record Edge := mkEdge { edge_id : nat; edge_type : EdgeType; edge_from : nat; edge_to : nat }.

(** What [ApplyAtomicRmwOp<T>] uses of the value type; [None] where the
    [requires] test fails. Arithmetic on machine integers may be undefined. *)
Record ValueOps (T : Type) := mkValueOps {
  v_eqb : T → T → bool;
  v_add : option (T → T → outcome T);
  v_sub : option (T → T → outcome T);
  v_and : option (T → T → outcome T);
  v_or : option (T → T → outcome T);
  v_xor : option (T → T → outcome T);
  v_ltb : option (T → T → bool);
}.
Arguments v_eqb {T} _ _ _.
Arguments v_add {T} _.
Arguments v_sub {T} _.
Arguments v_and {T} _.
Arguments v_or {T} _.
Arguments v_xor {T} _.
Arguments v_ltb {T} _.

Section Event.
Context {T : Type} (ops : ValueOps T).

Definition ApplyAtomicRmwOp (op : AtomicRmwOp) (readValue operand : T) : outcome T :=
  let arith o := match o with Some f => f readValue operand | None => AssertFail end in
  match op with
  | Exchange => Ret operand
  | FetchAdd => arith (v_add ops)
  | FetchSub => arith (v_sub ops)
  | FetchAnd => arith (v_and ops)
  | FetchOr => arith (v_or ops)
  | FetchXor => arith (v_xor ops)
  | FetchMin => match v_ltb ops with
                | Some lt => Ret (if lt operand readValue then operand else readValue)
                | None => AssertFail
                end
  | FetchMax => match v_ltb ops with
                | Some lt => Ret (if lt readValue operand then operand else readValue)
                | None => AssertFail
                end
  end.

(** The subclasses of [Event]. [cas_expected] is the cell [*expected]. *)
Inductive EventKind :=
  | DummyEvent
  | WriteEvent (value : T)
  | ReadEvent (readFrom : option nat)
  | CASRMWEvent (readFrom : option nat) (state : RMWState)
      (initialExpectedValue cachedExpectedValue cas_expected desired : T)
      (failureOrder : MemoryOrder)
  | UnconditionalRMWEvent (readFrom : option nat) (state : RMWState) (op : AtomicRmwOp)
      (operand cachedReadValue writtenValue : T).

Record Event := mkEvent {
  ev_id : nat;
  ev_location : Z;
  ev_threadId : nat;
  ev_order : MemoryOrder;
  ev_clock : VectorClock.VectorClock;
  ev_edges : list nat;
  ev_kind : EventKind;
}.

Definition ev_type (e : Event) : EventType :=
  match ev_kind e with
  | DummyEvent => DUMMY
  | WriteEvent _ => WRITE
  | ReadEvent _ => READ
  | CASRMWEvent _ _ _ _ _ _ _ | UnconditionalRMWEvent _ _ _ _ _ _ => RMW
  end.

Definition set_clock (c : VectorClock.VectorClock) (e : Event) : Event :=
  mkEvent (ev_id e) (ev_location e) (ev_threadId e) (ev_order e) c (ev_edges e) (ev_kind e).
Definition set_edges (l : list nat) (e : Event) : Event :=
  mkEvent (ev_id e) (ev_location e) (ev_threadId e) (ev_order e) (ev_clock e) l (ev_kind e).
Definition set_kind (k : EventKind) (e : Event) : Event :=
  mkEvent (ev_id e) (ev_location e) (ev_threadId e) (ev_order e) (ev_clock e) (ev_edges e) k.

Definition IsWrite (e : Event) : bool := bool_decide (ev_type e = WRITE).
Definition IsRead (e : Event) : bool := bool_decide (ev_type e = READ).
Definition IsRMW (e : Event) : bool := bool_decide (ev_type e = RMW).
Definition IsWriteOrRMW (e : Event) : bool := IsWrite e || IsRMW e.
Definition IsReadOrRMW (e : Event) : bool := IsRead e || IsRMW e.

(** The order the virtual tests consult: a CAS uses its failure order once
    it has failed, and asserts that it is resolved. *)
Definition effective_order (e : Event) : outcome MemoryOrder :=
  match ev_kind e with
  | CASRMWEvent _ state _ _ _ _ failureOrder =>
      cassert (negb (bool_decide (state = STATE_UNSET)));;
      Ret (if bool_decide (state = STATE_MODIFY) then ev_order e else failureOrder)
  | _ => Ret (ev_order e)
  end.

Definition IsSeqCst (e : Event) : outcome bool :=
  o ← effective_order e; Ret (bool_decide (o = SeqCst)).
Definition IsAtLeastAcquire (e : Event) : outcome bool :=
  o ← effective_order e;
  Ret ((order_index Acquire <=? order_index o) && negb (bool_decide (o = Release))).
Definition IsAtLeastRelease (e : Event) : outcome bool :=
  o ← effective_order e; Ret (order_index Release <=? order_index o).

Definition IsReadRWM (e : Event) : bool :=
  match ev_kind e with
  | CASRMWEvent _ state _ _ _ _ _ => bool_decide (state = STATE_READ)
  | _ => false
  end.
Definition IsModifyRMW (e : Event) : bool :=
  match ev_kind e with
  | CASRMWEvent _ state _ _ _ _ _ | UnconditionalRMWEvent _ state _ _ _ _ =>
      bool_decide (state = STATE_MODIFY)
  | _ => false
  end.

Definition HappensBefore (e other : Event) : outcome bool :=
  VectorClock.IsSubsetOf (ev_clock e) (ev_clock other).

(** [GetReadFromEvent] asserts on events that do not read. *)
Definition GetReadFromEvent (e : Event) : outcome (option nat) :=
  match ev_kind e with
  | ReadEvent rf | CASRMWEvent rf _ _ _ _ _ _ | UnconditionalRMWEvent rf _ _ _ _ _ => Ret rf
  | _ => AssertFail
  end.

(** [Event::GetWrittenValue<T>]. *)
Definition GetWrittenValue (e : Event) : outcome T :=
  cassert (IsWriteOrRMW e);;
  match ev_kind e with
  | WriteEvent value => Ret value
  | CASRMWEvent _ state _ _ expected desired _ =>
      cassert (negb (bool_decide (state = STATE_UNSET)));;
      Ret (if bool_decide (state = STATE_MODIFY) then desired else expected)
  | UnconditionalRMWEvent _ state _ _ _ written =>
      cassert (bool_decide (state = STATE_MODIFY));; Ret written
  | _ => UB
  end.

(** [SetReadFromEvent(event)]; the argument is the id of the event and the
    event itself, or [None] for the null pointer. *)
Definition SetReadFromEvent (e : Event) (from : option (nat * Event)) : outcome Event :=
  match ev_kind e with
  | DummyEvent | WriteEvent _ => AssertFail
  | ReadEvent _ =>
      cassert (match from with None => true | Some (_, w) => IsWriteOrRMW w end);;
      Ret (set_kind (ReadEvent (fst <$> from)) e)
  | CASRMWEvent _ _ init cached expected desired fo =>
      cassert (match from with None => true | Some (_, w) => IsWriteOrRMW w end);;
      match from with
      | None => Ret (set_kind (CASRMWEvent None STATE_UNSET init init init desired fo) e)
      | Some (i, w) =>
          readValue ← GetWrittenValue w;
          cassert (v_eqb ops expected init);;
          Ret (set_kind
                 (if v_eqb ops readValue init
                  then CASRMWEvent (Some i) STATE_MODIFY init cached expected desired fo
                  else CASRMWEvent (Some i) STATE_READ init readValue readValue desired fo) e)
      end
  | UnconditionalRMWEvent _ _ op operand cached written =>
      cassert (match from with None => true | Some (_, w) => IsWriteOrRMW w end);;
      match from with
      | None => Ret (set_kind (UnconditionalRMWEvent None STATE_UNSET op operand cached written) e)
      | Some (i, w) =>
          cachedReadValue ← GetWrittenValue w;
          writtenValue ← ApplyAtomicRmwOp op cachedReadValue operand;
          Ret (set_kind (UnconditionalRMWEvent (Some i) STATE_MODIFY op operand
                           cachedReadValue writtenValue) e)
      end
  end.

(** [Event::GetReadValue<T>], given the dereference of event pointers. *)
Definition GetReadValue (event : nat → outcome Event) (e : Event) : outcome T :=
  cassert (IsReadOrRMW e);;
  match ev_kind e with
  | ReadEvent rf | CASRMWEvent rf _ _ _ _ _ _ =>
      match rf with
      | None => AssertFail
      | Some w => we ← event w; GetWrittenValue we
      end
  | UnconditionalRMWEvent rf _ _ _ cached _ =>
      match rf with None => AssertFail | Some _ => Ret cached end
  | _ => UB
  end.

End Event.
Arguments EventKind T : clear implicits.
Arguments Event T : clear implicits.

(** The [int] instance: signed overflow is undefined. *)
Definition int_result (z : Z) : outcome Z :=
  if ((-2147483648 <=? z) && (z <=? 2147483647))%Z then Ret z else UB.

Definition IntOps : ValueOps Z :=
  mkValueOps Z Z.eqb (Some (λ a b, int_result (a + b)%Z)) (Some (λ a b, int_result (a - b)%Z))
    (Some (λ a b, Ret (Z.land a b))) (Some (λ a b, Ret (Z.lor a b)))
    (Some (λ a b, Ret (Z.lxor a b))) (Some Z.ltb).
