(* ===== verification/Graph.v ===== *)
(** * The weak-memory execution graph

    Models [ltest::wmm::Graph] of runtime/include/wmm/graph.h and the
    operations [ExecutionGraph] (wmm.h) forwards to it. The vectors are
    lists, [lastSeqCstWriteEvents] is a map from locations to event ids. *)
From stdpp Require Import base list gmap.
From Stdlib Require Import ZArith.
From S2P Require Import Prelude VectorClock WmmEvent.

Record Graph (T : Type) := mkGraph {
  g_edges : list Edge;
  g_events : list (Event T);
  eventsPerThread : list (list nat);
  lastSeqCstWriteEvents : gmap Z nat;
  snapshotEdges : gset nat;
  inSnapshotMode : bool;
  nThreads : nat;
}.
Arguments mkGraph {T} _ _ _ _ _ _ _.
Arguments g_edges {T} _.
Arguments g_events {T} _.
Arguments eventsPerThread {T} _.
Arguments lastSeqCstWriteEvents {T} _.
Arguments snapshotEdges {T} _.
Arguments inSnapshotMode {T} _.
Arguments nThreads {T} _.

(** Sequencing of [&&] on tests that may fail. *)
Definition and_then (m : outcome bool) (k : outcome bool) : outcome bool :=
  b ← m; if (b : bool) then k else Ret false.

Section Graph.
Context {T : Type} (ops : ValueOps T).
Implicit Types (g : Graph T) (e : Event T).

Definition event g (i : nat) : outcome (Event T) := deref (g_events g !! i).

Definition set_event g (i : nat) e : Graph T :=
  mkGraph (g_edges g) (<[i := e]> (g_events g)) (eventsPerThread g) (lastSeqCstWriteEvents g)
    (snapshotEdges g) (inSnapshotMode g) (nThreads g).

Definition set_last_sc g (loc : Z) (i : nat) : Graph T :=
  mkGraph (g_edges g) (g_events g) (eventsPerThread g)
    (<[loc := i]> (lastSeqCstWriteEvents g)) (snapshotEdges g) (inSnapshotMode g) (nThreads g).

(** ** Edges *)

(** [std::ranges::find_if] over the outgoing edges of [from]. *)
Fixpoint exists_edge_loop g (type : EdgeType) (from to : nat) (ids : list nat) : outcome bool :=
  match ids with
  | [] => Ret false
  | eId :: ids =>
      edge ← deref (g_edges g !! eId);
      if bool_decide (edge_from edge = from) && bool_decide (edge_to edge = to) &&
         bool_decide (edge_type edge = type)
      then Ret true else exists_edge_loop g type from to ids
  end.

Definition ExistsEdge g (type : EdgeType) (from to : nat) : outcome bool :=
  ev ← event g from; exists_edge_loop g type from to (ev_edges ev).

Definition AddEdge g (type : EdgeType) (from to : nat) : outcome (Graph T) :=
  dup ← (if bool_decide (type = MO) then ExistsEdge g type from to else Ret false);
  if (dup : bool) then Ret g
  else
    ev ← event g from;
    let eId := length (g_edges g) in
    Ret (mkGraph (g_edges g ++ [mkEdge eId type from to])
           (<[from := set_edges (ev_edges ev ++ [eId]) ev]> (g_events g))
           (eventsPerThread g) (lastSeqCstWriteEvents g)
           (if inSnapshotMode g then {[eId]} ∪ snapshotEdges g else snapshotEdges g)
           (inSnapshotMode g) (nThreads g)).

Definition GetLastSeqCstWriteEventId g (location : Z) : option nat :=
  lastSeqCstWriteEvents g !! location.

(** The most recent event of one thread with the predicate. *)
Fixpoint most_recent g (predicate : Event T → outcome bool) (ids : list nat) :
    outcome (option nat) :=
  match ids with
  | [] => Ret None
  | i :: ids =>
      otherEvent ← event g i;
      b ← predicate otherEvent;
      if (b : bool) then Ret (Some i) else most_recent g predicate ids
  end.

Fixpoint iterate_threads (predicate : Graph T → Event T → outcome bool)
    (callback : Graph T → Event T → outcome (Graph T)) (ts : list nat) g : outcome (Graph T) :=
  match ts with
  | [] => Ret g
  | t :: ts =>
      threadEvents ← deref (eventsPerThread g !! t);
      found ← most_recent g (predicate g) (reverse threadEvents);
      g' ← match found with
           | None => Ret g
           | Some i => otherEvent ← event g i; callback g otherEvent
           end;
      iterate_threads predicate callback ts g'
  end.

Definition IterateThroughMostRecentEventsByPredicate
    (predicate : Graph T → Event T → outcome bool)
    (callback : Graph T → Event T → outcome (Graph T)) g : outcome (Graph T) :=
  iterate_threads predicate callback (seq 0 (nThreads g)) g.

Definition CreatePoEdgeToEvent g e : outcome (Graph T) :=
  threadEvents ← deref (eventsPerThread g !! ev_threadId e);
  lastId ← deref (last threadEvents);
  lastEvent ← event g lastId;
  g1 ← AddEdge g PO (ev_id lastEvent) (ev_id e);
  clock ← VectorClock.Increment (ev_clock lastEvent) (Z.of_nat (ev_threadId e));
  Ret (mkGraph (g_edges g1) (g_events g1 ++ [set_clock clock e])
         (<[ev_threadId e := threadEvents ++ [ev_id e]]> (eventsPerThread g1))
         (lastSeqCstWriteEvents g1) (snapshotEdges g1) (inSnapshotMode g1) (nThreads g1)).

(** The operations below take the ids of the events. *)

Definition CreateScEdgeToEvent g (i : nat) : outcome (Graph T) :=
  ev ← event g i;
  sc ← IsSeqCst ev;
  cassert sc;;
  match GetLastSeqCstWriteEventId g (ev_location ev) with
  | None => Ret g
  | Some w =>
      lastSeqCstWrite ← event g w;
      cassert (IsWrite lastSeqCstWrite || IsModifyRMW lastSeqCstWrite);;
      g1 ← AddEdge g SC (ev_id lastSeqCstWrite) (ev_id ev);
      ev1 ← event g1 i;
      lastSeqCstWrite1 ← event g1 w;
      clock ← VectorClock.UniteWith (ev_clock ev1) (ev_clock lastSeqCstWrite1);
      Ret (set_event g1 i (set_clock clock ev1))
  end.

(** The assertions shared by the rules about a read and the write it reads. *)
Definition rf_asserts g (write read : nat) : outcome (Event T * Event T) :=
  w ← event g write;
  r ← event g read;
  cassert (IsWriteOrRMW w && IsReadOrRMW r);;
  cassert (bool_decide (ev_location w = ev_location r));;
  rf ← GetReadFromEvent r;
  cassert (bool_decide (rf = Some write));;
  Ret (w, r).

Definition CreateSeqCstReadWriteCoherenceEdges g (write read : nat) : outcome (Graph T) :=
  '(w, r) ← rf_asserts g write read;
  match GetLastSeqCstWriteEventId g (ev_location r) with
  | None => Ret g
  | Some l =>
      lastSeqCstWrite ← event g l;
      cassert (IsWrite lastSeqCstWrite || IsModifyRMW lastSeqCstWrite);;
      cassert (bool_decide (ev_location lastSeqCstWrite = ev_location r));;
      if bool_decide (ev_id lastSeqCstWrite = ev_id w) then Ret g
      else AddEdge g MO (ev_id lastSeqCstWrite) (ev_id w)
  end.

Definition CreateWriteReadCoherenceEdges g (write read : nat) : outcome (Graph T) :=
  '(w, r) ← rf_asserts g write read;
  IterateThroughMostRecentEventsByPredicate
    (λ g otherEvent,
      r ← event g read;
      and_then (Ret (negb (bool_decide (ev_id r = ev_id otherEvent)) &&
                     negb (bool_decide (write = ev_id otherEvent)) &&
                     (IsWrite otherEvent || IsModifyRMW otherEvent) &&
                     bool_decide (ev_location otherEvent = ev_location r)))
               (HappensBefore otherEvent r))
    (λ g otherEvent, AddEdge g MO (ev_id otherEvent) write) g.

Definition CreateReadReadCoherenceEdges g (write read : nat) : outcome (Graph T) :=
  '(w, r) ← rf_asserts g write read;
  IterateThroughMostRecentEventsByPredicate
    (λ g otherEvent,
      r ← event g read;
      and_then (Ret (negb (bool_decide (ev_id r = ev_id otherEvent)) &&
                     negb (bool_decide (write = ev_id otherEvent)) &&
                     IsReadOrRMW otherEvent &&
                     bool_decide (ev_location otherEvent = ev_location r)))
        (and_then (HappensBefore otherEvent r)
           (rf ← GetReadFromEvent otherEvent;
            Ret (bool_decide (is_Some rf) && negb (bool_decide (rf = Some write))))))
    (λ g otherRead,
      rf ← GetReadFromEvent otherRead;
      otherWrite ← deref rf;
      ow ← event g otherWrite;
      AddEdge g MO (ev_id ow) write) g.

Definition CreateSeqCstConsistencyEdges g (i : nat) : outcome (Graph T) :=
  ev ← event g i;
  sc ← IsSeqCst ev;
  cassert (IsWriteOrRMW ev && sc);;
  match GetLastSeqCstWriteEventId g (ev_location ev) with
  | None => Ret g
  | Some l =>
      lastSeqCstWrite ← event g l;
      cassert (IsWrite lastSeqCstWrite || IsModifyRMW lastSeqCstWrite);;
      cassert (bool_decide (ev_location lastSeqCstWrite = ev_location ev));;
      AddEdge g MO (ev_id lastSeqCstWrite) (ev_id ev)
  end.

Definition CreateWriteWriteCoherenceEdges g (i : nat) : outcome (Graph T) :=
  ev ← event g i;
  cassert (IsWriteOrRMW ev);;
  IterateThroughMostRecentEventsByPredicate
    (λ g otherEvent,
      ev ← event g i;
      and_then (Ret (negb (bool_decide (ev_id ev = ev_id otherEvent)) &&
                     (IsWrite otherEvent || IsModifyRMW otherEvent) &&
                     bool_decide (ev_location otherEvent = ev_location ev)))
               (HappensBefore otherEvent ev))
    (λ g otherEvent, AddEdge g MO (ev_id otherEvent) i) g.

Definition CreateReadWriteCoherenceEdges g (i : nat) : outcome (Graph T) :=
  ev ← event g i;
  cassert (IsWriteOrRMW ev);;
  IterateThroughMostRecentEventsByPredicate
    (λ g otherEvent,
      ev ← event g i;
      and_then (Ret (negb (bool_decide (ev_id ev = ev_id otherEvent)) &&
                     IsReadOrRMW otherEvent &&
                     bool_decide (ev_location otherEvent = ev_location ev)))
               (HappensBefore otherEvent ev))
    (λ g otherEvent,
      rf ← GetReadFromEvent otherEvent;
      match rf with
      | None => AssertFail
      | Some writeEvent => we ← event g writeEvent; AddEdge g MO (ev_id we) i
      end) g.

(** The assertions of the two rules for read-modify-writes. *)
Definition rmw_asserts g (write rmw : nat) : outcome (Event T * Event T) :=
  w ← event g write;
  r ← event g rmw;
  cassert (IsWriteOrRMW w && IsModifyRMW r);;
  cassert (bool_decide (ev_location w = ev_location r));;
  rf ← GetReadFromEvent r;
  cassert (bool_decide (rf = Some write));;
  Ret (w, r).

Definition CreateRmwConsistencyEdges g (write rmw : nat) : outcome (Graph T) :=
  '(w, r) ← rmw_asserts g write rmw;
  AddEdge g MO (ev_id w) (ev_id r).

(** The loop over [write->edges]; the edges it adds leave [rmw]. *)
Fixpoint rmw_atomicity_loop (rmw : nat) (ids : list nat) g : outcome (Graph T) :=
  match ids with
  | [] => Ret g
  | eId :: ids =>
      edge ← deref (g_edges g !! eId);
      g' ← (if bool_decide (edge_type edge = MO) && negb (bool_decide (edge_to edge = rmw))
            then AddEdge g MO rmw (edge_to edge) else Ret g);
      rmw_atomicity_loop rmw ids g'
  end.

Definition CreateRmwAtomicityEdges g (write rmw : nat) : outcome (Graph T) :=
  '(w, r) ← rmw_asserts g write rmw;
  rmw_atomicity_loop (ev_id r) (ev_edges w) g.

(** ** The consistency check *)

Inductive Color := NOT_VISITED | IN_STACK | VISITED.

#[export] Instance Color_eq_dec : EqDecision Color.
Proof. solve_decision. Defined.

(** The loop over the outgoing edges of one event; [None] is [return false]. *)
Fixpoint visit_edges g (ids : list nat) (colors : list Color) (stack : list (nat * bool)) :
    outcome (option (list Color * list (nat * bool))) :=
  match ids with
  | [] => Ret (Some (colors, stack))
  | edgeId :: ids =>
      edge ← deref (g_edges g !! edgeId);
      if negb (bool_decide (edge_type edge = MO)) then visit_edges g ids colors stack
      else
        c ← deref (colors !! edge_to edge);
        match c with
        | NOT_VISITED =>
            visit_edges g ids (<[edge_to edge := IN_STACK]> colors)
              ((edge_to edge, false) :: stack)
        | IN_STACK => Ret None
        | VISITED => visit_edges g ids colors stack
        end
  end.

(** The [while (!stack.empty())] loop. *)
Fixpoint stack_loop (fuel : nat) g (colors : list Color) (stack : list (nat * bool)) :
    outcome (option (list Color)) :=
  match stack with
  | [] => Ret (Some colors)
  | (eventId, considered) :: stack =>
      match fuel with
      | 0 => OutOfFuel
      | S fuel =>
          if (considered : bool) then stack_loop fuel g (<[eventId := VISITED]> colors) stack
          else
            ev ← event g eventId;
            r ← visit_edges g (ev_edges ev) colors ((eventId, true) :: stack);
            match r with
            | None => Ret None
            | Some (colors, stack) => stack_loop fuel g colors stack
            end
      end
  end.

Fixpoint roots_loop (fuel : nat) g (roots : list nat) (colors : list Color) : outcome bool :=
  match roots with
  | [] => Ret true
  | e :: roots =>
      c ← deref (colors !! e);
      cassert (negb (bool_decide (c = IN_STACK)));;
      if bool_decide (c = VISITED) then roots_loop fuel g roots colors
      else
        r ← stack_loop fuel g colors [(e, false)];
        match r with
        | None => Ret false
        | Some colors => roots_loop fuel g roots colors
        end
  end.

Definition IsConsistent g : outcome bool :=
  roots_loop (2 * length (g_events g) + 3) g (ev_id <$> g_events g)
    (replicate (length (g_events g)) NOT_VISITED).

(** ** Snapshots *)

Definition StartSnapshot g : outcome (Graph T) :=
  cassert (negb (inSnapshotMode g));;
  Ret (mkGraph (g_edges g) (g_events g) (eventsPerThread g) (lastSeqCstWriteEvents g)
         (snapshotEdges g) true (nThreads g)).

Definition ApplySnapshot g : outcome (Graph T) :=
  cassert (inSnapshotMode g);;
  Ret (mkGraph (g_edges g) (g_events g) (eventsPerThread g) (lastSeqCstWriteEvents g)
         ∅ false (nThreads g)).

(** [while (!v.empty() && snapshotEdges.contains(id(v.back()))) v.pop_back()]. *)
Fixpoint drop_while {A} (p : A → bool) (l : list A) : list A :=
  match l with
  | [] => []
  | x :: l' => if p x then drop_while p l' else l
  end.

Definition pop_snapshot {A} (snap : gset nat) (f : A → nat) (l : list A) : list A :=
  reverse (drop_while (λ x, bool_decide (f x ∈ snap)) (reverse l)).

Definition DiscardSnapshot g : outcome (Graph T) :=
  cassert (inSnapshotMode g);;
  Ret (mkGraph (pop_snapshot (snapshotEdges g) edge_id (g_edges g))
         ((λ e, set_edges (pop_snapshot (snapshotEdges g) id (ev_edges e)) e) <$> g_events g)
         (eventsPerThread g) (lastSeqCstWriteEvents g) ∅ false (nThreads g)).

(** ** Reading *)

(** The edges a read that does not modify gets. *)
Definition read_rules g (write read : nat) : outcome (Graph T) :=
  r ← event g read;
  sc ← IsSeqCst r;
  g ← (if (sc : bool)
       then g ← CreateScEdgeToEvent g read; CreateSeqCstReadWriteCoherenceEdges g write read
       else Ret g);
  g ← CreateWriteReadCoherenceEdges g write read;
  CreateReadReadCoherenceEdges g write read.

(** The edges a successful read-modify-write gets. *)
Definition rmw_rules g (write read : nat) : outcome (Graph T) :=
  r ← event g read;
  cassert (IsModifyRMW r);;
  g ← CreateRmwConsistencyEdges g write read;
  g ← CreateRmwAtomicityEdges g write read;
  sc ← IsSeqCst r;
  g ← (if (sc : bool)
       then g ← CreateScEdgeToEvent g read;
            g ← CreateSeqCstReadWriteCoherenceEdges g write read;
            g ← CreateSeqCstConsistencyEdges g read;
            Ret (set_last_sc g (ev_location r) read)
       else Ret g);
  g ← CreateWriteReadCoherenceEdges g write read;
  g ← CreateReadReadCoherenceEdges g write read;
  g ← CreateReadWriteCoherenceEdges g read;
  CreateWriteWriteCoherenceEdges g read.

(** The test for the synchronized-with relation. *)
Definition synchronizes (w r : Event T) : outcome bool :=
  and_then (IsAtLeastAcquire r)
    (and_then (IsAtLeastRelease w)
       (both ← and_then (IsSeqCst r) (IsSeqCst w); Ret (negb both))).

(** [lastSeqCstWriteEvents[loc]]: reading through [operator[]] inserts 0. *)
Definition subscript_last_sc g (loc : Z) : nat * Graph T :=
  match lastSeqCstWriteEvents g !! loc with
  | Some i => (i, g)
  | None => (0, set_last_sc g loc 0)
  end.

Definition TryCreateRfEdge g (write read : nat) : outcome (bool * Graph T) :=
  w ← event g write;
  r ← event g read;
  cassert (IsWriteOrRMW w && IsReadOrRMW r);;
  cassert (bool_decide (ev_location w = ev_location r));;
  g ← StartSnapshot g;
  g ← AddEdge g RF (ev_id w) (ev_id r);
  w ← event g write;
  r ← event g read;
  r1 ← SetReadFromEvent ops r (Some (write, w));
  let g := set_event g read r1 in
  let '(oldLastSeqCstWriteEvent, g) := subscript_last_sc g (ev_location r1) in
  w ← event g write;
  sw ← synchronizes w r1;
  g ← (if (sw : bool)
       then clock ← VectorClock.UniteWith (ev_clock r1) (ev_clock w);
            Ret (set_event g read (set_clock clock r1))
       else Ret g);
  g ← (if IsRead r1 || IsReadRWM r1 then read_rules g write read else rmw_rules g write read);
  isConsistent ← IsConsistent g;
  if (isConsistent : bool) then g ← ApplySnapshot g; Ret (true, g)
  else
    g ← DiscardSnapshot g;
    r2 ← event g read;
    r3 ← SetReadFromEvent ops r2 None;
    let r4 := if (sw : bool) then set_clock (ev_clock r1) r3 else r3 in
    Ret (false, set_last_sc (set_event g read r4) (ev_location r4) oldLastSeqCstWriteEvent).

(** ** The public operations *)

(** The candidates before shuffling. *)
Definition ReadFromCandidates g e : list nat :=
  ev_id <$> filter (λ x, (IsWrite x || IsModifyRMW x) = true ∧ ev_location x = ev_location e ∧
                         ev_id x ≠ ev_id e) (g_events g).

(** [for (auto readFromEvent : shuffledEvents) if (TryCreateRfEdge(...)) break;] *)
Fixpoint try_candidates (read : nat) (cands : list nat) g : outcome (Graph T) :=
  match cands with
  | [] => Ret g
  | w :: cands =>
      '(created, g) ← TryCreateRfEdge g w read;
      if (created : bool) then Ret g else try_candidates read cands g
  end.

(** The part of the three reading operations after the event is allocated.
    [shuffle] is [std::ranges::shuffle] with the graph's generator. *)
Definition add_reading_event (shuffle : list nat → list nat) g e :
    outcome (Event T * T * Graph T) :=
  g ← CreatePoEdgeToEvent g e;
  ev ← event g (ev_id e);
  g ← try_candidates (ev_id e) (shuffle (ReadFromCandidates g ev)) g;
  ev ← event g (ev_id e);
  rf ← GetReadFromEvent ev;
  match rf with
  | None => AssertFail
  | Some w =>
      we ← event g w;
      cassert (IsWrite we || IsModifyRMW we);;
      v ← GetReadValue (event g) ev;
      Ret (ev, v, g)
  end.

Definition new_event g (location : Z) (threadId : nat) (order : MemoryOrder)
    (k : EventKind T) : Event T :=
  mkEvent (length (g_events g)) location threadId order (VectorClock.zero (nThreads g)) [] k.

Definition AddReadEvent shuffle g (location : Z) (threadId : nat) (order : MemoryOrder) :
    outcome (T * Graph T) :=
  '(_, v, g) ← add_reading_event shuffle g (new_event g location threadId order (ReadEvent None));
  Ret (v, g).

Definition AddWriteEvent g (location : Z) (threadId : nat) (order : MemoryOrder) (value : T) :
    outcome (Graph T) :=
  let e := new_event g location threadId order (WriteEvent value) in
  let i := ev_id e in
  g ← CreatePoEdgeToEvent g e;
  g ← (if bool_decide (order = SeqCst)
       then g ← CreateScEdgeToEvent g i;
            g ← CreateSeqCstConsistencyEdges g i;
            Ret (set_last_sc g location i)
       else Ret g);
  g ← CreateReadWriteCoherenceEdges g i;
  CreateWriteWriteCoherenceEdges g i.

(** [AddRMWEvent]: returns whether the exchange happened, the value read,
    and the final content of [*expected]. *)
Definition AddRMWEvent shuffle g (location : Z) (threadId : nat) (expected desired : T)
    (successOrder failureOrder : MemoryOrder) : outcome (bool * T * T * Graph T) :=
  let e := new_event g location threadId successOrder
             (CASRMWEvent None STATE_UNSET expected expected expected desired failureOrder) in
  '(ev, v, g) ← add_reading_event shuffle g e;
  let cell := match ev_kind ev with
              | CASRMWEvent _ _ _ _ cell _ _ => cell
              | _ => expected
              end in
  Ret (IsModifyRMW ev, v, cell, g).

Definition AddUnconditionalRMWEvent shuffle g (location : Z) (threadId : nat) (op : AtomicRmwOp)
    (operand zero : T) (order : MemoryOrder) : outcome (T * Graph T) :=
  let e := new_event g location threadId order
             (UnconditionalRMWEvent None STATE_UNSET op operand zero zero) in
  '(_, v, g) ← add_reading_event shuffle g e;
  Ret (v, g).

(** [Clean] and [InitThreads]. *)
Definition Clean g : Graph T :=
  mkGraph [] [] [] ∅ (snapshotEdges g) (inSnapshotMode g) (nThreads g).

Definition dummy_event (n i t : nat) : Event T :=
  mkEvent i (-1) t Relaxed (VectorClock.zero n) [] DummyEvent.

Definition InitThreads g (n : nat) : Graph T :=
  let size := length (g_events g) in
  mkGraph (g_edges g) (g_events g ++ ((λ t, dummy_event n (size + t) t) <$> seq 0 n))
    (imap (λ t l, l ++ [size + t]) (resize n [] (eventsPerThread g)))
    (lastSeqCstWriteEvents g) (snapshotEdges g) (inSnapshotMode g) n.

Definition Reset g (n : nat) : Graph T := InitThreads (Clean g) n.

Definition empty_graph : Graph T := mkGraph [] [] [] ∅ ∅ false 0.

End Graph.

(** ** [ExecutionGraph] (wmm.h) *)
Section ExecutionGraph.
Context {T : Type} (ops : ValueOps T).

Record ExecutionGraph := mkExec { nextLocationId : Z; graph : Graph T }.

Definition INIT_THREAD_ID : nat := 0.

Definition ResetExecution (x : ExecutionGraph) (n : nat) : ExecutionGraph :=
  mkExec 0 (Reset (graph x) n).

Definition RegisterLocation (x : ExecutionGraph) (value : T) : outcome (Z * ExecutionGraph) :=
  g ← AddWriteEvent (graph x) (nextLocationId x) INIT_THREAD_ID SeqCst value;
  Ret (nextLocationId x, mkExec (nextLocationId x + 1) g).

Definition Load shuffle (x : ExecutionGraph) (location : Z) (threadId : nat)
    (order : MemoryOrder) : outcome (T * ExecutionGraph) :=
  '(v, g) ← AddReadEvent ops shuffle (graph x) location threadId order;
  Ret (v, mkExec (nextLocationId x) g).

Definition Store (x : ExecutionGraph) (location : Z) (threadId : nat) (order : MemoryOrder)
    (value : T) : outcome ExecutionGraph :=
  g ← AddWriteEvent (graph x) location threadId order value;
  Ret (mkExec (nextLocationId x) g).

Definition ReadModifyWrite shuffle (x : ExecutionGraph) (location : Z) (threadId : nat)
    (expected desired : T) (success failure : MemoryOrder) :
    outcome (bool * T * T * ExecutionGraph) :=
  '(b, v, cell, g) ← AddRMWEvent ops shuffle (graph x) location threadId expected desired
                       success failure;
  Ret (b, v, cell, mkExec (nextLocationId x) g).

Definition UnconditionalReadModifyWrite shuffle (x : ExecutionGraph) (location : Z)
    (threadId : nat) (op : AtomicRmwOp) (operand zero : T) (order : MemoryOrder) :
    outcome (T * ExecutionGraph) :=
  '(v, g) ← AddUnconditionalRMWEvent ops shuffle (graph x) location threadId op operand zero order;
  Ret (v, mkExec (nextLocationId x) g).

End ExecutionGraph.
Arguments ExecutionGraph T : clear implicits.
