(* ===== verification/GraphConsistent.v ===== *)
(** * The cycle check of the execution graph

    [Graph::IsConsistent] (runtime/include/wmm/graph.h) is an iterative
    depth-first search over modification-order edges. It always terminates,
    its assertion never fails, and it accepts only acyclic graphs. *)
From stdpp Require Import base list relations gmap.
From Stdlib Require Import ZArith.
From S2P Require Import Prelude VectorClock WmmEvent Graph.

Section Consistent.
Context {T : Type}.
Implicit Types (g : Graph T).

(** The outgoing edges of event [i], as ids, oldest first. *)
Definition outgoing (es : list Edge) (i : nat) : list nat :=
  edge_id <$> filter (λ ed, edge_from ed = i) es.

(** Ids are indices, edges join events, and every event lists exactly its
    outgoing edges. [n] bounds the targets. *)
Record struct_wf (n : nat) g : Prop := {
  sw_id i e : g_events g !! i = Some e → ev_id e = i;
  sw_edge k ed : g_edges g !! k = Some ed →
    edge_id ed = k ∧ edge_from ed < length (g_events g) ∧ edge_to ed < n;
  sw_out i e : g_events g !! i = Some e → ev_edges e = outgoing (g_edges g) i;
}.

(** Modification order: the edges of type [MO]. *)
Definition mo g (x y : nat) : Prop :=
  ∃ ed, ed ∈ g_edges g ∧ edge_type ed = MO ∧ edge_from ed = x ∧ edge_to ed = y.

Definition acyclic {A} (R : relation A) : Prop := ∀ x, ¬ tc R x x.

(** A list in which everything comes after its successors. *)
Definition successors_first {A} (R : relation A) (F : list A) : Prop :=
  ∀ F1 x F2, F = F1 ++ x :: F2 → ∀ y, R x y → y ∈ F1.

Lemma successors_first_nil {A} (R : relation A) : successors_first R [].
Proof. intros [] x F2; done. Qed.

Lemma successors_first_snoc {A} (R : relation A) F x :
  successors_first R F → (∀ y, R x y → y ∈ F) → successors_first R (F ++ [x]).
Proof.
  intros HF Hx F1 z F2 Heq. induction F2 as [|w F2 _] using rev_ind.
  - apply app_inj_tail in Heq as [-> ->]. done.
  - rewrite app_comm_cons, app_assoc in Heq. apply app_inj_tail in Heq as [-> _].
    by eapply HF.
Qed.

Lemma successors_first_acyclic {A} (R : relation A) F :
  NoDup F → successors_first R F → (∀ x y, R x y → x ∈ F) → acyclic R.
Proof.
  intros Hnd HF Hin.
  assert (Htc : ∀ x y, tc R x y → ∀ F1 F2, F = F1 ++ x :: F2 → y ∈ F1).
  { induction 1 as [x y Hxy|x z y Hxz Hzy IH]; intros F1 F2 Heq; [by eapply HF|].
    pose proof (HF F1 x F2 Heq z Hxz) as Hz. apply list_elem_of_split in Hz as (G1&G2&->).
    assert (y ∈ G1); [|set_solver]. apply (IH G1 (G2 ++ x :: F2)).
    rewrite Heq, <-app_assoc. done. }
  intros x Hx. assert (x ∈ F) as HxF.
  { inversion Hx; subst; eauto. }
  apply list_elem_of_split in HxF as (F1&F2&->). pose proof (Htc x x Hx F1 F2 eq_refl).
  apply NoDup_app in Hnd as (_&Hd&_). by apply (Hd x); [|left].
Qed.

Context g (Hwf : struct_wf (length (g_events g)) g).
Abbreviation n := (length (g_events g)).

Lemma outgoing_mo x y e :
  g_events g !! x = Some e →
  mo g x y ↔ ∃ k ed, k ∈ ev_edges e ∧ g_edges g !! k = Some ed ∧ edge_type ed = MO ∧ edge_to ed = y.
Proof.
  intros He. rewrite (sw_out _ _ Hwf x e He). unfold outgoing. split.
  - intros (ed&Hin&Ht&Hf&Hto). apply list_elem_of_lookup in Hin as [k Hk].
    destruct (sw_edge _ _ Hwf k ed Hk) as [Hid _]. exists k, ed. split_and!; try done.
    apply list_elem_of_fmap. exists ed. split; [done|]. apply list_elem_of_filter. split; [done|].
    by eapply list_elem_of_lookup_2.
  - intros (k&ed&Hin&Hk&Ht&Hto). apply list_elem_of_fmap in Hin as (ed'&->&Hin).
    apply list_elem_of_filter in Hin as [Hf Hin]. exists ed.
    apply list_elem_of_lookup in Hin as [k' Hk']. destruct (sw_edge _ _ Hwf k' ed' Hk') as [Hid _].
    rewrite Hid in Hk. simplify_eq. split_and!; try done. by eapply list_elem_of_lookup_2.
Qed.

(** Marked events are on the stack. *)
Definition on_stack (colors : list Color) (stack : list (nat * bool)) : Prop :=
  ∀ v, colors !! v = Some IN_STACK → ∃ b, (v, b) ∈ stack.

(** Every entered event has its successors visited or above it. *)
Fixpoint stack_ok (colors : list Color) (above : list nat) (stack : list (nat * bool)) : Prop :=
  match stack with
  | [] => True
  | (v, considered) :: stack =>
      v < n ∧
      (considered = true → ∀ y, mo g v y → colors !! y = Some VISITED ∨ y ∈ above) ∧
      stack_ok colors (v :: above) stack
  end.

(** [F] lists the visited events, each after its successors. *)
Record dfs_inv (colors : list Color) (stack : list (nat * bool)) (F : list nat) : Prop := {
  di_length : length colors = n;
  di_nodup : NoDup F;
  di_visited v : v ∈ F ↔ colors !! v = Some VISITED;
  di_order : successors_first (mo g) F;
  di_marked : on_stack colors stack;
  di_stack : stack_ok colors [] stack;
}.

Lemma stack_ok_weaken colors colors' above above' stack :
  (∀ y, colors !! y = Some VISITED → colors' !! y = Some VISITED) →
  (∀ y, y ∈ above → y ∈ above' ∨ colors' !! y = Some VISITED) →
  stack_ok colors above stack → stack_ok colors' above' stack.
Proof.
  intros Hc. revert above above'. induction stack as [|[v b] stack IH]; intros above above' Ha;
    simpl; [done|]. intros (Hv&Hs&Hrest). split_and!; [done| |].
  - intros Hb y Hy. destruct (Hs Hb y Hy) as [?|Hin]; [auto|]. apply Ha in Hin. tauto.
  - eapply IH; [|done]. intros y Hy. apply elem_of_cons in Hy as [->|Hy]; [by left; left|].
    destruct (Ha y Hy); [by left; right|by right].
Qed.

(** Leaving an event. *)
Lemma dfs_inv_leave colors stack F v :
  dfs_inv colors ((v, true) :: stack) F →
  ∃ F', dfs_inv (<[v := VISITED]> colors) stack F'.
Proof.
  intros [Hlen Hnd Hvis Hord Hmark Hst]. simpl in Hst. destruct Hst as (Hv&Hsucc&Hst).
  assert (Hkeep : ∀ y, colors !! y = Some VISITED → <[v := VISITED]> colors !! y = Some VISITED).
  { intros y Hy. destruct (decide (v = y)) as [<-|].
    - apply list_lookup_insert_eq. lia.
    - by rewrite list_lookup_insert_ne. }
  assert (HF : ∀ y, mo g v y → y ∈ F).
  { intros y Hy. apply Hvis. destruct (Hsucc eq_refl y Hy) as [?|Hin]; [done|].
    by apply not_elem_of_nil in Hin. }
  assert (Hst' : stack_ok (<[v := VISITED]> colors) [] stack).
  { eapply stack_ok_weaken; [exact Hkeep| |exact Hst]. intros y Hy.
    apply list_elem_of_singleton in Hy as ->. right. apply list_lookup_insert_eq. lia. }
  assert (Hmark' : on_stack (<[v := VISITED]> colors) stack).
  { intros w Hw. destruct (decide (v = w)) as [<-|Hne].
    - rewrite list_lookup_insert_eq in Hw by lia. done.
    - rewrite list_lookup_insert_ne in Hw by done. destruct (Hmark w Hw) as [b Hb].
      exists b. apply elem_of_cons in Hb as [?|?]; [congruence|done]. }
  destruct (decide (v ∈ F)) as [Hin|Hin].
  - exists F. split; try done; [by rewrite length_insert|]. intros w.
    destruct (decide (v = w)) as [<-|Hne]; [|by rewrite list_lookup_insert_ne].
    rewrite list_lookup_insert_eq by lia. done.
  - exists (F ++ [v]). split; try done; [by rewrite length_insert| | |].
    + apply NoDup_app. split_and!; [done| |apply NoDup_singleton]. set_solver.
    + intros w. rewrite elem_of_app, list_elem_of_singleton, Hvis.
      destruct (decide (v = w)) as [<-|Hne].
      * rewrite list_lookup_insert_eq by lia. tauto.
      * rewrite list_lookup_insert_ne by done. naive_solver.
    + by apply successors_first_snoc.
Qed.

Fixpoint unvisited (colors : list Color) : nat :=
  match colors with
  | [] => 0
  | NOT_VISITED :: colors => S (unvisited colors)
  | _ :: colors => unvisited colors
  end.

Lemma unvisited_le colors : unvisited colors ≤ length colors.
Proof. induction colors as [|[] colors IH]; simpl; lia. Qed.

Lemma unvisited_insert colors v c :
  colors !! v = Some NOT_VISITED → c ≠ NOT_VISITED →
  S (unvisited (<[v := c]> colors)) = unvisited colors.
Proof.
  intros Hv Hc. revert v Hv. induction colors as [|x colors IH]; intros [|v] Hv; simplify_eq/=.
  - by destruct c.
  - specialize (IH v Hv). destruct x; simpl; lia.
Qed.

Lemma unvisited_insert_le colors v :
  unvisited (<[v := VISITED]> colors) ≤ unvisited colors.
Proof.
  revert v. induction colors as [|x colors IH]; intros [|v]; simpl; [lia..| |].
  - destruct x; lia.
  - specialize (IH v). destruct x; simpl; lia.
Qed.

(** Entering: the loop over the edges pushes the unvisited successors. *)
Lemma visit_edges_ok v stack F ids colors pushed :
  (∀ k, k ∈ ids → ∃ ed, g_edges g !! k = Some ed ∧ edge_to ed < n) →
  dfs_inv colors (pushed ++ (v, false) :: stack) F →
  (∀ p, p ∈ pushed → p.2 = false) →
  visit_edges g ids colors (pushed ++ (v, true) :: stack) = Ret None ∨
  ∃ colors' pushed',
    visit_edges g ids colors (pushed ++ (v, true) :: stack) =
      Ret (Some (colors', pushed' ++ (v, true) :: stack)) ∧
    dfs_inv colors' (pushed' ++ (v, false) :: stack) F ∧
    (∀ p, p ∈ pushed' → p.2 = false) ∧
    (∀ y, y ∈ pushed.*1 ∨ colors !! y = Some VISITED →
          y ∈ pushed'.*1 ∨ colors' !! y = Some VISITED) ∧
    (∀ k ed, k ∈ ids → g_edges g !! k = Some ed → edge_type ed = MO →
       edge_to ed ∈ pushed'.*1 ∨ colors' !! edge_to ed = Some VISITED) ∧
    unvisited colors' + length pushed' = unvisited colors + length pushed.
Proof.
  revert colors pushed. induction ids as [|k ids IH]; intros colors pushed Hids Hinv Hp; simpl.
  { right. exists colors, pushed. split_and!; try done.
    intros k ed Hk. by apply not_elem_of_nil in Hk. }
  destruct (Hids k) as (ed&Hed&Hto); [by left|]. rewrite Hed. simpl.
  assert (Hids' : ∀ k, k ∈ ids → ∃ ed, g_edges g !! k = Some ed ∧ edge_to ed < n).
  { intros j ?. apply Hids. by right. }
  case_bool_decide as Hmo; simpl.
  2:{ destruct (IH colors pushed Hids' Hinv Hp) as [?|(c'&p'&?&?&?&?&Hk&?)]; [by left|right].
      exists c', p'. split_and!; try done. intros j ed' Hj Hjed Hjm.
      apply elem_of_cons in Hj as [->|Hj]; [simplify_eq; congruence|eauto]. }
  destruct (colors !! edge_to ed) as [c|] eqn:Hc.
  2:{ apply lookup_ge_None in Hc. rewrite (di_length _ _ _ Hinv) in Hc. lia. }
  simpl. destruct c; [|by left|].
  - (* pushed *)
    destruct Hinv as [Hlen Hnd Hvis Hord Hmark Hst].
    assert (Hkeep : ∀ y, colors !! y = Some VISITED ↔
                         <[edge_to ed := IN_STACK]> colors !! y = Some VISITED).
    { intros y. destruct (decide (edge_to ed = y)) as [<-|].
      - rewrite list_lookup_insert_eq by lia. rewrite Hc. done.
      - by rewrite list_lookup_insert_ne. }
    destruct (IH (<[edge_to ed := IN_STACK]> colors) ((edge_to ed, false) :: pushed))
      as [?|(c'&p'&Heq&Hinv'&Hp'&Hmono&Hk&Hcnt)]; [done| | |by left|right].
    { split; try done.
      - by rewrite length_insert.
      - intros y. by rewrite Hvis, Hkeep.
      - intros w Hw. destruct (decide (edge_to ed = w)) as [<-|Hne].
        + exists false. by left.
        + rewrite list_lookup_insert_ne in Hw by done. destruct (Hmark w Hw) as [b Hb].
          exists b. by right.
      - simpl. split_and!; [done|done|]. eapply stack_ok_weaken; [|by intros ? ?%not_elem_of_nil|exact Hst].
        intros y. apply Hkeep. }
    { intros p [->|Hin]%elem_of_cons; [done|auto]. }
    exists c', p'. split_and!; try done.
    + intros y Hy. apply Hmono. rewrite <-Hkeep. destruct Hy; [left|by right].
      simpl. by right.
    + intros j ed' Hj Hjed Hjm. apply elem_of_cons in Hj as [->|Hj]; [|by eapply Hk].
      simplify_eq. apply Hmono. left. simpl. by left.
    + rewrite Hcnt. simpl. rewrite <-(unvisited_insert colors (edge_to ed) IN_STACK) by done. lia.
  - destruct (IH colors pushed Hids' Hinv Hp) as [?|(c'&p'&?&?&?&Hmono&Hk&?)]; [by left|right].
    exists c', p'. split_and!; try done. intros j ed' Hj Hjed Hjm.
    apply elem_of_cons in Hj as [->|Hj]; [|eauto]. simplify_eq. apply Hmono. by right.
Qed.

Lemma stack_ok_enter colors above pushed v stack :
  (∀ y, mo g v y → y ∈ pushed.*1 ∨ y ∈ above ∨ colors !! y = Some VISITED) →
  stack_ok colors above (pushed ++ (v, false) :: stack) →
  stack_ok colors above (pushed ++ (v, true) :: stack).
Proof.
  revert above. induction pushed as [|[w b] pushed IH]; intros above Hy; simpl.
  - intros (?&_&?). split_and!; try done. intros _ y Hmo. apply Hy in Hmo.
    destruct Hmo as [Hn|[?|?]]; [by apply not_elem_of_nil in Hn|auto..].
  - intros (?&?&?). split_and!; try done. apply IH; [|done]. intros y Hmo.
    apply Hy in Hmo. simpl in Hmo. set_solver.
Qed.

Definition stack_measure (colors : list Color) (stack : list (nat * bool)) : nat :=
  2 * unvisited colors + sum_list_with (λ p : nat * bool, if p.2 then 1 else 2) stack.

Lemma sum_pushed pushed rest :
  (∀ p : nat * bool, p ∈ pushed → p.2 = false) →
  sum_list_with (λ p : nat * bool, if p.2 then 1 else 2) (pushed ++ rest) =
  2 * length pushed + sum_list_with (λ p : nat * bool, if p.2 then 1 else 2) rest.
Proof.
  induction pushed as [|[w b] pushed IH]; intros Hp; simpl; [done|].
  rewrite IH by (intros p ?; apply Hp; by right). assert (b = false) as -> by (apply (Hp (w, b)); by left). lia.
Qed.

Lemma stack_loop_ok fuel colors stack F :
  dfs_inv colors stack F → stack_measure colors stack ≤ fuel →
  stack_loop fuel g colors stack = Ret None ∨
  ∃ colors' F', stack_loop fuel g colors stack = Ret (Some colors') ∧ dfs_inv colors' [] F' ∧
    (∀ y, colors !! y = Some VISITED ∨ y ∈ stack.*1 → colors' !! y = Some VISITED).
Proof.
  revert colors stack F. induction fuel as [|fuel IH]; intros colors stack F Hinv Hm.
  { destruct stack as [|[v b] stack]; [|unfold stack_measure in Hm; simpl in Hm; destruct b; lia].
    right. exists colors, F. split_and!; try done. intros y [?|Hn]; [done|].
    by apply not_elem_of_nil in Hn. }
  destruct stack as [|[v b] stack]; simpl.
  { right. exists colors, F. split_and!; try done. intros y [?|Hn]; [done|].
    by apply not_elem_of_nil in Hn. }
  unfold stack_measure in Hm. simpl in Hm. destruct b.
  - destruct (dfs_inv_leave colors stack F v Hinv) as [F' Hinv'].
    destruct (IH _ _ _ Hinv') as [?|(c'&F''&?&?&Hvis)]; [|by left|right].
    { unfold stack_measure. pose proof (unvisited_insert_le colors v). lia. }
    exists c', F''. split_and!; try done. intros y Hy. apply Hvis.
    destruct (decide (v = y)) as [<-|Hne].
    + left. apply list_lookup_insert_eq. rewrite (di_length _ _ _ Hinv).
      by destruct (di_stack _ _ _ Hinv).
    + rewrite list_lookup_insert_ne by done. simpl in Hy. set_solver.
  - destruct (di_stack _ _ _ Hinv) as (Hv&_). apply lookup_lt_is_Some in Hv as [e He].
    unfold event. rewrite He. simpl.
    destruct (visit_edges_ok v stack F (ev_edges e) colors []) as
      [Hn|(c'&p'&Heq&Hinv'&Hp'&Hmono&Hk&Hcnt)]; [|done|by intros ? ?%not_elem_of_nil| |].
    + intros k Hk. rewrite (sw_out _ _ Hwf v e He) in Hk. unfold outgoing in Hk.
      apply list_elem_of_fmap in Hk as (ed&->&Hin). apply list_elem_of_filter in Hin as [_ Hin].
      apply list_elem_of_lookup in Hin as [k Hk]. destruct (sw_edge _ _ Hwf k ed Hk) as (->&_&?).
      by exists ed.
    + left. simpl in Hn. by rewrite Hn.
    + simpl in Heq. rewrite Heq. simpl.
      destruct (IH c' (p' ++ (v, true) :: stack) F) as [?|(c''&F''&?&?&Hvis)]; [| |by left|right].
      * destruct Hinv' as [Hlen Hnd Hvis Hord Hmark Hst]. split; try done.
        -- intros w Hw. destruct (Hmark w Hw) as [b Hb].
           apply elem_of_app in Hb as [Hb|Hb]; [exists b; by apply elem_of_app; left|].
           apply elem_of_cons in Hb as [[= -> ->]|Hb].
           ++ exists true. apply elem_of_app. right. by left.
           ++ exists b. apply elem_of_app. right. by right.
        -- apply stack_ok_enter; [|done]. intros y Hmo.
           apply (outgoing_mo v y e He) in Hmo as (k&ed&Hk'&Hed&Ht&<-).
           destruct (Hk k ed Hk' Hed Ht); tauto.
      * unfold stack_measure. rewrite sum_pushed by done. simpl in *. lia.
      * exists c'', F''. split_and!; try done. intros y Hy. apply Hvis.
        rewrite fmap_app, elem_of_app. simpl. simpl in Hy. destruct Hy as [Hy|Hy]; [|by right; right].
        destruct (Hmono y (or_intror Hy)); auto.
Qed.

Lemma roots_loop_ok fuel roots colors F :
  2 * n + 2 ≤ fuel → (∀ v, v ∈ roots → v < n) → dfs_inv colors [] F →
  (∀ v, v < n → v ∈ roots ∨ colors !! v = Some VISITED) →
  ∃ b, roots_loop fuel g roots colors = Ret b ∧ (b = true → acyclic (mo g)).
Proof.
  intros Hfuel. revert colors F. induction roots as [|v roots IH]; intros colors F Hr Hinv Hall; simpl.
  { exists true. split; [done|]. intros _. destruct Hinv as [Hlen Hnd Hvis Hord _ _].
    eapply successors_first_acyclic; [done..|]. intros x y (ed&Hin&_&<-&_).
    apply list_elem_of_lookup in Hin as [k Hk]. destruct (sw_edge _ _ Hwf k ed Hk) as (_&Hx&_).
    apply Hvis. destruct (Hall _ Hx) as [Hn|?]; [by apply not_elem_of_nil in Hn|done]. }
  assert (Hv : v < n) by (apply Hr; by left).
  assert (Hr' : ∀ w, w ∈ roots → w < n) by (intros w ?; apply Hr; by right).
  destruct (lookup_lt_is_Some_2 colors v) as [c Hc]; [by rewrite (di_length _ _ _ Hinv)|].
  rewrite Hc. simpl. destruct c; simpl.
  - destruct (stack_loop_ok fuel colors [(v, false)] F) as [->|(c'&F'&->&Hinv'&Hvis)].
    + destruct Hinv as [Hlen Hnd Hvis Hord Hmark Hst]. split; try done.
      intros w Hw. destruct (Hmark w Hw) as [b Hb]. by apply not_elem_of_nil in Hb.
    + unfold stack_measure. simpl. pose proof (unvisited_le colors).
      rewrite (di_length _ _ _ Hinv) in *. lia.
    + simpl. by exists false.
    + simpl. apply (IH c' F'); try done. intros w Hw.
      destruct (Hall w Hw) as [Hin|?]; [|by right; apply Hvis; left].
      apply elem_of_cons in Hin as [->|?]; [|by left]. right. apply Hvis. right. simpl. by left.
  - (* the assertion *)
    destruct (di_marked _ _ _ Hinv v Hc) as [b Hb]. by apply not_elem_of_nil in Hb.
  - apply (IH colors F); try done. intros w Hw. destruct (Hall w Hw) as [Hin|?]; [|by right].
    apply elem_of_cons in Hin as [->|?]; [by right|by left].
Qed.

Lemma event_ids : ev_id <$> g_events g = seq 0 n.
Proof.
  apply list_eq. intros i. rewrite list_lookup_fmap. destruct (g_events g !! i) as [e|] eqn:He; simpl.
  - rewrite (sw_id _ _ Hwf i e He). symmetry. apply lookup_seq. split; [lia|].
    by eapply lookup_lt_Some.
  - symmetry. apply lookup_seq_ge. by apply lookup_ge_None.
Qed.

(** [IsConsistent] returns, and accepts only acyclic modification orders. *)
Lemma IsConsistent_ok : ∃ b, IsConsistent g = Ret b ∧ (b = true → acyclic (mo g)).
Proof.
  unfold IsConsistent. rewrite event_ids. apply (roots_loop_ok _ _ _ []).
  - lia.
  - intros v Hv. apply elem_of_seq in Hv. lia.
  - split; [apply length_replicate|constructor| |apply successors_first_nil| |done].
    + intros v. split; [by intros ?%not_elem_of_nil|]. intros Hv.
      apply lookup_replicate in Hv as [? _]. done.
    + intros v Hv. apply lookup_replicate in Hv as [? _]. done.
  - intros v Hv. left. apply elem_of_seq. lia.
Qed.

End Consistent.
