(* ===== verification/GraphSteps.v ===== *)
(** * The rules of the execution graph only add edges

    Every [Create...Edges] rule of runtime/include/wmm/graph.h succeeds on a
    well-formed graph (no assertion fails, no access is out of range) and
    only appends edges; the rules for sequentially consistent accesses also
    advance the clock of the event they are applied to. *)
From stdpp Require Import base list relations gmap.
From Stdlib Require Import ZArith.
From S2P Require Import Prelude VectorClock WmmEvent Graph GraphConsistent.

#[local] Arguments and_then : simpl never.

Section Steps.
Context {T : Type}.
Implicit Types (g : Graph T) (e : Event T).

(** Clocks have one entry per thread, bounded by the number of events. *)
Definition clock_ok (n bound : nat) (c : VectorClock.VectorClock) : Prop :=
  length (VectorClock.times c) = n ∧ Forall (λ x, x ≤ Z.of_nat bound)%Z (VectorClock.times c).

(** The part of well-formedness that every rule re-establishes. *)
Record ok g : Prop := {
  ok_struct : struct_wf (length (g_events g)) g;
  ok_clock i e : g_events g !! i = Some e →
    clock_ok (nThreads g) (length (g_events g)) (ev_clock e);
}.

(** [g'] is [g] with edges of [P] appended, and possibly another clock at
    the event [cur]. *)
Record grow (P : Edge → Prop) (cur : nat) g g' : Prop := {
  grow_length : length (g_events g') = length (g_events g);
  grow_event i e : g_events g !! i = Some e →
    ∃ l c, g_events g' !! i = Some (set_edges l (set_clock c e)) ∧ (i ≠ cur → c = ev_clock e);
  grow_threads : eventsPerThread g' = eventsPerThread g;
  grow_last : lastSeqCstWriteEvents g' = lastSeqCstWriteEvents g;
  grow_nThreads : nThreads g' = nThreads g;
  grow_mode : inSnapshotMode g' = inSnapshotMode g;
  grow_edges : ∃ new, g_edges g' = g_edges g ++ new ∧ Forall P new ∧
    snapshotEdges g' = (if inSnapshotMode g
                        then snapshotEdges g ∪ list_to_set (edge_id <$> new)
                        else snapshotEdges g);
}.

Lemma set_edges_clock_self e : set_edges (ev_edges e) (set_clock (ev_clock e) e) = e.
Proof. by destruct e. Qed.

#[export] Instance grow_reflexive P cur : Reflexive (grow P cur).
Proof.
  intros g. split; try done.
  - intros i e He. exists (ev_edges e), (ev_clock e). by rewrite set_edges_clock_self.
  - exists []. rewrite app_nil_r. split_and!; [done|constructor|].
    destruct (inSnapshotMode g); [|done]. simpl. set_solver.
Qed.

#[export] Instance grow_transitive P cur : Transitive (grow P cur).
Proof.
  intros g1 g2 g3 H12 H23. split.
  - by rewrite (grow_length _ _ _ _ H23), (grow_length _ _ _ _ H12).
  - intros i e He. destruct (grow_event _ _ _ _ H12 i e He) as (l&c&He2&Hc).
    destruct (grow_event _ _ _ _ H23 i _ He2) as (l'&c'&He3&Hc').
    exists l', c'. split; [by destruct e|]. intros Hi. rewrite Hc' by done. by apply Hc.
  - by rewrite (grow_threads _ _ _ _ H23), (grow_threads _ _ _ _ H12).
  - by rewrite (grow_last _ _ _ _ H23), (grow_last _ _ _ _ H12).
  - by rewrite (grow_nThreads _ _ _ _ H23), (grow_nThreads _ _ _ _ H12).
  - by rewrite (grow_mode _ _ _ _ H23), (grow_mode _ _ _ _ H12).
  - destruct (grow_edges _ _ _ _ H12) as (n1&He1&HP1&Hs1).
    destruct (grow_edges _ _ _ _ H23) as (n2&He2&HP2&Hs2).
    exists (n1 ++ n2). rewrite He2, He1, app_assoc. split_and!; [done|by apply Forall_app|].
    rewrite Hs2, Hs1, (grow_mode _ _ _ _ H12). destruct (inSnapshotMode g1); [|done].
    rewrite fmap_app, list_to_set_app_L. set_solver.
Qed.

Lemma grow_event_inv P cur g g' i e' :
  grow P cur g g' → g_events g' !! i = Some e' →
  ∃ e l c, g_events g !! i = Some e ∧ e' = set_edges l (set_clock c e) ∧
    (i ≠ cur → c = ev_clock e).
Proof.
  intros Hg He'. apply lookup_lt_Some in He' as Hi. rewrite (grow_length _ _ _ _ Hg) in Hi.
  apply lookup_lt_is_Some in Hi as [e He]. destruct (grow_event _ _ _ _ Hg i e He) as (l&c&He2&Hc).
  rewrite He' in He2. injection He2 as ->. eauto 7.
Qed.

Lemma grow_weaken (P Q : Edge → Prop) cur g g' :
  (∀ ed, P ed → Q ed) → grow P cur g g' → grow Q cur g g'.
Proof.
  intros Hpq [? ? ? ? ? ? (new&?&HP&?)]. split; try done. exists new. split_and!; try done.
  by eapply Forall_impl.
Qed.

(** An operation that succeeds and grows the graph. *)
Definition adds (P : Edge → Prop) (cur : nat) g (m : outcome (Graph T)) : Prop :=
  ∃ g', m = Ret g' ∧ grow P cur g g' ∧ ok g'.

Lemma adds_ret P cur g : ok g → adds P cur g (Ret g).
Proof. intros Hok. by exists g. Qed.

Lemma adds_bind P cur g m f :
  adds P cur g m → (∀ g', grow P cur g g' → ok g' → adds P cur g' (f g')) →
  adds P cur g (m ≫= f).
Proof.
  intros (g1&->&Hg1&Hok1) Hf. destruct (Hf g1 Hg1 Hok1) as (g2&Heq&Hg2&Hok2).
  exists g2. split_and!; [done|by etrans|done].
Qed.

(** ** [AddEdge] *)

Lemma outgoing_snoc es ed i :
  outgoing (es ++ [ed]) i = outgoing es i ++ (if decide (edge_from ed = i) then [edge_id ed] else []).
Proof.
  unfold outgoing. rewrite filter_app, fmap_app. f_equal.
  rewrite filter_cons, filter_nil. by destruct (decide _).
Qed.

Lemma exists_edge_loop_ok g type from to ids :
  (∀ k, k ∈ ids → k < length (g_edges g)) →
  ∃ b, exists_edge_loop g type from to ids = Ret b ∧
    (b = true → ∃ ed, ed ∈ g_edges g ∧ edge_type ed = type ∧ edge_from ed = from ∧ edge_to ed = to).
Proof.
  induction ids as [|k ids IH]; intros Hk; simpl; [by exists false|].
  destruct (lookup_lt_is_Some_2 (g_edges g) k) as [ed Hed]; [apply Hk; by left|].
  rewrite Hed. simpl. destruct (_ && _) eqn:Hb.
  - exists true. split; [done|]. intros _. exists ed.
    rewrite !andb_true_iff, !bool_decide_eq_true in Hb. destruct Hb as [[? ?] ?].
    split_and!; try done. by eapply list_elem_of_lookup_2.
  - apply IH. intros j ?. apply Hk. by right.
Qed.

Lemma struct_wf_out_range n g i e k :
  struct_wf n g → g_events g !! i = Some e → k ∈ ev_edges e → k < length (g_edges g).
Proof.
  intros Hw He Hk. rewrite (sw_out _ _ Hw i e He) in Hk. unfold outgoing in Hk.
  apply list_elem_of_fmap in Hk as (ed&->&Hin). apply list_elem_of_filter in Hin as [_ Hin].
  apply list_elem_of_lookup in Hin as [j Hj]. destruct (sw_edge _ _ Hw j ed Hj) as (->&_).
  by eapply lookup_lt_Some.
Qed.

Lemma AddEdge_struct n g type from to :
  struct_wf n g → from < length (g_events g) → to < n →
  ∃ g', AddEdge g type from to = Ret g' ∧ struct_wf n g' ∧
    (g' = g ∧ type = MO ∧ mo g from to ∨
     ∃ ev, g_events g !! from = Some ev ∧
       g' = mkGraph (g_edges g ++ [mkEdge (length (g_edges g)) type from to])
              (<[from := set_edges (ev_edges ev ++ [length (g_edges g)]) ev]> (g_events g))
              (eventsPerThread g) (lastSeqCstWriteEvents g)
              (if inSnapshotMode g then {[length (g_edges g)]} ∪ snapshotEdges g
               else snapshotEdges g) (inSnapshotMode g) (nThreads g)).
Proof.
  intros Hw Hf Ht. apply lookup_lt_is_Some in Hf as [ev Hev]. unfold AddEdge, ExistsEdge, event.
  rewrite Hev. simpl.
  destruct (exists_edge_loop_ok g type from to (ev_edges ev)) as (b&Hb&Hdup).
  { intros k Hk. by eapply struct_wf_out_range. }
  assert (Hdup' : ∃ b', (if bool_decide (type = MO) then exists_edge_loop g type from to (ev_edges ev)
                         else Ret false) = Ret b' ∧ (b' = true → type = MO ∧ mo g from to)).
  { case_bool_decide as Hm; [|by exists false]. exists b. split; [done|]. intros Hbt.
    destruct (Hdup Hbt) as (ed&?&?&?&?). split; [done|]. exists ed. by subst. }
  destruct Hdup' as (b'&->&Hb'). simpl. destruct b'.
  { exists g. split_and!; [done|done|]. left. destruct (Hb' eq_refl). done. }
  eexists. split_and!; [done| |right; by exists ev].
  apply lookup_lt_Some in Hev as Hlt. split; simpl.
  - intros i e. rewrite list_lookup_insert_Some.
    intros [(<-&<-&_)|[_ He]]; [|by apply (sw_id _ _ Hw)]. simpl. by apply (sw_id _ _ Hw).
  - intros k ed. rewrite length_insert. rewrite lookup_app_Some. intros [Hk|[Hge Hk]].
    + by apply (sw_edge _ _ Hw).
    + apply list_lookup_singleton_Some in Hk as [Hk <-]. simpl. split_and!; [lia|done..].
  - intros i e. rewrite outgoing_snoc. simpl. rewrite list_lookup_insert_Some.
    intros [(<-&<-&_)|[Hne He]]; simpl.
    + rewrite decide_True by done. f_equal. by apply (sw_out _ _ Hw).
    + rewrite decide_False, app_nil_r by done. by apply (sw_out _ _ Hw).
Qed.

Lemma AddEdge_grow P cur n g type from to :
  struct_wf n g → from < length (g_events g) → to < n → (∀ k, P (mkEdge k type from to)) →
  ∃ g', AddEdge g type from to = Ret g' ∧ grow P cur g g' ∧ struct_wf n g'.
Proof.
  intros Hs Hf Ht HP. destruct (AddEdge_struct n g type from to Hs Hf Ht) as (g'&Heq&Hw&Hg').
  exists g'. split_and!; [done| |done]. destruct Hg' as [[-> _]|(ev&Hev&->)]; [done|].
  split; simpl; try done.
  - by rewrite length_insert.
  - intros i e He. destruct (decide (from = i)) as [<-|Hne].
    + simplify_eq. rewrite list_lookup_insert_eq by done.
      exists (ev_edges ev ++ [length (g_edges g)]), (ev_clock ev). by destruct ev.
    + rewrite list_lookup_insert_ne by done. exists (ev_edges e), (ev_clock e).
      by rewrite set_edges_clock_self.
  - eexists. split_and!; [done|by repeat constructor|]. simpl.
    destruct (inSnapshotMode g); [set_solver|done].
Qed.

Lemma AddEdge_adds P cur g type from to :
  ok g → from < length (g_events g) → to < length (g_events g) →
  (∀ k, P (mkEdge k type from to)) → adds P cur g (AddEdge g type from to).
Proof.
  intros Hok Hf Ht HP. pose proof (ok_struct _ Hok) as Hs.
  destruct (AddEdge_grow (λ ed, P ed) (length (g_events g)) _ g type from to Hs Hf Ht HP)
    as (g'&Heq&Hg&Hw).
  destruct (AddEdge_grow P cur _ g type from to Hs Hf Ht HP) as (g''&Heq'&Hg'&_).
  rewrite Heq in Heq'. injection Heq' as <-.
  exists g'. split_and!; [done..|]. pose proof (grow_length _ _ _ _ Hg) as Hlen.
  split; [by rewrite Hlen|]. intros i e' He'. rewrite Hlen, (grow_nThreads _ _ _ _ Hg).
  destruct (grow_event_inv _ _ _ _ _ _ Hg He') as (e&l&c&He&->&Hc). simpl.
  apply lookup_lt_Some in He as Hi. rewrite Hc by lia. by eapply ok_clock.
Qed.

(** Modification order after growth. *)
Lemma grow_mo P cur g g' x y :
  grow P cur g g' → mo g' x y →
  mo g x y ∨ ∃ ed, P ed ∧ edge_type ed = MO ∧ edge_from ed = x ∧ edge_to ed = y.
Proof.
  intros Hg (ed&Hin&?&?&?). destruct (grow_edges _ _ _ _ Hg) as (new&Heq&HP&_).
  rewrite Heq in Hin. apply elem_of_app in Hin as [Hin|Hin]; [left; by exists ed|right].
  exists ed. split; [|done]. by eapply Forall_forall.
Qed.

(** ** Stores, reads and the events of a thread *)

Definition is_store e : bool := IsWrite e || IsModifyRMW e.

Definition store_at g (loc : Z) (w : nat) : Prop :=
  ∃ we, g_events g !! w = Some we ∧ is_store we = true ∧ ev_location we = loc.

(** A reading event that has its store. *)
Definition resolved g e : Prop :=
  match ev_kind e with
  | DummyEvent | WriteEvent _ => True
  | ReadEvent rf => ∃ w, rf = Some w ∧ store_at g (ev_location e) w
  | CASRMWEvent rf st _ _ _ _ _ =>
      st ≠ STATE_UNSET ∧ ∃ w, rf = Some w ∧ store_at g (ev_location e) w
  | UnconditionalRMWEvent rf st _ _ _ _ =>
      st = STATE_MODIFY ∧ ∃ w, rf = Some w ∧ store_at g (ev_location e) w
  end.

(** What the rules rely on beside [ok]; [cur] is the event under way. *)
Record core (cur : nat) g : Prop := {
  core_threads : length (eventsPerThread g) = nThreads g;
  core_thread t l i : eventsPerThread g !! t = Some l → i ∈ l → i < length (g_events g);
  core_reads i e : g_events g !! i = Some e → i ≠ cur → resolved g e;
  core_last loc w : lastSeqCstWriteEvents g !! loc = Some w → store_at g loc w;
}.

Lemma store_at_grow P cur g g' loc w : grow P cur g g' → store_at g loc w ↔ store_at g' loc w.
Proof.
  intros Hg. split.
  - intros (we&Hw&?&?). destruct (grow_event _ _ _ _ Hg w we Hw) as (l&c&Hw'&_).
    eexists. split; [done|]. by destruct we.
  - intros (we'&Hw&Hs&Hl). destruct (grow_event_inv _ _ _ _ _ _ Hg Hw) as (e&l&c&He&->&_).
    exists e. by destruct e.
Qed.

Lemma store_at_lt g loc w : store_at g loc w → w < length (g_events g).
Proof. intros (we&Hw&_). by eapply lookup_lt_Some. Qed.

Lemma resolved_grow P cur g g' e l c :
  grow P cur g g' → resolved g e → resolved g' (set_edges l (set_clock c e)).
Proof.
  intros Hg. unfold resolved. destruct e as [id loc th o ck es k]. simpl.
  destruct k; simpl; try done; setoid_rewrite (store_at_grow _ _ _ _ _ _ Hg); done.
Qed.

Lemma core_grow P cur g g' : grow P cur g g' → core cur g → core cur g'.
Proof.
  intros Hg [Ht Hl Hr Hs]. split.
  - by rewrite (grow_threads _ _ _ _ Hg), (grow_nThreads _ _ _ _ Hg).
  - rewrite (grow_threads _ _ _ _ Hg), (grow_length _ _ _ _ Hg). done.
  - intros i e' He' Hne. destruct (grow_event_inv _ _ _ _ _ _ Hg He') as (e&l&c&He&->&_).
    eapply resolved_grow; [done|]. by eapply Hr.
  - rewrite (grow_last _ _ _ _ Hg). intros loc w Hw. apply (store_at_grow _ _ _ _ _ _ Hg). auto.
Qed.

(** ** The rules *)

(** Edges whose modification-order part satisfies [Q]. *)
Definition mo_only (Q : nat → nat → Prop) (ed : Edge) : Prop :=
  edge_type ed = MO → Q (edge_from ed) (edge_to ed).

Lemma event_ret g i e : g_events g !! i = Some e → event g i = Ret e.
Proof. unfold event. by intros ->. Qed.

Lemma HappensBefore_total g i j e e' :
  ok g → g_events g !! i = Some e → g_events g !! j = Some e' → ∃ b, HappensBefore e e' = Ret b.
Proof.
  intros Hok He He'. destruct (ok_clock _ Hok i e He) as [Hl _].
  destruct (ok_clock _ Hok j e' He') as [Hl' _].
  destruct (VectorClock.IsSubsetOf_spec (ev_clock e) (ev_clock e')) as (b&Hb&_); [congruence|].
  by exists b.
Qed.

Lemma most_recent_ok g (predicate : Event T → outcome bool) ids :
  (∀ i, i ∈ ids → ∃ e b, g_events g !! i = Some e ∧ predicate e = Ret b) →
  ∃ o, most_recent g predicate ids = Ret o ∧
    ∀ i, o = Some i → ∃ e, g_events g !! i = Some e ∧ predicate e = Ret true.
Proof.
  induction ids as [|i ids IH]; intros Hp; simpl; [by exists None|].
  destruct (Hp i) as (e&b&He&Hb); [by left|]. rewrite (event_ret _ _ _ He). simpl.
  rewrite Hb. simpl. destruct b.
  - exists (Some i). split; [done|]. intros j [= <-]. eauto.
  - apply IH. intros j ?. apply Hp. by right.
Qed.

Lemma iterate_threads_adds P cur pred cb ts g :
  ok g → core cur g → (∀ t, t ∈ ts → t < nThreads g) →
  (∀ g' i e, grow P cur g g' → ok g' → g_events g' !! i = Some e → ∃ b, pred g' e = Ret b) →
  (∀ g' i e, grow P cur g g' → ok g' → g_events g' !! i = Some e → pred g' e = Ret true →
     adds P cur g' (cb g' e)) →
  adds P cur g (iterate_threads pred cb ts g).
Proof.
  revert g. induction ts as [|t ts IH]; intros g Hok Hcore Hts Hpred Hcb; simpl.
  { by apply adds_ret. }
  destruct (lookup_lt_is_Some_2 (eventsPerThread g) t) as [l Hl].
  { rewrite (core_threads _ _ Hcore). apply Hts. by left. }
  rewrite Hl. simpl.
  destruct (most_recent_ok g (pred g) (reverse l)) as (o&->&Ho).
  { intros i Hi. rewrite elem_of_reverse in Hi.
    pose proof (core_thread _ _ Hcore t l i Hl Hi) as Hlt. apply lookup_lt_is_Some in Hlt as [e He].
    destruct (Hpred g i e) as [b Hb]; [done..|]. eauto. }
  simpl. apply adds_bind.
  - destruct o as [i|]; [|by apply adds_ret]. destruct (Ho i eq_refl) as (e&He&Hp).
    rewrite (event_ret _ _ _ He). simpl. by apply (Hcb g i e).
  - intros g1 Hg1 Hok1. apply IH; [done|by eapply core_grow| | |].
    + intros t' ?. rewrite (grow_nThreads _ _ _ _ Hg1). apply Hts. by right.
    + intros g2 i e Hg2. apply Hpred. by etrans.
    + intros g2 i e Hg2. apply Hcb. by etrans.
Qed.

Lemma iterate_adds P cur pred cb g :
  ok g → core cur g →
  (∀ g' i e, grow P cur g g' → ok g' → g_events g' !! i = Some e → ∃ b, pred g' e = Ret b) →
  (∀ g' i e, grow P cur g g' → ok g' → g_events g' !! i = Some e → pred g' e = Ret true →
     adds P cur g' (cb g' e)) →
  adds P cur g (IterateThroughMostRecentEventsByPredicate pred cb g).
Proof.
  intros Hok Hcore Hpred Hcb. apply iterate_threads_adds; try done.
  intros t Ht. apply elem_of_seq in Ht. lia.
Qed.

(** [&&] of total tests. *)
Lemma and_then_total (b1 : bool) m :
  (b1 = true → ∃ b, m = Ret b) → ∃ b, and_then (Ret b1) m = Ret b.
Proof. intros Hm. unfold and_then. simpl. destruct b1; [auto|by exists false]. Qed.

Lemma and_then_true m1 m2 : and_then m1 m2 = Ret true ↔ m1 = Ret true ∧ m2 = Ret true.
Proof.
  unfold and_then. rewrite outcome_bind_ret. split.
  - intros ([]&->&H); [done|]. naive_solver.
  - intros [-> ?]. by exists true.
Qed.

(** [read] reads from [write]. *)
Definition reads g (write read : nat) (loc : Z) : Prop :=
  ∃ w r, g_events g !! write = Some w ∧ g_events g !! read = Some r ∧
    is_store w = true ∧ IsReadOrRMW r = true ∧ ev_location w = loc ∧ ev_location r = loc ∧
    GetReadFromEvent r = Ret (Some write).

Lemma reads_grow P cur g g' write read loc :
  grow P cur g g' → reads g write read loc → reads g' write read loc.
Proof.
  intros Hg (w&r&Hw&Hr&?&?&?&?&?).
  destruct (grow_event _ _ _ _ Hg _ _ Hw) as (l&c&Hw'&_).
  destruct (grow_event _ _ _ _ Hg _ _ Hr) as (l'&c'&Hr'&_).
  eexists _, _. split_and!; [done..| | | | |]; by destruct w, r.
Qed.

Lemma store_write_or_rmw e : is_store e = true → IsWriteOrRMW e = true.
Proof.
  unfold is_store, IsWriteOrRMW, IsWrite, IsRMW, IsModifyRMW, ev_type.
  by destruct (ev_kind e).
Qed.

Lemma rf_asserts_ok g write read loc :
  reads g write read loc →
  ∃ w r, rf_asserts g write read = Ret (w, r) ∧ g_events g !! write = Some w ∧
    g_events g !! read = Some r ∧ ev_location r = loc.
Proof.
  intros (w&r&Hw&Hr&Hs&Hrr&Hlw&Hlr&Hrf). exists w, r. unfold rf_asserts.
  rewrite (event_ret _ _ _ Hw), (event_ret _ _ _ Hr). simpl.
  rewrite (store_write_or_rmw _ Hs), Hrr. simpl. rewrite bool_decide_true by congruence. simpl.
  rewrite Hrf. simpl. by rewrite bool_decide_true by done.
Qed.

Lemma resolved_reads_from g e :
  resolved g e → IsReadOrRMW e = true →
  ∃ w, GetReadFromEvent e = Ret (Some w) ∧ store_at g (ev_location e) w.
Proof.
  unfold resolved, IsReadOrRMW, IsRead, IsRMW, ev_type, GetReadFromEvent.
  destruct (ev_kind e); simpl; try done; naive_solver.
Qed.

Section Rules.
Context (Q : nat → nat → Prop) (cur : nat).
Abbreviation P := (mo_only Q).

Lemma AddMo_adds g x y :
  ok g → x < length (g_events g) → y < length (g_events g) → Q x y →
  adds P cur g (AddEdge g MO x y).
Proof. intros Hok Hx Hy HQ. apply AddEdge_adds; try done. by intros k _. Qed.

(** The read-side rules add edges from stores into [write]. *)
Lemma SeqCstReadWriteCoherence_adds g write read loc :
  ok g → core cur g → reads g write read loc →
  (∀ x, store_at g loc x → x ≠ write → Q x write) →
  adds P cur g (CreateSeqCstReadWriteCoherenceEdges g write read).
Proof.
  intros Hok Hcore Hreads HQ. unfold CreateSeqCstReadWriteCoherenceEdges.
  destruct (rf_asserts_ok g write read loc Hreads) as (w&r&->&Hw&Hr&Hloc). simpl.
  unfold GetLastSeqCstWriteEventId. rewrite Hloc.
  destruct (lastSeqCstWriteEvents g !! loc) as [l|] eqn:Hl; [|by apply adds_ret].
  pose proof (core_last _ _ Hcore loc l Hl) as Hst. pose proof Hst as (le&Hle&Hs&Hll).
  rewrite (event_ret _ _ _ Hle). simpl. fold (is_store le). rewrite Hs. simpl.
  rewrite (bool_decide_true (ev_location le = loc)) by done. simpl.
  rewrite (sw_id _ _ (ok_struct _ Hok) _ _ Hle), (sw_id _ _ (ok_struct _ Hok) _ _ Hw).
  case_bool_decide as Hlw; [by apply adds_ret|].
  apply AddMo_adds; [done|by eapply lookup_lt_Some..|auto].
Qed.

Lemma WriteReadCoherence_adds g write read loc :
  ok g → core cur g → reads g write read loc →
  (∀ x, store_at g loc x → x ≠ write → Q x write) →
  adds P cur g (CreateWriteReadCoherenceEdges g write read).
Proof.
  intros Hok Hcore Hreads HQ. unfold CreateWriteReadCoherenceEdges.
  destruct (rf_asserts_ok g write read loc Hreads) as (w&r&->&Hw&Hr&Hloc). simpl.
  apply iterate_adds; [done..| |].
  - intros g' i e Hg Hok' He. destruct (grow_event _ _ _ _ Hg read r Hr) as (l&c&Hr'&_).
    rewrite (event_ret _ _ _ Hr'). simpl. apply and_then_total. intros _.
    by eapply HappensBefore_total.
  - intros g' i e Hg Hok' He Hp. destruct (grow_event _ _ _ _ Hg read r Hr) as (l&c&Hr'&_).
    rewrite (event_ret _ _ _ Hr') in Hp. simpl in Hp.
    apply and_then_true in Hp as [[= Hp] _].
    rewrite !andb_true_iff, !negb_true_iff, !bool_decide_eq_false, bool_decide_eq_true in Hp.
    destruct Hp as [[[_ Hne] Hs] Hl]. rewrite (sw_id _ _ (ok_struct _ Hok') _ _ He) in *.
    apply AddMo_adds; [done|by eapply lookup_lt_Some| |].
    + rewrite (grow_length _ _ _ _ Hg). by eapply lookup_lt_Some.
    + apply HQ; [|done]. apply (store_at_grow _ _ _ _ _ _ Hg). exists e.
      simpl in Hl. split_and!; [done..|congruence].
Qed.

Lemma ReadReadCoherence_adds g write read loc :
  ok g → core cur g → reads g write read loc → read = cur →
  (∀ x, store_at g loc x → x ≠ write → Q x write) →
  adds P cur g (CreateReadReadCoherenceEdges g write read).
Proof.
  intros Hok Hcore Hreads Hcur HQ. unfold CreateReadReadCoherenceEdges.
  destruct (rf_asserts_ok g write read loc Hreads) as (w&r&->&Hw&Hr&Hloc). simpl.
  apply iterate_adds; [done..| |].
  - intros g' i e Hg Hok' He. destruct (grow_event _ _ _ _ Hg read r Hr) as (l&c&Hr'&_).
    rewrite (event_ret _ _ _ Hr'). simpl. apply and_then_total. intros Ht.
    destruct (HappensBefore_total g' i read e _ Hok' He Hr') as [b ->].
    apply and_then_total. intros _. rewrite !andb_true_iff in Ht. destruct Ht as [[_ Hrr] _].
    unfold IsReadOrRMW, IsRead, IsRMW, ev_type in Hrr. unfold GetReadFromEvent.
    destruct (ev_kind e); try done; by eexists.
  - intros g' i e Hg Hok' He Hp. destruct (grow_event _ _ _ _ Hg read r Hr) as (l&c&Hr'&_).
    rewrite (event_ret _ _ _ Hr') in Hp. simpl in Hp.
    apply and_then_true in Hp as [[= Hp] Hp2]. apply and_then_true in Hp2 as [_ Hrf].
    rewrite !andb_true_iff, !negb_true_iff, !bool_decide_eq_false, bool_decide_eq_true in Hp.
    destruct Hp as [[[Hne _] Hrr] Hl]. simpl in Hl, Hne.
    rewrite (sw_id _ _ (ok_struct _ Hok') _ _ He), (sw_id _ _ (ok_struct _ Hok) _ _ Hr) in *.
    pose proof (core_reads _ _ (core_grow _ _ _ _ Hg Hcore) i e He ltac:(congruence)) as Hres.
    destruct (resolved_reads_from g' e Hres Hrr) as (x&Hx&Hst). rewrite Hx in *. simpl in *.
    assert (Hxw : x ≠ write).
    { intros ->. injection Hrf. by rewrite (bool_decide_true (Some write = Some write)), ?andb_false_r. }
    pose proof Hst as (xe&Hxe&_). rewrite (event_ret _ _ _ Hxe). simpl.
    rewrite (sw_id _ _ (ok_struct _ Hok') _ _ Hxe).
    apply AddMo_adds; [done|by eapply lookup_lt_Some| |].
    + rewrite (grow_length _ _ _ _ Hg). by eapply lookup_lt_Some.
    + apply HQ; [|done]. apply (store_at_grow _ _ _ _ _ _ Hg). by rewrite Hl, Hloc in Hst.
Qed.

(** The write-side rules add edges from stores into the event [i]. *)
Lemma SeqCstConsistency_adds g i e :
  ok g → core cur g → g_events g !! i = Some e → IsWriteOrRMW e = true →
  IsSeqCst e = Ret true →
  (∀ x, lastSeqCstWriteEvents g !! ev_location e = Some x →
        store_at g (ev_location e) x → Q x i) →
  adds P cur g (CreateSeqCstConsistencyEdges g i).
Proof.
  intros Hok Hcore He Hwr Hsc HQ. unfold CreateSeqCstConsistencyEdges, GetLastSeqCstWriteEventId.
  rewrite (event_ret _ _ _ He). simpl. rewrite Hsc. simpl. rewrite Hwr. simpl.
  destruct (lastSeqCstWriteEvents g !! ev_location e) as [l|] eqn:Hl; [|by apply adds_ret].
  pose proof (core_last _ _ Hcore _ l Hl) as Hst. pose proof Hst as (le&Hle&Hs&Hll).
  rewrite (event_ret _ _ _ Hle). simpl. fold (is_store le). rewrite Hs. simpl.
  rewrite bool_decide_true by done. simpl.
  rewrite (sw_id _ _ (ok_struct _ Hok) _ _ Hle), (sw_id _ _ (ok_struct _ Hok) _ _ He).
  apply AddMo_adds; [done|by eapply lookup_lt_Some..|auto].
Qed.

Lemma WriteWriteCoherence_adds g i e :
  ok g → core cur g → g_events g !! i = Some e → IsWriteOrRMW e = true →
  (∀ x, store_at g (ev_location e) x → x ≠ i → Q x i) →
  adds P cur g (CreateWriteWriteCoherenceEdges g i).
Proof.
  intros Hok Hcore He Hwr HQ. unfold CreateWriteWriteCoherenceEdges.
  rewrite (event_ret _ _ _ He). simpl. rewrite Hwr. simpl. apply iterate_adds; [done..| |].
  - intros g' j o Hg Hok' Ho. destruct (grow_event _ _ _ _ Hg i e He) as (l&c&He'&_).
    rewrite (event_ret _ _ _ He'). simpl. apply and_then_total. intros _.
    by eapply HappensBefore_total.
  - intros g' j o Hg Hok' Ho Hp. destruct (grow_event _ _ _ _ Hg i e He) as (l&c&He'&_).
    rewrite (event_ret _ _ _ He') in Hp. simpl in Hp. apply and_then_true in Hp as [[= Hp] _].
    rewrite !andb_true_iff, negb_true_iff, bool_decide_eq_false, bool_decide_eq_true in Hp.
    destruct Hp as [[Hne Hs] Hl].
    rewrite (sw_id _ _ (ok_struct _ Hok') _ _ Ho), (sw_id _ _ (ok_struct _ Hok) _ _ He) in *.
    apply AddMo_adds; [done|by eapply lookup_lt_Some|by eapply lookup_lt_Some|].
    apply HQ; [|done]. apply (store_at_grow _ _ _ _ _ _ Hg). by exists o.
Qed.

Lemma ReadWriteCoherence_adds g i e :
  ok g → core cur g → g_events g !! i = Some e → IsWriteOrRMW e = true → i = cur →
  (∀ j o x, g_events g !! j = Some o → j ≠ i → GetReadFromEvent o = Ret (Some x) →
     store_at g (ev_location e) x → Q x i) →
  adds P cur g (CreateReadWriteCoherenceEdges g i).
Proof.
  intros Hok Hcore He Hwr Hcur HQ. unfold CreateReadWriteCoherenceEdges.
  rewrite (event_ret _ _ _ He). simpl. rewrite Hwr. simpl. apply iterate_adds; [done..| |].
  - intros g' j o Hg Hok' Ho. destruct (grow_event _ _ _ _ Hg i e He) as (l&c&He'&_).
    rewrite (event_ret _ _ _ He'). simpl. apply and_then_total. intros _.
    by eapply HappensBefore_total.
  - intros g' j o Hg Hok' Ho Hp. destruct (grow_event _ _ _ _ Hg i e He) as (l&c&He'&_).
    rewrite (event_ret _ _ _ He') in Hp. simpl in Hp. apply and_then_true in Hp as [[= Hp] _].
    rewrite !andb_true_iff, negb_true_iff, bool_decide_eq_false, bool_decide_eq_true in Hp.
    destruct Hp as [[Hne Hrr] Hl]. simpl in Hl, Hne.
    rewrite (sw_id _ _ (ok_struct _ Hok') _ _ Ho), (sw_id _ _ (ok_struct _ Hok) _ _ He) in *.
    pose proof (core_reads _ _ (core_grow _ _ _ _ Hg Hcore) j o Ho ltac:(congruence)) as Hres.
    destruct (resolved_reads_from g' o Hres Hrr) as (x&Hx&Hst). rewrite Hx. simpl.
    pose proof Hst as (xe&Hxe&_). rewrite (event_ret _ _ _ Hxe). simpl.
    rewrite (sw_id _ _ (ok_struct _ Hok') _ _ Hxe).
    apply AddMo_adds; [done|by eapply lookup_lt_Some|by eapply lookup_lt_Some|].
    destruct (grow_event_inv _ _ _ _ _ _ Hg Ho) as (o0&l0&c0&Ho0&->&_).
    apply (HQ j o0 x); [done|congruence|by destruct o0|].
    apply (store_at_grow _ _ _ _ _ _ Hg). by rewrite Hl in Hst.
Qed.

(** A sequentially consistent access also joins the clock of the last store. *)
Lemma set_clock_grow g e c :
  g_events g !! cur = Some e → grow P cur g (set_event g cur (set_clock c e)).
Proof.
  intros He. split; simpl; try done.
  - by rewrite length_insert.
  - intros i e' He'. destruct (decide (cur = i)) as [<-|Hne].
    + simplify_eq. rewrite list_lookup_insert_eq by (by eapply lookup_lt_Some).
      exists (ev_edges e), c. split; [by destruct e|done].
    + rewrite list_lookup_insert_ne by done. exists (ev_edges e'), (ev_clock e').
      by rewrite set_edges_clock_self.
  - exists []. rewrite app_nil_r. split_and!; [done|constructor|].
    destruct (inSnapshotMode g); [|done]. simpl. set_solver.
Qed.

Lemma set_event_ok g i e e' :
  ok g → g_events g !! i = Some e → ev_id e' = ev_id e → ev_edges e' = ev_edges e →
  clock_ok (nThreads g) (length (g_events g)) (ev_clock e') → ok (set_event g i e').
Proof.
  intros [[Hid Hed Hout] Hck] He Hi Hes Hc. split; [split|]; simpl.
  - intros j o Hj. apply list_lookup_insert_Some in Hj as [(<-&<-&_)|[_ Hj]]; [rewrite Hi|]; auto.
  - intros k ed Hk. rewrite length_insert. auto.
  - intros j o Hj. apply list_lookup_insert_Some in Hj as [(<-&<-&_)|[_ Hj]]; [rewrite Hes|]; auto.
  - intros j o Hj. rewrite length_insert.
    apply list_lookup_insert_Some in Hj as [(<-&<-&_)|[_ Hj]]; [done|eauto].
Qed.

Lemma unite_clock_ok n bound c d :
  clock_ok n bound c → clock_ok n bound d →
  ∃ c', VectorClock.UniteWith c d = Ret c' ∧ clock_ok n bound c' ∧
    VectorClock.le c c' ∧ VectorClock.le d c'.
Proof.
  intros [Hl Hb] [Hl' Hb'].
  destruct (VectorClock.UniteWith_spec c d) as (c'&Heq&Hlen&Hle); [congruence|].
  destruct (proj1 (Hle c') (reflexivity c')).
  exists c'. split_and!; [done|split; [congruence|by eapply VectorClock.UniteWith_Forall]|done..].
Qed.

Lemma ScEdge_adds g e :
  ok g → core cur g → g_events g !! cur = Some e → IsSeqCst e = Ret true →
  adds P cur g (CreateScEdgeToEvent g cur).
Proof.
  intros Hok Hcore He Hsc. unfold CreateScEdgeToEvent, GetLastSeqCstWriteEventId.
  rewrite (event_ret _ _ _ He). simpl. rewrite Hsc. simpl.
  destruct (lastSeqCstWriteEvents g !! ev_location e) as [l|] eqn:Hl; [|by apply adds_ret].
  pose proof (core_last _ _ Hcore _ l Hl) as (le&Hle&Hs&Hll).
  rewrite (event_ret _ _ _ Hle). simpl. fold (is_store le). rewrite Hs. simpl.
  rewrite (sw_id _ _ (ok_struct _ Hok) _ _ Hle), (sw_id _ _ (ok_struct _ Hok) _ _ He).
  apply adds_bind.
  { apply AddEdge_adds; [done|by eapply lookup_lt_Some..|]. by intros k Hk. }
  intros g1 Hg1 Hok1. destruct (grow_event _ _ _ _ Hg1 _ _ He) as (l1&c1&He1&_).
  destruct (grow_event _ _ _ _ Hg1 _ _ Hle) as (l2&c2&Hle1&_).
  rewrite (event_ret _ _ _ He1), (event_ret _ _ _ Hle1). simpl.
  destruct (unite_clock_ok _ _ _ _ (ok_clock _ Hok1 _ _ He1) (ok_clock _ Hok1 _ _ Hle1))
    as (c'&Hc'&Hok'&_). simpl in Hc'. rewrite Hc'. simpl.
  eexists. split_and!; [done|by apply set_clock_grow|by eapply set_event_ok].
Qed.

(** ** Read-modify-writes *)
Lemma rmw_asserts_ok g write rmw loc r :
  reads g write rmw loc → g_events g !! rmw = Some r → IsModifyRMW r = true →
  ∃ w, rmw_asserts g write rmw = Ret (w, r) ∧ g_events g !! write = Some w.
Proof.
  intros (w&r'&Hw&Hr'&Hs&Hrr&Hlw&Hlr&Hrf) Hr Hm.
  rewrite Hr in Hr'. injection Hr' as <-. exists w. unfold rmw_asserts.
  rewrite (event_ret _ _ _ Hw), (event_ret _ _ _ Hr). simpl.
  rewrite (store_write_or_rmw _ Hs), Hm. simpl. rewrite bool_decide_true by congruence. simpl.
  rewrite Hrf. simpl. by rewrite bool_decide_true by done.
Qed.

Lemma RmwConsistency_adds g write rmw loc r :
  ok g → reads g write rmw loc → g_events g !! rmw = Some r → IsModifyRMW r = true →
  Q write rmw → adds P cur g (CreateRmwConsistencyEdges g write rmw).
Proof.
  intros Hok Hreads Hr Hm HQ. unfold CreateRmwConsistencyEdges.
  destruct (rmw_asserts_ok g write rmw loc r Hreads Hr Hm) as (w&->&Hw). simpl.
  rewrite (sw_id _ _ (ok_struct _ Hok) _ _ Hw), (sw_id _ _ (ok_struct _ Hok) _ _ Hr).
  apply AddMo_adds; [done|by eapply lookup_lt_Some..|done].
Qed.

Lemma rmw_atomicity_loop_adds rmw ids g :
  ok g → rmw < length (g_events g) →
  (∀ k, k ∈ ids → ∃ ed, g_edges g !! k = Some ed ∧ edge_to ed < length (g_events g) ∧
     (edge_type ed = MO → edge_to ed ≠ rmw → Q rmw (edge_to ed))) →
  adds P cur g (rmw_atomicity_loop rmw ids g).
Proof.
  revert g. induction ids as [|k ids IH]; intros g Hok Hr Hids; simpl; [by apply adds_ret|].
  destruct (Hids k) as (ed&Hed&Hto&HQ); [by left|]. rewrite Hed. simpl. apply adds_bind.
  - destruct (_ && _) eqn:Hb; [|by apply adds_ret].
    rewrite andb_true_iff, negb_true_iff, bool_decide_eq_false, bool_decide_eq_true in Hb.
    destruct Hb. apply AddMo_adds; auto.
  - intros g1 Hg1 Hok1. apply IH; [done|by rewrite (grow_length _ _ _ _ Hg1)|].
    intros j Hj. destruct (Hids j) as (ed'&Hed'&Hto'&HQ'); [by right|]. exists ed'.
    rewrite (grow_length _ _ _ _ Hg1). split_and!; try done.
    destruct (grow_edges _ _ _ _ Hg1) as (new&->&_). by apply lookup_app_l_Some.
Qed.

Lemma RmwAtomicity_adds g write rmw loc r :
  ok g → reads g write rmw loc → g_events g !! rmw = Some r → IsModifyRMW r = true →
  (∀ y, mo g write y → y ≠ rmw → Q rmw y) →
  adds P cur g (CreateRmwAtomicityEdges g write rmw).
Proof.
  intros Hok Hreads Hr Hm HQ. unfold CreateRmwAtomicityEdges.
  destruct (rmw_asserts_ok g write rmw loc r Hreads Hr Hm) as (w&->&Hw). simpl.
  pose proof (ok_struct _ Hok) as Hs. rewrite (sw_id _ _ Hs _ _ Hr).
  apply rmw_atomicity_loop_adds; [done|by eapply lookup_lt_Some|].
  intros k Hk. pose proof (struct_wf_out_range _ _ _ _ _ Hs Hw Hk) as Hlt.
  apply lookup_lt_is_Some in Hlt as [ed Hed]. destruct (sw_edge _ _ Hs k ed Hed) as (_&_&?).
  exists ed. split_and!; [done..|]. intros Ht Hne. apply HQ; [|done].
  apply (outgoing_mo g Hs write _ w Hw). by exists k, ed.
Qed.

End Rules.

End Steps.
