(* ===== verification/GraphInvariant.v ===== *)
(** * The invariant of the execution graph

    Every state of [Graph] (runtime/include/wmm/graph.h) reached through its
    public operations is well formed: ids are indices, every read has a store
    of its location to read from, modification order relates stores of one
    location and is acyclic, and no snapshot is open. *)
From stdpp Require Import base list relations gmap.
From Stdlib Require Import ZArith.
From S2P Require Import Prelude VectorClock WmmEvent Graph GraphConsistent GraphSteps.

#[local] Arguments and_then : simpl never.

Section Invariant.
Context {T : Type} (ops : ValueOps T).
Implicit Types (g : Graph T) (e : Event T).

Record graph_wf g : Prop := {
  gw_ok : ok g;
  gw_core : core (length (g_events g)) g;
  gw_threads t l : eventsPerThread g !! t = Some l → l ≠ [];
  gw_mo x y : mo g x y → ∃ loc, store_at g loc x ∧ store_at g loc y;
  gw_acyclic : acyclic (mo g);
  gw_mode : inSnapshotMode g = false;
  gw_snapshot : snapshotEdges g = ∅;
}.

(** The state in which the last event [cur] has been appended, in program
    order only: nothing refers to it yet. *)
Record opened (cur : nat) g : Prop := {
  op_ok : ok g;
  op_core : core cur g;
  op_cur : length (g_events g) = S cur;
  op_threads t l : eventsPerThread g !! t = Some l → l ≠ [];
  op_mo x y : mo g x y → (∃ loc, store_at g loc x ∧ store_at g loc y) ∧ x ≠ cur ∧ y ≠ cur;
  op_acyclic : acyclic (mo g);
  op_last loc : lastSeqCstWriteEvents g !! loc ≠ Some cur;
  op_reads i e w : g_events g !! i = Some e → i ≠ cur →
    GetReadFromEvent e = Ret (Some w) → w ≠ cur;
  op_mode : inSnapshotMode g = false;
  op_snapshot : snapshotEdges g = ∅;
}.

(** ** A new event *)

Lemma struct_wf_weaken n m g : n ≤ m → struct_wf n g → struct_wf m g.
Proof.
  intros Hle [Hid Hed Hout]. split; try done. intros k ed Hk.
  destruct (Hed k ed Hk) as (?&?&?). split_and!; try done. lia.
Qed.

Lemma clock_ok_weaken n b b' c : b ≤ b' → clock_ok n b c → clock_ok n b' c.
Proof. intros Hle [? Hf]. split; [done|]. eapply Forall_impl; [done|]. simpl. lia. Qed.

(** [events.push_back(event)] together with the updates of the two other
    vectors that go with it. *)
Definition push_event g e (per : list (list nat)) : Graph T :=
  mkGraph (g_edges g) (g_events g ++ [e]) per (lastSeqCstWriteEvents g) (snapshotEdges g)
    (inSnapshotMode g) (nThreads g).

Lemma push_length g e per : length (g_events (push_event g e per)) = S (length (g_events g)).
Proof. simpl. rewrite length_app. simpl. lia. Qed.

Lemma push_lookup g e per i o :
  g_events (push_event g e per) !! i = Some o →
  g_events g !! i = Some o ∨ i = length (g_events g) ∧ o = e.
Proof.
  simpl. rewrite lookup_app_Some. intros [?|[? Ho]]; [auto|].
  apply list_lookup_singleton_Some in Ho as [? <-]. right. split; [lia|done].
Qed.

Lemma push_store_at g e per loc w : store_at g loc w → store_at (push_event g e per) loc w.
Proof. intros (we&Hw&?). exists we. split; [|done]. simpl. by apply lookup_app_l_Some. Qed.

Lemma push_resolved g e per o : resolved g o → resolved (push_event g e per) o.
Proof.
  unfold resolved. destruct (ev_kind o); try done; [intros (w&?&?)|intros (?&w&?&?)..];
    repeat split; eauto using push_store_at.
Qed.

Lemma push_ok g e per n :
  struct_wf (S (length (g_events g))) g → ev_id e = length (g_events g) → ev_edges e = [] →
  clock_ok (nThreads g) n (ev_clock e) → n ≤ S (length (g_events g)) →
  (∀ i o, g_events g !! i = Some o → clock_ok (nThreads g) (length (g_events g)) (ev_clock o)) →
  ok (push_event g e per).
Proof.
  intros Hs Hid Hes Hc Hn Hcs. split; [split|].
  - intros i o [Ho|[-> ->]]%push_lookup; [by apply (sw_id _ _ Hs)|done].
  - intros k ed Hk. rewrite push_length. destruct (sw_edge _ _ Hs k ed Hk) as (?&?&?).
    split_and!; [done|lia|lia].
  - intros i o [Ho|[-> ->]]%push_lookup; [by apply (sw_out _ _ Hs)|]. rewrite Hes. symmetry.
    simpl. unfold outgoing. destruct (filter _ _) as [|ed es'] eqn:Hfil; [done|].
    assert (Hed : ed ∈ filter (λ ed, edge_from ed = length (g_events g)) (g_edges g)).
    { rewrite Hfil. by left. }
    apply list_elem_of_filter in Hed.
    destruct Hed as [Hf Hin]. apply list_elem_of_lookup in Hin as [k Hk].
    destruct (sw_edge _ _ Hs k ed Hk) as (_&?&_). lia.
  - intros i o Ho. rewrite push_length. apply push_lookup in Ho as [Ho|[_ ->]].
    + eapply clock_ok_weaken; [|by eapply Hcs]. lia.
    + by eapply clock_ok_weaken.
Qed.

Lemma push_core g e per :
  core (length (g_events g)) g → length per = nThreads g →
  (∀ t l i, per !! t = Some l → i ∈ l → i ≤ length (g_events g)) →
  core (length (g_events g)) (push_event g e per).
Proof.
  intros Hcore Hlen Hper. split; [done| | |].
  - intros t l i Hl Hi. rewrite push_length. pose proof (Hper t l i Hl Hi). lia.
  - intros i o [Ho|[-> ->]]%push_lookup Hi; [|done]. apply push_resolved.
    by apply (core_reads _ _ Hcore i).
  - intros loc w Hw. by apply push_store_at, (core_last _ _ Hcore).
Qed.

Lemma acyclic_sub {A} (R S : relation A) : (∀ x y, R x y → S x y) → acyclic S → acyclic R.
Proof. intros Hsub Hac x Hx. apply (Hac x). eapply tc_congruence with (f := id); eauto. Qed.

Lemma resolved_store g e w :
  resolved g e → GetReadFromEvent e = Ret (Some w) → store_at g (ev_location e) w.
Proof.
  unfold resolved, GetReadFromEvent. destruct (ev_kind e); try done; naive_solver.
Qed.

(** [CreatePoEdgeToEvent] appends the event, after the last one of its
    thread, with a clock that follows that one's. *)
Lemma CreatePo_steps g e :
  graph_wf g → ev_id e = length (g_events g) → ev_threadId e < nThreads g →
  (Z.of_nat (length (g_events g)) < VectorClock.INT_MAX)%Z →
  ∃ g1 c l, CreatePoEdgeToEvent g e =
      Ret (push_event g1 (set_clock c e) (<[ev_threadId e := l ++ [ev_id e]]> (eventsPerThread g))) ∧
    eventsPerThread g !! ev_threadId e = Some l ∧
    grow (λ ed, edge_type ed = PO) (length (g_events g)) g g1 ∧
    struct_wf (S (length (g_events g))) g1 ∧
    clock_ok (nThreads g) (S (length (g_events g))) c.
Proof.
  intros [Hok Hcore Hne _ _ _ _] Hid Hth Hmax. unfold CreatePoEdgeToEvent.
  destruct (lookup_lt_is_Some_2 (eventsPerThread g) (ev_threadId e)) as [l Hl].
  { by rewrite (core_threads _ _ Hcore). }
  rewrite Hl. simpl. destruct (last l) as [lastId|] eqn:Hlast.
  2:{ apply last_None in Hlast. by apply Hne in Hl. }
  simpl. assert (Hin : lastId ∈ l) by by apply last_Some_elem_of.
  pose proof (core_thread _ _ Hcore _ _ _ Hl Hin) as Hlt. apply lookup_lt_is_Some in Hlt as [le Hle].
  rewrite (event_ret _ _ _ Hle). simpl. pose proof (ok_struct _ Hok) as Hs.
  rewrite (sw_id _ _ Hs _ _ Hle), Hid.
  destruct (AddEdge_grow (λ ed, edge_type ed = PO) (length (g_events g)) (S (length (g_events g))) g
              PO lastId (length (g_events g))) as (g1&->&Hg1&Hs1);
    [by eapply struct_wf_weaken; [|done]; lia|by eapply lookup_lt_Some|lia|done|]. simpl.
  destruct (ok_clock _ Hok _ _ Hle) as [Hcl Hcb].
  destruct (VectorClock.Increment_spec (ev_clock le) (ev_threadId e) (Z.of_nat (length (g_events g))))
    as (c&->&Hcl'&_&_&Hcb'); [by rewrite Hcl|done..|]. simpl.
  exists g1, c, l. split_and!; try done.
  - unfold push_event. by rewrite (grow_threads _ _ _ _ Hg1).
  - split; [congruence|]. eapply Forall_impl; [exact Hcb'|]. simpl. lia.
Qed.

Lemma CreatePo_opened g e :
  graph_wf g → ev_id e = length (g_events g) → ev_edges e = [] → ev_threadId e < nThreads g →
  (Z.of_nat (length (g_events g)) < VectorClock.INT_MAX)%Z →
  ∃ g' c, CreatePoEdgeToEvent g e = Ret g' ∧ opened (ev_id e) g' ∧
    g_events g' !! ev_id e = Some (set_clock c e) ∧
    lastSeqCstWriteEvents g' = lastSeqCstWriteEvents g ∧ nThreads g' = nThreads g ∧
    (∀ loc w, store_at g loc w → store_at g' loc w).
Proof.
  intros Hwf Hid Hes Hth Hmax.
  destruct (CreatePo_steps g e Hwf Hid Hth Hmax) as (g1&c&l&->&Hl&Hg1&Hs1&Hc).
  destruct Hwf as [Hok Hcore Hne Hmo Hac Hmode Hsnap].
  pose proof (grow_length _ _ _ _ Hg1) as Hlen.
  pose proof (core_grow _ _ _ _ Hg1 Hcore) as Hcore1.
  assert (Hmo1 : ∀ per x y, mo (push_event g1 (set_clock c e) per) x y → mo g x y).
  { intros per x y Hxy. destruct (grow_mo _ _ g g1 x y Hg1 Hxy) as [?|(ed&?&?&_)]; [done|congruence]. }
  assert (Hst : ∀ per loc w, store_at g loc w → store_at (push_event g1 (set_clock c e) per) loc w).
  { intros per loc w Hw. by apply push_store_at, (store_at_grow _ _ _ _ _ _ Hg1). }
  eexists _, c. split; [done|]. rewrite Hid. split_and!; [|..|by apply Hst].
  2:{ simpl. by rewrite lookup_app_r, Hlen, Nat.sub_diag by lia. }
  2:{ apply (grow_last _ _ _ _ Hg1). }
  2:{ apply (grow_nThreads _ _ _ _ Hg1). }
  rewrite <-Hlen. split.
  - eapply push_ok; simpl; [by rewrite Hlen|congruence|done| | |].
    + rewrite (grow_nThreads _ _ _ _ Hg1). exact Hc.
    + lia.
    + intros i o Ho. destruct (grow_event_inv _ _ _ _ _ _ Hg1 Ho) as (o'&es&c'&Ho'&->&Hc').
      apply lookup_lt_Some in Ho' as Hi. rewrite Hc' by lia.
      rewrite Hlen, (grow_nThreads _ _ _ _ Hg1). exact (ok_clock _ Hok _ _ Ho').
  - apply push_core; [by rewrite Hlen| |].
    + rewrite length_insert, (grow_nThreads _ _ _ _ Hg1). apply (core_threads _ _ Hcore).
    + intros t l' i Hl' Hi. apply list_lookup_insert_Some in Hl' as [(<-&<-&_)|[_ Hl']].
      * apply elem_of_app in Hi as [Hi|Hi]; [|apply list_elem_of_singleton in Hi; lia].
        pose proof (core_thread _ _ Hcore _ _ _ Hl Hi). lia.
      * pose proof (core_thread _ _ Hcore _ _ _ Hl' Hi). lia.
  - apply push_length.
  - intros t l' Hl'. simpl in Hl'. apply list_lookup_insert_Some in Hl' as [(<-&<-&_)|[_ Hl']];
      [by destruct l|by eapply Hne].
  - intros x y Hxy. apply Hmo1 in Hxy. destruct (Hmo x y Hxy) as (loc&Hx&Hy).
    split; [exists loc; split; by apply Hst|].
    apply store_at_lt in Hx as ?. apply store_at_lt in Hy as ?. lia.
  - exact (acyclic_sub _ _ (Hmo1 _) Hac).
  - intros loc Hloc. simpl in Hloc. rewrite (grow_last _ _ _ _ Hg1) in Hloc.
    apply (core_last _ _ Hcore), store_at_lt in Hloc. lia.
  - intros i o w [Ho|[-> _]]%push_lookup Hi Hr; [|done].
    pose proof (core_reads _ _ Hcore1 i o Ho) as Hres. apply lookup_lt_Some in Ho.
    apply (resolved_store g1 o w), store_at_lt in Hr; [lia|]. apply Hres. lia.
  - simpl. by rewrite (grow_mode _ _ _ _ Hg1).
  - simpl. destruct (grow_edges _ _ _ _ Hg1) as (new&_&_&->). by rewrite Hmode.
Qed.

(** ** Wiring the new event *)

Definition with_last g (m : gmap Z nat) : Graph T :=
  mkGraph (g_edges g) (g_events g) (eventsPerThread g) m (snapshotEdges g) (inSnapshotMode g)
    (nThreads g).

Lemma with_last_ok g m : ok g → ok (with_last g m).
Proof. intros [[Hid Hed Hout] Hc]. split; [split|]; done. Qed.

Lemma with_last_core cur g m :
  core cur g → (∀ loc w, m !! loc = Some w → store_at g loc w) → core cur (with_last g m).
Proof. intros [? ? Hr Hl] Hm. split; [done..|exact Hr|exact Hm]. Qed.

Lemma with_last_grow P cur g g' m : grow P cur g g' → grow P cur (with_last g m) (with_last g' m).
Proof. intros [? ? ? ? ? ? ?]. by split. Qed.

Lemma set_last_sc_with_last g loc i :
  set_last_sc g loc i = with_last g (<[loc := i]> (lastSeqCstWriteEvents g)).
Proof. done. Qed.

(** [graph_wf] without the snapshot state. *)
Record wired g : Prop := {
  wi_ok : ok g;
  wi_core : core (length (g_events g)) g;
  wi_threads t l : eventsPerThread g !! t = Some l → l ≠ [];
  wi_mo x y : mo g x y → ∃ loc, store_at g loc x ∧ store_at g loc y;
  wi_acyclic : acyclic (mo g);
}.

Lemma wired_wf g : wired g → inSnapshotMode g = false → snapshotEdges g = ∅ → graph_wf g.
Proof. intros []. by split. Qed.

Lemma wire P cur g g' m :
  core cur g → (∀ t l, eventsPerThread g !! t = Some l → l ≠ []) →
  (∀ x y, mo g x y → ∃ loc, store_at g loc x ∧ store_at g loc y) →
  grow P cur (with_last g m) g' → ok g' →
  (∀ ed, P ed → edge_type ed = MO →
     ∃ loc, store_at g loc (edge_from ed) ∧ store_at g loc (edge_to ed)) →
  acyclic (mo g') → (∀ e, g_events g !! cur = Some e → resolved g e) →
  (∀ loc w, m !! loc = Some w → store_at g loc w) →
  wired g'.
Proof.
  intros Hcore Hne Hmo Hg Hok HP Hac Hcur Hm.
  pose proof (core_grow _ _ _ _ Hg (with_last_core _ _ _ Hcore Hm)) as Hcore'.
  assert (Hst : ∀ loc w, store_at g loc w → store_at g' loc w).
  { intros loc w Hw. by apply (store_at_grow _ _ _ _ _ _ Hg). }
  split; [done| | | |done].
  - split; [apply Hcore'|apply Hcore'| |apply Hcore'].
    intros i e He _. destruct (decide (i = cur)) as [->|Hi]; [|by apply (core_reads _ _ Hcore' i)].
    destruct (grow_event_inv _ _ _ _ _ _ Hg He) as (e0&l&c&He0&->&_).
    eapply resolved_grow; [exact Hg|]. exact (Hcur e0 He0).
  - rewrite (grow_threads _ _ _ _ Hg). exact Hne.
  - intros x y Hxy. destruct (grow_mo _ _ _ _ _ _ Hg Hxy) as [Hxy'|(ed&HPe&Ht&<-&<-)].
    + destruct (Hmo x y Hxy') as (loc&?&?). eauto.
    + destruct (HP ed HPe Ht) as (loc&?&?). eauto.
Qed.

(** Edges into an event without successors close no cycle. *)
Lemma acyclic_sink {A} (R R' : relation A) c :
  acyclic R → (∀ x y, R x y → x ≠ c) → (∀ x y, R' x y → R x y ∨ (y = c ∧ x ≠ c)) → acyclic R'.
Proof.
  intros Hac Hc Hsub.
  assert (Hout : ∀ y, ¬ tc R' c y).
  { intros y Hy. inversion Hy as [? ? Hs|? ? ? Hs]; subst; apply Hsub in Hs as [Hs|[_ ?]];
      try done; by apply Hc in Hs. }
  assert (Htc : ∀ x y, tc R' x y → y = c ∨ tc R x y).
  { induction 1 as [x y Hxy|x z y Hxz Hzy IH].
    - apply Hsub in Hxy as [?|[-> _]]; [right; by apply tc_once|by left].
    - apply Hsub in Hxz as [Hxz|[-> _]]; [|by apply Hout in Hzy].
      destruct IH; [by left|right; by eapply tc_l]. }
  intros x Hx. destruct (Htc x x Hx) as [->|?]; [by apply Hout in Hx|by apply (Hac x)].
Qed.

(** The new store only gets incoming edges. *)
Definition into (cur : nat) g (loc : Z) (x y : nat) : Prop :=
  y = cur ∧ x ≠ cur ∧ store_at g loc x.

(** The first stage of a store: the edges and the table entry of a
    sequentially consistent one. *)
Lemma write_sc_stage cur g e :
  opened cur g → g_events g !! cur = Some e → (∃ v, ev_kind e = WriteEvent v) →
  ∃ g1, (if bool_decide (ev_order e = SeqCst)
         then g ← CreateScEdgeToEvent g cur;
              g ← CreateSeqCstConsistencyEdges g cur;
              Ret (set_last_sc g (ev_location e) cur)
         else Ret g) = Ret g1 ∧ ok g1 ∧
    lastSeqCstWriteEvents g1 =
      (if bool_decide (ev_order e = SeqCst)
       then <[ev_location e := cur]> (lastSeqCstWriteEvents g)
       else lastSeqCstWriteEvents g) ∧
    grow (mo_only (into cur g (ev_location e))) cur (with_last g (lastSeqCstWriteEvents g1)) g1.
Proof.
  intros Hop He [v Hv]. pose proof (op_ok _ _ Hop) as Hok. pose proof (op_core _ _ Hop) as Hcore.
  assert (Hw : ∀ l c, IsWriteOrRMW (set_edges l (set_clock c e)) = true).
  { intros l c. unfold IsWriteOrRMW, IsWrite, ev_type. simpl. by rewrite Hv. }
  case_bool_decide as Hsc; [|exists g; split_and!; [done..|by destruct g]].
  assert (Hiss : ∀ l c, IsSeqCst (set_edges l (set_clock c e)) = Ret true).
  { intros l c. unfold IsSeqCst, effective_order. simpl. rewrite Hv, Hsc. done. }
  destruct (ScEdge_adds (into cur g (ev_location e)) cur g e Hok Hcore He) as (g1&->&Hg1&Hok1).
  { specialize (Hiss (ev_edges e) (ev_clock e)). by rewrite set_edges_clock_self in Hiss. }
  simpl. destruct (grow_event _ _ _ _ Hg1 cur e He) as (l1&c1&He1&_).
  destruct (SeqCstConsistency_adds (into cur g (ev_location e)) cur g1 cur
              (set_edges l1 (set_clock c1 e)) Hok1) as (g2&->&Hg2&Hok2); try done.
  { by eapply core_grow. }
  { simpl. rewrite (grow_last _ _ _ _ Hg1). intros x Hx Hst. split_and!; [done| |].
    - intros ->. by apply (op_last _ _ Hop) in Hx.
    - by apply (store_at_grow _ _ _ _ _ _ Hg1). }
  simpl. eexists. split_and!; [done|by apply with_last_ok| |].
  - simpl. by rewrite (grow_last _ _ _ _ Hg2), (grow_last _ _ _ _ Hg1).
  - rewrite set_last_sc_with_last. simpl. apply with_last_grow. by etrans.
Qed.

Lemma write_rules_adds cur g e :
  opened cur g → g_events g !! cur = Some e → (∃ v, ev_kind e = WriteEvent v) →
  ∃ g', (g ← (if bool_decide (ev_order e = SeqCst)
              then g ← CreateScEdgeToEvent g cur;
                   g ← CreateSeqCstConsistencyEdges g cur;
                   Ret (set_last_sc g (ev_location e) cur)
              else Ret g);
         g ← CreateReadWriteCoherenceEdges g cur;
         CreateWriteWriteCoherenceEdges g cur) = Ret g' ∧
    ok g' ∧ lastSeqCstWriteEvents g' =
              (if bool_decide (ev_order e = SeqCst)
               then <[ev_location e := cur]> (lastSeqCstWriteEvents g)
               else lastSeqCstWriteEvents g) ∧
    grow (mo_only (into cur g (ev_location e))) cur (with_last g (lastSeqCstWriteEvents g')) g'.
Proof.
  intros Hop He [v Hv]. pose proof (op_ok _ _ Hop) as Hok. pose proof (op_core _ _ Hop) as Hcore.
  assert (Hw : ∀ l c, IsWriteOrRMW (set_edges l (set_clock c e)) = true).
  { intros l c. unfold IsWriteOrRMW, IsWrite, ev_type. simpl. by rewrite Hv. }
  assert (Hself : store_at g (ev_location e) cur).
  { exists e. split_and!; try done. unfold is_store, IsWrite, ev_type. by rewrite Hv. }
  destruct (write_sc_stage cur g e Hop He (ex_intro _ v Hv)) as (g1&->&Hok1&Hlast&Hg1). simpl.
  assert (Hcore1 : core cur g1).
  { eapply core_grow; [exact Hg1|]. apply with_last_core; [done|]. intros loc w Hlw.
    rewrite Hlast in Hlw. case_bool_decide; [|by apply (core_last _ _ Hcore)].
    apply lookup_insert_Some in Hlw as [[<- <-]|[_ Hlw]]; [done|by apply (core_last _ _ Hcore)]. }
  destruct (grow_event _ _ _ _ Hg1 cur e He) as (l1&c1&He1&_).
  destruct (ReadWriteCoherence_adds (into cur g (ev_location e)) cur g1 cur _ Hok1 Hcore1 He1
              (Hw _ _) eq_refl) as (g2&->&Hg2&Hok2).
  { intros j o x Ho Hj Hx Hst. destruct (grow_event_inv _ _ _ _ _ _ Hg1 Ho) as (o0&l&c&Ho0&->&_).
    split_and!; [done| |by apply (store_at_grow _ _ _ _ _ _ Hg1)].
    apply (op_reads _ _ Hop j o0 x Ho0 Hj). by destruct o0. }
  simpl. destruct (grow_event _ _ _ _ Hg2 cur _ He1) as (l2&c2&He2&_).
  destruct (WriteWriteCoherence_adds (into cur g (ev_location e)) cur g2 cur _ Hok2
              (core_grow _ _ _ _ Hg2 Hcore1) He2) as (g3&->&Hg3&Hok3).
  { apply Hw. }
  { intros x Hst Hx. split_and!; [done..|]. apply (store_at_grow _ _ _ _ _ _ Hg1).
    by apply (store_at_grow _ _ _ _ _ _ Hg2). }
  exists g3. assert (Hl3 : lastSeqCstWriteEvents g3 = lastSeqCstWriteEvents g1).
  { by rewrite (grow_last _ _ _ _ Hg3), (grow_last _ _ _ _ Hg2). }
  rewrite Hl3. split_and!; [done..|]. by do 2 (etrans; [done|]).
Qed.

(** [AddWriteEvent] keeps the graph well formed. *)
Lemma AddWriteEvent_ok g location threadId order value :
  graph_wf g → threadId < nThreads g →
  (Z.of_nat (length (g_events g)) < VectorClock.INT_MAX)%Z →
  ∃ g', AddWriteEvent g location threadId order value = Ret g' ∧ graph_wf g' ∧
    nThreads g' = nThreads g ∧ length (g_events g') = S (length (g_events g)) ∧
    (∃ we, g_events g' !! length (g_events g) = Some we ∧ ev_kind we = WriteEvent value ∧
       ev_location we = location ∧ ev_threadId we = threadId ∧ ev_order we = order) ∧
    (∀ loc w, store_at g loc w → store_at g' loc w) ∧
    (∀ loc, is_Some (lastSeqCstWriteEvents g !! loc) → is_Some (lastSeqCstWriteEvents g' !! loc)) ∧
    (order = SeqCst → is_Some (lastSeqCstWriteEvents g' !! location)).
Proof.
  intros Hwf Hth Hmax. unfold AddWriteEvent.
  set (e := new_event g location threadId order (WriteEvent value)).
  destruct (CreatePo_opened g e Hwf eq_refl eq_refl Hth Hmax) as (g1&c&->&Hop&He&Hl1&Hn1&Hst1).
  simpl in He, Hop. simpl (_ ≫= _).
  destruct (write_rules_adds _ g1 _ Hop He) as (g'&Heq&Hok'&Hlast&Hg'); [by eexists|].
  exists g'. split; [exact Heq|]. simpl in Hlast, Hg'.
  assert (Hself : store_at g1 location (length (g_events g))) by by eexists.
  assert (Hst : ∀ loc w, store_at g1 loc w → store_at g' loc w).
  { intros loc w Hw. by apply (store_at_grow _ _ _ _ _ _ Hg'). }
  split.
  { apply wired_wf.
    - eapply (wire _ _ g1); [apply Hop|apply Hop| |exact Hg'|done| | | |].
      + intros x y Hxy. by destruct (op_mo _ _ Hop x y Hxy).
      + intros ed HP Ht. destruct (HP Ht) as (Hto&_&Hx). exists location. by rewrite Hto.
      + apply (acyclic_sink (mo g1) _ (length (g_events g))); [apply Hop| |].
        * intros x y Hxy. by destruct (op_mo _ _ Hop x y Hxy) as (_&?&_).
        * intros x y Hxy. destruct (grow_mo _ _ _ _ _ _ Hg' Hxy) as [?|(ed&HP&Ht&<-&<-)]; [by left|].
          destruct (HP Ht) as (?&?&_). by right.
      + intros e' He'. rewrite He in He'. by injection He' as <-.
      + intros loc w. rewrite Hlast. case_bool_decide; [|apply (core_last _ _ (op_core _ _ Hop))].
        rewrite lookup_insert_Some. intros [[<- <-]|[_ Hw]]; [done|].
        by apply (core_last _ _ (op_core _ _ Hop)).
    - rewrite (grow_mode _ _ _ _ Hg'). apply (op_mode _ _ Hop).
    - destruct (grow_edges _ _ _ _ Hg') as (new&_&_&->). simpl. rewrite (op_mode _ _ Hop).
      apply (op_snapshot _ _ Hop). }
  rewrite (grow_nThreads _ _ _ _ Hg'), (grow_length _ _ _ _ Hg'). simpl.
  destruct (grow_event _ _ _ _ Hg' _ _ He) as (l&c'&He'&_).
  split_and!; [done|apply (op_cur _ _ Hop)|by eexists|auto| |].
  - intros loc Hs. rewrite Hlast, Hl1. case_bool_decide; [|done].
    rewrite lookup_insert_is_Some. destruct (decide (location = loc)); auto.
  - intros Hsc. rewrite Hlast, bool_decide_true by done. by rewrite lookup_insert_eq.
Qed.

End Invariant.
