(* ===== verification/GraphRead.v ===== *)
(** * Reading operations of the execution graph

    [TryCreateRfEdge] and the three operations that add a reading event
    (runtime/include/wmm/graph.h): on a well-formed graph they never fail an
    internal assertion, an accepted read-from edge leaves an acyclic
    modification order, and a rejected one is undone. *)
From stdpp Require Import base list relations gmap.
From Stdlib Require Import ZArith.
From S2P Require Import Prelude VectorClock WmmEvent Graph GraphConsistent GraphSteps.
From S2P Require Import GraphInvariant.

#[local] Arguments and_then : simpl never.

Section Read.
Context {T : Type} (ops : ValueOps T).
Implicit Types (g : Graph T) (e : Event T).

(** Edges between stores of one location. *)
Definition stores_of g (loc : Z) (x y : nat) : Prop := store_at g loc x ∧ store_at g loc y.

Lemma stores_of_grow P cur g g' loc x y :
  grow P cur g g' → stores_of g' loc x y ↔ stores_of g loc x y.
Proof. intros Hg. unfold stores_of. by rewrite !(store_at_grow _ _ _ _ _ _ Hg). Qed.

(** An event whose memory order can be asked for. *)
Definition ordered e : Prop := ∃ o, effective_order e = Ret o.

Lemma ordered_set e l c : ordered e → ordered (set_edges l (set_clock c e)).
Proof. by destruct e. Qed.

Lemma store_ordered e : is_store e = true → ordered e.
Proof.
  unfold is_store, ordered, effective_order, IsWrite, IsModifyRMW, ev_type.
  destruct (ev_kind e) as [| | |rf st| ]; simpl; try by eexists.
  intros Hst%bool_decide_eq_true. subst st. by eexists.
Qed.

Lemma IsSeqCst_total e : ordered e → ∃ b, IsSeqCst e = Ret b.
Proof. intros [o Ho]. unfold IsSeqCst. rewrite Ho. by eexists. Qed.

Lemma synchronizes_total w r : ordered w → ordered r → ∃ b, synchronizes w r = Ret b.
Proof.
  intros [ow Hw] [o Hr].
  unfold synchronizes, IsAtLeastAcquire, IsAtLeastRelease, IsSeqCst. rewrite Hw, Hr. simpl.
  apply and_then_total. intros _. apply and_then_total. intros _.
  unfold and_then. simpl. destruct (bool_decide (o = SeqCst)); by eexists.
Qed.

Section Rules.
Context (cur write : nat) (loc : Z).

Lemma read_rules_adds g0 g :
  ok g → core cur g → reads g write cur loc →
  (∀ e, g_events g !! cur = Some e → ordered e) →
  (∀ x, store_at g loc x → stores_of g0 loc x write) →
  adds (mo_only (stores_of g0 loc)) cur g (read_rules g write cur).
Proof.
  intros Hok Hcore Hreads Hord HQ. unfold read_rules.
  pose proof Hreads as (w&r&Hw&Hr&_). rewrite (event_ret _ _ _ Hr). simpl.
  destruct (IsSeqCst_total r (Hord r Hr)) as [sc Hsc]. rewrite Hsc. simpl.
  apply adds_bind; [destruct sc; [|by apply adds_ret]; apply adds_bind; [by eapply ScEdge_adds|]|].
  - intros g1 Hg1 Hok1. eapply SeqCstReadWriteCoherence_adds; [done|by eapply core_grow|
      by eapply reads_grow|]. intros x Hx _. apply HQ. by apply (store_at_grow _ _ _ _ _ _ Hg1).
  - intros g1 Hg1 Hok1. apply adds_bind.
    + eapply WriteReadCoherence_adds; [done|by eapply core_grow|by eapply reads_grow|].
      intros x Hx _. apply HQ. by apply (store_at_grow _ _ _ _ _ _ Hg1).
    + intros g2 Hg2 Hok2. assert (Hg : grow (mo_only (stores_of g0 loc)) cur g g2) by by etrans.
      eapply ReadReadCoherence_adds; [done|by eapply core_grow|by eapply reads_grow|done|].
      intros x Hx _. apply HQ. by apply (store_at_grow _ _ _ _ _ _ Hg).
Qed.

(** The first part of [rmw_rules], up to the update of the last
    sequentially consistent store. *)
Lemma rmw_rules_first g0 g r :
  ok g → core cur g → reads g write cur loc → g_events g !! cur = Some r →
  IsModifyRMW r = true →
  (∀ x y, mo g x y → ∃ l, store_at g l x ∧ store_at g l y) →
  (∀ x y, stores_of g loc x y → stores_of g0 loc x y) →
  adds (mo_only (stores_of g0 loc)) cur g
    (g ← CreateRmwConsistencyEdges g write cur; CreateRmwAtomicityEdges g write cur).
Proof.
  intros Hok Hcore Hreads Hr Hm Hmo HQ.
  assert (Hcur : store_at g loc cur).
  { destruct Hreads as (w&r'&_&Hr'&_&_&_&Hl&_). exists r. rewrite Hr in Hr'. injection Hr' as <-.
    unfold is_store. by rewrite Hm, orb_true_r. }
  assert (Hwr : store_at g loc write) by (destruct Hreads as (w&?&?&_&?&_&?&_); by exists w).
  apply adds_bind; [eapply RmwConsistency_adds; eauto; apply HQ; by split|].
  intros g1 Hg1 Hok1. destruct (grow_event _ _ _ _ Hg1 _ _ Hr) as (l&c&Hr1&_).
  eapply RmwAtomicity_adds; [done|by eapply reads_grow|done|by destruct r|].
  intros y Hy _. destruct (grow_mo _ _ _ _ _ _ Hg1 Hy) as [Hy'|(ed&HP&Ht&_&<-)].
  - destruct (Hmo _ _ Hy') as (l'&Hw'&Hy''). apply HQ. split; [done|].
    destruct Hwr as (we&Hwe&_&Hloc), Hw' as (we'&Hwe'&_&Hloc'). by simplify_eq.
  - destruct (HQ cur cur) as [? _]; [by split|]. destruct (HP Ht). by split.
Qed.

(** The rules for a sequentially consistent read-modify-write. *)
Lemma rmw_rules_sc g0 g r :
  ok g → core cur g → reads g write cur loc → g_events g !! cur = Some r →
  IsModifyRMW r = true → IsSeqCst r = Ret true →
  (∀ x y, stores_of g loc x y → stores_of g0 loc x y) →
  adds (mo_only (stores_of g0 loc)) cur g
    (g ← CreateScEdgeToEvent g cur;
     g ← CreateSeqCstReadWriteCoherenceEdges g write cur;
     CreateSeqCstConsistencyEdges g cur).
Proof.
  intros Hok Hcore Hreads Hr Hm Hsc HQ.
  pose proof Hreads as (w&r'&Hw&Hr'&Hs&Hrr&Hlw&Hlr&_). rewrite Hr in Hr'. injection Hr' as <-.
  assert (Hcur : store_at g loc cur).
  { exists r. unfold is_store. by rewrite Hm, orb_true_r. }
  assert (Hwr : store_at g loc write) by by exists w.
  assert (Hall : ∀ g', grow (mo_only (stores_of g0 loc)) cur g g' →
            ∀ x y, store_at g' loc x → store_at g loc y → stores_of g0 loc x y).
  { intros g' Hg x y Hx Hy. apply HQ. split; [|done]. by apply (store_at_grow _ _ _ _ _ _ Hg). }
  apply adds_bind; [by eapply ScEdge_adds|]. intros g1 Hg1 Hok1. apply adds_bind.
  - eapply SeqCstReadWriteCoherence_adds; [done|by eapply core_grow|by eapply reads_grow|].
    intros x Hx _. by eapply Hall.
  - intros g2 Hg2 Hok2. assert (Hg : grow (mo_only (stores_of g0 loc)) cur g g2) by by etrans.
    destruct (grow_event _ _ _ _ Hg _ _ Hr) as (l&c&Hr2&_).
    eapply SeqCstConsistency_adds; [done|by eapply core_grow|done| | |].
    + unfold IsWriteOrRMW, IsRMW, IsModifyRMW, ev_type in *. simpl.
      by destruct (ev_kind r); rewrite ?orb_true_r.
    + by destruct r.
    + simpl. rewrite Hlr. intros x _ Hx. by eapply Hall.
Qed.

(** The rules after that update. *)
Lemma rmw_rules_rest g0 g r :
  ok g → core cur g → reads g write cur loc → g_events g !! cur = Some r →
  IsModifyRMW r = true →
  (∀ x y, stores_of g loc x y → stores_of g0 loc x y) →
  adds (mo_only (stores_of g0 loc)) cur g
    (g ← CreateWriteReadCoherenceEdges g write cur;
     g ← CreateReadReadCoherenceEdges g write cur;
     g ← CreateReadWriteCoherenceEdges g cur;
     CreateWriteWriteCoherenceEdges g cur).
Proof.
  intros Hok Hcore Hreads Hr Hm HQ.
  pose proof Hreads as (w&r'&Hw&Hr'&Hs&Hrr&Hlw&Hlr&_). rewrite Hr in Hr'. injection Hr' as <-.
  assert (Hcur : store_at g loc cur).
  { exists r. unfold is_store. by rewrite Hm, orb_true_r. }
  assert (Hwr : store_at g loc write) by by exists w.
  assert (Hrmw : ∀ l c, IsWriteOrRMW (set_edges l (set_clock c r)) = true).
  { intros l c. unfold IsWriteOrRMW, IsRMW, IsModifyRMW, ev_type in *. simpl.
    by destruct (ev_kind r); rewrite ?orb_true_r. }
  assert (Hall : ∀ g', grow (mo_only (stores_of g0 loc)) cur g g' →
            ∀ x y, store_at g' loc x → store_at g loc y → stores_of g0 loc x y).
  { intros g' Hg x y Hx Hy. apply HQ. split; [|done]. by apply (store_at_grow _ _ _ _ _ _ Hg). }
  apply adds_bind.
  { eapply WriteReadCoherence_adds; try done. intros x Hx _. by eapply (Hall g). }
  intros g1 Hg1 Hok1. apply adds_bind.
  { eapply ReadReadCoherence_adds; [done|by eapply core_grow|by eapply reads_grow|done|].
    intros x Hx _. by eapply Hall. }
  intros g2 Hg2 Hok2. assert (Hg02 : grow (mo_only (stores_of g0 loc)) cur g g2) by by etrans.
  destruct (grow_event _ _ _ _ Hg02 _ _ Hr) as (l2&c2&Hr2&_). apply adds_bind.
  { eapply ReadWriteCoherence_adds; [done|by eapply core_grow|done|apply Hrmw|done|].
    simpl. rewrite Hlr. intros j o x _ _ _ Hx. by eapply Hall. }
  intros g3 Hg3 Hok3. assert (Hg03 : grow (mo_only (stores_of g0 loc)) cur g g3) by by etrans.
  destruct (grow_event _ _ _ _ Hg03 _ _ Hr) as (l3&c3&Hr3&_).
  eapply WriteWriteCoherence_adds; [done|by eapply core_grow|done|apply Hrmw|].
  simpl. rewrite Hlr. intros x Hx _. by eapply Hall.
Qed.

(** Both kinds of rules, for a read event [r] that has its store. *)
Definition last_updated g g' : Prop :=
  lastSeqCstWriteEvents g' = lastSeqCstWriteEvents g ∨
  lastSeqCstWriteEvents g' = <[loc := cur]> (lastSeqCstWriteEvents g).

Lemma rmw_rules_ok g r :
  ok g → core cur g → reads g write cur loc → g_events g !! cur = Some r →
  IsModifyRMW r = true → ordered r →
  (∀ x y, mo g x y → ∃ l, store_at g l x ∧ store_at g l y) →
  ∃ g', rmw_rules g write cur = Ret g' ∧ ok g' ∧ last_updated g g' ∧
    grow (mo_only (stores_of g loc)) cur (with_last g (lastSeqCstWriteEvents g')) g'.
Proof.
  intros Hok Hcore Hreads Hr Hm Hord Hmo. unfold rmw_rules.
  rewrite (event_ret _ _ _ Hr). simpl. rewrite Hm. simpl.
  destruct (rmw_rules_first g g r) as (g1&H1&Hg1&Hok1); try done.
  apply outcome_bind_ret in H1 as (ga&->&H1). simpl. rewrite H1. simpl.
  destruct (IsSeqCst_total r Hord) as [sc Hsc]. rewrite Hsc. simpl.
  destruct (grow_event _ _ _ _ Hg1 _ _ Hr) as (l1&c1&Hr1&_).
  assert (Hloc : ev_location r = loc).
  { destruct Hreads as (w&r'&_&Hr'&_&_&_&Hl&_). rewrite Hr in Hr'. by injection Hr' as <-. }
  assert (Hmid : ∃ g2, (if sc then g ← CreateScEdgeToEvent g1 cur;
                                   g ← CreateSeqCstReadWriteCoherenceEdges g write cur;
                                   g ← CreateSeqCstConsistencyEdges g cur;
                                   Ret (set_last_sc g (ev_location r) cur)
                        else Ret g1) = Ret g2 ∧ ok g2 ∧ last_updated g g2 ∧
            grow (mo_only (stores_of g loc)) cur (with_last g (lastSeqCstWriteEvents g2)) g2).
  { destruct sc.
    - destruct (rmw_rules_sc g g1 (set_edges l1 (set_clock c1 r))) as (g2&H2&Hg2&Hok2);
        [done|by eapply core_grow|by eapply reads_grow|done|by destruct r|by destruct r| |].
      { intros x y. by rewrite (stores_of_grow _ _ _ _ _ _ _ Hg1). }
      apply outcome_bind_ret in H2 as (gb&->&H2). simpl.
      apply outcome_bind_ret in H2 as (gc&->&H2). simpl. rewrite H2. simpl.
      eexists. split_and!; [done|by apply with_last_ok| |].
      + right. simpl. by rewrite Hloc, (grow_last _ _ _ _ Hg2), (grow_last _ _ _ _ Hg1).
      + rewrite set_last_sc_with_last. simpl. apply with_last_grow. by etrans.
    - exists g1. split_and!; [done..|left; apply (grow_last _ _ _ _ Hg1)|].
      rewrite (grow_last _ _ _ _ Hg1). by destruct g. }
  destruct Hmid as (g2&->&Hok2&Hlast&Hg2). simpl.
  destruct (grow_event _ _ _ _ Hg2 _ _ Hr) as (l2&c2&Hr2&_).
  assert (Hcur : store_at g loc cur).
  { exists r. unfold is_store. by rewrite Hm, orb_true_r. }
  assert (Hcore2 : core cur g2).
  { eapply core_grow; [exact Hg2|]. apply with_last_core; [done|]. intros loc' w Hw.
    destruct Hlast as [Hl|Hl]; rewrite Hl in Hw; [by apply (core_last _ _ Hcore)|].
    apply lookup_insert_Some in Hw as [[<- <-]|[_ Hw]]; [done|by apply (core_last _ _ Hcore)]. }
  destruct (rmw_rules_rest g g2 (set_edges l2 (set_clock c2 r))) as (g3&H3&Hg3&Hok3);
    [done|done|by eapply (reads_grow _ _ (with_last g _))|done|by destruct r| |].
  { intros x y. by rewrite (stores_of_grow _ _ _ _ _ _ _ Hg2). }
  exists g3. unfold last_updated. rewrite (grow_last _ _ _ _ Hg3). split_and!; [done..|by etrans].
Qed.

Lemma rules_ok g r :
  ok g → core cur g → reads g write cur loc → g_events g !! cur = Some r →
  (IsRead r || IsReadRWM r || IsModifyRMW r) = true → ordered r →
  (∀ x y, mo g x y → ∃ l, store_at g l x ∧ store_at g l y) →
  ∃ g', (if IsRead r || IsReadRWM r then read_rules g write cur else rmw_rules g write cur) = Ret g' ∧
    ok g' ∧ (lastSeqCstWriteEvents g' = lastSeqCstWriteEvents g ∨
             lastSeqCstWriteEvents g' = <[loc := cur]> (lastSeqCstWriteEvents g) ∧
             store_at g loc cur) ∧
    grow (mo_only (stores_of g loc)) cur (with_last g (lastSeqCstWriteEvents g')) g'.
Proof.
  intros Hok Hcore Hreads Hr Hk Hord Hmo. destruct (IsRead r || IsReadRWM r).
  - assert (Hw : store_at g loc write) by (destruct Hreads as (w&?&?&_&?&_&?&_); by exists w).
    destruct (read_rules_adds g g) as (g'&Heq&Hg&Hok'); try done.
    { intros e He. rewrite Hr in He. by injection He as <-. }
    exists g'. rewrite (grow_last _ _ _ _ Hg). split_and!; [done..|by left|by destruct g].
  - destruct (rmw_rules_ok g r) as (g'&Heq&Hok'&Hl&Hg); try done.
    exists g'. split_and!; [done..| |done]. destruct Hl; [by left|right]. split; [done|].
    exists r. simpl in Hk. unfold is_store. rewrite Hk, orb_true_r. split_and!; try done.
    destruct Hreads as (w&r'&_&Hr'&_&_&_&Hl&_). rewrite Hr in Hr'. by injection Hr' as <-.
Qed.

End Rules.

End Read.
