(* ===== verification/GraphTry.v ===== *)
(** * Trying a read-from edge

    [TryCreateRfEdge] and the operations built on it
    (runtime/include/wmm/graph.h). *)
From stdpp Require Import base list relations gmap.
From Stdlib Require Import ZArith.
From S2P Require Import Prelude VectorClock WmmEvent Graph GraphConsistent GraphSteps.
From S2P Require Import GraphInvariant GraphRead.

#[local] Arguments and_then : simpl never.

Section Try.
Context {T : Type} (ops : ValueOps T).
(** [operator==] of the value type is reflexive. *)
Context (v_eqb_refl : ∀ v, v_eqb ops v v = true).
Implicit Types (g : Graph T) (e : Event T).

(** ** The reading event before and after it has its store *)

(** No store chosen. *)
Definition unresolved (k : EventKind T) : Prop :=
  match k with
  | ReadEvent None => True
  | CASRMWEvent None STATE_UNSET init cached expected _ _ => cached = init ∧ expected = init
  | UnconditionalRMWEvent None STATE_UNSET _ _ _ _ => True
  | _ => False
  end.

(** The arithmetic of the event is defined on [v]; and how it fails where it
    is not, as signed overflow does. *)
Definition arith_defined (k : EventKind T) (v : T) : Prop :=
  match k with
  | UnconditionalRMWEvent _ _ op operand _ _ => ∃ v', ApplyAtomicRmwOp ops op v operand = Ret v'
  | _ => True
  end.
Definition arith_fails {A} (k : EventKind T) (v : T) (o : outcome A) : Prop :=
  match k with
  | UnconditionalRMWEvent _ _ op operand _ _ =>
      (∀ v', ApplyAtomicRmwOp ops op v operand ≠ Ret v') ∧ o = (ApplyAtomicRmwOp ops op v operand ≫= λ _, UB)
  | _ => False
  end.

Lemma arith_cases {A} k v : arith_defined k v ∨ ∃ o : outcome A, arith_fails k v o ∧ ∀ r, o ≠ Ret r.
Proof.
  destruct k as [| | | |rf st op operand ca wr]; try by left. simpl.
  destruct (ApplyAtomicRmwOp ops op v operand) as [v'| | | |]; [left; by eexists|right; eexists; split; [by split|done]..].
Qed.

(** A failure goes through the rest of the computation. *)
Lemma arith_fails_bind {A C} k v (o : outcome A) (f : A → outcome C) :
  arith_fails k v o → arith_fails k v (o ≫= f).
Proof.
  destruct k as [| | | |rf st op operand ca wr]; try done. intros [Hn ->]. split; [done|].
  destruct (ApplyAtomicRmwOp ops op v operand) as [v'| | | |]; [by destruct (Hn v')|done..].
Qed.

(** The event has read the value [v] from the store [w]. A compare-exchange
    succeeds exactly when [v] is the expected value, and otherwise puts [v]
    into [*expected]. *)
Definition reading (k : EventKind T) (w : nat) (v : T) : Prop :=
  match k with
  | ReadEvent rf => rf = Some w
  | CASRMWEvent rf st init _ expected _ _ =>
      rf = Some w ∧
      if v_eqb ops v init then st = STATE_MODIFY ∧ expected = init
      else st = STATE_READ ∧ expected = v
  | UnconditionalRMWEvent rf st op operand cached written =>
      rf = Some w ∧ st = STATE_MODIFY ∧ cached = v ∧ ApplyAtomicRmwOp ops op v operand = Ret written
  | _ => False
  end.

(** The two kinds have the same fixed part. *)
Definition asks (k k' : EventKind T) : Prop :=
  match k, k' with
  | ReadEvent _, ReadEvent _ => True
  | CASRMWEvent _ _ init _ _ desired fo, CASRMWEvent _ _ init' _ _ desired' fo' =>
      init = init' ∧ desired = desired' ∧ fo = fo'
  | UnconditionalRMWEvent _ _ op operand _ _, UnconditionalRMWEvent _ _ op' operand' _ _ =>
      op = op' ∧ operand = operand'
  | _, _ => False
  end.

(** The same request: only the cached values of an unconditional
    read-modify-write may differ. *)
Definition same_request (k k' : EventKind T) : Prop :=
  match k, k' with
  | UnconditionalRMWEvent rf st op operand _ _, UnconditionalRMWEvent rf' st' op' operand' _ _ =>
      rf = rf' ∧ st = st' ∧ op = op' ∧ operand = operand'
  | _, _ => k = k'
  end.

#[export] Instance same_request_equiv : Equivalence same_request.
Proof.
  split.
  - by intros [].
  - intros [] []; simpl; intuition congruence.
  - intros [] [] []; simpl; intuition congruence.
Qed.

Lemma same_request_asks k k' k'' : same_request k k' → asks k' k'' → asks k k''.
Proof. destruct k, k'; simpl; try done; destruct k''; simpl; intuition congruence. Qed.

Lemma GetWrittenValue_total e : is_store e = true → ∃ v, GetWrittenValue e = Ret v.
Proof.
  intros Hs. unfold GetWrittenValue. rewrite (store_write_or_rmw e Hs). simpl.
  unfold is_store, IsWrite, IsModifyRMW, ev_type in Hs.
  destruct (ev_kind e); simpl in *; try done; [by eexists|..];
    apply bool_decide_eq_true in Hs as ->; by eexists.
Qed.

Lemma SetReadFrom_fails e write w v (o : outcome (Event T)) :
  unresolved (ev_kind e) → is_store w = true → GetWrittenValue w = Ret v → arith_fails (ev_kind e) v o →
  SetReadFromEvent ops e (Some (write, w)) = o.
Proof.
  intros Hu Hs Hv Hf. unfold SetReadFromEvent. rewrite (store_write_or_rmw w Hs).
  destruct (ev_kind e) as [| | | |rf st op operand cv wv]; try done. destruct Hf as [Hn ->]. simpl. rewrite Hv. simpl.
  destruct (ApplyAtomicRmwOp ops op v operand) as [v'| | | |]; [by destruct (Hn v')|done..].
Qed.

Lemma SetReadFrom_ok e write w v :
  unresolved (ev_kind e) → is_store w = true → GetWrittenValue w = Ret v → arith_defined (ev_kind e) v →
  ∃ k, SetReadFromEvent ops e (Some (write, w)) = Ret (set_kind k e) ∧ reading k write v ∧
    asks (ev_kind e) k ∧
    ∀ e', ev_kind e' = k →
      ∃ k', SetReadFromEvent ops e' None = Ret (set_kind k' e') ∧
        same_request (ev_kind e) k' ∧ unresolved k'.
Proof.
  intros Hu Hs Hv Hd. unfold SetReadFromEvent. rewrite (store_write_or_rmw w Hs).
  destruct (ev_kind e) as [| |[]|[] [] init cached expected des fo|[] [] op operand cv wv];
    simpl in Hu; try done.
  - eexists. split_and!; [done..|]. intros e' ->. simpl. by eexists.
  - destruct Hu as [-> ->]. simpl. rewrite Hv. simpl. rewrite v_eqb_refl. simpl.
    eexists. split_and!; [done|by destruct (v_eqb ops v init) eqn:E; simpl; rewrite E|by destruct (v_eqb ops v init)|].
    intros e' ->. destruct (v_eqb ops v init); simpl; by eexists.
  - destruct Hd as [v' Hv']. simpl. rewrite Hv. simpl. rewrite Hv'. simpl.
    eexists. split_and!; [done..|]. intros e' ->. simpl. by eexists.
Qed.

Lemma reading_facts e w v :
  reading (ev_kind e) w v →
  GetReadFromEvent e = Ret (Some w) ∧ IsReadOrRMW e = true ∧ ordered e ∧
  (IsRead e || IsReadRWM e || IsModifyRMW e) = true.
Proof.
  unfold GetReadFromEvent, IsReadOrRMW, IsRead, IsRMW, IsReadRWM, IsModifyRMW, ordered,
    effective_order, ev_type.
  destruct (ev_kind e) as [| |rf|rf st init ca ex de fo|rf st]; simpl; try done.
  - intros ->. split_and!; try done; by eexists.
  - intros [-> Hst]. destruct (v_eqb ops v init), Hst as [-> _]; split_and!; try done; by eexists.
  - intros (->&->&_). split_and!; try done; by eexists.
Qed.

Lemma reading_resolved g e w v :
  reading (ev_kind e) w v → store_at g (ev_location e) w → resolved g e.
Proof.
  unfold resolved. destruct (ev_kind e) as [| |rf|rf st init ca ex de fo|rf st]; simpl; try done.
  - intros -> ?. eauto.
  - intros [-> Hst] ?. split; [|eauto]. by destruct (v_eqb ops v init), Hst as [-> _].
  - intros (->&->&_) ?. eauto.
Qed.

Lemma unresolved_not_store e : unresolved (ev_kind e) → is_store e = false.
Proof.
  unfold is_store, IsWrite, IsModifyRMW, ev_type.
  by destruct (ev_kind e) as [| |[]|[] []|[] []].
Qed.

(** ** Discarding *)

Lemma drop_while_app {A} (p : A → bool) (l1 l2 : list A) :
  (∀ x, x ∈ l1 → p x = true) → (∀ x, x ∈ l2 → p x = false) → drop_while p (l1 ++ l2) = l2.
Proof.
  intros H1 H2. induction l1 as [|x l1 IH]; simpl.
  - destruct l2 as [|x l2]; simpl; [done|]. by rewrite (H2 x) by by left.
  - rewrite (H1 x) by by left. apply IH. intros y ?. apply H1. by right.
Qed.

Lemma pop_snapshot_app {A} (snap : gset nat) (f : A → nat) l1 l2 :
  (∀ x, x ∈ l1 → f x ∉ snap) → (∀ x, x ∈ l2 → f x ∈ snap) → pop_snapshot snap f (l1 ++ l2) = l1.
Proof.
  intros H1 H2. unfold pop_snapshot. rewrite reverse_app, drop_while_app, reverse_involutive; [done|..].
  - intros x Hx. rewrite elem_of_reverse in Hx. by apply bool_decide_true, H2.
  - intros x Hx. rewrite elem_of_reverse in Hx. by apply bool_decide_false, H1.
Qed.

Lemma outgoing_app es es' i : outgoing (es ++ es') i = outgoing es i ++ outgoing es' i.
Proof. unfold outgoing. by rewrite filter_app, fmap_app. Qed.

Lemma outgoing_elem es i k : k ∈ outgoing es i → k ∈ edge_id <$> es.
Proof.
  unfold outgoing. intros (ed&->&[_ Hin]%list_elem_of_filter)%list_elem_of_fmap.
  by apply list_elem_of_fmap_2.
Qed.

(** Discarding removes exactly the edges added since the snapshot. *)
Lemma Discard_restores n n' g g' new :
  struct_wf n g → struct_wf n' g' → g_edges g' = g_edges g ++ new →
  snapshotEdges g' = list_to_set (edge_id <$> new) → inSnapshotMode g' = true →
  DiscardSnapshot g' =
    Ret (mkGraph (g_edges g) (imap (λ i e, set_edges (outgoing (g_edges g) i) e) (g_events g'))
           (eventsPerThread g') (lastSeqCstWriteEvents g') ∅ false (nThreads g')).
Proof.
  intros Hs Hs' Hes Hsnap Hmode. unfold DiscardSnapshot. rewrite Hmode. simpl.
  assert (Hold : ∀ k, k ∈ edge_id <$> g_edges g → k ∉ snapshotEdges g').
  { intros k (ed&->&Hin)%list_elem_of_fmap. apply list_elem_of_lookup in Hin as [j Hj].
    rewrite Hsnap, elem_of_list_to_set. intros (ed'&Heq&Hin')%list_elem_of_fmap.
    apply list_elem_of_lookup in Hin' as [j' Hj'].
    destruct (sw_edge _ _ Hs j ed Hj) as [Hid _]. apply lookup_lt_Some in Hj.
    destruct (sw_edge _ _ Hs' (length (g_edges g) + j') ed') as [Hid' _]; [|lia].
    rewrite Hes, lookup_app_r by lia. by replace (length (g_edges g) + j' - length (g_edges g)) with j' by lia. }
  assert (Hnew : ∀ k, k ∈ edge_id <$> new → k ∈ snapshotEdges g').
  { intros k Hk. by rewrite Hsnap, elem_of_list_to_set. }
  f_equal. f_equal.
  - rewrite Hes. apply pop_snapshot_app; intros x Hx; [apply Hold|apply Hnew];
      by apply list_elem_of_fmap_2.
  - apply list_eq. intros i. rewrite list_lookup_fmap, list_lookup_imap.
    destruct (g_events g' !! i) as [e|] eqn:He; simpl; [|done]. do 2 f_equal.
    rewrite (sw_out _ _ Hs' i e He), Hes, outgoing_app. apply pop_snapshot_app; simpl; intros k Hk.
    + by eapply Hold, outgoing_elem.
    + by eapply Hnew, outgoing_elem.
Qed.

(** ** Since the snapshot *)

Record since (cur : nat) g g' : Prop := {
  since_length : length (g_events g') = length (g_events g);
  since_event i e : g_events g !! i = Some e → i ≠ cur →
    ∃ l, g_events g' !! i = Some (set_edges l e);
  since_cur e : g_events g !! cur = Some e →
    ∃ l c k, g_events g' !! cur = Some (set_edges l (set_clock c (set_kind k e)));
  since_threads : eventsPerThread g' = eventsPerThread g;
  since_nThreads : nThreads g' = nThreads g;
  since_edges : ∃ new, g_edges g' = g_edges g ++ new ∧
    snapshotEdges g' = list_to_set (edge_id <$> new);
  since_mode : inSnapshotMode g' = true;
}.

Lemma since_grow P cur g g1 g2 m :
  since cur g g1 → grow P cur (with_last g1 m) g2 → since cur g g2.
Proof.
  intros [Hl He Hc Ht Hn (n1&Hed&Hsn) Hm] Hg. split.
  - by rewrite (grow_length _ _ _ _ Hg).
  - intros i e Hi Hne. destruct (He i e Hi Hne) as [l1 H1].
    destruct (grow_event _ _ _ _ Hg i _ H1) as (l&c&H2&Hc2). exists l. rewrite H2, Hc2 by done.
    by destruct e.
  - intros e Hi. destruct (Hc e Hi) as (l1&c1&k1&H1).
    destruct (grow_event _ _ _ _ Hg cur _ H1) as (l&c&H2&_). exists l, c, k1. by destruct e.
  - by rewrite (grow_threads _ _ _ _ Hg).
  - by rewrite (grow_nThreads _ _ _ _ Hg).
  - destruct (grow_edges _ _ _ _ Hg) as (n2&Hed2&_&Hsn2). exists (n1 ++ n2).
    rewrite Hed2. simpl. rewrite Hed, app_assoc. split; [done|]. rewrite Hsn2. simpl.
    by rewrite Hm, Hsn, fmap_app, list_to_set_app_L.
  - by rewrite (grow_mode _ _ _ _ Hg).
Qed.

Lemma since_set_kind cur g g1 e1 k :
  since cur g g1 → g_events g1 !! cur = Some e1 → since cur g (set_event g1 cur (set_kind k e1)).
Proof.
  intros [Hl He Hc Ht Hn Hed Hm] H1. split; simpl; try done.
  - by rewrite length_insert.
  - intros i e Hi Hne. rewrite list_lookup_insert_ne by done. eauto.
  - intros e Hi. rewrite list_lookup_insert_eq by (by eapply lookup_lt_Some).
    destruct (Hc e Hi) as (l&c&k1&H2). rewrite H1 in H2. injection H2 as ->.
    exists l, c, k. by destruct e.
Qed.

(** What a discarded attempt leaves: the graph before it, up to the clock
    and the kind of the reading event. *)
Lemma since_discard n cur g g' r :
  ok g → struct_wf n g' → since cur g g' → g_events g !! cur = Some r →
  snapshotEdges g = ∅ → inSnapshotMode g = false →
  ∃ c k, DiscardSnapshot g' =
    Ret (with_last (set_event g cur (set_clock c (set_kind k r))) (lastSeqCstWriteEvents g')) ∧
    ∃ l, g_events g' !! cur = Some (set_edges l (set_clock c (set_kind k r))).
Proof.
  intros Hok Hs' [Hl He Hc Ht Hn (new&Hed&Hsn) Hm] Hr Hsnap Hmode.
  destruct (Hc r Hr) as (l&c&k&Hr'). exists c, k. split; [|eauto].
  rewrite (Discard_restores _ _ g g' new (ok_struct _ Hok) Hs' Hed Hsn Hm).
  unfold with_last, set_event. simpl. rewrite Ht, Hn, Hsnap, Hmode. do 2 f_equal.
  apply list_eq. intros i. rewrite list_lookup_imap.
  pose proof (ok_struct _ Hok) as Hs. destruct (decide (cur = i)) as [<-|Hne].
  - rewrite Hr', list_lookup_insert_eq by (by eapply lookup_lt_Some). simpl. f_equal.
    rewrite <-(sw_out _ _ Hs cur r Hr). by destruct r.
  - rewrite list_lookup_insert_ne by done. destruct (g_events g !! i) as [e|] eqn:Hi.
    + destruct (He i e Hi ltac:(congruence)) as [l' ->]. simpl. f_equal.
      rewrite <-(sw_out _ _ Hs i e Hi). by destruct e.
    + apply lookup_ge_None in Hi. rewrite <-Hl in Hi. by apply lookup_ge_None in Hi as ->.
Qed.

(** ** Choosing the store *)

(** The graph in which [cur] has been given its store, edges apart. *)
Record chosen (cur write : nat) (v : T) g g' (r1 : Event T) : Prop := {
  ch_ok : ok g';
  ch_core : core cur g';
  ch_cur : g_events g' !! cur = Some r1;
  ch_reading : reading (ev_kind r1) write v;
  ch_written : ∃ w, g_events g' !! write = Some w ∧ GetWrittenValue w = Ret v;
  ch_asks r : g_events g !! cur = Some r → asks (ev_kind r) (ev_kind r1);
  ch_location : ∀ r, g_events g !! cur = Some r → ev_location r1 = ev_location r;
  ch_mo x y : mo g' x y → mo g x y;
  ch_store loc w : store_at g loc w → w ≠ cur → store_at g' loc w;
  ch_since : since cur g g';
  ch_last : lastSeqCstWriteEvents g' = lastSeqCstWriteEvents g;
}.

Lemma store_at_set_event g cur e' loc w :
  w ≠ cur → store_at g loc w → store_at (set_event g cur e') loc w.
Proof.
  intros Hne (we&Hw&?). exists we. split; [|done]. simpl. by rewrite list_lookup_insert_ne.
Qed.

Lemma resolved_set_event g cur e' e :
  (∀ w, GetReadFromEvent e = Ret (Some w) → w ≠ cur) →
  resolved g e → resolved (set_event g cur e') e.
Proof.
  unfold resolved, GetReadFromEvent. intros Hne.
  destruct (ev_kind e); try done;
    [intros (w&->&Hw)|intros (?&w&->&Hw)|intros (?&w&->&Hw)]; repeat split; try done;
    exists w; split; try done; apply store_at_set_event; auto.
Qed.

(** Opening the snapshot changes nothing else. *)
Lemma start_snapshot_ok cur g :
  opened cur g →
  let gs := mkGraph (g_edges g) (g_events g) (eventsPerThread g) (lastSeqCstWriteEvents g)
              (snapshotEdges g) true (nThreads g) in
  StartSnapshot g = Ret gs ∧ ok gs ∧ core cur gs ∧ since cur g gs.
Proof.
  intros Hop gs. pose proof (op_ok _ _ Hop) as Hok. pose proof (op_core _ _ Hop) as Hcore.
  unfold StartSnapshot. rewrite (op_mode _ _ Hop). simpl. split_and!; [done| | |].
  - destruct Hok as [[? ? ?] ?]; split; [split|]; done.
  - by destruct Hcore; split.
  - split; simpl; try done.
    + intros i e He _. exists (ev_edges e). by destruct e.
    + intros e He. exists (ev_edges e), (ev_clock e), (ev_kind e). by destruct e.
    + exists []. by rewrite app_nil_r, (op_snapshot _ _ Hop).
Qed.

Lemma try_choose cur write g r loc :
  opened cur g → g_events g !! cur = Some r → unresolved (ev_kind r) → ev_location r = loc →
  store_at g loc write → (∀ w v, g_events g !! write = Some w → GetWrittenValue w = Ret v → arith_defined (ev_kind r) v) →
  ∃ gs g2 w2 r2 k, StartSnapshot g = Ret gs ∧ AddEdge gs RF write cur = Ret g2 ∧
    g_events g2 !! write = Some w2 ∧ is_store w2 = true ∧ g_events g2 !! cur = Some r2 ∧
    SetReadFromEvent ops r2 (Some (write, w2)) = Ret (set_kind k r2) ∧
    (∃ v, chosen cur write v g (set_event g2 cur (set_kind k r2)) (set_kind k r2)) ∧
    ∀ e', ev_kind e' = k → ∃ k', SetReadFromEvent ops e' None = Ret (set_kind k' e') ∧
        same_request (ev_kind r) k' ∧ unresolved k'.
Proof.
  intros Hop Hr Hu Hloc Hw Hdef. pose proof (op_ok _ _ Hop) as Hok. pose proof (op_core _ _ Hop) as Hcore.
  destruct (start_snapshot_ok cur g Hop) as (Hgs&Hoks&Hcores&Hss).
  set (gs := mkGraph _ _ _ _ _ _ _) in Hgs, Hoks, Hcores, Hss.
  destruct (AddEdge_adds (mo_only (λ _ _, False)) cur gs RF write cur) as (g2&Heq&Hg2&Hok2);
    [done|by eapply store_at_lt|by eapply lookup_lt_Some|by intros|].
  pose proof Hw as (w&Hwe&Hws&Hwl).
  assert (Hne : write ≠ cur).
  { intros ->. rewrite Hr in Hwe. injection Hwe as <-. by rewrite unresolved_not_store in Hws. }
  destruct (grow_event _ _ _ _ Hg2 write w Hwe) as (lw&cw&Hw2&_).
  destruct (grow_event _ _ _ _ Hg2 cur r Hr) as (lr&cr&Hr2&_).
  destruct (GetWrittenValue_total w Hws) as [v Hv].
  destruct (SetReadFrom_ok (set_edges lr (set_clock cr r)) write (set_edges lw (set_clock cw w)) v)
    as (k&Hk&Hread&Hasks&Hback); [done|by destruct w|by destruct w|by apply (Hdef w)|].
  eexists gs, g2, _, _, k. split_and!; [done|done|exact Hw2|by destruct w|exact Hr2|exact Hk| |exact Hback].
  assert (Hst : ∀ l x, store_at g l x → x ≠ cur →
     store_at (set_event g2 cur (set_kind k (set_edges lr (set_clock cr r)))) l x).
  { intros l x Hx Hxc. apply store_at_set_event; [done|]. by apply (store_at_grow _ _ _ _ _ _ Hg2). }
  pose proof (core_grow _ _ _ _ Hg2 Hcores) as Hcore2.
  exists v. split; try done.
  - eapply set_event_ok; [done|done|done|done|]. exact (ok_clock _ Hok2 cur _ Hr2).
  - split; simpl; [apply Hcore2| | |].
    + rewrite length_insert. apply Hcore2.
    + intros i e He Hi. rewrite list_lookup_insert_ne in He by done.
      apply resolved_set_event; [|by apply (core_reads _ _ Hcore2 i)].
      intros x Hx. destruct (grow_event_inv _ _ _ _ _ _ Hg2 He) as (e0&l&c&He0&->&_).
      apply (op_reads _ _ Hop i e0 x He0 Hi). by destruct e0.
    + intros l x. rewrite (grow_last _ _ _ _ Hg2). simpl. intros Hx.
      apply Hst; [by apply (core_last _ _ Hcore)|]. intros ->. by apply (op_last _ _ Hop) in Hx.
  - simpl. apply list_lookup_insert_eq. by eapply lookup_lt_Some.
  - simpl. rewrite list_lookup_insert_ne by done. eexists. split; [exact Hw2|by destruct w].
  - intros r' Hr'. rewrite Hr in Hr'. by injection Hr' as <-.
  - intros r' Hr'. rewrite Hr in Hr'. by injection Hr' as <-.
  - intros x y Hxy. destruct (grow_mo _ _ _ _ _ _ Hg2 Hxy) as [?|(ed&HP&Ht&_)]; [done|].
    by apply HP in Ht.
  - apply since_set_kind; [|done]. eapply (since_grow _ _ _ gs _ (lastSeqCstWriteEvents gs)); [done|].
    by destruct gs.
  - simpl. by rewrite (grow_last _ _ _ _ Hg2).
Qed.

(** A candidate on whose value the arithmetic is undefined. *)
Lemma TryCreateRfEdge_fails cur write g r w v o :
  opened cur g → g_events g !! cur = Some r → unresolved (ev_kind r) →
  g_events g !! write = Some w → is_store w = true → ev_location w = ev_location r → GetWrittenValue w = Ret v →
  arith_fails (ev_kind r) v o → TryCreateRfEdge ops g write cur = o.
Proof.
  intros Hop Hr Hu Hwe Hws Hwl Hv Hf. pose proof (ok_struct _ (op_ok _ _ Hop)) as Hs.
  assert (Hrr : IsReadOrRMW r = true).
  { unfold IsReadOrRMW, IsRead, IsRMW, ev_type. by destruct (ev_kind r) as [| |[]|[] []|[] []]. }
  destruct (start_snapshot_ok cur g Hop) as (Hgs&Hoks&_).
  set (gs := mkGraph _ _ _ _ _ _ _) in Hgs, Hoks.
  destruct (AddEdge_adds (mo_only (λ _ _, False)) cur gs RF write cur) as (g2&Heq&Hg2&_);
    [done|by eapply lookup_lt_Some|by eapply lookup_lt_Some|by intros|].
  destruct (grow_event _ _ _ _ Hg2 write w Hwe) as (lw&cw&Hw2&_).
  destruct (grow_event _ _ _ _ Hg2 cur r Hr) as (lr&cr&Hr2&_).
  unfold TryCreateRfEdge. rewrite (event_ret _ _ _ Hwe), (event_ret _ _ _ Hr). simpl.
  rewrite (store_write_or_rmw _ Hws), Hrr. simpl. rewrite bool_decide_true by done. simpl.
  rewrite Hgs. simpl. rewrite (sw_id _ _ Hs _ _ Hwe), (sw_id _ _ Hs _ _ Hr), Heq. simpl.
  rewrite (event_ret _ _ _ Hw2), (event_ret _ _ _ Hr2). simpl.
  destruct (ev_kind r) as [| | | |rf st op operand ca wr] eqn:Ek; try done. destruct Hf as [Hn ->].
  rewrite (SetReadFrom_fails _ _ _ v (ApplyAtomicRmwOp ops op v operand ≫= λ _, UB)).
  - destruct (ApplyAtomicRmwOp ops op v operand) as [v'| | | |]; [by destruct (Hn v')|done..].
  - simpl. by rewrite Ek.
  - by destruct w.
  - by destruct w.
  - simpl. by rewrite Ek.
Qed.

Lemma chosen_set_clock cur write v g g3 r1 c :
  chosen cur write v g g3 r1 → clock_ok (nThreads g3) (length (g_events g3)) c →
  chosen cur write v g (set_event g3 cur (set_clock c r1)) (set_clock c r1).
Proof.
  intros [Hok Hcore Hcur Hread (w&Hw&Hv) Hasks Hloc Hmo Hst Hsince Hlast] Hc.
  pose proof (set_clock_grow (λ _ _, False) cur g3 r1 c Hcur) as Hg.
  split; try done.
  - by eapply set_event_ok.
  - by eapply core_grow.
  - simpl. apply list_lookup_insert_eq. by eapply lookup_lt_Some.
  - destruct (grow_event _ _ _ _ Hg write w Hw) as (l&c'&Hw'&_). eexists. split; [exact Hw'|by destruct w].
  - intros loc w' Hw' Hne. apply (store_at_grow _ _ _ _ _ _ Hg). auto.
  - eapply (since_grow _ _ _ g3 _ (lastSeqCstWriteEvents g3)); [done|]. by destruct g3.
Qed.

Lemma chosen_reads cur write v g g3 r1 r :
  chosen cur write v g g3 r1 → g_events g !! cur = Some r → write ≠ cur →
  store_at g (ev_location r) write → reads g3 write cur (ev_location r).
Proof.
  intros Hch Hr Hne Hw. destruct (ch_store _ _ _ _ _ _ Hch _ _ Hw Hne) as (w&Hwe&Hs&Hl).
  destruct (reading_facts _ _ _ (ch_reading _ _ _ _ _ _ Hch)) as (Hrf&Hrr&_).
  exists w, r1. pose proof (ch_cur _ _ _ _ _ _ Hch). pose proof (ch_location _ _ _ _ _ _ Hch r Hr).
  split_and!; done.
Qed.

(** The synchronizes-with step. *)
Lemma try_sync cur write v g g3 r1 w :
  chosen cur write v g g3 r1 → g_events g3 !! write = Some w → is_store w = true →
  ∃ sw g4 c, synchronizes w r1 = Ret sw ∧
    (if sw then clock ← VectorClock.UniteWith (ev_clock r1) (ev_clock w);
                Ret (set_event g3 cur (set_clock clock r1))
     else Ret g3) = Ret g4 ∧ chosen cur write v g g4 (set_clock c r1).
Proof.
  intros Hch Hw Hs. destruct (reading_facts _ _ _ (ch_reading _ _ _ _ _ _ Hch)) as (_&_&Hord&_).
  destruct (synchronizes_total w r1 (store_ordered w Hs) Hord) as [sw Hsw].
  pose proof (ch_ok _ _ _ _ _ _ Hch) as Hok. pose proof (ch_cur _ _ _ _ _ _ Hch) as Hcur.
  destruct (unite_clock_ok _ _ _ _ (ok_clock _ Hok _ _ Hcur) (ok_clock _ Hok _ _ Hw))
    as (c&Hc&Hcok&_).
  exists sw. destruct sw.
  - rewrite Hc. simpl. eexists _, c. split_and!; [done..|]. by apply chosen_set_clock.
  - exists g3, (ev_clock r1). split_and!; [done..|]. by destruct r1.
Qed.

(** What an accepted attempt leaves. *)
Record accepted (cur write : nat) g g' (r : Event T) : Prop := {
  ac_wf : graph_wf g';
  ac_length : length (g_events g') = length (g_events g);
  ac_nThreads : nThreads g' = nThreads g;
  ac_cur : ∃ r' w v, g_events g' !! cur = Some r' ∧ g_events g' !! write = Some w ∧
    GetWrittenValue w = Ret v ∧ reading (ev_kind r') write v ∧ asks (ev_kind r) (ev_kind r') ∧
    set_kind (ev_kind r) (set_edges (ev_edges r) (set_clock (ev_clock r) r')) = r;
  ac_write : store_at g' (ev_location r) write;
  ac_last loc : is_Some (lastSeqCstWriteEvents g !! loc) →
    is_Some (lastSeqCstWriteEvents g' !! loc);
}.

(** What a rejected attempt leaves. *)
Definition rejected (cur : nat) g g' (r : Event T) : Prop :=
  ∃ c k, g' = set_event g cur (set_clock c (set_kind k r)) ∧
    clock_ok (nThreads g) (length (g_events g)) c ∧ same_request (ev_kind r) k ∧ unresolved k.

Lemma wired_apply g g' :
  wired g → ApplySnapshot g = Ret g' →
  graph_wf g' ∧ g_events g' = g_events g ∧ nThreads g' = nThreads g ∧
  lastSeqCstWriteEvents g' = lastSeqCstWriteEvents g.
Proof.
  unfold ApplySnapshot. destruct (inSnapshotMode g); [|done]. intros Hw [= <-].
  split; [|done]. apply wired_wf; [|done|done]. destruct Hw as [[[? ? ?] ?] [? ? ? ?] ? ? ?].
  split; [split; [split|]|split|..]; done.
Qed.

(** The outcome of the attempt once the rules have been applied. *)
Lemma try_finish cur write v g g4 g5 r r1 :
  opened cur g → g_events g !! cur = Some r → unresolved (ev_kind r) →
  store_at g (ev_location r) write → write ≠ cur →
  chosen cur write v g g4 r1 → ok g5 →
  (lastSeqCstWriteEvents g5 = lastSeqCstWriteEvents g4 ∨
   lastSeqCstWriteEvents g5 = <[ev_location r := cur]> (lastSeqCstWriteEvents g4) ∧
   store_at g4 (ev_location r) cur) →
  grow (mo_only (stores_of g4 (ev_location r))) cur (with_last g4 (lastSeqCstWriteEvents g5)) g5 →
  acyclic (mo g5) →
  ∃ g6, ApplySnapshot g5 = Ret g6 ∧ accepted cur write g g6 r.
Proof.
  intros Hop Hr Hu Hw Hne Hch Hok5 Hlast Hg5 Hac.
  pose proof (since_grow _ _ _ _ _ _ (ch_since _ _ _ _ _ _ Hch) Hg5) as Hsince.
  assert (Hwired : wired g5).
  { eapply (wire _ cur g4); [apply Hch| | |exact Hg5|done| |done| |].
    - rewrite (since_threads _ _ _ (ch_since _ _ _ _ _ _ Hch)). apply (op_threads _ _ Hop).
    - intros x y Hxy. apply (ch_mo _ _ _ _ _ _ Hch) in Hxy.
      destruct (op_mo _ _ Hop x y Hxy) as ((l&Hx&Hy)&?&?). exists l.
      split; by apply (ch_store _ _ _ _ _ _ Hch).
    - intros ed HP Ht. exists (ev_location r). apply (HP Ht).
    - intros e He. rewrite (ch_cur _ _ _ _ _ _ Hch) in He. injection He as <-.
      eapply reading_resolved; [apply (ch_reading _ _ _ _ _ _ Hch)|].
      rewrite (ch_location _ _ _ _ _ _ Hch r Hr). by apply (ch_store _ _ _ _ _ _ Hch).
    - intros l x Hx. destruct Hlast as [Hl|[Hl Hcur]]; rewrite Hl in Hx;
        [by apply (core_last _ _ (ch_core _ _ _ _ _ _ Hch))|].
      apply lookup_insert_Some in Hx as [[<- <-]|[_ Hx]]; [done|].
      by apply (core_last _ _ (ch_core _ _ _ _ _ _ Hch)). }
  destruct (ApplySnapshot g5) as [g6| | | |] eqn:Happ;
    try (unfold ApplySnapshot in Happ; rewrite (since_mode _ _ _ Hsince) in Happ; done).
  destruct (wired_apply g5 g6 Hwired Happ) as (Hwf&Hev&Hn&Hl6). exists g6. split; [done|].
  destruct (grow_event _ _ _ _ Hg5 cur r1 (ch_cur _ _ _ _ _ _ Hch)) as (l&c&Hr5&_).
  split; [done|by rewrite Hev, (since_length _ _ _ Hsince)|by rewrite Hn, (since_nThreads _ _ _ Hsince)| | |].
  - rewrite Hev. destruct (ch_written _ _ _ _ _ _ Hch) as (we&Hwe&Hv).
    destruct (grow_event _ _ _ _ Hg5 write we Hwe) as (l'&c'&Hw5&_).
    destruct (since_cur _ _ _ Hsince r Hr) as (l0&c0&k0&Hr5').
    eexists _, _, v. split_and!; [exact Hr5|exact Hw5|by destruct we|apply (ch_reading _ _ _ _ _ _ Hch)|
      by apply (ch_asks _ _ _ _ _ _ Hch)|].
    rewrite Hr5 in Hr5'. apply (inj Some) in Hr5'. rewrite Hr5'. by destruct r.
  - destruct (ch_store _ _ _ _ _ _ Hch _ _ Hw Hne) as (we&Hwe&?&?).
    destruct (grow_event _ _ _ _ Hg5 write we Hwe) as (l'&c'&Hw5&_).
    exists (set_edges l' (set_clock c' we)). rewrite Hev. split_and!; [done|by destruct we..].
  - intros loc. rewrite Hl6. destruct Hlast as [->|[-> _]]; rewrite (ch_last _ _ _ _ _ _ Hch); [done|].
    rewrite lookup_insert_is_Some. destruct (decide (ev_location r = loc)); auto.
Qed.

Lemma try_undo cur write v g g4 g5 r r1 o (sw : bool) c0 :
  opened cur g → g_events g !! cur = Some r →
  chosen cur write v g g4 r1 → ok g5 →
  (∀ e', ev_kind e' = ev_kind r1 → ∃ k', SetReadFromEvent ops e' None = Ret (set_kind k' e') ∧
        same_request (ev_kind r) k' ∧ unresolved k') →
  lastSeqCstWriteEvents g !! ev_location r = Some o →
  (lastSeqCstWriteEvents g5 = lastSeqCstWriteEvents g4 ∨
   lastSeqCstWriteEvents g5 = <[ev_location r := cur]> (lastSeqCstWriteEvents g4)) →
  grow (mo_only (stores_of g4 (ev_location r))) cur (with_last g4 (lastSeqCstWriteEvents g5)) g5 →
  clock_ok (nThreads g) (length (g_events g)) c0 →
  ∃ g6 r2 r3, DiscardSnapshot g5 = Ret g6 ∧ event g6 cur = Ret r2 ∧
    SetReadFromEvent ops r2 None = Ret r3 ∧
    rejected cur g (set_last_sc (set_event g6 cur (if sw then set_clock c0 r3 else r3))
                      (ev_location (if sw then set_clock c0 r3 else r3)) o) r.
Proof.
  intros Hop Hr Hch Hok5 Hback Ho Hlast Hg5 Hc0. pose proof (op_ok _ _ Hop) as Hok.
  pose proof (since_grow _ _ _ _ _ _ (ch_since _ _ _ _ _ _ Hch) Hg5) as Hsince.
  destruct (since_discard _ cur g g5 r Hok (ok_struct _ Hok5) Hsince Hr (op_snapshot _ _ Hop)
              (op_mode _ _ Hop)) as (c&k&Hd&l&Hr5).
  assert (Hk : k = ev_kind r1).
  { destruct (grow_event _ _ _ _ Hg5 cur r1 (ch_cur _ _ _ _ _ _ Hch)) as (l'&c'&Hr5'&_).
    rewrite Hr5 in Hr5'. apply (f_equal (fmap (M:=option) ev_kind)) in Hr5'. simpl in Hr5'.
    by injection Hr5'. }
  destruct (Hback (set_clock c (set_kind k r)) Hk) as (k'&Hset&Hsame&Hunres).
  eexists _, (set_clock c (set_kind k r)), _. split_and!; [exact Hd| |exact Hset|].
  { unfold event. simpl. by rewrite list_lookup_insert_eq by (by eapply lookup_lt_Some). }
  assert (Hc : clock_ok (nThreads g) (length (g_events g)) c).
  { rewrite <-(since_nThreads _ _ _ Hsince), <-(since_length _ _ _ Hsince).
    exact (ok_clock _ Hok5 cur _ Hr5). }
  exists (if sw then c0 else c), k'. split_and!; [|by destruct sw|done..].
  unfold set_last_sc, set_event, with_last. simpl. f_equal.
  - rewrite list_insert_insert_eq. f_equal. by destruct sw, r.
  - replace (ev_location _) with (ev_location r) by by destruct sw, r.
    destruct Hlast as [->| ->]; rewrite (ch_last _ _ _ _ _ _ Hch), ?insert_insert_eq;
      by apply insert_id.
Qed.

(** [TryCreateRfEdge] returns: the edge is accepted and the graph is well
    formed again, or it is rejected and everything is undone, except for the
    clock of the reading event. *)
Lemma TryCreateRfEdge_ok cur write g r :
  opened cur g → g_events g !! cur = Some r → unresolved (ev_kind r) →
  store_at g (ev_location r) write → is_Some (lastSeqCstWriteEvents g !! ev_location r) →
  (∀ w v, g_events g !! write = Some w → GetWrittenValue w = Ret v → arith_defined (ev_kind r) v) →
  ∃ (b : bool) g', TryCreateRfEdge ops g write cur = Ret (b, g') ∧
    if b then accepted cur write g g' r else rejected cur g g' r.
Proof.
  intros Hop Hr Hu Hw [o Ho] Hdef. pose proof (ok_struct _ (op_ok _ _ Hop)) as Hs.
  pose proof Hw as (w&Hwe&Hws&Hwl).
  assert (Hne : write ≠ cur).
  { intros ->. rewrite Hr in Hwe. injection Hwe as <-. by rewrite unresolved_not_store in Hws. }
  assert (Hrr : IsReadOrRMW r = true).
  { unfold IsReadOrRMW, IsRead, IsRMW, ev_type. by destruct (ev_kind r) as [| |[]|[] []|[] []]. }
  destruct (try_choose cur write g r _ Hop Hr Hu eq_refl Hw Hdef)
    as (gs&g2&w2&r2&k&Hgs&Hg2&Hw2&Hw2s&Hr2&Hset&[v Hch]&Hback).
  assert (Hw3 : g_events (set_event g2 cur (set_kind k r2)) !! write = Some w2).
  { simpl. by rewrite list_lookup_insert_ne. }
  destruct (try_sync cur write v g _ _ w2 Hch Hw3 Hw2s) as (sw&g4&c&Hsw&Hg4&Hch4).
  destruct (reading_facts _ _ _ (ch_reading _ _ _ _ _ _ Hch4)) as (_&_&Hord4&Hk4).
  destruct (rules_ok cur write (ev_location r) g4 (set_clock c (set_kind k r2)))
    as (g5&Hg5&Hok5&Hlast&Hgrow); try apply Hch4; try done.
  { eapply chosen_reads; eauto. }
  { intros x y Hxy. apply (ch_mo _ _ _ _ _ _ Hch4) in Hxy.
    destruct (op_mo _ _ Hop x y Hxy) as ((l&Hx&Hy)&?&?). exists l.
    split; by apply (ch_store _ _ _ _ _ _ Hch4). }
  destruct (IsConsistent_ok g5 (ok_struct _ Hok5)) as (b&Hb&Hac).
  assert (Hc0 : clock_ok (nThreads g) (length (g_events g)) (ev_clock r2)).
  { pose proof (ok_clock _ (ch_ok _ _ _ _ _ _ Hch) cur _ (ch_cur _ _ _ _ _ _ Hch)) as Hc0.
    by rewrite (since_nThreads _ _ _ (ch_since _ _ _ _ _ _ Hch)),
         (since_length _ _ _ (ch_since _ _ _ _ _ _ Hch)) in Hc0. }
  unfold TryCreateRfEdge.
  rewrite (event_ret _ _ _ Hwe), (event_ret _ _ _ Hr). simpl.
  rewrite (store_write_or_rmw _ Hws), Hrr. simpl. rewrite bool_decide_true by done. simpl.
  rewrite Hgs. simpl. rewrite (sw_id _ _ Hs _ _ Hwe), (sw_id _ _ Hs _ _ Hr), Hg2. simpl.
  rewrite (event_ret _ _ _ Hw2), (event_ret _ _ _ Hr2). simpl. rewrite Hset. simpl.
  unfold subscript_last_sc. rewrite (ch_last _ _ _ _ _ _ Hch).
  rewrite (ch_location _ _ _ _ _ _ Hch r Hr : ev_location r2 = _), Ho.
  rewrite (event_ret _ _ _ Hw3). simpl.
  rewrite Hsw. simpl. simpl in Hg4. rewrite Hg4. simpl.
  change (IsRead (set_clock c (set_kind k r2)) || IsReadRWM (set_clock c (set_kind k r2)))
    with (IsRead (set_kind k r2) || IsReadRWM (set_kind k r2)) in Hg5.
  rewrite Hg5. simpl. rewrite Hb. simpl. destruct b.
  - destruct (try_finish cur write v g g4 g5 r _ Hop Hr Hu Hw Hne Hch4 Hok5 Hlast Hgrow (Hac eq_refl))
      as (g6&->&Hacc). simpl. by exists true, g6.
  - destruct (try_undo cur write v g g4 g5 r _ o sw (ev_clock r2) Hop Hr Hch4 Hok5 Hback Ho)
      as (g6&r2'&r3&->&Hr2'&Hr3&Hrej); [tauto|done|done|]. simpl. rewrite Hr2'. simpl.
    rewrite Hr3. simpl. eexists false, _. split; [done|]. exact Hrej.
Qed.

(** ** The candidates *)

Lemma opened_rejected cur g g' r :
  opened cur g → g_events g !! cur = Some r → unresolved (ev_kind r) → rejected cur g g' r →
  opened cur g' ∧ (∀ loc w, store_at g loc w → store_at g' loc w) ∧
  lastSeqCstWriteEvents g' = lastSeqCstWriteEvents g ∧ nThreads g' = nThreads g ∧
  ∃ r' c k, g_events g' !! cur = Some r' ∧ r' = set_clock c (set_kind k r) ∧
    unresolved (ev_kind r') ∧ same_request (ev_kind r) k.
Proof.
  intros Hop Hr Hu (c&k&->&Hc&Hsame&Hu').
  assert (Hcur : ∀ loc, ¬ store_at g loc cur).
  { intros loc (e&He&Hs&_). rewrite Hr in He. injection He as <-. by rewrite unresolved_not_store in Hs. }
  assert (Hst : ∀ loc w, store_at g loc w →
            store_at (set_event g cur (set_clock c (set_kind k r))) loc w).
  { intros loc w Hw. apply store_at_set_event; [|done]. intros ->. by apply Hcur in Hw. }
  destruct Hop as [Hok Hcore Hlen Hth Hmo Hac Hl Hrd Hmd Hsn].
  split; [|split_and!; [exact Hst|done|done|]].
  - split; simpl; try done.
    + by eapply set_event_ok.
    + split; simpl; [apply Hcore|rewrite length_insert; apply Hcore| |].
      * intros i e He Hi. rewrite list_lookup_insert_ne in He by done.
        apply resolved_set_event; [intros w; by eapply Hrd|by apply (core_reads _ _ Hcore i)].
      * intros loc w Hw. by apply Hst, (core_last _ _ Hcore).
    + by rewrite length_insert.
    + intros x y Hxy. destruct (Hmo x y Hxy) as ((l&?&?)&?). split; [|done]. exists l. auto.
    + intros i e w He Hi. rewrite list_lookup_insert_ne in He by done. by eapply Hrd.
  - exists (set_clock c (set_kind k r)), c, k. simpl.
    split_and!; [apply list_lookup_insert_eq; by eapply lookup_lt_Some|done..].
Qed.

(** Every candidate, tried one after the other, is rejected. *)
Fixpoint rejects (cur : nat) (cands : list nat) g : Prop :=
  match cands with
  | [] => True
  | w :: cands => ∃ g', TryCreateRfEdge ops g w cur = Ret (false, g') ∧ rejects cur cands g'
  end.

(** Some candidate has a value on which the arithmetic of [r] is undefined. *)
Definition fails_on (cands : list nat) g (r : Event T) {A} (o : outcome A) : Prop :=
  ∃ x w v, x ∈ cands ∧ g_events g !! x = Some w ∧ is_store w = true ∧ ev_location w = ev_location r ∧
    GetWrittenValue w = Ret v ∧ arith_fails (ev_kind r) v o.

Lemma same_request_fails {A} k k' v (o : outcome A) : same_request k k' → arith_fails k' v o → arith_fails k v o.
Proof. destruct k, k'; try done. by intros (_&_&<-&<-). Qed.

Lemma try_candidates_ok cur cands g r :
  opened cur g → g_events g !! cur = Some r → unresolved (ev_kind r) →
  is_Some (lastSeqCstWriteEvents g !! ev_location r) →
  (∀ w, w ∈ cands → store_at g (ev_location r) w) →
  (∃ o, try_candidates ops cur cands g = o ∧ fails_on cands g r o) ∨
  ∃ g', try_candidates ops cur cands g = Ret g' ∧
    ((∃ w g0 r0 c k, w ∈ cands ∧ accepted cur w g0 g' r0 ∧
        length (g_events g0) = length (g_events g) ∧ nThreads g0 = nThreads g ∧
        r0 = set_clock c (set_kind k r) ∧ same_request (ev_kind r) k ∧
        lastSeqCstWriteEvents g0 = lastSeqCstWriteEvents g) ∨
     rejects cur cands g ∧ ∃ r', g_events g' !! cur = Some r' ∧ unresolved (ev_kind r')).
Proof.
  revert g r. induction cands as [|w cands IH]; intros g r Hop Hr Hu Hl Hc; simpl.
  { right. exists g. split; [done|]. right. eauto. }
  pose proof (Hc w ltac:(by left)) as (we&Hwe&Hws&Hwl). destruct (GetWrittenValue_total we Hws) as [v Hv].
  destruct (arith_cases (A := bool * Graph T) (ev_kind r) v) as [Hdef|(o&Ho&_)].
  2:{ left. eexists. split; [done|]. exists w, we, v. split_and!; [by left|done..|].
      rewrite (TryCreateRfEdge_fails cur w g r we v o) by done. by apply arith_fails_bind. }
  destruct (TryCreateRfEdge_ok cur w g r Hop Hr Hu (Hc w ltac:(by left)) Hl) as (b&g1&Heq&Hb).
  { intros w' v' Hw' Hv'. by replace v' with v by congruence. }
  rewrite Heq. simpl. destruct b.
  - right. exists g1. split; [done|]. left. exists w, g, r, (ev_clock r), (ev_kind r).
    split_and!; try done; [by left|by destruct r].
  - assert (∀ x, x ≠ cur → g_events g1 !! x = g_events g !! x) as Hsame.
    { destruct Hb as (c&k&->&_). intros x Hx. by apply list_lookup_insert_ne. }
    destruct (opened_rejected cur g g1 r Hop Hr Hu Hb) as (Hop1&Hst&Hl1&Hn1&r1&c1&k1&Hr1&->&Hu1&Hs1).
    destruct (IH g1 _ Hop1 Hr1 Hu1) as [(o&Ho&x&xe&xv&Hx&Hxe&Hxs&Hxl&Hxv&Hxf)|(g'&->&Hg')]; [by rewrite Hl1| | |].
    { intros x ?. apply Hst, Hc. by right. }
    { left. exists o. split; [done|]. exists x, xe, xv. rewrite <-Hsame; [split_and!; try done; [by right|]|].
      - by apply (same_request_fails _ k1).
      - intros ->. simplify_eq. by rewrite unresolved_not_store in Hxs. }
    right. exists g'. split; [done|].
    destruct Hg' as [(x&g0&r0&c&k&?&?&Hlen&Hn&->&Hs&Hls)|[Hrej ?]]; [left|right; eauto].
    eexists x, g0, _, c, k. rewrite Hlen, Hn, Hls, Hl1, Hn1. split_and!; try done; [by right| |by etrans].
    by rewrite (op_cur _ _ Hop1), (op_cur _ _ Hop).
Qed.

End Try.
