(* ===== verification/WmmCorrect.v ===== *)
(** * Correctness of the weak-memory execution graph

    The theorems about the public operations of [ExecutionGraph]
    (runtime/include/wmm/wmm.h): the invariant of every reachable state, the
    values loads and read-modify-writes return, and the consistency check. *)
From stdpp Require Import base list relations gmap.
From Stdlib Require Import ZArith.
From S2P Require Import Prelude VectorClock WmmEvent Graph GraphConsistent GraphSteps.
From S2P Require Import GraphInvariant GraphRead GraphTry.

Section Correct.
Context {T : Type} (ops : ValueOps T).
Context (v_eqb_refl : ∀ v, v_eqb ops v v = true).
Implicit Types (g : Graph T) (e : Event T) (x : ExecutionGraph T).

Definition small g : Prop := (Z.of_nat (length (g_events g)) < VectorClock.INT_MAX)%Z.

Lemma candidates_stores g e w :
  ok g → w ∈ ReadFromCandidates g e → store_at g (ev_location e) w.
Proof.
  intros Hok. unfold ReadFromCandidates. intros (we&->&Hin)%list_elem_of_fmap.
  apply list_elem_of_filter in Hin as [(Hs&Hl&_) Hin]. apply list_elem_of_lookup in Hin as [i Hi].
  rewrite (sw_id _ _ (ok_struct _ Hok) _ _ Hi). by exists we.
Qed.

(** What a reading operation has done when it returns. *)
Record read_done g g' e ev (v : T) : Prop := {
  rd_wf : graph_wf g';
  rd_length : length (g_events g') = S (length (g_events g));
  rd_nThreads : nThreads g' = nThreads g;
  rd_event : g_events g' !! length (g_events g) = Some ev;
  rd_store : ∃ w we, g_events g' !! w = Some we ∧ is_store we = true ∧
    ev_location we = ev_location e ∧ GetWrittenValue we = Ret v ∧ reading ops (ev_kind ev) w v;
  rd_asks : asks (ev_kind e) (ev_kind ev);
  rd_fixed : ev_location ev = ev_location e ∧ ev_threadId ev = ev_threadId e ∧
    ev_order ev = ev_order e;
  rd_last loc : is_Some (lastSeqCstWriteEvents g !! loc) →
    is_Some (lastSeqCstWriteEvents g' !! loc);
}.

Lemma GetReadValue_reading g ev w we v :
  g_events g !! w = Some we → GetWrittenValue we = Ret v → reading ops (ev_kind ev) w v →
  GetReadValue (event g) ev = Ret v.
Proof.
  intros Hw Hv Hr. destruct (reading_facts _ _ _ _ Hr) as (_&Hrr&_).
  unfold GetReadValue. rewrite Hrr. simpl.
  destruct (ev_kind ev) as [| |rf|rf st|rf st]; simpl in Hr; try done.
  - subst rf. by rewrite (event_ret _ _ _ Hw).
  - destruct Hr as [-> _]. by rewrite (event_ret _ _ _ Hw).
  - by destruct Hr as (->&_&->&_).
Qed.

(** Every store that a new reading event [e] may read from is tried, in the
    shuffled order, and rejected. *)
Definition no_candidate shuffle g e : Prop :=
  ∃ g1 ev, CreatePoEdgeToEvent g e = Ret g1 ∧ g_events g1 !! ev_id e = Some ev ∧
    rejects ops (ev_id e) (shuffle (ReadFromCandidates g1 ev)) g1.

(** The events that were there before a new one was ordered. *)
Lemma CreatePo_events g e g1 w we :
  graph_wf g → small g → ev_id e = length (g_events g) → ev_threadId e < nThreads g →
  CreatePoEdgeToEvent g e = Ret g1 → g_events g1 !! w = Some we → w ≠ ev_id e →
  ∃ we0, g_events g !! w = Some we0 ∧ ev_kind we0 = ev_kind we ∧ ev_location we0 = ev_location we.
Proof.
  intros Hwf Hsm Hid Hth Hpo Hw Hne. destruct (CreatePo_steps g e Hwf Hid Hth Hsm) as (g0&c&l&E&_&Hg&_).
  rewrite Hpo in E. injection E as ->. simpl in Hw. apply lookup_app_Some in Hw as [Hw|[Hle Hw]].
  - destruct (grow_event_inv _ _ _ _ _ _ Hg Hw) as (we0&l'&c'&Hw0&->&_). by exists we0.
  - apply list_lookup_singleton_Some in Hw as [Hw _]. pose proof (grow_length _ _ _ _ Hg). lia.
Qed.

(** Some store of the location has a value on which the arithmetic of [e] is
    undefined, and [o] is how it fails. *)
Definition overflows g e {A} (o : outcome A) : Prop :=
  ∃ w we v, g_events g !! w = Some we ∧ is_store we = true ∧ ev_location we = ev_location e ∧
    GetWrittenValue we = Ret v ∧ arith_fails ops (ev_kind e) v o.

Lemma overflows_bind {A C} g e (f : A → outcome C) (o : outcome A) : overflows g e o → overflows g e (o ≫= f).
Proof.
  intros (w&we&v&?&?&?&?&Hf). exists w, we, v. split_and!; [done..|]. by apply arith_fails_bind.
Qed.
Lemma overflows_fails {A} g e (o : outcome A) : overflows g e o → ∀ r, o ≠ Ret r.
Proof.
  intros (w&we&v&_&_&_&_&Hf) r. destruct (ev_kind e) as [| | | |rf st op operand ca wr]; try done.
  destruct Hf as [Hn ->]. destruct (ApplyAtomicRmwOp ops op v operand) as [v'| | | |]; [by destruct (Hn v')|done..].
Qed.

Lemma add_reading_event_ok shuffle g e :
  (∀ l, shuffle l ≡ₚ l) → graph_wf g → small g →
  ev_id e = length (g_events g) → ev_edges e = [] → ev_threadId e < nThreads g →
  unresolved (ev_kind e) → is_Some (lastSeqCstWriteEvents g !! ev_location e) →
  overflows g e (add_reading_event ops shuffle g e) ∨
  add_reading_event ops shuffle g e = AssertFail ∧ no_candidate shuffle g e ∨
  ∃ ev v g', add_reading_event ops shuffle g e = Ret (ev, v, g') ∧ read_done g g' e ev v.
Proof.
  intros Hsh Hwf Hsm Hid Hes Hth Hu Hl. unfold add_reading_event.
  destruct (CreatePo_opened g e Hwf Hid Hes Hth Hsm) as (g1&c&Hpo&Hop&He&Hl1&Hn1&_).
  rewrite Hpo. simpl.
  rewrite (event_ret _ _ _ He). simpl.
  destruct (try_candidates_ok ops v_eqb_refl (ev_id e) (shuffle (ReadFromCandidates g1 (set_clock c e)))
              g1 _ Hop He Hu) as [(o&Ho&w&we&v&_&Hwe&Hws&Hwl&Hv&Hf)|(g2&->&Hg2)]; simpl.
  { by rewrite Hl1. }
  { intros w Hw. rewrite (Hsh _) in Hw. eapply (candidates_stores g1 (set_clock c e)); [apply Hop|done]. }
  { left. assert (w ≠ ev_id e) as Hne.
    { intros ->. rewrite He in Hwe. injection Hwe as <-. by rewrite (unresolved_not_store (set_clock c e) Hu) in Hws. }
    destruct (CreatePo_events g e g1 w we Hwf Hsm Hid Hth Hpo Hwe Hne) as (we0&Hwe0&Hk&Hloc).
    exists w, we0, v. split_and!; [done| |by rewrite Hloc| |rewrite Ho; by apply arith_fails_bind].
    - rewrite <-Hws. unfold is_store, IsWrite, IsModifyRMW, ev_type. by rewrite Hk.
    - rewrite <-Hv. unfold GetWrittenValue, IsWriteOrRMW, IsWrite, IsRMW, ev_type. by rewrite Hk. }
  right.
  destruct Hg2 as [(w&g0&r0&c0&k0&_&Hacc&Hlen&Hn&->&Hsame&Hls)|(Hrej&r'&Hr'&Hur)].
  2:{ left. split; [|by exists g1, (set_clock c e)]. rewrite (event_ret _ _ _ Hr'). simpl. unfold GetReadFromEvent.
      by destruct (ev_kind r') as [| |[]|[] []|[] []]. }
  right. destruct Hacc as [Hwf2 Hlen2 Hn2 (ev&we&v&Hev&Hwe&Hv&Hread&Hasks&Hfix) Hst Hlast].
  exists ev, v, g2. rewrite (event_ret _ _ _ Hev). simpl.
  destruct (reading_facts _ _ _ _ Hread) as (Hrf&_). rewrite Hrf. simpl.
  rewrite (event_ret _ _ _ Hwe). simpl. destruct Hst as (we'&Hwe'&Hws&Hwl).
  rewrite Hwe in Hwe'. injection Hwe' as <-. fold (is_store we). rewrite Hws. simpl.
  rewrite (GetReadValue_reading g2 ev w we v Hwe Hv Hread). simpl. split; [done|].
  split; try done.
  - rewrite Hlen2, Hlen, (op_cur _ _ Hop), Hid. done.
  - congruence.
  - by rewrite <-Hid.
  - by exists w, we.
  - eapply same_request_asks; [exact Hsame|]. exact Hasks.
  - destruct ev, e. simpl in *. by injection Hfix as <- <- <- <-.
  - intros loc Hloc. apply Hlast. by rewrite Hls, Hl1.
Qed.

(** ** [Reset] *)

Lemma Reset_events g n i e :
  g_events (Reset g n) !! i = Some e → i < n ∧ e = dummy_event n i i.
Proof.
  unfold Reset, InitThreads, Clean. simpl. intros He.
  apply list_lookup_fmap_Some in He as (t&->&Ht).
  apply lookup_seq in Ht as [-> ?]. done.
Qed.

Lemma Reset_threads g n t l :
  eventsPerThread (Reset g n) !! t = Some l → t < n ∧ l = [t].
Proof.
  unfold Reset, InitThreads, Clean. simpl. rewrite list_lookup_imap.
  destruct (resize n [] [] !! t) as [l'|] eqn:Hl; simpl; [|done]. intros [= <-].
  apply lookup_lt_Some in Hl as Ht. rewrite length_resize in Ht. split; [done|].
  rewrite resize_nil in Hl. by apply lookup_replicate in Hl as [-> _].
Qed.

Lemma Reset_wf g n :
  inSnapshotMode g = false → snapshotEdges g = ∅ → graph_wf (Reset g n).
Proof.
  intros Hm Hs.
  assert (Hlen : length (g_events (Reset g n)) = n).
  { simpl. by rewrite length_fmap, length_seq. }
  split; try done.
  - split; [split|].
    + intros i e He. by apply Reset_events in He as [_ ->].
    + done.
    + intros i e He. by apply Reset_events in He as [_ ->].
    + intros i e He. apply Reset_events in He as [_ ->]. simpl.
      split; [apply length_replicate|]. apply Forall_replicate. lia.
  - split.
    + simpl. by rewrite length_imap, length_resize.
    + intros t l i Hl Hi. rewrite Hlen. apply Reset_threads in Hl as [? ->].
      by apply list_elem_of_singleton in Hi as ->.
    + intros i e He _. by apply Reset_events in He as [_ ->].
    + done.
  - intros t l Hl. by apply Reset_threads in Hl as [_ ->].
  - intros x y (ed&Hin&_). by apply not_elem_of_nil in Hin.
  - intros x Hx. inversion Hx as [? ? (ed&Hin&_)|? ? ? (ed&Hin&_)]; by apply not_elem_of_nil in Hin.
Qed.

(** ** Reachable states of the execution graph *)

(** The operations, on threads and locations that exist. [shuffle] is any
    outcome of [std::shuffle]. *)
Inductive exec_step : ExecutionGraph T → ExecutionGraph T → Prop :=
  | step_register x value loc x' :
      small (graph x) → 0 < nThreads (graph x) →
      RegisterLocation x value = Ret (loc, x') → exec_step x x'
  | step_load shuffle x loc t order v x' :
      (∀ l, shuffle l ≡ₚ l) → small (graph x) → t < nThreads (graph x) →
      (0 ≤ loc < nextLocationId x)%Z →
      Load ops shuffle x loc t order = Ret (v, x') → exec_step x x'
  | step_store x loc t order value x' :
      small (graph x) → t < nThreads (graph x) →
      Store x loc t order value = Ret x' → exec_step x x'
  | step_cas shuffle x loc t expected desired success failure b v cell x' :
      (∀ l, shuffle l ≡ₚ l) → small (graph x) → t < nThreads (graph x) →
      (0 ≤ loc < nextLocationId x)%Z →
      ReadModifyWrite ops shuffle x loc t expected desired success failure = Ret (b, v, cell, x') →
      exec_step x x'
  | step_rmw shuffle x loc t op operand zero order v x' :
      (∀ l, shuffle l ≡ₚ l) → small (graph x) → t < nThreads (graph x) →
      (0 ≤ loc < nextLocationId x)%Z →
      UnconditionalReadModifyWrite ops shuffle x loc t op operand zero order = Ret (v, x') →
      exec_step x x'.

Inductive reachable : ExecutionGraph T → Prop :=
  | reach_start n : reachable (ResetExecution (mkExec 0 empty_graph) n)
  | reach_reset x n : reachable x → reachable (ResetExecution x n)
  | reach_step x x' : reachable x → exec_step x x' → reachable x'.

(** The graph is well formed and every registered location has a
    sequentially consistent store. *)
Record exec_inv x : Prop := {
  xi_wf : graph_wf (graph x);
  xi_next : (0 ≤ nextLocationId x)%Z;
  xi_registered loc : (0 ≤ loc < nextLocationId x)%Z →
    is_Some (lastSeqCstWriteEvents (graph x) !! loc);
}.

Lemma Store_exec_inv x loc t order value :
  exec_inv x → small (graph x) → t < nThreads (graph x) →
  ∃ g', AddWriteEvent (graph x) loc t order value = Ret g' ∧
    exec_inv (mkExec (nextLocationId x) g') ∧
    (order = SeqCst → is_Some (lastSeqCstWriteEvents g' !! loc)) ∧
    ∃ we, g_events g' !! length (g_events (graph x)) = Some we ∧ ev_kind we = WriteEvent value ∧
      ev_location we = loc ∧ ev_threadId we = t ∧ ev_order we = order.
Proof.
  intros [Hwf Hn Hreg] Hsm Ht.
  destruct (AddWriteEvent_ok (graph x) loc t order value Hwf Ht Hsm)
    as (g'&Heq&Hwf'&_&_&Hwe&_&Hl&Hsc).
  exists g'. split_and!; [done| |done|done]. split; [done|done|]. intros l ?. apply Hl. auto.
Qed.

Lemma read_done_exec_inv x g' e ev v :
  exec_inv x → read_done (graph x) g' e ev v → exec_inv (mkExec (nextLocationId x) g').
Proof.
  intros [Hwf Hn Hreg] Hrd. split; [apply Hrd|done|]. intros l ?. apply (rd_last _ _ _ _ _ Hrd). auto.
Qed.

(** A reading operation of the execution graph. *)
Lemma read_event_ok shuffle x loc t order k :
  exec_inv x → (∀ l, shuffle l ≡ₚ l) → small (graph x) → t < nThreads (graph x) →
  (0 ≤ loc < nextLocationId x)%Z → unresolved k →
  overflows (graph x) (new_event (graph x) loc t order k)
    (add_reading_event ops shuffle (graph x) (new_event (graph x) loc t order k)) ∨
  add_reading_event ops shuffle (graph x) (new_event (graph x) loc t order k) = AssertFail ∧
    no_candidate shuffle (graph x) (new_event (graph x) loc t order k) ∨
  ∃ ev v g', add_reading_event ops shuffle (graph x) (new_event (graph x) loc t order k) =
      Ret (ev, v, g') ∧
    read_done (graph x) g' (new_event (graph x) loc t order k) ev v ∧
    exec_inv (mkExec (nextLocationId x) g').
Proof.
  intros Hinv Hsh Hsm Ht Hloc Hu.
  destruct (add_reading_event_ok shuffle (graph x) (new_event (graph x) loc t order k))
    as [?|[?|(ev&v&g'&Heq&Hrd)]]; try done;
    [apply Hinv|by apply (xi_registered _ Hinv)|by left|by right; left|].
  right; right. exists ev, v, g'. split_and!; [done..|by eapply read_done_exec_inv].
Qed.

Lemma exec_step_inv x x' : exec_inv x → exec_step x x' → exec_inv x'.
Proof.
  intros Hinv Hstep. destruct Hstep as
    [x value loc x' Hsm Ht Heq|shuffle x loc t order v x' Hsh Hsm Ht Hloc Heq
    |x loc t order value x' Hsm Ht Heq
    |shuffle x loc t expected desired success failure b v cell x' Hsh Hsm Ht Hloc Heq
    |shuffle x loc t op operand zero order v x' Hsh Hsm Ht Hloc Heq].
  - unfold RegisterLocation in Heq.
    destruct (Store_exec_inv x (nextLocationId x) INIT_THREAD_ID SeqCst value Hinv Hsm Ht)
      as (g'&Hg'&[Hwf Hn Hreg]&Hsc&_). rewrite Hg' in Heq. injection Heq as <- <-.
    split; simpl in *; [done|lia|]. intros l Hl.
    destruct (decide (l = nextLocationId x)) as [->|]; [auto|]. apply Hreg. lia.
  - unfold Load, AddReadEvent in Heq.
    destruct (read_event_ok shuffle x loc t order (ReadEvent None) Hinv Hsh Hsm Ht Hloc I)
      as [(?&?&?&_&_&_&_&[])|[[Hf _]|(ev&v'&g'&Hf&_&Hinv')]]; rewrite Hf in Heq; [done|].
    by injection Heq as <- <-.
  - unfold Store in Heq.
    destruct (Store_exec_inv x loc t order value Hinv Hsm Ht) as (g'&Hg'&Hinv'&_).
    rewrite Hg' in Heq. by injection Heq as <-.
  - unfold ReadModifyWrite, AddRMWEvent in Heq.
    destruct (read_event_ok shuffle x loc t success
                (CASRMWEvent None STATE_UNSET expected expected expected desired failure)
                Hinv Hsh Hsm Ht Hloc ltac:(done))
      as [(?&?&?&_&_&_&_&[])|[[Hf _]|(ev&v'&g'&Hf&_&Hinv')]]; rewrite Hf in Heq; [done|].
    by injection Heq as <- <- <- <-.
  - unfold UnconditionalReadModifyWrite, AddUnconditionalRMWEvent in Heq.
    destruct (read_event_ok shuffle x loc t order
                (UnconditionalRMWEvent None STATE_UNSET op operand zero zero)
                Hinv Hsh Hsm Ht Hloc I) as [Hov|[[Hf _]|(ev&v'&g'&Hf&_&Hinv')]]; [|by rewrite Hf in Heq|rewrite Hf in Heq].
    { destruct (overflows_fails _ _ _ (overflows_bind _ _ _ _ (overflows_bind _ _ _ _ Hov)) _ Heq). }
    by injection Heq as <- <-.
Qed.

Lemma exec_reachable_inv x : reachable x → exec_inv x.
Proof.
  induction 1 as [n|x n _ IH|x x' _ IH Hstep].
  - split; simpl; [by apply Reset_wf|done|lia].
  - split; simpl; [|done|lia].
    apply Reset_wf; [apply (gw_mode _ (xi_wf _ IH))|apply (gw_snapshot _ (xi_wf _ IH))].
  - by eapply exec_step_inv.
Qed.

(** ** Properties *)

(** C8. In every state the operations reach, modification order is acyclic
    and relates stores of one location only, and every read-from edge of a
    reading event leads to a store of its location. *)
Theorem wmm_invariant x :
  reachable x →
  acyclic (mo (graph x)) ∧
  (∀ a b, mo (graph x) a b → ∃ loc, store_at (graph x) loc a ∧ store_at (graph x) loc b) ∧
  (∀ i e, g_events (graph x) !! i = Some e → IsReadOrRMW e = true →
     ∃ w, GetReadFromEvent e = Ret (Some w) ∧ store_at (graph x) (ev_location e) w).
Proof.
  intros Hr. destruct (xi_wf _ (exec_reachable_inv x Hr)) as [Hok Hcore Hth Hmo Hac _ _].
  split_and!; [done..|]. intros i e He Hrr. apply resolved_reads_from; [|done].
  apply (core_reads _ _ Hcore i e He). apply lookup_lt_Some in He. lia.
Qed.

(** C9. A load on a thread and a location that exist never accesses memory
    out of bounds and always terminates. When some candidate is accepted it
    returns the value written by a store of that location, recorded as the
    store the new event reads from; the final assertion fails only when
    every candidate store was tried and rejected. *)
Theorem wmm_load_returns_store shuffle x loc t order :
  reachable x → (∀ l, shuffle l ≡ₚ l) → small (graph x) → t < nThreads (graph x) →
  (0 ≤ loc < nextLocationId x)%Z →
  Load ops shuffle x loc t order = AssertFail ∧
    no_candidate shuffle (graph x) (new_event (graph x) loc t order (ReadEvent None)) ∨
  ∃ v x' w we ev, Load ops shuffle x loc t order = Ret (v, x') ∧
    g_events (graph x') !! w = Some we ∧ is_store we = true ∧ ev_location we = loc ∧
    GetWrittenValue we = Ret v ∧
    g_events (graph x') !! length (g_events (graph x)) = Some ev ∧
    ev_kind ev = ReadEvent (Some w) ∧ ev_threadId ev = t ∧ ev_order ev = order.
Proof.
  intros Hr Hsh Hsm Ht Hloc. unfold Load, AddReadEvent.
  destruct (read_event_ok shuffle x loc t order (ReadEvent None) (exec_reachable_inv x Hr) Hsh Hsm Ht Hloc I)
    as [(?&?&?&_&_&_&_&[])|[[-> ?]|(ev&v&g'&->&[_ _ _ Hev (w&we&Hwe&Hs&Hl&Hv&Hrd) Hasks (_&Hth&Hord) _]&_)]];
    [by left|right].
  simpl. eexists v, _, w, we, ev. simpl in *. split_and!; try done.
  by destruct (ev_kind ev); simpl in *; subst.
Qed.

(** A store on an existing thread always succeeds and appends one event
    that writes the value at the location. *)
Theorem wmm_store_succeeds x loc t order value :
  reachable x → small (graph x) → t < nThreads (graph x) →
  ∃ x' we, Store x loc t order value = Ret x' ∧
    g_events (graph x') !! length (g_events (graph x)) = Some we ∧
    ev_kind we = WriteEvent value ∧ ev_location we = loc ∧ ev_threadId we = t ∧
    ev_order we = order ∧ graph_wf (graph x').
Proof.
  intros Hr Hsm Ht.
  destruct (Store_exec_inv x loc t order value (exec_reachable_inv x Hr) Hsm Ht)
    as (g'&Hg'&Hinv&_&we&?&?&?&?&?).
  unfold Store. rewrite Hg'. simpl. eexists _, we. split_and!; try done. apply Hinv.
Qed.

(** C11. Compare-exchange: it reads the value [v] of a store of the location
    and succeeds exactly when [v] equals the expected value. On success the
    new event stores [desired] and [*expected] is unchanged; on failure the
    event is no store and [*expected] is [v]. The assertion fails only when
    every candidate store was tried and rejected. *)
Theorem wmm_cas_semantics shuffle x loc t expected desired success failure :
  reachable x → (∀ l, shuffle l ≡ₚ l) → small (graph x) → t < nThreads (graph x) →
  (0 ≤ loc < nextLocationId x)%Z →
  ReadModifyWrite ops shuffle x loc t expected desired success failure = AssertFail ∧
    no_candidate shuffle (graph x) (new_event (graph x) loc t success
      (CASRMWEvent None STATE_UNSET expected expected expected desired failure)) ∨
  ∃ v cell x' w we ev,
    ReadModifyWrite ops shuffle x loc t expected desired success failure =
      Ret (v_eqb ops v expected, v, cell, x') ∧
    g_events (graph x') !! w = Some we ∧ is_store we = true ∧ ev_location we = loc ∧
    GetWrittenValue we = Ret v ∧
    g_events (graph x') !! length (g_events (graph x)) = Some ev ∧
    GetReadFromEvent ev = Ret (Some w) ∧
    (if v_eqb ops v expected
     then cell = expected ∧ is_store ev = true ∧ GetWrittenValue ev = Ret desired
     else cell = v ∧ is_store ev = false).
Proof.
  intros Hr Hsh Hsm Ht Hloc. unfold ReadModifyWrite, AddRMWEvent.
  destruct (read_event_ok shuffle x loc t success
              (CASRMWEvent None STATE_UNSET expected expected expected desired failure)
              (exec_reachable_inv x Hr) Hsh Hsm Ht Hloc ltac:(done))
    as [(?&?&?&_&_&_&_&[])|[[-> ?]|(ev&v&g'&->&[_ _ _ Hev (w&we&Hwe&Hs&Hl&Hv&Hrd) Hasks _ _]&_)]]; [by left|right].
  simpl. unfold is_store, IsWrite, GetReadFromEvent, GetWrittenValue, IsWriteOrRMW, IsWrite,
    IsRMW, IsModifyRMW, ev_type.
  destruct ev as [i l th o c es k]. destruct k as [| | |rf st init ca ex de fo|]; simpl in *; try done.
  destruct Hasks as (->&->&->), Hrd as [-> Hst].
  eexists v, ex, _, w, we, _. destruct (v_eqb ops v init); destruct Hst as [-> ->];
    simpl; split_and!; try reflexivity; try done.
  all: by vm_compute.
Qed.

(** An unconditional read-modify-write returns the old value [v] of a
    store of the location and stores the operation applied to [v]; its
    assertion fails only when every candidate was tried and rejected, and it
    is undefined only when the operation is, on the value of a store of the
    location. *)
Theorem wmm_rmw_semantics shuffle x loc t op operand zero order :
  reachable x → (∀ l, shuffle l ≡ₚ l) → small (graph x) → t < nThreads (graph x) →
  (0 ≤ loc < nextLocationId x)%Z →
  overflows (graph x) (new_event (graph x) loc t order (UnconditionalRMWEvent None STATE_UNSET op operand zero zero))
    (UnconditionalReadModifyWrite ops shuffle x loc t op operand zero order) ∨
  UnconditionalReadModifyWrite ops shuffle x loc t op operand zero order = AssertFail ∧
    no_candidate shuffle (graph x) (new_event (graph x) loc t order
      (UnconditionalRMWEvent None STATE_UNSET op operand zero zero)) ∨
  ∃ v v' x' w we ev,
    UnconditionalReadModifyWrite ops shuffle x loc t op operand zero order = Ret (v, x') ∧
    g_events (graph x') !! w = Some we ∧ is_store we = true ∧ ev_location we = loc ∧
    GetWrittenValue we = Ret v ∧
    g_events (graph x') !! length (g_events (graph x)) = Some ev ∧
    is_store ev = true ∧ GetWrittenValue ev = Ret v' ∧
    ApplyAtomicRmwOp ops op v operand = Ret v'.
Proof.
  intros Hr Hsh Hsm Ht Hloc. unfold UnconditionalReadModifyWrite, AddUnconditionalRMWEvent.
  destruct (read_event_ok shuffle x loc t order
              (UnconditionalRMWEvent None STATE_UNSET op operand zero zero)
              (exec_reachable_inv x Hr) Hsh Hsm Ht Hloc I)
    as [Hov|[[-> ?]|(ev&v&g'&->&[_ _ _ Hev (w&we&Hwe&Hs&Hl&Hv&Hrd) Hasks _ _]&_)]]; [|by right; left|right; right].
  { left. by do 2 apply overflows_bind. }
  simpl. destruct ev as [i l th o c es k].
  destruct k as [| | |rf st init ca ex de fo|rf st op' operand' ca wr]; simpl in *; try done.
  destruct Hasks as (->&->), Hrd as (->&->&->&Happ).
  eexists v, wr, _, w, we, _. split_and!; try reflexivity; try done.
Qed.

(** C12. A rejected read-from edge leaves the edges, every other event and
    the other tables of the graph as they were; of the reading event only
    the clock and the cached values may differ. *)
Theorem try_rf_edge_undone cur write g g' r :
  opened cur g → g_events g !! cur = Some r → unresolved (ev_kind r) →
  store_at g (ev_location r) write → is_Some (lastSeqCstWriteEvents g !! ev_location r) →
  TryCreateRfEdge ops g write cur = Ret (false, g') →
  ∃ c k, g' = set_event g cur (set_clock c (set_kind k r)) ∧ same_request (ev_kind r) k ∧
    unresolved k.
Proof.
  intros Hop Hr Hu Hw Hl Heq.
  destruct (TryCreateRfEdge_ok ops v_eqb_refl cur write g r Hop Hr Hu Hw Hl) as (b&g1&Heq1&Hb).
  { intros w v Hwe Hv. destruct Hw as (w'&Hwe'&Hws&Hwl). assert (w' = w) as -> by congruence.
    destruct (arith_cases ops (A := bool * Graph T) (ev_kind r) v) as [|(o&Ho&Hno)]; [done|].
    rewrite (TryCreateRfEdge_fails ops cur write g r w v o) in Heq by done. by destruct (Hno (false, g')). }
  rewrite Heq in Heq1. injection Heq1 as <- <-. destruct Hb as (c&k&?&_&?&?). eauto.
Qed.

End Correct.

(** C13. [IsConsistent] always returns, its assertion never fails, and when
    it accepts the graph modification order is acyclic. *)
Theorem is_consistent_sound {T} (g : Graph T) :
  struct_wf (length (g_events g)) g →
  ∃ b, IsConsistent g = Ret b ∧ (b = true → acyclic (mo g)).
Proof. apply IsConsistent_ok. Qed.

(** ** Where the check and the bookkeeping are imprecise *)

Definition diamond_store (i : nat) (es : list nat) : Event Z :=
  mkEvent i 0 0 Relaxed (VectorClock.zero 1) es (WriteEvent 0%Z).

(** Three stores with 0 before 2, 0 before 1 and 1 before 2. *)
Definition diamond : Graph Z :=
  mkGraph [mkEdge 0 MO 0 2; mkEdge 1 MO 0 1; mkEdge 2 MO 1 2]
    [diamond_store 0 [0; 1]; diamond_store 1 [2]; diamond_store 2 []]
    [[0; 1; 2]] ∅ ∅ false 1.

Lemma diamond_struct : struct_wf (length (g_events diamond)) diamond.
Proof.
  split.
  - by intros [|[|[|i]]] e He; simplify_eq/=.
  - intros [|[|[|k]]] ed Hk; simplify_eq/=; lia.
  - by intros [|[|[|i]]] e He; simplify_eq/=.
Qed.

(** The check is incomplete: it reports a cycle for an acyclic
    modification order in which an event is reached both directly and
    through a sibling, because successors are marked when they are pushed. *)
Theorem is_consistent_incomplete :
  struct_wf (length (g_events diamond)) diamond ∧ acyclic (mo diamond) ∧
  IsConsistent diamond = Ret false.
Proof.
  split_and!; [apply diamond_struct| |by vm_compute].
  apply (successors_first_acyclic _ [2; 1; 0]).
  - by apply (bool_decide_unpack (NoDup [2; 1; 0])).
  - intros F1 x F2 HF y (ed&Hin&_&<-&<-). revert HF. set_unfold in Hin.
    destruct Hin as [->|[->|[->|[]]]]; simpl; destruct F1 as [|a [|b [|c F1]]]; simpl;
      intros HF; simplify_eq; set_solver.
  - intros x y (ed&Hin&_&<-&<-). set_unfold in Hin. destruct Hin as [->|[->|[->|[]]]]; simpl; set_solver.
Qed.

(** A compare-exchange of thread 1 after two sequentially consistent stores
    of thread 0, with its candidates tried in the order [order]. The result
    is the store it reads from and its clock. *)
Definition cas_after_two_stores (order : list nat → list nat) : outcome (option nat * list Z) :=
  let x := ResetExecution (mkExec 0 empty_graph) 2 in
  '(loc, x) ← RegisterLocation x 0%Z;
  x ← Store x loc 0 SeqCst 1%Z;
  '(_, _, _, x) ← ReadModifyWrite IntOps order x loc 1 0%Z 5%Z SeqCst Relaxed;
  ev ← event (graph x) 4;
  rf ← GetReadFromEvent ev;
  Ret (rf, VectorClock.times (ev_clock ev)).

(** The clock of a failed relaxed compare-exchange depends on the stores
    that were tried and rejected before: a rejected attempt with the
    sequentially consistent success order leaves its joined clock behind. *)
Theorem rejected_attempt_leaks_clock :
  cas_after_two_stores id = Ret (Some 3, [2; 1]%Z) ∧
  cas_after_two_stores reverse = Ret (Some 3, [0; 1]%Z).
Proof. split; by vm_compute. Qed.
