(* ===== verification/Latomic.v ===== *)
(** * The atomics wrapper

    [ltest::latomic] (runtime/include/latomic.h): a [std::atomic] that also
    reports its operations to the execution graph when weak memory is enabled
    and the caller is a coroutine. The overloads for [volatile] objects forward
    to these definitions; [wait] and [notify] forward to [std::atomic]. *)
From stdpp Require Import base list gmap strings.
From Stdlib Require Import ZArith.
From S2P Require Import Prelude VectorClock WmmEvent Graph GraphConsistent GraphSteps.
From S2P Require Import GraphInvariant GraphRead GraphTry WmmCorrect.

(** ** Memory orders of the language (common.h) *)

Inductive memory_order :=
  | memory_order_relaxed | memory_order_consume | memory_order_acquire
  | memory_order_release | memory_order_acq_rel | memory_order_seq_cst.

Definition OrderFromStd (order : memory_order) : outcome MemoryOrder :=
  match order with
  | memory_order_relaxed => Ret Relaxed
  | memory_order_acquire => Ret Acquire
  | memory_order_release => Ret Release
  | memory_order_acq_rel => Ret AcqRel
  | memory_order_seq_cst => Ret SeqCst
  | memory_order_consume => Throw "Unsupported memory order"
  end.

(** The orders that [std::atomic] allows for a store, and for a load or the
    failure of a compare-exchange. *)
Definition store_order (order : memory_order) : bool :=
  match order with memory_order_relaxed | memory_order_release | memory_order_seq_cst => true | _ => false end.
Definition load_order (order : memory_order) : bool :=
  match order with memory_order_release | memory_order_acq_rel => false | _ => true end.
Definition require (b : bool) : outcome unit := if b then Ret () else UB.

(** ** [latomic<T>] *)
Section Latomic.
Context {T : Type} (ops : ValueOps T).

(** [native] is the arithmetic of [std::atomic<T>]; [zero] and [one] are
    [T{}] and [T(1)]. [shuffle] is the outcome of [std::shuffle]. *)
Context (native : AtomicRmwOp → T → T → T) (zero one : T) (shuffle : list nat → list nat).

Record latomic := mkLatomic { atomicValue : T; locationId : Z }.

(** The globals: [wmm_enabled], whether [this_coro] is set, [this_thread_id]. *)
Record globals := mkGlobals { wmm_enabled : bool; this_coro : bool; this_thread_id : Z }.

Implicit Types (a : latomic) (x : ExecutionGraph T) (e : globals).

Definition set_value (v : T) a : latomic := mkLatomic v (locationId a).

Definition IsWmmEnabled e a : bool :=
  wmm_enabled e && this_coro e && (0 <=? locationId a)%Z && (0 <=? this_thread_id e)%Z.

Definition new (desired : T) e x : outcome (latomic * ExecutionGraph T) :=
  if wmm_enabled e then
    '(loc, x) ← RegisterLocation x desired; Ret (mkLatomic desired loc, x)
  else Ret (mkLatomic desired (-1), x).

Definition store (desired : T) (order : memory_order) e a x : outcome (latomic * ExecutionGraph T) :=
  require (store_order order);;
  let a := set_value desired a in
  if IsWmmEnabled e a then
    o ← OrderFromStd order;
    x ← Store x (locationId a) (Z.to_nat (this_thread_id e)) o desired;
    Ret (a, x)
  else Ret (a, x).

Definition load (order : memory_order) e a x : outcome (T * ExecutionGraph T) :=
  if IsWmmEnabled e a then
    o ← OrderFromStd order;
    Load ops shuffle x (locationId a) (Z.to_nat (this_thread_id e)) o
  else require (load_order order);; Ret (atomicValue a, x).

(** [exchange] and the [fetch_] functions have the same body. *)
Definition rmw (op : AtomicRmwOp) (arg : T) (order : memory_order) e a x :
    outcome (T * latomic * ExecutionGraph T) :=
  let prev := atomicValue a in
  let a := set_value (native op prev arg) a in
  if IsWmmEnabled e a then
    o ← OrderFromStd order;
    '(v, x) ← UnconditionalReadModifyWrite ops shuffle x (locationId a) (Z.to_nat (this_thread_id e))
                op arg zero o;
    Ret (v, a, x)
  else Ret (prev, a, x).

Definition exchange := rmw Exchange.
Definition fetch_add := rmw FetchAdd.
Definition fetch_sub := rmw FetchSub.
Definition fetch_max := rmw FetchMax.
Definition fetch_min := rmw FetchMin.
Definition fetch_and := rmw FetchAnd.
Definition fetch_or := rmw FetchOr.
Definition fetch_xor := rmw FetchXor.

(** The compare-exchange of [std::atomic]: success, the value left in
    [expected], the value of the cell. The weak one may fail spuriously. *)
Definition native_cas (spurious : bool) (expected desired cell : T) : bool * T * T :=
  if v_eqb ops cell expected && negb spurious then (true, expected, desired) else (false, cell, cell).

Definition compare_exchange (spurious : bool) (expected desired : T) (success failure : memory_order) e a x :
    outcome (bool * T * latomic * ExecutionGraph T) :=
  require (load_order failure);;
  let '(value, myExpected, cell) := native_cas spurious expected desired (atomicValue a) in
  let a := set_value cell a in
  if IsWmmEnabled e a then
    s ← OrderFromStd success;
    f ← OrderFromStd failure;
    '(rmwSuccess, _, expected, x) ←
       ReadModifyWrite ops shuffle x (locationId a) (Z.to_nat (this_thread_id e)) expected desired s f;
    Ret (rmwSuccess, expected, a, x)
  else Ret (value, myExpected, a, x).

Definition compare_exchange_strong := compare_exchange false.
Definition compare_exchange_weak := compare_exchange.

(** The overloads with one order. *)
Definition compare_exchange_strong1 (expected desired : T) (order : memory_order) :=
  compare_exchange_strong expected desired order memory_order_seq_cst.
Definition compare_exchange_weak1 (spurious : bool) (expected desired : T) (order : memory_order) :=
  compare_exchange_weak spurious expected desired order memory_order_seq_cst.

(** The operators: the arithmetic after the operation is that of [T]. *)
Definition op_assign (desired : T) e a x : outcome (T * latomic * ExecutionGraph T) :=
  '(a, x) ← store desired memory_order_seq_cst e a x; Ret (desired, a, x).
Definition op_T := load memory_order_seq_cst.

Definition then_apply (op : AtomicRmwOp) (arg : T) e a x : outcome (T * latomic * ExecutionGraph T) :=
  '(v, a, x) ← rmw op arg memory_order_seq_cst e a x;
  v ← ApplyAtomicRmwOp ops op v arg;
  Ret (v, a, x).
Definition op_add_assign := then_apply FetchAdd.
Definition op_sub_assign := then_apply FetchSub.
Definition op_and_assign := then_apply FetchAnd.
Definition op_or_assign := then_apply FetchOr.
Definition op_xor_assign := then_apply FetchXor.
Definition pre_increment := then_apply FetchAdd one.
Definition pre_decrement := then_apply FetchSub one.
Definition post_increment := fetch_add one memory_order_seq_cst.
Definition post_decrement := fetch_sub one memory_order_seq_cst.

(** ** Operations as data *)

Inductive latomic_op :=
  | OpStore (desired : T) (order : memory_order)
  | OpLoad (order : memory_order)
  | OpRmw (op : AtomicRmwOp) (arg : T) (order : memory_order)
  | OpCas (spurious : bool) (expected desired : T) (success failure : memory_order).

(** What an operation returns; a compare-exchange also gives [expected]. *)
Inductive latomic_res := ResUnit | ResValue (v : T) | ResCas (b : bool) (expected : T).

Definition run_op (o : latomic_op) e a x : outcome (latomic_res * latomic * ExecutionGraph T) :=
  match o with
  | OpStore d ord => '(a, x) ← store d ord e a x; Ret (ResUnit, a, x)
  | OpLoad ord => '(v, x) ← load ord e a x; Ret (ResValue v, a, x)
  | OpRmw op arg ord => '(v, a, x) ← rmw op arg ord e a x; Ret (ResValue v, a, x)
  | OpCas sp ex d s f => '(b, ex, a, x) ← compare_exchange sp ex d s f e a x; Ret (ResCas b ex, a, x)
  end.

Fixpoint run_ops (l : list latomic_op) e a x : outcome (list latomic_res * latomic * ExecutionGraph T) :=
  match l with
  | [] => Ret ([], a, x)
  | o :: l =>
      '(r, a, x) ← run_op o e a x;
      '(rs, a, x) ← run_ops l e a x;
      Ret (r :: rs, a, x)
  end.
End Latomic.
Arguments latomic T : clear implicits.
Arguments latomic_op T : clear implicits.
Arguments latomic_res T : clear implicits.

(** ** [int] *)

Definition wrap_int (z : Z) : Z := ((z + 2147483648) mod 4294967296 - 2147483648)%Z.

(** [std::atomic<int>]: addition wraps. *)
Definition atomic_int (op : AtomicRmwOp) (v arg : Z) : Z :=
  match op with
  | Exchange => arg
  | FetchAdd => wrap_int (v + arg)
  | FetchSub => wrap_int (v - arg)
  | FetchAnd => Z.land v arg
  | FetchOr => Z.lor v arg
  | FetchXor => Z.lxor v arg
  | FetchMin => Z.min v arg
  | FetchMax => Z.max v arg
  end.

(** Where [ApplyAtomicRmwOp] is defined it agrees with [std::atomic]. *)
Lemma atomic_int_agrees op v arg r :
  ApplyAtomicRmwOp IntOps op v arg = Ret r → atomic_int op v arg = r.
Proof.
  destruct op; simpl; unfold int_result.
  1,4,5,6: by intros [= <-].
  1,2: destruct (andb _ _) eqn:E; [|done]; intros [= <-]; unfold wrap_int;
    apply andb_true_iff in E as [?%Z.leb_le ?%Z.leb_le]; rewrite Z.mod_small by lia; lia.
  - destruct (Z.ltb_spec arg v); intros [= <-]; lia.
  - destruct (Z.ltb_spec v arg); intros [= <-]; lia.
Qed.

(** ** Outside a coroutine: a register *)
Section Register.
Context {T : Type} (ops : ValueOps T) (native : AtomicRmwOp → T → T → T) (zero : T).
Implicit Types (a : latomic T) (x : ExecutionGraph T) (v : T).

(** The atomic register of the standard: result and new value. *)
Definition register_step (o : latomic_op T) v : outcome (latomic_res T * T) :=
  match o with
  | OpStore d ord => require (store_order ord);; Ret (ResUnit, d)
  | OpLoad ord => require (load_order ord);; Ret (ResValue v, v)
  | OpRmw op arg _ => Ret (ResValue v, native op v arg)
  | OpCas sp ex d _ f =>
      require (load_order f);;
      Ret (if v_eqb ops v ex && negb sp then (ResCas true ex, d) else (ResCas false v, v))
  end.

Fixpoint register_steps (l : list (latomic_op T)) v : outcome (list (latomic_res T) * T) :=
  match l with
  | [] => Ret ([], v)
  | o :: l =>
      '(r, v) ← register_step o v;
      '(rs, v) ← register_steps l v;
      Ret (r :: rs, v)
  end.

(** Without weak memory every sequence of operations behaves as on
    [std::atomic], and the execution graph is not touched. *)
Lemma run_ops_register shuffle l e a x :
  IsWmmEnabled e a = false →
  run_ops ops native zero shuffle l e a x =
    ('(rs, v) ← register_steps l (atomicValue a); Ret (rs, set_value v a, x)).
Proof.
  revert a. induction l as [|o l IH]; intros a He; simpl; [by destruct a|].
  assert (∀ v, IsWmmEnabled e (set_value v a) = false) as He' by done.
  destruct o as [d ord|ord|op arg ord|sp ex d s f]; simpl.
  - unfold store. destruct (store_order ord); simpl; [|done]. rewrite He'. simpl. rewrite IH by done. simpl.
    by destruct (register_steps l d) as [[]| | | |].
  - unfold load. rewrite He. destruct (load_order ord); simpl; [|done]. rewrite IH by done.
    by destruct (register_steps l (atomicValue a)) as [[]| | | |].
  - unfold rmw. rewrite He'. simpl. rewrite IH by done. simpl.
    by destruct (register_steps l (native op (atomicValue a) arg)) as [[]| | | |].
  - unfold compare_exchange. destruct (load_order f); simpl; [|done]. unfold native_cas.
    destruct (v_eqb ops (atomicValue a) ex && negb sp); simpl; rewrite He'; simpl; rewrite IH by done; simpl.
    + by destruct (register_steps l d) as [[]| | | |].
    + by destruct (register_steps l (atomicValue a)) as [[]| | | |].
Qed.
End Register.

(** ** In a coroutine: the weak memory of the graph *)
Section Weak.
Context {T : Type} (ops : ValueOps T) (v_eqb_refl : ∀ v, v_eqb ops v v = true).
Context (native : AtomicRmwOp → T → T → T) (zero : T).
Implicit Types (a : latomic T) (x : ExecutionGraph T) (v : T).

(** The atomic has a location of the graph, and the graph may grow. *)
Record registered_in (e : globals) a x : Prop := {
  ri_reachable : reachable ops x;
  ri_small : small (graph x);
  ri_thread : (0 ≤ this_thread_id e)%Z ∧ Z.to_nat (this_thread_id e) < nThreads (graph x);
  ri_location : (0 ≤ locationId a < nextLocationId x)%Z;
  ri_wmm : wmm_enabled e = true ∧ this_coro e = true;
}.

(** The orders are ones that the language and the graph support. *)
Definition supported (ord : memory_order) : Prop := ord ≠ memory_order_consume.
Definition op_allowed (o : latomic_op T) : Prop :=
  match o with
  | OpStore _ ord => store_order ord = true
  | OpLoad ord => supported ord
  | OpRmw _ _ ord => supported ord
  | OpCas _ _ _ s f => supported s ∧ supported f ∧ load_order f = true
  end.

(** [v] is the value of a store of the location. *)
Definition stored_at x (loc : Z) v : Prop :=
  ∃ w we, g_events (graph x) !! w = Some we ∧ is_store we = true ∧ ev_location we = loc ∧ GetWrittenValue we = Ret v.

(** The event that the operation added: on the location of the atomic, by the
    calling thread, with the order [ord]. *)
Definition appended e a x x' (ord : memory_order) (ev : Event T) : Prop :=
  g_events (graph x') !! length (g_events (graph x)) = Some ev ∧ ev_location ev = locationId a ∧
  ev_threadId ev = Z.to_nat (this_thread_id e) ∧ OrderFromStd ord = Ret (ev_order ev).

(** It reads the value [v] of a store of the location. *)
Definition reads_stored a x' (ev : Event T) v : Prop :=
  ∃ w we, GetReadFromEvent ev = Ret (Some w) ∧ g_events (graph x') !! w = Some we ∧ is_store we = true ∧
    ev_location we = locationId a ∧ GetWrittenValue we = Ret v.

Definition weak_result (o : latomic_op T) (r : latomic_res T) e a x x' : Prop :=
  match o, r with
  | OpStore d ord, ResUnit => ∃ ev, appended e a x x' ord ev ∧ ev_kind ev = WriteEvent d
  | OpLoad ord, ResValue v => ∃ ev, appended e a x x' ord ev ∧ reads_stored a x' ev v ∧ is_store ev = false
  | OpRmw op arg ord, ResValue v =>
      ∃ ev v', appended e a x x' ord ev ∧ reads_stored a x' ev v ∧ ApplyAtomicRmwOp ops op v arg = Ret v' ∧
        is_store ev = true ∧ GetWrittenValue ev = Ret v'
  | OpCas _ ex d s _, ResCas b ex' =>
      ∃ ev v, appended e a x x' s ev ∧ reads_stored a x' ev v ∧ b = v_eqb ops v ex ∧
        if b then ex' = ex ∧ is_store ev = true ∧ GetWrittenValue ev = Ret d
        else ex' = v ∧ is_store ev = false
  | _, _ => False
  end.

(** The arithmetic of a read-modify-write is undefined on the value of a store
    of the location, as signed addition is when it overflows; [out] is how. *)
Definition undefined_result {A} (o : latomic_op T) a x (out : outcome A) : Prop :=
  match o with
  | OpRmw op arg _ =>
      ∃ v, stored_at x (locationId a) v ∧ (∀ v', ApplyAtomicRmwOp ops op v arg ≠ Ret v') ∧
        out = (ApplyAtomicRmwOp ops op v arg ≫= λ _, UB)
  | _ => False
  end.

Lemma supported_order ord : supported ord → ∃ o, OrderFromStd ord = Ret o.
Proof. unfold supported. destruct ord; eauto; done. Qed.

Lemma registered_enabled e a x v : registered_in e a x → IsWmmEnabled e (set_value v a) = true.
Proof.
  intros [_ _ [? _] [? _] [Hw Hc]]. unfold IsWmmEnabled. simpl. rewrite Hw, Hc.
  by rewrite !(proj2 (Z.leb_le _ _)) by done.
Qed.

(** The event with which an operation reads. *)
Definition op_event (o : latomic_op T) : option (memory_order * EventKind T) :=
  match o with
  | OpStore _ _ => None
  | OpLoad ord => Some (ord, ReadEvent None)
  | OpRmw op arg ord => Some (ord, UnconditionalRMWEvent None STATE_UNSET op arg zero zero)
  | OpCas _ ex d s f =>
      match OrderFromStd f with
      | Ret f => Some (s, CASRMWEvent None STATE_UNSET ex ex ex d f)
      | _ => None
      end
  end.

(** Every store the operation could read from is rejected. *)
Definition nothing_to_read shuffle (o : latomic_op T) e a x : Prop :=
  ∃ ord k m, op_event o = Some (ord, k) ∧ OrderFromStd ord = Ret m ∧
    no_candidate ops shuffle (graph x) (new_event (graph x) (locationId a) (Z.to_nat (this_thread_id e)) m k).

(** The events of reading operations are fit for [read_event_ok]. *)
Lemma op_event_unresolved o ord k : op_allowed o → op_event o = Some (ord, k) → unresolved k.
Proof.
  destruct o as [d ord'|ord'|op arg ord'|sp ex d s f]; simpl; [done|..].
  - by intros _ [= <- <-].
  - by intros _ [= <- <-].
  - intros (_&Hf&_). destruct (supported_order f Hf) as [m ->]. by intros [= <- <-].
Qed.

(** The parts of a read that the results speak of. *)
Lemma read_done_reads g g' ev v loc t m k n a e x ord :
  read_done ops g g' (new_event g loc t m k) ev v → locationId a = loc → t = Z.to_nat (this_thread_id e) →
  graph x = g → OrderFromStd ord = Ret m →
  appended e a x (mkExec n g') ord ev ∧ reads_stored a (mkExec n g') ev v.
Proof.
  intros [_ _ _ Hev (w&we&?&?&?&?&Hrd) _ (Hl&Ht&Hm) _] <- -> <- Ho. simpl in *.
  split; [by split_and!; rewrite ?Hm|]. exists w, we. destruct (reading_facts _ _ _ _ Hrd) as (?&_). by split_and!.
Qed.

Lemma weak_read shuffle o ord k m e a x :
  registered_in e a x → op_allowed o → (∀ l, shuffle l ≡ₚ l) →
  op_event o = Some (ord, k) → OrderFromStd ord = Ret m →
  let ev0 := new_event (graph x) (locationId a) (Z.to_nat (this_thread_id e)) m k in
  overflows ops (graph x) ev0 (add_reading_event ops shuffle (graph x) ev0) ∨
  add_reading_event ops shuffle (graph x) ev0 = AssertFail ∧ nothing_to_read shuffle o e a x ∨
  ∃ ev v g', add_reading_event ops shuffle (graph x) ev0 = Ret (ev, v, g') ∧ read_done ops (graph x) g' ev0 ev v.
Proof.
  intros [Hr Hsm [_ Ht] Hl _] Ho Hsh He Hm ev0.
  destruct (read_event_ok ops v_eqb_refl shuffle x (locationId a) (Z.to_nat (this_thread_id e)) m k
    (exec_reachable_inv ops v_eqb_refl x Hr) Hsh Hsm Ht Hl (op_event_unresolved o ord k Ho He))
    as [Hov|[[Hf Hn]|(ev&v&g'&Hf&Hd&_)]]; [by left|right; left|right; right; by exists ev, v, g'].
  split; [done|]. by exists ord, k, m.
Qed.

(** The operation returned: the graph is reachable, the atomic keeps its
    location, and the result is the one the graph allows. *)
Definition weak_done shuffle (o : latomic_op T) e a x : Prop :=
  ∃ r a' x', run_op ops native zero shuffle o e a x = Ret (r, a', x') ∧
    reachable ops x' ∧ locationId a' = locationId a ∧ nextLocationId x' = nextLocationId x ∧
    weak_result o r e a x x'.

Lemma weak_store shuffle d ord e a x :
  registered_in e a x → store_order ord = true → weak_done shuffle (OpStore d ord) e a x.
Proof.
  intros Hri Hord. pose proof Hri as [Hr Hsm [_ Ht] Hl _].
  destruct (supported_order ord) as [m Hm]; [by intros ->|].
  destruct (Store_exec_inv x (locationId a) (Z.to_nat (this_thread_id e)) m d
    (exec_reachable_inv ops v_eqb_refl x Hr) Hsm Ht) as (g'&Hg&_&_&we&Hwe&Hk&Hloc&Hth&Hor).
  assert (Store x (locationId a) (Z.to_nat (this_thread_id e)) m d = Ret (mkExec (nextLocationId x) g')) as HS.
  { unfold Store. by rewrite Hg. }
  exists ResUnit, (set_value d a), (mkExec (nextLocationId x) g'). simpl. unfold store. rewrite Hord. simpl.
  rewrite (registered_enabled e a x d Hri), Hm. simpl. rewrite HS. split_and!; try done.
  - by eapply reach_step; [exact Hr|eapply step_store].
  - exists we. split; [|done]. by split_and!; rewrite ?Hor.
Qed.

Lemma weak_load shuffle ord e a x :
  registered_in e a x → (∀ l, shuffle l ≡ₚ l) → supported ord →
  run_op ops native zero shuffle (OpLoad ord) e a x = AssertFail ∧ nothing_to_read shuffle (OpLoad ord) e a x ∨
  weak_done shuffle (OpLoad ord) e a x.
Proof.
  intros Hri Hsh Hord. pose proof Hri as [Hr Hsm [_ Ht] Hl _]. destruct (supported_order ord Hord) as [m Hm].
  pose proof (registered_enabled e a x (atomicValue a) Hri) as He.
  destruct a as [av loc]. unfold set_value in He. simpl in He.
  destruct (weak_read shuffle (OpLoad ord) ord _ m e _ x Hri Hord Hsh eq_refl Hm)
    as [(?&?&?&_&_&_&_&[])|[[Hf Hn]|(ev&v&g'&Hf&Hd)]]; simpl in *.
  - left. split; [|done]. unfold load. rewrite He, Hm. simpl. unfold Load, AddReadEvent. simpl. by rewrite Hf.
  - right. assert (Load ops shuffle x loc (Z.to_nat (this_thread_id e)) m = Ret (v, mkExec (nextLocationId x) g')) as HL.
    { unfold Load, AddReadEvent. by rewrite Hf. }
    exists (ResValue v), (mkLatomic av loc), (mkExec (nextLocationId x) g'). simpl. unfold load. rewrite He, Hm. simpl.
    rewrite HL. split_and!; try done.
    + by eapply reach_step; [exact Hr|eapply step_load].
    + destruct (read_done_reads _ _ _ _ _ _ _ _ (nextLocationId x) (mkLatomic av loc) e x ord Hd) as [? ?]; try done.
      exists ev. split_and!; [done..|]. destruct Hd as [_ _ _ _ _ Hasks _ _]. unfold is_store, IsWrite, IsModifyRMW, ev_type.
      by destruct (ev_kind ev).
Qed.

Lemma weak_rmw shuffle op arg ord e a x :
  registered_in e a x → (∀ l, shuffle l ≡ₚ l) → op_allowed (OpRmw op arg ord) →
  undefined_result (OpRmw op arg ord) a x (run_op ops native zero shuffle (OpRmw op arg ord) e a x) ∨
  run_op ops native zero shuffle (OpRmw op arg ord) e a x = AssertFail ∧
    nothing_to_read shuffle (OpRmw op arg ord) e a x ∨
  weak_done shuffle (OpRmw op arg ord) e a x.
Proof.
  intros Hri Hsh Ho. pose proof Hri as [Hr Hsm [_ Ht] Hl _].
  destruct (supported_order ord Ho) as [m Hm].
  pose proof (registered_enabled e a x (native op (atomicValue a) arg) Hri) as He.
  assert (run_op ops native zero shuffle (OpRmw op arg ord) e a x =
    (('(_, v, g) ← add_reading_event ops shuffle (graph x) (new_event (graph x) (locationId a)
        (Z.to_nat (this_thread_id e)) m (UnconditionalRMWEvent None STATE_UNSET op arg zero zero));
      Ret (ResValue v, set_value (native op (atomicValue a) arg) a, mkExec (nextLocationId x) g)))) as Hrun.
  { simpl. unfold rmw. rewrite He, Hm. simpl. unfold UnconditionalReadModifyWrite, AddUnconditionalRMWEvent. simpl.
    by destruct (add_reading_event _ _ _ _) as [[[? ?] ?]| | | |]. }
  destruct (weak_read shuffle (OpRmw op arg ord) ord _ m e _ x Hri Ho Hsh eq_refl Hm)
    as [Hov|[[Hf Hn]|(ev&v&g'&Hf&Hd)]].
  - left. rewrite Hrun. apply (overflows_bind ops _ _ (λ '(_, v, g), Ret (ResValue v,
      set_value (native op (atomicValue a) arg) a, mkExec (nextLocationId x) g))) in Hov.
    destruct Hov as (w&we&v&?&?&?&?&Hn&Hf). exists v. split_and!; [by exists w, we|done|exact Hf].
  - right; left. split; [|done]. by rewrite Hrun, Hf.
  - right; right. assert (UnconditionalReadModifyWrite ops shuffle x (locationId a) (Z.to_nat (this_thread_id e)) op arg zero m
      = Ret (v, mkExec (nextLocationId x) g')) as HR.
    { unfold UnconditionalReadModifyWrite, AddUnconditionalRMWEvent. simpl. by rewrite Hf. }
    exists (ResValue v), (set_value (native op (atomicValue a) arg) a), (mkExec (nextLocationId x) g').
    rewrite Hrun, Hf. split_and!; try done.
    + by eapply reach_step; [exact Hr|eapply step_rmw].
    + destruct (read_done_reads _ _ _ _ _ _ _ _ (nextLocationId x) a e x ord Hd) as [? ?]; try done.
      destruct Hd as [_ _ _ Hev (w&we&_&_&_&_&Hrd) Hasks _ _]. exists ev. destruct ev as [i l th o c es k]. simpl in *.
      destruct k as [| | | |rf st op' operand' ca wr]; simpl in *; try done.
      destruct Hasks as [<- <-], Hrd as (->&->&->&Happ). exists wr. by split_and!.
Qed.

Lemma run_cas shuffle sp ex d s f ms mf e a x :
  registered_in e a x → load_order f = true → OrderFromStd s = Ret ms → OrderFromStd f = Ret mf →
  run_op ops native zero shuffle (OpCas sp ex d s f) e a x =
    ('(b, _, ex', x') ← ReadModifyWrite ops shuffle x (locationId a) (Z.to_nat (this_thread_id e)) ex d ms mf;
     Ret (ResCas b ex', set_value (native_cas ops sp ex d (atomicValue a)).2 a, x')).
Proof.
  intros Hri Hlo Hms Hmf. simpl. unfold compare_exchange. rewrite Hlo. simpl.
  destruct (native_cas ops sp ex d (atomicValue a)) as [[b ex'] cell].
  rewrite (registered_enabled e a x cell Hri), Hms, Hmf. simpl.
  by destruct (ReadModifyWrite _ _ _ _ _ _ _ _ _) as [[[[? ?] ?] ?]| | | |].
Qed.

Lemma weak_cas shuffle sp ex d s f e a x :
  registered_in e a x → (∀ l, shuffle l ≡ₚ l) → op_allowed (OpCas sp ex d s f) →
  run_op ops native zero shuffle (OpCas sp ex d s f) e a x = AssertFail ∧
    nothing_to_read shuffle (OpCas sp ex d s f) e a x ∨
  weak_done shuffle (OpCas sp ex d s f) e a x.
Proof.
  intros Hri Hsh Ho. pose proof Hri as [Hr Hsm [_ Ht] Hl _]. pose proof Ho as (Hs&Hf&Hlo).
  destruct (supported_order s Hs) as [ms Hms], (supported_order f Hf) as [mf Hmf].
  assert (op_event (OpCas sp ex d s f) = Some (s, CASRMWEvent None STATE_UNSET ex ex ex d mf)) as Hoe
    by by simpl; rewrite Hmf.
  unfold weak_done. setoid_rewrite (run_cas shuffle sp ex d s f ms mf e a x Hri Hlo Hms Hmf).
  destruct (weak_read shuffle _ s _ ms e a x Hri Ho Hsh Hoe Hms)
    as [(?&?&?&_&_&_&_&[])|[[Hrf Hn]|(ev&v&g'&Hrf&Hd)]].
  { left. split; [|done]. unfold ReadModifyWrite, AddRMWEvent. simpl. by rewrite Hrf. }
  right. destruct (read_done_reads _ _ _ _ _ _ _ _ (nextLocationId x) a e x s Hd) as [Hap Hre]; try done.
  pose proof Hd as [_ _ _ Hev (w&we&_&_&_&_&Hrd) Hasks _ _].
  destruct ev as [i l th o c es k]. simpl in Hrd, Hasks.
  destruct k as [| | |rf st init ca ex' de fo|]; try done. destruct Hasks as (<-&<-&<-), Hrd as [-> Hst].
  assert (ReadModifyWrite ops shuffle x (locationId a) (Z.to_nat (this_thread_id e)) ex d ms mf =
    Ret (v_eqb ops v ex, v, ex', mkExec (nextLocationId x) g')) as HR.
  { unfold ReadModifyWrite, AddRMWEvent. simpl. rewrite Hrf. simpl.
    unfold IsModifyRMW, IsRMW, ev_type. simpl. by destruct (v_eqb ops v ex); destruct Hst as [-> ->]. }
  rewrite HR. simpl. eexists _, _, _. split_and!; [done| |done|done|].
  - by eapply reach_step; [exact Hr|eapply step_cas].
  - eexists _, v. split_and!; [exact Hap|exact Hre|done|].
    destruct (v_eqb ops v ex); destruct Hst as [-> ->]; by split_and!.
Qed.


(** A new atomic gets a location of its own. *)
Lemma new_registered desired e x :
  wmm_enabled e = true → reachable ops x → small (graph x) → 0 < nThreads (graph x) →
  ∃ a x', new desired e x = Ret (a, x') ∧ reachable ops x' ∧ atomicValue a = desired ∧
    locationId a = nextLocationId x ∧ nextLocationId x' = (nextLocationId x + 1)%Z.
Proof.
  intros He Hr Hsm Ht.
  destruct (Store_exec_inv x (nextLocationId x) INIT_THREAD_ID SeqCst desired (exec_reachable_inv ops v_eqb_refl x Hr) Hsm Ht)
    as (g'&Hg&_).
  assert (RegisterLocation x desired = Ret (nextLocationId x, mkExec (nextLocationId x + 1) g')) as HR.
  { unfold RegisterLocation. by rewrite Hg. }
  eexists _, _. unfold new. rewrite He, HR. simpl. split_and!; [done| |done..].
  by eapply reach_step; [exact Hr|eapply step_register].
Qed.
End Weak.

(** ** Where the wrapper and the language part ways *)

Definition on_thread (t : Z) : globals := mkGlobals true true t.

(** Threads 0 and 1 store 1 and 2; thread 1 loads, and exchanges 1 for 3.
    The result: its load, whether the exchange happened, what a load outside
    of a coroutine returns, and what thread 1 reads afterwards. *)
Definition cas_on_older_store (order : list nat → list nat) : outcome (Z * bool * Z * Z) :=
  '(a, x) ← new 0%Z (on_thread 0) (ResetExecution (mkExec 0 empty_graph) 2);
  '(a, x) ← store 1%Z memory_order_relaxed (on_thread 0) a x;
  '(a, x) ← store 2%Z memory_order_relaxed (on_thread 1) a x;
  '(first, x) ← load IntOps id memory_order_relaxed (on_thread 1) a x;
  '(b, _, a, x) ← compare_exchange_strong IntOps reverse 1%Z 3%Z memory_order_relaxed memory_order_relaxed
                    (on_thread 1) a x;
  '(outside, x) ← load IntOps id memory_order_seq_cst (mkGlobals true false 0) a x;
  '(inside, _) ← load IntOps order memory_order_relaxed (on_thread 1) a x;
  Ret (first, b, outside, inside).

(** The graph lets the exchange happen and the cell does not: outside of a
    coroutine the atomic has a value that was overwritten. And thread 1 reads
    the initial value after its own store: the initial store is an event of
    thread 0, ordered with no operation of another thread. *)
Lemma cell_and_graph_diverge :
  cas_on_older_store id = Ret (0, true, 2, 3)%Z ∧ cas_on_older_store reverse = Ret (0, true, 2, 3)%Z.
Proof. split; by vm_compute. Qed.

(** [std::atomic<int>] wraps; [latomic<int>::operator++] does not. *)
Lemma increment_overflows :
  let a := mkLatomic 2147483647%Z (-1) in
  pre_increment IntOps atomic_int 0%Z 1%Z id (mkGlobals false false (-1)) a (mkExec 0 empty_graph) = UB ∧
  atomic_int FetchAdd 2147483647 1 = (-2147483648)%Z.
Proof. split; by vm_compute. Qed.
