(* ===== verification/StableVector.v ===== *)
(** * StableVector: a vector whose elements never move

    Models runtime/include/stable_vector.h. Element [i] lives in the block
    [log2 (i + 1)], at the position [(i + 1) xor 2^block]; block [k] has
    [2^k] slots. A null block is [None], a slot without a constructed
    element is [None]. Sizes are 64-bit ([size_t]). *)
From stdpp Require Import base list numbers.
From Stdlib Require Import ZArith.
From S2P Require Import Prelude.

Open Scope Z_scope.

Definition kBlocks : nat := 31.

Record StableVector (T : Type) := mkVec {
  entities : list (option (list (option T)));
  total_size : Z;
}.
Arguments mkVec {T} _ _.
Arguments entities {T} _.
Arguments total_size {T} _.

Section StableVector.
Context {T : Type}.
Implicit Types (v : StableVector T) (l : list T).

Definition empty_vec : StableVector T := mkVec (replicate kBlocks None) 0.

(** [63 - __builtin_clzll(n)], undefined on 0. *)
Definition top_bit (n : Z) : outcome Z := if n =? 0 then UB else Ret (Z.log2 n).

(** [entities[i]]: the array has 31 entries. *)
Definition entity v (i : Z) : outcome (option (list (option T))) :=
  deref (entities v !! Z.to_nat i).

(** The block at [i], which must not be null. *)
Definition block v (i : Z) : outcome (list (option T)) := e ← entity v i; deref e.

Definition set_entity v (i : Z) (b : option (list (option T))) : StableVector T :=
  mkVec (<[Z.to_nat i := b]> (entities v)) (total_size v).

Definition size v : Z := total_size v.
Definition empty v : bool := size v =? 0.

Definition emplace_back v (x : T) : outcome (StableVector T) :=
  index ← top_bit (total_size v + 1);
  e ← entity v index;
  let v := if (Z.land (total_size v + 1) (total_size v) =? 0) && bool_decide (e = None)
           then set_entity v index (Some (replicate (Z.to_nat (2 ^ index)) None)) else v in
  let internal_index := Z.lxor (total_size v + 1) (2 ^ index) in
  b ← block v index;
  _ ← deref (b !! Z.to_nat internal_index);
  let v := set_entity v index (Some (<[Z.to_nat internal_index := Some x]> b)) in
  Ret (mkVec (entities v) (total_size v + 1)).

(** [pop_back] also frees the block after the one it empties to its first slot. *)
Definition pop_back v : outcome (StableVector T) :=
  index ← top_bit (total_size v);
  v ← (if Z.land (total_size v - 1) (total_size v) =? 0
       then e ← entity v (index + 1);
            Ret (if bool_decide (e = None) then v else set_entity v (index + 1) None)
       else Ret v);
  let internal_index := Z.lxor (total_size v) (2 ^ index) in
  b ← block v index;
  slot ← deref (b !! Z.to_nat internal_index);
  _ ← deref slot;
  let v := set_entity v index (Some (<[Z.to_nat internal_index := None]> b)) in
  Ret (mkVec (entities v) (total_size v - 1)).

Definition subscript v (i : Z) : outcome T :=
  let i := (i + 1) mod 2 ^ 64 in
  index ← top_bit i;
  b ← block v index;
  slot ← deref (b !! Z.to_nat (Z.lxor i (2 ^ index)));
  deref slot.

(** Writing through the reference [operator[]] returns. *)
Definition assign v (i : Z) (x : T) : outcome (StableVector T) :=
  let i := (i + 1) mod 2 ^ 64 in
  index ← top_bit i;
  b ← block v index;
  slot ← deref (b !! Z.to_nat (Z.lxor i (2 ^ index)));
  _ ← deref slot;
  Ret (set_entity v index (Some (<[Z.to_nat (Z.lxor i (2 ^ index)) := Some x]> b))).

Definition front v : outcome T := subscript v 0.
Definition back v : outcome T := subscript v ((total_size v - 1) mod 2 ^ 64).

Fixpoint grow_loop (k : nat) v (x : T) : outcome (StableVector T) :=
  match k with
  | O => Ret v
  | S k => v ← emplace_back v x; grow_loop k v x
  end.

Fixpoint shrink_loop (k : nat) v : outcome (StableVector T) :=
  match k with
  | O => Ret v
  | S k => v ← pop_back v; shrink_loop k v
  end.

(** [resize]; [x] is the default-constructed element. Each iteration of a
    loop changes the size by one, so the counts are exact. *)
Definition resize v (new_size : Z) (x : T) : outcome (StableVector T) :=
  v ← grow_loop (Z.to_nat (new_size - total_size v)) v x;
  shrink_loop (Z.to_nat (total_size v - new_size)) v.

(** [StableVector(StableVector&&)] and [operator=(StableVector&&)]: the two
    objects after the operation. *)
Definition move_construct (rhs : StableVector T) : StableVector T * StableVector T :=
  (mkVec (entities rhs) (total_size rhs), mkVec (replicate kBlocks None) (total_size rhs)).
Definition move_assign v (rhs : StableVector T) : StableVector T * StableVector T :=
  (mkVec (entities rhs) (total_size rhs), mkVec (entities v) 0).

(** The destructor, as the list of elements it destroys. *)
Definition destroy_block v (k : nat) (b : list (option T)) : list (option T) :=
  take (Z.to_nat (Z.min (2 ^ Z.of_nat k) (size v + 1 - 2 ^ Z.of_nat k))) b.

Fixpoint destroy_from v (k : nat) (es : list (option (list (option T)))) : list (option T) :=
  match es with
  | Some b :: es => destroy_block v k b ++ destroy_from v (S k) es
  | _ => []
  end.

Definition destroy v : list (option T) := destroy_from v 0 (entities v).

(** ** Indices *)

(** Position [n = i + 1] of an element: its block and its slot. *)
Definition slot_index (n : Z) : Z := n - 2 ^ Z.log2 n.

Lemma log2_bounds n : 0 < n → 2 ^ Z.log2 n ≤ n < 2 * 2 ^ Z.log2 n.
Proof.
  intros Hn. pose proof (Z.log2_spec n Hn) as [? H2]. pose proof (Z.log2_nonneg n).
  rewrite Z.pow_succ_r in H2 by done. lia.
Qed.

Lemma slot_xor n : 0 < n → Z.lxor n (2 ^ Z.log2 n) = slot_index n.
Proof.
  intros Hn. unfold slot_index. pose proof (Z.log2_nonneg n).
  assert (Hsub : Z.ldiff (2 ^ Z.log2 n) n = 0).
  { apply Z.bits_inj'. intros k Hk. rewrite Z.ldiff_spec, Z.bits_0.
    destruct (Z.eq_dec k (Z.log2 n)) as [->|Hne].
    - rewrite Z.bit_log2 by done. by rewrite andb_false_r.
    - by rewrite Z.pow2_bits_false by done. }
  rewrite Z.sub_nocarry_ldiff by done. apply Z.bits_inj'. intros k Hk.
  rewrite Z.lxor_spec, Z.ldiff_spec. destruct (Z.eq_dec k (Z.log2 n)) as [->|Hne].
  - rewrite Z.bit_log2, Z.pow2_bits_true by done. done.
  - rewrite Z.pow2_bits_false by done. by destruct (Z.testbit n k).
Qed.

Lemma slot_range n : 0 < n → 0 ≤ slot_index n < 2 ^ Z.log2 n.
Proof. intros Hn. pose proof (log2_bounds n Hn). unfold slot_index. lia. Qed.

(** [(n & (n - 1)) == 0] tests for powers of two. *)
Lemma land_pred n : 0 < n → Z.land n (n - 1) = 0 ↔ n = 2 ^ Z.log2 n.
Proof.
  intros Hn. pose proof (Z.log2_nonneg n) as Hk. split.
  - intros Hl. destruct (Z.eq_dec n (2 ^ Z.log2 n)) as [?|Hne]; [done|].
    pose proof (log2_bounds n Hn).
    assert (Hlog : Z.log2 (n - 1) = Z.log2 n).
    { apply Z.log2_unique; [done|]. rewrite Z.pow_succ_r by done. lia. }
    assert (Hb : Z.testbit (Z.land n (n - 1)) (Z.log2 n) = true).
    { rewrite Z.land_spec, Z.bit_log2 by done. rewrite <-Hlog, Z.bit_log2; [done|lia]. }
    by rewrite Hl, Z.bits_0 in Hb.
  - intros He. rewrite He at 2. replace (2 ^ Z.log2 n - 1) with (Z.ones (Z.log2 n)).
    + rewrite Z.land_ones by done. rewrite He at 1. apply Z.mod_same. lia.
    + rewrite Z.ones_equiv. lia.
Qed.

Lemma log2_lt n : 0 < n < 2 ^ 31 → 0 ≤ Z.log2 n < 31.
Proof. intros Hn. split; [apply Z.log2_nonneg|]. apply Z.log2_lt_pow2; lia. Qed.

(** Positions are determined by block and slot. *)
Lemma slot_inj n m :
  0 < n → 0 < m → Z.log2 n = Z.log2 m → slot_index n = slot_index m → n = m.
Proof. unfold slot_index. intros ?? ->. lia. Qed.

(** ** Refinement of a list *)

(** The block and slot of position [n]. *)
Definition slot_at v (n : Z) : option (option T) :=
  match entities v !! Z.to_nat (Z.log2 n) with
  | Some (Some b) => b !! Z.to_nat (slot_index n)
  | _ => None
  end.

Record repr v l : Prop := {
  re_size : total_size v = Z.of_nat (length l);
  re_bound : Z.of_nat (length l) < 2 ^ 31;
  re_blocks : length (entities v) = kBlocks;
  re_block k b : entities v !! k = Some (Some b) → Z.of_nat (length b) = 2 ^ Z.of_nat k;
  re_elem i x : l !! i = Some x → slot_at v (Z.of_nat i + 1) = Some (Some x);
  (** constructed slots hold elements: nothing is leaked or overwritten *)
  re_raw n x : 0 < n → slot_at v n = Some (Some x) → n ≤ Z.of_nat (length l);
}.

Lemma repr_empty : repr empty_vec [].
Proof.
  split; try done.
  - intros k b Hk. apply lookup_replicate in Hk as [? _]. done.
  - intros n x Hn Hs. unfold slot_at, empty_vec, entities in Hs.
    destruct (replicate kBlocks None !! _) as [[b|]|] eqn:Hb; try done.
    apply lookup_replicate in Hb as [? _]. done.
Qed.

Lemma slot_at_block v n s :
  slot_at v n = Some s →
  ∃ b, entities v !! Z.to_nat (Z.log2 n) = Some (Some b) ∧ b !! Z.to_nat (slot_index n) = Some s.
Proof. unfold slot_at. destruct (entities v !! _) as [[b|]|]; naive_solver. Qed.

(** Every block of a position in use is allocated. *)
Lemma repr_alloc v l n :
  repr v l → 0 < n ≤ Z.of_nat (length l) →
  ∃ b, entities v !! Z.to_nat (Z.log2 n) = Some (Some b) ∧ Z.of_nat (length b) = 2 ^ Z.log2 n.
Proof.
  intros Hr Hn. destruct (lookup_lt_is_Some_2 l (Z.to_nat (n - 1))) as [x Hx]; [lia|].
  pose proof (re_elem _ _ Hr _ _ Hx) as Hs. replace (Z.of_nat (Z.to_nat (n - 1)) + 1) with n in Hs by lia.
  apply slot_at_block in Hs as (b&Hb&_). exists b. split; [done|].
  rewrite (re_block _ _ Hr _ _ Hb). f_equal. pose proof (Z.log2_nonneg n). lia.
Qed.

Lemma subscript_ok v l i x :
  repr v l → l !! i = Some x → subscript v (Z.of_nat i) = Ret x.
Proof.
  intros Hr Hx. pose proof (re_bound _ _ Hr). apply lookup_lt_Some in Hx as Hi.
  unfold subscript, top_bit, block, entity. rewrite Z.mod_small by lia.
  rewrite (proj2 (Z.eqb_neq _ _)) by lia. simpl.
  destruct (slot_at_block _ _ _ (re_elem _ _ Hr _ _ Hx)) as (b&Hb&Hs).
  rewrite Hb. simpl. rewrite slot_xor by lia. rewrite Hs. done.
Qed.

(** Reading a slot after an update of one position. *)
Lemma slot_at_insert v m n (s : option T) b :
  0 < m → 0 < n → length (entities v) = kBlocks →
  entities v !! Z.to_nat (Z.log2 m) = Some (Some b) → slot_index m < Z.of_nat (length b) →
  slot_at (set_entity v (Z.log2 m) (Some (<[Z.to_nat (slot_index m) := s]> b))) n =
  (if decide (m = n) then Some s else slot_at v n).
Proof.
  intros Hm Hn Hlen Hb Hlt. unfold slot_at, set_entity. simpl.
  pose proof (Z.log2_nonneg m). pose proof (Z.log2_nonneg n).
  pose proof (slot_range m Hm). pose proof (slot_range n Hn).
  destruct (decide (Z.log2 m = Z.log2 n)) as [Heq|Hne].
  - rewrite <-Heq, list_lookup_insert_eq by (by eapply lookup_lt_Some). rewrite Hb.
    destruct (decide (m = n)) as [->|Hmn].
    + apply list_lookup_insert_eq. lia.
    + apply list_lookup_insert_ne. intros Hc. apply Hmn, slot_inj; [done..|]. lia.
  - rewrite list_lookup_insert_ne by lia. rewrite decide_False; [done|]. by intros ->.
Qed.

Lemma set_entity_block v (i : Z) b k b' :
  0 ≤ i → Z.of_nat (length b) = 2 ^ i →
  (∀ k b, entities v !! k = Some (Some b) → Z.of_nat (length b) = 2 ^ Z.of_nat k) →
  entities (set_entity v i (Some b)) !! k = Some (Some b') → Z.of_nat (length b') = 2 ^ Z.of_nat k.
Proof.
  intros Hi Hb Hall Hk. simpl in Hk. apply list_lookup_insert_Some in Hk as [(<-&Hbb&_)|[_ Hk]];
    [|by apply Hall]. injection Hbb as <-. rewrite Hb. f_equal. lia.
Qed.

(** The block a new element goes to, allocated if it was not. *)
Lemma prepare_block v l (idx := Z.log2 (total_size v + 1)) :
  repr v l → Z.of_nat (length l) + 1 < 2 ^ 31 →
  ∃ e b, entity v idx = Ret e ∧
    let v' := if (Z.land (total_size v + 1) (total_size v) =? 0) && bool_decide (e = None)
              then set_entity v idx (Some (replicate (Z.to_nat (2 ^ idx)) None)) else v in
    repr v' l ∧ total_size v' = total_size v ∧ entities v' !! Z.to_nat idx = Some (Some b) ∧
    Z.of_nat (length b) = 2 ^ idx.
Proof.
  intros Hr Hb. pose proof (re_size _ _ Hr) as Hsz. subst idx. rewrite Hsz.
  set (n := Z.of_nat (length l) + 1). assert (Hn : 0 < n < 2 ^ 31) by lia.
  pose proof (log2_lt n Hn) as Hlog. pose proof (Z.pow_pos_nonneg 2 (Z.log2 n) ltac:(lia) ltac:(lia)).
  destruct (lookup_lt_is_Some_2 (entities v) (Z.to_nat (Z.log2 n))) as [e He].
  { rewrite (re_blocks _ _ Hr). unfold kBlocks. lia. }
  unfold entity. rewrite He. exists e. destruct e as [b|].
  { exists b. rewrite bool_decide_false, andb_false_r by done. split_and!; try done.
    rewrite (re_block _ _ Hr _ _ He). f_equal. lia. }
  exists (replicate (Z.to_nat (2 ^ Z.log2 n)) None). rewrite (bool_decide_true (None = None)) by done.
  rewrite andb_true_r.
  assert (Hpow : n = 2 ^ Z.log2 n).
  { destruct (Z.eq_dec n (2 ^ Z.log2 n)) as [?|Hne]; [done|]. exfalso.
    pose proof (log2_bounds n ltac:(lia)).
    assert (Hl' : Z.log2 (n - 1) = Z.log2 n).
    { apply Z.log2_unique; [lia|]. rewrite Z.pow_succ_r by lia. lia. }
    destruct (repr_alloc v l (n - 1) Hr) as (b&Hb'&_); [lia|]. congruence. }
  assert (Hland : (Z.land n (Z.of_nat (length l)) =? 0) = true).
  { apply Z.eqb_eq. replace (Z.of_nat (length l)) with (n - 1) by lia. apply land_pred; [lia|done]. }
  rewrite Hland.
  assert (Hrep : Z.of_nat (length (replicate (Z.to_nat (2 ^ Z.log2 n)) (@None T))) = 2 ^ Z.log2 n).
  { rewrite length_replicate. lia. }
  assert (Hslot : ∀ m, 0 < m → slot_at v m = None ∨
     slot_at (set_entity v (Z.log2 n) (Some (replicate (Z.to_nat (2 ^ Z.log2 n)) None))) m = slot_at v m).
  { intros m Hm. unfold slot_at, set_entity. simpl. pose proof (Z.log2_nonneg m).
    destruct (decide (Z.log2 m = Z.log2 n)) as [->|]; [left; by rewrite He|right].
    by rewrite list_lookup_insert_ne by lia. }
  split_and!; try done.
  - split; try apply Hr; simpl.
    + by rewrite length_insert, (re_blocks _ _ Hr).
    + intros k b. apply set_entity_block; [lia|done|]. by apply Hr.
    + intros i x Hx. pose proof (re_elem _ _ Hr i x Hx) as Hs.
      destruct (Hslot (Z.of_nat i + 1)) as [?| ->]; [lia|congruence|done].
    + intros m x Hm Hs. destruct (Hslot m Hm) as [Hnone|Heq].
      * exfalso. apply slot_at_block in Hs as (b&Hb'&Hs). simpl in Hb'.
        apply list_lookup_insert_Some in Hb' as [(_&Hbb&_)|[_ Hb']].
        -- injection Hbb as <-. apply lookup_replicate in Hs as [? _]. done.
        -- unfold slot_at in Hnone. rewrite Hb' in Hnone. congruence.
      * rewrite Heq in Hs. by apply (re_raw _ _ Hr) in Hs.
  - simpl. apply list_lookup_insert_eq. by eapply lookup_lt_Some.
Qed.

Lemma emplace_back_ok v l x :
  repr v l → Z.of_nat (length l) + 1 < 2 ^ 31 →
  ∃ v', emplace_back v x = Ret v' ∧ repr v' (l ++ [x]).
Proof.
  intros Hr Hb. destruct (prepare_block v l Hr Hb) as (e&b&He&Hr1&Ht1&Hb1&Hlen1).
  unfold emplace_back, top_bit. pose proof (re_size _ _ Hr) as Hsz.
  rewrite (proj2 (Z.eqb_neq (total_size v + 1) 0)) by lia. simpl. rewrite He. simpl.
  match goal with |- context [block ?w _] => set (v1 := w) in * end.
  set (n := total_size v + 1) in *. assert (Hn : 0 < n < 2 ^ 31) by lia.
  rewrite Ht1. fold n. unfold block, entity. rewrite Hb1. simpl. rewrite slot_xor by lia.
  pose proof (slot_range n ltac:(lia)) as Hsr. pose proof (log2_lt n Hn) as Hlog.
  destruct (lookup_lt_is_Some_2 b (Z.to_nat (slot_index n))) as [s Hs]; [lia|].
  rewrite Hs. simpl. eexists. split; [done|].
  set (v2 := set_entity v1 (Z.log2 n) (Some (<[Z.to_nat (slot_index n):=Some x]> b))).
  assert (Hslot : ∀ m, 0 < m → slot_at (mkVec (entities v2) n) m =
            if decide (n = m) then Some (Some x) else slot_at v1 m).
  { intros m Hm. rewrite <-(slot_at_insert v1 n m (Some x) b); try done; [lia|apply Hr1|lia]. }
  split; simpl.
  - rewrite length_app. simpl. lia.
  - rewrite length_app. simpl. lia.
  - by rewrite length_insert, (re_blocks _ _ Hr1).
  - intros k b'. apply set_entity_block; [lia|by rewrite length_insert|]. apply Hr1.
  - intros i y Hy. rewrite Hslot by lia. apply lookup_app_Some in Hy as [Hy|[Hge Hy]].
    + apply lookup_lt_Some in Hy as Hi. rewrite decide_False by lia. by apply (re_elem _ _ Hr1).
    + apply list_lookup_singleton_Some in Hy as [? <-]. rewrite decide_True; [done|lia].
  - intros m y Hm. rewrite Hslot by done. rewrite length_app. simpl. destruct (decide (n = m)).
    + intros _. lia.
    + intros Hy. apply (re_raw _ _ Hr1) in Hy; [lia|done].
Qed.

(** Freeing the block after the last one in use loses no element. *)
Lemma free_next v l n :
  repr v l → Z.of_nat (length l) = 2 ^ n → 0 ≤ n < 30 →
  repr (set_entity v (n + 1) None) l.
Proof.
  intros Hr Hl Hn. destruct Hr as [Hsz Hb Hlen Hblk Hel Hraw].
  assert (Hslot : ∀ m, 0 < m → Z.log2 m ≠ n + 1 →
            slot_at (set_entity v (n + 1) None) m = slot_at v m).
  { intros m Hm Hne. unfold slot_at, set_entity. simpl. pose proof (Z.log2_nonneg m).
    by rewrite list_lookup_insert_ne by lia. }
  split; simpl; try done.
  - by rewrite length_insert.
  - intros k b Hk. apply list_lookup_insert_Some in Hk as [(_&?&_)|[_ Hk]]; [done|auto].
  - intros i x Hx. rewrite Hslot; [by apply Hel|lia|]. apply lookup_lt_Some in Hx.
    intros Hlog. pose proof (log2_bounds (Z.of_nat i + 1) ltac:(lia)) as Hlb.
    rewrite Hlog, Z.pow_add_r in Hlb by lia. lia.
  - intros m x Hm Hs. destruct (Z.eq_dec (Z.log2 m) (n + 1)) as [Heq|Hne].
    + apply slot_at_block in Hs as (b&Hb'&_). simpl in Hb'. rewrite Heq in Hb'.
      rewrite list_lookup_insert_eq in Hb'; [done|]. rewrite Hlen. unfold kBlocks. lia.
    + rewrite Hslot in Hs by done. by apply Hraw in Hs.
Qed.

Lemma pop_back_ok v l x :
  repr v (l ++ [x]) → Z.of_nat (length l) + 1 ≠ 2 ^ 30 →
  ∃ v', pop_back v = Ret v' ∧ repr v' l.
Proof.
  intros Hr Hne. pose proof (re_size _ _ Hr) as Hsz. pose proof (re_bound _ _ Hr) as Hbd.
  rewrite length_app in Hsz, Hbd. simpl in Hsz, Hbd.
  set (n := total_size v) in *. assert (Hn : 0 < n < 2 ^ 31) by lia.
  pose proof (log2_lt n Hn) as Hlog.
  unfold pop_back, top_bit. fold n. rewrite (proj2 (Z.eqb_neq n 0)) by lia. simpl.
  rewrite Z.land_comm.
  assert (Hstage : ∃ v1, (if Z.land n (n - 1) =? 0
            then e ← entity v (Z.log2 n + 1);
                 Ret (if bool_decide (e = None) then v else set_entity v (Z.log2 n + 1) None)
            else Ret v) = Ret v1 ∧ repr v1 (l ++ [x]) ∧ total_size v1 = n).
  { destruct (Z.eqb_spec (Z.land n (n - 1)) 0) as [Hz|_]; [|by exists v].
    apply land_pred in Hz; [|lia]. assert (Z.log2 n ≠ 30) by (intros Heq; rewrite Heq in Hz; lia).
    destruct (lookup_lt_is_Some_2 (entities v) (Z.to_nat (Z.log2 n + 1))) as [e He].
    { rewrite (re_blocks _ _ Hr). unfold kBlocks. lia. }
    unfold entity. rewrite He. simpl. case_bool_decide; [by exists v|].
    eexists. split_and!; [done| |done]. apply free_next; [done| |lia].
    rewrite length_app. simpl. lia. }
  destruct Hstage as (v1&->&Hr1&Ht1). simpl. rewrite Ht1.
  assert (Hx : slot_at v1 n = Some (Some x)).
  { replace n with (Z.of_nat (length l) + 1) by lia. apply (re_elem _ _ Hr1).
    by rewrite lookup_app_r, Nat.sub_diag by lia. }
  destruct (slot_at_block _ _ _ Hx) as (b&Hb&Hs). unfold block, entity. rewrite Hb. simpl.
  rewrite slot_xor by lia. rewrite Hs. simpl. eexists. split; [done|].
  pose proof (slot_range n ltac:(lia)) as Hsr.
  assert (Hlen : Z.of_nat (length b) = 2 ^ Z.log2 n).
  { rewrite (re_block _ _ Hr1 _ _ Hb). f_equal. lia. }
  set (v2 := set_entity v1 (Z.log2 n) (Some (<[Z.to_nat (slot_index n):=None]> b))).
  assert (Hslot : ∀ m, 0 < m → slot_at (mkVec (entities v2) (n - 1)) m =
            if decide (n = m) then Some None else slot_at v1 m).
  { intros m Hm. rewrite <-(slot_at_insert v1 n m None b); try done; [lia|apply Hr1|lia]. }
  split; simpl.
  - lia.
  - lia.
  - by rewrite length_insert, (re_blocks _ _ Hr1).
  - intros k b'. apply set_entity_block; [lia|by rewrite length_insert|]. apply Hr1.
  - intros i y Hy. apply lookup_lt_Some in Hy as Hi. rewrite Hslot, decide_False by lia.
    apply (re_elem _ _ Hr1). by apply lookup_app_l_Some.
  - intros m y Hm. rewrite Hslot by done. destruct (decide (n = m)); [done|].
    intros Hy. apply (re_raw _ _ Hr1) in Hy; [|done]. rewrite length_app in Hy. simpl in Hy. lia.
Qed.

Lemma grow_loop_ok k v l x :
  repr v l → Z.of_nat (length l) + Z.of_nat k < 2 ^ 31 →
  ∃ v', grow_loop k v x = Ret v' ∧ repr v' (l ++ replicate k x).
Proof.
  revert v l. induction k as [|k IH]; intros v l Hr Hb; simpl.
  { exists v. by rewrite app_nil_r. }
  destruct (emplace_back_ok v l x Hr) as (v1&->&Hr1); [lia|]. simpl.
  destruct (IH v1 (l ++ [x]) Hr1) as (v'&->&Hr'); [rewrite length_app; simpl; lia|].
  exists v'. by rewrite <-app_assoc in Hr'.
Qed.

Lemma shrink_loop_ok k v l :
  repr v l → (k ≤ length l)%nat →
  ¬ (Z.of_nat (length l) - Z.of_nat k < 2 ^ 30 ≤ Z.of_nat (length l)) →
  ∃ v', shrink_loop k v = Ret v' ∧ repr v' (take (length l - k) l).
Proof.
  revert v l. induction k as [|k IH]; intros v l Hr Hk Hb; simpl.
  { exists v. by rewrite Nat.sub_0_r, firstn_all. }
  destruct l as [|x l _] using rev_ind; [simpl in Hk; lia|].
  rewrite length_app in Hk, Hb. simpl in Hk, Hb.
  destruct (pop_back_ok v l x Hr) as (v1&->&Hr1); [lia|]. simpl.
  destruct (IH v1 l Hr1) as (v'&->&Hr'); [lia|lia|]. exists v'. split; [done|].
  rewrite length_app. simpl. replace (length l + 1 - S k)%nat with (length l - k)%nat by lia.
  rewrite take_app_le by lia. done.
Qed.

(** ** Destruction *)

Lemma pow2_nat k : Z.of_nat (2 ^ k) = 2 ^ Z.of_nat k.
Proof. by rewrite Nat2Z.inj_pow. Qed.

Lemma destroy_block_ok v l k b :
  repr v l → (2 ^ k ≤ length l)%nat → entities v !! k = Some (Some b) →
  destroy_block v k b = Some <$> take (2 ^ k) (drop (2 ^ k - 1) l).
Proof.
  intros Hr Hk Hb. unfold destroy_block, size. rewrite (re_size _ _ Hr), <-pow2_nat.
  pose proof (Nat.pow_nonzero 2 k ltac:(lia)) as Hpos.
  apply list_eq. intros j. rewrite list_lookup_fmap.
  destruct (decide (j < Nat.min (2 ^ k) (length l + 1 - 2 ^ k))%nat) as [Hj|Hj].
  - rewrite !lookup_take_lt by lia. rewrite lookup_drop.
    destruct (lookup_lt_is_Some_2 l (2 ^ k - 1 + j)) as [x Hx]; [lia|]. rewrite Hx.
    pose proof (re_elem _ _ Hr _ _ Hx) as Hs.
    replace (Z.of_nat (2 ^ k - 1 + j) + 1) with (2 ^ Z.of_nat k + Z.of_nat j) in Hs
      by (rewrite <-pow2_nat; lia).
    assert (Hlog : Z.log2 (2 ^ Z.of_nat k + Z.of_nat j) = Z.of_nat k).
    { apply Z.log2_unique; [lia|]. rewrite Z.pow_succ_r, <-pow2_nat by lia. lia. }
    unfold slot_at, slot_index in Hs. rewrite Hlog, Nat2Z.id, Hb in Hs.
    by replace (Z.to_nat (2 ^ Z.of_nat k + Z.of_nat j - 2 ^ Z.of_nat k)) with j in Hs by lia.
  - rewrite lookup_take_ge by lia. rewrite lookup_ge_None_2; [done|].
    rewrite length_take, length_drop. lia.
Qed.

Lemma destroy_from_ok v l k :
  repr v l → (k ≤ kBlocks)%nat →
  destroy_from v k (drop k (entities v)) = Some <$> drop (2 ^ k - 1) l.
Proof.
  intros Hr Hk. pose proof (re_bound _ _ Hr) as Hbd.
  remember (kBlocks - k)%nat as d eqn:Hd. revert k Hk Hd. induction d as [|d IH]; intros k Hk Hd.
  - assert (k = kBlocks) as -> by lia. rewrite drop_ge by (by rewrite (re_blocks _ _ Hr)).
    rewrite drop_ge; [done|]. unfold kBlocks. pose proof (pow2_nat 31) as Hp. change (Z.of_nat 31) with 31 in Hp. lia.
  - destruct (lookup_lt_is_Some_2 (entities v) k) as [e He]; [rewrite (re_blocks _ _ Hr); lia|].
    rewrite (drop_S _ e) by done. specialize (IH (S k) ltac:(lia) ltac:(lia)).
    pose proof (Nat.pow_nonzero 2 k ltac:(lia)) as Hpos. rewrite Nat.pow_succ_r' in IH.
    destruct (decide (2 ^ k ≤ length l)%nat) as [Hle|Hgt].
    + destruct (repr_alloc v l (2 ^ Z.of_nat k) Hr) as (b&Hb&_); [rewrite <-pow2_nat; lia|].
      rewrite Z.log2_pow2, Nat2Z.id in Hb by lia. rewrite He in Hb. injection Hb as ->. simpl.
      rewrite IH, (destroy_block_ok v l k b Hr Hle He), <-fmap_app. f_equal.
      rewrite <-(take_drop (2 ^ k) (drop (2 ^ k - 1) l)) at 2. f_equal. rewrite drop_drop. f_equal. lia.
    + rewrite (drop_ge l (2 ^ k - 1)) by lia. rewrite (drop_ge l) in IH by lia.
      destruct e as [b|]; simpl; [|done]. rewrite IH, app_nil_r. unfold destroy_block, size.
      rewrite (re_size _ _ Hr), <-pow2_nat. by replace (Z.to_nat _) with 0%nat by lia.
Qed.

(** ** Properties *)

(** [emplace_back] appends: all elements stay in their slots and the new one
    is constructed in a slot that holds no element. *)
Lemma stable_vector_emplace_back v l x :
  repr v l → Z.of_nat (length l) + 1 < 2 ^ 31 →
  ∃ v', emplace_back v x = Ret v' ∧ repr v' (l ++ [x]) ∧
    ∀ i y, l !! i = Some y → subscript v' (Z.of_nat i) = Ret y.
Proof.
  intros Hr Hb. destruct (emplace_back_ok v l x Hr Hb) as (v'&Heq&Hr').
  exists v'. split_and!; [done..|]. intros i y Hy. eapply subscript_ok; [done|].
  by apply lookup_app_l_Some.
Qed.

(** C29. The vector refines a list. [emplace_back] appends: all elements stay
    in their slots and the new one is constructed in a slot that holds no
    element. [pop_back] removes the last element, destroys it, and frees a
    block only when it holds no element; it is defined for every size but 0
    and [2^30]. *)
Theorem stable_vector_refines v l (Hr : repr v l) :
  (∀ x, Z.of_nat (length l) + 1 < 2 ^ 31 →
     ∃ v', emplace_back v x = Ret v' ∧ repr v' (l ++ [x]) ∧
       ∀ i y, l !! i = Some y → subscript v' (Z.of_nat i) = Ret y) ∧
  (∀ l' x, l = l' ++ [x] → Z.of_nat (length l) ≠ 2 ^ 30 → ∃ v', pop_back v = Ret v' ∧ repr v' l').
Proof.
  split; [intros x; by apply stable_vector_emplace_back|]. intros l' x -> Hl. apply (pop_back_ok v l' x); [done|].
  rewrite length_app in Hl. simpl in Hl. lia.
Qed.

(** At size [2^30] [pop_back] reads past the end of [entities]. *)
Theorem stable_vector_pop_back_bound v l :
  repr v l → Z.of_nat (length l) = 2 ^ 30 → pop_back v = UB.
Proof.
  intros Hr Hl. unfold pop_back, top_bit. rewrite (re_size _ _ Hr), Hl. simpl.
  unfold entity. rewrite lookup_ge_None_2; [done|]. rewrite (re_blocks _ _ Hr). unfold kBlocks. lia.
Qed.

(** [resize] truncates or extends by default elements. *)
Theorem stable_vector_resize v l new_size x :
  repr v l → 0 ≤ new_size < 2 ^ 31 → ¬ (new_size < 2 ^ 30 ≤ Z.of_nat (length l)) →
  ∃ v', resize v new_size x = Ret v' ∧
    repr v' (take (Z.to_nat new_size) l ++ replicate (Z.to_nat new_size - length l) x).
Proof.
  intros Hr Hn Hb. unfold resize. pose proof (re_size _ _ Hr) as Hsz.
  destruct (Z.le_ge_cases new_size (Z.of_nat (length l))) as [Hle|Hge].
  - replace (Z.to_nat (new_size - total_size v)) with 0%nat by lia. simpl. rewrite Hsz.
    destruct (shrink_loop_ok (Z.to_nat (Z.of_nat (length l) - new_size)) v l Hr)
      as (v'&->&Hr'); [lia|lia|]. exists v'. split; [done|].
    replace (Z.to_nat new_size - length l)%nat with 0%nat by lia. simpl. rewrite app_nil_r.
    by replace (Z.to_nat new_size) with
      (length l - Z.to_nat (Z.of_nat (length l) - new_size))%nat by lia.
  - rewrite Hsz. destruct (grow_loop_ok (Z.to_nat (new_size - Z.of_nat (length l))) v l x Hr)
      as (v'&->&Hr'); [lia|]. simpl. pose proof (re_size _ _ Hr') as Hsz'.
    rewrite length_app, length_replicate in Hsz'.
    replace (Z.to_nat (total_size v' - new_size)) with 0%nat by lia. simpl. exists v'. split; [done|].
    rewrite take_ge by lia.
    by replace (Z.to_nat new_size - length l)%nat with (Z.to_nat (new_size - Z.of_nat (length l))) by lia.
Qed.

(** The destructor destroys exactly the elements, in order, each once. *)
Theorem stable_vector_destroy v l : repr v l → destroy v = Some <$> l.
Proof.
  intros Hr. unfold destroy. rewrite <-(drop_0 (entities v)). rewrite (destroy_from_ok v l 0 Hr); [|lia].
  by rewrite drop_0.
Qed.

(** Move assignment transfers the elements of the source, but the
    elements the target held are never destroyed: the source keeps their
    storage with size 0. *)
Theorem stable_vector_move_assign v l rhs m :
  repr v l → repr rhs m →
  repr (move_assign v rhs).1 m ∧ destroy (move_assign v rhs).2 = [].
Proof.
  intros Hv Hm. split; [by destruct Hm|]. simpl. unfold destroy. simpl.
  assert (Hgen : ∀ k es, destroy_from (mkVec (entities v) 0) k es = []).
  { intros k es. revert k. induction es as [|[b|] es IH]; intros k; simpl; try done.
    rewrite IH, app_nil_r. unfold destroy_block, size. simpl.
    pose proof (Z.pow_pos_nonneg 2 (Z.of_nat k) ltac:(lia) ltac:(lia)).
    by replace (Z.to_nat _) with 0%nat by lia. }
  apply Hgen.
Qed.

End StableVector.
