(* ===== verification/Verifier.v ===== *)
(** * Strategy verifiers and workload policies

    Models runtime/include/workload_policy.h and strategy_verifier.h: the
    rules a specification returns and the verifier that decides which method
    may start next. Counters are [size_t]; their arithmetic wraps at 2^64. *)
From stdpp Require Import base list gmap strings numbers.
From Stdlib Require Import ZArith.
From S2P Require Import Prelude.

Open Scope Z_scope.

(** ** workload_policy.h *)

Record ReserveRule := mkReserve {
  rr_wait_method : string;
  rr_progress_methods : list string;
  rr_reserve_threads : Z;
}.

Record PrefixBudgetRule := mkBudget {
  pb_wait_method : string;
  pb_progress_methods : list string;
  pb_reserve_threads : Z;
  pb_initial_credit : Z;
}.

Record RollbackRule := mkRollback {
  rb_wait_method : string;
  rb_progress_methods : list string;
}.

Record MaxActiveRule := mkMaxActive { ma_method : string; ma_max_active : Z }.
Record MaxBlockedRule := mkMaxBlocked { mb_method : string; mb_max_blocked : Z }.

Record WorkloadPolicy := mkPolicy {
  reserve : list ReserveRule;
  prefix_budget : list PrefixBudgetRule;
  rollback : list RollbackRule;
  max_active : list MaxActiveRule;
  max_blocked : list MaxBlockedRule;
}.

(** The per-method counters of [StartContext] are [int]. *)
Record StartContext := mkContext {
  ctx_threads : Z;
  free_threads : Z;
  active_by_method : gmap string Z;
  blocked_by_method : gmap string Z;
}.

(** [size_t] arithmetic and [static_cast<size_t>]. *)
Definition wrap64 (z : Z) : Z := z mod 2 ^ 64.

(** ** The interface of a verifier *)

(** What [ReservePolicyVerifier] calls of its base verifier. A task is its
    method name and its id. *)
Class StrategyVerifier (B : Type) := {
  base_init : B;
  base_OnRoundStart : B → Z → B;
  base_OnTaskStarted : B → string → Z → Z → B;
  base_VerifyStart : B → string → Z → StartContext → bool * B;
  base_Verify : B → string → Z → bool → bool * B;
  base_VerifyExisting : B → string → Z → Z → bool * B;
  base_OnFinished : B → string → Z → Z → B;
  base_Reset : B → B;
}.

(** [DefaultStrategyTaskVerifier] allows everything. *)
#[export] Instance DefaultStrategyTaskVerifier : StrategyVerifier unit := {|
  base_init := ();
  base_OnRoundStart _ _ := ();
  base_OnTaskStarted _ _ _ _ := ();
  base_VerifyStart _ _ _ _ := (true, ());
  base_Verify _ _ _ _ := (true, ());
  base_VerifyExisting _ _ _ _ := (true, ());
  base_OnFinished _ _ _ _ := ();
  base_Reset _ := ();
|}.

Section Reserve.
Context {B : Type} `{StrategyVerifier B}.
(** [LinearSpec::GetWorkloadPolicy()]. *)
Context (pol : WorkloadPolicy).

Record ReservePolicyVerifier := mkVerifier {
  base_ : B;
  started_by_method_ : gmap string Z;
  started_task_ids_ : gset Z;
  threads_ : Z;
}.
Implicit Types (v : ReservePolicyVerifier).

Definition verifier_init : ReservePolicyVerifier := mkVerifier base_init ∅ ∅ 0.

Definition OnRoundStart v (threads : Z) : ReservePolicyVerifier :=
  mkVerifier (base_OnRoundStart (base_ v) threads) ∅ ∅ threads.

Definition count (m : gmap string Z) (name : string) : Z := default 0 (m !! name).

Definition OnTaskStarted v (method : string) (thread_id task_id : Z) : ReservePolicyVerifier :=
  if decide (task_id ∈ started_task_ids_ v) then v
  else mkVerifier (base_OnTaskStarted (base_ v) method thread_id task_id)
         (<[method := wrap64 (count (started_by_method_ v) method + 1)]> (started_by_method_ v))
         ({[task_id]} ∪ started_task_ids_ v) (threads_ v).

(** The counters as if [method] were started. *)
Definition started_if v (method name : string) : Z :=
  let val := count (started_by_method_ v) name in
  if decide (name = method) then wrap64 (val + 1) else val.

Definition active_if (ctx : StartContext) (method name : string) : Z :=
  let val := wrap64 (count (active_by_method ctx) name) in
  if decide (name = method) then wrap64 (val + 1) else val.

Definition blocked_now (ctx : StartContext) (name : string) : Z :=
  wrap64 (count (blocked_by_method ctx) name).

Definition budget_rhs v (method : string) (ctx : StartContext) (r : PrefixBudgetRule) : Z :=
  fold_left (λ rhs pm, wrap64 (rhs + started_if v method pm)) (pb_progress_methods r)
    (wrap64 (wrap64 (pb_initial_credit r + ctx_threads ctx) - pb_reserve_threads r)).

(** Rules 1 to 3: each loop returns [false] at the first violated rule. *)
Definition max_active_ok (method : string) (ctx : StartContext) : bool :=
  forallb (λ r, negb (bool_decide (ma_method r = method) &&
                      (ma_max_active r <? active_if ctx method method))) (max_active pol).
Definition max_blocked_ok (method : string) (ctx : StartContext) : bool :=
  forallb (λ r, negb (bool_decide (mb_method r = method) &&
                      (mb_max_blocked r <=? blocked_now ctx method))) (max_blocked pol).
Definition prefix_budget_ok v (method : string) (ctx : StartContext) : bool :=
  forallb (λ r, negb (budget_rhs v method ctx r <? started_if v method (pb_wait_method r)))
    (prefix_budget pol).

(** Rule 4: the state of the loop over the reserve rules. *)
Record reserve_st := mkReserveSt {
  allowed : gset string;
  reserve_threads_needed : Z;
  any_triggered : bool;
}.

Definition reserve_step (ctx : StartContext) (st : reserve_st) (r : ReserveRule) : reserve_st :=
  if blocked_now ctx (rr_wait_method r) =? 0 then st
  else mkReserveSt (list_to_set (rr_progress_methods r) ∪ allowed st)
         (Z.max (reserve_threads_needed st) (rr_reserve_threads r)) true.

Definition reserve_ok (method : string) (ctx : StartContext) : bool :=
  let st := fold_left (reserve_step ctx) (reserve pol) (mkReserveSt ∅ 0 false) in
  if negb (any_triggered st) then true
  else if free_threads ctx <=? reserve_threads_needed st then
    if decide (allowed st = ∅) then true else bool_decide (method ∈ allowed st)
  else true.

Definition VerifyStart v (method : string) (thread_id : Z) (ctx : StartContext) :
    bool * ReservePolicyVerifier :=
  let '(ok, b) := base_VerifyStart (base_ v) method thread_id ctx in
  let v := mkVerifier b (started_by_method_ v) (started_task_ids_ v) (threads_ v) in
  (if negb ok then false
   else if negb (max_active_ok method ctx) then false
   else if negb (max_blocked_ok method ctx) then false
   else if negb (prefix_budget_ok v method ctx) then false
   else reserve_ok method ctx, v).

Definition Verify v (name : string) (thread_id : Z) (is_new : bool) :
    bool * ReservePolicyVerifier :=
  let '(ok, b) := base_Verify (base_ v) name thread_id is_new in
  (ok, mkVerifier b (started_by_method_ v) (started_task_ids_ v) (threads_ v)).

Definition VerifyExisting v (name : string) (task_id thread_id : Z) :
    bool * ReservePolicyVerifier :=
  let '(ok, b) := base_VerifyExisting (base_ v) name task_id thread_id in
  (ok, mkVerifier b (started_by_method_ v) (started_task_ids_ v) (threads_ v)).

Definition OnFinished v (name : string) (task_id thread_id : Z) : ReservePolicyVerifier :=
  mkVerifier (base_OnFinished (base_ v) name task_id thread_id)
    (started_by_method_ v) (started_task_ids_ v) (threads_ v).

Definition Reset v : ReservePolicyVerifier := mkVerifier (base_Reset (base_ v)) ∅ ∅ (threads_ v).

(** [GetDeadlockProgressMethods]. *)
Definition add_unique (out methods : list string) : list string :=
  fold_left (λ out name, if decide (name ∈ out) then out else out ++ [name]) methods out.

Definition collect {R} (wait : R → string) (progress : R → list string) (method : string)
    (rules : list R) (out : list string) : list string :=
  fold_left (λ out r, if decide (wait r = method) then add_unique out (progress r) else out)
    rules out.

Definition GetDeadlockProgressMethods (method : string) : list string :=
  let from_explicit_rules := collect rb_wait_method rb_progress_methods method (rollback pol) [] in
  match from_explicit_rules with
  | _ :: _ => from_explicit_rules
  | [] =>
      let fallback := collect rr_wait_method rr_progress_methods method (reserve pol) [] in
      collect pb_wait_method pb_progress_methods method (prefix_budget pol) fallback
  end.

(** ** Counting starts *)

(** The calls of [OnTaskStarted] of a round: method, thread and task id. *)
Definition starts v (evs : list (string * Z * Z)) : ReservePolicyVerifier :=
  fold_left (λ v '(m, t, id), OnTaskStarted v m t id) evs v.

(** The starts that count: the first one of every task id. *)
Fixpoint first_starts (seen : gset Z) (evs : list (string * Z * Z)) : list string :=
  match evs with
  | [] => []
  | (m, _, id) :: evs =>
      if decide (id ∈ seen) then first_starts seen evs
      else m :: first_starts ({[id]} ∪ seen) evs
  end.

Definition occurrences (name : string) (l : list string) : Z :=
  Z.of_nat (length (filter (λ m, m = name) l)).

Lemma occurrences_cons name m l :
  occurrences name (m :: l) = (if decide (m = name) then 1 else 0) + occurrences name l.
Proof. unfold occurrences. rewrite filter_cons. destruct (decide _); simpl; lia. Qed.

Lemma occurrences_nonneg name l : 0 ≤ occurrences name l.
Proof. unfold occurrences. lia. Qed.

Lemma occurrences_length name l : occurrences name l ≤ Z.of_nat (length l).
Proof. unfold occurrences. pose proof (length_filter (λ m, m = name) l). lia. Qed.

Lemma count_insert m name name' z :
  count (<[name := z]> m) name' = if decide (name' = name) then z else count m name'.
Proof.
  unfold count. destruct (decide (name' = name)) as [->|Hne]; [by rewrite lookup_insert_eq|].
  by rewrite lookup_insert_ne.
Qed.

Lemma starts_count v evs name :
  (∀ n, 0 ≤ count (started_by_method_ v) n) →
  (∀ n, count (started_by_method_ v) n + Z.of_nat (length evs) < 2 ^ 64) →
  count (started_by_method_ (starts v evs)) name =
  count (started_by_method_ v) name + occurrences name (first_starts (started_task_ids_ v) evs).
Proof.
  unfold starts. revert v. induction evs as [|[[m t] id] evs IH]; intros v Hnn Hbd; simpl.
  { unfold occurrences. simpl. lia. }
  simpl length in Hbd. unfold OnTaskStarted. destruct (decide (id ∈ started_task_ids_ v)) as [Hin|Hin].
  - apply IH; [done|]. intros n. specialize (Hbd n). lia.
  - assert (Hw : wrap64 (count (started_by_method_ v) m + 1) = count (started_by_method_ v) m + 1).
    { unfold wrap64. apply Z.mod_small. specialize (Hbd m). specialize (Hnn m). lia. }
    rewrite IH; simpl.
    + rewrite Hw, count_insert, occurrences_cons. repeat case_decide; subst; try done; lia.
    + intros n. rewrite Hw, count_insert. case_decide; [|done]. specialize (Hnn m). lia.
    + intros n. rewrite Hw, count_insert. specialize (Hbd n). case_decide; subst; lia.
Qed.

(** ** The decision, in unbounded arithmetic *)

Definition started' v (method name : string) : Z :=
  count (started_by_method_ v) name + (if decide (name = method) then 1 else 0).

Definition sum_over (f : string → Z) (l : list string) : Z := foldr (λ x acc, f x + acc) 0 l.

(** The counters are far from wrapping around. *)
Record in_range v (ctx : StartContext) : Prop := {
  ir_started n : 0 ≤ count (started_by_method_ v) n < 2 ^ 32 - 1;
  ir_active n : 0 ≤ count (active_by_method ctx) n < 2 ^ 31;
  ir_blocked n : 0 ≤ count (blocked_by_method ctx) n < 2 ^ 31;
  ir_threads : 0 ≤ ctx_threads ctx < 2 ^ 32;
  ir_rule r : r ∈ prefix_budget pol →
    0 ≤ pb_initial_credit r < 2 ^ 32 ∧
    0 ≤ pb_reserve_threads r ≤ pb_initial_credit r + ctx_threads ctx ∧
    Z.of_nat (length (pb_progress_methods r)) < 2 ^ 31;
  ir_reserve r : r ∈ reserve pol → 0 ≤ rr_reserve_threads r;
}.

(** The reserve rules that some blocked operation triggers. *)
Definition triggered (ctx : StartContext) : list ReserveRule :=
  filter (λ r, blocked_now ctx (rr_wait_method r) ≠ 0) (reserve pol).

Record start_allowed v (method : string) (ctx : StartContext) : Prop := {
  sa_active r : r ∈ max_active pol → ma_method r = method →
    count (active_by_method ctx) method + 1 ≤ ma_max_active r;
  sa_blocked r : r ∈ max_blocked pol → mb_method r = method →
    count (blocked_by_method ctx) method < mb_max_blocked r;
  (** the formula of workload_policy.h *)
  sa_budget r : r ∈ prefix_budget pol →
    started' v method (pb_wait_method r) ≤
      pb_initial_credit r + sum_over (started' v method) (pb_progress_methods r) +
      ctx_threads ctx - pb_reserve_threads r;
  sa_reserve : (∀ r, r ∈ triggered ctx → rr_reserve_threads r < free_threads ctx) ∨
    (∀ r, r ∈ triggered ctx → rr_progress_methods r = []) ∨
    (∃ r, r ∈ triggered ctx ∧ method ∈ rr_progress_methods r);
}.

(** The counters of started tasks are far from wrapping around. *)
Definition few_started v : Prop := ∀ n, 0 ≤ count (started_by_method_ v) n < 2 ^ 32 - 1.

Lemma started_if_range v method name :
  few_started v → started_if v method name = started' v method name ∧
    0 ≤ started' v method name < 2 ^ 32.
Proof.
  intros Hr. specialize (Hr name). unfold started_if, started', wrap64.
  case_decide; [rewrite Z.mod_small by lia|]; lia.
Qed.

Lemma sum_over_nonneg f l : (∀ x, 0 ≤ f x) → 0 ≤ sum_over f l.
Proof. intros Hf. induction l as [|x l IH]; simpl; [lia|]. specialize (Hf x). lia. Qed.

Lemma budget_fold v method l acc :
  few_started v → 0 ≤ acc → acc + Z.of_nat (length l) * 2 ^ 32 < 2 ^ 64 →
  fold_left (λ rhs pm, wrap64 (rhs + started_if v method pm)) l acc =
  acc + sum_over (started' v method) l.
Proof.
  intros Hr. revert acc. induction l as [|x l IH]; intros acc H0 Hb; simpl; [lia|].
  destruct (started_if_range v method x Hr) as [-> Hx]. simpl length in Hb.
  unfold wrap64 at 2. rewrite Z.mod_small by lia. rewrite IH by lia. lia.
Qed.

(** The numbers of a prefix-budget rule fit, and it does not reserve more
    threads than there are, the initial credit included. *)
Definition rule_fits (threads : Z) (r : PrefixBudgetRule) : Prop :=
  0 ≤ threads < 2 ^ 32 ∧ 0 ≤ pb_initial_credit r < 2 ^ 32 ∧
  0 ≤ pb_reserve_threads r ≤ pb_initial_credit r + threads ∧
  Z.of_nat (length (pb_progress_methods r)) < 2 ^ 31.

Lemma budget_rule_spec v ctx method r :
  few_started v → rule_fits (ctx_threads ctx) r →
  negb (budget_rhs v method ctx r <? started_if v method (pb_wait_method r)) = true ↔
  started' v method (pb_wait_method r) ≤
    pb_initial_credit r + sum_over (started' v method) (pb_progress_methods r) +
    ctx_threads ctx - pb_reserve_threads r.
Proof.
  intros Hr (?&?&?&?). destruct (started_if_range v method (pb_wait_method r) Hr) as [-> _].
  unfold budget_rhs. unfold wrap64 at 2 3.
  rewrite (Z.mod_small (pb_initial_credit r + ctx_threads ctx)), Z.mod_small by lia.
  rewrite budget_fold by (try done; lia). rewrite negb_true_iff, Z.ltb_ge. lia.
Qed.

Lemma in_range_few v ctx : in_range v ctx → few_started v.
Proof. intros Hr n. apply (ir_started _ _ Hr). Qed.
Lemma in_range_fits v ctx r : in_range v ctx → r ∈ prefix_budget pol → rule_fits (ctx_threads ctx) r.
Proof. intros Hr Hin. pose proof (ir_threads _ _ Hr). destruct (ir_rule _ _ Hr r Hin). by split. Qed.

Lemma prefix_budget_spec v ctx method :
  in_range v ctx → prefix_budget_ok v method ctx = true ↔
  ∀ r, r ∈ prefix_budget pol →
    started' v method (pb_wait_method r) ≤
      pb_initial_credit r + sum_over (started' v method) (pb_progress_methods r) +
      ctx_threads ctx - pb_reserve_threads r.
Proof.
  intros Hr. unfold prefix_budget_ok. rewrite forallb_forall. pose proof (in_range_few _ _ Hr).
  setoid_rewrite <-list_elem_of_In.
  split; intros Hall r Hin; (apply budget_rule_spec; [done|by eapply in_range_fits|by apply Hall]).
Qed.

Lemma max_active_spec v ctx method :
  in_range v ctx → max_active_ok method ctx = true ↔
  ∀ r, r ∈ max_active pol → ma_method r = method →
    count (active_by_method ctx) method + 1 ≤ ma_max_active r.
Proof.
  intros Hr. unfold max_active_ok. rewrite forallb_forall.
  assert (Ha : active_if ctx method method = count (active_by_method ctx) method + 1).
  { pose proof (ir_active _ _ Hr method). unfold active_if, wrap64. rewrite decide_True by done.
    rewrite !Z.mod_small by (rewrite ?Z.mod_small; lia). done. }
  rewrite Ha. split.
  - intros Hall r Hin%list_elem_of_In Hm. specialize (Hall r Hin).
    rewrite bool_decide_true in Hall by done. simpl in Hall.
    apply negb_true_iff, Z.ltb_ge in Hall. lia.
  - intros Hall r Hin%list_elem_of_In. case_bool_decide; [|done]. simpl.
    apply negb_true_iff, Z.ltb_ge. by apply Hall.
Qed.

Lemma max_blocked_spec v ctx method :
  in_range v ctx → max_blocked_ok method ctx = true ↔
  ∀ r, r ∈ max_blocked pol → mb_method r = method →
    count (blocked_by_method ctx) method < mb_max_blocked r.
Proof.
  intros Hr. unfold max_blocked_ok. rewrite forallb_forall.
  assert (Ha : blocked_now ctx method = count (blocked_by_method ctx) method).
  { pose proof (ir_blocked _ _ Hr method). unfold blocked_now, wrap64. by rewrite Z.mod_small by lia. }
  rewrite Ha. split.
  - intros Hall r Hin%list_elem_of_In Hm. specialize (Hall r Hin).
    rewrite bool_decide_true in Hall by done. simpl in Hall.
    apply negb_true_iff, Z.leb_gt in Hall. lia.
  - intros Hall r Hin%list_elem_of_In. case_bool_decide; [|done]. simpl.
    apply negb_true_iff, Z.leb_gt. by apply Hall.
Qed.

(** The loop over the reserve rules. *)
Lemma reserve_fold ctx rules st :
  let st' := fold_left (reserve_step ctx) rules st in
  let trig := filter (λ r, blocked_now ctx (rr_wait_method r) ≠ 0) rules in
  (∀ x, x ∈ allowed st' ↔ x ∈ allowed st ∨ ∃ r, r ∈ trig ∧ x ∈ rr_progress_methods r) ∧
  (any_triggered st' = true ↔ any_triggered st = true ∨ trig ≠ []) ∧
  (∀ z, reserve_threads_needed st' < z ↔
        reserve_threads_needed st < z ∧ ∀ r, r ∈ trig → rr_reserve_threads r < z).
Proof.
  revert st. induction rules as [|r rules IH]; intros st; simpl.
  { split_and!; intros; set_solver. }
  destruct (IH (reserve_step ctx st r)) as (Ha&Ht&Hn). unfold reserve_step in *.
  destruct (Z.eqb_spec (blocked_now ctx (rr_wait_method r)) 0) as [H0|H0].
  - rewrite filter_cons_False by auto. done.
  - rewrite filter_cons_True by done. simpl in *. split_and!.
    + intros x. rewrite Ha. set_solver.
    + rewrite Ht. naive_solver.
    + intros z. rewrite Hn. setoid_rewrite elem_of_cons. split.
      * intros [Hlt Hall]. split; [lia|]. intros r' [->|?]; [lia|auto].
      * intros [Hlt Hall]. split; [|auto]. specialize (Hall r (or_introl eq_refl)). lia.
Qed.

Lemma reserve_spec v ctx method :
  in_range v ctx → reserve_ok method ctx = true ↔
  (∀ r, r ∈ triggered ctx → rr_reserve_threads r < free_threads ctx) ∨
  (∀ r, r ∈ triggered ctx → rr_progress_methods r = []) ∨
  (∃ r, r ∈ triggered ctx ∧ method ∈ rr_progress_methods r).
Proof.
  intros Hr. unfold reserve_ok.
  destruct (reserve_fold ctx (reserve pol) (mkReserveSt ∅ 0 false)) as (Ha&Ht&Hn).
  fold (triggered ctx) in Ha, Ht, Hn. set (st := fold_left _ _ _) in *. simpl in *.
  destruct (any_triggered st) eqn:Hany; simpl.
  2:{ split; [|done]. intros _. left. intros r Hin. exfalso.
      assert (false = true); [|done]. apply Ht. right. intros Hnil. rewrite Hnil in Hin.
      by apply not_elem_of_nil in Hin. }
  destruct (proj1 Ht eq_refl) as [?|Htrig]; [done|].
  destruct (Z.leb_spec (free_threads ctx) (reserve_threads_needed st)) as [Hle|Hlt].
  - case_decide as He.
    + split; [|done]. intros _. right. left. intros r Hin. apply elem_of_nil_inv. intros x Hx.
      assert (x ∈ allowed st) by (apply Ha; right; eauto). set_solver.
    + rewrite bool_decide_eq_true, Ha. split.
      * intros [?|?]; [set_solver|by right; right].
      * intros [Hall|[Hall|?]]; [exfalso|exfalso|by right].
        -- destruct (triggered ctx) as [|r0 l] eqn:Etr; [done|].
           assert (0 ≤ rr_reserve_threads r0).
           { apply (ir_reserve _ _ Hr). assert (Hin : r0 ∈ triggered ctx) by (rewrite Etr; by left).
             unfold triggered in Hin. apply list_elem_of_filter in Hin. tauto. }
           assert (reserve_threads_needed st < free_threads ctx); [|lia]. apply Hn. split; [|done].
           specialize (Hall r0 ltac:(by left)). lia.
        -- apply He. apply set_eq. intros x. split; [|set_solver]. intros Hx. apply Ha in Hx.
           destruct Hx as [?|(r&Hin&Hx)]; [set_solver|]. rewrite (Hall r Hin) in Hx.
           by apply not_elem_of_nil in Hx.
  - split; [|done]. intros _. left. by apply Hn.
Qed.

Lemma VerifyStart_spec v method thread_id ctx :
  in_range v ctx → (base_VerifyStart (base_ v) method thread_id ctx).1 = true →
  (VerifyStart v method thread_id ctx).1 = true ↔ start_allowed v method ctx.
Proof.
  intros Hr Hb. unfold VerifyStart. destruct (base_VerifyStart _ _ _ _) as [ok b]. simpl in Hb.
  subst ok. simpl. set (v' := mkVerifier b _ _ _).
  assert (Hr' : in_range v' ctx) by (destruct Hr; by split).
  pose proof (max_active_spec v ctx method Hr) as H1.
  pose proof (max_blocked_spec v ctx method Hr) as H2.
  pose proof (prefix_budget_spec v' ctx method Hr') as H3.
  pose proof (reserve_spec v ctx method Hr) as H4.
  destruct (max_active_ok method ctx); simpl.
  2:{ split; [done|]. intros [Ha _ _ _]. by apply H1. }
  destruct (max_blocked_ok method ctx); simpl.
  2:{ split; [done|]. intros [_ Ha _ _]. by apply H2. }
  destruct (prefix_budget_ok v' method ctx); simpl.
  2:{ split; [done|]. intros [_ _ Ha _]. by apply H3. }
  rewrite H4. split; [|by intros []]. intros ?. split; [by apply H1|by apply H2|by apply H3|done].
Qed.

(** ** Rounds in which every start was verified

    [n] is the number of calls of [OnTaskStarted]. *)
Inductive guarded (threads : Z) : nat → ReservePolicyVerifier → Prop :=
  | guarded_round v : guarded threads 0 (OnRoundStart v threads)
  | guarded_start n v v' method thread_id task_id ctx :
      guarded threads n v → ctx_threads ctx = threads →
      VerifyStart v method thread_id ctx = (true, v') →
      guarded threads (S n) (OnTaskStarted v' method thread_id task_id)
  | guarded_verify n v name thread_id is_new :
      guarded threads n v → guarded threads n (Verify v name thread_id is_new).2
  | guarded_existing n v name task_id thread_id :
      guarded threads n v → guarded threads n (VerifyExisting v name task_id thread_id).2
  | guarded_finished n v name task_id thread_id :
      guarded threads n v → guarded threads n (OnFinished v name task_id thread_id).

(** The budget of rule [r] in state [v]. *)
Definition within_budget (threads : Z) v (r : PrefixBudgetRule) : Prop :=
  count (started_by_method_ v) (pb_wait_method r) ≤
    pb_initial_credit r + sum_over (count (started_by_method_ v)) (pb_progress_methods r) +
    threads - pb_reserve_threads r.

Lemma within_budget_same threads v v' r :
  started_by_method_ v' = started_by_method_ v → within_budget threads v r → within_budget threads v' r.
Proof. unfold within_budget. by intros ->. Qed.

Lemma sum_over_ext f g l : (∀ x, f x = g x) → sum_over f l = sum_over g l.
Proof. intros Hfg. induction l as [|x l IH]; simpl; [done|]. by rewrite Hfg, IH. Qed.

Lemma count_started v method thread_id task_id x :
  few_started v →
  count (started_by_method_ (OnTaskStarted v method thread_id task_id)) x =
    if decide (task_id ∈ started_task_ids_ v) then count (started_by_method_ v) x else started' v method x.
Proof.
  intros Hr. unfold OnTaskStarted. case_decide; [done|]. simpl. rewrite count_insert. unfold started'.
  specialize (Hr method). case_decide; [subst x; unfold wrap64; rewrite Z.mod_small by lia; lia|lia].
Qed.

(** The two calls that a start makes. *)
Lemma VerifyStart_started v v' method thread_id ctx :
  VerifyStart v method thread_id ctx = (true, v') →
  started_by_method_ v' = started_by_method_ v ∧ prefix_budget_ok v' method ctx = true.
Proof.
  unfold VerifyStart. destruct (base_VerifyStart _ _ _ _) as [ok b]. intros [= E <-]. split; [done|].
  destruct ok; [|done]. destruct (max_active_ok method ctx); [|done]. destruct (max_blocked_ok method ctx); [|done].
  by destruct (prefix_budget_ok _ method ctx).
Qed.

Lemma guarded_counts threads n v :
  guarded threads n v → Z.of_nat n < 2 ^ 32 - 1 → ∀ x, 0 ≤ count (started_by_method_ v) x ≤ Z.of_nat n.
Proof.
  intros Hg. induction Hg as [v|n v v' method thread_id task_id ctx Hg IH Hth Hvs|n v name th new Hg IH|
                   n v name id th Hg IH|n v name id th Hg IH]; intros Hn x.
  - simpl. unfold count. rewrite lookup_empty. done.
  - apply VerifyStart_started in Hvs as [Es _]. specialize (IH ltac:(lia)).
    rewrite count_started by (intros y; rewrite Es; specialize (IH y); lia). unfold started'. rewrite Es.
    specialize (IH x). repeat case_decide; lia.
  - unfold Verify. destruct (base_Verify _ _ _ _). by apply IH.
  - unfold VerifyExisting. destruct (base_VerifyExisting _ _ _ _). by apply IH.
  - by apply IH.
Qed.

Lemma guarded_budget threads n v r :
  guarded threads n v → r ∈ prefix_budget pol → rule_fits threads r → Z.of_nat n < 2 ^ 32 - 1 →
  within_budget threads v r.
Proof.
  intros Hg Hin Hr.
  induction Hg as [v|n v v' method thread_id task_id ctx Hg IH Hth Hvs|n v name th new Hg IH|
                   n v name id th Hg IH|n v name id th Hg IH]; intros Hn.
  - unfold within_budget. simpl.
    assert (Hc : ∀ x, count ∅ x = 0) by (intros x; by unfold count; rewrite lookup_empty).
    rewrite Hc, (sum_over_ext _ (λ _, 0)) by done.
    assert (Hz : ∀ l, sum_over (λ _, 0) l = 0) by (induction l; simpl; lia). rewrite Hz.
    destruct Hr as (_&_&?&_). lia.
  - apply VerifyStart_started in Hvs as [Es Hpb].
    assert (few_started v') as Hfew by (intros x; rewrite Es; pose proof (guarded_counts _ _ _ Hg ltac:(lia) x); lia).
    unfold within_budget. rewrite (count_started v') by done.
    rewrite (sum_over_ext _ _ _ (λ x, count_started v' method thread_id task_id x Hfew)).
    case_decide; [rewrite Es; by apply IH; lia|]. subst threads.
    apply list_elem_of_In in Hin. apply budget_rule_spec; [done..|].
    unfold prefix_budget_ok in Hpb. rewrite forallb_forall in Hpb. by apply Hpb.
  - unfold Verify. destruct (base_Verify _ _ _ _). by apply IH.
  - unfold VerifyExisting. destruct (base_VerifyExisting _ _ _ _). by apply IH.
  - by apply IH.
Qed.

(** ** Progress methods without duplicates *)

Lemma add_unique_spec out methods :
  NoDup out → NoDup (add_unique out methods) ∧
    ∀ x, x ∈ add_unique out methods ↔ x ∈ out ∨ x ∈ methods.
Proof.
  unfold add_unique. revert out. induction methods as [|m methods IH]; intros out Hnd; simpl.
  { split; [done|set_solver]. }
  destruct (IH (if decide (m ∈ out) then out else out ++ [m])) as [Hnd' Hx].
  { case_decide; [done|]. apply list.NoDup_app. split_and!; [done|set_solver|apply NoDup_singleton]. }
  split; [done|]. intros x. rewrite Hx. case_decide; set_solver.
Qed.

Lemma collect_spec {R} (wait : R → string) progress method (rules : list R) out :
  NoDup out → NoDup (collect wait progress method rules out) ∧
    ∀ x, x ∈ collect wait progress method rules out ↔
         x ∈ out ∨ ∃ r, r ∈ rules ∧ wait r = method ∧ x ∈ progress r.
Proof.
  unfold collect. revert out. induction rules as [|r rules IH]; intros out Hnd; simpl.
  { split; [done|set_solver]. }
  destruct (decide (wait r = method)) as [He|He].
  - destruct (add_unique_spec out (progress r) Hnd) as [Hnd1 H1].
    destruct (IH _ Hnd1) as [Hnd2 H2]. split; [done|]. intros x. rewrite H2, H1. set_solver.
  - destruct (IH _ Hnd) as [Hnd2 H2]. split; [done|]. intros x. rewrite H2. set_solver.
Qed.

(** ** Properties *)

(** In a round every task is counted once: the counter of a method is
    the number of distinct task ids first started with it. *)
Theorem started_counts_tasks v threads evs name :
  Z.of_nat (length evs) < 2 ^ 64 →
  count (started_by_method_ (starts (OnRoundStart v threads) evs)) name =
  occurrences name (first_starts ∅ evs).
Proof.
  intros Hl.
  assert (Hc : ∀ n, count (started_by_method_ (OnRoundStart v threads)) n = 0) by done.
  rewrite starts_count; [rewrite Hc; done|intros n; by rewrite Hc|intros n; rewrite Hc; lia].
Qed.

(** Away from wrap-around, [VerifyStart] allows exactly the starts that
    the base verifier and all four kinds of rules allow. *)
Theorem verify_start_exact v method thread_id ctx :
  in_range v ctx →
  (VerifyStart v method thread_id ctx).1 = true ↔
  (base_VerifyStart (base_ v) method thread_id ctx).1 = true ∧ start_allowed v method ctx.
Proof.
  intros Hr. destruct (base_VerifyStart (base_ v) method thread_id ctx).1 eqn:Hb.
  - rewrite VerifyStart_spec by done. tauto.
  - split; [|by intros [? _]]. unfold VerifyStart.
    destruct (base_VerifyStart _ _ _ _) as [ok b]. simpl in Hb. by subst ok.
Qed.

(** C32. If every start of a round of fewer than 2^32 - 1 starts was verified,
    the prefix-budget formula of workload_policy.h holds at every point of the
    round, for every rule of the policy whose numbers fit in 32 bits and that
    reserves no more threads than its credit and the threads of the round
    together; [prefix_budget_wraps] shows that the last condition is needed. *)
Theorem prefix_budget_invariant threads n v r :
  guarded threads n v → Z.of_nat n < 2 ^ 32 - 1 → r ∈ prefix_budget pol → rule_fits threads r →
  within_budget threads v r.
Proof. intros. by eapply guarded_budget. Qed.

(** The progress methods offered for a deadlock have no duplicates and
    are those of the rollback rules of the method or, when there are none,
    those of its reserve and prefix-budget rules. *)
Theorem deadlock_progress_methods method :
  NoDup (GetDeadlockProgressMethods method) ∧
  ∀ x, x ∈ GetDeadlockProgressMethods method ↔
    (∃ r, r ∈ rollback pol ∧ rb_wait_method r = method ∧ x ∈ rb_progress_methods r) ∨
    (∀ r y, r ∈ rollback pol → rb_wait_method r = method → y ∉ rb_progress_methods r) ∧
    ((∃ r, r ∈ reserve pol ∧ rr_wait_method r = method ∧ x ∈ rr_progress_methods r) ∨
     (∃ r, r ∈ prefix_budget pol ∧ pb_wait_method r = method ∧ x ∈ pb_progress_methods r)).
Proof.
  unfold GetDeadlockProgressMethods.
  destruct (collect_spec rb_wait_method rb_progress_methods method (rollback pol) []) as [Hnd Hx];
    [constructor|].
  destruct (collect rb_wait_method rb_progress_methods method (rollback pol) []) as [|m l].
  - destruct (collect_spec rr_wait_method rr_progress_methods method (reserve pol) [])
      as [Hnd1 H1]; [constructor|].
    destruct (collect_spec pb_wait_method pb_progress_methods method (prefix_budget pol) _ Hnd1)
      as [Hnd2 H2]. split; [done|]. intros x. rewrite H2, H1. set_solver.
  - split; [done|]. intros x. rewrite Hx. split.
    + intros [Hn|?]; [by apply not_elem_of_nil in Hn|by left].
    + intros [?|[Hnone _]]; [by right|]. exfalso.
      destruct (proj1 (Hx m) ltac:(by left)) as [Hn|(r&?&?&?)]; [by apply not_elem_of_nil in Hn|].
      by apply (Hnone r m).
Qed.

End Reserve.
Arguments ReservePolicyVerifier B : clear implicits.

(** When more threads are reserved than exist and there is no credit,
    the unsigned budget wraps around and the rule allows every start,
    against the formula of workload_policy.h. *)
Theorem prefix_budget_wraps :
  let r := mkBudget "pop" [] 2 0 in
  let pol := mkPolicy [] [r] [] [] [] in
  let ctx := mkContext 1 1 ∅ ∅ in
  (VerifyStart pol (B := unit) verifier_init "pop" 0 ctx).1 = true ∧
  ¬ (started' (B := unit) verifier_init "pop" "pop" ≤ 0 + 0 + 1 - 2).
Proof. split; [by vm_compute|]. vm_compute. by intros Hc. Qed.
