(* ===== verification/BlockManager.v ===== *)
(** * Blocking coroutines

    Models runtime/include/block_manager.h, block_state.h and the part of
    [CoroBase] (lib.h, lib.cpp) that blocks and wakes a coroutine: the
    queues of waiting coroutines by address. Coroutines are ids. *)
From stdpp Require Import base list gmap.
From Stdlib Require Import ZArith.
From S2P Require Import Prelude.

Record BlockState := mkBlockState { addr : Z; value : Z }.

(** [CanBeBlocked]: the cell at the address still has the value. *)
Definition CanBeBlocked (cell : Z → Z) (s : BlockState) : bool :=
  bool_decide (cell (addr s) = value s).

(** [std::unordered_map<uintptr_t, std::deque<CoroBase*>>], front first. *)
Abbreviation Queues := (gmap Z (list nat)).

Section BlockManager.
Implicit Types (q : Queues).

(** [operator[]] inserts an empty deque. *)
Definition subscript q (a : Z) : list nat * Queues :=
  match q !! a with
  | Some l => (l, q)
  | None => ([], <[a := []]> q)
  end.

Definition BlockOn q (s : BlockState) (coro : nat) : Queues :=
  let q := match q !! addr s with Some _ => q | None => <[addr s := []]> q end in
  let '(l, q) := subscript q (addr s) in <[addr s := l ++ [coro]]> q.

Definition IsBlocked q (s : BlockState) (coro : nat) : bool * Queues :=
  if bool_decide (addr s = 0%Z) then (false, q)
  else let '(l, q) := subscript q (addr s) in (bool_decide (coro ∈ l), q).

(** The loop of [UnblockOn]: the queue and the number of wake-ups. *)
Fixpoint pop_loop (max_wakes : nat) (l : list nat) : nat * list nat :=
  match max_wakes, l with
  | S k, _ :: l => let '(w, l) := pop_loop k l in (S w, l)
  | _, _ => (0, l)
  end.

Definition UnblockOn q (a : Z) (max_wakes : nat) : nat * Queues :=
  match q !! a with
  | None => (0, q)
  | Some l => let '(w, l) := pop_loop max_wakes l in (w, <[a := l]> q)
  end.

Definition UnblockAllOn q (a : Z) : Queues :=
  match q !! a with
  | None => q
  | Some _ => <[a := []]> q
  end.

Definition UnblockAll q : Queues := ∅.

(** [SetBlocked] and [IsBlocked] of a coroutine with its [fstate]; the
    wake-up condition is [None] when none is set. *)
Definition SetBlocked q (s : BlockState) (coro : nat) : BlockState * Queues := (s, BlockOn q s coro).

Definition CoroIsBlocked q (fstate : BlockState) (wakeup : option bool) (coro : nat) : bool * Queues :=
  let '(b, q) := IsBlocked q fstate coro in
  (if negb b then false else match wakeup with Some c => negb c | None => true end, q).

(** ** What the operations do to the queue of an address *)

Definition waiting q (a : Z) : list nat := default [] (q !! a).

Lemma waiting_insert q a b l : waiting (<[a := l]> q) b = if decide (a = b) then l else waiting q b.
Proof.
  unfold waiting. destruct (decide (a = b)) as [->|]; [by rewrite lookup_insert_eq|].
  by rewrite lookup_insert_ne.
Qed.

Lemma waiting_BlockOn q s c b :
  waiting (BlockOn q s c) b = if decide (addr s = b) then waiting q b ++ [c] else waiting q b.
Proof.
  unfold BlockOn, subscript. destruct (q !! addr s) as [l|] eqn:Hl.
  - rewrite Hl, waiting_insert. case_decide; [subst b|done]. unfold waiting. by rewrite Hl.
  - rewrite lookup_insert_eq, !waiting_insert. case_decide; [subst b|done]. unfold waiting. by rewrite Hl.
Qed.

Lemma pop_loop_spec k l : pop_loop k l = (Nat.min k (length l), drop k l).
Proof.
  revert l. induction k as [|k IH]; intros [|x l]; simpl; try done. by rewrite IH.
Qed.

Lemma waiting_UnblockOn q a k b :
  waiting (UnblockOn q a k).2 b = if decide (a = b) then drop k (waiting q b) else waiting q b.
Proof.
  unfold UnblockOn. destruct (q !! a) as [l|] eqn:Hl.
  - rewrite pop_loop_spec. simpl. rewrite waiting_insert. case_decide; [subst b|done].
    unfold waiting. by rewrite Hl.
  - simpl. case_decide; [subst b|done]. unfold waiting. rewrite Hl. simpl. by rewrite drop_nil.
Qed.

Lemma waiting_UnblockAllOn q a b :
  waiting (UnblockAllOn q a) b = if decide (a = b) then [] else waiting q b.
Proof.
  unfold UnblockAllOn. destruct (q !! a) as [l|] eqn:Hl.
  - apply waiting_insert.
  - case_decide; [subst b|done]. unfold waiting. by rewrite Hl.
Qed.

Lemma IsBlocked_waiting q s c :
  addr s ≠ 0%Z → (IsBlocked q s c).1 = bool_decide (c ∈ waiting q (addr s)) ∧
    ∀ b, waiting (IsBlocked q s c).2 b = waiting q b.
Proof.
  intros Ha. unfold IsBlocked, subscript. rewrite bool_decide_false by done.
  destruct (q !! addr s) as [l|] eqn:Hl; simpl.
  - unfold waiting. by rewrite Hl.
  - split.
    + unfold waiting. rewrite Hl. done.
    + intros b. rewrite waiting_insert. case_decide; [subst b|done]. unfold waiting. by rewrite Hl.
Qed.

(** ** Properties *)

(** A blocked coroutine stays blocked until enough wake-ups of its
    address: [UnblockOn] wakes the [max_wakes] longest waiting coroutines of
    the address, in the order they blocked, and no other. *)
Theorem unblock_on_fifo q a max_wakes b :
  (UnblockOn q a max_wakes).1 = Nat.min max_wakes (length (waiting q a)) ∧
  waiting (UnblockOn q a max_wakes).2 b =
    (if decide (a = b) then drop max_wakes (waiting q b) else waiting q b).
Proof.
  split; [|apply waiting_UnblockOn]. unfold UnblockOn, waiting. destruct (q !! a) as [l|]; simpl.
  - by rewrite pop_loop_spec.
  - lia.
Qed.

(** [SetBlocked] makes the coroutine blocked, [UnblockAllOn] of its
    address makes it runnable again, and neither affects coroutines that
    wait on other addresses. *)
Theorem set_blocked_unblock q s c :
  addr s ≠ 0%Z →
  let '(fs, q1) := SetBlocked q s c in
  (CoroIsBlocked q1 fs None c).1 = true ∧
  (CoroIsBlocked (UnblockAllOn q1 (addr s)) fs None c).1 = false ∧
  ∀ b, b ≠ addr s → waiting (UnblockAllOn q1 (addr s)) b = waiting q b.
Proof.
  intros Ha. simpl. split_and!.
  - unfold CoroIsBlocked. destruct (IsBlocked_waiting (BlockOn q s c) s c Ha) as [Hb _].
    destruct (IsBlocked _ _ _) as [bl q']. simpl in *. rewrite Hb, waiting_BlockOn, decide_True by done.
    rewrite bool_decide_true; [done|]. set_solver.
  - unfold CoroIsBlocked.
    destruct (IsBlocked_waiting (UnblockAllOn (BlockOn q s c) (addr s)) s c Ha) as [Hb _].
    destruct (IsBlocked _ _ _) as [bl q']. simpl in *.
    rewrite Hb, waiting_UnblockAllOn, decide_True by done.
    rewrite bool_decide_false; [done|]. set_solver.
  - intros b Hb. rewrite waiting_UnblockAllOn, decide_False, waiting_BlockOn, decide_False by done.
    done.
Qed.

End BlockManager.
