(* ===== verification/Blocking.v ===== *)
(** * The blocking primitives of the runtime

    Models [mutex] and [shared_mutex_r] of
    runtime/include/blocking_primitives.h as systems of coroutines. A step is
    what a coroutine executes between two yields; a coroutine that waits is
    only resumed when the block manager does not hold it. *)
From stdpp Require Import base list gmap.
From Stdlib Require Import ZArith.
From S2P Require Import Prelude BlockManager.

Open Scope Z_scope.

(** ** [mutex] *)
Module Mutex.

Inductive pc := Outside | Waiting | TryFailed | Holding.

#[global] Instance mutex_pc_eq_dec : EqDecision pc.
Proof. solve_decision. Defined.

Record st := mkSt { locked : Z; queues : Queues; pcs : list pc }.

Section Mutex.
(** The address of [locked]. *)
Context (a : Z) (a_nonnull : a ≠ 0).

(** [lock]: one iteration of its loop, to the yield or the return. *)
Definition lock (s : st) (c : nat) : st :=
  if negb (locked s =? 0)
  then mkSt (locked s) (SetBlocked (queues s) (mkBlockState a (locked s)) c).2
         (<[c := Waiting]> (pcs s))
  else mkSt 1 (queues s) (<[c := Holding]> (pcs s)).

(** [try_lock] yields before it returns [false]. *)
Definition try_lock (s : st) (c : nat) : st :=
  if negb (locked s =? 0) then mkSt (locked s) (queues s) (<[c := TryFailed]> (pcs s))
  else mkSt 1 (queues s) (<[c := Holding]> (pcs s)).

Definition unlock (s : st) (c : nat) : st :=
  mkSt 0 (UnblockAllOn (queues s) a) (<[c := Outside]> (pcs s)).

Inductive step : st → st → Prop :=
  | step_lock s c : pcs s !! c = Some Outside → step s (lock s c)
  | step_relock s c : pcs s !! c = Some Waiting →
      (IsBlocked (queues s) (mkBlockState a (locked s)) c).1 = false → step s (lock s c)
  | step_try s c : pcs s !! c = Some Outside → step s (try_lock s c)
  | step_try_return s c : pcs s !! c = Some TryFailed →
      step s (mkSt (locked s) (queues s) (<[c := Outside]> (pcs s)))
  | step_unlock s c : pcs s !! c = Some Holding → step s (unlock s c).

Inductive reachable : st → Prop :=
  | reach_init n : reachable (mkSt 0 ∅ (replicate n Outside))
  | reach_step s s' : reachable s → step s s' → reachable s'.

Definition is_holding (p : pc) : bool := bool_decide (p = Holding).

Record inv (s : st) : Prop := {
  inv_locked : locked s = Z.of_nat (countb is_holding (pcs s));
  inv_one : locked s ≤ 1;
  inv_wait c : c ∈ waiting (queues s) a → pcs s !! c = Some Waiting ∧ locked s ≠ 0;
}.

Lemma countb_replicate n : countb is_holding (replicate n Outside) = 0%nat.
Proof. induction n; simpl; auto. Qed.

Lemma mutex_lock_inv s c p :
  inv s → pcs s !! c = Some p → p ≠ Holding → c ∉ waiting (queues s) a → inv (lock s c).
Proof.
  intros [Hl Ho Hw] Hp Hne Hc. unfold lock.
  pose proof (countb_insert is_holding (pcs s) c p) as Hcnt.
  assert (Hhp : is_holding p = false) by (by apply bool_decide_false).
  destruct (Z.eqb_spec (locked s) 0) as [H0|H0]; simpl.
  - specialize (Hcnt Holding Hp). rewrite Hhp in Hcnt. simpl in Hcnt.
    split; simpl; [lia|lia|]. intros c' Hc'. apply Hw in Hc' as [_ ?]. done.
  - specialize (Hcnt Waiting Hp). rewrite Hhp in Hcnt. simpl in Hcnt.
    split; simpl; [lia|lia|]. intros c'. rewrite waiting_BlockOn. simpl.
    rewrite decide_True by done. rewrite elem_of_app, list_elem_of_singleton. intros [Hc'| ->].
    + destruct (Hw c' Hc'). rewrite list_lookup_insert_ne; [done|]. by intros ->.
    + split; [|done]. apply list_lookup_insert_eq. by eapply lookup_lt_Some.
Qed.

Lemma mutex_step_inv s s' : inv s → step s s' → inv s'.
Proof.
  intros Hinv Hstep. pose proof Hinv as [Hl Ho Hw].
  destruct Hstep as [s c Hp|s c Hp Hb|s c Hp|s c Hp|s c Hp].
  - eapply mutex_lock_inv; try done. intros Hc. apply Hw in Hc as [? _]. congruence.
  - eapply mutex_lock_inv; try done.
    destruct (IsBlocked_waiting (queues s) (mkBlockState a (locked s)) c a_nonnull) as [Heq _].
    rewrite Hb in Heq. symmetry in Heq. by apply bool_decide_eq_false in Heq.
  - pose proof (countb_insert is_holding (pcs s) c Outside) as Hcnt. unfold try_lock.
    destruct (Z.eqb_spec (locked s) 0) as [H0|H0]; simpl.
    + specialize (Hcnt Holding Hp). simpl in Hcnt. split; simpl; [lia|lia|].
      intros c' Hc'. apply Hw in Hc' as [_ ?]. done.
    + specialize (Hcnt TryFailed Hp). simpl in Hcnt. split; simpl; [lia|lia|].
      intros c' Hc'. destruct (Hw c' Hc') as [? _]. rewrite list_lookup_insert_ne; [auto|].
      intros ->. congruence.
  - pose proof (countb_insert is_holding (pcs s) c TryFailed Outside Hp) as Hcnt. simpl in Hcnt.
    split; simpl; [lia|lia|]. intros c' Hc'. destruct (Hw c' Hc') as [? ?].
    rewrite list_lookup_insert_ne; [done|]. intros ->. congruence.
  - pose proof (countb_insert is_holding (pcs s) c Holding Outside Hp) as Hcnt. simpl in Hcnt.
    split; simpl; [lia|lia|]. intros c'. rewrite waiting_UnblockAllOn, decide_True by done.
    by intros ?%not_elem_of_nil.
Qed.

Lemma mutex_reachable_inv s : reachable s → inv s.
Proof.
  induction 1 as [n|s s' _ IH Hstep]; [|by eapply mutex_step_inv].
  split; simpl; [by rewrite countb_replicate|lia|]. intros c Hc. by apply not_elem_of_nil in Hc.
Qed.

(** C33. Mutual exclusion, and no lost wake-up: whenever nobody holds the
    mutex, no coroutine is blocked on it. *)
Theorem mutex_correct s :
  reachable s →
  (countb is_holding (pcs s) ≤ 1)%nat ∧
  (countb is_holding (pcs s) = 0%nat → ∀ c, (IsBlocked (queues s) (mkBlockState a (locked s)) c).1 = false).
Proof.
  intros Hr. destruct (mutex_reachable_inv s Hr) as [Hl Ho Hw]. split; [lia|]. intros H0 c.
  destruct (IsBlocked_waiting (queues s) (mkBlockState a (locked s)) c a_nonnull) as [-> _].
  apply bool_decide_false. intros Hc. apply Hw in Hc as [_ ?]. lia.
Qed.

End Mutex.
End Mutex.

(** ** [shared_mutex_r] *)
Module SharedMutexR.

Inductive pc := Outside | WriterWaiting | WriterHolding | ReaderWaiting | ReaderHolding.

#[global] Instance smr_pc_eq_dec : EqDecision pc.
Proof. solve_decision. Defined.

Record st := mkSt { locked : Z; queues : Queues; pcs : list pc }.

Section SharedMutexR.
Context (a : Z) (a_nonnull : a ≠ 0).

Definition block (s : st) (c : nat) (p : pc) : st :=
  mkSt (locked s) (SetBlocked (queues s) (mkBlockState a (locked s)) c).2 (<[c := p]> (pcs s)).

Definition lock (s : st) (c : nat) : st :=
  if negb (locked s =? 0) then block s c WriterWaiting
  else mkSt (-1) (queues s) (<[c := WriterHolding]> (pcs s)).

Definition unlock (s : st) (c : nat) : st :=
  mkSt 0 (UnblockAllOn (queues s) a) (<[c := Outside]> (pcs s)).

Definition lock_shared (s : st) (c : nat) : st :=
  if locked s =? -1 then block s c ReaderWaiting
  else mkSt (locked s + 1) (queues s) (<[c := ReaderHolding]> (pcs s)).

Definition unlock_shared (s : st) (c : nat) : st :=
  mkSt (locked s - 1) (UnblockAllOn (queues s) a) (<[c := Outside]> (pcs s)).

Definition runnable (s : st) (c : nat) : Prop :=
  (IsBlocked (queues s) (mkBlockState a (locked s)) c).1 = false.

Inductive step : st → st → Prop :=
  | step_lock s c : pcs s !! c = Some Outside → step s (lock s c)
  | step_relock s c : pcs s !! c = Some WriterWaiting → runnable s c → step s (lock s c)
  | step_unlock s c : pcs s !! c = Some WriterHolding → step s (unlock s c)
  | step_lock_shared s c : pcs s !! c = Some Outside → step s (lock_shared s c)
  | step_relock_shared s c : pcs s !! c = Some ReaderWaiting → runnable s c →
      step s (lock_shared s c)
  | step_unlock_shared s c : pcs s !! c = Some ReaderHolding → step s (unlock_shared s c).

Inductive reachable : st → Prop :=
  | reach_init n : reachable (mkSt 0 ∅ (replicate n Outside))
  | reach_step s s' : reachable s → step s s' → reachable s'.

Definition is_writer (p : pc) : bool := bool_decide (p = WriterHolding).
Definition is_reader (p : pc) : bool := bool_decide (p = ReaderHolding).

Definition writers (s : st) : nat := countb is_writer (pcs s).
Definition readers (s : st) : nat := countb is_reader (pcs s).

Record inv (s : st) : Prop := {
  inv_locked : locked s = -1 ∧ writers s = 1%nat ∧ readers s = 0%nat ∨
               locked s = Z.of_nat (readers s) ∧ writers s = 0%nat;
  inv_wait c : c ∈ waiting (queues s) a →
    pcs s !! c = Some WriterWaiting ∧ locked s ≠ 0 ∨
    pcs s !! c = Some ReaderWaiting ∧ locked s = -1;
}.

Lemma counts_insert s c p p' :
  pcs s !! c = Some p →
  (countb is_writer (<[c := p']> (pcs s)) + (if is_writer p then 1 else 0) =
   writers s + (if is_writer p' then 1 else 0))%nat ∧
  (countb is_reader (<[c := p']> (pcs s)) + (if is_reader p then 1 else 0) =
   readers s + (if is_reader p' then 1 else 0))%nat.
Proof. intros Hp. split; by apply countb_insert. Qed.

Lemma runnable_waiting s c : runnable s c → c ∉ waiting (queues s) a.
Proof.
  unfold runnable. destruct (IsBlocked_waiting (queues s) (mkBlockState a (locked s)) c a_nonnull) as [-> _].
  by rewrite bool_decide_eq_false.
Qed.

Lemma wait_not_waiting s c p :
  inv s → pcs s !! c = Some p → p ≠ WriterWaiting → p ≠ ReaderWaiting → c ∉ waiting (queues s) a.
Proof. intros Hi Hp H1 H2 Hc. destruct (inv_wait _ Hi c Hc) as [[? _]|[? _]]; congruence. Qed.

(** Blocking keeps the invariant. *)
Lemma block_inv s c p p' :
  inv s → pcs s !! c = Some p → p ≠ WriterHolding → p ≠ ReaderHolding →
  c ∉ waiting (queues s) a →
  (p' = WriterWaiting ∧ locked s ≠ 0 ∨ p' = ReaderWaiting ∧ locked s = -1) →
  inv (block s c p').
Proof.
  intros Hi Hp Hw Hr Hc Hp'. destruct (counts_insert s c p p' Hp) as [Hcw Hcr].
  assert (Hc' : countb is_writer (<[c:=p']> (pcs s)) = writers s ∧
                countb is_reader (<[c:=p']> (pcs s)) = readers s).
  { destruct p; try done; destruct Hp' as [[-> _]|[-> _]]; simpl in *; lia. }
  destruct Hc' as [Hcw' Hcr']. split; simpl.
  - unfold writers, readers in *. simpl. rewrite Hcw', Hcr'. apply Hi.
  - intros c'. rewrite waiting_BlockOn. simpl. rewrite decide_True by done.
    rewrite elem_of_app, list_elem_of_singleton. intros [Hc'| ->].
    + rewrite list_lookup_insert_ne by (by intros ->). by apply (inv_wait _ Hi).
    + rewrite list_lookup_insert_eq by (by eapply lookup_lt_Some).
      destruct Hp' as [[-> ?]|[-> ?]]; auto.
Qed.

Lemma smr_lock_inv s c p :
  inv s → pcs s !! c = Some p → p ≠ WriterHolding → p ≠ ReaderHolding →
  c ∉ waiting (queues s) a → inv (lock s c).
Proof.
  intros Hi Hp Hw Hr Hc. unfold lock. destruct (Z.eqb_spec (locked s) 0) as [H0|H0]; simpl.
  - destruct (counts_insert s c p WriterHolding Hp) as [Hcw Hcr]. split; unfold writers, readers; simpl.
    + left. destruct (inv_locked _ Hi) as [(?&_)|[? ?]]; [lia|].
      destruct p; try done; simpl in *; lia.
    + intros c' Hc'. destruct (inv_wait _ Hi c' Hc') as [[_ ?]|[_ ?]]; lia.
  - eapply block_inv; eauto.
Qed.

Lemma lock_shared_inv s c p :
  inv s → pcs s !! c = Some p → p ≠ WriterHolding → p ≠ ReaderHolding →
  c ∉ waiting (queues s) a → inv (lock_shared s c).
Proof.
  intros Hi Hp Hw Hr Hc. unfold lock_shared. destruct (Z.eqb_spec (locked s) (-1)) as [H0|H0]; simpl.
  - eapply block_inv; eauto.
  - destruct (counts_insert s c p ReaderHolding Hp) as [Hcw Hcr].
    destruct (inv_locked _ Hi) as [(?&_)|[? ?]]; [lia|]. split; unfold writers, readers; simpl.
    + right. destruct p; try done; simpl in *; lia.
    + intros c' Hc'. destruct (inv_wait _ Hi c' Hc') as [[? ?]|[_ ?]]; [|lia].
      rewrite list_lookup_insert_ne by (by intros ->). left. split; [done|lia].
Qed.

Lemma release_inv s c p z :
  pcs s !! c = Some p →
  (let w := countb is_writer (<[c := Outside]> (pcs s)) in
   let r := countb is_reader (<[c := Outside]> (pcs s)) in
   z = -1 ∧ w = 1%nat ∧ r = 0%nat ∨ z = Z.of_nat r ∧ w = 0%nat) →
  inv (mkSt z (UnblockAllOn (queues s) a) (<[c := Outside]> (pcs s))).
Proof.
  intros Hp Hz. split; [done|]. simpl. intros c'. rewrite waiting_UnblockAllOn, decide_True by done.
  by intros ?%not_elem_of_nil.
Qed.

Lemma smr_step_inv s s' : inv s → step s s' → inv s'.
Proof.
  intros Hi Hstep. destruct Hstep as [s c Hp|s c Hp Hb|s c Hp|s c Hp|s c Hp Hb|s c Hp].
  - eapply smr_lock_inv; try done. by eapply wait_not_waiting.
  - eapply smr_lock_inv; try done. by apply runnable_waiting.
  - destruct (counts_insert s c WriterHolding Outside Hp) as [Hcw Hcr]. simpl in *.
    eapply release_inv; [done|]. simpl. destruct (inv_locked _ Hi) as [(?&?&?)|[? ?]]; [right; lia|].
    unfold writers in *. pose proof (countb_pos is_writer (pcs s) c _ Hp eq_refl). lia.
  - eapply lock_shared_inv; try done. by eapply wait_not_waiting.
  - eapply lock_shared_inv; try done. by apply runnable_waiting.
  - destruct (counts_insert s c ReaderHolding Outside Hp) as [Hcw Hcr]. simpl in *.
    eapply release_inv; [done|]. simpl.
    pose proof (countb_pos is_reader (pcs s) c _ Hp eq_refl). unfold readers in *.
    destruct (inv_locked _ Hi) as [(?&?&?)|[? ?]]; unfold readers in *; [lia|right; lia].
Qed.

Lemma smr_reachable_inv s : reachable s → inv s.
Proof.
  induction 1 as [n|s s' _ IH Hstep]; [|by eapply smr_step_inv].
  assert (Hz : ∀ p, p Outside = false → countb p (replicate n Outside) = 0%nat).
  { intros p Hp. induction n; simpl; [done|]. by rewrite Hp. }
  split; unfold writers, readers; simpl.
  - right. rewrite !Hz by done. done.
  - intros c Hc. by apply not_elem_of_nil in Hc.
Qed.

(** A writer excludes everybody else, and nobody is blocked who could
    proceed: a blocked writer implies a holder, a blocked reader a writer. *)
Theorem shared_mutex_r_correct s :
  reachable s →
  (writers s ≤ 1)%nat ∧ (writers s = 1%nat → readers s = 0%nat) ∧
  (∀ c, ¬ runnable s c →
     pcs s !! c = Some WriterWaiting ∧ (0 < writers s + readers s)%nat ∨
     pcs s !! c = Some ReaderWaiting ∧ writers s = 1%nat).
Proof.
  intros Hr. pose proof (smr_reachable_inv s Hr) as Hi. destruct (inv_locked _ Hi) as [(?&?&?)|[? ?]].
  all: split_and!; [lia|lia|]; intros c Hc; unfold runnable in Hc;
    destruct (IsBlocked_waiting (queues s) (mkBlockState a (locked s)) c a_nonnull) as [Heq _];
    rewrite Heq in Hc; apply not_false_iff_true, bool_decide_eq_true in Hc;
    destruct (inv_wait _ Hi c Hc) as [[? ?]|[? ?]]; [left|right]; split; try done; lia.
Qed.

End SharedMutexR.
End SharedMutexR.
