(* ===== verification/SharedMutex.v ===== *)
(** * [shared_mutex] and [condition_variable]

    Models [condition_variable] and [shared_mutex] of
    runtime/include/blocking_primitives.h. The inner mutex is always released
    at a yield, so acquiring it never blocks: the branch in which it would is
    the outcome [Throw] of the model, and is shown unreachable. Coroutine [c]
    runs on thread [c]. *)
From stdpp Require Import base list gmap strings.
From Stdlib Require Import ZArith.
From S2P Require Import Prelude BlockManager.

Open Scope Z_scope.

Inductive pc :=
  | Outside
  | WriterEntering    (* in write_entered_.wait of lock() *)
  | WriterDraining    (* in no_readers_.wait of lock() *)
  | WriterHolding
  | ReaderEntering    (* in write_entered_.wait of lock_shared() *)
  | ReaderHolding.

#[export] Instance sm_pc_eq_dec : EqDecision pc.
Proof. solve_decision. Defined.

Record st := mkSt {
  mutex_locked : Z;
  reader_count_ : Z;
  write_ : option nat;
  queues : Queues;
  pcs : list pc;
}.

Section SharedMutex.
(** The addresses of [mutex_], [write_entered_] and [no_readers_]. *)
Context (am ae ar : Z).
Context (am_nonnull : am ≠ 0) (ae_nonnull : ae ≠ 0) (ar_nonnull : ar ≠ 0).
Context (am_ae : am ≠ ae) (am_ar : am ≠ ar) (ae_ar : ae ≠ ar).

Definition set_pc (s : st) (c : nat) (p : pc) : st :=
  mkSt (mutex_locked s) (reader_count_ s) (write_ s) (queues s) (<[c := p]> (pcs s)).

(** [mutex_.lock()]; a held mutex would block. *)
Definition acquire (s : st) : outcome st :=
  if negb (mutex_locked s =? 0) then Throw "mutex_ is held"
  else Ret (mkSt 1 (reader_count_ s) (write_ s) (queues s) (pcs s)).

(** [mutex_.unlock()], also by the destructor of [std::unique_lock]. *)
Definition release (s : st) : st :=
  mkSt 0 (reader_count_ s) (write_ s) (UnblockAllOn (queues s) am) (pcs s).

(** [condition_variable::wait] up to its yield. *)
Definition wait (a : Z) (s : st) (c : nat) : st :=
  let s := release s in
  mkSt (mutex_locked s) (reader_count_ s) (write_ s)
    (SetBlocked (queues s) (mkBlockState a 1) c).2 (pcs s).

Definition notify_one (a : Z) (s : st) : st :=
  mkSt (mutex_locked s) (reader_count_ s) (write_ s) (UnblockOn (queues s) a 1).2 (pcs s).
Definition notify_all (a : Z) (s : st) : st :=
  mkSt (mutex_locked s) (reader_count_ s) (write_ s) (UnblockAllOn (queues s) a) (pcs s).

Definition has_write (s : st) : bool := bool_decide (is_Some (write_ s)).

(** The second loop of [lock] with the mutex held. *)
Definition drain (s : st) (c : nat) : st :=
  if 0 <? reader_count_ s then set_pc (wait ar s c) c WriterDraining
  else set_pc (release s) c WriterHolding.

(** [lock] from its start and from a wake-up in the first loop. *)
Definition lock (s : st) (c : nat) : outcome st :=
  s ← acquire s;
  Ret (if has_write s then set_pc (wait ae s c) c WriterEntering
       else drain (mkSt (mutex_locked s) (reader_count_ s) (Some c) (queues s) (pcs s)) c).

(** From a wake-up in the second loop. *)
Definition redrain (s : st) (c : nat) : outcome st := s ← acquire s; Ret (drain s c).

Definition lock_shared (s : st) (c : nat) : outcome st :=
  s ← acquire s;
  Ret (if has_write s then set_pc (wait ae s c) c ReaderEntering
       else set_pc (release (mkSt (mutex_locked s) (reader_count_ s + 1) (write_ s) (queues s) (pcs s)))
              c ReaderHolding).

(** [unlock], which [unlock_shared] calls too. *)
Definition unlock (s : st) (c : nat) : outcome st :=
  s ← acquire s;
  let s :=
    if bool_decide (write_ s = Some c)
    then notify_all ae (mkSt (mutex_locked s) (reader_count_ s) None (queues s) (pcs s))
    else
      let s := mkSt (mutex_locked s) (reader_count_ s - 1) (write_ s) (queues s) (pcs s) in
      if has_write s && (reader_count_ s =? 0) then notify_one ar s else s in
  Ret (set_pc (release s) c Outside).

Definition blocked_at (s : st) (a : Z) (c : nat) : bool :=
  (IsBlocked (queues s) (mkBlockState a 1) c).1.

(** What coroutine [c] does next, if it may run. *)
Inductive runs (s : st) (c : nat) : outcome st → Prop :=
  | runs_lock : pcs s !! c = Some Outside → runs s c (lock s c)
  | runs_relock : pcs s !! c = Some WriterEntering → blocked_at s ae c = false → runs s c (lock s c)
  | runs_redrain : pcs s !! c = Some WriterDraining → blocked_at s ar c = false →
      runs s c (redrain s c)
  | runs_unlock : pcs s !! c = Some WriterHolding → runs s c (unlock s c)
  | runs_lock_shared : pcs s !! c = Some Outside → runs s c (lock_shared s c)
  | runs_relock_shared : pcs s !! c = Some ReaderEntering → blocked_at s ae c = false →
      runs s c (lock_shared s c)
  | runs_unlock_shared : pcs s !! c = Some ReaderHolding → runs s c (unlock s c).

Inductive reachable : st → Prop :=
  | reach_init n : reachable (mkSt 0 0 None ∅ (replicate n Outside))
  | reach_step s s' c : reachable s → runs s c (Ret s') → reachable s'.

Definition is_reader (p : pc) : bool := bool_decide (p = ReaderHolding).
Definition is_owner (p : pc) : bool := bool_decide (p = WriterDraining ∨ p = WriterHolding).
Definition is_writer (p : pc) : bool := bool_decide (p = WriterHolding).

Definition readers (s : st) : nat := countb is_reader (pcs s).
Definition writers (s : st) : nat := countb is_writer (pcs s).

Record inv (s : st) : Prop := {
  inv_mutex : mutex_locked s = 0;
  inv_readers : reader_count_ s = Z.of_nat (readers s);
  inv_owner c : write_ s = Some c ↔ ∃ p, pcs s !! c = Some p ∧ is_owner p = true;
  inv_holding c : pcs s !! c = Some WriterHolding → reader_count_ s = 0;
  inv_entered c : c ∈ waiting (queues s) ae → is_Some (write_ s) ∧
    (pcs s !! c = Some WriterEntering ∨ pcs s !! c = Some ReaderEntering);
  inv_drained c : c ∈ waiting (queues s) ar → pcs s !! c = Some WriterDraining ∧ 0 < reader_count_ s;
  inv_one : (length (waiting (queues s) ar) ≤ 1)%nat;
}.

Lemma readers_insert s c p p' :
  pcs s !! c = Some p →
  (countb is_reader (<[c := p']> (pcs s)) + (if is_reader p then 1 else 0) =
   readers s + (if is_reader p' then 1 else 0))%nat.
Proof. apply countb_insert. Qed.

Lemma blocked_at_waiting s a c : a ≠ 0 → blocked_at s a c = bool_decide (c ∈ waiting (queues s) a).
Proof. intros Ha. apply (IsBlocked_waiting (queues s) (mkBlockState a 1) c Ha). Qed.

(** The queues after a wait: the mutex queue is cleared, [c] is appended. *)
Lemma wait_waiting a s c b :
  b ≠ am → waiting (queues (wait a s c)) b =
    if decide (a = b) then waiting (queues s) b ++ [c] else waiting (queues s) b.
Proof.
  intros Hb. unfold wait, release, SetBlocked. simpl. rewrite waiting_BlockOn. simpl.
  assert (Hq : waiting (UnblockAllOn (queues s) am) b = waiting (queues s) b).
  { rewrite waiting_UnblockAllOn. by rewrite decide_False by done. }
  by rewrite Hq.
Qed.

Lemma release_waiting s b : b ≠ am → waiting (queues (release s)) b = waiting (queues s) b.
Proof. intros Hb. unfold release. simpl. by rewrite waiting_UnblockAllOn, decide_False by done. Qed.

(** The owner is unique. *)
Lemma owner_unique s c c' p :
  inv s → write_ s = Some c → pcs s !! c' = Some p → is_owner p = true → c' = c.
Proof. intros Hi Hw Hp Ho. assert (write_ s = Some c') by (apply Hi; eauto). congruence. Qed.

(** Entering waits keep the invariant. *)
Lemma enter_inv s c p p' :
  inv s → pcs s !! c = Some p → is_reader p = false → is_owner p = false →
  is_Some (write_ s) → (p' = WriterEntering ∨ p' = ReaderEntering) → c ∉ waiting (queues s) ar →
  inv (set_pc (wait ae s c) c p').
Proof.
  intros Hi Hp Hr Ho Hw Hp' Hc. pose proof (readers_insert s c p p' Hp) as Hcnt. rewrite Hr in Hcnt.
  assert (is_reader p' = false ∧ is_owner p' = false) as [Hr' Ho'] by (destruct Hp' as [-> | ->]; done).
  rewrite Hr' in Hcnt. apply lookup_lt_Some in Hp as Hlt.
  split; simpl.
  - done.
  - unfold readers in *. simpl. rewrite (inv_readers _ Hi). unfold readers. lia.
  - intros c'. rewrite (inv_owner _ Hi). destruct (decide (c = c')) as [<-|Hne].
    + rewrite list_lookup_insert_eq by done. split; intros (q&Hq&Hoq); simplify_eq; congruence.
    + by rewrite list_lookup_insert_ne.
  - intros c' Hc'. apply list_lookup_insert_Some in Hc' as [(<-&->&_)|[_ Hc']].
    + by destruct Hp'.
    + by apply (inv_holding _ Hi c').
  - intros c' Hc'. change (c' ∈ waiting (queues (wait ae s c)) ae) in Hc'. rewrite wait_waiting, decide_True in Hc' by done.
    split; [done|]. apply elem_of_app in Hc' as [Hc'|Hc'].
    + destruct (decide (c = c')) as [<-|Hne].
      * rewrite list_lookup_insert_eq by done. destruct Hp' as [-> | ->]; auto.
      * rewrite list_lookup_insert_ne by done. by apply (inv_entered _ Hi).
    + apply list_elem_of_singleton in Hc' as ->. rewrite list_lookup_insert_eq by done.
      destruct Hp' as [-> | ->]; auto.
  - intros c' Hc'. change (c' ∈ waiting (queues (wait ae s c)) ar) in Hc'.
    rewrite wait_waiting, decide_False in Hc' by done. destruct (inv_drained _ Hi c' Hc').
    rewrite list_lookup_insert_ne; [done|]. by intros ->.
  - change (length (waiting (queues (wait ae s c)) ar) ≤ 1)%nat.
    rewrite wait_waiting, decide_False by done. apply (inv_one _ Hi).
Qed.

(** Becoming or staying the owner: [s] already has [write_ = Some c]. *)
Lemma drain_inv s c p :
  mutex_locked s = 1 → reader_count_ s = Z.of_nat (readers s) → write_ s = Some c →
  pcs s !! c = Some p → is_reader p = false → c ∉ waiting (queues s) ae →
  (∀ c' q, pcs s !! c' = Some q → is_owner q = true → c' = c) →
  (∀ c', c' ∈ waiting (queues s) ae →
     pcs s !! c' = Some WriterEntering ∨ pcs s !! c' = Some ReaderEntering) →
  waiting (queues s) ar = [] → inv (drain s c).
Proof.
  intros Hm Hr Hw Hp Hrp Hce Hown Hent Hdr. apply lookup_lt_Some in Hp as Hlt.
  assert (Hgen : ∀ p' (s1 : st),
    is_reader p' = false → is_owner p' = true → mutex_locked s1 = 0 →
    reader_count_ s1 = reader_count_ s → write_ s1 = Some c → pcs s1 = pcs s →
    (∀ b, b ≠ am → b ≠ ar → waiting (queues s1) b = waiting (queues s) b) →
    (p' = WriterHolding → reader_count_ s = 0) →
    (waiting (queues s1) ar = [] ∨ waiting (queues s1) ar = [c] ∧ p' = WriterDraining ∧ 0 < reader_count_ s) →
    inv (set_pc s1 c p')).
  { intros p' s1 Hr' Ho' Hm1 Hr1 Hw1 Hpc1 Hq Hh Har. split; simpl.
    - done.
    - pose proof (readers_insert s c p p' Hp) as Hcnt. rewrite Hrp, Hr' in Hcnt.
      unfold readers in *. simpl. rewrite Hpc1. lia.
    - intros c'. rewrite Hpc1, Hw1. split.
      + intros [= <-]. exists p'. by rewrite list_lookup_insert_eq.
      + intros (q&Hq'&Hoq). apply list_lookup_insert_Some in Hq' as [(<-&_)|[_ Hq']]; [done|].
        f_equal. symmetry. by eapply Hown.
    - rewrite Hpc1, Hr1. intros c' Hc'. apply list_lookup_insert_Some in Hc' as [(_&?&_)|[Hne Hc']].
      + auto.
      + destruct Hne. symmetry. by eapply Hown.
    - intros c'. rewrite Hq, Hpc1, Hw1 by done. intros Hc'. split; [by eexists|].
      rewrite list_lookup_insert_ne by (by intros ->). auto.
    - intros c' Hc'. rewrite Hpc1, Hr1. destruct Har as [Heq|(Heq&->&?)];
        rewrite Heq in Hc'; [by apply not_elem_of_nil in Hc'|]. apply list_elem_of_singleton in Hc' as ->. by rewrite list_lookup_insert_eq.
    - destruct Har as [->|(->&_)]; simpl; lia. }
  unfold drain. destruct (Z.ltb_spec 0 (reader_count_ s)) as [Hpos|Hz].
  - apply Hgen; try done.
    + intros b Hb Hb'. rewrite wait_waiting, decide_False by done. done.
    + right. rewrite wait_waiting, decide_True, Hdr by done. done.
  - apply Hgen; try done.
    + intros b Hb _. by apply release_waiting.
    + lia.
    + left. by rewrite release_waiting.
Qed.

Lemma no_write_waiting s b :
  inv s → write_ s = None → b = ae ∨ b = ar → waiting (queues s) b = [].
Proof.
  intros Hi Hw Hb. apply elem_of_nil_inv. intros c Hc. destruct Hb as [->| ->].
  - apply (inv_entered _ Hi) in Hc as [[? ?] _]. congruence.
  - apply (inv_drained _ Hi) in Hc as [Hp _]. assert (write_ s = Some c); [|congruence].
    apply Hi. by exists WriterDraining.
Qed.

Lemma acquire_ok s : inv s → acquire s = Ret (mkSt 1 (reader_count_ s) (write_ s) (queues s) (pcs s)).
Proof. intros Hi. unfold acquire. by rewrite (inv_mutex _ Hi). Qed.

Lemma lock_ok s c p :
  inv s → pcs s !! c = Some p → is_reader p = false → is_owner p = false →
  ∃ s', lock s c = Ret s' ∧ inv s'.
Proof.
  intros Hi Hp Hr Ho. unfold lock. rewrite (acquire_ok s Hi). simpl. eexists. split; [done|].
  unfold has_write. simpl. case_bool_decide as Hw.
  - apply (enter_inv s c p WriterEntering); auto.
    intros Hc. apply (inv_drained _ Hi) in Hc as [Hd _]. rewrite Hp in Hd. by injection Hd as ->.
  - apply eq_None_not_Some in Hw. eapply drain_inv; simpl; try done.
    + apply Hi.
    + rewrite (no_write_waiting s ae Hi Hw); [|by left]. by intros ?%not_elem_of_nil.
    + intros c' q Hq Hoq. assert (write_ s = Some c'); [|congruence]. apply Hi. eauto.
    + rewrite (no_write_waiting s ae Hi Hw); [|by left]. by intros ? ?%not_elem_of_nil.
    + apply (no_write_waiting s ar Hi Hw). by right.
Qed.

Lemma redrain_ok s c :
  inv s → pcs s !! c = Some WriterDraining → c ∉ waiting (queues s) ar →
  ∃ s', redrain s c = Ret s' ∧ inv s'.
Proof.
  intros Hi Hp Hc. unfold redrain. rewrite (acquire_ok s Hi). simpl. eexists. split; [done|].
  assert (Hw : write_ s = Some c) by (apply Hi; by eexists).
  assert (Hown : ∀ c' q, pcs s !! c' = Some q → is_owner q = true → c' = c).
  { intros c' q Hq Hoq. by eapply owner_unique. }
  eapply drain_inv; simpl; try done.
  - apply Hi.
  - intros Hce. apply (inv_entered _ Hi) in Hce as [_ [?|?]]; congruence.
  - intros c' Hc'. by apply (inv_entered _ Hi) in Hc' as [_ ?].
  - apply elem_of_nil_inv. intros c' Hc'. pose proof (inv_drained _ Hi c' Hc') as [Hp' _].
    assert (c' = c) as -> by (by eapply Hown). done.
Qed.

Lemma lock_shared_ok s c p :
  inv s → pcs s !! c = Some p → is_reader p = false → is_owner p = false →
  ∃ s', lock_shared s c = Ret s' ∧ inv s'.
Proof.
  intros Hi Hp Hr Ho. unfold lock_shared. rewrite (acquire_ok s Hi). simpl. eexists. split; [done|].
  apply lookup_lt_Some in Hp as Hlt. unfold has_write. simpl. case_bool_decide as Hw.
  - apply (enter_inv s c p ReaderEntering); auto.
    intros Hc. apply (inv_drained _ Hi) in Hc as [Hd _]. rewrite Hp in Hd. by injection Hd as ->.
  - apply eq_None_not_Some in Hw. pose proof (readers_insert s c p ReaderHolding Hp) as Hcnt.
    rewrite Hr in Hcnt. simpl in Hcnt.
    assert (Hno : ∀ c' q, pcs s !! c' = Some q → is_owner q = false).
    { intros c' q Hq. destruct (is_owner q) eqn:Hoq; [|done].
      assert (write_ s = Some c'); [apply Hi; eauto|congruence]. }
    split; simpl.
    + done.
    + unfold readers in *. simpl. rewrite (inv_readers _ Hi). unfold readers. lia.
    + intros c'. split; [congruence|]. intros (q&Hq&Hoq).
      apply list_lookup_insert_Some in Hq as [(_&<-&_)|[_ Hq]]; [done|]. apply Hno in Hq. congruence.
    + intros c' Hc'. apply list_lookup_insert_Some in Hc' as [(_&?&_)|[_ Hc']]; [done|].
      by apply Hno in Hc'.
    + intros c' Hc'. change (c' ∈ waiting (queues (release s)) ae) in Hc'.
      rewrite release_waiting, (no_write_waiting s ae Hi Hw) in Hc' by auto. by apply not_elem_of_nil in Hc'.
    + intros c' Hc'. change (c' ∈ waiting (queues (release s)) ar) in Hc'.
      rewrite release_waiting, (no_write_waiting s ar Hi Hw) in Hc' by auto. by apply not_elem_of_nil in Hc'.
    + change (length (waiting (queues (release s)) ar) ≤ 1)%nat.
      rewrite release_waiting by auto. apply (inv_one _ Hi).
Qed.

Lemma unlock_writer_ok s c :
  inv s → pcs s !! c = Some WriterHolding → ∃ s', unlock s c = Ret s' ∧ inv s'.
Proof.
  intros Hi Hp. unfold unlock. rewrite (acquire_ok s Hi). simpl. eexists. split; [done|].
  assert (Hw : write_ s = Some c) by (apply Hi; by eexists). rewrite bool_decide_true by done.
  apply lookup_lt_Some in Hp as Hlt. pose proof (readers_insert s c _ Outside Hp) as Hcnt. simpl in Hcnt.
  assert (Hno : ∀ c' q, <[c := Outside]> (pcs s) !! c' = Some q → is_owner q = false).
  { intros c' q Hq. apply list_lookup_insert_Some in Hq as [(_&<-&_)|[Hne Hq]]; [done|].
    destruct (is_owner q) eqn:Hoq; [|done]. destruct Hne. symmetry. by eapply owner_unique. }
  assert (Har : waiting (queues s) ar = []).
  { apply elem_of_nil_inv. intros c' Hc'. pose proof (inv_drained _ Hi c' Hc') as [Hp' _].
    assert (c' = c) as -> by (by eapply owner_unique). congruence. }
  split; simpl.
  - done.
  - unfold readers in *. simpl. rewrite (inv_readers _ Hi). unfold readers. lia.
  - intros c'. split; [done|]. intros (q&Hq&Hoq). apply Hno in Hq. congruence.
  - intros c' Hc'. by apply Hno in Hc'.
  - intros c'. rewrite !waiting_UnblockAllOn, decide_False, decide_True by done.
    by intros ?%not_elem_of_nil.
  - intros c'. rewrite !waiting_UnblockAllOn, decide_False, decide_False, Har by done.
    by intros ?%not_elem_of_nil.
  - rewrite !waiting_UnblockAllOn, decide_False, decide_False, Har by done. simpl. lia.
Qed.

Lemma unlock_reader_ok s c :
  inv s → pcs s !! c = Some ReaderHolding → ∃ s', unlock s c = Ret s' ∧ inv s'.
Proof.
  intros Hi Hp. unfold unlock. rewrite (acquire_ok s Hi). simpl. eexists. split; [done|].
  apply lookup_lt_Some in Hp as Hlt. pose proof (readers_insert s c _ Outside Hp) as Hcnt. simpl in Hcnt.
  assert (Hw : write_ s ≠ Some c).
  { intros Hw. apply (inv_owner _ Hi) in Hw as (p&Hp'&Ho). rewrite Hp in Hp'. by injection Hp' as <-. }
  rewrite bool_decide_false by done.
  set (s1 := if has_write _ && _ then _ else _).
  assert (Hs1 : mutex_locked s1 = 1 ∧ reader_count_ s1 = reader_count_ s - 1 ∧ write_ s1 = write_ s ∧
    pcs s1 = pcs s ∧ waiting (queues s1) ae = waiting (queues s) ae ∧
    waiting (queues s1) ar = if bool_decide (is_Some (write_ s)) && (reader_count_ s - 1 =? 0)
                             then [] else waiting (queues s) ar).
  { unfold s1, has_write. simpl. destruct (_ && _); simpl; [|done]. split_and!; try done.
    - by rewrite waiting_UnblockOn, decide_False by done.
    - rewrite waiting_UnblockOn, decide_True by done. apply drop_ge. apply (inv_one _ Hi). }
  destruct Hs1 as (Hm1&Hr1&Hw1&Hpc1&Hae1&Har1). clearbody s1.
  pose proof (inv_readers _ Hi) as Hrd. pose proof (countb_pos is_reader (pcs s) c _ Hp eq_refl) as Hpos.
  fold (readers s) in Hpos.
  split; simpl.
  - done.
  - unfold readers in *. simpl. rewrite Hpc1, Hr1. lia.
  - intros c'. rewrite Hw1, Hpc1, (inv_owner _ Hi). destruct (decide (c = c')) as [<-|Hne].
    + rewrite list_lookup_insert_eq by done. split; intros (q&Hq&Hoq); simplify_eq; done.
    + by rewrite list_lookup_insert_ne.
  - intros c'. rewrite Hpc1. intros Hc'. apply list_lookup_insert_Some in Hc' as [(_&?&_)|[_ Hc']]; [done|].
    apply (inv_holding _ Hi) in Hc'. lia.
  - intros c'. change (waiting (UnblockAllOn (queues s1) am) ae) with (waiting (queues (release s1)) ae).
    rewrite release_waiting, Hae1, Hw1, Hpc1 by auto. intros Hc'.
    destruct (inv_entered _ Hi c' Hc') as [? Hpc]. split; [done|].
    rewrite list_lookup_insert_ne; [done|]. intros ->. destruct Hpc; congruence.
  - intros c'. change (waiting (UnblockAllOn (queues s1) am) ar) with (waiting (queues (release s1)) ar).
    rewrite release_waiting, Har1, Hr1, Hpc1 by auto. destruct (_ && _) eqn:Hb.
    + by intros ?%not_elem_of_nil.
    + intros Hc'. destruct (inv_drained _ Hi c' Hc') as [Hp' _].
      assert (write_ s = Some c') as Hw' by (apply Hi; by eexists).
      rewrite bool_decide_true in Hb by (by rewrite Hw'). simpl in Hb. apply Z.eqb_neq in Hb.
      split; [|lia]. rewrite list_lookup_insert_ne; [done|]. intros ->. congruence.
  - change (waiting (UnblockAllOn (queues s1) am) ar) with (waiting (queues (release s1)) ar).
    rewrite release_waiting, Har1 by auto. destruct (_ && _); [simpl; lia|apply (inv_one _ Hi)].
Qed.

Lemma runs_ok s c m : inv s → runs s c m → ∃ s', m = Ret s' ∧ inv s'.
Proof.
  intros Hi [Hp|Hp Hb|Hp Hb|Hp|Hp|Hp Hb|Hp].
  - by eapply lock_ok.
  - by eapply lock_ok.
  - apply redrain_ok; try done. rewrite blocked_at_waiting in Hb by done.
    by apply bool_decide_eq_false in Hb.
  - by apply unlock_writer_ok.
  - by eapply lock_shared_ok.
  - by eapply lock_shared_ok.
  - by apply unlock_reader_ok.
Qed.

Lemma sm_reachable_inv s : reachable s → inv s.
Proof.
  induction 1 as [n|s s' c _ IH Hr].
  - assert (Hz : ∀ c p, replicate n Outside !! c = Some p → p = Outside).
    { intros c p Hp. by apply lookup_replicate in Hp as [? _]. }
    split; simpl; try done.
    + assert (Hn : countb is_reader (replicate n Outside) = 0%nat).
      { clear. induction n; simpl; auto. }
      unfold readers. simpl. by rewrite Hn.
    + intros c. split; [done|]. intros (p&Hp&Ho). apply Hz in Hp. by subst p.
    + intros c Hc. by apply not_elem_of_nil in Hc.
    + intros c Hc. by apply not_elem_of_nil in Hc.
    + unfold waiting. rewrite lookup_empty. simpl. lia.
  - destruct (runs_ok s c (Ret s') IH Hr) as (s1&[= ->]&?). done.
Qed.

(** C35. In every reachable state a writer excludes all others, whatever a
    coroutine runs next succeeds (in particular the inner mutex never
    blocks), a coroutine is blocked on [write_entered_] only while there is
    a writer, and a writer is blocked on [no_readers_] only while there are
    readers. *)
Theorem shared_mutex_correct s :
  reachable s →
  (∀ c c', pcs s !! c = Some WriterHolding → pcs s !! c' = Some WriterHolding → c = c') ∧
  (∀ c, pcs s !! c = Some WriterHolding → readers s = 0%nat) ∧
  (∀ c m, runs s c m → ∃ s', m = Ret s') ∧
  (∀ c, blocked_at s ae c = true → is_Some (write_ s)) ∧
  (∀ c, blocked_at s ar c = true → (0 < readers s)%nat).
Proof.
  intros Hr. pose proof (sm_reachable_inv s Hr) as Hi. pose proof (inv_readers _ Hi). split_and!.
  - intros c c' Hc Hc'. assert (Hw : write_ s = Some c') by (apply Hi; by eexists).
    by eapply (owner_unique s c' c).
  - intros c Hc. apply (inv_holding _ Hi) in Hc. lia.
  - intros c m Hm. destruct (runs_ok s c m Hi Hm) as (s'&->&_). eauto.
  - intros c. rewrite blocked_at_waiting, bool_decide_eq_true by done. intros Hc. by apply (inv_entered _ Hi) in Hc as [? _].
  - intros c. rewrite blocked_at_waiting, bool_decide_eq_true by done. intros Hc.
    apply (inv_drained _ Hi) in Hc as [_ ?]. lia.
Qed.

End SharedMutex.
