(* ===== verification/Pthread.v ===== *)
(** * The intercepted pthread calls

    Models the mutex, condition variable and read-write lock calls of
    src/syscall_intercept/pthread.cpp, as coroutines make them
    ([ShouldUseMock]). The tables [mutexes], [cond_variables] and
    [shared_mutexes] are keyed by the address of the pthread object; a node
    of a table is allocated from a monotonic buffer, so that addresses are
    never used twice. The position of a thread in the code of a primitive is
    kept with the primitive, as in [Blocking] and [SharedMutex]. *)
From stdpp Require Import base list gmap strings.
From Stdlib Require Import ZArith.
From S2P Require Import Prelude BlockManager Blocking SharedMutex.

Open Scope Z_scope.

(** ** The tables *)

Record mutex := mkMutex { m_addr : Z; m_locked : Z; m_pcs : list Mutex.pc }.

Record shared_mutex := mkShared {
  sm_base : Z;
  sm_mutex_locked : Z;
  sm_reader_count : Z;
  sm_write : option nat;
  sm_pcs : list SharedMutex.pc;
}.

(** The offsets of [write_entered_], [no_readers_] and [mutex_]. *)
Definition sm_entered (s : shared_mutex) : Z := sm_base s + 16.
Definition sm_readers (s : shared_mutex) : Z := sm_base s + 20.
Definition sm_mutex (s : shared_mutex) : Z := sm_base s + 24.

Record Tables := mkTables {
  mutexes : gmap Z mutex;
  cond_variables : gmap Z Z;
  shared_mutexes : gmap Z shared_mutex;
  queues : Queues;
  next_addr : Z;
  threads : nat;
}.

Implicit Types (p : Tables) (t : nat).

Definition set_mutex p (m : Z) (c : mutex) (q : Queues) : Tables :=
  mkTables (<[m := c]> (mutexes p)) (cond_variables p) (shared_mutexes p) q (next_addr p) (threads p).
Definition set_shared p (l : Z) (s : shared_mutex) (q : Queues) : Tables :=
  mkTables (mutexes p) (cond_variables p) (<[l := s]> (shared_mutexes p)) q (next_addr p) (threads p).
Definition set_queues p (q : Queues) : Tables :=
  mkTables (mutexes p) (cond_variables p) (shared_mutexes p) q (next_addr p) (threads p).

(** The default member initializers, in a node at the next address. *)
Definition InsertMutex p (m : Z) : mutex * Tables :=
  match mutexes p !! m with
  | Some c => (c, p)
  | None =>
      let c := mkMutex (next_addr p) 0 (replicate (threads p) Mutex.Outside) in
      (c, mkTables (<[m := c]> (mutexes p)) (cond_variables p) (shared_mutexes p) (queues p) (next_addr p + 4) (threads p))
  end.

Definition FindMutex p (m : Z) (message : string) : outcome mutex :=
  match mutexes p !! m with
  | Some c => Ret c
  | None => Throw message
  end.

Definition InsertCond p (c : Z) : Z * Tables :=
  match cond_variables p !! c with
  | Some a => (a, p)
  | None =>
      let a := next_addr p in
      (a, mkTables (mutexes p) (<[c := a]> (cond_variables p)) (shared_mutexes p) (queues p) (a + 4) (threads p))
  end.

Definition InsertSharedLock p (l : Z) : shared_mutex * Tables :=
  match shared_mutexes p !! l with
  | Some s => (s, p)
  | None =>
      let s := mkShared (next_addr p) 0 0 None (replicate (threads p) SharedMutex.Outside) in
      (s, mkTables (mutexes p) (cond_variables p) (<[l := s]> (shared_mutexes p)) (queues p) (next_addr p + 32) (threads p))
  end.

(** ** Calls of the primitives' methods *)

Definition mutex_view (c : mutex) (q : Queues) : Mutex.st := Mutex.mkSt (m_locked c) q (m_pcs c).
Definition put_mutex p (m : Z) (a : Z) (s : Mutex.st) : Tables :=
  set_mutex p m (mkMutex a (Mutex.locked s) (Mutex.pcs s)) (Mutex.queues s).

Definition shared_view (s : shared_mutex) (q : Queues) : SharedMutex.st :=
  SharedMutex.mkSt (sm_mutex_locked s) (sm_reader_count s) (sm_write s) q (sm_pcs s).
Definition put_shared p (l : Z) (base : Z) (s : SharedMutex.st) : Tables :=
  set_shared p l (mkShared base (SharedMutex.mutex_locked s) (SharedMutex.reader_count_ s)
                    (SharedMutex.write_ s) (SharedMutex.pcs s)) (SharedMutex.queues s).

(** Where a thread that yielded goes on. *)
Inductive resume_point :=
  | AtLock (m : Z)           (* the loop of [mutex::lock] *)
  | AtTryLock (m : Z)        (* the yield of [mutex::try_lock] *)
  | AtWait (c m : Z)         (* the yield of [condition_variable::wait] *)
  | AtWrLock (l : Z)
  | AtRdLock (l : Z).

(** A call returns or yields. *)
Inductive call_end := Returned (rc : Z) | Yielded (k : resume_point).

Definition EBUSY : Z := 16.

(** [a.lock()]: a thread that has to wait yields at [AtLock]. *)
Definition do_lock p (m : Z) (c : mutex) t : Tables * call_end :=
  let s := Mutex.lock (m_addr c) (mutex_view c (queues p)) t in
  (put_mutex p m (m_addr c) s,
   if bool_decide (Mutex.pcs s !! t = Some Mutex.Waiting) then Yielded (AtLock m) else Returned 0).

Definition shared_end (l : Z) t (s : SharedMutex.st) : call_end :=
  match SharedMutex.pcs s !! t with
  | Some SharedMutex.WriterEntering | Some SharedMutex.WriterDraining => Yielded (AtWrLock l)
  | Some SharedMutex.ReaderEntering => Yielded (AtRdLock l)
  | _ => Returned 0
  end.

(** A method of the lock, with its three addresses. *)
Definition do_shared (method : Z → Z → Z → SharedMutex.st → nat → outcome SharedMutex.st)
    p (l : Z) (s : shared_mutex) t : outcome (Tables * call_end) :=
  s' ← method (sm_mutex s) (sm_entered s) (sm_readers s) (shared_view s (queues p)) t;
  Ret (put_shared p l (sm_base s) s', shared_end l t s').

Definition shared_lock am ae ar := SharedMutex.lock am ae ar.
Definition shared_lock_shared am ae (ar : Z) := SharedMutex.lock_shared am ae.
Definition shared_redrain am (ae : Z) ar := SharedMutex.redrain am ar.
Definition shared_unlock am ae ar := SharedMutex.unlock am ae ar.

(** ** The calls *)

Definition pthread_mutex_init p (m : Z) : outcome (Tables * call_end) := Ret (p, Returned 0).

Definition pthread_mutex_destroy p (m : Z) : outcome (Tables * call_end) :=
  match mutexes p !! m with
  | Some _ =>
      Ret (mkTables (delete m (mutexes p)) (cond_variables p) (shared_mutexes p) (queues p) (next_addr p) (threads p),
           Returned 0)
  | None => Ret (p, Returned 0)
  end.

Definition pthread_mutex_trylock p (m : Z) t : outcome (Tables * call_end) :=
  let '(c, p) := InsertMutex p m in
  let s := Mutex.try_lock (mutex_view c (queues p)) t in
  Ret (put_mutex p m (m_addr c) s,
       if bool_decide (Mutex.pcs s !! t = Some Mutex.TryFailed) then Yielded (AtTryLock m) else Returned 0).

Definition pthread_mutex_lock p (m : Z) t : outcome (Tables * call_end) :=
  let '(c, p) := InsertMutex p m in Ret (do_lock p m c t).

Definition pthread_mutex_unlock p (m : Z) t : outcome (Tables * call_end) :=
  c ← FindMutex p m "unlock called before lock";
  Ret (put_mutex p m (m_addr c) (Mutex.unlock (m_addr c) (mutex_view c (queues p)) t), Returned 0).

Definition pthread_cond_init p (c : Z) : outcome (Tables * call_end) := Ret (p, Returned 0).

Definition pthread_cond_destroy p (c : Z) : outcome (Tables * call_end) :=
  match cond_variables p !! c with
  | Some _ =>
      Ret (mkTables (mutexes p) (delete c (cond_variables p)) (shared_mutexes p) (queues p) (next_addr p) (threads p),
           Returned 0)
  | None => Ret (p, Returned 0)
  end.

Definition pthread_cond_signal p (c : Z) : outcome (Tables * call_end) :=
  let '(a, p) := InsertCond p c in Ret (set_queues p (UnblockOn (queues p) a 1).2, Returned 0).

Definition pthread_cond_broadcast p (c : Z) : outcome (Tables * call_end) :=
  let '(a, p) := InsertCond p c in Ret (set_queues p (UnblockAllOn (queues p) a), Returned 0).

(** [condition_variable::wait] up to its yield: the mutex is unlocked before
    the thread blocks. *)
Definition pthread_cond_wait p (c m : Z) t : outcome (Tables * call_end) :=
  let '(x, p) := InsertMutex p m in
  let '(a, p) := InsertCond p c in
  let p := put_mutex p m (m_addr x) (Mutex.unlock (m_addr x) (mutex_view x (queues p)) t) in
  Ret (set_queues p (SetBlocked (queues p) (mkBlockState a 1) t).2, Yielded (AtWait c m)).

Definition pthread_rwlock_init p (l : Z) : outcome (Tables * call_end) := Ret (p, Returned 0).

Definition pthread_rwlock_destroy p (l : Z) : outcome (Tables * call_end) :=
  match shared_mutexes p !! l with
  | Some _ =>
      Ret (mkTables (mutexes p) (cond_variables p) (delete l (shared_mutexes p)) (queues p) (next_addr p) (threads p),
           Returned 0)
  | None => Ret (p, Returned 0)
  end.

Definition pthread_rwlock_rdlock p (l : Z) t : outcome (Tables * call_end) :=
  let '(s, p) := InsertSharedLock p l in do_shared shared_lock_shared p l s t.

Definition pthread_rwlock_tryrdlock p (l : Z) : outcome (Tables * call_end) :=
  let '(s, p) := InsertSharedLock p l in Throw "not implemented".

Definition pthread_rwlock_wrlock p (l : Z) t : outcome (Tables * call_end) :=
  let '(s, p) := InsertSharedLock p l in do_shared shared_lock p l s t.

Definition pthread_rwlock_trywrlock p (l : Z) : outcome (Tables * call_end) := Throw "not implemented".

Definition pthread_rwlock_unlock p (l : Z) t : outcome (Tables * call_end) :=
  let '(s, p) := InsertSharedLock p l in do_shared shared_unlock p l s t.

(** What a resumed thread does up to its next yield. A reference to an erased
    node dangles. *)
Definition resume p t (k : resume_point) : outcome (Tables * call_end) :=
  match k with
  | AtLock m | AtWait _ m => c ← deref (mutexes p !! m); Ret (do_lock p m c t)
  | AtTryLock m =>
      c ← deref (mutexes p !! m);
      Ret (put_mutex p m (m_addr c) (Mutex.mkSt (m_locked c) (queues p) (<[t := Mutex.Outside]> (m_pcs c))),
           Returned EBUSY)
  | AtRdLock l => s ← deref (shared_mutexes p !! l); do_shared shared_lock_shared p l s t
  | AtWrLock l =>
      s ← deref (shared_mutexes p !! l);
      if bool_decide (sm_pcs s !! t = Some SharedMutex.WriterDraining)
      then do_shared shared_redrain p l s t else do_shared shared_lock p l s t
  end.

(** ** Threads that make the calls *)

Inductive pcall :=
  | MutexInit (m : Z) | MutexDestroy (m : Z) | MutexTrylock (m : Z) | MutexLock (m : Z) | MutexUnlock (m : Z)
  | CondInit (c : Z) | CondDestroy (c : Z) | CondSignal (c : Z) | CondBroadcast (c : Z) | CondWait (c m : Z)
  | RwInit (l : Z) | RwDestroy (l : Z) | RdLock (l : Z) | TryRdLock (l : Z) | WrLock (l : Z) | TryWrLock (l : Z)
  | RwUnlock (l : Z).

Definition call p t (x : pcall) : outcome (Tables * call_end) :=
  match x with
  | MutexInit m => pthread_mutex_init p m
  | MutexDestroy m => pthread_mutex_destroy p m
  | MutexTrylock m => pthread_mutex_trylock p m t
  | MutexLock m => pthread_mutex_lock p m t
  | MutexUnlock m => pthread_mutex_unlock p m t
  | CondInit c => pthread_cond_init p c
  | CondDestroy c => pthread_cond_destroy p c
  | CondSignal c => pthread_cond_signal p c
  | CondBroadcast c => pthread_cond_broadcast p c
  | CondWait c m => pthread_cond_wait p c m t
  | RwInit l => pthread_rwlock_init p l
  | RwDestroy l => pthread_rwlock_destroy p l
  | RdLock l => pthread_rwlock_rdlock p l t
  | TryRdLock l => pthread_rwlock_tryrdlock p l
  | WrLock l => pthread_rwlock_wrlock p l t
  | TryWrLock l => pthread_rwlock_trywrlock p l
  | RwUnlock l => pthread_rwlock_unlock p l t
  end.

(** The tables and, for each thread, where it yielded. *)
Record sys := mkSys { tables : Tables; points : list (option resume_point) }.

Definition finish (s : sys) t (r : Tables * call_end) : sys :=
  mkSys (r.1) (<[t := match r.2 with Returned _ => None | Yielded k => Some k end]> (points s)).

(** The address on whose queue the scheduler looks for the thread. *)
Definition wait_addr p t (k : resume_point) : option Z :=
  match k with
  | AtLock m => m_addr <$> mutexes p !! m
  | AtTryLock _ => None
  | AtWait c _ => cond_variables p !! c
  | AtRdLock l => sm_entered <$> shared_mutexes p !! l
  | AtWrLock l =>
      (λ s, if bool_decide (sm_pcs s !! t = Some SharedMutex.WriterDraining) then sm_readers s else sm_entered s)
        <$> shared_mutexes p !! l
  end.

Definition is_blocked p t (k : resume_point) : bool :=
  match wait_addr p t k with
  | Some a => (IsBlocked (queues p) (mkBlockState a 1) t).1
  | None => false
  end.

Definition mutex_pc p (m : Z) t : Mutex.pc :=
  default Mutex.Outside (mutexes p !! m ≫= λ c, m_pcs c !! t).
Definition shared_pc p (l : Z) t : SharedMutex.pc :=
  default SharedMutex.Outside (shared_mutexes p !! l ≫= λ s, sm_pcs s !! t).

(** The calls whose effect POSIX defines: a thread locks a mutex it does not
    hold, unlocks and waits with one it holds, and destroys an object that no
    thread holds or waits for; the two unimplemented calls are not made. *)
Definition allowed (s : sys) t (x : pcall) : Prop :=
  let p := tables s in
  match x with
  | MutexInit _ | CondInit _ | RwInit _ | CondSignal _ | CondBroadcast _ => True
  | MutexLock m | MutexTrylock m => mutex_pc p m t = Mutex.Outside
  | MutexUnlock m | CondWait _ m => mutex_pc p m t = Mutex.Holding
  | MutexDestroy m =>
      (∀ t', mutex_pc p m t' = Mutex.Outside) ∧ (∀ t' c, points s !! t' ≠ Some (Some (AtWait c m)))
  | CondDestroy c => ∀ t' m, points s !! t' ≠ Some (Some (AtWait c m))
  | RdLock l | WrLock l => shared_pc p l t = SharedMutex.Outside
  | RwUnlock l => shared_pc p l t = SharedMutex.ReaderHolding ∨ shared_pc p l t = SharedMutex.WriterHolding
  | RwDestroy l => ∀ t', shared_pc p l t' = SharedMutex.Outside
  | TryRdLock _ | TryWrLock _ => False
  end.

(** What thread [t] does next, if it may run. *)
Inductive acts (s : sys) t : outcome (Tables * call_end) → Prop :=
  | acts_call x : points s !! t = Some None → allowed s t x → acts s t (call (tables s) t x)
  | acts_resume k : points s !! t = Some (Some k) → is_blocked (tables s) t k = false →
      acts s t (resume (tables s) t k).

(** [base] is where the first node of a table is allocated. *)
Inductive reachable : sys → Prop :=
  | reach_init n base : 0 < base → reachable (mkSys (mkTables ∅ ∅ ∅ ∅ base n) (replicate n None))
  | reach_step s t r : reachable s → acts s t (Ret r) → reachable (finish s t r).

(** ** The invariant *)

Inductive obj := OMutex (m : Z) | OCond (c : Z) | OShared (l : Z).

(** The addresses of an object that threads block on. *)
Definition uses p (o : obj) : list Z :=
  match o with
  | OMutex m => match mutexes p !! m with Some c => [m_addr c] | None => [] end
  | OCond c => match cond_variables p !! c with Some a => [a] | None => [] end
  | OShared l => match shared_mutexes p !! l with Some s => [sm_mutex s; sm_entered s; sm_readers s] | None => [] end
  end.

Definition mutex_ok p (c : mutex) : Prop :=
  Mutex.inv (m_addr c) (mutex_view c (queues p)) ∧ length (m_pcs c) = threads p.
Definition shared_ok p (s : shared_mutex) : Prop :=
  SharedMutex.inv (sm_entered s) (sm_readers s) (shared_view s (queues p)) ∧ length (sm_pcs s) = threads p.

Definition thread_ok p t (k : resume_point) : Prop :=
  match k with
  | AtLock m => ∃ c, mutexes p !! m = Some c ∧ m_pcs c !! t = Some Mutex.Waiting
  | AtTryLock m => ∃ c, mutexes p !! m = Some c ∧ m_pcs c !! t = Some Mutex.TryFailed
  | AtWait c m => (∃ x, mutexes p !! m = Some x ∧ m_pcs x !! t = Some Mutex.Outside) ∧ is_Some (cond_variables p !! c)
  | AtRdLock l => ∃ s, shared_mutexes p !! l = Some s ∧ sm_pcs s !! t = Some SharedMutex.ReaderEntering
  | AtWrLock l => ∃ s, shared_mutexes p !! l = Some s ∧
      (sm_pcs s !! t = Some SharedMutex.WriterEntering ∨ sm_pcs s !! t = Some SharedMutex.WriterDraining)
  end.

Record inv (s : sys) : Prop := {
  inv_len : length (points s) = threads (tables s);
  inv_base : 0 < next_addr (tables s);
  inv_addr o a : a ∈ uses (tables s) o → 0 < a < next_addr (tables s);
  inv_disjoint o o' a : a ∈ uses (tables s) o → a ∈ uses (tables s) o' → o = o';
  inv_fresh a : next_addr (tables s) ≤ a → waiting (queues (tables s)) a = [];
  inv_mutexes m c : mutexes (tables s) !! m = Some c → mutex_ok (tables s) c;
  inv_shareds l x : shared_mutexes (tables s) !! l = Some x → shared_ok (tables s) x;
  inv_conds c a t : cond_variables (tables s) !! c = Some a → t ∈ waiting (queues (tables s)) a →
    ∃ m, points s !! t = Some (Some (AtWait c m));
  inv_points t k : points s !! t = Some (Some k) → thread_ok (tables s) t k;
}.

(** ** Frames: an invariant depends on the queues of its own addresses *)

Lemma mutex_inv_frame a l q q' pcs :
  waiting q' a = waiting q a → Mutex.inv a (Mutex.mkSt l q pcs) → Mutex.inv a (Mutex.mkSt l q' pcs).
Proof. intros Hq [H1 H2 H3]. split; simpl in *; [done|done|]. intros c. rewrite Hq. apply H3. Qed.

Lemma shared_inv_frame ae ar ml rc w q q' pcs :
  waiting q' ae = waiting q ae → waiting q' ar = waiting q ar →
  SharedMutex.inv ae ar (SharedMutex.mkSt ml rc w q pcs) → SharedMutex.inv ae ar (SharedMutex.mkSt ml rc w q' pcs).
Proof.
  intros He Hr [H1 H2 H3 H4 H5 H6 H7]. split; simpl in *; try done.
  - intros c. rewrite He. apply H5.
  - intros c. rewrite Hr. apply H6.
  - by rewrite Hr.
Qed.

(** What a method of a mutex leaves as it is. *)
Lemma mutex_lock_frame a st t :
  (∀ b, b ≠ a → waiting (Mutex.queues (Mutex.lock a st t)) b = waiting (Mutex.queues st) b) ∧
  length (Mutex.pcs (Mutex.lock a st t)) = length (Mutex.pcs st) ∧
  ∀ t', t' ≠ t → Mutex.pcs (Mutex.lock a st t) !! t' = Mutex.pcs st !! t'.
Proof.
  unfold Mutex.lock. destruct (negb _); simpl; (split_and!; [|by rewrite length_insert|by intros; rewrite list_lookup_insert_ne]);
    [|done]. intros b Hb. unfold SetBlocked. simpl. rewrite waiting_BlockOn. simpl. by rewrite decide_False by congruence.
Qed.

Lemma mutex_unlock_frame a st t :
  (∀ b, b ≠ a → waiting (Mutex.queues (Mutex.unlock a st t)) b = waiting (Mutex.queues st) b) ∧
  length (Mutex.pcs (Mutex.unlock a st t)) = length (Mutex.pcs st) ∧
  ∀ t', t' ≠ t → Mutex.pcs (Mutex.unlock a st t) !! t' = Mutex.pcs st !! t'.
Proof.
  unfold Mutex.unlock. simpl. split_and!; [|by rewrite length_insert|by intros; rewrite list_lookup_insert_ne].
  intros b Hb. by rewrite waiting_UnblockAllOn, decide_False by congruence.
Qed.

(** What a method of a read-write lock leaves as it is. *)
Definition shared_frame am ae ar t (st st' : SharedMutex.st) : Prop :=
  (∀ b, b ≠ am → b ≠ ae → b ≠ ar → waiting (SharedMutex.queues st') b = waiting (SharedMutex.queues st) b) ∧
  ∃ pc, SharedMutex.pcs st' = <[t := pc]> (SharedMutex.pcs st).

Ltac waiting_frame :=
  repeat first
    [ progress simpl
    | rewrite waiting_BlockOn; simpl; rewrite decide_False by congruence
    | rewrite waiting_UnblockAllOn, decide_False by congruence
    | rewrite waiting_UnblockOn, decide_False by congruence ].

Lemma shared_drain_frame am ae ar t st st' :
  SharedMutex.queues st' = SharedMutex.queues st → SharedMutex.pcs st' = SharedMutex.pcs st →
  shared_frame am ae ar t st (SharedMutex.drain am ar st' t).
Proof.
  intros Hq Hp. unfold SharedMutex.drain. split; [intros b ???|destruct (0 <? _); simpl; rewrite Hp; eauto].
  rewrite <-Hq. destruct (0 <? _); waiting_frame; done.
Qed.

Lemma shared_lock_frame am ae ar t st st' :
  SharedMutex.lock am ae ar st t = Ret st' → shared_frame am ae ar t st st'.
Proof.
  unfold SharedMutex.lock, SharedMutex.acquire. destruct (negb _); [done|]. simpl. intros [= <-].
  destruct (SharedMutex.has_write _); [|by apply shared_drain_frame]. split; [intros b ???|simpl; eauto].
  waiting_frame; done.
Qed.

Lemma shared_redrain_frame am ae ar t st st' :
  SharedMutex.redrain am ar st t = Ret st' → shared_frame am ae ar t st st'.
Proof.
  unfold SharedMutex.redrain, SharedMutex.acquire. destruct (negb _); [done|]. simpl. intros [= <-].
  by apply shared_drain_frame.
Qed.

Lemma shared_lock_shared_frame am ae ar t st st' :
  SharedMutex.lock_shared am ae st t = Ret st' → shared_frame am ae ar t st st'.
Proof.
  unfold SharedMutex.lock_shared, SharedMutex.acquire. destruct (negb _); [done|]. simpl. intros [= <-].
  destruct (SharedMutex.has_write _); (split; [intros b ???|simpl; eauto]); waiting_frame; done.
Qed.

Lemma shared_unlock_frame am ae ar t st st' :
  SharedMutex.unlock am ae ar st t = Ret st' → shared_frame am ae ar t st st'.
Proof.
  unfold SharedMutex.unlock, SharedMutex.acquire. destruct (negb _); [done|]. simpl. intros [= <-].
  case_bool_decide; [|destruct (_ && _)]; (split; [intros b ???|simpl; eauto]); waiting_frame; done.
Qed.

(** ** Updates of one object *)

Lemma uses_put_mutex p m c st o :
  mutexes p !! m = Some c → uses (put_mutex p m (m_addr c) st) o = uses p o.
Proof.
  intros Hm. destruct o as [m'| |]; [|done|done]. unfold put_mutex, set_mutex, uses. simpl.
  destruct (decide (m = m')) as [<-|]; [by rewrite lookup_insert_eq, Hm|by rewrite lookup_insert_ne].
Qed.

Lemma uses_put_shared p l x st o :
  shared_mutexes p !! l = Some x → uses (put_shared p l (sm_base x) st) o = uses p o.
Proof.
  intros Hl. destruct o as [| |l']; [done|done|]. unfold put_shared, set_shared, uses. simpl.
  destruct (decide (l = l')) as [<-|]; [by rewrite lookup_insert_eq, Hl|by rewrite lookup_insert_ne].
Qed.

Lemma thread_ok_put_mutex p m c st t k :
  mutexes p !! m = Some c → Mutex.pcs st !! t = m_pcs c !! t → thread_ok p t k →
  thread_ok (put_mutex p m (m_addr c) st) t k.
Proof.
  intros Hm Hpc. assert (∀ m' P, (∃ x, mutexes p !! m' = Some x ∧ m_pcs x !! t = P) →
    ∃ x, mutexes (put_mutex p m (m_addr c) st) !! m' = Some x ∧ m_pcs x !! t = P) as H.
  { intros m' P (x&Hx&HP). unfold put_mutex, set_mutex. simpl. destruct (decide (m = m')) as [<-|].
    - rewrite lookup_insert_eq. eexists. split; [done|]. simpl. congruence.
    - rewrite lookup_insert_ne by done. eauto. }
  destruct k; simpl; auto. intros [Hx Hc]. split; [by apply H|done].
Qed.

Lemma thread_ok_put_shared p l x st t k :
  shared_mutexes p !! l = Some x → SharedMutex.pcs st !! t = sm_pcs x !! t → thread_ok p t k →
  thread_ok (put_shared p l (sm_base x) st) t k.
Proof.
  intros Hl Hpc. assert (∀ l' (P : option SharedMutex.pc → Prop), (∃ y, shared_mutexes p !! l' = Some y ∧ P (sm_pcs y !! t)) →
    ∃ y, shared_mutexes (put_shared p l (sm_base x) st) !! l' = Some y ∧ P (sm_pcs y !! t)) as H.
  { intros l' P (y&Hy&HP). unfold put_shared, set_shared. simpl. destruct (decide (l = l')) as [<-|].
    - rewrite lookup_insert_eq. eexists. split; [done|]. simpl. rewrite Hpc. congruence.
    - rewrite lookup_insert_ne by done. eauto. }
  destruct k; simpl; auto; [apply (H _ (λ o, o = Some _ ∨ o = Some _))|apply (H _ (λ o, o = Some _))].
Qed.

Lemma mutex_addr_uses p m c : mutexes p !! m = Some c → m_addr c ∈ uses p (OMutex m).
Proof. intros Hm. simpl. rewrite Hm. by apply list_elem_of_singleton. Qed.

Lemma cond_addr_uses p c a : cond_variables p !! c = Some a → a ∈ uses p (OCond c).
Proof. intros Hc. simpl. rewrite Hc. by apply list_elem_of_singleton. Qed.

Lemma shared_addr_uses p l x b :
  shared_mutexes p !! l = Some x → b = sm_mutex x ∨ b = sm_entered x ∨ b = sm_readers x → b ∈ uses p (OShared l).
Proof. intros Hl Hb. simpl. rewrite Hl. destruct Hb as [->|[->| ->]]; set_solver. Qed.

(** A queue change outside the addresses of object [o] keeps what the
    invariant says of the other objects. *)
Definition queue_frame p (o : obj) (q : Queues) : Prop := ∀ b, b ∉ uses p o → waiting q b = waiting (queues p) b.

Section Frame.
Context (s : sys) (Hinv : inv s) (o : obj) (p' : Tables).
Context (Hq : queue_frame (tables s) o (queues p')) (Hthreads : threads p' = threads (tables s)).

Lemma queue_other o' a : o' ≠ o → a ∈ uses (tables s) o' → waiting (queues p') a = waiting (queues (tables s)) a.
Proof. intros Ho Ha. apply Hq. intros Ha'. apply Ho. by eapply inv_disjoint. Qed.

Lemma mutex_ok_frame m c : mutexes (tables s) !! m = Some c → OMutex m ≠ o → mutex_ok p' c.
Proof.
  intros Hm Ho. destruct (inv_mutexes _ Hinv _ _ Hm) as [Hi Hl]. split; [|congruence].
  eapply mutex_inv_frame; [|exact Hi]. eapply queue_other; [done|]. by apply mutex_addr_uses.
Qed.

Lemma shared_ok_frame l x : shared_mutexes (tables s) !! l = Some x → OShared l ≠ o → shared_ok p' x.
Proof.
  intros Hl Ho. destruct (inv_shareds _ Hinv _ _ Hl) as [Hi Hlen]. split; [|congruence].
  eapply shared_inv_frame; [| |exact Hi]; (eapply queue_other; [done|]); eapply shared_addr_uses; eauto.
Qed.

Lemma cond_frame c a t :
  cond_variables (tables s) !! c = Some a → OCond c ≠ o → t ∈ waiting (queues p') a →
  ∃ m, points s !! t = Some (Some (AtWait c m)).
Proof.
  intros Hc Ho. rewrite (queue_other (OCond c)) by (done || by apply cond_addr_uses). by apply inv_conds.
Qed.

Lemma fresh_frame a : next_addr (tables s) ≤ a → waiting (queues p') a = [].
Proof. intros Ha. rewrite Hq; [by apply inv_fresh|]. intros Hu. apply (inv_addr _ Hinv) in Hu. lia. Qed.
End Frame.

(** One mutex changes, and thread [t] moves. *)
Lemma put_mutex_inv s t m c st k :
  inv s → mutexes (tables s) !! m = Some c → Mutex.inv (m_addr c) st → length (Mutex.pcs st) = length (m_pcs c) →
  (∀ b, b ≠ m_addr c → waiting (Mutex.queues st) b = waiting (queues (tables s)) b) →
  (∀ t', t' ≠ t → Mutex.pcs st !! t' = m_pcs c !! t') →
  (∀ cd a, cond_variables (tables s) !! cd = Some a → t ∉ waiting (queues (tables s)) a) →
  (∀ k', k = Some k' → thread_ok (put_mutex (tables s) m (m_addr c) st) t k') →
  inv (mkSys (put_mutex (tables s) m (m_addr c) st) (<[t := k]> (points s))).
Proof.
  intros Hi Hm Hst Hlen Hq Hpcs Hcond Hk. set (p' := put_mutex (tables s) m (m_addr c) st) in *.
  assert (queue_frame (tables s) (OMutex m) (queues p')) as Hf.
  { intros b Hb. apply Hq. intros ->. apply Hb. by apply mutex_addr_uses. }
  split; simpl.
  - rewrite length_insert. apply Hi.
  - apply Hi.
  - intros o a. unfold p'. rewrite uses_put_mutex by done. apply Hi.
  - intros o o' a. unfold p'. rewrite !uses_put_mutex by done. apply Hi.
  - by apply (fresh_frame s Hi (OMutex m) p' Hf).
  - intros m' c' [[<- <-]|[Hne Hm']]%lookup_insert_Some.
    + split; simpl; [by destruct st|]. rewrite Hlen. apply (inv_mutexes _ Hi _ _ Hm).
    + eapply (mutex_ok_frame s Hi (OMutex m) p'); [done|done|done|congruence].
  - intros l x Hl. by eapply (shared_ok_frame s Hi (OMutex m) p').
  - intros cd a t' Hc Ht'. destruct (cond_frame s Hi (OMutex m) p' Hf cd a t' Hc ltac:(done) Ht') as [m' Hm'].
    exists m'. rewrite list_lookup_insert_ne; [done|]. intros <-. apply (Hcond _ _ Hc).
    rewrite <-(queue_other s Hi (OMutex m) p' Hf (OCond cd)); [done|done|by apply cond_addr_uses].
  - intros t' k' [(<-&->&_)|[Hne Ht']]%list_lookup_insert_Some; [by apply Hk|].
    apply (inv_points _ Hi) in Ht'. apply thread_ok_put_mutex; auto.
Qed.

(** One read-write lock changes, and thread [t] moves. *)
Lemma put_shared_inv s t l x st k :
  inv s → shared_mutexes (tables s) !! l = Some x → SharedMutex.inv (sm_entered x) (sm_readers x) st →
  shared_frame (sm_mutex x) (sm_entered x) (sm_readers x) t (shared_view x (queues (tables s))) st →
  (∀ cd a, cond_variables (tables s) !! cd = Some a → t ∉ waiting (queues (tables s)) a) →
  (∀ k', k = Some k' → thread_ok (put_shared (tables s) l (sm_base x) st) t k') →
  inv (mkSys (put_shared (tables s) l (sm_base x) st) (<[t := k]> (points s))).
Proof.
  intros Hi Hl Hst (Hq&pc&Hpc) Hcond Hk. set (p' := put_shared (tables s) l (sm_base x) st) in *.
  simpl in Hq, Hpc.
  assert (queue_frame (tables s) (OShared l) (queues p')) as Hf.
  { intros b Hb. apply Hq; intros ->; apply Hb; eapply shared_addr_uses; eauto. }
  split; simpl.
  - rewrite length_insert. apply Hi.
  - apply Hi.
  - intros o a. unfold p'. rewrite uses_put_shared by done. apply Hi.
  - intros o o' a. unfold p'. rewrite !uses_put_shared by done. apply Hi.
  - by apply (fresh_frame s Hi (OShared l) p' Hf).
  - intros m c Hm. by eapply (mutex_ok_frame s Hi (OShared l) p').
  - intros l' x' [[<- <-]|[Hne Hl']]%lookup_insert_Some.
    + split; simpl; [by destruct st|]. rewrite Hpc, length_insert. apply (inv_shareds _ Hi _ _ Hl).
    + eapply (shared_ok_frame s Hi (OShared l) p'); [done|done|done|congruence].
  - intros cd a t' Hc Ht'. destruct (cond_frame s Hi (OShared l) p' Hf cd a t' Hc ltac:(done) Ht') as [m' Hm'].
    exists m'. rewrite list_lookup_insert_ne; [done|]. intros <-. apply (Hcond _ _ Hc).
    rewrite <-(queue_other s Hi (OShared l) p' Hf (OCond cd)); [done|done|by apply cond_addr_uses].
  - intros t' k' [(<-&->&_)|[Hne Ht']]%list_lookup_insert_Some; [by apply Hk|].
    apply (inv_points _ Hi) in Ht'. apply thread_ok_put_shared; [done| |done].
    by rewrite Hpc, list_lookup_insert_ne.
Qed.

(** A thread that may run is in no queue of a condition variable. *)
Lemma not_in_conds s t :
  inv s → points s !! t = Some None ∨ (∃ k, points s !! t = Some (Some k) ∧ is_blocked (tables s) t k = false) →
  ∀ cd a, cond_variables (tables s) !! cd = Some a → t ∉ waiting (queues (tables s)) a.
Proof.
  intros Hi Ht cd a Hc Hw. destruct (inv_conds _ Hi _ _ _ Hc Hw) as [m Hm].
  destruct Ht as [Ht|(k&Ht&Hb)]; [congruence|]. rewrite Hm in Ht. injection Ht as <-.
  unfold is_blocked in Hb. simpl in Hb. rewrite Hc in Hb.
  pose proof (inv_addr _ Hi _ _ (cond_addr_uses _ _ _ Hc)) as [Ha _].
  destruct (IsBlocked_waiting (queues (tables s)) (mkBlockState a 1) t) as [E _]; [simpl; lia|].
  rewrite E in Hb. simpl in Hb. by apply bool_decide_eq_false in Hb.
Qed.

(** ** Insertion and destruction *)

(** The tables change and the queues do not: objects disappear, or object
    [o0] appears at new addresses. *)
Lemma change_inv s p' o0 :
  inv s → queues p' = queues (tables s) → threads p' = threads (tables s) → next_addr (tables s) ≤ next_addr p' →
  (∀ o a, a ∈ uses p' o → a ∈ uses (tables s) o ∨ (o = o0 ∧ next_addr (tables s) ≤ a < next_addr p')) →
  (∀ m c, mutexes p' !! m = Some c → mutexes (tables s) !! m = Some c ∨ mutex_ok (tables s) c) →
  (∀ l x, shared_mutexes p' !! l = Some x → shared_mutexes (tables s) !! l = Some x ∨ shared_ok (tables s) x) →
  (∀ c a, cond_variables p' !! c = Some a → cond_variables (tables s) !! c = Some a ∨ next_addr (tables s) ≤ a) →
  (∀ t k, points s !! t = Some (Some k) → thread_ok p' t k) →
  inv (mkSys p' (points s)).
Proof.
  intros Hi Hq Ht Hn Huses Hm Hl Hc Hpt. pose proof (inv_base _ Hi).
  assert (∀ c, mutex_ok (tables s) c → mutex_ok p' c) as Hmok by (unfold mutex_ok; by rewrite Hq, Ht).
  assert (∀ x, shared_ok (tables s) x → shared_ok p' x) as Hlok by (unfold shared_ok; by rewrite Hq, Ht).
  split; simpl.
  - rewrite Ht. apply Hi.
  - lia.
  - intros o a [Ha|[_ Ha]]%Huses; [apply (inv_addr _ Hi) in Ha; lia|lia].
  - intros o o' a [Ha|[-> Ha]]%Huses [Ha'|[-> Ha']]%Huses; [by eapply inv_disjoint| | |done].
    + apply (inv_addr _ Hi) in Ha. lia.
    + apply (inv_addr _ Hi) in Ha'. lia.
  - intros a Ha. rewrite Hq. apply Hi. lia.
  - intros m c [Hx|Hx]%Hm; [|auto]. apply Hmok. by eapply inv_mutexes.
  - intros l x [Hx|Hx]%Hl; [|auto]. apply Hlok. by eapply inv_shareds.
  - intros c a t Hx. rewrite Hq. destruct (Hc _ _ Hx) as [Hx'|Ha]; [by apply inv_conds|].
    rewrite (inv_fresh _ Hi) by done. by intros ?%not_elem_of_nil.
  - done.
Qed.

Lemma thread_ok_mono p p' t k :
  mutexes p ⊆ mutexes p' → cond_variables p ⊆ cond_variables p' → shared_mutexes p ⊆ shared_mutexes p' →
  thread_ok p t k → thread_ok p' t k.
Proof.
  intros Hm Hc Hl. destruct k; simpl.
  3: intros [(x&?&?) [a ?]]; split; [exists x|exists a]; eauto using lookup_weaken.
  all: intros (x&?&?); exists x; eauto using lookup_weaken.
Qed.

Lemma mutex_new_ok s a :
  inv s → next_addr (tables s) ≤ a → mutex_ok (tables s) (mkMutex a 0 (replicate (threads (tables s)) Mutex.Outside)).
Proof.
  intros Hi Ha. split; [|apply length_replicate]. split; simpl.
  - by rewrite Mutex.countb_replicate.
  - lia.
  - intros c. rewrite (inv_fresh _ Hi) by done. by intros ?%not_elem_of_nil.
Qed.

Lemma shared_new_ok s a :
  inv s → next_addr (tables s) ≤ a →
  shared_ok (tables s) (mkShared a 0 0 None (replicate (threads (tables s)) SharedMutex.Outside)).
Proof.
  intros Hi Ha. pose proof (inv_base _ Hi). split; [|apply length_replicate].
  eapply (shared_inv_frame _ _ 0 0 None ∅); simpl.
  - rewrite (inv_fresh _ Hi); [done|unfold sm_entered; simpl; lia].
  - rewrite (inv_fresh _ Hi); [done|unfold sm_readers; simpl; lia].
  - apply (SharedMutex.sm_reachable_inv (a + 24) (a + 16) (a + 20)); try lia. constructor.
Qed.

Lemma InsertMutex_inv s m c p' :
  inv s → InsertMutex (tables s) m = (c, p') →
  inv (mkSys p' (points s)) ∧ mutexes p' !! m = Some c ∧ threads p' = threads (tables s) ∧
  cond_variables p' = cond_variables (tables s) ∧
  ∀ t, (t < threads (tables s))%nat → m_pcs c !! t = Some (mutex_pc (tables s) m t).
Proof.
  intros Hi. unfold InsertMutex. destruct (mutexes (tables s) !! m) as [c'|] eqn:Hm; intros [= <- <-].
  { split_and!; try done; [by destruct s|]. intros t Ht. unfold mutex_pc. rewrite Hm. simpl.
    destruct (lookup_lt_is_Some_2 (m_pcs c') t) as [x ->]; [|done].
    destruct (inv_mutexes _ Hi _ _ Hm) as [_ ->]. done. }
  pose proof (mutex_new_ok s (next_addr (tables s)) Hi ltac:(lia)) as Hok.
  simpl. split_and!; try done; [|by rewrite lookup_insert_eq|].
  2:{ intros t Ht. unfold mutex_pc. rewrite Hm. simpl. by apply lookup_replicate. }
  eapply (change_inv s _ (OMutex m)); simpl; try done; try lia; eauto.
  - intros [m'|c|l] a; simpl; [|eauto..]. destruct (decide (m = m')) as [<-|].
    + rewrite lookup_insert_eq. intros ->%list_elem_of_singleton. simpl. right. split; [done|lia].
    + rewrite lookup_insert_ne by done. eauto.
  - intros m' c [[<- <-]|[? ?]]%lookup_insert_Some; eauto.
  - intros t k Hk%(inv_points _ Hi). eapply thread_ok_mono; [..|exact Hk]; simpl; [|done..].
    by apply insert_subseteq.
Qed.

Lemma InsertCond_inv s c a p' :
  inv s → InsertCond (tables s) c = (a, p') →
  inv (mkSys p' (points s)) ∧ cond_variables p' !! c = Some a ∧ mutexes p' = mutexes (tables s).
Proof.
  intros Hi. unfold InsertCond. destruct (cond_variables (tables s) !! c) as [a'|] eqn:Hc; intros [= <- <-].
  { split_and!; try done. by destruct s. }
  simpl. split_and!; [|by rewrite lookup_insert_eq|done].
  eapply (change_inv s _ (OCond c)); simpl; try done; try lia; eauto.
  - intros [m|c'|l] a; simpl; [eauto| |eauto]. destruct (decide (c = c')) as [<-|].
    + rewrite lookup_insert_eq. intros ->%list_elem_of_singleton. right. split; [done|lia].
    + rewrite lookup_insert_ne by done. eauto.
  - intros c' a [[<- <-]|[? ?]]%lookup_insert_Some; [right; lia|eauto].
  - intros t k Hk%(inv_points _ Hi). eapply thread_ok_mono; [..|exact Hk]; simpl; [done| |done].
    by apply insert_subseteq.
Qed.

Lemma InsertSharedLock_inv s l x p' :
  inv s → InsertSharedLock (tables s) l = (x, p') →
  inv (mkSys p' (points s)) ∧ shared_mutexes p' !! l = Some x ∧ 
  ∀ t, (t < threads (tables s))%nat → sm_pcs x !! t = Some (shared_pc (tables s) l t).
Proof.
  intros Hi. unfold InsertSharedLock. destruct (shared_mutexes (tables s) !! l) as [x'|] eqn:Hl; intros [= <- <-].
  { split_and!; try done; [by destruct s|]. intros t Ht. unfold shared_pc. rewrite Hl. simpl.
    destruct (lookup_lt_is_Some_2 (sm_pcs x') t) as [y ->]; [|done].
    destruct (inv_shareds _ Hi _ _ Hl) as [_ ->]. done. }
  pose proof (shared_new_ok s (next_addr (tables s)) Hi ltac:(lia)) as Hok.
  simpl. split_and!; [|by rewrite lookup_insert_eq|].
  2:{ intros t Ht. unfold shared_pc. rewrite Hl. simpl. by apply lookup_replicate. }
  eapply (change_inv s _ (OShared l)); simpl; try done; try lia; eauto.
  - intros [m|c|l'] a; simpl; [eauto..|]. destruct (decide (l = l')) as [<-|].
    + rewrite lookup_insert_eq. unfold sm_mutex, sm_entered, sm_readers. simpl.
      rewrite !elem_of_cons, elem_of_nil. intros Ha. right. split; [done|lia].
    + rewrite lookup_insert_ne by done. eauto.
  - intros l' x [[<- <-]|[? ?]]%lookup_insert_Some; eauto.
  - intros t k Hk%(inv_points _ Hi). eapply thread_ok_mono; [..|exact Hk]; simpl; [done..|].
    by apply insert_subseteq.
Qed.

(** ** The calls keep the invariant *)

Lemma not_waiting_mutex s m c t x :
  inv s → mutexes (tables s) !! m = Some c → m_pcs c !! t = Some x → x ≠ Mutex.Waiting →
  t ∉ waiting (queues (tables s)) (m_addr c).
Proof.
  intros Hi Hm Ht Hx Hw. destruct (inv_mutexes _ Hi _ _ Hm) as [HM _].
  destruct (Mutex.inv_wait _ _ HM t Hw) as [Hp _]. simpl in Hp. congruence.
Qed.

Lemma do_lock_inv s m c t x :
  inv s → mutexes (tables s) !! m = Some c → m_pcs c !! t = Some x → x ≠ Mutex.Holding →
  t ∉ waiting (queues (tables s)) (m_addr c) →
  (∀ cd a, cond_variables (tables s) !! cd = Some a → t ∉ waiting (queues (tables s)) a) →
  inv (finish s t (do_lock (tables s) m c t)).
Proof.
  intros Hi Hm Hx Hne Hw Hcd. destruct (inv_mutexes _ Hi _ _ Hm) as [HM Hlen].
  destruct (mutex_lock_frame (m_addr c) (mutex_view c (queues (tables s))) t) as (Hq&Hl&Hp).
  apply put_mutex_inv; try done.
  - by eapply Mutex.mutex_lock_inv.
  - simpl. case_bool_decide as Hd; [|done]. intros k' [= <-]. simpl. rewrite lookup_insert_eq. eauto.
Qed.

Lemma trylock_inv s m c t :
  inv s → mutexes (tables s) !! m = Some c → m_pcs c !! t = Some Mutex.Outside →
  (∀ cd a, cond_variables (tables s) !! cd = Some a → t ∉ waiting (queues (tables s)) a) →
  let st := Mutex.try_lock (mutex_view c (queues (tables s))) t in
  inv (finish s t (put_mutex (tables s) m (m_addr c) st,
    if bool_decide (Mutex.pcs st !! t = Some Mutex.TryFailed) then Yielded (AtTryLock m) else Returned 0)).
Proof.
  intros Hi Hm Hx Hcd st. destruct (inv_mutexes _ Hi _ _ Hm) as [HM Hlen].
  pose proof (inv_addr _ Hi _ _ (mutex_addr_uses _ _ _ Hm)) as [Ha _].
  assert (Mutex.inv (m_addr c) st) as Hst.
  { eapply Mutex.mutex_step_inv; [|exact HM|by apply Mutex.step_try]. lia. }
  apply put_mutex_inv; try done.
  - unfold st, Mutex.try_lock. by destruct (negb _); simpl; rewrite length_insert.
  - intros b _. unfold st, Mutex.try_lock. by destruct (negb _).
  - intros t' Ht'. unfold st, Mutex.try_lock. destruct (negb _); simpl; by rewrite list_lookup_insert_ne.
  - simpl. case_bool_decide as Hd; [|done]. intros k' [= <-]. simpl. rewrite lookup_insert_eq. eauto.
Qed.

Lemma mutex_unlock_keeps_inv s m c t k :
  inv s → mutexes (tables s) !! m = Some c → m_pcs c !! t = Some Mutex.Holding →
  (∀ cd a, cond_variables (tables s) !! cd = Some a → t ∉ waiting (queues (tables s)) a) → k = None →
  inv (mkSys (put_mutex (tables s) m (m_addr c) (Mutex.unlock (m_addr c) (mutex_view c (queues (tables s))) t))
         (<[t := k]> (points s))).
Proof.
  intros Hi Hm Hx Hcd ->. destruct (inv_mutexes _ Hi _ _ Hm) as [HM Hlen].
  pose proof (inv_addr _ Hi _ _ (mutex_addr_uses _ _ _ Hm)) as [Ha _].
  destruct (mutex_unlock_frame (m_addr c) (mutex_view c (queues (tables s))) t) as (Hq&Hl&Hp).
  apply put_mutex_inv; try done. eapply Mutex.mutex_step_inv; [|exact HM|by apply Mutex.step_unlock]. lia.
Qed.

(** The queue of one condition variable changes. *)
Lemma cond_queue_inv s c a q ts :
  inv s → cond_variables (tables s) !! c = Some a → queue_frame (tables s) (OCond c) q →
  length ts = length (points s) →
  (∀ t, t ∈ waiting q a → ∃ m, ts !! t = Some (Some (AtWait c m))) →
  (∀ t c' m, c' ≠ c → points s !! t = Some (Some (AtWait c' m)) → ts !! t = Some (Some (AtWait c' m))) →
  (∀ t k, ts !! t = Some (Some k) → thread_ok (tables s) t k) →
  inv (mkSys (set_queues (tables s) q) ts).
Proof.
  intros Hi Hc Hf Hlen Hw Hother Hok. set (p' := set_queues (tables s) q). split; simpl.
  - rewrite Hlen. apply Hi.
  - apply Hi.
  - apply Hi.
  - apply Hi.
  - by apply (fresh_frame s Hi (OCond c) p' Hf).
  - intros m x Hm. by eapply (mutex_ok_frame s Hi (OCond c) p').
  - intros l x Hl. by eapply (shared_ok_frame s Hi (OCond c) p').
  - intros c' a' t Hc' Ht. destruct (decide (c' = c)) as [->|Hne]; [apply Hw; congruence|].
    destruct (cond_frame s Hi (OCond c) p' Hf c' a' t Hc' ltac:(congruence) Ht) as [m Hm]. eauto.
  - apply Hok.
Qed.

Lemma cond_frame_other p c a q : cond_variables p !! c = Some a →
  (∀ b, b ≠ a → waiting q b = waiting (queues p) b) → queue_frame p (OCond c) q.
Proof. intros Hc Hq b Hb. apply Hq. intros ->. apply Hb. by apply cond_addr_uses. Qed.

(** [notify_one] and [notify_all]. *)
Lemma notify_inv s c a q t :
  inv s → points s !! t = Some None → cond_variables (tables s) !! c = Some a →
  (∀ b, waiting q b = if decide (a = b) then waiting q b else waiting (queues (tables s)) b) →
  (∀ t', t' ∈ waiting q a → t' ∈ waiting (queues (tables s)) a) →
  inv (finish s t (set_queues (tables s) q, Returned 0)).
Proof.
  intros Hi Ht Hc Hq Hsub. unfold finish. simpl. rewrite list_insert_id by done.
  apply (cond_queue_inv s c a); try done.
  - eapply cond_frame_other; [done|]. intros b Hb. by rewrite Hq, decide_False.
  - intros t' Ht'. eapply inv_conds; eauto.
  - apply Hi.
Qed.

Lemma cond_wait_inv s c m t :
  inv s → points s !! t = Some None → mutex_pc (tables s) m t = Mutex.Holding →
  ∃ r, pthread_cond_wait (tables s) c m t = Ret r ∧ inv (finish s t r).
Proof.
  intros Hi Ht Hh. unfold pthread_cond_wait. destruct (InsertMutex (tables s) m) as [x p1] eqn:E1.
  destruct (InsertMutex_inv s m x p1 Hi E1) as (Hi1&Hm1&Ht1&Hcv&Hpc).
  destruct (InsertCond p1 c) as [a p2] eqn:E2.
  destruct (InsertCond_inv (mkSys p1 (points s)) c a p2 Hi1 E2) as (Hi2&Hc2&Hm2). simpl in Hi2, Hm2.
  eexists. split; [done|]. unfold finish. simpl.
  apply lookup_lt_Some in Ht as Htl. rewrite (inv_len _ Hi) in Htl.
  specialize (Hpc t Htl). rewrite Hh in Hpc.
  assert (mutexes p2 !! m = Some x) as Hmx by congruence.
  pose proof (mutex_unlock_keeps_inv (mkSys p2 (points s)) m x t None Hi2 Hmx Hpc (not_in_conds _ t Hi2 (or_introl Ht)) eq_refl) as Hi3.
  simpl in Hi3. rewrite list_insert_id in Hi3 by done.
  set (p3 := put_mutex p2 m (m_addr x) (Mutex.unlock (m_addr x) (mutex_view x (queues p2)) t)) in *.
  apply (cond_queue_inv (mkSys p3 (points s)) c a); simpl; [done|done| | | | |].
  - apply (cond_frame_other p3 c a); [done|]. intros b Hb. rewrite waiting_BlockOn. simpl. by rewrite decide_False.
  - apply length_insert.
  - intros t'. rewrite waiting_BlockOn. simpl. rewrite decide_True by done. intros [Hw| ->%list_elem_of_singleton]%elem_of_app.
    + destruct (inv_conds _ Hi3 c a t' Hc2 Hw) as [m' Hm']. simpl in Hm'. exists m'.
      rewrite list_lookup_insert_ne; [done|]. intros ->. congruence.
    + exists m. apply list_lookup_insert_eq. by eapply lookup_lt_Some.
  - intros t' c' m' _ Hp. rewrite list_lookup_insert_ne; [done|]. intros ->. congruence.
  - intros t' k [(<-&[= <-]&_)|[_ Hk]]%list_lookup_insert_Some; [|by apply (inv_points _ Hi3)].
    split; [|by exists a]. simpl. rewrite lookup_insert_eq. eexists. split; [done|]. simpl.
    apply list_lookup_insert_eq. by eapply lookup_lt_Some.
Qed.

(** A method of a read-write lock. *)
Lemma do_shared_inv method s l x t :
  inv s → shared_mutexes (tables s) !! l = Some x →
  SharedMutex.runs (sm_mutex x) (sm_entered x) (sm_readers x) (shared_view x (queues (tables s))) t
    (method (sm_mutex x) (sm_entered x) (sm_readers x) (shared_view x (queues (tables s))) t) →
  (∀ st', method (sm_mutex x) (sm_entered x) (sm_readers x) (shared_view x (queues (tables s))) t = Ret st' →
     shared_frame (sm_mutex x) (sm_entered x) (sm_readers x) t (shared_view x (queues (tables s))) st') →
  (∀ cd a, cond_variables (tables s) !! cd = Some a → t ∉ waiting (queues (tables s)) a) →
  ∃ r, do_shared method (tables s) l x t = Ret r ∧ inv (finish s t r).
Proof.
  intros Hi Hl Hruns Hf Hcd. destruct (inv_shareds _ Hi _ _ Hl) as [HS _].
  assert (0 < sm_entered x) by (eapply (inv_addr _ Hi), shared_addr_uses; eauto).
  assert (0 < sm_readers x) by (eapply (inv_addr _ Hi), shared_addr_uses; eauto).
  assert (∃ st', method (sm_mutex x) (sm_entered x) (sm_readers x) (shared_view x (queues (tables s))) t = Ret st' ∧
    SharedMutex.inv (sm_entered x) (sm_readers x) st') as (st'&E&HS').
  { eapply SharedMutex.runs_ok; [..|exact HS|exact Hruns]; unfold sm_mutex, sm_entered, sm_readers in *; lia. }
  unfold do_shared. rewrite E. simpl. eexists. split; [done|]. unfold finish. simpl.
  apply put_shared_inv; auto. intros k'. unfold shared_end.
  destruct (SharedMutex.pcs st' !! t) as [[]|] eqn:Ep; intros [= <-]; simpl; rewrite lookup_insert_eq; eauto.
Qed.

Lemma mutex_destroy_inv s m t :
  inv s → points s !! t = Some None → (∀ t', mutex_pc (tables s) m t' = Mutex.Outside) →
  (∀ t' c, points s !! t' ≠ Some (Some (AtWait c m))) →
  ∃ r, pthread_mutex_destroy (tables s) m = Ret r ∧ inv (finish s t r).
Proof.
  intros Hi Ht Hout Hwait. unfold pthread_mutex_destroy, finish.
  destruct (mutexes (tables s) !! m) as [c|] eqn:Hm; (eexists; split; [done|]); simpl; rewrite list_insert_id by done;
    [|by destruct s].
  eapply (change_inv s _ (OMutex m)); simpl; try done; eauto.
  - intros [m'|c'|l] a; simpl; [|eauto..]. destruct (decide (m = m')) as [<-|].
    + rewrite lookup_delete_eq. by intros ?%not_elem_of_nil.
    + rewrite lookup_delete_ne by done. eauto.
  - intros m' c' [_ ?]%lookup_delete_Some. eauto.
  - intros t' k Hk. pose proof (inv_points _ Hi _ _ Hk) as Hok. unfold mutex_pc in Hout.
    destruct k as [m'|m'|c' m'|l|l]; simpl in *; [| | |done|done].
    1, 2: destruct Hok as (x&Hx&Hp); exists x; split; [|done]; rewrite lookup_delete_ne; [done|];
      intros <-; specialize (Hout t'); rewrite Hx in Hout; simpl in Hout; by rewrite Hp in Hout.
    destruct Hok as [(x&Hx&Hp) Hc]. split; [|done]. exists x. split; [|done]. rewrite lookup_delete_ne; [done|].
    intros <-. by apply (Hwait t' c').
Qed.

Lemma cond_destroy_inv s c t :
  inv s → points s !! t = Some None → (∀ t' m, points s !! t' ≠ Some (Some (AtWait c m))) →
  ∃ r, pthread_cond_destroy (tables s) c = Ret r ∧ inv (finish s t r).
Proof.
  intros Hi Ht Hwait. unfold pthread_cond_destroy, finish.
  destruct (cond_variables (tables s) !! c) as [a|] eqn:Hc; (eexists; split; [done|]); simpl;
    rewrite list_insert_id by done; [|by destruct s].
  eapply (change_inv s _ (OCond c)); simpl; try done; eauto.
  - intros [m|c'|l] b; simpl; [eauto| |eauto]. destruct (decide (c = c')) as [<-|].
    + rewrite lookup_delete_eq. by intros ?%not_elem_of_nil.
    + rewrite lookup_delete_ne by done. eauto.
  - intros c' b [_ ?]%lookup_delete_Some. eauto.
  - intros t' k Hk. pose proof (inv_points _ Hi _ _ Hk) as Hok.
    destruct k as [m'|m'|c' m'|l|l]; simpl in *; try done. destruct Hok as [Hx Hc']. split; [done|].
    rewrite lookup_delete_ne; [done|]. intros <-. by apply (Hwait t' m').
Qed.

Lemma rwlock_destroy_inv s l t :
  inv s → points s !! t = Some None → (∀ t', shared_pc (tables s) l t' = SharedMutex.Outside) →
  ∃ r, pthread_rwlock_destroy (tables s) l = Ret r ∧ inv (finish s t r).
Proof.
  intros Hi Ht Hout. unfold pthread_rwlock_destroy, finish.
  destruct (shared_mutexes (tables s) !! l) as [x|] eqn:Hl; (eexists; split; [done|]); simpl;
    rewrite list_insert_id by done; [|by destruct s].
  eapply (change_inv s _ (OShared l)); simpl; try done; eauto.
  - intros [m|c|l'] b; simpl; [eauto..|]. destruct (decide (l = l')) as [<-|].
    + rewrite lookup_delete_eq. by intros ?%not_elem_of_nil.
    + rewrite lookup_delete_ne by done. eauto.
  - intros l' b [_ ?]%lookup_delete_Some. eauto.
  - intros t' k Hk. pose proof (inv_points _ Hi _ _ Hk) as Hok. unfold shared_pc in Hout.
    destruct k as [m'|m'|c' m'|l'|l']; simpl in *; try done;
      destruct Hok as (y&Hy&Hp); exists y; (split; [|done]); rewrite lookup_delete_ne; try done;
      intros <-; specialize (Hout t'); rewrite Hy in Hout; simpl in Hout; [destruct Hp as [Hp|Hp]|]; by rewrite Hp in Hout.
Qed.

Lemma finish_id s t : points s !! t = Some None → finish s t (tables s, Returned 0) = s.
Proof. intros Ht. unfold finish. simpl. rewrite list_insert_id by done. by destruct s. Qed.

(** The state after an insertion. *)
Lemma lock_calls_inv s m t x :
  inv s → points s !! t = Some None → mutex_pc (tables s) m t = Mutex.Outside →
  x = MutexLock m ∨ x = MutexTrylock m → ∃ r, call (tables s) t x = Ret r ∧ inv (finish s t r).
Proof.
  intros Hi Ht Hpc Hx. apply lookup_lt_Some in Ht as Htl. rewrite (inv_len _ Hi) in Htl.
  destruct (InsertMutex (tables s) m) as [c p'] eqn:E.
  destruct (InsertMutex_inv s m c p' Hi E) as (Hi'&Hm&_&_&Hp). specialize (Hp t Htl). rewrite Hpc in Hp.
  pose proof (not_in_conds _ t Hi' (or_introl Ht)) as Hcd.
  destruct Hx as [-> | ->]; simpl; unfold pthread_mutex_lock, pthread_mutex_trylock; rewrite E; eexists; (split; [done|]).
  - eapply (do_lock_inv (mkSys p' (points s))); [done|done|done|done| |done].
    by eapply (not_waiting_mutex (mkSys p' (points s))).
  - by apply (trylock_inv (mkSys p' (points s))).
Qed.

Lemma unlock_call_inv s m t :
  inv s → points s !! t = Some None → mutex_pc (tables s) m t = Mutex.Holding →
  ∃ r, pthread_mutex_unlock (tables s) m t = Ret r ∧ inv (finish s t r).
Proof.
  intros Hi Ht Hpc. unfold mutex_pc in Hpc. unfold pthread_mutex_unlock, FindMutex.
  destruct (mutexes (tables s) !! m) as [c|] eqn:Hm; [|done]. simpl in Hpc.
  destruct (m_pcs c !! t) as [x|] eqn:Hx; [|done]. simpl in Hpc. subst x. eexists. split; [done|].
  apply (mutex_unlock_keeps_inv s); try done. apply not_in_conds; auto.
Qed.

Lemma shared_calls_inv s l t x :
  inv s → points s !! t = Some None → allowed s t x → x = RdLock l ∨ x = WrLock l ∨ x = RwUnlock l →
  ∃ r, call (tables s) t x = Ret r ∧ inv (finish s t r).
Proof.
  intros Hi Ht Hall Hx. apply lookup_lt_Some in Ht as Htl. rewrite (inv_len _ Hi) in Htl.
  destruct (InsertSharedLock (tables s) l) as [y p'] eqn:E.
  destruct (InsertSharedLock_inv s l y p' Hi E) as (Hi'&Hl&Hp). specialize (Hp t Htl).
  pose proof (not_in_conds _ t Hi' (or_introl Ht)) as Hcd.
  destruct Hx as [-> |[-> | ->]]; simpl in *; unfold pthread_rwlock_rdlock, pthread_rwlock_wrlock, pthread_rwlock_unlock;
    rewrite E; apply (do_shared_inv _ (mkSys p' (points s))); try done.
  - apply SharedMutex.runs_lock_shared. simpl. congruence.
  - intros st'. apply shared_lock_shared_frame.
  - apply SharedMutex.runs_lock. simpl. congruence.
  - intros st'. apply shared_lock_frame.
  - destruct Hall; [apply SharedMutex.runs_unlock_shared|apply SharedMutex.runs_unlock]; simpl; congruence.
  - intros st'. apply shared_unlock_frame.
Qed.

Lemma call_ok s t x :
  inv s → points s !! t = Some None → allowed s t x → ∃ r, call (tables s) t x = Ret r ∧ inv (finish s t r).
Proof.
  intros Hi Ht Hall. pose proof (finish_id s t Ht) as Hid.
  destruct x as [m|m|m|m|m|c|c|c|c|c m|l|l|l|l|l|l|l]; simpl in Hall; try done;
    try (eexists; split; [done|]; by rewrite Hid).
  - destruct Hall. by apply mutex_destroy_inv.
  - by eapply lock_calls_inv; eauto.
  - by eapply lock_calls_inv; eauto.
  - by apply unlock_call_inv.
  - by apply cond_destroy_inv.
  - simpl. unfold pthread_cond_signal. destruct (InsertCond (tables s) c) as [a p'] eqn:E. eexists. split; [done|].
    destruct (InsertCond_inv s c a p' Hi E) as (Hi'&Hc&_).
    apply (notify_inv (mkSys p' (points s)) c a); [done|done|done| |].
    + intros b. simpl. rewrite waiting_UnblockOn. by destruct (decide (a = b)).
    + intros t'. simpl. rewrite waiting_UnblockOn, decide_True by done. apply subseteq_drop.
  - simpl. unfold pthread_cond_broadcast. destruct (InsertCond (tables s) c) as [a p'] eqn:E. eexists. split; [done|].
    destruct (InsertCond_inv s c a p' Hi E) as (Hi'&Hc&_).
    apply (notify_inv (mkSys p' (points s)) c a); [done|done|done| |].
    + intros b. simpl. rewrite waiting_UnblockAllOn. by destruct (decide (a = b)).
    + intros t'. simpl. rewrite waiting_UnblockAllOn, decide_True by done. by intros ?%not_elem_of_nil.
  - by apply cond_wait_inv.
  - by apply rwlock_destroy_inv.
  - by eapply shared_calls_inv; eauto.
  - by eapply shared_calls_inv; eauto.
  - by eapply shared_calls_inv; eauto.
Qed.

(** [is_blocked] at a positive address. *)
Lemma is_blocked_at s t k a o :
  inv s → wait_addr (tables s) t k = Some a → a ∈ uses (tables s) o →
  is_blocked (tables s) t k = bool_decide (t ∈ waiting (queues (tables s)) a).
Proof.
  intros Hi Hw Ha. unfold is_blocked. rewrite Hw. apply (inv_addr _ Hi) in Ha as [Ha _].
  apply (IsBlocked_waiting (queues (tables s)) (mkBlockState a 1) t). simpl. lia.
Qed.

Lemma resume_ok s t k :
  inv s → points s !! t = Some (Some k) → is_blocked (tables s) t k = false →
  ∃ r, resume (tables s) t k = Ret r ∧ inv (finish s t r).
Proof.
  intros Hi Hk Hb. pose proof (inv_points _ Hi _ _ Hk) as Hok.
  assert (∀ cd a, cond_variables (tables s) !! cd = Some a → t ∉ waiting (queues (tables s)) a) as Hcd
    by (apply not_in_conds; eauto).
  destruct k as [m|m|c m|l|l]; simpl in Hok; simpl.
  - destruct Hok as (x&Hm&Hx). rewrite Hm. eexists. split; [done|]. eapply do_lock_inv; try done.
    rewrite (is_blocked_at s t (AtLock m) (m_addr x) (OMutex m)) in Hb; [by apply bool_decide_eq_false in Hb|done| |].
    + simpl. by rewrite Hm.
    + by apply mutex_addr_uses.
  - destruct Hok as (x&Hm&Hx). rewrite Hm. eexists. split; [done|]. destruct (inv_mutexes _ Hi _ _ Hm) as [HM _].
    pose proof (inv_addr _ Hi _ _ (mutex_addr_uses _ _ _ Hm)) as [Ha _].
    apply (put_mutex_inv s t m x _ None); simpl; try done.
    + eapply (Mutex.mutex_step_inv (m_addr x)) with (s := mutex_view x (queues (tables s))); [lia|done|].
      by apply Mutex.step_try_return.
    + apply length_insert.
    + intros t' Ht'. by rewrite list_lookup_insert_ne.
  - destruct Hok as [(x&Hm&Hx) _]. rewrite Hm. eexists. split; [done|]. eapply do_lock_inv; try done.
    by eapply not_waiting_mutex.
  - destruct Hok as (x&Hl&Hx). rewrite Hl. simpl.
    assert (bool_decide (t ∈ waiting (queues (tables s))
      (if bool_decide (sm_pcs x !! t = Some WriterDraining) then sm_readers x else sm_entered x)) = false) as Hb'.
    { rewrite <-Hb. symmetry. eapply (is_blocked_at s t (AtWrLock l) _ (OShared l)); [done|simpl; by rewrite Hl|].
      eapply shared_addr_uses; [done|]. case_bool_decide; auto. }
    assert (0 < sm_entered x) as He by (eapply (inv_addr _ Hi), shared_addr_uses; eauto).
    assert (0 < sm_readers x) as Hr by (eapply (inv_addr _ Hi), shared_addr_uses; eauto).
    destruct (bool_decide_reflect (sm_pcs x !! t = Some SharedMutex.WriterDraining)) as [Hd|Hd];
      (apply do_shared_inv; [done|done| | |done]).
    + apply SharedMutex.runs_redrain; [done|]. rewrite SharedMutex.blocked_at_waiting by lia. done.
    + intros st'. apply shared_redrain_frame.
    + destruct Hx as [Hx|]; [|done]. apply SharedMutex.runs_relock; [done|].
      rewrite SharedMutex.blocked_at_waiting by lia. done.
    + intros st'. apply shared_lock_frame.
  - destruct Hok as (x&Hl&Hx). rewrite Hl. simpl.
    assert (0 < sm_entered x) as He by (eapply (inv_addr _ Hi), shared_addr_uses; eauto).
    rewrite (is_blocked_at s t (AtRdLock l) (sm_entered x) (OShared l)) in Hb;
      [|done|simpl; by rewrite Hl|eapply shared_addr_uses; eauto].
    apply do_shared_inv; [done|done| | |done].
    + apply SharedMutex.runs_relock_shared; [done|]. rewrite SharedMutex.blocked_at_waiting by lia. done.
    + intros st'. apply shared_lock_shared_frame.
Qed.

Lemma acts_ok s t m : inv s → acts s t m → ∃ r, m = Ret r ∧ inv (finish s t r).
Proof. intros Hi [x Ht Hall|k Ht Hb]; [by apply call_ok|by apply resume_ok]. Qed.

Lemma reachable_inv s : reachable s → inv s.
Proof.
  induction 1 as [n base Hb|s t r _ IH Ha]; [|by destruct (acts_ok s t _ IH Ha) as (r'&[= <-]&?)].
  split; simpl.
  - apply length_replicate.
  - done.
  - intros [m|c|l] a; simpl; rewrite lookup_empty; by intros ?%not_elem_of_nil.
  - intros [m|c|l] o a; simpl; rewrite lookup_empty; by intros ?%not_elem_of_nil.
  - done.
  - by intros m c ?%lookup_empty_Some.
  - by intros m c ?%lookup_empty_Some.
  - by intros m c t ?%lookup_empty_Some.
  - by intros t k [? _]%lookup_replicate.
Qed.

(** C30. Programs of threads that call the intercepted functions within the
    rules of POSIX, on any number of objects: no call fails or follows a
    dangling reference; each mutex has at most one holder, and threads block
    on it only while it is held; a read-write lock has one writer and no
    reader at the same time, and at most one writer; and the queue of a
    condition variable has only threads that wait on it, so that a signal
    wakes one of them. *)
Theorem pthread_calls_correct s :
  reachable s →
  (∀ t m, acts s t m → ∃ r, m = Ret r) ∧
  (∀ m c, mutexes (tables s) !! m = Some c →
     (countb Mutex.is_holding (m_pcs c) ≤ 1)%nat ∧
     ∀ t, points s !! t = Some (Some (AtLock m)) → is_blocked (tables s) t (AtLock m) = true →
       countb Mutex.is_holding (m_pcs c) = 1%nat) ∧
  (∀ l x t t', shared_mutexes (tables s) !! l = Some x → sm_pcs x !! t = Some SharedMutex.WriterHolding →
     countb SharedMutex.is_reader (sm_pcs x) = 0%nat ∧ (sm_pcs x !! t' = Some SharedMutex.WriterHolding → t = t')) ∧
  (∀ c a t, cond_variables (tables s) !! c = Some a → t ∈ waiting (queues (tables s)) a →
     ∃ m, points s !! t = Some (Some (AtWait c m)) ∧ is_blocked (tables s) t (AtWait c m) = true).
Proof.
  intros Hr. pose proof (reachable_inv s Hr) as Hi. split_and!.
  - intros t m Ha. destruct (acts_ok s t m Hi Ha) as (r&->&_). eauto.
  - intros m c Hm. destruct (inv_mutexes _ Hi _ _ Hm) as [[Hl Ho Hw] _]. simpl in Hl, Ho, Hw. split; [lia|].
    intros t _. rewrite (is_blocked_at s t (AtLock m) (m_addr c) (OMutex m)); [|done|simpl; by rewrite Hm|by apply mutex_addr_uses].
    intros Hb%bool_decide_eq_true. apply Hw in Hb as [_ ?]. lia.
  - intros l x t t' Hl Ht. destruct (inv_shareds _ Hi _ _ Hl) as [HS _]. split.
    + pose proof (SharedMutex.inv_holding _ _ _ HS t Ht) as H0. rewrite (SharedMutex.inv_readers _ _ _ HS) in H0.
      unfold SharedMutex.readers in H0. simpl in H0. lia.
    + intros Ht'. assert (∀ u, sm_pcs x !! u = Some SharedMutex.WriterHolding → sm_write x = Some u) as Hown.
      { intros u Hu. apply (SharedMutex.inv_owner _ _ _ HS). eauto. }
      apply Hown in Ht, Ht'. congruence.
  - intros c a t Hc Hw. destruct (inv_conds _ Hi _ _ _ Hc Hw) as [m Hm]. exists m. split; [done|].
    rewrite (is_blocked_at s t (AtWait c m) a (OCond c)); [by apply bool_decide_eq_true_2|done|done|by apply cond_addr_uses].
Qed.

(** ** Misuse *)

(** A mutex that is not in the table cannot be unlocked. *)
Lemma unlock_before_lock p m t : mutexes p !! m = None → pthread_mutex_unlock p m t = Throw "unlock called before lock".
Proof. intros Hm. unfold pthread_mutex_unlock, FindMutex. by rewrite Hm. Qed.

(** The holder is not checked: any thread that unlocks a mutex of the table
    frees it. *)
Lemma unlock_by_anyone p m c t :
  mutexes p !! m = Some c → ∃ p', pthread_mutex_unlock p m t = Ret (p', Returned 0) ∧
    ∃ c', mutexes p' !! m = Some c' ∧ m_locked c' = 0.
Proof.
  intros Hm. unfold pthread_mutex_unlock, FindMutex. rewrite Hm. eexists. split; [done|]. simpl.
  rewrite lookup_insert_eq. eauto.
Qed.

(** [pthread_mutex_init] leaves the entry of a mutex as it is, so that a
    mutex initialized again at an address still in the table may be locked. *)
Lemma init_keeps_lock p m c :
  mutexes p !! m = Some c → ∃ p', pthread_mutex_init p m = Ret (p', Returned 0) ∧ mutexes p' !! m = Some c.
Proof. intros Hm. by exists p. Qed.
