(* ===== verification/Resources.v ===== *)
(** * Memory of the tested code

    Models [MemoryHandler] and the functions that the allocation pass calls
    (src/runtime/mock_res.cpp), the intercepted allocation functions
    (src/syscall_intercept/resources.cpp) and the context guards
    (src/runtime/coro_ctx_guard.cpp). The blocks a coroutine allocates are
    remembered, and freed when the round is reset. The allocator itself is
    the environment: its results are arguments, and freeing what is not
    allocated is undefined. *)
From stdpp Require Import base list gmap fin_maps fin_map_dom.
From Stdlib Require Import ZArith.
From S2P Require Import Prelude.

Open Scope Z_scope.

(** ** State *)

(** [live]: the allocated blocks. [preloaded]: the allocation functions are
    intercepted; the allocation pass is used without interception. The null
    handler is [None]. *)
Record heap := mkHeap {
  live : gset Z;
  memory_handler : option (list Z);
  ltest_coro_ctx : bool;
  inside_free : bool;
  preloaded : bool;
}.

Implicit Types (h : heap) (p ptr : Z).

Definition set_live (l : gset Z) h := mkHeap l (memory_handler h) (ltest_coro_ctx h) (inside_free h) (preloaded h).
Definition set_memory (m : list Z) h := mkHeap (live h) (Some m) (ltest_coro_ctx h) (inside_free h) (preloaded h).
Definition set_ctx (b : bool) h := mkHeap (live h) (memory_handler h) b (inside_free h) (preloaded h).
Definition set_inside (b : bool) h := mkHeap (live h) (memory_handler h) (ltest_coro_ctx h) b (preloaded h).

(** ** The allocator *)

Definition real_malloc h p : heap := if p =? 0 then h else set_live ({[p]} ∪ live h) h.

Definition real_free h ptr : outcome heap :=
  if ptr =? 0 then Ret h
  else if bool_decide (ptr ∈ live h) then Ret (set_live (live h ∖ {[ptr]}) h) else UB.

(** [p] is the result; a null result leaves the block as it is, unless the
    size is 0. *)
Definition real_realloc h ptr (size : Z) p : outcome heap :=
  if ptr =? 0 then Ret (real_malloc h p)
  else if bool_decide (ptr ∈ live h) then
    if p =? 0 then (if size =? 0 then real_free h ptr else Ret h)
    else Ret (set_live ({[p]} ∪ (live h ∖ {[ptr]})) h)
  else UB.

(** ** [MemoryHandler] *)

Definition RememberPointer h ptr : outcome heap :=
  m ← deref (memory_handler h); Ret (set_memory (m ++ [ptr]) h).

Fixpoint erase_first (ptr : Z) (m : list Z) : list Z :=
  match m with
  | [] => []
  | x :: m => if x =? ptr then m else x :: erase_first ptr m
  end.

Definition ForgetAboutPointer h ptr : outcome heap :=
  m ← deref (memory_handler h); Ret (set_memory (erase_first ptr m) h).

(** A body inside [SchedCtxGuard]. *)
Definition with_sched_ctx h (body : heap → outcome heap) : outcome heap :=
  let tmp := ltest_coro_ctx h in
  h' ← body (set_ctx false h); Ret (set_ctx tmp h').

(** ** The intercepted functions *)

(** [malloc] and [calloc]. *)
Definition malloc h p : outcome heap :=
  let h := real_malloc h p in
  if ltest_coro_ctx h then with_sched_ctx h (λ h, RememberPointer h p) else Ret h.
Definition calloc h p : outcome heap :=
  let h := real_malloc h p in
  if ltest_coro_ctx h then with_sched_ctx h (λ h, RememberPointer h p) else Ret h.

Definition free h ptr : outcome heap :=
  if inside_free h then Ret h
  else
    let h := set_inside true h in
    h ← (if bool_decide (is_Some (memory_handler h)) && negb (ptr =? 0)
         then with_sched_ctx h (λ h, ForgetAboutPointer h ptr) else Ret h);
    h ← real_free h ptr;
    Ret (set_inside false h).

Definition realloc h ptr (size : Z) p : outcome heap :=
  h ← real_realloc h ptr size p;
  if ltest_coro_ctx h && negb (p =? ptr) then
    with_sched_ctx h (λ h,
      h ← ForgetAboutPointer h ptr;
      if negb (p =? 0) then RememberPointer h p else Ret h)
  else Ret h.

(** The functions the runtime's own calls reach. *)
Definition any_malloc h p : outcome heap := if preloaded h then malloc h p else Ret (real_malloc h p).
Definition any_free h ptr : outcome heap := if preloaded h then free h ptr else real_free h ptr.

Fixpoint free_loop h (to_free : list Z) : outcome heap :=
  match to_free with
  | [] => Ret h
  | mem :: to_free => h ← any_free h mem; free_loop h to_free
  end.

Definition FreeAllMemory h : outcome heap :=
  to_free ← deref (memory_handler h); free_loop (set_memory [] h) to_free.

(** ** The functions of the allocation pass *)

Definition LtestMemAlloc h p : outcome heap :=
  h ← any_malloc h p;
  if negb (ltest_coro_ctx h) then Ret h else RememberPointer h p.

Definition LtestMemDealloc h ptr : outcome heap :=
  h ← any_free h ptr;
  if negb (ltest_coro_ctx h) then Ret h else ForgetAboutPointer h ptr.

(** ** Operations *)

(** [Context b]: the scheduler resumes a coroutine, or it yields. *)
Inductive op :=
  | Context (b : bool)
  | Malloc (p : Z) | Calloc (p : Z) | Realloc (ptr size p : Z) | Free (ptr : Z)
  | Alloc (p : Z) | Dealloc (ptr : Z)
  | FreeAll.

Definition exec h (o : op) : outcome heap :=
  match o with
  | Context b => Ret (set_ctx b h)
  | Malloc p => malloc h p
  | Calloc p => calloc h p
  | Realloc ptr size p => realloc h ptr size p
  | Free ptr => free h ptr
  | Alloc p => LtestMemAlloc h p
  | Dealloc ptr => LtestMemDealloc h ptr
  | FreeAll => FreeAllMemory h
  end.

(** ** What the functions promise: blocks with their owners *)

(** The live blocks; [true] for those a coroutine allocated. *)
Abbreviation Owners := (gmap Z bool).

Definition own_new (o : Owners) p (b : bool) : Owners := if p =? 0 then o else <[p := b]> o.
Definition own_drop (o : Owners) ptr : Owners := delete ptr o.

Definition spec (ctx : bool) (o : Owners) (x : op) : Owners :=
  match x with
  | Context _ => o
  | Malloc p | Calloc p | Alloc p => own_new o p ctx
  | Realloc ptr _ p => if p =? ptr then o else own_new (own_drop o ptr) p ctx
  | Free ptr | Dealloc ptr => own_drop o ptr
  | FreeAll => filter (λ '(_, b), b = false) o
  end.

(** The result of the allocator is null or not allocated. *)
Definition fresh_result (o : Owners) p : Prop := p = 0 ∨ o !! p = None.
Definition allocated (o : Owners) ptr : Prop := ptr = 0 ∨ is_Some (o !! ptr).

(** The uses that are accounted for: blocks are freed while allocated; a
    block of a coroutine is not moved by the scheduler, and a [realloc] by a
    coroutine does not fail; the allocation pass has its blocks freed in the
    coroutine. *)
Definition allowed h (o : Owners) (x : op) : Prop :=
  match x with
  | Context _ | FreeAll => True
  | Malloc p | Calloc p => preloaded h = true ∧ fresh_result o p
  | Free ptr => preloaded h = true ∧ allocated o ptr
  | Realloc ptr size p => preloaded h = true ∧ allocated o ptr ∧ p ≠ 0 ∧ (p = ptr ∨ o !! p = None) ∧
      (ltest_coro_ctx h = false → p ≠ ptr → o !! ptr ≠ Some true)
  | Alloc p => preloaded h = false ∧ fresh_result o p
  | Dealloc ptr => preloaded h = false ∧ allocated o ptr ∧ (ltest_coro_ctx h = false → o !! ptr ≠ Some true)
  end.

Definition remembered (m : list Z) : list Z := filter (λ x, x ≠ 0) m.

(** The handler has the blocks of the coroutines, each once. *)
Record repr h (o : Owners) : Prop := {
  repr_live x : x ∈ live h ↔ is_Some (o !! x);
  repr_null : o !! 0 = None;
  repr_inside : inside_free h = false;
  repr_memory : ∃ m, memory_handler h = Some m ∧ NoDup (remembered m) ∧
    ∀ x, x ∈ remembered m ↔ o !! x = Some true;
}.

(** ** Remembered blocks *)

Definition mem_ok (m : list Z) (o : Owners) : Prop :=
  NoDup (remembered m) ∧ ∀ x, x ∈ remembered m ↔ o !! x = Some true.

Lemma erase_remembered ptr m :
  NoDup (remembered m) →
  NoDup (remembered (erase_first ptr m)) ∧ ∀ x, x ∈ remembered (erase_first ptr m) ↔ x ∈ remembered m ∧ x ≠ ptr.
Proof.
  unfold remembered. induction m as [|y m IH]; simpl.
  { intros _. rewrite filter_nil. split; [constructor|]. intros x. rewrite elem_of_nil. tauto. }
  rewrite filter_cons. intros Hnd. destruct (Z.eqb_spec y ptr) as [->|Hne].
  - case_decide as H0.
    + apply NoDup_cons in Hnd as [Hn Hnd]. split; [done|]. intros x. rewrite elem_of_cons. split; [|naive_solver].
      intros Hx. split; [by right|]. by intros ->.
    + split; [done|]. intros x. split; [|naive_solver]. intros Hx. split; [done|]. intros ->.
      apply list_elem_of_filter in Hx. naive_solver.
  - rewrite filter_cons. case_decide.
    + apply NoDup_cons in Hnd as [Hn Hnd]. destruct (IH Hnd) as [H1 H2]. split.
      * apply NoDup_cons. split; [|done]. rewrite H2. tauto.
      * intros x. rewrite !elem_of_cons, H2. naive_solver.
    + destruct (IH Hnd) as [H1 H2]. done.
Qed.

Lemma mem_ok_erase ptr m o : mem_ok m o → mem_ok (erase_first ptr m) (delete ptr o).
Proof.
  intros [Hn Hm]. destruct (erase_remembered ptr m Hn) as [Hn' Hm']. split; [done|]. intros x.
  rewrite Hm', Hm, lookup_delete_Some. naive_solver.
Qed.

Lemma mem_ok_remember p m o : mem_ok m o → fresh_result o p → mem_ok (m ++ [p]) (own_new o p true).
Proof.
  intros [Hn Hm] Hf. unfold mem_ok, remembered, own_new in *. rewrite filter_app, filter_cons, filter_nil.
  destruct (Z.eqb_spec p 0) as [->|H0]; [rewrite decide_False by tauto; by rewrite app_nil_r|].
  rewrite decide_True by done. destruct Hf as [|Hp]; [done|]. split.
  - apply NoDup_app. split_and!; [done| |apply NoDup_singleton].
    intros x Hx ->%list_elem_of_singleton. apply Hm in Hx. congruence.
  - intros x. rewrite elem_of_app, list_elem_of_singleton, Hm, lookup_insert_Some. naive_solver.
Qed.

Lemma mem_ok_scheduler p m o : mem_ok m o → fresh_result o p → mem_ok m (own_new o p false).
Proof.
  intros [Hn Hm] Hf. split; [done|]. intros x. rewrite Hm. unfold own_new. destruct (Z.eqb_spec p 0) as [|H0]; [done|].
  destruct Hf as [|Hp]; [done|]. rewrite lookup_insert_Some. naive_solver.
Qed.

Lemma mem_ok_drop ptr m o : mem_ok m o → o !! ptr ≠ Some true → mem_ok m (delete ptr o).
Proof. intros [Hn Hm] Hp. split; [done|]. intros x. rewrite Hm, lookup_delete_Some. naive_solver. Qed.

(** ** The pieces of the representation *)

Lemma repr_intro h o m :
  (∀ x, x ∈ live h ↔ is_Some (o !! x)) → o !! 0 = None → inside_free h = false → memory_handler h = Some m →
  mem_ok m o → repr h o.
Proof. intros ???? []. split; eauto. Qed.

Lemma own_new_live h o p :
  (∀ x, x ∈ live h ↔ is_Some (o !! x)) → ∀ b x, x ∈ live (real_malloc h p) ↔ is_Some (own_new o p b !! x).
Proof.
  intros Hl b x. unfold real_malloc, own_new. destruct (Z.eqb_spec p 0) as [|H0]; [apply Hl|]. simpl.
  rewrite elem_of_union, elem_of_singleton, Hl, lookup_insert_is_Some. destruct (decide (p = x)); intuition.
Qed.

Lemma own_new_null o p b : o !! 0 = None → own_new o p b !! 0 = None.
Proof. intros H0. unfold own_new. destruct (Z.eqb_spec p 0); [done|]. by rewrite lookup_insert_ne. Qed.

Lemma real_malloc_same h p :
  memory_handler (real_malloc h p) = memory_handler h ∧ ltest_coro_ctx (real_malloc h p) = ltest_coro_ctx h ∧
  inside_free (real_malloc h p) = inside_free h ∧ preloaded (real_malloc h p) = preloaded h.
Proof. unfold real_malloc. by destruct (p =? 0). Qed.

Lemma real_free_ok h o ptr :
  (∀ x, x ∈ live h ↔ is_Some (o !! x)) → o !! 0 = None → allocated o ptr →
  ∃ l, real_free h ptr = Ret (set_live l h) ∧ ∀ x, x ∈ l ↔ is_Some (delete ptr o !! x).
Proof.
  intros Hl H0 Ha. unfold real_free. destruct (Z.eqb_spec ptr 0) as [->|Hne].
  - exists (live h). split; [by destruct h|]. by rewrite delete_id.
  - destruct Ha as [|Ha]; [done|]. rewrite bool_decide_eq_true_2 by (by apply Hl). eexists. split; [done|].
    intros x. rewrite elem_of_difference, elem_of_singleton, Hl, lookup_delete_is_Some. intuition.
Qed.

(** ** The intercepted functions refine the specification *)

Lemma malloc_ok h o p :
  repr h o → fresh_result o p → ∃ h', malloc h p = Ret h' ∧ repr h' (own_new o p (ltest_coro_ctx h)).
Proof.
  intros [Hl H0 Hi (m&Hm&Hmem)] Hf. destruct (real_malloc_same h p) as (Em&Ec&Ei&Ep). rewrite Hm in Em. rewrite Hi in Ei.
  pose proof (own_new_live h o p Hl) as Hl'. unfold malloc. rewrite Ec. destruct (ltest_coro_ctx h) eqn:Ectx.
  - unfold with_sched_ctx, RememberPointer. simpl. rewrite Em. simpl. eexists. split; [done|].
    eapply repr_intro with (m := m ++ [p]); simpl; [apply Hl'|by apply own_new_null|done|done|].
    by apply mem_ok_remember.
  - eexists. split; [done|]. eapply repr_intro; [apply Hl'|by apply own_new_null|done|done|]. by apply mem_ok_scheduler.
Qed.

Lemma free_run h o ptr m :
  (∀ x, x ∈ live h ↔ is_Some (o !! x)) → o !! 0 = None → inside_free h = false → memory_handler h = Some m →
  allocated o ptr →
  ∃ h', free h ptr = Ret h' ∧ (∀ x, x ∈ live h' ↔ is_Some (delete ptr o !! x)) ∧ inside_free h' = false ∧
    memory_handler h' = Some (if ptr =? 0 then m else erase_first ptr m) ∧ preloaded h' = preloaded h.
Proof.
  intros Hl H0 Hi Hm Ha. unfold free. rewrite Hi. simpl. rewrite Hm. rewrite bool_decide_eq_true_2 by eauto.
  simpl. destruct (Z.eqb_spec ptr 0) as [->|Hne]; simpl.
  - rewrite delete_id by done. eexists. split_and!; [done|done|done|done|done].
  - unfold with_sched_ctx, ForgetAboutPointer. simpl. rewrite Hm. simpl.
    set (h1 := set_ctx _ _). destruct (real_free_ok h1 o ptr Hl H0 Ha) as (l&->&Hl'). simpl.
    eexists. split_and!; [done|done|done|done|done].
Qed.

Lemma delete_null (o : Owners) ptr : o !! 0 = None → delete ptr o !! 0 = None.
Proof. intros H0. rewrite lookup_delete_None. by right. Qed.

Lemma free_ok h o ptr : repr h o → allocated o ptr → ∃ h', free h ptr = Ret h' ∧ repr h' (delete ptr o).
Proof.
  intros [Hl H0 Hi (m&Hm&Hmem)] Ha. destruct (free_run h o ptr m Hl H0 Hi Hm Ha) as (h'&E&Hl'&Hi'&Hm'&_).
  exists h'. split; [done|]. eapply repr_intro; [done|by apply delete_null|done|done|].
  destruct (Z.eqb_spec ptr 0) as [->|]; [by rewrite delete_id|by apply mem_ok_erase].
Qed.

Lemma realloc_live h o ptr size p :
  (∀ x, x ∈ live h ↔ is_Some (o !! x)) → o !! 0 = None → allocated o ptr → p ≠ 0 →
  ∃ l, real_realloc h ptr size p = Ret (set_live l h) ∧
    ∀ x, x ∈ l ↔ is_Some ((if p =? ptr then o else own_new (delete ptr o) p (ltest_coro_ctx h)) !! x).
Proof.
  intros Hl H0 Ha Hp. unfold real_realloc, real_malloc, own_new. rewrite (proj2 (Z.eqb_neq p 0)) by done.
  destruct (Z.eqb_spec ptr 0) as [->|Hne].
  - rewrite (proj2 (Z.eqb_neq p 0)) by done. eexists. split; [done|]. intros x.
    rewrite elem_of_union, elem_of_singleton, Hl, lookup_insert_is_Some, delete_id by done.
    destruct (decide (p = x)); intuition.
  - destruct Ha as [|Ha]; [done|]. rewrite bool_decide_eq_true_2 by (by apply Hl). eexists. split; [done|].
    intros x. rewrite elem_of_union, elem_of_difference, !elem_of_singleton, Hl. destruct (Z.eqb_spec p ptr) as [->|Hpp].
    + destruct (decide (x = ptr)) as [->|]; intuition.
    + rewrite lookup_insert_is_Some, lookup_delete_is_Some. destruct (decide (p = x)); intuition.
Qed.

Lemma realloc_ok h o ptr size p :
  repr h o → allowed h o (Realloc ptr size p) →
  ∃ h', realloc h ptr size p = Ret h' ∧ repr h' (spec (ltest_coro_ctx h) o (Realloc ptr size p)).
Proof.
  intros [Hl H0 Hi (m&Hm&Hmem)] (_&Ha&Hp&Hf&Hs). unfold realloc.
  destruct (realloc_live h o ptr size p Hl H0 Ha Hp) as (l&->&Hl'). simpl.
  assert (fresh_result (delete ptr o) p) as Hfr.
  { right. destruct (decide (p = ptr)) as [->|]; [apply lookup_delete_eq|]. rewrite lookup_delete_ne by done. naive_solver. }
  destruct (Z.eqb_spec p ptr) as [->|Hpp]; simpl.
  { rewrite andb_false_r. eexists. split; [done|]. by eapply repr_intro. }
  assert (own_new (delete ptr o) p (ltest_coro_ctx h) !! 0 = None) as H0'.
  { apply own_new_null. rewrite lookup_delete_None. by right. }
  destruct (ltest_coro_ctx h) eqn:Ec; simpl.
  - unfold with_sched_ctx, ForgetAboutPointer, RememberPointer. simpl. rewrite Hm. simpl.
    rewrite (proj2 (Z.eqb_neq p 0)) by done. simpl. eexists. split; [done|].
    eapply repr_intro with (m := erase_first ptr m ++ [p]); simpl; [done|done|done|done|].
    apply mem_ok_remember; [by apply mem_ok_erase|done].
  - eexists. split; [done|]. eapply repr_intro; simpl; [done|done|done|done|].
    apply mem_ok_scheduler; [|done]. apply mem_ok_drop; auto.
Qed.

(** ** Freeing what is remembered *)

Lemma any_free_ok h o ptr :
  (∀ x, x ∈ live h ↔ is_Some (o !! x)) → o !! 0 = None → inside_free h = false → memory_handler h = Some [] →
  allocated o ptr →
  ∃ h', any_free h ptr = Ret h' ∧ (∀ x, x ∈ live h' ↔ is_Some (delete ptr o !! x)) ∧ inside_free h' = false ∧
    memory_handler h' = Some [] ∧ preloaded h' = preloaded h.
Proof.
  intros Hl H0 Hi Hm Ha. unfold any_free. destruct (preloaded h) eqn:Ep.
  - destruct (free_run h o ptr [] Hl H0 Hi Hm Ha) as (h'&E&Hl'&Hi'&Hm'&Ep'). exists h'.
    split_and!; [done|done|done| |congruence]. by destruct (ptr =? 0).
  - destruct (real_free_ok h o ptr Hl H0 Ha) as (l&->&Hl'). by exists (set_live l h).
Qed.

Lemma free_loop_ok l h (o : Owners) :
  (∀ x, x ∈ live h ↔ is_Some (o !! x)) → o !! 0 = None → inside_free h = false → memory_handler h = Some [] →
  NoDup (remembered l) → (∀ x, x ∈ remembered l → is_Some (o !! x)) →
  ∃ h', free_loop h l = Ret h' ∧ inside_free h' = false ∧ memory_handler h' = Some [] ∧
    ∀ x, x ∈ live h' ↔ is_Some (o !! x) ∧ x ∉ remembered l.
Proof.
  revert h o. induction l as [|y l IH]; intros h o Hl H0 Hi Hm Hnd Hin; simpl.
  { exists h. split_and!; [done|done|done|]. intros x. rewrite Hl. unfold remembered. rewrite filter_nil.
    split; [intros ?; split; [done|apply not_elem_of_nil]|by intros []]. }
  unfold remembered in Hnd, Hin. rewrite filter_cons in Hnd, Hin. fold (remembered l) in Hnd, Hin.
  assert (allocated o y) as Hy.
  { destruct (decide (y = 0)) as [|Hy]; [by left|right]. rewrite decide_True in Hin by done. apply Hin. by left. }
  destruct (any_free_ok h o y Hl H0 Hi Hm Hy) as (h1&->&Hl1&Hi1&Hm1&_). simpl.
  assert (NoDup (remembered l) ∧ y ∉ remembered l) as [Hnd' Hny].
  { case_decide as Hd; [by apply NoDup_cons in Hnd as [? ?]|]. split; [done|]. intros Hx%list_elem_of_filter. tauto. }
  destruct (IH h1 (delete y o)) as (h'&E&Hi'&Hm'&Hl'); try done; [by apply delete_null| |].
  { intros x Hx. rewrite lookup_delete_ne by congruence. apply Hin. case_decide; [by right|done]. }
  exists h'. split_and!; [done|done|done|]. intros x. rewrite Hl', lookup_delete_is_Some.
  unfold remembered at 2. rewrite filter_cons. fold (remembered l). case_decide as Hd.
  - rewrite not_elem_of_cons. split; intros; destruct_and?; split_and?; congruence || done.
  - split; [tauto|]. intros [Hx ?]. split_and!; [|done|done]. intros Hxy. assert (x = 0) as -> by congruence.
    rewrite H0 in Hx. by destruct Hx.
Qed.

Lemma free_all_ok h o :
  repr h o → ∃ h', FreeAllMemory h = Ret h' ∧ repr h' (spec (ltest_coro_ctx h) o FreeAll) ∧ memory_handler h' = Some [].
Proof.
  intros [Hl H0 Hi (m&Hm&Hnd&Hmem)]. unfold FreeAllMemory. rewrite Hm. simpl.
  destruct (free_loop_ok m (set_memory [] h) o) as (h'&E&Hi'&Hm'&Hl'); try done.
  { intros x Hx%Hmem. eauto. }
  assert (∀ x b, filter (λ '(_, b), b = false) o !! x = Some b ↔ o !! x = Some b ∧ b = false) as Hf.
  { intros x b. apply map_lookup_filter_Some. }
  exists h'. split_and!; [done| |done]. eapply repr_intro; [| |done|done|].
  - intros x. rewrite Hl', Hmem. split.
    + intros [[b Hb] Hx]. exists b. apply Hf. split; [done|]. destruct b; [done|done].
    + intros [b Hb%Hf]. destruct Hb as [Hb ->]. split; [eauto|]. congruence.
  - apply map_lookup_filter_None. by left.
  - split; [constructor|]. intros x. unfold remembered. rewrite filter_nil, elem_of_nil. split; [done|].
    intros [_ ?]%Hf. done.
Qed.

(** ** The functions of the allocation pass *)

Lemma alloc_ok h o p :
  repr h o → preloaded h = false → fresh_result o p →
  ∃ h', LtestMemAlloc h p = Ret h' ∧ repr h' (own_new o p (ltest_coro_ctx h)).
Proof.
  intros [Hl H0 Hi (m&Hm&Hmem)] Hp Hf. destruct (real_malloc_same h p) as (Em&Ec&Ei&Ep). rewrite Hm in Em. rewrite Hi in Ei.
  pose proof (own_new_live h o p Hl) as Hl'. unfold LtestMemAlloc, any_malloc. rewrite Hp. simpl. rewrite Ec.
  destruct (ltest_coro_ctx h) eqn:Ectx; simpl.
  - unfold RememberPointer. rewrite Em. simpl. eexists. split; [done|].
    eapply repr_intro with (m := m ++ [p]); simpl; [apply Hl'|by apply own_new_null|done|done|]. by apply mem_ok_remember.
  - eexists. split; [done|]. eapply repr_intro; [apply Hl'|by apply own_new_null|done|done|]. by apply mem_ok_scheduler.
Qed.

Lemma dealloc_ok h o ptr :
  repr h o → allowed h o (Dealloc ptr) → ∃ h', LtestMemDealloc h ptr = Ret h' ∧ repr h' (delete ptr o).
Proof.
  intros [Hl H0 Hi (m&Hm&Hmem)] (Hp&Ha&Hs). unfold LtestMemDealloc, any_free. rewrite Hp.
  destruct (real_free_ok h o ptr Hl H0 Ha) as (l&->&Hl'). simpl. destruct (ltest_coro_ctx h) eqn:Ec; simpl.
  - unfold ForgetAboutPointer. simpl. rewrite Hm. simpl. eexists. split; [done|].
    eapply repr_intro with (m := erase_first ptr m); simpl; [done|by apply delete_null|done|done|by apply mem_ok_erase].
  - eexists. split; [done|]. eapply repr_intro; simpl; [done|by apply delete_null|done|done|]. apply mem_ok_drop; auto.
Qed.

Lemma exec_ok h o x : repr h o → allowed h o x → ∃ h', exec h x = Ret h' ∧ repr h' (spec (ltest_coro_ctx h) o x).
Proof.
  intros Hr Hal. destruct x as [b|p|p|ptr size p|ptr|p|ptr|]; simpl exec; simpl in Hal.
  - eexists. split; [done|]. destruct Hr. by split.
  - destruct Hal. by apply malloc_ok.
  - destruct Hal. by apply malloc_ok.
  - by apply realloc_ok.
  - destruct Hal. by apply free_ok.
  - destruct Hal. by apply alloc_ok.
  - by apply dealloc_ok.
  - destruct (free_all_ok h o Hr) as (h'&?&?&?). eauto.
Qed.

(** ** Runs *)

Fixpoint exec_all h (xs : list op) : outcome heap :=
  match xs with
  | [] => Ret h
  | x :: xs => h' ← exec h x; exec_all h' xs
  end.

(** The functions and the specification side by side. *)
Fixpoint simulate h (o : Owners) (xs : list op) : outcome (heap * Owners) :=
  match xs with
  | [] => Ret (h, o)
  | x :: xs => h' ← exec h x; simulate h' (spec (ltest_coro_ctx h) o x) xs
  end.

Fixpoint allowed_all h (o : Owners) (xs : list op) : Prop :=
  match xs with
  | [] => True
  | x :: xs => allowed h o x ∧ ∀ h', exec h x = Ret h' → allowed_all h' (spec (ltest_coro_ctx h) o x) xs
  end.

Lemma simulate_exec xs h o : fst <$> simulate h o xs = exec_all h xs.
Proof. revert h o. induction xs as [|x xs IH]; intros h o; simpl; [done|]. destruct (exec h x); try done. apply IH. Qed.

Lemma simulate_ok xs h o :
  repr h o → allowed_all h o xs → ∃ h' o', simulate h o xs = Ret (h', o') ∧ repr h' o'.
Proof.
  revert h o. induction xs as [|x xs IH]; intros h o Hr Hal; simpl; [by exists h, o|]. destruct Hal as [Hx Hxs].
  destruct (exec_ok h o x Hr Hx) as (h1&E&Hr1). rewrite E. simpl. by apply IH; auto.
Qed.

(** C25. Memory of a round. Whatever coroutines and the scheduler allocate,
    reallocate and free within the rules, no block is freed twice, the
    remembered pointers are at every moment the blocks of coroutines that
    are still allocated, each once, and the reset of the round frees exactly
    those: afterwards nothing is remembered and the allocated blocks are
    those the scheduler allocated. *)
Theorem memory_of_round h o xs
    (Hrepr : repr h o) (Hallowed : allowed_all h o xs) :
  ∃ h' o', exec_all h xs = Ret h' ∧ simulate h o xs = Ret (h', o') ∧ repr h' o' ∧
  ∃ h'', FreeAllMemory h' = Ret h'' ∧ memory_handler h'' = Some [] ∧
    ∀ x, x ∈ live h'' ↔ o' !! x = Some false.
Proof.
  destruct (simulate_ok xs h o Hrepr Hallowed) as (h'&o'&E&Hr). exists h', o'.
  destruct (free_all_ok h' o' Hr) as (h''&E'&Hr''&Hm). split_and!; [by rewrite <-(simulate_exec xs h o), E|done|done|].
  exists h''. split_and!; [done|done|]. intros x. rewrite (repr_live _ _ Hr''). simpl. split.
  - intros [b Hb]. apply map_lookup_filter_Some in Hb as [Hb ->]. done.
  - intros Hb. exists false. by apply map_lookup_filter_Some.
Qed.

(** ** Uses that are not accounted for *)

Definition no_blocks (preload : bool) : heap := mkHeap ∅ (Some []) false false preload.

(** The scheduler moves a block of a coroutine: the old pointer stays
    remembered and is freed again by the reset. *)
Example realloc_by_scheduler :
  exec_all (no_blocks true) [Context true; Malloc 8; Context false; Realloc 8 64 24; FreeAll] = UB.
Proof. reflexivity. Qed.

(** A [realloc] that fails in a coroutine forgets the block: it is never
    freed. *)
Example failed_realloc_leaks :
  live <$> exec_all (no_blocks true) [Context true; Malloc 8; Realloc 8 64 0; Context false; FreeAll] = Ret {[8]}.
Proof. reflexivity. Qed.

(** With the pass, the scheduler frees a block of a coroutine: the pointer
    stays remembered. *)
Example dealloc_by_scheduler :
  exec_all (no_blocks false) [Context true; Alloc 8; Context false; Dealloc 8; FreeAll] = UB.
Proof. reflexivity. Qed.

(** The pass together with the interception remembers a block twice. *)
Example pass_with_interception :
  exec_all (no_blocks true) [Context true; Alloc 8; Context false; FreeAll] = UB.
Proof. reflexivity. Qed.
