(* ===== verification/Specs.v ===== *)
(** * Sequential specifications

    Models the sequential specifications under verifying/specs that the
    checkers of runtime/include are instantiated with: queue.h, stack.h,
    set.h, register.h, buffered_channel.h, mutex.h, bank.h and
    dual_stack_split.h, and the results they return
    (runtime/include/value_wrapper.h). Every specification is a table of
    methods, an initial state, a hash and an equality ([ltest::Spec]).

    The argument tuple behind [void* args] is the list of its components;
    the generator of the target builds it, so a call has the arity its method
    expects. An [int] that leaves its range (undefined in C++) wraps. *)
From stdpp Require Import base list gmap strings relations.
From Stdlib Require Import ZArith.
From S2P Require Import Prelude LinSpec Events History Linearizability Search Checkers.
Open Scope Z_scope.

Definition int32 (z : Z) : Z := (z + 2 ^ 31) mod 2 ^ 32 - 2 ^ 31.

(** ** Results

    A [ValueWrapper] holds a value and the comparison of its type; the one
    of [Ticket]s compares the ids, the one of [void_v] accepts anything. The
    result types of libcoro that the specifications return are
    [SemaphoreResult] (acquired or shutdown), [ProducedResult] and
    [ExpectedInt] (a [tl::expected] that holds a value); the two snapshots
    are those of libcoro/ring_buffer.h. *)
Inductive ValueWrapper :=
  | NoValue
  | VoidValue
  | IntValue (v : Z)
  | BoolValue (b : bool)
  | SizeValue (n : Z)
  | OptionalInt (o : option Z)
  | TicketValue (id : Z)
  | SemaphoreResult (acquired : bool)
  | ProducedResult
  | ExpectedInt (v : Z)
  | RingBufferSnapshot (size : Z) (empty full : bool)
  | RingBufferInternalSnapshot (front back used : Z) (slot_full : bool) (slot_value : Z).

#[export] Instance ValueWrapper_eq_dec : EqDecision ValueWrapper.
Proof. solve_decision. Defined.

Definition HasValue (v : ValueWrapper) : bool := negb (bool_decide (v = NoValue)).

(** The type of the held value, as [std::any_cast] tells them apart. *)
Definition value_type (v : ValueWrapper) : nat :=
  match v with
  | NoValue => 0 | VoidValue => 1 | IntValue _ => 2 | BoolValue _ => 3 | SizeValue _ => 4
  | OptionalInt _ => 5 | TicketValue _ => 6 | SemaphoreResult _ => 7 | ProducedResult => 8
  | ExpectedInt _ => 9 | RingBufferSnapshot _ _ _ => 10
  | RingBufferInternalSnapshot _ _ _ _ _ => 11
  end.

(** The comparisons written for the libcoro types cast both sides without
    asking whether they hold a value. *)
Definition default_comparator (v : ValueWrapper) : bool := Nat.ltb (value_type v) 7.

(** [a == b]: the comparison of [a]'s type; [std::any_cast] to that type
    throws when [b] holds another one, and calling the empty comparison of a
    wrapper without value throws too. *)
Definition compare (a b : ValueWrapper) : outcome bool :=
  match a, b with
  | NoValue, _ => Throw "bad_function_call"
  | VoidValue, _ => Ret true
  | _, NoValue => if default_comparator a then Ret false else Throw "bad_any_cast"
  | _, _ => if bool_decide (value_type a = value_type b) then Ret (bool_decide (a = b))
            else Throw "bad_any_cast"
  end.

Definition value_eq (a b : ValueWrapper) : bool :=
  match compare a b with Ret b => b | _ => false end.

Abbreviation Args := (list Z).
Definition arg (n : nat) (args : Args) : Z := nth n args 0.

(** [ltest::Spec]: the specification side of a target. *)
Record Spec (St : Type) := mkSpec {
  GetMethods : MethodMap St Args ValueWrapper;
  spec_init : St;
  SpecHash : St → Z;
  SpecEquals : St → St → bool;
}.
Arguments mkSpec {St} _ _ _ _.
Arguments GetMethods {St} _.
Arguments spec_init {St} _.
Arguments SpecHash {St} _ _.
Arguments SpecEquals {St} _ _ _.

(** An equality that implies Leibniz equality is sound for any methods. *)
Lemma spec_congruence_eq {St} (sp : Spec St) :
  (∀ s t, SpecEquals sp s t = true → s = t) →
  SpecCongruence (GetMethods sp) (SpecEquals sp) eq.
Proof. intros He. split; [apply _|done|]. by intros ????? _ ->. Qed.

Ltac solve_spec_congruence :=
  apply spec_congruence_eq; intros [] [];
  first [by intros ?%bool_decide_eq_true; simplify_eq/= | done].

(** The methods of a table, from a lookup in it. *)
Ltac method_cases Hm :=
  let rec go :=
    first [ apply lookup_singleton_Some in Hm as [<- <-]
          | apply lookup_insert_Some in Hm as [[<- <-]|[_ Hm]]; [|go] ] in
  go.

(** Calls of a specification, one after the other. *)
Fixpoint run_calls {St} (sp : Spec St) (calls : list (string * Args)) (s : St) :
    option (St * list ValueWrapper) :=
  match calls with
  | [] => Some (s, [])
  | (name, args) :: calls =>
      m ← GetMethods sp !! name;
      let '(s', v) := m s args in
      '(s'', vs) ← run_calls sp calls s';
      Some (s'', v :: vs)
  end.

(** [int res = 0; for (int elem : ...) res += elem; return res;] *)
Definition sum_hash (l : list Z) : Z := u64 (foldl (λ res elem, int32 (res + elem)) 0 l).

Module Queue.
Record t := mk { deq : list Z }.

Definition Push (q : t) (v : Z) : t := mk (deq q ++ [v]).
Definition Pop (q : t) : t * Z :=
  match deq q with
  | [] => (q, 0)
  | res :: deq => (mk deq, res)
  end.

Definition methods : MethodMap t Args ValueWrapper :=
  {[ "Push" := λ l args, (Push l (arg 0 args), VoidValue);
     "Pop" := λ l args, let '(l, r) := Pop l in (l, IntValue r) ]}.

Definition QueueHash (r : t) : Z := sum_hash (deq r).
Definition QueueEquals (lhs rhs : t) : bool := bool_decide (deq lhs = deq rhs).

Definition spec : Spec t := mkSpec methods (mk []) QueueHash QueueEquals.

#[export] Instance queue_congruence : SpecCongruence (GetMethods spec) (SpecEquals spec) eq.
Proof. solve_spec_congruence. Qed.
End Queue.

Module Stack.
Record t := mk { deq : list Z }.

(** The deque is listed from back (the top) to front. *)
Definition Push (s : t) (v : Z) : t := mk (v :: deq s).
Definition Pop (s : t) : t * Z :=
  match deq s with
  | [] => (s, 0)
  | res :: deq => (mk deq, res)
  end.

Definition methods : MethodMap t Args ValueWrapper :=
  {[ "Push" := λ l args, (Push l (arg 0 args), VoidValue);
     "Pop" := λ l args, let '(l, r) := Pop l in (l, IntValue r) ]}.

Definition StackHash (r : t) : Z := sum_hash (rev (deq r)).
Definition StackEquals (lhs rhs : t) : bool := bool_decide (deq lhs = deq rhs).

Definition spec : Spec t := mkSpec methods (mk []) StackHash StackEquals.

#[export] Instance stack_congruence : SpecCongruence (GetMethods spec) (SpecEquals spec) eq.
Proof. solve_spec_congruence. Qed.
End Stack.

Module BufferedChannel.
Record t := mk { deq : list Z }.

Definition Send (c : t) (v : Z) : t := mk (deq c ++ [v]).
Definition Recv (c : t) : t * Z :=
  match deq c with
  | [] => (c, -1)
  | value :: deq => (mk deq, value)
  end.

Definition methods : MethodMap t Args ValueWrapper :=
  {[ "Send" := λ l args, (Send l (arg 0 args), VoidValue);
     "Recv" := λ l args, let '(l, r) := Recv l in (l, IntValue r) ]}.

Definition BufferedChannelHash (r : t) : Z := sum_hash (deq r).
Definition BufferedChannelEquals (lhs rhs : t) : bool := bool_decide (deq lhs = deq rhs).

Definition spec : Spec t := mkSpec methods (mk []) BufferedChannelHash BufferedChannelEquals.

#[export] Instance bufferedchannel_congruence : SpecCongruence (GetMethods spec) (SpecEquals spec) eq.
Proof. solve_spec_congruence. Qed.
End BufferedChannel.

Module Set_.
Record t := mk { st : gset Z }.

Definition Insert (s : t) (v : Z) : t * Z :=
  let added := bool_decide (v ∉ st s) in (mk ({[v]} ∪ st s), if added then 1 else 0).
Definition Erase (s : t) (v : Z) : t * Z :=
  let how_many := if bool_decide (v ∈ st s) then 1 else 0 in
  (mk (st s ∖ {[v]}), if bool_decide (how_many ≠ 0) then 1 else 0).

Definition methods : MethodMap t Args ValueWrapper :=
  {[ "Insert" := λ l args, let '(l, r) := Insert l (arg 0 args) in (l, IntValue r);
     "Erase" := λ l args, let '(l, r) := Erase l (arg 0 args) in (l, IntValue r) ]}.

Definition SetHash (r : t) : Z := sum_hash (elements (st r)).
Definition SetEquals (lhs rhs : t) : bool := bool_decide (st lhs = st rhs).

Definition spec : Spec t := mkSpec methods (mk ∅) SetHash SetEquals.

#[export] Instance set_congruence : SpecCongruence (GetMethods spec) (SpecEquals spec) eq.
Proof. solve_spec_congruence. Qed.
End Set_.

Module LinearRegister.
Record t := mk { x : Z }.

Definition add (l : t) : t := mk (int32 (x l + 1)).
Definition get (l : t) : Z := x l.

Definition methods : MethodMap t Args ValueWrapper :=
  {[ "add" := λ l _, (add l, VoidValue); "get" := λ l _, (l, IntValue (get l)) ]}.

Definition LinearRegisterHash (r : t) : Z := u64 (x r).
Definition LinearRegisterEquals (lhs rhs : t) : bool := bool_decide (x lhs = x rhs).

Definition spec : Spec t := mkSpec methods (mk 0) LinearRegisterHash LinearRegisterEquals.

#[export] Instance linearregister_congruence : SpecCongruence (GetMethods spec) (SpecEquals spec) eq.
Proof. solve_spec_congruence. Qed.
End LinearRegister.

Module LinearMutex.
Record t := mk { isLocked : Z }.

Definition Lock (l : t) : t * Z := if bool_decide (isLocked l ≠ 0) then (l, 1) else (mk 1, 0).
Definition Unlock (_ : t) : t * Z := (mk 0, 0).

Definition methods : MethodMap t Args ValueWrapper :=
  {[ "Lock" := λ l _, let '(l, r) := Lock l in (l, IntValue r);
     "Unlock" := λ l _, let '(l, r) := Unlock l in (l, IntValue r) ]}.

(** The equality never holds, so that the checkers' caches never hit. *)
Definition LinearMutexHash (_ : t) : Z := 0.
Definition LinearMutexEquals (_ _ : t) : bool := false.

Definition spec : Spec t := mkSpec methods (mk 0) LinearMutexHash LinearMutexEquals.

#[export] Instance linearmutex_congruence : SpecCongruence (GetMethods spec) (SpecEquals spec) eq.
Proof. solve_spec_congruence. Qed.
End LinearMutex.

Module SharedLinearMutex.
Definition READER : Z := 1.
Definition WRITER : Z := -1.
Definition FREE : Z := 0.

Record t := mk { locked_state : Z }.

Definition lock (l : t) : t * Z :=
  if bool_decide (locked_state l ≠ FREE) then (l, 1) else (mk WRITER, 0).
Definition unlock (_ : t) : t * Z := (mk FREE, 0).
Definition lock_shared (l : t) : t * Z :=
  if bool_decide (locked_state l = WRITER) then (l, 1)
  else (mk (int32 (locked_state l + READER)), 0).
Definition unlock_shared (l : t) : t * Z := (mk (int32 (locked_state l - READER)), 0).

Definition methods : MethodMap t Args ValueWrapper :=
  {[ "lock" := λ l _, let '(l, r) := lock l in (l, IntValue r);
     "unlock" := λ l _, let '(l, r) := unlock l in (l, IntValue r);
     "lock_shared" := λ l _, let '(l, r) := lock_shared l in (l, IntValue r);
     "unlock_shared" := λ l _, let '(l, r) := unlock_shared l in (l, IntValue r) ]}.

Definition SharedLinearMutexHash (_ : t) : Z := 0.
Definition SharedLinearMutexEquals (_ _ : t) : bool := false.

Definition spec : Spec t := mkSpec methods (mk FREE) SharedLinearMutexHash SharedLinearMutexEquals.

#[export] Instance sharedlinearmutex_congruence : SpecCongruence (GetMethods spec) (SpecEquals spec) eq.
Proof. solve_spec_congruence. Qed.
End SharedLinearMutex.

Module LinearBank.
Definition INIT : Z := 100.
Definition SIZE : nat := 2.

Record t := mk { cells : list Z }.

Definition initial : t := mk (replicate SIZE (INIT / 2)).

(** [cells[i]]; an index outside the deque is undefined. *)
Definition cell (l : t) (i : Z) : outcome Z :=
  if bool_decide (0 ≤ i) then deref (cells l !! Z.to_nat i) else UB.
Definition set_cell (l : t) (i v : Z) : t := mk (<[Z.to_nat i := v]> (cells l)).

(** [count] is a [size_t], so [cells[i]] is converted to 64 unsigned bits
    for the sums and the comparison, and the sum back to [int]. *)
Definition Add (l : t) (i count : Z) : outcome t :=
  c ← cell l i;
  Ret (set_cell l i (int32 (u64 (u64 c + count)))).

Definition Read (l : t) (i : Z) : outcome Z := cell l i.

Definition Transfer (l : t) (i j count : Z) : outcome (t * Z) :=
  ci ← cell l i;
  if bool_decide (u64 ci < count) then Ret (l, 0)
  else
    let l := set_cell l i (int32 (u64 (u64 ci - count))) in
    cj ← cell l j;
    Ret (set_cell l j (int32 (u64 (u64 cj + count))), 1).

Definition ReadBoth (l : t) (i j : Z) : outcome Z :=
  ci ← cell l i; cj ← cell l j; Ret (int32 (ci + cj)).

(** An undefined call has no result to give; the table is only applied to
    indices in range. *)
Definition defined {A} (o : outcome A) (d : A) : A := match o with Ret a => a | _ => d end.

Definition methods : MethodMap t Args ValueWrapper :=
  {[ "Add" := λ l args, (defined (Add l (arg 0 args) (arg 1 args)) l, VoidValue);
     "Read" := λ l args, (l, defined (IntValue <$> Read l (arg 0 args)) NoValue);
     "Transfer" := λ l args,
       let '(l, r) := defined (Transfer l (arg 0 args) (arg 1 args) (arg 2 args)) (l, 0) in
       (l, IntValue r);
     "ReadBoth" := λ l args,
       (l, defined (IntValue <$> ReadBoth l (arg 0 args) (arg 1 args)) NoValue) ]}.

Definition LinearBankHash (r : t) : Z := foldl (λ hash cell, u64 (hash + u64 cell)) 0 (cells r).
Definition LinearBankEquals (lhs rhs : t) : bool := bool_decide (cells lhs = cells rhs).

Definition spec : Spec t := mkSpec methods initial LinearBankHash LinearBankEquals.

#[export] Instance linearbank_congruence : SpecCongruence (GetMethods spec) (SpecEquals spec) eq.
Proof. solve_spec_congruence. Qed.
End LinearBank.

(** ** The queue is first in, first out *)
Section Fifo.

Definition pushed (calls : list (string * Args)) : list Z :=
  omap (λ c, if bool_decide (c.1 = "Push") then Some (arg 0 c.2) else None) calls.

(** The results of the [Pop]s that found an element; an empty queue answers
    0, so these are the non-zero results when only non-zero values are
    pushed. *)
Definition popped (vs : list ValueWrapper) : list Z :=
  omap (λ v, match v with IntValue x => if bool_decide (x = 0) then None else Some x | _ => None end) vs.

Lemma queue_call name s v m :
  GetMethods Queue.spec !! name = Some m →
  name = "Push" ∧ m s v = (Queue.Push s (arg 0 v), VoidValue) ∨
  name = "Pop" ∧ m s v = ((Queue.Pop s).1, IntValue (Queue.Pop s).2).
Proof.
  intros Hm. unfold Queue.spec, Queue.methods in Hm. cbn [GetMethods] in Hm.
  method_cases Hm; [by left|right]. by destruct (Queue.Pop s).
Qed.

Lemma queue_run calls s s' vs :
  Forall (.≠ 0) (Queue.deq s ++ pushed calls) →
  run_calls Queue.spec calls s = Some (s', vs) →
  Queue.deq s ++ pushed calls = popped vs ++ Queue.deq s'.
Proof.
  revert s vs. induction calls as [|[name args] calls IH]; intros s vs Hnz Hrun; cbn [run_calls] in Hrun.
  { simplify_eq. cbn. by rewrite app_nil_r. }
  destruct (GetMethods Queue.spec !! name) as [m|] eqn:Hm; [|done]. simpl in Hrun.
  destruct (queue_call name s args m Hm) as [[-> Hc]|[-> Hc]]; rewrite Hc in Hrun.
  - destruct (run_calls _ _ _) as [[s1 vs1]|] eqn:Hr; simplify_eq/=.
    cbn in Hnz |- *. rewrite (cons_middle _ (Queue.deq s)), assoc in Hnz |- * by apply _.
    by apply (IH (Queue.Push s (arg 0 args))).
  - destruct (run_calls _ _ _) as [[s1 vs1]|] eqn:Hr; simplify_eq/=.
    cbn in Hnz |- *. unfold Queue.Pop in *. destruct s as [[|x l]]; simpl in *.
    + by apply (IH (Queue.mk [])).
    + apply Forall_cons in Hnz as [Hx Hnz]. rewrite bool_decide_false by done. simpl.
      f_equal. by apply (IH (Queue.mk l)).
Qed.
End Fifo.

(** The queue specification is first in, first out: the results of the
    successful [Pop]s, followed by what is left in the queue, are the pushed
    values in the order in which they were pushed. *)
Theorem queue_spec_fifo calls s' vs :
  Forall (.≠ 0) (pushed calls) →
  run_calls Queue.spec calls (spec_init Queue.spec) = Some (s', vs) →
  pushed calls = popped vs ++ Queue.deq s'.
Proof. apply (queue_run calls (Queue.mk [])). Qed.

(** ** The stack is last in, first out *)

(** Sequences of calls in which every [Push] has its [Pop]. *)
Inductive balanced : list (string * Args) → Prop :=
  | balanced_nil : balanced []
  | balanced_wrap args args' inner rest :
      balanced inner → balanced rest →
      balanced (("Push", args) :: inner ++ ("Pop", args') :: rest).

Lemma run_calls_app {St} (sp : Spec St) c1 c2 s s1 vs1 :
  run_calls sp c1 s = Some (s1, vs1) →
  run_calls sp (c1 ++ c2) s = (λ '(s2, vs2), (s2, vs1 ++ vs2)) <$> run_calls sp c2 s1.
Proof.
  revert s vs1. induction c1 as [|[name args] c1 IH]; intros s vs1 Hrun; simpl in *.
  { simplify_eq. by destruct (run_calls sp c2 s1) as [[]|]. }
  destruct (GetMethods sp !! name) as [m|]; [|done]. simpl in *.
  destruct (m s args) as [s' v]. destruct (run_calls sp c1 s') as [[s2 vs2]|] eqn:Hr; [|done].
  simplify_eq/=. rewrite (IH _ _ Hr). by destruct (run_calls sp c2 s1) as [[]|].
Qed.

Lemma run_calls_cons {St} (sp : Spec St) name args c s m s' v :
  GetMethods sp !! name = Some m → m s args = (s', v) →
  run_calls sp ((name, args) :: c) s = (λ '(s2, vs), (s2, v :: vs)) <$> run_calls sp c s'.
Proof. intros Hm Hs. simpl. rewrite Hm. simpl. rewrite Hs. by destruct (run_calls sp c s') as [[]|]. Qed.

Lemma stack_push_run args c s :
  run_calls Stack.spec (("Push", args) :: c) s =
  (λ '(s2, vs), (s2, VoidValue :: vs)) <$> run_calls Stack.spec c (Stack.Push s (arg 0 args)).
Proof. by eapply run_calls_cons. Qed.

Lemma stack_pop_run args c s v :
  run_calls Stack.spec (("Pop", args) :: c) (Stack.Push s v) =
  (λ '(s2, vs), (s2, IntValue v :: vs)) <$> run_calls Stack.spec c s.
Proof. destruct s. by eapply run_calls_cons. Qed.

Lemma balanced_run calls s :
  balanced calls → ∃ vs, run_calls Stack.spec calls s = Some (s, vs).
Proof.
  intros Hb. revert s. induction Hb as [|args args' inner rest _ IH1 _ IH2];
    intros s; [by exists []|].
  destruct (IH1 (Stack.Push s (arg 0 args))) as [vs1 H1]. destruct (IH2 s) as [vs2 H2].
  exists (VoidValue :: vs1 ++ IntValue (arg 0 args) :: vs2).
  by rewrite stack_push_run, (run_calls_app _ _ _ _ _ _ H1), stack_pop_run, H2.
Qed.

(** The stack specification is last in, first out: a [Pop] returns the
    value of the matching [Push], whatever balanced calls are between them,
    and leaves the stack as it was before that [Push]. *)
Theorem stack_spec_lifo s args args' inner :
  balanced inner →
  ∃ vs, run_calls Stack.spec (("Push", args) :: inner ++ [("Pop", args')]) s =
        Some (s, vs) ∧ last vs = Some (IntValue (arg 0 args)).
Proof.
  intros Hb. destruct (balanced_run inner (Stack.Push s (arg 0 args)) Hb) as [vs Hvs].
  exists (VoidValue :: vs ++ [IntValue (arg 0 args)]).
  rewrite stack_push_run, (run_calls_app _ _ _ _ _ _ Hvs), stack_pop_run. split; [done|].
  by rewrite app_comm_cons, last_snoc.
Qed.

(** ** The bank keeps its money *)
Section Bank.
Import LinearBank.
Implicit Types (l : t).

Definition total l : Z := foldr Z.add 0 (cells l).
Definition solvent l : Prop := Forall (λ c, 0 ≤ c) (cells l) ∧ total l < 2 ^ 31.

Lemma sum_insert (cs : list Z) i c v :
  cs !! i = Some c → foldr Z.add 0 (<[i:=v]> cs) = foldr Z.add 0 cs - c + v.
Proof.
  revert i. induction cs as [|d cs IH]; intros [|i] Hi; simplify_eq/=; [lia|].
  rewrite (IH i Hi). lia.
Qed.

Lemma sum_lookup_le (cs : list Z) i c :
  Forall (λ c, 0 ≤ c) cs → cs !! i = Some c → 0 ≤ c ≤ foldr Z.add 0 cs.
Proof.
  intros Hf. revert i. induction Hf as [|d cs Hd Hf IH]; intros [|i] Hi; simplify_eq/=.
  - enough (0 ≤ foldr Z.add 0 cs) by lia. clear -Hf. induction Hf; simpl; lia.
  - specialize (IH i Hi). lia.
Qed.

Lemma int32_id z : - 2 ^ 31 ≤ z < 2 ^ 31 → int32 z = z.
Proof. intros Hz. unfold int32. rewrite Z.mod_small; lia. Qed.

Lemma u64_id z : 0 ≤ z < 2 ^ 64 → u64 z = z.
Proof. intros Hz. unfold u64. by rewrite Z.mod_small. Qed.

Lemma cell_ret l i c : cell l i = Ret c ↔ 0 ≤ i ∧ cells l !! Z.to_nat i = Some c.
Proof.
  unfold cell. case_bool_decide; [rewrite deref_ret; naive_solver|naive_solver].
Qed.

(** [Transfer] on a bank whose cells are non-negative and whose total
    fits an [int] (as at the start) answers 1 exactly when the source cell
    covers the amount; either way the total is unchanged and no cell becomes
    negative, also when source and target are the same cell. *)
Theorem bank_transfer_conserves l i j count ci cj :
  solvent l → 0 ≤ count < 2 ^ 64 → cell l i = Ret ci → cell l j = Ret cj →
  ∃ l' r, Transfer l i j count = Ret (l', r) ∧ solvent l' ∧ total l' = total l ∧
    (r = 1 ↔ count ≤ ci) ∧ (r = 0 ↔ ci < count) ∧
    (i ≠ j → r = 1 → cell l' i = Ret (ci - count) ∧ cell l' j = Ret (cj + count)).
Proof.
  intros [Hnn Ht] Hc Hci Hcj. unfold Transfer. rewrite Hci. simpl.
  apply cell_ret in Hci as [Hi Hli]. apply cell_ret in Hcj as [Hj Hlj].
  pose proof (sum_lookup_le _ _ _ Hnn Hli) as Bi. fold (total l) in Bi.
  pose proof (sum_lookup_le _ _ _ Hnn Hlj) as Bj. fold (total l) in Bj.
  rewrite (u64_id ci) by lia. case_bool_decide as Hlt.
  { exists l, 0. split_and!; try done; try lia. }
  rewrite (u64_id (ci - count)), (int32_id (ci - count)) by lia.
  set (l1 := set_cell l i (ci - count)).
  assert (H1 : Forall (λ c, 0 ≤ c) (cells l1)) by (apply Forall_insert; [done|lia]).
  assert (T1 : total l1 = total l - count).
  { unfold total, l1. simpl. rewrite (sum_insert _ _ _ _ Hli). lia. }
  assert (∃ c1, cells l1 !! Z.to_nat j = Some c1 ∧ (i ≠ j → c1 = cj)) as (c1&Hc1&Hne).
  { destruct (decide (i = j)) as [->|Hij].
    - exists (ci - count). split; [|done]. apply list_lookup_insert_eq.
      by eapply lookup_lt_Some.
    - exists cj. split; [|done]. simpl. rewrite list_lookup_insert_ne; [done|lia]. }
  assert (Hcell : cell l1 j = Ret c1) by (by apply cell_ret). rewrite Hcell. simpl.
  pose proof (sum_lookup_le _ _ _ H1 Hc1) as B1. fold (total l1) in B1.
  rewrite (u64_id c1), (u64_id (c1 + count)), (int32_id (c1 + count)) by lia.
  set (l2 := set_cell l1 j (c1 + count)).
  assert (T2 : total l2 = total l).
  { change (total l2) with (foldr Z.add 0 (<[Z.to_nat j := c1 + count]> (cells l1))).
    rewrite (sum_insert _ _ _ _ Hc1). fold (total l1). lia. }
  exists l2, 1. split_and!; [done| |done|lia|lia|].
  - split; [apply Forall_insert; [done|lia]|lia].
  - intros Hij _. rewrite !cell_ret. simpl. rewrite list_lookup_insert_ne by lia.
    rewrite !list_lookup_insert_eq; [by rewrite Hne|..].
    + rewrite length_insert. by eapply lookup_lt_Some.
    + by eapply lookup_lt_Some.
Qed.
End Bank.
