(* ===== verification/SpecsDual.v ===== *)
(** * Dual specifications

    Models the dual specifications of verifying/specs: coro_async_stack.h,
    coroutine_queue.h, the directories libcoro and folly, and the ticket
    stack dual_stack_split.h. A blocking operation is a request, which
    registers the operation under its id or matches it, and a follow-up,
    which delivers the result once it is there. [GetWorkloadPolicy] of each
    specification is the input of the verifier of strategy_verifier.h.

    A container used as a stack ([push_back], [back], [pop_back]) is listed
    from its back, one used as a queue ([push_back], [front], [pop_front])
    from its front. An unordered set or map keyed by operation ids is a
    [gset] or a [gmap]. *)
From stdpp Require Import base list gmap strings relations.
From Stdlib Require Import ZArith.
From S2P Require Import Prelude LinSpec Events History Search LincheckDual Checkers Specs Verifier.
Open Scope Z_scope.

Record DualSpec (St : Type) := mkDualSpec {
  GetDualMethods : DualMethodMap St Args ValueWrapper;
  dual_init : St;
  DualEquals : St → St → bool;
  GetWorkloadPolicy : WorkloadPolicy;
}.
Arguments mkDualSpec {St} _ _ _ _.
Arguments GetDualMethods {St} _.
Arguments dual_init {St} _.
Arguments DualEquals {St} _ _ _.
Arguments GetWorkloadPolicy {St} _.

Lemma dual_congruence_eq {St} (sp : DualSpec St) :
  (∀ s t, DualEquals sp s t = true → s = t) →
  DualSpecCongruence (GetDualMethods sp) (DualEquals sp) eq.
Proof.
  intros He. split; [apply _|done|]. intros name m _ s t <-. by destruct m.
Qed.

(** The follow-up of an operation in a set of ready ids. *)
Definition follow_up_set {St} (ready : St → gset Z) (set_ready : St → gset Z → St)
    (result : ValueWrapper) (s : St) (op_id : Z) : option ValueWrapper * St :=
  if bool_decide (op_id ∈ ready s)
  then (Some result, set_ready s (ready s ∖ {[op_id]})) else (None, s).

(** The follow-up of an operation in a map of ready values. *)
Definition follow_up_map {St} (ready : St → gmap Z Z) (set_ready : St → gmap Z Z → St)
    (result : Z → ValueWrapper) (s : St) (op_id : Z) : option ValueWrapper * St :=
  match ready s !! op_id with
  | None => (None, s)
  | Some v => (Some (result v), set_ready s (delete op_id (ready s)))
  end.

Definition reserve_rule (wait : string) (progress : list string) : ReserveRule :=
  mkReserve wait progress 1.
Definition budget_rule (wait : string) (progress : list string) (credit : Z) : PrefixBudgetRule :=
  mkBudget wait progress 1 credit.
Definition policy (r : list ReserveRule) (b : list PrefixBudgetRule) : WorkloadPolicy :=
  mkPolicy r b [] [] [].

(** ** coro_async_stack.h *)
Module CoroAsyncStack.
Record t := mk { values : list Z; waiting_pops : list Z; ready_pop_value : gmap Z Z }.

Definition Push (s : t) (v : Z) : t :=
  match waiting_pops s with
  | pop_id :: rest => mk (values s) rest (<[pop_id := v]> (ready_pop_value s))
  | [] => mk (v :: values s) [] (ready_pop_value s)
  end.

Definition RequestPop (s : t) (op_id : Z) : t :=
  match values s with
  | v :: rest => mk rest (waiting_pops s) (<[op_id := v]> (ready_pop_value s))
  | [] => mk [] (op_id :: waiting_pops s) (ready_pop_value s)
  end.

Definition FollowUpPop : t → Z → option ValueWrapper * t :=
  follow_up_map ready_pop_value (λ s r, mk (values s) (waiting_pops s) r) IntValue.

Definition methods : DualMethodMap t Args ValueWrapper :=
  {[ "push" := DualNonBlockingMethod (λ s args, (Push s (arg 0 args), VoidValue));
     "pop" := DualBlockingMethod (λ s _ op_id, RequestPop s op_id)
                                 (λ s _ op_id, FollowUpPop s op_id) ]}.

Definition Equals (a b : t) : bool :=
  bool_decide (values a = values b) && bool_decide (waiting_pops a = waiting_pops b) &&
  bool_decide (ready_pop_value a = ready_pop_value b).

Definition workload : WorkloadPolicy :=
  policy [reserve_rule "pop" ["push"]] [budget_rule "pop" ["push"] 0].

Definition spec : DualSpec t := mkDualSpec methods (mk [] [] ∅) Equals workload.
End CoroAsyncStack.

(** ** coroutine_queue.h *)
Module CoroutineQueue.
Record t := mk {
  waiting_receives : list Z;
  waiting_sends : list (Z * Z);
  ready_receive_value : gmap Z Z;
  ready_send : gset Z;
}.

Definition RequestSend (s : t) (op_id v : Z) : t :=
  match waiting_receives s with
  | recv_id :: rest =>
      mk rest (waiting_sends s) (<[recv_id := v]> (ready_receive_value s)) ({[op_id]} ∪ ready_send s)
  | [] => mk [] (waiting_sends s ++ [(op_id, v)]) (ready_receive_value s) (ready_send s)
  end.

Definition RequestReceive (s : t) (op_id : Z) : t :=
  match waiting_sends s with
  | (send_id, v) :: rest =>
      mk (waiting_receives s) rest (<[op_id := v]> (ready_receive_value s)) ({[send_id]} ∪ ready_send s)
  | [] => mk (waiting_receives s ++ [op_id]) [] (ready_receive_value s) (ready_send s)
  end.

Definition FollowUpSend : t → Z → option ValueWrapper * t :=
  follow_up_set ready_send
    (λ s r, mk (waiting_receives s) (waiting_sends s) (ready_receive_value s) r) VoidValue.
Definition FollowUpReceive : t → Z → option ValueWrapper * t :=
  follow_up_map ready_receive_value
    (λ s r, mk (waiting_receives s) (waiting_sends s) r (ready_send s)) IntValue.

Definition methods : DualMethodMap t Args ValueWrapper :=
  {[ "send" := DualBlockingMethod (λ s args op_id, RequestSend s op_id (arg 0 args))
                                  (λ s _ op_id, FollowUpSend s op_id);
     "receive" := DualBlockingMethod (λ s _ op_id, RequestReceive s op_id)
                                     (λ s _ op_id, FollowUpReceive s op_id) ]}.

Definition Equals (a b : t) : bool :=
  bool_decide (waiting_receives a = waiting_receives b) &&
  bool_decide (waiting_sends a = waiting_sends b) &&
  bool_decide (ready_receive_value a = ready_receive_value b) &&
  bool_decide (ready_send a = ready_send b).

Definition workload : WorkloadPolicy :=
  policy [reserve_rule "receive" ["send"]; reserve_rule "send" ["receive"]] [].

Definition spec : DualSpec t := mkDualSpec methods (mk [] [] ∅ ∅) Equals workload.
End CoroutineQueue.

(** ** libcoro/event.h *)
Module LibcoroEvent.
Record t := mk { is_set : bool; waiting : gset Z; ready : gset Z }.

Definition Set_ (s : t) : t := mk true ∅ (waiting s ∪ ready s).
Definition Reset (s : t) : t := mk false (waiting s) (ready s).
Definition IsSet (s : t) : bool := is_set s.

Definition RequestWait (s : t) (op_id : Z) : t :=
  if is_set s then mk (is_set s) (waiting s) ({[op_id]} ∪ ready s)
  else mk (is_set s) ({[op_id]} ∪ waiting s) (ready s).

Definition FollowUpWait : t → Z → option ValueWrapper * t :=
  follow_up_set ready (λ s r, mk (is_set s) (waiting s) r) VoidValue.

Definition methods : DualMethodMap t Args ValueWrapper :=
  {[ "set" := DualNonBlockingMethod (λ s _, (Set_ s, VoidValue));
     "reset" := DualNonBlockingMethod (λ s _, (Reset s, VoidValue));
     "is_set" := DualNonBlockingMethod (λ s _, (s, BoolValue (IsSet s)));
     "wait" := DualBlockingMethod (λ s _ op_id, RequestWait s op_id)
                                  (λ s _ op_id, FollowUpWait s op_id) ]}.

Definition Equals (a b : t) : bool :=
  bool_decide (is_set a = is_set b) && bool_decide (waiting a = waiting b) &&
  bool_decide (ready a = ready b).

Definition workload : WorkloadPolicy := policy [] [budget_rule "wait" ["set"] 0].

Definition spec : DualSpec t := mkDualSpec methods (mk false ∅ ∅) Equals workload.
End LibcoroEvent.

(** ** libcoro/latch.h *)
Module LibcoroLatch.
Definition kInitial : Z := 2.

Record t := mk { remaining : Z; waiting : gset Z; ready : gset Z }.

(** [remaining] is an [int64_t]. *)
Definition int64 (z : Z) : Z := (z + 2 ^ 63) mod 2 ^ 64 - 2 ^ 63.

Definition CountDown (s : t) (n : Z) : t :=
  let remaining := int64 (remaining s - n) in
  if bool_decide (remaining ≤ 0) then mk remaining ∅ (waiting s ∪ ready s)
  else mk remaining (waiting s) (ready s).

Definition Remaining (s : t) : Z := u64 (remaining s).
Definition IsReady (s : t) : bool := bool_decide (remaining s ≤ 0).

Definition RequestWait (s : t) (op_id : Z) : t :=
  if bool_decide (remaining s ≤ 0) then mk (remaining s) (waiting s) ({[op_id]} ∪ ready s)
  else mk (remaining s) ({[op_id]} ∪ waiting s) (ready s).

Definition FollowUpWait : t → Z → option ValueWrapper * t :=
  follow_up_set ready (λ s r, mk (remaining s) (waiting s) r) VoidValue.

Definition methods : DualMethodMap t Args ValueWrapper :=
  {[ "count_down" := DualNonBlockingMethod (λ s args, (CountDown s (arg 0 args), VoidValue));
     "remaining" := DualNonBlockingMethod (λ s _, (s, SizeValue (Remaining s)));
     "is_ready" := DualNonBlockingMethod (λ s _, (s, BoolValue (IsReady s)));
     "wait" := DualBlockingMethod (λ s _ op_id, RequestWait s op_id)
                                  (λ s _ op_id, FollowUpWait s op_id) ]}.

Definition Equals (a b : t) : bool :=
  bool_decide (remaining a = remaining b) && bool_decide (waiting a = waiting b) &&
  bool_decide (ready a = ready b).

Definition workload : WorkloadPolicy := policy [reserve_rule "wait" ["count_down"]] [].

Definition spec : DualSpec t := mkDualSpec methods (mk kInitial ∅ ∅) Equals workload.
End LibcoroLatch.
