(* ===== verification/SpecsLocks.v ===== *)
(** * Dual specifications of locks and semaphores

    Models libcoro/mutex.h, folly/coro_mutex.h, libcoro/semaphore.h,
    libcoro/shared_mutex.h and folly/coro_shared_mutex.h of verifying/specs. *)
From stdpp Require Import base list gmap strings relations.
From Stdlib Require Import ZArith.
From S2P Require Import Prelude LinSpec Events History Search LincheckDual Checkers Specs Verifier.
From S2P Require Import SpecsDual.
Open Scope Z_scope.

(** ** libcoro/mutex.h and folly/coro_mutex.h

    The two specifications differ in the order in which waiters get the
    lock: the newest first ([LibcoroMutex]) or the oldest first
    ([FollyCoroMutex]). [waiting_locks] is listed in that order, and
    [enqueue] is the order's way to add a waiter. *)
Module CoroMutex.
Record t := mk { locked : bool; waiting_locks : list Z; ready_locks : gset Z }.

Section Operations.
Context (enqueue : list Z → Z → list Z).

Definition TryLock (s : t) : t * bool :=
  if locked s then (s, false) else (mk true (waiting_locks s) (ready_locks s), true).

Definition Unlock (s : t) : t :=
  match waiting_locks s with
  | op_id :: rest => mk true rest ({[op_id]} ∪ ready_locks s)
  | [] => mk false [] (ready_locks s)
  end.

Definition RequestLock (s : t) (op_id : Z) : t :=
  if locked s then mk (locked s) (enqueue (waiting_locks s) op_id) (ready_locks s)
  else mk true (waiting_locks s) ({[op_id]} ∪ ready_locks s).

Definition FollowUpLock : t → Z → option ValueWrapper * t :=
  follow_up_set ready_locks (λ s r, mk (locked s) (waiting_locks s) r) VoidValue.

Definition methods : DualMethodMap t Args ValueWrapper :=
  {[ "try_lock" := DualNonBlockingMethod (λ s _, let '(s, b) := TryLock s in (s, BoolValue b));
     "unlock" := DualNonBlockingMethod (λ s _, (Unlock s, VoidValue));
     "lock" := DualBlockingMethod (λ s _ op_id, RequestLock s op_id)
                                  (λ s _ op_id, FollowUpLock s op_id) ]}.

Definition Equals (a b : t) : bool :=
  bool_decide (locked a = locked b) && bool_decide (waiting_locks a = waiting_locks b) &&
  bool_decide (ready_locks a = ready_locks b).

Definition workload : WorkloadPolicy := policy [reserve_rule "lock" ["unlock"]] [].

Definition spec : DualSpec t := mkDualSpec methods (mk false [] ∅) Equals workload.
End Operations.
End CoroMutex.

Definition lifo (w : list Z) (op_id : Z) : list Z := op_id :: w.
Definition fifo (w : list Z) (op_id : Z) : list Z := w ++ [op_id].

Definition LibcoroMutex : DualSpec CoroMutex.t := CoroMutex.spec lifo.
Definition FollyCoroMutex : DualSpec CoroMutex.t := CoroMutex.spec fifo.

(** ** libcoro/semaphore.h *)
Module LibcoroSemaphore.
Definition kMax : Z := 2.
Definition kInitial : Z := 1.

Record t := mk {
  available : Z;
  shutdown : bool;
  waiting : list Z;
  ready_acquired : gset Z;
  ready_shutdown : gset Z;
}.

Definition TryAcquire (s : t) : t * bool :=
  if bool_decide (available s ≤ 0) then (s, false)
  else (mk (available s - 1) (shutdown s) (waiting s) (ready_acquired s) (ready_shutdown s), true).

Definition Release (s : t) : t :=
  if bool_decide (available s >= kMax) then s
  else match waiting s with
       | op_id :: rest =>
           mk (available s) (shutdown s) rest ({[op_id]} ∪ ready_acquired s) (ready_shutdown s)
       | [] => mk (available s + 1) (shutdown s) [] (ready_acquired s) (ready_shutdown s)
       end.

Definition Shutdown (s : t) : t :=
  if shutdown s then s
  else mk (available s) true [] (ready_acquired s) (list_to_set (waiting s) ∪ ready_shutdown s).

Definition RequestAcquire (s : t) (op_id : Z) : t :=
  if shutdown s then
    mk (available s) (shutdown s) (waiting s) (ready_acquired s) ({[op_id]} ∪ ready_shutdown s)
  else if bool_decide (available s > 0) then
    mk (available s - 1) (shutdown s) (waiting s) ({[op_id]} ∪ ready_acquired s) (ready_shutdown s)
  else mk (available s) (shutdown s) (op_id :: waiting s) (ready_acquired s) (ready_shutdown s).

Definition FollowUpAcquire (s : t) (op_id : Z) : option ValueWrapper * t :=
  if bool_decide (op_id ∈ ready_acquired s) then
    (Some (SemaphoreResult true),
     mk (available s) (shutdown s) (waiting s) (ready_acquired s ∖ {[op_id]}) (ready_shutdown s))
  else if bool_decide (op_id ∈ ready_shutdown s) then
    (Some (SemaphoreResult false),
     mk (available s) (shutdown s) (waiting s) (ready_acquired s) (ready_shutdown s ∖ {[op_id]}))
  else (None, s).

Definition methods : DualMethodMap t Args ValueWrapper :=
  {[ "try_acquire" :=
       DualNonBlockingMethod (λ s _, let '(s, b) := TryAcquire s in (s, BoolValue b));
     "release" := DualNonBlockingMethod (λ s _, (Release s, VoidValue));
     "shutdown" := DualNonBlockingMethod (λ s _, (Shutdown s, VoidValue));
     "is_shutdown" := DualNonBlockingMethod (λ s _, (s, BoolValue (shutdown s)));
     "value" := DualNonBlockingMethod (λ s _, (s, SizeValue (available s)));
     "max" := DualNonBlockingMethod (λ s _, (s, SizeValue kMax));
     "acquire" := DualBlockingMethod (λ s _ op_id, RequestAcquire s op_id)
                                     (λ s _ op_id, FollowUpAcquire s op_id) ]}.

Definition Equals (a b : t) : bool :=
  bool_decide (available a = available b) && bool_decide (shutdown a = shutdown b) &&
  bool_decide (waiting a = waiting b) && bool_decide (ready_acquired a = ready_acquired b) &&
  bool_decide (ready_shutdown a = ready_shutdown b).

Definition workload : WorkloadPolicy :=
  policy [reserve_rule "acquire" ["release"; "shutdown"]]
         [budget_rule "acquire" ["release"; "shutdown"] kInitial].

Definition spec : DualSpec t := mkDualSpec methods (mk kInitial false [] ∅ ∅) Equals workload.
End LibcoroSemaphore.

(** ** libcoro/shared_mutex.h *)
Record Waiter := mkWaiter { op_id : Z; exclusive : bool }.

#[export] Instance Waiter_eq_dec : EqDecision Waiter.
Proof. solve_decision. Defined.

(** The shared waiters at the front of the queue, and what follows them. *)
Fixpoint split_shared (ws : list Waiter) : list Z * list Waiter :=
  match ws with
  | [] => ([], [])
  | w :: ws =>
      if exclusive w then ([], w :: ws)
      else let '(ids, rest) := split_shared ws in (op_id w :: ids, rest)
  end.

(** The state of libcoro/shared_mutex.h and of folly/coro_shared_mutex.h. *)
Record shared_state := mkShared {
  active_readers : Z;
  writer_active : bool;
  waiters : list Waiter;
  ready_locks : gset Z;
  ready_shared_locks : gset Z;
}.

Definition shared_equals (a b : shared_state) : bool :=
  bool_decide (active_readers a = active_readers b) &&
  bool_decide (writer_active a = writer_active b) &&
  bool_decide (waiters a = waiters b) && bool_decide (ready_locks a = ready_locks b) &&
  bool_decide (ready_shared_locks a = ready_shared_locks b).

Definition enqueue (s : shared_state) (w : Waiter) : shared_state :=
  mkShared (active_readers s) (writer_active s) (waiters s ++ [w]) (ready_locks s)
    (ready_shared_locks s).

Module LibcoroSharedMutex.

Definition HasExclusiveWaiter (s : shared_state) : bool := existsb exclusive (waiters s).

(** The loop of the source pops the shared waiters at the front one by one;
    [split_shared] collects them. *)
Definition WakeNextWaiters (s : shared_state) : shared_state :=
  if writer_active s || bool_decide (active_readers s ≠ 0) || bool_decide (waiters s = []) then s
  else match waiters s with
       | mkWaiter id true :: rest =>
           mkShared (active_readers s) true rest ({[id]} ∪ ready_locks s) (ready_shared_locks s)
       | ws =>
           let '(ids, rest) := split_shared ws in
           mkShared (active_readers s + Z.of_nat (length ids)) (writer_active s) rest
             (ready_locks s) (list_to_set ids ∪ ready_shared_locks s)
       end.

Definition RequestLock (s : shared_state) (id : Z) : shared_state :=
  if negb (writer_active s) && bool_decide (active_readers s = 0) then
    mkShared (active_readers s) true (waiters s) ({[id]} ∪ ready_locks s) (ready_shared_locks s)
  else enqueue s (mkWaiter id true).

Definition FollowUpLock : shared_state → Z → option ValueWrapper * shared_state :=
  follow_up_set ready_locks
    (λ s r, mkShared (active_readers s) (writer_active s) (waiters s) r (ready_shared_locks s))
    VoidValue.

Definition RequestLockShared (s : shared_state) (id : Z) : shared_state :=
  if negb (writer_active s) && negb (HasExclusiveWaiter s) then
    mkShared (active_readers s + 1) (writer_active s) (waiters s) (ready_locks s)
      ({[id]} ∪ ready_shared_locks s)
  else enqueue s (mkWaiter id false).

Definition FollowUpLockShared : shared_state → Z → option ValueWrapper * shared_state :=
  follow_up_set ready_shared_locks
    (λ s r, mkShared (active_readers s) (writer_active s) (waiters s) (ready_locks s) r) VoidValue.

Definition Unlock (s : shared_state) : shared_state :=
  WakeNextWaiters (mkShared (active_readers s) false (waiters s) (ready_locks s) (ready_shared_locks s)).

Definition UnlockShared (s : shared_state) : shared_state :=
  let s := if bool_decide (active_readers s > 0)
           then mkShared (active_readers s - 1) (writer_active s) (waiters s) (ready_locks s)
                  (ready_shared_locks s)
           else s in
  if bool_decide (active_readers s = 0) then WakeNextWaiters s else s.

Definition methods : DualMethodMap shared_state Args ValueWrapper :=
  {[ "lock" := DualBlockingMethod (λ s _ id, RequestLock s id) (λ s _ id, FollowUpLock s id);
     "lock_shared" := DualBlockingMethod (λ s _ id, RequestLockShared s id)
                                         (λ s _ id, FollowUpLockShared s id);
     "unlock" := DualNonBlockingMethod (λ s _, (Unlock s, VoidValue));
     "unlock_shared" := DualNonBlockingMethod (λ s _, (UnlockShared s, VoidValue)) ]}.

(** The specification has no workload policy. *)
Definition spec : DualSpec shared_state :=
  mkDualSpec methods (mkShared 0 false [] ∅ ∅) shared_equals (policy [] []).
End LibcoroSharedMutex.

(** ** folly/coro_shared_mutex.h *)
Module FollyCoroSharedMutex.

Definition quiet (s : shared_state) : bool :=
  bool_decide (ready_locks s = ∅) && bool_decide (ready_shared_locks s = ∅).

Definition CanTryLock (s : shared_state) : bool :=
  negb (writer_active s) && bool_decide (active_readers s = 0) && bool_decide (waiters s = []) &&
  quiet s.
Definition CanTryLockShared (s : shared_state) : bool :=
  negb (writer_active s) && bool_decide (ready_locks s = ∅).

Definition WakeNextWaiters (s : shared_state) : shared_state :=
  if writer_active s || bool_decide (active_readers s ≠ 0) || negb (quiet s) ||
     bool_decide (waiters s = []) then s
  else match waiters s with
       | mkWaiter id true :: rest =>
           mkShared (active_readers s) (writer_active s) rest ({[id]} ∪ ready_locks s)
             (ready_shared_locks s)
       | ws =>
           let '(ids, rest) := split_shared ws in
           mkShared (active_readers s) (writer_active s) rest (ready_locks s)
             (list_to_set ids ∪ ready_shared_locks s)
       end.

Definition set_writer (s : shared_state) (b : bool) : shared_state :=
  mkShared (active_readers s) b (waiters s) (ready_locks s) (ready_shared_locks s).
Definition add_readers (s : shared_state) (n : Z) : shared_state :=
  mkShared (active_readers s + n) (writer_active s) (waiters s) (ready_locks s)
    (ready_shared_locks s).

Definition TryLock (s : shared_state) : shared_state * bool :=
  if CanTryLock s then (set_writer s true, true) else (s, false).
Definition TryLockShared (s : shared_state) : shared_state * bool :=
  if CanTryLockShared s then (add_readers s 1, true) else (s, false).

(** A recorded failure is always explained; a success, or an operation
    without a result, has to succeed in the specification. *)
Definition CheckTryLock (s : shared_state) (result : option ValueWrapper) : bool * shared_state :=
  if bool_decide (result = Some (BoolValue false)) then (true, s)
  else let '(s, b) := TryLock s in (b, s).
Definition CheckTryLockShared (s : shared_state) (result : option ValueWrapper) :
    bool * shared_state :=
  if bool_decide (result = Some (BoolValue false)) then (true, s)
  else let '(s, b) := TryLockShared s in (b, s).

Definition Unlock (s : shared_state) : shared_state := WakeNextWaiters (set_writer s false).

Definition UnlockShared (s : shared_state) : shared_state :=
  let s := if bool_decide (active_readers s > 0) then add_readers s (-1) else s in
  if bool_decide (active_readers s = 0) then WakeNextWaiters s else s.

Definition RequestLock (s : shared_state) (id : Z) : shared_state :=
  if negb (writer_active s) && bool_decide (active_readers s = 0) && bool_decide (waiters s = []) &&
     quiet s then
    mkShared (active_readers s) (writer_active s) (waiters s) ({[id]} ∪ ready_locks s)
      (ready_shared_locks s)
  else enqueue s (mkWaiter id true).

Definition FollowUpLock (s : shared_state) (id : Z) : option ValueWrapper * shared_state :=
  if negb (bool_decide (id ∈ ready_locks s)) || writer_active s ||
     bool_decide (active_readers s ≠ 0) then (None, s)
  else (Some VoidValue,
        mkShared (active_readers s) true (waiters s) (ready_locks s ∖ {[id]}) (ready_shared_locks s)).

Definition RequestLockShared (s : shared_state) (id : Z) : shared_state :=
  if negb (writer_active s) then
    mkShared (active_readers s) (writer_active s) (waiters s) (ready_locks s)
      ({[id]} ∪ ready_shared_locks s)
  else enqueue s (mkWaiter id false).

Definition FollowUpLockShared (s : shared_state) (id : Z) : option ValueWrapper * shared_state :=
  if negb (bool_decide (id ∈ ready_shared_locks s)) || writer_active s then (None, s)
  else (Some VoidValue,
        mkShared (active_readers s + 1) (writer_active s) (waiters s) (ready_locks s)
          (ready_shared_locks s ∖ {[id]})).

Definition methods : DualMethodMap shared_state Args ValueWrapper :=
  {[ "try_lock" := DualNonBlockingPredicateMethod (λ s _ result, CheckTryLock s result);
     "try_lock_shared" := DualNonBlockingPredicateMethod (λ s _ result, CheckTryLockShared s result);
     "unlock" := DualNonBlockingMethod (λ s _, (Unlock s, VoidValue));
     "unlock_shared" := DualNonBlockingMethod (λ s _, (UnlockShared s, VoidValue));
     "lock" := DualBlockingMethod (λ s _ id, RequestLock s id) (λ s _ id, FollowUpLock s id);
     "lock_shared" := DualBlockingMethod (λ s _ id, RequestLockShared s id)
                                         (λ s _ id, FollowUpLockShared s id) ]}.

Definition workload : WorkloadPolicy :=
  policy [reserve_rule "lock" ["unlock"; "unlock_shared"];
          reserve_rule "lock_shared" ["unlock"; "unlock_shared"]] [].

Definition spec : DualSpec shared_state :=
  mkDualSpec methods (mkShared 0 false [] ∅ ∅) shared_equals workload.
End FollyCoroSharedMutex.
