(* ===== verification/SpecsQueues.v ===== *)
(** * Dual specifications of queues and one-shot objects

    Models libcoro/queue.h, libcoro/ring_buffer.h, folly/coro_unbounded_queue.h,
    folly/coro_bounded_queue.h, folly/coro_baton.h, folly/coro_shared_promise.h
    and dual_stack_split.h of verifying/specs. *)
From stdpp Require Import base list gmap strings relations.
From Stdlib Require Import ZArith.
From S2P Require Import Prelude LinSpec Events History Linearizability Search.
From S2P Require Import LincheckDual Checkers Specs Verifier SpecsDual.
Open Scope Z_scope.

(** ** libcoro/queue.h *)
Module LibcoroQueue.
(** [elems] is a queue, [waiting_pops] a stack. *)
Record t := mk {
  elems : list Z;
  waiting_pops : list Z;
  ready_pop : gmap Z Z;
  push_done : gset Z;
}.

Definition RequestPush (s : t) (op_id v : Z) : t :=
  let push_done := {[op_id]} ∪ push_done s in
  match waiting_pops s with
  | pop_id :: rest => mk (elems s) rest (<[pop_id := v]> (ready_pop s)) push_done
  | [] => mk (elems s ++ [v]) [] (ready_pop s) push_done
  end.

Definition RequestPop (s : t) (op_id : Z) : t :=
  match elems s with
  | v :: rest => mk rest (waiting_pops s) (<[op_id := v]> (ready_pop s)) (push_done s)
  | [] => mk [] (op_id :: waiting_pops s) (ready_pop s) (push_done s)
  end.

Definition FollowUpPush : t → Z → option ValueWrapper * t :=
  follow_up_set push_done (λ s r, mk (elems s) (waiting_pops s) (ready_pop s) r) ProducedResult.
Definition FollowUpPop : t → Z → option ValueWrapper * t :=
  follow_up_map ready_pop (λ s r, mk (elems s) (waiting_pops s) r (push_done s)) ExpectedInt.

Definition methods : DualMethodMap t Args ValueWrapper :=
  {[ "push" := DualBlockingMethod (λ s args op_id, RequestPush s op_id (arg 0 args))
                                  (λ s _ op_id, FollowUpPush s op_id);
     "pop" := DualBlockingMethod (λ s _ op_id, RequestPop s op_id)
                                 (λ s _ op_id, FollowUpPop s op_id) ]}.

Definition Equals (a b : t) : bool :=
  bool_decide (elems a = elems b) && bool_decide (waiting_pops a = waiting_pops b) &&
  bool_decide (ready_pop a = ready_pop b) && bool_decide (push_done a = push_done b).

Definition workload : WorkloadPolicy := policy [reserve_rule "pop" ["push"]] [].
Definition spec : DualSpec t := mkDualSpec methods (mk [] [] ∅ ∅) Equals workload.
End LibcoroQueue.

(** ** libcoro/ring_buffer.h *)
Module LibcoroRingBuffer.
Definition kCap : nat := 1.

(** The two sequences of waiters are stacks. *)
Record t := mk {
  elems : list Z;
  front_cursor : Z;
  back_cursor : Z;
  waiting_producers : list (Z * Z);
  waiting_consumers : list Z;
  ready_produce : gset Z;
  ready_consume : gmap Z Z;
}.

Definition TryWakeConsumerFromBuffer (s : t) : t :=
  match elems s, waiting_consumers s with
  | v :: rest, cid :: cs =>
      mk rest (front_cursor s) (u64 (back_cursor s + 1)) (waiting_producers s) cs
        (ready_produce s) (<[cid := v]> (ready_consume s))
  | _, _ => s
  end.

(** [elems.push_back(v); ++front_cursor; ready_produce.insert(pid)]. *)
Definition take_slot (s : t) (pid v : Z) (producers : list (Z * Z)) : t :=
  mk (elems s ++ [v]) (u64 (front_cursor s + 1)) (back_cursor s) producers (waiting_consumers s)
    ({[pid]} ∪ ready_produce s) (ready_consume s).

Definition TryAdmitProducerToBuffer (s : t) : t :=
  if Nat.leb kCap (length (elems s)) then s
  else match waiting_producers s with
       | [] => s
       | (pid, v) :: rest => TryWakeConsumerFromBuffer (take_slot s pid v rest)
       end.

Definition RequestProduce (s : t) (v op_id : Z) : t :=
  if Nat.ltb (length (elems s)) kCap
  then TryWakeConsumerFromBuffer (take_slot s op_id v (waiting_producers s))
  else mk (elems s) (front_cursor s) (back_cursor s) ((op_id, v) :: waiting_producers s)
         (waiting_consumers s) (ready_produce s) (ready_consume s).

Definition RequestConsume (s : t) (op_id : Z) : t :=
  match elems s with
  | v :: rest =>
      TryAdmitProducerToBuffer
        (mk rest (front_cursor s) (u64 (back_cursor s + 1)) (waiting_producers s)
           (waiting_consumers s) (ready_produce s) (<[op_id := v]> (ready_consume s)))
  | [] => mk [] (front_cursor s) (back_cursor s) (waiting_producers s) (op_id :: waiting_consumers s)
            (ready_produce s) (ready_consume s)
  end.

Definition FollowUpProduce : t → Z → option ValueWrapper * t :=
  follow_up_set ready_produce
    (λ s r, mk (elems s) (front_cursor s) (back_cursor s) (waiting_producers s)
              (waiting_consumers s) r (ready_consume s)) ProducedResult.
Definition FollowUpConsume : t → Z → option ValueWrapper * t :=
  follow_up_map ready_consume
    (λ s r, mk (elems s) (front_cursor s) (back_cursor s) (waiting_producers s)
              (waiting_consumers s) (ready_produce s) r) ExpectedInt.

Definition Size (s : t) : ValueWrapper := SizeValue (Z.of_nat (length (elems s))).
Definition Empty (s : t) : ValueWrapper := BoolValue (bool_decide (elems s = [])).
Definition Full (s : t) : ValueWrapper := BoolValue (bool_decide (length (elems s) = kCap)).
Definition Snapshot (s : t) : ValueWrapper :=
  RingBufferSnapshot (Z.of_nat (length (elems s))) (bool_decide (elems s = []))
    (bool_decide (length (elems s) = kCap)).
Definition InternalSnapshot (s : t) : ValueWrapper :=
  RingBufferInternalSnapshot (front_cursor s) (back_cursor s) (Z.of_nat (length (elems s)))
    (negb (bool_decide (elems s = []))) (default 0 (head (elems s))).

Definition methods : DualMethodMap t Args ValueWrapper :=
  {[ "produce" := DualBlockingMethod (λ s args op_id, RequestProduce s (arg 0 args) op_id)
                                     (λ s _ op_id, FollowUpProduce s op_id);
     "consume" := DualBlockingMethod (λ s _ op_id, RequestConsume s op_id)
                                     (λ s _ op_id, FollowUpConsume s op_id);
     "size" := DualNonBlockingMethod (λ s _, (s, Size s));
     "empty" := DualNonBlockingMethod (λ s _, (s, Empty s));
     "full" := DualNonBlockingMethod (λ s _, (s, Full s));
     "snapshot" := DualNonBlockingMethod (λ s _, (s, Snapshot s));
     "internal_snapshot" := DualNonBlockingMethod (λ s _, (s, InternalSnapshot s)) ]}.

Definition Equals (a b : t) : bool :=
  bool_decide (elems a = elems b) && bool_decide (front_cursor a = front_cursor b) &&
  bool_decide (back_cursor a = back_cursor b) &&
  bool_decide (waiting_producers a = waiting_producers b) &&
  bool_decide (waiting_consumers a = waiting_consumers b) &&
  bool_decide (ready_produce a = ready_produce b) && bool_decide (ready_consume a = ready_consume b).

Definition workload : WorkloadPolicy :=
  policy [reserve_rule "consume" ["produce"]; reserve_rule "produce" ["consume"]] [].
Definition spec : DualSpec t := mkDualSpec methods (mk [] 0 0 [] [] ∅ ∅) Equals workload.
End LibcoroRingBuffer.

(** ** folly/coro_unbounded_queue.h *)
Module FollyCoroUnboundedQueue.
Definition kEmptyTryDequeue : Z := 0.

Record t := mk { elems : list Z; waiting_dequeues : list Z; ready_dequeues : gmap Z Z }.

Definition Enqueue (s : t) (v : Z) : t :=
  match waiting_dequeues s with
  | op_id :: rest => mk (elems s) rest (<[op_id := v]> (ready_dequeues s))
  | [] => mk (elems s ++ [v]) [] (ready_dequeues s)
  end.

Definition TryDequeue (s : t) : t * Z :=
  match elems s with
  | [] => (s, kEmptyTryDequeue)
  | v :: rest => (mk rest (waiting_dequeues s) (ready_dequeues s), v)
  end.

Definition RequestDequeue (s : t) (op_id : Z) : t :=
  match elems s with
  | v :: rest => mk rest (waiting_dequeues s) (<[op_id := v]> (ready_dequeues s))
  | [] => mk [] (waiting_dequeues s ++ [op_id]) (ready_dequeues s)
  end.

Definition FollowUpDequeue : t → Z → option ValueWrapper * t :=
  follow_up_map ready_dequeues (λ s r, mk (elems s) (waiting_dequeues s) r) IntValue.

Definition methods : DualMethodMap t Args ValueWrapper :=
  {[ "enqueue" := DualNonBlockingMethod (λ s args, (Enqueue s (arg 0 args), VoidValue));
     "try_dequeue" := DualNonBlockingMethod (λ s _, let '(s, v) := TryDequeue s in (s, IntValue v));
     "dequeue" := DualBlockingMethod (λ s _ op_id, RequestDequeue s op_id)
                                     (λ s _ op_id, FollowUpDequeue s op_id) ]}.

Definition Equals (a b : t) : bool :=
  bool_decide (elems a = elems b) && bool_decide (waiting_dequeues a = waiting_dequeues b) &&
  bool_decide (ready_dequeues a = ready_dequeues b).

Definition workload : WorkloadPolicy := policy [reserve_rule "dequeue" ["enqueue"]] [].
Definition spec : DualSpec t := mkDualSpec methods (mk [] [] ∅) Equals workload.
End FollyCoroUnboundedQueue.

(** ** folly/coro_bounded_queue.h *)
Module FollyCoroBoundedQueue.
Definition kCapacity : Z := 2.
Definition kEmptyTryDequeue : Z := 0.

Record t := mk {
  elems : list Z;
  waiting_enqueues : list (Z * Z);
  waiting_dequeues : list Z;
  completed_enqueues : gset Z;
  ready_dequeues : gmap Z Z;
  available_capacity : Z;
}.

Definition MakeValueVisible (s : t) (value : Z) : t :=
  match waiting_dequeues s with
  | op_id :: rest =>
      mk (elems s) (waiting_enqueues s) rest (completed_enqueues s)
        (<[op_id := value]> (ready_dequeues s)) (available_capacity s)
  | [] =>
      mk (elems s ++ [value]) (waiting_enqueues s) [] (completed_enqueues s) (ready_dequeues s)
        (available_capacity s)
  end.

(** [--available_capacity; completed_enqueues.insert(id); MakeValueVisible(v)],
    with the enqueuers that still wait. *)
Definition complete (s : t) (waiting : list (Z * Z)) (op_id value : Z) : t :=
  MakeValueVisible
    (mk (elems s) waiting (waiting_dequeues s) ({[op_id]} ∪ completed_enqueues s)
       (ready_dequeues s) (u64 (available_capacity s - 1))) value.

(** The loop runs at most once per waiting enqueuer. *)
Fixpoint promote_loop (waiting : list (Z * Z)) (s : t) : t :=
  match waiting with
  | [] => s
  | (op_id, value) :: rest =>
      if bool_decide (available_capacity s > 0) then promote_loop rest (complete s rest op_id value)
      else s
  end.
Definition PromoteWaitingEnqueues (s : t) : t := promote_loop (waiting_enqueues s) s.

Definition set_capacity (s : t) (c : Z) : t :=
  mk (elems s) (waiting_enqueues s) (waiting_dequeues s) (completed_enqueues s) (ready_dequeues s) c.

Definition TryEnqueue (s : t) (v : Z) : t * bool :=
  if bool_decide (available_capacity s = 0) then (s, false)
  else (PromoteWaitingEnqueues
          (MakeValueVisible (set_capacity s (u64 (available_capacity s - 1))) v), true).

Definition TryDequeue (s : t) : t * Z :=
  match elems s with
  | [] => (s, kEmptyTryDequeue)
  | v :: rest =>
      (PromoteWaitingEnqueues
         (mk rest (waiting_enqueues s) (waiting_dequeues s) (completed_enqueues s)
            (ready_dequeues s) (u64 (available_capacity s + 1))), v)
  end.

Definition RequestEnqueue (s : t) (op_id value : Z) : t :=
  if bool_decide (available_capacity s = 0) then
    mk (elems s) (waiting_enqueues s ++ [(op_id, value)]) (waiting_dequeues s)
      (completed_enqueues s) (ready_dequeues s) (available_capacity s)
  else PromoteWaitingEnqueues (complete s (waiting_enqueues s) op_id value).

Definition FollowUpEnqueue : t → Z → option ValueWrapper * t :=
  follow_up_set completed_enqueues
    (λ s r, mk (elems s) (waiting_enqueues s) (waiting_dequeues s) r (ready_dequeues s)
              (available_capacity s)) VoidValue.

Definition RequestDequeue (s : t) (op_id : Z) : t :=
  match elems s with
  | v :: rest =>
      PromoteWaitingEnqueues
        (mk rest (waiting_enqueues s) (waiting_dequeues s) (completed_enqueues s)
           (<[op_id := v]> (ready_dequeues s)) (u64 (available_capacity s + 1)))
  | [] =>
      mk [] (waiting_enqueues s) (waiting_dequeues s ++ [op_id]) (completed_enqueues s)
        (ready_dequeues s) (available_capacity s)
  end.

Definition FollowUpDequeue : t → Z → option ValueWrapper * t :=
  follow_up_map ready_dequeues
    (λ s r, mk (elems s) (waiting_enqueues s) (waiting_dequeues s) (completed_enqueues s) r
              (available_capacity s)) IntValue.

Definition methods : DualMethodMap t Args ValueWrapper :=
  {[ "try_enqueue" := DualNonBlockingMethod
                        (λ s args, let '(s, b) := TryEnqueue s (arg 0 args) in (s, BoolValue b));
     "try_dequeue" := DualNonBlockingMethod (λ s _, let '(s, v) := TryDequeue s in (s, IntValue v));
     "enqueue" := DualBlockingMethod (λ s args op_id, RequestEnqueue s op_id (arg 0 args))
                                     (λ s _ op_id, FollowUpEnqueue s op_id);
     "dequeue" := DualBlockingMethod (λ s _ op_id, RequestDequeue s op_id)
                                     (λ s _ op_id, FollowUpDequeue s op_id) ]}.

Definition Equals (a b : t) : bool :=
  bool_decide (elems a = elems b) && bool_decide (waiting_enqueues a = waiting_enqueues b) &&
  bool_decide (completed_enqueues a = completed_enqueues b) &&
  bool_decide (waiting_dequeues a = waiting_dequeues b) &&
  bool_decide (ready_dequeues a = ready_dequeues b) &&
  bool_decide (available_capacity a = available_capacity b).

Definition workload : WorkloadPolicy :=
  policy [reserve_rule "dequeue" ["enqueue"; "try_enqueue"];
          reserve_rule "enqueue" ["dequeue"; "try_dequeue"]] [].
Definition spec : DualSpec t := mkDualSpec methods (mk [] [] [] ∅ ∅ kCapacity) Equals workload.
End FollyCoroBoundedQueue.

(** ** folly/coro_baton.h *)
Module FollyCoroBaton.
Record t := mk { posted : bool; waiting : list Z; ready_waits : gset Z }.

Definition Post (s : t) : t := mk true [] (list_to_set (waiting s) ∪ ready_waits s).
Definition Reset (s : t) : t := mk false (waiting s) (ready_waits s).
Definition Ready (s : t) : bool := posted s.

Definition RequestWait (s : t) (op_id : Z) : t :=
  if posted s then mk (posted s) (waiting s) ({[op_id]} ∪ ready_waits s)
  else mk (posted s) (waiting s ++ [op_id]) (ready_waits s).

Definition FollowUpWait : t → Z → option ValueWrapper * t :=
  follow_up_set ready_waits (λ s r, mk (posted s) (waiting s) r) VoidValue.

Definition methods : DualMethodMap t Args ValueWrapper :=
  {[ "post" := DualNonBlockingMethod (λ s _, (Post s, VoidValue));
     "reset" := DualNonBlockingMethod (λ s _, (Reset s, VoidValue));
     "ready" := DualNonBlockingMethod (λ s _, (s, BoolValue (Ready s)));
     "wait" := DualBlockingMethod (λ s _ op_id, RequestWait s op_id)
                                  (λ s _ op_id, FollowUpWait s op_id) ]}.

Definition Equals (a b : t) : bool :=
  bool_decide (posted a = posted b) && bool_decide (waiting a = waiting b) &&
  bool_decide (ready_waits a = ready_waits b).

Definition workload : WorkloadPolicy := policy [reserve_rule "wait" ["post"]] [].
Definition spec : DualSpec t := mkDualSpec methods (mk false [] ∅) Equals workload.
End FollyCoroBaton.

(** ** folly/coro_shared_promise.h *)
Module FollyCoroSharedPromise.
Record t := mk { value : option Z; waiting_gets : list Z; ready_gets : gmap Z Z }.

Definition SetValue (s : t) (v : Z) : t * bool :=
  match value s with
  | Some _ => (s, false)
  | None => (mk (Some v) [] (foldl (λ r op_id, <[op_id := v]> r) (ready_gets s) (waiting_gets s)), true)
  end.

Definition IsFulfilled (s : t) : bool := bool_decide (is_Some (value s)).

Definition RequestGet (s : t) (op_id : Z) : t :=
  match value s with
  | Some v => mk (value s) (waiting_gets s) (<[op_id := v]> (ready_gets s))
  | None => mk (value s) (waiting_gets s ++ [op_id]) (ready_gets s)
  end.

Definition FollowUpGet : t → Z → option ValueWrapper * t :=
  follow_up_map ready_gets (λ s r, mk (value s) (waiting_gets s) r) IntValue.

Definition methods : DualMethodMap t Args ValueWrapper :=
  {[ "set_value" := DualNonBlockingMethod
                      (λ s args, let '(s, b) := SetValue s (arg 0 args) in (s, BoolValue b));
     "is_fulfilled" := DualNonBlockingMethod (λ s _, (s, BoolValue (IsFulfilled s)));
     "get" := DualBlockingMethod (λ s _ op_id, RequestGet s op_id)
                                 (λ s _ op_id, FollowUpGet s op_id) ]}.

Definition Equals (a b : t) : bool :=
  bool_decide (value a = value b) && bool_decide (waiting_gets a = waiting_gets b) &&
  bool_decide (ready_gets a = ready_gets b).

Definition workload : WorkloadPolicy := policy [reserve_rule "get" ["set_value"]] [].
Definition spec : DualSpec t := mkDualSpec methods (mk None [] ∅) Equals workload.
End FollyCoroSharedPromise.

(** ** dual_stack_split.h

    The dual stack as a sequential specification: the request returns a
    ticket that the follow-up presents. The deque and the pending requests
    are stacks. *)
Module DualStackSplit.
Record t := mk {
  deq : list Z;
  pending_requests : list Z;
  ticket_state : gmap Z (option Z);
  next_ticket : Z;
}.

Definition INT_MAX : Z := 2 ^ 31 - 1.

Definition Push (l : t) (v : Z) : outcome t :=
  match pending_requests l with
  | id :: rest =>
      let slot := default None (ticket_state l !! id) in
      _ ← cassert (negb (bool_decide (is_Some slot)));
      Ret (mk (deq l) rest (<[id := Some v]> (ticket_state l)) (next_ticket l))
  | [] => Ret (mk (v :: deq l) [] (ticket_state l) (next_ticket l))
  end.

(** [next_ticket++] is undefined at [INT_MAX]. *)
Definition PopRequest (l : t) : outcome (t * Z) :=
  let id := next_ticket l in
  if bool_decide (id = INT_MAX) then UB
  else match deq l with
       | x :: rest =>
           Ret (mk rest (pending_requests l) (<[id := Some x]> (ticket_state l)) (id + 1), id)
       | [] =>
           Ret (mk [] (id :: pending_requests l) (<[id := None]> (ticket_state l)) (id + 1), id)
       end.

Definition TryPopFollowUp (l : t) (ticket : Z) : t * Z :=
  if bool_decide (ticket = 0) then (l, 0)
  else match ticket_state l !! ticket with
       | None | Some None => (l, 0)
       | Some (Some res) =>
           (mk (deq l) (pending_requests l) (delete ticket (ticket_state l)) (next_ticket l), res)
       end.

Definition Equals (lhs rhs : t) : bool :=
  bool_decide (deq lhs = deq rhs) &&
  bool_decide (pending_requests lhs = pending_requests rhs) &&
  bool_decide (ticket_state lhs = ticket_state rhs) &&
  bool_decide (next_ticket lhs = next_ticket rhs).

Definition initial : t := mk [] [] ∅ 1.

Definition methods : MethodMap t Args ValueWrapper :=
  {[ "Push" := λ l args, (LinearBank.defined (Push l (arg 0 args)) l, VoidValue);
     "PopRequest" := λ l _, let '(l, id) := LinearBank.defined (PopRequest l) (l, 0) in
                            (l, TicketValue id);
     "TryPopFollowUp" := λ l args, let '(l, r) := TryPopFollowUp l (arg 0 args) in (l, IntValue r) ]}.
End DualStackSplit.
