(* ===== verification/SpecsCorrect.v ===== *)
(** * Properties of the dual specifications

    The equality of every dual specification is sound for its methods, so
    the dual checker is exact for each of them ([DualSpecCongruence]); and
    what the specifications themselves promise: exclusion for the locks,
    matching of values with operations for the queues and the stacks. *)
From stdpp Require Import base list gmap strings relations.
From Stdlib Require Import ZArith.
From S2P Require Import Prelude LinSpec Events History Linearizability Search.
From S2P Require Import LincheckDual Checkers Specs Verifier SpecsDual SpecsLocks SpecsQueues.
Open Scope Z_scope.

(** ** The states of all the specifications are compared soundly *)
Ltac solve_dual_congruence sp :=
  apply (dual_congruence_eq sp); intros [] [] He;
  repeat (apply andb_true_iff in He as [He ?%bool_decide_eq_true]);
  apply bool_decide_eq_true in He; simplify_eq/=; done.

Abbreviation sound sp := (DualSpecCongruence (GetDualMethods sp) (DualEquals sp) eq).

#[export] Instance async_stack_sound : sound CoroAsyncStack.spec.
Proof. solve_dual_congruence CoroAsyncStack.spec. Qed.
#[export] Instance coroutine_queue_sound : sound CoroutineQueue.spec.
Proof. solve_dual_congruence CoroutineQueue.spec. Qed.
#[export] Instance event_sound : sound LibcoroEvent.spec.
Proof. solve_dual_congruence LibcoroEvent.spec. Qed.
#[export] Instance latch_sound : sound LibcoroLatch.spec.
Proof. solve_dual_congruence LibcoroLatch.spec. Qed.
#[export] Instance coro_mutex_sound enqueue : sound (CoroMutex.spec enqueue).
Proof. solve_dual_congruence (CoroMutex.spec enqueue). Qed.
#[export] Instance semaphore_sound : sound LibcoroSemaphore.spec.
Proof. solve_dual_congruence LibcoroSemaphore.spec. Qed.
#[export] Instance libcoro_shared_mutex_sound : sound LibcoroSharedMutex.spec.
Proof. solve_dual_congruence LibcoroSharedMutex.spec. Qed.
#[export] Instance folly_shared_mutex_sound : sound FollyCoroSharedMutex.spec.
Proof. solve_dual_congruence FollyCoroSharedMutex.spec. Qed.
#[export] Instance libcoro_queue_sound : sound LibcoroQueue.spec.
Proof. solve_dual_congruence LibcoroQueue.spec. Qed.
#[export] Instance ring_buffer_sound : sound LibcoroRingBuffer.spec.
Proof. solve_dual_congruence LibcoroRingBuffer.spec. Qed.
#[export] Instance unbounded_queue_sound : sound FollyCoroUnboundedQueue.spec.
Proof. solve_dual_congruence FollyCoroUnboundedQueue.spec. Qed.
#[export] Instance bounded_queue_sound : sound FollyCoroBoundedQueue.spec.
Proof. solve_dual_congruence FollyCoroBoundedQueue.spec. Qed.
#[export] Instance baton_sound : sound FollyCoroBaton.spec.
Proof. solve_dual_congruence FollyCoroBaton.spec. Qed.
#[export] Instance shared_promise_sound : sound FollyCoroSharedPromise.spec.
Proof. solve_dual_congruence FollyCoroSharedPromise.spec. Qed.

(** ** Reachable states of a dual specification *)
Section Reachable.
Context {St : Type} (sp : DualSpec St).

(** One accepted call of a method, request or follow-up, by anyone. *)
Inductive dual_call : St → St → Prop :=
  | call_method name f s args :
      GetDualMethods sp !! name = Some (DualNonBlockingMethod f) → dual_call s (f s args).1
  | call_predicate name f s args result s' :
      GetDualMethods sp !! name = Some (DualNonBlockingPredicateMethod f) →
      f s args result = (true, s') → dual_call s s'
  | call_request name req fol s args id :
      GetDualMethods sp !! name = Some (DualBlockingMethod req fol) → dual_call s (req s args id)
  | call_followup name req fol s args id v s' :
      GetDualMethods sp !! name = Some (DualBlockingMethod req fol) →
      fol s args id = (Some v, s') → dual_call s s'.

Definition dual_reachable (s : St) : Prop := rtc dual_call (dual_init sp) s.

Lemma calls_invariant (P : St → Prop) s s' :
  (∀ s s', P s → dual_call s s' → P s') → rtc dual_call s s' → P s → P s'.
Proof. intros Hstep. induction 1; eauto. Qed.
End Reachable.

(** The call as a call of one of the operations of a specification. *)
Ltac table_cases Hm :=
  let rec go :=
    first [ apply lookup_singleton_Some in Hm as [<- Hm]
          | apply lookup_insert_Some in Hm as [[<- Hm]|[_ Hm]]; [|go] ] in
  go; simplify_eq.

Lemma follow_up_set_ret {St} (ready : St → gset Z) set_ready result s id v s' :
  follow_up_set ready set_ready result s id = (Some v, s') →
  id ∈ ready s ∧ v = result ∧ s' = set_ready s (ready s ∖ {[id]}).
Proof. unfold follow_up_set. case_bool_decide; naive_solver. Qed.

Lemma follow_up_map_ret {St} (ready : St → gmap Z Z) set_ready result s id v s' :
  follow_up_map ready set_ready result s id = (Some v, s') →
  ∃ x, ready s !! id = Some x ∧ v = result x ∧ s' = set_ready s (delete id (ready s)).
Proof. unfold follow_up_map. destruct (ready s !! id) eqn:?; naive_solver. Qed.

(** ** Shared mutexes *)
Section Shared.
Implicit Types (s : shared_state).

(** A writer excludes the readers. *)
Definition excludes s : Prop :=
  0 ≤ active_readers s ∧ (writer_active s = true → active_readers s = 0).

(** Nobody waits for a lock that is free. *)
Definition libcoro_ok s : Prop :=
  excludes s ∧ (waiters s ≠ [] → writer_active s = true ∨ 0 < active_readers s).
Definition folly_ok s : Prop :=
  excludes s ∧ (waiters s ≠ [] →
    writer_active s = true ∨ 0 < active_readers s ∨ ready_locks s ≠ ∅ ∨ ready_shared_locks s ≠ ∅).

Lemma split_shared_front w ws :
  exclusive w = false → (split_shared (w :: ws)).1 = op_id w :: (split_shared ws).1.
Proof. intros Hw. simpl. rewrite Hw. by destruct (split_shared ws). Qed.

Lemma libcoro_wake s : excludes s → libcoro_ok (LibcoroSharedMutex.WakeNextWaiters s).
Proof.
  intros [Hr Hw]. unfold LibcoroSharedMutex.WakeNextWaiters.
  destruct s as [r w [|[id []] ws] rl rsl]; simpl in *.
  - rewrite orb_true_r. done.
  - rewrite orb_false_r. destruct w; simpl; [split; [done|naive_solver]|].
    case_bool_decide; simpl; [split; [done|]; simpl; intros _; right; lia|]. split; [done|naive_solver].
  - rewrite orb_false_r. destruct w; simpl; [split; [done|naive_solver]|].
    case_bool_decide; simpl; [split; [done|]; simpl; intros _; right; lia|].
    destruct (split_shared ws) as [ids rest]. unfold libcoro_ok, excludes.
    cbn [active_readers writer_active length]. split; [split; [lia|done]|]. intros _. right. lia.
Qed.

Lemma libcoro_step s s' : libcoro_ok s → dual_call LibcoroSharedMutex.spec s s' → libcoro_ok s'.
Proof.
  intros Hok Hcall. pose proof Hok as [[Hr Hw] Hwait].
  destruct Hcall as [name f s args Hm|name f s args res s' Hm Hf|name req fol s args id Hm
                    |name req fol s args id v s' Hm Hf];
    unfold LibcoroSharedMutex.spec, LibcoroSharedMutex.methods in Hm; cbn [GetDualMethods] in Hm;
    table_cases Hm; simpl.
  - by apply libcoro_wake.
  - unfold LibcoroSharedMutex.UnlockShared.
    destruct (bool_decide_reflect (active_readers s > 0)); simpl; case_bool_decide.
    + apply libcoro_wake. split; simpl; [lia|]. naive_solver lia.
    + split; [split; simpl; [lia|naive_solver lia]|]. simpl. naive_solver lia.
    + by apply libcoro_wake.
    + done.
  - unfold LibcoroSharedMutex.RequestLock.
    destruct (negb (writer_active s) && bool_decide (active_readers s = 0)) eqn:Hc.
    + apply andb_true_iff in Hc as [_ Hc%bool_decide_eq_true]. split; [done|]. by left.
    + split; [done|]. simpl. intros _. destruct (writer_active s); [by left|].
      simpl in Hc. apply bool_decide_eq_false in Hc. right. lia.
  - unfold LibcoroSharedMutex.RequestLockShared, LibcoroSharedMutex.HasExclusiveWaiter.
    destruct (writer_active s) eqn:Hwa; simpl.
    { split; [split; simpl; [done|]; by rewrite Hwa|by left]. }
    destruct (existsb exclusive (waiters s)) eqn:He; simpl.
    + split; [split; [done|]; simpl; by rewrite Hwa|]. simpl. rewrite Hwa. intros _. apply Hwait.
      by destruct (waiters s).
    + split; [split; simpl; [lia|done]|]. simpl. intros _. right. lia.
  - by apply follow_up_set_ret in Hf as (_&_&->).
  - by apply follow_up_set_ret in Hf as (_&_&->).
Qed.

Lemma quiet_spec s : FollyCoroSharedMutex.quiet s = true ↔ ready_locks s = ∅ ∧ ready_shared_locks s = ∅.
Proof. unfold FollyCoroSharedMutex.quiet. by rewrite andb_true_iff, !bool_decide_eq_true. Qed.

Lemma not_quiet s :
  FollyCoroSharedMutex.quiet s = false → ready_locks s ≠ ∅ ∨ ready_shared_locks s ≠ ∅.
Proof.
  unfold FollyCoroSharedMutex.quiet. rewrite andb_false_iff, !bool_decide_eq_false. done.
Qed.

Lemma folly_wake s : excludes s → folly_ok (FollyCoroSharedMutex.WakeNextWaiters s).
Proof.
  intros [Hr Hw]. unfold FollyCoroSharedMutex.WakeNextWaiters.
  destruct (writer_active s) eqn:Hwa; simpl.
  { split; [split; [done|]; by rewrite Hwa|by left]. }
  assert (excludes s) by (split; [done|]; by rewrite Hwa).
  destruct (bool_decide_reflect (active_readers s ≠ 0)); simpl.
  { split; [done|]. intros _. right; left. lia. }
  destruct (FollyCoroSharedMutex.quiet s) eqn:Hq; simpl.
  2:{ split; [done|]. intros _. right; right. by apply not_quiet. }
  destruct (waiters s) as [|[id []] ws] eqn:Hws; simpl.
  - split; [done|]. by rewrite Hws.
  - split; [done|]. intros _. right; right; left. simpl. set_solver.
  - destruct (split_shared ws) as [ids rest]. split; [done|]. intros _. do 3 right. simpl. set_solver.
Qed.

Lemma folly_followup s id v s' :
  folly_ok s → FollyCoroSharedMutex.FollowUpLock s id = (Some v, s') → folly_ok s'.
Proof.
  intros [[Hr Hw] Hwait]. unfold FollyCoroSharedMutex.FollowUpLock.
  destruct (negb _ || _) eqn:Hc; [done|]. simpl.
  destruct (bool_decide_reflect (active_readers s ≠ 0)); [done|]. intros [= _ <-].
  split; [split; [done|]|by left]. simpl. intros _. lia.
Qed.

Lemma folly_followup_shared s id v s' :
  folly_ok s → FollyCoroSharedMutex.FollowUpLockShared s id = (Some v, s') → folly_ok s'.
Proof.
  intros [[Hr Hw] Hwait]. unfold FollyCoroSharedMutex.FollowUpLockShared.
  destruct (writer_active s) eqn:Hwa; [by rewrite orb_true_r|]. rewrite orb_false_r.
  destruct (negb _); [done|]. intros [= _ <-].
  split; [split; simpl; [lia|done]|]. intros _. right; left. simpl. lia.
Qed.

Lemma folly_step s s' : folly_ok s → dual_call FollyCoroSharedMutex.spec s s' → folly_ok s'.
Proof.
  intros Hok Hcall. pose proof Hok as [[Hr Hw] Hwait].
  destruct Hcall as [name f s args Hm|name f s args res s' Hm Hf|name req fol s args id Hm
                    |name req fol s args id v s' Hm Hf];
    unfold FollyCoroSharedMutex.spec, FollyCoroSharedMutex.methods in Hm;
    cbn [GetDualMethods] in Hm; table_cases Hm; simpl.
  - by apply folly_wake.
  - unfold FollyCoroSharedMutex.UnlockShared.
    destruct (bool_decide_reflect (active_readers s > 0)); simpl; case_bool_decide.
    + apply folly_wake. split; simpl; [lia|]. naive_solver lia.
    + split; [split; simpl; [lia|naive_solver lia]|]. simpl. naive_solver lia.
    + by apply folly_wake.
    + done.
  - unfold FollyCoroSharedMutex.CheckTryLock, FollyCoroSharedMutex.TryLock in Hf.
    case_bool_decide; simplify_eq; [done|].
    destruct (FollyCoroSharedMutex.CanTryLock s) eqn:Hc; simplify_eq.
    unfold FollyCoroSharedMutex.CanTryLock in Hc. rewrite !andb_true_iff, !bool_decide_eq_true in Hc.
    split; [split; simpl; [done|]; naive_solver|by left].
  - unfold FollyCoroSharedMutex.CheckTryLockShared, FollyCoroSharedMutex.TryLockShared in Hf.
    case_bool_decide; simplify_eq; [done|].
    destruct (FollyCoroSharedMutex.CanTryLockShared s) eqn:Hc; simplify_eq.
    unfold FollyCoroSharedMutex.CanTryLockShared in Hc. rewrite andb_true_iff in Hc.
    split; [split; simpl; [lia|]|]; simpl.
    + destruct (writer_active s); naive_solver.
    + intros _. right; left. lia.
  - unfold FollyCoroSharedMutex.RequestLock.
    destruct (negb (writer_active s) && bool_decide (active_readers s = 0) &&
              bool_decide (waiters s = []) && FollyCoroSharedMutex.quiet s) eqn:Hc.
    + split; [done|]. intros _. right; right; left. simpl. set_solver.
    + split; [done|]. intros _. simpl. destruct (writer_active s); [by left|]. right.
      destruct (bool_decide_reflect (active_readers s = 0)); [|left; lia].
      destruct (bool_decide_reflect (waiters s = [])) as [|Hne].
      * simpl in Hc. right. by apply not_quiet.
      * destruct (Hwait Hne) as [?|?]; [done|]. tauto.
  - unfold FollyCoroSharedMutex.RequestLockShared.
    destruct (writer_active s) eqn:Hwa; simpl.
    + split; [split; simpl; [done|]; by rewrite Hwa|by left].
    + split; [split; simpl; [done|done]|]. intros _. do 3 right. simpl. set_solver.
  - by eapply folly_followup.
  - by eapply folly_followup_shared.
Qed.
End Shared.

(** In every state that any calls can reach, legal or not, the shared
    mutex specifications never have a writer and readers at the same time,
    and nobody waits for a lock that is neither held nor granted. *)
Theorem shared_mutex_specs_exclusion s :
  (dual_reachable LibcoroSharedMutex.spec s → libcoro_ok s) ∧
  (dual_reachable FollyCoroSharedMutex.spec s → folly_ok s).
Proof.
  split; intros Hr.
  - eapply (calls_invariant _ libcoro_ok); [apply libcoro_step|exact Hr|]. by vm_compute.
  - eapply (calls_invariant _ folly_ok); [apply folly_step|exact Hr|]. by vm_compute.
Qed.

(** The comment of folly/coro_shared_mutex.h says that an exclusive waiter
    blocks later shared waiters; [RequestLockShared] looks only at the
    active writer: a shared request after a waiting exclusive one is ready
    at once, and its follow-up succeeds before the exclusive one. *)
Lemma folly_shared_mutex_barges :
  let s := FollyCoroSharedMutex.RequestLockShared
             (FollyCoroSharedMutex.RequestLock
                (mkShared 1 false [] ∅ ∅) 1) 2 in
  waiters s = [mkWaiter 1 true] ∧
  FollyCoroSharedMutex.FollowUpLockShared s 2 =
    (Some VoidValue, mkShared 2 false [mkWaiter 1 true] ∅ ∅).
Proof. by vm_compute. Qed.

(** ** Coroutine mutexes *)
Section Mutex.
Context (enqueue : list Z → Z → list Z).
Context (enqueue_perm : ∀ w id, enqueue w id ≡ₚ id :: w).
Import CoroMutex.

(** Clients that unlock only what they hold: [held] counts the holders,
    [pending] the lock operations that have not returned. *)
Inductive mutex_run : t → nat → gset Z → Prop :=
  | run_init : mutex_run (mk false [] ∅) 0 ∅
  | run_try_lock s held pending s' b :
      mutex_run s held pending → TryLock s = (s', b) →
      mutex_run s' (if b then S held else held) pending
  | run_unlock s held pending :
      mutex_run s (S held) pending → mutex_run (Unlock s) held pending
  | run_request s held pending id :
      mutex_run s held pending → id ∉ pending →
      mutex_run (RequestLock enqueue s id) held ({[id]} ∪ pending)
  | run_follow_up s held pending id v s' :
      mutex_run s held pending → FollowUpLock s id = (Some v, s') →
      mutex_run s' (S held) (pending ∖ {[id]}).

Record mutex_inv (s : t) (held : nat) (pending : gset Z) : Prop := {
  mi_one : (held + size (ready_locks s) ≤ 1)%nat;
  mi_locked : locked s = true ↔ (held + size (ready_locks s) = 1)%nat;
  mi_waiting : waiting_locks s ≠ [] → locked s = true;
  mi_nodup : NoDup (waiting_locks s);
  mi_disjoint id : id ∈ waiting_locks s → id ∉ ready_locks s;
  mi_pending id : id ∈ pending ↔ id ∈ waiting_locks s ∨ id ∈ ready_locks s;
}.

Lemma unlock_inv s held pending : mutex_inv s (S held) pending → mutex_inv (Unlock s) held pending.
Proof.
  intros [H1 Hl Hw Hnd Hd Hp]. assert (Hsz : size (ready_locks s) = 0%nat) by lia.
  assert (held = 0%nat) as -> by lia. apply size_empty_inv in Hsz. apply leibniz_equiv in Hsz.
  unfold Unlock. destruct (waiting_locks s) as [|id ws]; rewrite Hsz in *.
  - split; cbn [locked waiting_locks ready_locks]; rewrite ?size_empty; try done; lia.
  - apply NoDup_cons in Hnd as [Hni Hnd]. clear -Hni Hnd Hp.
    split; cbn [locked waiting_locks ready_locks]; rewrite ?(right_id_L ∅ (∪)), ?size_singleton; try done.
    + by intros id' Hin ->%elem_of_singleton.
    + intros id'. rewrite Hp, elem_of_cons, elem_of_singleton. set_solver.
Qed.

Lemma request_inv s held pending id :
  mutex_inv s held pending → id ∉ pending →
  mutex_inv (RequestLock enqueue s id) held ({[id]} ∪ pending).
Proof.
  intros [H1 Hl Hw Hnd Hd Hp] Hid. unfold RequestLock. destruct (locked s) eqn:Hlk.
  - split; cbn [locked waiting_locks ready_locks]; try done; rewrite ?Hlk.
    + rewrite enqueue_perm. apply NoDup_cons. split; [|done]. naive_solver.
    + intros id'. rewrite enqueue_perm, elem_of_cons. intros [->|?]; [naive_solver|auto].
    + intros id'. rewrite enqueue_perm, elem_of_cons, elem_of_union, elem_of_singleton, Hp. tauto.
  - assert (Hz : (held + size (ready_locks s) = 0)%nat) by (destruct Hl; lia || intuition lia).
    assert (Hsz : size (ready_locks s) = 0%nat) by lia.
    apply size_empty_inv in Hsz. apply leibniz_equiv in Hsz. rewrite Hsz in *.
    assert (Hwn : waiting_locks s = []) by (destruct (waiting_locks s); naive_solver).
    rewrite Hwn in *.
    assert (held = 0%nat) as -> by lia. clear -Hp.
    split; cbn [locked waiting_locks ready_locks]; rewrite ?(right_id_L ∅ (∪)), ?size_singleton; try done; [constructor| |].
    + by intros id' ?%elem_of_nil.
    + intros id'. rewrite elem_of_union, Hp, !elem_of_nil. set_solver.
Qed.

Lemma follow_up_inv s held pending id v s' :
  mutex_inv s held pending → FollowUpLock s id = (Some v, s') →
  mutex_inv s' (S held) (pending ∖ {[id]}).
Proof.
  intros [H1 Hl Hw Hnd Hd Hp] (Hin&_&->)%follow_up_set_ret.
  assert (Hsz : size (ready_locks s ∖ {[id]}) = (size (ready_locks s) - 1)%nat).
  { rewrite size_difference, size_singleton by set_solver. done. }
  assert (size (ready_locks s) ≠ 0%nat) by (intros ?%size_empty_inv; set_solver).
  split; cbn [locked waiting_locks ready_locks]; rewrite ?Hsz; try done; try lia.
  - rewrite Hl. lia.
  - intros id' Hw'. rewrite elem_of_difference. intros [? _]. by eapply Hd.
  - intros id'. rewrite !elem_of_difference, Hp, elem_of_singleton. split; [naive_solver|].
    intros [Hw'|?]; [|naive_solver]. split; [by left|]. intros ->. by eapply Hd.
Qed.

Lemma mutex_run_inv s held pending : mutex_run s held pending → mutex_inv s held pending.
Proof.
  induction 1 as [|s held p s' b _ [H1 Hl Hw Hnd Hd Hp] Ht|s held p _ IH|s held p id _ IH Hid
                 |s held p id v s' _ IH Hf].
  - split; cbn [locked waiting_locks ready_locks]; rewrite ?size_empty; try done; [lia|constructor|].
    intros id. rewrite elem_of_nil. set_solver.
  - unfold TryLock in Ht. destruct (locked s) eqn:Hlk; simplify_eq; [by split; rewrite ?Hlk|].
    split; cbn [locked waiting_locks ready_locks]; try done; destruct (decide (size (ready_locks s) = 0%nat)); intuition lia.
  - by apply unlock_inv.
  - by apply request_inv.
  - by eapply follow_up_inv.
Qed.
End Mutex.

(** The coroutine mutexes, newest or oldest waiter first: if clients
    unlock only what they hold, at most one operation holds the lock or has
    been granted it; the lock is taken exactly then; and no request is lost:
    the operations that have not returned are those that wait or are
    granted. *)
Theorem coro_mutex_exclusive enqueue s held pending :
  enqueue = lifo ∨ enqueue = fifo → mutex_run enqueue s held pending →
  (held + size (CoroMutex.ready_locks s) ≤ 1)%nat ∧
  (CoroMutex.locked s = true ↔ (held + size (CoroMutex.ready_locks s) = 1)%nat) ∧
  (CoroMutex.waiting_locks s ≠ [] → CoroMutex.locked s = true) ∧
  ∀ id, id ∈ pending ↔ id ∈ CoroMutex.waiting_locks s ∨ id ∈ CoroMutex.ready_locks s.
Proof.
  intros He Hr.
  assert (Hperm : ∀ w id, enqueue w id ≡ₚ id :: w).
  { intros w id. destruct He as [->| ->]; [done|]. apply Permutation_app_comm. }
  destruct (mutex_run_inv enqueue Hperm s held pending Hr) as [H1 Hl Hw Hnd Hd Hp]. done.
Qed.

(** ** The bounded queue *)
Section Bounded.
Import FollyCoroBoundedQueue.
Implicit Types (s : t).

Definition within_capacity s : Prop :=
  0 ≤ available_capacity s ∧ Z.of_nat (length (elems s)) + available_capacity s ≤ kCapacity.

Lemma make_visible_capacity s v :
  0 ≤ available_capacity s →
  Z.of_nat (length (elems s)) + available_capacity s < kCapacity →
  within_capacity (MakeValueVisible s v).
Proof.
  intros H0 Hc. unfold within_capacity, MakeValueVisible.
  destruct (waiting_dequeues s); simpl; rewrite ?length_app; simpl; lia.
Qed.

Lemma complete_capacity s ws id v :
  within_capacity s → available_capacity s ≠ 0 → within_capacity (complete s ws id v).
Proof.
  intros [H0 Hc] Hne. unfold kCapacity in *.
  apply make_visible_capacity; simpl; rewrite u64_id by lia; unfold kCapacity; lia.
Qed.

Lemma promote_capacity s : within_capacity s → within_capacity (PromoteWaitingEnqueues s).
Proof.
  unfold PromoteWaitingEnqueues. generalize (waiting_enqueues s). intros ws. revert s.
  induction ws as [|[id v] ws IH]; intros s Hs; simpl; [done|].
  case_bool_decide; [|done]. apply IH, complete_capacity; [done|lia].
Qed.

Lemma taken_capacity s x rest r :
  within_capacity s → elems s = x :: rest →
  within_capacity
    (PromoteWaitingEnqueues
       (mk rest (waiting_enqueues s) (waiting_dequeues s) (completed_enqueues s) r
          (u64 (available_capacity s + 1)))).
Proof.
  intros [H0 Hc] He. rewrite He in Hc. cbn [length] in Hc. unfold kCapacity in *.
  apply promote_capacity. split; cbn [elems available_capacity]; rewrite u64_id by lia;
    unfold kCapacity; lia.
Qed.

Lemma bounded_step s s' : within_capacity s → dual_call spec s s' → within_capacity s'.
Proof.
  intros Hs Hcall. pose proof Hs as [H0 Hc].
  destruct Hcall as [name f s args Hm|name f s args res s' Hm Hf|name req fol s args id Hm
                    |name req fol s args id v s' Hm Hf];
    unfold spec, methods in Hm; cbn [GetDualMethods] in Hm; table_cases Hm; simpl.
  - unfold TryEnqueue. case_bool_decide; [done|]. simpl. unfold kCapacity in *.
    apply promote_capacity, make_visible_capacity; simpl; rewrite u64_id by lia;
      unfold kCapacity; lia.
  - unfold TryDequeue. destruct (elems s) as [|x rest] eqn:He; [done|]. by eapply taken_capacity.
  - unfold RequestEnqueue. case_bool_decide; [done|]. apply promote_capacity.
    by apply complete_capacity.
  - unfold RequestDequeue. destruct (elems s) as [|x rest] eqn:He; [|by eapply taken_capacity].
    split; [done|]. simpl in *. lia.
  - by apply follow_up_set_ret in Hf as (_&_&->).
  - by apply follow_up_map_ret in Hf as (?&_&_&->).
Qed.

(** No capacity, no element and nobody to be served. *)
Definition exhausted s : Prop :=
  elems s = [] ∧ available_capacity s = 0 ∧ completed_enqueues s = ∅ ∧ ready_dequeues s = ∅.

Lemma exhausted_step s s' : exhausted s → dual_call spec s s' → exhausted s'.
Proof.
  intros (He&Ha&Hc&Hr) Hcall.
  destruct Hcall as [name f s args Hm|name f s args res s' Hm Hf|name req fol s args id Hm
                    |name req fol s args id v s' Hm Hf];
    unfold spec, methods in Hm; cbn [GetDualMethods] in Hm; table_cases Hm; simpl.
  - unfold TryEnqueue. rewrite bool_decide_true by done. done.
  - unfold TryDequeue. rewrite He. done.
  - unfold RequestEnqueue. rewrite bool_decide_true by done. done.
  - unfold RequestDequeue. rewrite He. done.
  - apply follow_up_set_ret in Hf as (Hin&_). set_solver.
  - apply follow_up_map_ret in Hf as (?&Hin&_). rewrite Hr in Hin. done.
Qed.

(** Two dequeuers that were waiting are served by two enqueuers. *)
Lemma exhausted_reachable : dual_reachable spec (mk [] [] [] ∅ ∅ 0).
Proof.
  eapply rtc_l; [eapply (call_request spec "dequeue" _ _ _ [] 1); reflexivity|].
  eapply rtc_l; [eapply (call_request spec "enqueue" _ _ _ [10] 2); reflexivity|].
  eapply rtc_l; [eapply (call_followup spec "dequeue" _ _ _ [] 1); reflexivity|].
  eapply rtc_l; [eapply (call_followup spec "enqueue" _ _ _ [10] 2); reflexivity|].
  eapply rtc_l; [eapply (call_request spec "dequeue" _ _ _ [] 3); reflexivity|].
  eapply rtc_l; [eapply (call_request spec "enqueue" _ _ _ [11] 4); reflexivity|].
  eapply rtc_l; [eapply (call_followup spec "dequeue" _ _ _ [] 3); reflexivity|].
  eapply rtc_l; [eapply (call_followup spec "enqueue" _ _ _ [11] 4); reflexivity|].
  apply rtc_refl.
Qed.
End Bounded.

(** The bounded queue never exceeds its capacity, but it loses it: an
    element handed to a waiting dequeuer does not give its slot back. After
    two such hand-overs, in which every operation has returned, the queue is
    empty and no call can ever store or deliver an element again. *)
Theorem bounded_queue_capacity :
  (∀ s, dual_reachable FollyCoroBoundedQueue.spec s → within_capacity s) ∧
  ∃ s, dual_reachable FollyCoroBoundedQueue.spec s ∧ s = FollyCoroBoundedQueue.mk [] [] [] ∅ ∅ 0 ∧
    ∀ s', rtc (dual_call FollyCoroBoundedQueue.spec) s s' → exhausted s'.
Proof.
  split.
  - intros s Hr. eapply (calls_invariant _ within_capacity); [apply bounded_step|exact Hr|].
    by vm_compute.
  - eexists. split_and!; [apply exhausted_reachable|done|]. intros s' Hr.
    eapply (calls_invariant _ exhausted); [apply exhausted_step|exact Hr|done].
Qed.

(** ** The ticket stack refines the asynchronous stack *)
Section Tickets.
Import DualStackSplit.
Implicit Types (l : t).

(** Tickets are operation ids; an issued ticket without a value is a
    waiting pop. *)
Definition abs l : CoroAsyncStack.t :=
  CoroAsyncStack.mk (deq l) (pending_requests l) (omap id (ticket_state l)).

Inductive tickets_reachable : t → Prop :=
  | tickets_init : tickets_reachable initial
  | tickets_push l v l' : tickets_reachable l → Push l v = Ret l' → tickets_reachable l'
  | tickets_request l l' id : tickets_reachable l → PopRequest l = Ret (l', id) → tickets_reachable l'
  | tickets_follow_up l ticket l' r :
      tickets_reachable l → TryPopFollowUp l ticket = (l', r) → tickets_reachable l'.

Record tickets_ok l : Prop := {
  to_nodup : NoDup (pending_requests l);
  to_pending id : ticket_state l !! id = Some None ↔ id ∈ pending_requests l;
  to_issued id : is_Some (ticket_state l !! id) → 1 ≤ id < next_ticket l;
  to_positive : 1 ≤ next_ticket l;
}.

Lemma abs_lookup l id : CoroAsyncStack.ready_pop_value (abs l) !! id = mjoin (ticket_state l !! id).
Proof. simpl. rewrite lookup_omap. by destruct (ticket_state l !! id) as [[]|]. Qed.

Lemma push_refines l v :
  tickets_ok l →
  ∃ l', Push l v = Ret l' ∧ tickets_ok l' ∧ abs l' = CoroAsyncStack.Push (abs l) v.
Proof.
  intros [Hnd Hp Hi H1]. unfold Push, CoroAsyncStack.Push. simpl.
  destruct (pending_requests l) as [|id rest] eqn:Hpr.
  - eexists. split; [done|]. split; [|done]. by split.
  - assert (Hid : ticket_state l !! id = Some None) by (apply Hp; by left). rewrite Hid. simpl.
    eexists. split; [done|]. apply NoDup_cons in Hnd as [Hni Hnd]. split.
    + split; simpl; [done| | |done].
      * intros id'. rewrite lookup_insert_Some. split.
        -- intros [[_ ?]|[Hne Hl]]; [done|]. apply Hp, elem_of_cons in Hl. naive_solver.
        -- intros Hin. right. split; [by intros <-|]. apply Hp. by right.
      * intros id' Hs. apply Hi. destruct (decide (id = id')) as [<-|]; [by rewrite Hid|].
        by rewrite lookup_insert_ne in Hs.
    + unfold abs. simpl. f_equal. by apply omap_insert_Some.
Qed.

Lemma request_refines l :
  tickets_ok l → next_ticket l ≠ INT_MAX →
  ∃ l', PopRequest l = Ret (l', next_ticket l) ∧ tickets_ok l' ∧
    ticket_state l !! next_ticket l = None ∧
    abs l' = CoroAsyncStack.RequestPop (abs l) (next_ticket l).
Proof.
  intros [Hnd Hp Hi H1] Hmax. unfold PopRequest, CoroAsyncStack.RequestPop.
  rewrite bool_decide_false by done. set (id := next_ticket l) in *.
  assert (Hfresh : ticket_state l !! id = None).
  { apply eq_None_not_Some. intros ?%Hi. lia. }
  assert (Hissued : ∀ o id', is_Some (<[id := o]> (ticket_state l) !! id') → 1 ≤ id' < id + 1).
  { intros o id' Hs. destruct (decide (id = id')) as [<-|]; [lia|].
    rewrite lookup_insert_ne in Hs by done. apply Hi in Hs. lia. }
  simpl. destruct (deq l) as [|x rest] eqn:Hd; eexists; (split; [done|]);
    (split; [split; simpl; [| |apply Hissued|lia]|split; [done|unfold abs; simpl; f_equal]]).
  - apply NoDup_cons. split; [|done]. rewrite <-Hp, Hfresh. done.
  - intros id'. rewrite lookup_insert_Some, elem_of_cons, Hp. split; [naive_solver|].
    destruct (decide (id = id')) as [<-|]; [naive_solver|]. naive_solver.
  - rewrite omap_insert_None by done. apply delete_id. by rewrite lookup_omap, Hfresh.
  - done.
  - intros id'. rewrite lookup_insert_Some, <-Hp. split; [naive_solver|]. intros Hl.
    right. split; [|done]. intros <-. congruence.
  - by apply omap_insert_Some.
Qed.

Lemma follow_up_refines l ticket :
  tickets_ok l →
  match CoroAsyncStack.FollowUpPop (abs l) ticket with
  | (Some v, s') => ∃ l' r, TryPopFollowUp l ticket = (l', r) ∧ v = IntValue r ∧
                      tickets_ok l' ∧ abs l' = s'
  | (None, _) => TryPopFollowUp l ticket = (l, 0)
  end.
Proof.
  intros [Hnd Hp Hi H1]. unfold CoroAsyncStack.FollowUpPop, follow_up_map, TryPopFollowUp.
  rewrite abs_lookup. case_bool_decide as H0.
  { destruct (ticket_state l !! ticket) eqn:Ht; [|done]. apply mk_is_Some, Hi in Ht. lia. }
  destruct (ticket_state l !! ticket) as [[v|]|] eqn:Ht; simpl; [|done|done].
  eexists _, _. split_and!; [done|done| |].
  - split; simpl; [done| | |done].
    + intros id. rewrite lookup_delete_Some, Hp. split; [naive_solver|]. intros Hin.
      split; [|done]. intros <-. apply Hp in Hin. congruence.
    + intros id Hs. apply Hi. destruct Hs as [o Ho]. apply lookup_delete_Some in Ho. naive_solver.
  - unfold abs. simpl. f_equal. apply omap_delete.
Qed.

Lemma tickets_reachable_ok l : tickets_reachable l → tickets_ok l.
Proof.
  induction 1 as [|l v l' _ IH Hs|l l' id _ IH Hs|l ticket l' r _ IH Hs].
  - split; simpl; [constructor| | |done].
    + intros id. rewrite elem_of_nil. by rewrite lookup_empty.
    + intros id [? Hs]. by rewrite lookup_empty in Hs.
  - destruct (push_refines l v IH) as (l1&Hl1&?&_). congruence.
  - destruct (decide (next_ticket l = INT_MAX)) as [Hm|Hm].
    + unfold PopRequest in Hs. by rewrite bool_decide_true in Hs.
    + destruct (request_refines l IH Hm) as (l1&Hl1&?&_). congruence.
  - pose proof (follow_up_refines l ticket IH) as Hf.
    destruct (CoroAsyncStack.FollowUpPop (abs l) ticket) as [[v|] s'].
    + destruct Hf as (l1&r1&Hl1&_&?&_). congruence.
    + congruence.
Qed.
End Tickets.

(** C39. The ticket stack of dual_stack_split.h refines the dual stack of
    coro_async_stack.h: its assertion never fails, every request gets a
    fresh ticket, and [Push], [PopRequest] and [TryPopFollowUp] are [Push],
    [RequestPop] and [FollowUpPop] on the abstract state, an unready
    follow-up answering 0. *)
Theorem dual_stack_split_refines l :
  tickets_reachable l →
  (∀ v, ∃ l', DualStackSplit.Push l v = Ret l' ∧ abs l' = CoroAsyncStack.Push (abs l) v) ∧
  (DualStackSplit.next_ticket l ≠ DualStackSplit.INT_MAX →
   ∃ l', DualStackSplit.PopRequest l = Ret (l', DualStackSplit.next_ticket l) ∧
     DualStackSplit.ticket_state l !! DualStackSplit.next_ticket l = None ∧
     abs l' = CoroAsyncStack.RequestPop (abs l) (DualStackSplit.next_ticket l)) ∧
  (∀ ticket,
   match CoroAsyncStack.FollowUpPop (abs l) ticket with
   | (Some v, s') => ∃ l' r, DualStackSplit.TryPopFollowUp l ticket = (l', r) ∧
                       v = IntValue r ∧ abs l' = s'
   | (None, _) => DualStackSplit.TryPopFollowUp l ticket = (l, 0)
   end).
Proof.
  intros Hok%tickets_reachable_ok. split_and!.
  - intros v. destruct (push_refines l v Hok) as (l'&?&_&?). eauto.
  - intros Hm. destruct (request_refines l Hok Hm) as (l'&?&_&?&?). eauto.
  - intros ticket. pose proof (follow_up_refines l ticket Hok) as Hf.
    destruct (CoroAsyncStack.FollowUpPop (abs l) ticket) as [[v|] s']; [|done].
    destruct Hf as (l'&r&?&?&_&?). eauto.
Qed.

(** ** The unbuffered channel *)
Section Channel.
Import CoroutineQueue.
Implicit Types (s : t) (S : list (Z * Z)) (R : list Z) (D E : gset Z).

(** [S] are the send requests and [R] the receive requests in order, [D] the
    receives and [E] the sends that have returned. *)
Inductive channel_run : list (Z * Z) → list Z → gset Z → gset Z → t → Prop :=
  | channel_init : channel_run [] [] ∅ ∅ (mk [] [] ∅ ∅)
  | channel_send S R D E s id v :
      channel_run S R D E s → id ∉ S.*1 →
      channel_run (S ++ [(id, v)]) R D E (RequestSend s id v)
  | channel_receive S R D E s id :
      channel_run S R D E s → id ∉ R → channel_run S (R ++ [id]) D E (RequestReceive s id)
  | channel_received S R D E s id v s' :
      channel_run S R D E s → FollowUpReceive s id = (Some v, s') →
      channel_run S R ({[id]} ∪ D) E s'
  | channel_sent S R D E s id v s' :
      channel_run S R D E s → FollowUpSend s id = (Some v, s') →
      channel_run S R D ({[id]} ∪ E) s'.

(** The [k]-th receive and the [k]-th send are matched. *)
Definition matched S R (r i v : Z) : Prop :=
  ∃ k, R !! k = Some r ∧ S !! k = Some (i, v).

Record channel_inv S R D E s : Prop := {
  ci_receives : waiting_receives s = drop (length S) R;
  ci_sends : waiting_sends s = drop (length R) S;
  ci_nodup_r : NoDup R;
  ci_nodup_s : NoDup S.*1;
  ci_ready r v : ready_receive_value s !! r = Some v ↔ r ∉ D ∧ ∃ i, matched S R r i v;
  ci_sent i : i ∈ ready_send s ↔ i ∉ E ∧ ∃ r v, matched S R r i v;
  ci_done r : r ∈ D → ∃ i v, matched S R r i v;
  ci_done_s i : i ∈ E → ∃ r v, matched S R r i v;
}.

Lemma matched_send S R r i v x w :
  matched (S ++ [(x, w)]) R r i v ↔
  matched S R r i v ∨ (R !! length S = Some r ∧ i = x ∧ v = w).
Proof.
  unfold matched. split.
  - intros (k&Hr&[?|[-> [= <- <-]]]%lookup_snoc_Some); [left; naive_solver|by right].
  - intros [(k&Hr&Hs)|(Hr&->&->)].
    + exists k. split; [done|]. by apply lookup_app_l_Some.
    + exists (length S). split; [done|]. apply lookup_snoc_Some. by right.
Qed.

Lemma matched_receive S R r i v x :
  matched S (R ++ [x]) r i v ↔
  matched S R r i v ∨ (S !! length R = Some (i, v) ∧ r = x).
Proof.
  unfold matched. split.
  - intros (k&[?|[-> <-]]%lookup_snoc_Some&Hs); [left; naive_solver|by right].
  - intros [(k&Hr&Hs)|(Hs&->)].
    + exists k. split; [|done]. by apply lookup_app_l_Some.
    + exists (length R). split; [|done]. apply lookup_snoc_Some. by right.
Qed.

Lemma drop_head {A} (l : list A) n x rest :
  drop n l = x :: rest → l !! n = Some x ∧ drop (Datatypes.S n) l = rest ∧ (n < length l)%nat.
Proof.
  intros Hd. assert (Hl : l !! n = Some x).
  { rewrite <-(Nat.add_0_r n), <-lookup_drop, Hd. done. }
  split; [done|]. apply lookup_lt_Some in Hl as Hlt. split; [|done].
  rewrite (drop_S l x n Hl) in Hd. by simplify_eq.
Qed.

Lemma matched_fun_r S R r i v i' v' :
  NoDup R → matched S R r i v → matched S R r i' v' → i = i' ∧ v = v'.
Proof.
  intros Hnd (k&Hr&Hs) (k'&Hr'&Hs'). rewrite (NoDup_lookup R k k' r Hnd Hr Hr') in Hs.
  naive_solver.
Qed.

Lemma unmatched_receiver S R r i v : NoDup R → R !! length S = Some r → ¬ matched S R r i v.
Proof.
  intros Hnd Hr (k&Hk&Hs). apply lookup_lt_Some in Hs.
  rewrite (NoDup_lookup R _ _ r Hnd Hk Hr) in Hs. lia.
Qed.

Lemma unmatched_sender S R r i v w :
  NoDup S.*1 → S !! length R = Some (i, w) → ¬ matched S R r i v.
Proof.
  intros Hnd Hi (k&Hk&Hs). apply lookup_lt_Some in Hk.
  assert (k = length R); [|lia]. apply (NoDup_lookup S.*1 _ _ i Hnd);
    rewrite list_lookup_fmap; [by rewrite Hs|by rewrite Hi].
Qed.

Lemma new_sender S R r i v : i ∉ S.*1 → ¬ matched S R r i v.
Proof.
  intros Hi (k&_&Hs). apply Hi, list_elem_of_fmap. exists (i, v).
  split; [done|]. by eapply list_elem_of_lookup_2.
Qed.

Lemma new_receiver S R r i v : r ∉ R → ¬ matched S R r i v.
Proof. intros Hr (k&Hk&_). apply Hr. by eapply list_elem_of_lookup_2. Qed.

Lemma channel_send_inv S R D E s id v :
  channel_inv S R D E s → id ∉ S.*1 → channel_inv (S ++ [(id, v)]) R D E (RequestSend s id v).
Proof.
  intros [Hwr Hws Hnr Hns Hready Hsent Hd He] Hid.
  assert (Hns' : NoDup (S ++ [(id, v)]).*1).
  { rewrite fmap_app. simpl. apply NoDup_app. split_and!; [done| |by apply NoDup_singleton].
    set_solver. }
  assert (Hd' : ∀ r, r ∈ D → ∃ i w, matched (S ++ [(id, v)]) R r i w).
  { intros r (i&w&?)%Hd. exists i, w. apply matched_send. by left. }
  assert (He' : ∀ i, i ∈ E → ∃ r w, matched (S ++ [(id, v)]) R r i w).
  { intros i (r&w&?)%He. exists r, w. apply matched_send. by left. }
  unfold RequestSend. destruct (waiting_receives s) as [|r0 rest] eqn:Hw.
  - symmetry in Hwr. assert (Hlen : (length R ≤ length S)%nat).
    { apply (f_equal length) in Hwr. rewrite length_drop in Hwr. simpl in Hwr. lia. }
    assert (Hnone : R !! length S = None) by (by apply lookup_ge_None).
    split; simpl; try done.
    + rewrite drop_ge; [done|]. rewrite length_app. lia.
    + by rewrite Hws, drop_app_le.
    + intros r w. rewrite Hready. setoid_rewrite matched_send. naive_solver.
    + intros i. rewrite Hsent. setoid_rewrite matched_send. naive_solver.
  - symmetry in Hwr. apply drop_head in Hwr as (Hr0&Hrest&Hlt).
    assert (Hfresh : r0 ∉ D) by (intros (?&?&Hm)%Hd; by eapply unmatched_receiver in Hm).
    assert (HfreshE : id ∉ E) by (intros (?&?&Hm)%He; by eapply new_sender in Hm).
    split; simpl; try done.
    + rewrite length_app. simpl. by rewrite Nat.add_1_r.
    + rewrite Hws, !drop_ge; [done|rewrite ?length_app; simpl; lia..].
    + intros r w. rewrite lookup_insert_Some, Hready. setoid_rewrite matched_send. split.
      * intros [[<- <-]|(Hne&HnD&i&Hm)]; [eauto 10|]. eauto 10.
      * intros (HnD&i&[Hm|(Hr&->&->)]); [|left; naive_solver].
        right. split; [|eauto]. intros <-. by eapply unmatched_receiver in Hm.
    + intros i. rewrite elem_of_union, elem_of_singleton, Hsent. setoid_rewrite matched_send.
      split; [naive_solver|]. intros (HnE&r&w&[Hm|(_&->&_)]); [|by left]. right. eauto.
Qed.

Lemma channel_receive_inv S R D E s id :
  channel_inv S R D E s → id ∉ R → channel_inv S (R ++ [id]) D E (RequestReceive s id).
Proof.
  intros [Hwr Hws Hnr Hns Hready Hsent Hd He] Hid.
  assert (Hnr' : NoDup (R ++ [id])).
  { apply NoDup_app. split_and!; [done| |by apply NoDup_singleton]. set_solver. }
  assert (Hd' : ∀ r, r ∈ D → ∃ i w, matched S (R ++ [id]) r i w).
  { intros r (i&w&?)%Hd. exists i, w. apply matched_receive. by left. }
  assert (He' : ∀ i, i ∈ E → ∃ r w, matched S (R ++ [id]) r i w).
  { intros i (r&w&?)%He. exists r, w. apply matched_receive. by left. }
  unfold RequestReceive. destruct (waiting_sends s) as [|[i0 v0] rest] eqn:Hw.
  - symmetry in Hws. assert (Hlen : (length S ≤ length R)%nat).
    { apply (f_equal length) in Hws. rewrite length_drop in Hws. simpl in Hws. lia. }
    assert (Hnone : S !! length R = None) by (by apply lookup_ge_None).
    split; simpl; try done.
    + by rewrite Hwr, drop_app_le.
    + rewrite drop_ge; [done|]. rewrite length_app. lia.
    + intros r w. rewrite Hready. setoid_rewrite matched_receive. naive_solver.
    + intros i. rewrite Hsent. setoid_rewrite matched_receive. naive_solver.
  - symmetry in Hws. apply drop_head in Hws as (Hi0&Hrest&Hlt).
    assert (Hfresh : id ∉ D) by (intros (?&?&Hm)%Hd; by eapply new_receiver in Hm).
    assert (HfreshE : i0 ∉ E) by (intros (?&?&Hm)%He; by eapply unmatched_sender in Hm).
    split; simpl; try done.
    + rewrite Hwr, !drop_ge; [done|rewrite ?length_app; simpl; lia..].
    + rewrite length_app. simpl. by rewrite Nat.add_1_r.
    + intros r w. rewrite lookup_insert_Some, Hready. setoid_rewrite matched_receive. split.
      * intros [[<- <-]|(Hne&HnD&i&Hm)]; [eauto 10|]. eauto 10.
      * intros (HnD&i&[Hm|(Hs&->)]); [|left; naive_solver].
        right. split; [|eauto]. intros <-. by eapply new_receiver in Hm.
    + intros i. rewrite elem_of_union, elem_of_singleton, Hsent. setoid_rewrite matched_receive.
      split; [naive_solver|]. intros (HnE&r&w&[Hm|(Hs&_)]); [right; eauto|]. left. naive_solver.
Qed.

Lemma channel_run_inv S R D E s : channel_run S R D E s → channel_inv S R D E s.
Proof.
  induction 1 as [|S R D E s id v _ IH Hid|S R D E s id _ IH Hid|S R D E s id v s' _ IH Hf
                 |S R D E s id v s' _ IH Hf].
  - split; simpl; try done; try constructor; unfold matched; set_solver.
  - by apply channel_send_inv.
  - by apply channel_receive_inv.
  - apply follow_up_map_ret in Hf as (x&Hx&_&->).
    destruct IH as [Hwr Hws Hnr Hns Hready Hsent Hd He]. split; simpl; try done.
    + intros r w. rewrite lookup_delete_Some, Hready, not_elem_of_union, not_elem_of_singleton.
      naive_solver.
    + intros r [->%elem_of_singleton|Hr]%elem_of_union; [|by apply Hd].
      apply Hready in Hx. naive_solver.
  - apply follow_up_set_ret in Hf as (Hx&_&->).
    destruct IH as [Hwr Hws Hnr Hns Hready Hsent Hd He]. split; simpl; try done.
    + intros i. rewrite elem_of_difference, Hsent, not_elem_of_union, elem_of_singleton.
      naive_solver.
    + intros i [->%elem_of_singleton|Hi]%elem_of_union; [|by apply He]. apply Hsent in Hx. naive_solver.
Qed.
End Channel.

(** The channel specification pairs requests in order: the [k]-th
    receive is answered with the value of the [k]-th send, both follow-ups
    are ready once the two requests are made, a receive without its send has
    no answer, and senders and receivers never wait at the same time. *)
Theorem coroutine_queue_pairs S R D E s :
  channel_run S R D E s →
  (CoroutineQueue.waiting_receives s = [] ∨ CoroutineQueue.waiting_sends s = []) ∧
  (∀ k r i v, R !! k = Some r → S !! k = Some (i, v) →
    (r ∉ D → (CoroutineQueue.FollowUpReceive s r).1 = Some (IntValue v)) ∧
    (i ∉ E → (CoroutineQueue.FollowUpSend s i).1 = Some VoidValue)) ∧
  (∀ k r, R !! k = Some r → (length S ≤ k)%nat → (CoroutineQueue.FollowUpReceive s r).1 = None).
Proof.
  intros [Hwr Hws Hnr Hns Hready Hsent Hd He]%channel_run_inv. split_and!.
  - rewrite Hwr, Hws. destruct (decide (length R ≤ length S)%nat); [left|right]; apply drop_ge; lia.
  - intros k r i v Hr Hs. split.
    + intros Hn. unfold CoroutineQueue.FollowUpReceive, follow_up_map.
      by rewrite (proj2 (Hready r v)) by (split; [done|]; exists i, k; done).
    + intros Hn. unfold CoroutineQueue.FollowUpSend, follow_up_set.
      rewrite bool_decide_true; [done|]. apply Hsent. split; [done|]. exists r, v, k. done.
  - intros k r Hr Hk. unfold CoroutineQueue.FollowUpReceive, follow_up_map.
    destruct (CoroutineQueue.ready_receive_value s !! r) as [v|] eqn:Hv; [|done].
    apply Hready in Hv as (_&i&k'&Hk'&Hs). apply lookup_lt_Some in Hs.
    rewrite (NoDup_lookup R k' k r Hnr Hk' Hr) in Hs. lia.
Qed.
