(* ===== verification/Effects.v ===== *)
(** * State and failure

    The scheduler, its strategies and the minimizers mutate shared state and
    can fail: they are computations of the monad [M S], functions from a state
    to an [outcome] of a result and the next state. [hoare] is its program
    logic: [wp] excludes every failure, [safe] admits only that a loop runs
    out of its fuel. *)
From stdpp Require Import base list.
From S2P Require Import Prelude.

Definition M (S A : Type) : Type := S → outcome (A * S).

#[export] Instance M_ret {S} : MRet (M S) := λ A a s, Ret (a, s).
#[export] Instance M_bind {S} : MBind (M S) := λ A B f m s,
  match m s with
  | Ret (a, s') => f a s'
  | Throw w => Throw w
  | AssertFail => AssertFail
  | UB => UB
  | OutOfFuel => OutOfFuel
  end.

Section Operations.
Context {S : Type}.

Definition get : M S S := λ s, Ret (s, s).
Definition gets {A} (f : S → A) : M S A := λ s, Ret (f s, s).
Definition modify (f : S → S) : M S unit := λ s, Ret ((), f s).
Definition lift {A} (o : outcome A) : M S A := λ s,
  match o with
  | Ret a => Ret (a, s)
  | Throw w => Throw w
  | AssertFail => AssertFail
  | UB => UB
  | OutOfFuel => OutOfFuel
  end.
(** [assert] and element access. *)
Definition massert (b : bool) : M S unit := lift (cassert b).
Definition mderef {A} (o : option A) : M S A := lift (deref o).
Definition mwhen (b : bool) (m : M S unit) : M S unit := if b then m else mret ().

Fixpoint for_each {A} (f : A → M S unit) (l : list A) : M S unit :=
  match l with
  | [] => mret ()
  | x :: l => f x;; for_each f l
  end.

(** ** The program logic: [fuel] says whether running out of fuel is allowed. *)
Definition hoare {A} (fuel : Prop) (m : M S A) (Q : A → S → Prop) (s : S) : Prop :=
  match m s with
  | Ret (a, s') => Q a s'
  | OutOfFuel => fuel
  | _ => False
  end.

Lemma hoare_ret {A} fuel (a : A) Q s : Q a s → hoare fuel (mret a) Q s.
Proof. done. Qed.

Lemma hoare_bind {A B} fuel (m : M S A) (f : A → M S B) Q s :
  hoare fuel m (λ a s', hoare fuel (f a) Q s') s → hoare fuel (m ≫= f) Q s.
Proof. unfold hoare, mbind, M_bind. by destruct (m s) as [[a s']| | | |]. Qed.

Lemma hoare_weaken {A} fuel (m : M S A) (P Q : A → S → Prop) s :
  hoare fuel m P s → (∀ a s', P a s' → Q a s') → hoare fuel m Q s.
Proof. unfold hoare. destruct (m s) as [[a s']| | | |]; auto. Qed.

Lemma hoare_fuel {A} (fuel fuel' : Prop) (m : M S A) Q s :
  hoare fuel m Q s → (fuel → fuel') → hoare fuel' m Q s.
Proof. unfold hoare. destruct (m s) as [[a s']| | | |]; auto. Qed.

Lemma hoare_get fuel (Q : S → S → Prop) s : Q s s → hoare fuel get Q s.
Proof. done. Qed.
Lemma hoare_gets {A} fuel (f : S → A) Q s : Q (f s) s → hoare fuel (gets f) Q s.
Proof. done. Qed.
Lemma hoare_modify fuel f (Q : unit → S → Prop) s : Q () (f s) → hoare fuel (modify f) Q s.
Proof. done. Qed.
Lemma hoare_assert fuel b (Q : unit → S → Prop) s : b = true → Q () s → hoare fuel (massert b) Q s.
Proof. by intros ->. Qed.
Lemma hoare_deref {A} fuel (o : option A) a Q s :
  o = Some a → Q a s → hoare fuel (mderef o) Q s.
Proof. by intros ->. Qed.

(** A loop keeps what its body keeps. *)
Lemma hoare_for_each {A} fuel (f : A → M S unit) (I : S → Prop) l s :
  (∀ x s, x ∈ l → I s → hoare fuel (f x) (λ _, I) s) → I s →
  hoare fuel (for_each f l) (λ _, I) s.
Proof.
  revert s. induction l as [|x l IH]; intros s Hf Hs; simpl; [done|].
  apply hoare_bind. eapply hoare_weaken; [by apply Hf; [left|]|]. intros ? s' Hs'.
  apply IH; [|done]. intros y t Hy. apply Hf. by right.
Qed.

(** What [hoare] says of a computation that returned. *)
Lemma hoare_inv {A} fuel (m : M S A) Q s a s' : hoare fuel m Q s → m s = Ret (a, s') → Q a s'.
Proof. intros H Hm. unfold hoare in H. by rewrite Hm in H. Qed.

Lemma hoare_run {A} (m : M S A) Q s :
  hoare False m Q s → ∃ a s', m s = Ret (a, s') ∧ Q a s'.
Proof. unfold hoare. destruct (m s) as [[a s']| | | |]; naive_solver. Qed.

(** Running a bind. *)
Lemma bind_run {A B} (m : M S A) (f : A → M S B) s a s' : m s = Ret (a, s') → (m ≫= f) s = f a s'.
Proof. intros H. unfold mbind, M_bind. by rewrite H. Qed.

Lemma bind_throw {A B} (m : M S A) (f : A → M S B) s what : m s = Throw what → (m ≫= f) s = Throw what.
Proof. intros H. unfold mbind, M_bind. by rewrite H. Qed.

Lemma bind_ret_inv {A B} (m : M S A) (f : A → M S B) s r :
  (m ≫= f) s = Ret r → ∃ a s', m s = Ret (a, s') ∧ f a s' = Ret r.
Proof. unfold mbind, M_bind. destruct (m s) as [[a s']| | | |]; naive_solver. Qed.

(** A failed assertion stays one, whatever follows it. *)
Lemma bind_assert {A B C} (m : M S A) (f : A → M S B) (g : A → B → M S C) s :
  (m ≫= f) s = AssertFail → (m ≫= λ a, f a ≫= g a) s = AssertFail.
Proof. unfold mbind, M_bind. destruct (m s) as [[a s']| | | |]; [|done..]. by intros ->. Qed.

(** ** Fuel

    [extends m m']: where [m] does not run out of fuel, [m'] does the same. *)
Definition extends {A} (m m' : M S A) : Prop := ∀ s, m s = OutOfFuel ∨ m' s = m s.

Lemma extends_refl {A} (m : M S A) : extends m m.
Proof. intros s. by right. Qed.

Lemma extends_bind {A B} (m m' : M S A) (f f' : A → M S B) :
  extends m m' → (∀ a, extends (f a) (f' a)) → extends (m ≫= f) (m' ≫= f').
Proof.
  intros Hm Hf s. unfold mbind, M_bind. destruct (Hm s) as [->| ->]; [by left|].
  destruct (m s) as [[a s']| | | |]; [apply Hf|by right..].
Qed.

End Operations.

Notation wp m Q s := (hoare False m Q s).
Notation safe m Q s := (hoare True m Q s).

(** Run a computation on a part of a larger state. *)
Definition zoom {S T A} (proj : S → T) (upd : T → S → S) (m : M T A) : M S A := λ s,
  match m (proj s) with
  | Ret (a, t) => Ret (a, upd t s)
  | Throw w => Throw w
  | AssertFail => AssertFail
  | UB => UB
  | OutOfFuel => OutOfFuel
  end.

Lemma hoare_zoom {S T A} (proj : S → T) upd fuel (m : M T A) (Q : A → S → Prop) s :
  hoare fuel m (λ a t, Q a (upd t s)) (proj s) → hoare fuel (zoom proj upd m) Q s.
Proof. unfold hoare, zoom. by destruct (m (proj s)) as [[a t]| | | |]. Qed.

(** Steps through the binds of a computation. *)
Ltac mstep :=
  lazymatch goal with
  | |- hoare _ (_ ≫= _) _ _ => apply hoare_bind
  | |- hoare _ (mret _) _ _ => apply hoare_ret
  | |- hoare _ get _ _ => apply hoare_get
  | |- hoare _ (gets _) _ _ => apply hoare_gets
  | |- hoare _ (modify _) _ _ => apply hoare_modify
  | |- hoare _ (zoom _ _ _) _ _ => apply hoare_zoom
  | |- hoare _ (mwhen true _) _ _ => unfold mwhen
  | |- hoare _ (mwhen false _) _ _ => apply hoare_ret
  end.
Ltac msteps := repeat (mstep; cbn beta).
