(* ===== verification/Runtime.v ===== *)
(** * Coroutines

    Models [CoroBase], [Coro] and [TaskBuilder] of runtime/include/lib.h and
    runtime/lib.cpp. A task is a pointer to a coroutine object in a heap.
    The code under test runs inside a fibre, which is not modelled: a
    parameter says which runtime functions a fibre calls until it yields,
    returns or fails. Everything else it can touch is [Memory]. *)
From stdpp Require Import base list gmap strings.
From Stdlib Require Import ZArith.
From S2P Require Import Prelude Effects BlockManager.

(** What a target is made of: arguments and results of its methods, the
    functions that tasks run, suspended fibres, and the memory they share. *)
Class TargetTypes := {
  Args : Type;
  Value : Type;
  Func : Type;
  Fiber : Type;
  Memory : Type;
  empty_value : Value;
  void_v : Value;
  no_args : Args;
}.

Section Types.
Context `{TargetTypes}.

Inductive DualEventKind := DualRequestResponse | DualFollowUpInvoke | DualFollowUpResponse.

Record DualEvent := mkDualEvent { de_kind : DualEventKind; de_seqno : Z; de_result : Value }.

(** [CoroBase] and the fields of [Coro] that [Restart] copies. *)
Record Coro := mkCoro {
  co_id : Z;
  co_name : string;
  co_func : Func;
  co_this : nat;
  co_args : Args;
  co_dual : bool;
  co_ret : Value;
  co_returned : bool;
  co_wakeup : option (Memory → bool);
  co_fstate : BlockState;
  co_ctx : option Fiber;
  co_events : list DualEvent;
}.

Inductive ThreadInfo :=
  | CreatedThreadInfo (function : Func) (name : string)
  | JoinThreadInfo (thread_id : nat) (retval : option nat).

(** The globals of the runtime. *)
Record Runtime := mkRuntime {
  heap : gmap nat Coro;
  next_ptr : nat;
  block_manager : Queues;
  g_dual_event_seqno : Z;
  thread_info : option ThreadInfo;
  current_max_thread_id : Z;
  test_failure : option string;
  memory : Memory;
}.

(** The calls of the running code into the runtime, all on [this_coro]. *)
Inductive action :=
  | Writes (m : Memory)
  | CallsEmitDualEvent (kind : DualEventKind) (result : Value)
  | CallsSetBlocked (state : BlockState)
  | CallsSetWakeupCondition (cond : Memory → bool)
  | CallsClearWakeupCondition
  | CallsUnblockOn (a : Z) (max_wakes : nat)
  | CallsUnblockAllOn (a : Z)
  | CallsTerminateWith (v : Value)
  | RequestsThread (info : ThreadInfo).

(** How the fibre gives control back. *)
Inductive fiber_end :=
  | Yields (f : Fiber)
  | Returns (v : Value)
  | Fails (message : string)
  | Escapes (what : string).

End Types.

Class TargetCode `{TargetTypes} := {
  fiber_new : Func → nat → Args → Fiber;
  fiber_run : Fiber → Runtime → nat → list action * fiber_end;
}.

Section Runtime.
Context `{TargetCode}.
Implicit Types (c : Coro) (rt : Runtime) (p : nat).

(** ** Access to the heap and the globals *)

Definition set_heap h rt : Runtime :=
  mkRuntime h (next_ptr rt) (block_manager rt) (g_dual_event_seqno rt) (thread_info rt)
    (current_max_thread_id rt) (test_failure rt) (memory rt).
Definition set_queues q rt : Runtime :=
  mkRuntime (heap rt) (next_ptr rt) q (g_dual_event_seqno rt) (thread_info rt)
    (current_max_thread_id rt) (test_failure rt) (memory rt).
Definition set_thread_info i rt : Runtime :=
  mkRuntime (heap rt) (next_ptr rt) (block_manager rt) (g_dual_event_seqno rt) i
    (current_max_thread_id rt) (test_failure rt) (memory rt).
Definition set_max_thread_id n rt : Runtime :=
  mkRuntime (heap rt) (next_ptr rt) (block_manager rt) (g_dual_event_seqno rt) (thread_info rt)
    n (test_failure rt) (memory rt).
Definition set_seqno n rt : Runtime :=
  mkRuntime (heap rt) (next_ptr rt) (block_manager rt) n (thread_info rt)
    (current_max_thread_id rt) (test_failure rt) (memory rt).
Definition set_memory m rt : Runtime :=
  mkRuntime (heap rt) (next_ptr rt) (block_manager rt) (g_dual_event_seqno rt) (thread_info rt)
    (current_max_thread_id rt) (test_failure rt) m.

Definition get_coro p : M Runtime Coro := rt ← get; mderef (heap rt !! p).
Definition set_coro p c : M Runtime unit := modify (λ rt, set_heap (<[p := c]> (heap rt)) rt).
Definition update_coro p (f : Coro → Coro) : M Runtime unit := c ← get_coro p; set_coro p (f c).

(** ** [CoroBase] *)

Definition set_state (returned : bool) (v : Value) c : Coro :=
  mkCoro (co_id c) (co_name c) (co_func c) (co_this c) (co_args c) (co_dual c) v returned
    (co_wakeup c) (co_fstate c) (co_ctx c) (co_events c).
Definition set_ctx (f : option Fiber) c : Coro :=
  mkCoro (co_id c) (co_name c) (co_func c) (co_this c) (co_args c) (co_dual c) (co_ret c)
    (co_returned c) (co_wakeup c) (co_fstate c) f (co_events c).
Definition set_fstate (s : BlockState) c : Coro :=
  mkCoro (co_id c) (co_name c) (co_func c) (co_this c) (co_args c) (co_dual c) (co_ret c)
    (co_returned c) (co_wakeup c) s (co_ctx c) (co_events c).
Definition setWakeupCondition (cond : Memory → bool) c : Coro :=
  mkCoro (co_id c) (co_name c) (co_func c) (co_this c) (co_args c) (co_dual c) (co_ret c)
    (co_returned c) (Some cond) (co_fstate c) (co_ctx c) (co_events c).
Definition clearWakeupCondition c : Coro :=
  mkCoro (co_id c) (co_name c) (co_func c) (co_this c) (co_args c) (co_dual c) (co_ret c)
    (co_returned c) None (co_fstate c) (co_ctx c) (co_events c).
Definition set_events (l : list DualEvent) c : Coro :=
  mkCoro (co_id c) (co_name c) (co_func c) (co_this c) (co_args c) (co_dual c) (co_ret c)
    (co_returned c) (co_wakeup c) (co_fstate c) (co_ctx c) l.
Definition SetDual (b : bool) c : Coro :=
  mkCoro (co_id c) (co_name c) (co_func c) (co_this c) (co_args c) b (co_ret c)
    (co_returned c) (co_wakeup c) (co_fstate c) (co_ctx c) (co_events c).

Definition hasWakeupCondition c : bool := bool_decide (is_Some (co_wakeup c)).
Definition checkWakeupCondition (m : Memory) c : bool :=
  match co_wakeup c with Some cond => cond m | None => false end.

Definition DestroyContext c : Coro := set_ctx None c.

Definition Terminate c : Coro :=
  DestroyContext (clearWakeupCondition (set_fstate (mkBlockState 0 0) (set_state true (co_ret c) c))).
Definition TerminateWith (v : Value) c : Coro := let c := Terminate c in set_state (co_returned c) v c.
Definition DiscardRoundResults c : Coro := set_events [] (set_state (co_returned c) empty_value c).

Definition EmitDualEvent p (kind : DualEventKind) (result : Value) : M Runtime unit :=
  rt ← get;
  update_coro p (λ c, set_events (co_events c ++ [mkDualEvent kind (g_dual_event_seqno rt) result]) c);;
  modify (λ rt, set_seqno ((g_dual_event_seqno rt + 1) mod 2 ^ 64)%Z rt).

Definition HasDualEvents c : bool := match co_events c with [] => false | _ => true end.

Definition DrainDualEvents p : M Runtime (list DualEvent) :=
  c ← get_coro p; set_coro p (set_events [] c);; mret (co_events c).

Definition GetRetVal p : M Runtime Value :=
  c ← get_coro p; massert (co_returned c);; mret (co_ret c).

Definition IsBlocked p : M Runtime bool :=
  c ← get_coro p;
  rt ← get;
  let '(b, q) := CoroIsBlocked (block_manager rt) (co_fstate c)
                   (match co_wakeup c with
                    | Some _ => Some (checkWakeupCondition (memory rt) c)
                    | None => None
                    end) p in
  modify (set_queues q);; mret b.

Definition SetTestFailure (message : string) : M Runtime unit :=
  modify (λ rt, mkRuntime (heap rt) (next_ptr rt) (block_manager rt) (g_dual_event_seqno rt)
                  (thread_info rt) (current_max_thread_id rt) (Some message) (memory rt)).
Definition HasTestFailure rt : bool := bool_decide (is_Some (test_failure rt)).
Definition ClearTestFailure : M Runtime unit :=
  modify (λ rt, mkRuntime (heap rt) (next_ptr rt) (block_manager rt) (g_dual_event_seqno rt)
                  (thread_info rt) (current_max_thread_id rt) None (memory rt)).

(** ** [Coro] *)

Definition New (func : Func) (this_ptr : nat) (args : Args) (name : string) (task_id : Z) :
    M Runtime nat :=
  rt ← get;
  let p := next_ptr rt in
  modify (λ rt, mkRuntime
    (<[p := mkCoro task_id name func this_ptr args false empty_value false None
              (mkBlockState 0 0) (Some (fiber_new func this_ptr args)) []]> (heap rt))
    (S p) (block_manager rt) (g_dual_event_seqno rt) (thread_info rt)
    (current_max_thread_id rt) (test_failure rt) (memory rt));;
  mret p.

Definition Restart p (this_ptr : nat) : M Runtime nat :=
  c ← get_coro p;
  massert (co_returned c);;
  q ← New (co_func c) this_ptr (co_args c) (co_name c) (co_id c);
  update_coro q (SetDual (co_dual c));;
  mret q.

(** One call of the running fibre into the runtime. [pthread_create] and
    [pthread_join] assert that no request is outstanding. *)
Definition run_action p (a : action) : M Runtime unit :=
  match a with
  | Writes m => modify (set_memory m)
  | CallsEmitDualEvent kind result => EmitDualEvent p kind result
  | CallsSetBlocked s =>
      update_coro p (set_fstate s);; modify (λ rt, set_queues (BlockOn (block_manager rt) s p) rt)
  | CallsSetWakeupCondition cond => update_coro p (setWakeupCondition cond)
  | CallsClearWakeupCondition => update_coro p clearWakeupCondition
  | CallsUnblockOn a n => modify (λ rt, set_queues (UnblockOn (block_manager rt) a n).2 rt)
  | CallsUnblockAllOn a => modify (λ rt, set_queues (UnblockAllOn (block_manager rt) a) rt)
  | CallsTerminateWith v => update_coro p (TerminateWith v)
  | RequestsThread info =>
      rt ← get;
      massert (negb (bool_decide (is_Some (thread_info rt))));;
      modify (set_thread_info (Some info));;
      match info with
      | CreatedThreadInfo _ _ => modify (λ rt, set_max_thread_id (current_max_thread_id rt + 1)%Z rt)
      | JoinThreadInfo _ _ => mret ()
      end
  end.

(** The end of a slice: the fibre is suspended again or its function is done. *)
Definition finish_slice p (e : fiber_end) : M Runtime unit :=
  match e with
  | Yields f => update_coro p (set_ctx (Some f))
  | Returns v => update_coro p (set_state true v)
  | Fails message => SetTestFailure message;; update_coro p (set_state true void_v)
  | Escapes what => lift (Throw what)
  end.

Definition Resume p (resumed_thread_id : nat) : M Runtime unit :=
  c ← get_coro p;
  massert (negb (co_returned c) && bool_decide (is_Some (co_ctx c)));;
  f ← mderef (co_ctx c);
  set_coro p (set_ctx None c);;
  rt ← get;
  let '(actions, e) := fiber_run f rt resumed_thread_id in
  for_each (run_action p) actions;;
  finish_slice p e.

(** ** [TaskBuilder]: the builders of verifying_macro.h generate the
    arguments for the thread and mark dual tasks. *)
Record TaskBuilder := mkBuilder {
  tb_name : string;
  tb_func : Func;
  tb_gen : Memory → nat → Args * Memory;
  tb_dual : bool;
}.

Definition Build (b : TaskBuilder) (this_ptr thread_id : nat) (task_id : Z) : M Runtime nat :=
  rt ← get;
  let '(args, m) := tb_gen b (memory rt) thread_id in
  modify (set_memory m);;
  p ← New (tb_func b) this_ptr args (tb_name b) task_id;
  update_coro p (SetDual (tb_dual b));;
  mret p.

End Runtime.
