(* ===== verification/DualMethods.v ===== *)
(** * Methods that wait

    The wrappers that runtime/include/verifying_macro.h puts around methods
    which return awaiters: [TargetDualMethod], whose code may be interrupted
    wherever it is not under a guard, and [TargetAwaitableMethod], which is
    atomic up to its yields. What the awaiter of the target answers is a
    parameter of a call: [aw_ready] of [await_ready], [aw_suspended] of
    [await_suspend], [result] of [await_resume]. The waker may run at any time
    after it was made, also inside [await_suspend] or the executor. *)
From stdpp Require Import base list gmap relations strings.
From Stdlib Require Import ZArith.
From S2P Require Import Prelude BlockManager Effects Runtime.

Open Scope nat_scope.

Section DualMethods.
Context {V : Type} (void_v : V).
(** The awaiter, and whether it wants its request seen before it suspends. *)
Context (aw_ready aw_suspended : bool) (result : V) (emit_request_before_suspend : bool).
(** Whether the wrapper records dual events, the coroutine and the address
    of its wait state. *)
Context (dual : bool) (coro : nat) (a : Z) (a_nonnull : a ≠ 0%Z).

(** Where the wrapper can be interrupted: before each call of the awaiter and
    each guarded block. *)
Inductive pc :=
  | CallsReady | Immediate | Setup | MakesWaker | EarlyRequest | CallsSuspend | NotSuspended
  | Suspended | Looping | Blocking | Yielded | Woken | CallsResume | Responding | Done | AssertFailed.

#[global] Instance dual_pc_eq_dec : EqDecision pc.
Proof. solve_decision. Defined.

(** [ready] is the flag of the wait state, [None] before it is allocated;
    [cond] says whether the wake-up condition is set. *)
Record st := mkSt {
  at_pc : pc;
  ready : option bool;
  cond : bool;
  queues : Queues;
  events : list (DualEventKind * V);
}.
Implicit Types (s : st) (p : pc).

Definition goto p s : st := mkSt p (ready s) (cond s) (queues s) (events s).
Definition emit (l : list (DualEventKind * V)) s : st :=
  mkSt (at_pc s) (ready s) (cond s) (queues s) (if dual then events s ++ l else events s).

Definition dual_emit_request_done : DualEventKind * V := (DualRequestResponse, void_v).
Definition dual_emit_followup_invoke : DualEventKind * V := (DualFollowUpInvoke, void_v).
Definition dual_emit_followup_done : DualEventKind * V := (DualFollowUpResponse, result).

Definition is_ready s : bool := default false (ready s).

(** The guarded block of the loop: block, unless the waker has run. *)
Definition block_or_leave s : st :=
  let q := (SetBlocked (queues s) (mkBlockState a 0) coro).2 in
  if is_ready s then mkSt Woken (ready s) (cond s) (UnblockAllOn q a) (events s)
  else mkSt Yielded (ready s) (cond s) q (events s).

(** One step of [run_with]. *)
Definition run_step s : st :=
  match at_pc s with
  | CallsReady => goto (if aw_ready then Immediate else Setup) s
  | Immediate => goto CallsResume (emit [dual_emit_request_done; dual_emit_followup_invoke] s)
  | Setup => mkSt MakesWaker (Some false) true (queues s) (events s)
  | MakesWaker => goto EarlyRequest s
  | EarlyRequest =>
      goto CallsSuspend (if emit_request_before_suspend then emit [dual_emit_request_done] s else s)
  | CallsSuspend => goto (if aw_suspended then Suspended else NotSuspended) s
  | NotSuspended =>
      goto CallsResume
        (emit [dual_emit_followup_invoke] (if emit_request_before_suspend then s else emit [dual_emit_request_done] s))
  | Suspended => goto Looping (if emit_request_before_suspend then s else emit [dual_emit_request_done] s)
  | Looping => goto (if is_ready s then Woken else Blocking) s
  | Blocking => block_or_leave s
  | Yielded => goto Looping s
  | Woken =>
      if is_ready s then
        goto CallsResume (emit [dual_emit_followup_invoke] (mkSt Woken (ready s) false (queues s) (events s)))
      else goto AssertFailed s
  | CallsResume => goto Responding s
  | Responding => goto Done (emit [dual_emit_followup_done] s)
  | Done | AssertFailed => s
  end.

(** The body of the waker. *)
Definition wake s : st := mkSt (at_pc s) (Some true) (cond s) (UnblockAllOn (queues s) a) (events s).

Definition blocked s : bool :=
  (CoroIsBlocked (queues s) (mkBlockState a 0) (if cond s then Some (is_ready s) else None) coro).1.

(** A step of the task: a task that yielded runs only when it is not blocked. *)
Definition own_step s s' : Prop :=
  at_pc s ≠ Done ∧ at_pc s ≠ AssertFailed ∧ (at_pc s = Yielded → blocked s = false) ∧ s' = run_step s.

(** The waker exists once it was made; the rest of the program uses other
    addresses, may unblock everything, and the scheduler clears the condition
    of a task before it resumes it. *)
Inductive step : st → st → Prop :=
  | step_own s s' : own_step s s' → step s s'
  | step_wake s : ready s = Some false → at_pc s ≠ MakesWaker → step s (wake s)
  | step_others s q : waiting q a = waiting (queues s) a ∨ waiting q a = [] →
      step s (mkSt (at_pc s) (ready s) (cond s) q (events s))
  | step_clear s : step s (mkSt (at_pc s) (ready s) false (queues s) (events s)).

Inductive reachable : st → Prop :=
  | reach_call q : waiting q a = [] → reachable (mkSt CallsReady None false q [])
  | reach_step s s' : reachable s → step s s' → reachable s'.

(** ** The events of a call *)

Definition trace : list (DualEventKind * V) :=
  [dual_emit_request_done; dual_emit_followup_invoke; dual_emit_followup_done].

(** How many of them have been emitted. *)
Definition emitted_at p : nat :=
  match p with
  | CallsReady | Immediate | Setup | MakesWaker | EarlyRequest => 0
  | CallsSuspend | NotSuspended | Suspended => if emit_request_before_suspend then 1 else 0
  | Looping | Blocking | Yielded | Woken => 1
  | CallsResume | Responding => 2
  | Done => 3
  | AssertFailed => 0
  end.

(** The phases of a call that waits. *)
Definition before_wait p : Prop := p = CallsReady ∨ p = Immediate ∨ p = Setup.
Definition after_wait p : Prop := p = Woken ∨ p = CallsResume ∨ p = Responding ∨ p = Done.

(** The branch that led here. *)
Definition branch p : Prop :=
  match p with
  | CallsReady | AssertFailed => True
  | Immediate => aw_ready = true
  | Setup | MakesWaker | EarlyRequest | CallsSuspend => aw_ready = false
  | NotSuspended => aw_ready = false ∧ aw_suspended = false
  | Suspended | Looping | Blocking | Yielded | Woken => aw_ready = false ∧ aw_suspended = true
  | CallsResume | Responding | Done => True
  end.

Record inv s : Prop := {
  iv_events : events s = if dual then take (emitted_at (at_pc s)) trace else [];
  iv_fail : at_pc s ≠ AssertFailed;
  iv_branch : branch (at_pc s);
  iv_ready : ready s = Some true → coro ∉ waiting (queues s) a;
  iv_wait : aw_ready = false → aw_suspended = true → after_wait (at_pc s) → ready s = Some true;
  iv_alloc : before_wait (at_pc s) → ready s = None;
}.

Lemma blocked_waiting s :
  blocked s = bool_decide (coro ∈ waiting (queues s) a) && negb (cond s && is_ready s).
Proof.
  unfold blocked, CoroIsBlocked.
  destruct (IsBlocked_waiting (queues s) (mkBlockState a 0) coro a_nonnull) as [Hb _].
  destruct (BlockManager.IsBlocked (queues s) (mkBlockState a 0) coro) as [b q]. simpl in *. subst b.
  by destruct (bool_decide _), (cond s), (is_ready s).
Qed.

Lemma not_waiting_cleared q : coro ∉ waiting (UnblockAllOn q a) a.
Proof. rewrite waiting_UnblockAllOn, decide_True by done. apply not_elem_of_nil. Qed.

(** A state outside the last phase, whose events follow from the old ones. *)
Ltac solve_inv :=
  split; simpl; try done; try (by intros ?? [?|[?|[?|?]]]); try (by intros [?|[?|?]]);
  try (by subst; destruct emit_request_before_suspend, dual).

Lemma inv_own s s' : inv s → own_step s s' → inv s'.
Proof.
  intros [He Hf Hb Hr Hw Hal] (_&_&_&->). destruct s as [p r c q ev]. simpl in *. unfold run_step, block_or_leave. simpl.
  destruct p; simpl in *.
  - specialize (Hal ltac:(by left)). destruct aw_ready eqn:E; solve_inv.
  - solve_inv.
  - solve_inv.
  - solve_inv.
  - destruct emit_request_before_suspend eqn:E; solve_inv; rewrite ?E; try done; subst; rewrite ?E; by destruct dual.
  - destruct aw_suspended eqn:E; solve_inv.
  - destruct emit_request_before_suspend eqn:E; solve_inv; try (by destruct Hb; congruence); subst; rewrite ?E; by destruct dual.
  - destruct emit_request_before_suspend eqn:E; solve_inv; rewrite ?E; try done; subst; rewrite ?E; by destruct dual.
  - destruct r as [[]|]; solve_inv.
  - unfold is_ready. simpl. destruct r as [[]|]; simpl; solve_inv. intros _. apply not_waiting_cleared.
  - solve_inv.
  - assert (r = Some true) as -> by (destruct Hb; apply Hw; [done..|by left]). solve_inv.
  - solve_inv. intros Ha Hs _. apply Hw; [done..|]. right. by left.
  - solve_inv. intros Ha Hs _. apply Hw; [done..|]. right. right. by left.
  - by split.
  - done.
Qed.

Lemma inv_step s s' : inv s → step s s' → inv s'.
Proof.
  intros Hi Hstep. destruct Hstep as [s s' Ho|s Hr Hp|s q Hq|s].
  - by eapply inv_own.
  - destruct Hi as [He Hf Hb _ _ Hal]. split; simpl; try done; [intros _; apply not_waiting_cleared|].
    intros ?%Hal. congruence.
  - destruct Hi as [He Hf Hb Hr Hw]. split; simpl; try done. intros H. destruct Hq as [-> | ->]; [auto|apply not_elem_of_nil].
  - by destruct Hi; split.
Qed.

Lemma inv_reachable s : reachable s → inv s.
Proof.
  induction 1 as [q Hq|s s' _ IH Hs]; [|by eapply inv_step].
  split; simpl; try done; [by destruct dual|by intros ?? [?|[?|[?|?]]]].
Qed.

(** ** A call that need not wait any longer ends *)

Definition may_finish s : Prop := ready s = Some true ∨ aw_ready = true ∨ aw_suspended = false.

(** The steps that are left. *)
Definition steps_left p : nat :=
  match p with
  | CallsReady => 10 | Setup => 9 | MakesWaker => 8 | EarlyRequest => 7 | CallsSuspend => 6
  | Suspended => 5 | Yielded => 5 | Looping => 4 | Blocking => 4
  | Immediate => 3 | NotSuspended => 3 | Woken => 3 | CallsResume => 2 | Responding => 1
  | Done | AssertFailed => 0
  end.

Lemma ready_not_blocked s : inv s → ready s = Some true → blocked s = false.
Proof. intros Hi Hr. rewrite blocked_waiting, bool_decide_eq_false_2; [done|]. by apply (iv_ready _ Hi). Qed.

Lemma may_finish_step s :
  inv s → may_finish s → at_pc s ≠ Done →
  own_step s (run_step s) ∧ may_finish (run_step s) ∧ steps_left (at_pc (run_step s)) < steps_left (at_pc s).
Proof.
  intros Hi Hm Hd. pose proof (ready_not_blocked s Hi) as Hnb. destruct Hi as [_ Hf Hb _ _ Hal].
  assert (at_pc s = Looping ∨ at_pc s = Blocking ∨ at_pc s = Yielded ∨ at_pc s = Woken → ready s = Some true) as Hrd.
  { intros Hpc. destruct Hm as [|[|]]; [done|..]; destruct Hpc as [E|[E|[E|E]]]; rewrite E in Hb; simpl in Hb; destruct Hb; congruence. }
  split; [split_and!; [done..| |done]; intros E; apply Hnb, Hrd; tauto|].
  unfold may_finish, run_step, block_or_leave in *. destruct s as [p r c q ev]. simpl in *.
  destruct p; simpl in *; try done; try (split; [tauto|lia]).
  - destruct aw_ready; simpl; (split; [tauto|lia]).
  - split; [|lia]. destruct Hm as [Hr|Hm]; [|tauto]. rewrite Hal in Hr; [done|]. right. by right.
  - destruct emit_request_before_suspend; simpl; (split; [tauto|lia]).
  - destruct aw_suspended; simpl; (split; [tauto|lia]).
  - destruct emit_request_before_suspend; simpl; (split; [tauto|lia]).
  - rewrite Hrd by tauto. simpl. split; [tauto|lia].
  - unfold is_ready. simpl. rewrite Hrd by tauto. simpl. split; [tauto|lia].
  - unfold is_ready. simpl. rewrite Hrd by tauto. simpl. split; [tauto|lia].
Qed.

Lemma may_finish_done s :
  inv s → may_finish s → ∃ k s', k ≤ steps_left (at_pc s) ∧ nsteps own_step k s s' ∧ at_pc s' = Done.
Proof.
  remember (steps_left (at_pc s)) as n eqn:En. revert s En.
  induction (lt_wf n) as [n _ IH]. intros s -> Hi Hm.
  destruct (decide (at_pc s = Done)) as [Hd|Hd]; [exists 0, s; split_and!; [lia|constructor|done]|].
  destruct (may_finish_step s Hi Hm Hd) as (Hs&Hm'&Hlt).
  destruct (IH _ Hlt _ eq_refl (inv_own _ _ Hi Hs) Hm') as (k&s'&Hk&Hn&Hd').
  exists (S k), s'. split_and!; [lia|by econstructor|done].
Qed.

(** C38. A method that waits keeps the protocol of dual operations, however it
    is interleaved with its waker and the rest of the program: its events are
    the end of the request, the start of the follow-up and its end with the
    result of the awaiter, each once and in this order, and all of them when
    it returns; a call that suspended returns only after its waker ran, and
    its assertion never fails; once the waker ran it is not blocked, and it
    returns after at most ten of its own steps. *)
Theorem dual_method_protocol s :
  reachable s →
  events s `prefix_of` (if dual then trace else []) ∧
  (at_pc s = Done → events s = if dual then trace else []) ∧
  (aw_ready = false → aw_suspended = true → at_pc s = Done → ready s = Some true) ∧
  at_pc s ≠ AssertFailed ∧
  (ready s = Some true → blocked s = false) ∧
  (ready s = Some true ∨ aw_ready = true ∨ aw_suspended = false →
     ∃ k s', k ≤ 10 ∧ nsteps own_step k s s' ∧ at_pc s' = Done).
Proof.
  intros Hi%inv_reachable. pose proof Hi as [He Hf Hb Hr Hw Hal]. split_and!.
  - rewrite He. destruct dual; [|done]. exists (drop (emitted_at (at_pc s)) trace). by rewrite take_drop.
  - intros Hd. rewrite He, Hd. by destruct dual.
  - intros H1 H2 Hd. apply Hw; [done..|]. unfold after_wait. tauto.
  - done.
  - by apply ready_not_blocked.
  - intros (k&s'&Hk&Hn&Hd)%(may_finish_done s Hi). exists k, s'. split_and!; [|done..].
    destruct (at_pc s); simpl in Hk; lia.
Qed.
End DualMethods.
Arguments mkSt {V} _ _ _ _ _.

(** ** The atomic wrapper

    [TargetAwaitableMethod] records no events and is interrupted only at its
    yields: a slice runs from the call or a yield to the next yield or the
    return. [woken] and [driven] say whether the waker runs inside
    [await_suspend] and inside the executor. *)
Section Awaitable.
Context {V : Type} (void_v : V) (aw_ready aw_suspended : bool) (result : V).
Context (coro : nat) (a : Z).
Implicit Types (s : st (V := V)).

(** The waker runs at most once. *)
Definition maybe_wake (b : bool) s : st := if b && negb (is_ready s) then wake a s else s.

(** The wait is over: clear the condition and return. *)
Definition await_finish s : st := mkSt Done (ready s) false (queues s) (events s).

(** An iteration of the loop. *)
Definition await_iteration (driven : bool) s : st :=
  let s := maybe_wake driven s in
  if is_ready s then await_finish s
  else
    let s := block_or_leave coro a s in
    if is_ready s then await_finish s else s.

(** The call, to its first yield or its return. *)
Definition await_call (woken driven : bool) (q : Queues) : st :=
  if aw_ready then mkSt Done None false q []
  else
    let s := maybe_wake woken (mkSt CallsSuspend (Some false) true q []) in
    if aw_suspended then await_iteration driven s else mkSt Done (ready s) (cond s) (queues s) [].

Abbreviation step := (step void_v aw_ready aw_suspended result false false coro a).
Abbreviation own := (run_step void_v aw_ready aw_suspended result false false coro a).
Abbreviation blocked := (blocked coro a).

Lemma rtc_own s s' :
  at_pc s ≠ Done → at_pc s ≠ AssertFailed → (at_pc s = Yielded → blocked s = false) → rtc step (own s) s' → rtc step s s'.
Proof. intros H1 H2 H3 Hs. eapply rtc_l; [|exact Hs]. by apply step_own. Qed.

Lemma rtc_wake b s : ready s = Some false → at_pc s ≠ MakesWaker → rtc step s (maybe_wake b s).
Proof.
  intros Hr Hp. unfold maybe_wake, is_ready. rewrite Hr. destruct b; [|done]. apply rtc_once. by apply step_wake.
Qed.

(** An iteration does not depend on where the wrapper stands. *)
Lemma await_iteration_goto driven p s : await_iteration driven (goto p s) = await_iteration driven s.
Proof.
  unfold await_iteration, maybe_wake. change (is_ready (goto p s)) with (is_ready s).
  destruct (driven && negb (is_ready s)); [done|]. unfold block_or_leave.
  change (is_ready (goto p s)) with (is_ready s). by destruct (is_ready s).
Qed.

Lemma await_finish_steps s : at_pc s = Looping → ready s = Some true → rtc step s (await_finish s).
Proof.
  destruct s as [p r c q ev]. simpl. intros -> ->.
  do 4 (apply rtc_own; [done|done|done|]; simpl). done.
Qed.

Lemma await_iteration_steps driven s :
  at_pc s = Looping → is_Some (ready s) → rtc step s (await_iteration driven s).
Proof.
  intros Hp [b Hr]. unfold await_iteration. set (s1 := maybe_wake driven s).
  assert (rtc step s s1 ∧ at_pc s1 = Looping ∧ ∃ b1, ready s1 = Some b1) as (Hs1&Hp1&b1&Hr1).
  { unfold s1. destruct b; [|split; [apply rtc_wake; [done|by rewrite Hp]|]].
    - unfold maybe_wake, is_ready. rewrite Hr. rewrite andb_false_r. split_and!; [done|done|by exists true].
    - unfold maybe_wake. destruct (driven && _); split; simpl; eauto. }
  etrans; [exact Hs1|]. clearbody s1. destruct s1 as [p r c q ev]. simpl in Hp1, Hr1. subst p r. destruct b1; simpl.
  - by apply await_finish_steps.
  - do 2 (apply rtc_own; [done|done|done|]; simpl). done.
Qed.

Lemma await_resume_steps driven s :
  at_pc s = Yielded → is_Some (ready s) → blocked s = false → rtc step s (await_iteration driven s).
Proof.
  intros Hp Hr Hb. apply rtc_own; [by rewrite Hp|by rewrite Hp|done|].
  unfold run_step. rewrite Hp. rewrite <-(await_iteration_goto driven Looping). by apply await_iteration_steps.
Qed.
End Awaitable.

(** Every slice of the atomic wrapper is a sequence of steps of the one that
    can be interrupted, so what holds of the latter holds of it: see
    [dual_method_protocol] for [dual] and [emit_request_before_suspend] false. *)
Lemma await_call_steps {V} (void_v : V) aw_ready aw_suspended result coro a woken driven q :
  rtc (step void_v aw_ready aw_suspended result false false coro a) (mkSt CallsReady None false q []) (await_call aw_ready aw_suspended coro a woken driven q).
Proof.
  unfold await_call. apply rtc_own; [done|done|done|]. unfold run_step. simpl.
  destruct aw_ready eqn:Ea; simpl.
  - do 3 (apply rtc_own; [done|done|done|]; simpl). done.
  - do 3 (apply rtc_own; [done|done|done|]; simpl).
    etrans; [by apply (rtc_wake _ _ _ _ _ _ woken)|]. set (s := maybe_wake a woken _).
    assert (at_pc s = CallsSuspend ∧ is_Some (ready s) ∧ events s = []) as (Hp&Hr&He).
    { unfold s, maybe_wake. by destruct (woken && _). }
    apply rtc_own; [by rewrite Hp|by rewrite Hp|by rewrite Hp|].
    unfold run_step. rewrite Hp. destruct aw_suspended eqn:Es; simpl.
    + apply rtc_own; [done|done|done|]. simpl. rewrite <-(await_iteration_goto coro a driven Looping).
      by apply await_iteration_steps.
    + do 3 (apply rtc_own; [done|done|done|]; simpl). destruct s; simpl in *. by subst.
Qed.

(** ** Registration

    The builders that the macros make: the arguments are generated for the
    thread, or fixed for an invocation in a scenario. *)
Section Builders.
Context `{TT : TargetTypes}.

Definition TargetMethod (method_name : string) (gen : Memory → nat → Args * Memory) (method : Func) : TaskBuilder :=
  mkBuilder method_name method gen false.
Definition MethodInvocation (method_name : string) (params : Args) (method : Func) : TaskBuilder :=
  mkBuilder method_name method (λ m _, (params, m)) false.
Definition TargetAwaitableMethod (method_name : string) (gen : Memory → nat → Args * Memory) (wrapper : Func) : TaskBuilder :=
  mkBuilder method_name wrapper gen false.
Definition TargetDualMethod (method_name : string) (gen : Memory → nat → Args * Memory) (wrapper : Func) : TaskBuilder :=
  mkBuilder method_name wrapper gen true.
End Builders.
