(* ===== verification/Strategy.v ===== *)
(** * Strategies and the simulated operating system

    Models [Strategy] and [BaseStrategyWithThreads] of
    runtime/include/scheduler.h, the verifier hooks, and [OSSimulator] of
    runtime/os_simulator.cpp. A [Task&] is a slot: a thread and a position in
    it; the slot holds a pointer to a coroutine. The fields of a derived
    strategy are the parameter [X]. *)
From stdpp Require Import base list gmap strings.
From Stdlib Require Import ZArith.
From S2P Require Import Prelude Effects BlockManager Runtime Verifier.

Open Scope nat_scope.

(** Random numbers: [std::mt19937] and the functions that draw from it. *)
Class Random := {
  Rng : Type;
  shuffle : ∀ {A : Type}, Rng → list A → list A * Rng;
  discrete_distribution : Rng → list Z → nat * Rng;
  uniform_int_distribution : Rng → Z → Z → Z * Rng;
  (** A [double] from 0 (included) to 1, in units of [2^-53]. *)
  uniform_real_distribution : Rng → Z * Rng;
}.

(** The target object and what a reset does to memory: [target_factory], the
    resets of mutexes, condition variables, allocations and static variables
    in [ResetOSState], and [ExecutionGraph::Reset]. *)
Class TargetObject `{TargetTypes} := {
  target_factory : Memory → nat * Memory;
  reset_os_memory : Memory → Memory;
  reset_wmm_graph : Memory → nat → Memory;
}.

(** What a verifier offers. [None] is a hook the type does not declare, which
    the code detects with a [requires] expression. *)
Record VerifierOps `{TargetTypes} (B : Type) := mkVerifierOps {
  vo_init : B;
  vo_Verify : B → string → nat → bool → outcome (bool * B);
  vo_OnFinished : B → Coro → nat → outcome B;
  vo_Reset : B → B;
  vo_OnRoundStart : option (B → nat → B);
  vo_OnTaskStarted : option (B → string → nat → Z → B);
  vo_VerifyStart : option (B → string → nat → StartContext → bool * B);
  vo_VerifyExisting : option (B → Coro → nat → outcome (bool * B));
  vo_GetDeadlockProgressMethods : option (B → string → list string);
  (** [std::is_same_v<Verifier, OnlyOneTaskPerThreadVerifier>] *)
  vo_only_one_task : bool;
}.
Arguments mkVerifierOps {_ _} _ _ _ _ _ _ _ _ _ _.
Arguments vo_init {_ _} _.
Arguments vo_Verify {_ _} _.
Arguments vo_OnFinished {_ _} _.
Arguments vo_Reset {_ _} _.
Arguments vo_OnRoundStart {_ _} _.
Arguments vo_OnTaskStarted {_ _} _.
Arguments vo_VerifyStart {_ _} _.
Arguments vo_VerifyExisting {_ _} _.
Arguments vo_GetDeadlockProgressMethods {_ _} _.
Arguments vo_only_one_task {_ _} _.

(** A reference to a task. *)
Abbreviation Slot := (nat * nat)%type.

Inductive StrategyNextScheduleFailure := DEADLOCK | NEED_REPLAY | EXHAUSTED_INTERLEAVINGS.

Inductive StrategyNextResult :=
  | NextFailure (f : StrategyNextScheduleFailure)
  | TaskWithMetaData (task : Slot) (is_new : bool) (thread_id : nat).

Definition CustomRound `{TargetTypes} : Type := list (list TaskBuilder).

(** Events of a history while a round runs: tasks are slots. *)
Inductive SchedEvent `{TargetTypes} :=
  | EvInvoke (task : Slot) (thread_id : Z)
  | EvResponse (task : Slot) (result : Value) (thread_id : Z).

Section State.
Context `{TargetTypes, Random}.

Record Base (B : Type) := mkBase {
  new_task_id : Z;
  removed_tasks : gset Z;
  round_schedule : list Z;
  allow_new_tasks_ : bool;
  sched_checker : B;
  state : nat;
  threads_count : nat;
  threads : list (list nat);
  constructors : list TaskBuilder;
  rng : Rng;
  join_pairs : gmap nat (nat * option nat);
}.

Record World (B X : Type) := mkWorld { rt : Runtime; base : Base B; ext : X }.

End State.
Arguments mkBase {_ _ _} _ _ _ _ _ _ _ _ _ _ _.
Arguments new_task_id {_ _ _} _.
Arguments removed_tasks {_ _ _} _.
Arguments round_schedule {_ _ _} _.
Arguments allow_new_tasks_ {_ _ _} _.
Arguments sched_checker {_ _ _} _.
Arguments state {_ _ _} _.
Arguments threads_count {_ _ _} _.
Arguments threads {_ _ _} _.
Arguments constructors {_ _ _} _.
Arguments rng {_ _ _} _.
Arguments join_pairs {_ _ _} _.
Arguments mkWorld {_ _ _ _} _ _ _.
Arguments rt {_ _ _ _} _.
Arguments base {_ _ _ _} _.
Arguments ext {_ _ _ _} _.

Section Strategy.
Context `{TT : TargetTypes, TC : !TargetCode, RN : Random, TO : !TargetObject}.
Context {B X : Type} (vo : VerifierOps B).
Abbreviation W := (World B X).
Implicit Types (w : W) (b : Base B).

(** ** Setters *)

Definition set_rt r w : W := mkWorld r (base w) (ext w).
Definition set_ext x w : W := mkWorld (rt w) (base w) x.
Definition upd_base (f : Base B → Base B) w : W := mkWorld (rt w) (f (base w)) (ext w).
Definition on_rt {A} (m : M Runtime A) : M W A := zoom rt set_rt m.

Definition set_new_task_id n b : Base B :=
  mkBase n (removed_tasks b) (round_schedule b) (allow_new_tasks_ b) (sched_checker b) (state b)
    (threads_count b) (threads b) (constructors b) (rng b) (join_pairs b).
Definition set_removed r b : Base B :=
  mkBase (new_task_id b) r (round_schedule b) (allow_new_tasks_ b) (sched_checker b) (state b)
    (threads_count b) (threads b) (constructors b) (rng b) (join_pairs b).
Definition set_round_schedule l b : Base B :=
  mkBase (new_task_id b) (removed_tasks b) l (allow_new_tasks_ b) (sched_checker b) (state b)
    (threads_count b) (threads b) (constructors b) (rng b) (join_pairs b).
Definition set_allow v b : Base B :=
  mkBase (new_task_id b) (removed_tasks b) (round_schedule b) v (sched_checker b) (state b)
    (threads_count b) (threads b) (constructors b) (rng b) (join_pairs b).
Definition set_checker c b : Base B :=
  mkBase (new_task_id b) (removed_tasks b) (round_schedule b) (allow_new_tasks_ b) c (state b)
    (threads_count b) (threads b) (constructors b) (rng b) (join_pairs b).
Definition set_target s b : Base B :=
  mkBase (new_task_id b) (removed_tasks b) (round_schedule b) (allow_new_tasks_ b)
    (sched_checker b) s (threads_count b) (threads b) (constructors b) (rng b) (join_pairs b).
Definition set_threads t b : Base B :=
  mkBase (new_task_id b) (removed_tasks b) (round_schedule b) (allow_new_tasks_ b)
    (sched_checker b) (state b) (threads_count b) t (constructors b) (rng b) (join_pairs b).
Definition set_constructors c r b : Base B :=
  mkBase (new_task_id b) (removed_tasks b) (round_schedule b) (allow_new_tasks_ b)
    (sched_checker b) (state b) (threads_count b) (threads b) c r (join_pairs b).
Definition set_joins j b : Base B :=
  mkBase (new_task_id b) (removed_tasks b) (round_schedule b) (allow_new_tasks_ b)
    (sched_checker b) (state b) (threads_count b) (threads b) (constructors b) (rng b) j.

(** ** Tasks *)

(** [threads[t][i]] *)
Definition task_at (s : Slot) : M W nat :=
  w ← get; thread ← mderef (threads (base w) !! s.1); mderef (thread !! s.2).
Definition coro_at (s : Slot) : M W Coro := p ← task_at s; on_rt (get_coro p).

Definition IsTaskRemoved (task_id : Z) : M W bool :=
  gets (λ w, bool_decide (task_id ∈ removed_tasks (base w))).
Definition SetTaskRemoved (task_id : Z) (is_removed : bool) : M W unit :=
  modify (upd_base (λ b, set_removed
    (if is_removed then {[task_id]} ∪ removed_tasks b else removed_tasks b ∖ {[task_id]}) b)).
Definition SetAllowNewTasks (v : bool) : M W unit := modify (upd_base (set_allow v)).

(** The position of the first task with the id. *)
Fixpoint find_task (task_id : Z) (t i : nat) (thread : list nat) : M W (option Slot) :=
  match thread with
  | [] => mret None
  | p :: rest =>
      c ← on_rt (get_coro p);
      if bool_decide (co_id c = task_id) then mret (Some (t, i)) else find_task task_id t (S i) rest
  end.
Fixpoint find_in_threads (task_id : Z) (t : nat) (ths : list (list nat)) : M W (option Slot) :=
  match ths with
  | [] => mret None
  | thread :: rest =>
      r ← find_task task_id t 0 thread;
      match r with
      | Some s => mret (Some s)
      | None => find_in_threads task_id (S t) rest
      end
  end.
Definition GetTask (task_id : Z) : M W (option Slot) :=
  w ← get; find_in_threads task_id 0 (threads (base w)).

Definition HasTaskBuilder (method_name : string) : M W bool :=
  gets (λ w, existsb (λ c, bool_decide (tb_name c = method_name)) (constructors (base w))).

(** [threads[t].emplace_back(p)] *)
Definition push_task (t p : nat) : M W unit :=
  w ← get;
  thread ← mderef (threads (base w) !! t);
  modify (upd_base (set_threads (<[t := thread ++ [p]]> (threads (base w))))).

(** [new_task_id++] *)
Definition fresh_task_id : M W Z :=
  w ← get; modify (upd_base (set_new_task_id (new_task_id (base w) + 1)%Z));; mret (new_task_id (base w)).

Definition build_task (c : TaskBuilder) (thread_id : nat) : M W nat :=
  id ← fresh_task_id;
  w ← get;
  on_rt (Build c (state (base w)) thread_id id).

Definition AppendTaskForReplay (method_name : string) (thread_id : nat) : M W (option Z) :=
  w ← get;
  if length (threads (base w)) <=? thread_id then mret None
  else
    match find (λ c, bool_decide (tb_name c = method_name)) (constructors (base w)) with
    | None => mret None
    | Some c =>
        p ← build_task c thread_id;
        co ← on_rt (get_coro p);
        push_task thread_id p;;
        mret (Some (co_id co))
    end.

(** [~CoroBase] asserts that the task has returned; the popped handles below
    are the only owners of their tasks, or own tasks that were terminated. *)
Definition drop_handle (p : nat) : M W unit := c ← on_rt (get_coro p); massert (co_returned c).

Definition RemoveLastTaskForReplay (thread_id : nat) (task_id : Z) : M W bool :=
  w ← get;
  match threads (base w) !! thread_id with
  | None | Some [] => mret false
  | Some thread =>
      p ← mderef (last thread);
      c ← on_rt (get_coro p);
      if negb (bool_decide (co_id c = task_id)) then mret false
      else
        drop_handle p;;
        modify (upd_base (set_threads (<[thread_id := take (length thread - 1) thread]>
                                         (threads (base w)))));;
        SetTaskRemoved task_id false;;
        mret true
  end.

Definition GetDeadlockProgressMethods (wait_method : string) : M W (list string) :=
  gets (λ w, match vo_GetDeadlockProgressMethods vo with
             | Some f => f (sched_checker (base w)) wait_method
             | None => []
             end).

(** ** Verifier hooks *)

Definition OnRoundStart (n : nat) : M W unit :=
  match vo_OnRoundStart vo with
  | Some f => modify (upd_base (λ b, set_checker (f (sched_checker b) n) b))
  | None => mret ()
  end.
Definition OnTaskStarted (method : string) (thread_id : nat) (task_id : Z) : M W unit :=
  match vo_OnTaskStarted vo with
  | Some f => modify (upd_base (λ b, set_checker (f (sched_checker b) method thread_id task_id) b))
  | None => mret ()
  end.
Definition VerifyStart (method : string) (thread_id : nat) (ctx : StartContext) : M W bool :=
  match vo_VerifyStart vo with
  | Some f =>
      w ← get;
      let '(ok, c) := f (sched_checker (base w)) method thread_id ctx in
      modify (upd_base (set_checker c));; mret ok
  | None => mret true
  end.
Definition Verify (method : string) (thread_id : nat) (is_new : bool) : M W bool :=
  w ← get;
  r ← lift (vo_Verify vo (sched_checker (base w)) method thread_id is_new);
  modify (upd_base (set_checker r.2));; mret r.1.
Definition OnFinished (c : Coro) (thread_id : nat) : M W unit :=
  w ← get;
  r ← lift (vo_OnFinished vo (sched_checker (base w)) c thread_id);
  modify (upd_base (set_checker r)).
Definition ResetChecker : M W unit :=
  modify (upd_base (λ b, set_checker (vo_Reset vo (sched_checker b)) b)).

Definition OnVerifierTaskFinish (task : Slot) (thread_id : nat) : M W unit :=
  c ← coro_at task; OnFinished c thread_id.

Definition VerifyTaskStart (task : Slot) (thread_id : nat) (ctx : StartContext) : M W bool :=
  c ← coro_at task;
  ok ← VerifyStart (co_name c) thread_id ctx;
  if negb ok then mret false else Verify (co_name c) thread_id true.

Definition OnVerifierTaskStart (task : Slot) (thread_id : nat) : M W unit :=
  c ← coro_at task; OnTaskStarted (co_name c) thread_id (co_id c).

Definition VerifyExistingTask (task : Slot) (thread_id : nat) : M W bool :=
  c ← coro_at task;
  match vo_VerifyExisting vo with
  | Some f =>
      w ← get;
      r ← lift (f (sched_checker (base w)) c thread_id);
      modify (upd_base (set_checker r.2));; mret r.1
  | None => Verify (co_name c) thread_id true
  end.

(** ** The simulated operating system *)

Definition ResetOSState : M W unit :=
  on_rt (modify (set_queues ∅);;
         modify (λ r, set_memory (reset_os_memory (memory r)) r);;
         modify (set_max_thread_id 0));;
  modify (upd_base (set_joins ∅)).

(** The joined thread has returned: the pair is erased and then read through
    the erased iterator. *)
Definition CanThreadContinue (thread : nat) : M W bool :=
  w ← get;
  match join_pairs (base w) !! thread with
  | None => mret true
  | Some (joined, _) =>
      th ← mderef (threads (base w) !! joined);
      p ← mderef (last th);
      c ← on_rt (get_coro p);
      if co_returned c then lift UB else mret false
  end.

(** A created thread becomes a new row of [threads] and runs its first slice. *)
Definition UpdateOSState (thread : nat) (h : list SchedEvent * list Slot) :
    M W (list SchedEvent * list Slot) :=
  w ← get;
  match thread_info (rt w) with
  | None => mret h
  | Some info =>
      h ← match info with
          | CreatedThreadInfo function name =>
              p ← on_rt (New function 0 no_args name (-1)%Z);
              let t := length (threads (base w)) in
              modify (upd_base (λ b, set_threads (threads b ++ [[p]]) b));;
              on_rt (Resume p t);;
              id ← gets (λ w, current_max_thread_id (rt w));
              mret (h.1 ++ [EvInvoke (t, 0) id], h.2 ++ [(t, 0)])
          | JoinThreadInfo joined retval =>
              modify (upd_base (λ b, set_joins (<[thread := (joined, retval)]> (join_pairs b)) b));;
              mret h
          end;
      on_rt (modify (set_thread_info None));;
      mret h
  end.

(** ** Resetting *)

Definition terminate_task (p : nat) : M W unit :=
  on_rt (update_coro p (λ c, DiscardRoundResults (if co_returned c then c else Terminate c))).

Definition TerminateRunningTasks : M W unit :=
  w ← get; for_each terminate_task (concat (threads (base w))).

Definition ResetWmmGraph (n : nat) : M W unit :=
  on_rt (modify (λ r, set_memory (reset_wmm_graph (memory r) n) r)).

Definition ResetTargetState : M W unit :=
  w ← get;
  let '(s, m) := target_factory (memory (rt w)) in
  on_rt (modify (set_memory m));; modify (upd_base (set_target s)).

Definition TerminateTasks : M W unit :=
  TerminateRunningTasks;;
  ResetChecker;;
  w ← get; ResetWmmGraph (length (threads (base w)));;
  ResetTargetState.

(** [std::vector::resize]. *)
Definition resize {A} (l : list A) (n : nat) (x : A) : list A := take n l ++ replicate (n - length l) x.

Definition StartNextRound : M W unit :=
  SetAllowNewTasks true;;
  modify (upd_base (set_new_task_id 0));;
  TerminateRunningTasks;;
  ResetChecker;;
  w ← get; ResetWmmGraph (length (threads (base w)));;
  ResetOSState;;
  ResetTargetState;;
  w ← get;
  for_each drop_handle (concat (threads (base w)));;
  let n := threads_count (base w) in
  (if length (threads (base w)) =? n
   then modify (upd_base (λ b, set_threads ((λ _, []) <$> threads b) b))
   else modify (upd_base (set_threads (replicate n []))));;
  modify (upd_base (λ b, set_round_schedule (resize (round_schedule b) n (-1)%Z) b));;
  OnRoundStart n.

(** The replacement of a task by its restarted copy, unless it is removed. *)
Definition restart_task (s : Slot) : M W unit :=
  p ← task_at s;
  c ← on_rt (get_coro p);
  removed ← IsTaskRemoved (co_id c);
  if (removed : bool) then mret ()
  else
    w ← get;
    q ← on_rt (Restart p (state (base w)));
    thread ← mderef (threads (base w) !! s.1);
    modify (upd_base (set_threads (<[s.1 := <[s.2 := q]> thread]> (threads (base w))))).

Definition all_slots (ths : list (list nat)) : list Slot :=
  concat (imap (λ t th, (λ i, (t, i)) <$> seq 0 (length th)) ths).

Definition RestartTasks : M W unit := w ← get; for_each restart_task (all_slots (threads (base w))).

Definition ClearRoundSchedule : M W unit :=
  modify (upd_base (λ b, set_round_schedule ((λ _, (-1)%Z) <$> round_schedule b) b)).

Definition ResetCurrentRound : M W unit :=
  SetAllowNewTasks true;;
  ClearRoundSchedule;;
  TerminateRunningTasks;;
  ResetChecker;;
  w ← get; ResetWmmGraph (length (threads (base w)));;
  ResetOSState;;
  ResetTargetState;;
  w ← get; OnRoundStart (threads_count (base w));;
  RestartTasks.

Definition ResetExplorationState : M W unit :=
  TerminateRunningTasks;;
  ResetOSState;;
  ClearRoundSchedule;;
  SetAllowNewTasks true;;
  ResetChecker;;
  w ← get; ResetWmmGraph (length (threads (base w)));;
  ResetTargetState;;
  w ← get; OnRoundStart (threads_count (base w));;
  RestartTasks.

(** The tasks of one thread of a custom round, in order. *)
Fixpoint build_thread (t : nat) (builders : list TaskBuilder) : M W (list nat) :=
  match builders with
  | [] => mret []
  | c :: rest => p ← build_task c t; ps ← build_thread t rest; mret (p :: ps)
  end.

(** Move assignment leaves the tasks a row held undestroyed; rows cut off by
    [resize] are destroyed. *)
Definition SetCustomRound (custom_round : CustomRound) : M W unit :=
  let n := length custom_round in
  w ← get;
  for_each drop_handle (concat (drop n (threads (base w))));;
  modify (upd_base (λ b, set_threads (resize (threads b) n []) b));;
  modify (upd_base (λ b, set_round_schedule (resize (round_schedule b) n (-1)%Z) b));;
  ResetChecker;;
  ResetWmmGraph n;;
  ResetTargetState;;
  for_each (λ '(t, builders),
      ps ← build_thread t builders;
      modify (upd_base (λ b, set_threads (<[t := ps]> (threads b)) b)))
    (imap pair custom_round);;
  OnRoundStart n.

Definition GetValidTasksCount : M W nat :=
  w ← get;
  let count := fix count (ps : list nat) : M W nat :=
    match ps with
    | [] => mret 0
    | p :: ps =>
        c ← on_rt (get_coro p); n ← count ps;
        mret (if bool_decide (co_id c ∈ removed_tasks (base w)) then n else S n)
    end in
  count (concat (threads (base w))).

Definition GetTotalTasksCount w : nat := length (concat (threads (base w))).
Definition GetThreadsCount w : nat := length (threads (base w)).

(** ** The next task *)

(** [threads[t].empty() || threads[t].back()->IsReturned()] *)
Definition is_free (t : nat) : M W bool :=
  w ← get;
  thread ← mderef (threads (base w) !! t);
  match last thread with
  | None => mret true
  | Some p => c ← on_rt (get_coro p); mret (co_returned c)
  end.

(** [!threads[t].empty() && threads[t].back()->IsBlocked()] *)
Definition back_blocked (t : nat) : M W bool :=
  w ← get;
  thread ← mderef (threads (base w) !! t);
  match last thread with
  | None => mret false
  | Some p => on_rt (IsBlocked p)
  end.

(** [&threads[t].back()] *)
Definition back_slot (t : nat) : M W Slot :=
  w ← get; thread ← mderef (threads (base w) !! t); mret (t, length thread - 1).

Definition incr (m : gmap string Z) (name : string) : gmap string Z :=
  <[name := (count m name + 1)%Z]> m.

(** The start context of [NextVerifiedFor]: the unfinished task of each thread. *)
Fixpoint start_context (tids : list nat) (ctx : StartContext) : M W StartContext :=
  match tids with
  | [] => mret ctx
  | t :: tids =>
      free ← is_free t;
      if (free : bool) then
        start_context tids (mkContext (ctx_threads ctx) (free_threads ctx + 1)%Z
                              (active_by_method ctx) (blocked_by_method ctx))
      else
        s ← back_slot t;
        c ← coro_at s;
        blocked ← back_blocked t;
        start_context tids
          (mkContext (ctx_threads ctx) (free_threads ctx) (incr (active_by_method ctx) (co_name c))
             (if (blocked : bool) then incr (blocked_by_method ctx) (co_name c)
              else blocked_by_method ctx))
  end.

(** The first constructor that the verifier allows. *)
Fixpoint verified_constructor (cs : list TaskBuilder) (t : nat) (ctx : StartContext) :
    M W (option TaskBuilder) :=
  match cs with
  | [] => mret None
  | c :: cs =>
      start_ok ← VerifyStart (tb_name c) t ctx;
      ok ← (if (start_ok : bool) then Verify (tb_name c) t true else mret false);
      if (ok : bool) then mret (Some c) else verified_constructor cs t ctx
  end.

Definition start_new_task (t : nat) : M W bool :=
  w ← get;
  let n := length (threads (base w)) in
  ctx ← start_context (seq 0 n) (mkContext (Z.of_nat n) 0 ∅ ∅);
  w ← get;
  let '(cs, r) := shuffle (rng (base w)) (constructors (base w)) in
  modify (upd_base (set_constructors cs r));;
  chosen ← verified_constructor cs t ctx;
  match chosen with
  | None => mret false
  | Some c =>
      p ← build_task c t;
      co ← on_rt (get_coro p);
      OnTaskStarted (tb_name c) t (co_id co);;
      push_task t p;;
      mret true
  end.

Definition NextVerifiedFor (opt_thread_index : option nat) : M W StrategyNextResult :=
  match opt_thread_index with
  | None => mret (NextFailure DEADLOCK)
  | Some t =>
      is_new ← is_free t;
      ok ← (if (is_new : bool) then start_new_task t else mret true);
      if (ok : bool) then s ← back_slot t; mret (TaskWithMetaData s is_new t)
      else mret (NextFailure DEADLOCK)
  end.

(** The first task of a thread at or after the scheduled one that is neither
    returned nor removed; [thread.size()] when there is none. *)
Fixpoint next_task_loop (fuel : nat) (t : nat) (thread : list nat) (task_index : Z) : M W Z :=
  if (Z.of_nat (length thread) <=? task_index)%Z then mret task_index
  else
    match fuel with
    | 0 => lift OutOfFuel
    | S fuel =>
        if (task_index =? -1)%Z then next_task_loop fuel t thread (task_index + 1)
        else
          c ← coro_at (t, Z.to_nat task_index);
          removed ← IsTaskRemoved (co_id c);
          if co_returned c || (removed : bool) then next_task_loop fuel t thread (task_index + 1)
          else mret task_index
    end.

Definition GetNextTaskInThread (t : nat) : M W Z :=
  w ← get;
  thread ← mderef (threads (base w) !! t);
  task_index ← mderef (round_schedule (base w) !! t);
  next_task_loop (S (length thread)) t thread task_index.

Definition NewTaskAreEnabled (t : nat) : M W bool :=
  if vo_only_one_task vo then
    w ← get;
    thread ← mderef (threads (base w) !! t);
    free ← is_free t;
    mret (negb (free && negb (bool_decide (thread = []))))
  else mret true.

End Strategy.

(** ** The interface of a strategy *)
Record StrategyOps `{TargetTypes} (W : Type) := mkStrategyOps {
  so_Next : M W StrategyNextResult;
  so_NextSchedule : M W StrategyNextResult;
  so_StartNextRound : M W unit;
  so_ResetCurrentRound : M W unit;
  so_ResetExplorationState : M W unit;
  so_SetCustomRound : CustomRound → M W unit;
  so_UpdateSimulatorState : nat → list SchedEvent * list Slot → M W (list SchedEvent * list Slot);
  so_IsExhausted : W → bool;
}.
Arguments mkStrategyOps {_ _} _ _ _ _ _ _ _ _.
Arguments so_Next {_ _} _.
Arguments so_NextSchedule {_ _} _.
Arguments so_StartNextRound {_ _} _.
Arguments so_ResetCurrentRound {_ _} _.
Arguments so_ResetExplorationState {_ _} _.
Arguments so_SetCustomRound {_ _} _.
Arguments so_UpdateSimulatorState {_ _} _.
Arguments so_IsExhausted {_ _} _.
