(* ===== verification/Strategies.v ===== *)
(** * The picking strategies

    Models pick_strategy.h, round_robin_strategy.h, random_strategy.h and
    pct_strategy.h of runtime/include: which thread runs next, when a round
    is generated ([Pick], [NextThreadId]) and when it is explored again
    ([PickSchedule], [NextSchedule]). *)
From stdpp Require Import base list gmap strings.
From Stdlib Require Import ZArith.
From S2P Require Import Prelude Effects BlockManager Runtime Verifier Strategy.

Open Scope nat_scope.

(** ** What the strategies share *)
Section Shared.
Context `{TT : TargetTypes, TC : !TargetCode, RN : Random, TO : !TargetObject}.
Context {B X : Type} (vo : VerifierOps B).
Abbreviation W := (World B X).

(** [!is_free && !VerifyExistingTask(threads[t].back(), t)] does not hold. *)
Definition running_ok (free : bool) (t : nat) : M W bool :=
  if free then mret true else s ← back_slot t; VerifyExistingTask vo s t.

(** The tests of [RoundRobinStrategy::Pick] and [PctStrategy::NextThreadId]. *)
Definition eligible (t : nat) : M W bool :=
  free ← is_free t;
  allow ← gets (λ w, allow_new_tasks_ (base w));
  if negb allow && free then mret false
  else
    blocked ← back_blocked t;
    if (blocked : bool) then mret false
    else
      continue_ok ← CanThreadContinue t;
      if negb continue_ok then mret false
      else
        enabled ← NewTaskAreEnabled vo t;
        if negb enabled then mret false else running_ok free t.

(** The tests of [RandomStrategy::Pick] and [PctStrategy::AvoidLivelock]: the
    same, with the verifier asked earlier. *)
Definition eligible_verify_first (t : nat) : M W bool :=
  free ← is_free t;
  allow ← gets (λ w, allow_new_tasks_ (base w));
  if negb allow && free then mret false
  else
    blocked ← back_blocked t;
    if (blocked : bool) then mret false
    else
      ok ← running_ok free t;
      if negb ok then mret false
      else
        continue_ok ← CanThreadContinue t;
        if negb continue_ok then mret false else NewTaskAreEnabled vo t.

(** The tests on the next task of a thread of a generated round. *)
Definition schedulable (t : nat) : M W bool :=
  task_index ← GetNextTaskInThread t;
  w ← get;
  thread ← mderef (threads (base w) !! t);
  if (task_index =? Z.of_nat (length thread))%Z then mret false
  else
    p ← task_at (t, Z.to_nat task_index);
    blocked ← on_rt (IsBlocked p);
    if (blocked : bool) then mret false else VerifyExistingTask vo (t, Z.to_nat task_index) t.

(** The end of [NextSchedule]: advance the schedule of the picked thread. *)
Definition schedule_thread (t : nat) : M W StrategyNextResult :=
  next_task_index ← GetNextTaskInThread t;
  w ← get;
  current ← mderef (round_schedule (base w) !! t);
  modify (upd_base (set_round_schedule (<[t := next_task_index]> (round_schedule (base w)))));;
  task_at (t, Z.to_nat next_task_index);;
  mret (TaskWithMetaData (t, Z.to_nat next_task_index)
          (negb (current =? next_task_index)%Z) t).

(** [PickStrategy::NextSchedule] *)
Definition PickNextSchedule (PickSchedule : M W (option nat)) : M W StrategyNextResult :=
  current_thread_opt ← PickSchedule;
  match current_thread_opt with
  | None => mret (NextFailure DEADLOCK)
  | Some t => schedule_thread t
  end.

Definition PickStrategyOps (Pick PickSchedule : M W (option nat))
    (custom : CustomRound → M W unit) : StrategyOps W :=
  mkStrategyOps (t ← Pick; NextVerifiedFor vo t) (PickNextSchedule PickSchedule)
    (StartNextRound vo) (ResetCurrentRound vo) (ResetExplorationState vo) custom
    UpdateOSState (λ _, false).

End Shared.

(** ** [RoundRobinStrategy] *)
Module RoundRobin.
Section RoundRobin.
Context `{TT : TargetTypes, TC : !TargetCode, RN : Random, TO : !TargetObject}.
Context {B : Type} (vo : VerifierOps B).

(** The state of the strategy is [next_task], a [size_t]. *)
Abbreviation W := (World B Z).

(** The loop over the attempts; [ok] tests a thread. *)
Fixpoint pick_loop (ok : nat → M W bool) (attempts : nat) : M W (option nat) :=
  match attempts with
  | 0 => mret None
  | S attempts =>
      w ← get;
      let n := length (threads (base w)) in
      let cur := Z.to_nat (ext w mod Z.of_nat n) in
      modify (set_ext (wrap64 (ext w + 1)));;
      b ← ok cur;
      if (b : bool) then mret (Some cur) else pick_loop ok attempts
  end.

Definition Pick : M W (option nat) :=
  w ← get; pick_loop (eligible vo) (length (threads (base w))).
Definition PickSchedule : M W (option nat) :=
  w ← get; pick_loop (schedulable vo) (length (threads (base w))).

Definition RoundRobinStrategy : StrategyOps W := PickStrategyOps vo Pick PickSchedule (SetCustomRound vo).
End RoundRobin.
End RoundRobin.

(** ** [RandomStrategy] *)
Module RandomPick.
Section RandomPick.
Context `{TT : TargetTypes, TC : !TargetCode, RN : Random, TO : !TargetObject}.
Context {B : Type} (vo : VerifierOps B).

Record t := mk { weights : list Z; pick_weights : list Z }.
Abbreviation W := (World B t).

Definition set_pick_weights (l : list Z) : M W unit :=
  modify (λ w, set_ext (mk (weights (ext w)) l) w).

(** The first loop: the weights of the threads that pass the test. *)
Fixpoint collect_weights (ok : nat → M W bool) (tids : list nat) : M W unit :=
  match tids with
  | [] => mret ()
  | i :: tids =>
      b ← ok i;
      (if (b : bool) then
         w ← get;
         x ← mderef (weights (ext w) !! i);
         set_pick_weights (pick_weights (ext w) ++ [x])
       else mret ());;
      collect_weights ok tids
  end.

(** The second loop: the [num]-th thread that passes the test. *)
Fixpoint nth_eligible (ok : nat → M W bool) (tids : list nat) (num : nat) : M W (option nat) :=
  match tids with
  | [] => mret None
  | i :: tids =>
      b ← ok i;
      if (b : bool) then
        match num with
        | 0 => mret (Some i)
        | S num => nth_eligible ok tids num
        end
      else nth_eligible ok tids num
  end.

Definition draw : M W nat :=
  w ← get;
  let '(num, r) := discrete_distribution (rng (base w)) (pick_weights (ext w)) in
  modify (upd_base (λ b, set_constructors (constructors b) r b));;
  mret num.

Definition pick_by (ok : nat → M W bool) : M W (option nat) :=
  set_pick_weights [];;
  w ← get;
  let tids := seq 0 (length (threads (base w))) in
  collect_weights ok tids;;
  w ← get;
  match pick_weights (ext w) with
  | [] => mret None
  | _ => num ← draw; nth_eligible ok tids num
  end.

Definition Pick : M W (option nat) := pick_by (eligible_verify_first vo).
Definition PickSchedule : M W (option nat) := pick_by (schedulable vo).

Definition RandomSetCustomRound (custom_round : CustomRound) : M W unit :=
  SetCustomRound vo custom_round;;
  modify (λ w, set_ext (mk (resize (weights (ext w)) (length custom_round) 1%Z) []) w).

Definition RandomStrategy : StrategyOps W := PickStrategyOps vo Pick PickSchedule RandomSetCustomRound.
End RandomPick.
End RandomPick.
Arguments RandomPick.mk _ _ : clear implicits.

(** ** [PctStrategy] *)
Module Pct.
Section Pct.
Context `{TT : TargetTypes, TC : !TargetCode, RN : Random, TO : !TargetObject}.
Context {B : Type} (vo : VerifierOps B).

Record t := mk {
  k_statistics : list Z;
  current_depth : Z;
  current_schedule_length : Z;
  count_chosen_same : Z;
  last_chosen : Z;
  fair_start : Z;
  fair_stage : Z;
  priorities : list Z;
  priority_change_points : list Z;
  pct_rng : Rng;
}.
Abbreviation W := (World B t).
Implicit Types (s : t).

Definition upd (f : t → t) : M W unit := modify (λ w, set_ext (f (ext w)) w).

Definition set_last s (v : Z) : t :=
  mk (k_statistics s) (current_depth s) (current_schedule_length s) (count_chosen_same s) v
    (fair_start s) (fair_stage s) (priorities s) (priority_change_points s) (pct_rng s).
Definition set_fair s (start stage : Z) : t :=
  mk (k_statistics s) (current_depth s) (current_schedule_length s) (count_chosen_same s)
    (last_chosen s) start stage (priorities s) (priority_change_points s) (pct_rng s).
Definition set_same s (v : Z) : t :=
  mk (k_statistics s) (current_depth s) (current_schedule_length s) v (last_chosen s)
    (fair_start s) (fair_stage s) (priorities s) (priority_change_points s) (pct_rng s).
Definition set_progress s (len : Z) (prio : list Z) : t :=
  mk (k_statistics s) (current_depth s) len (count_chosen_same s) (last_chosen s)
    (fair_start s) (fair_stage s) prio (priority_change_points s) (pct_rng s).

(** Conversion of a [size_t] to an [int]. *)
Definition to_int (z : Z) : Z := ((z + 2 ^ 31) mod 2 ^ 32 - 2 ^ 31)%Z.

(** The loop over the threads: the last one of the greatest priority among
    those that pass the test. Priorities are compared as [size_t]. *)
Fixpoint max_loop (ok : nat → M W bool) (tids : list nat) (max : Z) (index : nat) : M W (Z * nat) :=
  match tids with
  | [] => mret (max, index)
  | i :: tids =>
      b ← ok i;
      if (b : bool) then
        w ← get;
        p ← mderef (priorities (ext w) !! i);
        if (max <=? wrap64 p)%Z then max_loop ok tids (wrap64 p) i else max_loop ok tids max index
      else max_loop ok tids max index
  end.

(** The round robin of the fair stage: the first thread after [last_chosen]
    that passes the test. *)
Fixpoint fair_loop (ok : nat → M W bool) (attempts : nat) (index : nat) (prior : Z) : M W (nat * Z) :=
  match attempts with
  | 0 => mret (index, prior)
  | S attempts =>
      w ← get;
      let last := wrap64 (last_chosen (ext w) + 1) in
      upd (λ s, set_last s last);;
      let i := Z.to_nat (last mod Z.of_nat (length (threads (base w)))) in
      b ← ok i;
      if (b : bool) then p ← mderef (priorities (ext w) !! i); mret (i, wrap64 p)
      else fair_loop ok attempts index prior
  end.

Definition AvoidLivelock (ok : nat → M W bool) (index : nat) (prior : Z) : M W (nat * Z) :=
  w ← get;
  r ← (if (0 <? fair_stage (ext w))%Z then
         r ← fair_loop ok (length (threads (base w))) index prior;
         upd (λ s, if (fair_start s =? Z.of_nat r.1)%Z
                   then set_fair s (fair_start s) (wrap64 (fair_stage s - 1)) else s);;
         mret r
       else mret (index, prior));
  let index := Z.of_nat r.1 in
  upd (λ s, if ((count_chosen_same s =? 1000) && (index =? last_chosen s))%Z
            then set_fair s index 5 else s);;
  upd (λ s, if (index =? last_chosen s)%Z then set_same s (wrap64 (count_chosen_same s + 1))
            else set_same s 1);;
  mret r.

(** The priority changes at the points of the schedule drawn for the round. *)
Definition change_priorities (index : nat) s : t :=
  let len := wrap64 (current_schedule_length s + 1) in
  set_progress s len
    (fold_left (λ prio '(i, point),
        if (len =? point)%Z
        then <[index := to_int (wrap64 (current_depth s - Z.of_nat i))]> prio else prio)
       (imap pair (priority_change_points s)) (priorities s)).

Definition NextThreadId : M W (option nat) :=
  w ← get;
  r ← max_loop (eligible vo) (seq 0 (length (threads (base w)))) 0 0;
  r ← AvoidLivelock (eligible_verify_first vo) r.2 r.1;
  let '(index_of_max, max) := r in
  if (max =? 0)%Z then mret None
  else
    upd (change_priorities index_of_max);;
    upd (λ s, set_last s (Z.of_nat index_of_max));;
    mret (Some index_of_max).

Definition NextSchedule : M W StrategyNextResult :=
  w ← get;
  r ← max_loop (schedulable vo) (seq 0 (length (threads (base w)))) 0 0;
  r ← AvoidLivelock (schedulable vo) r.2 r.1;
  let '(index_of_max, max) := r in
  if (max =? 0)%Z then mret (NextFailure DEADLOCK)
  else
    upd (change_priorities index_of_max);;
    upd (λ s, set_last s (Z.of_nat index_of_max));;
    schedule_thread index_of_max.

(** [count] draws of [k_distribution]. *)
Fixpoint draw_points (count : nat) (k : Z) (r : Rng) : list Z * Rng :=
  match count with
  | 0 => ([], r)
  | S count =>
      let '(x, r) := uniform_int_distribution r 1 k in
      let '(l, r) := draw_points count k r in (x :: l, r)
  end.

(** A [uniform_int_distribution] from 1 to [k] requires [1 <= k]. *)
Definition PrepareForDepth (depth k : Z) : M W unit :=
  w ← get;
  let s := ext w in
  let n := length (threads (base w)) in
  let '(prio, r) := shuffle (pct_rng s)
                      ((λ i, to_int (wrap64 (current_depth s + Z.of_nat i))) <$> seq 0 n) in
  if (k <? 1)%Z then lift UB
  else
    let '(points, r) := draw_points (Z.to_nat (depth - 1)) k r in
    upd (λ s, mk (k_statistics s) (current_depth s) (current_schedule_length s)
                (count_chosen_same s) (last_chosen s) (fair_start s) (fair_stage s) prio points r).

(** [std::reduce] over a vector of [size_t], divided by its size. *)
Definition mean (l : list Z) : Z := (wrap64 (fold_left Z.add l 0) / Z.of_nat (length l))%Z.

Definition UpdateStatistics : M W unit :=
  upd (λ s, mk (k_statistics s ++ [current_schedule_length s])
              (if (50 <=? current_depth s + 1)%Z then 50 else current_depth s + 1)%Z
              0 0 (last_chosen s) (fair_start s) 0 (priorities s) (priority_change_points s)
              (pct_rng s));;
  w ← get;
  PrepareForDepth (current_depth (ext w)) (mean (k_statistics (ext w))).

Definition PctStartNextRound : M W unit :=
  StartNextRound vo;;
  UpdateStatistics;;
  w ← get; OnRoundStart vo (threads_count (base w)).
Definition PctResetCurrentRound : M W unit := ResetCurrentRound vo;; UpdateStatistics.
Definition PctSetCustomRound (custom_round : CustomRound) : M W unit :=
  SetCustomRound vo custom_round;; UpdateStatistics.

Definition PctUpdateSimulatorState (thread : nat) (h : list SchedEvent * list Slot) :
    M W (list SchedEvent * list Slot) :=
  h ← UpdateOSState thread h;
  w ← get;
  (if length (priorities (ext w)) <? length (threads (base w)) then
     PrepareForDepth (current_depth (ext w))
       (match k_statistics (ext w) with [] => 1%Z | l => mean l end)
   else mret ());;
  mret h.

(** The fields the constructor sets before it calls [PrepareForDepth(1, 1)]. *)
Definition pct_init (r : Rng) : t := mk [] 1 0 0 0 0 0 [] [] r.

Definition PctStrategy : StrategyOps W :=
  mkStrategyOps (t ← NextThreadId; NextVerifiedFor vo t) NextSchedule PctStartNextRound
    PctResetCurrentRound (ResetExplorationState vo) PctSetCustomRound PctUpdateSimulatorState
    (λ _, false).
End Pct.
End Pct.
