(* ===== verification/Tla.v ===== *)
(** * The enumerating strategy

    Models runtime/include/tla_strategy.h: [TLAStrategy] replays a stack of
    frames and extends it, so that successive rounds enumerate interleavings. *)
From stdpp Require Import base list gmap strings.
From Stdlib Require Import ZArith.
From S2P Require Import Prelude Effects BlockManager Runtime Verifier Strategy.

Open Scope nat_scope.

Record Frame := mkFrame {
  fr_thread_id : nat;
  fr_constr_id : nat;
  fr_task_index : nat;
  fr_is_new : bool;
}.

Record Tla := mkTla {
  frame_counter : nat;
  at_task_creation : bool;
  start_thread_id : nat;
  start_constr_id : nat;
  frames : list Frame;
  is_exhausted : bool;
}.

Definition tla_init : Tla := mkTla 0 false 0 0 [] false.

Section Tla.
Context `{TT : TargetTypes, TC : !TargetCode, RN : Random, TO : !TargetObject}.
Context {B : Type} (vo : VerifierOps B).
Abbreviation W := (World B Tla).
Implicit Types (s : Tla).

Definition upd (f : Tla → Tla) : M W unit := modify (λ w, set_ext (f (ext w)) w).

Definition set_counter s (n : nat) : Tla :=
  mkTla n (at_task_creation s) (start_thread_id s) (start_constr_id s) (frames s) (is_exhausted s).

Definition TlaNextSchedule : M W StrategyNextResult :=
  w ← get;
  let s := ext w in
  match frames s !! frame_counter s with
  | None => mret (NextFailure DEADLOCK)
  | Some frame =>
      upd (λ s, set_counter s (S (frame_counter s)));;
      tasks ← mderef (threads (base w) !! fr_thread_id frame);
      if length tasks <=? fr_task_index frame then mret (NextFailure DEADLOCK)
      else mret (TaskWithMetaData (fr_thread_id frame, fr_task_index frame) (fr_is_new frame)
                   (fr_thread_id frame))
  end.

(** The frame at the counter is replayed. *)
Definition replay_frame (frame : Frame) : M W StrategyNextResult :=
  let t := fr_thread_id frame in
  upd (λ s, set_counter s (S (frame_counter s)));;
  w ← get;
  mderef (threads (base w) !! t);;
  os_status ← CanThreadContinue t;
  massert os_status;;
  (if fr_is_new frame then
     c ← mderef (constructors (base w) !! fr_constr_id frame);
     p ← build_task c t;
     push_task t p
   else mret ());;
  w ← get;
  tasks ← mderef (threads (base w) !! t);
  massert (fr_task_index frame <? length tasks);;
  c ← coro_at (t, fr_task_index frame);
  verify_status ← Verify vo (co_name c) t (fr_is_new frame);
  massert verify_status;;
  mret (TaskWithMetaData (t, fr_task_index frame) (fr_is_new frame) t).

(** [frames.emplace_back(..)] and the resets that follow it. *)
Definition add_frame (frame : Frame) : M W unit :=
  upd (λ s, mkTla (S (frame_counter s)) false 0 0 (frames s ++ [frame]) (is_exhausted s)).

(** The loop over the constructors from [constr_id] on. *)
Fixpoint create_loop (t constr_id : nat) (cs : list TaskBuilder) : M W (option StrategyNextResult) :=
  match cs with
  | [] => mret None
  | c :: cs =>
      ok ← Verify vo (tb_name c) t true;
      if negb ok then create_loop t (S constr_id) cs
      else
        w ← get;
        tasks ← mderef (threads (base w) !! t);
        p ← build_task c t;
        push_task t p;;
        add_frame (mkFrame t constr_id (length tasks) true);;
        mret (Some (TaskWithMetaData (t, length tasks) true t))
  end.

(** One iteration of the loop over the threads. *)
Definition extend_thread (t : nat) : M W (option StrategyNextResult) :=
  w ← get;
  tasks ← mderef (threads (base w) !! t);
  continue_ok ← CanThreadContinue t;
  if negb continue_ok then mret None
  else
    free ← is_free t;
    let s := ext w in
    if negb free && (negb (at_task_creation s) || negb (allow_new_tasks_ (base w))) then
      blocked ← back_blocked t;
      if (blocked : bool) then mret None
      else
        c ← coro_at (t, length tasks - 1);
        ok ← Verify vo (co_name c) t false;
        if negb ok then mret None
        else
          add_frame (mkFrame t 0 (length tasks - 1) false);;
          mret (Some (TaskWithMetaData (t, length tasks - 1) false t))
    else if negb (allow_new_tasks_ (base w)) then mret None
    else
      r ← create_loop t (start_constr_id s) (drop (start_constr_id s) (constructors (base w)));
      match r with
      | Some res => mret (Some res)
      | None =>
          upd (λ s, mkTla (frame_counter s) false (S t) 0 (frames s) (is_exhausted s));;
          mret None
      end.

Fixpoint extend_loop (tids : list nat) : M W (option StrategyNextResult) :=
  match tids with
  | [] => mret None
  | t :: tids =>
      r ← extend_thread t;
      match r with
      | Some res => mret (Some res)
      | None => extend_loop tids
      end
  end.

Definition TlaNext : M W StrategyNextResult :=
  w ← get;
  let s := ext w in
  match frames s !! frame_counter s with
  | Some frame => replay_frame frame
  | None =>
      let n := length (threads (base w)) in
      r ← extend_loop (seq (start_thread_id s) (n - start_thread_id s));
      match r with
      | Some res => mret res
      | None =>
          w ← get;
          match frames (ext w) with
          | [] =>
              upd (λ s, mkTla (frame_counter s) (at_task_creation s) (start_thread_id s)
                          (start_constr_id s) (frames s) true);;
              mret (NextFailure EXHAUSTED_INTERLEAVINGS)
          | _ => mret (NextFailure NEED_REPLAY)
          end
      end
  end.

(** The position from which the round after [frame] was dropped goes on. *)
Definition after_frame (n_constructors : nat) s (frame : Frame) : Tla :=
  let rest := take (length (frames s) - 1) (frames s) in
  if negb (fr_is_new frame) then mkTla 0 true (fr_thread_id frame) 0 rest (is_exhausted s)
  else if start_constr_id s + 1 =? n_constructors
  then mkTla 0 false (S (fr_thread_id frame)) 0 rest (is_exhausted s)
  else mkTla 0 true (fr_thread_id frame) (S (fr_constr_id frame)) rest (is_exhausted s).

Definition TlaStartNextRound : M W unit :=
  StartNextRound vo;;
  upd (λ s, set_counter s 0);;
  w ← get;
  match last (frames (ext w)) with
  | None =>
      upd (λ s, mkTla (frame_counter s) (at_task_creation s) (start_thread_id s)
                  (start_constr_id s) (frames s) true)
  | Some frame => upd (λ s, after_frame (length (constructors (base w))) s frame)
  end.

Definition TlaResetExplorationState : M W unit :=
  ResetExplorationState vo;; upd (λ s, set_counter s 0).

Definition TLAStrategy : StrategyOps W :=
  mkStrategyOps TlaNext TlaNextSchedule TlaStartNextRound (ResetCurrentRound vo)
    TlaResetExplorationState (SetCustomRound vo) UpdateOSState (λ w, is_exhausted (ext w)).

End Tla.
