(* ===== verification/Scheduler.v ===== *)
(** * Rounds

    Models the schedulers of runtime/include/scheduler.h and
    scheduler_fwd.h: how [StrategyScheduler] and [DualStrategyScheduler]
    generate, explore and replay a round, record its history and ask the
    checker. The two differ in the events they record ([EventOps]). *)
From stdpp Require Import base list gmap strings sorting.
From Stdlib Require Import ZArith.
From S2P Require Import Prelude Effects History LincheckDual BlockManager Verifier Runtime Strategy.

Open Scope nat_scope.

Inductive ReplayMode := CompleteOnLast | NoForceComplete.
Inductive DeadlockPolicy := PolicyFail | PolicyCheck | PolicyExplore | PolicyRollback.
Inductive Reason := ASSERT_FAILURE | DEADLOCK_FOUND | NON_LINEARIZABLE_HISTORY.

#[export] Instance DeadlockPolicy_eq_dec : EqDecision DeadlockPolicy.
Proof. solve_decision. Defined.
#[export] Instance ReplayMode_eq_dec : EqDecision ReplayMode.
Proof. solve_decision. Defined.
#[export] Instance Reason_eq_dec : EqDecision Reason.
Proof. solve_decision. Defined.

Record NonLinearizableHistory (Event : Type) := mkBad {
  nl_full : list Slot;
  nl_seq : list Event;
  nl_reason : Reason;
}.
Arguments mkBad {_} _ _ _.
Arguments nl_full {_} _.
Arguments nl_seq {_} _.
Arguments nl_reason {_} _.
Abbreviation Result Event := (option (NonLinearizableHistory Event)).

(** The events of a dual history own their task: they hold the coroutine. *)
Inductive DualSchedEvent `{TargetTypes} :=
  | DevInvoke (task : Slot) (thread_id : Z)
  | DevResponse (task : Slot) (result : Value) (thread_id : Z)
  | DevRequestInvoke (task : nat) (thread_id : Z)
  | DevRequestResponse (task : nat) (thread_id : Z)
  | DevFollowUpInvoke (task : nat) (thread_id : Z)
  | DevFollowUpResponse (task : nat) (result : Value) (thread_id : Z).

(** What depends on the kind of history: the events of a started task, those
    collected after a slice, that of a finished task, the reset before an
    exploration, whether a start is visible ([MinTraits]), the operations
    that are pending ([MinBadTraits]), and the call of the checker. *)
Record EventOps (W Event : Type) `{TargetTypes} := mkEventOps {
  eo_start : Slot → nat → M W (list Event);
  eo_drain : M W (list Event);
  eo_response : Slot → nat → M W (list Event);
  eo_reset_explore : M W unit;
  eo_StartTaskId : Event → M W (option Z);
  eo_HasPendingVisibleOp : list Event → M W bool;
  eo_check : list Event → M W bool;
}.
Arguments mkEventOps {_ _ _} _ _ _ _ _ _ _.
Arguments eo_start {_ _ _} _.
Arguments eo_drain {_ _ _} _.
Arguments eo_response {_ _ _} _.
Arguments eo_reset_explore {_ _ _} _.
Arguments eo_StartTaskId {_ _ _} _.
Arguments eo_HasPendingVisibleOp {_ _ _} _.
Arguments eo_check {_ _ _} _.

Section Helpers.
Context `{TT : TargetTypes, TC : !TargetCode, RN : Random, TO : !TargetObject}.
Context {B X : Type} (vo : VerifierOps B).
Abbreviation W := (World B X).

Fixpoint mapM {S A C} (f : A → M S C) (l : list A) : M S (list C) :=
  match l with
  | [] => mret []
  | x :: l => y ← f x; ys ← mapM f l; mret (y :: ys)
  end.

(** [GetUnfinishedAndRunnable]: stops at the first runnable task. *)
Fixpoint unfinished_and_runnable (allowed_ids : option (gset Z)) (ps : list nat)
    (has_unfinished : bool) : M W (bool * bool) :=
  match ps with
  | [] => mret (has_unfinished, false)
  | p :: ps =>
      c ← on_rt (get_coro p);
      removed ← IsTaskRemoved (co_id c);
      let outside := match allowed_ids with
                     | Some ids => negb (bool_decide (co_id c ∈ ids))
                     | None => false
                     end in
      if outside || (removed : bool) || co_returned c
      then unfinished_and_runnable allowed_ids ps has_unfinished
      else
        blocked ← on_rt (IsBlocked p);
        if (blocked : bool) then unfinished_and_runnable allowed_ids ps true
        else mret (true, true)
  end.

Definition GetUnfinishedAndRunnable (allowed_ids : option (gset Z)) : M W (bool * bool) :=
  w ← get; unfinished_and_runnable allowed_ids (concat (threads (base w))) false.

(** [BuildReplayStartContext]: the started, unfinished tasks of one thread... *)
Fixpoint thread_context (started_ids : gset Z) (ps : list nat) (active : bool) (ctx : StartContext) :
    M W (bool * StartContext) :=
  match ps with
  | [] => mret (active, ctx)
  | p :: ps =>
      c ← on_rt (get_coro p);
      removed ← IsTaskRemoved (co_id c);
      if negb (bool_decide (co_id c ∈ started_ids)) || (removed : bool) || co_returned c
      then thread_context started_ids ps active ctx
      else
        blocked ← on_rt (IsBlocked p);
        thread_context started_ids ps true
          (mkContext (ctx_threads ctx) (free_threads ctx) (incr (active_by_method ctx) (co_name c))
             (if (blocked : bool) then incr (blocked_by_method ctx) (co_name c)
              else blocked_by_method ctx))
  end.
(** ... and of all threads. *)
Fixpoint threads_context (started_ids : gset Z) (ths : list (list nat)) (ctx : StartContext) :
    M W StartContext :=
  match ths with
  | [] => mret ctx
  | th :: ths =>
      r ← thread_context started_ids th false ctx;
      let '(active, ctx) := r in
      threads_context started_ids ths
        (if (active : bool) then ctx
         else mkContext (ctx_threads ctx) (free_threads ctx + 1)%Z (active_by_method ctx)
                (blocked_by_method ctx))
  end.
Definition BuildReplayStartContext (started_ids : gset Z) : M W StartContext :=
  w ← get;
  let ths := threads (base w) in
  threads_context started_ids ths (mkContext (Z.of_nat (length ths)) 0 ∅ ∅).

(** ** Ordinary histories *)

Definition slot_id (s : Slot) : M W Z := c ← coro_at s; mret (co_id c).

(** The task of an event as the checkers see it. *)
Definition view_coro (ref p : nat) : M W (Task Args Value) :=
  c ← on_rt (get_coro p);
  mret (mkTask ref p (co_id c) (co_name c) (co_args c)
          (if co_returned c then Some (co_ret c) else None)).
Definition view_task (s : Slot) : M W (Task Args Value) := p ← task_at s; view_coro (encode_nat s) p.
Definition view_event (e : SchedEvent) : M W (HistoryEvent Args Value) :=
  match e with
  | EvInvoke s t => k ← view_task s; mret (Invoke k t)
  | EvResponse s v t => k ← view_task s; mret (Response k v t)
  end.

Definition StartTaskId (e : SchedEvent) : M W (option Z) :=
  match e with
  | EvInvoke s _ => id ← slot_id s; mret (Some id)
  | EvResponse _ _ _ => mret None
  end.

(** The ids of the tasks of the selected events. *)
Fixpoint collect_ids {Event} (id_of : Event → M W (option Z)) (seq : list Event) : M W (gset Z) :=
  match seq with
  | [] => mret ∅
  | e :: seq =>
      r ← id_of e;
      ids ← collect_ids id_of seq;
      mret (match r with Some id => {[id]} ∪ ids | None => ids end)
  end.

Definition HasPendingVisibleOp (seq : list SchedEvent) : M W bool :=
  started ← collect_ids StartTaskId seq;
  finished ← collect_ids (λ e, match e with
                               | EvResponse s _ _ => id ← slot_id s; mret (Some id)
                               | _ => mret None
                               end) seq;
  mret (negb (bool_decide (started ⊆ finished))).

Definition ordinary_events (checker : list (HistoryEvent Args Value) → outcome bool)
    (ops : StrategyOps W) : EventOps W SchedEvent :=
  mkEventOps
    (λ s t, mret [EvInvoke s (Z.of_nat t)])
    (mret [])
    (λ s t, p ← task_at s; v ← on_rt (GetRetVal p); mret [EvResponse s v (Z.of_nat t)])
    (so_ResetCurrentRound ops)
    StartTaskId HasPendingVisibleOp
    (λ seq, h ← mapM view_event seq; lift (checker h)).

(** ** Dual histories *)

Definition AppendDualStartEvent (s : Slot) (t : nat) : M W (list DualSchedEvent) :=
  p ← task_at s;
  c ← on_rt (get_coro p);
  mret (if co_dual c then [DevRequestInvoke p (Z.of_nat t)] else [DevInvoke s (Z.of_nat t)]).

(** [DrainedDualEventRecord]. *)
Record DrainedDualEventRecord := mkDrained {
  dr_task : nat;
  dr_thread_id : nat;
  dr_event : DualEvent;
}.
Definition dr_seqno (r : DrainedDualEventRecord) : Z := de_seqno (dr_event r).

Fixpoint CollectDrainedDualEvents (tasks : list nat) (t : nat) : M W (list DrainedDualEventRecord) :=
  match tasks with
  | [] => mret []
  | p :: tasks =>
      c ← on_rt (get_coro p);
      evs ← (if negb (co_dual c) || negb (HasDualEvents c) then mret []
             else on_rt (DrainDualEvents p));
      rest ← CollectDrainedDualEvents tasks t;
      mret ((mkDrained p t <$> evs) ++ rest)
  end.
Fixpoint collect_all (t : nat) (ths : list (list nat)) : M W (list DrainedDualEventRecord) :=
  match ths with
  | [] => mret []
  | th :: ths => l ← CollectDrainedDualEvents th t; rest ← collect_all (S t) ths; mret (l ++ rest)
  end.

Definition drained_event (r : DrainedDualEventRecord) : DualSchedEvent :=
  let t := Z.of_nat (dr_thread_id r) in
  match de_kind (dr_event r) with
  | DualRequestResponse => DevRequestResponse (dr_task r) t
  | DualFollowUpInvoke => DevFollowUpInvoke (dr_task r) t
  | DualFollowUpResponse => DevFollowUpResponse (dr_task r) (de_result (dr_event r)) t
  end.

(** [std::sort] by the global sequence number. *)
Definition seqno_le (r1 r2 : DrainedDualEventRecord) : Prop := (dr_seqno r1 ≤ dr_seqno r2)%Z.
#[global] Instance seqno_le_dec : RelDecision seqno_le.
Proof. intros r1 r2. unfold seqno_le. apply _. Defined.

Definition AppendDrainedDualEvents : M W (list DualSchedEvent) :=
  w ← get;
  drained ← collect_all 0 (threads (base w));
  mret (drained_event <$> merge_sort seqno_le drained).

Definition DualStartTaskId (e : DualSchedEvent) : M W (option Z) :=
  match e with
  | DevRequestInvoke p _ => c ← on_rt (get_coro p); mret (Some (co_id c))
  | DevInvoke s _ => id ← slot_id s; mret (Some id)
  | _ => mret None
  end.

Definition DualHasPendingVisibleOp (seq : list DualSchedEvent) : M W bool :=
  let of_coro p : M W (option Z) := c ← on_rt (get_coro p); mret (Some (co_id c)) in
  let of_slot s : M W (option Z) := id ← slot_id s; mret (Some id) in
  ordinary_started ← collect_ids (λ e, match e with DevInvoke s _ => of_slot s | _ => mret None end) seq;
  ordinary_finished ← collect_ids (λ e, match e with DevResponse s _ _ => of_slot s | _ => mret None end) seq;
  dual_started ← collect_ids (λ e, match e with DevRequestInvoke p _ => of_coro p | _ => mret None end) seq;
  dual_finished ← collect_ids (λ e, match e with DevFollowUpResponse p _ _ => of_coro p | _ => mret None end) seq;
  mret (negb (bool_decide (ordinary_started ⊆ ordinary_finished)) ||
        negb (bool_decide (dual_started ⊆ dual_finished))).

Definition view_dual_event (e : DualSchedEvent) : M W (DualHistoryEvent Args Value) :=
  match e with
  | DevInvoke s t => k ← view_task s; mret (OrdinaryInvoke k t)
  | DevResponse s v t => k ← view_task s; mret (OrdinaryResponse k v t)
  | DevRequestInvoke p t => k ← view_coro p p; mret (RequestInvoke k t)
  | DevRequestResponse p t => k ← view_coro p p; mret (RequestResponse k t)
  | DevFollowUpInvoke p t => k ← view_coro p p; mret (FollowUpInvoke k t)
  | DevFollowUpResponse p v t => k ← view_coro p p; mret (FollowUpResponse k v t)
  end.

Definition dual_events (checker : list (DualHistoryEvent Args Value) → outcome bool)
    (ops : StrategyOps W) : EventOps W DualSchedEvent :=
  mkEventOps AppendDualStartEvent AppendDrainedDualEvents
    (λ s t, p ← task_at s; c ← on_rt (get_coro p);
            if co_dual c then mret []
            else v ← on_rt (GetRetVal p); mret [DevResponse s v (Z.of_nat t)])
    (so_ResetExplorationState ops)
    DualStartTaskId DualHasPendingVisibleOp
    (λ seq, h ← mapM view_dual_event seq; lift (checker h)).

End Helpers.
