(* ===== verification/Rounds.v ===== *)
(** * The rounds of the two schedulers

    [RunRound], [ExploreRound] and [ReplayRound] of [StrategyScheduler] and
    [DualStrategyScheduler] (runtime/include/scheduler.h), and the rollback of
    deadlocks. Loops that run the code under test take fuel: the code may run
    for ever. *)
From stdpp Require Import base list gmap strings.
From Stdlib Require Import ZArith.
From S2P Require Import Prelude Effects History LincheckDual BlockManager Verifier Runtime Strategy.
From S2P Require Import Scheduler.

Open Scope nat_scope.

Section Rounds.
Context `{TT : TargetTypes, TC : !TargetCode, RN : Random, TO : !TargetObject}.
Context {B X : Type} (vo : VerifierOps B).
Abbreviation W := (World B X).

Section Generic.
Context {Event : Type} (ops : StrategyOps W) (eo : EventOps W Event).
Context (deadlock_policy : DeadlockPolicy).

(** [RoundMinimizorT::HasAnyStartedOp] *)
Fixpoint HasAnyStartedOp (seq : list Event) : M W bool :=
  match seq with
  | [] => mret false
  | e :: seq =>
      r ← eo_StartTaskId eo e;
      match r with
      | Some _ => mret true
      | None => HasAnyStartedOp seq
      end
  end.

Definition IsReportableDeadlockHistory (seq : list Event) : M W bool :=
  started ← HasAnyStartedOp seq;
  if negb started then mret false else eo_HasPendingVisibleOp eo seq.

(** The verdict on a history that did not end in a deadlock. *)
Definition verdict (full : list Slot) (seq : list Event) : M W (Result Event) :=
  ok ← eo_check eo seq;
  mret (if (ok : bool) then None else Some (mkBad full seq NON_LINEARIZABLE_HISTORY)).

(** Run or terminate a task and record what it did. *)
Definition resume_and_record (forced_terminate : bool) (task : Slot) (t : nat) :
    M W (bool * list Event) :=
  p ← task_at task;
  (if forced_terminate then on_rt (update_coro p Terminate) else on_rt (Resume p t));;
  drained ← eo_drain eo;
  c ← coro_at task;
  if co_returned c then
    OnVerifierTaskFinish vo task t;;
    resp ← (if forced_terminate then mret [] else eo_response eo task t);
    mret (true, drained ++ resp)
  else mret (false, drained).

(** ** [ExploreRound] *)

Record explore_st := mkExplore {
  ex_started : gset Z;
  ex_seq : list Event;
  ex_full : list Slot;
}.

(** The verifier is asked about the first start of a task and about every
    later slice of it. *)
Definition explore_allowed (st : explore_st) (task : Slot) (t : nat) : M W (bool * explore_st) :=
  c ← coro_at task;
  if negb (bool_decide (co_id c ∈ ex_started st)) then
    ctx ← BuildReplayStartContext (ex_started st);
    ok ← VerifyTaskStart vo task t ctx;
    if negb ok then mret (false, st)
    else
      OnVerifierTaskStart vo task t;;
      start ← eo_start eo task t;
      mret (true, mkExplore ({[co_id c]} ∪ ex_started st) (ex_seq st ++ start) (ex_full st))
  else if co_returned c then mret (true, st)
  else ok ← VerifyExistingTask vo task t; mret (ok, st).

(** The loop of one exploration; the result says whether it deadlocked. *)
Fixpoint explore_loop (fuel tasks_to_run : nat) (st : explore_st) : M W (bool * explore_st) :=
  match tasks_to_run with
  | 0 => mret (false, st)
  | S fewer =>
      match fuel with
      | 0 => lift OutOfFuel
      | S fuel =>
          t ← so_NextSchedule ops;
          match t with
          | NextFailure DEADLOCK => mret (true, st)
          | NextFailure _ => lift (Throw "bad_variant_access")
          | TaskWithMetaData task _ tid =>
              r ← explore_allowed st task tid;
              let '(ok, st) := r in
              if negb ok then mret (true, st)
              else
                out ← resume_and_record false task tid;
                let st := mkExplore (ex_started st) (ex_seq st ++ out.2) (ex_full st ++ [task]) in
                explore_loop fuel (if (out.1 : bool) then fewer else tasks_to_run) st
          end
      end
  end.

Definition explore_verdict (deadlock_detected : bool) (st : explore_st) : M W (Result Event) :=
  if deadlock_detected then
    match deadlock_policy with
    | PolicyFail =>
        reportable ← IsReportableDeadlockHistory (ex_seq st);
        mret (if (reportable : bool) then Some (mkBad (ex_full st) (ex_seq st) DEADLOCK_FOUND) else None)
    | _ => verdict (ex_full st) (ex_seq st)
    end
  else verdict (ex_full st) (ex_seq st).

Fixpoint ExploreRound (fuel : nat) (runs : nat) : M W (Result Event) :=
  match runs with
  | 0 => mret None
  | S runs =>
      eo_reset_explore eo;;
      tasks_to_run ← GetValidTasksCount;
      r ← explore_loop fuel tasks_to_run (mkExplore ∅ [] []);
      res ← explore_verdict r.1 r.2;
      match res with
      | Some bad => mret (Some bad)
      | None => ExploreRound fuel runs
      end
  end.

(** ** [ReplayRound] *)

Record replay_st := mkReplay {
  rp_started : gset Z;
  rp_cutoff : list bool;
  rp_seq : list Event;
  rp_full : list Slot;
}.

Definition last_positions (tasks_ordering : list Z) : gmap Z nat :=
  fold_left (λ m '(i, id), <[id := i]> m) (imap pair tasks_ordering) ∅.

Definition cut_thread (st : replay_st) (t : nat) : replay_st :=
  mkReplay (rp_started st) (<[t := true]> (rp_cutoff st)) (rp_seq st) (rp_full st).

(** May the task run in this replay, and is this its start? *)
Definition replay_allowed (st : replay_st) (task : Slot) (id : Z) : M W (bool * bool) :=
  let t := task.1 in
  if negb (bool_decide (id ∈ rp_started st)) then
    ctx ← BuildReplayStartContext (rp_started st);
    ok ← VerifyTaskStart vo task t ctx;
    if negb ok then mret (false, true)
    else OnVerifierTaskStart vo task t;; mret (true, true)
  else
    c ← coro_at task;
    if co_returned c then mret (true, false)
    else ok ← VerifyExistingTask vo task t; mret (ok, false).

Definition replay_step (mode : ReplayMode) (last_pos : gmap Z nat) (st : replay_st)
    (step : nat) (id : Z) : M W replay_st :=
  task_info ← Strategy.GetTask id;
  match task_info with
  | None => lift (Throw "Invalid task id")
  | Some task =>
      let t := task.1 in
      cut ← mderef (rp_cutoff st !! t);
      if (cut : bool) then mret st
      else
        r ← replay_allowed st task id;
        let '(ok, is_new) := r in
        if negb (ok : bool) then mret (cut_thread st t)
        else
          let started := if (is_new : bool) then {[id]} ∪ rp_started st else rp_started st in
          p ← task_at task;
          on_rt (update_coro p clearWakeupCondition);;
          start ← (if (is_new : bool) then eo_start eo task t else mret []);
          let st := mkReplay started (rp_cutoff st) (rp_seq st ++ start) (rp_full st ++ [task]) in
          c ← coro_at task;
          if co_returned c then mret st
          else
            let is_last := bool_decide (last_pos !! id = Some step) in
            let forced_terminate := bool_decide (mode = CompleteOnLast) && is_last in
            out ← resume_and_record forced_terminate task t;
            mret (mkReplay (rp_started st) (rp_cutoff st) (rp_seq st ++ out.2) (rp_full st))
  end.

Fixpoint replay_loop (mode : ReplayMode) (last_pos : gmap Z nat) (st : replay_st) (step : nat)
    (ordering : list Z) : M W replay_st :=
  match ordering with
  | [] => mret st
  | id :: ordering =>
      st ← replay_step mode last_pos st step id;
      replay_loop mode last_pos st (S step) ordering
  end.

Definition ReplayRound (tasks_ordering : list Z) (mode : ReplayMode) : M W (Result Event) :=
  so_ResetCurrentRound ops;;
  w ← get;
  st ← replay_loop mode (last_positions tasks_ordering)
         (mkReplay ∅ (replicate (GetThreadsCount w) false) [] []) 0 tasks_ordering;
  stuck ← (match mode with
           | NoForceComplete =>
               r ← GetUnfinishedAndRunnable (Some (list_to_set tasks_ordering));
               mret (r.1 && negb r.2)
           | CompleteOnLast => mret false
           end);
  if (stuck : bool) then
    ok ← eo_check eo (rp_seq st);
    if negb ok then mret (Some (mkBad (rp_full st) (rp_seq st) NON_LINEARIZABLE_HISTORY))
    else
      match deadlock_policy with
      | PolicyFail =>
          reportable ← IsReportableDeadlockHistory (rp_seq st);
          mret (if (reportable : bool) then Some (mkBad (rp_full st) (rp_seq st) DEADLOCK_FOUND)
                else None)
      | _ => mret None
      end
  else verdict (rp_full st) (rp_seq st).

(** ** The start of an iteration of [RunRound] *)

(** [Some d]: leave the loop, in a deadlock iff [d]. *)
Definition round_over (max_tasks started_tasks : nat) : M W (option bool) :=
  if max_tasks <=? started_tasks then
    SetAllowNewTasks false;;
    r ← GetUnfinishedAndRunnable None;
    mret (if negb r.1 then Some false else if negb r.2 then Some true else None)
  else mret None.

End Generic.
Arguments mkExplore {_} _ _ _.
Arguments mkReplay {_} _ _ _ _.

(** ** [StrategyScheduler::RunRound] *)
Section RunRound.
Context (ops : StrategyOps W) (checker : list (HistoryEvent Args Value) → outcome bool).
Context (max_tasks exploration_runs : nat) (deadlock_policy : DeadlockPolicy).

Record run_st := mkRun { rn_seq : list SchedEvent; rn_full : list Slot; rn_started : nat }.

(** One slice of the task that [Next] returned. *)
Definition run_slice (st : run_st) (task : Slot) (is_new : bool) (t : nat) : M W run_st :=
  p ← task_at task;
  on_rt (update_coro p clearWakeupCondition);;
  let seq := if is_new then rn_seq st ++ [EvInvoke task (Z.of_nat t)] else rn_seq st in
  let started := if is_new then S (rn_started st) else rn_started st in
  on_rt (Resume p t);;
  h ← so_UpdateSimulatorState ops t (seq, rn_full st);
  c ← coro_at task;
  if co_returned c then
    OnVerifierTaskFinish vo task t;;
    v ← on_rt (Runtime.GetRetVal p);
    mret (mkRun (h.1 ++ [EvResponse task v (Z.of_nat t)]) h.2 started)
  else mret (mkRun h.1 h.2 started).

(** [None] is the early return on [EXHAUSTED_INTERLEAVINGS]. A restart does
    not reset the number of started tasks. *)
Fixpoint run_loop (fuel : nat) (st : run_st) : M W (option (bool * run_st)) :=
  match fuel with
  | 0 => lift OutOfFuel
  | S fuel =>
      over ← round_over max_tasks (rn_started st);
      match over with
      | Some deadlock => mret (Some (deadlock, st))
      | None =>
          t ← so_Next ops;
          match t with
          | NextFailure DEADLOCK => mret (Some (true, st))
          | NextFailure NEED_REPLAY =>
              so_StartNextRound ops;; run_loop fuel (mkRun [] [] (rn_started st))
          | NextFailure EXHAUSTED_INTERLEAVINGS => mret None
          | TaskWithMetaData task is_new tid =>
              st ← run_slice st task is_new tid; run_loop fuel st
          end
      end
  end.

Definition RunRound (fuel : nat) : M W (Result SchedEvent) :=
  let eo := ordinary_events checker ops in
  SetAllowNewTasks true;;
  r ← run_loop fuel (mkRun [] [] 0);
  match r with
  | None => mret None
  | Some (deadlock_detected, st) =>
      if (deadlock_detected : bool) then
        match deadlock_policy with
        | PolicyFail =>
            reportable ← IsReportableDeadlockHistory eo (rn_seq st);
            mret (if (reportable : bool) then Some (mkBad (rn_full st) (rn_seq st) DEADLOCK_FOUND)
                  else None)
        | _ =>
            res ← verdict eo (rn_full st) (rn_seq st);
            match res, deadlock_policy with
            | Some bad, _ => mret (Some bad)
            | None, PolicyCheck => mret None
            | None, _ => ExploreRound ops eo deadlock_policy fuel exploration_runs
            end
        end
      else verdict eo (rn_full st) (rn_seq st)
  end.

End RunRound.

(** ** [DualStrategyScheduler] *)
Section Dual.
Context (ops : StrategyOps W) (checker : list (DualHistoryEvent Args Value) → outcome bool).
Context (max_tasks exploration_runs : nat) (deadlock_policy : DeadlockPolicy).

Definition DualExploreRound (fuel runs : nat) : M W (Result DualSchedEvent) :=
  ExploreRound ops (dual_events checker ops) deadlock_policy fuel runs.
Definition DualReplayRound (tasks_ordering : list Z) (mode : ReplayMode) :
    M W (Result DualSchedEvent) :=
  ReplayRound ops (dual_events checker ops) deadlock_policy tasks_ordering mode.

Record RollbackCandidate := mkCandidate {
  rc_task_id : Z;
  rc_thread_id : nat;
  rc_wait_method : string;
  rc_progress_methods : list string;
}.

(** The methods that some constructor builds. *)
Fixpoint with_builder (methods : list string) : M W (list string) :=
  match methods with
  | [] => mret []
  | m :: methods =>
      b ← HasTaskBuilder m;
      rest ← with_builder methods;
      mret (if (b : bool) then m :: rest else rest)
  end.

(** The latest resumed task of the list (newest first) that is stored,
    blocked, and can be helped by a method that can be built. *)
Fixpoint find_candidate (seen : gset Z) (full_rev : list Slot) : M W (option RollbackCandidate) :=
  match full_rev with
  | [] => mret None
  | s :: full_rev =>
      id ← slot_id s;
      if bool_decide (id ∈ seen) then find_candidate seen full_rev
      else
        let seen := {[id]} ∪ seen in
        removed ← IsTaskRemoved id;
        if (removed : bool) then find_candidate seen full_rev
        else
          task_info ← Strategy.GetTask id;
          match task_info with
          | None => find_candidate seen full_rev
          | Some stored =>
              p ← task_at stored;
              c ← on_rt (get_coro p);
              if co_returned c then find_candidate seen full_rev
              else
                blocked ← on_rt (IsBlocked p);
                if negb blocked then find_candidate seen full_rev
                else
                  methods ← Strategy.GetDeadlockProgressMethods vo (co_name c);
                  methods ← with_builder methods;
                  match methods with
                  | [] => find_candidate seen full_rev
                  | _ => mret (Some (mkCandidate id stored.1 (co_name c) methods))
                  end
          end
  end.

Definition FindRollbackCandidate (full : list Slot) : M W (option RollbackCandidate) :=
  find_candidate ∅ (reverse full).

(** One progress method: replace the waiting task by it and explore once. *)
Definition rollback_attempt (fuel : nat) (candidate : RollbackCandidate) (progress_method : string) :
    M W (Result DualSchedEvent) :=
  SetTaskRemoved (rc_task_id candidate) true;;
  appended_task_id ← AppendTaskForReplay progress_method (rc_thread_id candidate);
  match appended_task_id with
  | None => SetTaskRemoved (rc_task_id candidate) false;; mret None
  | Some id =>
      alt ← DualExploreRound fuel 1;
      match alt with
      | Some bad => mret (Some bad)
      | None =>
          so_ResetExplorationState ops;;
          RemoveLastTaskForReplay (rc_thread_id candidate) id;;
          SetTaskRemoved (rc_task_id candidate) false;;
          mret None
      end
  end.

Fixpoint rollback_methods (fuel : nat) (candidate : RollbackCandidate) (methods : list string) :
    M W (Result DualSchedEvent) :=
  match methods with
  | [] => mret None
  | m :: methods =>
      alt ← rollback_attempt fuel candidate m;
      match alt with
      | Some bad => mret (Some bad)
      | None => rollback_methods fuel candidate methods
      end
  end.

Fixpoint rollback_attempts (fuel attempts : nat) (candidate : RollbackCandidate) :
    M W (Result DualSchedEvent) :=
  match attempts with
  | 0 => mret None
  | S attempts =>
      alt ← rollback_methods fuel candidate (rc_progress_methods candidate);
      match alt with
      | Some bad => mret (Some bad)
      | None => rollback_attempts fuel attempts candidate
      end
  end.

Definition TryRollbackDeadlock (fuel : nat) (full : list Slot) : M W (Result DualSchedEvent) :=
  candidate ← FindRollbackCandidate full;
  match candidate with
  | None => mret None
  | Some c => rollback_attempts fuel (Nat.max 1 exploration_runs) c
  end.

Definition HandleDeadlock (fuel : nat) (full : list Slot) (seq : list DualSchedEvent) :
    M W (Result DualSchedEvent) :=
  let eo := dual_events checker ops in
  match deadlock_policy with
  | PolicyFail =>
      reportable ← IsReportableDeadlockHistory eo seq;
      mret (if (reportable : bool) then Some (mkBad full seq DEADLOCK_FOUND) else None)
  | _ =>
      res ← verdict eo full seq;
      match res, deadlock_policy with
      | Some bad, _ => mret (Some bad)
      | None, PolicyCheck => mret None
      | None, PolicyRollback =>
          alt ← TryRollbackDeadlock fuel full;
          match alt with
          | Some bad => mret (Some bad)
          | None => DualExploreRound fuel exploration_runs
          end
      | None, _ => DualExploreRound fuel exploration_runs
      end
  end.

Record dual_run_st := mkDualRun {
  dn_seq : list DualSchedEvent;
  dn_full : list Slot;
  dn_started : nat;
}.

Fixpoint dual_run_loop (fuel : nat) (st : dual_run_st) : M W (bool * dual_run_st) :=
  match fuel with
  | 0 => lift OutOfFuel
  | S fuel =>
      over ← round_over max_tasks (dn_started st);
      match over with
      | Some deadlock => mret (deadlock, st)
      | None =>
          t ← so_Next ops;
          match t with
          | NextFailure DEADLOCK => mret (true, st)
          | NextFailure NEED_REPLAY =>
              so_StartNextRound ops;; dual_run_loop fuel (mkDualRun [] [] (dn_started st))
          | NextFailure EXHAUSTED_INTERLEAVINGS => lift (Throw "bad_variant_access")
          | TaskWithMetaData task is_new tid =>
              start ← (if (is_new : bool) then AppendDualStartEvent task tid else mret []);
              out ← resume_and_record (dual_events checker ops) false task tid;
              dual_run_loop fuel
                (mkDualRun (dn_seq st ++ start ++ out.2) (dn_full st ++ [task])
                   (if (is_new : bool) then S (dn_started st) else dn_started st))
          end
      end
  end.

Definition DualRunRound (fuel : nat) : M W (Result DualSchedEvent) :=
  SetAllowNewTasks true;;
  r ← dual_run_loop fuel (mkDualRun [] [] 0);
  let '(deadlock_detected, st) := r in
  if (deadlock_detected : bool) then HandleDeadlock fuel (dn_full st) (dn_seq st)
  else verdict (dual_events checker ops) (dn_full st) (dn_seq st).

End Dual.
End Rounds.
