(* ===== verification/Minimization.v ===== *)
(** * Minimization

    Models runtime/include/minimization.h and minimization_smart.h: the greedy
    minimizers, which try to drop one or two tasks of a bad history, and the
    genetic one. They see a scheduler through [SchedulerOps]. *)
From stdpp Require Import base list gmap strings.
From Stdlib Require Import ZArith SpecFloat.
From S2P Require Import Prelude Effects History LincheckDual BlockManager Verifier Runtime Strategy.
From S2P Require Import Scheduler Rounds.

Open Scope nat_scope.

(** What the minimizers call of [BasicSchedulerWithReplay]. *)
Record SchedulerOps (W Event : Type) := mkSchedulerOps {
  sc_ExploreRound : nat → M W (Result Event);
  sc_ReplayRound : list Z → ReplayMode → M W (Result Event);
  sc_ResetCurrentRound : M W unit;
}.
Arguments mkSchedulerOps {_ _} _ _ _.
Arguments sc_ExploreRound {_ _} _.
Arguments sc_ReplayRound {_ _} _.
Arguments sc_ResetCurrentRound {_ _} _.

Section Minimizers.
Context `{TT : TargetTypes, TC : !TargetCode, RN : Random, TO : !TargetObject}.
Context {B X Event : Type}.
Abbreviation W := (World B X).
Context (eo : EventOps W Event) (sched : SchedulerOps W Event).
Abbreviation Bad := (NonLinearizableHistory Event).

(** ** [RoundMinimizorT] *)

Fixpoint GetTasksOrdering (full_history : list Slot) (exclude_task_ids : gset Z) : M W (list Z) :=
  match full_history with
  | [] => mret []
  | s :: full =>
      id ← slot_id s;
      rest ← GetTasksOrdering full exclude_task_ids;
      mret (if bool_decide (id ∈ exclude_task_ids) then rest else id :: rest)
  end.

Definition IsMeaningfulBadResult (bad : Bad) : M W bool :=
  started ← HasAnyStartedOp eo (nl_seq bad);
  if negb started then mret false
  else if bool_decide (nl_reason bad = DEADLOCK_FOUND) then eo_HasPendingVisibleOp eo (nl_seq bad)
  else mret true.

(** ** [GreedyRoundMinimizorT]

    [on_removed] is [OnTasksRemoved]. *)
Section Greedy.
Context (on_removed : Bad → list Z → M W (Result Event)).

(** The ids of the started operations, each once, in order. *)
Fixpoint start_ids (seen : gset Z) (seq : list Event) : M W (list Z) :=
  match seq with
  | [] => mret []
  | e :: seq =>
      r ← eo_StartTaskId eo e;
      match r with
      | None => start_ids seen seq
      | Some id =>
          if bool_decide (id ∈ seen) then start_ids seen seq
          else rest ← start_ids ({[id]} ∪ seen) seq; mret (id :: rest)
      end
  end.

(** Try to remove tasks: the new history, or [None] if they are needed. *)
Definition try_remove (bad : Bad) (ids : list Z) : M W (Result Event) :=
  r ← on_removed bad ids;
  match r with
  | None => mret None
  | Some new =>
      ok ← IsMeaningfulBadResult new;
      if (ok : bool) then for_each (λ id, SetTaskRemoved id true) ids;; mret (Some new) else mret None
  end.

Fixpoint remove_single (bad : Bad) (op_ids : list Z) : M W Bad :=
  match op_ids with
  | [] => mret bad
  | id :: op_ids =>
      removed ← IsTaskRemoved id;
      if (removed : bool) then remove_single bad op_ids
      else r ← try_remove bad [id]; remove_single (default bad r) op_ids
  end.

(** The inner loop over the partners [j] of [i]; it stops at a success. *)
Fixpoint remove_with (bad : Bad) (id_i : Z) (partners : list Z) : M W Bad :=
  match partners with
  | [] => mret bad
  | id_j :: partners =>
      removed ← IsTaskRemoved id_j;
      if (removed : bool) then remove_with bad id_i partners
      else
        r ← try_remove bad [id_i; id_j];
        match r with
        | Some new => mret new
        | None => remove_with bad id_i partners
        end
  end.

Fixpoint remove_pairs (bad : Bad) (op_ids : list Z) : M W Bad :=
  match op_ids with
  | [] => mret bad
  | id :: op_ids =>
      removed ← IsTaskRemoved id;
      bad ← (if (removed : bool) then mret bad else remove_with bad id op_ids);
      remove_pairs bad op_ids
  end.

(** [GreedyRoundMinimizorT::Minimize] *)
Definition GreedyMinimize (nonlinear_history : Bad) : M W Bad :=
  op_ids ← start_ids ∅ (nl_seq nonlinear_history);
  bad ← remove_single nonlinear_history op_ids;
  bad ← remove_pairs bad op_ids;
  (if bool_decide (nl_reason bad = DEADLOCK_FOUND) then sc_ResetCurrentRound sched
   else
     ordering ← GetTasksOrdering (nl_full bad) ∅;
     sc_ReplayRound sched ordering CompleteOnLast;; mret ());;
  mret bad.

End Greedy.

(** [SameInterleavingMinimizorT::OnTasksRemoved] *)
Definition SameInterleaving (bad : Bad) (task_ids : list Z) : M W (Result Event) :=
  new_ordering ← GetTasksOrdering (nl_full bad) (list_to_set task_ids);
  sc_ReplayRound sched new_ordering
    (if bool_decide (nl_reason bad = DEADLOCK_FOUND) then NoForceComplete else CompleteOnLast).

(** [StrategyExplorationMinimizorT::OnTasksRemoved] *)
Definition StrategyExploration (runs : nat) (bad : Bad) (task_ids : list Z) : M W (Result Event) :=
  for_each (λ id, SetTaskRemoved id true) task_ids;;
  new_histories ← sc_ExploreRound sched runs;
  match new_histories with
  | Some new => mret (Some new)
  | None => for_each (λ id, SetTaskRemoved id false) task_ids;; mret None
  end.

(** ** [SmartMinimizorT] *)

(** Arithmetic of [float], IEEE binary32. *)
Definition float32 : Type := spec_float.
Definition fadd : float32 → float32 → float32 := SFadd 24 128.
Definition fsub : float32 → float32 → float32 := SFsub 24 128.
Definition fmul : float32 → float32 → float32 := SFmul 24 128.
Definition fdiv : float32 → float32 → float32 := SFdiv 24 128.
Definition of_nat32 (n : nat) : float32 := binary_normalize 24 128 (Z.of_nat n) 0 false.
Definition f0 : float32 := of_nat32 0.
Definition f1 : float32 := of_nat32 1.
(** [0.0001f] *)
Definition eps : float32 := S754_finite false 13743895 (-37).

(** The valid task ids of each thread that has some. *)
Abbreviation ThreadTasks := (gmap nat (gset Z)).

Record Solution := mkSolution {
  sol_tasks : ThreadTasks;
  nonlinear_histories : Bad;
  fitness : float32;
  valid_tasks : nat;
}.

(** The constructor's loop over the tasks of a thread. *)
Fixpoint valid_in_thread (ps : list nat) : M W (list Z) :=
  match ps with
  | [] => mret []
  | p :: ps =>
      c ← on_rt (get_coro p);
      removed ← IsTaskRemoved (co_id c);
      rest ← valid_in_thread ps;
      mret (if (removed : bool) then rest else co_id c :: rest)
  end.
Fixpoint valid_in_threads (t : nat) (ths : list (list nat)) : M W (nat * ThreadTasks) :=
  match ths with
  | [] => mret (0, ∅)
  | th :: ths =>
      ids ← valid_in_thread th;
      r ← valid_in_threads (S t) ths;
      mret (length ids + r.1,
            match ids with [] => r.2 | _ => <[t := list_to_set ids]> r.2 end)
  end.

Definition in_unit (x : float32) : bool := SFleb f0 x && SFleb x f1.

Definition tasks_fitness (valid total : nat) : float32 :=
  fsub f1 (fdiv (fmul (of_nat32 valid) f1) (fmul (of_nat32 total) f1)).
Definition threads_fitness (used total : nat) : float32 :=
  fsub (fadd eps f1) (fdiv (fmul (of_nat32 used) f1) (fmul (of_nat32 total) f1)).

Definition make_solution (histories : Bad) (total_tasks : nat) : M W Solution :=
  w ← get;
  r ← valid_in_threads 0 (threads (base w));
  let '(valid, tasks) := r in
  let tf := tasks_fitness valid total_tasks in
  let hf := threads_fitness (size tasks) (GetThreadsCount w) in
  massert (in_unit tf);;
  massert (in_unit hf);;
  mret (mkSolution tasks histories (fmul tf hf) valid).

(** [std::multiset] with the biggest fitness first. *)
Fixpoint insert_solution (s : Solution) (l : list Solution) : list Solution :=
  match l with
  | [] => [s]
  | x :: l => if SFltb (fitness x) (fitness s) then s :: x :: l else x :: insert_solution s l
  end.

(** The mutable fields of the minimizer. *)
Record Smart := mkSmart { mutations_count : nat; smart_rng : Rng }.

(** [DropRandomTask]: a random task of a random thread, unless it is the last
    task of one of the last two threads. *)
Definition DropRandomTask (r : Rng) (ths : ThreadTasks) : ThreadTasks * Rng :=
  match map_to_list ths with
  | [] => (ths, r)
  | l =>
      let '(k, r) := uniform_int_distribution r 0 (Z.of_nat (length l) - 1) in
      match l !! Z.to_nat k with
      | None => (ths, r)
      | Some (t, tasks) =>
          if (size tasks =? 0) || ((size tasks =? 1) && (length l =? 2)) then (ths, r)
          else
            let '(j, r) := uniform_int_distribution r 0 (Z.of_nat (size tasks) - 1) in
            match elements tasks !! Z.to_nat j with
            | None => (ths, r)
            | Some id => (<[t := tasks ∖ {[id]}]> ths, r)
            end
      end
  end.

Fixpoint mutate (n count : nat) (r : Rng) (ths : ThreadTasks) : ThreadTasks * Rng :=
  match n with
  | 0 => (ths, r)
  | S n =>
      let '(go, r) := if 1 <? count then (true, r)
                      else let '(x, r) := uniform_real_distribution r in
                           ((x <? 8556839292003942)%Z, r) in
      let '(ths, r) := if (go : bool) then DropRandomTask r ths else (ths, r) in
      mutate n count r ths
  end.

(** [CrossProduct]: the threads of the parent with fewer threads, each with
    the tasks of one of the parents. *)
Definition CrossProduct (r : Rng) (p1 p2 : Solution) : ThreadTasks * Rng :=
  let '(p1, p2) := if size (sol_tasks p2) <=? size (sol_tasks p1) then (p2, p1) else (p1, p2) in
  fold_left (λ '(acc, r) '(t, ids),
      match sol_tasks p2 !! t with
      | None => (<[t := ids]> acc, r)
      | Some ids2 =>
          let '(x, r) := uniform_real_distribution r in
          (<[t := if (2 ^ 52 <=? x)%Z then ids2 else ids]> acc, r)
      end)
    (map_to_list (sol_tasks p1)) (∅, r).

Definition RemoveInvalidTasks (valid_threads : ThreadTasks) : M W unit :=
  w ← get;
  for_each (λ '(t, p),
      c ← on_rt (get_coro p);
      SetTaskRemoved (co_id c)
        (negb (bool_decide (co_id c ∈ default ∅ (valid_threads !! t)))))
    (concat (imap (λ t th, pair t <$> th) (threads (base w)))).

Section Smart.
Context (exploration_runs : nat).
Context (max_offsprings_per_generation offsprings_generation_attempts total_tasks : nat).
Definition max_population_size : nat := 2.

(** The attempts to generate one offspring. *)
Fixpoint generate_one (attempts : nat) (p1 p2 : Solution) (sm : Smart) : M W (option Solution * Smart) :=
  match attempts with
  | 0 => mret (None, sm)
  | S attempts =>
      let '(ths, r) := CrossProduct (smart_rng sm) p1 p2 in
      let '(ths, r) := mutate (mutations_count sm) (mutations_count sm) r ths in
      let sm := mkSmart (mutations_count sm) r in
      RemoveInvalidTasks ths;;
      histories ← sc_ExploreRound sched exploration_runs;
      match histories with
      | None => generate_one attempts p1 p2 sm
      | Some bad =>
          ok ← IsMeaningfulBadResult bad;
          if (ok : bool) then s ← make_solution bad total_tasks; mret (Some s, sm)
          else generate_one attempts p1 p2 sm
      end
  end.

Fixpoint generate_loop (n : nat) (p1 p2 : Solution) (sm : Smart) : M W (list Solution * Smart) :=
  match n with
  | 0 => mret ([], sm)
  | S n =>
      r ← generate_one offsprings_generation_attempts p1 p2 sm;
      rest ← generate_loop n p1 p2 r.2;
      mret (match r.1 with Some s => s :: rest.1 | None => rest.1 end, rest.2)
  end.

Definition GenerateOffsprings (p1 p2 : Solution) (sm : Smart) : M W (list Solution * Smart) :=
  massert (0 <? offsprings_generation_attempts);;
  r ← generate_loop max_offsprings_per_generation p1 p2 sm;
  let '(offsprings, sm) := r in
  mret (offsprings,
        if (length offsprings * 2 <? max_offsprings_per_generation) && (1 <? mutations_count sm)
        then mkSmart (mutations_count sm - 1) (smart_rng sm) else sm).

(** The generations: the best two solutions are the parents and survive. *)
Fixpoint evolve (runs : nat) (population : list Solution) (sm : Smart) : M W (list Solution * Smart) :=
  match runs with
  | 0 => mret (population, sm)
  | S runs =>
      p1 ← mderef (population !! 0);
      p2 ← (if length population <? 2 then mret p1 else mderef (population !! 1));
      r ← GenerateOffsprings p1 p2 sm;
      let population := fold_left (λ l s, insert_solution s l) r.1 population in
      evolve runs (take max_population_size population) r.2
  end.

(** The final replay, first in the mode of the reason of the history. *)
Fixpoint replay_modes (ordering : list Z) (modes : list ReplayMode) (nonlinear : Bad) : M W Bad :=
  match modes with
  | [] => mret nonlinear
  | mode :: modes =>
      replayed ← sc_ReplayRound sched ordering mode;
      match replayed with
      | None => replay_modes ordering modes nonlinear
      | Some bad =>
          ok ← IsMeaningfulBadResult bad;
          if (ok : bool) then mret bad else replay_modes ordering modes nonlinear
      end
  end.

End Smart.

(** [SmartMinimizorT::Minimize] *)
Definition SmartMinimize (exploration_runs minimization_runs max_offsprings attempts : nat)
    (sm : Smart) (nonlinear : Bad) : M W Bad :=
  w ← get;
  let total_tasks := GetTotalTasksCount w in
  first ← make_solution nonlinear total_tasks;
  r ← evolve exploration_runs max_offsprings attempts total_tasks minimization_runs [first] sm;
  best ← mderef (r.1 !! 0);
  RemoveInvalidTasks (sol_tasks best);;
  ordering ← GetTasksOrdering (nl_full (nonlinear_histories best)) ∅;
  replay_modes ordering
    (if bool_decide (nl_reason (nonlinear_histories best) = DEADLOCK_FOUND)
     then [NoForceComplete; CompleteOnLast] else [CompleteOnLast; NoForceComplete]) nonlinear.

End Minimizers.
