(* ===== verification/Run.v ===== *)
(** * The test loops

    [Run] of [StrategyScheduler] and [DualStrategyScheduler]
    (runtime/include/scheduler.h): custom rounds, generated rounds, and the
    minimization of the first bad history. *)
From stdpp Require Import base list gmap strings.
From Stdlib Require Import ZArith.
From S2P Require Import Prelude Effects History LincheckDual BlockManager Verifier Runtime Strategy.
From S2P Require Import Scheduler Rounds Minimization.

Open Scope nat_scope.

(** The options of a run. *)
Record RunOptions := mkRunOptions {
  max_tasks : nat;
  max_rounds : nat;
  should_minimize_history : bool;
  exploration_runs : nat;
  minimization_runs : nat;
  deadlock_policy : DeadlockPolicy;
}.

Section Run.
Context `{TT : TargetTypes, TC : !TargetCode, RN : Random, TO : !TargetObject}.
Context {B X : Type} (vo : VerifierOps B).
Abbreviation W := (World B X).
Context (ops : StrategyOps W) (o : RunOptions) (fuel : nat).
(** [std::random_device]: the seed of the genetic minimizer. *)
Context (seed : Rng).

(** The default arguments of [SmartMinimizorT]. *)
Definition smart_init : Smart := mkSmart 10 seed.

(** The three minimizers in the order of [Run]; a deadlock is not minimized. *)
Definition minimize_all {Event} (eo : EventOps W Event) (sched : SchedulerOps W Event)
    (bad : NonLinearizableHistory Event) : M W (NonLinearizableHistory Event) :=
  if negb (should_minimize_history o) || bool_decide (nl_reason bad = DEADLOCK_FOUND) then mret bad
  else
    bad ← GreedyMinimize eo sched (SameInterleaving sched) bad;
    bad ← GreedyMinimize eo sched (StrategyExploration sched (exploration_runs o)) bad;
    SmartMinimize eo sched (exploration_runs o) (minimization_runs o) 5 10 smart_init bad.

Section Ordinary.
Context (checker : list (HistoryEvent Args Value) → outcome bool).
Let eo := ordinary_events checker ops.

Definition StrategyScheduler : SchedulerOps W SchedEvent :=
  mkSchedulerOps (ExploreRound vo ops eo (deadlock_policy o) fuel)
    (ReplayRound vo ops eo (deadlock_policy o)) (so_ResetCurrentRound ops).

(** What is left to do: the custom rounds first, then [rounds] generated ones. *)
Fixpoint run_rounds (rounds : nat) : M W (Result SchedEvent) :=
  match rounds with
  | 0 => mret None
  | S rounds =>
      histories ← RunRound vo ops checker (max_tasks o) (exploration_runs o) (deadlock_policy o) fuel;
      match histories with
      | Some bad => bad ← minimize_all eo StrategyScheduler bad; mret (Some bad)
      | None => so_StartNextRound ops;; run_rounds rounds
      end
  end.

Fixpoint Run (custom_rounds : list CustomRound) : M W (Result SchedEvent) :=
  match custom_rounds with
  | [] => run_rounds (max_rounds o)
  | c :: custom_rounds =>
      so_SetCustomRound ops c;;
      histories ← ExploreRound vo ops eo (deadlock_policy o) fuel (exploration_runs o);
      match histories with
      | Some bad => bad ← minimize_all eo StrategyScheduler bad; mret (Some bad)
      | None => so_StartNextRound ops;; Run custom_rounds
      end
  end.
End Ordinary.

Section DualRun.
Context (checker : list (DualHistoryEvent Args Value) → outcome bool).
Let eo := dual_events checker ops.

Definition DualStrategyScheduler : SchedulerOps W DualSchedEvent :=
  mkSchedulerOps (DualExploreRound vo ops checker (deadlock_policy o) fuel)
    (DualReplayRound vo ops checker (deadlock_policy o)) (so_ResetCurrentRound ops).

Fixpoint dual_run_rounds (rounds : nat) : M W (Result DualSchedEvent) :=
  match rounds with
  | 0 => mret None
  | S rounds =>
      res ← DualRunRound vo ops checker (max_tasks o) (exploration_runs o) (deadlock_policy o) fuel;
      match res with
      | Some bad => bad ← minimize_all eo DualStrategyScheduler bad; mret (Some bad)
      | None => so_StartNextRound ops;; dual_run_rounds rounds
      end
  end.
Definition DualRun : M W (Result DualSchedEvent) := dual_run_rounds (max_rounds o).
End DualRun.

End Run.
