(* ===== verification/Options.v ===== *)
(** * Options

    The literals and flags of src/runtime/include/verifying.h and
    src/runtime/verifying.cpp. gflags parses the command line and leaves the
    values in global variables: [Flags] is the content of these variables. *)
From stdpp Require Import base list strings.
From Stdlib Require Import ZArith Ascii.
From Stdlib Require String.
From S2P Require Import Prelude Effects BlockManager Runtime Verifier Strategy Scheduler.

Open Scope Z_scope.

(** ** Literals *)

Inductive StrategyType := RR | RND | TLA | PCT.

Definition GetLiteral (t : StrategyType) : string :=
  match t with RR => "rr" | RND => "random" | TLA => "tla" | PCT => "pct" end.

Definition GetPolicyLiteral (p : DeadlockPolicy) : string :=
  match p with
  | PolicyFail => "fail" | PolicyCheck => "checker" | PolicyExplore => "explore" | PolicyRollback => "rollback"
  end.

(** [std::tolower] in the default locale. *)
Definition to_lower (c : ascii) : ascii :=
  let n := nat_of_ascii c in
  if ((65 <=? n) && (n <=? 90))%nat then ascii_of_nat (n + 32) else c.

Fixpoint toLower (s : string) : string :=
  match s with EmptyString => EmptyString | String c s => String (to_lower c) (toLower s) end.

Definition FromLiteral (a : string) : outcome StrategyType :=
  if bool_decide (a = GetLiteral PCT) then Ret PCT
  else if bool_decide (a = GetLiteral RND) then Ret RND
  else if bool_decide (a = GetLiteral RR) then Ret RR
  else if bool_decide (a = GetLiteral TLA) then Ret TLA
  else Throw a.

Definition DeadlockPolicyFromLiteral (a : string) : outcome DeadlockPolicy :=
  let a := toLower a in
  if bool_decide (a = GetPolicyLiteral PolicyFail) then Ret PolicyFail
  else if bool_decide (a = GetPolicyLiteral PolicyCheck) then Ret PolicyCheck
  else if bool_decide (a = GetPolicyLiteral PolicyExplore) then Ret PolicyExplore
  else if bool_decide (a = GetPolicyLiteral PolicyRollback) then Ret PolicyRollback
  else Throw a.

(** ** Splitting and numbers *)

(** The vector [res] is [done ++ [back]]. *)
Fixpoint split_loop (delim : ascii) (done : list string) (back : string) (s : string) : list string :=
  match s with
  | EmptyString => done ++ [back]
  | String c s =>
      if bool_decide (c = delim) then split_loop delim (done ++ [back]) EmptyString s
      else split_loop delim done (back +:+ String c EmptyString) s
  end.
Definition split (s : string) (delim : ascii) : list string := split_loop delim [] EmptyString s.

(** [std::isspace] and the digits. *)
Definition is_space (c : ascii) : bool :=
  let n := nat_of_ascii c in ((n =? 32) || ((9 <=? n) && (n <=? 13)))%nat.
Definition digit (c : ascii) : option Z :=
  let n := nat_of_ascii c in if ((48 <=? n) && (n <=? 57))%nat then Some (Z.of_nat n - 48) else None.

(** The longest sequence of digits, as a number after [acc]. *)
Fixpoint digits (acc : Z) (s : string) : Z :=
  match s with
  | EmptyString => acc
  | String c s => match digit c with Some d => digits (10 * acc + d) s | None => acc end
  end.

Fixpoint skip_spaces (s : string) : string :=
  match s with
  | String c s' => if is_space c then skip_spaces s' else s
  | EmptyString => EmptyString
  end.

Definition INT_MIN : Z := -2147483648.
Definition INT_MAX : Z := 2147483647.

Definition take_sign (s : string) : Z * string :=
  match s with
  | String "-" s => (-1, s)
  | String "+" s => (1, s)
  | _ => (1, s)
  end.

(** [std::stoi]: spaces, a sign, digits; what follows is ignored. *)
Definition stoi (s : string) : outcome Z :=
  let '(sign, s) := take_sign (skip_spaces s) in
  match s with
  | String c _ =>
      match digit c with
      | Some _ =>
          let z := sign * digits 0 s in
          if (INT_MIN <=? z) && (z <=? INT_MAX) then Ret z else Throw "out_of_range"
      | None => Throw "invalid_argument"
      end
  | EmptyString => Throw "invalid_argument"
  end.

(** ** Options *)

(** Conversions between [size_t] and [int32_t]. *)
Definition to_int32 (z : Z) : Z := (z + 2 ^ 31) mod 2 ^ 32 - 2 ^ 31.
Definition to_size (z : Z) : Z := z mod 2 ^ 64.

Record Flags := mkFlags {
  FLAGS_threads : Z; FLAGS_tasks : Z; FLAGS_switches : Z; FLAGS_rounds : Z;
  FLAGS_minimize : bool;
  FLAGS_exploration_runs : Z; FLAGS_minimization_runs : Z;
  FLAGS_wmm_enabled : bool;
  FLAGS_depth : Z;
  FLAGS_verbose : bool;
  FLAGS_strategy : string; FLAGS_weights : string; FLAGS_deadlock_policy : string;
  FLAGS_seed : Z;
}.

Definition default_flags : Flags :=
  mkFlags 2 15 100000000 5 false 15 15 false 0 false (GetLiteral RR) "" (GetPolicyLiteral PolicyFail) 0.

Record DefaultOptions := mkDefaultOptions {
  def_threads : Z; def_tasks : Z; def_switches : Z; def_rounds : Z; def_depth : Z;
  def_forbid_all_same : bool;
  def_verbose : bool;
  def_strategy : string; def_weights : string;
  def_minimization_runs : Z; def_exploration_runs : Z;
  def_wmm_enabled : bool;
  def_seed : Z;
  def_deadlock_policy : option string;
}.

Record Opts := mkOpts {
  op_threads : Z; op_tasks : Z; op_switches : Z; op_rounds : Z;
  op_minimize : bool;
  op_exploration_runs : Z; op_minimization_runs : Z;
  op_wmm_enabled : bool;
  op_depth : Z;
  op_forbid_all_same : bool;
  op_verbose : bool;
  op_syscall_trap : bool;
  op_typ : StrategyType;
  op_thread_weights : list Z;
  op_deadlock_policy : DeadlockPolicy;
  op_seed : Z;
}.

(** The pointer of the policy may be null or lead to an empty string. *)
Definition SetOpts (def : DefaultOptions) (f : Flags) : Flags :=
  mkFlags (to_int32 (def_threads def)) (to_int32 (def_tasks def)) (to_int32 (def_switches def))
    (to_int32 (def_rounds def)) (FLAGS_minimize f) (to_int32 (def_exploration_runs def))
    (to_int32 (def_minimization_runs def)) (def_wmm_enabled def) (to_int32 (def_depth def))
    (def_verbose def) (def_strategy def) (def_weights def)
    (match def_deadlock_policy def with
     | Some p => if bool_decide (p = "") then GetPolicyLiteral PolicyFail else p
     | None => GetPolicyLiteral PolicyFail
     end) (def_seed def).

Fixpoint parse_weights (l : list string) : outcome (list Z) :=
  match l with
  | [] => Ret []
  | s :: l => w ← stoi s; ws ← parse_weights l; Ret (w :: ws)
  end.

Definition ParseOpts (f : Flags) : outcome Opts :=
  policy ← DeadlockPolicyFromLiteral (FLAGS_deadlock_policy f);
  typ ← FromLiteral (FLAGS_strategy f);
  weights ← (if bool_decide (FLAGS_weights f = "") then Ret []
             else parse_weights (split (FLAGS_weights f) ","));
  Ret (mkOpts (to_size (FLAGS_threads f)) (to_size (FLAGS_tasks f)) (to_size (FLAGS_switches f))
         (to_size (FLAGS_rounds f)) (FLAGS_minimize f) (to_size (FLAGS_exploration_runs f))
         (to_size (FLAGS_minimization_runs f)) (FLAGS_wmm_enabled f) (to_size (FLAGS_depth f))
         false (FLAGS_verbose f) false typ weights policy (FLAGS_seed f)).

(** ** Printing *)

(** [std::to_string(int)], which [toString<int>] calls. *)
Fixpoint dec_digits (fuel : nat) (n : Z) (acc : string) : string :=
  match fuel with
  | O => acc
  | S fuel =>
      let c := ascii_of_nat (48 + Z.to_nat (n mod 10)) in
      if n <? 10 then String c acc else dec_digits fuel (n / 10) (String c acc)
  end.
Definition toString (z : Z) : string :=
  if z <? 0 then String "-" (dec_digits 10 (- z) "") else dec_digits 10 z "".

Fixpoint join (l : list string) : string :=
  match l with
  | [] => EmptyString
  | [s] => s
  | s :: l => s +:+ String "," (join l)
  end.

(** ** Numbers round trip *)

Lemma digit_char d : 0 ≤ d < 10 → digit (ascii_of_nat (48 + Z.to_nat d)) = Some d.
Proof.
  intros Hd. unfold digit. rewrite nat_ascii_embedding by lia.
  rewrite (proj2 (Nat.leb_le _ _)), (proj2 (Nat.leb_le _ _)) by lia. simpl. f_equal. lia.
Qed.

Lemma digits_cons a c s :
  digits a (String c s) = match digit c with Some d => digits (10 * a + d) s | None => a end.
Proof. done. Qed.

Lemma dec_digits_S fuel n s :
  dec_digits (S fuel) n s =
    if n <? 10 then String (ascii_of_nat (48 + Z.to_nat (n mod 10))) s
    else dec_digits fuel (n / 10) (String (ascii_of_nat (48 + Z.to_nat (n mod 10))) s).
Proof. done. Qed.

Lemma digits_dec fuel n s : 0 ≤ n < 10 ^ Z.of_nat fuel → digits 0 (dec_digits fuel n s) = digits n s.
Proof.
  revert n s. induction fuel as [|fuel IH]; intros n s Hn; [|rewrite dec_digits_S].
  { change (10 ^ Z.of_nat 0) with 1 in Hn. by replace n with 0 by lia. }
  assert (0 ≤ n mod 10 < 10) as Hm by (apply Z.mod_pos_bound; lia).
  pose proof (Z.div_mod n 10 ltac:(lia)) as Hdm.
  assert (∀ a, digits a (String (ascii_of_nat (48 + Z.to_nat (n mod 10))) s) = digits (10 * a + n mod 10) s) as Hd.
  { intros a. by rewrite digits_cons, digit_char by lia. }
  destruct (Z.ltb_spec n 10).
  - rewrite Hd. f_equal. rewrite Z.mod_small by lia. lia.
  - rewrite IH, Hd; [f_equal; lia|]. split; [apply Z.div_pos; lia|]. apply Z.div_lt_upper_bound; [lia|].
    replace (Z.of_nat (S fuel)) with (Z.of_nat fuel + 1) in Hn by lia. rewrite Z.pow_add_r in Hn by lia. lia.
Qed.

(** A printed number consists of digits. *)
Lemma dec_digits_all (P : ascii → Prop) fuel n s :
  (∀ d, 0 ≤ d < 10 → P (ascii_of_nat (48 + Z.to_nat d))) → Forall P (String.list_ascii_of_string s) →
  Forall P (String.list_ascii_of_string (dec_digits fuel n s)).
Proof.
  intros HP. revert n s. induction fuel as [|fuel IH]; intros n s Hs; [done|]. rewrite dec_digits_S.
  assert (Forall P (String.list_ascii_of_string (String (ascii_of_nat (48 + Z.to_nat (n mod 10))) s))) as Hs'.
  { constructor; [apply HP, Z.mod_pos_bound; lia|done]. }
  destruct (n <? 10); [done|by apply IH].
Qed.

Lemma dec_digits_head fuel n s :
  ∃ c r, dec_digits (S fuel) n s = String c r ∧ ∃ d, 0 ≤ d < 10 ∧ c = ascii_of_nat (48 + Z.to_nat d).
Proof.
  revert n s. induction fuel as [|fuel IH]; intros n s; rewrite dec_digits_S;
    (assert (0 ≤ n mod 10 < 10) by (apply Z.mod_pos_bound; lia)).
  - destruct (n <? 10); eexists _, _; (split; [done|]); by exists (n mod 10).
  - destruct (n <? 10); [|apply IH]. eexists _, _. split; [done|]. by exists (n mod 10).
Qed.

Lemma digit_plain d : 0 ≤ d < 10 →
  let c := ascii_of_nat (48 + Z.to_nat d) in is_space c = false ∧ c ≠ "-"%char ∧ c ≠ "+"%char ∧ c ≠ ","%char.
Proof.
  intros Hd c. assert (nat_of_ascii c = (48 + Z.to_nat d)%nat) as E by (apply nat_ascii_embedding; lia).
  split_and!; [|intros Ec; rewrite Ec in E; vm_compute in E; lia..].
  unfold is_space. rewrite E. apply orb_false_iff. split; [apply Nat.eqb_neq; lia|].
  apply andb_false_iff. right. apply Nat.leb_gt. lia.
Qed.

Lemma stoi_toString z : INT_MIN ≤ z ≤ INT_MAX → stoi (toString z) = Ret z.
Proof.
  intros Hz. unfold INT_MIN, INT_MAX in Hz.
  assert (∀ n, 0 ≤ n ≤ 2147483648 → digits 0 (dec_digits 10 n "") = n) as Hdig.
  { intros n Hn. rewrite digits_dec by (simpl; lia). done. }
  assert ((INT_MIN <=? z) && (z <=? INT_MAX) = true) as Hrange.
  { unfold INT_MIN, INT_MAX. apply andb_true_iff. split; apply Z.leb_le; lia. }
  unfold stoi, toString. destruct (Z.ltb_spec z 0).
  - change (skip_spaces (String "-" (dec_digits 10 (- z) ""))) with (String "-" (dec_digits 10 (- z) "")).
    change (take_sign (String "-" (dec_digits 10 (- z) ""))) with (-1, dec_digits 10 (- z) "").
    specialize (Hdig (- z) ltac:(lia)). destruct (dec_digits_head 9 (- z) "") as (c&r&E&d&Hd&Ec).
    rewrite E in *. rewrite Hdig, Ec, (digit_char d Hd). replace (-1 * - z) with z by lia. by rewrite Hrange.
  - specialize (Hdig z ltac:(lia)). destruct (dec_digits_head 9 z "") as (c&r&E&d&Hd&Ec). rewrite E in *.
    destruct (digit_plain d Hd) as (Hsp&Hm&Hp&_). rewrite <-Ec in Hsp, Hm, Hp.
    assert (skip_spaces (String c r) = String c r) as ->.
    { change (skip_spaces (String c r)) with (if is_space c then skip_spaces r else String c r). by rewrite Hsp. }
    assert (take_sign (String c r) = (1, String c r)) as ->.
    { clear -Hm Hp. destruct c as [[] [] [] [] [] [] [] []]; simpl; congruence. }
    rewrite Hdig, Ec, (digit_char d Hd). replace (1 * z) with z by lia. by rewrite Hrange.
Qed.

(** ** Lists round trip *)

Definition free (delim : ascii) (s : string) : Prop := Forall (λ c, c ≠ delim) (String.list_ascii_of_string s).

Lemma app_cons_r (s : string) c r : (s +:+ String c "") +:+ r = s +:+ String c r.
Proof. induction s as [|a s IH]; [done|]. exact (f_equal (String a) IH). Qed.

Lemma app_nil_string (s : string) : s +:+ "" = s.
Proof. induction s as [|a s IH]; [done|]. exact (f_equal (String a) IH). Qed.

Lemma split_free delim done back s rest :
  free delim s → split_loop delim done back (s +:+ rest) = split_loop delim done (back +:+ s) rest.
Proof.
  revert back. induction s as [|c s IH]; intros back Hf; simpl.
  - by rewrite app_nil_string.
  - inversion Hf; subst. rewrite bool_decide_eq_false_2 by done. rewrite IH by done. by rewrite app_cons_r.
Qed.

Lemma split_loop_join done l s :
  Forall (free ",") (s :: l) → split_loop "," done "" (join (s :: l)) = done ++ s :: l.
Proof.
  revert done s. induction l as [|s' l IH]; intros done s Hf; apply Forall_cons in Hf as [Hs Hl].
  - change (join [s]) with s. rewrite <-(app_nil_string s) at 1. by rewrite split_free.
  - change (join (s :: s' :: l)) with (s +:+ String "," (join (s' :: l))). rewrite split_free by done.
    change (split_loop "," done ("" +:+ s) (String "," (join (s' :: l))))
      with (split_loop "," (done ++ [s]) "" (join (s' :: l))).
    rewrite IH by done. by rewrite <-app_assoc.
Qed.

Lemma toString_free z : free "," (toString z).
Proof.
  assert (∀ n, free "," (dec_digits 10 n "")) as Hd.
  { intros n. apply dec_digits_all; [|constructor]. intros d Hd. by apply digit_plain. }
  unfold toString. destruct (z <? 0); [|done]. constructor; [done|apply Hd].
Qed.

Lemma toStrings_free ws : Forall (free ",") (toString <$> ws).
Proof. apply Forall_fmap, Forall_forall. intros z _. apply toString_free. Qed.

Lemma parse_weights_toString ws :
  Forall (λ z, INT_MIN ≤ z ≤ INT_MAX) ws → parse_weights (toString <$> ws) = Ret ws.
Proof.
  induction 1 as [|z ws Hz _ IH]; [done|].
  change (parse_weights (toString <$> z :: ws))
    with (w ← stoi (toString z); ws' ← parse_weights (toString <$> ws); Ret (w :: ws')).
  by rewrite stoi_toString, IH by done.
Qed.

(** ** Literals round trip *)

Lemma FromLiteral_GetLiteral t : FromLiteral (GetLiteral t) = Ret t.
Proof. by destruct t. Qed.

Lemma DeadlockPolicyFromLiteral_any_case s p :
  toLower s = GetPolicyLiteral p → DeadlockPolicyFromLiteral s = Ret p.
Proof. unfold DeadlockPolicyFromLiteral. intros ->. by destruct p. Qed.

Lemma size_int32 n : 0 ≤ n < 2 ^ 31 → to_size (to_int32 n) = n.
Proof. intros Hn. unfold to_size, to_int32. rewrite (Z.mod_small (n + 2 ^ 31)), Z.mod_small by lia. lia. Qed.

(** Options that the flags can represent. *)
Record representable (o : Opts) : Prop := {
  rp_numbers : Forall (λ n, 0 ≤ n < 2 ^ 31)
    [op_threads o; op_tasks o; op_switches o; op_rounds o; op_exploration_runs o; op_minimization_runs o; op_depth o];
  rp_weights : Forall (λ z, INT_MIN ≤ z ≤ INT_MAX) (op_thread_weights o);
}.

(** The default options that describe [o]; [policy] spells the policy. *)
Definition describe (o : Opts) (policy : string) : DefaultOptions :=
  mkDefaultOptions (op_threads o) (op_tasks o) (op_switches o) (op_rounds o) (op_depth o) (op_forbid_all_same o)
    (op_verbose o) (GetLiteral (op_typ o)) (join (toString <$> op_thread_weights o)) (op_minimization_runs o)
    (op_exploration_runs o) (op_wmm_enabled o) (op_seed o) (Some policy).

Lemma parse_weights_join ws :
  Forall (λ z, INT_MIN ≤ z ≤ INT_MAX) ws →
  (if bool_decide (join (toString <$> ws) = "") then Ret [] else parse_weights (split (join (toString <$> ws)) ","))
    = Ret ws.
Proof.
  intros Hws. case_bool_decide as E.
  - destruct ws as [|z ws]; [done|]. apply (f_equal (λ s, split s ",")) in E. unfold split in E.
    change (toString <$> z :: ws) with (toString z :: (toString <$> ws)) in E.
    rewrite split_loop_join in E by apply (toStrings_free (z :: ws)).
    injection E as E _. apply Forall_cons in Hws as [Hz _]. apply stoi_toString in Hz. by rewrite E in Hz.
  - destruct ws as [|z ws]; [done|]. unfold split. change (toString <$> z :: ws) with (toString z :: (toString <$> ws)) at 1.
    rewrite split_loop_join by apply (toStrings_free (z :: ws)). by apply (parse_weights_toString (z :: ws)).
Qed.

(** C37. Options survive the trip through the flags: the default options of a
    target, written out with [toString] and the literals, in any letter case
    for the policy, are what [ParseOpts] reads back, except that
    [forbid_all_same] is dropped and [minimize] and [syscall_trap] are not
    among them. *)
Theorem parse_opts_roundtrip (o : Opts) (policy : string) (f : Flags) :
  representable o → toLower policy = GetPolicyLiteral (op_deadlock_policy o) →
  ParseOpts (SetOpts (describe o policy) f) =
    Ret (mkOpts (op_threads o) (op_tasks o) (op_switches o) (op_rounds o) (FLAGS_minimize f)
           (op_exploration_runs o) (op_minimization_runs o) (op_wmm_enabled o) (op_depth o)
           false (op_verbose o) false (op_typ o) (op_thread_weights o) (op_deadlock_policy o) (op_seed o)).
Proof.
  intros [Hn Hw] Hp. rewrite !Forall_cons in Hn. destruct Hn as (?&?&?&?&?&?&?&_).
  assert (policy ≠ "") as Hne by (intros ->; by destruct (op_deadlock_policy o)).
  set (fl := SetOpts (describe o policy) f).
  assert (FLAGS_deadlock_policy fl = policy) as E1 by (unfold fl; simpl; by rewrite bool_decide_eq_false_2).
  pose proof (parse_weights_join _ Hw) as E2.
  unfold ParseOpts. rewrite E1, (DeadlockPolicyFromLiteral_any_case _ _ Hp).
  change (FLAGS_strategy fl) with (GetLiteral (op_typ o)). rewrite FromLiteral_GetLiteral.
  change (FLAGS_weights fl) with (join (toString <$> op_thread_weights o)). rewrite E2.
  unfold fl. cbn. by rewrite !size_int32 by done.
Qed.
