(* ===== verification/PrettyPrint.v ===== *)
(** * Printed histories

    [PrettyPrinter] of runtime/include/pretty_print.h: tables with a column
    for each thread. A table is the list of its lines. The arguments of tasks
    and results are printed by the target: [str_args] and [str_value]. *)
From stdpp Require Import base list gmap strings.
From Stdlib Require Import ZArith Ascii.
From Stdlib Require String.
From S2P Require Import Prelude History LincheckDual Options.

Open Scope Z_scope.

(** ** Pieces *)

Fixpoint repeat_string (s : string) (n : nat) : string :=
  match n with O => EmptyString | S n => s +:+ repeat_string s n end.

(** A loop from 0 while less than [count]. *)
Definition print_spaces (count : Z) : string := repeat_string " " (Z.to_nat count).

Definition print_separator (threads_num : nat) (cell_width : nat) : string :=
  "*" +:+ repeat_string (repeat_string "-" cell_width +:+ "*") threads_num.

Definition print_empty_cell (cell_width : nat) : string := print_spaces (Z.of_nat cell_width) +:+ "|".

(** The cell of thread [i] in the head line; [int] division truncates. *)
Definition head_cell (cell_width : nat) (i : nat) : string :=
  let rest := Z.of_nat cell_width - 1 - Z.of_nat (String.length (toString (Z.of_nat i))) in
  print_spaces (Z.quot rest 2) +:+ "T" +:+ toString (Z.of_nat i) +:+
  print_spaces (rest - Z.quot rest 2) +:+ "|".

Fixpoint concat_strings (l : list string) : string :=
  match l with [] => EmptyString | s :: l => s +:+ concat_strings l end.

Definition head_line (threads_num cell_width : nat) : string :=
  "|" +:+ concat_strings (head_cell cell_width <$> seq 0 threads_num).

(** ** [FitPrinter] *)

Record FitPrinter := mkFit { fp_out : string; fp_rest : Z }.

Definition Out (fp : FitPrinter) (msg : string) : FitPrinter :=
  let size := Z.of_nat (String.length msg) in
  if fp_rest fp <=? 0 then fp
  else if size <=? fp_rest fp then mkFit (fp_out fp +:+ msg) (fp_rest fp - size)
  else if fp_rest fp <=? 3 then mkFit (fp_out fp +:+ repeat_string "." (Z.to_nat (fp_rest fp))) 0
  else mkFit (fp_out fp +:+ String.substring 0 (Z.to_nat (fp_rest fp - 3)) msg +:+ "...") 0.

Definition fit (width : nat) (msgs : list string) : FitPrinter := fold_left Out msgs (mkFit "" (Z.of_nat width)).

(** A cell: what fits, and spaces. *)
Definition print_cell (width : nat) (msgs : list string) : string :=
  let fp := fit width msgs in fp_out fp +:+ print_spaces (Z.max (fp_rest fp) 0).

(** A line: what stands left of the first bar, [before] empty cells, the cell
    with the text, [after] empty cells. *)
Definition print_row (left : string) (before after width : nat) (msgs : list string) : string :=
  left +:+ "|" +:+ repeat_string (print_empty_cell width) before +:+ print_cell width msgs +:+ "|" +:+
  repeat_string (print_empty_cell width) after.

(** The head of a table: two separators around the names of the threads. *)
Definition print_head (left : string) (threads_num width : nat) : list string :=
  [left +:+ print_separator threads_num width; left +:+ head_line threads_num width;
   left +:+ print_separator threads_num width].
Definition print_table (left : string) (threads_num width : nat) (rows : list string) : list string :=
  print_head left threads_num width ++ rows ++ [left +:+ print_separator threads_num width].

(** The empty cells after column [num]. In the table of an ordinary history
    [threads_num] is a [size_t], so that the difference wraps around; a count
    above [INT_MAX] overflows the loop's counter, which is undefined. *)
Definition cells_after_size (threads_num : nat) (num : Z) : option nat :=
  let count := to_size (Z.of_nat threads_num - num - 1) in
  if count <=? INT_MAX then Some (Z.to_nat count) else None.
Definition cells_after (threads_num : nat) (num : Z) : nat := Z.to_nat (Z.of_nat threads_num - num - 1).

(** ** Events *)

(** An entry of the full history: a step of a task, or the start or the end
    of a coroutine the tested code calls. *)
Record CoroutineStatus := mkStatus { cs_name : string; has_started : bool }.
Inductive FullEvent (A V : Type) :=
  | FullTask (t : Task A V)
  | FullStatus (cor : CoroutineStatus).
Arguments FullTask {A V} _.
Arguments FullStatus {A V} _.

Definition cell_width : nat := 50.
Definition full_cell_width : nat := 20.
Definition spaces : nat := 7.

Section Tables.
Context {A V : Type} (str_args : A → list string) (str_value : V → string).

Fixpoint comma_args (first : bool) (args : list string) : list string :=
  match args with
  | [] => []
  | s :: args => (if first then [] else [", "]) ++ s :: comma_args false args
  end.

Definition PrintMethodCall (t : Task A V) : list string :=
  task_name t :: "(" :: comma_args true (str_args (task_args t)) ++ [")"].
Definition PrintInvokeCell (t : Task A V) : list string :=
  ("[" +:+ toString (task_id t) +:+ "] ") :: PrintMethodCall t.

Definition get_thread_num (e : HistoryEvent A V) : Z :=
  match e with Invoke _ thread | Response _ _ thread => thread end.
Definition event_cell (e : HistoryEvent A V) : list string :=
  match e with
  | Invoke t _ => " " :: PrintInvokeCell t
  | Response _ result _ => [" "; "<-- " +:+ str_value result]
  end.

(** The table of an ordinary history. *)
Definition event_row (threads_num : nat) (e : HistoryEvent A V) : option string :=
  match cells_after_size threads_num (get_thread_num e) with
  | Some after => Some (print_row "" (Z.to_nat (get_thread_num e)) after cell_width (event_cell e))
  | None => None
  end.
Definition PrettyPrint (result : list (HistoryEvent A V)) (threads_num : nat) : option (list string) :=
  print_table "" threads_num cell_width <$> mapM (event_row threads_num) result.

Definition dual_thread_num (e : DualHistoryEvent A V) : Z :=
  match e with
  | OrdinaryInvoke _ thread | OrdinaryResponse _ _ thread | RequestInvoke _ thread
  | RequestResponse _ thread | FollowUpInvoke _ thread | FollowUpResponse _ _ thread => thread
  end.
Definition dual_cell (e : DualHistoryEvent A V) : list string :=
  " " :: match e with
         | OrdinaryInvoke t _ => PrintInvokeCell t
         | OrdinaryResponse _ result _ => ["<-- " +:+ str_value result]
         | RequestInvoke t _ => ("[" +:+ toString (task_id t) +:+ "] REQ ") :: PrintMethodCall t
         | RequestResponse _ _ => ["<-- request_done"]
         | FollowUpInvoke _ _ => ["FOLLOWUP"]
         | FollowUpResponse _ result _ => ["<-- " +:+ str_value result]
         end.

(** The table of a dual history. *)
Definition PrettyPrintDual (result : list (DualHistoryEvent A V)) (threads_num : nat) : list string :=
  print_table "" threads_num cell_width
    ((λ e, print_row "" (Z.to_nat (dual_thread_num e)) (cells_after threads_num (dual_thread_num e))
             cell_width (dual_cell e)) <$> result).

(** The table of the full history. [index] numbers the coroutine objects in
    the order they first appear; [co_depth] has the nesting of each thread. *)
Record full_state := mkFull { index : gmap nat Z; co_depth : list Z }.

Definition index_of (idx : gmap nat Z) (base : nat) : gmap nat Z * Z :=
  match idx !! base with
  | Some k => (idx, k)
  | None => (<[base:=Z.of_nat (size idx)]> idx, Z.of_nat (size idx))
  end.

(** [co_depth[num]] is undefined out of range: [None]. So is the rest of the
    run after a failed assertion. *)
Definition full_row (threads_num : nat) (s : full_state) (e : Z * FullEvent A V) : option (string * full_state) :=
  let num := Z.to_nat (e.1) in
  let after := cells_after threads_num (e.1) in
  match e.2 with
  | FullTask t =>
      let '(idx, k) := index_of (index s) (task_ptr t) in
      let length := String.length (toString k) in
      if bool_decide (length ≤ spaces)%nat then
        Some (print_row (toString k +:+ print_spaces (7 - Z.of_nat length)) num after full_cell_width
                (" " :: PrintMethodCall t), mkFull idx (co_depth s))
      else None
  | FullStatus cor =>
      if e.1 <? 0 then None else
      match co_depth s !! num with
      | None => None
      | Some depth =>
          let '(msgs, depth') :=
            if has_started cor
            then (replicate (Z.to_nat (depth + 1)) " " ++ [">"; cs_name cor], depth + 1)
            else (replicate (Z.to_nat depth) " " ++ ["<"; cs_name cor], depth - 1) in
          Some (print_row (print_spaces 7) num after full_cell_width msgs,
                mkFull (index s) (<[num:=depth']> (co_depth s)))
      end
  end.

Fixpoint full_rows (threads_num : nat) (s : full_state) (result : list (Z * FullEvent A V)) : option (list string) :=
  match result with
  | [] => Some []
  | e :: result =>
      match full_row threads_num s e with
      | Some (row, s') => (λ rows, row :: rows) <$> full_rows threads_num s' result
      | None => None
      end
  end.

Definition PrettyPrintFull (result : list (Z * FullEvent A V)) (threads_num : nat) : option (list string) :=
  print_table (print_spaces 7) threads_num full_cell_width <$>
  full_rows threads_num (mkFull ∅ (replicate threads_num 0)) result.
End Tables.

(** ** Widths *)

Lemma length_app_string (s t : string) : String.length (s +:+ t) = (String.length s + String.length t)%nat.
Proof. induction s as [|c s IH]; [done|]. exact (f_equal S IH). Qed.

Lemma app_assoc_string (s t u : string) : (s +:+ t) +:+ u = s +:+ t +:+ u.
Proof. induction s as [|c s IH]; [done|]. exact (f_equal (String c) IH). Qed.

Lemma length_repeat_string s n : String.length (repeat_string s n) = (n * String.length s)%nat.
Proof. induction n as [|n IH]; [done|]. simpl. by rewrite length_app_string, IH. Qed.

Lemma length_print_spaces n : String.length (print_spaces n) = Z.to_nat n.
Proof. unfold print_spaces. rewrite length_repeat_string. simpl. lia. Qed.

Lemma length_substring_0 n (s : string) :
  (n ≤ String.length s)%nat → String.length (String.substring 0 n s) = n.
Proof.
  revert n. induction s as [|c s IH]; intros [|n] Hn; simpl in *; try done; [lia|].
  f_equal. apply IH. lia.
Qed.

Lemma length_empty_cell w : String.length (print_empty_cell w) = S w.
Proof. unfold print_empty_cell. rewrite length_app_string, length_print_spaces. simpl. lia. Qed.

Lemma dec_digits_length fuel n s k :
  (1 ≤ k)%nat → 0 ≤ n < 10 ^ Z.of_nat k → (String.length (dec_digits fuel n s) ≤ k + String.length s)%nat.
Proof.
  revert n s k. induction fuel as [|fuel IH]; intros n s k Hk Hn; [simpl; lia|]. rewrite dec_digits_S.
  destruct (Z.ltb_spec n 10) as [|Hn10]; [simpl; lia|]. destruct (decide (k = 1)%nat) as [->|Hk1]; [simpl in Hn; lia|].
  destruct k as [|k]; [lia|]. etrans; [apply (IH _ _ k)|simpl; lia]; [lia|].
  split; [apply Z.div_pos; lia|]. apply Z.div_lt_upper_bound; [lia|].
  replace (Z.of_nat (S k)) with (Z.of_nat k + 1) in Hn by lia. rewrite Z.pow_add_r in Hn by lia. lia.
Qed.

Lemma toString_length n k : (1 ≤ k)%nat → 0 ≤ n < 10 ^ Z.of_nat k → (String.length (toString n) ≤ k)%nat.
Proof.
  intros Hk Hn. unfold toString. destruct (Z.ltb_spec n 0); [lia|].
  etrans; [by apply (dec_digits_length _ _ _ k)|simpl; lia].
Qed.

Lemma length_separator n w : String.length (print_separator n w) = (1 + n * S w)%nat.
Proof.
  unfold print_separator. rewrite length_app_string, length_repeat_string, length_app_string, length_repeat_string.
  simpl. nia.
Qed.

Lemma length_concat_strings (l : list string) k :
  Forall (λ s, String.length s = k) l → String.length (concat_strings l) = (length l * k)%nat.
Proof. induction 1 as [|s l Hs _ IH]; [done|]. simpl. by rewrite length_app_string, Hs, IH. Qed.

Lemma length_head_cell w i :
  (11 ≤ w)%nat → (Z.of_nat i < 10 ^ 10) → String.length (head_cell w i) = S w.
Proof.
  intros Hw Hi. pose proof (toString_length (Z.of_nat i) 10 ltac:(lia) ltac:(change (Z.of_nat 10) with 10; lia)) as Hl.
  unfold head_cell. set (l := String.length _) in *. set (r := Z.of_nat w - 1 - Z.of_nat l).
  assert (0 ≤ r) as Hr by lia. pose proof (Z.quot_pos r 2 Hr ltac:(lia)) as H0.
  pose proof (Z.quot_le_upper_bound r 2 r ltac:(lia) ltac:(lia)) as H1.
  rewrite !length_app_string, !length_print_spaces. fold l. simpl. lia.
Qed.

Lemma length_head_line n w :
  (11 ≤ w)%nat → Z.of_nat n ≤ 10 ^ 10 → String.length (head_line n w) = (1 + n * S w)%nat.
Proof.
  intros Hw Hn. unfold head_line. rewrite length_app_string, (length_concat_strings _ (S w)).
  - by rewrite length_fmap, length_seq.
  - apply Forall_fmap, Forall_forall. intros i Hi%elem_of_seq. apply length_head_cell; lia.
Qed.

(** ** Cells *)

(** What a cell shows of a text: the text and spaces when it fits, and
    otherwise a beginning of the text and at most three dots. *)
Definition shows (width : nat) (text cell : string) : Prop :=
  String.length cell = width ∧
  if bool_decide (String.length text ≤ width)%nat
  then cell = text +:+ repeat_string " " (width - String.length text)
  else ∃ shown hidden dots, (dots ≤ 3)%nat ∧ text = shown +:+ hidden ∧ cell = shown +:+ repeat_string "." dots.

(** While no text was cut the printer's output is the text so far; after a
    cut the cell is full. *)
Definition fits (width : nat) (text : string) (fp : FitPrinter) : Prop :=
  (fp_out fp = text ∧ Z.of_nat (String.length text) + fp_rest fp = Z.of_nat width ∧ 0 ≤ fp_rest fp) ∨
  (fp_rest fp = 0 ∧ String.length (fp_out fp) = width ∧ (width < String.length text)%nat ∧
   ∃ shown hidden dots, (dots ≤ 3)%nat ∧ text = shown +:+ hidden ∧ fp_out fp = shown +:+ repeat_string "." dots).

Lemma substring_split n (s : string) :
  (n ≤ String.length s)%nat → ∃ hidden, s = String.substring 0 n s +:+ hidden.
Proof.
  revert n. induction s as [|c s IH]; intros [|n] Hn; simpl in *; try lia; try (by eexists).
  destruct (IH n) as [h Hh]; [lia|]. exists h. exact (f_equal (String c) Hh).
Qed.

Lemma Out_fits width text fp msg : fits width text fp → fits width (text +:+ msg) (Out fp msg).
Proof.
  intros [(Ho&Hsum&Hr)|(Hr&Hl&Hw&sh&hid&d&Hd&->&Ho)].
  2:{ right. unfold Out. rewrite Hr. simpl. split_and!; [done|done|rewrite length_app_string; lia|].
      exists sh, (hid +:+ msg), d. by rewrite app_assoc_string. }
  unfold Out. destruct (Z.leb_spec (fp_rest fp) 0) as [H0|H0].
  { destruct msg as [|c msg]; [left; by rewrite app_nil_string|]. right.
    rewrite Ho, length_app_string. split_and!; [lia|lia|simpl; lia|].
    exists text, (String c msg), 0%nat. split_and!; [lia|done|]. simpl. by rewrite app_nil_string. }
  destruct (Z.leb_spec (Z.of_nat (String.length msg)) (fp_rest fp)) as [H1|H1].
  { left. simpl. rewrite Ho, length_app_string. split_and!; [done|lia|lia]. }
  right. destruct (Z.leb_spec (fp_rest fp) 3) as [H3|H3]; simpl; rewrite Ho, !length_app_string.
  - split_and!; [done|rewrite length_repeat_string; simpl; lia|lia|].
    exists text, msg, (Z.to_nat (fp_rest fp)). split_and!; [lia|done|done].
  - rewrite length_substring_0 by lia. split_and!; [done|simpl; lia|lia|].
    destruct (substring_split (Z.to_nat (fp_rest fp - 3)) msg) as [h Hh]; [lia|].
    exists (text +:+ String.substring 0 (Z.to_nat (fp_rest fp - 3)) msg), h, 3%nat.
    rewrite !app_assoc_string, <-Hh. split_and!; [lia|done|done].
Qed.

Lemma fit_fits width msgs : fits width (concat_strings msgs) (fit width msgs).
Proof.
  assert (∀ text fp, fits width text fp → fits width (text +:+ concat_strings msgs) (fold_left Out msgs fp)) as H.
  { induction msgs as [|m msgs IH]; intros text fp Hf; simpl; [by rewrite app_nil_string|].
    rewrite <-app_assoc_string. apply IH. by apply Out_fits. }
  apply (H ""). left. simpl. split_and!; [done|lia|lia].
Qed.

Lemma print_cell_shows width msgs : shows width (concat_strings msgs) (print_cell width msgs).
Proof.
  unfold print_cell, shows. destruct (fit_fits width msgs) as [(->&Hsum&Hr)|(Hr&Hl&Hw&Hc)].
  - rewrite length_app_string, length_print_spaces, Z.max_l by lia. split; [lia|].
    rewrite bool_decide_eq_true_2 by lia. unfold print_spaces. do 2 f_equal. lia.
  - rewrite Hr. simpl. rewrite app_nil_string. split; [done|]. by rewrite bool_decide_eq_false_2 by lia.
Qed.

Lemma length_print_cell width msgs : String.length (print_cell width msgs) = width.
Proof. by destruct (print_cell_shows width msgs). Qed.

(** ** Rows *)

Lemma substring_app_r (s t : string) n m :
  String.substring (String.length s + n) m (s +:+ t) = String.substring n m t.
Proof. induction s as [|c s IH]; [done|]. exact IH. Qed.

Lemma substring_prefix (s t : string) : String.substring 0 (String.length s) (s +:+ t) = s.
Proof. induction s as [|c s IH]; [by destruct t|]. exact (f_equal (String c) IH). Qed.

(** Column [num] of a line. *)
Definition column (left width num : nat) (line : string) : string :=
  String.substring (left + (1 + num * S width)) width line.

Lemma length_print_row left before after w msgs :
  String.length (print_row left before after w msgs) = (String.length left + (1 + (before + 1 + after) * S w))%nat.
Proof.
  unfold print_row. rewrite !length_app_string, !length_repeat_string, length_print_cell, length_empty_cell. simpl. lia.
Qed.

Lemma column_print_row left before after w msgs :
  column (String.length left) w before (print_row left before after w msgs) = print_cell w msgs.
Proof.
  unfold column, print_row. rewrite substring_app_r.
  replace (1 + before * S w)%nat with (String.length ("|" +:+ repeat_string (print_empty_cell w) before) + 0)%nat
    by (rewrite length_app_string, length_repeat_string, length_empty_cell; simpl; lia).
  rewrite <-(app_assoc_string "|"), substring_app_r.
  rewrite <-(length_print_cell w msgs) at 1. apply substring_prefix.
Qed.

(** A table is aligned when its lines are equally long and each entry has its
    line, which shows its text in the column of its thread. *)
Definition aligned (left w threads_num : nat) (entries : list (Z * list string)) (table : list string) : Prop :=
  length table = (length entries + 4)%nat ∧
  Forall (λ line, String.length line = (left + (1 + threads_num * S w))%nat) table ∧
  ∀ i thread msgs, entries !! i = Some (thread, msgs) →
    ∃ line, table !! (3 + i)%nat = Some line ∧
            shows w (concat_strings msgs) (column left w (Z.to_nat thread) line).

(** A line of a table, for an entry. *)
Definition row_of (left w threads_num : nat) (entry : Z * list string) (row : string) : Prop :=
  String.length row = (left + (1 + threads_num * S w))%nat ∧
  shows w (concat_strings (entry.2)) (column left w (Z.to_nat (entry.1)) row).

Lemma print_row_of left threads_num w thread msgs after :
  0 ≤ thread < Z.of_nat threads_num → after = cells_after threads_num thread →
  row_of (String.length left) w threads_num (thread, msgs) (print_row left (Z.to_nat thread) after w msgs).
Proof.
  intros Ht ->. unfold cells_after. split; simpl.
  - rewrite length_print_row. f_equal. f_equal. f_equal. lia.
  - rewrite column_print_row. apply print_cell_shows.
Qed.

Lemma print_table_aligned left w threads_num entries rows :
  (11 ≤ w)%nat → Z.of_nat threads_num ≤ INT_MAX →
  Forall2 (row_of (String.length left) w threads_num) entries rows →
  aligned (String.length left) w threads_num entries (print_table left threads_num w rows).
Proof.
  intros Hw Hn Hrows. unfold INT_MAX in Hn. assert (Z.of_nat threads_num ≤ 10 ^ 10) as Hn' by lia.
  unfold aligned, print_table, print_head. split_and!.
  - rewrite length_app, length_app, <-(Forall2_length _ _ _ Hrows). simpl. lia.
  - rewrite !Forall_app. split_and!; [|by eapply (Forall2_Forall_r _ _ _ _ Hrows), Forall_forall; intros ? _ ? []|];
      repeat constructor; by rewrite length_app_string, ?length_separator, ?length_head_line.
  - intros i thread msgs Hi. destruct (Forall2_lookup_l _ _ _ _ _ Hrows Hi) as (row&Hrow&_&Hsh).
    exists row. split; [|done]. change (3 + i)%nat with (S (S (S i))). simpl.
    by rewrite lookup_app_l by (by eapply lookup_lt_Some).
Qed.

(** ** The tables *)
Section Correct.
Context {A V : Type} (str_args : A → list string) (str_value : V → string).
Implicit Types (t : Task A V) (threads_num : nat).

Lemma cells_after_in_range threads_num num :
  Z.of_nat threads_num ≤ INT_MAX → 0 ≤ num < Z.of_nat threads_num →
  cells_after_size threads_num num = Some (cells_after threads_num num).
Proof.
  unfold INT_MAX. intros Hn Hnum. unfold cells_after_size, cells_after, to_size. rewrite Z.mod_small by lia.
  destruct (Z.leb_spec (Z.of_nat threads_num - num - 1) INT_MAX) as [_|H]; [done|]. unfold INT_MAX in H. lia.
Qed.

(** The entries of an ordinary and of a dual table. *)
Definition entry (e : HistoryEvent A V) : Z * list string := (get_thread_num e, event_cell str_args str_value e).
Definition dual_entry (e : DualHistoryEvent A V) : Z * list string :=
  (dual_thread_num e, dual_cell str_args str_value e).

Lemma event_rows_defined threads_num result :
  Z.of_nat threads_num ≤ INT_MAX → Forall (λ e, 0 ≤ get_thread_num e < Z.of_nat threads_num) result →
  ∃ rows, mapM (event_row str_args str_value threads_num) result = Some rows ∧
          Forall2 (row_of 0 cell_width threads_num) (entry <$> result) rows.
Proof.
  intros Hn Hr. induction Hr as [|e result He _ (rows&IH&Hrows)]; [by exists []; split; [|constructor]|].
  exists (print_row "" (Z.to_nat (get_thread_num e)) (cells_after threads_num (get_thread_num e)) cell_width
            (event_cell str_args str_value e) :: rows).
  split; [|constructor; [by apply (print_row_of "")|done]].
  apply mapM_Some. apply mapM_Some in IH. constructor; [|done]. unfold event_row. by rewrite cells_after_in_range.
Qed.

Lemma pretty_print_dual_aligned threads_num result :
  Z.of_nat threads_num ≤ INT_MAX → Forall (λ e, 0 ≤ dual_thread_num e < Z.of_nat threads_num) result →
  aligned 0 cell_width threads_num (dual_entry <$> result) (PrettyPrintDual str_args str_value result threads_num).
Proof.
  intros Hn Hr. apply (print_table_aligned "" cell_width); [unfold cell_width; lia|done|].
  induction Hr as [|e result He _ IH]; [constructor|]. constructor; [by apply (print_row_of "")|done].
Qed.

Lemma pretty_print_aligned threads_num result :
  Z.of_nat threads_num ≤ INT_MAX → Forall (λ e, 0 ≤ get_thread_num e < Z.of_nat threads_num) result →
  ∃ table, PrettyPrint str_args str_value result threads_num = Some table ∧
           aligned 0 cell_width threads_num (entry <$> result) table.
Proof.
  intros Hn Hr. destruct (event_rows_defined threads_num result Hn Hr) as (rows&E&Hrows).
  exists (print_table "" threads_num cell_width rows). unfold PrettyPrint. rewrite E. split; [done|].
  apply (print_table_aligned "" cell_width); [unfold cell_width; lia|done|done].
Qed.

(** ** The full history *)

(** The coroutine objects of a history, and the list of them in the order in
    which they first appear. *)
Definition objects (l : list (Z * FullEvent A V)) : list nat :=
  omap (λ e, match e.2 with FullTask t => Some (task_ptr t) | FullStatus _ => None end) l.
Definition first_seen (l : list nat) : list nat := reverse (remove_dups (reverse l)).

Lemma first_seen_snoc l x :
  first_seen (l ++ [x]) = if decide (x ∈ l) then first_seen l else first_seen l ++ [x].
Proof.
  unfold first_seen. rewrite reverse_app. simpl.
  destruct (decide_rel _ x (reverse l)) as [Hx|Hx]; rewrite elem_of_reverse in Hx.
  - by rewrite decide_True.
  - rewrite decide_False by done. apply reverse_cons.
Qed.
Lemma first_seen_NoDup l : NoDup (first_seen l).
Proof. unfold first_seen. rewrite reverse_Permutation. apply NoDup_remove_dups. Qed.
Lemma first_seen_elem l x : x ∈ first_seen l ↔ x ∈ l.
Proof. unfold first_seen. by rewrite elem_of_reverse, elem_of_remove_dups, elem_of_reverse. Qed.

(** The numbers given so far are the positions in that list. *)
Definition numbered (seen : list nat) (idx : gmap nat Z) : Prop :=
  size idx = length (first_seen seen) ∧
  ∀ p k, idx !! p = Some k ↔ ∃ n, k = Z.of_nat n ∧ first_seen seen !! n = Some p.

Lemma numbered_elem seen idx p : numbered seen idx → is_Some (idx !! p) ↔ p ∈ seen.
Proof.
  intros [_ Hi]. rewrite <-first_seen_elem, list_elem_of_lookup. split.
  - intros [k (n&_&?)%Hi]. by exists n.
  - intros [n Hn]. exists (Z.of_nat n). apply Hi. by exists n.
Qed.

Lemma index_of_numbered seen idx p :
  numbered seen idx →
  numbered (seen ++ [p]) (index_of idx p).1 ∧ (index_of idx p).1 !! p = Some (index_of idx p).2 ∧
  idx ⊆ (index_of idx p).1.
Proof.
  intros Hn. pose proof (numbered_elem seen idx p Hn) as Hp. destruct Hn as [Hs Hi].
  unfold index_of, numbered. rewrite first_seen_snoc. destruct (idx !! p) as [k|] eqn:E; simpl.
  - rewrite decide_True by (apply Hp; by eexists). by split_and!.
  - rewrite decide_False by (rewrite <-Hp; by intros [? ?]).
    split_and!; [rewrite map_size_insert_None, length_app, Hs by done; simpl; lia|
      |by rewrite lookup_insert_eq|by apply insert_subseteq].
    intros q j. rewrite lookup_insert_Some, Hi. split.
    + intros [[<- <-]|[_ (n&->&Hq)]].
      * exists (length (first_seen seen)). split; [by rewrite Hs|]. by apply list_lookup_middle.
      * exists n. split; [done|]. by apply lookup_app_l_Some.
    + intros (n&->&[Hq|[Hle Hq]]%lookup_app_Some).
      * right. split; [|by exists n]. intros ->. assert (idx !! q = Some (Z.of_nat n)) by (apply Hi; by exists n). congruence.
      * apply list_lookup_singleton_Some in Hq as [? <-]. left. split; [done|]. rewrite Hs. f_equal. lia.
Qed.

Lemma length_first_seen l : (length (first_seen l) ≤ length l)%nat.
Proof.
  induction l as [|x l IH] using rev_ind; [done|]. rewrite first_seen_snoc, length_app. simpl.
  case_decide; [lia|]. rewrite length_app. simpl. lia.
Qed.
Lemma length_objects l : (length (objects l) ≤ length l)%nat.
Proof.
  induction l as [|[th [t|c]] l IH]; [done|..]; unfold objects in *; cbn [omap list_omap length]; simpl in *; lia.
Qed.

(** The nesting of the coroutines of a thread: started and not ended. *)
Definition nesting_step (thread depth : Z) (e : Z * FullEvent A V) : Z :=
  match e with
  | (th, FullStatus cor) => if th =? thread then (if has_started cor then depth + 1 else depth - 1) else depth
  | _ => depth
  end.
Definition nesting (before : list (Z * FullEvent A V)) (thread : Z) : Z := fold_left (nesting_step thread) before 0.

(** What the table shows of an entry after [before]. *)
Definition full_entry (before : list (Z * FullEvent A V)) (e : Z * FullEvent A V) : Z * list string :=
  (e.1, match e.2 with
        | FullTask t => " " :: PrintMethodCall str_args t
        | FullStatus cor =>
            if has_started cor then replicate (Z.to_nat (nesting before (e.1) + 1)) " " ++ [">"; cs_name cor]
            else replicate (Z.to_nat (nesting before (e.1))) " " ++ ["<"; cs_name cor]
        end).
Fixpoint full_entries (before result : list (Z * FullEvent A V)) : list (Z * list string) :=
  match result with
  | [] => []
  | e :: result => full_entry before e :: full_entries (before ++ [e]) result
  end.

(** The left column of a step of a task. *)
Definition label (k : Z) : string := toString k +:+ print_spaces (7 - Z.of_nat (String.length (toString k))).
Definition labelled (idx : gmap nat Z) (e : Z * FullEvent A V) (row : string) : Prop :=
  match e.2 with
  | FullTask t => ∃ k, idx !! task_ptr t = Some k ∧ String.substring 0 7 row = label k
  | FullStatus _ => True
  end.

Definition full_inv (threads_num : nat) (before : list (Z * FullEvent A V)) (s : full_state) : Prop :=
  numbered (objects before) (index s) ∧ length (co_depth s) = threads_num ∧
  ∀ i d, co_depth s !! i = Some d → d = nesting before (Z.of_nat i).

Lemma nesting_snoc before e thread : nesting (before ++ [e]) thread = nesting_step thread (nesting before thread) e.
Proof. unfold nesting. by rewrite fold_left_app. Qed.

Lemma label_length k : 0 ≤ k < 10 ^ 7 → (String.length (toString k) ≤ 7)%nat ∧ String.length (label k) = 7%nat.
Proof.
  intros Hk. pose proof (toString_length k 7 ltac:(lia) Hk). split; [done|].
  unfold label. rewrite length_app_string, length_print_spaces. lia.
Qed.

Lemma substring_left (left : string) before after w msgs :
  String.substring 0 (String.length left) (print_row left before after w msgs) = left.
Proof. apply substring_prefix. Qed.

Lemma full_row_defined threads_num before s e :
  full_inv threads_num before s → Z.of_nat (length before) < 10 ^ 7 → 0 ≤ e.1 < Z.of_nat threads_num →
  ∃ row s', full_row str_args threads_num s e = Some (row, s') ∧ full_inv threads_num (before ++ [e]) s' ∧
    index s ⊆ index s' ∧ row_of 7 full_cell_width threads_num (full_entry before e) row ∧ labelled (index s') e row.
Proof.
  intros (Hnum&Hlen&Hdep) Hlb Hr. destruct e as [th [t|cor]]; simpl in *; unfold full_row; simpl.
  - destruct (index_of (index s) (task_ptr t)) as [idx k] eqn:E.
    pose proof (index_of_numbered _ _ (task_ptr t) Hnum) as (Hn'&Hk&Hsub). rewrite E in Hn', Hk, Hsub. simpl in *.
    assert (objects (before ++ [(th, FullTask t)]) = objects before ++ [task_ptr t]) as Hob
      by (unfold objects; by rewrite omap_app).
    destruct (label_length k) as [Hl1 Hl2].
    { apply Hn' in Hk as (n&->&Hk%lookup_lt_Some). pose proof (length_first_seen (objects before ++ [task_ptr t])) as Hfs.
      pose proof (length_objects before). rewrite length_app in Hfs. simpl in Hfs. lia. }
    rewrite bool_decide_eq_true_2 by done. do 2 eexists. split; [done|].
    rewrite <-Hob in Hn'. refine (conj (conj Hn' (conj Hlen _)) (conj Hsub (conj _ _))); simpl.
    + intros i d Hi. rewrite nesting_snoc. by apply Hdep.
    + rewrite <-Hl2. by apply (print_row_of (label k)).
    + exists k. split; [done|]. rewrite <-Hl2 at 1. apply (substring_left (label k)).
  - rewrite (proj2 (Z.ltb_ge th 0)) by lia.
    destruct (lookup_lt_is_Some_2 (co_depth s) (Z.to_nat th)) as [d Hd]; [lia|]. rewrite Hd.
    pose proof (Hdep _ _ Hd) as Hdn. rewrite Z2Nat.id in Hdn by lia.
    set (d' := if has_started cor then d + 1 else d - 1).
    set (msgs := (full_entry before (th, FullStatus cor)).2).
    exists (print_row (print_spaces 7) (Z.to_nat th) (cells_after threads_num th) full_cell_width msgs),
      (mkFull (index s) (<[Z.to_nat th:=d']> (co_depth s))).
    split; [subst d' msgs; simpl; rewrite <-Hdn; by destruct (has_started cor)|].
    assert (objects (before ++ [(th, FullStatus cor)]) = objects before) as Hob.
    { unfold objects. rewrite omap_app. apply app_nil_r. }
    rewrite <-Hob in Hnum. refine (conj (conj Hnum (conj _ _)) (conj _ (conj _ I))); simpl.
    + by rewrite length_insert.
    + intros i e [(Hi&<-&_)|[Hne Hi]]%list_lookup_insert_Some; rewrite nesting_snoc; simpl.
      * subst i. rewrite Z2Nat.id, Z.eqb_refl, <-Hdn by lia. done.
      * rewrite (proj2 (Z.eqb_neq th (Z.of_nat i))) by lia. by apply Hdep.
    + done.
    + by apply (print_row_of (print_spaces 7)).
Qed.

Lemma full_rows_defined threads_num result before s :
  full_inv threads_num before s → Z.of_nat (length before + length result) ≤ 10 ^ 7 →
  Forall (λ e, 0 ≤ e.1 < Z.of_nat threads_num) result →
  ∃ rows idx, full_rows str_args threads_num s result = Some rows ∧ index s ⊆ idx ∧
    numbered (objects (before ++ result)) idx ∧
    Forall2 (row_of 7 full_cell_width threads_num) (full_entries before result) rows ∧
    Forall2 (labelled idx) result rows.
Proof.
  revert before s. induction result as [|e result IH]; intros before s Hinv Hlen Hr; simpl.
  { exists [], (index s). rewrite app_nil_r.
    refine (conj eq_refl (conj _ (conj (proj1 Hinv) (conj _ _)))); [done|constructor..]. }
  apply Forall_cons in Hr as [He Hr]. simpl in Hlen.
  destruct (full_row_defined threads_num before s e Hinv ltac:(lia) He) as (row&s'&E&Hinv'&Hsub&Hrow&Hlab). rewrite E.
  destruct (IH (before ++ [e]) s' Hinv') as (rows&idx&E'&Hsub'&Hnum&Hrows&Hlabs);
    [rewrite length_app; simpl; lia|done|]. rewrite E'. exists (row :: rows), idx.
  rewrite <-app_assoc in Hnum.
  refine (conj eq_refl (conj _ (conj Hnum (conj _ _)))); [by etrans|by constructor|constructor; [|done]].
  unfold labelled in *. destruct (e.2) as [t|]; [|done]. destruct Hlab as (k&Hk&?). exists k. split; [|done].
  by eapply lookup_weaken.
Qed.

Lemma pretty_print_full_aligned threads_num result :
  Z.of_nat threads_num ≤ INT_MAX → Forall (λ e, 0 ≤ e.1 < Z.of_nat threads_num) result →
  Z.of_nat (length result) ≤ 10 ^ 7 →
  ∃ table, PrettyPrintFull str_args result threads_num = Some table ∧
    aligned 7 full_cell_width threads_num (full_entries [] result) table ∧
    ∀ i thread t, result !! i = Some (thread, FullTask t) →
      ∃ line k, table !! (3 + i)%nat = Some line ∧ first_seen (objects result) !! k = Some (task_ptr t) ∧
        String.substring 0 7 line = label (Z.of_nat k).
Proof.
  intros Hn Hr Hlen. destruct (full_rows_defined threads_num result [] (mkFull ∅ (replicate threads_num 0)))
    as (rows&idx&E&_&Hnum&Hrows&Hlab); [|done|done|].
  { refine (conj (conj _ _) (conj _ _)); simpl.
    - by rewrite map_size_empty.
    - intros p k. rewrite lookup_empty. split; [done|]. by intros (m&_&Hm).
    - apply length_replicate.
    - by intros i d [-> _]%lookup_replicate. }
  unfold PrettyPrintFull. rewrite E. exists (print_table (print_spaces 7) threads_num full_cell_width rows).
  refine (conj eq_refl (conj _ _)).
  - apply (print_table_aligned (print_spaces 7)); [unfold full_cell_width; lia|done|done].
  - intros i thread t Hi. destruct (Forall2_lookup_l _ _ _ _ _ Hlab Hi) as (row&Hrow&k&Hk&Hs).
    apply Hnum in Hk as (n&->&Hk). exists row, n. split; [|done]. unfold print_table, print_head. change (3 + i)%nat with (S (S (S i))). simpl.
    by rewrite lookup_app_l by (by eapply lookup_lt_Some).
Qed.

(** C17. Printed tables. For events of the threads of the table, all three
    tables are printed to the end and aligned: every line has the same length
    and the line of an event shows, in the column of its thread, its whole
    text when the text fits in the cell and otherwise a beginning of it and at
    most three dots. The table of the full history, with at most 10^7 entries,
    numbers the coroutine objects of the history 0, 1, 2, ... in the order in
    which they first appear, every object with one number, shows the number of
    its object left of each step, and indents the marks of nested coroutines
    by their depth. *)
Theorem pretty_print_tables threads_num result dual full
    (Hthreads : Z.of_nat threads_num ≤ INT_MAX)
    (Hresult : Forall (λ e, 0 ≤ get_thread_num e < Z.of_nat threads_num) result)
    (Hdual : Forall (λ e, 0 ≤ dual_thread_num e < Z.of_nat threads_num) dual)
    (Hfull : Forall (λ e, 0 ≤ e.1 < Z.of_nat threads_num) full)
    (Hlen : Z.of_nat (length full) ≤ 10 ^ 7) :
  (∃ table, PrettyPrint str_args str_value result threads_num = Some table ∧
            aligned 0 cell_width threads_num (entry <$> result) table) ∧
  aligned 0 cell_width threads_num (dual_entry <$> dual) (PrettyPrintDual str_args str_value dual threads_num) ∧
  NoDup (first_seen (objects full)) ∧ (∀ p, p ∈ first_seen (objects full) ↔ p ∈ objects full) ∧
  ∃ table, PrettyPrintFull str_args full threads_num = Some table ∧
    aligned 7 full_cell_width threads_num (full_entries [] full) table ∧
    ∀ i thread t, full !! i = Some (thread, FullTask t) →
      ∃ line k, table !! (3 + i)%nat = Some line ∧ first_seen (objects full) !! k = Some (task_ptr t) ∧
        String.substring 0 7 line = label (Z.of_nat k).
Proof.
  split_and!; [by apply pretty_print_aligned|by apply pretty_print_dual_aligned|apply first_seen_NoDup
    |apply first_seen_elem|by apply pretty_print_full_aligned].
Qed.
End Correct.

(** A text that fills the cell up to its last column hides what follows
    without dots. *)
Example cut_without_dots : print_cell 5 ["ab"; "cde"; "(x)"] = "abcde".
Proof. reflexivity. Qed.

(** With an event of a thread past the last one the ordinary table has no
    defined result: the count of cells after it wraps around. *)
Example thread_past_table :
  PrettyPrint (A := nat) (V := nat) (λ _, []) (λ _, "") [Invoke (mkTask 0 0 0 "f" 0%nat None) 2] 2 = None.
Proof. reflexivity. Qed.
