(* ===== verification/Futex.v ===== *)
(** * Intercepted system calls

    [hook] of src/syscall_intercept/hook.cpp: [sched_yield] yields, [futex]
    blocks and wakes coroutines through the block manager, and every other
    call, and every call outside a coroutine, goes to the kernel. *)
From stdpp Require Import base list gmap.
From Stdlib Require Import ZArith.
From S2P Require Import Prelude BlockManager Options.

Open Scope Z_scope.

Definition SYS_sched_yield : Z := 24.
Definition SYS_futex : Z := 202.
Definition FUTEX_WAIT : Z := 0.
Definition FUTEX_WAKE : Z := 1.
Definition FUTEX_WAIT_BITSET : Z := 9.
Definition FUTEX_WAKE_BITSET : Z := 10.
(** [~(FUTEX_PRIVATE_FLAG | FUTEX_CLOCK_REALTIME)] *)
Definition FUTEX_CMD_MASK : Z := Z.lnot (128 + 256).

(** A hooked call returns, or yields and returns when it is resumed; [Forward]
    is the value 1 of the hook. *)
Inductive sys_end := Result (result : Z) | YieldThen (result : Z) | Forward.

Section Futex.
(** The words of memory: [uint32_t] values. *)
Context (cell : Z → Z).

Definition ltest_sched_yield : sys_end := YieldThen 0.

Definition ltest_futex (q : Queues) (coro : nat) (arg0 arg1 arg2 : Z) : outcome (Queues * sys_end) :=
  let cmd := Z.land arg1 FUTEX_CMD_MASK in
  if (cmd =? FUTEX_WAIT) || (cmd =? FUTEX_WAIT_BITSET) then
    let fstate := mkBlockState arg0 arg2 in
    if CanBeBlocked cell fstate then Ret ((SetBlocked q fstate coro).2, YieldThen 0)
    else Ret (q, Result (-1))
  else if (cmd =? FUTEX_WAKE) || (cmd =? FUTEX_WAKE_BITSET) then
    let '(wakes, q) := UnblockOn q arg0 (Z.to_nat (to_size arg2)) in Ret (q, Result (Z.of_nat wakes))
  else AssertFail.

Definition hook (ltest_coro_ctx : bool) (q : Queues) (coro : nat) (syscall_number arg0 arg1 arg2 : Z) :
    outcome (Queues * sys_end) :=
  if negb ltest_coro_ctx then Ret (q, Forward)
  else if syscall_number =? SYS_sched_yield then Ret (q, ltest_sched_yield)
  else if syscall_number =? SYS_futex then ltest_futex q coro arg0 arg1 arg2
  else Ret (q, Forward).

(** A wait on a word that has the expected value queues the coroutine last on
    that word and on no other; on another value nothing changes. *)
Lemma futex_wait q coro a v private :
  private = 0 ∨ private = 128 →
  ∃ q' e, hook true q coro SYS_futex a (FUTEX_WAIT + private) v = Ret (q', e) ∧
    if bool_decide (cell a = v)
    then e = YieldThen 0 ∧ ∀ b, waiting q' b = if decide (a = b) then waiting q b ++ [coro] else waiting q b
    else e = Result (-1) ∧ q' = q.
Proof.
  intros Hp. assert (Z.land (FUTEX_WAIT + private) FUTEX_CMD_MASK = FUTEX_WAIT) as E by (by destruct Hp as [-> | ->]).
  unfold hook, ltest_futex. rewrite E. simpl. unfold CanBeBlocked. simpl.
  case_bool_decide; do 2 eexists; (split; [done|]); [|done]. split; [done|]. intros b. apply waiting_BlockOn.
Qed.

(** A wake removes the first [n] waiters of the word and returns how many
    there were. *)
Lemma futex_wake q coro a n private :
  0 ≤ n < 2 ^ 63 → private = 0 ∨ private = 128 →
  ∃ q', hook true q coro SYS_futex a (FUTEX_WAKE + private) n =
    Ret (q', Result (Z.of_nat (Nat.min (Z.to_nat n) (length (waiting q a))))) ∧
    ∀ b, waiting q' b = if decide (a = b) then drop (Z.to_nat n) (waiting q b) else waiting q b.
Proof.
  intros Hn Hp. assert (Z.land (FUTEX_WAKE + private) FUTEX_CMD_MASK = FUTEX_WAKE) as E by (by destruct Hp as [-> | ->]).
  exists (UnblockOn q a (Z.to_nat n)).2. split; [|intros b; apply waiting_UnblockOn].
  unfold hook, ltest_futex. rewrite E. simpl. unfold to_size. rewrite Z.mod_small by lia.
  unfold UnblockOn, waiting. destruct (q !! a) as [l|]; simpl; [by rewrite pop_loop_spec|].
  by rewrite Nat.min_0_r.
Qed.

(** A negative expected value is compared as a [long] with an unsigned word:
    the wait never blocks. *)
Lemma futex_wait_negative q coro a v private :
  0 ≤ cell a → v < 0 → private = 0 ∨ private = 128 →
  hook true q coro SYS_futex a (FUTEX_WAIT + private) v = Ret (q, Result (-1)).
Proof.
  intros Hc Hv Hp. destruct (futex_wait q coro a v private Hp) as (q'&e&E&Hr).
  rewrite bool_decide_eq_false_2 in Hr by lia. destruct Hr as [-> ->]. done.
Qed.
End Futex.
