(* ===== verification/UniqueArgs.v ===== *)
(** * Unique arguments

    The specification and the verifier of verifying/specs/unique_args.h and
    the structure of verifying/targets/unique_args.cpp that they test: three
    calls of [Get], each with an argument no other call of the batch has; the
    last to finish returns their number. *)
From stdpp Require Import base list gmap strings.
From Stdlib Require Import ZArith.
From S2P Require Import Prelude LinSpec Events History Linearizability Search Checkers Specs Scheduler Options.

Open Scope Z_scope.

Definition limit : nat := 3.

(** ** The specification *)
Module UniqueArgsRef.
Record t := mk { called : Z }.

(** [std::exchange] returns the old count. *)
Definition Get (l : t) (i : Z) : t * option Z :=
  let l := mk (to_size (called l + 1)) in
  if called l =? Z.of_nat limit then (mk 0, Some (called l)) else (l, None).

(** The copy assignment returns without copying. *)
Definition assign (l oth : t) : t := l.

Definition methods : MethodMap t Args ValueWrapper :=
  {[ "Get" := λ l args, let '(l, r) := Get l (arg 0 args) in (l, OptionalInt r) ]}.

Definition UniqueArgsHash (r : t) : Z := called r.
Definition UniqueArgsEquals (lhs rhs : t) : bool := bool_decide (called lhs = called rhs).

Definition spec : Spec t := mkSpec methods (mk 0) UniqueArgsHash UniqueArgsEquals.

#[export] Instance unique_args_congruence : SpecCongruence (GetMethods spec) (SpecEquals spec) eq.
Proof. solve_spec_congruence. Qed.
End UniqueArgsRef.

Definition UniqueArgsOptions : DefaultOptions :=
  mkDefaultOptions 3 3 100000000 10000 1 false false "tla" "" 0 0 false 0 (Some (GetPolicyLiteral PolicyFail)).

(** ** The verifier *)
Module UniqueArgsVerifier.

(** The elements of [status] are not initialized before the first [Reset]. *)
Abbreviation t := (list bool).

Definition Verify (status : t) (thread_id : nat) (is_new : bool) : outcome (bool * t) :=
  b ← deref (status !! thread_id);
  if is_new && b then Ret (false, status) else Ret (true, <[thread_id := true]> status).

Definition Reset (status : t) : t := replicate (length status) false.

(** A thread starts one task between two resets. *)
Lemma one_start status th b :
  status !! th = Some b →
  ∃ status', Verify status th true = Ret (negb b, status') ∧ status' !! th = Some true ∧
    (∀ th', th' ≠ th → status' !! th' = status !! th') ∧ Verify status' th true = Ret (false, status').
Proof.
  intros Hb. unfold Verify at 1. rewrite Hb. simpl. apply lookup_lt_Some in Hb as Hl. destruct b; simpl.
  - exists status. split_and!; try done. unfold Verify. by rewrite Hb.
  - exists (<[th := true]> status).
    assert (<[th := true]> status !! th = Some true) as Ht by (by apply list_lookup_insert_eq).
    split_and!; [done|done|by intros; rewrite list_lookup_insert_ne|]. unfold Verify. by rewrite Ht.
Qed.
End UniqueArgsVerifier.

(** ** The tested structure *)
Module CoUniqueArgsTest.

Record t := mk { used : list bool; finished : list bool }.

Definition Reset (s : t) : t := mk (replicate (length (used s)) false) (replicate (length (finished s)) false).
Definition start : t := mk (replicate limit false) (replicate limit false).

(** The first argument that is not used; the assertion fails for an extra
    call. *)
Fixpoint first_unused (l : list bool) (i : nat) : option nat :=
  match l with
  | [] => None
  | b :: l => if b then first_unused l (S i) else Some i
  end.
Definition GenerateArgs (s : t) : outcome nat :=
  match first_unused (used s) 0 with Some i => Ret i | None => AssertFail end.

(** [Get] up to its yield, and from there. *)
Definition Get_begin (s : t) (i : nat) : outcome t :=
  b ← deref (used s !! i); cassert (negb b);; Ret (mk (<[i := true]> (used s)) (finished s)).
Definition Get_end (s : t) (i : nat) : outcome (t * option Z) :=
  b ← deref (finished s !! i);
  let s := mk (used s) (<[i := true]> (finished s)) in
  Ret (if bool_decide (countb negb (finished s) = 0%nat) then (Reset s, Some (Z.of_nat limit)) else (s, None)).

(** The structure and the arguments of the calls between their two parts. *)
Definition sys := (t * list nat)%type.

Inductive step : sys → option (option Z) → sys → Prop :=
  | step_begin s calls i s' : GenerateArgs s = Ret i → Get_begin s i = Ret s' → step (s, calls) None (s', i :: calls)
  | step_end s calls i s' r : i ∈ calls → Get_end s i = Ret (s', r) →
      step (s, calls) (Some r) (s', filter (λ j, j ≠ i) calls).
End CoUniqueArgsTest.

Module Refinement.
Import CoUniqueArgsTest.

(** The calls in progress are the arguments used and not finished. *)
Record related (x : sys) (l : UniqueArgsRef.t) : Prop := {
  rel_used : length (used x.1) = limit;
  rel_finished : length (finished x.1) = limit;
  rel_called : UniqueArgsRef.called l = Z.of_nat (countb id (finished x.1));
  rel_open : UniqueArgsRef.called l < Z.of_nat limit;
  rel_calls i : i ∈ x.2 ↔ used x.1 !! i = Some true ∧ finished x.1 !! i = Some false;
  rel_order i : finished x.1 !! i = Some true → used x.1 !! i = Some true;
}.

Lemma first_unused_spec l k i : first_unused l k = Some i → (k ≤ i)%nat ∧ l !! (i - k)%nat = Some false.
Proof.
  revert k. induction l as [|b l IH]; intros k; simpl; [done|]. destruct b; simpl.
  - intros [Hk Hi]%IH. split; [lia|]. by replace (i - k)%nat with (S (i - S k))%nat by lia.
  - intros [= ->]. split; [lia|]. by replace (i - i)%nat with 0%nat by lia.
Qed.

Lemma first_unused_none l k : first_unused l k = None → ∀ i b, l !! i = Some b → b = true.
Proof.
  revert k. induction l as [|b l IH]; intros k; simpl; [done|]. destruct b; [|done].
  intros Hn [|i] c; simpl; [by intros [= <-]|by eapply IH].
Qed.

Lemma countb_split (l : list bool) : (countb id l + countb negb l = length l)%nat.
Proof. induction l as [|[] l IH]; simpl; lia. Qed.

Lemma begin_related s calls l i s' :
  related (s, calls) l → GenerateArgs s = Ret i → Get_begin s i = Ret s' → related (s', i :: calls) l.
Proof.
  intros [Hu Hf Hc Ho Hcalls Hord] Hg Hb. simpl in *. unfold GenerateArgs in Hg.
  destruct (first_unused (used s) 0) as [j|] eqn:Ej; [|done]. injection Hg as ->.
  apply first_unused_spec in Ej as [_ Hi]. rewrite Nat.sub_0_r in Hi. unfold Get_begin in Hb. rewrite Hi in Hb.
  simpl in Hb. injection Hb as <-. apply lookup_lt_Some in Hi as Hlt.
  assert (finished s !! i = Some false) as Hfi.
  { destruct (lookup_lt_is_Some_2 (finished s) i) as [[] Hx]; [lia| |done]. apply Hord in Hx. congruence. }
  split; simpl; try done; [by rewrite length_insert| |].
  - intros j. rewrite elem_of_cons, Hcalls. destruct (decide (i = j)) as [<-|Hne].
    + rewrite list_lookup_insert_eq by done. intuition.
    + rewrite list_lookup_insert_ne by done. intuition congruence.
  - intros j Hj. destruct (decide (i = j)) as [<-|Hne]; [by rewrite list_lookup_insert_eq|].
    rewrite list_lookup_insert_ne by done. auto.
Qed.

Lemma countb_all (l : list bool) : countb negb l = 0%nat → ∀ i b, l !! i = Some b → b = true.
Proof. induction l as [|[] l IH]; simpl; intros Hc [|i] b; simpl; try done; [by intros [= <-]|by apply IH]. Qed.

Lemma countb_replicate_false n : countb id (replicate n false) = 0%nat.
Proof. induction n; simpl; auto. Qed.

Lemma end_related s calls l i s' r :
  related (s, calls) l → i ∈ calls → Get_end s i = Ret (s', r) →
  related (s', filter (λ j, j ≠ i) calls) (UniqueArgsRef.Get l (Z.of_nat i)).1 ∧ r = (UniqueArgsRef.Get l (Z.of_nat i)).2.
Proof.
  intros [Hu Hf Hc Ho Hcalls Hord] Hi He. simpl in *. apply Hcalls in Hi as Hui. destruct Hui as [Hui Hfi].
  apply lookup_lt_Some in Hfi as Hlt. unfold Get_end in He. rewrite Hfi in He. simpl in He. injection He as He.
  pose proof (countb_insert id (finished s) i false true Hfi) as Hcnt. simpl in Hcnt.
  pose proof (countb_split (<[i := true]> (finished s))) as Hsp. rewrite length_insert, Hf in Hsp.
  assert (to_size (UniqueArgsRef.called l + 1) = UniqueArgsRef.called l + 1) as Hsz.
  { unfold to_size, limit in *. apply Z.mod_small. lia. }
  unfold UniqueArgsRef.Get. simpl. rewrite Hsz. case_bool_decide as Hz; simplify_eq.
  - rewrite (proj2 (Z.eqb_eq _ _)) by (unfold limit in *; lia). simpl. split; [|f_equal; unfold limit in *; lia].
    assert (∀ j, j ∈ filter (λ j, j ≠ i) calls → False) as Hno.
    { intros j [Hj [Huj Hfj]%Hcalls]%list_elem_of_filter. rewrite <-(list_lookup_insert_ne _ i j true) in Hfj by done.
      by apply (countb_all _ Hz) in Hfj. }
    split; simpl; rewrite ?length_replicate, ?length_insert; try done.
    + by rewrite countb_replicate_false.
    + intros j. split; [by intros ?%Hno|]. by intros [[? _]%lookup_replicate _].
    + by intros j [? _]%lookup_replicate.
  - rewrite (proj2 (Z.eqb_neq _ _)) by (unfold limit in *; lia). simpl. split; [|done].
    split; simpl; rewrite ?length_insert; try done.
    + lia.
    + unfold limit in *. lia.
    + intros j. rewrite list_elem_of_filter, Hcalls. destruct (decide (i = j)) as [<-|Hne].
      * rewrite list_lookup_insert_eq by done. intuition congruence.
      * rewrite list_lookup_insert_ne by done. intuition congruence.
    + intros j. destruct (decide (i = j)) as [<-|Hne]; [done|]. rewrite list_lookup_insert_ne by done. auto.
Qed.

(** Every step is a step of the specification: a call takes effect when it
    finishes, with the result of the specification. *)
Theorem unique_args_refines x l o x' :
  related x l → step x o x' →
  match o with
  | None => related x' l
  | Some r => ∃ i, related x' (UniqueArgsRef.Get l i).1 ∧ r = (UniqueArgsRef.Get l i).2
  end.
Proof.
  intros Hr Hs. destruct Hs as [s calls i s' Hg Hb|s calls i s' r Hi He].
  - by eapply begin_related.
  - exists (Z.of_nat i). by eapply end_related.
Qed.

Lemma start_related : related (start, []) (UniqueArgsRef.mk 0).
Proof.
  split; try done.
  intros i. split; [by intros ?%not_elem_of_nil|]. by intros [[? _]%lookup_replicate _].
Qed.

(** A call can begin while an argument is unused. *)
Lemma begin_defined s calls l :
  related (s, calls) l → (∃ i, used s !! i = Some false) → ∃ i s', GenerateArgs s = Ret i ∧ Get_begin s i = Ret s'.
Proof.
  intros Hr [j Hj]. unfold GenerateArgs. destruct (first_unused (used s) 0) as [i|] eqn:E.
  - apply first_unused_spec in E as [_ Hi]. rewrite Nat.sub_0_r in Hi. exists i. eexists. split; [done|].
    unfold Get_begin. by rewrite Hi.
  - by apply (first_unused_none _ _ E) in Hj.
Qed.
End Refinement.

(** A checker that keeps its state by assignment never advances it: with
    [data_structure_state = data_structure_state_copy] every call is the first
    of its batch. *)
Lemma assigned_state_stays l i : UniqueArgsRef.assign l (UniqueArgsRef.Get l i).1 = l.
Proof. done. Qed.

Example third_call_by_copy : 
  let get l := (UniqueArgsRef.Get l 0).1 in (UniqueArgsRef.Get (get (get (UniqueArgsRef.mk 0))) 0).2 = Some 3.
Proof. reflexivity. Qed.
Example third_call_by_assignment :
  let get l := UniqueArgsRef.assign l (UniqueArgsRef.Get l 0).1 in
  (UniqueArgsRef.Get (get (get (UniqueArgsRef.mk 0))) 0).2 = None.
Proof. reflexivity. Qed.
