(* ===== verification/Ir.v ===== *)
(** * The intermediate representation the compiler passes rewrite

    What src/codegen/*.{h,cpp} reads and writes of an LLVM module: functions
    with their basic blocks, instructions with their operands, global
    variables and the annotations that Clang collects in
    [llvm.global.annotations]. LLVM is not part of the repository: this file
    is the vocabulary of the passes (the classes of instructions they test
    with [isa] and [dyn_cast], the documented meaning of the calls they make
    on them), not a model of the library. A [Function*] or [Instruction*] is
    its address, a number; a new object takes the next one. *)
From stdpp Require Import base list strings gmap sets.
From S2P Require Import Prelude.

(** ** Values, instructions, functions, modules *)

(** The first operand of an entry of [llvm.global.annotations]: Clang
    annotates functions and variables. *)
Inductive Annotated : Type :=
  | AnnotatedFunction (ptr : nat)
  | AnnotatedVariable (name : string).

(** Initializers and constant operands; a string stands for the pointer to
    the private global that holds it. *)
Inductive Constant : Type :=
  | ConstInt (z : Z)
  | ConstString (s : string)
  | ConstPointers (entries : list nat)
  | ConstNames (globals : list string)
  | ConstAnnotations (entries : list (Annotated * string))
  | ConstOther (tag : nat).

Inductive Value : Type :=
  | VInst (id : nat)       (** the result of the instruction at this address *)
  | VArg (n : nat)         (** an argument of the function *)
  | VFun (ptr : nat)       (** a function used as a value *)
  | VGlobal (name : string)
  | VConst (c : Constant).

(** The callee of a call is [Some] address for a direct call
    ([getCalledFunction]) and [None] for an indirect one; the successors of
    an [invoke] are positions of blocks in its function. *)
Inductive Opcode : Type :=
  | LoadInst
  | StoreInst
  | AtomicRMWInst
  | AtomicCmpXchgInst
  | CallInst (callee : option nat)
  | InvokeInst (callee : option nat) (normal unwind : nat)
  | CallBrInst (callee : option nat)
  | PHINode
  | LandingPadInst
  | ReturnInst
  | OtherInst (tag : nat).

Record Instruction : Type := mkInst {
  inst_id : nat;
  opcode : Opcode;
  operands : list Value
}.

Inductive Linkage : Type := ExternalLinkage | InternalLinkage | ExternalWeakLinkage | OtherLinkage.

(** [fun_noundef]: the first two parameters and the result have the attribute
    [noundef]. *)
Record Function : Type := mkFun {
  fun_ptr : nat;
  fun_name : string;
  arg_size : nat;
  fun_section : string;
  fun_linkage : Linkage;
  fun_noundef : bool;
  blocks : list (list Instruction)
}.

Record GlobalVariable : Type := mkGlobal {
  g_name : string;
  g_section : string;
  isExternallyInitialized : bool;
  isConstant : bool;
  hasAppendingLinkage : bool;
  getInitializer : option Constant
}.

Record Module_ : Type := mkModule {
  functions : list Function;
  globals : list GlobalVariable;
  next_ptr : nat
}.

#[export] Instance Annotated_eq_dec : EqDecision Annotated.
Proof. solve_decision. Defined.
#[export] Instance Constant_eq_dec : EqDecision Constant.
Proof. solve_decision. Defined.
#[export] Instance Linkage_eq_dec : EqDecision Linkage.
Proof. solve_decision. Defined.
#[export] Instance Value_eq_dec : EqDecision Value.
Proof. solve_decision. Defined.
#[export] Instance Opcode_eq_dec : EqDecision Opcode.
Proof. solve_decision. Defined.
#[export] Instance Instruction_eq_dec : EqDecision Instruction.
Proof. solve_decision. Defined.
#[export] Instance Function_eq_dec : EqDecision Function.
Proof. solve_decision. Defined.

(** ** The calls the passes make on them *)
Definition isDeclaration (F : Function) : bool :=
  match blocks F with [] => true | _ => false end.

(** [dyn_cast<CallBase>(i)->getCalledFunction()], for any of the three
    classes of calls. *)
Definition getCalledFunction (i : Instruction) : option nat :=
  match opcode i with
  | CallInst c | InvokeInst c _ _ | CallBrInst c => c
  | _ => None
  end.

Definition is_call (i : Instruction) : bool :=
  match opcode i with CallInst _ => true | _ => false end.

Definition getFunction (M : Module_) (ptr : nat) : option Function :=
  list_find (λ F, fun_ptr F = ptr) (functions M) ≫= λ p, Some p.2.

Definition getNamed (M : Module_) (name : string) : option Function :=
  list_find (λ F, fun_name F = name) (functions M) ≫= λ p, Some p.2.

Definition declare (ptr : nat) (name : string) (args : nat) : Function :=
  mkFun ptr name args "" ExternalLinkage false [].

(** [M.getOrInsertFunction(name, ...)]: the function of that name, or a new
    declaration at the end of the module. *)
Definition getOrInsertFunction (name : string) (args : nat) (M : Module_) : Module_ * nat :=
  match getNamed M name with
  | Some F => (M, fun_ptr F)
  | None =>
      let p := next_ptr M in
      (mkModule (functions M ++ [declare p name args]) (globals M) (S p), p)
  end.

(** Replacing the body of a function. *)
Definition with_blocks (F : Function) (bs : list (list Instruction)) : Function :=
  mkFun (fun_ptr F) (fun_name F) (arg_size F) (fun_section F) (fun_linkage F) (fun_noundef F) bs.

Definition set_blocks (ptr : nat) (bs : list (list Instruction)) (M : Module_) : Module_ :=
  mkModule ((λ F, if decide (fun_ptr F = ptr) then with_blocks F bs else F) <$> functions M)
           (globals M) (next_ptr M).

Definition set_next (n : nat) (M : Module_) : Module_ :=
  mkModule (functions M) (globals M) n.

(** [StringRef::contains], [std::string::find] and [starts_with]. *)
Definition str_find (needle s : string) : option nat := String.index 0 needle s.
Definition str_contains (s needle : string) : bool :=
  match str_find needle s with Some _ => true | None => false end.
Definition starts_with (s p : string) : bool := String.prefix p s.

(** ** Well-formed modules

    What the LLVM verifier checks and the passes rely on: addresses and names
    identify functions, direct callees are functions of the module, and a
    block has at least its terminator. *)
Record module_wf (M : Module_) : Prop := {
  wf_ptrs : NoDup (fun_ptr <$> functions M);
  wf_names : NoDup (fun_name <$> functions M);
  wf_next : ∀ F, F ∈ functions M → fun_ptr F < next_ptr M;
  wf_callees : ∀ F i p, F ∈ functions M → i ∈ concat (blocks F) →
    getCalledFunction i = Some p → is_Some (getFunction M p);
  wf_blocks : ∀ F b, F ∈ functions M → b ∈ blocks F → b ≠ []
}.

(** ** Lookups *)
Lemma getFunction_elem M p F : getFunction M p = Some F → F ∈ functions M ∧ fun_ptr F = p.
Proof.
  unfold getFunction. destruct (list_find _ _) as [[k G]|] eqn:E; [|done]. simpl.
  intros [= ->]. apply list_find_Some in E as (Hk&HP&_). split; [|done].
  by apply list_elem_of_lookup_2 in Hk.
Qed.

Lemma getFunction_unique M F :
  NoDup (fun_ptr <$> functions M) → F ∈ functions M → getFunction M (fun_ptr F) = Some F.
Proof.
  intros Hnd HF. unfold getFunction.
  destruct (list_find_elem_of (λ G, fun_ptr G = fun_ptr F) (functions M) F HF eq_refl)
    as [[k G] E].
  rewrite E. simpl. f_equal. apply list_find_Some in E as (Hk&HP&_).
  apply list_elem_of_lookup in HF as [k' Hk'].
  assert (k = k') as ->; [|congruence].
  eapply NoDup_lookup; [exact Hnd|..]; rewrite list_lookup_fmap; [by rewrite Hk|].
  rewrite Hk'. simpl. congruence.
Qed.

Lemma getNamed_elem M n F : getNamed M n = Some F → F ∈ functions M ∧ fun_name F = n.
Proof.
  unfold getNamed. destruct (list_find _ _) as [[k G]|] eqn:E; [|done]. simpl.
  intros [= ->]. apply list_find_Some in E as (Hk&HP&_). split; [|done].
  by apply list_elem_of_lookup_2 in Hk.
Qed.

Lemma getNamed_None M n F : getNamed M n = None → F ∈ functions M → fun_name F ≠ n.
Proof.
  unfold getNamed. destruct (list_find _ _) as [[k G]|] eqn:E; [done|].
  intros _ HF. apply list_find_None in E. by rewrite Forall_forall in E; apply E.
Qed.

(** Two functions of one name are one function. *)
Lemma same_name M F G :
  NoDup (fun_name <$> functions M) → F ∈ functions M → G ∈ functions M →
  fun_name F = fun_name G → F = G.
Proof.
  intros Hnd HF HG E.
  apply list_elem_of_lookup in HF as [i Hi]. apply list_elem_of_lookup in HG as [j Hj].
  assert (i = j) as ->; [|congruence].
  eapply NoDup_lookup; [exact Hnd|..]; rewrite list_lookup_fmap; [by rewrite Hi|].
  rewrite Hj. simpl. congruence.
Qed.

(** ** Folding a fallible function over a list *)
Fixpoint ofold {A B} (f : B → A → outcome A) (l : list B) (a : A) : outcome A :=
  match l with
  | [] => Ret a
  | x :: l => a ← f x a; ofold f l a
  end.

(** An invariant [P] that relates the list still to be processed and the
    state is carried through. *)
Lemma ofold_ind {A B} (f : B → A → outcome A) (P : list B → A → Prop) l a :
  P l a →
  (∀ x l' a, (∃ l0, l = l0 ++ x :: l') → P (x :: l') a → ∃ a', f x a = Ret a' ∧ P l' a') →
  ∃ a', ofold f l a = Ret a' ∧ P [] a'.
Proof.
  intros HP Hstep. revert a HP Hstep. induction l as [|x l IH]; intros a HP Hstep; [by exists a|].
  destruct (Hstep x l a) as (a1&E&HP1); [by exists []|done|].
  simpl. rewrite E. simpl. apply IH; [done|].
  intros y l' a2 [l0 ->]. apply Hstep. by exists (x :: l0).
Qed.

Lemma ofold_inv {A B} (f : B → A → outcome A) (P : A → Prop) l a a' :
  (∀ x a a', P a → f x a = Ret a' → P a') → P a → ofold f l a = Ret a' → P a'.
Proof.
  intros Hf. revert a. induction l as [|x l IH]; intros a HP E; simpl in E; [by simplify_eq|].
  outcome_inv E. eauto.
Qed.

Lemma ofold_app {A B} (f : B → A → outcome A) l1 l2 a :
  ofold f (l1 ++ l2) a = ofold f l1 a ≫= ofold f l2.
Proof.
  revert a. induction l1 as [|x l1 IH]; intros a; simpl; [done|].
  destruct (f x a); simpl; done || apply IH.
Qed.
