(* ===== verification/YieldPass.v ===== *)
(** * The pass that makes the code under test interruptible

    src/codegen/yieldpass.cpp: a call of [CoroYield] is inserted after every
    access to memory of the functions annotated [ltest_nonatomic], unless the
    function is reachable from one annotated [ltest_atomic]. The two macros
    that change what is instrumented, [LTEST_EXTERNAL_LAUNCH] and
    [LTEST_RECURSIVE_YIELDS], are the booleans [external_launch] and
    [recursive_yields]. The recursions of [CollectAtomic] and [InsertYields]
    take fuel; one more than the number of functions is enough. *)
From stdpp Require Import base list strings gmap sets relations.
From S2P Require Import Prelude Ir.

(** ** The code *)
Definition nonatomic_attr : string := "ltest_nonatomic".
Definition atomic_attr : string := "ltest_atomic".

Notation FunIndex := (gset (string * string)).

(** One entry of an annotation array: an annotated variable makes
    [dyn_cast<Function>] null, and its name is then read. *)
Definition index_entry (M : Module_) (e : Annotated * string) (index : FunIndex)
  : outcome FunIndex :=
  match e.1 with
  | AnnotatedFunction p =>
      F ← deref (getFunction M p);
      Ret ({[(e.2, fun_name F)]} ∪ index)
  | AnnotatedVariable _ => UB
  end.

Definition CreateFunIndex (M : Module_) : outcome FunIndex :=
  ofold (λ g index,
    if decide (g_name g = "llvm.global.annotations") then
      match getInitializer g with
      | Some (ConstAnnotations es) => ofold (index_entry M) es index
      | _ => UB
      end
    else Ret index) (globals M) ∅.

Definition HasAttribute (index : FunIndex) (name attr : string) : bool :=
  bool_decide ((attr, name) ∈ index).

Definition callee_name (M : Module_) (i : Instruction) : option string :=
  p ← getCalledFunction i; F ← getFunction M p; Some (fun_name F).

Definition IsAtomicWrapperCall (M : Module_) (i : Instruction) : bool :=
  match callee_name M i with
  | None => false
  | Some name =>
      str_contains name "atomic" &&
      (str_contains name "load" || str_contains name "store" ||
       str_contains name "exchange" || str_contains name "compare_exchange" ||
       str_contains name "fetch_")
  end.

Definition NeedInterrupt (M : Module_) (i : Instruction) : bool :=
  match opcode i with
  | LoadInst | StoreInst | AtomicRMWInst | AtomicCmpXchgInst => true
  | _ => IsAtomicWrapperCall M i
  end.

Definition ItsYieldInst (M : Module_) (yieldF : nat) (i : Instruction) : bool :=
  is_call i &&
  match callee_name M i, getFunction M yieldF with
  | Some name, Some Y => bool_decide (name ≠ "" ∧ name = fun_name Y)
  | _, _ => false
  end.

(** [Builder.CreateCall(CoroYieldF, {})]. *)
Definition yield_call (yieldF id : nat) : Instruction := mkInst id (CallInst (Some yieldF)) [].

(** The loop over one block, from [it] to the last instruction; [n] is the
    next address. The inserted call is stepped over. *)
Fixpoint insert_from (need yields : Instruction → bool) (yieldF n : nat)
    (it : Instruction) (rest : list Instruction) : list Instruction * nat :=
  match rest with
  | [] => ([it], n)
  | nx :: rest =>
      if need it && negb (yields nx) then
        let '(l, n') := insert_from need yields yieldF (S n) nx rest in
        (it :: yield_call yieldF n :: l, n')
      else
        let '(l, n') := insert_from need yields yieldF n nx rest in
        (it :: l, n')
  end.

Definition insert_block (M : Module_) (yieldF n : nat) (b : list Instruction)
  : outcome (list Instruction * nat) :=
  match b with
  | [] => UB
  | it :: rest => Ret (insert_from (NeedInterrupt M) (ItsYieldInst M yieldF) yieldF n it rest)
  end.

Fixpoint insert_blocks (M : Module_) (yieldF n : nat) (bs : list (list Instruction))
  : outcome (list (list Instruction) * nat) :=
  match bs with
  | [] => Ret ([], n)
  | b :: bs =>
      r ← insert_block M yieldF n b;
      r' ← insert_blocks M yieldF r.2 bs;
      Ret (r.1 :: r'.1, r'.2)
  end.

(** The callee that the loops over [CallInst] and [InvokeInst] descend into. *)
Definition defined_callee (M : Module_) (i : Instruction) : option Function :=
  match opcode i with
  | CallInst (Some p) | InvokeInst (Some p) _ _ =>
      F ← getFunction M p; if isDeclaration F then None else Some F
  | _ => None
  end.

Fixpoint CollectAtomic (fuel : nat) (M : Module_) (F : Function) (atomic : gset string)
  : outcome (gset string) :=
  match fuel with
  | O => OutOfFuel
  | S fuel =>
      if decide (fun_name F ∈ atomic) then Ret atomic
      else ofold (λ i a, match defined_callee M i with
                         | Some G => CollectAtomic fuel M G a
                         | None => Ret a
                         end) (concat (blocks F)) ({[fun_name F]} ∪ atomic)
  end.

(** The module and [visited]. *)
Notation YState := (Module_ * gset string)%type.

Section Pass.
Context (external_launch recursive_yields : bool).

Definition IsNonAtomic (name : string) (index : FunIndex) : bool :=
  if external_launch then true else HasAttribute index name nonatomic_attr.

Definition IsAtomic (name : string) (index : FunIndex) : bool :=
  HasAttribute index name atomic_attr.

Fixpoint InsertYields (fuel yieldF : nat) (atomic : gset string) (ptr : nat) (st : YState)
  : outcome YState :=
  match fuel with
  | O => OutOfFuel
  | S fuel =>
      let '(M, visited) := st in
      F ← deref (getFunction M ptr);
      if decide (fun_name F ∈ visited ∨ fun_name F ∈ atomic) then Ret st
      else if isDeclaration F then UB
      else
        r ← insert_blocks M yieldF (next_ptr M) (blocks F);
        let st := (set_next r.2 (set_blocks ptr r.1 M), {[fun_name F]} ∪ visited) in
        if recursive_yields then
          ofold (λ i st, match defined_callee st.1 i with
                         | Some G => InsertYields fuel yieldF atomic (fun_ptr G) st
                         | None => Ret st
                         end) (concat r.1) st
        else Ret st
  end.

Definition Run (yieldF : nat) (index : FunIndex) (M : Module_) : outcome Module_ :=
  let fuel := S (length (functions M)) in
  atomic ← ofold (λ F a, if IsAtomic (fun_name F) index then CollectAtomic fuel M F a else Ret a)
             (functions M) ∅;
  st ← ofold (λ F st, if IsNonAtomic (fun_name F) index
                      then InsertYields fuel yieldF atomic (fun_ptr F) st else Ret st)
         (functions M) (M, ∅);
  Ret st.1.

Definition YieldInsertPass (M : Module_) : outcome Module_ :=
  index ← CreateFunIndex M;
  let '(M, yieldF) := getOrInsertFunction "CoroYield" 0 M in
  Run yieldF index M.
End Pass.

(** ** One block

    [followed]: every instruction that needs an interruption, but for the
    last, is followed by a yield. [instrumented]: that, and nothing but
    yields was added. *)
Definition followed (need yields : Instruction → bool) (l : list Instruction) : Prop :=
  ∀ k a b, l !! k = Some a → l !! S k = Some b → need a = true → yields b = true.

Record instrumented (need yields : Instruction → bool) (b b' : list Instruction) : Prop := {
  ins_followed : followed need yields b';
  ins_sublist : b `sublist_of` b';
  ins_only_yields : filter (λ i, yields i = false) b' = filter (λ i, yields i = false) b;
  ins_last : last b' = last b
}.

Section Block.
Context (need yields : Instruction → bool) (yieldF : nat).
Context (Hyield : ∀ n, yields (yield_call yieldF n) = true)
        (Hneed : ∀ n, need (yield_call yieldF n) = false).

Lemma followed_cons a b l :
  (need a = true → yields b = true) → followed need yields (b :: l) →
  followed need yields (a :: b :: l).
Proof. intros Hab Hl [|k] x y Hx Hy; simplify_eq/=; [auto|]. by apply (Hl k). Qed.

Lemma followed_tail a l : followed need yields (a :: l) → followed need yields l.
Proof. intros Hl k x y Hx Hy. by apply (Hl (S k)). Qed.

Lemma insert_from_head n it rest :
  ∃ l, (insert_from need yields yieldF n it rest).1 = it :: l ∧ (rest ≠ [] → l ≠ []).
Proof.
  destruct rest as [|nx rest]; simpl; [by exists []|].
  destruct (need it && _);
    destruct (insert_from _ _ _ _ nx rest) as [l n'] eqn:E; simpl; eexists; split; [done|..|done|];
    intros _; [done|].
  intros ->. assert (H : ∀ n it rest, (insert_from need yields yieldF n it rest).1 ≠ []).
  { clear. intros n it rest. destruct rest; simpl; [done|].
    destruct (_ && _); by destruct (insert_from _ _ _ _ _ _). }
  apply (H n nx rest). by rewrite E.
Qed.

Lemma insert_from_instrumented n it rest :
  instrumented need yields (it :: rest) (insert_from need yields yieldF n it rest).1.
Proof.
  revert n it. induction rest as [|nx rest IH]; intros n it; simpl.
  { split; [by intros [|k] a b|done..]. }
  destruct (need it && negb (yields nx)) eqn:E.
  - destruct (insert_from_head (S n) nx rest) as (l&El&_). specialize (IH (S n) nx).
    destruct (insert_from _ _ _ (S n) nx rest) as [l' n']; simplify_eq/=. destruct IH as [Hf Hs Ho Hl].
    split; [|by apply sublist_skip, sublist_cons| |exact Hl].
    + apply followed_cons; [auto|]. apply followed_cons; [|done]. by rewrite Hneed.
    + rewrite filter_cons, (filter_cons _ it). rewrite filter_cons_False by (rewrite Hyield; done).
      by rewrite Ho.
  - destruct (insert_from_head n nx rest) as (l&El&_). specialize (IH n nx).
    destruct (insert_from _ _ _ n nx rest) as [l' n']; simplify_eq/=. destruct IH as [Hf Hs Ho Hl].
    split; [|by apply sublist_skip| |exact Hl].
    + apply followed_cons; [|done]. intros Hit. rewrite Hit in E. by destruct (yields nx).
    + by rewrite filter_cons, (filter_cons _ it), Ho.
Qed.

(** A block that is already instrumented is left alone. *)
Lemma insert_from_followed n it rest :
  followed need yields (it :: rest) → insert_from need yields yieldF n it rest = (it :: rest, n).
Proof.
  revert n it. induction rest as [|nx rest IH]; intros n it Hf; simpl; [done|].
  rewrite (IH n nx) by (by eapply followed_tail).
  destruct (need it) eqn:E; simpl; [|done].
  by rewrite (Hf 0 it nx eq_refl eq_refl E).
Qed.
End Block.

(** ** Modules of one shape *)
Definition shape (F : Function) : nat * string * bool := (fun_ptr F, fun_name F, isDeclaration F).

Definition same_shape (M M' : Module_) : Prop := shape <$> functions M = shape <$> functions M'.

Lemma getFunction_shape M M' p :
  same_shape M M' → shape <$> getFunction M p = shape <$> getFunction M' p.
Proof.
  unfold same_shape, getFunction. destruct M as [fs ? ?], M' as [fs' ? ?]. simpl.
  revert fs'. induction fs as [|F fs IH]; intros [|F' fs'] E; simpl in E; try done.
  simpl. assert (EP : fun_ptr F = fun_ptr F') by (by inversion E).
  specialize (IH fs'). rewrite EP. destruct (decide (fun_ptr F' = p)); simpl.
  { injection E. unfold shape. intros. congruence. }
  destruct (list_find _ fs) as [[]|], (list_find _ fs') as [[]|]; simpl in *; apply IH; by inversion E.
Qed.

Lemma callee_name_shape M M' i : same_shape M M' → callee_name M i = callee_name M' i.
Proof.
  intros Hs. unfold callee_name. destruct (getCalledFunction i) as [p|]; [|done]. simpl.
  pose proof (getFunction_shape M M' p Hs) as E.
  destruct (getFunction M p), (getFunction M' p); simpl in *; try done.
  f_equal. by inversion E.
Qed.

Lemma NeedInterrupt_shape M M' i : same_shape M M' → NeedInterrupt M i = NeedInterrupt M' i.
Proof. intros Hs. unfold NeedInterrupt, IsAtomicWrapperCall. by rewrite (callee_name_shape M M'). Qed.

Lemma ItsYieldInst_shape M M' y i : same_shape M M' → ItsYieldInst M y i = ItsYieldInst M' y i.
Proof.
  intros Hs. unfold ItsYieldInst. rewrite (callee_name_shape M M') by done. f_equal.
  pose proof (getFunction_shape M M' y Hs) as E.
  destruct (getFunction M y), (getFunction M' y); try done.
  destruct (callee_name M' i); [|done]. inversion E as [[E1 E2 E3]]. by rewrite E2.
Qed.

Lemma instrumented_ext need need' yields yields' b b' :
  (∀ i, need i = need' i) → (∀ i, yields i = yields' i) →
  instrumented need yields b b' → instrumented need' yields' b b'.
Proof.
  intros Hn Hy [Hf Hs Ho Hl]. split; [|done| |done].
  - intros k x y. rewrite <-Hn, <-Hy. apply Hf.
  - rewrite !(list_filter_iff (λ i, yields' i = false) (λ i, yields i = false));
      [done|intros i; by rewrite Hy..].
Qed.

Lemma defined_callee_shape M M' i :
  same_shape M M' → shape <$> defined_callee M i = shape <$> defined_callee M' i.
Proof.
  intros Hs. unfold defined_callee.
  assert (H : ∀ p, shape <$> (F ← getFunction M p; if isDeclaration F then None else Some F) =
                   shape <$> (F ← getFunction M' p; if isDeclaration F then None else Some F)).
  { intros p. pose proof (getFunction_shape M M' p Hs) as E.
    destruct (getFunction M p) as [F|], (getFunction M' p) as [F'|]; simpl in *; try done.
    assert (isDeclaration F = isDeclaration F') as <- by (by inversion E).
    destruct (isDeclaration F); [done|]. simpl. by rewrite E. }
  destruct (opcode i) as [| | | |[p|]|[p|]| | | | |]; done || apply H.
Qed.

(** * What the yield pass does to a module

    The proofs about [YieldPass]: the recursions end within their fuel, the
    atomic functions are those reachable from an annotated one, and the
    instrumented functions are exactly the others that were asked for. *)

(** [F] calls the defined function [G] directly. *)
Definition calls (M : Module_) (F G : Function) : Prop :=
  ∃ i, i ∈ concat (blocks F) ∧ defined_callee M i = Some G.

Definition names (M : Module_) : gset string := list_to_set (fun_name <$> functions M).

Lemma elem_of_names M F : F ∈ functions M → fun_name F ∈ names M.
Proof. intros HF. apply elem_of_list_to_set, list_elem_of_fmap. by exists F. Qed.

Lemma size_names M : size (names M) ≤ length (functions M).
Proof.
  unfold names. rewrite <-(length_fmap fun_name). generalize (fun_name <$> functions M).
  intros l. induction l as [|x l IH]; [by rewrite list_to_set_nil, size_empty; simpl; lia|].
  rewrite list_to_set_cons, size_union_alt, size_singleton. cbn [length].
  assert (size (list_to_set (C := gset string) l ∖ {[x]}) ≤ size (list_to_set (C := gset string) l))
    by (apply subseteq_size; set_solver).
  lia.
Qed.

(** Marking one more function leaves fewer. *)
Lemma names_mark M F (a : gset string) :
  F ∈ functions M → fun_name F ∉ a →
  size (names M ∖ ({[fun_name F]} ∪ a)) < size (names M ∖ a).
Proof.
  intros HF Hn. apply subset_size. pose proof (elem_of_names M F HF). set_solver.
Qed.

Lemma defined_callee_elem M i G :
  defined_callee M i = Some G → G ∈ functions M ∧ isDeclaration G = false.
Proof.
  unfold defined_callee.
  assert (H : ∀ p, (F ← getFunction M p; if isDeclaration F then None else Some F) = Some G →
    G ∈ functions M ∧ isDeclaration G = false).
  { intros p. destruct (getFunction M p) as [F|] eqn:E; [|done]. simpl.
    destruct (isDeclaration F) eqn:ED; [done|]. intros [= ->]. split; [|done].
    by apply getFunction_elem in E as [? _]. }
  destruct (opcode i) as [| | | |[p|]|[p|]| | | | |]; done || apply H.
Qed.

(** ** The atomic functions *)
Section Atomic.
Context (M : Module_) (Hwf : module_wf M) (root : Function → Prop).

Definition from_root (G : Function) : Prop := ∃ A, root A ∧ rtc (calls M) A G.

(** What [CollectAtomic] adds: only reachable functions, closed under
    calls. *)
Definition collected (a a' : gset string) : Prop :=
  a ⊆ a' ∧
  ∀ G, G ∈ functions M → fun_name G ∈ a' → fun_name G ∉ a →
    from_root G ∧ ∀ H, calls M G H → fun_name H ∈ a'.

Lemma collected_refl a : collected a a.
Proof. split; [done|]. by intros. Qed.

Lemma collected_trans a b c : collected a b → collected b c → collected a c.
Proof.
  intros [H1 H2] [H3 H4]. split; [set_solver|].
  intros G HG Hc Ha. destruct (decide (fun_name G ∈ b)) as [Hb|Hb].
  - destruct (H2 G HG Hb Ha) as [Hr Hcl]. split; [done|]. intros H HH. apply H3. by apply Hcl.
  - by apply H4.
Qed.

Lemma CollectAtomic_total fuel F a :
  F ∈ functions M → from_root F → size (names M ∖ a) < fuel →
  ∃ a', CollectAtomic fuel M F a = Ret a' ∧ collected a a' ∧ fun_name F ∈ a'.
Proof.
  revert F a. induction fuel as [|fuel IH]; intros F a HF Hr Hfuel; [lia|]. simpl.
  destruct (decide (fun_name F ∈ a)) as [Hin|Hin].
  { exists a. split; [done|]. split; [apply collected_refl|done]. }
  pose proof (names_mark M F a HF Hin) as Hm.
  edestruct (ofold_ind
    (λ i a, match defined_callee M i with
            | Some G => CollectAtomic fuel M G a
            | None => Ret a end)
    (λ rest b, collected ({[fun_name F]} ∪ a) b ∧
               ∀ i G, i ∈ concat (blocks F) → i ∉ rest → defined_callee M i = Some G → fun_name G ∈ b)
    (concat (blocks F)) ({[fun_name F]} ∪ a)) as (b&Hb&Hcol&Hdone).
  { split; [apply collected_refl|]. by intros. }
  { intros i rest b [l0 El] [Hcol Hdone].
    assert (Hi : i ∈ concat (blocks F)) by (rewrite El; set_solver).
    destruct (defined_callee M i) as [G|] eqn:EG.
    - destruct (defined_callee_elem M i G EG) as [HG _].
      destruct (IH G b) as (b'&Eb&Hcol'&HGb); [done|..].
      + destruct Hr as (A&HA&Hreach). exists A. split; [done|].
        eapply rtc_r; [exact Hreach|]. by exists i.
      + destruct Hcol as [Hsub _].
        assert (size (names M ∖ b) ≤ size (names M ∖ ({[fun_name F]} ∪ a))); [|lia].
        apply subseteq_size. set_solver.
      + exists b'. split; [done|]. split; [by eapply collected_trans|].
        intros j H Hj Hnot EH. destruct (decide (j = i)) as [->|Hne]; [by simplify_eq|].
        destruct Hcol' as [Hsub _]. apply Hsub. apply (Hdone j); [done|set_solver|done].
    - exists b. split; [done|]. split; [done|].
      intros j H Hj Hnot EH. apply (Hdone j); [done| |done].
      intros [->|?]%elem_of_cons; [by simplify_eq|done]. }
  exists b. split; [done|]. destruct Hcol as [Hsub Hnew]. split; [|set_solver].
  split; [set_solver|]. intros G HG Hb' Ha.
  destruct (decide (fun_name G = fun_name F)) as [E|Hne].
  - apply (same_name M) in E as ->; [|apply Hwf|done..]. split; [done|].
    intros H (i&Hi&EH). apply (Hdone i); [done|apply not_elem_of_nil|done].
  - apply Hnew; [done..|set_solver].
Qed.
End Atomic.

(** The first loop of [Run]: the functions reachable from an annotated one,
    in direct calls of defined functions. *)
Lemma collect_all M index :
  module_wf M →
  ∃ atomic,
    ofold (λ F a, if IsAtomic (fun_name F) index
                  then CollectAtomic (S (length (functions M))) M F a else Ret a)
      (functions M) ∅ = Ret atomic ∧
    (∀ G, G ∈ functions M →
       fun_name G ∈ atomic ↔
       from_root M (λ A, A ∈ functions M ∧ IsAtomic (fun_name A) index = true) G).
Proof.
  intros Hwf. set (root := λ A, A ∈ functions M ∧ IsAtomic (fun_name A) index = true).
  edestruct (ofold_ind
    (λ F a, if IsAtomic (fun_name F) index
            then CollectAtomic (S (length (functions M))) M F a else Ret a)
    (λ rest a, collected M root ∅ a ∧
       ∀ A, root A → A ∉ rest → fun_name A ∈ a) (functions M) ∅) as (a&Ea&Hcol&Hroots).
  { split; [apply collected_refl|]. by intros A [HA _] Hn. }
  { intros F rest a [l0 El] [Hcol Hroots].
    assert (HF : F ∈ functions M) by (rewrite El; set_solver).
    destruct (IsAtomic (fun_name F) index) eqn:EA.
    - destruct (CollectAtomic_total M Hwf root (S (length (functions M))) F a) as (a'&Ea&Hcol'&HFa);
        [done|by exists F|..].
      { pose proof (size_names M). pose proof (subseteq_size (names M ∖ a) (names M)).
        assert (names M ∖ a ⊆ names M) by set_solver. specialize (H0 H1). lia. }
      exists a'. split; [done|]. split; [by eapply collected_trans|].
      intros A HA Hn. destruct (decide (A = F)) as [->|Hne]; [done|].
      destruct Hcol' as [Hsub _]. apply Hsub, Hroots; [done|set_solver].
    - exists a. split; [done|]. split; [done|]. intros A HA Hn. apply Hroots; [done|].
      intros [->|?]%elem_of_cons; [|done]. destruct HA as [_ HA]. congruence. }
  exists a. split; [done|]. destruct Hcol as [_ Hnew]. intros G HG. split.
  - intros Ha. apply (Hnew G); [done..|set_solver].
  - intros (A&HA&Hreach).
    assert (Hstart : fun_name A ∈ a) by (apply Hroots; [done|apply not_elem_of_nil]).
    destruct HA as [HA _]. revert HA Hstart. clear -Hnew Hreach.
    induction Hreach as [A|A B G HAB _ IH]; [done|]. intros HA Hstart. apply IH.
    + destruct HAB as (i&_&E). by apply defined_callee_elem in E as [? _].
    + apply (Hnew A); [done..|set_solver|done].
Qed.

(** ** The instrumented functions *)
Lemma elem_of_concat_Forall2 {A} (P : list A → list A → Prop) (bs bs' : list (list A)) i :
  Forall2 P bs bs' → i ∈ concat bs' → ∃ b b', b ∈ bs ∧ P b b' ∧ i ∈ b'.
Proof.
  intros HP. induction HP as [|b b' bs bs' Hb HP IH]; simpl; [by intros ?%not_elem_of_nil|].
  intros [Hi|Hi]%elem_of_app; [exists b, b'; set_solver|].
  destruct (IH Hi) as (c&c'&Hc&HPc&Hic). exists c, c'. set_solver.
Qed.

Lemma elem_of_concat {A} (bs : list (list A)) i b : b ∈ bs → i ∈ b → i ∈ concat bs.
Proof. intros Hb Hi. induction bs as [|c bs IH]; simpl; [by apply not_elem_of_nil in Hb|]. set_solver. Qed.

Section Insert.
Context (recursive_yields : bool) (M0 : Module_) (Hwf : module_wf M0).
Context (yieldF : nat) (Y : Function) (HY : getFunction M0 yieldF = Some Y).
Context (HYname : fun_name Y = "CoroYield") (HYdecl : isDeclaration Y = true).
Context (atomic : gset string) (asked : Function → Prop).

Notation need := (NeedInterrupt M0).
Notation yields := (ItsYieldInst M0 yieldF).

(** The functions to instrument: those asked for and, with
    [LTEST_RECURSIVE_YIELDS], those they call; never an atomic one. *)
Inductive wanted : Function → Prop :=
  | wanted_root F : F ∈ functions M0 → asked F → fun_name F ∉ atomic → wanted F
  | wanted_call F G : recursive_yields = true → wanted F → calls M0 F G →
      fun_name G ∉ atomic → wanted G.

Definition touched (visited : gset string) (F F' : Function) : Prop :=
  if decide (fun_name F ∈ visited)
  then ∃ bs, F' = with_blocks F bs ∧ Forall2 (instrumented need yields) (blocks F) bs
  else F' = F.

Record yinv (st : YState) : Prop := {
  yi_funs : Forall2 (touched st.2) (functions M0) (functions st.1);
  yi_globals : globals st.1 = globals M0;
  yi_wanted : ∀ G, G ∈ functions M0 → fun_name G ∈ st.2 → wanted G
}.

Lemma with_blocks_shape F bs :
  Forall2 (instrumented need yields) (blocks F) bs → shape (with_blocks F bs) = shape F.
Proof. intros Hbs. unfold shape, isDeclaration; simpl. by destruct Hbs. Qed.

Lemma yinv_shape st : yinv st → same_shape M0 st.1.
Proof.
  intros [Hf _ _]. unfold same_shape. induction Hf as [|F F' fs fs' HF _ IH]; [done|].
  rewrite !fmap_cons, IH. f_equal. unfold touched in HF. case_decide; [|by subst].
  destruct HF as (bs&->&Hbs). by rewrite with_blocks_shape.
Qed.

Lemma shape_ptrs M : same_shape M0 M → fun_ptr <$> functions M0 = fun_ptr <$> functions M.
Proof.
  unfold same_shape. intros E. apply (f_equal (fmap (λ s, s.1.1))) in E.
  by rewrite <-!list_fmap_compose in E.
Qed.

Lemma yinv_lookup st F :
  yinv st → F ∈ functions M0 → ∃ F', getFunction st.1 (fun_ptr F) = Some F' ∧
    touched st.2 F F' ∧ fun_name F' = fun_name F.
Proof.
  intros Hi HF. pose proof (yinv_shape st Hi) as Hs. destruct Hi as [Hf _ _].
  apply list_elem_of_lookup in HF as [k Hk].
  destruct (Forall2_lookup_l _ _ _ _ _ Hf Hk) as (F'&Hk'&HT).
  assert (E : shape F' = shape F).
  { unfold touched in HT. case_decide; [|by subst]. destruct HT as (bs&->&?). by apply with_blocks_shape. }
  exists F'. split; [|split; [done|by inversion E]].
  assert (fun_ptr F = fun_ptr F') as -> by (by inversion E).
  apply getFunction_unique; [|by apply list_elem_of_lookup_2 in Hk'].
  rewrite <-(shape_ptrs st.1) by done. apply Hwf.
Qed.

Lemma yields_callee i : yields i = true → defined_callee M0 i = None.
Proof.
  unfold ItsYieldInst, is_call, callee_name, getCalledFunction, defined_callee.
  destruct (opcode i) as [| | | |[p|]|[p|]| | | | |]; try done. simpl.
  destruct (getFunction M0 p) as [F|] eqn:E; [|done]. rewrite HY. simpl.
  intros [_ En]%bool_decide_eq_true_1.
  assert (F = Y) as ->; [|by rewrite HYdecl].
  apply getFunction_elem in E as [? _]. apply getFunction_elem in HY as [? _].
  apply (same_name M0); [apply Hwf|done..].
Qed.

Lemma yield_call_yields n : yields (yield_call yieldF n) = true.
Proof.
  unfold ItsYieldInst, callee_name, yield_call, getCalledFunction. simpl. rewrite HY. simpl.
  rewrite HYname. by apply bool_decide_eq_true_2.
Qed.

Lemma yield_call_need n : need (yield_call yieldF n) = false.
Proof.
  unfold NeedInterrupt, IsAtomicWrapperCall, callee_name, yield_call, getCalledFunction. simpl.
  rewrite HY. simpl. by rewrite HYname.
Qed.

Lemma insert_blocks_total M n bs :
  same_shape M0 M → (∀ b, b ∈ bs → b ≠ []) →
  ∃ r, insert_blocks M yieldF n bs = Ret r ∧ Forall2 (instrumented need yields) bs r.1.
Proof.
  intros Hs. revert n. induction bs as [|b bs IH]; intros n Hb; [by exists ([], n)|].
  destruct b as [|it rest]; [by destruct (Hb []); [left|]|]. cbn.
  destruct (IH (insert_from (NeedInterrupt M) (ItsYieldInst M yieldF) yieldF n it rest).2)
    as (r&Er&Hr); [set_solver|].
  rewrite Er. simpl. eexists. split; [done|]. simpl. constructor; [|done].
  apply (instrumented_ext (NeedInterrupt M) _ (ItsYieldInst M yieldF)).
  - intros i. symmetry. by apply NeedInterrupt_shape.
  - intros i. symmetry. by apply ItsYieldInst_shape.
  - apply insert_from_instrumented; intros k.
    + rewrite <-(ItsYieldInst_shape M0) by done. apply yield_call_yields.
    + rewrite <-(NeedInterrupt_shape M0) by done. apply yield_call_need.
Qed.

(** Instrumenting one more function keeps the invariant. *)
Lemma yinv_set st F bs n :
  yinv st → F ∈ functions M0 → fun_name F ∉ st.2 → wanted F →
  Forall2 (instrumented need yields) (blocks F) bs →
  yinv (set_next n (set_blocks (fun_ptr F) bs st.1), {[fun_name F]} ∪ st.2).
Proof.
  intros [Hf Hg Hw] HF Hnot HwF Hbs. split; simpl; [|done|].
  - apply Forall2_fmap_r. apply Forall2_same_length_lookup in Hf as [Hlen Hf].
    apply Forall2_same_length_lookup. split; [done|]. intros k G G' HG HG'.
    specialize (Hf k G G' HG HG'). apply list_elem_of_lookup_2 in HG.
    assert (EP : fun_ptr G' = fun_ptr G).
    { unfold touched in Hf. case_decide; [by destruct Hf as (?&->&_)|by subst]. }
    unfold compose. rewrite EP. destruct (decide (fun_ptr G = fun_ptr F)) as [E|Hne].
    + assert (G = F) as ->.
      { apply (getFunction_unique M0) in HG, HF; [|apply Hwf..]. congruence. }
      unfold touched in *. rewrite decide_False in Hf by done. rewrite decide_True by set_solver.
      subst G'. by exists bs.
    + assert (fun_name G ≠ fun_name F).
      { intros En. apply Hne. f_equal. apply (same_name M0); [apply Hwf|done..]. }
      unfold touched in *. destruct (decide (fun_name G ∈ st.2)).
      * by rewrite decide_True by set_solver.
      * by rewrite decide_False by set_solver.
  - intros G HG. destruct (decide (fun_name G = fun_name F)) as [E|Hne].
    + apply (same_name M0) in E as ->; [done|apply Hwf|done..].
    + intros ?. apply Hw; [done|set_solver].
Qed.

(** The calls that the instrumented body makes are those of the original. *)
Lemma instrumented_calls M F bs i :
  same_shape M0 M → Forall2 (instrumented need yields) (blocks F) bs → i ∈ concat bs →
  match defined_callee M i with
  | Some G' => ∃ G, calls M0 F G ∧ defined_callee M0 i = Some G ∧ fun_ptr G' = fun_ptr G
  | None => defined_callee M0 i = None
  end.
Proof.
  intros Hs Hbs Hi. pose proof (defined_callee_shape M0 M i Hs) as E.
  destruct (defined_callee M i) as [G'|] eqn:E'; simpl in E.
  2: { by destruct (defined_callee M0 i). }
  destruct (defined_callee M0 i) as [G|] eqn:EG; simpl in E; [|done].
  exists G. split; [|split; [done|by inversion E]]. exists i. split; [|done].
  destruct (elem_of_concat_Forall2 _ _ _ _ Hbs Hi) as (b&b'&Hb&Hins&Hib).
  apply (elem_of_concat _ _ b); [done|].
  assert (Hy : yields i = false).
  { destruct (yields i) eqn:Ey; [|done]. apply yields_callee in Ey. congruence. }
  assert (Hfil : i ∈ filter (λ i, yields i = false) b') by (by apply list_elem_of_filter).
  rewrite (ins_only_yields _ _ _ _ Hins) in Hfil. by apply list_elem_of_filter in Hfil as [_ ?].
Qed.

Lemma original_calls F bs i :
  Forall2 (instrumented need yields) (blocks F) bs → i ∈ concat (blocks F) → i ∈ concat bs.
Proof.
  intros Hbs. induction Hbs as [|b b' l l' Hb _ IH]; simpl; [done|].
  intros [Hi|Hi]%elem_of_app; apply elem_of_app; [left|right; auto].
  eapply elem_of_submseteq; [exact Hi|]. apply sublist_submseteq, Hb.
Qed.

(** What a call of [InsertYields] adds to [visited]. *)
Definition grown (v v' : gset string) : Prop :=
  v ⊆ v' ∧
  ∀ G, G ∈ functions M0 → fun_name G ∈ v' → fun_name G ∉ v → recursive_yields = true →
    ∀ H, calls M0 G H → fun_name H ∈ v' ∪ atomic.

Lemma grown_refl v : grown v v.
Proof. split; [done|]. by intros. Qed.

Lemma grown_trans a b c : grown a b → grown b c → grown a c.
Proof.
  intros [H1 H2] [H3 H4]. split; [set_solver|].
  intros G HG Hc Ha Hrec H HH. destruct (decide (fun_name G ∈ b)) as [Hb|Hb].
  - specialize (H2 G HG Hb Ha Hrec H HH). set_solver.
  - by apply (H4 G).
Qed.

Lemma InsertYields_total fuel F st :
  yinv st → F ∈ functions M0 →
  (fun_name F ∉ atomic → isDeclaration F = false ∧ wanted F) →
  size (names M0 ∖ st.2) < fuel →
  ∃ st', InsertYields recursive_yields fuel yieldF atomic (fun_ptr F) st = Ret st' ∧
    yinv st' ∧ grown st.2 st'.2 ∧ fun_name F ∈ st'.2 ∪ atomic.
Proof.
  revert F st. induction fuel as [|fuel IH]; intros F [M visited] Hi HF Hok Hfuel;
    [simpl in *; lia|]. cbn [InsertYields].
  destruct (yinv_lookup _ F Hi HF) as (F'&EF'&HT&En). simpl in EF', HT, Hfuel.
  rewrite EF'. cbn [deref mbind outcome_bind]. rewrite En.
  case_decide as Hin.
  { exists (M, visited). split; [done|]. split; [done|]. split; [apply grown_refl|]. set_solver. }
  assert (fun_name F ∉ visited ∧ fun_name F ∉ atomic) as [Hv Ha] by tauto. destruct (Hok Ha) as [Hdef Hw].
  unfold touched in HT. rewrite decide_False in HT by done. subst F'. rewrite Hdef.
  destruct (insert_blocks_total M (next_ptr M) (blocks F)) as (r&Er&Hr);
    [exact (yinv_shape _ Hi)|intros b Hb; by apply (wf_blocks _ Hwf F)|].
  rewrite Er. cbn [mbind outcome_bind].
  pose proof (yinv_set _ F r.1 r.2 Hi HF Hv Hw Hr) as Hi1. simpl in Hi1.
  assert (Hm := names_mark M0 F visited HF Hv).
  set (st1 := (set_next r.2 (set_blocks (fun_ptr F) r.1 M), {[fun_name F]} ∪ visited)) in *.
  assert (Hrec : recursive_yields = false ∨ recursive_yields = true)
    by (clear; destruct recursive_yields; auto).
  destruct Hrec as [Hrec|Hrec];
    match goal with |- context [if recursive_yields then ?a else ?b] =>
      first [replace (if recursive_yields then a else b) with b by (by rewrite Hrec)
            |replace (if recursive_yields then a else b) with a by (by rewrite Hrec)] end.
  { exists st1. split; [done|]. split; [done|]. split; [|set_solver].
    split; [set_solver|]. intros ? ? ? ? ?. congruence. }
  edestruct (ofold_ind
    (λ i st, match defined_callee st.1 i with
             | Some G => InsertYields recursive_yields fuel yieldF atomic (fun_ptr G) st
             | None => Ret st end)
    (λ rest st, yinv st ∧ grown st1.2 st.2 ∧
       ∀ i G, i ∈ concat r.1 → i ∉ rest → defined_callee M0 i = Some G →
         fun_name G ∈ st.2 ∪ atomic)
    (concat r.1) st1) as (st2&E2&Hi2&Hg2&Hdone).
  { split; [done|]. split; [apply grown_refl|]. by intros. }
  { intros i rest st [l0 El] (Hist&Hg&Hd).
    assert (Hi' : i ∈ concat r.1) by (rewrite El; set_solver).
    pose proof (instrumented_calls st.1 F r.1 i (yinv_shape _ Hist) Hr Hi') as HC.
    destruct (defined_callee st.1 i) as [G'|].
    - destruct HC as (G&HFG&EG&->). destruct (defined_callee_elem M0 i G EG) as [HG HGd].
      destruct (IH G st) as (st'&E'&Hi3&Hg3&HGin); [done|done|..].
      + intros HnotG. split; [done|]. by apply (wanted_call F).
      + destruct Hg as [Hsub _].
        assert (size (names M0 ∖ st.2) ≤ size (names M0 ∖ ({[fun_name F]} ∪ visited))); [|lia].
        apply subseteq_size. set_solver.
      + exists st'. split; [done|]. split; [done|]. split; [by eapply grown_trans|].
        intros j H Hj Hn EH. destruct (decide (j = i)) as [->|Hne]; [by simplify_eq|].
        assert (fun_name H ∈ st.2 ∪ atomic) by (apply (Hd j); [done|set_solver|done]).
        destruct Hg3 as [Hsub _]. set_solver.
    - exists st. split; [done|]. split; [done|]. split; [done|].
      intros j H Hj Hn EH. apply (Hd j); [done| |done].
      intros [->|?]%elem_of_cons; [congruence|done]. }
  exists st2. split; [done|]. split; [done|]. destruct Hg2 as [Hsub Hcl]. split; [|set_solver].
  split; [set_solver|]. intros G HG Hin2 Hnv _ H HH.
  destruct (decide (fun_name G = fun_name F)) as [E|Hne].
  - apply (same_name M0) in E as ->; [|apply Hwf|done..]. destruct HH as (i&Hi0&EH).
    apply (Hdone i); [by apply (original_calls F)|apply not_elem_of_nil|done].
  - apply (Hcl G); [done..|set_solver|done|done].
Qed.

(** The second loop of [Run]. *)
Lemma insert_all (todo : Function → bool) :
  (∀ F, F ∈ functions M0 → todo F = true → asked F ∧ (fun_name F ∉ atomic → isDeclaration F = false)) →
  (∀ F, F ∈ functions M0 → asked F → todo F = true) →
  ∃ st, ofold (λ F st, if todo F then InsertYields recursive_yields (S (length (functions M0)))
                                       yieldF atomic (fun_ptr F) st else Ret st)
          (functions M0) (M0, ∅) = Ret st ∧
    yinv st ∧ ∀ G, wanted G → fun_name G ∈ st.2.
Proof.
  intros Htodo Hasked.
  edestruct (ofold_ind
    (λ F st, if todo F then InsertYields recursive_yields (S (length (functions M0)))
                              yieldF atomic (fun_ptr F) st else Ret st)
    (λ rest st, yinv st ∧ grown ∅ st.2 ∧
       ∀ F, F ∈ functions M0 → asked F → F ∉ rest → fun_name F ∈ st.2 ∪ atomic)
    (functions M0) (M0, ∅)) as (st&Est&Hi&Hg&Hdone).
  { split; [|split; [apply grown_refl|by intros]].
    split; simpl; [|done|set_solver]. apply Forall2_same_length_lookup. split; [done|].
    intros k F F' HF HF'. unfold touched. rewrite decide_False by set_solver. congruence. }
  { intros F rest st [l0 El] (Hi&Hg&Hd).
    assert (HF : F ∈ functions M0) by (rewrite El; set_solver).
    destruct (todo F) eqn:ET.
    - destruct (Htodo F HF ET) as [HA Hdef].
      destruct (InsertYields_total (S (length (functions M0))) F st) as (st'&E'&Hi'&Hg'&HFin);
        [done|done|..].
      + intros Hn. split; [auto|]. by apply wanted_root.
      + pose proof (size_names M0).
        assert (size (names M0 ∖ st.2) ≤ size (names M0)) by (apply subseteq_size; set_solver). lia.
      + exists st'. split; [done|]. split; [done|]. split; [by eapply grown_trans|].
        intros G HG HGa Hn. destruct (decide (G = F)) as [->|Hne]; [done|].
        assert (fun_name G ∈ st.2 ∪ atomic) by (apply Hd; [done..|set_solver]).
        destruct Hg' as [Hsub _]. set_solver.
    - exists st. split; [done|]. split; [done|]. split; [done|].
      intros G HG HGa Hn. apply Hd; [done..|]. intros [->|?]%elem_of_cons; [|done].
      rewrite Hasked in ET; done. }
  exists st. split; [done|]. split; [done|]. destruct Hg as [_ Hcl].
  assert (H : ∀ G, wanted G → G ∈ functions M0 ∧ fun_name G ∈ st.2).
  { intros G HG. induction HG as [F HF HA Hn|F G Hrec HF [HFm IH] HFG Hn].
    - split; [done|]. specialize (Hdone F HF HA (not_elem_of_nil F)). set_solver.
    - assert (HGm : G ∈ functions M0).
      { destruct HFG as (i&_&E). by apply defined_callee_elem in E as [? _]. }
      split; [done|].
      assert (fun_name G ∈ st.2 ∪ atomic) by (apply (Hcl F); [done..|set_solver|done|done]).
      set_solver. }
  intros G HG. by apply H.
Qed.
End Insert.

(** ** The pass *)

(** A function reachable from one annotated [ltest_atomic]. *)
Definition atomic_fun (M : Module_) (index : FunIndex) : Function → Prop :=
  from_root M (λ A, A ∈ functions M ∧ IsAtomic (fun_name A) index = true).

(** The functions the pass has to make interruptible: the annotated ones and,
    when yields are inserted recursively, what they call, unless atomic. *)
Inductive interruptible (external_launch recursive_yields : bool) (M : Module_) (index : FunIndex)
  : Function → Prop :=
  | interruptible_annotated F :
      F ∈ functions M → IsNonAtomic external_launch (fun_name F) index = true →
      ¬ atomic_fun M index F → interruptible external_launch recursive_yields M index F
  | interruptible_called F G :
      recursive_yields = true → interruptible external_launch recursive_yields M index F →
      calls M F G → ¬ atomic_fun M index G →
      interruptible external_launch recursive_yields M index G.

Lemma getOrInsertFunction_wf name n M M1 p :
  module_wf M → getOrInsertFunction name n M = (M1, p) →
  module_wf M1 ∧ (∃ Y, getFunction M1 p = Some Y ∧ fun_name Y = name) ∧
  globals M1 = globals M ∧ ∀ F, F ∈ functions M1 → F ∈ functions M ∨ F = declare p name n.
Proof.
  intros Hwf. unfold getOrInsertFunction. destruct (getNamed M name) as [F|] eqn:E; intros [= <- <-].
  { apply getNamed_elem in E as [HF En]. split; [done|]. split; [|auto].
    exists F. split; [|done]. apply getFunction_unique; [apply Hwf|done]. }
  assert (Hptr : ∀ F, F ∈ functions M → fun_ptr F ≠ next_ptr M)
    by (intros F HF EF; pose proof (wf_next _ Hwf F HF); lia).
  assert (Hnd : NoDup (fun_ptr <$> functions M ++ [declare (next_ptr M) name n])).
  { rewrite fmap_app. apply NoDup_app. split; [apply Hwf|]. split; [|apply NoDup_singleton].
    intros q (F&->&HF)%list_elem_of_fmap [EF| ?%not_elem_of_nil]%elem_of_cons; [|done].
    by apply (Hptr F). }
  split; [split; simpl; [done|..]|].
  - rewrite fmap_app. apply NoDup_app. split; [apply Hwf|]. split; [|apply NoDup_singleton].
    intros q (F&->&HF)%list_elem_of_fmap [EF| ?%not_elem_of_nil]%elem_of_cons; [|done].
    by apply (getNamed_None M name F E HF).
  - intros F [HF|[->| ?%not_elem_of_nil]%elem_of_cons]%elem_of_app; simpl; [|lia|done].
    pose proof (wf_next _ Hwf F HF). lia.
  - intros F i q [HF|[->| ?%not_elem_of_nil]%elem_of_cons]%elem_of_app Hi Hq; [|by apply not_elem_of_nil in Hi|done].
    destruct (wf_callees _ Hwf F i q HF Hi Hq) as [G HG]. exists G.
    apply getFunction_elem in HG as [HG <-].
    apply (getFunction_unique (mkModule _ _ _)); [done|]. simpl. set_solver.
  - intros F b [HF|[->| ?%not_elem_of_nil]%elem_of_cons]%elem_of_app Hb; [|by apply not_elem_of_nil in Hb|done].
    by apply (wf_blocks _ Hwf F).
  - split; [|split; [done|simpl; set_solver]].
    exists (declare (next_ptr M) name n). split; [|done].
    apply (getFunction_unique (mkModule _ _ _) (declare (next_ptr M) name n)); [done|].
    simpl. set_solver.
Qed.

Lemma getOrInsertFunction_keep name n M M1 p q F :
  module_wf M → getOrInsertFunction name n M = (M1, p) →
  getFunction M q = Some F → getFunction M1 q = Some F.
Proof.
  intros Hwf E HF. destruct (getOrInsertFunction_wf _ _ _ _ _ Hwf E) as (Hwf1&_).
  apply getFunction_elem in HF as [HF <-]. apply getFunction_unique; [apply Hwf1|].
  unfold getOrInsertFunction in E. destruct (getNamed M name); injection E as <- <-; [done|].
  simpl. set_solver.
Qed.

(** C10. The yield pass returns on every well-formed module whose annotated
    functions have a body, and changes a function exactly when it has to be
    made interruptible (annotated [ltest_nonatomic], or called from such a
    function when yields are inserted recursively, and not reachable from a
    function annotated [ltest_atomic]): in every block of it each load, store,
    atomic instruction and call of an atomic wrapper that is not the last
    instruction is followed by a call of [CoroYield], and nothing but such
    calls was added. *)
Theorem yield_pass_correct external_launch recursive_yields M index M1 yieldF :
  module_wf M → CreateFunIndex M = Ret index →
  getOrInsertFunction "CoroYield" 0 M = (M1, yieldF) →
  (∀ F, F ∈ functions M → fun_name F = "CoroYield" → isDeclaration F = true) →
  (∀ F, F ∈ functions M1 → IsNonAtomic external_launch (fun_name F) index = true →
        atomic_fun M1 index F ∨ isDeclaration F = false) →
  ∃ M', YieldInsertPass external_launch recursive_yields M = Ret M' ∧ globals M' = globals M ∧
    Forall2 (λ F F',
      (interruptible external_launch recursive_yields M1 index F ∧
       ∃ bs, F' = with_blocks F bs ∧
         Forall2 (instrumented (NeedInterrupt M1) (ItsYieldInst M1 yieldF)) (blocks F) bs) ∨
      (¬ interruptible external_launch recursive_yields M1 index F ∧ F' = F))
      (functions M1) (functions M').
Proof.
  intros Hwf Hindex HM1 Hdecl Hann.
  destruct (getOrInsertFunction_wf _ _ _ _ _ Hwf HM1) as (Hwf1&(Y&HY&HYn)&Hglob&Hfuns).
  assert (HYd : isDeclaration Y = true).
  { apply getFunction_elem in HY as [HYm _]. destruct (Hfuns Y HYm) as [?|E]; [auto|by rewrite E]. }
  unfold YieldInsertPass. rewrite Hindex. cbn [mbind outcome_bind]. rewrite HM1. unfold Run.
  destruct (collect_all M1 index Hwf1) as (atomic&Ea&Hatomic). rewrite Ea. cbn [mbind outcome_bind].
  set (asked := λ F, IsNonAtomic external_launch (fun_name F) index = true).
  destruct (insert_all recursive_yields M1 Hwf1 yieldF Y HY HYn HYd atomic asked
    (λ F, IsNonAtomic external_launch (fun_name F) index)) as (st&Est&[Hf Hg Hw]&Hall).
  { intros F HF HT. split; [done|]. intros Hn. destruct (Hann F HF HT) as [HA|?]; [|done].
    by apply Hatomic in HA. }
  { by intros F HF HA. }
  rewrite Est. cbn [mbind outcome_bind]. exists st.1. split; [done|]. split; [congruence|].
  assert (Heq : ∀ F, F ∈ functions M1 →
    fun_name F ∈ st.2 ↔ interruptible external_launch recursive_yields M1 index F).
  { intros F HF. split.
    - intros Hin. specialize (Hw F HF Hin). clear -Hw Hatomic.
      assert (H : F ∈ functions M1 ∧ interruptible external_launch recursive_yields M1 index F); [|apply H].
      induction Hw as [F HF HA Hn|F G Hrec HF [HFm IH] HFG Hn].
      + split; [done|]. apply interruptible_annotated; [done..|]. by rewrite <-(Hatomic F).
      + assert (HG : G ∈ functions M1).
        { destruct HFG as (i&_&E). by apply defined_callee_elem in E as [? _]. }
        split; [done|]. eapply interruptible_called; [done..|]. by rewrite <-(Hatomic G).
    - intros HI. apply Hall. clear -HI Hatomic.
      induction HI as [F HF HA Hn|F G Hrec HF IH HFG Hn].
      + apply wanted_root; [done..|]. by rewrite Hatomic.
      + eapply wanted_call; [done..|]. rewrite Hatomic; [done|].
        destruct HFG as (i&_&E). by apply defined_callee_elem in E as [? _]. }
  apply Forall2_same_length_lookup in Hf as [Hlen Hf].
  apply Forall2_same_length_lookup. split; [done|]. intros k F F' HF HF'.
  specialize (Hf k F F' HF HF'). apply list_elem_of_lookup_2 in HF.
  unfold touched in Hf. rewrite <-(Heq F) by done. case_decide; [left|right]; auto.
Qed.

(** ** The mode of an external launch *)
Lemma insert_blocks_length M y n bs r : insert_blocks M y n bs = Ret r → length r.1 = length bs.
Proof.
  revert n r. induction bs as [|b bs IH]; intros n r E; simpl in E; [by simplify_eq|].
  outcome_inv E. simplify_eq. simpl. f_equal. eauto.
Qed.

Lemma set_blocks_shape M F bs n :
  NoDup (fun_ptr <$> functions M) → getFunction M (fun_ptr F) = Some F → length bs = length (blocks F) →
  same_shape M (set_next n (set_blocks (fun_ptr F) bs M)).
Proof.
  intros Hnd HF Hlen. unfold same_shape. simpl. rewrite <-list_fmap_compose.
  apply list_fmap_ext. intros k G HG. apply list_elem_of_lookup_2 in HG. unfold compose.
  case_decide as E; [|done]. apply (getFunction_unique M G Hnd) in HG. rewrite E in HG.
  assert (G = F) as -> by congruence. unfold shape, isDeclaration. simpl.
  by destruct bs, (blocks F).
Qed.

(** A declared function never becomes visited, and stays declared. *)
Lemma InsertYields_declared rec M1 Y fuel y atomic ptr st st' :
  NoDup (fun_ptr <$> functions M1) → NoDup (fun_name <$> functions M1) →
  Y ∈ functions M1 → isDeclaration Y = true →
  same_shape M1 st.1 ∧ fun_name Y ∉ st.2 →
  InsertYields rec fuel y atomic ptr st = Ret st' →
  same_shape M1 st'.1 ∧ fun_name Y ∉ st'.2.
Proof.
  intros Hp Hn HY HYd. revert ptr st st'. induction fuel as [|fuel IH]; intros ptr [M v] st' [Hs Hv] E; [done|].
  simpl in E. outcome_inv E. rename a into F. case_decide; [by simplify_eq|].
  destruct (isDeclaration F) eqn:Hd; [done|]. outcome_inv E. rename a into r.
  pose proof (insert_blocks_length _ _ _ _ _ H1) as Hlen.
  simpl in Hs, Hv. assert (ptr = fun_ptr F) as -> by (by apply getFunction_elem in H as [_ <-]).
  assert (Hs1 : same_shape M1 (set_next r.2 (set_blocks (fun_ptr F) r.1 M))).
  { unfold same_shape in *. rewrite Hs. apply set_blocks_shape; [|done|done].
    rewrite <-(shape_ptrs M1 M Hs). done. }
  assert (HFY : fun_name F ≠ fun_name Y).
  { intros En. pose proof (getFunction_shape M1 M (fun_ptr F) Hs) as E'. rewrite H in E'.
    destruct (getFunction M1 (fun_ptr F)) as [F1|] eqn:E1; simpl in E'; [|done].
    apply getFunction_elem in E1 as [HF1 _].
    assert (F1 = Y) as ->; [|unfold shape in E'; congruence].
    apply (same_name M1); [done..|]. unfold shape in E'. congruence. }
  destruct rec; [|simplify_eq/=; split; [done|set_solver]].
  eapply (ofold_inv _ (λ st, same_shape M1 st.1 ∧ fun_name Y ∉ st.2)); [| |exact E];
    [|simpl; split; [done|set_solver]].
  intros i st2 st3 HP E'. cbn beta in E'. destruct (defined_callee st2.1 i); [exact (IH _ _ _ HP E')|].
  injection E' as <-. exact HP.
Qed.

(** Every function is asked for, also the declaration of [CoroYield] that the
    pass itself adds: the first block of a function that has none is read. *)
Lemma external_launch_undefined recursive_yields M index M1 yieldF M' :
  module_wf M → CreateFunIndex M = Ret index →
  getOrInsertFunction "CoroYield" 0 M = (M1, yieldF) →
  (∀ F, F ∈ functions M → fun_name F = "CoroYield" → isDeclaration F = true) →
  (∀ F, F ∈ functions M1 → fun_name F = "CoroYield" → ¬ atomic_fun M1 index F) →
  YieldInsertPass true recursive_yields M ≠ Ret M'.
Proof.
  intros Hwf Hindex HM1 Hdecl Hna.
  destruct (getOrInsertFunction_wf _ _ _ _ _ Hwf HM1) as (Hwf1&(Y&HY&HYn)&Hglob&Hfuns).
  assert (HYm : Y ∈ functions M1) by (by apply getFunction_elem in HY as [? _]).
  assert (HYd : isDeclaration Y = true) by (destruct (Hfuns Y HYm) as [?|E]; [auto|by rewrite E]).
  unfold YieldInsertPass. rewrite Hindex. cbn [mbind outcome_bind]. rewrite HM1. unfold Run.
  destruct (collect_all M1 index Hwf1) as (atomic&Ea&Hatomic). rewrite Ea. cbn [mbind outcome_bind].
  intros E. apply outcome_bind_ret in E as (st&E&_).
  apply list_elem_of_split in HYm as HYs. destruct HYs as (l1&l2&El). rewrite El in E.
  rewrite ofold_app in E. apply outcome_bind_ret in E as (st1&E1&E2).
  apply (ofold_inv _ (λ st, same_shape M1 st.1 ∧ fun_name Y ∉ st.2)) in E1 as [Hs Hv].
  2: { intros F a a' HP E. cbn [IsNonAtomic] in E. eapply InsertYields_declared in E; [done|apply Hwf1|apply Hwf1|done..]. }
  2: { split; [done|set_solver]. }
  cbn [ofold IsNonAtomic] in E2. apply outcome_bind_ret in E2 as (st2&E2&_).
  destruct st1 as [Ms v]. cbn [InsertYields] in E2. simpl in Hs, Hv.
  pose proof (getFunction_shape M1 Ms (fun_ptr Y) Hs) as E'.
  rewrite (getFunction_unique M1 Y) in E' by (done || apply Hwf1).
  destruct (getFunction Ms (fun_ptr Y)) as [F|]; simpl in E'; [|done]. unfold shape in E'.
  cbn [deref mbind outcome_bind] in E2.
  rewrite decide_False in E2.
  - replace (isDeclaration F) with true in E2 by congruence. done.
  - replace (fun_name F) with (fun_name Y) by congruence. intros [?|HA]; [done|].
    apply Hatomic in HA; [|done]. by apply (Hna Y).
Qed.
