(* ===== verification/CoYieldPass.v ===== *)
(** * The pass that reports the coroutines of the code under test

    src/codegen/coyieldpass.cpp: calls of [CoroutineStatusChange] are inserted
    before and after the calls that a list of filters selects. The loop over
    a function runs over the blocks it inserts into, so its position is part
    of the state: block [cs_b], instruction [cs_i]. The demangler is a
    parameter. The configuration file is read by LLVM's YAML parser; the pass
    is modelled from the list of filters on. *)
From stdpp Require Import base list strings gmap.
From S2P Require Import Prelude Ir YieldPass.

Definition costatus_change : string := "CoroutineStatusChange".
Definition co_expr_start : string := "::await_ready".
Definition co_expr_end : string := "::await_resume".
Definition co_initial_suspend : string := "::initial_suspend()".
Definition co_final_suspend : string := "::final_suspend()".

Record CoroutineFilter : Type := mkFilter {
  parent_name : option string;
  co_name : option string;
  print_name : string
}.

(** ** The position of the loop, and insertion *)
Record CState : Type := mkCState {
  cs_blocks : list (list Instruction);
  cs_globals : list GlobalVariable;
  cs_next : nat;
  cs_b : nat;
  cs_i : nat;
  cs_skip : Z   (** [skip_insert_points] *)
}.

Definition insert_at {A} (k : nat) (x : A) (l : list A) : list A := take k l ++ x :: drop k l.

(** [builder.CreateCall(coroYieldF, {ptr, llvm_start})]. *)
Definition status_call (coroYieldF id : nat) (filt : CoroutineFilter) (start : bool) : Instruction :=
  mkInst id (CallInst (Some coroYieldF)) [VConst (ConstString (print_name filt)); VConst (ConstInt (if start then 1 else 0))].

(** [InsertCall] with the builder before instruction [k] of block [b]; an
    insertion before the current instruction moves it one position on. *)
Definition InsertCall (coroYieldF : nat) (filt : CoroutineFilter) (b k : nat) (start : bool)
    (st : CState) : outcome CState :=
  l ← deref (cs_blocks st !! b);
  _ ← deref (l !! k);
  Ret (mkCState
    (<[b := insert_at k (status_call coroYieldF (cs_next st) filt start) l]> (cs_blocks st))
    (cs_globals st ++ [mkGlobal "" "" false true false (Some (ConstString (print_name filt)))])
    (S (cs_next st))
    (cs_b st)
    (if decide (b = cs_b st ∧ k ≤ cs_i st) then S (cs_i st) else cs_i st)
    (cs_skip st)).

Definition set_skip (z : Z) (st : CState) : CState :=
  mkCState (cs_blocks st) (cs_globals st) (cs_next st) (cs_b st) (cs_i st) z.

(** [BasicBlock::getFirstInsertionPt]: after the PHI nodes and the pad. *)
Fixpoint getFirstInsertionPt (l : list Instruction) : nat :=
  match l with
  | i :: l' =>
      match opcode i with
      | PHINode => S (getFirstInsertionPt l')
      | LandingPadInst => 1
      | _ => 0
      end
  | [] => 0
  end.

(** [res_filt.front()]: the first filter of the list that matches. *)
Definition matching (filt : list CoroutineFilter) (name : string) : option CoroutineFilter :=
  head (filter (λ a, co_name a = None ∨ co_name a = Some name) filt).

Section Pass.
Context (demangle : string → string).

Definition applicable (co_filter : list CoroutineFilter) (f : Function) : list CoroutineFilter :=
  filter (λ a, parent_name a = None ∨ parent_name a = Some (demangle (fun_name f))) co_filter.

Definition InsertCallWithFilter (coroYieldF : nat) (filt : list CoroutineFilter) (name : string)
    (b k : nat) (start : bool) (end_pos : nat) (st : CState) : outcome CState :=
  match matching filt (String.substring 0 end_pos name) with
  | None => Ret st
  | Some a => InsertCall coroYieldF a b k start st
  end.

(** [InsertCallWithFilter] after [SetInsertPoint(call->getNextNode())]. *)
Definition insert_after (coroYieldF : nat) (filt : list CoroutineFilter) (name : string)
    (end_pos : nat) (st : CState) : outcome CState :=
  l ← deref (cs_blocks st !! cs_b st);
  _ ← deref (l !! S (cs_i st));
  InsertCallWithFilter coroYieldF filt name (cs_b st) (S (cs_i st)) false end_pos st.

Definition insert_before (coroYieldF : nat) (filt : list CoroutineFilter) (name : string)
    (end_pos : nat) (st : CState) : outcome CState :=
  InsertCallWithFilter coroYieldF filt name (cs_b st) (cs_i st) true end_pos st.

(** The call [i] of a selected coroutine. *)
Definition bracket (coroYieldF : nat) (a : CoroutineFilter) (i : Instruction) (st : CState)
  : outcome CState :=
  st ← InsertCall coroYieldF a (cs_b st) (cs_i st) true st;
  match opcode i with
  | InvokeInst _ normal unwind =>
      l ← deref (cs_blocks st !! normal);
      st ← InsertCall coroYieldF a normal (getFirstInsertionPt l) false st;
      l ← deref (cs_blocks st !! unwind);
      InsertCall coroYieldF a unwind (getFirstInsertionPt l) false st
  | _ => InsertCall coroYieldF a (cs_b st) (S (cs_i st)) false st
  end.

(** The four markers of a coroutine's suspension points. *)
Definition visit_marker (coroYieldF : nat) (filt : list CoroutineFilter) (name : string)
    (st : CState) : outcome CState :=
  match str_find co_initial_suspend name with
  | Some initial =>
      st ← insert_before coroYieldF filt name initial st; Ret (set_skip 2 st)
  | None =>
  match str_find co_final_suspend name with
  | Some final =>
      st ← insert_after coroYieldF filt name final st; Ret (set_skip 2 st)
  | None =>
  match str_find co_expr_start name with
  | Some start =>
      if (cs_skip st =? 0)%Z then insert_before coroYieldF filt name start st
      else _ ← cassert (cs_skip st =? 2)%Z; Ret (set_skip (cs_skip st - 1) st)
  | None =>
  match str_find co_expr_end name with
  | Some end_pos =>
      if (cs_skip st =? 0)%Z then insert_after coroYieldF filt name end_pos st
      else _ ← cassert (cs_skip st =? 1)%Z; Ret (set_skip (cs_skip st - 1) st)
  | None => Ret st
  end end end end.

(** The body of the loop at instruction [i]; [M] gives the names of the
    callees. *)
Definition visit_inst (M : Module_) (coroYieldF : nat) (filt : list CoroutineFilter)
    (i : Instruction) (st : CState) : outcome CState :=
  match getCalledFunction i ≫= getFunction M with
  | None => Ret st
  | Some c_fn =>
      let name := demangle (fun_name c_fn) in
      match opcode i with
      | CallInst _ =>
          match matching filt name with
          | Some a => bracket coroYieldF a i st
          | None => visit_marker coroYieldF filt name st
          end
      | InvokeInst _ _ _ =>
          match matching filt name with
          | Some a => bracket coroYieldF a i st
          | None => Ret st
          end
      | _ => Ret st
      end
  end.

Definition next_block (st : CState) : CState :=
  mkCState (cs_blocks st) (cs_globals st) (cs_next st) (S (cs_b st)) 0 (cs_skip st).
Definition next_inst (st : CState) : CState :=
  mkCState (cs_blocks st) (cs_globals st) (cs_next st) (cs_b st) (S (cs_i st)) (cs_skip st).

Fixpoint visit (fuel : nat) (M : Module_) (coroYieldF : nat) (filt : list CoroutineFilter)
    (st : CState) : outcome CState :=
  match fuel with
  | O => OutOfFuel
  | S fuel =>
      match cs_blocks st !! cs_b st with
      | None => Ret st
      | Some l =>
          match l !! cs_i st with
          | None => visit fuel M coroYieldF filt (next_block st)
          | Some i =>
              st ← visit_inst M coroYieldF filt i st;
              visit fuel M coroYieldF filt (next_inst st)
          end
      end
  end.

Definition InsertYields (fuel : nat) (coroYieldF : nat) (filt : list CoroutineFilter)
    (f : Function) (M : Module_) : outcome Module_ :=
  if isDeclaration f then UB
  else
    st ← visit fuel M coroYieldF filt (mkCState (blocks f) (globals M) (next_ptr M) 0 0 0);
    let M := set_blocks (fun_ptr f) (cs_blocks st) M in
    Ret (mkModule (functions M) (cs_globals st) (cs_next st)).

Definition Run (fuel : nat) (co_filter : list CoroutineFilter) (coroYieldF : nat) (M : Module_)
  : outcome Module_ :=
  ofold (λ f M,
    match applicable co_filter f with
    | [] => Ret M
    | filt => InsertYields fuel coroYieldF filt f M
    end) (functions M) M.

Definition CoYieldInsertPass (fuel : nat) (co_filter : list CoroutineFilter) (M : Module_)
  : outcome Module_ :=
  let '(M, coroYieldF) := getOrInsertFunction costatus_change 2 M in
  Run fuel co_filter coroYieldF M.
End Pass.

(** * What the coroutine pass does to a function

    The proofs about [CoYieldPass]: when the filters do not select the
    inserted call itself, the loop ends and only status calls are added; when
    one does, it never ends. *)

(** ** Insertion into a list *)
Section InsertAt.
Context {A : Type}.
Implicit Types (l : list A) (x : A).

Lemma length_insert_at k x l : length (insert_at k x l) = S (length l).
Proof. unfold insert_at. rewrite length_app, length_take. simpl. rewrite length_drop. lia. Qed.

Lemma lookup_insert_at_lt k x l j : j < k → k ≤ length l → insert_at k x l !! j = l !! j.
Proof.
  intros Hj Hk. unfold insert_at. rewrite lookup_app_l by (rewrite length_take; lia).
  by rewrite lookup_take_lt.
Qed.

Lemma lookup_insert_at_eq k x l : k ≤ length l → insert_at k x l !! k = Some x.
Proof.
  intros Hk. unfold insert_at. rewrite lookup_app_r by (rewrite length_take; lia).
  by rewrite length_take, Nat.min_l, Nat.sub_diag.
Qed.

Lemma lookup_insert_at_ge k x l j : k ≤ j → k ≤ length l → insert_at k x l !! S j = l !! j.
Proof.
  intros Hj Hk. unfold insert_at. rewrite lookup_app_r by (rewrite length_take; lia).
  rewrite length_take, Nat.min_l by done. replace (S j - k) with (S (j - k)) by lia. simpl.
  rewrite lookup_drop. f_equal. lia.
Qed.

Lemma drop_insert_at_le k x l i : k ≤ i → k ≤ length l → drop (S i) (insert_at k x l) = drop i l.
Proof.
  intros Hi Hk. apply list_eq. intros j. rewrite !lookup_drop.
  replace (S i + j) with (S (i + j)) by lia. apply lookup_insert_at_ge; lia.
Qed.

Lemma drop_insert_at_gt k x l i :
  i < k → k ≤ length l → drop i (insert_at k x l) = insert_at (k - i) x (drop i l).
Proof.
  intros Hi Hk. unfold insert_at. rewrite drop_app_le by (rewrite length_take; lia).
  rewrite take_drop_commute, drop_drop. replace (i + (k - i)) with k by lia. done.
Qed.

Lemma filter_insert_at (P : A → Prop) `{!∀ x, Decision (P x)} k x l :
  ¬ P x → filter P (insert_at k x l) = filter P l.
Proof.
  intros Hx. unfold insert_at. rewrite filter_app, filter_cons_False by done.
  by rewrite <-filter_app, take_drop.
Qed.

Lemma list_insert_middle l1 l2 x z : <[length l1 := x]> (l1 ++ z :: l2) = l1 ++ x :: l2.
Proof. induction l1 as [|w l1 IH]; simpl; [done|]. by rewrite IH. Qed.

Lemma elem_of_insert_at k x l y : y ∈ insert_at k x l → y = x ∨ y ∈ l.
Proof.
  unfold insert_at. intros [Hy|[->|Hy]%elem_of_cons]%elem_of_app; [right|auto|right];
    rewrite <-(take_drop k l); set_solver.
Qed.
End InsertAt.

(** ** The state of the loop *)
Definition is_status (y : nat) (i : Instruction) : Prop := opcode i = CallInst (Some y).
#[export] Instance is_status_dec y i : Decision (is_status y i).
Proof. unfold is_status. apply _. Defined.

Definition erase (y : nat) (bs : list (list Instruction)) : list (list Instruction) :=
  filter (λ i, ¬ is_status y i) <$> bs.

(** The loop is at instruction [i]. *)
Definition at_inst (st : CState) (i : Instruction) : Prop :=
  ∃ l, cs_blocks st !! cs_b st = Some l ∧ l !! cs_i st = Some i.

(** What the verifier guarantees of the blocks: a call is not the last
    instruction, a block has a point of insertion, an [invoke] has its two
    destinations. *)
Definition block_ok (l : list Instruction) : Prop :=
  (∀ k i c, l !! k = Some i → opcode i = CallInst c → S k < length l) ∧
  getFirstInsertionPt l < length l.

Definition body_ok (bs : list (list Instruction)) : Prop :=
  ∀ l, l ∈ bs → block_ok l ∧
    ∀ i c normal unwind, i ∈ l → opcode i = InvokeInst c normal unwind →
      normal < length bs ∧ unwind < length bs.

(** The work left: an instruction of the program can add three calls. *)
Definition weight (y : nat) (i : Instruction) : nat := if decide (is_status y i) then 1 else 4.
Definition weights (y : nat) (l : list Instruction) : nat := sum_list_with (weight y) l.
Definition remaining (y : nat) (st : CState) : nat :=
  match drop (cs_b st) (cs_blocks st) with
  | [] => 0
  | l :: ls => S (weights y (drop (cs_i st) l)) + sum_list_with (λ l, S (weights y l)) ls
  end.

Lemma weights_app y l l' : weights y (l ++ l') = weights y l + weights y l'.
Proof. apply sum_list_with_app. Qed.

Lemma weights_insert_at y k x l : weights y (insert_at k x l) = weights y l + weight y x.
Proof.
  unfold insert_at. rewrite weights_app. rewrite <-(take_drop k l) at 3. rewrite weights_app.
  simpl. lia.
Qed.

Lemma getFirstInsertionPt_insert_at k x l c :
  opcode x = CallInst c → k < length l → getFirstInsertionPt l < length l →
  getFirstInsertionPt (insert_at k x l) < S (length l).
Proof.
  intros Hx. revert k. induction l as [|i l IH]; intros k Hk; [simpl in Hk; lia|].
  destruct k as [|k]; [intros _; simpl; rewrite Hx; lia|].
  change (insert_at (S k) x (i :: l)) with (i :: insert_at k x l). simpl in *.
  destruct (opcode i); try lia. intros Hpt. apply -> Nat.succ_lt_mono. apply IH; lia.
Qed.

Lemma block_ok_insert_at k x l c :
  opcode x = CallInst c → k < length l → block_ok l → block_ok (insert_at k x l).
Proof.
  intros Hx Hk [Hcall Hpt]. split.
  - intros j i c' Hj Hi. rewrite length_insert_at.
    destruct (lt_eq_lt_dec j k) as [[Hlt| ->]|Hgt]; [|lia|].
    + rewrite lookup_insert_at_lt in Hj by lia. lia.
    + destruct j as [|j]; [lia|]. rewrite lookup_insert_at_ge in Hj by lia.
      specialize (Hcall j i c' Hj Hi). lia.
  - rewrite length_insert_at. by eapply getFirstInsertionPt_insert_at.
Qed.

(** ** One insertion *)
Record cstep (y n : nat) (st st' : CState) : Prop := {
  cs_erase : erase y (cs_blocks st') = erase y (cs_blocks st);
  cs_ok : body_ok (cs_blocks st) → body_ok (cs_blocks st');
  cs_len : length (cs_blocks st') = length (cs_blocks st);
  cs_rem : remaining y st' ≤ remaining y st + n;
  cs_at : ∀ i, at_inst st i → at_inst st' i
}.

Lemma cstep_refl y st : cstep y 0 st st.
Proof. split; auto; lia. Qed.

Lemma cstep_trans y n m st st' st'' : cstep y n st st' → cstep y m st' st'' → cstep y (n + m) st st''.
Proof. intros [A1 A2 A3 A4 A5] [B1 B2 B3 B4 B5]. split; [congruence|auto|congruence|lia|auto]. Qed.

Lemma cstep_skip y n st st' z : cstep y n st st' → cstep y n st (set_skip z st').
Proof. intros [A1 A2 A3 A4 A5]. split; done. Qed.

Lemma cstep_le y n m st st' : n ≤ m → cstep y n st st' → cstep y m st st'.
Proof. intros ? [A1 A2 A3 A4 A5]. split; try done. lia. Qed.

Lemma InsertCall_total y a b k start st l :
  cs_blocks st !! b = Some l → k < length l →
  ∃ st', InsertCall y a b k start st = Ret st' ∧ cstep y 1 st st'.
Proof.
  intros Hb Hk. unfold InsertCall. rewrite Hb. cbn [deref mbind outcome_bind].
  destruct (lookup_lt_is_Some_2 l k Hk) as [i0 Hi0]. rewrite Hi0. cbn [deref mbind outcome_bind].
  eexists. split; [reflexivity|].
  set (x := status_call y (cs_next st) a start). set (l' := insert_at k x l).
  assert (Hx : is_status y x) by done.
  pose proof (lookup_lt_Some _ _ _ Hb) as Hbl.
  split; cbn [cs_blocks cs_b cs_i].
  - unfold erase. rewrite list_fmap_insert. unfold l'. rewrite filter_insert_at by tauto.
    apply list_insert_id. by rewrite list_lookup_fmap, Hb.
  - intros Hok m Hm. rewrite length_insert.
    assert (Hl : block_ok l ∧ ∀ i c n u, i ∈ l → opcode i = InvokeInst c n u →
      n < length (cs_blocks st) ∧ u < length (cs_blocks st))
      by (apply Hok; by apply list_elem_of_lookup_2 in Hb).
    apply list_elem_of_lookup in Hm as [j Hj].
    destruct (decide (j = b)) as [->|Hne].
    + rewrite list_lookup_insert_eq in Hj by done. injection Hj as <-. destruct Hl as [Hl Hinv].
      split; [by eapply (block_ok_insert_at _ _ _ (Some y))|].
      intros i c n u [->|Hi]%elem_of_insert_at Hop; [done|eauto].
    + rewrite list_lookup_insert_ne in Hj by done. apply Hok. by apply list_elem_of_lookup_2 in Hj.
  - apply length_insert.
  - unfold remaining. cbn [cs_blocks cs_b cs_i].
    assert (Hw : weight y x = 1) by (unfold weight; by rewrite decide_True).
    destruct (lt_eq_lt_dec b (cs_b st)) as [[Hlt| ->]|Hgt].
    + rewrite decide_False by lia. rewrite drop_insert_lt by done. lia.
    + rewrite (drop_S _ _ _ Hb). rewrite (drop_S _ l') by (by apply list_lookup_insert_eq).
      rewrite drop_insert_lt by lia.
      destruct (decide (k ≤ cs_i st)).
      * rewrite decide_True by done. unfold l'. rewrite drop_insert_at_le by lia. lia.
      * rewrite decide_False by lia. unfold l'. rewrite drop_insert_at_gt by lia.
        rewrite weights_insert_at. lia.
    + rewrite decide_False by lia. rewrite drop_insert_ge by lia.
      assert (Hd : drop (cs_b st) (cs_blocks st) !! (b - cs_b st) = Some l).
      { rewrite lookup_drop, <-Hb. f_equal. lia. }
      destruct (b - cs_b st) as [|d] eqn:Ed; [lia|].
      destruct (drop (cs_b st) (cs_blocks st)) as [|l0 ls]; [done|]. simpl in Hd |- *.
      assert (sum_list_with (λ l, S (weights y l)) (<[d:=l']> ls) =
              S (sum_list_with (λ l, S (weights y l)) ls)) as ->; [|lia].
      clear -Hd Hw. revert d Hd. induction ls as [|l1 ls IH]; intros [|d] Hd; simplify_eq/=.
      * unfold l'. rewrite weights_insert_at. lia.
      * rewrite (IH d Hd). lia.
  - intros i (m&Hm&Hi). unfold at_inst. cbn [cs_blocks cs_b cs_i].
    destruct (decide (b = cs_b st)) as [->|Hne].
    + exists l'. split; [by apply list_lookup_insert_eq|]. assert (m = l) as -> by congruence.
      destruct (decide (k ≤ cs_i st)).
      * rewrite decide_True by done. unfold l'. rewrite lookup_insert_at_ge by lia. done.
      * rewrite decide_False by lia. unfold l'. rewrite lookup_insert_at_lt by lia. done.
    + exists m. rewrite decide_False by tauto. split; [by rewrite list_lookup_insert_ne|done].
Qed.

Section Loop.
Context (demangle : string → string) (M : Module_) (y : nat) (filt : list CoroutineFilter).

(** The inserted call is not itself selected, by a filter or by a marker. *)
Definition quiet : Prop :=
  ∀ Y, getFunction M y = Some Y →
    matching filt (demangle (fun_name Y)) = None ∧
    Forall (λ marker, str_find marker (demangle (fun_name Y)) = None)
      [co_initial_suspend; co_final_suspend; co_expr_start; co_expr_end].

Lemma visit_status i st :
  quiet → is_status y i → visit_inst demangle M y filt i st = Ret st.
Proof.
  intros Hq Hi. unfold visit_inst, getCalledFunction. unfold is_status in Hi. rewrite Hi. simpl.
  destruct (getFunction M y) as [Y|] eqn:EY; [|done].
  destruct (Hq Y EY) as [Hm Hmark]. rewrite Hm. unfold visit_marker.
  rewrite !Forall_cons in Hmark. destruct Hmark as (->&->&->&->&_). done.
Qed.

(** An instruction ends normally, or the marker is out of turn. *)
Definition ends (n : nat) (st : CState) (o : outcome CState) : Prop :=
  (∃ st', o = Ret st' ∧ cstep y n st st') ∨ o = AssertFail.

Lemma ends_insert a b k start st l :
  cs_blocks st !! b = Some l → k < length l → ends 1 st (InsertCall y a b k start st).
Proof. intros Hb Hk. left. by eapply InsertCall_total. Qed.

Lemma ends_bind n m st o f :
  ends n st o → (∀ st', cstep y n st st' → ends m st' (f st')) → ends (n + m) st (o ≫= f).
Proof.
  intros [(st'&->&Hs)| ->] Hf; [|by right]. simpl.
  destruct (Hf st' Hs) as [(st''&E&Hs')|E]; [left|by right].
  exists st''. split; [done|]. by eapply cstep_trans.
Qed.

Lemma ends_le n m st o : n ≤ m → ends n st o → ends m st o.
Proof. intros Hnm [(st'&->&Hs)| ->]; [left|by right]. exists st'. split; [done|]. by eapply cstep_le. Qed.

Lemma ends_ret st : ends 0 st (Ret st).
Proof. left. exists st. split; [done|apply cstep_refl]. Qed.

Lemma ends_here a start st i :
  at_inst st i → ends 1 st (InsertCall y a (cs_b st) (cs_i st) start st).
Proof. intros (l&Hl&Hi). eapply ends_insert; [done|]. by apply lookup_lt_Some in Hi. Qed.

Lemma at_call_next st i c :
  at_inst st i → opcode i = CallInst c → body_ok (cs_blocks st) →
  ∃ l, cs_blocks st !! cs_b st = Some l ∧ S (cs_i st) < length l.
Proof.
  intros (l&Hl&Hi) Hc Hok. exists l. split; [done|].
  apply list_elem_of_lookup_2 in Hl. destruct (Hok l Hl) as [[Hcall _] _]. eauto.
Qed.

Lemma ends_next a start st i c :
  at_inst st i → opcode i = CallInst c → body_ok (cs_blocks st) →
  ends 1 st (InsertCall y a (cs_b st) (S (cs_i st)) start st).
Proof. intros Hat Hc Hok. destruct (at_call_next st i c) as (l&Hl&Hlen); eauto using ends_insert. Qed.

Lemma ends_dest a st b start :
  body_ok (cs_blocks st) → b < length (cs_blocks st) →
  ends 1 st (l ← deref (cs_blocks st !! b); InsertCall y a b (getFirstInsertionPt l) start st).
Proof.
  intros Hok Hb. destruct (lookup_lt_is_Some_2 _ _ Hb) as [l Hl]. rewrite Hl. simpl.
  eapply ends_insert; [done|]. apply list_elem_of_lookup_2 in Hl. by destruct (Hok l Hl) as [[_ ?] _].
Qed.

Lemma ends_bracket a st i :
  at_inst st i → body_ok (cs_blocks st) → (∃ c, opcode i = CallInst c) ∨ (∃ c n u, opcode i = InvokeInst c n u) →
  ends 3 st (bracket y a i st).
Proof.
  intros Hat Hok Hi. unfold bracket. apply (ends_bind 1 2); [by eapply ends_here|].
  intros st1 Hs1. pose proof (cs_at _ _ _ _ Hs1 i Hat) as Hat1. pose proof (cs_ok _ _ _ _ Hs1 Hok) as Hok1.
  destruct Hi as [[c Hc]|(c&n&u&Hc)]; rewrite Hc.
  { apply (ends_le 1); [lia|]. by eapply ends_next. }
  destruct Hat1 as (l1&Hl1&Hi1). apply list_elem_of_lookup_2 in Hl1, Hi1.
  destruct (Hok1 l1 Hl1) as [_ Hinv]. destruct (Hinv i c n u Hi1 Hc) as [Hn Hu].
  pose proof (ends_dest a st1 n false Hok1 Hn) as Hd.
  destruct (cs_blocks st1 !! n) as [ln|]; [|by destruct Hd as [(?&?&?)|?]].
  cbn [deref mbind outcome_bind] in Hd |- *. apply (ends_bind 1 1); [exact Hd|].
  intros st2 Hs2. apply ends_dest; [by apply Hs2|]. by rewrite (cs_len _ _ _ _ Hs2).
Qed.

Lemma ends_skip n st o z : ends n st o → ends n st (st' ← o; Ret (set_skip z st')).
Proof.
  intros [(st'&->&Hs)| ->]; [left|by right]. eexists. split; [done|]. by apply cstep_skip.
Qed.

Lemma ends_marker name st i c :
  at_inst st i → opcode i = CallInst c → body_ok (cs_blocks st) →
  ends 1 st (visit_marker y filt name st).
Proof.
  intros Hat Hc Hok.
  assert (Hbefore : ∀ p, ends 1 st (insert_before y filt name p st)).
  { intros p. unfold insert_before, InsertCallWithFilter. destruct (matching _ _).
    - by eapply ends_here.
    - apply (ends_le 0), ends_ret. lia. }
  assert (Hafter : ∀ p, ends 1 st (insert_after y filt name p st)).
  { intros p. unfold insert_after, InsertCallWithFilter.
    destruct (at_call_next st i c) as (l&Hl&Hlen); [done..|]. rewrite Hl.
    destruct (lookup_lt_is_Some_2 _ _ Hlen) as [j Hj]. cbn [deref mbind outcome_bind].
    rewrite Hj. cbn [deref mbind outcome_bind]. destruct (matching _ _).
    - by eapply ends_next.
    - apply (ends_le 0), ends_ret. lia. }
  assert (Hskip : ∀ b : bool, ends 1 st (_ ← cassert b; Ret (set_skip (cs_skip st - 1) st))).
  { intros [|]; [|by right]. left. eexists. split; [done|].
    apply cstep_skip, (cstep_le _ 0); [lia|apply cstep_refl]. }
  unfold visit_marker.
  destruct (str_find co_initial_suspend name); [apply ends_skip, Hbefore|].
  destruct (str_find co_final_suspend name); [apply ends_skip, Hafter|].
  destruct (str_find co_expr_start name); [destruct (_ =? 0)%Z; [apply Hbefore|apply Hskip]|].
  destruct (str_find co_expr_end name); [destruct (_ =? 0)%Z; [apply Hafter|apply Hskip]|].
  apply (ends_le 0), ends_ret. lia.
Qed.

Lemma ends_visit_inst i st :
  at_inst st i → body_ok (cs_blocks st) → ends 3 st (visit_inst demangle M y filt i st).
Proof.
  intros Hat Hok. unfold visit_inst.
  destruct (getCalledFunction i ≫= getFunction M) as [F|]; [|apply (ends_le 0), ends_ret; lia].
  destruct (opcode i) eqn:Hop; try (apply (ends_le 0), ends_ret; lia).
  - destruct (matching _ _); [apply ends_bracket; eauto|].
    apply (ends_le 1); [lia|]. by eapply ends_marker.
  - destruct (matching _ _); [apply ends_bracket; eauto 10|]. apply (ends_le 0), ends_ret; lia.
Qed.

Lemma remaining_next_block st l :
  cs_blocks st !! cs_b st = Some l → remaining y (next_block st) < remaining y st.
Proof.
  intros Hl. unfold remaining. simpl. rewrite (drop_S _ _ _ Hl).
  destruct (drop (S (cs_b st)) (cs_blocks st)); simpl; [lia|]. rewrite drop_0. lia.
Qed.

Lemma remaining_next_inst st i :
  at_inst st i → remaining y (next_inst st) + weight y i = remaining y st.
Proof.
  intros (l&Hl&Hi). unfold remaining. simpl. rewrite (drop_S _ _ _ Hl), (drop_S _ _ _ Hi). simpl.
  unfold weights. simpl. lia.
Qed.

(** The loop ends: with the original blocks and nothing but status calls
    added, or at a marker that is out of turn. *)
Lemma visit_total fuel st :
  quiet → body_ok (cs_blocks st) → remaining y st < fuel →
  (∃ st', visit demangle fuel M y filt st = Ret st' ∧
     erase y (cs_blocks st') = erase y (cs_blocks st)) ∨
  visit demangle fuel M y filt st = AssertFail.
Proof.
  intros Hq. revert st. induction fuel as [|fuel IH]; intros st Hok Hfuel; [lia|]. cbn [visit].
  destruct (cs_blocks st !! cs_b st) as [l|] eqn:Hl; [|by left; exists st].
  destruct (l !! cs_i st) as [i|] eqn:Hi.
  - assert (Hat : at_inst st i) by (by exists l).
    pose proof (remaining_next_inst st i Hat) as Hr.
    destruct (decide (is_status y i)) as [Hs|Hs]; unfold weight in Hr.
    + rewrite visit_status by done. cbn [mbind outcome_bind]. rewrite decide_True in Hr by done.
      apply (IH (next_inst st)); [done|lia].
    + rewrite decide_False in Hr by done.
      destruct (ends_visit_inst i st Hat Hok) as [(st1&->&[C1 C2 C3 C4 C5])| ->]; [|by right].
      cbn [mbind outcome_bind]. pose proof (remaining_next_inst st1 i (C5 i Hat)) as Hr1.
      unfold weight in Hr1. rewrite decide_False in Hr1 by done.
      destruct (IH (next_inst st1)) as [(st'&E&He)|E]; [auto|lia|left|by right].
      exists st'. split; [done|]. rewrite He. exact C1.
  - pose proof (remaining_next_block st l Hl). apply (IH (next_block st)); [done|lia].
Qed.

(** A filter without the name of a coroutine selects every direct call,
    also the one that was inserted after the last: the loop never ends. *)
Lemma visit_diverges fuel st i c a :
  (∀ name, matching filt name = Some a) → is_Some (getFunction M y) → body_ok (cs_blocks st) →
  at_inst st i → opcode i = CallInst (Some c) → is_Some (getFunction M c) →
  visit demangle fuel M y filt st = OutOfFuel.
Proof.
  intros Hm HY. revert st i c. induction fuel as [|fuel IH]; intros st i c Hok Hat Hop HF; [done|].
  cbn [visit]. destruct Hat as (l&Hl&Hi). rewrite Hl, Hi.
  unfold visit_inst, getCalledFunction. rewrite Hop. simpl. destruct HF as [F HF]. rewrite HF, Hm.
  unfold bracket. rewrite Hop.
  destruct (InsertCall_total y a (cs_b st) (cs_i st) true st l) as (st1&E1&Hs1);
    [done|by apply lookup_lt_Some in Hi|].
  rewrite E1. cbn [mbind outcome_bind].
  pose proof (cs_at _ _ _ _ Hs1 i (ex_intro _ l (conj Hl Hi))) as Hat1.
  pose proof (cs_ok _ _ _ _ Hs1 Hok) as Hok1.
  destruct (at_call_next st1 i (Some c) Hat1 Hop Hok1) as (l1&Hl1&Hlen1).
  destruct (InsertCall_total y a (cs_b st1) (S (cs_i st1)) false st1 l1 Hl1 Hlen1) as (st2&E2&Hs2).
  rewrite E2. cbn [mbind outcome_bind].
  apply (IH _ (status_call y (cs_next st1) a false) y); [by apply Hs2| |done|done].
  revert E2. unfold InsertCall. rewrite Hl1. cbn [deref mbind outcome_bind].
  destruct (lookup_lt_is_Some_2 _ _ Hlen1) as [j Hj]. rewrite Hj. cbn [deref mbind outcome_bind].
  intros [= <-]. unfold at_inst, next_inst. cbn [cs_blocks cs_b cs_i].
  rewrite decide_False by lia. eexists. split.
  - apply list_lookup_insert_eq. by apply lookup_lt_Some in Hl1.
  - apply lookup_insert_at_eq. lia.
Qed.
End Loop.

(** ** The exact result, for a body without selected invokes

    The reference: each call is replaced by itself with a status call before
    it, after it, or both. *)
Record EState : Type := mkEState { e_next : nat; e_globals : list GlobalVariable; e_skip : Z }.

Section Exact.
Context (demangle : string → string) (M : Module_) (y : nat) (filt : list CoroutineFilter).

(** Which filter reports the start before a call of [name], and which the
    end after it. *)
Definition plan (name : string) (skip : Z)
  : outcome (option CoroutineFilter * option CoroutineFilter * Z) :=
  match matching filt name with
  | Some a => Ret (Some a, Some a, skip)
  | None =>
  match str_find co_initial_suspend name with
  | Some p => Ret (matching filt (String.substring 0 p name), None, 2%Z)
  | None =>
  match str_find co_final_suspend name with
  | Some p => Ret (None, matching filt (String.substring 0 p name), 2%Z)
  | None =>
  match str_find co_expr_start name with
  | Some p =>
      if (skip =? 0)%Z then Ret (matching filt (String.substring 0 p name), None, skip)
      else if (skip =? 2)%Z then Ret (None, None, 1%Z) else AssertFail
  | None =>
  match str_find co_expr_end name with
  | Some p =>
      if (skip =? 0)%Z then Ret (None, matching filt (String.substring 0 p name), skip)
      else if (skip =? 1)%Z then Ret (None, None, 0%Z) else AssertFail
  | None => Ret (None, None, skip)
  end end end end end.

Definition emit (oa : option CoroutineFilter) (start : bool) (e : EState)
  : list Instruction * EState :=
  match oa with
  | None => ([], e)
  | Some a =>
      ([status_call y (e_next e) a start],
       mkEState (S (e_next e))
         (e_globals e ++ [mkGlobal "" "" false true false (Some (ConstString (print_name a)))])
         (e_skip e))
  end.

(** The name of the function that a [CallInst] calls directly. *)
Definition direct_call (i : Instruction) : option string :=
  match opcode i with
  | CallInst (Some p) => F ← getFunction M p; Some (demangle (fun_name F))
  | _ => None
  end.

Definition expand_inst (i : Instruction) (e : EState) : outcome (list Instruction * EState) :=
  match direct_call i with
  | None => Ret ([i], e)
  | Some name =>
      p ← plan name (e_skip e);
      let '(before, after, skip) := p in
      let '(s, e) := emit before true e in
      let '(t, e) := emit after false e in
      Ret (s ++ i :: t, mkEState (e_next e) (e_globals e) skip)
  end.

Fixpoint expand_list (l : list Instruction) (e : EState) : outcome (list Instruction * EState) :=
  match l with
  | [] => Ret ([], e)
  | i :: l =>
      r ← expand_inst i e;
      r' ← expand_list l r.2;
      Ret (r.1 ++ r'.1, r'.2)
  end.

Fixpoint expand_blocks (bs : list (list Instruction)) (e : EState)
  : outcome (list (list Instruction) * EState) :=
  match bs with
  | [] => Ret ([], e)
  | l :: bs =>
      r ← expand_list l e;
      r' ← expand_blocks bs r.2;
      Ret (r.1 :: r'.1, r'.2)
  end.

(** The loop at instruction [length done] of the block after [pre]. *)
Definition place (pre : list (list Instruction)) (done todo : list Instruction)
    (post : list (list Instruction)) (e : EState) : CState :=
  mkCState (pre ++ (done ++ todo) :: post) (e_globals e) (e_next e) (length pre) (length done) (e_skip e).

Lemma insert_at_app {A} (l1 l2 : list A) x : insert_at (length l1) x (l1 ++ l2) = l1 ++ x :: l2.
Proof. unfold insert_at. by rewrite take_app_length, drop_app_length. Qed.

Lemma InsertCall_before a start pre dn i rest post e :
  InsertCall y a (length pre) (length dn) start (place pre dn (i :: rest) post e) =
  Ret (place pre (dn ++ (emit (Some a) start e).1) (i :: rest) post (emit (Some a) start e).2).
Proof.
  unfold InsertCall, place. simpl. rewrite list_lookup_middle by done. simpl.
  rewrite list_lookup_middle by done. simpl.
  rewrite insert_at_app, decide_True by (split; lia). rewrite (list_insert_middle pre).
  rewrite length_app. simpl. rewrite <-app_assoc. simpl. do 2 f_equal. lia.
Qed.

Lemma InsertCall_after a start pre dn i j rest post e :
  InsertCall y a (length pre) (S (length dn)) start (place pre dn (i :: j :: rest) post e) =
  Ret (place pre dn (i :: (emit (Some a) start e).1 ++ j :: rest) post (emit (Some a) start e).2).
Proof.
  unfold InsertCall, place. simpl. rewrite list_lookup_middle by done. simpl.
  replace (dn ++ i :: j :: rest) with ((dn ++ [i]) ++ j :: rest) by (by rewrite <-app_assoc).
  replace (S (length dn)) with (length (dn ++ [i])) by (rewrite length_app; simpl; lia).
  rewrite list_lookup_middle by done. simpl.
  rewrite insert_at_app, decide_False by (rewrite length_app; simpl; lia).
  rewrite (list_insert_middle pre). by rewrite <-app_assoc.
Qed.

(** The state after a call that is not the last of its block. *)
Definition expanded pre dn i rest post
    (p : option CoroutineFilter * option CoroutineFilter * Z) (e : EState) : CState :=
  let '(before, after, skip) := p in
  let '(s, e) := emit before true e in
  let '(t, e) := emit after false e in
  place pre (dn ++ s) (i :: t ++ rest) post (mkEState (e_next e) (e_globals e) skip).

Lemma insert_before_place name p pre dn i rest post e :
  insert_before y filt name p (place pre dn (i :: rest) post e) =
  Ret (let '(s, e) := emit (matching filt (String.substring 0 p name)) true e in
       place pre (dn ++ s) (i :: rest) post e).
Proof.
  unfold insert_before, InsertCallWithFilter. cbn [cs_b cs_i place].
  destruct (matching _ _) as [a|]; [apply InsertCall_before|]. simpl. by rewrite app_nil_r.
Qed.

Lemma insert_after_place name p pre dn i j rest post e :
  insert_after y filt name p (place pre dn (i :: j :: rest) post e) =
  Ret (let '(t, e) := emit (matching filt (String.substring 0 p name)) false e in
       place pre dn (i :: t ++ j :: rest) post e).
Proof.
  unfold insert_after, InsertCallWithFilter. cbn [cs_b cs_i place cs_blocks].
  rewrite list_lookup_middle by done. cbn [deref mbind outcome_bind].
  rewrite lookup_app_r by lia. replace (S (length dn) - length dn) with 1 by lia.
  cbn [lookup list_lookup deref mbind outcome_bind].
  destruct (matching _ _) as [a|]; [apply InsertCall_after|done].
Qed.

Lemma place_skip pre dn todo post e z :
  set_skip z (place pre dn todo post e) = place pre dn todo post (mkEState (e_next e) (e_globals e) z).
Proof. done. Qed.

Lemma visit_call_exact i j name pre dn rest post e :
  direct_call i = Some name →
  visit_inst demangle M y filt i (place pre dn (i :: j :: rest) post e) =
  p ← plan name (e_skip e); Ret (expanded pre dn i (j :: rest) post p e).
Proof.
  unfold direct_call, visit_inst, getCalledFunction.
  destruct (opcode i) as [| | | |[p|]|[p|]| | | | |] eqn:Hop; try done. simpl.
  destruct (getFunction M p) as [F|]; [|done]. simpl. intros [= <-].
  set (name := demangle (fun_name F)). unfold plan.
  destruct (matching filt name) as [a|].
  { unfold bracket. rewrite Hop. cbn [cs_b cs_i place]. rewrite InsertCall_before.
    cbn [mbind outcome_bind cs_b cs_i place]. by rewrite InsertCall_after. }
  unfold visit_marker.
  destruct (str_find co_initial_suspend name) as [q|].
  { rewrite insert_before_place. cbn [mbind outcome_bind]. unfold expanded.
    destruct (emit _ true e) as [s e1]. by rewrite place_skip. }
  destruct (str_find co_final_suspend name) as [q|].
  { rewrite insert_after_place. cbn [mbind outcome_bind]. unfold expanded. simpl.
    rewrite app_nil_r. destruct (emit _ false e) as [t e1]. by rewrite place_skip. }
  cbn [cs_skip place].
  destruct (str_find co_expr_start name) as [q|].
  { destruct (e_skip e =? 0)%Z.
    - rewrite insert_before_place. cbn [mbind outcome_bind]. unfold expanded.
      destruct (matching _ _) as [a|]; cbn [emit]; [done|by destruct e].
    - destruct (e_skip e =? 2)%Z eqn:E2; [|done]. cbn [cassert mbind outcome_bind].
      apply Z.eqb_eq in E2. unfold expanded. cbn [emit]. rewrite place_skip, app_nil_r, E2. done. }
  destruct (str_find co_expr_end name) as [q|].
  { destruct (e_skip e =? 0)%Z.
    - rewrite insert_after_place. cbn [mbind outcome_bind]. unfold expanded.
      destruct (matching _ _) as [a|]; cbn [emit]; rewrite app_nil_r; [done|by destruct e].
    - destruct (e_skip e =? 1)%Z eqn:E2; [|done]. cbn [cassert mbind outcome_bind].
      apply Z.eqb_eq in E2. unfold expanded. cbn [emit]. rewrite place_skip, app_nil_r, E2. done. }
  cbn [mbind outcome_bind]. unfold expanded. cbn [emit]. rewrite app_nil_r. by destruct e.
Qed.

Lemma plan_outcome name skip : (∃ p, plan name skip = Ret p) ∨ plan name skip = AssertFail.
Proof. unfold plan. repeat case_match; eauto. Qed.

(** No [invoke] of the list is selected. *)
Definition no_invokes (l : list Instruction) : Prop :=
  ∀ i p n u F, i ∈ l → opcode i = InvokeInst (Some p) n u → getFunction M p = Some F →
    matching filt (demangle (fun_name F)) = None.

Lemma visit_other i st :
  direct_call i = None → no_invokes [i] → visit_inst demangle M y filt i st = Ret st.
Proof.
  unfold direct_call, visit_inst, getCalledFunction. intros Hd Hni.
  destruct (opcode i) as [| | | |[p|]|[p|]| | | | |] eqn:Hop; try done; simpl in *.
  - by destruct (getFunction M p).
  - destruct (getFunction M p) as [F|] eqn:EF; [|done].
    rewrite (Hni i p normal unwind F); [done|by left|done|done].
  - destruct callee as [p|]; simpl; [|done]. by destruct (getFunction M p).
Qed.

(** The loop ends with [o]. *)
Definition runs (st : CState) (o : outcome CState) : Prop :=
  ∃ n, ∀ fuel, n ≤ fuel → visit demangle fuel M y filt st = o.

Lemma runs_inst st i st1 o :
  at_inst st i → visit_inst demangle M y filt i st = Ret st1 → runs (next_inst st1) o → runs st o.
Proof.
  intros (l&Hl&Hi) E [n Hn]. exists (S n). intros [|fuel] Hf; [lia|]. cbn [visit].
  rewrite Hl, Hi, E. cbn [mbind outcome_bind]. apply Hn. lia.
Qed.

Lemma runs_assert st i :
  at_inst st i → visit_inst demangle M y filt i st = AssertFail → runs st AssertFail.
Proof. intros (l&Hl&Hi) E. exists 1. intros [|fuel] Hf; [lia|]. cbn [visit]. by rewrite Hl, Hi, E. Qed.

Lemma runs_block st l o :
  cs_blocks st !! cs_b st = Some l → l !! cs_i st = None → runs (next_block st) o → runs st o.
Proof.
  intros Hl Hi [n Hn]. exists (S n). intros [|fuel] Hf; [lia|]. cbn [visit].
  rewrite Hl, Hi. apply Hn. lia.
Qed.

Lemma at_place pre dn i rest post e : at_inst (place pre dn (i :: rest) post e) i.
Proof.
  exists (dn ++ i :: rest). unfold place. simpl. split; by rewrite list_lookup_middle.
Qed.

Lemma next_place pre dn i rest post e :
  next_inst (place pre dn (i :: rest) post e) = place pre (dn ++ [i]) rest post e.
Proof.
  unfold next_inst, place. simpl. rewrite length_app. simpl. rewrite <-app_assoc. simpl. f_equal. lia.
Qed.

Context (Hquiet : quiet demangle M y filt).

(** Stepping over what was inserted after a call. *)
Lemma runs_emitted oa start e0 pre dn rest post e o :
  runs (place pre (dn ++ (emit oa start e0).1) rest post e) o →
  runs (place pre dn ((emit oa start e0).1 ++ rest) post e) o.
Proof.
  destruct oa as [a|]; simpl; [|by rewrite app_nil_r].
  intros H. eapply runs_inst; [apply at_place|by apply visit_status|]. by rewrite next_place.
Qed.

(** Every [CallInst] of the list has a successor. *)
Definition calls_inside (l : list Instruction) : Prop :=
  ∀ k i c, l !! k = Some i → opcode i = CallInst c → S k < length l.

Lemma runs_expand_list todo pre dn post e o :
  calls_inside todo → no_invokes todo →
  match expand_list todo e with
  | Ret r => runs (place pre (dn ++ r.1) [] post r.2) o → runs (place pre dn todo post e) o
  | AssertFail => runs (place pre dn todo post e) AssertFail
  | _ => False
  end.
Proof.
  revert dn e. induction todo as [|i todo IH]; intros dn e Hc Hn; [simpl; by rewrite app_nil_r|].
  assert (Hc' : calls_inside todo).
  { intros k j c Hk Hj. specialize (Hc (S k) j c Hk Hj). simpl in Hc. lia. }
  assert (Hn' : no_invokes todo) by (intros j p n u F Hj; apply (Hn j); by right).
  assert (Hn1 : no_invokes [i]).
  { intros j p n u F [->| ?%not_elem_of_nil]%elem_of_cons; [|done]. apply (Hn i). by left. }
  cbn [expand_list]. unfold expand_inst.
  destruct (direct_call i) as [name|] eqn:Hd.
  - destruct todo as [|j rest].
    { unfold direct_call in Hd. destruct (opcode i) eqn:Hop; try done.
      specialize (Hc 0 i callee eq_refl Hop). simpl in Hc. lia. }
    pose proof (visit_call_exact i j name pre dn rest post e Hd) as Hv.
    destruct (plan_outcome name (e_skip e)) as [[p Hp]|Hp]; rewrite Hp in Hv |- *.
    + cbn [mbind outcome_bind] in Hv |- *. destruct p as [[before after] skip].
      unfold expanded in Hv. destruct (emit before true e) as [s e1] eqn:Es.
      destruct (emit after false e1) as [t e2] eqn:Et. cbn [mbind outcome_bind fst snd].
      specialize (IH (dn ++ s ++ i :: t) (mkEState (e_next e2) (e_globals e2) skip) Hc' Hn').
      assert (Hstep : ∀ o, runs (place pre (dn ++ s ++ i :: t) (j :: rest) post
                                   (mkEState (e_next e2) (e_globals e2) skip)) o →
                           runs (place pre dn (i :: j :: rest) post e) o).
      { intros o' Ho. eapply runs_inst; [apply at_place|exact Hv|]. rewrite next_place.
        replace t with (emit after false e1).1 in Ho |- * by (by rewrite Et).
        apply runs_emitted. by rewrite <-!app_assoc. }
      destruct (expand_list (j :: rest) _) as [r| | | |]; try done; cbn [mbind outcome_bind fst snd].
      * intros Ho. apply Hstep, IH. rewrite <-!app_assoc in Ho. simpl in Ho.
        rewrite <-!app_assoc. simpl. exact Ho.
      * apply Hstep, IH.
    + cbn [mbind outcome_bind] in Hv |- *. eapply runs_assert; [apply at_place|exact Hv].
  - cbn [mbind outcome_bind fst snd]. specialize (IH (dn ++ [i]) e Hc' Hn').
    assert (Hstep : ∀ o, runs (place pre (dn ++ [i]) todo post e) o → runs (place pre dn (i :: todo) post e) o).
    { intros o' Ho. eapply runs_inst; [apply at_place|by apply visit_other|]. by rewrite next_place. }
    destruct (expand_list todo e) as [r| | | |]; try done; cbn [mbind outcome_bind fst snd].
    + intros Ho. apply Hstep, IH. by rewrite <-app_assoc.
    + by apply Hstep.
Qed.

Lemma runs_expand_blocks bs pre e :
  (∀ l, l ∈ bs → calls_inside l ∧ no_invokes l) →
  let st := mkCState (pre ++ bs) (e_globals e) (e_next e) (length pre) 0 (e_skip e) in
  match expand_blocks bs e with
  | Ret r => runs st (Ret (mkCState (pre ++ r.1) (e_globals r.2) (e_next r.2)
                            (length (pre ++ r.1)) 0 (e_skip r.2)))
  | AssertFail => runs st AssertFail
  | _ => False
  end.
Proof.
  revert pre e. induction bs as [|l bs IH]; intros pre e Hbs; cbn [expand_blocks].
  { exists 1. intros [|fuel] Hf; [lia|]. cbn [visit cs_blocks cs_b mbind outcome_bind fst snd].
    rewrite app_nil_r. by rewrite lookup_ge_None_2. }
  destruct (Hbs l) as [Hc Hn]; [by left|].
  change (mkCState (pre ++ l :: bs) (e_globals e) (e_next e) (length pre) 0 (e_skip e))
    with (place pre [] l bs e).
  pose proof (λ o, runs_expand_list l pre [] bs e o Hc Hn) as HL.
  destruct (expand_list l e) as [r| | | |]; try exact (HL AssertFail).
  cbn [mbind outcome_bind fst snd] in HL |- *.
  assert (Hstep : ∀ o, runs (mkCState ((pre ++ [r.1]) ++ bs) (e_globals r.2) (e_next r.2)
                              (length (pre ++ [r.1])) 0 (e_skip r.2)) o →
                       runs (place pre [] l bs e) o).
  { intros o Ho. apply HL. eapply runs_block.
    - apply list_lookup_middle. done.
    - simpl. rewrite app_nil_r. apply lookup_ge_None_2. lia.
    - unfold next_block, place. simpl. rewrite app_nil_r. rewrite length_app, <-app_assoc in Ho.
      simpl in Ho. by rewrite Nat.add_1_r in Ho. }
  specialize (IH (pre ++ [r.1]) r.2). cbn zeta in IH.
  destruct (expand_blocks bs r.2) as [r'| | | |]; cbn [mbind outcome_bind fst snd];
    try (apply IH; intros; apply Hbs; by right).
  - apply Hstep. rewrite <-app_assoc in IH. simpl in IH. rewrite <-app_assoc in IH. simpl in IH.
    rewrite <-app_assoc. apply IH. intros; apply Hbs; by right.
  - apply Hstep, IH. intros; apply Hbs; by right.
Qed.

Lemma visit_mono fuel fuel' st :
  fuel ≤ fuel' → visit demangle fuel M y filt st ≠ OutOfFuel →
  visit demangle fuel' M y filt st = visit demangle fuel M y filt st.
Proof.
  revert fuel' st. induction fuel as [|fuel IH]; intros fuel' st Hle Ho; [done|].
  destruct fuel' as [|fuel']; [lia|]. cbn [visit] in *.
  destruct (cs_blocks st !! cs_b st) as [l|]; [|done].
  destruct (l !! cs_i st) as [i|]; [|apply IH; [lia|done]].
  destruct (visit_inst demangle M y filt i st); try done. cbn [mbind outcome_bind] in *.
  apply IH; [lia|done].
Qed.

(** The loop computes the reference. *)
Lemma visit_exact fuel bs e :
  body_ok bs → (∀ l, l ∈ bs → no_invokes l) →
  let st := mkCState bs (e_globals e) (e_next e) 0 0 (e_skip e) in
  remaining y st < fuel →
  visit demangle fuel M y filt st =
  r ← expand_blocks bs e;
  Ret (mkCState r.1 (e_globals r.2) (e_next r.2) (length r.1) 0 (e_skip r.2)).
Proof.
  intros Hok Hni st Hfuel.
  pose proof (runs_expand_blocks bs [] e) as HR. cbn zeta in HR.
  assert (Hne : visit demangle fuel M y filt st ≠ OutOfFuel).
  { intros E. destruct (visit_total demangle M y filt fuel st) as [(st'&E'&_)|E']; [done|done|done|congruence..]. }
  assert (Hdet : ∀ o, runs st o → visit demangle fuel M y filt st = o).
  { intros o [n Hn]. rewrite <-(visit_mono fuel (fuel + n)) by (lia || done). apply Hn. lia. }
  assert (Hbs : ∀ l, l ∈ bs → calls_inside l ∧ no_invokes l).
  { intros l Hl. split; [|auto]. destruct (Hok l Hl) as [[? _] _]. done. }
  specialize (HR Hbs). destruct (expand_blocks bs e); try done; apply Hdet, HR.
Qed.
End Exact.

(** ** The pass *)

(** A bound on the number of iterations in one function. *)
Definition visit_fuel (f : Function) : nat :=
  S (4 * length (concat (blocks f)) + length (blocks f)).

Lemma weights_le y l : weights y l ≤ 4 * length l.
Proof. induction l as [|i l IH]; simpl; [done|]. unfold weight at 1. fold (weights y l). case_decide; lia. Qed.

Lemma remaining_start y bs g n z :
  remaining y (mkCState bs g n 0 0 z) ≤ 4 * length (concat bs) + length bs.
Proof.
  unfold remaining. simpl. destruct bs as [|l bs]; simpl; [lia|].
  rewrite drop_0, length_app. pose proof (weights_le y l).
  assert (sum_list_with (λ l, S (weights y l)) bs ≤ 4 * length (concat bs) + length bs); [|lia].
  clear. induction bs as [|l bs IH]; simpl; [lia|]. rewrite length_app. pose proof (weights_le y l). lia.
Qed.

(** C31. In a function whose invokes are not selected, when the filters do not
    select the inserted call itself, the coroutine pass ends within the bound
    [visit_fuel] and computes the reference [expand_blocks]: a selected call is
    bracketed by the reports of its start and its end, a suspension point of a
    selected coroutine by one of them, once per pair of markers, an
    out-of-turn marker fails the assertion, and all other instructions stay. *)
Theorem coyield_function_exact demangle M y filt f fuel :
  isDeclaration f = false → body_ok (blocks f) → quiet demangle M y filt →
  (∀ l, l ∈ blocks f → no_invokes demangle M filt l) → visit_fuel f ≤ fuel →
  InsertYields demangle fuel y filt f M =
  r ← expand_blocks demangle M y filt (blocks f) (mkEState (next_ptr M) (globals M) 0);
  Ret (mkModule (functions (set_blocks (fun_ptr f) r.1 M)) (e_globals r.2) (e_next r.2)).
Proof.
  intros Hd Hok Hq Hni Hfuel. unfold InsertYields. rewrite Hd.
  pose proof (visit_exact demangle M y filt Hq fuel (blocks f) (mkEState (next_ptr M) (globals M) 0) Hok Hni)
    as E. cbn [e_next e_globals e_skip] in E. rewrite E.
  - by destruct (expand_blocks demangle M y filt (blocks f) _).
  - pose proof (remaining_start y (blocks f) (globals M) (next_ptr M) 0). unfold visit_fuel in Hfuel. lia.
Qed.

(** With selected invokes too, nothing but status calls is added, and the
    loop ends. *)
Lemma coyield_function_erase demangle M y filt f fuel :
  isDeclaration f = false → body_ok (blocks f) → quiet demangle M y filt → visit_fuel f ≤ fuel →
  (∃ bs g n, InsertYields demangle fuel y filt f M =
       Ret (mkModule (functions (set_blocks (fun_ptr f) bs M)) g n) ∧ erase y bs = erase y (blocks f)) ∨
  InsertYields demangle fuel y filt f M = AssertFail.
Proof.
  intros Hd Hok Hq Hfuel. unfold InsertYields. rewrite Hd.
  destruct (visit_total demangle M y filt fuel (mkCState (blocks f) (globals M) (next_ptr M) 0 0 0))
    as [(st'&E&He)|E]; [done|done|..].
  - pose proof (remaining_start y (blocks f) (globals M) (next_ptr M) 0). unfold visit_fuel in Hfuel. lia.
  - left. rewrite E. cbn [mbind outcome_bind]. eauto 6.
  - right. by rewrite E.
Qed.

(** A filter without a parent applies to every function, also to the
    declaration that the pass adds: the first block of a function that has
    none is read. *)
Lemma coyield_no_parent_undefined demangle fuel co_filter M M' :
  (∃ a, a ∈ co_filter ∧ parent_name a = None) →
  (∀ F, F ∈ functions M → fun_name F = costatus_change → isDeclaration F = true) →
  CoYieldInsertPass demangle fuel co_filter M ≠ Ret M'.
Proof.
  intros (a&Ha&Hp) Hdecl. unfold CoYieldInsertPass.
  destruct (getOrInsertFunction costatus_change 2 M) as [M1 y] eqn:EM.
  assert (∃ Y, Y ∈ functions M1 ∧ isDeclaration Y = true) as (Y&HY&HYd).
  { unfold getOrInsertFunction in EM. destruct (getNamed M costatus_change) as [F|] eqn:EF;
      injection EM as <- <-.
    - apply getNamed_elem in EF as [HF En]. exists F. auto.
    - eexists. split; [apply elem_of_app; right; by left|done]. }
  unfold Run. apply list_elem_of_split in HY as (l1&l2&El). rewrite El at 1. rewrite ofold_app.
  intros E. apply outcome_bind_ret in E as (M2&_&E). cbn [ofold] in E.
  apply outcome_bind_ret in E as (M3&E&_). unfold InsertYields in E. rewrite HYd in E.
  assert (a ∈ applicable demangle co_filter Y) as Hin by (apply list_elem_of_filter; auto).
  destruct (applicable demangle co_filter Y); [by apply not_elem_of_nil in Hin|done].
Qed.
