(* ===== verification/ResMockPass.v ===== *)
(** * The pass that routes allocation through the runtime

    src/codegen/resmockpass.cpp: the direct calls of the allocation functions
    become calls of [LtestMemAlloc] and [LtestMemDealloc] (modelled in
    [Resources]). A replacement is inserted before the call it replaces, the
    uses of the call become uses of the replacement, and the call is erased
    when the whole module has been visited. The demangler is a parameter. *)
From stdpp Require Import base list strings gmap.
From S2P Require Import Prelude Ir YieldPass CoYieldPass.

Local Open Scope Z_scope.

Definition ltest_allocation_fun_name : string := "LtestMemAlloc".
Definition ltest_deallocation_fun_name : string := "LtestMemDealloc".

(** ** The code *)

(** [collectArgs(call, n)]; the default [n = -1] is the largest [size_t]. *)
Definition size_max : Z := 2 ^ 64 - 1.
Fixpoint collectArgs (args : list Value) (n : Z) : list Value :=
  match args with
  | [] => []
  | arg :: args =>
      if n =? 0 then collectArgs args n
      else arg :: collectArgs args ((n - 1) mod 2 ^ 64)
  end.

(** What a name is replaced by: the allocation or the deallocation function,
    the number of arguments that is asserted, and the number that is kept. *)
Record Replace : Type := mkReplace { rp_alloc : bool; rp_args : nat; rp_keep : Z }.

Definition replaces : list (string * Replace) :=
  [("malloc", mkReplace true 1 size_max);
   ("operator new(unsigned long)", mkReplace true 1 size_max);
   ("operator new[](unsigned long)", mkReplace true 1 size_max);
   ("free", mkReplace false 1 size_max);
   ("operator delete(void*, unsigned long)", mkReplace false 2 1);
   ("operator delete[](void*, unsigned long)", mkReplace false 2 1)].

(** [replaces.find(name)]. *)
Definition find_replace (name : string) : option Replace :=
  list_find (λ p, p.1 = name) replaces ≫= λ p, Some p.2.2.

(** [replaceAllUsesWith] on a value, an instruction, a body. *)
Definition rauw_value (old new : nat) (v : Value) : Value :=
  match v with VInst id => if decide (id = old) then VInst new else v | _ => v end.
Definition rauw_inst (old new : nat) (i : Instruction) : Instruction :=
  mkInst (inst_id i) (opcode i) (rauw_value old new <$> operands i).
Definition rauw (old new : nat) (bs : list (list Instruction)) : list (list Instruction) :=
  fmap (M := list) (rauw_inst old new) <$> bs.

Record RState : Type := mkRState {
  rs_blocks : list (list Instruction);
  rs_next : nat;
  rs_delete : list nat   (** [to_delete] *)
}.

Section Pass.
Context (demangle : string → string).

(** The instruction that replaces [i], if [i] is a direct call of a name in
    the table. *)
Definition replacement (M : Module_) (allocF deallocF : nat) (i : Instruction)
  : outcome (option (Opcode * list Value)) :=
  match callee_name M i with
  | None => Ret None
  | Some name =>
      match find_replace (demangle name) with
      | None => Ret None
      | Some r =>
          _ ← cassert (bool_decide (length (operands i) = rp_args r));
          let callee := Some (if rp_alloc r then allocF else deallocF) in
          let op := match opcode i with
                    | InvokeInst _ normal unwind => InvokeInst callee normal unwind
                    | _ => CallInst callee
                    end in
          Ret (Some (op, collectArgs (operands i) (rp_keep r)))
      end
  end.

(** The loop over block [b], from instruction [k] on; [n] instructions of
    it are left. *)
Fixpoint walk_block (M : Module_) (allocF deallocF n b k : nat) (st : RState) : outcome RState :=
  match n with
  | O => Ret st
  | S n =>
      l ← deref (rs_blocks st !! b);
      i ← deref (l !! k);
      r ← replacement M allocF deallocF i;
      match r with
      | None => walk_block M allocF deallocF n b (S k) st
      | Some (op, args) =>
          let rep := mkInst (rs_next st) op args in
          let bs := <[b := insert_at k rep l]> (rs_blocks st) in
          walk_block M allocF deallocF n b (S (S k))
            (mkRState (rauw (inst_id i) (inst_id rep) bs) (S (rs_next st))
                      (rs_delete st ++ [inst_id i]))
      end
  end.

Fixpoint walk_blocks (M : Module_) (allocF deallocF n b : nat) (st : RState) : outcome RState :=
  match n with
  | O => Ret st
  | S n =>
      l ← deref (rs_blocks st !! b);
      st ← walk_block M allocF deallocF (length l) b 0 st;
      walk_blocks M allocF deallocF n (S b) st
  end.

(** Erasing an instruction: its result must not be used any more. *)
Definition uses (id : nat) (bs : list (list Instruction)) : bool :=
  existsb (λ i, bool_decide (VInst id ∈ operands i)) (concat bs).
Definition erase_inst (id : nat) (bs : list (list Instruction)) : outcome (list (list Instruction)) :=
  _ ← cassert (negb (uses id bs));
  Ret (filter (λ i, inst_id i ≠ id) <$> bs).

Definition visit_function (M : Module_) (allocF deallocF : nat) (f : Function)
    (st : Module_ * list (nat * nat)) : outcome (Module_ * list (nat * nat)) :=
  if str_contains (demangle (fun_name f)) "boost::context" then Ret st
  else
    r ← walk_blocks M allocF deallocF (length (blocks f)) 0
          (mkRState (blocks f) (next_ptr st.1) []);
    Ret (set_next (rs_next r) (set_blocks (fun_ptr f) (rs_blocks r) st.1),
         st.2 ++ (pair (fun_ptr f) <$> rs_delete r)).

(** [to_delete] holds addresses; the function of each is kept with it. *)
Definition erase_one (d : nat * nat) (M : Module_) : outcome Module_ :=
  F ← deref (getFunction M d.1);
  bs ← erase_inst d.2 (blocks F);
  Ret (set_blocks d.1 bs M).

Definition Run (allocF deallocF : nat) (M : Module_) : outcome Module_ :=
  st ← ofold (visit_function M allocF deallocF) (functions M) (M, []);
  ofold erase_one st.2 st.1.

Definition ResMockPass (M : Module_) : outcome Module_ :=
  let '(M, allocF) := getOrInsertFunction ltest_allocation_fun_name 1 M in
  let '(M, deallocF) := getOrInsertFunction ltest_deallocation_fun_name 1 M in
  Run allocF deallocF M.
End Pass.

(** * What the allocation pass does to a module

    The proofs about [ResMockPass]: no call of a replaced function is left,
    every other instruction is kept in its place, uses follow the
    replacements, and an erased call is not used any more. *)
Local Open Scope nat_scope.

(** [collectArgs] takes a prefix. *)
Lemma collectArgs_take args n :
  (0 ≤ n < 2 ^ 64)%Z → collectArgs args n = take (Z.to_nat n) args.
Proof.
  revert n. induction args as [|a args IH]; intros n Hn; simpl; [by rewrite take_nil|].
  destruct (Z.eqb_spec n 0) as [->|Hne]; [rewrite IH by lia; done|].
  rewrite Z.mod_small by lia. rewrite IH by lia.
  replace (Z.to_nat n) with (S (Z.to_nat (n - 1))) by lia. done.
Qed.

(** ** One function *)
Section Function.
Context (rp : Instruction → option (Opcode * Z)).
Context (next0 : nat).

Definition ren (ρ : nat → nat) (v : Value) : Value :=
  match v with VInst id => VInst (ρ id) | _ => v end.
Definition ren_inst (ρ : nat → nat) (i : Instruction) : Instruction :=
  mkInst (inst_id i) (opcode i) (ren ρ <$> operands i).

(** The replacement of [i], when the replaced calls have the results [ρ]. *)
Definition rep_inst (ρ : nat → nat) (i : Instruction) (r : Opcode * Z) : Instruction :=
  mkInst (ρ (inst_id i)) r.1 (ren ρ <$> collectArgs (operands i) r.2).
Definition mock_inst (ρ : nat → nat) (i : Instruction) : Instruction :=
  match rp i with Some r => rep_inst ρ i r | None => ren_inst ρ i end.

(** An instruction that has been visited. *)
Definition work (ρ : nat → nat) (i : Instruction) : list Instruction :=
  match rp i with Some r => [rep_inst ρ i r; ren_inst ρ i] | None => [ren_inst ρ i] end.
Definition works (ρ : nat → nat) (l : list Instruction) : list Instruction := concat (work ρ <$> l).

Definition upd (ρ : nat → nat) (old new : nat) : nat → nat :=
  λ x, if decide (x = old) then new else ρ x.

(** A replaced result is a new one. *)
Definition fresh_ren (ρ : nat → nat) : Prop := ∀ x, ρ x = x ∨ next0 ≤ ρ x.

Lemma rauw_ren ρ old new v :
  fresh_ren ρ → old < next0 → ρ old = old →
  rauw_value old new (ren ρ v) = ren (upd ρ old new) v.
Proof.
  intros Hf Ho E. destruct v; simpl; try done. unfold upd.
  destruct (decide (id = old)) as [->|Hne]; [by rewrite E, decide_True|].
  rewrite decide_False; [done|]. destruct (Hf id); lia.
Qed.

Lemma rauw_ren_list ρ old new (vs : list Value) :
  fresh_ren ρ → old < next0 → ρ old = old →
  rauw_value old new <$> (ren ρ <$> vs) = ren (upd ρ old new) <$> vs.
Proof.
  intros. rewrite <-list_fmap_compose. apply list_fmap_ext. intros k v _. by apply rauw_ren.
Qed.

Lemma rauw_ren_inst ρ old new i :
  fresh_ren ρ → old < next0 → ρ old = old →
  rauw_inst old new (ren_inst ρ i) = ren_inst (upd ρ old new) i.
Proof. intros. unfold rauw_inst, ren_inst. simpl. by rewrite rauw_ren_list. Qed.

Lemma rauw_work ρ old new i :
  fresh_ren ρ → old < next0 → ρ old = old → inst_id i ≠ old →
  rauw_inst old new <$> work ρ i = work (upd ρ old new) i.
Proof.
  intros Hf Ho E Hne. unfold work. destruct (rp i) as [r|]; simpl; rewrite rauw_ren_inst by done; [|done].
  unfold rep_inst, rauw_inst. simpl. rewrite rauw_ren_list by done.
  assert (upd ρ old new (inst_id i) = ρ (inst_id i)) as -> by (unfold upd; by rewrite decide_False).
  done.
Qed.

Lemma rauw_works ρ old new l :
  fresh_ren ρ → old < next0 → ρ old = old → old ∉ inst_id <$> l →
  rauw_inst old new <$> works ρ l = works (upd ρ old new) l.
Proof.
  intros Hf Ho E. unfold works. induction l as [|i l IH]; intros Hn; [done|].
  rewrite !fmap_cons. cbn [concat]. rewrite fmap_app, rauw_work, IH; [done|set_solver|done|done|done|set_solver].
Qed.

(** The state of the loops: the blocks [pre] and the instructions [dn] have
    been visited, [todo] and [post] not yet. *)
Definition stage (ρ : nat → nat) (pre : list (list Instruction)) (dn todo : list Instruction)
    (post : list (list Instruction)) (next : nat) (ds : list nat) : RState :=
  mkRState ((works ρ <$> pre) ++ (works ρ dn ++ (ren_inst ρ <$> todo)) ::
            (fmap (M := list) (ren_inst ρ) <$> post)) next ds.

(** The renaming so far: [ds] are the replaced calls. *)
Record ren_ok (ρ : nat → nat) (next : nat) (ds : list nat) : Prop := {
  ro_next : next0 ≤ next;
  ro_same : ∀ x, x ∉ ds → ρ x = x;
  ro_new : ∀ x, x ∈ ds → next0 ≤ ρ x < next;
  ro_old : ∀ x, x ∈ ds → x < next0;
  ro_inj : ∀ x x', x ∈ ds → x' ∈ ds → ρ x = ρ x' → x = x'
}.

Lemma ren_ok_fresh ρ next ds : ren_ok ρ next ds → fresh_ren ρ.
Proof.
  intros [H1 H2 H3 H4 H5] x. destruct (decide (x ∈ ds)) as [Hx|Hx]; [right|left; auto].
  by apply H3.
Qed.

Lemma ren_ok_upd ρ next ds old :
  ren_ok ρ next ds → old ∉ ds → old < next0 → ren_ok (upd ρ old next) (S next) (ds ++ [old]).
Proof.
  intros [H1 H2 H3 H4 H5] Hn Ho. unfold upd. split.
  - lia.
  - intros x Hx. rewrite decide_False by set_solver. apply H2. set_solver.
  - intros x Hx. case_decide; [lia|]. assert (Hx' : x ∈ ds) by set_solver.
    specialize (H3 x Hx'). lia.
  - intros x Hx. destruct (decide (x = old)) as [->|?]; [done|]. apply H4. set_solver.
  - intros x x' Hx Hx'. case_decide as E1; case_decide as E2; [congruence|..].
    + assert (x' ∈ ds) as Hd by set_solver. specialize (H3 x' Hd). lia.
    + assert (x ∈ ds) as Hd by set_solver. specialize (H3 x Hd). lia.
    + apply H5; set_solver.
Qed.

Lemma works_app ρ l l' : works ρ (l ++ l') = works ρ l ++ works ρ l'.
Proof. unfold works. by rewrite fmap_app, concat_app. Qed.

Lemma works_snoc ρ l i : works ρ (l ++ [i]) = works ρ l ++ work ρ i.
Proof. rewrite works_app. unfold works at 2. simpl. by rewrite app_nil_r. Qed.

Lemma works_length ρ ρ' l : length (works ρ l) = length (works ρ' l).
Proof.
  unfold works. induction l as [|i l IH]; [done|]. rewrite !fmap_cons. cbn [concat].
  rewrite !length_app, IH. f_equal. unfold work. by destruct (rp i).
Qed.

(** An instruction that is kept. *)
Lemma stage_skip ρ pre dn i todo post next ds :
  rp i = None → stage ρ pre dn (i :: todo) post next ds = stage ρ pre (dn ++ [i]) todo post next ds.
Proof.
  intros Hr. unfold stage. rewrite works_snoc, <-app_assoc. unfold work. by rewrite Hr.
Qed.

(** The ids of the replaced calls of a list. *)
Definition replaced (l : list Instruction) : list nat :=
  inst_id <$> filter (λ i, is_Some (rp i)) l.

Lemma replaced_cons i l :
  replaced (i :: l) = match rp i with Some _ => [inst_id i] | None => [] end ++ replaced l.
Proof.
  unfold replaced. rewrite filter_cons. destruct (rp i).
  - by rewrite decide_True by eauto.
  - by rewrite decide_False by (by intros [? ?]).
Qed.

Lemma replaced_app l l' : replaced (l ++ l') = replaced l ++ replaced l'.
Proof. unfold replaced. by rewrite filter_app, fmap_app. Qed.

Lemma replaced_subset l x : x ∈ replaced l → x ∈ inst_id <$> l.
Proof.
  unfold replaced. intros (i&->&Hi)%list_elem_of_fmap. apply list_elem_of_filter in Hi as [_ Hi].
  apply list_elem_of_fmap. eauto.
Qed.

(** One replacement. *)
Lemma stage_step ρ pre dn i r todo post next ds :
  ren_ok ρ next ds → rp i = Some r → inst_id i ∉ ds → inst_id i < next0 →
  inst_id i ∉ inst_id <$> (concat pre ++ dn) →
  let l := works ρ dn ++ (ren_inst ρ <$> i :: todo) in
  rauw (inst_id i) next
    (<[length pre := insert_at (length (works ρ dn))
                       (mkInst next r.1 (collectArgs (operands (ren_inst ρ i)) r.2)) l]>
       (rs_blocks (stage ρ pre dn (i :: todo) post next ds))) =
  rs_blocks (stage (upd ρ (inst_id i) next) pre (dn ++ [i]) todo post (S next) (ds ++ [inst_id i])).
Proof.
  intros Hok Hr Hn Hlt Hid l. unfold l. cbn [rs_blocks stage].
  pose proof (ren_ok_fresh _ _ _ Hok) as Hf. pose proof (ro_same _ _ _ Hok _ Hn) as Hs.
  replace (length pre) with (length (works ρ <$> pre)) by apply length_fmap.
  rewrite list_insert_middle, insert_at_app. unfold rauw. rewrite fmap_app, fmap_cons.
  f_equal.
  { rewrite <-list_fmap_compose. apply list_fmap_ext. intros k p Hp. unfold compose.
    apply rauw_works; [done..|]. intros Hin. apply Hid. rewrite fmap_app. apply elem_of_app. left.
    apply list_elem_of_lookup_2 in Hp. apply list_elem_of_fmap in Hin as (j&Ej&Hj).
    apply list_elem_of_fmap. exists j. split; [done|]. by eapply elem_of_concat. }
  f_equal.
  - rewrite fmap_app, rauw_works; [|done..|rewrite fmap_app in Hid; set_solver].
    rewrite works_app, <-app_assoc. f_equal. rewrite fmap_cons. unfold works at 1. simpl.
    unfold work. rewrite Hr. simpl. unfold rep_inst. f_equal.
    + unfold rauw_inst. simpl. f_equal; [by unfold upd; rewrite decide_True|].
      assert (Hc : ∀ n vs, collectArgs (ren ρ <$> vs) n = ren ρ <$> collectArgs vs n).
      { intros n vs. revert n. induction vs as [|v vs IH]; intros n; simpl; [done|].
        destruct (n =? 0)%Z; [apply IH|]. simpl. by rewrite IH. }
      rewrite Hc. by apply rauw_ren_list.
    + f_equal; [by apply rauw_ren_inst|].
      rewrite <-list_fmap_compose. apply list_fmap_ext. intros k p Hp. by apply rauw_ren_inst.
  - rewrite <-list_fmap_compose. apply list_fmap_ext. intros k p Hp. unfold compose.
    rewrite <-list_fmap_compose. apply list_fmap_ext. intros k' p' Hp'. by apply rauw_ren_inst.
Qed.
End Function.

Section Walk.
Context (demangle : string → string) (M : Module_) (allocF deallocF next0 : nat).

(** The replacement of a call: its opcode and how many arguments it keeps. *)
Definition rp_of (i : Instruction) : option (Opcode * Z) :=
  name ← callee_name M i;
  r ← find_replace (demangle name);
  let callee := Some (if rp_alloc r then allocF else deallocF) in
  Some (match opcode i with
        | InvokeInst _ normal unwind => InvokeInst callee normal unwind
        | _ => CallInst callee
        end, rp_keep r).

(** The calls of replaced functions have the arguments the pass asserts. *)
Definition args_ok (i : Instruction) : Prop :=
  ∀ name r, callee_name M i = Some name → find_replace (demangle name) = Some r →
    length (operands i) = rp_args r.

Lemma replacement_ren ρ i :
  args_ok i →
  replacement demangle M allocF deallocF (ren_inst ρ i) =
  Ret ((λ r, (r.1, collectArgs (operands (ren_inst ρ i)) r.2)) <$> rp_of i).
Proof.
  intros Hok. unfold replacement, rp_of.
  change (callee_name M (ren_inst ρ i)) with (callee_name M i).
  destruct (callee_name M i) as [name|] eqn:En; [|done]. simpl.
  destruct (find_replace (demangle name)) as [r|] eqn:Er; [|done]. simpl.
  rewrite length_fmap, (Hok name r En Er), bool_decide_eq_true_2 by done. done.
Qed.

Notation works := (works rp_of).
Notation stage := (stage rp_of).
Notation replaced := (replaced rp_of).
Notation ren_ok := (ren_ok next0).

Lemma walk_block_ok todo ρ pre dn post next :
  ren_ok ρ next (replaced (concat pre ++ dn)) →
  NoDup (inst_id <$> (concat pre ++ dn ++ todo)) →
  (∀ i, i ∈ todo → args_ok i ∧ inst_id i < next0) →
  ∃ ρ' next', walk_block demangle M allocF deallocF (length todo) (length pre) (length (works ρ dn))
      (stage ρ pre dn todo post next (replaced (concat pre ++ dn))) =
    Ret (stage ρ' pre (dn ++ todo) [] post next' (replaced (concat pre ++ dn ++ todo))) ∧
    ren_ok ρ' next' (replaced (concat pre ++ dn ++ todo)).
Proof.
  revert ρ dn next. induction todo as [|i todo IH]; intros ρ dn next Hok Hnd Hi.
  { exists ρ, next. rewrite !app_nil_r. done. }
  cbn [length walk_block].
  assert (EL : rs_blocks (stage ρ pre dn (i :: todo) post next (replaced (concat pre ++ dn)))
    !! length pre = Some (works ρ dn ++ (ren_inst ρ <$> i :: todo))).
  { cbn [rs_blocks ResMockPass.stage].
    replace (length pre) with (length (works ρ <$> pre)) by apply length_fmap.
    by apply list_lookup_middle. }
  rewrite EL. cbn [deref mbind outcome_bind].
  rewrite fmap_cons, list_lookup_middle by done. cbn [deref mbind outcome_bind].
  destruct (Hi i) as [Hargs Hlt]; [by left|]. rewrite replacement_ren by done.
  assert (Hnew : inst_id i ∉ inst_id <$> (concat pre ++ dn)).
  { rewrite app_assoc, fmap_app in Hnd. apply NoDup_app in Hnd as (_&Hnd&_). intros Hin.
    apply (Hnd _ Hin). rewrite fmap_cons. by left. }
  assert (Hnd' : NoDup (inst_id <$> (concat pre ++ (dn ++ [i]) ++ todo))) by (by rewrite <-app_assoc).
  assert (Hi' : ∀ j, j ∈ todo → args_ok j ∧ inst_id j < next0) by (intros j Hj; apply Hi; by right).
  assert (Eapp : replaced (concat pre ++ dn ++ [i]) =
    replaced (concat pre ++ dn) ++ match rp_of i with Some _ => [inst_id i] | None => [] end).
  { rewrite app_assoc, replaced_app, replaced_cons. by rewrite app_nil_r. }
  assert (Eassoc : dn ++ i :: todo = (dn ++ [i]) ++ todo) by (by rewrite <-app_assoc).
  rewrite Eassoc.
  destruct (rp_of i) as [r|] eqn:Er; cbn [fmap option_fmap option_map mbind outcome_bind].
  - assert (Hd : inst_id i ∉ replaced (concat pre ++ dn)) by (intros ?%replaced_subset; done).
    pose proof (stage_step rp_of next0 ρ pre dn i r todo post next _ Hok Er Hd Hlt Hnew) as HS.
    cbn zeta in HS. rewrite fmap_cons in HS.
    cbn [inst_id rs_next rs_delete ResMockPass.stage ren_inst] in HS |- *.
    rewrite HS. rewrite <-Eapp.
    destruct (IH (upd ρ (inst_id i) next) (dn ++ [i]) (S next)) as (ρ'&next'&E&Hok'); [|done..|].
    { rewrite Eapp. by apply ren_ok_upd. }
    exists ρ', next'. split; [|done]. rewrite <-E. f_equal.
    rewrite works_snoc, length_app, (works_length rp_of (upd ρ (inst_id i) next) ρ). unfold work. rewrite Er. simpl. lia.
  - rewrite app_nil_r in Eapp.
    destruct (IH ρ (dn ++ [i]) next) as (ρ'&next'&E&Hok'); [by rewrite Eapp|done..|].
    exists ρ', next'. split; [|done]. rewrite <-E, Eapp, stage_skip by done. f_equal.
    rewrite works_snoc, length_app. unfold work. rewrite Er. simpl. lia.
Qed.

(** The state after the blocks [pre]. *)
Definition between (ρ : nat → nat) (pre post : list (list Instruction)) (next : nat) (ds : list nat)
  : RState :=
  mkRState ((works ρ <$> pre) ++ (fmap (M := list) (ren_inst ρ) <$> post)) next ds.

Lemma walk_blocks_ok post ρ pre next :
  ren_ok ρ next (replaced (concat pre)) →
  NoDup (inst_id <$> concat (pre ++ post)) →
  (∀ i, i ∈ concat post → args_ok i ∧ inst_id i < next0) →
  ∃ ρ' next', walk_blocks demangle M allocF deallocF (length post) (length pre)
      (between ρ pre post next (replaced (concat pre))) =
    Ret (between ρ' (pre ++ post) [] next' (replaced (concat (pre ++ post)))) ∧
    ren_ok ρ' next' (replaced (concat (pre ++ post))).
Proof.
  revert ρ pre next. induction post as [|l post IH]; intros ρ pre next Hok Hnd Hi.
  { exists ρ, next. rewrite !app_nil_r. done. }
  cbn [length walk_blocks].
  assert (EB : between ρ pre (l :: post) next (replaced (concat pre)) =
               stage ρ pre [] l post next (replaced (concat pre ++ []))) by (by rewrite app_nil_r).
  rewrite EB. cbn [rs_blocks ResMockPass.stage].
  rewrite list_lookup_middle by (symmetry; apply length_fmap). cbn [deref mbind outcome_bind].
  rewrite length_app, length_fmap. cbn [ResMockPass.works concat fmap list_fmap length Nat.add].
  assert (Ec : concat (pre ++ l :: post) = concat pre ++ l ++ concat post) by (by rewrite concat_app).
  destruct (walk_block_ok l ρ pre [] post next) as (ρ1&next1&E1&Hok1).
  - by rewrite app_nil_r.
  - rewrite Ec, app_assoc, fmap_app in Hnd. by apply NoDup_app in Hnd as (?&_).
  - intros i Hin. apply Hi. simpl. set_solver.
  - cbn [ResMockPass.works concat fmap list_fmap length] in E1. rewrite E1. clear E1.
    cbn [mbind outcome_bind app] in Hok1 |- *.
    assert (Epre : concat (pre ++ [l]) = concat pre ++ l) by (rewrite concat_app; simpl; by rewrite app_nil_r).
    assert (Eall : pre ++ l :: post = (pre ++ [l]) ++ post) by (by rewrite <-app_assoc).
    destruct (IH ρ1 (pre ++ [l]) next1) as (ρ'&next'&E&Hok').
    + by rewrite Epre.
    + by rewrite <-Eall.
    + intros i Hin. apply Hi. simpl. set_solver.
    + exists ρ', next'. rewrite Eall. split; [|done]. rewrite <-E. rewrite length_app, Nat.add_1_r.
      f_equal. unfold between, ResMockPass.stage. rewrite Epre, fmap_app, <-app_assoc. simpl.
      by rewrite app_nil_r.
Qed.

Lemma ren_inst_id i : ren_inst (λ x, x) i = i.
Proof.
  destruct i as [id op ops]. unfold ren_inst. simpl. f_equal.
  induction ops as [|v ops IH]; [done|]. rewrite fmap_cons, IH. by destruct v.
Qed.

(** A visited block without the replaced calls. *)
Lemma filter_works ρ next ds l :
  ren_ok ρ next ds → (∀ i, i ∈ l → (inst_id i ∈ ds ↔ is_Some (rp_of i)) ∧ inst_id i < next0) →
  filter (λ i, inst_id i ∉ ds) (works ρ l) = mock_inst rp_of ρ <$> l.
Proof.
  intros Hok. induction l as [|i l IH]; intros Hl; [done|].
  change (works ρ (i :: l)) with (work rp_of ρ i ++ works ρ l).
  rewrite filter_app, IH by (intros; apply Hl; by right). rewrite fmap_cons.
  destruct (Hl i) as [Hd Hlt]; [by left|]. unfold work, mock_inst.
  destruct (rp_of i) as [r|].
  - assert (Hin : inst_id i ∈ ds) by (apply Hd; eauto).
    rewrite filter_cons_True, filter_cons_False; [done|simpl; tauto|].
    simpl. intros Hin'. apply (ro_old _ _ _ _ Hok) in Hin'.
    pose proof (ro_new _ _ _ _ Hok _ Hin). lia.
  - rewrite filter_cons_True; [done|]. simpl. rewrite Hd. by intros [? ?].
Qed.

(** No visited instruction uses a replaced call. *)
Lemma uses_works ρ next ds bs id :
  ren_ok ρ next ds → id ∈ ds → uses id (works ρ <$> bs) = false.
Proof.
  intros Hok Hid. unfold uses. apply not_true_iff_false. intros (i&Hi&Hu)%existsb_exists.
  apply bool_decide_eq_true in Hu. apply list_elem_of_In in Hi.
  assert (Hno : ∀ vs : list Value, VInst id ∉ ren ρ <$> vs).
  { intros vs ([]&E&_)%list_elem_of_fmap; simplify_eq/=.
    destruct (decide (id0 ∈ ds)) as [Hd|Hd].
    - pose proof (ro_new _ _ _ _ Hok _ Hd). pose proof (ro_old _ _ _ _ Hok _ Hid). lia.
    - rewrite (ro_same _ _ _ _ Hok _ Hd) in Hid. done. }
  apply list_elem_of_In, in_concat in Hi as (l&Hl&Hi).
  apply list_elem_of_In, list_elem_of_fmap in Hl as (l0&->&_).
  apply in_concat in Hi as (w&Hw&Hi). apply list_elem_of_In, list_elem_of_fmap in Hw as (j&->&_).
  apply list_elem_of_In in Hi. unfold work in Hi.
  destruct (rp_of j) as [r|]; repeat (apply elem_of_cons in Hi as [->|Hi]; [by apply (Hno _) in Hu|]);
    by apply not_elem_of_nil in Hi.
Qed.
End Walk.

(** Erasing one after the other. *)
Lemma uses_filter (P : Instruction → Prop) `{!∀ i, Decision (P i)} id bs :
  uses id bs = false → uses id (filter P <$> bs) = false.
Proof.
  unfold uses. rewrite <-!not_true_iff_false. intros Hno Hu. apply Hno.
  apply existsb_exists in Hu as (i&Hi&Hu). apply existsb_exists. exists i. split; [|done].
  apply in_concat in Hi as (l&Hl&Hi). apply list_elem_of_In, list_elem_of_fmap in Hl as (l0&->&Hl0).
  apply in_concat. exists l0. split; [by apply list_elem_of_In|].
  apply list_elem_of_In. by apply list_elem_of_In, list_elem_of_filter in Hi as [_ ?].
Qed.

Lemma erase_insts ds bs :
  (∀ id, id ∈ ds → uses id bs = false) →
  ofold erase_inst ds bs = Ret (filter (λ i, inst_id i ∉ ds) <$> bs).
Proof.
  revert bs. induction ds as [|d ds IH]; intros bs Hu; cbn [ofold].
  - f_equal. symmetry. rewrite <-(list_fmap_id bs) at 2. apply list_fmap_ext. intros k l _.
    induction l as [|i l IH]; [done|]. rewrite filter_cons_True by apply not_elem_of_nil. by rewrite IH.
  - assert (erase_inst d bs = Ret (filter (λ i, inst_id i ≠ d) <$> bs)) as ->
      by (unfold erase_inst; rewrite Hu by (by left); done).
    cbn [mbind outcome_bind].
    rewrite IH by (intros; apply uses_filter, Hu; by right). f_equal. rewrite <-list_fmap_compose.
    apply list_fmap_ext. intros k l _. unfold compose. rewrite list_filter_filter.
    apply list_filter_iff. intros i. rewrite not_elem_of_cons. tauto.
Qed.

Lemma mock_function demangle M allocF deallocF next F :
  NoDup (inst_id <$> concat (blocks F)) →
  (∀ i, i ∈ concat (blocks F) → args_ok demangle M i ∧ inst_id i < next) →
  ∃ ρ st, walk_blocks demangle M allocF deallocF (length (blocks F)) 0 (mkRState (blocks F) next []) = Ret st ∧
    ofold erase_inst (rs_delete st) (rs_blocks st) =
      Ret (fmap (M := list) (mock_inst (rp_of demangle M allocF deallocF) ρ) <$> blocks F) ∧
    ren_ok next ρ (rs_next st) (replaced (rp_of demangle M allocF deallocF) (concat (blocks F))).
Proof.
  intros Hnd Hi. set (rp := rp_of demangle M allocF deallocF).
  destruct (walk_blocks_ok demangle M allocF deallocF next (blocks F) (λ x, x) [] next)
    as (ρ&next'&E&Hok); [|done|done|].
  { split; [lia|done|by intros x ?%not_elem_of_nil|by intros x ?%not_elem_of_nil|by intros x x' ?%not_elem_of_nil]. }
  assert (E0 : between demangle M allocF deallocF (λ x, x) [] (blocks F) next (replaced rp (concat [])) =
               mkRState (blocks F) next []).
  { unfold between. simpl. f_equal. rewrite <-(list_fmap_id (blocks F)) at 2. apply list_fmap_ext.
    intros k l _. rewrite <-(list_fmap_id l) at 2. apply list_fmap_ext. intros k' i _. apply ren_inst_id. }
  fold rp in E. rewrite E0 in E. cbn [length app] in E, Hok.
  exists ρ. eexists. split; [exact E|]. split; [|done].
  cbn [rs_delete rs_blocks between]. rewrite app_nil_r, erase_insts.
  2: { intros id Hid. by eapply uses_works. }
  f_equal. rewrite <-list_fmap_compose. apply list_fmap_ext. intros k l Hl. unfold compose.
  apply list_elem_of_lookup_2 in Hl. eapply filter_works; [exact Hok|].
  intros i Hin. assert (Hc : i ∈ concat (blocks F)) by (by eapply elem_of_concat).
  split; [|by apply Hi]. unfold replaced. rewrite list_elem_of_fmap. split.
  - intros (j&Ej&Hj). apply list_elem_of_filter in Hj as [Hrj Hj].
    assert (i = j) as ->; [|done].
    apply list_elem_of_lookup in Hc as [a Ha]. apply list_elem_of_lookup in Hj as [b Hb].
    assert (a = b) as ->; [|congruence].
    eapply NoDup_lookup; [exact Hnd|..]; rewrite list_lookup_fmap; [by rewrite Ha|].
    rewrite Hb. simpl. by f_equal.
  - intros Hr. exists i. split; [done|]. by apply list_elem_of_filter.
Qed.

(** ** The module *)
Lemma set_blocks_middle M l1 l2 F bs :
  functions M = l1 ++ F :: l2 → NoDup (fun_ptr <$> functions M) →
  functions (set_blocks (fun_ptr F) bs M) = l1 ++ with_blocks F bs :: l2.
Proof.
  intros E Hnd. simpl. rewrite E in Hnd |- *. rewrite fmap_app, fmap_cons, decide_True by done.
  rewrite fmap_app, fmap_cons in Hnd. apply NoDup_app in Hnd as (_&Hl1&[Hl2 _]%NoDup_cons).
  assert (Hid : ∀ l : list Function, fun_ptr F ∉ fun_ptr <$> l →
    (λ G, if decide (fun_ptr G = fun_ptr F) then with_blocks G bs else G) <$> l = l).
  { intros l. induction l as [|G l IH]; [done|]. rewrite !fmap_cons, not_elem_of_cons. intros [Hne Hn].
    rewrite decide_False by done. f_equal. auto. }
  rewrite !Hid; [done|done|]. intros Hin. apply (Hl1 _ Hin). by left.
Qed.

Lemma getFunction_middle M l1 l2 F :
  functions M = l1 ++ F :: l2 → NoDup (fun_ptr <$> functions M) → getFunction M (fun_ptr F) = Some F.
Proof. intros E Hnd. apply getFunction_unique; [done|]. rewrite E. set_solver. Qed.

Lemma with_blocks_same F : with_blocks F (blocks F) = F.
Proof. by destruct F. Qed.

Lemma erase_one_list ds M l1 l2 F bs :
  functions M = l1 ++ F :: l2 → NoDup (fun_ptr <$> functions M) →
  ofold erase_inst ds (blocks F) = Ret bs →
  ∃ M', ofold erase_one (pair (fun_ptr F) <$> ds) M = Ret M' ∧
    functions M' = l1 ++ with_blocks F bs :: l2 ∧ globals M' = globals M.
Proof.
  revert M F. induction ds as [|d ds IH]; intros M F EM Hnd E.
  { simpl in E. injection E as <-. exists M. by rewrite with_blocks_same. }
  rewrite fmap_cons. cbn [ofold] in E |- *. apply outcome_bind_ret in E as (bs1&E1&E2).
  assert (erase_one (fun_ptr F, d) M = Ret (set_blocks (fun_ptr F) bs1 M)) as ->.
  { unfold erase_one. cbn [fst snd]. rewrite (getFunction_middle M l1 l2 F) by done.
    cbn [deref mbind outcome_bind]. by rewrite E1. }
  cbn [mbind outcome_bind].
  pose proof (set_blocks_middle M l1 l2 F bs1 EM Hnd) as EM1.
  destruct (IH (set_blocks (fun_ptr F) bs1 M) (with_blocks F bs1)) as (M'&EM'&EF&EG);
    [done| |done|by exists M'].
  rewrite EM1. rewrite EM in Hnd. by rewrite fmap_app, fmap_cons in Hnd |- *.
Qed.

(** A function, what the first loop makes of it, and the calls to erase. *)
Record Visited : Type := mkVisited { v_old : Function; v_new : Function; v_del : list nat }.

Section Module.
Context (demangle : string → string) (M : Module_) (allocF deallocF : nat).

Definition excluded (F : Function) : bool := str_contains (demangle (fun_name F)) "boost::context".

(** The function that the pass makes of [F]: the same, for the functions of
    boost::context; otherwise with its calls replaced, under a renaming of
    the replaced results to new ones. *)
Definition mocked (F F' : Function) : Prop :=
  if excluded F then F' = F
  else ∃ ρ next next',
    F' = with_blocks F (fmap (M := list) (mock_inst (rp_of demangle M allocF deallocF) ρ) <$> blocks F) ∧
    next_ptr M ≤ next ∧
    ren_ok next ρ next' (replaced (rp_of demangle M allocF deallocF) (concat (blocks F))).

Definition visited_ok (v : Visited) : Prop :=
  ∃ bs, ofold erase_inst (v_del v) (blocks (v_new v)) = Ret bs ∧
    fun_ptr (v_new v) = fun_ptr (v_old v) ∧ mocked (v_old v) (with_blocks (v_new v) bs).

Lemma erase_all vs M1 l :
  functions M1 = l ++ (v_new <$> vs) → NoDup (fun_ptr <$> functions M1) → Forall visited_ok vs →
  ∃ M', ofold erase_one (concat ((λ v, pair (fun_ptr (v_old v)) <$> v_del v) <$> vs)) M1 = Ret M' ∧
    globals M' = globals M1 ∧
    ∃ fs, functions M' = l ++ fs ∧ Forall2 mocked (v_old <$> vs) fs.
Proof.
  revert M1 l. induction vs as [|v vs IH]; intros M1 l EM Hnd Hvs.
  { exists M1. split; [done|]. split; [done|]. exists []. split; [done|constructor]. }
  apply Forall_cons in Hvs as [(bs&Ebs&Ep&Hm) Hvs].
  change (v_new <$> v :: vs) with (v_new v :: (v_new <$> vs)) in EM. rewrite !fmap_cons.
  cbn [concat]. rewrite ofold_app, <-Ep.
  destruct (erase_one_list (v_del v) M1 l (v_new <$> vs) (v_new v) bs) as (M2&E2&EF&EG); [done..|].
  rewrite E2. cbn [mbind outcome_bind].
  destruct (IH M2 (l ++ [with_blocks (v_new v) bs])) as (M'&E'&EG'&fs&Efs&Hfs).
  - by rewrite EF, <-app_assoc.
  - rewrite EF. rewrite EM in Hnd. by rewrite fmap_app, fmap_cons in Hnd |- *.
  - done.
  - exists M'. split; [done|]. split; [congruence|].
    exists (with_blocks (v_new v) bs :: fs). split; [by rewrite Efs, <-app_assoc|]. by constructor.
Qed.

Context (Hptrs : NoDup (fun_ptr <$> functions M)).
Context (Hids : ∀ F, F ∈ functions M → NoDup (inst_id <$> concat (blocks F)) ∧
                  ∀ i, i ∈ concat (blocks F) → args_ok demangle M i ∧ inst_id i < next_ptr M).

Lemma run_mocks :
  ∃ M', Run demangle allocF deallocF M = Ret M' ∧ globals M' = globals M ∧
    Forall2 mocked (functions M) (functions M').
Proof.
  unfold Run.
  edestruct (ofold_ind (visit_function demangle M allocF deallocF)
    (λ rest st, ∃ vs, functions M = (v_old <$> vs) ++ rest ∧
       functions st.1 = (v_new <$> vs) ++ rest ∧ globals st.1 = globals M ∧
       next_ptr M ≤ next_ptr st.1 ∧ Forall visited_ok vs ∧
       st.2 = concat ((λ v, pair (fun_ptr (v_old v)) <$> v_del v) <$> vs))
    (functions M) (M, [])) as (st&E&vs&E1&E2&E3&_&Hvs&Eds).
  { exists []. split; [done|]. split; [done|]. split; [done|]. split; [done|]. split; [constructor|done]. }
  { intros F rest st [l0 El] (vs&E1&E2&E3&Hn&Hvs&Eds). unfold visit_function.
    assert (Hptr : fun_ptr <$> functions st.1 = fun_ptr <$> functions M).
    { rewrite E1, E2, !fmap_app. f_equal. rewrite <-!list_fmap_compose. apply list_fmap_ext.
      intros k v Hv. apply list_elem_of_lookup_2 in Hv. rewrite Forall_forall in Hvs.
      by destruct (Hvs v Hv) as (?&_&?&_). }
    destruct (str_contains _ _) eqn:Ex.
    - exists st. split; [done|]. exists (vs ++ [mkVisited F F []]). rewrite !fmap_app, <-!app_assoc.
      split; [done|]. split; [done|]. split; [done|]. split; [done|]. split.
      + apply Forall_app. split; [done|]. constructor; [|constructor]. exists (blocks F).
        split; [done|]. split; [done|]. unfold mocked, excluded. cbn [v_old v_new].
        rewrite Ex. apply with_blocks_same.
      + by rewrite concat_app, app_nil_r.
    - destruct (Hids F) as [Hnd Hi]; [rewrite E1; set_solver|].
      destruct (mock_function demangle M allocF deallocF (next_ptr st.1) F) as (ρ&r&Er&Ee&Hok); [done| |].
      { intros i Hin. destruct (Hi i Hin). split; [done|lia]. }
      rewrite Er. cbn [mbind outcome_bind]. eexists. split; [reflexivity|].
      exists (vs ++ [mkVisited F (with_blocks F (rs_blocks r)) (rs_delete r)]).
      rewrite !fmap_app, <-!app_assoc. cbn [fst snd]. split; [done|].
      split.
      { change (functions (set_next ?n ?M')) with (functions M').
        apply (set_blocks_middle st.1); [done|]. by rewrite Hptr. }
      split; [done|]. split.
      { simpl. pose proof (ro_next _ _ _ _ Hok). lia. }
      split.
      + apply Forall_app. split; [done|]. constructor; [|constructor]. eexists. split; [exact Ee|].
        split; [done|]. unfold mocked, excluded. cbn [v_old v_new]. rewrite Ex.
        exists ρ, (next_ptr st.1), (rs_next r). done.
      + rewrite concat_app, Eds. simpl. by rewrite app_nil_r. }
  rewrite E. cbn [mbind outcome_bind]. rewrite Eds. rewrite app_nil_r in E1, E2.
  destruct (erase_all vs st.1 []) as (M'&E'&EG&fs&Efs&Hfs); [done| |done|].
  - rewrite E2. rewrite E1 in Hptrs. rewrite <-list_fmap_compose in Hptrs |- *.
    erewrite list_fmap_ext; [exact Hptrs|]. intros k v Hv. apply list_elem_of_lookup_2 in Hv.
    rewrite Forall_forall in Hvs. by destruct (Hvs v Hv) as (?&_&?&_).
  - exists M'. split; [done|]. split; [congruence|]. rewrite E1. simpl in Efs. by rewrite Efs.
Qed.
End Module.

(** Modules that the pass accepts: addresses of instructions are unique, and
    the calls of replaced functions have the arguments of the C library. *)
Definition mockable (demangle : string → string) (M : Module_) : Prop :=
  ∀ F, F ∈ functions M → NoDup (inst_id <$> concat (blocks F)) ∧
    ∀ i, i ∈ concat (blocks F) → args_ok demangle M i ∧ inst_id i < next_ptr M.

(** A replacement calls the runtime. *)
Lemma rp_of_callee demangle M a d i r id ops :
  rp_of demangle M a d i = Some r →
  callee_name M (mkInst id r.1 ops) = (F ← getFunction M a; Some (fun_name F)) ∨
  callee_name M (mkInst id r.1 ops) = (F ← getFunction M d; Some (fun_name F)).
Proof.
  unfold rp_of. destruct (callee_name M i) as [name|]; [|done]. simpl.
  destruct (find_replace (demangle name)) as [rp|]; [|done]. simpl. intros [= <-]. simpl.
  unfold callee_name, getCalledFunction. simpl.
  destruct (rp_alloc rp); [left|right]; by destruct (opcode i).
Qed.

Lemma mocked_clean demangle M a d A D F F' i :
  getFunction M a = Some A → getFunction M d = Some D →
  find_replace (demangle (fun_name A)) = None → find_replace (demangle (fun_name D)) = None →
  mocked demangle M a d F F' → excluded demangle F' = false → i ∈ concat (blocks F') →
  rp_of demangle M a d i = None.
Proof.
  intros HA HD HnA HnD Hm Hex Hi. unfold mocked in Hm.
  destruct (excluded demangle F) eqn:Ex; [by subst F'; congruence|].
  destruct Hm as (ρ&n&n'&->&_). simpl in Hi. apply list_elem_of_In, in_concat in Hi as (l&Hl&Hi).
  apply list_elem_of_In, list_elem_of_fmap in Hl as (l0&->&_).
  apply list_elem_of_In, list_elem_of_fmap in Hi as (j&->&_). unfold mock_inst.
  destruct (rp_of demangle M a d j) as [r|] eqn:Er; [|done].
  unfold rep_inst.
  destruct (rp_of_callee _ _ _ _ _ _ (ρ (inst_id j)) (ren ρ <$> collectArgs (operands j) r.2) Er) as [E|E];
    unfold rp_of; rewrite E; rewrite ?HA, ?HD; simpl; by rewrite ?HnA, ?HnD.
Qed.

(** C21. The allocation pass returns on every well-formed module: outside the
    functions of boost::context, each direct call or invoke of a function of
    the table becomes one of [LtestMemAlloc] or [LtestMemDealloc] in the same
    place, with the arguments these take; its uses become uses of the
    replacement, every other instruction and function stays, the erased calls
    are not used any more, and no call of a function of the table is left. *)
Theorem resmock_pass_correct demangle M M1 a M2 d :
  module_wf M →
  getOrInsertFunction ltest_allocation_fun_name 1 M = (M1, a) →
  getOrInsertFunction ltest_deallocation_fun_name 1 M1 = (M2, d) →
  mockable demangle M2 →
  find_replace (demangle ltest_allocation_fun_name) = None →
  find_replace (demangle ltest_deallocation_fun_name) = None →
  ∃ M', ResMockPass demangle M = Ret M' ∧ globals M' = globals M ∧
    Forall2 (mocked demangle M2 a d) (functions M2) (functions M') ∧
    ∀ F i, F ∈ functions M' → excluded demangle F = false → i ∈ concat (blocks F) →
      rp_of demangle M2 a d i = None.
Proof.
  intros Hwf E1 E2 Hm Hna Hnd.
  destruct (getOrInsertFunction_wf _ _ _ _ _ Hwf E1) as (Hwf1&(A&HA&HAn)&Hg1&_).
  pose proof (getOrInsertFunction_keep _ _ _ _ _ _ _ Hwf1 E2 HA) as HA2.
  destruct (getOrInsertFunction_wf _ _ _ _ _ Hwf1 E2) as (Hwf2&(D&HD&HDn)&Hg2&_).
  unfold ResMockPass. rewrite E1, E2.
  destruct (run_mocks demangle M2 a d) as (M'&E&EG&HF); [apply Hwf2|exact Hm|].
  exists M'. split; [done|]. split; [congruence|]. split; [done|].
  intros F' i HF' Hex Hi. apply list_elem_of_lookup in HF' as [k Hk].
  destruct (Forall2_lookup_r _ _ _ _ _ HF Hk) as (F&_&HFF').
  eapply (mocked_clean demangle M2 a d A D F F'); [done|done|by rewrite HAn|by rewrite HDn|done..].
Qed.

(** What the table leaves alone: memory that these functions release or
    return is unknown to the runtime. *)
Lemma unmocked_functions :
  find_replace <$> ["operator delete(void*)"; "operator delete[](void*)"; "calloc(unsigned long, unsigned long)";
                    "calloc"; "realloc"; "aligned_alloc"] = replicate 6 None.
Proof. vm_compute. reflexivity. Qed.
