(* ===== verification/LaunchPasses.v ===== *)
(** * The passes for programs that bring their own [main]

    src/codegen/globalvariables.h collects, for every global variable that a
    round may have changed, a function that stores its initial value again,
    and src/codegen/mainreplacerpass.h renames the program's [main] and puts
    one in its place that calls [ltest_main]. The other side of the first is
    [ResetStaticVariables] of src/runtime/os_simulator.cpp, which runs the
    collected functions between rounds. The demangler and LLVM's renaming of
    a taken name are parameters. *)
From stdpp Require Import base list strings gmap.
From S2P Require Import Prelude Ir YieldPass.

(** ** Global variables *)
Section Globals.
Context (demangle : string → string).

Definition IsLtestGlobal (name : string) : bool :=
  starts_with name "llvm." ||
  (let demangled := demangle name in
   starts_with demangled "ltest::" || str_contains demangled " ltest::").

Definition IsCxxAbiFunctionLocalStatic (name : string) : bool :=
  starts_with name "_ZZ" || starts_with name "_ZGV".

(** The initializer that is stored again, unless the loop skips [g]. *)
Definition reset_value (g : GlobalVariable) : option Constant :=
  if isExternallyInitialized g || isConstant g || hasAppendingLinkage g ||
     IsLtestGlobal (g_name g) || IsCxxAbiFunctionLocalStatic (g_name g)
  then None else getInitializer g.

(** [Function::Create] with the store and the return. *)
Definition init_function (n : nat) (g : GlobalVariable) (init : Constant) : Function :=
  mkFun n "" 0 "" InternalLinkage false
    [[mkInst (S n) StoreInst [VConst init; VGlobal (g_name g)]; mkInst (S (S n)) ReturnInst []]].

Fixpoint init_functions (n : nat) (gs : list GlobalVariable) : list Function :=
  match gs with
  | [] => []
  | g :: gs =>
      match reset_value g with
      | Some init => init_function n g init :: init_functions (n + 3) gs
      | None => init_functions n gs
      end
  end.

Definition is_constructor (f : Function) : bool :=
  negb (isDeclaration f) && bool_decide (fun_section f = "text.start") &&
  negb (IsLtestGlobal (fun_name f)).

(** [appendToCompilerUsed(M, {gv})]. *)
Definition appendToCompilerUsed (gv : string) (gs : list GlobalVariable) : list GlobalVariable :=
  let used := match list_find (λ g, g_name g = "llvm.compiler.used") gs with
              | Some (_, g) => match getInitializer g with Some (ConstNames l) => l | _ => [] end
              | None => []
              end in
  filter (λ g, g_name g ≠ "llvm.compiler.used") gs ++
  [mkGlobal "llvm.compiler.used" "llvm.metadata" false false true (Some (ConstNames (used ++ [gv])))].

Definition GlobalReplacer_Run (M : Module_) : Module_ :=
  let inits := init_functions (next_ptr M) (globals M) in
  let fs := functions M ++ inits in
  let entries := (fun_ptr <$> inits) ++ (fun_ptr <$> filter (λ f, is_constructor f = true) fs) in
  let gv := mkGlobal "ltest_init_array" "ltest_init" false true false (Some (ConstPointers entries)) in
  mkModule fs (appendToCompilerUsed "ltest_init_array" (globals M ++ [gv]))
           (next_ptr M + 3 * length inits).
End Globals.

(** ** Resetting between rounds *)
Notation Memory := (gmap string Constant).

(** Running a function of the array: the stores of an [init_function]; what a
    constructor does is a parameter. *)
Section Reset.
Context (run_constructor : nat → Memory → Memory).

Definition run_inst (i : Instruction) (m : Memory) : Memory :=
  match opcode i, operands i with
  | StoreInst, [VConst c; VGlobal g] => <[g := c]> m
  | _, _ => m
  end.

Definition run_entry (M : Module_) (p : nat) (m : Memory) : Memory :=
  match getFunction M p with
  | Some f =>
      if bool_decide (fun_section f = "text.start") then run_constructor p m
      else foldl (λ m i, run_inst i m) m (concat (blocks f))
  | None => m
  end.

(** The section of the linked program: the arrays of its modules, with
    padding, which is null. *)
Definition ResetStaticVariables (M : Module_) (section : list (option nat)) (m : Memory) : Memory :=
  foldl (λ m p, match p with Some p => run_entry M p m | None => m end) m section.
End Reset.

(** ** The entry point *)
Definition main_name : string := "main".
Definition test_name : string := "test_main".
Definition ltest_main_name : string := "ltest_main".

Section Main.
Context (demangle uniquify : string → string).

(** The name that a value gets when it asks for [name]. *)
Definition fresh_name (name : string) (M : Module_) : string :=
  match getNamed M name with Some _ => uniquify name | None => name end.

(** [Function::Create] with the type [main_type], which has two parameters. *)
Definition create_function (name : string) (linkage : Linkage) (noundef : bool)
    (bs : list (list Instruction)) (M : Module_) : Module_ * nat :=
  let p := next_ptr M in
  (mkModule (functions M ++ [mkFun p (fresh_name name M) 2 "" linkage noundef bs])
            (globals M) (S p), p).

Definition CreateNewMain (M : Module_) : Module_ :=
  let '(M, ltest_main) := create_function ltest_main_name ExternalWeakLinkage false [] M in
  let call := mkInst (next_ptr M) (CallInst (Some ltest_main)) [VArg 0; VArg 1] in
  let ret := mkInst (S (next_ptr M)) ReturnInst [VInst (inst_id call)] in
  (create_function main_name ExternalLinkage true [[call; ret]] (set_next (next_ptr M + 2) M)).1.

(** [CloneFunctionInto]: the instructions are copied to new addresses, and
    their uses of each other follow. *)
Definition clone_value (base : nat) (v : Value) : Value :=
  match v with VInst id => VInst (base + id) | _ => v end.
Definition clone_inst (base : nat) (i : Instruction) : Instruction :=
  mkInst (base + inst_id i) (opcode i) (clone_value base <$> operands i).
Definition clone_blocks (base : nat) (bs : list (list Instruction)) : list (list Instruction) :=
  fmap (M := list) (clone_inst base) <$> bs.

(** The function is called or its address is taken. *)
Definition uses_function (p : nat) (M : Module_) : bool :=
  existsb (λ i, bool_decide (getCalledFunction i = Some p ∨ VFun p ∈ operands i))
    (concat (concat (blocks <$> functions M))).

(** The arguments of a cloned function must be mapped, and none is; a
    function that is erased must not be used any more. *)
Definition NormalizeMain (f : Function) (M : Module_) : outcome Module_ :=
  let base := S (next_ptr M) in
  _ ← cassert (arg_size f =? 0);
  let new_main := mkFun (next_ptr M) (fresh_name test_name M) 2 (fun_section f) ExternalLinkage true
                        (clone_blocks base (blocks f)) in
  let fs := filter (λ g, fun_ptr g ≠ fun_ptr f) (functions M ++ [new_main]) in
  let M := mkModule fs (globals M) (base + next_ptr M) in
  _ ← cassert (negb (uses_function (fun_ptr f) M));
  Ret M.

(** [f.setName(test_name)] and [f.setLinkage(...)]. *)
Definition rename_main (f : Function) (M : Module_) : Module_ :=
  mkModule ((λ g, if decide (fun_ptr g = fun_ptr f)
                  then mkFun (fun_ptr g) (fresh_name test_name M) (arg_size g) (fun_section g)
                             ExternalLinkage (fun_noundef g) (blocks g)
                  else g) <$> functions M) (globals M) (next_ptr M).

Definition is_main (f : Function) : bool :=
  negb (isDeclaration f) && bool_decide (demangle (fun_name f) = main_name).

Definition MainReplacer_Run (M : Module_) : outcome Module_ :=
  match list_find (λ f, is_main f = true) (functions M) with
  | None => Ret M
  | Some (_, f) =>
      M ← (if arg_size f =? 2 then Ret (rename_main f M) else NormalizeMain f M);
      Ret (CreateNewMain M)
  end.
End Main.

(** * What the passes for an external launch do

    Running the collected functions brings the globals back to their
    initializers; the program that is linked starts in [ltest_main] and still
    has the original [main], under another name. *)

(** ** Global variables *)
Section Globals.
Context (demangle : string → string).

(** The stores that bring the globals back. *)
Definition initial_stores (gs : list GlobalVariable) : list (string * Constant) :=
  omap (λ g, pair (g_name g) <$> reset_value demangle g) gs.

Definition reset_globals (gs : list GlobalVariable) (m : Memory) : Memory :=
  foldl (λ m p, <[p.1 := p.2]> m) m (initial_stores gs).

Lemma elem_of_initial_stores gs name c :
  (name, c) ∈ initial_stores gs ↔ ∃ g, g ∈ gs ∧ g_name g = name ∧ reset_value demangle g = Some c.
Proof.
  unfold initial_stores. rewrite list_elem_of_omap. split.
  - intros (g&Hg&E). exists g. destruct (reset_value demangle g); simplify_eq/=. done.
  - intros (g&Hg&<-&E). exists g. by rewrite E.
Qed.

Lemma foldl_stores l (m : Memory) name c :
  NoDup l.*1 → (name, c) ∈ l → foldl (λ m p, <[p.1 := p.2]> m) m l !! name = Some c.
Proof.
  revert m. induction l as [|[n' c'] l IH]; intros m Hnd Hin; [by apply not_elem_of_nil in Hin|].
  rewrite fmap_cons in Hnd. apply NoDup_cons in Hnd as [Hn Hnd]. simpl.
  apply elem_of_cons in Hin as [[= -> ->]|Hin]; [|by apply IH].
  clear IH Hnd. simpl in Hn. revert Hn.
  assert (Hm : <[n' := c']> m !! n' = Some c') by apply lookup_insert_eq. revert Hm.
  generalize (<[n' := c']> m). induction l as [|[n2 c2] l IH]; intros m2 Hm Hn; [done|]. simpl.
  rewrite fmap_cons, not_elem_of_cons in Hn. destruct Hn as [Hne Hn].
  apply IH; [|done]. by rewrite lookup_insert_ne.
Qed.

Lemma foldl_stores_other l (m : Memory) name :
  name ∉ l.*1 → foldl (λ m p, <[p.1 := p.2]> m) m l !! name = m !! name.
Proof.
  revert m. induction l as [|[n' c'] l IH]; intros m Hn; [done|]. simpl.
  rewrite fmap_cons, not_elem_of_cons in Hn. destruct Hn as [Hne Hn].
  rewrite IH by done. by rewrite lookup_insert_ne.
Qed.

Lemma init_functions_range n gs f :
  f ∈ init_functions demangle n gs → n ≤ fun_ptr f ∧ fun_section f = "" ∧ fun_name f = "".
Proof.
  revert n. induction gs as [|g gs IH]; intros n Hf; simpl in Hf; [by apply not_elem_of_nil in Hf|].
  destruct (reset_value demangle g); [|auto].
  apply elem_of_cons in Hf as [->|Hf]; [done|]. destruct (IH _ Hf) as (?&?&?). split; [lia|done].
Qed.

Lemma init_functions_constructors n gs :
  filter (λ f, is_constructor demangle f = true) (init_functions demangle n gs) = [].
Proof.
  pose proof (λ f Hf, proj1 (proj2 (init_functions_range n gs f Hf))) as Hs. revert Hs.
  generalize (init_functions demangle n gs). intros l. induction l as [|f l IH]; intros Hs; [done|].
  rewrite filter_cons_False; [apply IH; intros; apply Hs; by right|].
  unfold is_constructor. rewrite (Hs f) by (by left). by destruct (isDeclaration f).
Qed.

Lemma init_functions_ptrs n gs : NoDup (fun_ptr <$> init_functions demangle n gs).
Proof.
  revert n. induction gs as [|g gs IH]; intros n; simpl; [constructor|].
  destruct (reset_value demangle g); [|auto]. rewrite fmap_cons. constructor; [|auto].
  intros (f&Ef&Hf)%list_elem_of_fmap. apply init_functions_range in Hf as (Hle&_). simpl in Ef. lia.
Qed.

Lemma run_inits rc M gs n m :
  (∀ f, f ∈ init_functions demangle n gs → getFunction M (fun_ptr f) = Some f) →
  foldl (λ m p, run_entry rc M p m) m (fun_ptr <$> init_functions demangle n gs) = reset_globals gs m.
Proof.
  unfold reset_globals. revert n m. induction gs as [|g gs IH]; intros n m Hf; [done|]. simpl in *.
  destruct (reset_value demangle g) as [c|]; simpl; [|by apply IH].
  unfold run_entry at 2. simpl. pose proof (Hf (init_function n g c)) as E. simpl in E.
  rewrite E by (by left). simpl.
  apply IH. intros f Hin. apply Hf. by right.
Qed.

(** The constructors that the pass finds. *)
Definition constructors (M : Module_) : list nat :=
  fun_ptr <$> filter (λ f, is_constructor demangle f = true) (functions M).

Lemma replaced_module_ptrs M :
  module_wf M → NoDup (fun_ptr <$> functions (GlobalReplacer_Run demangle M)).
Proof.
  intros Hwf. simpl. rewrite fmap_app. apply NoDup_app. split; [apply Hwf|].
  split; [|apply init_functions_ptrs].
  intros p (f&->&Hf)%list_elem_of_fmap (f'&Ef&Hf')%list_elem_of_fmap.
  apply init_functions_range in Hf' as (Hle&_). pose proof (wf_next _ Hwf f Hf). lia.
Qed.

Lemma foldl_padding {A B} (f : A → B → A) (l : list (option B)) a :
  foldl (λ a p, match p with Some p => f a p | None => a end) a l = foldl f a (omap id l).
Proof. revert a. induction l as [|[p|] l IH]; intros a; simpl; auto. Qed.

(** Whatever a round left in memory, running the array of the section (with
    its padding) stores every initializer again and then runs the
    constructors that were found. *)
Lemma reset_static_variables rc M section m :
  module_wf M →
  let M' := GlobalReplacer_Run demangle M in
  (∃ g, g ∈ globals M' ∧ g_section g = "ltest_init" ∧
     getInitializer g = Some (ConstPointers (omap id section))) →
  (∀ g, g ∈ globals M → g_section g ≠ "ltest_init") →
  ResetStaticVariables rc M' section m =
    foldl (λ m p, rc p m) (reset_globals (globals M) m) (constructors M).
Proof.
  intros Hwf M' (g&Hg&Hsec&Hinit) Hother. unfold ResetStaticVariables.
  rewrite (foldl_padding (λ m p, run_entry rc M' p m)).
  assert (Eg : omap id section = (fun_ptr <$> init_functions demangle (next_ptr M) (globals M)) ++ constructors M).
  { simpl in Hg. unfold appendToCompilerUsed in Hg.
    apply elem_of_app in Hg as [Hg|[->| ?%not_elem_of_nil]%elem_of_cons]; [|done|done].
    apply list_elem_of_filter in Hg as [_ Hg].
    apply elem_of_app in Hg as [Hg|[->| ?%not_elem_of_nil]%elem_of_cons]; [|..|done].
    { by apply Hother in Hg. }
    simpl in Hinit. injection Hinit as <-. f_equal. unfold constructors. f_equal. rewrite filter_app.
    rewrite init_functions_constructors. apply app_nil_r. }
  rewrite Eg, foldl_app. pose proof (replaced_module_ptrs M Hwf) as Hnd.
  rewrite run_inits.
  2: { intros f Hf. apply getFunction_unique; [done|]. simpl. set_solver. }
  generalize (reset_globals (globals M) m). intros m1.
  assert (Hc : ∀ p, p ∈ constructors M → ∀ m, run_entry rc M' p m = rc p m).
  { intros p (f&->&Hf)%list_elem_of_fmap m2. apply list_elem_of_filter in Hf as [Hcon Hf].
    unfold run_entry. rewrite (getFunction_unique M' f) by (done || simpl; set_solver).
    unfold is_constructor in Hcon. rewrite !andb_true_iff in Hcon. by destruct Hcon as [[_ ->] _]. }
  clear -Hc. revert m1. induction (constructors M) as [|p l IH]; intros m1; [done|]. simpl.
  rewrite Hc by (by left). apply IH. intros; apply Hc. by right.
Qed.
End Globals.

(** ** The entry point *)
Section Main.
Context (demangle uniquify : string → string).

Lemma fresh_name_free name M :
  name ∉ fun_name <$> functions M → fresh_name uniquify name M = name.
Proof.
  intros Hn. unfold fresh_name. destruct (getNamed M name) as [F|] eqn:E; [|done].
  apply getNamed_elem in E as [HF <-]. destruct Hn. apply list_elem_of_fmap. eauto.
Qed.

Lemma clone_blocks_0 bs : clone_blocks 0 bs = bs.
Proof.
  unfold clone_blocks. rewrite <-(list_fmap_id bs) at 2. apply list_fmap_ext. intros k l _.
  rewrite <-(list_fmap_id l) at 2. apply list_fmap_ext. intros k' [id op ops] _.
  unfold clone_inst. simpl. f_equal. rewrite <-(list_fmap_id ops) at 2. apply list_fmap_ext.
  by intros k2 [].
Qed.

(** The other functions of the module. *)
Definition others (f : Function) (M : Module_) : list Function :=
  filter (λ g, fun_ptr g ≠ fun_ptr f) (functions M).

Lemma others_names f M name :
  name ∉ fun_name <$> functions M → name ∉ fun_name <$> others f M.
Proof.
  intros Hn (g&->&Hg)%list_elem_of_fmap. apply list_elem_of_filter in Hg as [_ Hg].
  apply Hn, list_elem_of_fmap. eauto.
Qed.

Lemma others_main f M :
  module_wf M → f ∈ functions M → fun_name f ∉ fun_name <$> others f M.
Proof.
  intros Hwf Hf (g&E&Hg)%list_elem_of_fmap. apply list_elem_of_filter in Hg as [Hne Hg].
  apply Hne. f_equal. apply (same_name M); [apply Hwf|done..].
Qed.

Lemma fmap_others (h : Function → Function) (l : list Function) (f : Function) :
  NoDup (fun_ptr <$> l) → f ∈ l →
  (λ g, if decide (fun_ptr g = fun_ptr f) then h g else g) <$> l ≡ₚ
  filter (λ g, fun_ptr g ≠ fun_ptr f) l ++ [h f].
Proof.
  intros Hnd Hf. apply list_elem_of_split in Hf as (l1&l2&->).
  rewrite fmap_app, fmap_cons in Hnd. apply NoDup_app in Hnd as (_&Hl1&[Hl2 _]%NoDup_cons).
  assert (Hid : ∀ l : list Function, fun_ptr f ∉ fun_ptr <$> l →
    (λ g, if decide (fun_ptr g = fun_ptr f) then h g else g) <$> l = l ∧
    filter (λ g, fun_ptr g ≠ fun_ptr f) l = l).
  { intros l. induction l as [|g l IH]; [done|]. rewrite !fmap_cons, not_elem_of_cons. intros [Hne Hn].
    destruct (IH Hn) as [E1 E2]. rewrite decide_False, filter_cons_True by done. by rewrite E1, E2. }
  assert (H1 : fun_ptr f ∉ fun_ptr <$> l1) by (intros Hin; apply (Hl1 _ Hin); by left).
  rewrite fmap_app, fmap_cons, filter_app, decide_True by done. rewrite filter_cons_False by tauto.
  destruct (Hid l1 H1) as [-> ->], (Hid l2 Hl2) as [-> ->].
  rewrite <-app_assoc. apply Permutation_app_head. apply Permutation_cons_append.
Qed.

Lemma uses_function_false p M :
  uses_function p M = false ↔ ∀ F i, F ∈ functions M → i ∈ concat (blocks F) →
    ¬ (getCalledFunction i = Some p ∨ VFun p ∈ operands i).
Proof.
  unfold uses_function. rewrite <-not_true_iff_false, existsb_exists. split.
  - intros Hno F i HF Hi Hu. apply Hno. exists i. split; [|by apply bool_decide_eq_true].
    apply list_elem_of_In, in_concat in Hi as (b&Hb&Hi). apply in_concat. exists b. split; [|done].
    apply in_concat. exists (blocks F). split; [|done]. apply list_elem_of_In, list_elem_of_fmap. eauto.
  - intros Hno (i&Hi&Hu%bool_decide_eq_true). apply in_concat in Hi as (b&Hb&Hi).
    apply in_concat in Hb as (bs&Hbs&Hb). apply list_elem_of_In, list_elem_of_fmap in Hbs as (F&->&HF).
    apply (Hno F i); [done| |done]. apply list_elem_of_In, in_concat. eauto.
Qed.

Lemma uses_function_clone f M p name sec base g n :
  f ∈ functions M → uses_function (fun_ptr f) M = false →
  uses_function (fun_ptr f)
    (mkModule (others f M ++ [mkFun p name 2 sec ExternalLinkage true (clone_blocks base (blocks f))]) g n) = false.
Proof.
  rewrite !uses_function_false. intros Hf Hno F i [HF|[->| ?%not_elem_of_nil]%elem_of_cons]%elem_of_app Hi;
    [|simpl in Hi|done].
  - apply list_elem_of_filter in HF as [_ HF]. by apply (Hno F).
  - unfold clone_blocks in Hi. apply list_elem_of_In, in_concat in Hi as (b&Hb&Hi).
    apply list_elem_of_In, list_elem_of_fmap in Hb as (b0&->&Hb0).
    apply list_elem_of_In, list_elem_of_fmap in Hi as (j&->&Hj).
    assert (Hj' : j ∈ concat (blocks f)) by (by eapply elem_of_concat).
    specialize (Hno f j Hf Hj'). intros [Hc|Hv]; apply Hno; [by left|right].
    simpl in Hv. apply list_elem_of_fmap in Hv as ([]&E&Hv); simplify_eq/=. done.
Qed.

(** What [CreateNewMain] adds. *)
Lemma CreateNewMain_ok M :
  main_name ∉ fun_name <$> functions M → ltest_main_name ∉ fun_name <$> functions M →
  ∃ p c, functions (CreateNewMain uniquify M) = functions M ++
    [mkFun p ltest_main_name 2 "" ExternalWeakLinkage false [];
     mkFun (S (S (S p))) main_name 2 "" ExternalLinkage true
       [[mkInst c (CallInst (Some p)) [VArg 0; VArg 1]; mkInst (S c) ReturnInst [VInst c]]]].
Proof.
  intros Hm Hl. unfold CreateNewMain, create_function. simpl.
  rewrite (fresh_name_free ltest_main_name) by done.
  rewrite (fresh_name_free main_name).
  - exists (next_ptr M), (S (next_ptr M)). rewrite <-app_assoc. simpl.
    do 4 f_equal. lia.
  - simpl. rewrite fmap_app. intros [?|[? | ?%not_elem_of_nil]%elem_of_cons]%elem_of_app; done.
Qed.

(** The new program starts in [ltest_main]; the body of the old [main] is
    that of [test_main], and the other functions are as they were. *)
Lemma main_replaced M k f :
  module_wf M → list_find (λ f, is_main demangle f = true) (functions M) = Some (k, f) →
  fun_name f = main_name →
  test_name ∉ fun_name <$> functions M → ltest_main_name ∉ fun_name <$> functions M →
  arg_size f = 2 ∨ (arg_size f = 0 ∧ uses_function (fun_ptr f) M = false) →
  ∃ M' T base p q c, MainReplacer_Run demangle uniquify M = Ret M' ∧
    functions M' ≡ₚ others f M ++
      [T; mkFun p ltest_main_name 2 "" ExternalWeakLinkage false [];
       mkFun q main_name 2 "" ExternalLinkage true
         [[mkInst c (CallInst (Some p)) [VArg 0; VArg 1]; mkInst (S c) ReturnInst [VInst c]]]] ∧
    fun_name T = test_name ∧ arg_size T = 2 ∧ fun_linkage T = ExternalLinkage ∧
    blocks T = clone_blocks base (blocks f).
Proof.
  intros Hwf Hfind Hname Ht Hl Hargs. unfold MainReplacer_Run. rewrite Hfind.
  apply list_find_Some in Hfind as (Hk&_&_). apply list_elem_of_lookup_2 in Hk as Hf.
  assert (∃ M1 T base, (if arg_size f =? 2 then Ret (rename_main uniquify f M) else NormalizeMain uniquify f M) = Ret M1 ∧
    functions M1 ≡ₚ others f M ++ [T] ∧ fun_name T = test_name ∧ arg_size T = 2 ∧
    fun_linkage T = ExternalLinkage ∧ blocks T = clone_blocks base (blocks f)) as (M1&T&base&E1&EF&EN&EA&EL&EB).
  { destruct Hargs as [Ha|[Ha Hu]]; rewrite Ha; simpl.
    - eexists _, _, 0. split; [done|]. split.
      + unfold rename_main, others. simpl. apply (fmap_others (λ g, mkFun (fun_ptr g) _ _ _ _ _ _)); [apply Hwf|done].
      + simpl. rewrite fresh_name_free by done. by rewrite clone_blocks_0.
    - unfold NormalizeMain. rewrite Ha. cbn [Nat.eqb cassert mbind outcome_bind].
      set (T := mkFun (next_ptr M) (fresh_name uniquify test_name M) 2 (fun_section f) ExternalLinkage true
                  (clone_blocks (S (next_ptr M)) (blocks f))).
      assert (Ef : filter (λ g, fun_ptr g ≠ fun_ptr f) (functions M ++ [T]) = others f M ++ [T]).
      { rewrite filter_app. f_equal. rewrite filter_cons_True; [done|]. simpl.
        pose proof (wf_next _ Hwf f Hf). lia. }
      assert (HU : ∀ g n, uses_function (fun_ptr f) (mkModule (others f M ++ [T]) g n) = false)
        by (intros; by apply uses_function_clone).
      rewrite Ef, HU. cbn [negb cassert mbind outcome_bind].
      eexists _, T, _. split; [reflexivity|]. split; [done|]. split; [|done].
      by apply fresh_name_free. }
  rewrite E1. cbn [mbind outcome_bind].
  assert (Hnames : ∀ n, n ∉ fun_name <$> others f M → n ≠ test_name → n ∉ fun_name <$> functions M1).
  { intros n Hn Hne. rewrite EF, fmap_app. intros [?|[? | ?%not_elem_of_nil]%elem_of_cons]%elem_of_app;
      [done|congruence|done]. }
  destruct (CreateNewMain_ok M1) as (p&c&EM).
  - apply Hnames; [|done]. rewrite <-Hname. by apply others_main.
  - apply Hnames; [|done]. by apply others_names.
  - exists (CreateNewMain uniquify M1), T, base, p, (S (S (S p))), c. split; [done|].
    split; [|done]. rewrite EM, EF, <-app_assoc. done.
Qed.
End Main.
