(* ===== verification/Litmus.v ===== *)
(** * The litmus tests of weak memory

    src/verifying/targets/wmm_litmus: two or three threads that run one
    method each on atomics, against the execution graph. A test is a list of
    initial values and a program for each thread; a slice is one access to
    shared memory, as the yield pass cuts the methods. *)
From stdpp Require Import base list gmap strings.
From Stdlib Require Import ZArith.
From S2P Require Import Prelude VectorClock WmmEvent Graph Latomic.
Local Open Scope Z_scope.

(** ** Programs *)

(** A member of [std::atomic<int>]: a function, or an operator whose value is
    the new one. *)
Inductive member :=
  | Fun (o : latomic_op Z)
  | Operator (op : AtomicRmwOp) (arg : Z).

(** What a thread does next, and where it goes on: the assertions up to its
    next access to shared memory, and the point of that access. [Assign] and
    [Read] access the plain members of the test. *)
Inductive instr (L : Type) :=
  | Atomic (loc : nat) (f : member) (k : latomic_res Z → bool * L)
  | Assign (r : nat) (v : Z) (l : bool * L)
  | Read (r : nat) (k : Z → bool * L)
  | Return.
Arguments Atomic {L} _ _ _.
Arguments Assign {L} _ _ _.
Arguments Read {L} _ _.
Arguments Return {L}.

Record thread := mkThread { Point : Type; code : Point → instr Point; point : Point }.

(** A program without loops. *)
Inductive prog := Do (i : instr prog).
Definition straight (p : prog) : thread := mkThread prog (λ '(Do i), i) p.

(** ** The machine *)
Record state := mkState { regs : list Z; atoms : list (latomic Z); execution : ExecutionGraph Z; threads : list thread }.

Inductive result :=
  | Next (s : state)
  | Violated              (** an [rassert] fails *)
  | Crashed
  | Finished.             (** the thread has returned, or there is none *)

Definition run_member (shuffle : list nat → list nat) (f : member) (e : globals) (a : latomic Z)
    (x : ExecutionGraph Z) : outcome (latomic_res Z * latomic Z * ExecutionGraph Z) :=
  match f with
  | Fun o => run_op IntOps atomic_int 0 shuffle o e a x
  | Operator op arg =>
      '(v, a, x) ← then_apply IntOps atomic_int 0 shuffle op arg e a x; Ret (ResValue v, a, x)
  end.

Definition slice (shuffle : list nat → list nat) (tid : nat) (s : state) : result :=
  match threads s !! tid with
  | None => Finished
  | Some (mkThread L code l) =>
      let next regs atoms x (k : bool * L) :=
        if k.1 then Next (mkState regs atoms x (<[tid := mkThread L code k.2]> (threads s))) else Violated in
      match code l with
      | Atomic loc f k =>
          match atoms s !! loc with
          | None => Crashed
          | Some a =>
              match run_member shuffle f (on_thread (Z.of_nat tid)) a (execution s) with
              | Ret (r, a, x) => next (regs s) (<[loc := a]> (atoms s)) x (k r)
              | _ => Crashed
              end
          end
      | Assign r v l => next (<[r := v]> (regs s)) (atoms s) (execution s) l
      | Read r k =>
          match regs s !! r with
          | None => Crashed
          | Some v => next (regs s) (atoms s) (execution s) (k v)
          end
      | Return => Finished
      end
  end.

(** A round starts with a graph that has a dummy event for each thread; then
    the test object is constructed, its atomics in order. *)
Record litmus := mkLitmus { initial_atoms : list Z; initial_regs : list Z; bodies : list thread }.

Fixpoint construct (vs : list Z) (x : ExecutionGraph Z) : outcome (list (latomic Z) * ExecutionGraph Z) :=
  match vs with
  | [] => Ret ([], x)
  | v :: vs =>
      '(a, x) ← new v (mkGlobals true false (-1)) x;
      '(l, x) ← construct vs x;
      Ret (a :: l, x)
  end.

Definition start (t : litmus) : outcome state :=
  '(l, x) ← construct (initial_atoms t) (ResetExecution (mkExec 0 empty_graph) (length (bodies t)));
  Ret (mkState (initial_regs t) l x (bodies t)).

(** ** All runs

    Threads take slices in any order, and every read tries its candidates in
    any order. *)
Inductive reaches (s : state) : nat → state → Prop :=
  | reaches_refl : reaches s 0 s
  | reaches_slice shuffle tid s1 n s2 :
      (∀ l, shuffle l ≡ₚ l) → slice shuffle tid s = Next s1 → reaches s1 n s2 → reaches s (S n) s2.

(** In every run of the test no assertion fails, nothing crashes, and there
    are fewer than [bound] slices. *)
Definition passes (bound : nat) (t : litmus) : Prop :=
  ∃ s0, start t = Ret s0 ∧ ∀ n s, reaches s0 n s → (n < bound)%nat ∧
    ∀ shuffle tid, (∀ l, shuffle l ≡ₚ l) → slice shuffle tid s ≠ Violated ∧ slice shuffle tid s ≠ Crashed.

(** Some run ends in a failed assertion. *)
Definition can_fail (t : litmus) : Prop :=
  ∃ s0 n s shuffle tid, start t = Ret s0 ∧ reaches s0 n s ∧ (∀ l, shuffle l ≡ₚ l) ∧ slice shuffle tid s = Violated.

(** ** Exploration *)
Definition candidates (f : member) (e : globals) (a : latomic Z) (x : ExecutionGraph Z) : list nat :=
  let o := match f with Fun o => o | Operator op arg => OpRmw op arg memory_order_seq_cst end in
  match op_event 0 o with
  | Some (ord, k) =>
      match OrderFromStd ord with
      | Ret ord =>
          let g := graph x in
          let ev := new_event g (locationId a) (Z.to_nat (this_thread_id e)) ord k in
          match CreatePoEdgeToEvent g ev with
          | Ret g => match event g (ev_id ev) with Ret ev => ReadFromCandidates g ev | _ => [] end
          | _ => []
          end
      | _ => []
      end
  | None => []
  end.

(** The orders in which the candidates of the next slice can come. *)
Definition orders (tid : nat) (s : state) : list (list nat) :=
  match threads s !! tid with
  | Some (mkThread L code l) =>
      match code l with
      | Atomic loc f _ =>
          match atoms s !! loc with
          | Some a => permutations (candidates f (on_thread (Z.of_nat tid)) a (execution s))
          | None => [[]]
          end
      | _ => [[]]
      end
  | None => [[]]
  end.

Fixpoint explore (fuel : nat) (s : state) : bool :=
  match fuel with
  | O => false
  | S fuel =>
      forallb (λ tid, forallb (λ order,
        match slice (λ _, order) tid s with
        | Next s => explore fuel s
        | Violated | Crashed => false
        | Finished => true
        end) (orders tid s)) (seq 0 (length (threads s)))
  end.

Fixpoint find_violation (fuel : nat) (s : state) : bool :=
  match fuel with
  | O => false
  | S fuel =>
      existsb (λ tid, existsb (λ order,
        match slice (λ _, order) tid s with
        | Next s => find_violation fuel s
        | Violated => true
        | Crashed | Finished => false
        end) (orders tid s)) (seq 0 (length (threads s)))
  end.

(** ** The exploration is exact *)
Section Shuffles.
Context (sh1 sh2 : list nat → list nat).

Lemma add_reading_event_order (g : Graph Z) e :
  (∀ g' ev, CreatePoEdgeToEvent g e = Ret g' → event g' (ev_id e) = Ret ev →
     sh1 (ReadFromCandidates g' ev) = sh2 (ReadFromCandidates g' ev)) →
  add_reading_event IntOps sh1 g e = add_reading_event IntOps sh2 g e.
Proof.
  intros H. unfold add_reading_event. destruct (CreatePoEdgeToEvent g e) as [g'| | | |] eqn:E1; try done. simpl.
  destruct (event g' (ev_id e)) as [ev| | | |] eqn:E2; try done. simpl. by rewrite (H g' ev eq_refl E2).
Qed.

Lemma run_member_order f e a x :
  sh1 (candidates f e a x) = sh2 (candidates f e a x) → run_member sh1 f e a x = run_member sh2 f e a x.
Proof.
  unfold run_member, candidates. intros H.
  assert (∀ op arg ord, f = Fun (OpRmw op arg ord) ∨ f = Operator op arg ∧ ord = memory_order_seq_cst →
    rmw IntOps atomic_int 0 sh1 op arg ord e a x = rmw IntOps atomic_int 0 sh2 op arg ord e a x) as Hrmw.
  { intros op arg ord Hf. unfold rmw. destruct (IsWmmEnabled _ _); [|done].
    destruct (OrderFromStd ord) as [m| | | |] eqn:Em; try done. simpl.
    unfold UnconditionalReadModifyWrite, AddUnconditionalRMWEvent. rewrite (add_reading_event_order _ _); [done|].
    intros g' ev E1 E2. simpl in E1, E2. destruct Hf as [->|[-> ->]]; simpl in H.
    - by rewrite Em, E1, E2 in H.
    - injection Em as <-. by rewrite E1, E2 in H. }
  destruct f as [[d ord|ord|op arg ord|sp ex d su fa]|op arg].
  - done.
  - simpl. unfold load. destruct (IsWmmEnabled _ _); [|done].
    destruct (OrderFromStd ord) as [m| | | |] eqn:Em; try done. simpl.
    unfold Load, AddReadEvent. rewrite (add_reading_event_order _ _); [done|].
    intros g' ev E1 E2. simpl in E1, E2, H. by rewrite Em, E1, E2 in H.
  - simpl. by rewrite (Hrmw op arg ord) by auto.
  - simpl. unfold compare_exchange. destruct (load_order fa); [simpl|done].
    destruct (native_cas _ _ _ _ _) as [[b ex'] cell]. destruct (IsWmmEnabled _ _); [|done].
    destruct (OrderFromStd su) as [m1| | | |] eqn:E1; try done.
    destruct (OrderFromStd fa) as [m2| | | |] eqn:E2; try done. simpl.
    unfold ReadModifyWrite, AddRMWEvent. rewrite (add_reading_event_order _ _); [done|].
    intros g' ev E3 E4. simpl in E3, E4, H. by rewrite E2, E1, E3, E4 in H.
  - simpl. unfold then_apply. by rewrite (Hrmw op arg memory_order_seq_cst) by auto.
Qed.
End Shuffles.

(** A slice depends on the order of its candidates only. *)
Lemma slice_order shuffle tid s :
  (∀ l, shuffle l ≡ₚ l) → ∃ order, order ∈ orders tid s ∧ slice shuffle tid s = slice (λ _, order) tid s.
Proof.
  intros Hsh. unfold orders, slice. destruct (threads s !! tid) as [[L code l]|]; [|exists []; set_solver].
  destruct (code l) as [loc f k| | |]; try (exists []; set_solver).
  destruct (atoms s !! loc) as [a|]; [|exists []; set_solver].
  set (c := candidates f (on_thread (Z.of_nat tid)) a (execution s)). exists (shuffle c).
  split; [by apply permutations_Permutation|].
  by rewrite (run_member_order shuffle (λ _, shuffle c)).
Qed.

Lemma order_slice order tid s :
  order ∈ orders tid s → ∃ shuffle, (∀ l, shuffle l ≡ₚ l) ∧ slice shuffle tid s = slice (λ _, order) tid s.
Proof.
  unfold orders, slice. destruct (threads s !! tid) as [[L code l]|]; [|by exists id].
  destruct (code l) as [loc f k| | |]; try (by exists id).
  destruct (atoms s !! loc) as [a|]; [|by exists id].
  set (c := candidates f (on_thread (Z.of_nat tid)) a (execution s)). intros Ho%permutations_Permutation.
  exists (λ l, if decide (l = c) then order else l). split.
  - intros l'. case_decide; [by subst|done].
  - rewrite (run_member_order _ (λ _, order)); [done|]. fold c. by rewrite decide_True.
Qed.

Lemma explore_slice fuel s shuffle tid :
  explore (S fuel) s = true → (∀ l, shuffle l ≡ₚ l) →
  match slice shuffle tid s with Next s => explore fuel s = true | Violated | Crashed => False | Finished => True end.
Proof.
  intros He Hsh. destruct (slice_order shuffle tid s Hsh) as (order&Ho&->). simpl in He.
  destruct (decide (tid < length (threads s))%nat) as [Hlt|Hge].
  - rewrite forallb_forall in He. specialize (He tid). rewrite forallb_forall in He.
    specialize (He ltac:(apply in_seq; lia) order ltac:(by apply list_elem_of_In)).
    by destruct (slice (λ _, order) tid s).
  - unfold slice. by rewrite lookup_ge_None_2 by lia.
Qed.

Lemma explore_passes fuel s n s' :
  explore fuel s = true → reaches s n s' → (n < fuel)%nat ∧
  ∀ shuffle tid, (∀ l, shuffle l ≡ₚ l) → slice shuffle tid s' ≠ Violated ∧ slice shuffle tid s' ≠ Crashed.
Proof.
  intros He Hr. revert fuel He. induction Hr as [s|s sh tid s1 n s2 Hsh Hs Hr IH]; intros [|fuel] He; try done.
  - split; [lia|]. intros shuffle tid Hsh. pose proof (explore_slice fuel s shuffle tid He Hsh).
    by destruct (slice shuffle tid s).
  - pose proof (explore_slice fuel s sh tid He Hsh) as H. rewrite Hs in H. destruct (IH fuel H). split; [lia|done].
Qed.

Lemma find_violation_sound fuel s :
  find_violation fuel s = true →
  ∃ n s' shuffle tid, reaches s n s' ∧ (∀ l, shuffle l ≡ₚ l) ∧ slice shuffle tid s' = Violated.
Proof.
  revert s. induction fuel as [|fuel IH]; intros s; [done|]. simpl. rewrite existsb_exists.
  intros (tid&_&H). apply existsb_exists in H as (order&Ho&H). apply list_elem_of_In, order_slice in Ho as (sh&Hsh&E).
  destruct (slice (λ _, order) tid s) as [s1| | |] eqn:Es; try done.
  - destruct (IH s1 H) as (n&s'&sh'&tid'&Hr&?&?). exists (S n), s', sh', tid'. split; [|done].
    exact (reaches_slice s sh tid s1 n s' Hsh E Hr).
  - exists 0%nat, s, sh, tid. split; [constructor|done].
Qed.

(** ** Deciding a test *)
Definition test_passes (bound : nat) (t : litmus) : bool :=
  match start t with Ret s => explore bound s | _ => false end.
Definition test_fails (bound : nat) (t : litmus) : bool :=
  match start t with Ret s => find_violation bound s | _ => false end.

Lemma test_passes_sound bound t : test_passes bound t = true → passes bound t.
Proof.
  unfold test_passes. destruct (start t) as [s| | | |] eqn:E; try done. intros He. exists s. split; [done|].
  intros n s'. by apply explore_passes.
Qed.

Lemma test_fails_sound bound t : test_fails bound t = true → can_fail t.
Proof.
  unfold test_fails. destruct (start t) as [s| | | |] eqn:E; try done. intros (n&s'&sh&tid&?)%find_violation_sound.
  by exists s, n, s', sh, tid.
Qed.
