(* ===== verification/LitmusTests.v ===== *)
(** * The litmus tests

    One [litmus] for each file of src/verifying/targets/wmm_litmus, with its
    name there. The atomics are [x] and [y], in this order; the results of
    loads into local variables are Rocq variables. *)
From Stdlib Require Import ZArith.
From stdpp Require Import base list strings.
From S2P Require Import Prelude WmmEvent Graph Latomic Litmus.

Local Open Scope Z_scope.

Definition x : nat := 0.
Definition y : nat := 1.

Definition sc := memory_order_seq_cst.
Definition relaxed := memory_order_relaxed.
Definition acquire := memory_order_acquire.
Definition release := memory_order_release.

(** ** Statements *)
Definition value (r : latomic_res Z) : Z := match r with ResValue v => v | _ => 0 end.

(** A statement list: the assertions before its first access, and the
    accesses. *)
Definition block : Type := bool * prog.

Definition store (loc : nat) (v : Z) (order : memory_order) (p : block) : block :=
  (true, Do (Atomic loc (Fun (OpStore v order)) (λ _, p))).
Definition load (loc : nat) (order : memory_order) (k : Z → block) : block :=
  (true, Do (Atomic loc (Fun (OpLoad order)) (λ r, k (value r)))).
Definition rmw (loc : nat) (op : AtomicRmwOp) (arg : Z) (order : memory_order) (k : Z → block) : block :=
  (true, Do (Atomic loc (Fun (OpRmw op arg order)) (λ r, k (value r)))).
(** [++x], [x &= v] and the like. *)
Definition update (loc : nat) (op : AtomicRmwOp) (arg : Z) (k : Z → block) : block :=
  (true, Do (Atomic loc (Operator op arg) (λ r, k (value r)))).
Definition assign (r : nat) (v : Z) (p : block) : block := (true, Do (Assign r v p)).
Definition read (r : nat) (k : Z → block) : block := (true, Do (Read r k)).
Definition rassert (b : bool) (p : block) : block := (b && p.1, p.2).
Definition stop : block := (true, Do Return).

(** A method; it starts with an access. *)
Definition method (p : block) : thread := straight p.2.

(** ** litmus1_sc *)
Module Exp1Test.
Definition r1 : nat := 0.
Definition r2 : nat := 1.

(** [rassert(!(r1 == 1 && r2 == 1))]: [r2] is read only if [r1] is 1. *)
Definition not_both : block :=
  read r1 (λ v1, if v1 =? 1 then read r2 (λ v2, rassert (negb (v2 =? 1)) stop) else stop).

Definition A : block := load y sc (λ v, assign r1 v (store x 1 sc not_both)).
Definition B : block := load x sc (λ v, assign r2 v (store y 1 sc not_both)).

Definition test : litmus := mkLitmus [0; 0] [-1; -1] [method A; method B].
End Exp1Test.

(** ** litmus2_relaxed_sc *)
Module Exp2Test.
Definition r1 : nat := 0.
Definition A : block := store y 1 relaxed (store x 2 sc stop).
Definition B : block :=
  load x sc (λ v,
    if v =? 2 then
      load y relaxed (λ v, assign r1 v (read r1 (λ v, rassert (v =? 1) stop)))
    else stop).
Definition test : litmus := mkLitmus [0; 0] [-1] [method A; method B].
End Exp2Test.

(** ** litmus3_sc, litmus4_relaxed, litmus5_ra: one program with three choices
    of memory orders *)
Section Chain.
Context (stores loads : memory_order).
Definition chain_A : block := store y 20 stores (store x 10 stores stop).
Definition chain_B : block :=
  load x loads (λ v,
    if v =? 10 then load y loads (λ v, rassert (v =? 20) (store y 10 stores stop)) else stop).
Definition chain_C : block :=
  load y loads (λ v, if v =? 10 then load x loads (λ v, rassert (v =? 10) stop) else stop).
Definition chain : litmus := mkLitmus [0; 0] [] [method chain_A; method chain_B; method chain_C].
End Chain.

Definition Exp3Test : litmus := chain sc sc.
Definition Exp4Test : litmus := chain relaxed relaxed.
Definition Exp5Test : litmus := chain release acquire.

(** ** litmus6_mixed *)
Module Exp6Test.
Definition A : block := store y 20 relaxed (store x 10 sc stop).
Definition B : block :=
  load x relaxed (λ v,
    if v =? 10 then load y sc (λ v, rassert (v =? 20) (store y 10 relaxed stop)) else stop).
Definition C : block :=
  load y acquire (λ v, if v =? 10 then load x acquire (λ v, rassert (v =? 10) stop) else stop).
Definition test : litmus := mkLitmus [0; 0] [] [method A; method B; method C].
End Exp6Test.

(** ** Loops of compare-exchanges: litmus7_rmw_sc, litmus8_rmw_sc,
    litmus9_weak_rmw *)

(** A thread is at the head of the loop, at the exchange with [expected], or
    behind the loop. *)
Inductive loop_point := Head | Cas (expected : Z) | Behind (p : prog).

Definition to_behind (p : block) : bool * loop_point := (p.1, Behind p.2).
Definition behind (p : prog) : instr loop_point :=
  match p with
  | Do (Atomic loc m k) => Atomic loc m (λ r, to_behind (k r))
  | Do (Assign r v l) => Assign r v (to_behind l)
  | Do (Read r k) => Read r (λ v, to_behind (k v))
  | Do Return => Return
  end.

(** [do expected = x.load(seq_cst); while (!x.compare_exchange_weak(expected,
    expected + 1, seq_cst))]; the native exchange may fail spuriously. *)
Definition increment_loop (spurious : bool) (k : Z → block) : thread :=
  mkThread loop_point (λ l,
    match l with
    | Head => Atomic x (Fun (OpLoad sc)) (λ r, (true, Cas (value r)))
    | Cas expected =>
        Atomic x (Fun (OpCas spurious expected (expected + 1) sc sc)) (λ r,
          match r with ResCas true expected => to_behind (k expected) | _ => (true, Head) end)
    | Behind p => behind p
    end) Head.

Module Exp7Test.
Definition A (spurious : bool) : thread :=
  increment_loop spurious (λ expected, rassert (expected =? 0) (load x sc (λ r, rassert (r =? 1) stop))).
Definition B : block := load x sc (λ r, rassert ((0 <=? r) && (r <=? 1)) stop).
Definition test (spurious : bool) : litmus := mkLitmus [0] [] [A spurious; method B].
End Exp7Test.

Module Exp8Test.
Definition A (spurious : bool) : thread :=
  increment_loop spurious (λ expected,
    load x sc (λ r,
      rassert ((expected =? 0) || (expected =? 1)) (rassert ((1 <=? r) && (r <=? 2)) stop))).
Definition B : block := store x 1 sc (load x sc (λ r, rassert ((1 <=? r) && (r <=? 2)) stop)).
Definition test (spurious : bool) : litmus := mkLitmus [0] [] [A spurious; method B].
End Exp8Test.

Module Exp9Test.
Definition A : thread :=
  mkThread loop_point (λ l,
    match l with
    | Head => Atomic x (Fun (OpCas false 0 1 relaxed relaxed)) (λ r,
                match r with ResCas true _ => to_behind (store y 1 relaxed stop) | _ => (true, Head) end)
    | Cas _ => Return
    | Behind p => behind p
    end) Head.
Definition B : block :=
  load y relaxed (λ a, load x relaxed (λ b, rassert (negb ((a =? 1) && (b =? 0))) stop)).
Definition test : litmus := mkLitmus [0; 0] [] [A; method B].
End Exp9Test.

(** ** litmus10_exchange_sc *)
Module Exp10Test.
Definition A : block :=
  store y 1 relaxed (rmw x Exchange 1 sc (λ old, rassert (old =? 0) (load x sc (λ r, rassert (r =? 1) stop)))).
Definition B : block :=
  load x sc (λ r, rassert ((0 <=? r) && (r <=? 1))
    (if r =? 1 then load y relaxed (λ r, rassert (r =? 1) stop) else stop)).
Definition test : litmus := mkLitmus [0; 0] [] [method A; method B].
End Exp10Test.

(** ** A relaxed read-modify-write of [x], then a flag: litmus11, 22, 24, 26 *)
Section StaleRead.
Context (op : AtomicRmwOp) (arg init : Z).
Definition stale_A : block := rmw x op arg relaxed (λ _, store y 1 relaxed stop).
Definition stale_B : block :=
  load y relaxed (λ a, load x relaxed (λ b, rassert (negb ((a =? 1) && (b =? init))) stop)).
Definition stale : litmus := mkLitmus [init; 0] [] [method stale_A; method stale_B].
End StaleRead.

Definition Exp11Test : litmus := stale FetchAdd 1 0.
Definition Exp22Test : litmus := stale FetchAnd 1 3.
Definition Exp24Test : litmus := stale FetchOr 4 1.
Definition Exp26Test : litmus := stale FetchXor 1 3.

(** ** litmus17_fetchor_weak *)
Module Exp17Test.
Definition A : block := store y 1 relaxed (rmw x FetchOr 1 relaxed (λ _, stop)).
Definition B : block :=
  load x relaxed (λ rx, load y relaxed (λ ry, rassert (negb ((rx =? 1) && (ry =? 0))) stop)).
Definition test : litmus := mkLitmus [0; 0] [] [method A; method B].
End Exp17Test.

(** ** litmus12_fetchsub_relacq *)
Module Exp12Test.
Definition A : block := store y 1 relaxed (rmw x FetchSub 2 release (λ _, stop)).
Definition B : block :=
  load x acquire (λ a, load y relaxed (λ b, if a =? -1 then rassert (b =? 1) stop else stop)).
Definition test : litmus := mkLitmus [1; 0] [] [method A; method B].
End Exp12Test.

(** ** A releasing read-modify-write, read by an acquiring load: litmus16, 18,
    25 *)
Section ReleaseRmw.
Context (op : AtomicRmwOp) (arg init new : Z).
Definition relacq_A : block :=
  store y 1 relaxed (rmw x op arg release (λ prev,
    rassert (prev =? init) (load x relaxed (λ r, rassert (r =? new) stop)))).
Definition relacq_B : block :=
  load x acquire (λ a, load y relaxed (λ b, if a =? new then rassert (b =? 1) stop else stop)).
Definition relacq : litmus := mkLitmus [init; 0] [] [method relacq_A; method relacq_B].
End ReleaseRmw.

Definition Exp16Test : litmus := relacq FetchAnd 1 3 1.
Definition Exp18Test : litmus := relacq FetchXor 2 1 3.
Definition Exp25Test : litmus := relacq FetchXor 3 5 6.

(** ** The operators: litmus13, 14, 19, 20, 21 give the new value, litmus15
    and 23 the old one; [fits] is what the other thread may read *)
Section Operators.
Context (init new : Z) (fits : Z → bool).
Definition reread : block := load x sc (λ r, rassert (r =? new) stop).
Definition operator_B : block := load x sc (λ r, rassert (fits r) stop).

Definition prefix (op : AtomicRmwOp) (arg : Z) : litmus :=
  mkLitmus [init] []
    [method (update x op arg (λ v, rassert (v =? new) reread)); method operator_B].
Definition postfix (op : AtomicRmwOp) (arg : Z) : litmus :=
  mkLitmus [init] []
    [method (rmw x op arg sc (λ v, rassert (v =? init) reread)); method operator_B].
End Operators.

Definition between (a b r : Z) : bool := (a <=? r) && (r <=? b).
Definition one_of (a b r : Z) : bool := (r =? a) || (r =? b).

Definition Exp13Test : litmus := prefix 0 1 (between 0 1) FetchAdd 1.
Definition Exp14Test : litmus := prefix 1 0 (between 0 1) FetchSub 1.
Definition Exp15Test : litmus := postfix 0 1 (between 0 1) FetchAdd 1.
Definition Exp19Test : litmus := prefix 6 2 (one_of 2 6) FetchAnd 3.
Definition Exp20Test : litmus := prefix 1 5 (one_of 1 5) FetchOr 4.
Definition Exp21Test : litmus := prefix 3 2 (one_of 2 3) FetchXor 1.
Definition Exp23Test : litmus := postfix 2 1 (between 1 2) FetchSub 1.

(** * The outcomes of the litmus tests

    CMakeLists.txt in src/verifying/targets/wmm_litmus lists the tests with
    the outcome that is expected of them. *)
Local Open Scope nat_scope.

(** Each test, and whether it is expected to fail. *)
Definition litmus_tests (spurious : bool) : list (string * litmus * bool) :=
  [ ("litmus1_sc", Exp1Test.test, false);
    ("litmus2_relaxed_sc", Exp2Test.test, false);
    ("litmus3_sc", Exp3Test, false);
    ("litmus4_relaxed", Exp4Test, true);
    ("litmus5_ra", Exp5Test, false);
    ("litmus6_mixed", Exp6Test.test, true);
    ("litmus7_rmw_sc", Exp7Test.test spurious, false);
    ("litmus8_rmw_sc", Exp8Test.test spurious, false);
    ("litmus9_weak_rmw", Exp9Test.test, true);
    ("litmus10_exchange_sc", Exp10Test.test, false);
    ("litmus11_fetchadd_weak", Exp11Test, true);
    ("litmus12_fetchsub_relacq", Exp12Test.test, false);
    ("litmus13_prefix_inc_sc", Exp13Test, false);
    ("litmus14_prefix_dec_sc", Exp14Test, false);
    ("litmus15_postinc_sc", Exp15Test, false);
    ("litmus16_fetchand_relacq", Exp16Test, false);
    ("litmus17_fetchor_weak", Exp17Test.test, true);
    ("litmus18_fetchxor_relacq", Exp18Test, false);
    ("litmus19_andassign_sc", Exp19Test, false);
    ("litmus20_oreq_sc", Exp20Test, false);
    ("litmus21_xoreq_sc", Exp21Test, false);
    ("litmus22_opand_weak", Exp22Test, true);
    ("litmus23_postdec_sc", Exp23Test, false);
    ("litmus24_oreq_weak", Exp24Test, true);
    ("litmus25_xoreq_relacq", Exp25Test, false);
    ("litmus26_xoreq_weak", Exp26Test, true) ].

Definition bound : nat := 20.

Definition as_expected '((_, t, expect_fail) : string * litmus * bool) : Prop :=
  if expect_fail then can_fail t else passes bound t.
Definition as_expectedb '((_, t, expect_fail) : string * litmus * bool) : bool :=
  if (expect_fail : bool) then test_fails bound t else test_passes bound t.

Lemma as_expectedb_sound t : as_expectedb t = true → as_expected t.
Proof. destruct t as [[? t] []]; simpl; [apply test_fails_sound|apply test_passes_sound]. Qed.

Lemma litmus_tests_explored spurious : forallb as_expectedb (litmus_tests spurious) = true.
Proof. destruct spurious; vm_compute; reflexivity. Qed.

(** C40. Every litmus test of the repository has the outcome that its build
    file expects, on the execution graph behind the atomics wrapper, for all
    schedules of its threads and all orders in which reads try their
    candidates: in the tests that are expected to pass no assertion ever
    fails, no operation crashes (there is always a store to read from) and
    every run ends, loops of compare-exchanges included; each test that is
    expected to fail has a run in which one of its assertions does. *)
Theorem litmus_outcomes spurious : Forall as_expected (litmus_tests spurious).
Proof.
  apply Forall_forall. intros t Ht. apply as_expectedb_sound.
  pose proof (litmus_tests_explored spurious) as H. rewrite forallb_forall in H. apply H. by apply list_elem_of_In.
Qed.
