(* ===== verification/Machine.v ===== *)
(** * Concurrent structures and their linearization points

    The structures under src/verifying are tested slice by slice: the yield
    pass ([YieldPass]) lets another thread run after every access to shared
    memory. This file is the machine they are modelled on: a structure is its
    shared memory and, for every method, a program whose steps make one
    access each; threads call methods, and the history records invocations
    and responses as the scheduler does. The class [LinPoints] is the proof
    method: an invariant that relates the memory to a state of the
    sequential specification, and for each access the operations that take
    effect at it. The theorem about it says that then every history of the
    machine, of any number of threads and operations, is linearizable. *)
From stdpp Require Import base list gmap strings.
From S2P Require Import Prelude LinSpec Events History Linearizability Specs.
Local Open Scope nat_scope.

(** ** The machine *)

(** One access: the method goes on, is about to return, cannot run now (it
    waits for a lock), or fails an assertion. *)
Inductive slice (Sh L : Type) : Type :=
  | Goes (sh : Sh) (l : L)
  | Ends (sh : Sh) (v : ValueWrapper)
  | Blocked
  | Fails.
Arguments Goes {Sh L} _ _.
Arguments Ends {Sh L} _ _.
Arguments Blocked {Sh L}.
Arguments Fails {Sh L}.

Record Structure : Type := mkStructure {
  Shared : Type;
  Local : Type;
  shared_init : Shared;
  begin : string → Args → option Local;
  step : nat → Local → Shared → slice Shared Local
}.

Inductive tstate (L : Type) : Type :=
  | Running (l : L)
  | Returning (v : ValueWrapper).
Arguments Running {L} _.
Arguments Returning {L} _.

Record Thread (L : Type) : Type := mkThread {
  th_ptr : nat;          (** the position of its invocation *)
  th_name : string;
  th_args : Args;
  th_state : tstate L
}.
Arguments mkThread {L} _ _ _ _.
Arguments th_ptr {L} _.
Arguments th_name {L} _.
Arguments th_args {L} _.
Arguments th_state {L} _.

Definition set_state {L} (st : tstate L) (th : Thread L) : Thread L :=
  mkThread (th_ptr th) (th_name th) (th_args th) st.

Definition thread_task {L} (th : Thread L) (ret : option ValueWrapper) : Task Args ValueWrapper :=
  mkTask (th_ptr th) (th_ptr th) (Z.of_nat (th_ptr th)) (th_name th) (th_args th) ret.

Section Machine.
Context (S : Structure).

Record Config : Type := mkConfig {
  c_shared : Shared S;
  c_threads : gmap nat (Thread (Local S));
  c_history : list (HistoryEvent Args ValueWrapper)
}.

Definition initial : Config := mkConfig (shared_init S) ∅ [].

Inductive action : Type :=
  | Call (tid : nat) (name : string) (args : Args)
  | Slice (tid : nat).

Definition act (a : action) (c : Config) : option Config :=
  match a with
  | Call tid name args =>
      match c_threads c !! tid, begin S name args with
      | None, Some l =>
          let th := mkThread (length (c_history c)) name args (Running l) in
          Some (mkConfig (c_shared c) (<[tid := th]> (c_threads c))
                  (c_history c ++ [Invoke (thread_task th None) (Z.of_nat tid)]))
      | _, _ => None
      end
  | Slice tid =>
      match c_threads c !! tid with
      | Some th =>
          match th_state th with
          | Running l =>
              match step S tid l (c_shared c) with
              | Goes sh l => Some (mkConfig sh (<[tid := set_state (Running l) th]> (c_threads c)) (c_history c))
              | Ends sh v => Some (mkConfig sh (<[tid := set_state (Returning v) th]> (c_threads c)) (c_history c))
              | Blocked | Fails => None
              end
          | Returning v =>
              Some (mkConfig (c_shared c) (delete tid (c_threads c))
                      (c_history c ++ [Response (thread_task th (Some v)) v (Z.of_nat tid)]))
          end
      | None => None
      end
  end.

Fixpoint acts (l : list action) (c : Config) : option Config :=
  match l with
  | [] => Some c
  | a :: l => c ← act a c; acts l c
  end.

(** ** Linearization points *)
Context {St : Type} (methods : MethodMap St Args ValueWrapper) (s0 : St).
Abbreviation Threads := (gmap nat (Thread (Local S))).
Abbreviation Results := (gmap nat ValueWrapper).

(** The operation of thread [tid] takes effect. *)
Inductive takes_effect (T : Threads) : St * Results → St * Results → Prop :=
  | takes_effect_now tid th m s D :
      T !! tid = Some th → D !! tid = None → methods !! th_name th = Some m →
      takes_effect T (s, D) ((m s (th_args th)).1, <[tid := (m s (th_args th)).2]> D).

Class LinPoints : Type := {
  (** memory, threads, the specification, and the results of the operations
      that have taken effect and not returned yet *)
  lp_inv : Shared S → Threads → St → Results → Prop;
  lp_init : lp_inv (shared_init S) ∅ s0 ∅;
  lp_call sh T s D tid n name args l :
    lp_inv sh T s D → T !! tid = None → begin S name args = Some l →
    is_Some (methods !! name) ∧
    lp_inv sh (<[tid := mkThread n name args (Running l)]> T) s D;
  lp_goes sh T s D tid th l sh' l' :
    lp_inv sh T s D → T !! tid = Some th → th_state th = Running l → step S tid l sh = Goes sh' l' →
    ∃ s' D', rtc (takes_effect T) (s, D) (s', D') ∧
      lp_inv sh' (<[tid := set_state (Running l') th]> T) s' D';
  lp_ends sh T s D tid th l sh' v :
    lp_inv sh T s D → T !! tid = Some th → th_state th = Running l → step S tid l sh = Ends sh' v →
    ∃ s' D' v', rtc (takes_effect T) (s, D) (s', D') ∧ D' !! tid = Some v' ∧ value_eq v' v = true ∧
      lp_inv sh' (<[tid := set_state (Returning v) th]> T) s' D';
  lp_return sh T s D tid th v :
    lp_inv sh T s D → T !! tid = Some th → th_state th = Returning v →
    lp_inv sh (delete tid T) s (delete tid D)
}.
End Machine.
Arguments mkConfig {S} _ _ _.
Arguments c_shared {S} _.
Arguments c_threads {S} _.
Arguments c_history {S} _.

(** ** Every history is linearizable *)
Section Linearize.
Context (S : Structure) {St : Type} (methods : MethodMap St Args ValueWrapper) (s0 : St).
Context `{LP : !LinPoints S methods s0}.
Abbreviation History := (list (HistoryEvent Args ValueWrapper)).
Abbreviation hanswers h i r := (answers task_ptr (h : History) i r).

(** The operations of [lin], in order, with the results the specification
    gives them. *)
Inductive explains (h : History) : list (nat * ValueWrapper) → St → St → Prop :=
  | explains_nil s : explains h [] s s
  | explains_cons i v lin s s' t th m :
      h !! i = Some (Invoke t th) → methods !! task_name t = Some m →
      v = (m s (task_args t)).2 → explains h lin (m s (task_args t)).1 s' →
      explains h ((i, v) :: lin) s s'.

Lemma explains_snoc h lin s s' i t th m :
  explains h lin s s' → h !! i = Some (Invoke t th) → methods !! task_name t = Some m →
  explains h (lin ++ [(i, (m s' (task_args t)).2)]) s (m s' (task_args t)).1.
Proof. intros He Hi Hm. induction He; simpl; econstructor; eauto. constructor. Qed.

Lemma explains_app h e lin s s' : explains h lin s s' → explains (h ++ [e]) lin s s'.
Proof.
  intros He. induction He as [|i v lin s s' t th m Hi Hm Hv He IH]; [constructor|].
  econstructor; [by apply lookup_app_l_Some|done..].
Qed.

Lemma explains_lt h lin s s' i : explains h lin s s' → i ∈ lin.*1 → i < length h.
Proof.
  intros He. induction He as [|j v lin s s' t z m Hi Hm Hv _ IH]; [by intros ?%not_elem_of_nil|].
  rewrite fmap_cons. intros [->|Hin]%elem_of_cons; [|auto]. by apply lookup_lt_Some in Hi.
Qed.

(** The threads and the history. *)
Record phys (c : Config S) : Prop := {
  ph_wf : wf_history task_ptr (c_history c);
  ph_key i t th : c_history c !! i = Some (Invoke t th) → task_ptr t = i;
  ph_thread tid th : c_threads c !! tid = Some th →
    c_history c !! th_ptr th = Some (Invoke (thread_task th None) (Z.of_nat tid)) ∧
    ∀ r, ¬ hanswers (c_history c) (th_ptr th) r;
  ph_inj tid tid' th th' : c_threads c !! tid = Some th → c_threads c !! tid' = Some th' →
    th_ptr th = th_ptr th' → tid = tid'
}.

(** The linearization [lin] so far, and the results of running operations. *)
Record ghost (c : Config S) (lin : list (nat * ValueWrapper)) (s : St) (D : gmap nat ValueWrapper) : Prop := {
  gh_nodup : NoDup lin.*1;
  gh_explains : explains (c_history c) lin s0 s;
  gh_decided tid v : D !! tid = Some v → ∃ th, c_threads c !! tid = Some th ∧ (th_ptr th, v) ∈ lin;
  gh_pending tid th : c_threads c !! tid = Some th → D !! tid = None → th_ptr th ∉ lin.*1;
  gh_answered i r u w th : hanswers (c_history c) i r → c_history c !! r = Some (Response u w th) →
    ∃ v, (i, v) ∈ lin ∧ value_eq v w = true;
  gh_order p q i j vi vj r : lin !! p = Some (i, vi) → lin !! q = Some (j, vj) →
    hanswers (c_history c) i r → r < j → p < q
}.

(** *** Operations that take effect *)
Lemma ghost_effect c lin s D s' D' :
  phys c → ghost c lin s D → takes_effect S methods (c_threads c) (s, D) (s', D') →
  (∃ lin', ghost c lin' s' D') ∧ D ⊆ D'.
Proof.
  intros Hp Hg He. inversion He as [tid th m ? ? HT HD Hm]; subst.
  destruct (ph_thread _ Hp tid th HT) as [Hinv Hno].
  pose proof (gh_pending _ _ _ _ Hg tid th HT HD) as Hfresh.
  split; [|by apply insert_subseteq].
  exists (lin ++ [(th_ptr th, (m s (th_args th)).2)]). split.
  - rewrite fmap_app. apply NoDup_app. split; [apply Hg|]. split; [|apply NoDup_singleton].
    intros x Hx Hin. apply list_elem_of_singleton in Hin as ->. done.
  - apply (explains_snoc _ _ _ _ _ (thread_task th None) (Z.of_nat tid)); [apply Hg|done|done].
  - intros tid' v. destruct (decide (tid' = tid)) as [->|Hne].
    + rewrite lookup_insert_eq. intros [= <-]. exists th. split; [done|]. set_solver.
    + rewrite lookup_insert_ne by done. intros Hv.
      destruct (gh_decided _ _ _ _ Hg tid' v Hv) as (th'&?&?). exists th'. set_solver.
  - intros tid' th' HT'. destruct (decide (tid' = tid)) as [->|Hne]; [by rewrite lookup_insert_eq|].
    rewrite lookup_insert_ne by done. intros HD'. rewrite fmap_app. intros [Hin|Hin]%elem_of_app.
    + by apply (gh_pending _ _ _ _ Hg tid' th').
    + apply elem_of_cons in Hin as [E| ?%not_elem_of_nil]; [|done].
      apply Hne. by apply (ph_inj _ Hp tid' tid th' th).
  - intros i r u w z Hans Hr. destruct (gh_answered _ _ _ _ Hg i r u w z Hans Hr) as (v&?&?).
    exists v. set_solver.
  - intros p q i j vi vj r Hp' Hq Hans Hlt.
    apply lookup_app_Some in Hp' as [Hp'|[_ Hp']].
    + apply lookup_app_Some in Hq as [Hq|[Hq _]]; [by eapply (gh_order _ _ _ _ Hg)|].
      apply lookup_lt_Some in Hp'. lia.
    + apply list_lookup_singleton_Some in Hp' as [_ E]. simplify_eq. by apply Hno in Hans.
Qed.

Lemma ghost_effects c lin s D s' D' :
  phys c → ghost c lin s D → rtc (takes_effect S methods (c_threads c)) (s, D) (s', D') →
  (∃ lin', ghost c lin' s' D') ∧ D ⊆ D'.
Proof.
  intros Hp Hg He. remember (s, D) as x eqn:Ex. remember (s', D') as y eqn:Ey.
  revert lin s D Hg Ex. induction He as [x|x [s1 D1] y Hxy _ IH]; intros lin s D Hg Ex; subst.
  - simplify_eq. split; [by exists lin|done].
  - destruct (ghost_effect c lin s D s1 D1 Hp Hg Hxy) as [[lin1 Hg1] Hsub].
    destruct (IH eq_refl lin1 s1 D1 Hg1 eq_refl) as [Hex Hsub1]. split; [done|]. by etrans.
Qed.

(** *** A slice changes the state of a thread only *)
Section SetState.
Context (c : Config S) (tid : nat) (th : Thread (Local S)) (HT : c_threads c !! tid = Some th).
Context (sh : Shared S) (st : tstate (Local S)).
Let c' : Config S := mkConfig sh (<[tid := set_state st th]> (c_threads c)) (c_history c).

Lemma set_state_lookup tid' th' :
  c_threads c' !! tid' = Some th' →
  ∃ th0, c_threads c !! tid' = Some th0 ∧ th_ptr th' = th_ptr th0 ∧
    thread_task th' None = thread_task th0 None ∧ (tid' ≠ tid → th' = th0) ∧ (tid' = tid → th' = set_state st th).
Proof.
  simpl. destruct (decide (tid' = tid)) as [->|Hne].
  - rewrite lookup_insert_eq. intros [= <-]. exists th. done.
  - rewrite lookup_insert_ne by done. intros H. exists th'. done.
Qed.

Lemma phys_set_state : phys c → phys c'.
Proof.
  intros [H1 H2 H3 H4]. split; [done|done|..].
  - intros tid' th' (th0&H0&->&->&_)%set_state_lookup. by apply H3.
  - intros t1 t2 x1 x2 (y1&Hy1&->&_)%set_state_lookup (y2&Hy2&->&_)%set_state_lookup. by apply H4.
Qed.

Lemma ghost_set_state lin s D : ghost c lin s D → ghost c' lin s D.
Proof.
  intros [H1 H2 H3 H4 H5 H6]. split; try done.
  - intros tid' v Hv. destruct (H3 tid' v Hv) as (th0&H0&Hin). simpl.
    destruct (decide (tid' = tid)) as [->|Hne].
    + exists (set_state st th). rewrite lookup_insert_eq. split; [done|]. simpl. by simplify_eq.
    + exists th0. by rewrite lookup_insert_ne.
  - intros tid' th' (th0&H0&->&_)%set_state_lookup. by apply H4.
Qed.
End SetState.

(** *** The simulation *)
Record sim (c : Config S) (s : St) (D : gmap nat ValueWrapper) : Prop := {
  sm_phys : phys c;
  sm_ghost : ∃ lin, ghost c lin s D;
  sm_returning tid th v : c_threads c !! tid = Some th → th_state th = Returning v →
    ∃ v', D !! tid = Some v' ∧ value_eq v' v = true;
  sm_inv : lp_inv S methods s0 (c_shared c) (c_threads c) s D
}.

Lemma sim_init : sim (initial S) s0 ∅.
Proof.
  split; [| |done|apply lp_init].
  - by split.
  - exists []. split; simpl; try done; constructor.
Qed.

(** *** Appending to the history *)
Lemma answers_app_old (h : History) e i r :
  wf_history task_ptr (h ++ [e]) → hanswers (h ++ [e]) i r → r < length h → hanswers h i r.
Proof.
  intros Hwf Hans Hr. pose proof (answers_order _ _ _ _ _ Hwf Hans) as Hlt.
  destruct Hans as (ei&er&Hi&Her&?). exists ei, er.
  rewrite lookup_app_l in Hi by lia. rewrite lookup_app_l in Her by lia. done.
Qed.

Lemma answers_app_invoke (h : History) t z i r :
  wf_history task_ptr (h ++ [Invoke t z]) → hanswers (h ++ [Invoke t z]) i r → hanswers h i r.
Proof.
  intros Hwf Hans. eapply answers_app_old; [done..|].
  destruct Hans as (ei&er&Hi&Her&_&Ier&_). apply lookup_app_Some in Her as [Her|[_ Her]].
  - by apply lookup_lt_Some in Her.
  - apply list_lookup_singleton_Some in Her as [_ <-]. done.
Qed.

Lemma answers_in_history (h : History) i r : hanswers h i r → r < length h.
Proof. intros (?&?&_&H&_). by apply lookup_lt_Some in H. Qed.

Lemma sim_call c s D tid name args l :
  sim c s D → c_threads c !! tid = None → begin S name args = Some l →
  let th := mkThread (length (c_history c)) name args (Running l) in
  sim (mkConfig (c_shared c) (<[tid := th]> (c_threads c))
         (c_history c ++ [Invoke (thread_task th None) (Z.of_nat tid)])) s D.
Proof.
  intros [Hp [lin Hg] Hret Hinv] HT Hb th. set (h := c_history c) in *.
  set (e := Invoke (thread_task th None) (Z.of_nat tid)).
  destruct (lp_call S methods s0 _ _ _ _ tid (length h) name args l Hinv HT Hb) as [Hm Hinv'].
  destruct Hp as [Hwf Hkey Hth Hinj].
  assert (Hwf' : wf_history task_ptr (h ++ [e])).
  { apply wf_events_invoke; [done|done|]. intros ei Hin Ii Ek. destruct ei as [t z|]; [|done].
    apply list_elem_of_lookup in Hin as [i Hi]. specialize (Hkey i t z Hi). apply lookup_lt_Some in Hi.
    unfold event_key in Ek. simpl in Ek. fold h in Hi. lia. }
  assert (HD : ∀ v, D !! tid = Some v → False).
  { intros v Hv. destruct (gh_decided _ _ _ _ Hg tid v Hv) as (?&?&_). congruence. }
  assert (Hptr : ∀ t x, c_threads c !! t = Some x → th_ptr x < length h).
  { intros t x Hx. destruct (Hth t x Hx) as [Hx' _]. by apply lookup_lt_Some in Hx'. }
  split; cbn [c_history c_threads c_shared].
  - split; cbn [c_history c_threads c_shared]; [done|..].
    + intros i t z Hi. apply lookup_app_Some in Hi as [Hi|[Hle Hi]]; [by eapply Hkey|].
      apply list_lookup_singleton_Some in Hi as [E He]. unfold e in He. simplify_eq. simpl. lia.
    + intros tid' th'. destruct (decide (tid' = tid)) as [->|Hne].
      * rewrite lookup_insert_eq. intros [= <-]. simpl. split.
        { rewrite lookup_app_r by lia. by rewrite Nat.sub_diag. }
        intros r Hans. apply answers_app_invoke in Hans; [|done]. destruct Hans as (?&?&Hi&_).
        apply lookup_lt_Some in Hi. lia.
      * rewrite lookup_insert_ne by done. intros Hx. destruct (Hth tid' th' Hx) as [Hl Hno]. split.
        { by apply lookup_app_l_Some. }
        intros r Hans. apply answers_app_invoke in Hans; [|done]. by apply Hno in Hans.
    + intros t1 t2 x1 x2. destruct (decide (t1 = tid)) as [->|H1], (decide (t2 = tid)) as [->|H2];
        rewrite ?lookup_insert_eq, ?lookup_insert_ne by done; [done|..].
      * intros [= <-] Hx E. apply Hptr in Hx. simpl in E. lia.
      * intros Hx [= <-] E. apply Hptr in Hx. simpl in E. lia.
      * apply Hinj.
  - exists lin. destruct Hg as [G1 G2 G3 G4 G5 G6]. split; cbn [c_history c_threads]; [done| | | | |].
    + by apply explains_app.
    + intros t v Hv. destruct (G3 t v Hv) as (x&Hx&Hin). exists x. split; [|done].
      rewrite lookup_insert_ne; [done|]. intros ->. by apply HD in Hv.
    + intros t x. destruct (decide (t = tid)) as [->|Hne].
      * rewrite lookup_insert_eq. intros [= <-] _. simpl. intros Hin.
        pose proof (explains_lt _ _ _ _ _ G2 Hin) as Hlt. fold h in Hlt. lia.
      * rewrite lookup_insert_ne by done. apply G4.
    + intros i r u w z Hans Hr. apply answers_app_invoke in Hans as Hans'; [|done].
      pose proof (answers_in_history _ _ _ Hans') as Hlt. fold h in Hlt.
      rewrite lookup_app_l in Hr by done. by eapply G5.
    + intros p q i j vi vj r Hp' Hq Hans Hlt. apply answers_app_invoke in Hans; [|done]. by eapply G6.
  - intros t x v. destruct (decide (t = tid)) as [->|Hne].
    + rewrite lookup_insert_eq. by intros [= <-].
    + rewrite lookup_insert_ne by done. apply Hret.
  - exact Hinv'.
Qed.

Lemma sim_return c s D tid th v :
  sim c s D → c_threads c !! tid = Some th → th_state th = Returning v →
  sim (mkConfig (c_shared c) (delete tid (c_threads c))
         (c_history c ++ [Response (thread_task th (Some v)) v (Z.of_nat tid)])) s (delete tid D).
Proof.
  intros [Hp [lin Hg] Hret Hinv] HT Hst. set (h := c_history c) in *.
  set (e := Response (thread_task th (Some v)) v (Z.of_nat tid)).
  destruct Hp as [Hwf Hkey Hth Hinj]. destruct (Hth tid th HT) as [Hl Hno].
  assert (Hwf' : wf_history task_ptr (h ++ [e])).
  { apply wf_events_response; [done|done|..].
    - eexists. split; [by eapply list_elem_of_lookup_2|done].
    - intros e' Hin Ie Ek. apply list_elem_of_lookup in Hin as [r Hr]. apply (Hno r).
      eexists _, e'. split; [done|]. split; [done|]. split; [done|]. split; [done|]. by rewrite Ek. }
  assert (Hans : ∀ i r, hanswers (h ++ [e]) i r → hanswers h i r ∨ (i = th_ptr th ∧ r = length h)).
  { intros i r Ha. apply answers_snoc in Ha as [?|(->&_&ei&Hi&Ii&Ek)]; [by left| |done]. right.
    destruct ei as [t z|]; [|done]. rewrite <-(Hkey i t z Hi). split; [exact Ek|done]. }
  destruct (Hret tid th v HT Hst) as (v'&HD&Hv').
  assert (Hin : (th_ptr th, v') ∈ lin).
  { destruct (gh_decided _ _ _ _ Hg tid v' HD) as (?&?&?). by simplify_eq. }
  split; cbn [c_history c_threads c_shared].
  - split; cbn [c_history c_threads c_shared]; [done|..].
    + intros i t z Hi. apply lookup_app_Some in Hi as [Hi|[Hle Hi]]; [by eapply Hkey|].
      apply list_lookup_singleton_Some in Hi as [E He]. by unfold e in He.
    + intros t x [Hne Hx]%lookup_delete_Some. destruct (Hth t x Hx) as [Hlx Hnx].
      split; [by apply lookup_app_l_Some|].
      intros r [Ha|[E _]]%Hans; [by apply Hnx in Ha|]. apply Hne. by apply (Hinj tid t th x).
    + intros t1 t2 x1 x2 [_ H1]%lookup_delete_Some [_ H2]%lookup_delete_Some. by apply Hinj.
  - exists lin. destruct Hg as [G1 G2 G3 G4 G5 G6]. split; cbn [c_history c_threads]; [done| | | | |].
    + by apply explains_app.
    + intros t w [Hne Hw]%lookup_delete_Some. destruct (G3 t w Hw) as (x&Hx&?). exists x.
      split; [|done]. by apply lookup_delete_Some.
    + intros t x [Hne Hx]%lookup_delete_Some HDt. rewrite lookup_delete_ne in HDt by done. by apply (G4 t).
    + intros i r u w z Ha Hr. destruct (Hans i r Ha) as [Ha'|[-> ->]].
      * pose proof (answers_in_history _ _ _ Ha') as Hlt. fold h in Hlt. rewrite lookup_app_l in Hr by done. by eapply G5.
      * rewrite lookup_app_r in Hr by lia. rewrite Nat.sub_diag in Hr. unfold e in Hr. simplify_eq/=. eauto.
    + intros p q i j vi vj r Hp' Hq Ha Hlt. destruct (Hans i r Ha) as [Ha'|[-> ->]]; [by eapply G6|].
      assert (Hj : j ∈ lin.*1) by (apply list_elem_of_fmap; exists (j, vj); split; [done|by eapply list_elem_of_lookup_2]).
      pose proof (explains_lt _ _ _ _ _ G2 Hj) as Hj'. fold h in Hj'. lia.
  - intros t x w [Hne Hx]%lookup_delete_Some Hw. destruct (Hret t x w Hx Hw) as (w'&?&?). exists w'.
    split; [|done]. by rewrite lookup_delete_ne.
  - by eapply lp_return.
Qed.

(** A slice: [s'] and [D'] are after the operations that take effect. *)
Lemma sim_slice c s D s' D' tid th sh st :
  sim c s D → c_threads c !! tid = Some th → (∀ v, th_state th ≠ Returning v) →
  rtc (takes_effect S methods (c_threads c)) (s, D) (s', D') →
  (∀ v, st = Returning v → ∃ v', D' !! tid = Some v' ∧ value_eq v' v = true) →
  lp_inv S methods s0 sh (<[tid := set_state st th]> (c_threads c)) s' D' →
  sim (mkConfig sh (<[tid := set_state st th]> (c_threads c)) (c_history c)) s' D'.
Proof.
  intros [Hp [lin Hg] Hret _] HT Hrun He Hv Hinv.
  destruct (ghost_effects _ _ _ _ _ _ Hp Hg He) as [[lin' Hg'] Hsub].
  split; [by apply phys_set_state|exists lin'; by apply ghost_set_state| |done].
  intros t x v Hx Hs. apply (set_state_lookup c tid th HT sh) in Hx as (x0&Hx0&_&_&Hne&Heq).
  destruct (decide (t = tid)) as [->|Hdt].
  - rewrite (Heq eq_refl) in Hs. by apply Hv.
  - rewrite (Hne Hdt) in Hs. destruct (Hret t x0 v Hx0 Hs) as (v'&HD&?). exists v'. split; [|done].
    by eapply lookup_weaken.
Qed.

Lemma sim_act a c c' s D : sim c s D → act S a c = Some c' → ∃ s' D', sim c' s' D'.
Proof.
  intros Hs E. destruct a as [tid name args|tid]; simpl in E.
  - destruct (c_threads c !! tid) eqn:HT; [done|]. destruct (begin S name args) as [l|] eqn:Hb; [|done].
    injection E as <-. exists s, D. by apply sim_call.
  - destruct (c_threads c !! tid) as [th|] eqn:HT; [|done].
    destruct (th_state th) as [l|v] eqn:Hst.
    2: { injection E as <-. exists s, (delete tid D). by apply sim_return. }
    assert (Hrun : ∀ v, th_state th ≠ Returning v) by (intros v; congruence).
    destruct (step S tid l (c_shared c)) as [sh l'|sh v| |] eqn:Hstep; [..|done|done]; injection E as <-.
    + destruct (lp_goes S methods s0 _ _ _ _ _ _ _ _ _ (sm_inv _ _ _ Hs) HT Hst Hstep) as (s'&D'&He&Hinv).
      exists s', D'. by eapply sim_slice.
    + destruct (lp_ends S methods s0 _ _ _ _ _ _ _ _ _ (sm_inv _ _ _ Hs) HT Hst Hstep)
        as (s'&D'&v'&He&HD&Hv&Hinv).
      exists s', D'. eapply sim_slice; [done..| |done]. intros w [= <-]. eauto.
Qed.

Lemma sim_acts l c c' s D : sim c s D → acts S l c = Some c' → ∃ s' D', sim c' s' D'.
Proof.
  revert c s D. induction l as [|a l IH]; intros c s D Hs E; simpl in E; [simplify_eq; eauto|].
  destruct (act S a c) as [c1|] eqn:E1; [|done]. simpl in E.
  destruct (sim_act a c c1 s D Hs E1) as (s1&D1&Hs1). by eapply IH.
Qed.

Lemma sim_linearizable c s D : sim c s D → linearizable methods value_eq task_ptr (c_history c) s0.
Proof.
  intros [Hp [lin [G1 G2 G3 G4 G5 G6]] _ _]. exists lin.*1. split; [done|..].
  - intros i r Ha. destruct Ha as (ei&er&Hi&Hr&Ii&Ir&Ek) eqn:EH. clear EH.
    destruct er as [|u w z]; [done|]. destruct (G5 i r u w z) as (v&Hin&_); [by eexists _, _|done|].
    apply list_elem_of_fmap. by exists (i, v).
  - intros p q i j r Hp' Hq Ha Hlt. rewrite list_lookup_fmap in Hp', Hq.
    destruct (lin !! p) as [[i' vi]|] eqn:Ep; [|done]. destruct (lin !! q) as [[j' vj]|] eqn:Eq; [|done].
    simplify_eq/=. by eapply G6.
  - assert (Hag : ∀ i v, (i, v) ∈ lin → agrees value_eq task_ptr (c_history c) i v).
    { intros i v Hin r u w z Ha Hr. destruct (G5 i r u w z Ha Hr) as (v'&Hin'&Hv).
      assert (v = v') as ->; [|done].
      apply list_elem_of_lookup in Hin as [a Ea]. apply list_elem_of_lookup in Hin' as [b Eb].
      assert (a = b) as ->; [|congruence].
      eapply NoDup_lookup; [exact G1|..]; rewrite list_lookup_fmap; [by rewrite Ea|by rewrite Eb]. }
    clear -G2 Hag. revert Hag. induction G2 as [|i v lin s s' t z m Hi Hm Hv _ IH]; intros Hag; [constructor|].
    rewrite fmap_cons. econstructor; [done|done| |].
    + rewrite <-Hv. apply Hag. by left.
    + apply IH. intros; apply Hag. by right.
Qed.

(** The method is sound: a structure with linearization points has only
    linearizable histories. *)
Lemma lin_points_linearizable l c :
  acts S l (initial S) = Some c →
  wf_history task_ptr (c_history c) ∧ linearizable methods value_eq task_ptr (c_history c) s0.
Proof.
  intros E. destruct (sim_acts l _ _ _ _ sim_init E) as (s&D&Hs).
  split; [apply (sm_phys _ _ _ Hs)|by eapply sim_linearizable].
Qed.

(** The invariant holds in every state the machine reaches. *)
Lemma lin_points_reachable l c :
  acts S l (initial S) = Some c → ∃ s D, lp_inv S methods s0 (c_shared c) (c_threads c) s D.
Proof.
  intros E. destruct (sim_acts l _ _ _ _ sim_init E) as (s&D&Hs). exists s, D. apply (sm_inv _ _ _ Hs).
Qed.
End Linearize.

(** ** Structures whose operations take effect in their own slices

    The invariant is then one of the memory and one of each thread:
    [sp_mem] relates memory and specification, [sp_local] what a thread
    knows between two slices, [sp_absent] what holds of a thread that runs
    nothing (it owns no lock). Each slice keeps its own thread's part, and
    changes only what [sp_others] allows, which the parts of the other threads
    survive. *)
Section Self.
Context (S : Structure) {St : Type} (methods : MethodMap St Args ValueWrapper) (s0 : St).
Abbreviation Th := (Thread (Local S)).

(** The operation of [th] takes effect, or nothing happens. *)
Definition own_effect (th : Th) (s s' : St) (d d' : option ValueWrapper) : Prop :=
  (s' = s ∧ d' = d) ∨
  (d = None ∧ ∃ m, methods !! th_name th = Some m ∧
     s' = (m s (th_args th)).1 ∧ d' = Some (m s (th_args th)).2).

Class SelfPoints : Type := {
  sp_mem : Shared S → St → Prop;
  sp_local : Shared S → St → nat → Th → option ValueWrapper → Prop;
  sp_absent : Shared S → nat → Prop;
  sp_others : nat → Shared S → St → Shared S → St → Prop;
  sp_init : sp_mem (shared_init S) s0 ∧ ∀ tid, sp_absent (shared_init S) tid;
  sp_call sh s tid n name args l :
    begin S name args = Some l → sp_absent sh tid →
    is_Some (methods !! name) ∧ sp_local sh s tid (mkThread n name args (Running l)) None;
  sp_step sh s tid th l d sh' st :
    sp_mem sh s → sp_local sh s tid th d → th_state th = Running l →
    match step S tid l sh with
    | Goes sh1 l1 => sh1 = sh' ∧ Running l1 = st
    | Ends sh1 v => sh1 = sh' ∧ Returning v = st
    | _ => False
    end →
    ∃ s' d', own_effect th s s' d d' ∧ sp_mem sh' s' ∧ sp_local sh' s' tid (set_state st th) d' ∧
      (∀ v, st = Returning v → ∃ v', d' = Some v' ∧ value_eq v' v = true) ∧
      sp_others tid sh s sh' s';
  sp_frame tid sh s sh' s' t th o :
    sp_others tid sh s sh' s' → t ≠ tid → sp_local sh s t th o → sp_local sh' s' t th o;
  sp_frame_absent tid sh s sh' s' t :
    sp_others tid sh s sh' s' → t ≠ tid → sp_absent sh t → sp_absent sh' t;
  sp_return sh s tid th d v :
    sp_local sh s tid th d → th_state th = Returning v → sp_absent sh tid
}.

Context `{SP : !SelfPoints}.

Definition self_inv (sh : Shared S) (T : gmap nat Th) (s : St) (D : gmap nat ValueWrapper) : Prop :=
  sp_mem sh s ∧
  (∀ tid th, T !! tid = Some th → sp_local sh s tid th (D !! tid)) ∧
  (∀ tid, T !! tid = None → D !! tid = None ∧ sp_absent sh tid).

Lemma own_effect_rtc T tid th s s' D d' :
  T !! tid = Some th → own_effect th s s' (D !! tid) d' →
  ∃ D', rtc (takes_effect S methods T) (s, D) (s', D') ∧ D' !! tid = d' ∧ ∀ t, t ≠ tid → D' !! t = D !! t.
Proof.
  intros HT [[-> ->]|(Hd&m&Hm&->&->)].
  - exists D. done.
  - exists (<[tid := (m s (th_args th)).2]> D). split; [|split].
    + apply rtc_once. by econstructor.
    + apply lookup_insert_eq.
    + intros t Hne. by rewrite lookup_insert_ne.
Qed.

Lemma self_slice sh T s D tid th l sh' st :
  self_inv sh T s D → T !! tid = Some th → th_state th = Running l →
  match step S tid l sh with
  | Goes sh1 l1 => sh1 = sh' ∧ Running l1 = st
  | Ends sh1 v => sh1 = sh' ∧ Returning v = st
  | _ => False
  end →
  ∃ s' D', rtc (takes_effect S methods T) (s, D) (s', D') ∧
    (∀ v, st = Returning v → ∃ v', D' !! tid = Some v' ∧ value_eq v' v = true) ∧
    self_inv sh' (<[tid := set_state st th]> T) s' D'.
Proof.
  intros (Hm&Hl&Ha) HT Hst Hstep.
  destruct (sp_step sh s tid th l (D !! tid) sh' st Hm (Hl tid th HT) Hst Hstep)
    as (s'&d'&He&Hm'&Hl'&Hv&Hother).
  destruct (own_effect_rtc T tid th s s' D d' HT He) as (D'&Hr&Hd&Hne).
  exists s', D'. split; [done|]. split; [intros v E; rewrite Hd; auto|]. split; [done|]. split.
  - intros t x. destruct (decide (t = tid)) as [->|Hdt].
    + rewrite lookup_insert_eq. intros [= <-]. by rewrite Hd.
    + rewrite lookup_insert_ne by done. intros Hx. rewrite Hne by done. eapply sp_frame; eauto.
  - intros t. destruct (decide (t = tid)) as [->|Hdt]; [by rewrite lookup_insert_eq|].
    rewrite lookup_insert_ne by done. intros Hx. rewrite Hne by done. destruct (Ha t Hx). split; [done|]. by eapply sp_frame_absent.
Qed.

#[export] Instance self_lin_points : LinPoints S methods s0.
Proof.
  refine (Build_LinPoints S methods s0 self_inv _ _ _ _ _).
  - destruct sp_init as [Hi Ha]. split; [done|]. split; [by intros tid th|]. intros tid _. split; [done|auto].
  - intros sh T s D tid n name args l (Hm&Hl&Ha) HT Hb. destruct (Ha tid HT) as [HD Habs].
    destruct (sp_call sh s tid n name args l Hb Habs) as [Hmeth Hloc]. split; [done|]. split; [done|]. split.
    + intros t x. destruct (decide (t = tid)) as [->|Hne].
      * rewrite lookup_insert_eq. intros [= <-]. by rewrite HD.
      * rewrite lookup_insert_ne by done. apply Hl.
    + intros t. destruct (decide (t = tid)) as [->|Hne]; [by rewrite lookup_insert_eq|].
      rewrite lookup_insert_ne by done. apply Ha.
  - intros sh T s D tid th l sh' l' Hi HT Hst Hstep.
    destruct (self_slice sh T s D tid th l sh' (Running l') Hi HT Hst) as (s'&D'&Hr&_&Hi'); [by rewrite Hstep|].
    by exists s', D'.
  - intros sh T s D tid th l sh' v Hi HT Hst Hstep.
    destruct (self_slice sh T s D tid th l sh' (Returning v) Hi HT Hst) as (s'&D'&Hr&Hv&Hi'); [by rewrite Hstep|].
    destruct (Hv v eq_refl) as (v'&?&?). by exists s', D', v'.
  - intros sh T s D tid th v (Hm&Hl&Ha) HT Hst. split; [done|]. split.
    + intros t x [Hne Hx]%lookup_delete_Some. rewrite lookup_delete_ne by done. by apply Hl.
    + intros t [->|Hx]%lookup_delete_None.
      * rewrite lookup_delete_eq. split; [done|]. by eapply sp_return; [apply Hl|].
      * destruct (Ha t Hx) as [HD ?]. split; [|done]. apply lookup_delete_None. by right.
Defined.
End Self.
