(* ===== verification/Targets.v ===== *)
(** * The structures under test

    Three groups: the lock-free structures, the blocking ones and the bank.

    src/verifying/targets/*.cpp: every structure as a [Structure] of
    [Machine], one access to shared memory per slice. The atomic register is
    linearizable; the others have a history that no order of their operations
    explains. All of these but the bounded queue are mistakes made on purpose,
    which the tests have to find. *)
From stdpp Require Import base list gmap strings sets.
From S2P Require Import Prelude LinSpec Events History Linearizability Search LincheckRecursive Checkers Specs.
From S2P Require Import Machine.

Local Open Scope Z_scope.

#[export] Existing Instance Queue.queue_congruence.
#[export] Existing Instance Stack.stack_congruence.
#[export] Existing Instance BufferedChannel.bufferedchannel_congruence.
#[export] Existing Instance Set_.set_congruence.
#[export] Existing Instance LinearRegister.linearregister_congruence.
#[export] Existing Instance LinearMutex.linearmutex_congruence.
#[export] Existing Instance LinearBank.linearbank_congruence.

(** ** Refutation by a run

    A run whose history the recursive checker rejects. *)
Definition knownb {St} (sp : Spec St) (h : list (HistoryEvent Args ValueWrapper)) : bool :=
  forallb (λ e, match e with
                | Invoke t _ => match GetMethods sp !! task_name t with Some _ => true | None => false end
                | Response _ _ _ => true
                end) h.

Definition refuted {St} (S : Structure) (sp : Spec St) (l : list action) : bool :=
  match acts S l (initial S) with
  | Some c =>
      let h := c_history c in
      wf_historyb task_ptr h && knownb sp h &&
      match CheckRecursive (SpecHash sp) (SpecEquals sp) true value_eq (GetMethods sp) (spec_init sp) h with
      | Ret false => true
      | _ => false
      end
  | None => false
  end.

Definition has_bad_history {St} (S : Structure) (sp : Spec St) : Prop :=
  ∃ l c, acts S l (initial S) = Some c ∧ wf_history task_ptr (c_history c) ∧
    ¬ linearizable (GetMethods sp) value_eq task_ptr (c_history c) (spec_init sp).

Lemma refuted_sound {St} (S : Structure) (sp : Spec St) `{!SpecCongruence (GetMethods sp) (SpecEquals sp) eq} l :
  refuted S sp l = true → has_bad_history S sp.
Proof.
  unfold refuted. destruct (acts S l (initial S)) as [c|] eqn:E; [|done].
  rewrite !andb_true_iff. intros [[Hw Hk] Hc]. exists l, c. split; [done|].
  apply wf_eventsb_sound in Hw. split; [done|].
  assert (Hknown : methods_known (GetMethods sp) (c_history c)).
  { intros i t z Hi. unfold knownb in Hk. rewrite forallb_forall in Hk.
    specialize (Hk _ (proj1 (list_elem_of_In _ _) (list_elem_of_lookup_2 _ _ _ Hi))). simpl in Hk.
    destruct (GetMethods sp !! task_name t) eqn:Em; [by eexists|done]. }
  destruct (recursive_check_decides (GetMethods sp) (spec_init sp) (SpecHash sp) (SpecEquals sp)
    value_eq eq true (c_history c) Hw Hknown) as (b&Hb&Hl).
  rewrite Hb in Hc. destruct b; [done|]. rewrite <-Hl. done.
Qed.

(** A thread runs its operation to the end: [n] slices. *)
Definition run_op (tid : nat) (name : string) (args : Args) (n : nat) : list action :=
  Call tid name args :: replicate n (Slice tid).

(** An array access; outside the array it is undefined. *)
Definition get_at (a : list Z) (i : Z) : option Z :=
  if bool_decide (0 ≤ i) then a !! Z.to_nat i else None.
Definition set_at (a : list Z) (i v : Z) : list Z := <[Z.to_nat i := v]> a.

(** ** atomic_register.cpp *)
Module AtomicRegister.
Inductive pc := PAdd | PGet.

Definition begin (name : string) (_ : Args) : option pc :=
  if bool_decide (name = "add") then Some PAdd
  else if bool_decide (name = "get") then Some PGet else None.

Definition step (_ : nat) (l : pc) (x : Z) : slice Z pc :=
  match l with
  | PAdd => Ends (int32 (x + 1)) VoidValue
  | PGet => Ends x (IntValue x)
  end.

Definition structure : Structure := mkStructure Z pc 0 begin step.
End AtomicRegister.

(** ** race_register.cpp *)
Module RaceRegister.
Inductive pc := PLoad | PStore (v : Z) | PGet.

Definition begin (name : string) (_ : Args) : option pc :=
  if bool_decide (name = "add") then Some PLoad
  else if bool_decide (name = "get") then Some PGet else None.

Definition step (_ : nat) (l : pc) (x : Z) : slice Z pc :=
  match l with
  | PLoad => Goes x (PStore (int32 (x + 1)))
  | PStore v => Ends v VoidValue
  | PGet => Ends x (IntValue x)
  end.

Definition structure : Structure := mkStructure Z pc 0 begin step.
End RaceRegister.

(** ** nonlinear_queue.cpp *)
Module SlotsQueue.
Definition N : nat := 100.

Record t := mk { a : list Z; head : Z }.

Inductive pc :=
  | PushAdd (v : Z) | PushStore (v pos : Z)
  | PopHead | PopLoad (last i : Z) | PopCas (last i e : Z).

Definition begin (name : string) (args : Args) : option pc :=
  if bool_decide (name = "Push") then Some (PushAdd (arg 0 args))
  else if bool_decide (name = "Pop") then Some PopHead else None.

(** [i < last] of the loop in [Pop]. *)
Definition pop_loop (q : t) (last i : Z) : slice t pc :=
  if bool_decide (i < last) then Goes q (PopLoad last i) else Ends q (IntValue 0).

Definition step (_ : nat) (l : pc) (q : t) : slice t pc :=
  match l with
  | PushAdd v => Goes (mk (a q) (int32 (head q + 1))) (PushStore v (head q))
  | PushStore v pos =>
      match get_at (a q) pos with
      | Some _ => Ends (mk (set_at (a q) pos v) (head q)) VoidValue
      | None => Fails
      end
  | PopHead => pop_loop q (head q) 0
  | PopLoad last i =>
      match get_at (a q) i with
      | Some e => if bool_decide (e ≠ 0) then Goes q (PopCas last i e) else pop_loop q last (i + 1)
      | None => Fails
      end
  | PopCas last i e =>
      match get_at (a q) i with
      | Some x =>
          if bool_decide (x = e) then Ends (mk (set_at (a q) i 0) (head q)) (IntValue e)
          else pop_loop q last (i + 1)
      | None => Fails
      end
  end.

Definition structure : Structure := mkStructure t pc (mk (replicate N 0) 0) begin step.
End SlotsQueue.

(** ** nonlinear_set.cpp *)
Module SlotsSet.
Definition N : Z := 100.

Inductive pc :=
  | InsLoad (value i : Z) | InsCas (value i : Z) | InsReload (value i : Z)
  | EraLoad (value i : Z) | EraCas (value i : Z).

(** [assert(value != 0)] comes first. *)
Definition begin (name : string) (args : Args) : option pc :=
  let value := arg 0 args in
  if bool_decide (value = 0) then None
  else if bool_decide (name = "Insert") then Some (InsLoad value 0)
  else if bool_decide (name = "Erase") then Some (EraLoad value 0) else None.

(** [size_t hash = value % N; size_t idx = (hash + i) % N;] *)
Definition idx (value i : Z) : Z := u64 (u64 (Z.rem value N) + i) mod N.

Definition slot (slots : list Z) (value i : Z) : Z :=
  match get_at slots (idx value i) with Some c => c | None => 0 end.
Definition put (slots : list Z) (value i v : Z) : list Z := set_at slots (idx value i) v.

(** The next iteration of a loop, or its end. *)
Definition next (slots : list Z) (l : Z → pc) (i : Z) : slice (list Z) pc :=
  if bool_decide (i + 1 < N) then Goes slots (l (i + 1)) else Ends slots (IntValue 0).

Definition step (_ : nat) (l : pc) (slots : list Z) : slice (list Z) pc :=
  match l with
  | InsLoad value i =>
      let current := slot slots value i in
      if bool_decide (current = value) then Ends slots (IntValue 0)
      else if bool_decide (current = 0) then Goes slots (InsCas value i)
      else next slots (InsLoad value) i
  | InsCas value i =>
      if bool_decide (slot slots value i = 0) then Ends (put slots value i value) (IntValue 1)
      else Goes slots (InsReload value i)
  | InsReload value i =>
      if bool_decide (slot slots value i = value) then Ends slots (IntValue 0)
      else next slots (InsLoad value) i
  | EraLoad value i =>
      let current := slot slots value i in
      if bool_decide (current = value) then Goes slots (EraCas value i)
      else if bool_decide (current = 0) then Ends slots (IntValue 0)
      else next slots (EraLoad value) i
  | EraCas value i =>
      let current := slot slots value i in
      if bool_decide (current = value) then Ends (put slots value i 0) (IntValue 1)
      else if bool_decide (current = 0) then Ends slots (IntValue 0)
      else next slots (EraLoad value) i
  end.

Definition structure : Structure := mkStructure (list Z) pc (replicate (Z.to_nat N) 0) begin step.
End SlotsSet.

(** ** nonlinear_treiber_stack.cpp *)
Module TreiberStack.
Definition N : Z := 100.

(** The nodes are two arrays; [-1] is the null index. *)
Record t := mk { values : list Z; nexts : list Z; head : Z; free_list : Z }.

Inductive pc :=
  | PushFree (value : Z) | PushFreeNext (value node : Z) | PushFreeCas (value node next : Z)
  | PushValue (value node : Z)
  | PushHead (node time : Z) | PushNext (node time old : Z) | PushCas (node time old : Z)
  | PopHead | PopNext (node : Z) | PopCas (node next : Z) | PopValue (node : Z)
  | PopFree (node value : Z) | PopFreeNext (node value old : Z) | PopFreeCas (node value old : Z).

Definition begin (name : string) (args : Args) : option pc :=
  if bool_decide (name = "Push") then Some (PushFree (arg 0 args))
  else if bool_decide (name = "Pop") then Some PopHead else None.

Definition next_of (s : t) (node : Z) : Z := match get_at (nexts s) node with Some n => n | None => -1 end.
Definition set_next (s : t) (node n : Z) : t := mk (values s) (set_at (nexts s) node n) (head s) (free_list s).
Definition set_value (s : t) (node v : Z) : t := mk (set_at (values s) node v) (nexts s) (head s) (free_list s).
Definition set_head (s : t) (h : Z) : t := mk (values s) (nexts s) h (free_list s).
Definition set_free (s : t) (f : Z) : t := mk (values s) (nexts s) (head s) f.

Definition step (_ : nat) (l : pc) (s : t) : slice t pc :=
  match l with
  | PushFree value =>
      if bool_decide (free_list s = -1) then Ends s VoidValue
      else Goes s (PushFreeNext value (free_list s))
  | PushFreeNext value node => Goes s (PushFreeCas value node (next_of s node))
  | PushFreeCas value node next =>
      if bool_decide (free_list s = node) then Goes (set_free s next) (PushValue value node)
      else Goes s (PushFree value)
  | PushValue value node => Goes (set_value s node value) (PushHead node 0)
  | PushHead node time => Goes s (PushNext node time (head s))
  | PushNext node time old =>
      let s := set_next s node old in
      if bool_decide (time + 1 < 4) then Goes s (PushCas node (time + 1) old) else Ends s VoidValue
  | PushCas node time old =>
      if bool_decide (head s = old) then Ends (set_head s node) VoidValue
      else Goes s (PushHead node time)
  | PopHead =>
      if bool_decide (head s = -1) then Ends s (IntValue 0) else Goes s (PopNext (head s))
  | PopNext node => Goes s (PopCas node (next_of s node))
  | PopCas node next =>
      if bool_decide (head s = node) then Goes (set_head s next) (PopValue node) else Goes s PopHead
  | PopValue node =>
      Goes s (PopFree node match get_at (values s) node with Some v => v | None => 0 end)
  | PopFree node value => Goes s (PopFreeNext node value (free_list s))
  | PopFreeNext node value old => Goes (set_next s node old) (PopFreeCas node value old)
  | PopFreeCas node value old =>
      if bool_decide (free_list s = old) then Ends (set_free s node) (IntValue value)
      else Goes s (PopFree node value)
  end.

Definition start : t :=
  mk (replicate (Z.to_nat N) 0)
     ((λ i, if bool_decide (Z.of_nat i = N - 1) then -1 else Z.of_nat i + 1) <$> seq 0 (Z.to_nat N))
     (-1) 0.

Definition structure : Structure := mkStructure t pc start begin step.
End TreiberStack.

(** ** nonlinear_ms_queue.cpp *)
Module MSQueue.
Definition N : nat := 100.

(** Node [N] is [dummyNode]; a null pointer is [None]. *)
Record t := mk {
  values : list Z; nexts : list (option nat);
  head : nat; tail : nat; index : nat
}.

Inductive pc :=
  | AllocIndex (value : Z) | AllocValue (value : Z) (node : nat) | AllocNext (node : nat)
  | PushTail (node : nat) | PushNext (node tail : nat)
  | PushCheck (node tail : nat) (next : option nat)
  | PushLink (node tail : nat) | PushAdvance (node tail next : nat) | PushFinish (node tail : nat)
  | PopHead (time : nat) (value : Z) | PopTail (time : nat) (value : Z) (head : nat)
  | PopNext (time : nat) (value : Z) (head tail : nat)
  | PopCheck (time : nat) (value : Z) (head tail : nat) (next : option nat)
  | PopAdvance (time : nat) (value : Z) (tail next : nat)
  | PopValue (time : nat) (value : Z) (head : nat) (next : option nat)
  | PopCas (time : nat) (value : Z) (head next : nat).

(** [while (time++ < 3)]. *)
Definition pop_loop (time : nat) (value : Z) : pc + Z :=
  if (time <? 3)%nat then inl (PopHead (S time) value) else inr value.

Definition begin (name : string) (args : Args) : option pc :=
  if bool_decide (name = "Push") then Some (AllocIndex (arg 0 args))
  else if bool_decide (name = "Pop") then Some (PopHead 1 0) else None.

Definition next_of (q : t) (n : nat) : option nat := nexts q !! n ≫= id.
Definition set_next (q : t) (n : nat) (p : option nat) : t :=
  mk (values q) (<[n := p]> (nexts q)) (head q) (tail q) (index q).
Definition set_value (q : t) (n : nat) (v : Z) : t :=
  mk (<[n := v]> (values q)) (nexts q) (head q) (tail q) (index q).
Definition set_tail (q : t) (n : nat) : t := mk (values q) (nexts q) (head q) n (index q).
Definition set_head (q : t) (n : nat) : t := mk (values q) (nexts q) n (tail q) (index q).

Definition again (q : t) (time : nat) (value : Z) : slice t pc :=
  match pop_loop time value with inl l => Goes q l | inr v => Ends q (IntValue v) end.

Definition step (_ : nat) (l : pc) (q : t) : slice t pc :=
  match l with
  | AllocIndex value =>
      let q' := mk (values q) (nexts q) (head q) (tail q) (S (index q)) in
      if (index q <? N)%nat then Goes q' (AllocValue value (index q)) else Fails
  | AllocValue value node => Goes (set_value q node value) (AllocNext node)
  | AllocNext node => Goes (set_next q node None) (PushTail node)
  | PushTail node => Goes q (PushNext node (tail q))
  | PushNext node t => Goes q (PushCheck node t (next_of q t))
  | PushCheck node t next =>
      if bool_decide (t = tail q) then
        match next with
        | None => Goes q (PushLink node t)
        | Some n => Goes q (PushAdvance node t n)
        end
      else Goes q (PushTail node)
  | PushLink node t =>
      if bool_decide (next_of q t = None) then Goes (set_next q t (Some node)) (PushFinish node t)
      else Goes q (PushTail node)
  | PushAdvance node t n =>
      Goes (if bool_decide (tail q = t) then set_tail q n else q) (PushTail node)
  | PushFinish node t =>
      Ends (if bool_decide (tail q = t) then set_tail q node else q) VoidValue
  | PopHead time value => Goes q (PopTail time value (head q))
  | PopTail time value h => Goes q (PopNext time value h (tail q))
  | PopNext time value h t => Goes q (PopCheck time value h t (next_of q h))
  | PopCheck time value h t next =>
      if bool_decide (h = head q) then
        if bool_decide (h = t) then
          match next with
          | None => Ends q (IntValue 0)
          | Some n => Goes q (PopAdvance time value t n)
          end
        else Goes q (PopValue time value h next)
      else again q time value
  | PopAdvance time value t n =>
      again (if bool_decide (tail q = t) then set_tail q n else q) time value
  | PopValue time value h next =>
      match next with
      | Some n => Goes q (PopCas time (default 0 (values q !! n)) h n)
      | None => Fails
      end
  | PopCas time value h n =>
      if bool_decide (head q = h) then Ends (set_head q n) (IntValue value) else again q time value
  end.

Definition structure : Structure :=
  mkStructure t pc (mk (replicate (S N) 0) (replicate (S N) None) N N 0) begin step.
End MSQueue.

(** ** fast_queue.cpp *)
Module MPMCBoundedQueue.
Definition size : Z := 2.
Definition max_size : Z := size - 1.

Record t := mk { generations : list Z; vals : list Z; head : Z; tail : Z }.

Inductive pc :=
  | PushHead (value : Z) | PushGen (value h : Z) | PushCas (value h : Z) | PushVal (value h : Z) | PushDone (h : Z)
  | PopTail | PopGen (t : Z) | PopCas (t : Z) | PopVal (t : Z) | PopDone (t ret : Z).

Definition begin (name : string) (args : Args) : option pc :=
  if bool_decide (name = "Push") then Some (PushHead (arg 0 args))
  else if bool_decide (name = "Pop") then Some PopTail else None.

Definition gen (q : t) (i : Z) : Z :=
  match get_at (generations q) (Z.land i max_size) with Some g => g | None => 0 end.
Definition add_gen (q : t) (i n : Z) : t :=
  mk (set_at (generations q) (Z.land i max_size) (u64 (gen q i + n))) (vals q) (head q) (tail q).

(** The weak exchanges fail only when the values differ. *)
Definition step (_ : nat) (l : pc) (q : t) : slice t pc :=
  match l with
  | PushHead value => Goes q (PushGen value (head q))
  | PushGen value h =>
      if bool_decide (gen q h = h) then Goes q (PushCas value h)
      else if bool_decide (gen q h < h) then Ends q (IntValue 0) else Goes q (PushHead value)
  | PushCas value h =>
      if bool_decide (head q = h) then Goes (mk (generations q) (vals q) (u64 (h + 1)) (tail q)) (PushVal value h)
      else Goes q (PushHead value)
  | PushVal value h =>
      Goes (mk (generations q) (set_at (vals q) (Z.land h max_size) value) (head q) (tail q)) (PushDone h)
  | PushDone h => Ends (add_gen q h 1) (IntValue 1)
  | PopTail => Goes q (PopGen (tail q))
  | PopGen i =>
      if bool_decide (gen q i = u64 (i + 1)) then Goes q (PopCas i)
      else if bool_decide (gen q i < u64 (i + 1)) then Ends q (IntValue 0) else Goes q PopTail
  | PopCas i =>
      if bool_decide (tail q = i) then Goes (mk (generations q) (vals q) (head q) (u64 (i + 1))) (PopVal i)
      else Goes q PopTail
  | PopVal i =>
      Goes q (PopDone i match get_at (vals q) (Z.land i max_size) with Some v => v | None => 0 end)
  | PopDone i ret => Ends (add_gen q i max_size) (IntValue ret)
  end.

Definition structure : Structure := mkStructure t pc (mk [0; 1] [0; 0] 0 0) begin step.
End MPMCBoundedQueue.

(** ** The atomic register is linearizable *)
#[export] Instance atomic_register_points :
  SelfPoints AtomicRegister.structure (GetMethods LinearRegister.spec) (spec_init LinearRegister.spec).
Proof.
  refine (Build_SelfPoints AtomicRegister.structure _ _
    (λ x s, s = LinearRegister.mk x)
    (λ _ _ _ th d, match th_state th with
                   | Running AtomicRegister.PAdd => d = None ∧ th_name th = "add"
                   | Running AtomicRegister.PGet => d = None ∧ th_name th = "get"
                   | Returning _ => True
                   end)
    (λ _ _, True) (λ _ _ _ _ _, True) _ _ _ _ _ _).
  - done.
  - intros sh s tid n name args l Hb _. simpl in Hb. unfold AtomicRegister.begin in Hb.
    repeat case_bool_decide; simplify_eq/=; split; (by eexists) || done.
  - intros sh s tid th l d sh' st -> Hl Hst Hstep. rewrite Hst in Hl.
    destruct l; simpl in Hstep; destruct Hstep as [<- <-], Hl as [-> Hn];
      (eexists _, _; split; [right; split; [done|]; eexists; rewrite Hn; split; [reflexivity|split; reflexivity]|]);
      (split; [done|]; split; [done|]; split; [|done]); intros v [= <-]; eexists; (split; [reflexivity|]).
    + done.
    + by apply bool_decide_eq_true_2.
  - done.
  - done.
  - done.
Defined.

Lemma atomic_register_linearizable l c :
  acts AtomicRegister.structure l (initial AtomicRegister.structure) = Some c →
  linearizable (GetMethods LinearRegister.spec) value_eq task_ptr (c_history c) (spec_init LinearRegister.spec).
Proof. intros E. exact (proj2 (lin_points_linearizable AtomicRegister.structure _ _ l c E)). Qed.

(** ** The mistakes *)

(** An increment between the load and the store of another is lost. *)
Lemma race_register_bad : has_bad_history RaceRegister.structure LinearRegister.spec.
Proof.
  apply (refuted_sound _ _
    ([Call 0 "add" []; Slice 0] ++ run_op 1 "add" [] 3 ++ replicate 2 (Slice 0) ++ run_op 0 "get" [] 2)).
  vm_compute. reflexivity.
Qed.

(** A [Pop] that has read the bound before a [Push] misses its element after
    the older one was taken. *)
Lemma slots_queue_bad : has_bad_history SlotsQueue.structure Queue.spec.
Proof.
  apply (refuted_sound _ _
    (run_op 1 "Push" [2] 3 ++ [Call 1 "Pop" []; Slice 1] ++ run_op 0 "Push" [1] 3 ++
     run_op 0 "Pop" [] 4 ++ replicate 2 (Slice 1))).
  vm_compute. reflexivity.
Qed.

(** The scenario of the comment in nonlinear_set.cpp: an insertion that lost
    its slot to another goes on to the next one, although the value has been
    erased meanwhile, and a later insertion takes the first slot. *)
Lemma slots_set_bad : has_bad_history SlotsSet.structure Set_.spec.
Proof.
  apply (refuted_sound _ _
    ([Call 0 "Insert" [1]; Slice 0; Call 1 "Insert" [1]; Slice 1] ++ replicate 2 (Slice 0) ++ [Slice 1] ++
     run_op 0 "Erase" [1] 3 ++ replicate 4 (Slice 1) ++ run_op 1 "Insert" [1] 3)).
  vm_compute. reflexivity.
Qed.

(** A [Push] that loses the head three times gives up and reports success. *)
Lemma treiber_stack_bad : has_bad_history TreiberStack.structure Stack.spec.
Proof.
  apply (refuted_sound _ _
    ([Call 0 "Push" [5]] ++ replicate 5 (Slice 0) ++
     run_op 1 "Push" [1] 8 ++ replicate 3 (Slice 0) ++ run_op 1 "Push" [2] 8 ++ replicate 3 (Slice 0) ++
     run_op 1 "Push" [3] 8 ++ replicate 5 (Slice 0) ++
     run_op 1 "Pop" [] 8 ++ run_op 1 "Pop" [] 8 ++ run_op 1 "Pop" [] 8 ++ run_op 1 "Pop" [] 2)).
  vm_compute. reflexivity.
Qed.

(** A [Pop] that loses the head three times returns an element that another
    one has taken. *)
Lemma ms_queue_bad : has_bad_history MSQueue.structure Queue.spec.
Proof.
  apply (refuted_sound _ _
    (run_op 1 "Push" [1] 9 ++ run_op 1 "Push" [2] 9 ++ run_op 1 "Push" [3] 9 ++
     [Call 0 "Pop" []] ++ replicate 5 (Slice 0) ++ run_op 1 "Pop" [] 7 ++ replicate 6 (Slice 0) ++
     run_op 1 "Pop" [] 7 ++ replicate 6 (Slice 0) ++ run_op 1 "Pop" [] 7 ++ replicate 2 (Slice 0))).
  vm_compute. reflexivity.
Qed.

(** The bounded queue refuses a third element; the specification is that of
    an unbounded queue and takes the refusal for a success. *)
Lemma bounded_queue_bad : has_bad_history MPMCBoundedQueue.structure Queue.spec.
Proof.
  apply (refuted_sound _ _
    (run_op 0 "Push" [1] 6 ++ run_op 0 "Push" [2] 6 ++ run_op 0 "Push" [3] 3 ++
     run_op 0 "Pop" [] 6 ++ run_op 0 "Pop" [] 6 ++ run_op 0 "Pop" [] 3)).
  vm_compute. reflexivity.
Qed.

(** * The blocking structures

    src/verifying/blocking/*.cpp: structures that lock, as [Structure]s of
    [Machine]. A [std::mutex] is its owner, a [std::shared_mutex] its writer
    and readers; a slice that cannot take a lock is blocked. Waiting on a
    condition variable or a futex puts the thread into a list, from which a
    notification takes the first. Data that a lock protects is updated in one
    slice per field. *)

(** ** mutexed_register.cpp *)
Module MutexedRegister.
Record t := mk { x : Z; owner : option nat }.

Inductive pc := AddTry | AddLoad | AddStore (v : Z) | AddUnlock | GetLock | GetLoad | GetUnlock (v : Z).

Definition begin (name : string) (_ : Args) : option pc :=
  if bool_decide (name = "add") then Some AddTry
  else if bool_decide (name = "get") then Some GetLock else None.

Definition step (tid : nat) (l : pc) (r : t) : slice t pc :=
  match l with
  | AddTry => match owner r with None => Goes (mk (x r) (Some tid)) AddLoad | Some _ => Goes r AddTry end
  | AddLoad => Goes r (AddStore (int32 (x r + 1)))
  | AddStore v => Goes (mk v (owner r)) AddUnlock
  | AddUnlock => Ends (mk (x r) None) VoidValue
  | GetLock => match owner r with None => Goes (mk (x r) (Some tid)) GetLoad | Some _ => Blocked end
  | GetLoad => Goes r (GetUnlock (x r))
  | GetUnlock v => Ends (mk (x r) None) (IntValue v)
  end.

Definition structure : Structure := mkStructure t pc (mk 0 None) begin step.
End MutexedRegister.

(** ** shared_mutexed_register.cpp *)
Record RwLock := mkRw { writer : option nat; readers : gset nat }.

Definition rw_lock (tid : nat) (k : RwLock) : option RwLock :=
  if bool_decide (writer k = None ∧ readers k = ∅) then Some (mkRw (Some tid) ∅) else None.
Definition rw_unlock (k : RwLock) : RwLock := mkRw None (readers k).
Definition rw_lock_shared (tid : nat) (k : RwLock) : option RwLock :=
  if bool_decide (writer k = None) then Some (mkRw None ({[tid]} ∪ readers k)) else None.
Definition rw_unlock_shared (tid : nat) (k : RwLock) : RwLock := mkRw (writer k) (readers k ∖ {[tid]}).

Module SharedMutexedRegister.
Record t := mk { x : Z; m : RwLock }.

Inductive pc := AddLock | AddLoad | AddStore (v : Z) | AddUnlock | GetLock | GetLoad | GetUnlock (v : Z).

Definition begin (name : string) (_ : Args) : option pc :=
  if bool_decide (name = "add") then Some AddLock
  else if bool_decide (name = "get") then Some GetLock else None.

Definition step (tid : nat) (l : pc) (r : t) : slice t pc :=
  match l with
  | AddLock => match rw_lock tid (m r) with Some k => Goes (mk (x r) k) AddLoad | None => Blocked end
  | AddLoad => Goes r (AddStore (int32 (x r + 1)))
  | AddStore v => Goes (mk v (m r)) AddUnlock
  | AddUnlock => Ends (mk (x r) (rw_unlock (m r))) (IntValue 0)
  | GetLock => match rw_lock_shared tid (m r) with Some k => Goes (mk (x r) k) GetLoad | None => Blocked end
  | GetLoad => Goes r (GetUnlock (x r))
  | GetUnlock v => Ends (mk (x r) (rw_unlock_shared tid (m r))) (IntValue v)
  end.

Definition structure : Structure := mkStructure t pc (mk 0 (mkRw None ∅)) begin step.
End SharedMutexedRegister.

(** ** simple_mutex.cpp and nonlinear_mutex.cpp

    They differ in the condition of the outer loop of [Lock]. *)
Module FutexMutex.
Record t := mk { locked : Z; waiters : list nat }.

Inductive pc := LFast | LSlow | LMark | LLoad | LWait | LWaiting | USub | UStore | UWake.

Definition begin (name : string) (_ : Args) : option pc :=
  if bool_decide (name = "Lock") then Some LFast
  else if bool_decide (name = "Unlock") then Some USub else None.

(** [CompareExchange(old, ne)]: the value found, and the new state. *)
Definition CompareExchange (s : t) (old ne : Z) : Z * t :=
  (locked s, if bool_decide (locked s = old) then mk ne (waiters s) else s).

Section Lock.
Context (again : Z → bool).   (** the condition of the outer loop *)

Definition step (tid : nat) (l : pc) (s : t) : slice t pc :=
  match l with
  | LFast =>
      let '(found, s) := CompareExchange s 0 1 in
      if bool_decide (found = 0) then Ends s (IntValue 0) else Goes s LSlow
  | LSlow =>
      let '(found, s) := CompareExchange s 0 2 in
      if again found then Goes s LMark else Ends s (IntValue 0)
  | LMark =>
      let '(found, s) := CompareExchange s 1 2 in
      if bool_decide (0 < found) then Goes s LLoad else Goes s LSlow
  | LLoad => if bool_decide (locked s = 2) then Goes s LWait else Goes s LSlow
  | LWait =>
      if bool_decide (locked s = 2) then Goes (mk (locked s) (waiters s ++ [tid])) LWaiting
      else Goes s LLoad
  | LWaiting => if bool_decide (tid ∈ waiters s) then Blocked else Goes s LLoad
  | USub =>
      let s' := mk (int32 (locked s - 1)) (waiters s) in
      if bool_decide (locked s ≠ 1) then Goes s' UStore else Ends s' (IntValue 0)
  | UStore => Goes (mk 0 (waiters s)) UWake
  | UWake => Ends (mk (locked s) (drop 1 (waiters s))) (IntValue 0)
  end.

Definition structure : Structure := mkStructure t pc (mk 0 []) begin step.
End Lock.

Definition simple_again (found : Z) : bool := bool_decide (found ≠ 0).
Definition nonlinear_again (found : Z) : bool := bool_decide (found = 1).

Definition simple_mutex : Structure := structure simple_again.
Definition nonlinear_mutex : Structure := structure nonlinear_again.
End FutexMutex.

(** ** buffered_channel.cpp and nonlinear_buffered_channel.cpp

    They differ in [Send], which sets [full_] in the first only. *)
Module Channel.
Definition N : nat := 5.

Record Ring := mkRing { full : bool; empty : bool; sidx : nat; ridx : nat; queue : list Z }.
Record t := mk {
  owner : option nat; closed : bool;
  send_waiters : list nat; recv_waiters : list nat;
  ring : Ring
}.

Inductive pc :=
  | SLock (v : Z) | SClosed (v : Z) | SFull (v : Z) | SWait (v : Z) | SWaiting (v : Z)
  | SWrite (v : Z) | SIdx | SSetFull | SSetEmpty | SNotify | SUnlock
  | RLock | RClosed | REmpty | RWait | RWaiting
  | RRead | RIdx (v : Z) | RSetEmpty (v : Z) | RSetFull (v : Z) | RNotify (v : Z) | RUnlock (v : Z).

Definition begin (name : string) (args : Args) : option pc :=
  if bool_decide (name = "Send") then Some (SLock (arg 0 args))
  else if bool_decide (name = "Recv") then Some RLock else None.

(** The updates of the fields. *)
Definition write (v : Z) (r : Ring) : Ring :=
  mkRing (full r) (empty r) (sidx r) (ridx r) (<[sidx r := v]> (queue r)).
Definition next_sidx (r : Ring) : Ring :=
  mkRing (full r) (empty r) (S (sidx r) mod N) (ridx r) (queue r).
Definition set_full (r : Ring) : Ring :=
  mkRing (bool_decide (sidx r = ridx r)) (empty r) (sidx r) (ridx r) (queue r).
Definition clear_empty (r : Ring) : Ring := mkRing (full r) false (sidx r) (ridx r) (queue r).
Definition next_ridx (r : Ring) : Ring :=
  mkRing (full r) (empty r) (sidx r) (S (ridx r) mod N) (queue r).
Definition set_empty (r : Ring) : Ring :=
  mkRing (full r) (bool_decide (sidx r = ridx r)) (sidx r) (ridx r) (queue r).
Definition clear_full (r : Ring) : Ring := mkRing false (empty r) (sidx r) (ridx r) (queue r).

Definition on_ring (f : Ring → Ring) (c : t) : t :=
  mk (owner c) (closed c) (send_waiters c) (recv_waiters c) (f (ring c)).
Definition set_owner (o : option nat) (c : t) : t :=
  mk o (closed c) (send_waiters c) (recv_waiters c) (ring c).
Definition set_send (l : list nat) (c : t) : t := mk (owner c) (closed c) l (recv_waiters c) (ring c).
Definition set_recv (l : list nat) (c : t) : t := mk (owner c) (closed c) (send_waiters c) l (ring c).

Definition take_lock (tid : nat) (c : t) (l : pc) : slice t pc :=
  match owner c with None => Goes (set_owner (Some tid) c) l | Some _ => Blocked end.

Section Send.
Context (sets_full : bool).

Definition step (tid : nat) (l : pc) (c : t) : slice t pc :=
  match l with
  | SLock v => take_lock tid c (SClosed v)
  | SClosed v => Goes c (if closed c then SWrite v else SFull v)
  | SFull v => Goes c (if full (ring c) then SWait v else SWrite v)
  | SWait v => Goes (set_owner None (set_send (send_waiters c ++ [tid]) c)) (SWaiting v)
  | SWaiting v => if bool_decide (tid ∈ send_waiters c) then Blocked else take_lock tid c (SClosed v)
  | SWrite v => Goes (on_ring (write v) c) SIdx
  | SIdx => Goes (on_ring next_sidx c) (if sets_full then SSetFull else SSetEmpty)
  | SSetFull => Goes (on_ring set_full c) SSetEmpty
  | SSetEmpty => Goes (on_ring clear_empty c) SNotify
  | SNotify => Goes (set_recv (drop 1 (recv_waiters c)) c) SUnlock
  | SUnlock => Ends (set_owner None c) VoidValue
  | RLock => take_lock tid c RClosed
  | RClosed => Goes c (if closed c then RRead else REmpty)
  | REmpty => Goes c (if empty (ring c) then RWait else RRead)
  | RWait => Goes (set_owner None (set_recv (recv_waiters c ++ [tid]) c)) RWaiting
  | RWaiting => if bool_decide (tid ∈ recv_waiters c) then Blocked else take_lock tid c RClosed
  | RRead =>
      match queue (ring c) !! ridx (ring c) with Some v => Goes c (RIdx v) | None => Fails end
  | RIdx v => Goes (on_ring next_ridx c) (RSetEmpty v)
  | RSetEmpty v => Goes (on_ring set_empty c) (RSetFull v)
  | RSetFull v => Goes (on_ring clear_full c) (RNotify v)
  | RNotify v => Goes (set_send (drop 1 (send_waiters c)) c) (RUnlock v)
  | RUnlock v => Ends (set_owner None c) (IntValue v)
  end.

Definition structure : Structure :=
  mkStructure t pc (mk None false [] [] (mkRing false true 0 0 (replicate N 0))) begin step.
End Send.

Definition buffered_channel : Structure := structure true.
Definition nonlinear_buffered_channel : Structure := structure false.
End Channel.

(** ** simple_deadlock.cpp *)
Module MutexDeadlockSpec.
Record t := mk { x1 : Z; x2 : Z }.

Definition LockFirstSecond (l : t) : t := mk (int32 (x1 l - 1)) (int32 (x2 l + 1)).
Definition LockSecondFirst (l : t) : t := mk (int32 (x1 l + 1)) (int32 (x2 l - 1)).

Definition methods : MethodMap t Args ValueWrapper :=
  {[ "LockFirstSecond" := λ l _, (LockFirstSecond l, VoidValue);
     "LockSecondFirst" := λ l _, (LockSecondFirst l, VoidValue) ]}.

Definition MutexDeadlockHash (r : t) : Z := u64 (Z.lxor (x1 r) (x2 r)).
Definition MutexDeadlockEquals (lhs rhs : t) : bool :=
  bool_decide (x1 lhs = x1 rhs) && bool_decide (x2 lhs = x2 rhs).

Definition spec : Spec t := mkSpec methods (mk 0 0) MutexDeadlockHash MutexDeadlockEquals.
End MutexDeadlockSpec.

Module MutexDeadlock.
Record t := mk { x1 : Z; x2 : Z; m1 : option nat; m2 : option nat }.

Inductive pc :=
  | FLock1 | FDec | FLock2 | FInc | FUnlock2 | FUnlock1
  | SLock2 | SDec | SLock1 | SInc | SUnlock1 | SUnlock2.

Definition begin (name : string) (_ : Args) : option pc :=
  if bool_decide (name = "LockFirstSecond") then Some FLock1
  else if bool_decide (name = "LockSecondFirst") then Some SLock2 else None.

Definition step (tid : nat) (l : pc) (s : t) : slice t pc :=
  let take1 l := match m1 s with None => Goes (mk (x1 s) (x2 s) (Some tid) (m2 s)) l | Some _ => Blocked end in
  let take2 l := match m2 s with None => Goes (mk (x1 s) (x2 s) (m1 s) (Some tid)) l | Some _ => Blocked end in
  match l with
  | FLock1 => take1 FDec
  | FDec => Goes (mk (int32 (x1 s - 1)) (x2 s) (m1 s) (m2 s)) FLock2
  | FLock2 => take2 FInc
  | FInc => Goes (mk (x1 s) (int32 (x2 s + 1)) (m1 s) (m2 s)) FUnlock2
  | FUnlock2 => Goes (mk (x1 s) (x2 s) (m1 s) None) FUnlock1
  | FUnlock1 => Ends (mk (x1 s) (x2 s) None (m2 s)) VoidValue
  | SLock2 => take2 SDec
  | SDec => Goes (mk (x1 s) (int32 (x2 s - 1)) (m1 s) (m2 s)) SLock1
  | SLock1 => take1 SInc
  | SInc => Goes (mk (int32 (x1 s + 1)) (x2 s) (m1 s) (m2 s)) SUnlock1
  | SUnlock1 => Goes (mk (x1 s) (x2 s) None (m2 s)) SUnlock2
  | SUnlock2 => Ends (mk (x1 s) (x2 s) (m1 s) None) VoidValue
  end.

Definition structure : Structure := mkStructure t pc (mk 0 0 None None) begin step.
End MutexDeadlock.

(** * The bank

    src/verifying/blocking/bank.cpp and bank_deadlock.cpp: cells with a shared
    mutex each. They differ in the order in which [Transfer] and [ReadBoth]
    take the mutexes of two cells (by index, or as the arguments come), and
    in the result of [Add]. *)

Module Bank.
Record Cell := mkCell { m : RwLock; amount : Z }.
Abbreviation t := (list Cell).   (** [cells_] *)

(** [Bank()] *)
Definition initial : t := replicate LinearBank.SIZE (mkCell (mkRw None ∅) (LinearBank.INIT / 2)).

(** Where a method stands; a number is what it has read or will return. *)
Inductive stage :=
  | AddLock | AddLoad | AddStore (v : Z) | AddUnlock
  | ReadLock | ReadLoad | ReadUnlock (v : Z)
  | SameLock | SameCheck | SameUnlock (res : Z)
  | TransferLock1 | TransferLock2 | TransferCheck
  | TransferLoadI | TransferStoreI (v : Z) | TransferLoadJ | TransferStoreJ (v : Z)
  | TransferUnlock2 (res : Z) | TransferUnlock1 (res : Z)
  | TwiceLock | TwiceLoad | TwiceUnlock (res : Z)
  | BothLock1 | BothLock2 | BothLoadI | BothLoadJ (vi : Z) | BothUnlock2 (res : Z) | BothUnlock1 (res : Z).

(** A call: its indices, its [count], and the stage. *)
Record pc := mkPc { i : nat; j : nat; count : Z; at_ : stage }.
Definition goto (l : pc) (s : stage) : pc := mkPc (i l) (j l) (count l) s.

(** The generators give indices below [SIZE] and a positive [size_t]. *)
Definition index (z : Z) : option nat :=
  if bool_decide (0 ≤ z < Z.of_nat LinearBank.SIZE) then Some (Z.to_nat z) else None.
Definition size_arg (z : Z) : option Z := if bool_decide (0 ≤ z < 2 ^ 64) then Some z else None.

Definition begin (name : string) (args : Args) : option pc :=
  i ← index (arg 0 args);
  if bool_decide (name = "Add") then c ← size_arg (arg 1 args); Some (mkPc i i c AddLock)
  else if bool_decide (name = "Read") then Some (mkPc i i 0 ReadLock)
  else
    j ← index (arg 1 args);
    if bool_decide (name = "Transfer") then
      c ← size_arg (arg 2 args); Some (mkPc i j c (if bool_decide (i = j) then SameLock else TransferLock1))
    else if bool_decide (name = "ReadBoth") then
      Some (mkPc i j 0 (if bool_decide (i = j) then TwiceLock else BothLock1))
    else None.

(** The accesses: taking and releasing the mutex of a cell, loading and
    storing its amount. *)
Definition take (f : RwLock → option RwLock) (k : nat) (b : t) (l : pc) : slice t pc :=
  match b !! k with
  | Some c => match f (m c) with Some m' => Goes (<[k := mkCell m' (amount c)]> b) l | None => Blocked end
  | None => Fails
  end.
Definition release (f : RwLock → RwLock) (k : nat) (b : t) : option t :=
  c ← b !! k; Some (<[k := mkCell (f (m c)) (amount c)]> b).
Definition load (k : nat) (b : t) (f : Z → pc) : slice t pc :=
  match b !! k with Some c => Goes b (f (amount c)) | None => Fails end.
Definition store (k : nat) (v : Z) (b : t) (l : pc) : slice t pc :=
  match b !! k with Some c => Goes (<[k := mkCell (m c) v]> b) l | None => Fails end.
Definition go (b : option t) (l : pc) : slice t pc := match b with Some b => Goes b l | None => Fails end.
Definition ends (b : option t) (v : ValueWrapper) : slice t pc := match b with Some b => Ends b v | None => Fails end.

(** The arithmetic of [int] and [size_t]. *)
Definition plus (a count : Z) : Z := int32 (u64 (u64 a + count)).
Definition minus (a count : Z) : Z := int32 (u64 (u64 a - count)).
Definition flag (b : bool) : Z := if b then 1 else 0.

Section Order.
Context (ordered : bool).   (** true in bank.cpp *)

Definition first (l : pc) : nat := if ordered then (i l `min` j l)%nat else i l.
Definition second (l : pc) : nat := if ordered then (i l `max` j l)%nat else j l.

Definition step (tid : nat) (l : pc) (b : t) : slice t pc :=
  match at_ l with
  | AddLock => take (rw_lock tid) (i l) b (goto l AddLoad)
  | AddLoad => load (i l) b (λ a, goto l (AddStore (plus a (count l))))
  | AddStore v => store (i l) v b (goto l AddUnlock)
  | AddUnlock => ends (release rw_unlock (i l) b) (if ordered then VoidValue else IntValue 0)
  | ReadLock => take (rw_lock_shared tid) (i l) b (goto l ReadLoad)
  | ReadLoad => load (i l) b (λ a, goto l (ReadUnlock a))
  | ReadUnlock v => ends (release (rw_unlock_shared tid) (i l) b) (IntValue v)
  | SameLock => take (rw_lock_shared tid) (i l) b (goto l SameCheck)
  | SameCheck => load (i l) b (λ a, goto l (SameUnlock (flag (bool_decide (count l ≤ u64 a)))))
  | SameUnlock res => ends (release (rw_unlock_shared tid) (i l) b) (IntValue res)
  | TransferLock1 => take (rw_lock tid) (first l) b (goto l TransferLock2)
  | TransferLock2 => take (rw_lock tid) (second l) b (goto l TransferCheck)
  | TransferCheck =>
      load (i l) b (λ a, goto l (if bool_decide (u64 a < count l) then TransferUnlock2 0 else TransferLoadI))
  | TransferLoadI => load (i l) b (λ a, goto l (TransferStoreI (minus a (count l))))
  | TransferStoreI v => store (i l) v b (goto l TransferLoadJ)
  | TransferLoadJ => load (j l) b (λ a, goto l (TransferStoreJ (plus a (count l))))
  | TransferStoreJ v => store (j l) v b (goto l (TransferUnlock2 1))
  | TransferUnlock2 res => go (release rw_unlock (second l) b) (goto l (TransferUnlock1 res))
  | TransferUnlock1 res => ends (release rw_unlock (first l) b) (IntValue res)
  | TwiceLock => take (rw_lock_shared tid) (i l) b (goto l TwiceLoad)
  | TwiceLoad => load (i l) b (λ a, goto l (TwiceUnlock (int32 (a * 2))))
  | TwiceUnlock res => ends (release (rw_unlock_shared tid) (i l) b) (IntValue res)
  | BothLock1 => take (rw_lock_shared tid) (first l) b (goto l BothLock2)
  | BothLock2 => take (rw_lock_shared tid) (second l) b (goto l BothLoadI)
  | BothLoadI => load (i l) b (λ a, goto l (BothLoadJ a))
  | BothLoadJ vi => load (j l) b (λ a, goto l (BothUnlock2 (int32 (vi + a))))
  | BothUnlock2 res => go (release (rw_unlock_shared tid) (second l) b) (goto l (BothUnlock1 res))
  | BothUnlock1 res => ends (release (rw_unlock_shared tid) (first l) b) (IntValue res)
  end.

Definition structure : Structure := mkStructure t pc initial begin step.
End Order.

Definition bank : Structure := structure true.
Definition bank_deadlock : Structure := structure false.
End Bank.
