(* ===== verification/TargetsCorrect.v ===== *)
(** * Which of the tested structures are linearizable

    Linearization points for the structures that are meant to be correct,
    runs that refute the others, and the runs that deadlock. *)
From Stdlib Require Import ZifyNat.
From stdpp Require Import base list gmap sets strings.
From S2P Require Import Prelude LinSpec Events History Linearizability Search LincheckRecursive Checkers Specs.
From S2P Require Import Machine Targets.

Local Open Scope Z_scope.

Definition always_linearizable {St} (S : Structure) (sp : Spec St) : Prop :=
  ∀ l c, acts S l (initial S) = Some c →
    linearizable (GetMethods sp) value_eq task_ptr (c_history c) (spec_init sp).

Lemma self_points_linearizable {St} (S : Structure) (sp : Spec St)
    `{!SelfPoints S (GetMethods sp) (spec_init sp)} : always_linearizable S sp.
Proof. intros l c E. exact (proj2 (lin_points_linearizable S _ _ l c E)). Qed.

Lemma int32_range z : -2 ^ 31 ≤ int32 z < 2 ^ 31.
Proof. unfold int32. pose proof (Z.mod_pos_bound (z + 2 ^ 31) (2 ^ 32)). lia. Qed.

(** The operation takes effect in this slice. *)
Ltac effect_now := right; split; [done|]; eexists; split; [reflexivity|split; reflexivity].
Ltac no_effect := left; split; reflexivity.

Lemma value_eq_int v : value_eq (IntValue v) (IntValue v) = true.
Proof. unfold value_eq. simpl. by rewrite bool_decide_eq_true_2. Qed.

(** The parts of a slice: specification, own thread, result, others. *)
Ltac slice_parts :=
  simpl; split; [first [reflexivity|naive_solver|idtac]|]; split; [try naive_solver|];
  split; [intros ? ?; simplify_eq; eauto using value_eq_int|try naive_solver].

(** ** mutexed_register.cpp *)
Module MutexedRegisterPoints.
Import MutexedRegister.

Definition holds (l : pc) : bool := match l with AddTry | GetLock => false | _ => true end.

Definition done_with (l : pc) (d : option ValueWrapper) : Prop :=
  match l with
  | AddUnlock => d = Some VoidValue
  | GetUnlock v => d = Some (IntValue v)
  | _ => d = None
  end.

Definition is_add (l : pc) : bool :=
  match l with AddTry | AddLoad | AddStore _ | AddUnlock => true | _ => false end.

Definition local (r : t) (_ : LinearRegister.t) (tid : nat) (th : Thread pc) (d : option ValueWrapper) : Prop :=
  match th_state th with
  | Running l =>
      th_name th = (if is_add l then "add" else "get") ∧
      (owner r = Some tid ↔ holds l = true) ∧ done_with l d ∧
      match l with AddStore v => v = int32 (x r + 1) | _ => True end
  | Returning _ => owner r ≠ Some tid
  end.

(** Only the owner changes the register, and only its own ownership. *)
Definition others (tid : nat) (r : t) (_ : LinearRegister.t) (r' : t) (_ : LinearRegister.t) : Prop :=
  (∀ t, t ≠ tid → owner r' = Some t ↔ owner r = Some t) ∧ (x r' = x r ∨ owner r = Some tid).

#[export] Instance points :
  SelfPoints structure (GetMethods LinearRegister.spec) (spec_init LinearRegister.spec).
Proof.
  refine (Build_SelfPoints structure _ _ (λ r s, s = LinearRegister.mk (x r)) local
            (λ r tid, owner r ≠ Some tid) others _ _ _ _ _ _).
  - done.
  - intros r s tid n name args l Hb Ha. simpl in Hb. unfold begin in Hb.
    repeat case_bool_decide; simplify_eq/=; (split; [by eexists|]); unfold local; simpl; naive_solver.
  - intros r s tid [ptr name args state] l d r' st -> Hl Hst Hstep. simpl in Hst. subst state.
    destruct Hl as (Hn&Ho&Hd&Hv).
    destruct l; simpl in Hstep, Ho, Hd, Hn; try (destruct (owner r) as [o|] eqn:Eo); try done;
      destruct Hstep as [<- <-]; subst.
    all: unfold local, others; simpl.
    all: try (eexists _, _; split; [no_effect|]; slice_parts; fail).
    all: eexists _, _; split; [effect_now|]; slice_parts.
  - intros tid r s r' s' t [ptr name args [l|v]] o [Ho Hx] Hne Hl; unfold local in *; simpl in *; [|naive_solver].
    destruct Hl as (?&Hh&?&?). split; [done|]. split; [rewrite Ho by done; done|]. split; [done|].
    destruct l; try done. destruct Hx as [->|Hx]; [done|]. naive_solver.
  - intros tid r s r' s' t [Ho _] Hne. by rewrite Ho.
  - intros r s tid [ptr name args state] d v Hl Hst. simpl in Hst. by subst.
Defined.
End MutexedRegisterPoints.

(** Facts about writers and readers. *)
Ltac rw_solve := set_unfold; intuition (try congruence).

(** ** shared_mutexed_register.cpp *)
Module SharedMutexedRegisterPoints.
Import SharedMutexedRegister.

Definition writes (l : pc) : bool := match l with AddLoad | AddStore _ | AddUnlock => true | _ => false end.
Definition reads (l : pc) : bool := match l with GetLoad | GetUnlock _ => true | _ => false end.
Definition is_add (l : pc) : bool :=
  match l with AddLock | AddLoad | AddStore _ | AddUnlock => true | _ => false end.

Definition done_with (l : pc) (d : option ValueWrapper) : Prop :=
  match l with
  | AddUnlock => d = Some VoidValue
  | GetUnlock v => d = Some (IntValue v)
  | _ => d = None
  end.

Definition local (r : t) (_ : LinearRegister.t) (tid : nat) (th : Thread pc) (d : option ValueWrapper) : Prop :=
  match th_state th with
  | Running l =>
      th_name th = (if is_add l then "add" else "get") ∧
      (writer (m r) = Some tid ↔ writes l = true) ∧ (tid ∈ readers (m r) ↔ reads l = true) ∧
      done_with l d ∧ match l with AddStore v => v = int32 (x r + 1) | _ => True end
  | Returning _ => writer (m r) ≠ Some tid ∧ tid ∉ readers (m r)
  end.

Definition others (tid : nat) (r : t) (_ : LinearRegister.t) (r' : t) (_ : LinearRegister.t) : Prop :=
  (∀ t, t ≠ tid → writer (m r') = Some t ↔ writer (m r) = Some t) ∧
  (∀ t, t ≠ tid → t ∈ readers (m r') ↔ t ∈ readers (m r)) ∧
  (x r' = x r ∨ writer (m r) = Some tid).

#[export] Instance points :
  SelfPoints structure (GetMethods LinearRegister.spec) (spec_init LinearRegister.spec).
Proof.
  refine (Build_SelfPoints structure _ _ (λ r s, s = LinearRegister.mk (x r)) local
            (λ r tid, writer (m r) ≠ Some tid ∧ tid ∉ readers (m r)) others _ _ _ _ _ _).
  - split; [done|]. simpl. set_solver.
  - intros r s tid n name args l Hb Ha. simpl in Hb. unfold begin in Hb.
    repeat case_bool_decide; simplify_eq/=; (split; [by eexists|]); unfold local; simpl; naive_solver.
  - intros r s tid [ptr name args state] l d r' st -> Hl Hst Hstep. simpl in Hst. subst state.
    destruct Hl as (Hn&Hw&Hr&Hd&Hv).
    destruct l; simpl in Hstep, Hw, Hr, Hd, Hn; unfold rw_lock, rw_lock_shared in Hstep;
      repeat case_bool_decide; try done; destruct Hstep as [<- <-]; subst.
    all: unfold local, others; simpl.
    1,2,4,5,7: eexists _, _; split; [no_effect|].
    6,7: eexists _, _; split; [effect_now|].
    all: simpl; split; [reflexivity|]; split; [rw_solve|]; split; [intros ? ?; simplify_eq; eauto using value_eq_int|rw_solve].
  - intros tid r s r' s' t [ptr name args [l|v]] o (Ho&Hrd&Hx) Hne Hl; unfold local in *; simpl in *.
    + destruct Hl as (?&Hh&Hh'&?&?). split; [done|]. split; [rewrite Ho by done; done|].
      split; [rewrite Hrd by done; done|]. split; [done|].
      destruct l; try done. destruct Hx as [->|Hx]; [done|]. naive_solver.
    + rewrite Ho, Hrd by done. done.
  - intros tid r s r' s' t (Ho&Hrd&_) Hne. by rewrite Ho, Hrd.
  - intros r s tid [ptr name args state] d v Hl Hst. simpl in Hst. by subst.
Defined.
End SharedMutexedRegisterPoints.

(** ** simple_mutex.cpp *)
Module FutexMutexPoints.
Import FutexMutex.

Definition is_lock (l : pc) : bool := match l with USub | UStore | UWake => false | _ => true end.

Definition local (_ : t) (_ : LinearMutex.t) (_ : nat) (th : Thread pc) (d : option ValueWrapper) : Prop :=
  match th_state th with
  | Running l =>
      th_name th = (if is_lock l then "Lock" else "Unlock") ∧
      d = (match l with UWake => Some (IntValue 0) | _ => None end)
  | Returning _ => True
  end.

Abbreviation S := simple_mutex.

(** Only the word 1 is decremented to 0. *)
Lemma int32_dec z : -2 ^ 31 ≤ z < 2 ^ 31 → int32 (z - 1) = 0 → z = 1.
Proof.
  intros Hz E. destruct (decide (z = -2 ^ 31)) as [->|Hne]; [by vm_compute in E|].
  rewrite int32_id in E by lia. lia.
Qed.

(** A free word means a free mutex; a thread takes it only then. *)
Definition mem (m : t) (s : LinearMutex.t) : Prop :=
  -2 ^ 31 ≤ locked m < 2 ^ 31 ∧ (locked m = 0 → LinearMutex.isLocked s = 0).

#[export] Instance points : SelfPoints S (GetMethods LinearMutex.spec) (spec_init LinearMutex.spec).
Proof.
  refine (Build_SelfPoints S _ _ mem local (λ _ _, True) (λ _ _ _ _ _, True) _ _ _ _ _ _); try done.
  - intros m s tid n name args l Hb _. simpl in Hb. unfold begin in Hb.
    repeat case_bool_decide; simplify_eq/=; (split; [by eexists|]); unfold local; simpl; naive_solver.
  - intros m [k] tid [ptr name args state] l d m' st [Hrange Hm] Hl Hst Hstep. simpl in Hst, Hm. subst state.
    destruct Hl as (Hn&Hd). pose proof (int32_range (locked m - 1)) as Hdec.
    pose proof (int32_dec (locked m) Hrange) as Hone.
    destruct l; simpl in Hstep, Hd, Hn; unfold simple_again in Hstep;
      repeat case_bool_decide; try done; destruct Hstep as [<- <-]; subst; unfold local, mem; simpl.
    all: try (assert (k = 0) as -> by auto).
    1,4,15,16: eexists _, _; (split; [effect_now|]); simpl.
    5-17: eexists _, _; (split; [no_effect|]); simpl.
    all: split; [split; [lia|intros ?; try done; try lia; auto]|]; (split; [done|]); (split; [|done]).
    all: intros ? ?; simplify_eq; eauto using value_eq_int.
Defined.
End FutexMutexPoints.

(** The outer loop of the other mutex ends as soon as it finds a waiter, with
    the mutex in the hands of another thread. *)
Lemma nonlinear_mutex_bad : has_bad_history FutexMutex.nonlinear_mutex LinearMutex.spec.
Proof.
  apply (refuted_sound _ _
    (run_op 0 "Lock" [] 2 ++ [Call 1 "Lock" []; Slice 1; Call 2 "Lock" []] ++ replicate 3 (Slice 2) ++
     replicate 2 (Slice 1))).
  vm_compute. reflexivity.
Qed.

(** ** buffered_channel.cpp *)
Module ChannelPoints.
Import Channel.
Abbreviation Chan := buffered_channel.

Local Ltac Zify.zify_post_hook ::= Z.to_euclidean_division_equations.
Local Arguments Nat.modulo : simpl never.

(** The ring holds the elements [q]: from [ridx] on, [length q] of them. *)
Record ring_ok (r : Ring) (q : list Z) : Prop := {
  ro_length : length (queue r) = N;
  ro_size : (length q ≤ N)%nat;
  ro_ridx : (ridx r < N)%nat;
  ro_sidx : sidx r = ((ridx r + length q) mod N)%nat;
  ro_full : full r = bool_decide (length q = N);
  ro_empty : empty r = bool_decide (length q = 0%nat);
  ro_lookup k x : q !! k = Some x → queue r !! ((ridx r + k) mod N)%nat = Some x
}.

(** All updates of [Send] add an element at the end. *)
Lemma ring_send r q v :
  ring_ok r q → full r = false → ring_ok (clear_empty (set_full (next_sidx (write v r)))) (q ++ [v]).
Proof.
  intros [Hl Hs Hr Hi Hf He Hk] Hfull. rewrite Hfull in Hf. symmetry in Hf. apply bool_decide_eq_false_1 in Hf.
  unfold N in *. split; simpl; rewrite ?length_insert, ?length_app; simpl; try done; unfold N; try lia.
  - apply bool_decide_ext. rewrite Hi. lia.
  - symmetry. apply bool_decide_eq_false_2. lia.
  - intros k x [Hq|[Hge Hq]]%lookup_app_Some.
    + pose proof (lookup_lt_Some _ _ _ Hq) as Hlt. rewrite list_lookup_insert_ne; [by apply Hk|]. rewrite Hi. lia.
    + apply list_lookup_singleton_Some in Hq as [Hz ->].
      replace ((ridx r + k) mod 5)%nat with (sidx r) by (rewrite Hi; f_equal; lia).
      apply list_lookup_insert_eq. lia.
Qed.

(** All updates of [Recv] remove the first element, which it returns. *)
Lemma ring_recv r q :
  ring_ok r q → empty r = false →
  ∃ v q', q = v :: q' ∧ queue r !! ridx r = Some v ∧ ring_ok (clear_full (set_empty (next_ridx r))) q'.
Proof.
  intros [Hl Hs Hr Hi Hf He Hk] Hempty. rewrite Hempty in He. symmetry in He. apply bool_decide_eq_false_1 in He.
  destruct q as [|v q']; [done|]. unfold N in *. exists v, q'. split; [done|]. split.
  { rewrite <-(Hk 0%nat v eq_refl). f_equal. lia. }
  simpl in *. split; simpl; try done; unfold N; try lia.
  - symmetry. apply bool_decide_eq_false_2. lia.
  - apply bool_decide_ext. rewrite Hi. lia.
  - intros k x Hq. rewrite <-(Hk (S k) x Hq). f_equal. lia.
Qed.

Definition holds (l : pc) : bool := match l with SLock _ | SWaiting _ | RLock | RWaiting => false | _ => true end.

(** What an operation still does to the ring after its effect. *)
Definition finish (l : pc) (r : Ring) : Ring :=
  match l with
  | SWrite v => clear_empty (set_full (next_sidx (write v r)))
  | SIdx => clear_empty (set_full (next_sidx r))
  | SSetFull => clear_empty (set_full r)
  | SSetEmpty => clear_empty r
  | RRead | RIdx _ => clear_full (set_empty (next_ridx r))
  | RSetEmpty _ => clear_full (set_empty r)
  | RSetFull _ => clear_full r
  | _ => r
  end.

Definition called (l : pc) (name : string) (args : Args) : Prop :=
  match l with
  | SLock v | SClosed v | SFull v | SWait v | SWaiting v => name = "Send" ∧ v = arg 0 args
  | SWrite _ | SIdx | SSetFull | SSetEmpty | SNotify | SUnlock => name = "Send"
  | _ => name = "Recv"
  end.

Definition done_with (c : t) (l : pc) (d : option ValueWrapper) : Prop :=
  match l with
  | SWrite _ | SIdx | SSetFull | SSetEmpty | SNotify | SUnlock => d = Some VoidValue
  | RRead => d = IntValue <$> queue (ring c) !! ridx (ring c)
  | RIdx v | RSetEmpty v | RSetFull v | RNotify v | RUnlock v => d = Some (IntValue v)
  | _ => d = None
  end.

Definition local (c : t) (s : BufferedChannel.t) (tid : nat) (th : Thread pc) (d : option ValueWrapper) : Prop :=
  match th_state th with
  | Running l =>
      called l (th_name th) (th_args th) ∧ (owner c = Some tid ↔ holds l = true) ∧
      (if holds l then done_with c l d ∧ ring_ok (finish l (ring c)) (BufferedChannel.deq s) else d = None)
  | Returning _ => owner c ≠ Some tid
  end.

Definition mem (c : t) (s : BufferedChannel.t) : Prop :=
  closed c = false ∧ (owner c = None → ring_ok (ring c) (BufferedChannel.deq s)).

Definition others (tid : nat) (c : t) (s : BufferedChannel.t) (c' : t) (s' : BufferedChannel.t) : Prop :=
  (∀ u, u ≠ tid → owner c' = Some u ↔ owner c = Some u) ∧
  ((ring c' = ring c ∧ s' = s) ∨ owner c = Some tid).

(** A slice before or after the effect. *)
Ltac quiet_slice :=
  eexists _, _; (split; [no_effect|]); unfold mem, local, others, take_lock in *; simpl in *;
  split; [naive_solver|]; split; [naive_solver|];
  split; [intros ? ?; simplify_eq; naive_solver eauto using value_eq_int|naive_solver].

Lemma channel_step c s tid th l d c' st :
  mem c s → local c s tid th d → th_state th = Running l →
  match step true tid l c with
  | Goes sh1 l1 => sh1 = c' ∧ Running l1 = st
  | Ends sh1 v => sh1 = c' ∧ Returning v = st
  | _ => False
  end →
  ∃ s' d', own_effect Chan BufferedChannel.methods th s s' d d' ∧ mem c' s' ∧
    local c' s' tid (set_state st th) d' ∧
    (∀ v, st = Returning v → ∃ v', d' = Some v' ∧ value_eq v' v = true) ∧ others tid c s c' s'.
Proof.
  destruct th as [ptr name args state]. intros [Hc Hm] Hl Hst Hstep. simpl in Hst. subst state.
  destruct Hl as (Hn&Ho&Hd). simpl in Hn.
  destruct l; simpl in Hstep, Ho, Hd, Hn; unfold take_lock in Hstep; rewrite ?Hc in Hstep;
    repeat case_bool_decide; try (destruct (owner c) as [o|] eqn:Eo; [done|]);
    try (destruct (queue (ring c) !! ridx (ring c)) eqn:Eq; [|done]);
    lazymatch type of Hstep with
    | context [full _] => destruct (full (ring c)) eqn:Ef
    | context [empty (ring c)] => destruct (empty (ring c)) eqn:Ee
    | _ => idtac
    end; try done; destruct Hstep as [<- <-].
  all: try (quiet_slice; fail).
  - destruct Hn as [-> ->], Hd as [-> Hr]. apply (ring_send _ _ (arg 0 args)) in Hr; [|done].
    eexists _, _. split; [effect_now|]. unfold mem, local, others. simpl. naive_solver.
  - destruct Hd as [-> Hr], s as [q]. subst name. apply ring_recv in Hr as (v&q'&E&Hv&Hr); [|done]. simpl in E. subst q.
    eexists _, _. split; [effect_now|]. unfold mem, local, others. simpl. rewrite Hv. naive_solver.
Qed.

#[export] Instance points :
  SelfPoints Chan (GetMethods BufferedChannel.spec) (spec_init BufferedChannel.spec).
Proof.
  refine (Build_SelfPoints Chan _ _ mem local (λ c tid, owner c ≠ Some tid) others _ _ channel_step _ _ _).
  - split; [|done]. split; [done|]. intros _. split; simpl; try done; unfold N; lia.
  - intros c s tid n name args l Hb Ha. simpl in Hb. unfold begin in Hb.
    repeat case_bool_decide; simplify_eq/=; (split; [by eexists|]); unfold local; simpl; naive_solver.
  - intros tid c s c' s' t [ptr name args [l|v]] o [Ho Hx] Hne Hl; unfold local in *; simpl in *; [|naive_solver].
    destruct Hl as (?&Hh&Hd). split; [done|]. split; [by rewrite Ho|].
    destruct (holds l) eqn:E; [|done]. destruct Hx as [[Er ->]|Hx]; [|naive_solver].
    unfold done_with in *. by rewrite Er.
  - intros tid c s c' s' t [Ho _] Hne. by rewrite Ho.
  - intros c s tid [ptr name args state] d v Hl Hst. simpl in Hst. by subst.
Defined.
End ChannelPoints.

(** The sixth element overwrites the first when [Send] never sets [full_]. *)
Lemma nonlinear_channel_bad : has_bad_history Channel.nonlinear_buffered_channel BufferedChannel.spec.
Proof.
  apply (refuted_sound _ _
    (mjoin ((λ v, run_op 0 "Send" [v] 9) <$> [1; 2; 3; 4; 5; 6]) ++ run_op 0 "Recv" [] 10)).
  vm_compute. reflexivity.
Qed.

(** ** simple_deadlock.cpp *)

(** Threads are running, and none of them can take a slice. *)
Definition deadlocked {S} (c : Config S) : Prop :=
  c_threads c ≠ ∅ ∧ ∀ tid, act S (Slice tid) c = None.

Definition moves {Sh L} (r : slice Sh L) : Prop := match r with Goes _ _ | Ends _ _ => True | _ => False end.

Lemma deadlocked_stuck {S} (c : Config S) tid th :
  deadlocked c → c_threads c !! tid = Some th →
  ∃ l, th_state th = Running l ∧ ¬ moves (step S tid l (c_shared c)).
Proof.
  intros [_ Hnone] HT. specialize (Hnone tid). simpl in Hnone. rewrite HT in Hnone.
  destruct (th_state th) as [l|v]; [|done]. exists l. split; [done|].
  by destruct (step S tid l (c_shared c)); intros [].
Qed.

Definition can_deadlock (S : Structure) : Prop :=
  ∃ l c, acts S l (initial S) = Some c ∧ deadlocked c.

Definition deadlockedb {S} (c : Config S) : bool :=
  bool_decide (0 < size (c_threads c))%nat &&
  forallb (λ '(tid, _), match act S (Slice tid) c with None => true | Some _ => false end)
    (map_to_list (c_threads c)).

Lemma deadlockedb_sound {S} (c : Config S) : deadlockedb c = true → deadlocked c.
Proof.
  unfold deadlockedb. rewrite andb_true_iff, bool_decide_eq_true. intros [Hs Hall]. split.
  - intros E. rewrite E, map_size_empty in Hs. lia.
  - intros tid. destruct (c_threads c !! tid) as [th|] eqn:E; [|by simpl; rewrite E].
    apply elem_of_map_to_list in E. rewrite forallb_forall in Hall. rewrite list_elem_of_In in E.
    specialize (Hall _ E). cbv beta iota in Hall. by destruct (act S (Slice tid) c).
Qed.

Lemma can_deadlock_run (S : Structure) l :
  (match acts S l (initial S) with Some c => deadlockedb c | None => false end) = true → can_deadlock S.
Proof. destruct (acts S l (initial S)) as [c|] eqn:E; [|done]. intros H%deadlockedb_sound. by exists l, c. Qed.

(** Each thread holds the mutex that the other one wants. *)
Lemma mutex_deadlock_deadlocks : can_deadlock MutexDeadlock.structure.
Proof.
  apply (can_deadlock_run _
    [Call 0 "LockFirstSecond" []; Slice 0; Slice 0; Call 1 "LockSecondFirst" []; Slice 1; Slice 1]).
  vm_compute. reflexivity.
Qed.

(** Its operations return nothing, so a deadlock is all a test can find. *)
Module MutexDeadlockPoints.
Import MutexDeadlock.

Definition local (_ : t) (_ : MutexDeadlockSpec.t) (_ : nat) (th : Thread pc) (d : option ValueWrapper) : Prop :=
  is_Some (MutexDeadlockSpec.methods !! th_name th) ∧
  match th_state th with
  | Running FLock1 | Running SLock2 => d = None
  | _ => d = Some VoidValue
  end.

#[export] Instance points :
  SelfPoints structure (GetMethods MutexDeadlockSpec.spec) (spec_init MutexDeadlockSpec.spec).
Proof.
  refine (Build_SelfPoints structure _ _ (λ _ _, True) local (λ _ _, True) (λ _ _ _ _ _, True) _ _ _ _ _ _); try done.
  - intros r s tid n name args l Hb _. simpl in Hb. unfold begin in Hb.
    repeat case_bool_decide; simplify_eq/=; (split; [by eexists|]); unfold local; simpl; (split; [by eexists|done]).
  - intros r s tid [ptr name args state] l d r' st _ [[m Hm] Hd] Hst Hstep. simpl in Hst, Hm. subst state.
    assert (Hv : ∀ s args, (m s args).2 = VoidValue).
    { unfold MutexDeadlockSpec.methods in Hm. apply lookup_insert_Some in Hm as [[_ <-]|[_ Hm]]; [done|].
      by apply lookup_singleton_Some in Hm as [_ <-]. }
    destruct l; simpl in Hstep, Hd;
      try (destruct (m1 r); [done|]); try (destruct (m2 r); [done|]); destruct Hstep as [<- <-]; subst; unfold local; simpl.
    1,7: eexists _, _; split; [right; split; [done|]; exists m; split; [done|split; reflexivity]|]; rewrite Hv.
    3-12: eexists _, _; (split; [no_effect|]).
    all: split; [done|]; (split; [split; [by exists m|done]|]); (split; [|done]); intros ? ?; simplify_eq; by eexists.
Defined.
End MutexDeadlockPoints.

(** * The bank is linearizable and does not deadlock

    What a call may do to a cell depends on how it holds the cell's mutex.
    Every slice is described cell by cell ([cell_step]); locking in the order
    of the indices then excludes a cycle of waiting threads. *)

Module BankPoints.
Import Bank.

(** ** One cell *)

(** How a thread holds a cell: not at all, shared, or as its writer, who is
    yet to apply [f] to the amount. *)
Inductive hold := Free | Shares | Writes (f : Z → Z).

Definition cell_local (tid : nat) (h : hold) (c : Cell) (z : Z) : Prop :=
  match h with
  | Free => writer (m c) ≠ Some tid ∧ tid ∉ readers (m c)
  | Shares => tid ∈ readers (m c) ∧ writer (m c) = None
  | Writes f => writer (m c) = Some tid ∧ tid ∉ readers (m c) ∧ f (amount c) = z
  end.

(** The cell [c] and what the specification has for it. *)
Definition cell_ok (c : Cell) (z : Z) : Prop :=
  (writer (m c) = None → amount c = z) ∧ (writer (m c) ≠ None → readers (m c) = ∅) ∧ -2 ^ 31 ≤ z < 2 ^ 31.

(** The other threads notice nothing. *)
Definition cell_others (tid : nat) (c : Cell) (z : Z) (c' : Cell) (z' : Z) : Prop :=
  ∀ u h, u ≠ tid → cell_local u h c z → cell_local u h c' z' ∧ (h ≠ Free → amount c' = amount c).

Definition cell_step (tid : nat) (h : hold) (c : Cell) (z : Z) (h' : hold) (c' : Cell) (z' : Z) : Prop :=
  cell_ok c z → cell_local tid h c z →
  cell_ok c' z' ∧ cell_local tid h' c' z' ∧ cell_others tid c z c' z'.

Ltac cell_solve :=
  intros Hok Hl; unfold cell_ok, cell_others in *; simpl in *;
  (split; [|split; [|intros u [| |g] ? ?]]); simpl in *; set_unfold; intuition (try congruence).

Lemma cell_same tid h c z : cell_step tid h c z h c z.
Proof. intros ? ?. split; [done|]. split; [done|]. intros ? ? ? ?. done. Qed.

Lemma cell_take_write tid c z m' f :
  rw_lock tid (m c) = Some m' → -2 ^ 31 ≤ f z < 2 ^ 31 →
  cell_step tid Free c z (Writes f) (mkCell m' (amount c)) (f z).
Proof. unfold rw_lock. case_bool_decide as E; [|done]. intros [= <-] ?. destruct E. cell_solve. Qed.

Lemma cell_take_write_id tid c z m' :
  rw_lock tid (m c) = Some m' → cell_step tid Free c z (Writes id) (mkCell m' (amount c)) z.
Proof. intros E Hok. by apply (cell_take_write tid c z m' id E); [apply Hok|]. Qed.

Lemma cell_take_read tid c z m' :
  rw_lock_shared tid (m c) = Some m' → cell_step tid Free c z Shares (mkCell m' (amount c)) z.
Proof. unfold rw_lock_shared. case_bool_decide as E; [|done]. intros [= <-]. cell_solve. Qed.

Lemma cell_release_write tid c z : cell_step tid (Writes id) c z Free (mkCell (rw_unlock (m c)) (amount c)) z.
Proof. cell_solve. Qed.

Lemma cell_release_read tid c z : cell_step tid Shares c z Free (mkCell (rw_unlock_shared tid (m c)) (amount c)) z.
Proof. cell_solve. Qed.

Lemma cell_store tid c z v : cell_step tid (Writes (λ _, v)) c z (Writes id) (mkCell (m c) v) z.
Proof. cell_solve. Qed.

(** The writer loads, takes effect, reads its own cell. *)
Lemma cell_load tid c z f : cell_step tid (Writes f) c z (Writes (λ _, f (amount c))) c z.
Proof. cell_solve. Qed.

Lemma cell_effect tid c z f :
  -2 ^ 31 ≤ f z < 2 ^ 31 → cell_step tid (Writes id) c z (Writes f) c (f z).
Proof. intros ?. unfold id in *. cell_solve. Qed.

Lemma cell_read tid h c z :
  h = Shares ∨ h = Writes id → cell_ok c z → cell_local tid h c z → amount c = z.
Proof. intros [-> | ->] Hok Hl; destruct Hok; simpl in Hl; [naive_solver|by destruct Hl as (_&_&?)]. Qed.

(** ** A call *)
Inductive call := CAdd | CRead | CTransfer (same : bool) | CBoth (same : bool).

Definition call_of (s : stage) : call :=
  match s with
  | AddLock | AddLoad | AddStore _ | AddUnlock => CAdd
  | ReadLock | ReadLoad | ReadUnlock _ => CRead
  | SameLock | SameCheck | SameUnlock _ => CTransfer true
  | TwiceLock | TwiceLoad | TwiceUnlock _ => CBoth true
  | BothLock1 | BothLock2 | BothLoadI | BothLoadJ _ | BothUnlock2 _ | BothUnlock1 _ => CBoth false
  | _ => CTransfer false
  end.

(** The call's name and arguments. *)
Definition called (l : pc) (name : string) (args : Args) : Prop :=
  arg 0 args = Z.of_nat (i l) ∧ (i l < LinearBank.SIZE)%nat ∧
  match call_of (at_ l) with
  | CAdd => name = "Add" ∧ arg 1 args = count l
  | CRead => name = "Read"
  | CTransfer same =>
      name = "Transfer" ∧ arg 1 args = Z.of_nat (j l) ∧ (j l < LinearBank.SIZE)%nat ∧ arg 2 args = count l ∧
      if same then i l = j l else i l ≠ j l
  | CBoth same =>
      name = "ReadBoth" ∧ arg 1 args = Z.of_nat (j l) ∧ (j l < LinearBank.SIZE)%nat ∧
      if same then i l = j l else i l ≠ j l
  end.

Abbreviation low := (first true).
Abbreviation high := (second true).

Definition on (k k' : nat) (h : hold) : hold := if decide (k = k') then h else Free.

(** How a call holds cell [k]. *)
Definition hold_of (l : pc) (k : nat) : hold :=
  match at_ l with
  | AddLoad => on k (i l) (Writes (λ a, plus a (count l)))
  | AddStore v => on k (i l) (Writes (λ _, v))
  | AddUnlock => on k (i l) (Writes id)
  | ReadLoad | ReadUnlock _ | SameCheck | SameUnlock _ | TwiceLoad | TwiceUnlock _ => on k (i l) Shares
  | TransferLock2 | TransferUnlock1 _ => on k (low l) (Writes id)
  | TransferCheck | TransferUnlock2 _ =>
      if decide (k = low l) then Writes id else on k (high l) (Writes id)
  | TransferLoadI =>
      if decide (k = i l) then Writes (λ a, minus a (count l)) else on k (j l) (Writes (λ a, plus a (count l)))
  | TransferStoreI v =>
      if decide (k = i l) then Writes (λ _, v) else on k (j l) (Writes (λ a, plus a (count l)))
  | TransferLoadJ => if decide (k = i l) then Writes id else on k (j l) (Writes (λ a, plus a (count l)))
  | TransferStoreJ v => if decide (k = i l) then Writes id else on k (j l) (Writes (λ _, v))
  | BothLock2 | BothUnlock1 _ => on k (low l) Shares
  | BothLoadI | BothLoadJ _ | BothUnlock2 _ => if decide (k = low l) then Shares else on k (high l) Shares
  | _ => Free
  end.

(** The result, once the call has taken effect. *)
Definition result (s : stage) : option ValueWrapper :=
  match s with
  | AddLoad | AddStore _ | AddUnlock => Some VoidValue
  | TransferLoadI | TransferStoreI _ | TransferLoadJ | TransferStoreJ _ => Some (IntValue 1)
  | ReadUnlock v | SameUnlock v | TransferUnlock2 v | TransferUnlock1 v
  | TwiceUnlock v | BothUnlock2 v | BothUnlock1 v => Some (IntValue v)
  | _ => None
  end.

Definition held (st : tstate pc) (k : nat) : hold :=
  match st with Running l => hold_of l k | Returning _ => Free end.

Definition cells_local (b : t) (s : LinearBank.t) (tid : nat) (st : tstate pc) : Prop :=
  ∀ k c z, b !! k = Some c → LinearBank.cells s !! k = Some z → cell_local tid (held st k) c z.

Definition sized (b : t) (s : LinearBank.t) : Prop :=
  length b = LinearBank.SIZE ∧ length (LinearBank.cells s) = LinearBank.SIZE.

Definition local (b : t) (s : LinearBank.t) (tid : nat) (th : Thread pc) (d : option ValueWrapper) : Prop :=
  cells_local b s tid (th_state th) ∧
  match th_state th with
  | Running l =>
      called l (th_name th) (th_args th) ∧ d = result (at_ l) ∧
      (∀ vi c, at_ l = BothLoadJ vi → b !! i l = Some c → vi = amount c)
  | Returning _ => sized b s
  end.

(** A call starts at a lock, and holds nothing. *)
Lemma begin_called name args l :
  begin name args = Some l → called l name args ∧ result (at_ l) = None ∧ (∀ vi, at_ l ≠ BothLoadJ vi) ∧
  is_Some (LinearBank.methods !! name) ∧ ∀ k, hold_of l k = Free.
Proof.
  assert (Hix : ∀ z k, index z = Some k → z = Z.of_nat k ∧ (k < LinearBank.SIZE)%nat).
  { intros z k. unfold index. case_bool_decide; [|done]. intros [= <-]. lia. }
  unfold begin. intros H. apply bind_Some in H as (i&Hi%Hix&H).
  unfold called. repeat case_bool_decide; simplify_option_eq;
    repeat match goal with E : index _ = Some _ |- _ => apply Hix in E end;
    try (unfold size_arg in *; repeat case_bool_decide; simplify_eq).
  all: destruct_and?; split_and!; try done; by eexists.
Qed.

(** ** The bank *)
Definition mem (b : t) (s : LinearBank.t) : Prop :=
  sized b s ∧ ∀ k c z, b !! k = Some c → LinearBank.cells s !! k = Some z → cell_ok c z.

Definition others (tid : nat) (b : t) (s : LinearBank.t) (b' : t) (s' : LinearBank.t) : Prop :=
  sized b s ∧ sized b' s' ∧
  ∀ k c z c' z', b !! k = Some c → LinearBank.cells s !! k = Some z →
    b' !! k = Some c' → LinearBank.cells s' !! k = Some z' → cell_others tid c z c' z'.

Lemma sized_lookup b s k :
  sized b s → (k < LinearBank.SIZE)%nat → ∃ c z, b !! k = Some c ∧ LinearBank.cells s !! k = Some z.
Proof.
  intros [Hb Hs] Hk. destruct (lookup_lt_is_Some_2 b k) as [c Hc]; [lia|].
  destruct (lookup_lt_is_Some_2 (LinearBank.cells s) k) as [z Hz]; [lia|]. by exists c, z.
Qed.

Lemma sized_back b s k c : sized b s → b !! k = Some c → ∃ z, LinearBank.cells s !! k = Some z.
Proof.
  intros Hs Hc. pose proof (lookup_lt_Some _ _ _ Hc) as Hk. destruct Hs as [Hb Hs'].
  destruct (sized_lookup b s k) as (?&z&_&Hz); [done|lia|]. by exists z.
Qed.

(** A slice, cell by cell. *)
Lemma bank_slice tid b s b' s' st st' :
  mem b s → cells_local b s tid st → sized b' s' →
  (∀ k c z c' z', b !! k = Some c → LinearBank.cells s !! k = Some z →
     b' !! k = Some c' → LinearBank.cells s' !! k = Some z' → cell_step tid (held st k) c z (held st' k) c' z') →
  mem b' s' ∧ cells_local b' s' tid st' ∧ others tid b s b' s'.
Proof.
  intros [Hsz Hok] Hl Hsz' Hstep.
  assert (Hall : ∀ k c z c' z', b !! k = Some c → LinearBank.cells s !! k = Some z →
     b' !! k = Some c' → LinearBank.cells s' !! k = Some z' →
     cell_ok c' z' ∧ cell_local tid (held st' k) c' z' ∧ cell_others tid c z c' z').
  { intros k c z c' z' H1 H2 H3 H4. apply (Hstep k c z c' z'); eauto. }
  assert (Hold : ∀ k c', b' !! k = Some c' → ∃ c z, b !! k = Some c ∧ LinearBank.cells s !! k = Some z).
  { intros k c' Hk%lookup_lt_Some. apply sized_lookup; [done|]. destruct Hsz'. lia. }
  split; [|split].
  - split; [done|]. intros k c' z' H3 H4. destruct (Hold k c' H3) as (c&z&?&?). by destruct (Hall k c z c' z') as (?&?&?).
  - intros k c' z' H3 H4. destruct (Hold k c' H3) as (c&z&?&?). by destruct (Hall k c z c' z') as (?&?&?).
  - split; [done|]. split; [done|]. intros k c z c' z' ????. by destruct (Hall k c z c' z') as (?&?&?).
Qed.

(** *** The specification *)
Lemma plus_range a c : -2 ^ 31 ≤ plus a c < 2 ^ 31.
Proof. apply int32_range. Qed.
Lemma minus_range a c : -2 ^ 31 ≤ minus a c < 2 ^ 31.
Proof. apply int32_range. Qed.

Lemma plus_minus a c : -2 ^ 31 ≤ a < 2 ^ 31 → int32 (u64 (u64 (int32 (u64 (u64 a - c))) + c)) = a.
Proof.
  intros Ha. unfold int32, u64. Z.to_euclidean_division_equations; lia.
Qed.

Lemma cell_at s k : LinearBank.cell s (Z.of_nat k) = deref (LinearBank.cells s !! k).
Proof. unfold LinearBank.cell. rewrite bool_decide_eq_true_2 by lia. by rewrite Nat2Z.id. Qed.

Lemma spec_add s k n z :
  LinearBank.cells s !! k = Some z →
  LinearBank.Add s (Z.of_nat k) n = Ret (LinearBank.mk (<[k := plus z n]> (LinearBank.cells s))).
Proof. intros Hz. unfold LinearBank.Add. rewrite cell_at, Hz. simpl. unfold LinearBank.set_cell. by rewrite Nat2Z.id. Qed.

Lemma spec_transfer s k k' n z z' :
  k ≠ k' → LinearBank.cells s !! k = Some z → LinearBank.cells s !! k' = Some z' →
  LinearBank.Transfer s (Z.of_nat k) (Z.of_nat k') n =
    if bool_decide (u64 z < n) then Ret (s, 0)
    else Ret (LinearBank.mk (<[k' := plus z' n]> (<[k := minus z n]> (LinearBank.cells s))), 1).
Proof.
  intros Hne Hz Hz'. unfold LinearBank.Transfer. rewrite cell_at, Hz. simpl. case_bool_decide; [done|].
  rewrite cell_at. unfold LinearBank.set_cell. simpl. rewrite !Nat2Z.id.
  rewrite list_lookup_insert_ne by done. by rewrite Hz'.
Qed.

Lemma spec_transfer_same s k n z :
  LinearBank.cells s !! k = Some z → -2 ^ 31 ≤ z < 2 ^ 31 →
  LinearBank.Transfer s (Z.of_nat k) (Z.of_nat k) n = Ret (s, flag (bool_decide (n ≤ u64 z))).
Proof.
  intros Hz Hr. unfold LinearBank.Transfer. rewrite cell_at, Hz. simpl.
  destruct (decide (u64 z < n)) as [Hlt|Hge].
  - rewrite bool_decide_eq_true_2 by done. by rewrite bool_decide_eq_false_2 by lia.
  - rewrite bool_decide_eq_false_2 by done. rewrite (bool_decide_eq_true_2 (n ≤ _)) by lia.
    pose proof (lookup_lt_Some _ _ _ Hz) as Hk.
    rewrite cell_at. unfold LinearBank.set_cell. simpl. rewrite !Nat2Z.id.
    rewrite list_lookup_insert_eq by done. simpl. rewrite list_insert_insert_eq.
    rewrite plus_minus, list_insert_id by done. by destruct s.
Qed.

(** *** The slices *)

(** Only cell [k0] matters. *)
Lemma bank_slice_at k0 tid b s b' s' st st' c0 z0 c0' z0' :
  mem b s → cells_local b s tid st → sized b' s' →
  b !! k0 = Some c0 → LinearBank.cells s !! k0 = Some z0 →
  b' !! k0 = Some c0' → LinearBank.cells s' !! k0 = Some z0' →
  (∀ k, k ≠ k0 → b' !! k = b !! k ∧ LinearBank.cells s' !! k = LinearBank.cells s !! k ∧ held st' k = held st k) →
  cell_step tid (held st k0) c0 z0 (held st' k0) c0' z0' →
  mem b' s' ∧ cells_local b' s' tid st' ∧ others tid b s b' s'.
Proof.
  intros Hm Hl Hsz Hc Hz Hc' Hz' Hne Hstep. apply (bank_slice _ _ _ _ _ _ _ Hm Hl Hsz).
  intros k c z c' z' H1 H2 H3 H4. destruct (decide (k = k0)) as [->|Hk]; [by simplify_eq|].
  destruct (Hne k Hk) as (E1&E2&->). rewrite E1 in H3. rewrite E2 in H4. simplify_eq. apply cell_same.
Qed.

Lemma sized_insert b s k c : sized b s → sized (<[k := c]> b) s.
Proof. intros []. split; [|done]. etrans; [apply length_insert|done]. Qed.

(** The parts of a slice together. *)
Lemma slice_done tid b s th b' s' st d d' :
  own_effect bank LinearBank.methods th s s' d d' →
  mem b' s' ∧ cells_local b' s' tid st ∧ others tid b s b' s' →
  match st with
  | Running l' =>
      called l' (th_name th) (th_args th) ∧ d' = result (at_ l') ∧
      (∀ vi c, at_ l' = BothLoadJ vi → b' !! i l' = Some c → vi = amount c)
  | Returning v => d' = Some v ∧ value_eq v v = true
  end →
  ∃ s' d', own_effect bank LinearBank.methods th s s' d d' ∧ mem b' s' ∧
    local b' s' tid (set_state st th) d' ∧
    (∀ v, st = Returning v → ∃ v', d' = Some v' ∧ value_eq v' v = true) ∧ others tid b s b' s'.
Proof.
  intros He (Hm&Hl&Ho) Hst. exists s', d'. split; [done|]. split; [done|]. split; [split; [done|]|split; [|done]].
  - destruct st; [done|]. apply Hm.
  - intros v ->. destruct Hst. by exists v.
Qed.

Lemma sized_insert_spec b s k z : sized b s → sized b (LinearBank.mk (<[k := z]> (LinearBank.cells s))).
Proof. intros []. split; [done|]. simpl. by rewrite length_insert. Qed.

(** A call that holds two cells takes effect on both. *)
Lemma bank_effect_two tid b s st st' i j zi zj f g :
  mem b s → cells_local b s tid st → i ≠ j →
  LinearBank.cells s !! i = Some zi → LinearBank.cells s !! j = Some zj →
  held st i = Writes id → held st' i = Writes f → held st j = Writes id → held st' j = Writes g →
  (∀ k, k ≠ i → k ≠ j → held st' k = held st k) →
  -2 ^ 31 ≤ f zi < 2 ^ 31 → -2 ^ 31 ≤ g zj < 2 ^ 31 →
  let s' := LinearBank.mk (<[j := g zj]> (<[i := f zi]> (LinearBank.cells s))) in
  mem b s' ∧ cells_local b s' tid st' ∧ others tid b s b s'.
Proof.
  intros Hm Hl Hne Hzi Hzj H1 H2 H3 H4 Hk Hf Hg s'. apply (bank_slice _ _ _ _ _ _ _ Hm Hl).
  { by apply (sized_insert_spec b (LinearBank.mk _)), sized_insert_spec, Hm. }
  intros k c z c' z' Hc Hz Hc' Hz'. simplify_eq. simpl in Hz'.
  destruct (decide (k = j)) as [->|Hj].
  - rewrite list_lookup_insert_eq in Hz' by (rewrite length_insert; by eapply lookup_lt_Some).
    rewrite H3, H4. simplify_eq. by apply cell_effect.
  - rewrite list_lookup_insert_ne in Hz' by done. destruct (decide (k = i)) as [->|Hi].
    + rewrite list_lookup_insert_eq in Hz' by (by eapply lookup_lt_Some).
      rewrite H1, H2. simplify_eq. by apply cell_effect.
    + rewrite list_lookup_insert_ne in Hz' by done. simplify_eq. rewrite Hk by done. apply cell_same.
Qed.

Lemma min_max (i j : nat) :
  (i `min` j)%nat = i ∧ (i `max` j)%nat = j ∨ (i `min` j)%nat = j ∧ (i `max` j)%nat = i.
Proof. lia. Qed.

(** Cell [k0] changes, or how it is held. *)
Ltac in_order := repeat match goal with
  | E : (_ `min` _)%nat = _ |- _ => rewrite !E
  | E : (_ `max` _)%nat = _ |- _ => rewrite !E
  end.
Ltac bank_at k0 :=
  eapply (bank_slice_at k0);
  [eassumption|eassumption|by auto using sized_insert, sized_insert_spec|eassumption|eassumption
  |first [eassumption|apply list_lookup_insert_eq; by eapply lookup_lt_Some]
  |simpl; first [eassumption|apply list_lookup_insert_eq; by eapply lookup_lt_Some]
  |intros k Hk; simpl; rewrite ?list_lookup_insert_ne by done; split_and!; [done|done|];
   unfold hold_of, on, first, second; simpl; in_order; repeat case_decide; congruence
  |unfold held, hold_of, on, first, second; simpl; in_order; repeat case_decide; try congruence].

(** A call reads the specification's amount in a cell it holds. *)
Lemma cells_read b s tid l k c z :
  mem b s → cells_local b s tid (Running l) → b !! k = Some c → LinearBank.cells s !! k = Some z →
  hold_of l k = Shares ∨ hold_of l k = Writes id → amount c = z.
Proof. intros Hm Hl Hc Hz Hh. apply (cell_read tid (hold_of l k)); [done|by apply (proj2 Hm k)|by apply Hl]. Qed.

Ltac held_at := unfold held, hold_of, on, first, second; simpl; in_order; repeat case_decide; auto; congruence.

(** The stage after the slice; a slice in which nothing takes effect. *)
Ltac bank_next := unfold called; simpl; destruct_and?; split_and?; try done; intros; simplify_eq; eauto using value_eq_int.
Ltac quiet := eapply slice_done; [no_effect| |bank_next].

(** Every slice of a call of this kind is sound. *)
Definition slices_ok (call : call) : Prop :=
  ∀ b s tid th l d b' st, call_of (at_ l) = call →
    mem b s → local b s tid th d → th_state th = Running l →
    match step true tid l b with
    | Goes sh1 l1 => sh1 = b' ∧ Running l1 = st
    | Ends sh1 v => sh1 = b' ∧ Returning v = st
    | _ => False
    end →
    ∃ s' d', own_effect bank LinearBank.methods th s s' d d' ∧ mem b' s' ∧
      local b' s' tid (set_state st th) d' ∧
      (∀ v, st = Returning v → ∃ v', d' = Some v' ∧ value_eq v' v = true) ∧ others tid b s b' s'.

(** One goal for each stage of the call, with the cell of index [i]. *)
Ltac each_stage :=
  intros b s tid [ptr name args state] [i j n stage] d b' st Hkind Hm [Hl Hc] Hst Hstep;
  simpl in Hst, Hl, Hc, Hkind; subst state; destruct Hc as (Hcall&->&Hseen); pose proof (proj1 Hm) as Hsz;
  unfold called in Hcall; simpl in Hcall; rewrite Hkind in Hcall; destruct Hcall as (Hi&Hlt&Hcall);
  destruct (sized_lookup b s i Hsz Hlt) as (ci&zi&Hci&Hzi);
  destruct stage; try discriminate Hkind; clear Hkind;
  unfold step in Hstep; simpl in Hstep;
  unfold take, load, store, ends, release, go, first, second in Hstep; simpl in Hstep.

Lemma add_slices : slices_ok CAdd.
Proof.
  each_stage; rewrite Hci in Hstep; simpl in Hstep.
  - destruct (rw_lock tid (m ci)) as [m'|] eqn:Em; [|done]. destruct Hstep as [<- <-], Hcall as [-> Hn].
    eapply slice_done; [effect_now| |bank_next]. simpl. rewrite Hi, Hn, (spec_add s i n zi) by done. simpl.
    bank_at i. apply (cell_take_write tid ci zi m' (λ a, plus a n)); [done|apply plus_range].
  - destruct Hstep as [<- <-]. quiet. bank_at i. apply cell_load.
  - destruct Hstep as [<- <-]. quiet. bank_at i. apply cell_store.
  - destruct Hstep as [<- <-]. quiet. bank_at i. apply cell_release_write.
Qed.

Lemma read_slices : slices_ok CRead.
Proof.
  each_stage; rewrite Hci in Hstep; simpl in Hstep.
  - destruct (rw_lock_shared tid (m ci)) as [m'|] eqn:Em; [|done]. destruct Hstep as [<- <-].
    quiet. bank_at i. by apply cell_take_read.
  - destruct Hstep as [<- <-]. subst name. assert (amount ci = zi) as Ea by (eapply cells_read; [eassumption..|held_at]).
    eapply slice_done; [effect_now| |bank_next]; simpl; rewrite ?Hi.
    + bank_at i. apply cell_same.
    + unfold LinearBank.Read. by rewrite cell_at, Hzi.
  - destruct Hstep as [<- <-]. quiet. bank_at i. apply cell_release_read.
Qed.

Lemma transfer_same_slices : slices_ok (CTransfer true).
Proof.
  each_stage; rewrite Hci in Hstep; simpl in Hstep.
  - destruct (rw_lock_shared tid (m ci)) as [m'|] eqn:Em; [|done]. destruct Hstep as [<- <-].
    quiet. bank_at i. by apply cell_take_read.
  - destruct Hstep as [<- <-], Hcall as (->&Hj&Hjlt&Hn&<-).
    assert (amount ci = zi) as Ea by (eapply cells_read; [eassumption..|held_at]).
    assert (LinearBank.Transfer s (arg 0 args) (arg 1 args) (arg 2 args) = Ret (s, flag (bool_decide (n ≤ u64 zi)))) as Et.
    { rewrite Hi, Hj, Hn. apply spec_transfer_same; [done|]. by apply (proj2 Hm i ci). }
    eapply slice_done; [effect_now| |bank_next]; simpl; rewrite Et; simpl; [|done].
    bank_at i; apply cell_same.
  - destruct Hstep as [<- <-]. quiet. bank_at i. apply cell_release_read.
Qed.

Lemma read_twice_slices : slices_ok (CBoth true).
Proof.
  each_stage; rewrite Hci in Hstep; simpl in Hstep.
  - destruct (rw_lock_shared tid (m ci)) as [m'|] eqn:Em; [|done]. destruct Hstep as [<- <-].
    quiet. bank_at i. by apply cell_take_read.
  - destruct Hstep as [<- <-], Hcall as (->&Hj&Hjlt&<-).
    assert (amount ci = zi) as Ea by (eapply cells_read; [eassumption..|held_at]).
    assert (LinearBank.ReadBoth s (arg 0 args) (arg 1 args) = Ret (int32 (zi * 2))) as Et.
    { rewrite Hi, Hj. unfold LinearBank.ReadBoth. rewrite cell_at, Hzi. simpl. do 2 f_equal. lia. }
    eapply slice_done; [effect_now| |bank_next]; simpl; rewrite ?Et; simpl; [|done].
    bank_at i; apply cell_same.
  - destruct Hstep as [<- <-]. quiet. bank_at i. apply cell_release_read.
Qed.

(** The same with two different cells, in either order of the indices. *)
Ltac both_orders Hstep :=
  lazymatch goal with Hj : (?j < LinearBank.SIZE)%nat, Hne : ?i ≠ ?j, Hsz : sized ?b ?s, Hci : ?b !! ?i = _ |- _ =>
    destruct (sized_lookup b s j Hsz Hj) as (cj&zj&Hcj&Hzj);
    destruct (min_max i j) as [[E1 E2]|[E1 E2]]; rewrite ?E1, ?E2, ?Hci, ?Hcj in Hstep; simpl in Hstep
  end.

Lemma transfer_slices : slices_ok (CTransfer false).
Proof.
  each_stage; destruct Hcall as (->&Hj&Hjlt&Hn&Hne); both_orders Hstep.
  1-4: destruct (rw_lock _ _) as [m'|] eqn:Em; [|done].
  all: destruct Hstep as [<- <-].
  1,4: quiet; bank_at i; by apply cell_take_write_id.
  1,2: quiet; bank_at j; by apply cell_take_write_id.
  3,4: quiet; bank_at i; apply cell_load.
  3,4: quiet; bank_at i; apply cell_store.
  3,4: quiet; bank_at j; apply cell_load.
  3,4: quiet; bank_at j; apply cell_store.
  4,5: quiet; bank_at i; apply cell_release_write.
  3,4: quiet; bank_at j; apply cell_release_write.
  all: assert (amount ci = zi) as Ea by (eapply cells_read; [eassumption..|held_at]); rewrite Ea.
  all: pose proof (spec_transfer s i j n zi zj Hne Hzi Hzj) as Et; rewrite <-Hi, <-Hj, <-Hn in Et at 1.
  all: case_bool_decide as Hlow; (eapply slice_done; [effect_now| |bank_next]); simpl; rewrite ?Et; simpl; try done.
  1,3: bank_at i; apply cell_same.
  all: apply (bank_effect_two tid b s (Running (mkPc i j n TransferCheck)) (Running (mkPc i j n TransferLoadI)) i j zi zj
                (λ a, minus a n) (λ a, plus a n)); try done; try apply plus_range; try apply minus_range.
  all: intros; held_at.
Qed.

Lemma read_both_slices : slices_ok (CBoth false).
Proof.
  each_stage; destruct Hcall as (->&Hj&Hjlt&Hne); both_orders Hstep.
  1-4: destruct (rw_lock_shared _ _) as [m'|] eqn:Em; [|done].
  all: destruct Hstep as [<- <-].
  1,4: quiet; bank_at i; by apply cell_take_read.
  1,2: quiet; bank_at j; by apply cell_take_read.
  1,2: quiet; bank_at i; apply cell_same.
  4,5: quiet; bank_at i; apply cell_release_read.
  3,4: quiet; bank_at j; apply cell_release_read.
  all: pose proof (Hseen vi ci eq_refl Hci) as ->.
  all: assert (amount ci = zi) as Ei by (eapply cells_read; [eassumption..|held_at]).
  all: assert (amount cj = zj) as Ej by (eapply cells_read; [eassumption..|held_at]).
  all: assert (LinearBank.ReadBoth s (arg 0 args) (arg 1 args) = Ret (int32 (zi + zj))) as Et
    by (rewrite Hi, Hj; unfold LinearBank.ReadBoth; rewrite !cell_at, Hzi; simpl; by rewrite Hzj).
  all: eapply slice_done; [effect_now| |bank_next]; simpl; rewrite ?Et; simpl; [|done].
  all: bank_at i; apply cell_same.
Qed.

(** What another thread knows survives the slice. *)
Lemma others_back tid b s b' s' k c' z' :
  others tid b s b' s' → b' !! k = Some c' → LinearBank.cells s' !! k = Some z' →
  ∃ c z, b !! k = Some c ∧ LinearBank.cells s !! k = Some z ∧ cell_others tid c z c' z'.
Proof.
  intros (Hs&Hs'&Ho) Hc' Hz'. destruct (sized_lookup b s k) as (c&z&Hc&Hz); [done| |by exists c, z; eauto].
  apply lookup_lt_Some in Hc'. destruct Hs'. lia.
Qed.

Lemma others_frame tid b s b' s' u th d :
  others tid b s b' s' → u ≠ tid → local b s u th d → local b' s' u th d.
Proof.
  intros Ho Hne [Hl Hst]. split.
  - intros k c' z' Hc' Hz'. destruct (others_back _ _ _ _ _ _ _ _ Ho Hc' Hz') as (c&z&Hc&Hz&Hcell).
    by apply (Hcell u (held (th_state th) k) Hne), Hl.
  - destruct (th_state th) as [l|v] eqn:E; [|apply Ho]. destruct Hst as (?&?&Hseen). split; [done|]. split; [done|].
    intros vi c' Hat Hc'. destruct Ho as (Hs&Hs'&Ho). destruct (sized_back _ _ _ _ Hs' Hc') as [z' Hz'].
    destruct (others_back tid b s b' s' (i l) c' z') as (c&z&Hc&Hz&Hcell); [done..|].
    rewrite (Hseen vi c Hat Hc). symmetry. apply (Hcell u (hold_of l (i l)) Hne); [by apply Hl|].
    unfold hold_of, on, first, second. rewrite Hat. repeat case_decide; [done..|lia].
Qed.

#[export] Instance points :
  SelfPoints bank (GetMethods LinearBank.spec) (spec_init LinearBank.spec).
Proof.
  refine (Build_SelfPoints bank _ _ mem local
            (λ b tid, ∀ k c, b !! k = Some c → cell_local tid Free c 0) others _ _ _ others_frame _ _).
  - split.
    + split; [done|]. intros k c z Hc Hz. apply lookup_replicate in Hc as [-> _].
      apply lookup_replicate in Hz as [-> _]. by repeat split.
    + intros tid k c Hc. apply lookup_replicate in Hc as [-> _]. simpl. set_solver.
  - intros b s tid n name args l Hb Ha. apply begin_called in Hb as (Hcall&Hres&Hat&Hsome&Hfree).
    split; [done|]. split; [|simpl; split; [done|]; split; [done|]; naive_solver].
    intros k c z Hc _. simpl. rewrite Hfree. by apply (Ha k c).
  - intros b s tid th l d b' st Hm Hl Hst Hstep. destruct (call_of (at_ l)) as [| |[]|[]] eqn:E;
      [eapply add_slices|eapply read_slices|eapply transfer_same_slices|eapply transfer_slices
      |eapply read_twice_slices|eapply read_both_slices]; eauto.
  - intros tid b s b' s' u Ho Hne Ha k c' Hc'. destruct (sized_back _ _ _ _ (proj1 (proj2 Ho)) Hc') as [z' Hz'].
    destruct (others_back _ _ _ _ _ _ _ _ Ho Hc' Hz') as (c&z&Hc&_&Hcell).
    by apply (Hcell u Free Hne), (Ha k c).
  - intros b s tid [ptr name args state] d v [Hl Hsz] Hst k c Hc. simpl in Hst. subst state.
    destruct (sized_back _ _ _ _ Hsz Hc) as [z Hz]. by apply (Hl k c z).
Defined.

(** ** No deadlock *)
Abbreviation self_inv b T s D :=
  (self_inv bank (GetMethods LinearBank.spec) (spec_init LinearBank.spec) b T s D).

(** The cell a call waits for. *)
Definition waits_for (l : pc) : option nat :=
  match at_ l with
  | AddLock | ReadLock | SameLock | TwiceLock => Some (i l)
  | TransferLock1 | BothLock1 => Some (low l)
  | TransferLock2 | BothLock2 => Some (high l)
  | _ => None
  end.

Lemma take_blocked f tid k b l c :
  f = rw_lock tid ∨ f = rw_lock_shared tid → b !! k = Some c → ¬ moves (take f k b l) →
  ∃ u, writer (m c) = Some u ∨ u ∈ readers (m c).
Proof.
  intros Hf Hc. unfold take. rewrite Hc. destruct (f (m c)) eqn:E; [by intros []|intros _].
  destruct (writer (m c)) as [u|] eqn:Ew; [exists u; by left|].
  destruct (set_choose_or_empty (readers (m c))) as [[u Hu]|He]; [exists u; by right|].
  apply leibniz_equiv in He. destruct Hf as [-> | ->]; unfold rw_lock, rw_lock_shared in E; rewrite Ew in E.
  all: rewrite bool_decide_eq_true_2 in E by auto; done.
Qed.

(** A call that cannot go on waits for a cell that somebody holds. *)
Lemma blocked_waits b s tid l name args :
  sized b s → called l name args → ¬ moves (step true tid l b) →
  ∃ k c, waits_for l = Some k ∧ b !! k = Some c ∧ ∃ u, writer (m c) = Some u ∨ u ∈ readers (m c).
Proof.
  intros Hsz (Hi&Hlt&Hcall) Hrun. destruct (sized_lookup b s (i l) Hsz Hlt) as (ci&zi&Hci&_).
  assert (Hj : call_of (at_ l) = CTransfer false ∨ call_of (at_ l) = CBoth false →
    ∃ cj c1 c2, b !! j l = Some cj ∧ b !! low l = Some c1 ∧ b !! high l = Some c2).
  { intros Hk. assert (j l < LinearBank.SIZE)%nat as Hjlt by (destruct Hk as [E|E]; rewrite E in Hcall; tauto).
    destruct (sized_lookup b s (j l) Hsz Hjlt) as (cj&?&Hcj&_). exists cj. unfold first, second.
    destruct (min_max (i l) (j l)) as [[-> ->]|[-> ->]]; eauto. }
  unfold step in Hrun. unfold waits_for. destruct (at_ l);
    try (destruct Hj as (cj&c1&c2&Hcj&Hc1&Hc2); [by auto|]);
    try (eexists _, _; split; [done|]; split; [eassumption|]; eapply take_blocked; [|eassumption..]; by auto).
  all: exfalso; apply Hrun; unfold load, store, ends, go, release; by rewrite ?Hci, ?Hcj, ?Hc1, ?Hc2.
Qed.

(** A call that holds a cell waits at most for a higher one. *)
Lemma waits_upwards l name args k k' :
  called l name args → waits_for l = Some k' → hold_of l k ≠ Free → (k < k' < LinearBank.SIZE)%nat.
Proof.
  intros (_&Hlt&Hcall). unfold waits_for, hold_of, on. destruct (at_ l); simpl in Hcall; try done;
    intros [= <-]; case_decide; try done; subst; intros _; unfold first, second; lia.
Qed.

(** So nobody holds a cell while nobody can go on. *)
Lemma nobody_holds b T s D k c u :
  self_inv b T s D →
  (∀ tid th, T !! tid = Some th → ∃ l, th_state th = Running l ∧ ¬ moves (step true tid l b)) →
  b !! k = Some c → writer (m c) = Some u ∨ u ∈ readers (m c) → False.
Proof.
  intros (Hm&Hl&Ha) Hstuck. remember (LinearBank.SIZE - k)%nat as n eqn:En. revert k c u En.
  induction n as [n IH] using lt_wf_ind. intros k c u -> Hc Hu.
  destruct (T !! u) as [th|] eqn:ET.
  2:{ destruct (Ha u ET) as [_ Hfree]. destruct (Hfree k c Hc), Hu; done. }
  destruct (Hl u th ET) as [Hcells Hst], (Hstuck u th ET) as (l&El&Hno), th as [ptr name args st]. simpl in El. subst st.
  destruct Hst as (Hcall&_), (sized_back _ _ _ _ (proj1 Hm) Hc) as [z Hz].
  specialize (Hcells k c z Hc Hz). simpl in Hcells.
  destruct (blocked_waits b s u l _ _ (proj1 Hm) Hcall Hno) as (k'&c'&Hw&Hc'&u'&Hu').
  assert (k < k' < LinearBank.SIZE)%nat.
  { eapply waits_upwards; [done..|]. intros E. rewrite E in Hcells. destruct Hcells, Hu; done. }
  eapply (IH (LinearBank.SIZE - k')%nat); [lia|done..].
Qed.

Lemma bank_never_deadlocks : ¬ can_deadlock bank.
Proof.
  intros (acts&c&E&Hdead).
  destruct (lin_points_reachable bank (GetMethods LinearBank.spec) (spec_init LinearBank.spec) _ _ E)
    as (s&D&Hinv).
  apply (proj1 Hdead), map_empty. intros tid. apply eq_None_ne_Some. intros th HT.
  destruct (deadlocked_stuck c tid th Hdead HT) as (l&El&Hno), (proj1 (proj2 Hinv) tid th HT) as [_ Hst].
  destruct th as [ptr name args st]. simpl in El. subst st.
  destruct (blocked_waits _ s tid l _ _ (proj1 (proj1 Hinv)) (proj1 Hst) Hno) as (k&cell&_&Hc&u&Hu).
  eapply nobody_holds; [exact Hinv|intros u' th' HT'; exact (deadlocked_stuck c u' th' Hdead HT')|done..].
Qed.
End BankPoints.

(** Each of two transfers holds the cell that the other one wants. *)
Lemma bank_deadlock_deadlocks : can_deadlock Bank.bank_deadlock.
Proof.
  apply (can_deadlock_run _
    [Call 0 "Transfer" [0; 1; 5]; Slice 0; Call 1 "Transfer" [1; 0; 5]; Slice 1]).
  vm_compute. reflexivity.
Qed.

(** ** The structures under test *)
#[local] Existing Instances MutexedRegisterPoints.points SharedMutexedRegisterPoints.points FutexMutexPoints.points
  ChannelPoints.points MutexDeadlockPoints.points BankPoints.points.

(** C34. The structures that the repository keeps as correct ones are: every
    history of every interleaving of any number of threads that call the
    atomic register, the registers under a mutex and a shared mutex, the
    mutex over a futex, the buffered channel and the bank is linearizable for
    the specification of its test. The structures kept as mistakes are
    mistakes: the racing register, the queue and the set over slots, the
    Treiber stack and the Michael-Scott queue with bounded retries, the mutex
    that takes a locked word for a free one, and the channel that never
    notices it is full each have a history that no order of the operations
    explains. So does the bounded queue, whose test compares it with an
    unbounded one. *)
Theorem tested_structures_classified :
  (always_linearizable AtomicRegister.structure LinearRegister.spec ∧
   always_linearizable MutexedRegister.structure LinearRegister.spec ∧
   always_linearizable SharedMutexedRegister.structure LinearRegister.spec ∧
   always_linearizable FutexMutex.simple_mutex LinearMutex.spec ∧
   always_linearizable Channel.buffered_channel BufferedChannel.spec ∧
   always_linearizable Bank.bank LinearBank.spec) ∧
  (has_bad_history RaceRegister.structure LinearRegister.spec ∧
   has_bad_history SlotsQueue.structure Queue.spec ∧
   has_bad_history SlotsSet.structure Set_.spec ∧
   has_bad_history TreiberStack.structure Stack.spec ∧
   has_bad_history MSQueue.structure Queue.spec ∧
   has_bad_history MPMCBoundedQueue.structure Queue.spec ∧
   has_bad_history FutexMutex.nonlinear_mutex LinearMutex.spec ∧
   has_bad_history Channel.nonlinear_buffered_channel BufferedChannel.spec).
Proof.
  split; split_and!;
    [exact atomic_register_linearizable|apply self_points_linearizable; exact _..
    |apply race_register_bad|apply slots_queue_bad|apply slots_set_bad|apply treiber_stack_bad
    |apply ms_queue_bad|apply bounded_queue_bad|apply nonlinear_mutex_bad|apply nonlinear_channel_bad].
Qed.

(** C36. Lock order. A bank that locks two cells in the order of their
    indices never deadlocks: whatever the threads did before, as long as one
    of them is inside a call, some thread can go on. Locking the cells in the
    order of the arguments can deadlock, and so can the two mutexes of
    simple_deadlock.cpp, although every history of the latter is
    linearizable: there a deadlock is all that a test can find. *)
Theorem lock_order_decides_deadlock :
  ¬ can_deadlock Bank.bank ∧ can_deadlock Bank.bank_deadlock ∧
  can_deadlock MutexDeadlock.structure ∧
  always_linearizable MutexDeadlock.structure MutexDeadlockSpec.spec.
Proof.
  split_and!; [apply BankPoints.bank_never_deadlocks|apply bank_deadlock_deadlocks
              |apply mutex_deadlock_deadlocks|apply self_points_linearizable; exact _].
Qed.
