(* ===== verification/TargetsDual.v ===== *)
(** * Structures that answer requests later

    src/verifying/dual/dual_treiber_stack.cpp, whose methods are atomic, and
    the channel of src/verifying/dual/coroutine_queue.cpp, whose awaiters do
    their work under a mutex. Both are compared with their specifications,
    call by call. *)
From Stdlib Require Import ZArith.
From stdpp Require Import base list gmap strings.
From S2P Require Import Prelude LinSpec Events Search Specs SpecsDual SpecsQueues SpecsCorrect.
Local Open Scope Z_scope.

(** ** dual_treiber_stack.cpp *)
Module DualTreiberStack.

(** A pointer is the position of its node in the heap; nodes are never
    freed. *)
Record TPtr := mkTPtr { tp_ptr : option nat; is_request : bool; data_underneath : bool }.
Record Node := mkNode { data : Z; data_node : option nat; next : TPtr }.
Definition new_node : Node := mkNode 0 None (mkTPtr None false false).

Record Ticket := mkTicket { id : Z; impl_ptr : option nat }.

(** The vectors have their last element first. [head] is written by no
    method. *)
Record t := mk {
  heap : list Node;
  next_ticket_ : Z;
  simple_stack_ : list Z;
  pending_requests_ : list nat;
  tickets : list Ticket
}.

Definition initial : t := mk [] 1 [] [] [].

Definition alloc (n : Node) (s : t) : nat * t :=
  (length (heap s), mk (heap s ++ [n]) (next_ticket_ s) (simple_stack_ s) (pending_requests_ s) (tickets s)).

(** [p->data_node.store(d)] *)
Definition store_data_node (p : nat) (d : option nat) (s : t) : outcome t :=
  n ← deref (heap s !! p);
  Ret (mk (<[p := mkNode (data n) d (next n)]> (heap s)) (next_ticket_ s) (simple_stack_ s)
          (pending_requests_ s) (tickets s)).

Definition Push (v : Z) (s : t) : outcome t :=
  match pending_requests_ s with
  | req :: rest =>
      let s := mk (heap s) (next_ticket_ s) (simple_stack_ s) rest (tickets s) in
      let '(d, s) := alloc (mkNode v None (mkTPtr None false false)) s in
      store_data_node req (Some d) s
  | [] => Ret (mk (heap s) (next_ticket_ s) (v :: simple_stack_ s) [] (tickets s))
  end.

Definition RegisterTicketForGenerator (k : Ticket) (s : t) : t :=
  mk (heap s) (next_ticket_ s) (simple_stack_ s) (pending_requests_ s) (tickets s ++ [k]).

Definition PopRequest (s : t) : outcome (Ticket * t) :=
  let '(req, s) := alloc new_node s in
  s ← (match simple_stack_ s with
       | v :: rest =>
           let s := mk (heap s) (next_ticket_ s) rest (pending_requests_ s) (tickets s) in
           let '(d, s) := alloc (mkNode v None (mkTPtr None false false)) s in
           store_data_node req (Some d) s
       | [] => Ret (mk (heap s) (next_ticket_ s) [] (req :: pending_requests_ s) (tickets s))
       end);
  let k := mkTicket (next_ticket_ s) (Some req) in
  let s := mk (heap s) (int32 (next_ticket_ s + 1)) (simple_stack_ s) (pending_requests_ s) (tickets s) in
  Ret (k, RegisterTicketForGenerator k s).

Definition TryPopFollowUp (k : Ticket) (s : t) : outcome (Z * t) :=
  if bool_decide (id k = 0) then Ret (0, s)
  else
    match impl_ptr k with
    | None => AssertFail
    | Some p =>
        n ← deref (heap s !! p);
        s ← store_data_node p None s;
        match data_node n with
        | None => Ret (0, s)
        | Some d => dn ← deref (heap s !! d); Ret (data dn, s)
        end
    end.

(** The generator of follow-ups: [r] is the outcome of [rand()]. *)
Definition AcquireTicketForFollowUp (r : Z) (s : t) : Ticket * t :=
  match tickets s with
  | [] => (mkTicket 0 None, s)
  | _ =>
      let idx := Z.to_nat (u64 r mod Z.of_nat (length (tickets s))) in
      (default (mkTicket 0 None) (tickets s !! idx),
       mk (heap s) (next_ticket_ s) (simple_stack_ s) (pending_requests_ s) (delete idx (tickets s)))
  end.

(** The generator takes one registered ticket away. *)
Lemma acquire_takes_one r s :
  tickets s ≠ [] →
  tickets s ≡ₚ (AcquireTicketForFollowUp r s).1 :: tickets (AcquireTicketForFollowUp r s).2.
Proof.
  intros Hne. unfold AcquireTicketForFollowUp. destruct (tickets s) as [|k ks] eqn:E; [done|].
  set (idx := Z.to_nat _). destruct (lookup_lt_is_Some_2 (k :: ks) idx) as [k' Hk'].
  { unfold idx. pose proof (Z.mod_pos_bound (u64 r) (Z.of_nat (length (k :: ks)))). simpl in *. lia. }
  cbn [fst snd tickets]. rewrite Hk'. simpl default. by apply delete_Permutation.
Qed.

(** *** The word of the head *)
Definition PTR_MASK : Z := Z.shiftl 1 48 - 1.
Definition BIT_REQ : Z := Z.shiftl 1 48.
Definition BIT_UNDER : Z := Z.shiftl 1 49.
Definition SN_SHIFT : Z := 50.
Definition SN_MASK : Z := Z.shiftl 1 14 - 1.

Record HeadFields := mkHead { hf_ptr : Z; hf_is_request : bool; hf_data_underneath : bool; sn : Z }.

Definition packHead (h : HeadFields) : Z :=
  let p := Z.land (hf_ptr h) PTR_MASK in
  let bits := 0 in
  let bits := if hf_is_request h then Z.lor bits BIT_REQ else bits in
  let bits := if hf_data_underneath h then Z.lor bits BIT_UNDER else bits in
  let sn_field := u64 (Z.shiftl (Z.land (u64 (sn h)) SN_MASK) SN_SHIFT) in
  Z.lor (Z.lor p bits) sn_field.

Definition unpackHead (raw : Z) : HeadFields :=
  mkHead (Z.land raw PTR_MASK) (negb (Z.land raw BIT_REQ =? 0)) (negb (Z.land raw BIT_UNDER =? 0))
         (int32 (Z.land (Z.shiftr raw SN_SHIFT) SN_MASK)).

Definition equal_ct (a b : HeadFields) : bool :=
  bool_decide (hf_ptr a = hf_ptr b) && Bool.eqb (hf_is_request a) (hf_is_request b) &&
  Bool.eqb (hf_data_underneath a) (hf_data_underneath b) && bool_decide (sn a = sn b).

(** *** The head word keeps its fields *)
Lemma lor_above a c n : 0 ≤ n → 0 ≤ a < 2 ^ n → Z.lor a (c * 2 ^ n) = a + c * 2 ^ n.
Proof.
  intros Hn Ha. assert (Z.land a (c * 2 ^ n) = 0) as H.
  { apply Z.bits_inj'. intros k Hk. rewrite Z.land_spec, Z.bits_0. destruct (Z.lt_ge_cases k n) as [Hlt|Hge].
    - rewrite Z.mul_pow2_bits_low by lia. apply andb_false_r.
    - rewrite <-(Z.mod_small a (2 ^ n)) by done. rewrite Z.mod_pow2_bits_high by lia. done. }
  rewrite <-Z.lxor_lor by done. symmetry. by apply Z.add_nocarry_lxor.
Qed.

Lemma land_bit a n : 0 ≤ n → negb (Z.land a (2 ^ n) =? 0) = Z.odd (a / 2 ^ n).
Proof.
  intros Hn. rewrite <-Z.bit0_odd, <-Z.shiftr_div_pow2, Z.shiftr_spec, Z.add_0_l by done.
  destruct (Z.testbit a n) eqn:E; [apply negb_true_iff, Z.eqb_neq|apply negb_false_iff, Z.eqb_eq].
  - intros H. assert (Z.testbit (Z.land a (2 ^ n)) n = false) as H' by (rewrite H; apply Z.bits_0).
    rewrite Z.land_spec, E, Z.pow2_bits_true in H' by done. done.
  - apply Z.bits_inj'. intros k Hk. rewrite Z.land_spec, Z.bits_0. destruct (decide (k = n)) as [->|Hne].
    + by rewrite E.
    + rewrite Z.pow2_bits_false by lia. apply andb_false_r.
Qed.

Definition bit (b : bool) : Z := if b then 1 else 0.

Lemma packHead_sum h :
  0 ≤ hf_ptr h < 2 ^ 48 → 0 ≤ sn h < 2 ^ 14 →
  packHead h = hf_ptr h + (bit (hf_is_request h) + bit (hf_data_underneath h) * 2 + sn h * 4) * 2 ^ 48.
Proof.
  intros Hp Hs. unfold packHead.
  change PTR_MASK with (Z.ones 48). change SN_MASK with (Z.ones 14). change SN_SHIFT with 50.
  rewrite !Z.land_ones, Z.shiftl_mul_pow2 by lia. unfold u64.
  rewrite (Z.mod_small (hf_ptr h)), (Z.mod_small (sn h) (2 ^ 64)), (Z.mod_small (sn h)), (Z.mod_small (sn h * _)) by lia.
  set (bits := if hf_data_underneath h then _ else _).
  assert (bits = (bit (hf_is_request h) + bit (hf_data_underneath h) * 2) * 2 ^ 48) as ->
    by (unfold bits; destruct (hf_is_request h), (hf_data_underneath h); done).
  assert (0 ≤ bit (hf_is_request h) ≤ 1 ∧ 0 ≤ bit (hf_data_underneath h) ≤ 1) as [? ?]
    by (destruct (hf_is_request h), (hf_data_underneath h); done).
  rewrite (lor_above (hf_ptr h) _ 48) by lia. rewrite lor_above by lia. lia.
Qed.

(** Packing a head and unpacking it gives it back, for pointers of 48 bits
    and counters of 14 bits. *)
Lemma pack_unpack h : 0 ≤ hf_ptr h < 2 ^ 48 → 0 ≤ sn h < 2 ^ 14 → unpackHead (packHead h) = h.
Proof.
  intros Hp Hs. rewrite packHead_sum by done. destruct h as [p r u n]. simpl in *. unfold unpackHead.
  change BIT_REQ with (2 ^ 48). change BIT_UNDER with (2 ^ 49).
  change PTR_MASK with (Z.ones 48). change SN_MASK with (Z.ones 14). change SN_SHIFT with 50.
  rewrite !land_bit, !Z.land_ones, Z.shiftr_div_pow2 by lia.
  set (w := bit r + bit u * 2 + n * 4).
  assert (0 ≤ bit r ≤ 1 ∧ 0 ≤ bit u ≤ 1) as [Hr Hu] by (by destruct r, u).
  rewrite Z.mod_add, (Z.mod_small p) by lia.
  assert ((p + w * 2 ^ 48) / 2 ^ 48 = w) as -> by (rewrite Z.div_add by lia; rewrite Z.div_small by lia; lia).
  assert ((p + w * 2 ^ 48) / 2 ^ 49 = bit u + n * 2) as -> by (unfold w; Z.to_euclidean_division_equations; lia).
  assert ((p + w * 2 ^ 48) / 2 ^ 50 = n) as -> by (unfold w; Z.to_euclidean_division_equations; lia).
  rewrite (Z.mod_small n), int32_id by lia. unfold w.
  replace (bit r + bit u * 2 + n * 4) with (bit r + 2 * (bit u + n * 2)) by lia.
  replace (bit u + n * 2) with (bit u + 2 * n) by lia. rewrite !Z.odd_add_mul_2. by destruct r, u.
Qed.

(** *** Simulation *)
Abbreviation Spec := DualStackSplit.t.

(** [ids] are the request nodes: ticket [k + 1] is node [ids !! k]. *)
Definition ticket_node (ids : list nat) (i : Z) : option nat :=
  if bool_decide (1 ≤ i) then ids !! Z.to_nat (i - 1) else None.

Record sim (s : t) (l : Spec) (ids : list nat) : Prop := {
  si_ok : tickets_ok l;
  si_next : next_ticket_ s = Z.of_nat (length ids) + 1;
  si_spec_next : DualStackSplit.next_ticket l = Z.of_nat (length ids) + 1;
  si_stack : simple_stack_ s = DualStackSplit.deq l;
  si_nodup : NoDup ids;
  si_pending : Forall2 (λ p i, ticket_node ids i = Some p) (pending_requests_ s) (DualStackSplit.pending_requests l);
  si_node i p : ticket_node ids i = Some p → ∃ n, heap s !! p = Some n ∧
    match DualStackSplit.ticket_state l !! i with
    | Some (Some v) => ∃ d, data_node n = Some d ∧ data <$> heap s !! d = Some v
    | _ => data_node n = None
    end
}.

Lemma ticket_node_inj ids i i' p : NoDup ids → ticket_node ids i = Some p → ticket_node ids i' = Some p → i = i'.
Proof.
  unfold ticket_node. intros Hnd. repeat case_bool_decide; try done. intros H1 H2.
  pose proof (NoDup_lookup _ _ _ _ Hnd H1 H2). lia.
Qed.

Lemma ticket_node_app ids p i q :
  ticket_node (ids ++ [p]) i = Some q ↔ ticket_node ids i = Some q ∨ (i = Z.of_nat (length ids) + 1 ∧ q = p).
Proof.
  unfold ticket_node. case_bool_decide as H; [|split; [done|]; intros [?|[? _]]; [done|lia]].
  rewrite lookup_app_Some, list_lookup_singleton_Some. split.
  - intros [?|[? [? <-]]]; [by left|]. right. split; [lia|done].
  - intros [?|[-> ->]]; [by left|]. right. split; [lia|]. split; [lia|done].
Qed.

(** The heap after [p->data_node = d] and the allocation of [new]. *)
Lemma data_kept (h : list Node) (new : list Node) p n d o v :
  h !! p = Some n → data <$> h !! d = Some v →
  data <$> <[p := mkNode (data n) o (next n)]> (h ++ new) !! d = Some v.
Proof.
  intros Hp Hd. apply fmap_Some in Hd as (m&Hm&->). pose proof (lookup_lt_Some _ _ _ Hp).
  destruct (decide (p = d)) as [->|Hne].
  - rewrite list_lookup_insert_eq by (rewrite length_app; lia). simplify_eq. done.
  - rewrite list_lookup_insert_ne by done. by rewrite (lookup_app_l_Some _ _ _ _ Hm).
Qed.

(** A value reaches request node [p], ticket [i]. *)
Lemma sim_answer s l ids p i n v h' st' :
  NoDup ids → ticket_node ids i = Some p → heap s !! p = Some n →
  h' = <[p := mkNode (data n) (Some (length (heap s))) (next n)]> (heap s ++ [mkNode v None (mkTPtr None false false)]) →
  st' = <[i := Some v]> (DualStackSplit.ticket_state l) →
  (∀ i p, ticket_node ids i = Some p → ∃ n, heap s !! p = Some n ∧
    match DualStackSplit.ticket_state l !! i with
    | Some (Some v) => ∃ d, data_node n = Some d ∧ data <$> heap s !! d = Some v
    | _ => data_node n = None
    end) →
  ∀ i' p', ticket_node ids i' = Some p' → ∃ n, h' !! p' = Some n ∧
    match st' !! i' with
    | Some (Some v) => ∃ d, data_node n = Some d ∧ data <$> h' !! d = Some v
    | _ => data_node n = None
    end.
Proof.
  intros Hnd Hi Hp -> -> Hnode i' p' Hi'. pose proof (lookup_lt_Some _ _ _ Hp) as Hlt.
  destruct (decide (i' = i)) as [->|Hne].
  - rewrite Hi in Hi'. injection Hi' as <-. eexists.
    rewrite list_lookup_insert_eq by (rewrite length_app; lia). split; [done|].
    rewrite lookup_insert_eq. exists (length (heap s)). split; [done|].
    rewrite list_lookup_insert_ne by lia. by rewrite lookup_app_r, Nat.sub_diag by lia.
  - destruct (Hnode i' p' Hi') as (n'&Hn'&Hm). exists n'.
    assert (p ≠ p') by (intros <-; by eapply Hne, ticket_node_inj).
    rewrite list_lookup_insert_ne, lookup_insert_ne by done.
    split; [by apply lookup_app_l_Some|].
    destruct (DualStackSplit.ticket_state l !! i') as [[w|]|]; [|done|done].
    destruct Hm as (d&?&?). exists d. split; [done|]. by apply data_kept.
Qed.

Lemma sim_push s l ids v :
  sim s l ids → ∃ s' l', Push v s = Ret s' ∧ DualStackSplit.Push l v = Ret l' ∧ sim s' l' ids.
Proof.
  intros [Hok Hn Hn' Hst Hnd Hpend Hnode]. destruct (push_refines l v Hok) as (l'&Hl'&Hok'&_).
  unfold Push. pose proof Hl' as E. unfold DualStackSplit.Push in E.
  destruct (pending_requests_ s) as [|p ps], (DualStackSplit.pending_requests l) as [|i is'] eqn:Ep;
    [|by inversion Hpend..|].
  - injection E as <-. eexists _, _. split; [done|]. split; [done|]. split; simpl; try done. by rewrite Hst.
  - apply Forall2_cons in Hpend as [Hpi Hpend].
    assert (DualStackSplit.ticket_state l !! i = Some None) as Es by (apply (to_pending l Hok); rewrite Ep; by left).
    rewrite Es in E. simpl in E. injection E as <-. destruct (Hnode i p Hpi) as (n&Hp&_).
    unfold store_data_node. simpl. rewrite (lookup_app_l_Some _ _ _ _ Hp). simpl.
    eexists _, _. split; [done|]. split; [done|]. split; simpl; try done.
    eapply (sim_answer s l); eauto.
Qed.

Lemma sim_request s l ids :
  sim s l ids → Z.of_nat (length ids) + 1 < DualStackSplit.INT_MAX →
  ∃ k s' l' p, PopRequest s = Ret (k, s') ∧ id k = Z.of_nat (length ids) + 1 ∧ impl_ptr k = Some p ∧
    DualStackSplit.PopRequest l = Ret (l', id k) ∧ sim s' l' (ids ++ [p]).
Proof.
  intros Hs Hmax. pose proof Hs as [Hok Hn Hn' Hst Hnd Hpend Hnode].
  destruct (request_refines l Hok) as (l'&Hl'&Hok'&Hfresh&_); [lia|].
  pose proof Hl' as E. unfold DualStackSplit.PopRequest in E. rewrite bool_decide_eq_false_2 in E by lia.
  set (p := length (heap s)). set (i := DualStackSplit.next_ticket l) in *.
  set (s1 := mk (heap s ++ [new_node]) (next_ticket_ s) (simple_stack_ s) (pending_requests_ s) (tickets s)).
  assert (Hnew : (heap s ++ [new_node]) !! p = Some new_node) by (by apply list_lookup_middle).
  assert (Hnd1 : NoDup (ids ++ [p])).
  { apply NoDup_app. split; [done|]. split; [|apply NoDup_singleton].
    intros q [k Hk]%list_elem_of_lookup ->%list_elem_of_singleton.
    destruct (Hnode (Z.of_nat k + 1) p) as (n&Hq&_); [|apply lookup_lt_Some in Hq; unfold p in Hq; lia].
    unfold ticket_node. rewrite bool_decide_eq_true_2 by lia. by replace (Z.to_nat (Z.of_nat k + 1 - 1)) with k by lia. }
  assert (Hi : ticket_node (ids ++ [p]) i = Some p) by (apply ticket_node_app; right; lia).
  assert (Hnode1 : ∀ j q, ticket_node (ids ++ [p]) j = Some q → ∃ n, heap s1 !! q = Some n ∧
    match DualStackSplit.ticket_state l !! j with
    | Some (Some v) => ∃ d, data_node n = Some d ∧ data <$> heap s1 !! d = Some v
    | _ => data_node n = None
    end).
  { intros j q [Hj|[-> ->]]%ticket_node_app.
    - destruct (Hnode j q Hj) as (n&Hq&Hm). exists n. split; [by apply lookup_app_l_Some|].
      destruct (DualStackSplit.ticket_state l !! j) as [[v|]|]; [|done..]. destruct Hm as (d&?&Hd).
      exists d. split; [done|]. apply fmap_Some in Hd as (m&Hm&->). simpl. by rewrite (lookup_app_l_Some _ _ _ _ Hm).
    - exists new_node. split; [|by rewrite <-Hn', Hfresh]. exact Hnew. }
  assert (Hpend1 : Forall2 (λ q j, ticket_node (ids ++ [p]) j = Some q) (pending_requests_ s)
    (DualStackSplit.pending_requests l)).
  { eapply Forall2_impl; [exact Hpend|]. intros q j Hj. apply ticket_node_app. by left. }
  assert (Hnext : int32 (next_ticket_ s + 1) = Z.of_nat (length (ids ++ [p])) + 1).
  { unfold DualStackSplit.INT_MAX in Hmax. rewrite length_app, int32_id by (rewrite Hn; lia). simpl. lia. }
  unfold PopRequest. simpl. fold p. rewrite Hst. destruct (DualStackSplit.deq l) as [|v rest] eqn:Ed.
  - injection E as <-. eexists _, _, _, p. split; [done|]. simpl. split; [lia|]. split; [done|].
    split; [rewrite Hl', Hn; f_equal; f_equal; lia|]. split; simpl; try done.
    + rewrite length_app. simpl. lia.
    + by constructor.
    + intros j q Hj. destruct (Hnode1 j q Hj) as (n&Hq&Hm). exists n. split; [done|].
      destruct (decide (j = i)) as [->|Hne]; [rewrite lookup_insert_eq; by rewrite Hfresh in Hm|].
      by rewrite lookup_insert_ne.
  - injection E as <-. unfold store_data_node, alloc. simpl.
    rewrite (lookup_app_l_Some (heap s ++ [new_node]) _ p new_node) by done. simpl. eexists _, _, _, p. split; [done|]. simpl. split; [lia|]. split; [done|].
    split; [rewrite Hl', Hn; f_equal; f_equal; lia|]. split; simpl; try done.
    + rewrite length_app. simpl. lia.
    + eapply (sim_answer s1 l); [done|exact Hi|exact Hnew|done|done|exact Hnode1].
Qed.

Lemma sim_follow_up s l ids k :
  sim s l ids → (id k = 0 ∨ ∃ p, impl_ptr k = Some p ∧ ticket_node ids (id k) = Some p) →
  ∃ r s' l', TryPopFollowUp k s = Ret (r, s') ∧ DualStackSplit.TryPopFollowUp l (id k) = (l', r) ∧ sim s' l' ids.
Proof.
  intros Hs Hk. pose proof Hs as [Hok Hn Hn' Hst Hnd Hpend Hnode].
  unfold TryPopFollowUp. case_bool_decide as H0.
  { exists 0, s, l. split; [done|]. split; [|done]. unfold DualStackSplit.TryPopFollowUp. by rewrite bool_decide_eq_true_2. }
  destruct Hk as [?|(p&Hp&Hi)]; [done|]. rewrite Hp. destruct (Hnode _ _ Hi) as (n&Hh&Hm).
  pose proof (lookup_lt_Some _ _ _ Hh) as Hlt.
  unfold store_data_node. rewrite Hh. simpl.
  assert (Hok' : tickets_ok (DualStackSplit.TryPopFollowUp l (id k)).1).
  { pose proof (follow_up_refines l (id k) Hok) as Hf.
    destruct (CoroAsyncStack.FollowUpPop _ _) as [[v|] s']; [|by rewrite Hf].
    by destruct Hf as (l'&r&->&_&?&_). }
  set (h' := <[p := mkNode (data n) None (next n)]> (heap s)).
  assert (Hkept : ∀ d v, data <$> heap s !! d = Some v → data <$> h' !! d = Some v).
  { intros d v Hd. pose proof (data_kept (heap s) [] p n d None v Hh Hd) as H. by rewrite app_nil_r in H. }
  assert (Hnode' : ∀ st' : gmap Z (option Z), (∀ v, st' !! id k ≠ Some (Some v)) →
    (∀ j, j ≠ id k → st' !! j = DualStackSplit.ticket_state l !! j) →
    ∀ j q, ticket_node ids j = Some q → ∃ n, h' !! q = Some n ∧
    match st' !! j with
    | Some (Some v) => ∃ d, data_node n = Some d ∧ data <$> h' !! d = Some v
    | _ => data_node n = None
    end).
  { intros st' Hk' Hother j q Hj. destruct (decide (j = id k)) as [->|Hne].
    - rewrite Hi in Hj. injection Hj as <-. eexists. split; [by apply list_lookup_insert_eq|]. simpl.
      destruct (st' !! id k) as [[v|]|] eqn:E; [by destruct (Hk' v)|done|done].
    - destruct (Hnode j q Hj) as (m&Hq&Hmm). exists m. rewrite Hother by done.
      assert (p ≠ q) by (intros <-; by eapply Hne, ticket_node_inj).
      unfold h' at 1. rewrite list_lookup_insert_ne by done. split; [done|].
      destruct (DualStackSplit.ticket_state l !! j) as [[v|]|]; [|done..]. destruct Hmm as (d&?&?). eauto. }
  unfold DualStackSplit.TryPopFollowUp in *. rewrite bool_decide_eq_false_2 in * by done.
  destruct (DualStackSplit.ticket_state l !! id k) as [[v|]|] eqn:Est.
  - destruct Hm as (d&->&Hd). apply Hkept, fmap_Some in Hd as (dn&Hdn&->). rewrite Hdn. simpl.
    eexists _, _, _. split; [done|]. split; [done|]. split; simpl; try done. apply Hnode'.
    + intros v. by rewrite lookup_delete_eq.
    + intros j Hj. by rewrite lookup_delete_ne.
  - rewrite Hm. eexists _, _, _. split; [done|]. split; [done|]. split; simpl; try done. apply Hnode'; [|done].
    intros v. by rewrite Est.
  - rewrite Hm. eexists _, _, _. split; [done|]. split; [done|]. split; simpl; try done. apply Hnode'; [|done].
    intros v. by rewrite Est.
Qed.

(** *** All rounds

    A follow-up is called with a ticket that a request returned, or without
    one when none is left. *)
Inductive call := CPush (v : Z) | CRequest | CFollowUp (k : nat).

Fixpoint run (cs : list call) (issued : list Ticket) (s : t) : outcome (list ValueWrapper) :=
  match cs with
  | [] => Ret []
  | CPush v :: cs => s ← Push v s; rs ← run cs issued s; Ret (VoidValue :: rs)
  | CRequest :: cs =>
      '(k, s) ← PopRequest s; rs ← run cs (issued ++ [k]) s; Ret (TicketValue (id k) :: rs)
  | CFollowUp k :: cs =>
      '(r, s) ← TryPopFollowUp (default (mkTicket 0 None) (issued !! k)) s;
      rs ← run cs issued s; Ret (IntValue r :: rs)
  end.

Fixpoint run_spec (cs : list call) (issued : list Z) (l : Spec) : outcome (list ValueWrapper) :=
  match cs with
  | [] => Ret []
  | CPush v :: cs => l ← DualStackSplit.Push l v; rs ← run_spec cs issued l; Ret (VoidValue :: rs)
  | CRequest :: cs =>
      '(l, k) ← DualStackSplit.PopRequest l; rs ← run_spec cs (issued ++ [k]) l; Ret (TicketValue k :: rs)
  | CFollowUp k :: cs =>
      let '(l, r) := DualStackSplit.TryPopFollowUp l (default 0 (issued !! k)) in
      rs ← run_spec cs issued l; Ret (IntValue r :: rs)
  end.

Lemma round_sim cs issued s l ids :
  sim s l ids → Z.of_nat (length ids) + Z.of_nat (length cs) < DualStackSplit.INT_MAX →
  (∀ k, k ∈ issued → ∃ p, impl_ptr k = Some p ∧ ticket_node ids (id k) = Some p) →
  ∃ rs, run cs issued s = Ret rs ∧ run_spec cs (id <$> issued) l = Ret rs.
Proof.
  revert issued s l ids. induction cs as [|[v| |k] cs IH]; intros issued s l ids Hs Hlen Hk; [by exists []|..];
    cbn [length] in Hlen; simpl.
  - destruct (sim_push s l ids v Hs) as (s'&l'&->&->&Hs'). simpl.
    destruct (IH issued s' l' ids Hs') as (rs&->&->); [lia|done|]. by eexists.
  - destruct (sim_request s l ids Hs) as (k&s'&l'&p&->&Hid&Hp&->&Hs'); [lia|]. simpl.
    destruct (IH (issued ++ [k]) s' l' (ids ++ [p]) Hs') as (rs&->&E).
    + rewrite length_app. simpl. lia.
    + intros k' [Hin|Hin%list_elem_of_singleton]%elem_of_app.
      * destruct (Hk k' Hin) as (q&?&?). exists q. split; [done|]. apply ticket_node_app. by left.
      * subst k'. exists p. split; [done|]. apply ticket_node_app. by right.
    + rewrite fmap_app in E. simpl in E. rewrite E. by eexists.
  - rewrite list_lookup_fmap. replace (default 0 (id <$> issued !! k)) with (id (default (mkTicket 0 None) (issued !! k)))
      by (by destruct (issued !! k)).
    destruct (sim_follow_up s l ids (default (mkTicket 0 None) (issued !! k)) Hs) as (r&s'&l'&->&->&Hs').
    { destruct (issued !! k) as [tk|] eqn:E; [|by left]. right. apply Hk. by eapply list_elem_of_lookup_2. }
    simpl. destruct (IH issued s' l' ids Hs') as (rs&->&->); [lia|done|]. by eexists.
Qed.

(** The stack returns what its specification does, call by call, and follows
    no dangling pointer: every round of fewer than [INT_MAX] calls. *)
Lemma dual_treiber_stack_refines cs :
  Z.of_nat (length cs) < DualStackSplit.INT_MAX →
  ∃ rs, run cs [] initial = Ret rs ∧ run_spec cs [] DualStackSplit.initial = Ret rs.
Proof.
  intros Hlen. apply (round_sim cs [] initial DualStackSplit.initial []); [|simpl; lia|by intros k ?%not_elem_of_nil].
  split; simpl; [apply tickets_reachable_ok; constructor|done|done|done|constructor|constructor|].
  unfold ticket_node. intros i p. by case_bool_decide.
Qed.
End DualTreiberStack.

(** ** coroutine_queue.cpp

    A coroutine handle is the number of its operation. The lists hold copies
    of the awaiters; the received element is a cell that the copies share,
    named by the operation too. The body under the mutex is one step. *)
Module CoroutineQueueTarget.
Record ReceivePromise := mkReceive { r_id : Z; receiver : option Z; elem_cell : Z }.
Record SendPromise := mkSend { s_id : Z; sender : option Z; elem : Z }.

Record t := mk {
  receivers : list ReceivePromise;
  senders : list SendPromise;
  next_waiter_id : Z;
  cells : gmap Z (option Z)
}.

Definition initial : t := mk [] [] 1 ∅.

Definition set_cell (c : Z) (v : option Z) (q : t) : t :=
  mk (receivers q) (senders q) (next_waiter_id q) (<[c := v]> (cells q)).

(** [receive()] *)
Definition receive (op : Z) (q : t) : ReceivePromise * t := (mkReceive 0 None op, set_cell op None q).
Definition send (v : Z) : SendPromise := mkSend 0 None v.

(** [await_suspend]: the coroutine to resume, whether to suspend, the awaiter. *)
Definition receive_suspend (h : Z) (p : ReceivePromise) (q : t) : option Z * bool * ReceivePromise * t :=
  match senders q with
  | send_req :: rest =>
      (sender send_req, false, p,
       set_cell (elem_cell p) (Some (elem send_req)) (mk (receivers q) rest (next_waiter_id q) (cells q)))
  | [] =>
      let p := mkReceive (next_waiter_id q) (Some h) (elem_cell p) in
      (None, true, p, mk (receivers q ++ [p]) [] (u64 (next_waiter_id q + 1)) (cells q))
  end.

Definition send_suspend (h : Z) (p : SendPromise) (q : t) : option Z * bool * SendPromise * t :=
  match receivers q with
  | recv_req :: rest =>
      (receiver recv_req, false, p,
       set_cell (elem_cell recv_req) (Some (elem p)) (mk rest (senders q) (next_waiter_id q) (cells q)))
  | [] =>
      let p := mkSend (next_waiter_id q) (Some h) (elem p) in
      (None, true, p, mk [] (senders q ++ [p]) (u64 (next_waiter_id q + 1)) (cells q))
  end.

Definition receive_resume (p : ReceivePromise) (q : t) : outcome Z :=
  match cells q !! elem_cell p with
  | Some (Some v) => Ret v
  | Some None => AssertFail
  | None => UB
  end.

(** [unregister] of either awaiter. *)
Fixpoint erase_first {A} (f : A → bool) (l : list A) : list A :=
  match l with
  | [] => []
  | x :: l => if f x then l else x :: erase_first f l
  end.
Definition receive_unregister (p : ReceivePromise) (q : t) : ReceivePromise * t :=
  if bool_decide (r_id p = 0) then (p, q)
  else (mkReceive 0 (receiver p) (elem_cell p),
        mk (erase_first (λ w, bool_decide (r_id w = r_id p)) (receivers q)) (senders q) (next_waiter_id q) (cells q)).
Definition send_unregister (p : SendPromise) (q : t) : SendPromise * t :=
  if bool_decide (s_id p = 0) then (p, q)
  else (mkSend 0 (sender p) (elem p),
        mk (receivers q) (erase_first (λ w, bool_decide (s_id w = s_id p)) (senders q)) (next_waiter_id q) (cells q)).

(** [unregister] removes the awaiter with this number and no other. *)
Lemma erase_first_perm {A} (key : A → Z) (l : list A) p :
  p ∈ l → NoDup (key <$> l) → l ≡ₚ p :: erase_first (λ w, bool_decide (key w = key p)) l.
Proof.
  induction l as [|x l IH]; [by intros ?%not_elem_of_nil|]. intros Hin [Hx Hnd]%NoDup_cons. simpl.
  case_bool_decide as E.
  - apply elem_of_cons in Hin as [->|Hin]; [done|]. destruct Hx. rewrite E. by apply list_elem_of_fmap_2.
  - apply elem_of_cons in Hin as [->|Hin]; [done|]. rewrite (IH Hin Hnd) at 1. constructor.
Qed.
Lemma receive_unregister_removes p q :
  r_id p ≠ 0 → p ∈ receivers q → NoDup (r_id <$> receivers q) →
  receivers q ≡ₚ p :: receivers (receive_unregister p q).2 ∧ r_id (receive_unregister p q).1 = 0.
Proof.
  intros Hid Hin Hnd. unfold receive_unregister. rewrite bool_decide_eq_false_2 by done.
  split; [|done]. by apply erase_first_perm.
Qed.
Lemma send_unregister_removes p q :
  s_id p ≠ 0 → p ∈ senders q → NoDup (s_id <$> senders q) →
  senders q ≡ₚ p :: senders (send_unregister p q).2 ∧ s_id (send_unregister p q).1 = 0.
Proof.
  intros Hid Hin Hnd. unfold send_unregister. rewrite bool_decide_eq_false_2 by done.
  split; [|done]. by apply erase_first_perm.
Qed.

(** *** Operations

    The operations that may go on behind their [co_await], and the awaiters
    of the receives. *)
Record sys := mkSys { queue : t; awake : gset Z; frames : gmap Z ReceivePromise }.

Inductive action := AReceive (op : Z) | ASend (op v : Z) | AReceived (op : Z) | ASent (op : Z).

Definition wake (to_resume : option Z) (op : Z) (suspend : bool) (a : gset Z) : gset Z :=
  (match to_resume with Some h => {[h]} | None => ∅ end) ∪ (if suspend then ∅ else {[op]}) ∪ a.

(** The result of an operation that ends, and the state after the action. *)
Definition act (a : action) (s : sys) : option (outcome (option ValueWrapper) * sys) :=
  match a with
  | AReceive op =>
      let '(p, q) := receive op (queue s) in
      let '(h, suspend, p, q) := receive_suspend op p q in
      Some (Ret None, mkSys q (wake h op suspend (awake s)) (<[op := p]> (frames s)))
  | ASend op v =>
      let '(h, suspend, _, q) := send_suspend op (send v) (queue s) in
      Some (Ret None, mkSys q (wake h op suspend (awake s)) (frames s))
  | AReceived op =>
      match frames s !! op with
      | Some p =>
          if bool_decide (op ∈ awake s) then
            Some (v ← receive_resume p (queue s); Ret (Some (IntValue v)),
                  mkSys (queue s) (awake s ∖ {[op]}) (delete op (frames s)))
          else None
      | None => None
      end
  | ASent op =>
      if bool_decide (op ∈ awake s ∧ frames s !! op = None)
      then Some (Ret (Some VoidValue), mkSys (queue s) (awake s ∖ {[op]}) (frames s)) else None
  end.

(** *** Simulation

    [used] are the operations started so far. *)
Abbreviation Spec := SpecsDual.CoroutineQueue.t.

Definition awaits (p : SendPromise) (w : Z * Z) : Prop := sender p = Some w.1 ∧ elem p = w.2.
Definition waits (p : ReceivePromise) (op : Z) : Prop := receiver p = Some op ∧ elem_cell p = op.

Record sim (s : sys) (l : Spec) (used : gset Z) : Prop := {
  cq_receivers : Forall2 waits (receivers (queue s)) (CoroutineQueue.waiting_receives l);
  cq_senders : Forall2 awaits (senders (queue s)) (CoroutineQueue.waiting_sends l);
  cq_frame op p : frames s !! op = Some p → op ∈ used ∧ elem_cell p = op;
  cq_waiting op : op ∈ CoroutineQueue.waiting_receives l →
    is_Some (frames s !! op) ∧ op ∉ awake s ∧ CoroutineQueue.ready_receive_value l !! op = None;
  cq_nodup : NoDup (CoroutineQueue.waiting_receives l);
  cq_sending op v : (op, v) ∈ CoroutineQueue.waiting_sends l → op ∈ used ∧ frames s !! op = None;
  cq_received op v : CoroutineQueue.ready_receive_value l !! op = Some v →
    is_Some (frames s !! op) ∧ cells (queue s) !! op = Some (Some v);
  cq_sent op : op ∈ CoroutineQueue.ready_send l → op ∈ used ∧ frames s !! op = None;
  cq_awake op : op ∈ awake s ↔
    op ∈ CoroutineQueue.ready_send l ∨ is_Some (CoroutineQueue.ready_receive_value l !! op)
}.

(** The same actions on the specification: a request, or a follow-up that has
    its answer. *)
Definition act_spec (a : action) (l : Spec) : option (option ValueWrapper * Spec) :=
  match a with
  | AReceive op => Some (None, CoroutineQueue.RequestReceive l op)
  | ASend op v => Some (None, CoroutineQueue.RequestSend l op v)
  | AReceived op =>
      match CoroutineQueue.FollowUpReceive l op with (Some v, l) => Some (Some v, l) | (None, _) => None end
  | ASent op =>
      match CoroutineQueue.FollowUpSend l op with (Some v, l) => Some (Some v, l) | (None, _) => None end
  end.

(** The operation an action starts. *)
Definition starts (a : action) : gset Z :=
  match a with AReceive op | ASend op _ => {[op]} | AReceived _ | ASent _ => ∅ end.

Lemma sim_receive s l used op :
  sim s l used → op ∉ used →
  ∃ s', act (AReceive op) s = Some (Ret None, s') ∧ sim s' (CoroutineQueue.RequestReceive l op) ({[op]} ∪ used).
Proof.
  intros [Hr Hs Hf Hw Hnd Hsg Hrd Hst Ha] Hop. unfold act, CoroutineQueue.RequestReceive. simpl.
  assert (frames s !! op = None) as Hfo by (destruct (frames s !! op) eqn:E; [by apply Hf in E as [??]|done]).
  assert (CoroutineQueue.ready_receive_value l !! op = None) as Hro
    by (destruct (CoroutineQueue.ready_receive_value l !! op) eqn:E; [apply Hrd in E as [[? ?] _]; congruence|done]).
  assert (op ∉ CoroutineQueue.ready_send l) as Hso by (intros [??]%Hst; done).
  assert (op ∉ awake s) as Hao by (rewrite Ha, Hro; intros [?|[? ?]]; done).
  assert (op ∉ CoroutineQueue.waiting_receives l) as Hwo
    by (intros [[? E] _]%Hw; congruence).
  unfold receive_suspend. simpl.
  destruct Hs as [|p [i v] ps ws [Hpi Hpv] Hs]; simpl.
  - eexists. split; [done|]. split; simpl; try done.
    + apply Forall2_app; [done|]. by repeat constructor.
    + intros o p [[<- <-]|[? [? ?]%Hf]]%lookup_insert_Some; set_solver.
    + intros o [Ho| ->%list_elem_of_singleton]%elem_of_app.
      * destruct (Hw o Ho) as ([p Hp]&?&?). split; [|set_solver].
        rewrite lookup_insert_ne by (by intros ->). by eexists.
      * rewrite lookup_insert_eq. split; [by eexists|]. set_solver.
    + apply NoDup_app. split; [done|]. split; [|apply NoDup_singleton]. set_solver.
    + by intros o v ?%not_elem_of_nil.
    + intros o v E. destruct (Hrd o v E) as [[p Hp] Hc]. assert (o ≠ op) by congruence.
      rewrite !lookup_insert_ne by done. split; [by eexists|done].
    + intros o [Ho Hfr]%Hst. rewrite lookup_insert_ne by set_solver. set_solver.
    + intros o. rewrite <-Ha. set_solver.
  - simpl in Hpi, Hpv. rewrite Hpi, Hpv.
    assert (i ∈ used ∧ frames s !! i = None) as [Hiu Hif] by (apply (Hsg i v); by left).
    assert (i ≠ op) by set_solver.
    eexists. split; [done|]. split; simpl; try done.
    + intros o q [[<- <-]|[? [? ?]%Hf]]%lookup_insert_Some; set_solver.
    + intros o Ho. destruct (Hw o Ho) as ([q Hq]&?&?). assert (o ≠ op) by set_solver.
      rewrite !lookup_insert_ne by done. split; [by eexists|]. split; [|done].
      intros Hin. assert (o ≠ i) by congruence. set_solver.
    + intros o w Ho. destruct (Hsg o w) as [? ?]; [by right|]. rewrite lookup_insert_ne by set_solver. set_solver.
    + intros o w [[<- <-]|[Hne E]]%lookup_insert_Some.
      * rewrite !lookup_insert_eq. split; [by eexists|done].
      * destruct (Hrd o w E) as [[q Hq] Hc]. rewrite !lookup_insert_ne by done. split; [by eexists|done].
    + intros o [ ->%elem_of_singleton|[Ho Hfr]%Hst]%elem_of_union;
        (rewrite lookup_insert_ne by set_solver; set_solver).
    + intros o. unfold wake. rewrite lookup_insert_is_Some. destruct (decide (op = o)) as [->|Hne]; set_solver.
Qed.

Lemma sim_send s l used op v :
  sim s l used → op ∉ used →
  ∃ s', act (ASend op v) s = Some (Ret None, s') ∧ sim s' (CoroutineQueue.RequestSend l op v) ({[op]} ∪ used).
Proof.
  intros [Hr Hs Hf Hw Hnd Hsg Hrd Hst Ha] Hop. unfold act, CoroutineQueue.RequestSend, send_suspend. simpl.
  assert (frames s !! op = None) as Hfo by (destruct (frames s !! op) eqn:E; [by apply Hf in E as [??]|done]).
  assert (op ∉ CoroutineQueue.ready_send l) as Hso by (intros [??]%Hst; done).
  destruct Hr as [|p i ps ws [Hpi Hpc] Hr]; simpl.
  - eexists. split; [done|]. split; simpl; try done.
    + apply Forall2_app; [done|]. by repeat constructor.
    + intros o p E. destruct (Hf o p E). set_solver.
    + by intros o ?%not_elem_of_nil.
    + intros o w [Ho|[= <- <-]%list_elem_of_singleton]%elem_of_app; [|set_solver].
      destruct (Hsg o w Ho). set_solver.
    + intros o E. destruct (Hst o E). set_solver.
    + intros o. rewrite <-Ha. set_solver.
  - rewrite Hpi, Hpc. apply NoDup_cons in Hnd as [Hni Hnd].
    destruct (Hw i) as ([q Hq]&Hia&Hir); [by left|].
    assert (i ≠ op) by congruence.
    eexists. split; [done|]. split; simpl; try done.
    + intros o p' E. destruct (Hf o p' E). set_solver.
    + intros o Ho. destruct (Hw o) as ([q' Hq']&?&?); [by right|]. assert (o ≠ i) by set_solver.
      assert (o ≠ op) by congruence. rewrite lookup_insert_ne by done. split; [by eexists|]. set_solver.
    + intros o w Ho. destruct (Hsg o w Ho). set_solver.
    + intros o w [[<- <-]|[Hne E]]%lookup_insert_Some.
      * rewrite lookup_insert_eq. split; [by eexists|done].
      * destruct (Hrd o w E). by rewrite lookup_insert_ne.
    + intros o [ ->%elem_of_singleton|E]%elem_of_union; [set_solver|]. destruct (Hst o E). set_solver.
    + intros o. unfold wake. rewrite lookup_insert_is_Some. destruct (decide (i = o)) as [->|Hne]; set_solver.
Qed.

Lemma sim_received s l used op :
  sim s l used →
  match act_spec (AReceived op) l with
  | Some (r, l') => ∃ s', act (AReceived op) s = Some (Ret r, s') ∧ sim s' l' used
  | None => act (AReceived op) s = None
  end.
Proof.
  intros [Hr Hs Hf Hw Hnd Hsg Hrd Hst Ha]. unfold act_spec, act, CoroutineQueue.FollowUpReceive, follow_up_map.
  destruct (CoroutineQueue.ready_receive_value l !! op) as [v|] eqn:E.
  - destruct (Hrd op v E) as [[p Hp] Hc]. rewrite Hp. destruct (Hf op p Hp) as [_ Hcell].
    rewrite bool_decide_eq_true_2 by (apply Ha; right; by rewrite E).
    unfold receive_resume. rewrite Hcell, Hc. simpl. eexists. split; [done|]. split; simpl; try done.
    + intros o q [_ ?]%lookup_delete_Some. by apply Hf.
    + intros o Ho. destruct (Hw o Ho) as ([q Hq]&?&?). assert (o ≠ op) by congruence.
      rewrite !lookup_delete_ne by done. split; [by eexists|]. set_solver.
    + intros o w Ho. destruct (Hsg o w Ho). split; [done|]. apply lookup_delete_None. by right.
    + intros o w [Hne Ho]%lookup_delete_Some. rewrite lookup_delete_ne by done. by apply Hrd.
    + intros o Ho. destruct (Hst o Ho). split; [done|]. apply lookup_delete_None. by right.
    + intros o. rewrite elem_of_difference, elem_of_singleton, Ha, lookup_delete_is_Some. split.
      * intros [[?|?] ?]; [by left|right]. split; [congruence|done].
      * intros [Ho|[? ?]]; (split; [by auto|]); [|congruence].
        intros ->. apply Hst in Ho as [_ ?]. congruence.
  - destruct (frames s !! op) as [p|] eqn:Ef; [|done]. rewrite bool_decide_eq_false_2; [done|].
    rewrite Ha, E. intros [Ho|[? ?]]; [|done]. apply Hst in Ho as [_ ?]. congruence.
Qed.

Lemma sim_sent s l used op :
  sim s l used →
  match act_spec (ASent op) l with
  | Some (r, l') => ∃ s', act (ASent op) s = Some (Ret r, s') ∧ sim s' l' used
  | None => act (ASent op) s = None
  end.
Proof.
  intros [Hr Hs Hf Hw Hnd Hsg Hrd Hst Ha]. unfold act_spec, act, CoroutineQueue.FollowUpSend, follow_up_set.
  destruct (decide (op ∈ CoroutineQueue.ready_send l)) as [E|E].
  - rewrite (bool_decide_eq_true_2 (op ∈ _ l)) by done. destruct (Hst op E) as [_ Hfo].
    rewrite bool_decide_eq_true_2 by (split; [apply Ha; by left|done]).
    eexists. split; [done|]. split; simpl; try done.
    + intros o Ho. destruct (Hw o Ho) as (?&?&?). set_solver.
    + intros o Ho. apply Hst. set_solver.
    + intros o. rewrite elem_of_difference, elem_of_singleton, Ha, elem_of_difference, elem_of_singleton. split.
      * intros [[?|?] ?]; auto.
      * intros [[? ?]|[v Hv]]; [by auto|]. split; [right; by eexists|]. intros ->.
        apply Hrd in Hv as [[? ?] _]. congruence.
  - rewrite (bool_decide_eq_false_2 (op ∈ _ l)) by done. rewrite bool_decide_eq_false_2; [done|].
    intros [[?|[v Hv]]%Ha Hfo]; [done|]. apply Hrd in Hv as [[? ?] _]. congruence.
Qed.

(** *** All interleavings

    An action that cannot happen leaves no trace and changes nothing. *)
Fixpoint run (acts : list action) (s : sys) : list (option (outcome (option ValueWrapper))) :=
  match acts with
  | [] => []
  | a :: acts => match act a s with Some (r, s) => Some r :: run acts s | None => None :: run acts s end
  end.
Fixpoint run_spec (acts : list action) (l : Spec) : list (option (option ValueWrapper)) :=
  match acts with
  | [] => []
  | a :: acts => match act_spec a l with Some (r, l) => Some r :: run_spec acts l | None => None :: run_spec acts l end
  end.

(** Every operation is started once. *)
Fixpoint started_once (acts : list action) (used : gset Z) : bool :=
  match acts with
  | [] => true
  | a :: acts => bool_decide (starts a ## used) && started_once acts (starts a ∪ used)
  end.

Lemma actions_sim acts s l used :
  sim s l used → started_once acts used = true → run acts s = fmap (M := option) Ret <$> run_spec acts l.
Proof.
  revert s l used. induction acts as [|a acts IH]; intros s l used Hs Ho; [done|].
  simpl in Ho. apply andb_true_iff in Ho as [Hd%bool_decide_eq_true Ho]. cbn [run run_spec].
  destruct a as [op|op v|op|op]; simpl starts in *.
  - destruct (sim_receive s l used op Hs) as (s'&->&Hs'); [set_solver|]. simpl. f_equal. by eapply IH.
  - destruct (sim_send s l used op v Hs) as (s'&->&Hs'); [set_solver|]. simpl. f_equal. by eapply IH.
  - rewrite union_empty_l_L in Ho. pose proof (sim_received s l used op Hs) as H.
    destruct (act_spec (AReceived op) l) as [[r l']|]; [destruct H as (s'&->&Hs')|rewrite H]; simpl; f_equal; by eapply IH.
  - rewrite union_empty_l_L in Ho. pose proof (sim_sent s l used op Hs) as H.
    destruct (act_spec (ASent op) l) as [[r l']|]; [destruct H as (s'&->&Hs')|rewrite H]; simpl; f_equal; by eapply IH.
Qed.

(** Whatever the order of the requests and of the follow-ups, an operation of
    the channel can end exactly when the specification has its answer, with
    that answer, and the assertion of [await_resume] holds. *)
Theorem coroutine_queue_refines acts :
  started_once acts ∅ = true →
  run acts (mkSys initial ∅ ∅) = fmap (M := option) Ret <$> run_spec acts (CoroutineQueue.mk [] [] ∅ ∅).
Proof.
  apply actions_sim. split; simpl; try set_solver; try by constructor.
  intros op. rewrite lookup_empty. split; [set_solver|]. intros [?|[? ?]]; [set_solver|done].
Qed.
End CoroutineQueueTarget.
