(* ===== verification/WorldInv.v ===== *)
(** * Well-formed worlds

    The state that the scheduler and a strategy share, as the rounds keep it:
    every slot of [threads] owns its own coroutine, a coroutine that has not
    returned is suspended, task ids are distinct. [stable] relates two worlds
    that differ only in what a strategy may touch while it chooses a thread:
    the verifier, the random numbers, the order of the constructors and the
    empty queues that a lookup of the block manager inserts. *)
From stdpp Require Import base list gmap strings.
From Stdlib Require Import ZArith.
From S2P Require Import Prelude Effects BlockManager Runtime Verifier Strategy.

Open Scope nat_scope.

Section Worlds.
Context `{TT : TargetTypes, TC : !TargetCode, RN : Random, TO : !TargetObject}.
Context {B X : Type}.
Abbreviation W := (World B X).
Implicit Types (w : W) (p t i : nat) (s : Slot) (c : Coro).

Definition slots w : list nat := concat (threads (base w)).
Definition coro w p : option Coro := heap (rt w) !! p.
Definition slot_ptr w s : option nat := threads (base w) !! s.1 ≫= λ th, th !! s.2.
Definition slot_coro w s : option Coro := slot_ptr w s ≫= coro w.

Record winv w : Prop := {
  wi_heap p : p ∈ slots w → is_Some (coro w p);
  wi_fresh p : is_Some (coro w p) → p < next_ptr (rt w);
  wi_nodup : NoDup (slots w);
  wi_ctx p c : p ∈ slots w → coro w p = Some c → co_returned c = false → is_Some (co_ctx c);
  wi_id p c : p ∈ slots w → coro w p = Some c → (co_id c < new_task_id (base w))%Z;
  wi_ids p q c d : p ∈ slots w → q ∈ slots w → coro w p = Some c → coro w q = Some d →
    co_id c = co_id d → p = q;
}.

(** No simulated thread was created or is waited for. *)
Definition no_os w : Prop := thread_info (rt w) = None ∧ join_pairs (base w) = ∅.

(** The names of the tasks, and of those that can be built, satisfy [P]. *)
Definition names_in (P : string → Prop) w : Prop :=
  (∀ p c, p ∈ slots w → coro w p = Some c → P (co_name c)) ∧
  (∀ b, b ∈ constructors (base w) → P (tb_name b)).

Record stable w w' : Prop := {
  st_heap : heap (rt w') = heap (rt w);
  st_next : next_ptr (rt w') = next_ptr (rt w);
  st_waiting a : waiting (block_manager (rt w')) a = waiting (block_manager (rt w)) a;
  st_info : thread_info (rt w') = thread_info (rt w);
  st_memory : memory (rt w') = memory (rt w);
  st_ids : new_task_id (base w') = new_task_id (base w);
  st_removed : removed_tasks (base w') = removed_tasks (base w);
  st_schedule : round_schedule (base w') = round_schedule (base w);
  st_allow : allow_new_tasks_ (base w') = allow_new_tasks_ (base w);
  st_state : state (base w') = state (base w);
  st_count : threads_count (base w') = threads_count (base w);
  st_threads : threads (base w') = threads (base w);
  st_constructors : constructors (base w') ≡ₚ constructors (base w);
  st_joins : join_pairs (base w') = join_pairs (base w);
}.

#[export] Instance stable_preorder : PreOrder stable.
Proof.
  split; [by split|]. intros w1 w2 w3 [] []. split; try congruence; try (by etrans).
Qed.

Lemma stable_slots w w' : stable w w' → slots w' = slots w.
Proof. intros []. unfold slots. congruence. Qed.
Lemma stable_coro w w' p : stable w w' → coro w' p = coro w p.
Proof. intros []. unfold coro. congruence. Qed.
Lemma stable_slot_ptr w w' s : stable w w' → slot_ptr w' s = slot_ptr w s.
Proof. intros []. unfold slot_ptr. congruence. Qed.
Lemma stable_slot_coro w w' s : stable w w' → slot_coro w' s = slot_coro w s.
Proof.
  intros Hs. unfold slot_coro. rewrite (stable_slot_ptr w w') by done.
  destruct (slot_ptr w s); [|done]. by apply stable_coro.
Qed.

Lemma stable_winv w w' : stable w w' → winv w → winv w'.
Proof.
  intros Hs [Hh Hf Hn Hc Hi Hd]. pose proof (stable_slots _ _ Hs) as Es.
  pose proof (λ p, stable_coro w w' p Hs) as Ec.
  split; rewrite ?Es; try setoid_rewrite Ec; try done.
  - by rewrite (st_next _ _ Hs).
  - by rewrite (st_ids _ _ Hs).
Qed.

Lemma stable_no_os w w' : stable w w' → no_os w → no_os w'.
Proof. intros [] []. split; congruence. Qed.

Lemma stable_names P w w' : stable w w' → names_in P w → names_in P w'.
Proof.
  intros Hs [Ht Hc]. split.
  - intros p c. rewrite (stable_slots _ _ Hs), (stable_coro _ _ _ Hs). apply Ht.
  - intros b Hb. apply Hc. by rewrite <-(st_constructors _ _ Hs).
Qed.

(** ** Slots *)

Lemma slot_in w s p : slot_ptr w s = Some p → p ∈ slots w.
Proof.
  unfold slot_ptr, slots. intros (th&Ht&Hp)%bind_Some.
  apply list_elem_of_In, in_concat. exists th. split; apply list_elem_of_In;
    by eapply list_elem_of_lookup_2.
Qed.

Lemma slots_in w p : p ∈ slots w → ∃ s, slot_ptr w s = Some p.
Proof.
  unfold slot_ptr, slots. intros (th&Hth&Hp)%list_elem_of_In%in_concat.
  apply list_elem_of_In, list_elem_of_lookup_1 in Hth as (t&Ht).
  apply list_elem_of_In, list_elem_of_lookup_1 in Hp as (i&Hi).
  exists (t, i). simpl. by rewrite Ht.
Qed.

Lemma concat_inj (l : list (list nat)) t1 t2 i1 i2 th1 th2 p :
  NoDup (concat l) → l !! t1 = Some th1 → l !! t2 = Some th2 →
  th1 !! i1 = Some p → th2 !! i2 = Some p → t1 = t2 ∧ i1 = i2.
Proof.
  revert t1 t2. induction l as [|x l IH]; intros t1 t2 Hn H1 H2 Hp1 Hp2; [done|].
  simpl in Hn. apply NoDup_app in Hn as (Hx&Hd&Hl).
  assert (∀ t th, l !! t = Some th → p ∈ th → p ∈ concat l) as Hin.
  { intros t th Ht Hp. apply list_elem_of_In, in_concat. exists th.
    split; apply list_elem_of_In; [by eapply list_elem_of_lookup_2|done]. }
  destruct t1 as [|t1], t2 as [|t2]; simplify_eq/=.
  - split; [done|]. by eapply (NoDup_lookup th1).
  - destruct (Hd p); [by eapply list_elem_of_lookup_2|]. eapply Hin; [done|].
    by eapply list_elem_of_lookup_2.
  - destruct (Hd p); [by eapply list_elem_of_lookup_2|]. eapply Hin; [done|].
    by eapply list_elem_of_lookup_2.
  - destruct (IH t1 t2) as [-> ->]; done.
Qed.

Lemma task_slot_inj w s1 s2 p : winv w → slot_ptr w s1 = Some p → slot_ptr w s2 = Some p → s1 = s2.
Proof.
  intros Hw (th1&Ht1&H1)%bind_Some (th2&Ht2&H2)%bind_Some. destruct s1, s2.
  destruct (concat_inj (threads (base w)) _ _ _ _ _ _ p (wi_nodup _ Hw) Ht1 Ht2 H1 H2); naive_solver.
Qed.

Lemma winv_slot w s p : winv w → slot_ptr w s = Some p → ∃ c, coro w p = Some c.
Proof. intros Hw Hp. apply (wi_heap _ Hw). by eapply slot_in. Qed.

Lemma slot_coro_Some w s c : slot_coro w s = Some c ↔ ∃ p, slot_ptr w s = Some p ∧ coro w p = Some c.
Proof. unfold slot_coro. by rewrite bind_Some. Qed.

End Worlds.

(** ** Rules for the operations on tasks *)
Section Rules.
Context `{TT : TargetTypes, TC : !TargetCode, RN : Random, TO : !TargetObject}.
Context {B X : Type}.
Abbreviation W := (World B X).
Implicit Types (w : W).

Lemma set_rt_self w : set_rt (rt w) w = w.
Proof. by destruct w. Qed.
Lemma set_ext_self w : set_ext (ext w) w = w.
Proof. by destruct w. Qed.

Lemma hoare_get_coro fuel p c Q w :
  coro w p = Some c → Q c w → hoare fuel (on_rt (get_coro p)) Q w.
Proof.
  intros Hc HQ. unfold on_rt, get_coro. msteps. apply hoare_deref with c; [done|].
  by rewrite set_rt_self.
Qed.

Lemma hoare_update_coro fuel p c f (Q : unit → W → Prop) w :
  coro w p = Some c →
  Q () (set_rt (set_heap (<[p := f c]> (heap (rt w))) (rt w)) w) →
  hoare fuel (on_rt (update_coro p f)) Q w.
Proof.
  intros Hc HQ. unfold on_rt, update_coro, get_coro, set_coro. msteps.
  by apply hoare_deref with c; [done|].
Qed.

Lemma hoare_task_at fuel s p Q w :
  slot_ptr w s = Some p → Q p w → hoare fuel (task_at s) Q w.
Proof.
  intros (th&Ht&Hp)%bind_Some HQ. unfold task_at. msteps.
  apply hoare_deref with th; [done|]. by apply hoare_deref with p.
Qed.

Lemma hoare_coro_at fuel s p c Q w :
  slot_ptr w s = Some p → coro w p = Some c → Q c w → hoare fuel (coro_at s) Q w.
Proof.
  intros Hs Hc HQ. unfold coro_at. mstep. eapply hoare_task_at; [done|].
  by apply hoare_get_coro with c.
Qed.

End Rules.
