(* ===== verification/Choosing.v ===== *)
(** * How a thread is chosen

    Rules for the operations of [BaseStrategyWithThreads] that a strategy uses
    to choose a thread: they return, they leave the world [stable], and their
    results are the pure views below. *)
From stdpp Require Import base list gmap strings.
From Stdlib Require Import ZArith.
From S2P Require Import Prelude Effects BlockManager Runtime Verifier Strategy Strategies WorldInv.

Open Scope nat_scope.

(** A verifier whose calls return: no assertion in it fails. *)
Class VerifierTotal `{TT : TargetTypes} {B : Type} (vo : VerifierOps B) : Prop := {
  vt_Verify b m t n : ∃ r, vo_Verify vo b m t n = Ret r;
  vt_OnFinished b c t : ∃ r, vo_OnFinished vo b c t = Ret r;
  vt_VerifyExisting f b c t : vo_VerifyExisting vo = Some f → ∃ r, f b c t = Ret r;
}.

Section Views.
Context `{TT : TargetTypes, TC : !TargetCode, RN : Random, TO : !TargetObject}.
Context {B X : Type}.
Abbreviation W := (World B X).
Implicit Types (w : W) (p t : nat).

(** The last task of a thread. *)
Definition back w t : option nat := threads (base w) !! t ≫= last.

Definition returned w p : bool := match coro w p with Some c => co_returned c | None => true end.
Definition freeb w t : bool := match back w t with Some p => returned w p | None => true end.

Definition blocked w p : bool :=
  match coro w p with
  | Some c =>
      negb (bool_decide (addr (co_fstate c) = 0%Z)) &&
      bool_decide (p ∈ waiting (block_manager (rt w)) (addr (co_fstate c))) &&
      match co_wakeup c with Some cond => negb (cond (memory (rt w))) | None => true end
  | None => false
  end.
Definition blockedb w t : bool := match back w t with Some p => blocked w p | None => false end.

Lemma stable_back w w' t : stable w w' → back w' t = back w t.
Proof. intros []. unfold back. congruence. Qed.
Lemma stable_returned w w' p : stable w w' → returned w' p = returned w p.
Proof. intros Hs. unfold returned. by rewrite (stable_coro _ _ _ Hs). Qed.
Lemma stable_freeb w w' t : stable w w' → freeb w' t = freeb w t.
Proof.
  intros Hs. unfold freeb. rewrite (stable_back _ _ _ Hs). destruct (back w t); [|done].
  by apply stable_returned.
Qed.
Lemma stable_blocked w w' p : stable w w' → blocked w' p = blocked w p.
Proof.
  intros Hs. unfold blocked. rewrite (stable_coro _ _ _ Hs), (st_memory _ _ Hs).
  destruct (coro w p); [|done]. by rewrite (st_waiting _ _ Hs).
Qed.
Lemma stable_blockedb w w' t : stable w w' → blockedb w' t = blockedb w t.
Proof.
  intros Hs. unfold blockedb. rewrite (stable_back _ _ _ Hs). destruct (back w t); [|done].
  by apply stable_blocked.
Qed.

Lemma back_in w t p : back w t = Some p → p ∈ slots w.
Proof.
  unfold back. intros (th&Ht&Hp)%bind_Some. rewrite last_lookup in Hp.
  eapply (slot_in w (t, pred (length th))). unfold slot_ptr. simpl. by rewrite Ht.
Qed.

End Views.

Section Rules.
Context `{TT : TargetTypes, TC : !TargetCode, RN : Random, TO : !TargetObject}.
Context {B X : Type} (vo : VerifierOps B) `{VT : !VerifierTotal vo}.
Abbreviation W := (World B X).
Implicit Types (w : W) (p t : nat).

Lemma thread_exists w t : t < length (threads (base w)) → ∃ th, threads (base w) !! t = Some th.
Proof. intros Ht. by apply lookup_lt_is_Some in Ht. Qed.

Lemma hoare_is_free fuel t Q w :
  winv w → t < length (threads (base w)) → Q (freeb w t) w → hoare fuel (is_free t) Q w.
Proof.
  intros Hw [th Ht]%thread_exists HQ. unfold is_free. msteps. apply hoare_deref with th; [done|].
  assert (back w t = last th) as Hb by (unfold back; by rewrite Ht).
  unfold freeb in HQ. rewrite Hb in HQ. destruct (last th) as [p|] eqn:Hl; [|by msteps].
  destruct (wi_heap _ Hw p) as [c Hc]; [by eapply back_in|]. unfold returned in HQ. rewrite Hc in HQ.
  msteps. by apply hoare_get_coro with c.
Qed.

(** A lookup of the block manager leaves the queues as they were, up to
    empty ones. *)
Lemma hoare_IsBlocked_base fuel p Q w :
  is_Some (coro w p) → (∀ w', stable w w' → ext w' = ext w → base w' = base w → Q (blocked w p) w') →
  hoare fuel (on_rt (IsBlocked p)) Q w.
Proof.
  intros [c Hc] HQ. unfold on_rt, IsBlocked, get_coro. msteps. apply hoare_deref with c; [done|].
  unfold blocked in HQ. rewrite Hc in HQ. unfold CoroIsBlocked, BlockManager.IsBlocked.
  msteps. unfold checkWakeupCondition. case_bool_decide as Ha; simpl in *.
  - msteps. apply HQ; [|done..]. by split.
  - unfold subscript. destruct (block_manager (rt w) !! addr (co_fstate c)) as [l|] eqn:Hl.
    + assert (waiting (block_manager (rt w)) (addr (co_fstate c)) = l) as Hwl
        by (unfold waiting; by rewrite Hl).
      rewrite Hwl in HQ. case_bool_decide; simpl in *; msteps;
        [destruct (co_wakeup c)|]; (apply HQ; [by split|done..]).
    + assert (waiting (block_manager (rt w)) (addr (co_fstate c)) = []) as Hwl
        by (unfold waiting; by rewrite Hl).
      rewrite Hwl in HQ. msteps. apply HQ; [|done..]. split; try done.
      intros a. simpl. rewrite waiting_insert. destruct (decide _) as [<-|]; by rewrite ?Hwl.
Qed.

Lemma hoare_IsBlocked fuel p Q w :
  is_Some (coro w p) → (∀ w', stable w w' → ext w' = ext w → Q (blocked w p) w') →
  hoare fuel (on_rt (IsBlocked p)) Q w.
Proof. intros Hp HQ. apply hoare_IsBlocked_base; [done|]. auto. Qed.

Lemma hoare_back_blocked_base fuel t Q w :
  winv w → t < length (threads (base w)) →
  (∀ w', stable w w' → ext w' = ext w → base w' = base w → Q (blockedb w t) w') →
  hoare fuel (back_blocked t) Q w.
Proof.
  intros Hw [th Ht]%thread_exists HQ. unfold back_blocked. msteps. apply hoare_deref with th; [done|].
  assert (back w t = last th) as Hb by (unfold back; by rewrite Ht).
  unfold blockedb in HQ. rewrite Hb in HQ. destruct (last th) as [p|] eqn:Hl.
  - apply hoare_IsBlocked_base; [|done]. apply (wi_heap _ Hw). by eapply back_in.
  - msteps. by apply HQ.
Qed.

Lemma hoare_back_blocked fuel t Q w :
  winv w → t < length (threads (base w)) →
  (∀ w', stable w w' → ext w' = ext w → Q (blockedb w t) w') →
  hoare fuel (back_blocked t) Q w.
Proof. intros Hw Ht HQ. apply hoare_back_blocked_base; [done..|]. auto. Qed.

Lemma hoare_back_slot fuel t Q w th :
  threads (base w) !! t = Some th → Q (t, length th - 1) w → hoare fuel (back_slot t) Q w.
Proof. intros Ht HQ. unfold back_slot. msteps. by apply hoare_deref with th. Qed.

Lemma back_slot_ptr w t p :
  back w t = Some p →
  ∃ th, threads (base w) !! t = Some th ∧ slot_ptr w (t, length th - 1) = Some p.
Proof.
  unfold back. intros (th&Ht&Hp)%bind_Some. exists th. split; [done|].
  rewrite last_lookup in Hp. unfold slot_ptr. simpl. rewrite Ht. simpl.
  by rewrite Nat.sub_1_r.
Qed.

Lemma hoare_lift_Ret {A} fuel (a : A) (Q : A → W → Prop) w o :
  o = Ret a → Q a w → hoare fuel (lift o) Q w.
Proof. by intros ->. Qed.

(** The calls of the verifier change nothing but the verifier. *)
Lemma hoare_Verify fuel m t n (Q : bool → W → Prop) w :
  (∀ b w', stable w w' → ext w' = ext w → Q b w') → hoare fuel (Verify vo m t n) Q w.
Proof.
  intros HQ. unfold Verify. msteps. destruct (vt_Verify (sched_checker (base w)) m t n) as [r Hr].
  eapply hoare_lift_Ret; [done|]. msteps. apply HQ; [by split|done].
Qed.

Lemma hoare_VerifyStart fuel m t ctx (Q : bool → W → Prop) w :
  (∀ b w', stable w w' → ext w' = ext w → Q b w') → hoare fuel (VerifyStart vo m t ctx) Q w.
Proof.
  intros HQ. unfold VerifyStart. destruct (vo_VerifyStart vo) as [f|]; [|msteps; by apply HQ].
  msteps. destruct (f _ _ _ _) as [b c]. msteps. apply HQ; [by split|done].
Qed.

Lemma hoare_OnTaskStarted fuel m t id (Q : unit → W → Prop) w :
  (∀ w', stable w w' → ext w' = ext w → Q () w') → hoare fuel (OnTaskStarted vo m t id) Q w.
Proof.
  intros HQ. unfold OnTaskStarted. destruct (vo_OnTaskStarted vo) as [f|]; msteps;
    (apply HQ; [by split|done]).
Qed.

Lemma hoare_OnVerifierTaskFinish fuel s t p c (Q : unit → W → Prop) w :
  slot_ptr w s = Some p → coro w p = Some c →
  (∀ w', stable w w' → ext w' = ext w → Q () w') → hoare fuel (OnVerifierTaskFinish vo s t) Q w.
Proof.
  intros Hs Hc HQ. unfold OnVerifierTaskFinish, OnFinished. mstep.
  eapply hoare_coro_at; [done..|]. msteps.
  destruct (vt_OnFinished (sched_checker (base w)) c t) as [r Hr].
  eapply hoare_lift_Ret; [done|]. msteps. apply HQ; [by split|done].
Qed.

(** The answer of the verifier about an unfinished task, and its state then. *)
Definition existing_answer (b : B) (c : Coro) (t : nat) : outcome (bool * B) :=
  match vo_VerifyExisting vo with
  | Some f => f b c t
  | None => vo_Verify vo b (co_name c) t true
  end.

Lemma hoare_VerifyExisting_answer fuel s t p c (Q : bool → W → Prop) w :
  slot_ptr w s = Some p → coro w p = Some c →
  (∀ b w', stable w w' → ext w' = ext w →
     existing_answer (sched_checker (base w)) c t = Ret (b, sched_checker (base w')) → Q b w') →
  hoare fuel (VerifyExistingTask vo s t) Q w.
Proof.
  intros Hs Hc HQ. unfold VerifyExistingTask, existing_answer in *. mstep. eapply hoare_coro_at; [done..|].
  destruct (vo_VerifyExisting vo) as [f|] eqn:Hf.
  - msteps. destruct (vt_VerifyExisting f (sched_checker (base w)) c t Hf) as [[b k] Hr].
    eapply hoare_lift_Ret; [done|]. msteps. apply HQ; [by split|done..].
  - unfold Verify. msteps. destruct (vt_Verify (sched_checker (base w)) (co_name c) t true) as [[b k] Hr].
    eapply hoare_lift_Ret; [done|]. msteps. apply HQ; [by split|done..].
Qed.

Lemma hoare_VerifyExistingTask fuel s t p c (Q : bool → W → Prop) w :
  slot_ptr w s = Some p → coro w p = Some c →
  (∀ b w', stable w w' → ext w' = ext w → Q b w') → hoare fuel (VerifyExistingTask vo s t) Q w.
Proof. intros Hs Hc HQ. eapply hoare_VerifyExisting_answer; [done..|]. auto. Qed.

Lemma hoare_VerifyTaskStart fuel s t ctx p c (Q : bool → W → Prop) w :
  slot_ptr w s = Some p → coro w p = Some c →
  (∀ b w', stable w w' → ext w' = ext w → Q b w') → hoare fuel (VerifyTaskStart vo s t ctx) Q w.
Proof.
  intros Hs Hc HQ. unfold VerifyTaskStart. mstep. eapply hoare_coro_at; [done..|].
  mstep. apply hoare_VerifyStart. intros [] w' Hs' He; simpl; [|msteps; by apply HQ].
  apply hoare_Verify. intros b w'' Hs'' He''. apply HQ; [by etrans|congruence].
Qed.

Lemma hoare_OnVerifierTaskStart fuel s t p c (Q : unit → W → Prop) w :
  slot_ptr w s = Some p → coro w p = Some c →
  (∀ w', stable w w' → ext w' = ext w → Q () w') → hoare fuel (OnVerifierTaskStart vo s t) Q w.
Proof.
  intros Hs Hc HQ. unfold OnVerifierTaskStart. mstep. eapply hoare_coro_at; [done..|].
  by apply hoare_OnTaskStarted.
Qed.

Lemma hoare_CanThreadContinue fuel t (Q : bool → W → Prop) w :
  no_os w → Q true w → hoare fuel (CanThreadContinue t) Q w.
Proof.
  intros [_ Hj] HQ. unfold CanThreadContinue. msteps. rewrite Hj, lookup_empty. by msteps.
Qed.

(** What [NewTaskAreEnabled] tests. *)
Definition enabledb w t : bool :=
  negb (vo_only_one_task vo && freeb w t && bool_decide (is_Some (back w t))).

Lemma hoare_NewTaskAreEnabled fuel t Q w :
  winv w → t < length (threads (base w)) → Q (enabledb w t) w →
  hoare fuel (NewTaskAreEnabled vo t) Q w.
Proof.
  intros Hw Ht HQ. pose proof Ht as [th Hth]%thread_exists. unfold NewTaskAreEnabled, enabledb in *.
  destruct (vo_only_one_task vo); simpl in HQ; [|by msteps].
  msteps. apply hoare_deref with th; [done|]. mstep. apply hoare_is_free; [done..|]. msteps.
  assert (bool_decide (is_Some (back w t)) = negb (bool_decide (th = []))) as <-; [|done].
  unfold back. rewrite Hth. simpl. destruct th as [|x th]; [done|].
  rewrite (bool_decide_eq_false_2 (x :: th = [])) by done. simpl.
  apply bool_decide_eq_true_2, last_is_Some. done.
Qed.

(** ** The tests of the strategies *)

(** The part of the tests that does not ask the verifier. *)
Definition may_run w t : bool :=
  (allow_new_tasks_ (base w) || negb (freeb w t)) && negb (blockedb w t) && enabledb w t.

Lemma stable_may_run w w' t : stable w w' → may_run w' t = may_run w t.
Proof.
  intros Hs. unfold may_run, enabledb.
  by rewrite (st_allow _ _ Hs), !(stable_freeb _ _ _ Hs), (stable_blockedb _ _ _ Hs), (stable_back _ _ _ Hs).
Qed.

(** The answer of the tests for a thread when the verifier is in state [b]: a
    thread that may not run fails, one without an unfinished task passes, and
    otherwise the verifier decides about the unfinished task. *)
Definition unfinished_answer w t (b : B) : outcome (bool * B) :=
  if freeb w t then Ret (true, b)
  else c ← deref (back w t ≫= coro w); existing_answer b c t.
Definition test_answer w t (b : B) : outcome (bool * B) :=
  if may_run w t then unfinished_answer w t b else Ret (false, b).

Lemma stable_unfinished_answer w w' t b : stable w w' → unfinished_answer w' t b = unfinished_answer w t b.
Proof.
  intros Hs. unfold unfinished_answer. rewrite (stable_freeb _ _ _ Hs), (stable_back _ _ _ Hs).
  destruct (back w t) as [p|]; [simpl; by rewrite (stable_coro _ _ _ Hs)|done].
Qed.
Lemma stable_test_answer w w' t b : stable w w' → test_answer w' t b = test_answer w t b.
Proof. intros Hs. unfold test_answer. by rewrite (stable_may_run _ _ _ Hs), (stable_unfinished_answer _ _ _ _ Hs). Qed.

Lemma hoare_running_ok fuel t (Q : bool → W → Prop) w :
  winv w → t < length (threads (base w)) →
  (∀ b w', stable w w' → ext w' = ext w →
     unfinished_answer w t (sched_checker (base w)) = Ret (b, sched_checker (base w')) → Q b w') →
  hoare fuel (running_ok vo (freeb w t) t) Q w.
Proof.
  intros Hw Ht HQ. unfold running_ok, unfinished_answer in *.
  destruct (freeb w t) eqn:Hf; [msteps; by apply HQ|].
  unfold freeb in Hf. destruct (back w t) as [p|] eqn:Hb; [|done].
  destruct (back_slot_ptr _ _ _ Hb) as (th&Hth&Hs).
  destruct (winv_slot _ _ _ Hw Hs) as [c Hc].
  mstep. eapply hoare_back_slot; [done|]. eapply hoare_VerifyExisting_answer; [done..|].
  intros b w' ???. apply HQ; [done..|]. simpl. by rewrite Hc.
Qed.

(** The answer [b] was given in [w] and left the verifier as it is in [w']. *)
Definition test_result w t (b : bool) w' : Prop :=
  test_answer w t (sched_checker (base w)) = Ret (b, sched_checker (base w')).

(** A test passes only for a thread that may run, and it always passes for
    one that is free and may run. *)
Lemma test_result_may_run w t b w' : test_result w t b w' → b = true → may_run w t = true.
Proof. unfold test_result, test_answer. destruct (may_run w t); [done|]. by intros [= <- _]. Qed.
Lemma test_result_free w t b w' : test_result w t b w' → may_run w t = true → freeb w t = true → b = true.
Proof. unfold test_result, test_answer, unfinished_answer. intros Hr Hm Hf. rewrite Hm, Hf in Hr. by injection Hr. Qed.

Lemma hoare_eligible fuel t (Q : bool → W → Prop) w :
  winv w → no_os w → t < length (threads (base w)) →
  (∀ b w', stable w w' → ext w' = ext w → test_result w t b w' → Q b w') →
  hoare fuel (eligible vo t) Q w.
Proof.
  intros Hw Ho Ht HQ. unfold eligible. mstep. apply hoare_is_free; [done..|]. msteps.
  unfold test_result, test_answer, may_run in HQ.
  destruct (negb (allow_new_tasks_ (base w)) && freeb w t) eqn:Ha.
  { msteps. apply HQ; [done..|]. apply andb_true_iff in Ha as [Ha%negb_true_iff ->]. by rewrite Ha. }
  assert (allow_new_tasks_ (base w) || negb (freeb w t) = true) as Hal.
  { apply andb_false_iff in Ha as [->%negb_false_iff| ->]; [done|apply orb_true_r]. }
  rewrite Hal in HQ. simpl in HQ. mstep. apply hoare_back_blocked_base; [done..|]. intros w1 Hs1 He1 Hb1.
  destruct (blockedb w t); simpl in HQ; [msteps; apply HQ; [done..|by rewrite Hb1]|].
  assert (winv w1) as Hw1 by by eapply stable_winv.
  mstep. apply hoare_CanThreadContinue; [by eapply stable_no_os|]. simpl. mstep.
  apply hoare_NewTaskAreEnabled; [done|by rewrite (st_threads _ _ Hs1)|].
  assert (enabledb w1 t = enabledb w t) as ->.
  { unfold enabledb. by rewrite (stable_freeb _ _ _ Hs1), (stable_back _ _ _ Hs1). }
  destruct (enabledb w t); simpl in *; [|msteps; apply HQ; [done..|by rewrite Hb1]].
  rewrite <-(stable_freeb _ _ t Hs1). apply hoare_running_ok; [done|by rewrite (st_threads _ _ Hs1)|].
  intros b w2 Hs2 He2 Hb. apply HQ; [by etrans|congruence|].
  by rewrite (stable_unfinished_answer _ _ _ _ Hs1), Hb1 in Hb.
Qed.

Lemma hoare_eligible_verify_first fuel t (Q : bool → W → Prop) w :
  winv w → no_os w → t < length (threads (base w)) →
  (∀ b w', stable w w' → ext w' = ext w → test_result w t b w' → Q b w') →
  hoare fuel (eligible_verify_first vo t) Q w.
Proof.
  intros Hw Ho Ht HQ. unfold eligible_verify_first. mstep. apply hoare_is_free; [done..|]. msteps.
  unfold test_result, test_answer, may_run in HQ.
  destruct (negb (allow_new_tasks_ (base w)) && freeb w t) eqn:Ha.
  { msteps. apply HQ; [done..|]. apply andb_true_iff in Ha as [Ha%negb_true_iff ->]. by rewrite Ha. }
  assert (allow_new_tasks_ (base w) || negb (freeb w t) = true) as Hal.
  { apply andb_false_iff in Ha as [->%negb_false_iff| ->]; [done|apply orb_true_r]. }
  rewrite Hal in HQ. simpl in HQ. mstep. apply hoare_back_blocked_base; [done..|]. intros w1 Hs1 He1 Hb1.
  destruct (blockedb w t); simpl in HQ; [msteps; apply HQ; [done..|by rewrite Hb1]|].
  assert (winv w1) as Hw1 by by eapply stable_winv.
  mstep. rewrite <-(stable_freeb _ _ t Hs1).
  apply hoare_running_ok; [done|by rewrite (st_threads _ _ Hs1)|]. intros b w2 Hs2 He2 Hb.
  rewrite (stable_unfinished_answer _ _ _ _ Hs1), Hb1 in Hb. assert (stable w w2) as Hs by by etrans.
  (* only a thread without an unfinished task is refused a new one *)
  assert (enabledb w t = false → freeb w t = true) as Hen.
  { unfold enabledb. destruct (freeb w t); [done|]. by rewrite andb_false_r. }
  assert (enabledb w t = false → b = true ∧ sched_checker (base w2) = sched_checker (base w)) as Hno.
  { intros Hf%Hen. unfold unfinished_answer in Hb. rewrite Hf in Hb. by injection Hb. }
  destruct b; simpl.
  - mstep. apply hoare_CanThreadContinue; [by eapply stable_no_os|]. simpl.
    apply hoare_NewTaskAreEnabled; [by eapply stable_winv|by rewrite (st_threads _ _ Hs)|].
    assert (enabledb w2 t = enabledb w t) as ->.
    { unfold enabledb. by rewrite (stable_freeb _ _ _ Hs), (stable_back _ _ _ Hs). }
    apply HQ; [done|congruence|]. destruct (enabledb w t); [done|]. by destruct (Hno eq_refl) as [_ ->].
  - msteps. apply HQ; [done|congruence|]. destruct (enabledb w t); [done|]. by destruct (Hno eq_refl).
Qed.

End Rules.
