(* ===== verification/Slices.v ===== *)
(** * Starting and running tasks

    Rules for [NextVerifiedFor], which starts a task or goes on with one, and
    for [Resume], which runs one slice of it, for code under test that creates
    no threads of its own. *)
From stdpp Require Import base list gmap strings.
From Stdlib Require Import ZArith.
From S2P Require Import Prelude Effects BlockManager Runtime Verifier Strategy WorldInv Choosing.

Open Scope nat_scope.

(** Code under test that creates no threads and lets no exception escape. *)
Definition plain_action `{TargetTypes} (a : action) : Prop :=
  match a with RequestsThread _ => False | _ => True end.
Class PlainTarget `{TC : TargetCode} : Prop := {
  pt_actions f rt t : Forall plain_action (fiber_run f rt t).1;
  pt_end f rt t what : (fiber_run f rt t).2 ≠ Escapes what;
}.

(** [std::shuffle] permutes. *)
Class ShuffleLaws `{RN : Random} : Prop := {
  shuffle_perm {A} r (l : list A) : (shuffle r l).1 ≡ₚ l;
}.

(** What a task keeps for its life and over a restart. *)
Definition same_task `{TargetTypes} (c c' : Coro) : Prop :=
  co_id c' = co_id c ∧ co_name c' = co_name c ∧ co_func c' = co_func c ∧
  co_args c' = co_args c ∧ co_dual c' = co_dual c.

#[export] Instance same_task_preorder `{TargetTypes} : PreOrder same_task.
Proof. split; [done|]. intros c1 c2 c3. unfold same_task. naive_solver congruence. Qed.

Lemma concat_insert_snoc {A} (l : list (list A)) t th p :
  l !! t = Some th → concat (<[t := th ++ [p]]> l) ≡ₚ p :: concat l.
Proof.
  revert t. induction l as [|x l IH]; intros [|t] Ht; simplify_eq/=.
  - rewrite <-app_assoc. simpl. symmetry. apply Permutation_middle.
  - rewrite (IH t Ht). symmetry. apply Permutation_middle.
Qed.

Section Slices.
Context `{TT : TargetTypes, TC : !TargetCode, RN : Random, TO : !TargetObject}.
Context {B X : Type} (vo : VerifierOps B) `{VT : !VerifierTotal vo}.
Context `{SL : !ShuffleLaws}.
Abbreviation W := (World B X).
Implicit Types (w : W) (p t : nat) (s : Slot) (c : Coro).

(** ** Starting a task *)

(** [w'] is [w] with the new task [p], built by [b], at the end of thread [t]. *)
Record started w w' t th p c : Prop := {
  sd_thread : threads (base w) !! t = Some th;
  sd_threads : threads (base w') = <[t := th ++ [p]]> (threads (base w));
  sd_ptr : p = next_ptr (rt w);
  sd_next : next_ptr (rt w') = S p;
  sd_heap : heap (rt w') = <[p := c]> (heap (rt w));
  sd_ids : new_task_id (base w') = (new_task_id (base w) + 1)%Z;
  sd_id : co_id c = new_task_id (base w);
  sd_returned : co_returned c = false;
  sd_ctx : co_ctx c = Some (fiber_new (co_func c) (co_this c) (co_args c));
  sd_name : ∃ b, b ∈ constructors (base w) ∧ co_name c = tb_name b;
  sd_info : thread_info (rt w') = thread_info (rt w);
  sd_joins : join_pairs (base w') = join_pairs (base w);
  sd_allow : allow_new_tasks_ (base w') = allow_new_tasks_ (base w);
  sd_removed : removed_tasks (base w') = removed_tasks (base w);
  sd_schedule : round_schedule (base w') = round_schedule (base w);
  sd_count : threads_count (base w') = threads_count (base w);
  sd_constructors : constructors (base w') ≡ₚ constructors (base w);
}.

Lemma started_slots w w' t th p c : started w w' t th p c → slots w' ≡ₚ p :: slots w.
Proof.
  intros Hs. unfold slots. rewrite (sd_threads _ _ _ _ _ _ Hs).
  apply concat_insert_snoc. by apply Hs.
Qed.

Lemma started_new w w' t th p c : winv w → started w w' t th p c → coro w p = None.
Proof.
  intros Hw Hs. destruct (coro w p) eqn:Hp; [|done].
  assert (p < next_ptr (rt w)) by by apply (wi_fresh _ Hw). destruct Hs. lia.
Qed.

Lemma started_coro w w' t th p c q :
  started w w' t th p c → coro w' q = if decide (q = p) then Some c else coro w q.
Proof.
  intros Hs. unfold coro. rewrite (sd_heap _ _ _ _ _ _ Hs). case_decide as Hq.
  - rewrite Hq. apply lookup_insert_eq.
  - by rewrite lookup_insert_ne.
Qed.

Lemma started_slot w w' t th p c s :
  started w w' t th p c →
  slot_ptr w' s = if decide (s = (t, length th)) then Some p else slot_ptr w s.
Proof.
  intros Hs. destruct Hs as [Ht Hths _ _ _ _ _ _ _ _ _ _ _ _ _ _]. destruct s as [u i].
  unfold slot_ptr. rewrite Hths. simpl. destruct (decide (u = t)) as [->|Hu].
  - rewrite list_lookup_insert_eq by by eapply lookup_lt_Some. rewrite Ht. simpl.
    case_decide as Hi; simplify_eq.
    + by rewrite list_lookup_middle.
    + destruct (decide (i < length th)); [by rewrite lookup_app_l|].
      rewrite lookup_app_r by lia. rewrite (lookup_ge_None_2 th) by lia.
      destruct (i - length th) as [|k] eqn:?; [|done]. destruct Hi. f_equal. lia.
  - rewrite list_lookup_insert_ne by done. rewrite decide_False; [done|congruence].
Qed.

Lemma started_winv w w' t th p c : winv w → started w w' t th p c → winv w'.
Proof.
  intros Hw Hs. pose proof (started_slots _ _ _ _ _ _ Hs) as Hsl.
  pose proof (started_new _ _ _ _ _ _ Hw Hs) as Hp.
  pose proof (λ q, started_coro _ _ _ _ _ _ q Hs) as Hc.
  assert (∀ q, q ∈ slots w → q ≠ p) as Hne.
  { intros q Hq ->. destruct (wi_heap _ Hw p Hq). congruence. }
  pose proof Hs as [_ _ Hptr Hnext _ Hids Hid Hret Hctx _ _ _ _ _ _ _].
  split; rewrite ?Hnext, ?Hids; try setoid_rewrite Hc; try setoid_rewrite Hsl.
  - intros q. case_decide; [done|]. rewrite elem_of_cons. intros [|Hq]; [done|]. by apply (wi_heap _ Hw).
  - intros q. case_decide; [lia|]. intros Hq%(wi_fresh _ Hw). lia.
  - constructor; [|apply (wi_nodup _ Hw)]. intros Hq. by apply (Hne p).
  - intros q d Hq. apply elem_of_cons in Hq as [->|Hq].
    + rewrite decide_True by done. intros [= <-] _. rewrite Hctx. done.
    + rewrite decide_False by by apply Hne. by apply (wi_ctx _ Hw).
  - intros q d Hq. apply elem_of_cons in Hq as [->|Hq].
    + rewrite decide_True by done. intros [= <-]. lia.
    + rewrite decide_False by by apply Hne. intros Hd%(wi_id _ Hw); [lia|done].
  - intros q q' d d' [->|Hq]%elem_of_cons [->|Hq']%elem_of_cons Hd Hd'; try done.
    + rewrite decide_True in Hd by done. rewrite decide_False in Hd' by by apply Hne.
      apply (wi_id _ Hw) in Hd'; [|done]. simplify_eq. lia.
    + rewrite decide_True in Hd' by done. rewrite decide_False in Hd by by apply Hne.
      apply (wi_id _ Hw) in Hd; [|done]. simplify_eq. lia.
    + rewrite decide_False in Hd by by apply Hne. rewrite decide_False in Hd' by by apply Hne.
      by eapply (wi_ids _ Hw).
Qed.

Lemma started_names P w w' t th p c : winv w → started w w' t th p c → names_in P w → names_in P w'.
Proof.
  intros Hw Hs [Hn Hb]. split.
  - intros q d. rewrite (started_slots _ _ _ _ _ _ Hs), (started_coro _ _ _ _ _ _ q Hs), elem_of_cons.
    destruct (sd_name _ _ _ _ _ _ Hs) as (b&Hin&Hname).
    intros Hq. case_decide as Hqp; [|destruct Hq; [done|by apply Hn]].
    intros [= <-]. rewrite Hname. by apply Hb.
  - intros b. rewrite (sd_constructors _ _ _ _ _ _ Hs). apply Hb.
Qed.

Lemma started_stable_l w w1 w' t th p c :
  stable w w1 → started w1 w' t th p c → started w w' t th p c.
Proof.
  intros Hs Hst. pose proof (st_constructors _ _ Hs) as Hc.
  pose proof (sd_name _ _ _ _ _ _ Hst) as (b&Hb&Hname).
  pose proof (sd_constructors _ _ _ _ _ _ Hst) as Hc'. destruct Hs, Hst. split; try congruence.
  - exists b. split; [|done]. by rewrite <-Hc.
  - by etrans.
Qed.

Lemma hoare_start_context fuel tids ctx Q w :
  winv w → Forall (λ t, t < length (threads (base w))) tids →
  (∀ ctx w', stable w w' → ext w' = ext w → Q ctx w') →
  hoare fuel (start_context tids ctx) Q w.
Proof.
  intros Hw Ht. revert ctx w Hw Ht. induction tids as [|t tids IH]; intros ctx w Hw Ht HQ; simpl;
    [msteps; by apply HQ|]. apply Forall_cons in Ht as [Ht Htids].
  mstep. apply hoare_is_free; [done..|]. destruct (freeb w t) eqn:Hf; [by apply IH|].
  unfold freeb in Hf. destruct (back w t) as [p|] eqn:Hb; [|done].
  destruct (back_slot_ptr _ _ _ Hb) as (th&Hth&Hs). destruct (winv_slot _ _ _ Hw Hs) as [c Hc].
  mstep. eapply hoare_back_slot; [done|]. mstep. eapply hoare_coro_at; [done..|].
  mstep. apply hoare_back_blocked; [done..|]. intros w1 Hs1 He1.
  apply IH; [by eapply stable_winv|by rewrite (st_threads _ _ Hs1)|].
  intros ctx' w2 Hs2 He2. apply HQ; [by etrans|congruence].
Qed.

Lemma hoare_verified_constructor fuel cs t ctx (Q : option TaskBuilder → W → Prop) w :
  (∀ r w', stable w w' → ext w' = ext w → (∀ b, r = Some b → b ∈ cs) → Q r w') →
  hoare fuel (verified_constructor vo cs t ctx) Q w.
Proof.
  revert w. induction cs as [|c cs IH]; intros w HQ; simpl; [msteps; by apply HQ|].
  mstep. apply hoare_VerifyStart. intros b1 w1 Hs1 He1. mstep.
  assert (∀ b2 w2, stable w w2 → ext w2 = ext w →
    hoare fuel (if (b2 : bool) then mret (Some c) else verified_constructor vo cs t ctx) Q w2) as Hnext.
  { intros [] w2 Hs2 He2; [msteps; apply HQ; [done..|]|].
    { intros b [= <-]. by left. }
    apply IH. intros r w3 Hs3 He3 Hr. apply HQ; [by etrans|congruence|]. intros b ->. right. by apply Hr. }
  destruct b1; [|mstep; by apply (Hnext false)].
  apply hoare_Verify; [done|]. intros b2 w2 Hs2 He2. apply Hnext; [by etrans|congruence].
Qed.

(** A task built by [b], not stored yet. *)
Record built w w' b p c : Prop := {
  bu_ptr : p = next_ptr (rt w);
  bu_next : next_ptr (rt w') = S p;
  bu_heap : heap (rt w') = <[p := c]> (heap (rt w));
  bu_id : co_id c = new_task_id (base w);
  bu_name : co_name c = tb_name b;
  bu_returned : co_returned c = false;
  bu_ctx : co_ctx c = Some (fiber_new (co_func c) (co_this c) (co_args c));
  bu_info : thread_info (rt w') = thread_info (rt w);
  bu_base : base w' = set_new_task_id (new_task_id (base w) + 1)%Z (base w);
  bu_ext : ext w' = ext w;
}.

Lemma hoare_build_task fuel b t (Q : nat → W → Prop) w :
  (∀ w' p c, built w w' b p c → Q p w') → hoare fuel (build_task b t) Q w.
Proof.
  intros HQ. unfold build_task, fresh_task_id, on_rt, Build, New, update_coro, get_coro, set_coro.
  msteps. destruct (tb_gen b _ _) as [args m]. msteps. simpl. msteps.
  eapply hoare_deref; [apply lookup_insert_eq|]. msteps. eapply HQ.
  split; simpl; [..|apply insert_insert_eq| | | | | | |]; done.
Qed.

Lemma hoare_push_task fuel t p th (Q : unit → W → Prop) w :
  threads (base w) !! t = Some th →
  Q () (upd_base (set_threads (<[t := th ++ [p]]> (threads (base w)))) w) →
  hoare fuel (push_task t p) Q w.
Proof. intros Ht HQ. unfold push_task. msteps. apply hoare_deref with th; [done|]. by msteps. Qed.

Lemma built_started w w1 w2 b t th p c :
  built w w1 b p c → stable w1 w2 →
  threads (base w) !! t = Some th → b ∈ constructors (base w) →
  started w (upd_base (set_threads (<[t := th ++ [p]]> (threads (base w2)))) w2) t th p c.
Proof.
  intros Hb Hs Ht Hin. pose proof (bu_base _ _ _ _ _ Hb) as Ebase.
  pose proof (st_constructors _ _ Hs) as Hc. rewrite Ebase in Hc.
  destruct Hb, Hs. rewrite Ebase in *. simpl in *. split; simpl; try congruence. by exists b.
Qed.

Lemma hoare_start_new_task fuel t th (Q : bool → W → Prop) w :
  threads (base w) !! t = Some th → winv w →
  (∀ w', stable w w' → ext w' = ext w → Q false w') →
  (∀ w' p c, started w w' t th p c → ext w' = ext w → Q true w') →
  hoare fuel (start_new_task vo t) Q w.
Proof.
  intros Ht Hw Hno Hyes. unfold start_new_task. msteps. apply hoare_start_context; [done|..].
  { apply Forall_forall. intros u Hu. apply elem_of_seq in Hu. lia. }
  intros ctx w1 Hs1 He1. msteps. pose proof (shuffle_perm (rng (base w1)) (constructors (base w1))) as Hperm.
  destruct (shuffle _ _) as [cs r]. simpl in Hperm. msteps.
  set (w2 := upd_base (set_constructors cs r) w1).
  assert (stable w w2) as Hs2. { etrans; [exact Hs1|]. by split. }
  apply hoare_verified_constructor. intros [b|] w3 Hs3 He3 Hin;
    [|msteps; apply Hno; [by etrans|by rewrite He3]].
  assert (stable w w3) as Hs13 by by etrans. specialize (Hin b eq_refl). mstep.
  apply hoare_build_task. intros w4 p c Hb4. mstep. apply hoare_get_coro with c.
  { unfold coro. rewrite (bu_heap _ _ _ _ _ Hb4). apply lookup_insert_eq. }
  mstep. apply hoare_OnTaskStarted. intros w5 Hs5 He5. mstep.
  assert (threads (base w5) = threads (base w)) as E5.
  { by rewrite (st_threads _ _ Hs5), (bu_base _ _ _ _ _ Hb4), <-(st_threads _ _ Hs13). }
  apply hoare_push_task with th; [by rewrite E5|]. msteps. eapply Hyes.
  - eapply started_stable_l; [exact Hs13|].
    eapply built_started; [done..|by rewrite (st_threads _ _ Hs13)|].
    by rewrite (st_constructors _ _ Hs3).
  - simpl. by rewrite He5, (bu_ext _ _ _ _ _ Hb4), He3.
Qed.

(** What [Next] promises of the task it returns: a new one, just started, or
    the unfinished last one of its thread. *)
Definition next_post w (r : StrategyNextResult) w' : Prop :=
  match r with
  | NextFailure DEADLOCK => stable w w'
  | NextFailure _ => False
  | TaskWithMetaData s true t =>
      s.1 = t ∧ allow_new_tasks_ (base w) = true ∧
      ∃ th p c, s.2 = length th ∧ freeb w t = true ∧ started w w' t th p c
  | TaskWithMetaData s false t =>
      s.1 = t ∧ stable w w' ∧
      ∃ p c, slot_ptr w s = Some p ∧ coro w p = Some c ∧ co_returned c = false ∧ blocked w p = false
  end.

(** A thread that a strategy may pick. *)
Definition pick_ok w t : Prop := t < length (threads (base w)) ∧ may_run vo w t = true.

Lemma hoare_NextVerifiedFor fuel o (Q : StrategyNextResult → W → Prop) w :
  winv w → (∀ t, o = Some t → pick_ok w t) →
  (∀ r w', next_post w r w' → ext w' = ext w → Q r w') →
  hoare fuel (NextVerifiedFor vo o) Q w.
Proof.
  intros Hw Ho HQ. unfold NextVerifiedFor. destruct o as [t|]; [|msteps; by apply HQ].
  destruct (Ho t eq_refl) as [Hlt Hm]. pose proof Hlt as [th Hth]%thread_exists.
  mstep. apply hoare_is_free; [done..|]. mstep. destruct (freeb w t) eqn:Hf.
  - eapply hoare_start_new_task; [done..| |].
    + intros w' Hs He. msteps. apply HQ; [|done]. done.
    + intros w' p c Hst Hext. cbn beta iota. mstep. eapply hoare_back_slot.
      { rewrite (sd_threads _ _ _ _ _ _ Hst). apply list_lookup_insert_eq. done. }
      msteps. apply HQ; [|done]. simpl. split; [done|]. split.
      { unfold may_run in Hm. rewrite Hf in Hm. simpl in Hm. rewrite orb_false_r, !andb_true_iff in Hm. naive_solver. }
      exists th, p, c. split_and!; [|done..]. rewrite length_app. simpl. lia.
  - msteps. unfold freeb in Hf. destruct (back w t) as [p|] eqn:Hb; [|done].
    destruct (back_slot_ptr _ _ _ Hb) as (th'&Hth'&Hs). simplify_eq.
    eapply hoare_back_slot; [done|]. msteps. apply HQ; [|done]. simpl. split; [done|]. split; [done|].
    destruct (winv_slot _ _ _ Hw Hs) as [c Hc]. exists p, c. split_and!; [done..| |].
    + unfold returned in Hf. by rewrite Hc in Hf.
    + unfold may_run, blockedb in Hm. rewrite Hb, !andb_true_iff, !negb_true_iff in Hm. naive_solver.
Qed.

End Slices.

(** ** One slice *)
Section Resume.
Context `{TT : TargetTypes, TC : !TargetCode, RN : Random, TO : !TargetObject, PT : !PlainTarget}.
Context {B X : Type}.
Abbreviation W := (World B X).
Implicit Types (w : W) (p t : nat) (s : Slot) (c : Coro).

(** [w'] is [w] after a change to the task at [p], which keeps its identity. *)
Record touched w w' p c c' : Prop := {
  to_coro : coro w p = Some c;
  to_heap : heap (rt w') = <[p := c']> (heap (rt w));
  to_next : next_ptr (rt w') = next_ptr (rt w);
  to_info : thread_info (rt w') = thread_info (rt w);
  to_base : base w' = base w;
  to_ext : ext w' = ext w;
  to_same : same_task c c';
  to_ctx : co_returned c' = false → is_Some (co_ctx c');
}.

Lemma touched_coro w w' p c c' q :
  touched w w' p c c' → coro w' q = if decide (q = p) then Some c' else coro w q.
Proof.
  intros Ht. unfold coro. rewrite (to_heap _ _ _ _ _ Ht). case_decide as Hq.
  - rewrite Hq. apply lookup_insert_eq.
  - by rewrite lookup_insert_ne.
Qed.

Lemma touched_slots w w' p c c' : touched w w' p c c' → slots w' = slots w.
Proof. intros []. unfold slots. congruence. Qed.
Lemma touched_slot w w' p c c' s : touched w w' p c c' → slot_ptr w' s = slot_ptr w s.
Proof. intros []. unfold slot_ptr. congruence. Qed.

Lemma touched_winv w w' p c c' : winv w → touched w w' p c c' → winv w'.
Proof.
  intros [Hh Hf Hn Hc Hi Hd] Ht. pose proof (λ q, touched_coro _ _ _ _ _ q Ht) as Ec.
  pose proof (touched_slots _ _ _ _ _ Ht) as Es. destruct Ht as [Hp _ Hnext _ Hb _ (Hid&_) Hctx].
  assert (∀ q d, coro w' q = Some d → ∃ d0, coro w q = Some d0 ∧ co_id d0 = co_id d) as Hback.
  { intros q d. rewrite Ec. case_decide; [intros [= <-]; subst; eauto|eauto]. }
  split; rewrite ?Es, ?Hnext, ?Hb.
  - intros q Hq. rewrite Ec. case_decide; [done|]. by apply Hh.
  - intros q [d (d0&Hd0&_)%Hback]. apply Hf. eauto.
  - done.
  - intros q d Hq. rewrite Ec. case_decide; [intros [= <-]; done|by apply Hc].
  - intros q d Hq (d0&Hd0&<-)%Hback. by eapply Hi.
  - intros q q' d d' Hq Hq' (d0&Hd0&E0)%Hback (d1&Hd1&E1)%Hback E. eapply Hd; [done..|congruence].
Qed.

Lemma touched_no_os w w' p c c' : touched w w' p c c' → no_os w → no_os w'.
Proof. intros [] []. split; congruence. Qed.

Lemma touched_names P w w' p c c' : touched w w' p c c' → names_in P w → names_in P w'.
Proof.
  intros Ht [Hn Hb]. split.
  - intros q d. rewrite (touched_slots _ _ _ _ _ Ht), (touched_coro _ _ _ _ _ q Ht). intros Hq.
    destruct Ht as [Hp _ _ _ _ _ (_&Hname&_) _]. case_decide as Hqp; [|by apply Hn].
    intros [= <-]. rewrite Hname, Hqp in *. by eapply Hn.
  - intros b. rewrite (to_base _ _ _ _ _ Ht). apply Hb.
Qed.

Lemma touched_trans w1 w2 w3 p c1 c2 c3 :
  touched w1 w2 p c1 c2 → touched w2 w3 p c2 c3 → touched w1 w3 p c1 c3.
Proof.
  intros [] []. split; try congruence.
  - by rewrite to_heap1, to_heap0, insert_insert_eq.
  - by etrans.
  - done.
Qed.

(** A change of the task at [p] by a function that keeps its identity. *)
Lemma hoare_touch fuel p c f (Q : unit → W → Prop) w :
  coro w p = Some c → same_task c (f c) → (co_returned (f c) = false → is_Some (co_ctx (f c))) →
  (∀ w', touched w w' p c (f c) → Q () w') → hoare fuel (on_rt (update_coro p f)) Q w.
Proof.
  intros Hc Hs Hx HQ. apply hoare_update_coro with c; [done|]. apply HQ. by split.
Qed.

(** Actions of the running fibre, inside the runtime. *)
Lemma hoare_run_actions fuel p (actions : list action) c (Q : unit → Runtime → Prop) r :
  Forall plain_action actions → heap r !! p = Some c →
  (∀ r' c', heap r' = <[p := c']> (heap r) → same_task c c' → next_ptr r' = next_ptr r →
     thread_info r' = thread_info r → Q () r') →
  hoare fuel (for_each (run_action p) actions) Q r.
Proof.
  intros Hpl Hp HQ.
  set (I := λ r', ∃ c', heap r' = <[p := c']> (heap r) ∧ same_task c c' ∧
    next_ptr r' = next_ptr r ∧ thread_info r' = thread_info r).
  eapply hoare_weaken; [apply (hoare_for_each fuel _ I)|].
  - intros a r1 Ha (c1&Hh1&Hs1&Hn1&Hi1).
    assert (heap r1 !! p = Some c1) as Hp1 by (rewrite Hh1; apply lookup_insert_eq).
    assert (∀ f r2 (k : Runtime → Runtime), same_task c1 (f c1) →
      r2 = k (set_heap (<[p := f c1]> (heap r1)) r1) →
      (∀ r, heap (k r) = heap r ∧ next_ptr (k r) = next_ptr r ∧ thread_info (k r) = thread_info r) → I r2)
      as Hupd.
    { intros f r2 k Hf -> Hk. destruct (Hk (set_heap (<[p := f c1]> (heap r1)) r1)) as (E1&E2&E3).
      exists (f c1). rewrite E1, E2, E3. simpl. rewrite Hh1, insert_insert_eq.
      split_and!; [done|by etrans|done..]. }
    destruct a; simpl; unfold EmitDualEvent, update_coro, get_coro, set_coro; msteps.
    + by exists c1.
    + eapply hoare_deref; [done|]. msteps. by eapply (Hupd (λ c, set_events (co_events c ++ [mkDualEvent kind (g_dual_event_seqno r1) result]) c) _
        (λ r, set_seqno _ r)).
    + eapply hoare_deref; [done|]. msteps. by eapply (Hupd (set_fstate state) _ (λ r, set_queues _ r)).
    + eapply hoare_deref; [done|]. msteps. by eapply (Hupd (setWakeupCondition cond) _ id).
    + eapply hoare_deref; [done|]. msteps. by eapply (Hupd clearWakeupCondition _ id).
    + by exists c1.
    + by exists c1.
    + eapply hoare_deref; [done|]. msteps. by eapply (Hupd (TerminateWith v) _ id).
    + rewrite Forall_forall in Hpl. by destruct (Hpl _ Ha).
  - exists c. rewrite insert_id by done. done.
  - intros [] r' (c'&?&?&?&?). by eapply HQ.
Qed.

(** A slice of the fibre [f] of task [p]. *)
Definition sliced w w' p c f c' : Prop :=
  touched w w' p c c' ∧
  (co_returned c' = false → ∃ r t f', (fiber_run f r t).2 = Yields f' ∧ co_ctx c' = Some f').

Lemma hoare_Resume fuel p t c f (Q : unit → W → Prop) w :
  coro w p = Some c → co_returned c = false → co_ctx c = Some f →
  (∀ w' c', sliced w w' p c f c' → Q () w') → hoare fuel (on_rt (Resume p t)) Q w.
Proof.
  intros Hc Hr Hf HQ. unfold on_rt, Resume, get_coro. msteps. apply hoare_deref with c; [done|].
  rewrite Hr, Hf. simpl. mstep. apply hoare_assert; [done|]. mstep. apply hoare_deref with f; [done|].
  unfold set_coro. msteps. set (r0 := set_heap _ (rt w)).
  pose proof (pt_actions f r0 t) as Ha. pose proof (pt_end f r0 t) as He.
  destruct (fiber_run f r0 t) as [actions e] eqn:Hrun. simpl in Ha, He. mstep.
  eapply hoare_run_actions; [done|apply lookup_insert_eq|].
  intros r1 c1 Hh1 Hs1 Hn1 Hi1. simpl in Hh1, Hn1, Hi1. rewrite insert_insert_eq in Hh1.
  assert (heap r1 !! p = Some c1) as Hp1 by (rewrite Hh1; apply lookup_insert_eq).
  assert (same_task c c1) as Hs01 by by etrans.
  assert (∀ r2 c2, heap r2 = <[p := c2]> (heap r1) → same_task c1 c2 → next_ptr r2 = next_ptr r1 →
    thread_info r2 = thread_info r1 →
    (co_returned c2 = false → ∃ f', e = Yields f' ∧ co_ctx c2 = Some f') → Q () (set_rt r2 w)) as Hend.
  { intros r2 c2 Hh2 Hs2 Hn2 Hi2 Hy. apply (HQ _ c2). split.
    - split; simpl; try congruence.
      + by rewrite Hh2, Hh1, insert_insert_eq.
      + by etrans.
      + intros Hy'. destruct (Hy Hy') as (f'&_&->). done.
    - intros Hy'. destruct (Hy Hy') as (f'&->&Hx). exists r0, t, f'. by rewrite Hrun. }
  destruct e as [f'|v|msg|what]; simpl; unfold SetTestFailure, update_coro, get_coro, set_coro; msteps.
  - eapply hoare_deref; [done|]. msteps. by eapply (Hend _ (set_ctx (Some f') c1)); eauto.
  - eapply hoare_deref; [done|]. msteps. by eapply (Hend _ (set_state true v c1)).
  - eapply hoare_deref; [done|]. msteps. by eapply (Hend _ (set_state true void_v c1)).
  - by destruct (He what).
Qed.

End Resume.
