(* ===== verification/Recorded.v ===== *)
(** * The history of a round

    [recorded w seq]: the events of [seq] are what a checker may be given. An
    operation is invoked once and answered at most once, later, and an answer
    carries the value its task returned. The lemmas show which steps of a
    round keep this and that the checkers then get well-formed histories. *)
From stdpp Require Import base list gmap strings.
From Stdlib Require Import ZArith.
From S2P Require Import Prelude LinSpec Events History Linearizability Wgl LincheckDual Checkers.
From S2P Require Import Effects BlockManager Runtime Verifier Strategy Scheduler Rounds.
From S2P Require Import WorldInv Choosing Slices.

Open Scope nat_scope.

Section Recorded.
Context `{TT : TargetTypes, TC : !TargetCode, RN : Random, TO : !TargetObject}.
Context {B X : Type}.
Abbreviation W := (World B X).
Implicit Types (w : W) (p : nat) (s : Slot) (c : Coro) (e : SchedEvent) (seq : list SchedEvent).

Definition ev_invoke e : bool := match e with EvInvoke _ _ => true | EvResponse _ _ _ => false end.
Definition ev_slot e : Slot := match e with EvInvoke s _ => s | EvResponse s _ _ => s end.

Record recorded w seq : Prop := {
  rc_wf : wf_events ev_invoke ev_slot seq;
  rc_slot e : e ∈ seq → is_Some (slot_ptr w (ev_slot e));
  rc_ret s v t : EvResponse s v t ∈ seq →
    ∃ c, slot_coro w s = Some c ∧ co_returned c = true ∧ co_ret c = v;
}.

Lemma recorded_nil w : recorded w [].
Proof. split; [apply wf_events_nil|..]; intros; set_solver. Qed.

Lemma recorded_stable w w' seq : stable w w' → recorded w seq → recorded w' seq.
Proof.
  intros Hs [Hw Hsl Hr]. split; [done|..].
  - intros e He. rewrite (stable_slot_ptr _ _ _ Hs). by apply Hsl.
  - intros s v t He. rewrite (stable_slot_coro _ _ _ Hs). by eapply Hr.
Qed.

Lemma recorded_started w w' t th p c seq :
  winv w → started w w' t th p c → recorded w seq →
  recorded w' (seq ++ [EvInvoke (t, length th) (Z.of_nat t)]).
Proof.
  intros Hw Hst [Hwf Hsl Hr].
  assert (∀ e, e ∈ seq → ev_slot e ≠ (t, length th)) as Hne.
  { intros e He Heq. destruct (Hsl e He) as [q Hq]. rewrite Heq in Hq. unfold slot_ptr in Hq.
    simpl in Hq. rewrite (sd_thread _ _ _ _ _ _ Hst) in Hq. simpl in Hq.
    apply lookup_lt_Some in Hq. lia. }
  assert (∀ s, s ≠ (t, length th) → slot_ptr w' s = slot_ptr w s) as Hold.
  { intros s Hs. rewrite (started_slot _ _ _ _ _ _ s Hst). by rewrite decide_False. }
  split.
  - apply wf_events_invoke; [done..|]. intros e He _. by apply Hne.
  - intros e [He| ->%list_elem_of_singleton]%elem_of_app.
    + rewrite Hold by by apply Hne. by apply Hsl.
    + simpl. rewrite (started_slot _ _ _ _ _ _ _ Hst), decide_True; done.
  - intros s v u [He|?%list_elem_of_singleton]%elem_of_app; [|done].
    destruct (Hr s v u He) as (d&(q&Hq&Hd)%slot_coro_Some&?). exists d. split; [|done].
    apply slot_coro_Some. exists q. rewrite Hold by by apply (Hne _ He). split; [done|].
    rewrite (started_coro _ _ _ _ _ _ q Hst). rewrite decide_False; [done|].
    intros ->. rewrite (started_new _ _ _ _ _ _ Hw Hst) in Hd. done.
Qed.

(** A change that keeps the result of a finished task. *)
Lemma recorded_kept w w' p c c' seq :
  touched w w' p c c' → (co_returned c = true → co_returned c' = true ∧ co_ret c' = co_ret c) →
  recorded w seq → recorded w' seq.
Proof.
  intros Ht Hc [Hwf Hsl Hr]. split; [done|..].
  - intros e He. rewrite (touched_slot _ _ _ _ _ _ Ht). by apply Hsl.
  - intros s v u He. destruct (Hr s v u He) as (d&(q&Hq&Hd)%slot_coro_Some&Hret&<-).
    setoid_rewrite slot_coro_Some. setoid_rewrite (touched_slot _ _ _ _ _ _ Ht). setoid_rewrite Hq.
    setoid_rewrite (touched_coro _ _ _ _ _ _ Ht). destruct (decide (q = p)) as [->|Hne].
    + rewrite (to_coro _ _ _ _ _ Ht) in Hd. injection Hd as <-. destruct (Hc Hret) as [Hr' Hv].
      exists c'. split; [|done]. exists p. split; [done|]. by rewrite decide_True.
    + exists d. split; [|done]. exists q. split; [done|]. by rewrite decide_False.
Qed.

Lemma recorded_touched w w' p c c' seq :
  touched w w' p c c' → co_returned c = false → recorded w seq → recorded w' seq.
Proof. intros Ht Hc. apply (recorded_kept w w' p c c'); [done|congruence]. Qed.

Lemma recorded_unanswered w s c seq v t :
  recorded w seq → slot_coro w s = Some c → co_returned c = false → EvResponse s v t ∉ seq.
Proof. intros [_ _ Hr] Hc Hf He. destruct (Hr s v t He) as (d&Hd&?&?). congruence. Qed.

Lemma recorded_invoke w s t seq :
  recorded w seq → is_Some (slot_ptr w s) → (∀ u, EvInvoke s u ∉ seq) →
  recorded w (seq ++ [EvInvoke s t]).
Proof.
  intros [Hwf Hsl Hr] Hs Hnew. split.
  - apply wf_events_invoke; [done..|]. intros [s' u|] He; [|done]. simpl. intros _ ->. by destruct (Hnew u).
  - intros e [He| ->%list_elem_of_singleton]%elem_of_app; [by apply Hsl|done].
  - intros s' v u [He|?%list_elem_of_singleton]%elem_of_app; [by eapply Hr|done].
Qed.

Lemma recorded_response w s c v t seq :
  recorded w seq → slot_coro w s = Some c → co_returned c = true → co_ret c = v →
  (∃ u, EvInvoke s u ∈ seq) → (∀ v u, EvResponse s v u ∉ seq) →
  recorded w (seq ++ [EvResponse s v t]).
Proof.
  intros [Hwf Hsl Hr] Hc Ht Hv [u Hin] Hnew. split.
  - apply wf_events_response; [done..| |].
    + by exists (EvInvoke s u).
    + intros [|s' v' u'] He; [done|]. simpl. intros _ ->. by destruct (Hnew v' u').
  - intros e [He| ->%list_elem_of_singleton]%elem_of_app; [by apply Hsl|]. simpl.
    apply slot_coro_Some in Hc as (p&->&_). done.
  - intros s' v' u' [He|He%list_elem_of_singleton]%elem_of_app; [by eapply Hr|]. simplify_eq. eauto.
Qed.

(** ** The history the checker gets *)

Definition task_view w s : Task Args Value :=
  match slot_ptr w s with
  | Some p =>
      match coro w p with
      | Some c => mkTask (encode_nat s) p (co_id c) (co_name c) (co_args c)
                    (if co_returned c then Some (co_ret c) else None)
      | None => mkTask (encode_nat s) p 0 "" no_args None
      end
  | None => mkTask (encode_nat s) 0 0 "" no_args None
  end.
Definition event_view w e : HistoryEvent Args Value :=
  match e with
  | EvInvoke s t => Invoke (task_view w s) t
  | EvResponse s v t => Response (task_view w s) v t
  end.
Definition history_view w seq : list (HistoryEvent Args Value) := event_view w <$> seq.

Lemma task_view_ref w s : task_ref (task_view w s) = encode_nat s.
Proof. unfold task_view. repeat case_match; done. Qed.
Lemma task_view_ptr w s p : slot_ptr w s = Some p → task_ptr (task_view w s) = p.
Proof. intros Hp. unfold task_view. rewrite Hp. by case_match. Qed.
Lemma task_view_coro w s c :
  slot_coro w s = Some c →
  task_name (task_view w s) = co_name c ∧ task_args (task_view w s) = co_args c ∧
  task_ret (task_view w s) = (if co_returned c then Some (co_ret c) else None).
Proof. intros (p&Hp&Hc)%slot_coro_Some. unfold task_view. by rewrite Hp, Hc. Qed.

Lemma event_view_invoke w e : is_invoke (event_view w e) = ev_invoke e.
Proof. by destruct e. Qed.
Lemma event_view_ref w e : event_key task_ref (event_view w e) = encode_nat (ev_slot e).
Proof. destruct e; apply task_view_ref. Qed.

Lemma history_view_lookup w seq i he :
  history_view w seq !! i = Some he → ∃ e, seq !! i = Some e ∧ he = event_view w e.
Proof. intros (e&->&He)%list_lookup_fmap_Some. eauto. Qed.

Lemma recorded_wf_ref w seq : recorded w seq → wf_history task_ref (history_view w seq).
Proof.
  intros [Hwf _ _]. apply (wf_events_fmap ev_invoke ev_slot); [..|exact Hwf].
  - intros e _. apply event_view_invoke.
  - intros e f _ _. rewrite !event_view_ref. split; [apply (inj encode_nat)|by intros ->].
Qed.

Lemma recorded_handles w seq : winv w → recorded w seq → handles_agree (history_view w seq).
Proof.
  intros Hw [_ Hsl _] i j ? ? (e&He&->)%history_view_lookup (f&Hf&->)%history_view_lookup.
  destruct (Hsl e) as [p Hp]; [by eapply list_elem_of_lookup_2|].
  destruct (Hsl f) as [q Hq]; [by eapply list_elem_of_lookup_2|].
  rewrite !event_view_ref. unfold event_key.
  assert (∀ e p, slot_ptr w (ev_slot e) = Some p → task_ptr (History.GetTask (event_view w e)) = p) as Hptr.
  { intros [] p' Hp'; by apply task_view_ptr. }
  rewrite (Hptr e p Hp), (Hptr f q Hq). split.
  - intros He'%(inj encode_nat). congruence.
  - intros ->. f_equal. by eapply task_slot_inj.
Qed.

Lemma recorded_wf_ptr w seq : winv w → recorded w seq → wf_history task_ptr (history_view w seq).
Proof. intros Hw Hr. apply wf_history_agree; [by apply recorded_handles|by apply recorded_wf_ref]. Qed.

Lemma recorded_returns w seq : recorded w seq → returns_recorded (history_view w seq).
Proof.
  intros [_ _ Hr] i r t th u v th' (ei&er&Hi&Hr'&_&_&Hk) Hit Hru.
  rewrite Hit in Hi. rewrite Hru in Hr'. injection Hi as <-. injection Hr' as <-.
  apply history_view_lookup in Hit as (e&He&Ee). apply history_view_lookup in Hru as (f&Hf&Ef).
  destruct e as [s n|], f as [|s' v' n']; simplify_eq/=.
  unfold event_key in Hk. simpl in Hk. rewrite !task_view_ref in Hk. apply (inj encode_nat) in Hk as ->.
  destruct (Hr s' v' n') as (c&Hc&Ht&<-); [by eapply list_elem_of_lookup_2|].
  destruct (task_view_coro _ _ _ Hc) as (_&_&->). by rewrite Ht.
Qed.

Lemma recorded_known {St} (methods : MethodMap St Args Value) w seq :
  winv w → names_in (λ n, is_Some (methods !! n)) w → recorded w seq →
  methods_known methods (history_view w seq).
Proof.
  intros Hw [Hn _] [_ Hsl _] i t th (e&He&Ee)%history_view_lookup.
  destruct e as [s n|]; simplify_eq/=. destruct (Hsl (EvInvoke s n)) as [p Hp].
  { by eapply list_elem_of_lookup_2. }
  simpl in Hp. destruct (winv_slot _ _ _ Hw Hp) as [c Hc].
  destruct (task_view_coro w s c) as (->&_); [by apply slot_coro_Some; eauto|].
  apply (Hn p c); [by eapply slot_in|done].
Qed.

End Recorded.

(** ** Checking a recorded history *)
Section Verdict.
Context `{TT : TargetTypes, TC : !TargetCode, RN : Random, TO : !TargetObject}.
Context {B X : Type}.
Abbreviation W := (World B X).
Context {St : Type} (methods : MethodMap St Args Value) (veq : Value → Value → bool) (s0 : St).
Context (checker : list (HistoryEvent Args Value) → outcome bool).
Context `{MC : !ModelChecker methods veq s0 checker}.
Context (ops : StrategyOps W).
Implicit Types (w : W) (p : nat) (s : Slot) (c : Coro) (e : SchedEvent) (seq : list SchedEvent).
Abbreviation eo := (ordinary_events checker ops).
Abbreviation known := (λ n, is_Some (methods !! n)).
Abbreviation explained w seq := (linearizable methods veq task_ref (history_view w seq) s0).

Lemma hoare_view_task fuel s (Q : Task Args Value → W → Prop) w :
  winv w → is_Some (slot_ptr w s) → Q (task_view w s) w → hoare fuel (view_task s) Q w.
Proof.
  intros Hw [p Hp] HQ. destruct (winv_slot _ _ _ Hw Hp) as [c Hc].
  unfold task_view in HQ. rewrite Hp, Hc in HQ. unfold view_task, view_coro. mstep.
  eapply hoare_task_at; [done|]. mstep. apply hoare_get_coro with c; [done|]. by msteps.
Qed.

Lemma hoare_view_history fuel seq (Q : list (HistoryEvent Args Value) → W → Prop) w :
  winv w → Forall (λ e, is_Some (slot_ptr w (ev_slot e))) seq → Q (history_view w seq) w →
  hoare fuel (mapM view_event seq) Q w.
Proof.
  intros Hw Hs. revert Q. induction Hs as [|e seq He Hs IH]; intros Q HQ; simpl; [by msteps|].
  mstep. assert (∀ Q' : HistoryEvent Args Value → W → Prop, Q' (event_view w e) w →
    hoare fuel (view_event e) Q' w) as Hv.
  { intros Q' HQ'. destruct e; simpl in *; mstep; (apply hoare_view_task; [done..|]); by msteps. }
  apply Hv. mstep. apply IH. by msteps.
Qed.

Lemma hoare_check fuel seq (Q : bool → W → Prop) w :
  winv w → names_in known w → recorded w seq →
  (∀ b, (b = true ↔ explained w seq) → Q b w) → hoare fuel (eo_check eo seq) Q w.
Proof.
  intros Hw Hn Hr HQ. simpl. mstep. apply hoare_view_history; [done|..].
  { apply Forall_forall. intros e. apply (rc_slot _ _ Hr). }
  destruct (mc_decides (history_view w seq)) as (b&Hb&Hl).
  { by apply recorded_wf_ref. }
  { by apply recorded_wf_ptr. }
  { by apply recorded_handles. }
  { by apply recorded_known. }
  { by apply recorded_returns. }
  eapply hoare_lift_Ret; [done|]. by apply HQ.
Qed.

Lemma hoare_verdict fuel full seq (Q : Result SchedEvent → W → Prop) w :
  winv w → names_in known w → recorded w seq →
  (explained w seq → Q None w) →
  (¬ explained w seq → Q (Some (mkBad full seq NON_LINEARIZABLE_HISTORY)) w) →
  hoare fuel (verdict eo full seq) Q w.
Proof.
  intros Hw Hn Hr HQ HQ'. unfold verdict. mstep. apply hoare_check; [done..|].
  intros [] Hb; msteps; [by apply HQ, Hb|]. apply HQ'. by intros ?%Hb.
Qed.

Lemma hoare_slot_id fuel s p c (Q : Z → W → Prop) w :
  slot_ptr w s = Some p → coro w p = Some c → Q (co_id c) w → hoare fuel (slot_id s) Q w.
Proof. intros Hs Hc HQ. unfold slot_id. mstep. eapply hoare_coro_at; [done..|]. by msteps. Qed.

(** The slots of the events exist. *)
Definition slots_exist w seq : Prop := ∀ e, e ∈ seq → is_Some (slot_ptr w (ev_slot e)).

Lemma hoare_HasAnyStartedOp fuel seq (Q : bool → W → Prop) w :
  winv w → slots_exist w seq → Q (existsb ev_invoke seq) w → hoare fuel (HasAnyStartedOp eo seq) Q w.
Proof.
  intros Hw Hsl. induction seq as [|[s t|s v t] seq IH]; intros HQ; simpl in *; [by msteps| |].
  - destruct (Hsl (EvInvoke s t)) as [p Hp]; [by left|]. destruct (winv_slot _ _ _ Hw Hp) as [c Hc].
    mstep. mstep. eapply hoare_slot_id; [done..|]. by msteps.
  - msteps. apply IH; [|done]. intros e He. apply Hsl. by right.
Qed.

(** The operations without a response. *)
Definition pending seq : Prop := ∃ s t, EvInvoke s t ∈ seq ∧ ∀ v u, EvResponse s v u ∉ seq.

Lemma hoare_collect_ids fuel (sel : SchedEvent → option Slot) (f : SchedEvent → M W (option Z)) seq
    (Q : gset Z → W → Prop) w :
  winv w → (∀ e s, e ∈ seq → sel e = Some s → is_Some (slot_ptr w s)) →
  (∀ e, f e = match sel e with Some s => id ← slot_id s; mret (Some id) | None => mret None end) →
  (∀ ids, (∀ id, id ∈ ids ↔ ∃ e s c, e ∈ seq ∧ sel e = Some s ∧ slot_coro w s = Some c ∧ co_id c = id) →
     Q ids w) →
  hoare fuel (collect_ids f seq) Q w.
Proof.
  intros Hw Hsl Hf. revert Q. induction seq as [|e seq IH]; intros Q HQ; simpl.
  { msteps. apply HQ. set_solver. }
  mstep. rewrite Hf. destruct (sel e) as [s|] eqn:Hsel.
  - destruct (Hsl e s) as [p Hp]; [by left|done|]. destruct (winv_slot _ _ _ Hw Hp) as [c Hc].
    assert (slot_coro w s = Some c) as Hsc by (apply slot_coro_Some; eauto).
    mstep. eapply hoare_slot_id; [done..|]. msteps. apply IH; [intros; eapply Hsl; [by right|done]|].
    intros ids Hids. msteps. apply HQ. intros id. rewrite elem_of_union, elem_of_singleton, Hids.
    setoid_rewrite elem_of_cons. split.
    + intros [->|(e'&s'&c'&?&?&?&?)]; [by exists e, s, c; eauto|]. exists e', s', c'. eauto.
    + intros (e'&s'&c'&[->|?]&?&?&?); [left|right; eauto 10]. congruence.
  - msteps. apply IH; [intros; eapply Hsl; [by right|done]|].
    intros ids Hids. msteps. apply HQ. intros id. rewrite Hids. setoid_rewrite elem_of_cons. split.
    + intros (e'&s'&c'&?&?&?&?). exists e', s', c'. eauto.
    + intros (e'&s'&c'&[->|?]&?&?&?); [congruence|eauto 10].
Qed.

Lemma hoare_HasPendingVisibleOp fuel seq (Q : bool → W → Prop) w :
  winv w → slots_exist w seq → (∀ b, (b = true ↔ pending seq) → Q b w) →
  hoare fuel (HasPendingVisibleOp seq) Q w.
Proof.
  intros Hw Hsl HQ. unfold HasPendingVisibleOp.
  mstep. apply (hoare_collect_ids _ (λ e, match e with EvInvoke s _ => Some s | _ => None end)); [done|..].
  { intros [s t|] s' He [= <-]. by apply (Hsl _ He). }
  { by intros []. }
  intros st Hst. mstep.
  apply (hoare_collect_ids _ (λ e, match e with EvResponse s _ _ => Some s | _ => None end)); [done|..].
  { intros [|s v t] s' He [= <-]. by apply (Hsl _ He). }
  { by intros []. }
  intros fin Hfin. msteps. apply HQ. rewrite negb_true_iff, bool_decide_eq_false. split.
  - intros Hn. destruct (set_choose_or_empty (st ∖ fin)) as [[id Hid]|He]; [|by destruct Hn; apply empty_difference_subseteq].
    apply elem_of_difference in Hid as [Hs Hf]. apply Hst in Hs as ([s t|]&s'&c&He&[= <-]&Hc&<-).
    exists s, t. split; [done|]. intros v u He'. apply Hf, Hfin. by exists (EvResponse s v u), s, c.
  - intros (s&t&He&Hno) Hsub. destruct (Hsl _ He) as [p Hp]. simpl in Hp.
    destruct (winv_slot _ _ _ Hw Hp) as [c Hc].
    assert (co_id c ∈ fin) as Hin.
    { apply Hsub, Hst. exists (EvInvoke s t), s, c. split_and!; [done..| |done]. apply slot_coro_Some. eauto. }
    apply Hfin in Hin as ([|s' v u]&s''&d&He'&[= <-]&(q&Hq&Hd)%slot_coro_Some&Heq).
    assert (q = p) as ->. 
    { apply (wi_ids _ Hw q p d c); [exact (slot_in _ _ _ Hq)|exact (slot_in _ _ _ Hp)|exact Hd|exact Hc|exact Heq]. }
    assert (s' = s) as -> by exact (task_slot_inj _ _ _ _ Hw Hq Hp). by destruct (Hno v u).
Qed.

(** A deadlock is reported exactly if some operation is pending. *)
Lemma hoare_IsReportable fuel seq (Q : bool → W → Prop) w :
  winv w → slots_exist w seq → (∀ b, (b = true ↔ pending seq) → Q b w) →
  hoare fuel (IsReportableDeadlockHistory eo seq) Q w.
Proof.
  intros Hw Hr HQ. unfold IsReportableDeadlockHistory. mstep.
  apply hoare_HasAnyStartedOp; [done..|]. destruct (existsb ev_invoke seq) eqn:He; simpl.
  - by apply hoare_HasPendingVisibleOp.
  - msteps. apply HQ. split; [done|]. intros (s&t&Hin&_). exfalso.
    assert (existsb ev_invoke seq = true); [|congruence].
    apply existsb_exists. exists (EvInvoke s t). split; [by apply list_elem_of_In|done].
Qed.

End Verdict.
