(* ===== verification/RoundCorrect.v ===== *)
(** * A generated round

    [StrategyScheduler::RunRound] over any strategy that keeps the laws
    below: the history it records is one a checker may be given, its verdict
    is exact, and it returns when the code under test takes boundedly many
    slices. *)
From stdpp Require Import base list gmap strings.
From Stdlib Require Import ZArith.
From S2P Require Import Prelude LinSpec Events History Linearizability Wgl LincheckDual Checkers.
From S2P Require Import Effects BlockManager Runtime Verifier Strategy Scheduler Rounds.
From S2P Require Import WorldInv Choosing Slices Recorded.

Open Scope nat_scope.

(** What a strategy promises of [Next] and [UpdateSimulatorState]. [sinv] is
    its own invariant, on its fields and the number of threads. *)
Class NextLaws `{TT : TargetTypes, TC : !TargetCode, RN : Random} {B X : Type}
    (ops : StrategyOps (World B X)) (sinv : X → nat → Prop) : Prop := {
  nl_next w :
    winv w → no_os w → sinv (ext w) (length (threads (base w))) →
    wp (so_Next ops) (λ r w', next_post w r w' ∧ sinv (ext w') (length (threads (base w')))) w;
  nl_update t h w :
    no_os w → sinv (ext w) (length (threads (base w))) →
    so_UpdateSimulatorState ops t h w = Ret (h, w);
}.

(** Code under test that is bounded: a rank that decreases with every slice. *)
Class RankLaws `{TC : TargetCode} (rank : Fiber → nat) (K : nat) : Prop := {
  rk_new func this args : rank (fiber_new func this args) ≤ K;
  rk_run f r t f' : (fiber_run f r t).2 = Yields f' → rank f' < rank f;
}.

Section Measure.
Context `{TT : TargetTypes, TC : !TargetCode, RN : Random}.
Context {B X : Type} (rank : Fiber → nat).
Abbreviation W := (World B X).
Implicit Types (w : W) (p : nat) (c : Coro).

(** The slices that a task, and all tasks, may still take. *)
Definition coro_cost (o : option Coro) : nat :=
  match o with
  | Some c => if co_returned c then 0 else match co_ctx c with Some f => S (rank f) | None => 0 end
  | None => 0
  end.
Definition cost w : nat := sum_list_with (λ p, coro_cost (coro w p)) (slots w).

Lemma sum_list_with_ext {A} (f g : A → nat) l :
  (∀ x, x ∈ l → f x = g x) → sum_list_with f l = sum_list_with g l.
Proof.
  induction l as [|x l IH]; intros H; simpl; [done|].
  rewrite (H x), IH by set_solver. done.
Qed.

Lemma sum_list_with_update {A} `{EqDecision A} (f g : A → nat) l x :
  NoDup l → x ∈ l → (∀ y, y ≠ x → f y = g y) →
  sum_list_with f l + g x = sum_list_with g l + f x.
Proof.
  intros Hn Hx He. apply list_elem_of_split in Hx as (l1&l2&->).
  apply NoDup_app in Hn as (_&Hd&Hn2). apply NoDup_cons in Hn2 as [Hx2 _].
  rewrite !sum_list_with_app. simpl.
  rewrite (sum_list_with_ext f g l1), (sum_list_with_ext f g l2); [lia|..].
  - intros y Hy. apply He. by intros ->.
  - intros y Hy. apply He. intros ->. by destruct (Hd x Hy); left.
Qed.

Lemma cost_stable w w' : stable w w' → cost w' = cost w.
Proof.
  intros Hs. unfold cost. rewrite (stable_slots _ _ Hs). apply sum_list_with_ext.
  intros p _. by rewrite (stable_coro _ _ _ Hs).
Qed.

Lemma cost_touched w w' p c c' :
  winv w → p ∈ slots w → touched w w' p c c' →
  cost w' + coro_cost (Some c) = cost w + coro_cost (Some c').
Proof.
  intros Hw Hp Ht. unfold cost. rewrite (touched_slots _ _ _ _ _ Ht).
  pose proof (sum_list_with_update (λ q, coro_cost (coro w' q)) (λ q, coro_cost (coro w q)) (slots w) p
    (wi_nodup _ Hw) Hp) as H. cbn beta in H.
  rewrite (touched_coro _ _ _ _ _ p Ht), decide_True, (to_coro _ _ _ _ _ Ht) in H by done.
  apply H. intros q Hq. rewrite (touched_coro _ _ _ _ _ q Ht). by rewrite decide_False.
Qed.

Lemma cost_started w w' t th p c :
  winv w → started w w' t th p c → cost w' = coro_cost (Some c) + cost w.
Proof.
  intros Hw Hs. unfold cost. rewrite (started_slots _ _ _ _ _ _ Hs). simpl.
  rewrite (started_coro _ _ _ _ _ _ p Hs), decide_True by done. f_equal. apply sum_list_with_ext.
  intros q Hq. rewrite (started_coro _ _ _ _ _ _ q Hs), decide_False; [done|].
  intros ->. destruct (wi_heap _ Hw p Hq) as [d Hd].
  rewrite (started_new _ _ _ _ _ _ Hw Hs) in Hd. done.
Qed.

End Measure.

(** ** Fuel

    A larger fuel gives the same result where a smaller one gives any. *)
Section Fuel.
Context `{TT : TargetTypes, TC : !TargetCode, RN : Random, TO : !TargetObject}.
Context {B X : Type} (vo : VerifierOps B) (ops : StrategyOps (World B X)).

Lemma run_loop_extends max_tasks fuel fuel' st :
  fuel ≤ fuel' → extends (run_loop vo ops max_tasks fuel st) (run_loop vo ops max_tasks fuel' st).
Proof.
  revert fuel' st. induction fuel as [|fuel IH]; intros [|fuel'] st Hle; try lia; [by intros w; left..|]. simpl.
  apply extends_bind; [apply extends_refl|]. intros [d|]; [apply extends_refl|].
  apply extends_bind; [apply extends_refl|]. intros [[]|s b t]; try apply extends_refl;
    (apply extends_bind; [apply extends_refl|]; intros ?; apply IH; lia).
Qed.

Lemma explore_loop_extends {Event} (eo : EventOps (World B X) Event) fuel fuel' n st :
  fuel ≤ fuel' → extends (explore_loop vo ops eo fuel n st) (explore_loop vo ops eo fuel' n st).
Proof.
  revert fuel' n st. induction fuel as [|fuel IH]; intros [|fuel'] [|n] st Hle; try lia;
    try (apply extends_refl); [by intros w; left|]. simpl.
  apply extends_bind; [apply extends_refl|]. intros [[]|s b t]; try apply extends_refl.
  apply extends_bind; [apply extends_refl|]. intros [[] st']; [|apply extends_refl]. simpl.
  apply extends_bind; [apply extends_refl|]. intros out. apply IH. lia.
Qed.

Lemma ExploreRound_extends {Event} (eo : EventOps (World B X) Event) policy fuel fuel' runs :
  fuel ≤ fuel' → extends (ExploreRound vo ops eo policy fuel runs) (ExploreRound vo ops eo policy fuel' runs).
Proof.
  intros Hle. induction runs as [|runs IH]; [apply extends_refl|]. simpl.
  apply extends_bind; [apply extends_refl|]. intros _. apply extends_bind; [apply extends_refl|]. intros n.
  apply extends_bind; [by apply explore_loop_extends|]. intros r.
  apply extends_bind; [apply extends_refl|]. intros [bad|]; [apply extends_refl|done].
Qed.

Lemma RunRound_extends checker max_tasks runs policy fuel fuel' :
  fuel ≤ fuel' →
  extends (RunRound vo ops checker max_tasks runs policy fuel) (RunRound vo ops checker max_tasks runs policy fuel').
Proof.
  intros Hle. unfold RunRound. apply extends_bind; [apply extends_refl|]. intros _.
  apply extends_bind; [by apply run_loop_extends|]. intros [[[] st]|]; [|apply extends_refl..].
  destruct policy; try apply extends_refl;
    (apply extends_bind; [apply extends_refl|]; intros [bad|]; [apply extends_refl|by apply ExploreRound_extends]).
Qed.
End Fuel.

Section RunRound.
Context `{TT : TargetTypes, TC : !TargetCode, RN : Random, TO : !TargetObject, PT : !PlainTarget}.
Context {B X : Type} (vo : VerifierOps B) `{VT : !VerifierTotal vo}.
Abbreviation W := (World B X).
Context (ops : StrategyOps W) (sinv : X → nat → Prop) `{NL : !NextLaws ops sinv}.
Context {St : Type} (methods : MethodMap St Args Value) (veq : Value → Value → bool) (s0 : St).
Context (checker : list (HistoryEvent Args Value) → outcome bool).
Context `{MC : !ModelChecker methods veq s0 checker}.
Context (max_tasks num_threads : nat).
Implicit Types (w : W) (p : nat) (s : Slot) (c : Coro) (st : run_st).
Abbreviation known := (λ n, is_Some (methods !! n)).
Abbreviation explained w seq := (linearizable methods veq task_ref (history_view w seq) s0).

(** The invariant of a world between two rounds, and in one. *)
Record ready w : Prop := {
  rd_winv : winv w;
  rd_no_os : no_os w;
  rd_sinv : sinv (ext w) (length (threads (base w)));
  rd_names : names_in known w;
}.

Lemma ready_stable w w' :
  stable w w' → sinv (ext w') (length (threads (base w'))) → ready w → ready w'.
Proof.
  intros Hs Hx [Hw Ho _ Hn]. split; [by eapply stable_winv|by eapply stable_no_os|done|by eapply stable_names].
Qed.

Lemma ready_stable_ext w w' : stable w w' → ext w' = ext w → ready w → ready w'.
Proof.
  intros Hs He Hr. apply (ready_stable w); [done| |done]. rewrite He, (st_threads _ _ Hs). apply Hr.
Qed.

Lemma ready_touched w w' p c c' : touched w w' p c c' → ready w → ready w'.
Proof.
  intros Ht [Hw Ho Hx Hn]. split; [by eapply touched_winv|by eapply touched_no_os| |by eapply touched_names].
  rewrite (to_ext _ _ _ _ _ Ht), (to_base _ _ _ _ _ Ht). done.
Qed.

Lemma ready_started w w' t th p c :
  started w w' t th p c → sinv (ext w') (length (threads (base w'))) → ready w → ready w'.
Proof.
  intros Hs Hx [Hw Ho _ Hn]. split; [by eapply started_winv| |done|by eapply started_names].
  destruct Ho, Hs. split; congruence.
Qed.

(** The invariant of the loop: every task was invoked, and answered iff it
    has returned; nothing is ever appended to the full history. *)
Record running w st : Prop := {
  rn_ready : ready w;
  rn_recorded : recorded w (rn_seq st);
  rn_invoked s : is_Some (slot_ptr w s) → ∃ u, EvInvoke s u ∈ rn_seq st;
  rn_answered s c : slot_coro w s = Some c → co_returned c = true → ∃ v u, EvResponse s v u ∈ rn_seq st;
  rn_count : rn_started st = length (slots w);
  rn_bound : rn_started st ≤ max_tasks;
  rn_no_full : rn_full st = [];
  rn_schedule : length (threads (base w)) ≤ length (round_schedule (base w));
  rn_threads : length (threads (base w)) = num_threads;
  rn_threads_count : threads_count (base w) = num_threads;
}.

Lemma running_stable w w' st :
  stable w w' → sinv (ext w') (length (threads (base w'))) → running w st → running w' st.
Proof.
  intros Hs Hx [Hr Hrec Hi Ha Hc Hb Hf Hl Hth Hct]. split; try done.
  - by eapply ready_stable.
  - by eapply recorded_stable.
  - intros s. rewrite (stable_slot_ptr _ _ _ Hs). apply Hi.
  - intros s c. rewrite (stable_slot_coro _ _ _ Hs). apply Ha.
  - by rewrite (stable_slots _ _ Hs).
  - by rewrite (st_threads _ _ Hs), (st_schedule _ _ Hs).
  - by rewrite (st_threads _ _ Hs).
  - by rewrite (st_count _ _ Hs).
Qed.

(** All tasks have returned. *)
Definition all_returned w : Prop := ∀ s c, slot_coro w s = Some c → co_returned c = true.

Lemma running_complete w st : running w st → all_returned w → ¬ pending (rn_seq st).
Proof.
  intros Hr Hall (s&t&Hin&Hno). destruct (rc_slot _ _ (rn_recorded _ _ Hr) _ Hin) as [p Hp].
  simpl in Hp. destruct (winv_slot _ _ _ (rd_winv _ (rn_ready _ _ Hr)) Hp) as [c Hc].
  assert (slot_coro w s = Some c) as Hsc by (apply slot_coro_Some; eauto).
  destruct (rn_answered _ _ Hr s c Hsc (Hall s c Hsc)) as (v&u&Hv). by destruct (Hno v u).
Qed.

(** [GetUnfinishedAndRunnable] over all tasks, when none is removed. *)
Lemma hoare_unfinished fuel ps acc (Q : bool * bool → W → Prop) w :
  winv w → removed_tasks (base w) = ∅ → (∀ p, p ∈ ps → p ∈ slots w) →
  (∀ r w', stable w w' → ext w' = ext w →
     (r.1 = false → acc = false ∧ ∀ p, p ∈ ps → returned w p = true) →
     (r.1 = true → acc = true ∨ ∃ p, p ∈ ps ∧ returned w p = false) →
     (r.2 = false → ∀ p, p ∈ ps → returned w p = true ∨ blocked w p = true) → Q r w') →
  hoare fuel (unfinished_and_runnable None ps acc) Q w.
Proof.
  revert acc w. induction ps as [|p ps IH]; intros acc w Hw Hrm Hps HQ; simpl.
  { msteps. apply HQ; [done|done|set_solver|by left|set_solver]. }
  destruct (wi_heap _ Hw p) as [c Hc]; [by apply Hps; left|].
  mstep. apply hoare_get_coro with c; [done|]. unfold IsTaskRemoved. msteps.
  rewrite Hrm, bool_decide_eq_false_2 by apply not_elem_of_empty. simpl.
  destruct (co_returned c) eqn:Hret; simpl.
  - apply IH; [done..|set_solver|]. intros r w' Hs He H1 H3 H2. apply HQ; [done..| | |].
    + intros ?%H1. split; [naive_solver|]. intros q [->|]%elem_of_cons; [|naive_solver].
      unfold returned. by rewrite Hc.
    + intros [|(q&?&?)]%H3; [by left|]. right. exists q. split; [by right|done].
    + intros Hr q [->|]%elem_of_cons; [|by apply H2]. left. unfold returned. by rewrite Hc.
  - mstep. apply hoare_IsBlocked; [by eauto|]. intros w1 Hs1 He1. destruct (blocked w p) eqn:Hb.
    + apply IH; [by eapply stable_winv|by rewrite (st_removed _ _ Hs1)| |].
      { intros q Hq. rewrite (stable_slots _ _ Hs1). apply Hps. by right. }
      intros r w' Hs He H1 H3 H2. apply HQ; [by etrans|congruence| | |].
      * intros [? _]%H1. done.
      * intros _. right. exists p. split; [by left|]. unfold returned. by rewrite Hc.
      * intros Hr q [->|Hq]%elem_of_cons; [by right|].
        rewrite <-(stable_returned _ _ _ Hs1), <-(stable_blocked _ _ _ Hs1). by apply H2.
    + msteps. apply HQ; [done..| |done]. intros _. right. exists p. split; [by left|].
      unfold returned. by rewrite Hc.
Qed.

Section Loop.
(** Whether the code under test is bounded is a parameter: if it is, the loop
    does not run out of fuel. *)
Context (rank : Fiber → nat) (K : nat) (R : Prop) (HR : R → RankLaws rank K).

Definition measure w st : nat := (max_tasks - rn_started st) * (K + 2) + cost rank w.

Lemma hoare_update fuel t h (Q : list SchedEvent * list Slot → W → Prop) w :
  no_os w → sinv (ext w) (length (threads (base w))) → Q h w →
  hoare fuel (so_UpdateSimulatorState ops t h) Q w.
Proof. intros Ho Hx HQ. unfold hoare. by rewrite nl_update. Qed.

(** A slice of an unfinished task: what it does to the world. *)
Lemma hoare_run_slice fuel st s t p c f (is_new : bool) (Q : run_st → W → Prop) w :
  ready w → slot_ptr w s = Some p → coro w p = Some c → co_returned c = false → co_ctx c = Some f →
  (∀ w2 w3 c', sliced w w2 p c f c' → stable w2 w3 → ext w3 = ext w2 →
     Q (mkRun ((if is_new then rn_seq st ++ [EvInvoke s (Z.of_nat t)] else rn_seq st) ++
               if co_returned c' then [EvResponse s (co_ret c') (Z.of_nat t)] else [])
          (rn_full st) (if is_new then S (rn_started st) else rn_started st)) w3) →
  hoare fuel (run_slice vo ops st s is_new t) Q w.
Proof.
  intros Hr Hs Hc Hret Hctx HQ. unfold run_slice. mstep. eapply hoare_task_at; [done|].
  mstep. eapply hoare_touch; [done|done| |]. { simpl. by rewrite Hctx. }
  intros w1 Ht1. mstep.
  assert (coro w1 p = Some (clearWakeupCondition c)) as Hc1.
  { rewrite (touched_coro _ _ _ _ _ p Ht1). by rewrite decide_True. }
  eapply hoare_Resume; [done..|]. intros w2 c' [Ht2 Hy].
  assert (touched w w2 p c c') as Ht by by eapply touched_trans.
  pose proof (ready_touched _ _ _ _ _ Ht Hr) as Hr2. mstep.
  apply hoare_update; [apply Hr2..|]. assert (sliced w w2 p c f c') as Hsl by done.
  assert (slot_ptr w2 s = Some p) as Hs2 by by rewrite (touched_slot _ _ _ _ _ _ Ht).
  assert (coro w2 p = Some c') as Hc2.
  { rewrite (touched_coro _ _ _ _ _ p Ht). by rewrite decide_True. }
  mstep. eapply hoare_coro_at; [done..|]. specialize (HQ w2). destruct (co_returned c') eqn:Hret'.
  - mstep. eapply hoare_OnVerifierTaskFinish; [done..|]. intros w3 Hs3 He3. mstep.
    unfold on_rt, Runtime.GetRetVal, get_coro. msteps.
    apply hoare_deref with c'; [by rewrite (st_heap _ _ Hs3)|]. rewrite Hret'. mstep.
    apply hoare_assert; [done|]. msteps. rewrite set_rt_self.
    specialize (HQ w3 c' Hsl). rewrite Hret' in HQ. by apply HQ.
  - msteps. specialize (HQ w2 c' Hsl). rewrite Hret', app_nil_r in HQ. by apply HQ.
Qed.

(** The slice decreases the cost. *)
Lemma sliced_cost w w2 p c f c' :
  R → winv w → p ∈ slots w → sliced w w2 p c f c' → co_returned c = false → co_ctx c = Some f →
  cost rank w2 < cost rank w.
Proof.
  intros HRR Hw Hp [Ht Hy] Hret Hctx. pose proof (cost_touched rank _ _ _ _ _ Hw Hp Ht) as Hcost.
  simpl in Hcost. rewrite Hret, Hctx in Hcost. destruct (co_returned c'); [lia|].
  destruct (Hy eq_refl) as (r&t&f'&Hrun&Hf'). rewrite Hf' in Hcost.
  pose proof (HR HRR). pose proof (rk_run f r t f' Hrun). lia.
Qed.

(** A task that was invoked runs one slice. *)
Lemma running_slice w w2 w3 st seq p c f c' s u t full :
  running w (mkRun seq full (rn_started st)) →
  slot_ptr w s = Some p → coro w p = Some c → co_returned c = false →
  sliced w w2 p c f c' → stable w2 w3 → ext w3 = ext w2 → EvInvoke s u ∈ seq →
  running w3 (mkRun (seq ++ if co_returned c' then [EvResponse s (co_ret c') t] else []) full (rn_started st)).
Proof.
  intros [Hr Hrec Hi Ha Hc Hb Hf Hl Hth Hct] Hs Hcp Hret [Ht _] Hst He Hin. simpl in *.
  assert (slot_coro w2 s = Some c') as Hsc'.
  { apply slot_coro_Some. exists p. rewrite (touched_slot _ _ _ _ _ _ Ht), (touched_coro _ _ _ _ _ p Ht).
    by rewrite decide_True. }
  assert (slot_coro w s = Some c) as Hsc by (apply slot_coro_Some; eauto).
  assert (recorded w2 seq) as Hrec2 by by eapply recorded_touched.
  assert (ready w2) as Hr2 by by eapply ready_touched.
  apply (running_stable w2); [done| |].
  { rewrite He, (st_threads _ _ Hst). apply Hr2. }
  split; simpl; try done.
  - destruct (co_returned c') eqn:Hret'; [|by rewrite app_nil_r].
    eapply recorded_response; [done..|by eauto|]. intros v u' Hv. by eapply (recorded_unanswered w s c seq v u').
  - intros s'. rewrite (touched_slot _ _ _ _ _ _ Ht). intros (u'&Hu')%Hi. exists u'. set_solver.
  - intros s' d (q&Hq&Hd)%slot_coro_Some Hret'. rewrite (touched_slot _ _ _ _ _ _ Ht) in Hq.
    rewrite (touched_coro _ _ _ _ _ q Ht) in Hd. case_decide as Hqp.
    + subst q. injection Hd as <-. rewrite Hret'. exists (co_ret c'), t.
      assert (s' = s) as -> by exact (task_slot_inj _ _ _ _ (rd_winv _ Hr) Hq Hs). set_solver.
    + destruct (Ha s' d) as (v&u'&?); [by apply slot_coro_Some; eauto|done|]. exists v, u'. set_solver.
  - by rewrite (touched_slots _ _ _ _ _ Ht).
  - by rewrite (to_base _ _ _ _ _ Ht).
  - by rewrite (to_base _ _ _ _ _ Ht).
  - by rewrite (to_base _ _ _ _ _ Ht).
Qed.

Lemma running_started w w1 t th p c st :
  running w st → started w w1 t th p c → sinv (ext w1) (length (threads (base w1))) →
  rn_started st < max_tasks →
  running w1 (mkRun (rn_seq st ++ [EvInvoke (t, length th) (Z.of_nat t)]) (rn_full st) (S (rn_started st))).
Proof.
  intros [Hr Hrec Hi Ha Hc Hb Hf Hl Hth Hct] Hst Hx Hlt. pose proof (rd_winv _ Hr) as Hw. split; simpl; try done.
  - by eapply ready_started.
  - by eapply recorded_started.
  - intros s. rewrite (started_slot _ _ _ _ _ _ _ Hst). case_decide as Hs.
    + subst s. intros _. eexists. apply elem_of_app. right. by apply list_elem_of_singleton.
    + intros (u&Hu)%Hi. exists u. set_solver.
  - intros s d (q&Hq&Hd)%slot_coro_Some Hret. rewrite (started_slot _ _ _ _ _ _ _ Hst) in Hq.
    rewrite (started_coro _ _ _ _ _ _ _ Hst) in Hd.
    destruct (decide (s = (t, length th))) as [->|Hs].
    + injection Hq as <-. rewrite decide_True in Hd by done. injection Hd as <-.
      rewrite (sd_returned _ _ _ _ _ _ Hst) in Hret. done.
    + rewrite decide_False in Hd.
      * destruct (Ha s d) as (v&u&?); [by apply slot_coro_Some; eauto|done|]. exists v, u. set_solver.
      * intros ->. apply slot_in in Hq. destruct (wi_heap _ Hw p Hq) as [d' Hd'].
        rewrite (started_new _ _ _ _ _ _ Hw Hst) in Hd'. done.
  - rewrite (started_slots _ _ _ _ _ _ Hst). simpl. lia.
  - by rewrite (sd_threads _ _ _ _ _ _ Hst), (sd_schedule _ _ _ _ _ _ Hst), length_insert.
  - by rewrite (sd_threads _ _ _ _ _ _ Hst), length_insert.
  - by rewrite (sd_count _ _ _ _ _ _ Hst).
Qed.

(** What the loop leaves behind. *)
Definition loop_post (r : option (bool * run_st)) w : Prop :=
  ∃ d st, r = Some (d, st) ∧ running w st ∧
    if (d : bool) then rn_started st = max_tasks → ¬ all_returned w
    else all_returned w ∧ rn_started st = max_tasks.

Lemma running_set_allow v w st : running w st → running (upd_base (set_allow v) w) st.
Proof.
  intros [[[] Ho Hx Hn] [] Hi Ha Hc Hb Hf Hl Hth Hct]. split; [split; [split|..]|split|..]; assumption.
Qed.

(** The start of an iteration: new tasks are stopped once there are enough. *)
Lemma hoare_round_over fuel st (Q : option bool → W → Prop) w :
  running w st → removed_tasks (base w) = ∅ →
  (∀ d w', running w' st → removed_tasks (base w') = ∅ →
     (if (d : bool) then rn_started st = max_tasks → ¬ all_returned w'
      else all_returned w' ∧ rn_started st = max_tasks) → Q (Some d) w') →
  (∀ w', running w' st → removed_tasks (base w') = ∅ → cost rank w' = cost rank w →
     (rn_started st = max_tasks → allow_new_tasks_ (base w') = false ∧ ¬ all_returned w') → Q None w') →
  hoare fuel (round_over max_tasks (rn_started st)) Q w.
Proof.
  intros Hrun Hrm Hover Hgo. pose proof (rn_bound _ _ Hrun) as Hb. unfold round_over.
  destruct (Nat.leb_spec max_tasks (rn_started st)) as [Hle|Hlt].
  2:{ msteps. apply Hgo; [done..|lia]. }
  unfold SetAllowNewTasks, GetUnfinishedAndRunnable. msteps.
  pose proof (running_set_allow false _ _ Hrun) as Hrun1.
  apply hoare_unfinished; [apply Hrun1|done|done|]. intros [u r] w2 Hs2 He2 Hu Hu' _. simpl in Hu, Hu'.
  assert (running w2 st) as Hrun2.
  { apply (running_stable (upd_base (set_allow false) w)); [done| |done].
    rewrite He2, (st_threads _ _ Hs2). apply Hrun1. }
  assert (removed_tasks (base w2) = ∅) as Hrm2 by by rewrite (st_removed _ _ Hs2).
  assert (u = true → ¬ all_returned w2) as Hun.
  { intros Hu2 Hall. destruct (Hu' Hu2) as [|(p&Hin&Hp)]; [done|].
    destruct (slots_in _ _ Hin) as [s Hs]. destruct (winv_slot _ _ _ (rd_winv _ (rn_ready _ _ Hrun1)) Hs) as [c Hc].
    assert (slot_coro w2 s = Some c) as Hsc.
    { rewrite (stable_slot_coro _ _ _ Hs2). apply slot_coro_Some. eauto. }
    specialize (Hall s c Hsc). unfold returned in Hp. rewrite Hc in Hp. congruence. }
  msteps. simpl. destruct u; simpl.
  - destruct r; simpl; [|by apply Hover; auto]. apply Hgo; [done..| |].
    + by rewrite (cost_stable rank _ _ Hs2).
    + intros _. split; [by rewrite (st_allow _ _ Hs2)|by apply Hun].
  - apply Hover; [done..|]. split; [|lia]. intros s c (p&Hp&Hc)%slot_coro_Some.
    destruct (Hu eq_refl) as [_ Hall]. rewrite (stable_slot_ptr _ _ _ Hs2) in Hp.
    rewrite (stable_coro _ _ _ Hs2) in Hc. specialize (Hall p (slot_in _ _ _ Hp)).
    unfold returned in Hall. by rewrite Hc in Hall.
Qed.

Lemma hoare_run_loop fuel st w :
  running w st → removed_tasks (base w) = ∅ →
  hoare (R → fuel ≤ measure w st) (run_loop vo ops max_tasks fuel st)
    (λ r w', loop_post r w' ∧ removed_tasks (base w') = ∅) w.
Proof.
  revert st w. induction fuel as [|fuel IH]; intros st w Hrun Hrm; [unfold hoare; simpl; lia|].
  pose proof (rn_bound _ _ Hrun) as Hbound. simpl. mstep.
  apply hoare_round_over; [done..| |].
  { intros d w' Hrun' Hrm' Hd. msteps. split; [|done]. by exists d, st. }
  intros w1 Hrun1 Hrm1 Hcost1 Hallow1. pose proof (rn_ready _ _ Hrun1) as Hr1.
  assert (measure w1 st = measure w st) as Hm1 by (unfold measure; lia).
  mstep. apply (hoare_fuel False); [|intros []]. eapply hoare_weaken; [apply nl_next; apply Hr1|].
  intros r w2 [Hpost Hx2]. destruct r as [[]|s is_new t]; simpl in Hpost; [|done|done|].
  { msteps. split; [|by rewrite (st_removed _ _ Hpost)].
    exists true, st. split_and!; [done|by eapply running_stable|]. intros [_ Hno]%Hallow1 Hall. apply Hno.
    intros s c Hc. apply (Hall s c). by rewrite (stable_slot_coro _ _ _ Hpost). }
  (* the slice that follows *)
  assert (∀ st2 p c f u, running w2 st2 → removed_tasks (base w2) = ∅ →
    rn_seq st2 = (if is_new then rn_seq st ++ [EvInvoke s (Z.of_nat t)] else rn_seq st) →
    rn_full st2 = rn_full st → rn_started st2 = (if is_new then S (rn_started st) else rn_started st) →
    slot_ptr w2 s = Some p → coro w2 p = Some c → co_returned c = false → co_ctx c = Some f →
    EvInvoke s u ∈ rn_seq st2 → (R → measure w2 st2 ≤ measure w st) →
    hoare (R → S fuel ≤ measure w st)
      (st0 ← run_slice vo ops st s is_new t; run_loop vo ops max_tasks fuel st0)
      (λ r w', loop_post r w' ∧ removed_tasks (base w') = ∅) w2) as Hslice.
  { intros st2 p c f u Hrun2 Hrm2 Eseq Efull Est Hs Hc Hret Hf Hin Hm. mstep.
    eapply hoare_run_slice; [apply Hrun2|done..|]. intros w3 w4 c' Hsl Hs4 He4.
    rewrite <-Eseq, <-Efull, <-Est. pose proof (rn_ready _ _ Hrun2) as Hr2.
    eapply hoare_fuel.
    - apply IH.
      + eapply (running_slice w2); [by destruct st2|done..].
      + destruct Hsl as [Ht _]. by rewrite (st_removed _ _ Hs4), (to_base _ _ _ _ _ Ht).
    - intros Hfuel HRR. specialize (Hfuel HRR). specialize (Hm HRR).
      assert (cost rank w3 < cost rank w2) as Hlt.
      { eapply sliced_cost; [done|apply Hr2|by eapply slot_in|done..]. }
      unfold measure in Hm, Hfuel |- *. simpl in *. rewrite (cost_stable rank _ _ Hs4) in Hfuel. lia. }
  destruct is_new.
  - destruct Hpost as (<-&Ha1&th&p&c&Hlen&Hfree&Hst). destruct s as [t i]; simpl in *; subst i.
    assert (rn_started st < max_tasks) as Hlt.
    { destruct (decide (rn_started st = max_tasks)) as [E|]; [|lia]. destruct (Hallow1 E) as [Ha _]. congruence. }
    eapply (Hslice (mkRun _ _ _) p c); try done.
    + by eapply running_started.
    + by rewrite (sd_removed _ _ _ _ _ _ Hst).
    + rewrite (started_slot _ _ _ _ _ _ _ Hst). by rewrite decide_True.
    + rewrite (started_coro _ _ _ _ _ _ _ Hst). by rewrite decide_True.
    + apply Hst.
    + apply Hst.
    + simpl. apply elem_of_app. right. by apply list_elem_of_singleton.
    + intros HRR. pose proof (HR HRR). rewrite <-Hm1. unfold measure. simpl.
      rewrite (cost_started rank _ _ _ _ _ _ (rd_winv _ Hr1) Hst). simpl.
      rewrite (sd_returned _ _ _ _ _ _ Hst), (sd_ctx _ _ _ _ _ _ Hst).
      pose proof (rk_new (co_func c) (co_this c) (co_args c)). nia.
  - destruct Hpost as (<-&Hs2&p&c&Hp&Hc&Hret&_). rewrite <-(stable_slot_ptr _ _ _ Hs2) in Hp.
    rewrite <-(stable_coro _ _ _ Hs2) in Hc.
    assert (running w2 st) as Hrun2 by by eapply running_stable.
    destruct (wi_ctx _ (rd_winv _ (rn_ready _ _ Hrun2)) p c) as [f Hf]; [by eapply slot_in|done..|].
    destruct (rn_invoked _ _ Hrun2 s) as [u Hu]; [by rewrite Hp|].
    eapply (Hslice st p c f u); try done.
    + by rewrite (st_removed _ _ Hs2).
    + unfold measure in *. rewrite (cost_stable rank _ _ Hs2). lia.
Qed.

End Loop.

(** ** The result of a round *)

(** A world from which a round is generated. *)
Record fresh_round w : Prop := {
  fr_ready : ready w;
  fr_empty : slots w = [];
  fr_removed : removed_tasks (base w) = ∅;
  fr_schedule : length (threads (base w)) ≤ length (round_schedule (base w));
  fr_threads : length (threads (base w)) = num_threads;
  fr_threads_count : threads_count (base w) = num_threads;
}.

Lemma fresh_round_running w : fresh_round w → running (upd_base (set_allow true) w) (mkRun [] [] 0).
Proof.
  intros [Hr He _ Hl Hth Hct]. apply running_set_allow. split; simpl; try done.
  - apply recorded_nil.
  - intros s [p Hp]. apply slot_in in Hp. rewrite He in Hp. by apply not_elem_of_nil in Hp.
  - intros s c (p&Hp&_)%slot_coro_Some. apply slot_in in Hp. rewrite He in Hp. by apply not_elem_of_nil in Hp.
  - by rewrite He.
  - lia.
Qed.

(** What [RunRound] reports of the history [rn_seq st] that it recorded. *)
Definition round_result (policy : DeadlockPolicy) (res : Result SchedEvent) w : Prop :=
  ∃ st, running w st ∧
  match res with
  | Some bad =>
      nl_seq bad = rn_seq st ∧ nl_full bad = [] ∧
      match nl_reason bad with
      | NON_LINEARIZABLE_HISTORY => ¬ explained w (rn_seq st)
      | DEADLOCK_FOUND => policy = PolicyFail ∧ pending (rn_seq st)
      | ASSERT_FAILURE => False
      end
  | None =>
      explained w (rn_seq st) ∨
      (policy = PolicyFail ∧ rn_started st < max_tasks ∧ ¬ pending (rn_seq st))
  end.

Lemma running_pending w st : running w st → ¬ all_returned w → ¬ ¬ pending (rn_seq st).
Proof.
  intros Hr Hn Hp. apply Hn. intros s c Hc. destruct (co_returned c) eqn:Hret; [done|].
  destruct Hp. pose proof Hc as (p&Hs&_)%slot_coro_Some. destruct (rn_invoked _ _ Hr s) as [u Hu]; [by rewrite Hs|].
  exists s, u. split; [done|]. intros v u'. by eapply recorded_unanswered; [apply Hr|..].
Qed.

Section Result.
Context (exploration_runs : nat) (policy : DeadlockPolicy).
Context (rank : Fiber → nat) (K : nat) (R : Prop) (HR : R → RankLaws rank K).

(** A deadlock that the policy tells to explore is left to [ExploreRound]. *)
Lemma hoare_RunRound_explore fuel (Q : Result SchedEvent → W → Prop) w :
  fresh_round w →
  (∀ res w', round_result policy res w' → removed_tasks (base w') = ∅ → Q res w') →
  (∀ w' st, policy ≠ PolicyFail → policy ≠ PolicyCheck →
     running w' st → removed_tasks (base w') = ∅ → explained w' (rn_seq st) →
     (rn_started st = max_tasks → ¬ all_returned w') →
     hoare (R → fuel ≤ max_tasks * (K + 2))
       (ExploreRound vo ops (ordinary_events checker ops) policy fuel exploration_runs) Q w') →
  hoare (R → fuel ≤ max_tasks * (K + 2))
    (RunRound vo ops checker max_tasks exploration_runs policy fuel) Q w.
Proof.
  intros Hf HQ Hexp. unfold RunRound, SetAllowNewTasks. mstep. mstep.
  pose proof (fresh_round_running w Hf) as Hrun. mstep.
  assert (measure rank K (upd_base (set_allow true) w) (mkRun [] [] 0) = max_tasks * (K + 2)) as Hm.
  { unfold measure, cost. simpl. change (slots (upd_base (set_allow true) w)) with (slots w).
    rewrite (fr_empty _ Hf). simpl. lia. }
  eapply hoare_weaken; [rewrite <-Hm; apply (hoare_run_loop rank K R HR); [done|apply Hf]|].
  intros r w1 [(d&st&->&Hrun1&Hd) Hrm]. pose proof (rn_ready _ _ Hrun1) as [Hw1 _ _ Hn1].
  pose proof (rn_recorded _ _ Hrun1) as Hrec.
  assert (∀ Q : Result SchedEvent → W → Prop,
    (explained w1 (rn_seq st) → Q None w1) →
    (¬ explained w1 (rn_seq st) → Q (Some (mkBad [] (rn_seq st) NON_LINEARIZABLE_HISTORY)) w1) →
    hoare (R → fuel ≤ max_tasks * (K + 2)) (verdict (ordinary_events checker ops) (rn_full st) (rn_seq st)) Q w1)
    as Hverdict.
  { intros P HP HP'. rewrite (rn_no_full _ _ Hrun1). by apply (hoare_verdict methods veq s0). }
  assert (explained w1 (rn_seq st) → Q None w1) as Hok.
  { intros He. apply HQ; [|done]. exists st. split; [done|by left]. }
  assert (¬ explained w1 (rn_seq st) → Q (Some (mkBad [] (rn_seq st) NON_LINEARIZABLE_HISTORY)) w1) as Hbad.
  { intros He. apply HQ; [|done]. by exists st. }
  destruct d; [|by apply Hverdict]. destruct policy eqn:Hp.
  - mstep. apply (hoare_IsReportable methods veq s0 checker ops); [done|exact (rc_slot _ _ Hrec)|]. intros b Hb.
    msteps. apply HQ; [|done]. exists st. split; [done|]. rewrite (rn_no_full _ _ Hrun1). destruct b.
    + split_and!; [done|done|]. split; [done|by apply Hb].
    + right. assert (¬ pending (rn_seq st)) as Hpe by (by intros ?%Hb). split_and!; [done| |done].
      pose proof (rn_bound _ _ Hrun1). destruct (decide (rn_started st = max_tasks)) as [E|]; [|lia].
      destruct (running_pending _ _ Hrun1 (Hd E) Hpe).
  - mstep. apply Hverdict; intros He; msteps; auto.
  - mstep. apply Hverdict; intros He; [|msteps; auto]. by eapply Hexp.
  - mstep. apply Hverdict; intros He; [|msteps; auto]. by eapply Hexp.
Qed.

Lemma hoare_RunRound fuel w :
  policy = PolicyFail ∨ policy = PolicyCheck → fresh_round w →
  hoare (R → fuel ≤ max_tasks * (K + 2))
    (RunRound vo ops checker max_tasks exploration_runs policy fuel)
    (λ res w', round_result policy res w' ∧ removed_tasks (base w') = ∅) w.
Proof.
  intros Hp Hf. apply hoare_RunRound_explore; [done..|]. intros w' st ?? _ _ _ _. naive_solver.
Qed.

End Result.
End RunRound.
