(* ===== verification/StrategyLaws.v ===== *)
(** * The strategies keep the laws of a round

    [RoundRobinStrategy], [RandomStrategy] and [PctStrategy] implement the
    interface [NextLaws] that a generated round is verified against. *)
From stdpp Require Import base list gmap strings.
From Stdlib Require Import ZArith.
From S2P Require Import Prelude Effects BlockManager Runtime Verifier Strategy Strategies.
From S2P Require Import WorldInv Choosing Slices RoundCorrect.

Open Scope nat_scope.

(** What the code relies on of the random number library. *)
Class RandomLaws `{RN : Random} : Prop := {
  #[global] random_shuffle :: ShuffleLaws;
  discrete_lt r ws : ws ≠ [] → (discrete_distribution r ws).1 < length ws;
  uniform_in r a b : (a ≤ b → a ≤ (uniform_int_distribution r a b).1 ≤ b)%Z;
}.

(** What a picking strategy promises of [Pick]. *)
Class PickLaws `{TT : TargetTypes, TC : !TargetCode, RN : Random} {B X : Type} (vo : VerifierOps B)
    (pick : M (World B X) (option nat)) (sinv : X → nat → Prop) : Prop := {
  pl_pick w :
    winv w → no_os w → sinv (ext w) (length (threads (base w))) →
    wp pick (λ o w', stable w w' ∧ sinv (ext w') (length (threads (base w'))) ∧
                     ∀ t, o = Some t → pick_ok vo w' t) w;
}.

Section Pick.
Context `{TT : TargetTypes, TC : !TargetCode, RN : Random, TO : !TargetObject}.
Context {B X : Type} (vo : VerifierOps B) `{VT : !VerifierTotal vo, SL : !ShuffleLaws}.
Abbreviation W := (World B X).
Implicit Types (w : W) (t : nat).

Lemma stable_pick_ok w w' t : stable w w' → pick_ok vo w' t ↔ pick_ok vo w t.
Proof.
  intros Hs. unfold pick_ok. by rewrite (st_threads _ _ Hs), (stable_may_run _ _ _ _ Hs).
Qed.

Lemma stable_next_post w w1 r w' : stable w w1 → next_post w1 r w' → next_post w r w'.
Proof.
  intros Hs. destruct r as [[]|s [] t]; simpl; try done.
  - intros Hs'. by etrans.
  - rewrite (st_allow _ _ Hs), (stable_freeb _ _ _ Hs). intros (?&?&th&p&c&?&?&?).
    split_and!; [done..|]. exists th, p, c. split_and!; [done..|]. by eapply started_stable_l.
  - intros (?&Hs'&p&c&Hp&Hc&?&Hb). split; [done|]. split; [by etrans|]. exists p, c.
    by rewrite <-(stable_slot_ptr _ _ _ Hs), <-(stable_coro _ _ _ Hs), <-(stable_blocked _ _ _ Hs).
Qed.

Lemma next_post_threads w r w' : next_post w r w' → length (threads (base w')) = length (threads (base w)).
Proof.
  destruct r as [[]|s [] t]; simpl; try done.
  - intros Hs. by rewrite (st_threads _ _ Hs).
  - intros (_&_&th&p&c&_&_&Hst). by rewrite (sd_threads _ _ _ _ _ _ Hst), length_insert.
  - intros (_&Hs&_). by rewrite (st_threads _ _ Hs).
Qed.

(** Picking a thread and starting or resuming a task of it. *)
Lemma pick_next (pick : M W (option nat)) (sinv : X → nat → Prop) `{PL : !PickLaws vo pick sinv} w :
  winv w → no_os w → sinv (ext w) (length (threads (base w))) →
  wp (t ← pick; NextVerifiedFor vo t)
    (λ r w', next_post w r w' ∧ sinv (ext w') (length (threads (base w')))) w.
Proof.
  intros Hw Ho Hx. mstep. eapply hoare_weaken; [by apply pl_pick|].
  intros o w1 (Hs&Hx1&Hok). apply hoare_NextVerifiedFor; [done..|by eapply stable_winv|done|].
  intros r w2 Hpost He. split; [by eapply stable_next_post|].
  by rewrite He, (next_post_threads _ _ _ Hpost).
Qed.

Lemma UpdateOSState_none t h w : no_os w → UpdateOSState t h w = Ret (h, w).
Proof. intros [Hi _]. unfold UpdateOSState, mbind, M_bind, get. cbn beta iota. by rewrite Hi. Qed.

#[export] Instance pick_strategy_next_laws (pick sched : M W (option nat))
    (custom : CustomRound → M W unit) (sinv : X → nat → Prop) `{PL : !PickLaws vo pick sinv} :
  NextLaws (PickStrategyOps vo pick sched custom) sinv.
Proof.
  split.
  - intros w Hw Ho Hx. by apply (pick_next pick sinv).
  - intros t h w Ho _. by apply UpdateOSState_none.
Qed.

End Pick.

(** ** Loops over the threads

    [ok] tests a thread; in a world with [pre] it passes only [good] ones. *)
Record pick_test `{TT : TargetTypes, RN : Random} {B X : Type} (pre : World B X → Prop)
    (good : World B X → nat → Prop) (ok : nat → M (World B X) bool) : Prop := {
  pt_pre w w' : stable w w' → pre w → pre w';
  pt_good w w' t : stable w w' → good w t → good w' t;
  pt_ok t w (Q : bool → World B X → Prop) : pre w → t < length (threads (base w)) →
    (∀ b w', stable w w' → ext w' = ext w → (b = true → good w t) → Q b w') → wp (ok t) Q w;
}.

Section Tests.
Context `{TT : TargetTypes, TC : !TargetCode, RN : Random, TO : !TargetObject}.
Context {B X : Type} (vo : VerifierOps B) `{VT : !VerifierTotal vo}.

Lemma set_ext_stable (x : X) (w : World B X) : stable w (set_ext x w).
Proof. by split. Qed.

Definition choosing (w : World B X) : Prop := winv w ∧ no_os w.

Lemma choosing_stable (w w' : World B X) : stable w w' → choosing w → choosing w'.
Proof. intros Hs [? ?]. split; [by eapply stable_winv|by eapply stable_no_os]. Qed.

Lemma eligible_pick_test : pick_test choosing (pick_ok vo) (eligible vo).
Proof.
  split; [apply choosing_stable|by intros; apply (stable_pick_ok vo w)|].
  intros t w Q [Hw Ho] Ht HQ. apply hoare_eligible; [done..|]. intros b w' Hs He Hb.
  apply HQ; [done..|]. intros ->. split; [done|by eapply test_result_may_run].
Qed.

Lemma eligible_verify_first_pick_test : pick_test choosing (pick_ok vo) (eligible_verify_first vo).
Proof.
  split; [apply choosing_stable|by intros; apply (stable_pick_ok vo w)|].
  intros t w Q [Hw Ho] Ht HQ. apply hoare_eligible_verify_first; [done..|]. intros b w' Hs He Hb.
  apply HQ; [done..|]. intros ->. split; [done|by eapply test_result_may_run].
Qed.
End Tests.

(** ** Round robin *)
Section RoundRobinLaws.
Context `{TT : TargetTypes, TC : !TargetCode, RN : Random, TO : !TargetObject}.
Context {B : Type}.
Implicit Types (w : World B Z).

Lemma rr_pick_loop pre good ok attempts w :
  pick_test pre good ok → pre w → attempts ≤ length (threads (base w)) →
  wp (RoundRobin.pick_loop ok attempts) (λ o w', stable w w' ∧ ∀ t, o = Some t → good w' t) w.
Proof.
  intros Hok. revert w. induction attempts as [|attempts IH]; intros w Hw Hn; simpl; [by msteps|].
  mstep. mstep. cbn beta. set (n := length (threads (base w))). mstep. mstep.
  set (cur := Z.to_nat (ext w `mod` Z.of_nat n)). set (w1 := set_ext _ w).
  assert (stable w w1) as Hs1 by apply set_ext_stable.
  assert (cur < n) as Hcur. { unfold cur. pose proof (Z.mod_pos_bound (ext w) (Z.of_nat n)). lia. }
  mstep. apply (pt_ok _ _ _ Hok); [by eapply (pt_pre _ _ _ Hok)|done|].
  intros b w2 Hs2 He2 Hb. assert (stable w w2) as Hs by by etrans. destruct b.
  - msteps. split; [done|]. intros t [= <-]. eapply (pt_good _ _ _ Hok); [exact Hs2|by apply Hb].
  - eapply hoare_weaken; [apply IH; [by eapply (pt_pre _ _ _ Hok)|rewrite (st_threads _ _ Hs); lia]|].
    intros o w3 [Hs3 Ho3]. split; [by etrans|done].
Qed.

#[export] Instance round_robin_laws (vo : VerifierOps B) `{VT : !VerifierTotal vo} :
  PickLaws vo (RoundRobin.Pick vo) (λ _ _, True).
Proof.
  split. intros w Hw Ho _. unfold RoundRobin.Pick. msteps.
  eapply hoare_weaken; [by eapply rr_pick_loop; [apply eligible_pick_test|..]|]. naive_solver.
Qed.
End RoundRobinLaws.

(** ** Random *)
Section RandomPickLaws.
Context `{TT : TargetTypes, TC : !TargetCode, RN : Random, TO : !TargetObject}.
Context {B : Type}.
Abbreviation W := (World B RandomPick.t).
Implicit Types (w : W).

(** Every thread has a weight. *)
Definition weights_inv (x : RandomPick.t) (n : nat) : Prop := n ≤ length (RandomPick.weights x).

Section Loops.
Context (pre : W → Prop) (good : W → nat → Prop) (ok : nat → M W bool) (Hok : pick_test pre good ok).

Lemma random_collect tids w :
  pre w → weights_inv (ext w) (length (threads (base w))) →
  Forall (λ t, t < length (threads (base w))) tids →
  wp (RandomPick.collect_weights ok tids)
    (λ _ w', stable w w' ∧ RandomPick.weights (ext w') = RandomPick.weights (ext w)) w.
Proof.
  revert w. induction tids as [|i tids IH]; intros w Hw Hx Ht; simpl; [by msteps|].
  apply Forall_cons in Ht as [Hi Ht]. mstep. apply (pt_ok _ _ _ Hok); [done..|].
  intros b w1 Hs1 He1 _. mstep.
  assert (∀ w2, stable w w2 → RandomPick.weights (ext w2) = RandomPick.weights (ext w) →
    wp (RandomPick.collect_weights ok tids)
      (λ _ w', stable w w' ∧ RandomPick.weights (ext w') = RandomPick.weights (ext w)) w2) as Hnext.
  { intros w2 Hs2 He2. eapply hoare_weaken; [apply IH|].
    - by eapply (pt_pre _ _ _ Hok).
    - unfold weights_inv. by rewrite He2, (st_threads _ _ Hs2).
    - by rewrite (st_threads _ _ Hs2).
    - intros [] w3 [Hs3 He3]. split; [by etrans|congruence]. }
  destruct b; [|mstep; apply Hnext; [done|by rewrite He1]].
  unfold RandomPick.set_pick_weights. mstep. mstep.
  destruct (lookup_lt_is_Some_2 (RandomPick.weights (ext w1)) i) as [x Hlx].
  { rewrite He1. unfold weights_inv in Hx. lia. }
  mstep. apply hoare_deref with x; [done|]. mstep. apply Hnext.
  - etrans; [exact Hs1|]. apply set_ext_stable.
  - simpl. by rewrite He1.
Qed.

Lemma random_nth tids num w :
  pre w → Forall (λ t, t < length (threads (base w))) tids →
  wp (RandomPick.nth_eligible ok tids num)
    (λ o w', stable w w' ∧ ext w' = ext w ∧ ∀ t, o = Some t → good w' t) w.
Proof.
  revert num w. induction tids as [|i tids IH]; intros num w Hw Ht; simpl; [by msteps|].
  apply Forall_cons in Ht as [Hi Ht]. mstep. apply (pt_ok _ _ _ Hok); [done..|].
  intros b w1 Hs1 He1 Hb.
  assert (∀ num, wp (RandomPick.nth_eligible ok tids num)
    (λ o w', stable w w' ∧ ext w' = ext w ∧ ∀ t, o = Some t → good w' t) w1) as Hnext.
  { intros num'. eapply hoare_weaken; [apply IH|].
    - by eapply (pt_pre _ _ _ Hok).
    - by rewrite (st_threads _ _ Hs1).
    - intros o w2 (Hs2&He2&Hg). split_and!; [by etrans|congruence|done]. }
  destruct b; [|apply Hnext]. destruct num as [|num]; [|apply Hnext].
  msteps. split_and!; [done..|]. intros t [= <-]. eapply (pt_good _ _ _ Hok); [done|by apply Hb].
Qed.

Lemma random_pick_by w :
  pre w → weights_inv (ext w) (length (threads (base w))) →
  wp (RandomPick.pick_by ok) (λ o w', stable w w' ∧ weights_inv (ext w') (length (threads (base w'))) ∧
    ∀ t, o = Some t → good w' t) w.
Proof.
  intros Hw Hx. unfold RandomPick.pick_by, RandomPick.set_pick_weights.
  mstep. mstep. set (w1 := set_ext _ w). assert (stable w w1) as Hs1 by apply set_ext_stable.
  mstep. mstep. mstep.
  assert (Forall (λ t, t < length (threads (base w1))) (seq 0 (length (threads (base w1))))) as Htids.
  { apply Forall_forall. intros t Ht. apply elem_of_seq in Ht. lia. }
  eapply hoare_weaken; [apply random_collect; [by eapply (pt_pre _ _ _ Hok)|done|done]|].
  intros [] w2 [Hs2 He2]. assert (stable w w2) as Hs by by etrans.
  assert (weights_inv (ext w2) (length (threads (base w2)))) as Hx2.
  { unfold weights_inv in *. by rewrite He2, (st_threads _ _ Hs). }
  mstep. mstep. destruct (RandomPick.pick_weights (ext w2)) eqn:Hp; [by msteps|].
  mstep. unfold RandomPick.draw. mstep. mstep.
  destruct (discrete_distribution _ _) as [num r]. msteps. set (w3 := upd_base _ w2).
  assert (stable w w3) as Hs3. { etrans; [exact Hs|]. by split. }
  eapply hoare_weaken; [apply random_nth; [by eapply (pt_pre _ _ _ Hok)|by rewrite (st_threads _ _ Hs3)]|].
  intros o w4 (Hs4&He4&Hg). split_and!; [by etrans| |done].
  rewrite He4, (st_threads _ _ Hs4). done.
Qed.
End Loops.

#[export] Instance random_laws (vo : VerifierOps B) `{VT : !VerifierTotal vo} :
  PickLaws vo (RandomPick.Pick vo) weights_inv.
Proof.
  split. intros w Hw Ho Hx. by eapply random_pick_by; [apply eligible_verify_first_pick_test|..].
Qed.
End RandomPickLaws.
