(* ===== verification/PctLaws.v ===== *)
(** * Probabilistic concurrency testing

    [PctStrategy] keeps the laws of a round; its priorities stay positive, so
    that it gives up only when no thread passes the tests; outside the fair
    stage it picks a thread of the greatest priority. *)
From stdpp Require Import base list gmap strings sorting.
From Stdlib Require Import ZArith.
From S2P Require Import Prelude Effects BlockManager Runtime Verifier Strategy Strategies.
From S2P Require Import WorldInv Choosing Slices RoundCorrect StrategyLaws.
Import Pct.

Open Scope nat_scope.

Section PctLaws.
Context `{TT : TargetTypes, TC : !TargetCode, RN : Random, TO : !TargetObject}.
Context {B : Type} (vo : VerifierOps B) `{VT : !VerifierTotal vo, SL : !ShuffleLaws}.
Abbreviation W := (World B Pct.t).
Implicit Types (w : W) (i : nat) (x : Pct.t).

Definition priority_ok (p : Z) : Prop := (0 < p < 2 ^ 31)%Z.

(** Every thread has a priority, priorities are positive, and so are those
    that the change points will set. *)
Record pct_inv x (n : nat) : Prop := {
  pi_length : n ≤ length (priorities x);
  pi_positive : Forall priority_ok (priorities x);
  pi_points : (Z.of_nat (length (priority_change_points x)) < current_depth x)%Z;
  pi_depth : (current_depth x ≤ 50)%Z;
}.

(** The fields on which the invariant depends are the same. *)
Definition same_priorities x x' : Prop :=
  priorities x' = priorities x ∧ priority_change_points x' = priority_change_points x ∧
  current_depth x' = current_depth x.

Lemma same_priorities_inv x x' n : same_priorities x x' → pct_inv x n → pct_inv x' n.
Proof. intros (E1&E2&E3) [? ? ? ?]. split; congruence. Qed.

Lemma wrap64_priority p : priority_ok p → wrap64 p = p.
Proof. intros [? ?]. unfold wrap64. apply Z.mod_small. lia. Qed.

Lemma to_int_small z : (0 ≤ z < 2 ^ 31)%Z → to_int z = z.
Proof. intros Hz. unfold to_int. rewrite Z.mod_small; lia. Qed.

Lemma change_priorities_inv x n i : pct_inv x n → pct_inv (change_priorities i x) n.
Proof.
  intros [Hl Hp Hpt Hd]. unfold change_priorities.
  set (points := imap pair (priority_change_points x)).
  set (step := λ (prio : list Z) '(k, point), _). set (prio := fold_left _ _ _).
  assert (length prio = length (priorities x) ∧ Forall priority_ok prio) as [Hlen Hpos].
  { assert (∀ k point, (k, point) ∈ points → (Z.of_nat k < current_depth x - 0)%Z) as Hk.
    { intros k point (j&Hj)%list_elem_of_lookup_1. unfold points in Hj.
      rewrite list_lookup_imap in Hj. apply fmap_Some in Hj as (y&Hy&[= <- <-]).
      apply lookup_lt_Some in Hy. lia. }
    unfold prio. clearbody points. revert Hk Hp. generalize (priorities x) as l.
    induction points as [|[k point] points IH]; intros l Hk Hpl; [done|]. simpl.
    destruct (IH (step l (k, point))) as [IH1 IH2].
    - intros k' point' Hin. eapply Hk. by right.
    - simpl. destruct (_ =? _)%Z; [|done]. apply Forall_insert; [done|].
      specialize (Hk k point ltac:(by left)). unfold priority_ok. rewrite to_int_small; unfold wrap64;
        rewrite Z.mod_small by lia; lia.
    - split; [|done]. etrans; [exact IH1|]. simpl. destruct (_ =? _)%Z; [apply length_insert|done]. }
  split; simpl; [by rewrite Hlen|done..].
Qed.

(** A test of the threads as the strategies use it. *)
Definition test (ok : nat → M W bool) : Prop :=
  ∀ i w (Q : bool → W → Prop), winv w → no_os w → i < length (threads (base w)) →
  (∀ b w', stable w w' → ext w' = ext w → test_result vo w i b w' → Q b w') → wp (ok i) Q w.

Lemma eligible_test : test (eligible vo).
Proof. intros i w Q Hw Ho Hi HQ. by apply hoare_eligible. Qed.
Lemma eligible_verify_first_test : test (eligible_verify_first vo).
Proof. intros i w Q Hw Ho Hi HQ. by apply hoare_eligible_verify_first. Qed.

(** The answers of the test for the threads [tids], one after the other, when
    the verifier is in state [k]; and its state then. *)
Fixpoint test_answers w (tids : list nat) (k : B) : outcome (list bool * B) :=
  match tids with
  | [] => Ret ([], k)
  | i :: tids =>
      '(b, k) ← test_answer vo w i k;
      '(bs, k) ← test_answers w tids k;
      Ret (b :: bs, k)
  end.
Definition answers_of w (tids : list nat) (bs : list bool) w' : Prop :=
  test_answers w tids (sched_checker (base w)) = Ret (bs, sched_checker (base w')).

Lemma stable_test_answers w w' tids k : stable w w' → test_answers w' tids k = test_answers w tids k.
Proof.
  intros Hs. revert k. induction tids as [|i tids IH]; intros k; simpl; [done|].
  rewrite (stable_test_answer vo _ _ _ _ Hs). destruct (test_answer vo w i k) as [[b k']| | | |]; simpl; [|done..].
  by rewrite IH.
Qed.

Lemma answers_of_cons w w1 w2 i tids b bs :
  stable w w1 → test_result vo w i b w1 → answers_of w1 tids bs w2 → answers_of w (i :: tids) (b :: bs) w2.
Proof.
  unfold answers_of, test_result. intros Hs Hb Hbs. simpl. rewrite Hb. simpl.
  rewrite <-(stable_test_answers _ _ _ _ Hs), Hbs. done.
Qed.

Definition passed (tids : list nat) (bs : list bool) i : Prop :=
  ∃ k, tids !! k = Some i ∧ bs !! k = Some true.

Lemma answers_may_run w tids k bs k' i :
  test_answers w tids k = Ret (bs, k') → passed tids bs i → may_run vo w i = true.
Proof.
  intros Ha (n&Hn&Hb). revert k bs n Ha Hn Hb. induction tids as [|j tids IH]; intros k bs n Ha Hn Hb; [done|].
  simpl in Ha. destruct (test_answer vo w j k) as [[b k1]| | | |] eqn:Ej; simpl in Ha; [|done..].
  destruct (test_answers w tids k1) as [[bs1 k2]| | | |] eqn:E1; simpl in Ha; [|done..]. injection Ha as <- <-.
  destruct n as [|n]; simplify_eq/=; [|by eapply IH].
  unfold test_answer in Ej. by destruct (may_run vo w i).
Qed.

Lemma seq_sorted a n : StronglySorted lt (seq a n).
Proof.
  revert a. induction n as [|n IH]; intros a; simpl; constructor; [done|].
  apply Forall_forall. intros x Hx%elem_of_seq. lia.
Qed.

Lemma hoare_max_loop ok tids max index w :
  test ok → winv w → no_os w → pct_inv (ext w) (length (threads (base w))) →
  Forall (λ i, i < length (threads (base w))) tids → StronglySorted lt tids →
  wp (max_loop ok tids max index) (λ r w', stable w w' ∧ ext w' = ext w ∧
    ∃ bs, answers_of w tids bs w' ∧ (max ≤ r.1)%Z ∧
      (∀ i p, passed tids bs i → priorities (ext w) !! i = Some p → (p < r.1)%Z ∨ p = r.1 ∧ i ≤ r.2) ∧
      (r = (max, index) ∨ passed tids bs r.2 ∧ priorities (ext w) !! r.2 = Some r.1)) w.
Proof.
  intros Hok. revert max index w. induction tids as [|i tids IH]; intros max index w Hw Ho Hx Ht Hsort; simpl.
  { msteps. split_and!; [done..|]. exists []. split_and!; [done|simpl; lia| |by left]. by intros i p (k&?&?). }
  apply Forall_cons in Ht as [Hi Ht]. apply StronglySorted_inv in Hsort as [Hsort Hlt].
  mstep. apply Hok; [done..|]. intros b w1 Hs1 He1 Hb.
  destruct (lookup_lt_is_Some_2 (priorities (ext w)) i) as [p Hp]; [destruct Hx; lia|].
  assert (priority_ok p) as Hpos by by eapply Forall_lookup_1; [apply Hx|].
  assert (∀ max' index', (max ≤ max')%Z → (b = true → (p < max')%Z ∨ p = max' ∧ i ≤ index') →
    ((max', index') = (max, index) ∨ b = true ∧ index' = i ∧ max' = p) →
    wp (max_loop ok tids max' index') (λ r w', stable w w' ∧ ext w' = ext w ∧
      ∃ bs, answers_of w (i :: tids) bs w' ∧ (max ≤ r.1)%Z ∧
        (∀ j q, passed (i :: tids) bs j → priorities (ext w) !! j = Some q → (q < r.1)%Z ∨ q = r.1 ∧ j ≤ r.2) ∧
        (r = (max, index) ∨ passed (i :: tids) bs r.2 ∧ priorities (ext w) !! r.2 = Some r.1)) w1) as Hnext.
  { intros max' index' Hmax Hle Hor. eapply hoare_weaken; [apply IH|].
    - by eapply stable_winv.
    - by eapply stable_no_os.
    - by rewrite He1, (st_threads _ _ Hs1).
    - by rewrite (st_threads _ _ Hs1).
    - done.
    - intros r w2 (Hs2&He2&bs&Hbs&Hr&Hall&Hres). rewrite He1 in *. split_and!; [by etrans|congruence|].
      exists (b :: bs). split_and!; [by eapply answers_of_cons|lia|..].
      + intros j q ([|k]&Hk&Hkb) Hq; simplify_eq/=; [|eapply Hall; [by exists k|done]].
        destruct Hres as [->|[(k&Hk%list_elem_of_lookup_2&_) _]]; [by apply Hle|].
        rewrite Forall_forall in Hlt. specialize (Hlt _ Hk). destruct (Hle eq_refl); lia.
      + destruct Hres as [->|[(k&?&?) ?]].
        * destruct Hor as [|(->&->&->)]; [by left|]. right. split; [by exists 0|done].
        * right. split; [by exists (S k)|done]. }
  destruct b; [|apply Hnext; [lia|done|by left]].
  mstep. mstep. mstep. apply hoare_deref with p; [by rewrite He1|]. rewrite (wrap64_priority p Hpos).
  destruct (Z.leb_spec max p).
  - apply Hnext; [lia|lia|by right].
  - apply Hnext; [lia|lia|by left].
Qed.

(** The choice so far: nothing, or a thread that may run. *)
Definition chosen_ok w (index : nat) (prior : Z) : Prop :=
  prior = 0%Z ∨ pick_ok vo w index ∧ (0 < prior)%Z.

Lemma chosen_ok_stable w w' index prior : stable w w' → chosen_ok w index prior → chosen_ok w' index prior.
Proof. intros Hs [|[? ?]]; [by left|right]. split; [|done]. by apply (stable_pick_ok vo w). Qed.

Lemma hoare_fair_loop ok attempts index prior w :
  test ok → winv w → no_os w → pct_inv (ext w) (length (threads (base w))) →
  attempts ≤ length (threads (base w)) → chosen_ok w index prior →
  wp (fair_loop ok attempts index prior)
    (λ r w', stable w w' ∧ same_priorities (ext w) (ext w') ∧ chosen_ok w' r.1 r.2) w.
Proof.
  intros Hok. revert w. induction attempts as [|attempts IH]; intros w Hw Ho Hx Ha Hc; simpl; [by msteps|].
  unfold upd. mstep. mstep. mstep. mstep. set (n := length (threads (base w))). set (w1 := set_ext _ w).
  assert (stable w w1) as Hs1 by apply set_ext_stable.
  set (i := Z.to_nat _). assert (i < n) as Hi.
  { unfold i. match goal with |- context [(?a `mod` ?b)%Z] => pose proof (Z.mod_pos_bound a b) end. lia. }
  mstep. apply Hok; [by eapply stable_winv|by eapply stable_no_os|done|].
  intros b w2 Hs2 He2 Hb. assert (stable w w2) as Hs by by etrans.
  assert (same_priorities (ext w) (ext w2)) as Hsp by by rewrite He2.
  destruct b.
  - destruct (lookup_lt_is_Some_2 (priorities (ext w)) i) as [p Hp]; [destruct Hx; lia|].
    assert (priority_ok p) as Hpos by by eapply Forall_lookup_1; [apply Hx|].
    mstep. apply hoare_deref with p; [done|]. msteps. split_and!; [done..|]. right. simpl.
    rewrite (wrap64_priority p Hpos). split; [|unfold priority_ok in Hpos; lia].
    apply (stable_pick_ok vo w1); [done|]. split; [done|by eapply test_result_may_run].
  - eapply hoare_weaken; [apply IH|].
    + by eapply stable_winv.
    + by eapply stable_no_os.
    + eapply same_priorities_inv; [done|]. by rewrite (st_threads _ _ Hs).
    + rewrite (st_threads _ _ Hs). lia.
    + by eapply chosen_ok_stable.
    + intros r w3 (Hs3&(E1&E2&E3)&Hr). destruct Hsp as (E4&E5&E6).
      split_and!; [by etrans| |done]. split_and!; congruence.
Qed.

Lemma hoare_AvoidLivelock ok index prior w :
  test ok → winv w → no_os w → pct_inv (ext w) (length (threads (base w))) →
  chosen_ok w index prior →
  wp (AvoidLivelock ok index prior)
    (λ r w', stable w w' ∧ same_priorities (ext w) (ext w') ∧ chosen_ok w' r.1 r.2 ∧
             (fair_stage (ext w) = 0%Z → r = (index, prior) ∧ base w' = base w)) w.
Proof.
  intros Hok Hw Ho Hx Hc. unfold AvoidLivelock. mstep. mstep. mstep.
  assert (∀ r w1, stable w w1 → same_priorities (ext w) (ext w1) → chosen_ok w1 r.1 r.2 →
    (fair_stage (ext w) = 0%Z → r = (index, prior) ∧ base w1 = base w) →
    wp (let index := Z.of_nat r.1 in
        upd (λ s, if ((count_chosen_same s =? 1000) && (index =? last_chosen s))%Z
                  then set_fair s index 5 else s);;
        upd (λ s, if (index =? last_chosen s)%Z then set_same s (wrap64 (count_chosen_same s + 1))
                  else set_same s 1);;
        mret r)
      (λ r w', stable w w' ∧ same_priorities (ext w) (ext w') ∧ chosen_ok w' r.1 r.2 ∧
               (fair_stage (ext w) = 0%Z → r = (index, prior) ∧ base w' = base w)) w1) as Hend.
  { intros r w1 Hs1 (E1&E2&E3) Hr Hf. unfold upd. msteps. split_and!; [|..|done].
    - etrans; [exact Hs1|]. etrans; apply set_ext_stable.
    - simpl. repeat case_match; done.
    - eapply chosen_ok_stable; [|exact Hr]. etrans; apply set_ext_stable. }
  destruct (0 <? fair_stage (ext w))%Z eqn:Hfs; [|by mstep; apply Hend].
  mstep. eapply hoare_weaken; [by apply hoare_fair_loop|]. intros r w1 (Hs1&(E1&E2&E3)&Hr).
  unfold upd. msteps. apply Hend.
  - etrans; [exact Hs1|]. apply set_ext_stable.
  - simpl. case_match; done.
  - eapply chosen_ok_stable; [|exact Hr]. apply set_ext_stable.
  - lia.
Qed.

(** [NextThreadId]: a thread that may run; outside the fair stage one of the
    greatest priority among those that passed the test, and [None] only if
    none did. *)
Lemma hoare_NextThreadId w :
  winv w → no_os w → pct_inv (ext w) (length (threads (base w))) →
  wp (NextThreadId vo) (λ o w', stable w w' ∧ pct_inv (ext w') (length (threads (base w'))) ∧
    (∀ i, o = Some i → pick_ok vo w' i) ∧
    (fair_stage (ext w) = 0%Z →
     ∃ bs, answers_of w (seq 0 (length (threads (base w)))) bs w' ∧
       match o with
       | Some i => ∃ p, priorities (ext w) !! i = Some p ∧
           passed (seq 0 (length (threads (base w)))) bs i ∧
           ∀ j q, passed (seq 0 (length (threads (base w)))) bs j →
             priorities (ext w) !! j = Some q → (q < p)%Z ∨ q = p ∧ j ≤ i
       | None => ∀ j, ¬ passed (seq 0 (length (threads (base w)))) bs j
       end)) w.
Proof.
  intros Hw Ho Hx. unfold NextThreadId. mstep. mstep. mstep. set (tids := seq _ _).
  assert (Forall (λ i, i < length (threads (base w))) tids) as Ht.
  { apply Forall_forall. intros i Hi. apply elem_of_seq in Hi. lia. }
  eapply hoare_weaken; [apply hoare_max_loop; [apply eligible_test|done..|apply seq_sorted]|].
  intros [max index] w1 (Hs1&He1&bs&Hbs&Hmax&Hall&Hres). simpl in *.
  assert (∀ i, passed tids bs i → ∃ p, priorities (ext w) !! i = Some p ∧ priority_ok p ∧ pick_ok vo w i) as Hpass.
  { intros i (k&Hk&Hkb). pose proof (Forall_lookup_1 _ _ _ _ Ht Hk) as Hlt. simpl in Hlt.
    destruct (lookup_lt_is_Some_2 (priorities (ext w)) i) as [p Hp]; [destruct Hx; lia|].
    exists p. split_and!; [done|by eapply Forall_lookup_1; [apply Hx|]|]. split; [done|].
    eapply answers_may_run; [exact Hbs|by exists k]. }
  assert (chosen_ok w1 index max) as Hc.
  { apply (chosen_ok_stable w); [done|]. destruct Hres as [[= -> ->]|[Hp Hm]]; [by left|]. right.
    destruct (Hpass _ Hp) as (p&Hp'&Hpos&?). split; [done|]. simplify_eq. apply Hpos. }
  mstep. eapply hoare_weaken; [apply hoare_AvoidLivelock|].
  { apply eligible_verify_first_test. }
  { by eapply stable_winv. }
  { by eapply stable_no_os. }
  { by rewrite He1, (st_threads _ _ Hs1). }
  { done. }
  intros [index' max'] w2 (Hs2&Hsp&Hc2&Hfair). simpl in *. assert (stable w w2) as Hs by by etrans.
  rewrite He1 in *.
  assert (pct_inv (ext w2) (length (threads (base w2)))) as Hx2.
  { eapply same_priorities_inv; [done|]. by rewrite (st_threads _ _ Hs). }
  destruct (Z.eqb_spec max' 0) as [->|Hne].
  - msteps. split_and!; [done|done|done|]. intros Hf. destruct (Hfair Hf) as [E Eb]. simplify_eq.
    exists bs. split; [unfold answers_of; by rewrite Eb|]. intros j Hj. destruct (Hpass j Hj) as (p&Hp&[Hpos _]&_).
    specialize (Hall j p Hj Hp). lia.
  - unfold upd. msteps. split_and!.
    + etrans; [exact Hs|]. etrans; apply set_ext_stable.
    + simpl. apply (same_priorities_inv (change_priorities index' (ext w2))); [done|].
      by apply change_priorities_inv.
    + intros i [= <-]. destruct Hc2 as [|[Hok _]]; [done|]. apply (stable_pick_ok vo w2); [|done].
      etrans; apply set_ext_stable.
    + intros Hf. destruct (Hfair Hf) as [E Eb]. simplify_eq. exists bs.
      split; [unfold answers_of; simpl; by rewrite Eb|].
      destruct Hres as [[= -> ->]|[Hp Hm]]; [done|]. by exists max.
Qed.

#[export] Instance pct_pick_laws : PickLaws vo (NextThreadId vo) pct_inv.
Proof.
  split. intros w Hw Ho Hx. eapply hoare_weaken; [by apply hoare_NextThreadId|]. naive_solver.
Qed.

#[export] Instance pct_next_laws : NextLaws (PctStrategy vo) pct_inv.
Proof.
  split.
  - intros w Hw Ho Hx. by apply (pick_next vo (NextThreadId vo) pct_inv).
  - intros t h w Ho Hx. simpl. unfold PctUpdateSimulatorState, mbind, M_bind, get, mret, M_ret.
    rewrite UpdateOSState_none by done. cbn beta iota.
    destruct (Nat.ltb_spec (length (priorities (ext w))) (length (threads (base w)))) as [Hlt|_]; [|done].
    destruct Hx. lia.
Qed.

Lemma draw_points_length n k r : length (draw_points n k r).1 = n.
Proof.
  revert r. induction n as [|n IH]; intros r; simpl; [done|].
  destruct (uniform_int_distribution r 1 k) as [x r1]. specialize (IH r1).
  destruct (draw_points n k r1) as [l r2]. simpl in *. by rewrite IH.
Qed.

(** The priorities before they are shuffled: [depth], [depth + 1], ... *)
Definition base_priorities (depth : Z) (n : nat) : list Z := (λ i, (depth + Z.of_nat i)%Z) <$> seq 0 n.

(** [PrepareForDepth] gives the threads distinct positive priorities and
    fails only on an empty range of change points. *)
Lemma hoare_PrepareForDepth w k (Q : unit → W → Prop) :
  (1 ≤ k)%Z → (1 ≤ current_depth (ext w) ≤ 50)%Z → (Z.of_nat (length (threads (base w))) < 2 ^ 30)%Z →
  (∀ x, pct_inv x (length (threads (base w))) →
     priorities x ≡ₚ base_priorities (current_depth (ext w)) (length (threads (base w))) →
     k_statistics x = k_statistics (ext w) → current_schedule_length x = current_schedule_length (ext w) →
     current_depth x = current_depth (ext w) → Q () (set_ext x w)) →
  wp (PrepareForDepth (current_depth (ext w)) k) Q w.
Proof.
  intros Hk Hd Hn HQ. unfold PrepareForDepth. mstep. mstep. set (n := length (threads (base w))).
  set (depth := current_depth (ext w)) in *.
  assert ((λ i, to_int (wrap64 (depth + Z.of_nat i))) <$> seq 0 n = base_priorities depth n) as E.
  { apply list_fmap_ext. intros j i Hi. apply lookup_seq in Hi as [-> Hi]. simpl. unfold wrap64.
    rewrite Z.mod_small by lia. apply to_int_small. lia. }
  cbn zeta. rewrite E. pose proof (shuffle_perm (pct_rng (ext w)) (base_priorities depth n)) as Hp.
  destruct (shuffle _ _) as [prio r]. simpl in Hp. destruct (Z.ltb_spec k 1); [lia|].
  pose proof (draw_points_length (Z.to_nat (depth - 1)) k r) as Hl.
  destruct (draw_points _ k r) as [points r']. simpl in Hl. unfold upd. mstep. apply HQ; [| |done..].
  - split; simpl; [| |lia|lia].
    + rewrite (Permutation_length Hp). unfold base_priorities. by rewrite length_fmap, length_seq.
    + rewrite Hp. apply Forall_fmap, Forall_seq. intros j Hj. unfold priority_ok. simpl. lia.
  - simpl. exact Hp.
Qed.

End PctLaws.
