(* ===== verification/Resets.v ===== *)
(** * Resetting a round

    Rules for [TerminateRunningTasks], [ResetCurrentRound],
    [ResetExplorationState] and [StartNextRound]: a reset keeps the tasks and
    their identities and makes every task that is not removed runnable from
    its start; a new round starts with no tasks. *)
From stdpp Require Import base list gmap strings.
From Stdlib Require Import ZArith.
From S2P Require Import Prelude Effects BlockManager Runtime Verifier Strategy.
From S2P Require Import WorldInv Choosing Slices.

Open Scope nat_scope.

(** A list of lists whose elements are at one place each has no duplicates. *)
Lemma NoDup_concat_inj (l : list (list nat)) :
  (∀ t1 t2 i1 i2 th1 th2 p, l !! t1 = Some th1 → l !! t2 = Some th2 →
     th1 !! i1 = Some p → th2 !! i2 = Some p → t1 = t2 ∧ i1 = i2) → NoDup (concat l).
Proof.
  induction l as [|x l IH]; intros H; simpl; [constructor|]. apply NoDup_app. split_and!.
  - apply NoDup_alt. intros i1 i2 p H1 H2. by destruct (H 0 0 i1 i2 x x p).
  - intros p (i1&H1)%list_elem_of_lookup_1 Hp. apply list_elem_of_In, in_concat in Hp as (th&Hth&Hp).
    apply list_elem_of_In, list_elem_of_lookup_1 in Hth as (t&Ht).
    apply list_elem_of_In, list_elem_of_lookup_1 in Hp as (i2&H2).
    by destruct (H 0 (S t) i1 i2 x th p).
  - apply IH. intros t1 t2 i1 i2 th1 th2 p H1 H2 Hp1 Hp2.
    destruct (H (S t1) (S t2) i1 i2 th1 th2 p); naive_solver.
Qed.

Section Shape.
Context `{TT : TargetTypes, TC : !TargetCode, RN : Random, TO : !TargetObject}.
Context {B X : Type}.
Abbreviation W := (World B X).
Implicit Types (w : W) (p : nat) (s : Slot) (c : Coro).

(** The invariant, by slots. *)
Lemma winv_slots w :
  (∀ s p, slot_ptr w s = Some p → ∃ c, coro w p = Some c ∧
     (co_returned c = false → is_Some (co_ctx c)) ∧ (co_id c < new_task_id (base w))%Z) →
  (∀ p, is_Some (coro w p) → p < next_ptr (rt w)) →
  (∀ s1 s2 p, slot_ptr w s1 = Some p → slot_ptr w s2 = Some p → s1 = s2) →
  (∀ s1 s2 c1 c2, slot_coro w s1 = Some c1 → slot_coro w s2 = Some c2 → co_id c1 = co_id c2 → s1 = s2) →
  winv w.
Proof.
  intros Hs Hf Hi Hd. split; [|done|..].
  - intros p (s&Hp)%slots_in. destruct (Hs s p Hp) as (c&Hc&_). eauto.
  - apply NoDup_concat_inj. intros t1 t2 i1 i2 th1 th2 p H1 H2 Hp1 Hp2.
    assert ((t1, i1) = (t2, i2)); [|naive_solver]. apply (Hi _ _ p); unfold slot_ptr; simpl;
      by rewrite ?H1, ?H2.
  - intros p c (s&Hp)%slots_in Hc. destruct (Hs s p Hp) as (c'&Hc'&?&_). naive_solver.
  - intros p c (s&Hp)%slots_in Hc. destruct (Hs s p Hp) as (c'&Hc'&_&?). naive_solver.
  - intros p q c d (s1&Hp)%slots_in (s2&Hq)%slots_in Hc Hc' He.
    assert (s1 = s2) as <-; [|congruence].
    apply (Hd s1 s2 c d); [apply slot_coro_Some; eauto..|done].
Qed.

Lemma winv_slot_id w s1 s2 c1 c2 :
  winv w → slot_coro w s1 = Some c1 → slot_coro w s2 = Some c2 → co_id c1 = co_id c2 → s1 = s2.
Proof.
  intros Hw (p&Hp&Hc1)%slot_coro_Some (q&Hq&Hc2)%slot_coro_Some He.
  assert (p = q) as <-.
  { apply (wi_ids _ Hw p q c1 c2); [exact (slot_in _ _ _ Hp)|exact (slot_in _ _ _ Hq)|done..]. }
  exact (task_slot_inj _ _ _ _ Hw Hp Hq).
Qed.

(** The same slots, with the same tasks in them. *)
Record same_shape w w' : Prop := {
  ss_threads : length (threads (base w')) = length (threads (base w));
  ss_slots s : is_Some (slot_ptr w' s) ↔ is_Some (slot_ptr w s);
  ss_tasks s c c' : slot_coro w s = Some c → slot_coro w' s = Some c' → same_task c c';
}.

Lemma winv_slot_coro w s : winv w → is_Some (slot_ptr w s) ↔ is_Some (slot_coro w s).
Proof.
  intros Hw. split.
  - intros [p Hp]. destruct (winv_slot _ _ _ Hw Hp) as [c Hc]. exists c. apply slot_coro_Some. eauto.
  - intros [c (p&Hp&_)%slot_coro_Some]. eauto.
Qed.

Lemma same_shape_refl w : same_shape w w.
Proof. split; [done..|]. intros s c c' ??. by simplify_eq. Qed.

Lemma same_shape_trans w1 w2 w3 : winv w2 → same_shape w1 w2 → same_shape w2 w3 → same_shape w1 w3.
Proof.
  intros Hw [Ht Hs Hc] [Ht' Hs' Hc']. split; [congruence| |].
  - intros s. by rewrite Hs'.
  - intros s c c' H1 H3. destruct (winv_slot_coro w2 s Hw) as [Hx _].
    destruct Hx as [c2 H2]; [|by etrans; eauto]. apply Hs. destruct (slot_coro_Some w1 s c) as [H _].
    destruct (H H1) as (p&->&_). done.
Qed.

Lemma stable_same_shape w w' : stable w w' → same_shape w w'.
Proof.
  intros Hs. split.
  - by rewrite (st_threads _ _ Hs).
  - intros s. by rewrite (stable_slot_ptr _ _ _ Hs).
  - intros s c c'. rewrite (stable_slot_coro _ _ _ Hs). intros. by simplify_eq.
Qed.

Lemma touched_same_shape w w' p c c' : touched w w' p c c' → same_shape w w'.
Proof.
  intros Ht. split.
  - by rewrite (to_base _ _ _ _ _ Ht).
  - intros s. by rewrite (touched_slot _ _ _ _ _ _ Ht).
  - intros s d d' (q&Hq&Hd)%slot_coro_Some (q'&Hq'&Hd')%slot_coro_Some.
    rewrite (touched_slot _ _ _ _ _ _ Ht) in Hq'. simplify_eq.
    rewrite (touched_coro _ _ _ _ _ _ Ht) in Hd'. case_decide as Hqp; [|by simplify_eq].
    simplify_eq. rewrite (to_coro _ _ _ _ _ Ht) in Hd. simplify_eq. apply Ht.
Qed.

(** Both worlds agree on everything but the tasks, the memory, the queues and
    the verifier. *)
Record same_frame w w' : Prop := {
  sf_info : thread_info (rt w') = thread_info (rt w);
  sf_ids : new_task_id (base w') = new_task_id (base w);
  sf_removed : removed_tasks (base w') = removed_tasks (base w);
  sf_count : threads_count (base w') = threads_count (base w);
  sf_constructors : constructors (base w') = constructors (base w);
  sf_rng : rng (base w') = rng (base w);
  sf_ext : ext w' = ext w;
}.
#[export] Instance same_frame_preorder : PreOrder same_frame.
Proof. split; [by split|]. intros w1 w2 w3 [] []. split; congruence. Qed.

Lemma same_shape_names P w w' :
  winv w → winv w' → same_shape w w' → constructors (base w') ≡ₚ constructors (base w) →
  names_in P w → names_in P w'.
Proof.
  intros Hw Hw' Hs Hc [Hn Hb]. split.
  - intros p c' (s&Hp)%slots_in Hc'.
    destruct (proj1 (winv_slot_coro w s Hw)) as [c Hsc]; [apply Hs; eauto|].
    assert (slot_coro w' s = Some c') as Hsc' by (apply slot_coro_Some; eauto).
    destruct (ss_tasks _ _ Hs s c c' Hsc Hsc') as (_&->&_).
    apply slot_coro_Some in Hsc as (q&Hq&Hcq). apply (Hn q); [by eapply slot_in|done].
  - intros b. rewrite Hc. apply Hb.
Qed.

End Shape.

Section Resets.
Context `{TT : TargetTypes, TC : !TargetCode, RN : Random, TO : !TargetObject}.
Context {B X : Type} (vo : VerifierOps B).
Abbreviation W := (World B X).
Implicit Types (w : W) (p : nat) (s : Slot) (c : Coro).

(** ** Terminating *)

Definition terminated c : Coro := DiscardRoundResults (if co_returned c then c else Terminate c).

Lemma terminated_returned c : co_returned (terminated c) = true.
Proof. unfold terminated. by destruct (co_returned c) eqn:E; simpl. Qed.
Lemma terminated_same c : same_task c (terminated c).
Proof. unfold terminated. by destruct (co_returned c). Qed.

(** All tasks have returned; the slots and the frame are as before. *)
Record stopped w w' : Prop := {
  sp_winv : winv w';
  sp_threads : threads (base w') = threads (base w);
  sp_shape : same_shape w w';
  sp_frame : same_frame w w';
  sp_next : next_ptr (rt w') = next_ptr (rt w);
  sp_returned p c : p ∈ slots w' → coro w' p = Some c → co_returned c = true;
}.

Lemma hoare_terminate_loop fuel ps (Q : unit → W → Prop) w :
  winv w → (∀ p, p ∈ ps → p ∈ slots w) →
  (∀ w', winv w' → base w' = base w → same_shape w w' → same_frame w w' →
     next_ptr (rt w') = next_ptr (rt w) →
     (∀ p c, p ∈ slots w → coro w' p = Some c → p ∈ ps ∨ returned w p = true → co_returned c = true) →
     Q () w') →
  hoare fuel (for_each terminate_task ps) Q w.
Proof.
  revert w. induction ps as [|p ps IH]; intros w Hw Hps HQ; simpl.
  { msteps. apply HQ; [done|done|apply same_shape_refl|done|done|].
    intros p c Hp Hc [?|Hr]; [set_solver|]. unfold returned in Hr. by rewrite Hc in Hr. }
  destruct (wi_heap _ Hw p) as [c Hc]; [by apply Hps; left|].
  mstep. unfold terminate_task. eapply hoare_touch; [done| | |].
  { apply terminated_same. } { pose proof (terminated_returned c) as E. unfold terminated in E. congruence. }
  intros w1 Ht. change (DiscardRoundResults _) with (terminated c) in Ht.
  assert (winv w1) as Hw1 by by eapply touched_winv.
  pose proof (touched_slots _ _ _ _ _ Ht) as Es. pose proof (to_base _ _ _ _ _ Ht) as Eb.
  apply IH; [done|rewrite Es; set_solver|].
  intros w2 Hw2 Hb2 Hsh2 Hf2 Hn2 Hr2. apply HQ; [done|congruence| | | |].
  - eapply same_shape_trans; [exact Hw1|by eapply touched_same_shape|done].
  - etrans; [|exact Hf2]. destruct Ht. split; congruence.
  - rewrite Hn2. apply Ht.
  - intros q d Hq Hd Hor. eapply (Hr2 q d); [by rewrite Es|done|].
    destruct Hor as [[->|]%elem_of_cons|Hret]; [|by left|]; right; unfold returned;
      rewrite (touched_coro _ _ _ _ _ _ Ht).
    + rewrite decide_True by done. apply terminated_returned.
    + case_decide; [apply terminated_returned|done].
Qed.

Lemma hoare_TerminateRunningTasks fuel (Q : unit → W → Prop) w :
  winv w → (∀ w', stopped w w' → base w' = base w → Q () w') → hoare fuel TerminateRunningTasks Q w.
Proof.
  intros Hw HQ. unfold TerminateRunningTasks. msteps. apply hoare_terminate_loop; [done|done|].
  intros w' Hw' Hb Hsh Hf Hn Hr. apply HQ; [|done]. split; try done; [by rewrite Hb|].
  intros p c Hp Hc. eapply (Hr p c); [|done|]; [|left]; unfold slots in *; by rewrite Hb in Hp.
Qed.

(** Changes that a reset makes besides the tasks: the queues, the memory, the
    verifier, the target, the schedule, and whether new tasks are allowed. *)
Record reset_rest w w' : Prop := {
  rr_heap : heap (rt w') = heap (rt w);
  rr_next : next_ptr (rt w') = next_ptr (rt w);
  rr_threads : threads (base w') = threads (base w);
  rr_frame : same_frame w w';
}.
#[export] Instance reset_rest_preorder : PreOrder reset_rest.
Proof. split; [by split|]. intros w1 w2 w3 [] []. split; try congruence. by etrans. Qed.

Lemma reset_rest_winv w w' : reset_rest w w' → winv w → winv w'.
Proof.
  intros [Hh Hn Ht Hf] [H1 H2 H3 H4 H5 H6]. unfold slots, coro in *.
  split; unfold slots, coro; rewrite ?Hh, ?Hn, ?Ht, ?(sf_ids _ _ Hf); done.
Qed.

Lemma reset_rest_shape w w' : reset_rest w w' → same_shape w w'.
Proof.
  intros [Hh Hn Ht Hf]. unfold slot_coro, slot_ptr, coro. split.
  - by rewrite Ht.
  - intros s. unfold slot_ptr. by rewrite Ht.
  - intros s c c'. unfold slot_coro, slot_ptr, coro. rewrite Ht, Hh. intros. by simplify_eq.
Qed.

Lemma stopped_rest w w1 w2 : stopped w w1 → reset_rest w1 w2 → stopped w w2.
Proof.
  intros [Hw Ht Hs Hf Hn Hr] Hrr. pose proof (reset_rest_winv _ _ Hrr Hw) as Hw2. split; [done|..].
  - by rewrite (rr_threads _ _ Hrr).
  - eapply same_shape_trans; [exact Hw|done|by apply reset_rest_shape].
  - etrans; [done|apply Hrr].
  - by rewrite (rr_next _ _ Hrr).
  - intros p c. unfold slots, coro. rewrite (rr_threads _ _ Hrr), (rr_heap _ _ Hrr). apply Hr.
Qed.

Lemma hoare_OnRoundStart fuel n (Q : unit → W → Prop) w :
  (∀ w', reset_rest w w' → rt w' = rt w → round_schedule (base w') = round_schedule (base w) →
     join_pairs (base w') = join_pairs (base w) → allow_new_tasks_ (base w') = allow_new_tasks_ (base w) → Q () w') →
  hoare fuel (OnRoundStart vo n) Q w.
Proof.
  intros HQ. unfold OnRoundStart. destruct (vo_OnRoundStart vo) as [f|]; msteps;
    (apply HQ; [split; [done..|by split]|done..]).
Qed.

(** ** Restarting *)

(** A task that waits to be run from its start. *)
Definition unstarted c : Prop :=
  co_returned c = false ∧ co_ctx c = Some (fiber_new (co_func c) (co_this c) (co_args c)) ∧
  co_ret c = empty_value ∧ co_wakeup c = None ∧ co_fstate c = mkBlockState 0 0 ∧ co_events c = [].

(** [w'] is [w] with the task of slot [s] replaced by the new coroutine [q]. *)
Record replaced w w' s p c q c' : Prop := {
  rp_slot : slot_ptr w s = Some p;
  rp_coro : coro w p = Some c;
  rp_slots s' : slot_ptr w' s' = if decide (s' = s) then Some q else slot_ptr w s';
  rp_threads : length (threads (base w')) = length (threads (base w));
  rp_ptr : q = next_ptr (rt w);
  rp_next : next_ptr (rt w') = S q;
  rp_heap : heap (rt w') = <[q := c']> (heap (rt w));
  rp_same : same_task c c';
  rp_unstarted : unstarted c';
  rp_frame : same_frame w w';
  rp_schedule : round_schedule (base w') = round_schedule (base w);
  rp_joins : join_pairs (base w') = join_pairs (base w);
  rp_allow : allow_new_tasks_ (base w') = allow_new_tasks_ (base w);
}.

Lemma replaced_coro w w' s p c q c' q' :
  replaced w w' s p c q c' → coro w' q' = if decide (q' = q) then Some c' else coro w q'.
Proof.
  intros Hr. unfold coro. rewrite (rp_heap _ _ _ _ _ _ _ Hr). case_decide as Hq.
  - rewrite Hq. apply lookup_insert_eq.
  - by rewrite lookup_insert_ne.
Qed.

Lemma replaced_slot_coro w w' s p c q c' s' :
  winv w → replaced w w' s p c q c' →
  slot_coro w' s' = if decide (s' = s) then Some c' else slot_coro w s'.
Proof.
  intros Hw Hr. unfold slot_coro. rewrite (rp_slots _ _ _ _ _ _ _ Hr). case_decide as Hs; simpl.
  - rewrite (replaced_coro _ _ _ _ _ _ _ _ Hr). by rewrite decide_True.
  - destruct (slot_ptr w s') as [q'|] eqn:Hq'; simpl; [|done].
    rewrite (replaced_coro _ _ _ _ _ _ _ _ Hr), decide_False; [done|]. intros ->.
    destruct (winv_slot _ _ _ Hw Hq') as [d Hd].
    pose proof (wi_fresh _ Hw q ltac:(eauto)). destruct Hr. lia.
Qed.

Lemma replaced_winv w w' s p c q c' : winv w → replaced w w' s p c q c' → winv w'.
Proof.
  intros Hw Hr. pose proof (λ s', replaced_slot_coro _ _ _ _ _ _ _ s' Hw Hr) as Hsc.
  pose proof (rp_slots _ _ _ _ _ _ _ Hr) as Hsp. pose proof (rp_ptr _ _ _ _ _ _ _ Hr) as Hq.
  destruct (rp_same _ _ _ _ _ _ _ Hr) as (Hid&_).
  assert (slot_coro w s = Some c) as Hc. { apply slot_coro_Some. exists p. split; apply Hr. }
  assert (∀ q', is_Some (coro w q') → q' < q) as Hold by (intros q' ?%(wi_fresh _ Hw); lia).
  assert (∀ s' d, slot_coro w' s' = Some d → ∃ d0, slot_coro w s' = Some d0 ∧ co_id d0 = co_id d) as Hback.
  { intros s' d. rewrite Hsc. case_decide; [|eauto]. subst. intros [= <-]. eauto. }
  apply winv_slots.
  - intros s' p' Hp'. assert (∃ d, slot_coro w' s' = Some d) as [d Hd].
    { rewrite Hsc. case_decide; [eauto|]. rewrite Hsp, decide_False in Hp' by done.
      apply winv_slot_coro; eauto. }
    pose proof Hd as (p''&?&Hd')%slot_coro_Some. simplify_eq. exists d. split; [done|].
    rewrite (sf_ids _ _ (rp_frame _ _ _ _ _ _ _ Hr)). destruct (Hback s' d Hd) as (d0&Hd0&<-).
    apply slot_coro_Some in Hd0 as (p0&Hp0&Hd0). split.
    + rewrite Hsc in Hd. case_decide; [simplify_eq; intros _; destruct (rp_unstarted _ _ _ _ _ _ _ Hr) as (_&->&_); done|].
      apply slot_coro_Some in Hd as (p1&Hp1&Hd1). exact (wi_ctx _ Hw p1 d (slot_in _ _ _ Hp1) Hd1).
    + exact (wi_id _ Hw p0 d0 (slot_in _ _ _ Hp0) Hd0).
  - intros q'. rewrite (replaced_coro _ _ _ _ _ _ _ _ Hr), (rp_next _ _ _ _ _ _ _ Hr).
    case_decide; [lia|]. intros ?%Hold. lia.
  - intros s1 s2 p'. rewrite !Hsp.
    destruct (decide (s1 = s)) as [->|], (decide (s2 = s)) as [->|]; [done|..].
    + intros [= <-] H2. destruct (winv_slot _ _ _ Hw H2) as [d Hd]. specialize (Hold q ltac:(eauto)). lia.
    + intros H1 [= <-]. destruct (winv_slot _ _ _ Hw H1) as [d Hd]. specialize (Hold q ltac:(eauto)). lia.
    + by apply task_slot_inj.
  - intros s1 s2 c1 c2 (d1&Hd1&E1)%Hback (d2&Hd2&E2)%Hback E.
    apply (winv_slot_id w s1 s2 d1 d2 Hw Hd1 Hd2). congruence.
Qed.

Lemma replaced_shape w w' s p c q c' : winv w → replaced w w' s p c q c' → same_shape w w'.
Proof.
  intros Hw Hr. pose proof (λ s', replaced_slot_coro _ _ _ _ _ _ _ s' Hw Hr) as Hsc.
  pose proof (rp_slots _ _ _ _ _ _ _ Hr) as Hsp. split; [apply Hr|..].
  - intros s'. rewrite Hsp. case_decide; [|done]. subst. rewrite (rp_slot _ _ _ _ _ _ _ Hr). done.
  - intros s' d d' Hd. rewrite Hsc. case_decide; [|intros; by simplify_eq]. subst. intros [= <-].
    apply slot_coro_Some in Hd as (p'&Hp'&Hd). destruct Hr. simplify_eq. done.
Qed.

Lemma hoare_restart_task fuel s p c (Q : unit → W → Prop) w :
  slot_ptr w s = Some p → coro w p = Some c → co_returned c = true →
  (co_id c ∈ removed_tasks (base w) → Q () w) →
  (∀ w' q c', co_id c ∉ removed_tasks (base w) → replaced w w' s p c q c' → Q () w') →
  hoare fuel (restart_task s) Q w.
Proof.
  intros Hs Hc Hret Hrm Hgo. unfold restart_task. mstep. eapply hoare_task_at; [done|]. mstep.
  apply hoare_get_coro with c; [done|]. unfold IsTaskRemoved. mstep. mstep. cbn beta.
  case_bool_decide as Hin; [msteps; by apply Hrm|]. mstep. mstep. mstep.
  unfold on_rt, Restart, New, update_coro, get_coro, set_coro. msteps.
  apply hoare_deref with c; [done|]. rewrite Hret. mstep. apply hoare_assert; [done|]. msteps.
  eapply hoare_deref; [apply lookup_insert_eq|]. msteps. simpl.
  pose proof Hs as (th&Hth&Hp)%bind_Some. apply hoare_deref with th; [done|]. msteps.
  eapply (Hgo _ (next_ptr (rt w)) (SetDual (co_dual c) (mkCoro (co_id c) (co_name c) (co_func c)
    (state (base w)) (co_args c) false empty_value false None (mkBlockState 0 0)
    (Some (fiber_new (co_func c) (state (base w)) (co_args c))) []))); [done|]. split; simpl; try done.
  - intros s'. unfold slot_ptr. simpl. destruct s' as [t' i'], s as [t i]; simpl in *.
    destruct (decide (t' = t)) as [->|].
    + rewrite list_lookup_insert_eq by by eapply lookup_lt_Some. simpl.
      destruct (decide (i' = i)) as [->|].
      * rewrite decide_True by done. apply list_lookup_insert_eq. by eapply lookup_lt_Some.
      * rewrite decide_False by congruence. rewrite list_lookup_insert_ne by done. by rewrite Hth.
    + rewrite decide_False by congruence. by rewrite list_lookup_insert_ne.
  - apply length_insert.
  - apply insert_insert_eq.
Qed.

(** After a restart: removed tasks stay as they are, the others wait to run. *)
Definition task_restarted (removed : gset Z) c : Prop :=
  if bool_decide (co_id c ∈ removed) then co_returned c = true else unstarted c.

Record restarted w w' : Prop := {
  rs_winv : winv w';
  rs_shape : same_shape w w';
  rs_frame : same_frame w w';
  rs_tasks s c : slot_coro w' s = Some c → task_restarted (removed_tasks (base w')) c;
  rs_schedule : round_schedule (base w') = (λ _, (-1)%Z) <$> round_schedule (base w);
  rs_joins : join_pairs (base w') = ∅;
  rs_allow : allow_new_tasks_ (base w') = true;
}.

Lemma hoare_restart_loop fuel l (Q : unit → W → Prop) w :
  winv w → NoDup l → (∀ s, s ∈ l → ∃ c, slot_coro w s = Some c ∧ co_returned c = true) →
  (∀ w', winv w' → same_shape w w' → same_frame w w' →
     round_schedule (base w') = round_schedule (base w) → join_pairs (base w') = join_pairs (base w) →
     allow_new_tasks_ (base w') = allow_new_tasks_ (base w) →
     (∀ s c, s ∈ l → slot_coro w' s = Some c → task_restarted (removed_tasks (base w)) c) →
     (∀ s, s ∉ l → slot_coro w' s = slot_coro w s) → Q () w') →
  hoare fuel (for_each restart_task l) Q w.
Proof.
  revert w. induction l as [|s l IH]; intros w Hw Hnd Hl HQ; simpl.
  { msteps. apply HQ; try done; [apply same_shape_refl|set_solver]. }
  apply NoDup_cons in Hnd as [Hs Hnd]. destruct (Hl s) as (c&Hc&Hret); [by left|].
  pose proof Hc as (p&Hp&Hcp)%slot_coro_Some. mstep. eapply hoare_restart_task; [done..| |].
  - intros Hin. apply IH; [done..|intros; apply Hl; by right|].
    intros w' Hw' Hsh Hf H1 H2 H3 Hdone Hother. apply HQ; try done.
    + intros s' c' [->|]%elem_of_cons Hc'; [|by eapply Hdone]. rewrite Hother in Hc' by done.
      simplify_eq. unfold task_restarted. by rewrite bool_decide_eq_true_2.
    + intros s' Hs'. apply Hother. set_solver.
  - intros w1 q c1 Hnin Hrp. assert (winv w1) as Hw1 by by eapply replaced_winv.
    pose proof (λ s', replaced_slot_coro _ _ _ _ _ _ _ s' Hw Hrp) as Hsc.
    apply IH; [done|done| |].
    { intros s' Hs'. rewrite Hsc, decide_False; [apply Hl; by right|]. by intros ->. }
    intros w' Hw' Hsh Hf H1 H2 H3 Hdone Hother. pose proof Hrp as [? ? ? ? ? ? ? Hsame Hun Hf1 Hsch Hj Hal].
    apply HQ; [done| | |congruence..| |].
    + eapply same_shape_trans; [exact Hw1|by eapply replaced_shape|done].
    + by etrans.
    + intros s' c' [->|Hin]%elem_of_cons Hc'.
      * rewrite Hother, Hsc, decide_True in Hc' by done. simplify_eq.
        unfold task_restarted. destruct Hsame as (->&_). by rewrite bool_decide_eq_false_2.
      * rewrite <-(sf_removed _ _ Hf1). by eapply Hdone.
    + intros s' Hs'. rewrite Hother by set_solver. rewrite Hsc, decide_False; [done|set_solver].
Qed.

Lemma elem_of_all_slots (ths : list (list nat)) t i :
  (t, i) ∈ all_slots ths ↔ ∃ th, ths !! t = Some th ∧ i < length th.
Proof.
  unfold all_slots. rewrite list_elem_of_In, in_concat. setoid_rewrite <-list_elem_of_In. split.
  - intros (l&(k&Hk)%list_elem_of_lookup_1&Hin). rewrite list_lookup_imap in Hk.
    apply fmap_Some in Hk as (th&Hth&->). apply list_elem_of_fmap in Hin as (j&[= -> ->]&Hj).
    apply elem_of_seq in Hj. exists th. split; [done|lia].
  - intros (th&Hth&Hi). exists ((λ i, (t, i)) <$> seq 0 (length th)). split.
    + apply list_elem_of_lookup_2 with t. rewrite list_lookup_imap, Hth. done.
    + apply list_elem_of_fmap. exists i. split; [done|]. apply elem_of_seq. lia.
Qed.

Lemma slot_all_slots w s : s ∈ all_slots (threads (base w)) ↔ is_Some (slot_ptr w s).
Proof.
  destruct s as [t i]. rewrite elem_of_all_slots. unfold slot_ptr. simpl. split.
  - intros (th&->&Hi). simpl. by apply lookup_lt_is_Some_2.
  - intros [p (th&Hth&Hp)%bind_Some]. exists th. split; [done|]. by eapply lookup_lt_Some.
Qed.

Lemma NoDup_all_slots (ths : list (list nat)) : NoDup (all_slots ths).
Proof.
  assert (∀ k, NoDup (concat (imap (λ t th, (λ i, (k + t, i)) <$> seq 0 (length th)) ths))) as H.
  { induction ths as [|th ths IH]; intros k; simpl; [constructor|]. apply NoDup_app. split_and!.
    - apply NoDup_fmap_2; [by intros ?? [=]|apply NoDup_seq].
    - intros [t i] (j&[= -> ->]&_)%list_elem_of_fmap (l&(m&Hm)%list_elem_of_In%list_elem_of_lookup_1&Hin)%list_elem_of_In%in_concat.
      rewrite list_lookup_imap in Hm. apply fmap_Some in Hm as (th'&_&->).
      apply list_elem_of_In, list_elem_of_fmap in Hin as (j'&[= ? _]&_). simpl in *. lia.
    - erewrite imap_ext; [apply (IH (S k))|]. intros t th' _. simpl. apply list_fmap_ext. intros. f_equal. lia. }
  exact (H 0).
Qed.

Lemma length_all_slots (ths : list (list nat)) : length (all_slots ths) = length (concat ths).
Proof.
  assert (∀ k, length (concat (imap (λ t th, (λ i, (k + t, i)) <$> seq 0 (length th)) ths)) = length (concat ths)) as H.
  { induction ths as [|th ths IH]; intros k; simpl; [done|]. rewrite !length_app, length_fmap, length_seq. f_equal.
    rewrite <-(IH (S k)). f_equal. f_equal. apply imap_ext. intros. simpl. apply list_fmap_ext. intros. f_equal. lia. }
  exact (H 0).
Qed.

Lemma same_shape_slots w w' : same_shape w w' → length (slots w') = length (slots w).
Proof.
  intros [_ Hs _]. unfold slots. rewrite <-!length_all_slots. apply Permutation_length, NoDup_Permutation;
    [apply NoDup_all_slots..|]. intros s. by rewrite !slot_all_slots.
Qed.

Lemma hoare_RestartTasks fuel w0 (Q : unit → W → Prop) w :
  stopped w0 w →
  (∀ w', winv w' → same_shape w0 w' → same_frame w0 w' →
     round_schedule (base w') = round_schedule (base w) → join_pairs (base w') = join_pairs (base w) →
     allow_new_tasks_ (base w') = allow_new_tasks_ (base w) →
     (∀ s c, slot_coro w' s = Some c → task_restarted (removed_tasks (base w')) c) → Q () w') →
  hoare fuel RestartTasks Q w.
Proof.
  intros [Hw Ht Hsh Hf Hn Hr] HQ. unfold RestartTasks. msteps.
  apply hoare_restart_loop; [done|apply NoDup_all_slots|..].
  { intros s Hs%slot_all_slots. destruct (proj1 (winv_slot_coro w s Hw) Hs) as [c Hc]. exists c. split; [done|].
    apply slot_coro_Some in Hc as (p&Hp&Hc). apply (Hr p); [by eapply slot_in|done]. }
  intros w' Hw' Hsh' Hf' H1 H2 H3 Hdone _. apply HQ; try done.
  - eapply same_shape_trans; [exact Hw|done|done].
  - by etrans.
  - intros s c Hc. rewrite (sf_removed _ _ Hf'). eapply Hdone; [|done].
    apply slot_all_slots, (ss_slots _ _ Hsh'). apply slot_coro_Some in Hc as (p&->&_). done.
Qed.

(** The two resets of a round do the same up to the order of their steps. *)
Lemma hoare_ResetCurrentRound fuel (Q : unit → W → Prop) w :
  winv w → (∀ w', restarted w w' → Q () w') → hoare fuel (ResetCurrentRound vo) Q w.
Proof.
  intros Hw HQ. unfold ResetCurrentRound, SetAllowNewTasks, ClearRoundSchedule. do 4 mstep. mstep.
  set (wa := upd_base _ _). assert (reset_rest w wa) as Ha by (by split; [..|split]).
  pose proof (reset_rest_winv _ _ Ha Hw) as Hwa.
  apply hoare_TerminateRunningTasks; [done|]. intros w1 Hs1 Hb1.
  unfold ResetChecker, ResetWmmGraph, ResetOSState, ResetTargetState, on_rt. msteps.
  destruct (target_factory _) as [tgt m]. msteps. set (w2 := upd_base (set_target tgt) _).
  assert (reset_rest w1 w2) as H12 by (by split; [..|split]).
  apply hoare_OnRoundStart. intros w3 H23 Hrt3 Hsch3 Hj3 Hal3.
  assert (stopped wa w3) as Hs3 by (eapply stopped_rest; [done|by etrans]).
  eapply hoare_RestartTasks; [exact Hs3|]. intros w4 Hw4 Hsh4 Hf4 Hsch4 Hj4 Hal4 Ht4.
  apply HQ. split; try done.
  - eapply same_shape_trans; [exact Hwa|by apply reset_rest_shape|done].
  - etrans; [apply Ha|done].
  - rewrite Hsch4, Hsch3. simpl. by rewrite Hb1.
  - by rewrite Hj4, Hj3.
  - rewrite Hal4, Hal3. simpl. by rewrite Hb1.
Qed.

Lemma hoare_ResetExplorationState fuel (Q : unit → W → Prop) w :
  winv w → (∀ w', restarted w w' → Q () w') → hoare fuel (ResetExplorationState vo) Q w.
Proof.
  intros Hw HQ. unfold ResetExplorationState, SetAllowNewTasks, ClearRoundSchedule. mstep.
  apply hoare_TerminateRunningTasks; [done|]. intros w1 Hs1 Hb1.
  unfold ResetChecker, ResetWmmGraph, ResetOSState, ResetTargetState, on_rt. msteps.
  destruct (target_factory _) as [tgt m]. msteps. set (w2 := upd_base (set_target tgt) _).
  assert (reset_rest w1 w2) as H12 by (by split; [..|split]).
  apply hoare_OnRoundStart. intros w3 H23 Hrt3 Hsch3 Hj3 Hal3.
  assert (stopped w w3) as Hs3 by (eapply stopped_rest; [done|by etrans]).
  eapply hoare_RestartTasks; [exact Hs3|]. intros w4 Hw4 Hsh4 Hf4 Hsch4 Hj4 Hal4 Ht4.
  apply HQ. split; try done.
  - rewrite Hsch4, Hsch3. simpl. by rewrite Hb1.
  - by rewrite Hj4, Hj3.
  - by rewrite Hal4, Hal3.
Qed.

(** ** A new round *)

(** No tasks, as many threads as the strategy was made with. *)
Record new_round w w' : Prop := {
  nr_winv : winv w';
  nr_empty : threads (base w') = replicate (threads_count (base w)) [];
  nr_ids : new_task_id (base w') = 0%Z;
  nr_info : thread_info (rt w') = thread_info (rt w);
  nr_joins : join_pairs (base w') = ∅;
  nr_removed : removed_tasks (base w') = removed_tasks (base w);
  nr_allow : allow_new_tasks_ (base w') = true;
  nr_count : threads_count (base w') = threads_count (base w);
  nr_constructors : constructors (base w') = constructors (base w);
  nr_schedule : round_schedule (base w') = resize (round_schedule (base w)) (threads_count (base w)) (-1)%Z;
  nr_ext : ext w' = ext w;
}.

Lemma hoare_drop_all fuel ps (Q : unit → W → Prop) w :
  (∀ p, p ∈ ps → ∃ c, coro w p = Some c ∧ co_returned c = true) → Q () w →
  hoare fuel (for_each drop_handle ps) Q w.
Proof.
  induction ps as [|p ps IH]; intros Hps HQ; simpl; [by msteps|].
  destruct (Hps p) as (c&Hc&Hret); [by left|]. mstep. unfold drop_handle at 1. mstep.
  apply hoare_get_coro with c; [done|]. apply hoare_assert; [done|]. apply IH; [|done].
  intros q Hq. apply Hps. by right.
Qed.

Lemma concat_replicate_nil {A} n : concat (replicate n ([] : list A)) = [].
Proof. induction n; simpl; [done|]. by rewrite IHn. Qed.

(** Terminating tasks whose ids do not matter any more. *)
Lemma hoare_terminate_handles fuel ps (Q : unit → W → Prop) w :
  (∀ p, p ∈ ps → is_Some (coro w p)) →
  (∀ w', base w' = base w → ext w' = ext w → next_ptr (rt w') = next_ptr (rt w) →
     thread_info (rt w') = thread_info (rt w) → (∀ p, is_Some (coro w' p) ↔ is_Some (coro w p)) →
     (∀ p c, coro w' p = Some c → p ∈ ps ∨ returned w p = true → co_returned c = true) → Q () w') →
  hoare fuel (for_each terminate_task ps) Q w.
Proof.
  revert w. induction ps as [|p ps IH]; intros w Hps HQ; simpl.
  { msteps. apply HQ; try done. intros p c Hc [?|Hr]; [set_solver|]. unfold returned in Hr. by rewrite Hc in Hr. }
  destruct (Hps p) as [c Hc]; [by left|]. mstep. unfold terminate_task. eapply hoare_touch; [done| | |].
  { apply terminated_same. } { pose proof (terminated_returned c) as E. unfold terminated in E. congruence. }
  intros w1 Ht. change (DiscardRoundResults _) with (terminated c) in Ht.
  assert (∀ q, is_Some (coro w1 q) ↔ is_Some (coro w q)) as Hdom.
  { intros q. rewrite (touched_coro _ _ _ _ _ _ Ht). case_decide; [|done]. subst. by rewrite Hc. }
  apply IH; [intros q Hq; apply Hdom, Hps; by right|].
  intros w2 Hb He Hn Hi Hd Hr. destruct Ht as [? ? Hn1 Hi1 Hb1 He1 ? ?] eqn:E.
  apply HQ; try congruence.
  - intros q. by rewrite Hd.
  - intros q d Hq Hor. apply (Hr q d Hq). unfold returned. rewrite (touched_coro _ _ _ _ _ _ Ht).
    destruct Hor as [[->|]%elem_of_cons|Hret]; [right|by left|right].
    + rewrite decide_True by done. apply terminated_returned.
    + case_decide; [apply terminated_returned|done].
Qed.

Lemma hoare_StartNextRound fuel (Q : unit → W → Prop) w :
  winv w → (∀ w', new_round w w' → Q () w') → hoare fuel (StartNextRound vo) Q w.
Proof.
  intros Hw HQ. unfold StartNextRound, SetAllowNewTasks, TerminateRunningTasks. do 4 mstep. mstep. do 2 mstep.
  apply hoare_terminate_handles; [apply (wi_heap _ Hw)|].
  intros w1 Hb1 He1 Hn1 Hi1 Hd1 Hr1.
  unfold ResetChecker, ResetWmmGraph, ResetOSState, ResetTargetState, on_rt. msteps.
  destruct (target_factory _) as [tgt m]. msteps. set (w2 := upd_base (set_target tgt) _).
  assert (slots w2 = slots w) as Es2. { unfold slots. simpl. by rewrite Hb1. }
  change (concat (threads (base w2))) with (slots w2). rewrite Es2. apply hoare_drop_all.
  { intros p Hp. destruct (wi_heap _ Hw p Hp) as [c0 Hc0]. destruct (Hd1 p) as [_ Hx].
    destruct Hx as [c Hc]; [by exists c0|]. exists c. split; [done|]. apply (Hr1 p c Hc). by left. }
  set (w3 := upd_base (set_threads (replicate (threads_count (base w)) [])) w2).
  assert (∀ Q' : unit → W → Prop, Q' () w3 →
    hoare fuel (if length (threads (base w2)) =? threads_count (base w2)
      then modify (upd_base (λ b, set_threads ((λ _, []) <$> threads b) b))
      else modify (upd_base (set_threads (replicate (threads_count (base w2)) [])))) Q' w2) as Hclear.
  { intros Q' HQ'. assert (threads_count (base w2) = threads_count (base w)) as Ec by (simpl; by rewrite Hb1).
    rewrite Ec. destruct (Nat.eqb_spec (length (threads (base w2))) (threads_count (base w))) as [El|]; mstep; [|done].
    assert ((λ _, []) <$> threads (base w2) = replicate (threads_count (base w)) ([] : list nat)) as E.
    { rewrite <-El. clear. induction (threads (base w2)); simpl; [done|]. by f_equal. }
    unfold w3 in HQ'. unfold upd_base in HQ' |- *. by rewrite E. }
  mstep. apply Hclear. mstep. mstep. apply hoare_OnRoundStart. intros w4 Hr4 Hrt4 Hsch4 Hj4 Hal4.
  assert (threads (base w4) = replicate (threads_count (base w)) []) as Et4 by by rewrite (rr_threads _ _ Hr4).
  assert (slots w4 = []) as Es4. { unfold slots. rewrite Et4. apply concat_replicate_nil. }
  apply HQ. pose proof (rr_frame _ _ Hr4) as [Hf1 Hf2 Hf3 Hf4 Hf5 Hf6 Hf7]. simpl in *.
  split; rewrite ?Hf1, ?Hf2, ?Hf3, ?Hf4, ?Hf5, ?Hf7, ?Hsch4, ?Hj4, ?Hal4; simpl; rewrite ?Hb1; try done.
  split; rewrite ?Es4; [by intros p Hp%not_elem_of_nil| |constructor|by intros p c Hp%not_elem_of_nil
    |by intros p c Hp%not_elem_of_nil|by intros p q c d Hp%not_elem_of_nil].
  unfold coro. rewrite (rr_heap _ _ Hr4), (rr_next _ _ Hr4). simpl. intros p Hp%Hd1.
  rewrite Hn1. by apply (wi_fresh _ Hw).
Qed.

End Resets.
