(* ===== verification/Scheduling.v ===== *)
(** * Scheduling the tasks of a generated round

    Rules for [GetNextTaskInThread] and [NextSchedule], and the laws of the
    replayable strategies: resets restart the round, and [NextSchedule] returns
    a task that is neither finished nor removed. *)
From stdpp Require Import base list gmap strings.
From Stdlib Require Import ZArith.
From S2P Require Import Prelude Effects BlockManager Runtime Verifier Strategy Strategies.
From S2P Require Import WorldInv Choosing Slices Resets RoundCorrect StrategyLaws.

Open Scope nat_scope.

Section Schedule.
Context `{TT : TargetTypes, TC : !TargetCode, RN : Random, TO : !TargetObject}.
Context {B X : Type}.
Abbreviation W := (World B X).
Implicit Types (w : W) (p t : nat) (s : Slot) (c : Coro).

(** The schedule has a position for every thread, within its tasks. *)
Definition schedule_ok w : Prop :=
  ∀ t th, threads (base w) !! t = Some th →
    ∃ k, round_schedule (base w) !! t = Some k ∧ (-1 ≤ k ≤ Z.of_nat (length th))%Z.

(** [w'] is [w] up to the schedule and what a choice may touch. *)
Definition rescheduled w w' : Prop := ∃ l, stable (upd_base (set_round_schedule l) w) w'.

Lemma stable_rescheduled w w' : stable w w' → rescheduled w w'.
Proof. intros [] . exists (round_schedule (base w)). by split. Qed.

(** A task that a schedule may return. *)
Definition live w s : Prop :=
  ∃ p c, slot_ptr w s = Some p ∧ coro w p = Some c ∧ co_returned c = false ∧
    co_id c ∉ removed_tasks (base w).

Lemma stable_live w w' s : stable w w' → live w' s ↔ live w s.
Proof.
  intros Hs. unfold live. rewrite (stable_slot_ptr _ _ _ Hs), (st_removed _ _ Hs).
  by setoid_rewrite (stable_coro _ _ _ Hs).
Qed.

(** The next task of a thread: [GetNextTaskInThread] in every world that is
    the same up to a choice. *)
Definition next_index w t k : Prop :=
  ∀ w', stable w w' → GetNextTaskInThread t w' = Ret (k, w').

Lemma next_index_stable w w' t k : stable w w' → next_index w t k → next_index w' t k.
Proof. intros Hs Hn w'' Hs'. apply Hn. by etrans. Qed.

Lemma next_task_loop_spec w t th fuel k :
  winv w → threads (base w) !! t = Some th → (-1 ≤ k ≤ Z.of_nat (length th))%Z →
  (Z.of_nat (length th) - k ≤ Z.of_nat fuel)%Z →
  ∃ k', (0 ≤ k' ≤ Z.of_nat (length th))%Z ∧
    (∀ w', stable w w' → next_task_loop fuel t th k w' = Ret (k', w')) ∧
    (k' ≠ Z.of_nat (length th) → live w (t, Z.to_nat k')).
Proof.
  intros Hw Ht. revert k. induction fuel as [|fuel IH]; intros k Hk Hf.
  { exists (Z.of_nat (length th)). split; [lia|]. split; [|done]. intros w' _.
    assert (k = Z.of_nat (length th)) as -> by lia. simpl. by rewrite Z.leb_refl. }
  simpl. destruct (Z.leb_spec (Z.of_nat (length th)) k) as [Hle|Hlt].
  { exists k. split; [lia|]. split; [done|lia]. }
  destruct (Z.eqb_spec k (-1)) as [->|Hne]; [apply IH; lia|].
  destruct (lookup_lt_is_Some_2 th (Z.to_nat k)) as [p Hp]; [lia|].
  assert (slot_ptr w (t, Z.to_nat k) = Some p) as Hs by (unfold slot_ptr; simpl; by rewrite Ht).
  destruct (winv_slot _ _ _ Hw Hs) as [c Hc].
  set (skip := co_returned c || bool_decide (co_id c ∈ removed_tasks (base w))).
  assert (∀ w', stable w w' →
    (c0 ← coro_at (t, Z.to_nat k); removed ← IsTaskRemoved (co_id c0);
     if co_returned c0 || (removed : bool) then next_task_loop fuel t th (k + 1) else mret k) w' =
    (if skip then next_task_loop fuel t th (k + 1) else mret k) w') as Hstep.
  { intros w' Hs'. unfold coro_at, task_at, on_rt, get_coro, IsTaskRemoved, zoom, mbind, M_bind, get, gets,
      mderef, lift, deref. simpl. rewrite (st_threads _ _ Hs'), Ht. simpl. rewrite Hp.
    simpl. rewrite (st_heap _ _ Hs'). unfold coro in Hc. rewrite Hc.
    rewrite set_rt_self, (st_removed _ _ Hs'). done. }
  destruct skip eqn:Hskip.
  - destruct (IH (k + 1)%Z) as (k'&Hk'&Hrun&Hlive); [lia..|]. exists k'. split_and!; [lia..| |done].
    intros w' Hs'. rewrite (Hstep w' Hs'). by apply Hrun.
  - exists k. split_and!; [lia..| |].
    + intros w' Hs'. by rewrite (Hstep w' Hs').
    + intros _. apply orb_false_iff in Hskip as [? ?%bool_decide_eq_false]. by exists p, c.
Qed.

Lemma next_index_exists w t :
  winv w → schedule_ok w → t < length (threads (base w)) →
  ∃ th k, threads (base w) !! t = Some th ∧ next_index w t k ∧ (0 ≤ k ≤ Z.of_nat (length th))%Z ∧
    (k ≠ Z.of_nat (length th) → live w (t, Z.to_nat k)).
Proof.
  intros Hw Hok [th Ht]%thread_exists. destruct (Hok t th Ht) as (k0&Hk0&Hr).
  destruct (next_task_loop_spec w t th (S (length th)) k0 Hw Ht Hr) as (k&Hk&Hrun&Hlive); [lia|].
  exists th, k. split_and!; [done| |lia..|done]. intros w' Hs'.
  unfold GetNextTaskInThread, mbind, M_bind, get, mderef, lift, deref. cbn beta iota.
  rewrite (st_threads _ _ Hs'), Ht. cbn beta iota. rewrite (st_schedule _ _ Hs'), Hk0. by apply Hrun.
Qed.

Lemma hoare_next_index fuel w t k (Q : Z → W → Prop) :
  next_index w t k → Q k w → hoare fuel (GetNextTaskInThread t) Q w.
Proof. intros Hn HQ. unfold hoare. by rewrite (Hn w) by done. Qed.

(** A thread that [PickSchedule] may return. *)
Definition schedulable_at w t k : Prop := next_index w t k ∧ (0 ≤ k)%Z ∧ live w (t, Z.to_nat k).

Lemma hoare_schedule_thread fuel w t k (Q : StrategyNextResult → W → Prop) :
  schedule_ok w → schedulable_at w t k →
  (∀ w' b, rescheduled w w' → schedule_ok w' → ext w' = ext w →
     Q (TaskWithMetaData (t, Z.to_nat k) b t) w') →
  hoare fuel (schedule_thread t) Q w.
Proof.
  intros Hok (Hn&Hk0&p&c&Hp&Hc&Hret&Hrm) HQ. unfold schedule_thread. mstep.
  eapply hoare_next_index; [done|]. mstep. mstep. mstep.
  pose proof Hp as (th&Hth&Hp')%bind_Some. destruct (Hok t th Hth) as (k0&Hk&Hr).
  apply hoare_deref with k0; [done|]. mstep. mstep. mstep. eapply hoare_task_at; [exact Hp|]. mstep.
  apply HQ; [by exists (<[t := k]> (round_schedule (base w)))| |done].
  intros t' th' Ht'. simpl in *. destruct (decide (t' = t)) as [->|].
  - rewrite Hth in Ht'. injection Ht' as <-. exists k. split; [apply list_lookup_insert_eq; by eapply lookup_lt_Some|].
    apply lookup_lt_Some in Hp'. simpl in Hp'. lia.
  - rewrite list_lookup_insert_ne by done. by apply Hok.
Qed.

End Schedule.

(** What a strategy promises to the exploration and the replay of a round. *)
Class ReplayLaws `{TT : TargetTypes, TC : !TargetCode, RN : Random} {B X : Type}
    (ops : StrategyOps (World B X)) (sinv : X → nat → Prop) : Prop := {
  rl_reset w : winv w → wp (so_ResetCurrentRound ops) (λ _ w', restarted w w') w;
  rl_reset_explore w : winv w → wp (so_ResetExplorationState ops) (λ _ w', restarted w w') w;
  rl_start w : winv w → wp (so_StartNextRound ops) (λ _ w', new_round w w') w;
  rl_schedule w :
    winv w → no_os w → sinv (ext w) (length (threads (base w))) → schedule_ok w →
    wp (so_NextSchedule ops) (λ r w',
      rescheduled w w' ∧ schedule_ok w' ∧ sinv (ext w') (length (threads (base w'))) ∧
      match r with
      | NextFailure DEADLOCK => True
      | NextFailure _ => False
      | TaskWithMetaData s _ t => s.1 = t ∧ live w s
      end) w;
}.

Section PickSchedule.
Context `{TT : TargetTypes, TC : !TargetCode, RN : Random, TO : !TargetObject}.
Context {B X : Type} (vo : VerifierOps B) `{VT : !VerifierTotal vo}.
Abbreviation W := (World B X).
Implicit Types (w : W) (t : nat).

Lemma hoare_schedulable fuel t (Q : bool → W → Prop) w :
  winv w → schedule_ok w → t < length (threads (base w)) →
  (∀ b w', stable w w' → ext w' = ext w → (b = true → ∃ k, schedulable_at w t k) → Q b w') →
  hoare fuel (schedulable vo t) Q w.
Proof.
  intros Hw Hok Ht HQ. destruct (next_index_exists w t Hw Hok Ht) as (th&k&Hth&Hn&Hk&Hlive).
  unfold schedulable. mstep. eapply hoare_next_index; [done|]. mstep. mstep. mstep.
  apply hoare_deref with th; [done|]. destruct (Z.eqb_spec k (Z.of_nat (length th))) as [|Hne].
  { mstep. by apply HQ. }
  specialize (Hlive Hne). pose proof Hlive as (p&c&Hp&Hc&_). mstep. eapply hoare_task_at; [done|].
  mstep. apply hoare_IsBlocked; [by eauto|]. intros w1 Hs1 He1. destruct (blocked w p); [mstep; by apply HQ|].
  eapply hoare_VerifyExistingTask; [|by rewrite (stable_slot_ptr _ _ _ Hs1)|by rewrite (stable_coro _ _ _ Hs1)|].
  { done. }
  intros b w2 Hs2 He2. apply HQ; [by etrans|congruence|]. intros _. exists k. split_and!; [done|lia|done].
Qed.

Lemma schedulable_at_stable w w' t k : stable w w' → schedulable_at w t k → schedulable_at w' t k.
Proof.
  intros Hs (Hn&Hk&Hl). split_and!; [by eapply next_index_stable|done|]. by apply (stable_live w).
Qed.

Lemma stable_schedule_ok w w' : stable w w' → schedule_ok w → schedule_ok w'.
Proof. intros Hs Hok t th. rewrite (st_threads _ _ Hs), (st_schedule _ _ Hs). apply Hok. Qed.

Lemma schedulable_pick_test :
  pick_test (λ w : W, winv w ∧ schedule_ok w) (λ w t, ∃ k, schedulable_at w t k) (schedulable vo).
Proof.
  split.
  - intros w w' Hs [? ?]. split; [by eapply stable_winv|by eapply stable_schedule_ok].
  - intros w w' t Hs [k Hk]. exists k. by eapply schedulable_at_stable.
  - intros t w Q [Hw Hok] Ht HQ. by apply hoare_schedulable.
Qed.

(** What a picking strategy promises of [PickSchedule]. *)
Definition pick_schedule_law (pick : M W (option nat)) (sinv : X → nat → Prop) : Prop :=
  ∀ w, winv w → sinv (ext w) (length (threads (base w))) → schedule_ok w →
    wp pick (λ o w', stable w w' ∧ sinv (ext w') (length (threads (base w'))) ∧
      ∀ t, o = Some t → ∃ k, schedulable_at w' t k) w.

Lemma pick_replay_laws pick sched custom sinv :
  pick_schedule_law sched sinv → ReplayLaws (PickStrategyOps vo pick sched custom) sinv.
Proof.
  intros Hp. split; simpl.
  - intros w Hw. by apply hoare_ResetCurrentRound.
  - intros w Hw. by apply hoare_ResetExplorationState.
  - intros w Hw. by apply hoare_StartNextRound.
  - intros w Hw Ho Hx Hok. unfold PickNextSchedule. mstep. eapply hoare_weaken; [by apply Hp|].
    intros [t|] w1 (Hs1&Hx1&Ht).
    + destruct (Ht t eq_refl) as (k&Hk). eapply hoare_schedule_thread; [by eapply stable_schedule_ok|done|].
      intros w2 b (l&Hl) Hok2 He2. split_and!; [|done|..|done|].
      * exists l. etrans; [|exact Hl]. destruct Hs1. by split.
      * rewrite He2. rewrite (st_threads _ _ Hl). done.
      * simpl. apply (stable_live w w1); [done|]. apply Hk.
    + mstep. split_and!; [by apply stable_rescheduled|by eapply stable_schedule_ok|done|done].
Qed.

End PickSchedule.

Section Instances.
Context `{TT : TargetTypes, TC : !TargetCode, RN : Random, TO : !TargetObject}.
Context {B : Type} (vo : VerifierOps B) `{VT : !VerifierTotal vo}.

#[export] Instance round_robin_replay : ReplayLaws (RoundRobin.RoundRobinStrategy vo) (λ _ _, True).
Proof.
  apply pick_replay_laws. intros w Hw _ Hok. unfold RoundRobin.PickSchedule. msteps.
  eapply hoare_weaken; [by eapply rr_pick_loop; [apply schedulable_pick_test|..]|]. naive_solver.
Qed.

#[export] Instance round_robin_next `{SL : !ShuffleLaws} :
  NextLaws (RoundRobin.RoundRobinStrategy vo) (λ _ _, True).
Proof. unfold RoundRobin.RoundRobinStrategy. apply _. Qed.

#[export] Instance random_replay : ReplayLaws (RandomPick.RandomStrategy vo) weights_inv.
Proof.
  apply pick_replay_laws. intros w Hw Hx Hok.
  by eapply random_pick_by; [apply schedulable_pick_test|..].
Qed.

#[export] Instance random_next `{SL : !ShuffleLaws} : NextLaws (RandomPick.RandomStrategy vo) weights_inv.
Proof. unfold RandomPick.RandomStrategy. apply _. Qed.

End Instances.
