(* ===== verification/ReplayCorrect.v ===== *)
(** * Exploring and replaying a round

    [ExploreRound] and [ReplayRound] of [StrategyScheduler], over any strategy
    with [ReplayLaws]: they do not fail, they keep the tasks of the round, and
    what they report is a deadlock with a pending operation or a history that
    is not linearizable. *)
From stdpp Require Import base list gmap strings.
From Stdlib Require Import ZArith.
From S2P Require Import Prelude LinSpec Events History Linearizability Wgl LincheckDual Checkers.
From S2P Require Import Effects BlockManager Runtime Verifier Strategy Scheduler Rounds.
From S2P Require Import WorldInv Choosing Slices Resets Recorded RoundCorrect StrategyLaws Scheduling.

Open Scope nat_scope.

(** ** Linearizability does not depend on which coroutines the slots hold *)
Section Similar.
Context {St A V : Type} (methods : MethodMap St A V) (veq : V → V → bool).
Implicit Types (h : list (HistoryEvent A V)).

Definition similar_task (t t' : Task A V) : Prop :=
  task_ref t' = task_ref t ∧ task_name t' = task_name t ∧ task_args t' = task_args t.
Definition similar (e e' : HistoryEvent A V) : Prop :=
  match e, e' with
  | Invoke t n, Invoke t' n' => similar_task t t' ∧ n' = n
  | Response t v n, Response t' v' n' => similar_task t t' ∧ v' = v ∧ n' = n
  | _, _ => False
  end.

Lemma similar_sym e e' : similar e e' → similar e' e.
Proof. destruct e, e'; simpl; unfold similar_task; naive_solver congruence. Qed.

Lemma similar_answers h h' i r :
  Forall2 similar h h' → answers task_ref h i r → answers task_ref h' i r.
Proof.
  intros Hs (ei&er&Hi&Hr&Ii&Ir&Hk).
  destruct (Forall2_lookup_l _ _ _ _ _ Hs Hi) as (ei'&Hi'&Si).
  destruct (Forall2_lookup_l _ _ _ _ _ Hs Hr) as (er'&Hr'&Sr).
  exists ei', er'. unfold event_key in *. destruct ei, ei', er, er'; simpl in *; try done.
  unfold similar_task in *. naive_solver congruence.
Qed.

Lemma similar_legal h h' lin s :
  Forall2 similar h h' → legal methods veq task_ref h lin s → legal methods veq task_ref h' lin s.
Proof.
  intros Hs. assert (Forall2 similar h' h) as Hs'.
  { apply Forall2_flip. eapply Forall2_impl; [exact Hs|]. apply similar_sym. }
  induction 1 as [s|i lin s t th m Hi Hm Hag _ IH]; [constructor|].
  destruct (Forall2_lookup_l _ _ _ _ _ Hs Hi) as ([t' th'|]&Hi'&Si); [|done].
  destruct Si as [(_&Hn&Ha) ->]. econstructor; [exact Hi'|by rewrite Hn| |by rewrite Ha].
  rewrite Ha. intros r u v n Hans Hr. destruct (Forall2_lookup_l _ _ _ _ _ Hs' Hr) as ([|u' v' n']&Hr'&Sr); [done|].
  destruct Sr as (_&->&->). eapply Hag; [|exact Hr']. by eapply similar_answers.
Qed.

Lemma similar_linearizable h h' s :
  Forall2 similar h h' → linearizable methods veq task_ref h s → linearizable methods veq task_ref h' s.
Proof.
  intros Hs (lin&[Hnd Hc Ho Hl]). assert (Forall2 similar h' h) as Hs'.
  { apply Forall2_flip. eapply Forall2_impl; [exact Hs|]. apply similar_sym. }
  exists lin. split; [done|..].
  - intros i r Hans. eapply (Hc i r). by eapply similar_answers.
  - intros p q i j r ?? Hans. eapply (Ho p q i j r); [done..|]. by eapply similar_answers.
  - by eapply similar_legal.
Qed.
End Similar.

Section Replay.
Context `{TT : TargetTypes, TC : !TargetCode, RN : Random, TO : !TargetObject, PT : !PlainTarget}.
Context {B X : Type} (vo : VerifierOps B) `{VT : !VerifierTotal vo}.
Abbreviation W := (World B X).
Context (ops : StrategyOps W) (sinv : X → nat → Prop) `{RL : !ReplayLaws ops sinv}.
Context {St : Type} (methods : MethodMap St Args Value) (veq : Value → Value → bool) (s0 : St).
Context (checker : list (HistoryEvent Args Value) → outcome bool).
Context `{MC : !ModelChecker methods veq s0 checker}.
Context (policy : DeadlockPolicy).
Implicit Types (w : W) (p : nat) (s : Slot) (c : Coro).
Abbreviation known := (λ n, is_Some (methods !! n)).
Abbreviation explained w seq := (linearizable methods veq task_ref (history_view w seq) s0).
Abbreviation eo := (ordinary_events checker ops).
Abbreviation ready := (ready sinv methods).

Lemma same_shape_explained w w' seq :
  winv w → winv w' → same_shape w w' → slots_exist w seq → explained w seq → explained w' seq.
Proof.
  intros Hw Hw' Hs Hsl. apply similar_linearizable. unfold history_view.
  apply Forall2_fmap, Forall_Forall2_diag, Forall_forall. intros e He.
  assert (similar_task (task_view w (ev_slot e)) (task_view w' (ev_slot e))) as Ht.
  { pose proof (Hsl e He) as Hp. destruct (proj1 (winv_slot_coro w _ Hw) Hp) as [c Hc].
    destruct (proj1 (winv_slot_coro w' (ev_slot e) Hw')) as [c' Hc']; [by apply Hs|].
    destruct (ss_tasks _ _ Hs _ _ _ Hc Hc') as (_&Hn&_&Ha&_).
    destruct (task_view_coro _ _ _ Hc) as (En&Ea&_). destruct (task_view_coro _ _ _ Hc') as (En'&Ea'&_).
    unfold similar_task. rewrite !task_view_ref. split_and!; congruence. }
  by destruct e.
Qed.

(** What a reset, an exploration and a replay keep of the world. *)
Record carried w w' : Prop := {
  ca_shape : same_shape w w';
  ca_removed : removed_tasks (base w') = removed_tasks (base w);
  ca_count : threads_count (base w') = threads_count (base w);
  ca_constructors : constructors (base w') ≡ₚ constructors (base w);
}.

Lemma carried_refl w : carried w w.
Proof. split; try done. apply same_shape_refl. Qed.

Lemma carried_trans w1 w2 w3 : winv w2 → carried w1 w2 → carried w2 w3 → carried w1 w3.
Proof.
  intros Hw [S1 R1 C1 K1] [S2 R2 C2 K2]. split; try congruence.
  - eapply same_shape_trans; [exact Hw|done..].
  - by etrans.
Qed.

Lemma stable_carried w w' : stable w w' → carried w w'.
Proof.
  intros Hs. pose proof (stable_same_shape _ _ Hs). destruct Hs. by split.
Qed.

Lemma touched_carried w w' p c c' : touched w w' p c c' → carried w w'.
Proof.
  intros Ht. pose proof (touched_same_shape _ _ _ _ _ Ht). destruct Ht as [? ? ? ? Hb ? ? ?].
  split; by rewrite ?Hb.
Qed.

(** A reported history: its slots are those of the round, and it is bad. *)
Record bad_ok w (bad : NonLinearizableHistory SchedEvent) : Prop := {
  bo_seq : slots_exist w (nl_seq bad);
  bo_full s : s ∈ nl_full bad → is_Some (slot_ptr w s);
  bo_reason :
    match nl_reason bad with
    | NON_LINEARIZABLE_HISTORY => ¬ explained w (nl_seq bad)
    | DEADLOCK_FOUND => policy = PolicyFail ∧ pending (nl_seq bad)
    | ASSERT_FAILURE => False
    end;
}.

Lemma bad_ok_carried w w' bad : winv w → winv w' → same_shape w w' → bad_ok w bad → bad_ok w' bad.
Proof.
  intros Hw Hw' Hs [Hq Hf Hr]. assert (slots_exist w' (nl_seq bad)) as Hq' by (intros e He; by apply Hs, Hq).
  split; [done|..].
  - intros s Hin. by apply Hs, Hf.
  - destruct (nl_reason bad); [done|done|]. intros He. apply Hr.
    apply (same_shape_explained w' w); [done..| |done|done].
    destruct Hs as [Ht Hsl Htk]. split; [done|by symmetry|].
    intros s c c' Hc Hc'. specialize (Htk s c' c Hc' Hc). unfold same_task in *. naive_solver congruence.
Qed.

(** The tasks of a reported history. *)
Definition uses w (bad : NonLinearizableHistory SchedEvent) (id : Z) : Prop :=
  ∃ s c, slot_coro w s = Some c ∧ co_id c = id ∧ (s ∈ nl_full bad ∨ ∃ e, e ∈ nl_seq bad ∧ ev_slot e = s).

(** ** What a replay tracks *)

Record tracked w (started : gset Z) (seq : list SchedEvent) (full : list Slot) : Prop := {
  tk_ready : ready w;
  tk_recorded : recorded w seq;
  tk_started s c : slot_coro w s = Some c →
    co_id c ∈ started ↔ ∃ u, EvInvoke s u ∈ seq;
  tk_full s : s ∈ full → ∃ c, slot_coro w s = Some c ∧ co_id c ∈ started;
}.

Lemma tracked_nil w : ready w → tracked w ∅ [] [].
Proof.
  intros Hr. split; [done|apply recorded_nil| |set_solver]. intros s c _. split; [set_solver|].
  intros [u Hu]. by apply not_elem_of_nil in Hu.
Qed.

Lemma tracked_stable w w' started seq full :
  stable w w' → sinv (ext w') (length (threads (base w'))) →
  tracked w started seq full → tracked w' started seq full.
Proof.
  intros Hs Hx [Hr Hrec Hst Hf]. split; [by eapply ready_stable|by eapply recorded_stable|..].
  - intros s c. rewrite (stable_slot_coro _ _ _ Hs). apply Hst.
  - intros s. rewrite (stable_slot_coro _ _ _ Hs). apply Hf.
Qed.

Lemma tracked_stable_ext w w' started seq full :
  stable w w' → ext w' = ext w → tracked w started seq full → tracked w' started seq full.
Proof.
  intros Hs He Ht. apply (tracked_stable w); [done| |done].
  rewrite He, (st_threads _ _ Hs). apply Ht.
Qed.

Lemma tracked_kept w w' p c c' started seq full :
  touched w w' p c c' → (co_returned c = true → co_returned c' = true ∧ co_ret c' = co_ret c) →
  tracked w started seq full → tracked w' started seq full.
Proof.
  intros Ht Hret [Hr Hrec Hst Hf]. split; [by eapply ready_touched|by eapply recorded_kept|..].
  - intros s d (q&Hq&Hd)%slot_coro_Some. rewrite (touched_slot _ _ _ _ _ _ Ht) in Hq.
    rewrite (touched_coro _ _ _ _ _ _ Ht) in Hd. case_decide as Hqp.
    + injection Hd as <-. destruct Ht as [Hc _ _ _ _ _ (->&_) _]. subst q.
      apply (Hst s c). apply slot_coro_Some. eauto.
    + apply (Hst s d). apply slot_coro_Some. eauto.
  - intros s (d&(q&Hq&Hd)%slot_coro_Some&Hin)%Hf. rewrite <-(touched_slot _ _ _ _ _ _ Ht) in Hq.
    destruct (decide (q = p)) as [->|Hqp].
    + exists c'. rewrite slot_coro_Some, (proj1 (to_same _ _ _ _ _ Ht)). split.
      * exists p. rewrite (touched_coro _ _ _ _ _ _ Ht). by rewrite decide_True.
      * pose proof (to_coro _ _ _ _ _ Ht). congruence.
    + exists d. rewrite slot_coro_Some. split; [|done]. exists q. rewrite (touched_coro _ _ _ _ _ _ Ht).
      by rewrite decide_False.
Qed.

Lemma tracked_touched w w' p c c' started seq full :
  touched w w' p c c' → co_returned c = false →
  tracked w started seq full → tracked w' started seq full.
Proof. intros Ht Hc. apply (tracked_kept w w' p c c'); [done|congruence]. Qed.

Lemma tracked_start w s c t started seq full :
  tracked w started seq full → slot_coro w s = Some c → co_id c ∉ started →
  tracked w ({[co_id c]} ∪ started) (seq ++ [EvInvoke s t]) full.
Proof.
  intros [Hr Hrec Hst Hf] Hc Hnew. pose proof (rd_winv _ _ _ Hr) as Hw.
  split; [done| | |intros s' (d&?&?)%Hf; exists d; set_solver].
  - apply recorded_invoke; [done|apply slot_coro_Some in Hc as (p&->&_); done|].
    intros u Hu. apply Hnew, (Hst s c Hc). eauto.
  - intros s' d Hd. rewrite elem_of_union, elem_of_singleton. setoid_rewrite elem_of_app.
    rewrite (Hst s' d Hd). split.
    + intros [E|[u Hu]]; [|by exists u; left]. exists t. right. apply list_elem_of_singleton. f_equal.
      by apply (winv_slot_id w s' s d c).
    + intros [u [Hu|Hu%list_elem_of_singleton]]; [right; eauto|left]. congruence.
Qed.

Lemma tracked_full w s c started seq full :
  tracked w started seq full → slot_coro w s = Some c → co_id c ∈ started → tracked w started seq (full ++ [s]).
Proof.
  intros [Hr Hrec Hst Hf] Hs Hin. split; [done..|]. intros s' [?| ->%list_elem_of_singleton]%elem_of_app; [by apply Hf|by exists c].
Qed.

Lemma tracked_response w s c started seq full t :
  tracked w started seq full → slot_coro w s = Some c → co_returned c = true → co_id c ∈ started →
  (∀ v u, EvResponse s v u ∉ seq) → tracked w started (seq ++ [EvResponse s (co_ret c) t]) full.
Proof.
  intros [Hr Hrec Hst Hf] Hc Hret Hin Hno. split; [done| | |done].
  - eapply recorded_response; [done..| |done]. by apply (Hst s c Hc).
  - intros s' d Hd. rewrite (Hst s' d Hd). setoid_rewrite elem_of_app. split.
    + intros [u Hu]. eauto.
    + intros [u [Hu|Hu%list_elem_of_singleton]]; [eauto|done].
Qed.

(** ** The parts of a step *)

Lemma hoare_thread_context fuel ids ps active ctx (Q : bool * StartContext → W → Prop) w :
  winv w → (∀ p, p ∈ ps → p ∈ slots w) →
  (∀ r w', stable w w' → ext w' = ext w → Q r w') →
  hoare fuel (thread_context ids ps active ctx) Q w.
Proof.
  revert active ctx w. induction ps as [|p ps IH]; intros active ctx w Hw Hps HQ; simpl; [mstep; by apply HQ|].
  destruct (wi_heap _ Hw p) as [c Hc]; [by apply Hps; left|].
  mstep. apply hoare_get_coro with c; [done|]. unfold IsTaskRemoved. mstep. mstep. cbn beta.
  destruct (negb _ || _ || _); [apply IH; [done|set_solver|done]|].
  mstep. apply hoare_IsBlocked; [by eauto|]. intros w1 Hs1 He1.
  apply IH; [by eapply stable_winv|rewrite (stable_slots _ _ Hs1); set_solver|].
  intros r w2 Hs2 He2. apply HQ; [by etrans|congruence].
Qed.

Lemma hoare_BuildReplayStartContext fuel ids (Q : StartContext → W → Prop) w :
  winv w → (∀ ctx w', stable w w' → ext w' = ext w → Q ctx w') →
  hoare fuel (BuildReplayStartContext ids) Q w.
Proof.
  intros Hw HQ. unfold BuildReplayStartContext. mstep. mstep. generalize (mkContext (Z.of_nat (length (threads (base w)))) 0 ∅ ∅).
  assert (∀ p, p ∈ concat (threads (base w)) → p ∈ slots w) as Hps by done. revert Hps.
  generalize (threads (base w)) as ths. intros ths. revert w Hw HQ.
  induction ths as [|th ths IH]; intros w Hw HQ Hps ctx; simpl; [mstep; by apply HQ|].
  mstep. apply hoare_thread_context; [done|intros p Hp; apply Hps; simpl; set_solver|].
  intros [active ctx'] w1 Hs1 He1. apply IH; [by eapply stable_winv|..].
  - intros ctx2 w2 Hs2 He2. apply HQ; [by etrans|congruence].
  - intros p Hp. rewrite (stable_slots _ _ Hs1). apply Hps. simpl. set_solver.
Qed.

(** Running or terminating an unfinished task. *)
Lemma hoare_resume_and_record fuel forced s t p c (Q : bool * list SchedEvent → W → Prop) w :
  winv w → slot_ptr w s = Some p → coro w p = Some c → co_returned c = false →
  (∀ w2 w3 c', touched w w2 p c c' → stable w2 w3 → ext w3 = ext w2 →
     (forced = false → ∃ f, co_ctx c = Some f ∧ sliced w w2 p c f c') →
     Q (co_returned c', if co_returned c' && negb forced then [EvResponse s (co_ret c') (Z.of_nat t)] else []) w3) →
  hoare fuel (resume_and_record vo eo forced s t) Q w.
Proof.
  intros Hw Hs Hc Hret HQ. unfold resume_and_record. mstep. eapply hoare_task_at; [done|]. mstep.
  assert (∀ w2 c', touched w w2 p c c' → (forced = false → ∃ f, co_ctx c = Some f ∧ sliced w w2 p c f c') →
    hoare fuel (drained ← eo_drain eo; c0 ← coro_at s;
      if co_returned c0 then OnVerifierTaskFinish vo s t;;
        resp ← (if forced then mret [] else eo_response eo s t); mret (true, drained ++ resp)
      else mret (false, drained)) Q w2) as Hrest.
  { intros w2 c' Ht Hforced. simpl. mstep. mstep.
    assert (slot_ptr w2 s = Some p) as Hs2 by by rewrite (touched_slot _ _ _ _ _ _ Ht).
    assert (coro w2 p = Some c') as Hc2 by (rewrite (touched_coro _ _ _ _ _ _ Ht); by rewrite decide_True).
    mstep. eapply hoare_coro_at; [done..|]. pose proof (λ w3 Hs3 He3, HQ w2 w3 c' Ht Hs3 He3 Hforced) as HQ'.
    clear HQ Hforced. destruct (co_returned c') eqn:Hret'.
    - mstep. eapply hoare_OnVerifierTaskFinish; [done..|]. intros w3 Hs3 He3. specialize (HQ' w3 Hs3 He3).
      destruct forced; mstep; [by msteps|].
      mstep. eapply hoare_task_at; [by rewrite (stable_slot_ptr _ _ _ Hs3)|]. mstep.
      unfold on_rt, Runtime.GetRetVal, get_coro. msteps.
      apply hoare_deref with c'; [by rewrite (st_heap _ _ Hs3)|]. rewrite Hret'. mstep.
      apply hoare_assert; [done|]. msteps. by rewrite set_rt_self.
    - mstep. by apply HQ'. }
  destruct forced.
  - eapply hoare_touch; [done|done|done|]. intros w2 Ht. by eapply Hrest.
  - destruct (wi_ctx _ Hw p c) as [f Hf]; [by eapply slot_in|done..|].
    eapply hoare_Resume; [done..|]. intros w2 c' Hsl. pose proof Hsl as [Ht _]. eapply Hrest; eauto.
Qed.

(** A slice of a task that was started. *)
Lemma tracked_slice w w2 w3 p c c' s started seq full t forced :
  tracked w started seq full → slot_ptr w s = Some p → coro w p = Some c → co_returned c = false →
  co_id c ∈ started → touched w w2 p c c' → stable w2 w3 → ext w3 = ext w2 →
  tracked w3 started
    (seq ++ if co_returned c' && negb forced then [EvResponse s (co_ret c') t] else []) full.
Proof.
  intros Htk Hs Hc Hret Hin Ht Hst He.
  assert (slot_coro w s = Some c) as Hsc by (apply slot_coro_Some; eauto).
  assert (∀ v u, EvResponse s v u ∉ seq) as Hno.
  { intros v u Hv. exact (recorded_unanswered w s c seq v u (tk_recorded _ _ _ _ Htk) Hsc Hret Hv). }
  assert (tracked w2 started seq full) as Htk2 by by eapply tracked_touched.
  apply (tracked_stable_ext w2); [done..|]. destruct (co_returned c') eqn:Hret'; simpl; [|by rewrite app_nil_r].
  destruct forced; simpl; [by rewrite app_nil_r|]. apply tracked_response; [done| |done| |done].
  - apply slot_coro_Some. exists p. rewrite (touched_slot _ _ _ _ _ _ Ht), (touched_coro _ _ _ _ _ _ Ht).
    by rewrite decide_True.
  - destruct Ht as [_ _ _ _ _ _ (->&_) _]. done.
Qed.

(** The verdicts. *)
(** A report about tracked tasks. *)
Definition bad_of w (started : gset Z) bad : Prop := bad_ok w bad ∧ ∀ id, uses w bad id → id ∈ started.

Lemma tracked_bad w started seq full bad :
  tracked w started seq full → nl_seq bad = seq → nl_full bad = full →
  match nl_reason bad with
  | NON_LINEARIZABLE_HISTORY => ¬ explained w seq
  | DEADLOCK_FOUND => policy = PolicyFail ∧ pending seq
  | ASSERT_FAILURE => False
  end → bad_of w started bad.
Proof.
  intros [Hr Hrec Hst Hf] <- <- Hre. split.
  - split; [exact (rc_slot _ _ Hrec)| |done]. intros s (c&(p&->&_)%slot_coro_Some&_)%Hf. done.
  - intros id (s&c&Hc&<-&[(d&Hd&?)%Hf|(e&He&<-)]); [congruence|]. apply (Hst _ c Hc).
    assert (∃ e', e' ∈ nl_seq bad ∧ ev_invoke e' = true ∧ ev_slot e' = ev_slot e) as (e'&He'&Hi&Es).
    { destruct (ev_invoke e) eqn:Hi; [by exists e|]. apply list_elem_of_lookup_1 in He as [r Hr'].
      destruct (wfh_matched _ _ _ (rc_wf _ _ Hrec) r e Hr' Hi) as (i&ei&_&Hei&?&?).
      exists ei. split_and!; [by eapply list_elem_of_lookup_2|done..]. }
    destruct e' as [s' u|]; [|done]. simpl in Es. subst s'. eauto.
Qed.

Lemma hoare_bad_verdict fuel full seq started (Q : Result SchedEvent → W → Prop) w :
  tracked w started seq full → Q None w →
  (∀ bad, bad_of w started bad → Q (Some bad) w) →
  hoare fuel (verdict eo full seq) Q w.
Proof.
  intros Htk HQ HQ'. pose proof Htk as [Hr Hrec _ _].
  apply (hoare_verdict methods veq s0); [done|apply Hr|apply Hr|done|done|].
  intros Hn. apply HQ'. by eapply tracked_bad.
Qed.

Lemma hoare_report_deadlock fuel full seq started (Q : Result SchedEvent → W → Prop) w :
  policy = PolicyFail → tracked w started seq full → Q None w → (∀ bad, bad_of w started bad → Q (Some bad) w) →
  hoare fuel (reportable ← IsReportableDeadlockHistory eo seq;
              mret (if (reportable : bool) then Some (mkBad full seq DEADLOCK_FOUND) else None)) Q w.
Proof.
  intros Hp Htk HQ HQ'. pose proof Htk as [Hr Hrec _ _]. mstep. apply (hoare_IsReportable methods veq s0 checker ops).
  { apply Hr. } { exact (rc_slot _ _ Hrec). }
  intros [] Hb; mstep; [|done]. apply HQ'. eapply tracked_bad; [done..|]. simpl. split; [done|]. by apply Hb.
Qed.

(** ** [ExploreRound] *)

(** Between rounds: the schedule has room for every thread. *)
Record replayable w : Prop := {
  ry_ready : ready w;
  ry_schedule : length (threads (base w)) ≤ length (round_schedule (base w));
}.

Lemma schedule_ok_length w : schedule_ok w → length (threads (base w)) ≤ length (round_schedule (base w)).
Proof.
  intros Hok. destruct (threads (base w)) as [|th ths] eqn:E using rev_ind; [simpl; lia|].
  rewrite length_app. simpl. destruct (Hok (length ths) th) as (k&Hk&_).
  { rewrite E. by rewrite list_lookup_middle. }
  apply lookup_lt_Some in Hk. lia.
Qed.

Lemma restarted_ready w w' :
  replayable w → restarted w w' → replayable w' ∧ schedule_ok w' ∧ carried w w'.
Proof.
  intros [[Hw [Hi Ho] Hx Hn] Hl] [Hw' Hsh [F1 F2 F3 F4 F5 F6 F7] Ht Hsch Hj Hal].
  pose proof (ss_threads _ _ Hsh) as Et. split_and!.
  - split.
    + split; [done|split; congruence|congruence|]. apply (same_shape_names _ w); [done..| |done]. by rewrite F5.
    + by rewrite Et, Hsch, length_fmap.
  - intros t th Hth. apply lookup_lt_Some in Hth as Hlt. rewrite Et in Hlt.
    destruct (lookup_lt_is_Some_2 (round_schedule (base w)) t) as [k Hk]; [lia|].
    exists (-1)%Z. rewrite Hsch, list_lookup_fmap, Hk. split; [done|lia].
  - split; [done..|]. by rewrite F5.
Qed.

Lemma tracked_reschedule l w started seq full :
  tracked w started seq full → tracked (upd_base (set_round_schedule l) w) started seq full.
Proof. intros [[[] Ho Hx Hn] [] H1 H2]. split; [split; [split|..]|split|..]; assumption. Qed.

Lemma rescheduled_tracked w w' started seq full :
  rescheduled w w' → sinv (ext w') (length (threads (base w'))) →
  tracked w started seq full → tracked w' started seq full ∧ carried w w'.
Proof.
  intros (l&Hl) Hx Ht. split.
  - eapply tracked_stable; [exact Hl|done|]. by apply tracked_reschedule.
  - destruct (stable_carried _ _ Hl) as [[] ? ? ?]. split; [split|..]; assumption.
Qed.

Lemma live_rescheduled w w' s : rescheduled w w' → live w s →
  ∃ p c, slot_ptr w' s = Some p ∧ coro w' p = Some c ∧ co_returned c = false.
Proof.
  intros (l&Hl) (p&c&Hp&Hc&Hr&_). exists p, c.
  rewrite (stable_slot_ptr _ _ _ Hl), (stable_coro _ _ _ Hl). done.
Qed.

Lemma hoare_explore_allowed fuel st s t p c (Q : bool * explore_st → W → Prop) w :
  tracked w (ex_started st) (ex_seq st) (ex_full st) → slot_ptr w s = Some p → coro w p = Some c →
  (∀ b st' w', stable w w' → ext w' = ext w → tracked w' (ex_started st') (ex_seq st') (ex_full st') →
     ex_full st' = ex_full st → (b = true → co_id c ∈ ex_started st') →
     (∀ id, id ∈ ex_started st' → id ∈ ex_started st ∨ id = co_id c) → Q (b, st') w') →
  hoare fuel (explore_allowed vo eo st s t) Q w.
Proof.
  intros Htk Hs Hc HQ. pose proof (rd_winv _ _ _ (tk_ready _ _ _ _ Htk)) as Hw.
  assert (slot_coro w s = Some c) as Hsc by (apply slot_coro_Some; eauto).
  unfold explore_allowed. mstep. eapply hoare_coro_at; [done..|]. case_bool_decide as Hin; simpl.
  - destruct (co_returned c); [mstep; apply HQ; [done..|auto]|]. mstep. eapply hoare_VerifyExistingTask; [done..|].
    intros b w1 Hs1 He1. mstep. apply HQ; [done..|by eapply tracked_stable_ext|done|done|auto].
  - mstep. apply hoare_BuildReplayStartContext; [done|]. intros ctx w1 Hs1 He1. mstep.
    eapply (hoare_VerifyTaskStart vo); [by rewrite (stable_slot_ptr _ _ _ Hs1)|by rewrite (stable_coro _ _ _ Hs1)|].
    intros b w2 Hs2 He2. assert (stable w w2) as Hs02 by by etrans. destruct b; simpl.
    + mstep. eapply (hoare_OnVerifierTaskStart vo);
        [by rewrite (stable_slot_ptr _ _ _ Hs02)|by rewrite (stable_coro _ _ _ Hs02)|].
      intros w3 Hs3 He3. msteps. assert (stable w w3) as Hs03 by by etrans.
      assert (ext w3 = ext w) as He03 by congruence.
      apply HQ; [done|done| |done|set_solver|set_solver]. simpl. apply tracked_start; [by eapply tracked_stable_ext| |done].
      by rewrite (stable_slot_coro _ _ _ Hs03).
    + mstep. assert (ext w2 = ext w) as He02 by congruence.
      apply HQ; [done|done|by eapply tracked_stable_ext|done|done|auto].
Qed.

(** Exploring ends when the code under test is bounded ([R]). *)
Section Explore.
Context (rank : Fiber → nat) (K : nat) (R : Prop) (HR : R → RankLaws rank K).

Lemma restarted_cost w w' : R → restarted w w' → cost rank w' ≤ length (slots w') * (K + 1).
Proof.
  intros HRR Hrs. pose proof (HR HRR). unfold cost.
  assert (∀ p, p ∈ slots w' → coro_cost rank (coro w' p) ≤ K + 1) as Hone.
  { intros p Hp. destruct (slots_in _ _ Hp) as [s Hs]. destruct (wi_heap _ (rs_winv _ _ Hrs) p Hp) as [c Hc].
    assert (slot_coro w' s = Some c) as Hsc by (apply slot_coro_Some; eauto).
    pose proof (rs_tasks _ _ Hrs s c Hsc) as Ht. rewrite Hc. simpl. unfold task_restarted in Ht. case_bool_decide.
    - rewrite Ht. lia.
    - destruct Ht as (->&Hctx&_). rewrite Hctx. pose proof (rk_new (co_func c) (co_this c) (co_args c)). lia. }
  revert Hone. induction (slots w') as [|p ps IH]; intros Hone; simpl; [lia|].
  pose proof (Hone p ltac:(by left)). assert (∀ q, q ∈ ps → coro_cost rank (coro w' q) ≤ K + 1) as Hps.
  { intros q Hq. apply Hone. by right. }
  specialize (IH Hps). lia.
Qed.

Lemma rescheduled_cost w w' : rescheduled w w' → cost rank w' = cost rank w.
Proof. intros (l&Hl). by rewrite (cost_stable rank _ _ Hl). Qed.

Lemma hoare_explore_loop fuel n st w :
  tracked w (ex_started st) (ex_seq st) (ex_full st) → schedule_ok w →
  hoare (R → fuel ≤ cost rank w) (explore_loop vo ops eo fuel n st) (λ r w', tracked w' (ex_started r.2) (ex_seq r.2) (ex_full r.2) ∧
    schedule_ok w' ∧ carried w w' ∧ ∀ id, id ∈ ex_started r.2 → id ∈ removed_tasks (base w) → id ∈ ex_started st) w.
Proof.
  revert n st w. induction fuel as [|fuel IH]; intros n st w Htk Hok.
  { destruct n; simpl; [|unfold hoare; simpl; lia]. mstep. split_and!; [done..|apply carried_refl|done]. }
  pose proof (tk_ready _ _ _ _ Htk) as Hr. destruct n as [|n]; simpl.
  { mstep. split_and!; [done..|apply carried_refl|done]. }
  mstep. apply (hoare_fuel False); [|intros []]. eapply hoare_weaken; [apply rl_schedule; [apply Hr..|done]|].
  intros r w1 (Hrs&Hok1&Hx1&Hres). destruct (rescheduled_tracked _ _ _ _ _ Hrs Hx1 Htk) as [Htk1 Hca1].
  pose proof (rd_winv _ _ _ (tk_ready _ _ _ _ Htk1)) as Hw1.
  destruct r as [[]|s is_new t]; [|done|done|]; [by mstep|]. destruct Hres as [_ Hlive]. pose proof Hlive as (p0&c0&Hp0&Hc0&_&Hnr).
  destruct (live_rescheduled _ _ _ Hrs Hlive) as (p&c&Hp&Hc&Hret).
  mstep. eapply hoare_explore_allowed; [done..|]. intros b st' w2 Hs2 He2 Htk2 Hfull Hin Hnew.
  assert (∀ id, id ∈ ex_started st' → id ∈ removed_tasks (base w) → id ∈ ex_started st) as Hnew'.
  { intros id [?| ->]%Hnew Hrm; [done|]. destruct Hrs as (l&Hl).
    rewrite (stable_slot_ptr _ _ _ Hl) in Hp. rewrite (stable_coro _ _ _ Hl) in Hc.
    change (slot_ptr w s = Some p) in Hp. change (coro w p = Some c) in Hc. congruence. }
  assert (winv w2) as Hw2 by by eapply stable_winv.
  assert (carried w w2) as Hca2 by (eapply carried_trans; [exact Hw1|done|by apply stable_carried]).
  assert (schedule_ok w2) as Hok2 by by eapply stable_schedule_ok.
  destruct b; simpl; [|by mstep]. mstep.
  assert (slot_ptr w2 s = Some p) as Hp2 by by rewrite (stable_slot_ptr _ _ _ Hs2).
  assert (coro w2 p = Some c) as Hc2 by by rewrite (stable_coro _ _ _ Hs2).
  eapply hoare_resume_and_record; [done..|]. intros w3 w4 c' Ht3 Hs4 He4 Hsl. simpl.
  assert (winv w3) as Hw3 by by eapply touched_winv.
  assert (R → cost rank w4 < cost rank w) as Hcost.
  { intros HRR. destruct (Hsl eq_refl) as (f&Hf&Hsl'). rewrite (cost_stable rank _ _ Hs4).
    rewrite <-(rescheduled_cost _ _ Hrs), <-(cost_stable rank _ _ Hs2).
    eapply (sliced_cost rank K R HR); [done|exact Hw2|by eapply slot_in|done..]. }
  assert (carried w w4) as Hca4.
  { eapply carried_trans; [exact Hw2|done|]. eapply carried_trans; [exact Hw3|by eapply touched_carried|by apply stable_carried]. }
  assert (schedule_ok w4) as Hok4.
  { intros t' th'. rewrite (st_threads _ _ Hs4), (st_schedule _ _ Hs4), (to_base _ _ _ _ _ Ht3). apply Hok2. }
  eapply hoare_weaken; [eapply hoare_fuel; [apply IH|]|].
  - simpl. eapply (tracked_slice w2 w3 w4 p c c' s _ _ _ _ false); [|exact Hp2|exact Hc2|exact Hret|by apply Hin|done..].
    eapply tracked_full; [done|apply slot_coro_Some; eauto|by apply Hin].
  - done.
  - intros Hfuel HRR. specialize (Hfuel HRR). specialize (Hcost HRR). lia.
  - intros r w5 (Htk5&Hok5&Hca5&Hid5). split_and!; [done..| |].
    + eapply carried_trans; [|exact Hca4|done]. by eapply stable_winv.
    + intros id Hid Hrm. apply Hnew'; [|done]. apply Hid5; [done|]. by rewrite (ca_removed _ _ Hca4).
Qed.

(** The result of an exploration or a replay, about the tasks in [ids]. *)
Definition report_ok (ids : Z → Prop) w (res : Result SchedEvent) w' : Prop :=
  replayable w' ∧ carried w w' ∧ ∀ bad, res = Some bad → bad_ok w' bad ∧ ∀ id, uses w' bad id → ids id.

Lemma tracked_replayable w started seq full :
  tracked w started seq full → schedule_ok w → replayable w.
Proof. intros Ht Hok. split; [apply Ht|by apply schedule_ok_length]. Qed.

Lemma hoare_explore_verdict fuel d st (Q : Result SchedEvent → W → Prop) w :
  tracked w (ex_started st) (ex_seq st) (ex_full st) → Q None w →
  (∀ bad, bad_of w (ex_started st) bad → Q (Some bad) w) →
  hoare fuel (explore_verdict eo policy d st) Q w.
Proof.
  intros Ht HQ HQ'. unfold explore_verdict.
  assert (hoare fuel (verdict eo (ex_full st) (ex_seq st)) Q w) as Hv.
  { by eapply hoare_bad_verdict. }
  destruct d; [|done]. destruct policy eqn:Hp; try done.
  eapply hoare_report_deadlock; done.
Qed.

Lemma hoare_ExploreRound fuel runs w :
  replayable w →
  hoare (R → fuel ≤ length (slots w) * (K + 1)) (ExploreRound vo ops eo policy fuel runs)
    (report_ok (λ id, id ∉ removed_tasks (base w)) w) w.
Proof.
  revert w. induction runs as [|runs IH]; intros w Hr; simpl.
  { mstep. split_and!; [done|apply carried_refl|done]. }
  mstep. apply (hoare_fuel False); [|intros []]. eapply hoare_weaken; [apply rl_reset, Hr|]. intros [] w1 Hrs.
  destruct (restarted_ready _ _ Hr Hrs) as (Hr1&Hok1&Hca1). mstep.
  assert (∀ F (Q : nat → W → Prop), (∀ n, Q n w1) → hoare F GetValidTasksCount Q w1) as Hcount.
  { intros F Q HQ. unfold GetValidTasksCount. mstep. mstep.
    assert (∀ p, p ∈ concat (threads (base w1)) → is_Some (coro w1 p)) as Hps.
    { intros p Hp. apply (wi_heap _ (rs_winv _ _ Hrs)). done. }
    revert Q HQ. induction (concat (threads (base w1))) as [|p ps IHp]; intros Q HQ; [by mstep|].
    destruct (Hps p) as [c Hc]; [by left|]. mstep. apply hoare_get_coro with c; [done|]. mstep.
    apply IHp; [intros q Hq; apply Hps; by right|]. intros n. mstep. apply HQ. }
  apply Hcount. intros n. mstep.
  eapply hoare_weaken; [eapply hoare_fuel; [apply hoare_explore_loop; [apply tracked_nil, Hr1|done]|]|].
  { intros Hfuel HRR. specialize (Hfuel HRR). pose proof (restarted_cost _ _ HRR Hrs).
    rewrite (same_shape_slots _ _ (rs_shape _ _ Hrs)) in *. lia. }
  intros [d st] w2 (Htk2&Hok2&Hca2&Hid2). simpl in *. mstep.
  assert (carried w w2) as Hca by (eapply carried_trans; [apply Hr1|done..]).
  apply hoare_explore_verdict; [done|..].
  - eapply hoare_weaken; [eapply hoare_fuel; [apply IH; by eapply tracked_replayable|]|].
    { by rewrite (same_shape_slots _ _ (ca_shape _ _ Hca)). }
    intros res w3 (Hr3&Hca3&Hb).
    split_and!; [done| |by rewrite <-(ca_removed _ _ Hca)]. eapply carried_trans; [apply (tk_ready _ _ _ _ Htk2)|done..].
  - intros bad [Hb Hu]. mstep. split_and!; [by eapply tracked_replayable|done|]. intros bad' [= <-]. split; [done|].
    intros id Hid%Hu Hrm. rewrite <-(ca_removed _ _ Hca1) in Hrm. by apply Hid2 in Hrm; [apply not_elem_of_empty in Hrm|].
Qed.

End Explore.

(** ** [ReplayRound] *)

Lemma hoare_find_task fuel id t i th (Q : option Slot → W → Prop) w :
  winv w → (∀ j p, th !! j = Some p → slot_ptr w (t, i + j) = Some p) →
  (∀ s c, slot_coro w s = Some c → co_id c = id → Q (Some s) w) →
  ((∀ j c, slot_coro w (t, i + j) = Some c → j < length th → co_id c ≠ id) → Q None w) →
  hoare fuel (find_task id t i th) Q w.
Proof.
  intros Hw. revert i. induction th as [|p th IH]; intros i Hth HQ HQ'; simpl.
  { mstep. apply HQ'. simpl. lia. }
  assert (slot_ptr w (t, i) = Some p) as Hp. { rewrite <-(Nat.add_0_r i). by apply Hth. }
  destruct (winv_slot _ _ _ Hw Hp) as [c Hc]. assert (slot_coro w (t, i) = Some c) as Hsc by (apply slot_coro_Some; eauto).
  mstep. apply hoare_get_coro with c; [done|]. case_bool_decide as Hid; [mstep; by eapply HQ|].
  apply IH.
  - intros j q Hq. replace (S i + j) with (i + S j) by lia. by apply Hth.
  - done.
  - intros Hno. apply HQ'. intros [|j] d Hd Hlt.
    + rewrite Nat.add_0_r in Hd. congruence.
    + apply (Hno j d); [|simpl in Hlt; lia]. by replace (S i + j) with (i + S j) by lia.
Qed.

Lemma hoare_GetTask fuel id (Q : option Slot → W → Prop) w :
  winv w → (∀ s c, slot_coro w s = Some c → co_id c = id → Q (Some s) w) →
  ((∀ s c, slot_coro w s = Some c → co_id c ≠ id) → Q None w) →
  hoare fuel (Strategy.GetTask id) Q w.
Proof.
  intros Hw HQ HQ'. unfold Strategy.GetTask. mstep. mstep.
  assert (∀ t ths, (∀ k th, ths !! k = Some th → threads (base w) !! (t + k) = Some th) →
    ((∀ k i c, k < length ths → slot_coro w (t + k, i) = Some c → co_id c ≠ id) → Q None w) →
    hoare fuel (find_in_threads id t ths) Q w) as Hgo.
  { intros t ths. revert t. induction ths as [|th ths IH]; intros t Hths Hno; simpl.
    { mstep. apply Hno. simpl. lia. }
    assert (threads (base w) !! t = Some th) as Hth by (rewrite <-(Nat.add_0_r t); by apply Hths).
    mstep. apply hoare_find_task; [done|..].
    - intros j p Hp. unfold slot_ptr. simpl. rewrite Hth. done.
    - intros s c Hc Hid. mstep. by eapply HQ.
    - intros Hnone. apply IH.
      + intros k th' Hk. replace (S t + k) with (t + S k) by lia. by apply Hths.
      + intros Hrest. apply Hno. intros [|k] i c Hk Hc.
        * rewrite Nat.add_0_r in Hc. apply (Hnone i c); [done|].
          apply slot_coro_Some in Hc as (p&Hp&_). unfold slot_ptr in Hp. simpl in Hp. rewrite Hth in Hp.
          by apply lookup_lt_Some in Hp.
        * apply (Hrest k i c); [simpl in Hk; lia|]. by replace (S t + k) with (t + S k) by lia. }
  apply Hgo; [done|]. intros Hno. apply HQ'. intros [t i] c Hc. apply (Hno t i c); [|done].
  apply slot_coro_Some in Hc as (p&(th&Hth&_)%bind_Some&_). by apply lookup_lt_Some in Hth.
Qed.

(** A task id of the round. *)
Definition known_id w id : Prop := ∃ s c, slot_coro w s = Some c ∧ co_id c = id.

Lemma same_shape_known_id w w' id : winv w' → same_shape w w' → known_id w id → known_id w' id.
Proof.
  intros Hw' Hs (s&c&Hc&Hid). destruct (proj1 (winv_slot_coro w' s Hw')) as [c' Hc'].
  { apply Hs. apply slot_coro_Some in Hc as (p&->&_). done. }
  exists s, c'. split; [done|]. destruct (ss_tasks _ _ Hs _ _ _ Hc Hc') as (->&_). done.
Qed.

Lemma carried_known_id w w' id : winv w' → carried w w' → known_id w id → known_id w' id.
Proof. intros Hw' [Hs _ _ _]. by apply same_shape_known_id. Qed.

Lemma carried_known_iff w w' id : winv w → winv w' → carried w w' → known_id w id ↔ known_id w' id.
Proof.
  intros Hw Hw' Hc. split; [by apply carried_known_id|]. intros (s&c'&Hc'&Hid).
  destruct (proj1 (winv_slot_coro w s Hw)) as [c Hsc].
  { apply (ss_slots _ _ (ca_shape _ _ Hc)). apply slot_coro_Some in Hc' as (p&->&_). done. }
  exists s, c. split; [done|]. destruct (ss_tasks _ _ (ca_shape _ _ Hc) _ _ _ Hsc Hc') as (<-&_). done.
Qed.

Record replaying w st : Prop := {
  ri_tracked : tracked w (rp_started st) (rp_seq st) (rp_full st);
  ri_cutoff : length (rp_cutoff st) = length (threads (base w));
  ri_schedule : schedule_ok w;
}.

Lemma replaying_cut w st t : replaying w st → replaying w (cut_thread st t).
Proof. intros [Ht Hc Hs]. split; simpl; [done| |done]. by rewrite length_insert. Qed.

Lemma replaying_stable w w' st : stable w w' → ext w' = ext w → replaying w st → replaying w' st.
Proof.
  intros Hs He [Ht Hc Hk]. split; [by eapply tracked_stable_ext|by rewrite (st_threads _ _ Hs)|by eapply stable_schedule_ok].
Qed.

Lemma hoare_replay_allowed fuel (st : replay_st (Event := SchedEvent)) s id p c (Q : bool * bool → W → Prop) w :
  winv w → slot_ptr w s = Some p → coro w p = Some c →
  (∀ b w', stable w w' → ext w' = ext w → Q (b, negb (bool_decide (id ∈ rp_started st))) w') →
  hoare fuel (replay_allowed vo st s id) Q w.
Proof.
  intros Hw Hs Hc HQ. unfold replay_allowed. case_bool_decide as Hin; simpl in *.
  - mstep. eapply hoare_coro_at; [done..|]. destruct (co_returned c); [mstep; by apply HQ|].
    mstep. eapply hoare_VerifyExistingTask; [done..|]. intros b w1 Hs1 He1. mstep. by apply HQ.
  - mstep. apply hoare_BuildReplayStartContext; [done|]. intros ctx w1 Hs1 He1. mstep.
    eapply (hoare_VerifyTaskStart vo); [by rewrite (stable_slot_ptr _ _ _ Hs1)|by rewrite (stable_coro _ _ _ Hs1)|].
    intros b w2 Hs2 He2. assert (stable w w2) as Hs02 by by etrans. destruct b; simpl.
    + mstep. eapply (hoare_OnVerifierTaskStart vo);
        [by rewrite (stable_slot_ptr _ _ _ Hs02)|by rewrite (stable_coro _ _ _ Hs02)|].
      intros w3 Hs3 He3. mstep. apply HQ; [by etrans|congruence].
    + mstep. apply HQ; [by etrans|congruence].
Qed.

Lemma hoare_replay_step fuel mode last_pos st step id w :
  replaying w st → known_id w id →
  hoare fuel (replay_step vo eo mode last_pos st step id) (λ st' w', replaying w' st' ∧ carried w w' ∧
    ∀ i, i ∈ rp_started st' → i ∈ rp_started st ∨ i = id) w.
Proof.
  intros Hri (s0'&c0&Hc0&Hid0). pose proof (ri_tracked _ _ Hri) as Htk.
  pose proof (rd_winv _ _ _ (tk_ready _ _ _ _ Htk)) as Hw. unfold replay_step. mstep.
  apply hoare_GetTask; [done| |intros Hno; by destruct (Hno _ _ Hc0)].
  intros s c Hsc Hid. pose proof Hsc as (p&Hp&Hc)%slot_coro_Some.
  pose proof Hp as (th&Hth&_)%bind_Some. apply lookup_lt_Some in Hth as Hlt.
  destruct (lookup_lt_is_Some_2 (rp_cutoff st) s.1) as [cut Hcut]; [by rewrite (ri_cutoff _ _ Hri)|].
  mstep. apply hoare_deref with cut; [done|]. destruct cut; [mstep; split_and!; [done|apply carried_refl|auto]|].
  mstep. eapply hoare_replay_allowed; [done..|]. intros b w1 Hs1 He1.
  assert (winv w1) as Hw1 by by eapply stable_winv.
  assert (replaying w1 st) as Hri1 by by eapply replaying_stable.
  destruct b; simpl; [|mstep; split_and!; [by apply replaying_cut|by apply stable_carried|auto]].
  assert (slot_ptr w1 s = Some p) as Hp1 by by rewrite (stable_slot_ptr _ _ _ Hs1).
  assert (coro w1 p = Some c) as Hc1 by by rewrite (stable_coro _ _ _ Hs1).
  mstep. eapply hoare_task_at; [done|]. mstep. eapply hoare_touch; [done|done| |].
  { simpl. intros Hret. apply (wi_ctx _ Hw1 p c); [by eapply slot_in|done..]. }
  intros w2 Ht2. mstep.
  assert (winv w2) as Hw2 by by eapply touched_winv.
  (* the record of the start *)
  set (is_new := negb (bool_decide (id ∈ rp_started st))).
  set (started := if is_new then {[id]} ∪ rp_started st else rp_started st).
  set (seq := if is_new then rp_seq st ++ [EvInvoke s (Z.of_nat s.1)] else rp_seq st).
  assert (∀ Q : list SchedEvent → W → Prop, Q (if is_new then [EvInvoke s (Z.of_nat s.1)] else []) w2 →
    hoare fuel (if is_new then eo_start eo s s.1 else mret []) Q w2) as Hstart by (intros Q HQ; by destruct is_new).
  apply Hstart. clear Hstart. simpl.
  assert (rp_seq st ++ (if is_new then [EvInvoke s (Z.of_nat s.1)] else []) = seq) as Eseq.
  { unfold seq. destruct is_new; [done|by rewrite app_nil_r]. }
  rewrite Eseq. pose proof (ri_tracked _ _ Hri1) as Htk1.
  assert (slot_coro w1 s = Some c) as Hsc1 by (apply slot_coro_Some; eauto).
  assert (co_id c ∈ started) as Hstd.
  { rewrite Hid. unfold started, is_new. case_bool_decide; simpl; [done|].
    apply elem_of_union. left. by apply elem_of_singleton. }
  assert (tracked w1 started seq (rp_full st ++ [s])) as Htkn.
  { eapply tracked_full; [|exact Hsc1|done]. unfold started, seq, is_new. case_bool_decide as Hin; simpl; [done|].
    rewrite <-Hid in *. by apply tracked_start. }
  assert (∀ w' st', tracked w' (rp_started st') (rp_seq st') (rp_full st') → carried w2 w' → rp_cutoff st' = rp_cutoff st →
    schedule_ok w' → rp_started st' = started → replaying w' st' ∧ carried w w' ∧
    ∀ i, i ∈ rp_started st' → i ∈ rp_started st ∨ i = id) as Hfin.
  { intros w' st' Htk' Hca' Hcut' Hsch' Hstd'. split_and!.
    - split; [done| |done]. rewrite Hcut', (ri_cutoff _ _ Hri1).
      rewrite (ss_threads _ _ (ca_shape _ _ Hca')), (to_base _ _ _ _ _ Ht2). done.
    - eapply carried_trans; [exact Hw1|by apply stable_carried|]. eapply carried_trans; [exact Hw2| |done].
      by eapply touched_carried.
    - rewrite Hstd'. unfold started. destruct is_new; set_solver. }
  assert (schedule_ok w2) as Hsch2. { intros t' th'. rewrite (to_base _ _ _ _ _ Ht2). apply (ri_schedule _ _ Hri1). }
  assert (slot_ptr w2 s = Some p) as Hp2 by by rewrite (touched_slot _ _ _ _ _ _ Ht2).
  assert (coro w2 p = Some (clearWakeupCondition c)) as Hc2.
  { rewrite (touched_coro _ _ _ _ _ _ Ht2). by rewrite decide_True. }
  mstep. eapply hoare_coro_at; [done..|]. simpl. destruct (co_returned c) eqn:Hret.
  - (* the record of a returned task keeps its value *)
    mstep. apply Hfin; [|apply carried_refl|done|done|done]. simpl. by eapply tracked_kept.
  - assert (tracked w2 started seq (rp_full st ++ [s])) as Htk2 by by eapply tracked_touched.
    mstep. eapply hoare_resume_and_record; [done..|]. intros w3 w4 c' Ht3 Hs4 He4 _. simpl. mstep.
    assert (winv w3) as Hw3 by by eapply touched_winv.
    apply Hfin; simpl.
    + by eapply (tracked_slice w2 w3 w4).
    + eapply carried_trans; [exact Hw3|by eapply touched_carried|by apply stable_carried].
    + done.
    + intros t' th'. rewrite (st_threads _ _ Hs4), (st_schedule _ _ Hs4), (to_base _ _ _ _ _ Ht3). apply Hsch2.
    + done.
Qed.

Lemma hoare_replay_loop fuel mode last_pos st step ids w :
  replaying w st → (∀ id, id ∈ ids → known_id w id) →
  hoare fuel (replay_loop vo eo mode last_pos st step ids)
    (λ st' w', replaying w' st' ∧ carried w w' ∧ ∀ i, i ∈ rp_started st' → i ∈ rp_started st ∨ i ∈ ids) w.
Proof.
  revert st step w. induction ids as [|id ids IH]; intros st step w Hri Hids; simpl.
  { mstep. split_and!; [done|apply carried_refl|auto]. }
  mstep. eapply hoare_weaken; [apply hoare_replay_step; [done|apply Hids; by left]|].
  intros st1 w1 (Hri1&Hca1&Hid1). pose proof (rd_winv _ _ _ (tk_ready _ _ _ _ (ri_tracked _ _ Hri1))) as Hw1.
  eapply hoare_weaken; [apply IH; [done|]|].
  - intros i Hi. eapply carried_known_id; [done..|]. apply Hids. by right.
  - intros st2 w2 (Hri2&Hca2&Hid2). split_and!; [done|by eapply carried_trans|].
    intros i [[?| ->]%Hid1|?]%Hid2; [by left|by right; left|by right; right].
Qed.

Lemma hoare_unfinished_ids fuel ids ps acc (Q : bool * bool → W → Prop) w :
  winv w → (∀ p, p ∈ ps → p ∈ slots w) → (∀ r w', stable w w' → ext w' = ext w → Q r w') →
  hoare fuel (unfinished_and_runnable ids ps acc) Q w.
Proof.
  revert acc w. induction ps as [|p ps IH]; intros acc w Hw Hps HQ; simpl; [mstep; by apply HQ|].
  assert (∀ q, q ∈ ps → q ∈ slots w) as Hps' by (intros q Hq; apply Hps; by right).
  destruct (wi_heap _ Hw p) as [c Hc]; [by apply Hps; left|].
  mstep. apply hoare_get_coro with c; [done|]. unfold IsTaskRemoved. mstep. mstep. cbn beta.
  destruct (_ || _); [by apply IH|]. mstep. apply hoare_IsBlocked; [by eauto|]. intros w1 Hs1 He1.
  destruct (blocked w p); [|mstep; by apply HQ]. apply IH; [by eapply stable_winv| |].
  - intros q Hq. rewrite (stable_slots _ _ Hs1). by apply Hps'.
  - intros r w2 Hs2 He2. apply HQ; [by etrans|congruence].
Qed.

(** The verdict of a replay that left a task unfinished and none runnable. *)
Lemma hoare_stuck_verdict fuel full seq started (Q : Result SchedEvent → W → Prop) w :
  tracked w started seq full → Q None w → (∀ bad, bad_of w started bad → Q (Some bad) w) →
  hoare fuel (ok ← eo_check eo seq;
    if negb ok then mret (Some (mkBad full seq NON_LINEARIZABLE_HISTORY))
    else match policy with
         | PolicyFail =>
             reportable ← IsReportableDeadlockHistory eo seq;
             mret (if (reportable : bool) then Some (mkBad full seq DEADLOCK_FOUND) else None)
         | _ => mret None
         end) Q w.
Proof.
  intros Htk HQ HQ'. pose proof Htk as [Hr Hrec _ Hf]. mstep.
  apply (hoare_check methods veq s0); [done|apply Hr|apply Hr|done|]. intros [] Hb; simpl.
  - destruct policy eqn:Hp; try by mstep. by eapply hoare_report_deadlock.
  - mstep. apply HQ'. eapply tracked_bad; [done..|]. simpl. by intros ?%Hb.
Qed.

Lemma hoare_ReplayRound ordering mode w :
  replayable w → (∀ id, id ∈ ordering → known_id w id) →
  wp (ReplayRound vo ops eo policy ordering mode) (report_ok (.∈ ordering) w) w.
Proof.
  intros Hr Hids. unfold ReplayRound. mstep. eapply hoare_weaken; [apply rl_reset, Hr|]. intros [] w1 Hrs.
  destruct (restarted_ready _ _ Hr Hrs) as (Hr1&Hok1&Hca1). mstep. mstep. mstep.
  eapply hoare_weaken; [apply hoare_replay_loop|].
  { split; simpl; [apply tracked_nil, Hr1|by rewrite length_replicate|done]. }
  { intros id Hid. eapply carried_known_id; [apply Hr1|done|by apply Hids]. }
  intros st w2 (Hri2&Hca2&Hid2). mstep.
  assert (∀ b w3, stable w2 w3 → ext w3 = ext w2 → hoare False
    (if b : bool then
       ok ← eo_check eo (rp_seq st);
       if negb ok then mret (Some (mkBad (rp_full st) (rp_seq st) NON_LINEARIZABLE_HISTORY))
       else match policy with
            | PolicyFail =>
                reportable ← IsReportableDeadlockHistory eo (rp_seq st);
                mret (if (reportable : bool) then Some (mkBad (rp_full st) (rp_seq st) DEADLOCK_FOUND) else None)
            | _ => mret None
            end
     else verdict eo (rp_full st) (rp_seq st)) (report_ok (.∈ ordering) w) w3) as Hend.
  { intros b w3 Hs3 He3. destruct (replaying_stable _ _ _ Hs3 He3 Hri2) as [Htk3 Hcut3 Hsch3].
    assert (carried w w3) as Hca3.
    { eapply carried_trans; [apply Hr1|done|]. eapply carried_trans; [apply (ri_tracked _ _ Hri2)|done|].
      by apply stable_carried. }
    assert (report_ok (.∈ ordering) w None w3) as HN by (split_and!; [by eapply tracked_replayable|done|done]).
    assert (∀ bad, bad_of w3 (rp_started st) bad → report_ok (.∈ ordering) w (Some bad) w3) as HS.
    { intros bad [Hb Hu]. split_and!; [by eapply tracked_replayable|done|]. intros ? [= <-]. split; [done|].
      intros id [Hid|?]%Hu%Hid2; [by apply not_elem_of_empty in Hid|done]. }
    destruct b; [by eapply hoare_stuck_verdict|by eapply hoare_bad_verdict]. }
  destruct mode; [by mstep; apply (Hend false w2)|]. mstep. unfold GetUnfinishedAndRunnable. mstep. mstep.
  apply hoare_unfinished_ids; [apply (ri_tracked _ _ Hri2)|done|]. intros r w3 Hs3 He3. mstep. by apply Hend.
Qed.

(** An id outside the round. *)
Lemma GetTask_unknown id w :
  winv w → ¬ known_id w id → Strategy.GetTask id w = Ret (None, w).
Proof.
  intros Hw Hno. pose proof (hoare_GetTask False id (λ o w', o = None ∧ w' = w) w Hw) as H.
  destruct (hoare_run (Strategy.GetTask id) (λ o w', o = None ∧ w' = w) w) as (o&w'&->&->&->); [|done].
  apply H; [|done]. intros s c Hs Hid. destruct Hno. by exists s, c.
Qed.

Lemma replay_loop_unknown mode last_pos st step ids rest id w :
  replaying w st → (∀ i, i ∈ ids → known_id w i) → ¬ known_id w id →
  replay_loop vo eo mode last_pos st step (ids ++ id :: rest) w = Throw "Invalid task id".
Proof.
  revert st step w. induction ids as [|i ids IH]; intros st step w Hri Hids Hno; simpl.
  - apply bind_throw. unfold replay_step. rewrite (bind_run _ _ _ None w); [done|].
    apply GetTask_unknown; [|done]. apply (ri_tracked _ _ Hri).
  - destruct (hoare_run _ _ _ (hoare_replay_step False mode last_pos st step i w Hri (Hids i ltac:(by left))))
      as (st1&w1&E1&Hri1&Hca1&_).
    pose proof (rd_winv _ _ _ (tk_ready _ _ _ _ (ri_tracked _ _ Hri))) as Hw.
    pose proof (rd_winv _ _ _ (tk_ready _ _ _ _ (ri_tracked _ _ Hri1))) as Hw1.
    rewrite (bind_run _ _ _ st1 w1 E1). apply IH; [done|..].
    + intros k Hk. eapply carried_known_id; [done..|]. apply Hids. by right.
    + by rewrite <-(carried_known_iff w w1).
Qed.

Lemma replay_round_unknown ids rest id mode w :
  replayable w → (∀ i, i ∈ ids → known_id w i) → ¬ known_id w id →
  ReplayRound vo ops eo policy (ids ++ id :: rest) mode w = Throw "Invalid task id".
Proof.
  intros Hr Hids Hno. unfold ReplayRound.
  destruct (hoare_run _ _ _ (rl_reset w (rd_winv _ _ _ (ry_ready _ Hr)))) as ([]&w1&E1&Hrs).
  destruct (restarted_ready _ _ Hr Hrs) as (Hr1&Hok1&Hca1).
  pose proof (rd_winv _ _ _ (ry_ready _ Hr)) as Hw. pose proof (rd_winv _ _ _ (ry_ready _ Hr1)) as Hw1.
  rewrite (bind_run _ _ _ () w1 E1), (bind_run get _ w1 w1 w1) by done. apply bind_throw.
  apply replay_loop_unknown.
  - split; simpl; [apply tracked_nil, Hr1|by rewrite length_replicate|done].
  - intros i Hi. eapply carried_known_id; [exact Hw1|done|by apply Hids].
  - by rewrite <-(carried_known_iff w w1).
Qed.

End Replay.
