(* ===== verification/MinimizeCorrect.v ===== *)
(** * Minimization keeps a bad history bad

    The greedy minimizers and the genetic one of minimization.h and
    minimization_smart.h, over any scheduler that keeps [SchedulerLaws]: what
    they return is a bad history of the round, and the greedy ones return one
    in which no removed task occurs. *)
From Stdlib Require Import ZArith SpecFloat.
From stdpp Require Import base list gmap strings.
From S2P Require Import Prelude History Verifier BlockManager Effects Runtime Strategy Scheduler Rounds Minimization.
From S2P Require Import WorldInv Slices Resets ReplayCorrect.

Open Scope nat_scope.

(** What a scheduler promises to the minimizers. [Inv] holds between its
    calls, [bad_ok] says that a history is a bad one of the round, [uses] that
    a task occurs in it, and [F] whether a call may run out of fuel. *)
Class SchedulerLaws `{TT : TargetTypes, TC : !TargetCode, RN : Random} {B X Event : Type}
    (eo : EventOps (World B X) Event) (sched : SchedulerOps (World B X) Event) (F : Prop)
    (Inv : World B X → Prop) (bad_ok : World B X → NonLinearizableHistory Event → Prop)
    (uses : World B X → NonLinearizableHistory Event → Z → Prop) : Prop := {
  sl_winv w : Inv w → winv w;
  sl_removed w r : Inv w → Inv (upd_base (set_removed r) w);
  sl_bad w w' bad : Inv w → Inv w' → same_shape w w' → bad_ok w bad → bad_ok w' bad;
  sl_uses w w' bad id : Inv w → Inv w' → same_shape w w' → uses w' bad id → uses w bad id;
  sl_full w bad s : bad_ok w bad → s ∈ nl_full bad → is_Some (slot_ptr w s);
  sl_full_uses w bad s c : s ∈ nl_full bad → slot_coro w s = Some c → uses w bad (co_id c);
  sl_some w bad : Inv w → bad_ok w bad → ∃ id, uses w bad id ∧ known_id w id;
  sl_meaningful w bad : Inv w → bad_ok w bad → IsMeaningfulBadResult eo bad w = Ret (true, w);
  sl_starts w bad e : Inv w → bad_ok w bad → e ∈ nl_seq bad →
    ∃ o, eo_StartTaskId eo e w = Ret (o, w);
  sl_explore runs w : Inv w →
    hoare F (sc_ExploreRound sched runs) (λ res w',
      Inv w' ∧ same_shape w w' ∧ removed_tasks (base w') = removed_tasks (base w) ∧
      ∀ bad, res = Some bad → bad_ok w' bad ∧ ∀ id, uses w' bad id → id ∉ removed_tasks (base w')) w;
  sl_replay ids mode w : Inv w → (∀ id, id ∈ ids → known_id w id) →
    hoare F (sc_ReplayRound sched ids mode) (λ res w',
      Inv w' ∧ same_shape w w' ∧ removed_tasks (base w') = removed_tasks (base w) ∧
      ∀ bad, res = Some bad → bad_ok w' bad ∧ ∀ id, uses w' bad id → id ∈ ids) w;
  sl_reset w : Inv w →
    hoare F (sc_ResetCurrentRound sched) (λ _ w',
      Inv w' ∧ same_shape w w' ∧ removed_tasks (base w') = removed_tasks (base w)) w;
}.

Section Minimize.
Context `{TT : TargetTypes, TC : !TargetCode, RN : Random, TO : !TargetObject}.
Context {B X Event : Type}.
Abbreviation W := (World B X).
Abbreviation Bad := (NonLinearizableHistory Event).
Context (eo : EventOps W Event) (sched : SchedulerOps W Event) (F : Prop).
Context (Inv : W → Prop) (bad_ok : W → Bad → Prop) (uses : W → Bad → Z → Prop).
Context `{SL : !SchedulerLaws eo sched F Inv bad_ok uses}.
Implicit Types (w : W) (bad : Bad) (ids : list Z).

Lemma hoare_Ret {A} fuel (m : M W A) a w (Q : A → W → Prop) :
  m w = Ret (a, w) → Q a w → hoare fuel m Q w.
Proof. intros E HQ. unfold hoare. by rewrite E. Qed.

(** A bad history of the tasks that are not removed. *)
Record min_ok w bad : Prop := {
  mo_inv : Inv w;
  mo_bad : bad_ok w bad;
  mo_uses id : uses w bad id → id ∉ removed_tasks (base w);
}.

Lemma removed_shape r w : same_shape w (upd_base (set_removed r) w).
Proof. destruct (same_shape_refl w). split; assumption. Qed.

Lemma shape_removed r w w' : same_shape w w' → same_shape w (upd_base (set_removed r) w').
Proof. intros []. split; assumption. Qed.

(** Marking tasks. *)
Lemma hoare_mark fuel ids (b : bool) (Q : unit → W → Prop) w :
  (∀ r, (∀ id, id ∈ r ↔ (if b then id ∈ ids ∨ id ∈ removed_tasks (base w)
                        else id ∉ ids ∧ id ∈ removed_tasks (base w))) →
    Q () (upd_base (set_removed r) w)) →
  hoare fuel (for_each (λ id, SetTaskRemoved id b) ids) Q w.
Proof.
  revert w. induction ids as [|i ids IH]; intros w HQ; simpl.
  - mstep. destruct w as [r bs x]. specialize (HQ (removed_tasks bs)). destruct bs. apply HQ. simpl.
    intros id. destruct b; set_solver.
  - mstep. unfold SetTaskRemoved at 1. mstep. apply IH. intros r Hr. apply HQ. intros id.
    rewrite (Hr id). simpl. destruct b; set_solver.
Qed.

(** The ids of a bad history. *)
Lemma hoare_GetTasksOrdering fuel full ex (Q : list Z → W → Prop) w :
  winv w → (∀ s, s ∈ full → is_Some (slot_ptr w s)) →
  (∀ ids, (∀ id, id ∈ ids → id ∉ ex ∧ ∃ s c, s ∈ full ∧ slot_coro w s = Some c ∧ co_id c = id) → Q ids w) →
  hoare fuel (GetTasksOrdering full ex) Q w.
Proof.
  intros Hw. revert Q. induction full as [|s full IH]; intros Q Hf HQ; simpl.
  { mstep. apply HQ. intros id Hid. by apply not_elem_of_nil in Hid. }
  destruct (Hf s) as [p Hp]; [by left|]. destruct (winv_slot _ _ _ Hw Hp) as [c Hc].
  mstep. unfold slot_id. mstep. eapply hoare_coro_at; [done..|]. mstep. mstep.
  apply IH; [intros s' Hs'; apply Hf; by right|]. intros ids Hids. mstep. apply HQ. intros id.
  assert (id ∈ ids → id ∉ ex ∧ ∃ s0 c0, s0 ∈ s :: full ∧ slot_coro w s0 = Some c0 ∧ co_id c0 = id) as Hrest.
  { intros (Hx&s0&c0&?&?&?)%Hids. split; [done|]. exists s0, c0. split_and!; [by right|done..]. }
  case_bool_decide as Hin; [done|]. intros [->|?]%elem_of_cons; [|auto]. split; [done|].
  exists s, c. split_and!; [by left|apply slot_coro_Some; eauto|done].
Qed.

Lemma hoare_start_ids fuel seen seq bad (Q : list Z → W → Prop) w :
  Inv w → bad_ok w bad → (∀ e, e ∈ seq → e ∈ nl_seq bad) → (∀ ids, Q ids w) →
  hoare fuel (start_ids eo seen seq) Q w.
Proof.
  intros Hi Hb. revert seen Q. induction seq as [|e seq IH]; intros seen Q Hs HQ; simpl; [by mstep|].
  destruct (sl_starts w bad e Hi Hb) as [o Ho]; [apply Hs; by left|].
  mstep. eapply hoare_Ret; [done|]. destruct o as [id|]; [|apply IH; set_solver].
  case_bool_decide; [apply IH; set_solver|]. mstep. apply IH; [set_solver|]. intros ids. by mstep.
Qed.

(** ** The greedy minimizers *)

(** What [OnTasksRemoved] of a greedy minimizer promises. *)
Definition remover_ok (on_removed : Bad → list Z → M W (Result Event)) : Prop :=
  ∀ bad ids w, min_ok w bad →
  hoare F (on_removed bad ids) (λ r w',
    Inv w' ∧ same_shape w w' ∧
    match r with
    | Some new => bad_ok w' new ∧ ∀ id, uses w' new id → id ∉ ids ∧ id ∉ removed_tasks (base w')
    | None => min_ok w' bad
    end) w.

Lemma SameInterleaving_ok : remover_ok (SameInterleaving sched).
Proof.
  intros bad ids w [Hi Hb Hu]. unfold SameInterleaving. mstep. pose proof (sl_winv _ Hi) as Hw.
  apply hoare_GetTasksOrdering; [done|intros s; by apply sl_full|]. intros ord Hord.
  eapply hoare_weaken; [apply sl_replay; [done|]|].
  - intros id (_&s&c&_&?&?)%Hord. by exists s, c.
  - intros res w' (Hi'&Hs&Hr&Hres). split_and!; [done..|]. destruct res as [new|].
    + destruct (Hres new eq_refl) as [Hb' Hu']. split; [done|].
      intros id (Hx&s&c&Hf&Hc&<-)%Hu'%Hord. rewrite elem_of_list_to_set in Hx. split; [done|].
      rewrite Hr. apply Hu. by eapply sl_full_uses.
    + split; [done|by apply (sl_bad w w')|]. intros id Hid. rewrite Hr. apply Hu. by apply (sl_uses w w').
Qed.

Lemma StrategyExploration_ok runs : remover_ok (StrategyExploration sched runs).
Proof.
  intros bad ids w [Hi Hb Hu]. unfold StrategyExploration. mstep. apply hoare_mark. intros r Hr. mstep.
  eapply hoare_weaken; [apply sl_explore; by apply sl_removed|].
  intros res w' (Hi'&Hs&Hrm&Hres). simpl in Hrm. assert (same_shape w w') as Hsh by (destruct Hs; by split).
  destruct res as [new|].
  - mstep. destruct (Hres new eq_refl) as [Hb' Hu']. split_and!; [done..|]. intros id Hid%Hu'.
    split; [|done]. intros Hin. apply Hid. rewrite Hrm. apply Hr. by left.
  - mstep. apply hoare_mark. intros r' Hr'. mstep. split_and!; [by apply sl_removed|by apply shape_removed|].
    assert (same_shape w (upd_base (set_removed r') w')) as Hsh' by by apply shape_removed.
    split; [by apply sl_removed|apply (sl_bad w); [exact Hi|by apply sl_removed|done..]|].
    intros id Hid%(sl_uses w); [|done|by apply sl_removed|done]. simpl. intros [Hno Hin]%Hr'.
    rewrite Hrm in Hin. apply Hr in Hin as [|Hin]; [done|]. by apply Hu in Hin.
Qed.

Section Greedy.
Context (on_removed : Bad → list Z → M W (Result Event)) (Hon : remover_ok on_removed).

Lemma hoare_try_remove bad ids w :
  min_ok w bad →
  hoare F (try_remove eo on_removed bad ids)
    (λ r w', same_shape w w' ∧ min_ok w' (default bad r)) w.
Proof.
  intros Hm. unfold try_remove. mstep. eapply hoare_weaken; [by apply Hon|].
  intros [new|] w' (Hi&Hs&Hres); [|by mstep]. destruct Hres as [Hb Hu].
  mstep. eapply hoare_Ret; [by apply sl_meaningful|]. simpl. mstep. apply hoare_mark. intros r Hr. mstep.
  assert (same_shape w' (upd_base (set_removed r) w')) as Hsh by apply removed_shape.
  assert (Inv (upd_base (set_removed r) w')) as Hi' by by apply sl_removed.
  split; [by apply shape_removed|]. split; [done|by apply (sl_bad w')|].
  intros id [Hn Hr']%(sl_uses w')%Hu; [|done..]. simpl. by intros [|]%Hr.
Qed.

Lemma hoare_remove_single bad ids w :
  min_ok w bad →
  hoare F (remove_single eo on_removed bad ids) (λ bad' w', same_shape w w' ∧ min_ok w' bad') w.
Proof.
  revert bad w. induction ids as [|id ids IH]; intros bad w Hm; simpl.
  { mstep. split; [apply same_shape_refl|done]. }
  unfold IsTaskRemoved. mstep. mstep. cbn beta. case_bool_decide; [by apply IH|].
  mstep. eapply hoare_weaken; [by apply hoare_try_remove|]. intros r w1 [Hs1 Hm1].
  eapply hoare_weaken; [by apply IH|]. intros bad' w2 [Hs2 Hm2]. split; [|done].
  eapply same_shape_trans; [|done..]. by eapply sl_winv, mo_inv.
Qed.

Lemma hoare_remove_with bad id_i ids w :
  min_ok w bad →
  hoare F (remove_with eo on_removed bad id_i ids) (λ bad' w', same_shape w w' ∧ min_ok w' bad') w.
Proof.
  revert bad w. induction ids as [|id ids IH]; intros bad w Hm; simpl.
  { mstep. split; [apply same_shape_refl|done]. }
  unfold IsTaskRemoved. mstep. mstep. cbn beta. case_bool_decide; [by apply IH|].
  mstep. eapply hoare_weaken; [by apply hoare_try_remove|]. intros [new|] w1 [Hs1 Hm1]; simpl in *; [by mstep|].
  eapply hoare_weaken; [by apply IH|]. intros bad' w2 [Hs2 Hm2]. split; [|done].
  eapply same_shape_trans; [|done..]. by eapply sl_winv, mo_inv.
Qed.

Lemma hoare_remove_pairs bad ids w :
  min_ok w bad →
  hoare F (remove_pairs eo on_removed bad ids) (λ bad' w', same_shape w w' ∧ min_ok w' bad') w.
Proof.
  revert bad w. induction ids as [|id ids IH]; intros bad w Hm; simpl.
  { mstep. split; [apply same_shape_refl|done]. }
  unfold IsTaskRemoved. mstep. mstep. cbn beta. mstep.
  apply (hoare_weaken _ _ (λ bad' w', same_shape w w' ∧ min_ok w' bad')).
  { case_bool_decide; [mstep; split; [apply same_shape_refl|done]|by apply hoare_remove_with]. }
  intros bad1 w1 [Hs1 Hm1]. eapply hoare_weaken; [by apply IH|]. intros bad' w2 [Hs2 Hm2]. split; [|done].
  eapply same_shape_trans; [|done..]. by eapply sl_winv, mo_inv.
Qed.

Lemma min_ok_same w w' bad :
  Inv w' → same_shape w w' → removed_tasks (base w') = removed_tasks (base w) → min_ok w bad → min_ok w' bad.
Proof.
  intros Hi' Hs Hr [Hi Hb Hu]. split; [done|by apply (sl_bad w w')|]. intros id Hid. rewrite Hr. apply Hu.
  by apply (sl_uses w w').
Qed.

Lemma hoare_GreedyMinimize bad w :
  min_ok w bad →
  hoare F (GreedyMinimize eo sched on_removed bad) (λ bad' w', same_shape w w' ∧ min_ok w' bad') w.
Proof.
  intros Hm. pose proof Hm as [Hi Hb Hu]. unfold GreedyMinimize. mstep.
  eapply hoare_start_ids; [done..|]. intros ids. mstep.
  eapply hoare_weaken; [by apply hoare_remove_single|]. intros bad1 w1 [Hs1 Hm1]. mstep.
  eapply hoare_weaken; [by apply hoare_remove_pairs|]. intros bad2 w2 [Hs2 Hm2]. mstep.
  assert (winv w1) as Hw1 by by eapply sl_winv, mo_inv. assert (winv w2) as Hw2 by by eapply sl_winv, mo_inv.
  assert (same_shape w w2) as Hs02 by exact (same_shape_trans _ _ _ Hw1 Hs1 Hs2).
  assert (∀ w3, Inv w3 → same_shape w2 w3 → removed_tasks (base w3) = removed_tasks (base w2) →
    same_shape w w3 ∧ min_ok w3 bad2) as Hend.
  { intros w3 Hi3 Hs3 Hr3. split; [exact (same_shape_trans _ _ _ Hw2 Hs02 Hs3)|by apply (min_ok_same w2)]. }
  case_bool_decide.
  - eapply hoare_weaken; [apply sl_reset, Hm2|]. intros [] w3 (?&?&?). mstep. auto.
  - mstep. apply hoare_GetTasksOrdering; [done|intros s; apply (sl_full w2 bad2 s (mo_bad _ _ Hm2))|]. intros ord Hord. mstep.
    eapply hoare_weaken; [apply sl_replay; [apply Hm2|]|].
    + intros id (_&s&c&_&?&?)%Hord. by exists s, c.
    + intros res w3 (?&?&?&_). mstep. mstep. auto.
Qed.
End Greedy.
End Minimize.

(** * The genetic minimizer

    [SmartMinimizorT] over any scheduler with [SchedulerLaws]: its assertions
    about fitness hold for rounds of bounded size, and what it returns is a
    bad history of the round. *)


(** ** Fitness *)

(** The numbers of tasks and threads for which the assertions are checked. *)
Definition fitness_bound : nat := 64.

Definition tasks_fitness_checked : bool :=
  forallb (λ total, forallb (λ valid, in_unit (tasks_fitness valid total)) (seq 0 (S total)))
    (seq 1 fitness_bound).
Definition threads_fitness_checked : bool :=
  forallb (λ total, forallb (λ used, in_unit (threads_fitness used total)) (seq 1 total))
    (seq 1 fitness_bound).

Lemma forallb_seq (f : nat → bool) a n i :
  forallb f (seq a n) = true → a ≤ i < a + n → f i = true.
Proof.
  intros H Hi. rewrite forallb_forall in H. apply H, in_seq. lia.
Qed.

Lemma tasks_fitness_unit valid total :
  valid ≤ total → 1 ≤ total ≤ fitness_bound → in_unit (tasks_fitness valid total) = true.
Proof.
  intros Hv Ht. assert (tasks_fitness_checked = true) as H by by vm_compute.
  eapply (forallb_seq _ _ _ total) in H; [|lia]. by eapply (forallb_seq _ _ _ valid) in H; [|lia].
Qed.

Lemma threads_fitness_unit used total :
  1 ≤ used ≤ total → 1 ≤ total ≤ fitness_bound → in_unit (threads_fitness used total) = true.
Proof.
  intros Hv Ht. assert (threads_fitness_checked = true) as H by by vm_compute.
  eapply (forallb_seq _ _ _ total) in H; [|lia]. by eapply (forallb_seq _ _ _ used) in H; [|lia].
Qed.

Section Smart.
Context `{TT : TargetTypes, TC : !TargetCode, RN : Random, TO : !TargetObject}.
Context {B X Event : Type}.
Abbreviation W := (World B X).
Abbreviation Bad := (NonLinearizableHistory Event).
Context (eo : EventOps W Event) (sched : SchedulerOps W Event) (F : Prop).
Context (Inv : W → Prop) (bad_ok : W → Bad → Prop) (uses : W → Bad → Z → Prop).
Context `{SL : !SchedulerLaws eo sched F Inv bad_ok uses}.
Implicit Types (w : W) (bad : Bad) (sol : Solution (Event := Event)).

(** ** The valid tasks of a world *)

Definition alive w p : Prop := ∃ c, coro w p = Some c ∧ co_id c ∉ removed_tasks (base w).

Lemma hoare_valid_in_thread fuel ps (Q : list Z → W → Prop) w :
  (∀ p, p ∈ ps → is_Some (coro w p)) →
  (∀ ids, length ids ≤ length ps → (∀ p, p ∈ ps → alive w p → ids ≠ []) → Q ids w) →
  hoare fuel (valid_in_thread ps) Q w.
Proof.
  revert Q. induction ps as [|p ps IH]; intros Q Hps HQ; simpl.
  { mstep. apply HQ; [done|]. intros p Hp. by apply not_elem_of_nil in Hp. }
  destruct (Hps p) as [c Hc]; [by left|]. mstep. apply hoare_get_coro with c; [done|].
  unfold IsTaskRemoved. mstep. mstep. mstep. apply IH; [intros q Hq; apply Hps; by right|].
  intros ids Hl Hids. mstep. cbn beta. case_bool_decide as Hrm; (apply HQ; [simpl; lia|]).
  - intros q [->|Hq]%elem_of_cons; [|by apply Hids]. intros (d&Hd&Hn). congruence.
  - done.
Qed.

Lemma hoare_valid_in_threads fuel t ths (Q : nat * gmap nat (gset Z) → W → Prop) w :
  (∀ p, p ∈ concat ths → is_Some (coro w p)) →
  (∀ n tasks, n ≤ length (concat ths) → size tasks ≤ length ths → (∀ k, is_Some (tasks !! k) → t ≤ k) →
     (∀ p, p ∈ concat ths → alive w p → tasks ≠ ∅) → Q (n, tasks) w) →
  hoare fuel (valid_in_threads t ths) Q w.
Proof.
  revert t Q. induction ths as [|th ths IH]; intros t Q Hps HQ; simpl.
  { mstep. apply HQ; [done|done| |].
    - intros k [x Hx]. by rewrite lookup_empty in Hx.
    - intros p Hp. by apply not_elem_of_nil in Hp. }
  mstep. apply hoare_valid_in_thread; [intros p Hp; apply Hps; simpl; set_solver|]. intros ids Hl Hids. mstep.
  apply IH; [intros p Hp; apply Hps; simpl; set_solver|]. intros n tasks Hn Hsz Hk Ht. mstep. simpl.
  apply HQ.
  - simpl. rewrite length_app. lia.
  - destruct ids; simpl; [lia|]. rewrite map_size_insert_None; [lia|].
    destruct (tasks !! t) eqn:E; [|done]. specialize (Hk t). rewrite E in Hk. specialize (Hk ltac:(done)). lia.
  - intros k. destruct ids as [|id ids]; [intros ?%Hk; lia|]. destruct (decide (k = t)) as [->|Hkt]; [done|].
    rewrite lookup_insert_ne by done. intros ?%Hk. lia.
  - simpl. intros p [Hp|Hp]%elem_of_app Ha.
    + specialize (Hids p Hp Ha). destruct ids as [|id ids]; [done|]. apply insert_non_empty.
    + specialize (Ht p Hp Ha). destruct ids as [|id ids]; [done|]. apply insert_non_empty.
Qed.

(** A round of a size for which the fitness is known. *)
Record sized w : Prop := {
  sz_tasks : length (slots w) ≤ fitness_bound;
  sz_threads : length (threads (base w)) ≤ fitness_bound;
}.

Lemma sized_shape w w' : same_shape w w' → sized w → sized w'.
Proof.
  intros Hs [Ht Hh]. split; [by rewrite (same_shape_slots _ _ Hs)|by rewrite (ss_threads _ _ Hs)].
Qed.

Lemma hoare_make_solution fuel bad total (Q : Solution → W → Prop) w :
  min_ok Inv bad_ok uses w bad → sized w → total = length (slots w) →
  (∀ sol, nonlinear_histories sol = bad → Q sol w) →
  hoare fuel (make_solution bad total) Q w.
Proof.
  intros [Hi Hb Hu] [Hts Hths] -> HQ. pose proof (sl_winv _ Hi) as Hw.
  destruct (sl_some w bad Hi Hb) as (id&Hid&s&c&Hsc&<-). pose proof Hsc as (p&Hp&Hc)%slot_coro_Some.
  apply slot_in in Hp as Hin. assert (alive w p) as Ha by (exists c; split; [done|by apply Hu]).
  unfold make_solution. mstep. mstep. mstep. apply hoare_valid_in_threads; [apply Hw|].
  intros n tasks Hn Hsz _ Hne. specialize (Hne p Hin Ha).
  assert (1 ≤ length (slots w)) as H1. { destruct (slots w); [by apply not_elem_of_nil in Hin|simpl; lia]. }
  assert (size tasks ≠ 0) as H0. { intros E. by apply map_size_empty_inv in E. }
  mstep. apply hoare_assert; [apply tasks_fitness_unit; [done|lia]|].
  mstep. apply hoare_assert; [apply threads_fitness_unit; unfold GetThreadsCount; lia|]. mstep. by apply HQ.
Qed.

Lemma hoare_RemoveInvalidTasks fuel tasks (Q : unit → W → Prop) w :
  winv w → (∀ r, Q () (upd_base (set_removed r) w)) → hoare fuel (RemoveInvalidTasks tasks) Q w.
Proof.
  intros Hw HQ. unfold RemoveInvalidTasks. mstep. mstep.
  eapply hoare_weaken; [apply (hoare_for_each _ _ (λ w', ∃ r, w' = upd_base (set_removed r) w))|].
  - intros [t p] w' Hin (r&->). apply list_elem_of_In, in_concat in Hin as (l&Hl&Hin).
    apply list_elem_of_In, list_elem_of_lookup_1 in Hl as (k&Hk). rewrite list_lookup_imap in Hk.
    apply fmap_Some in Hk as (th&Hth&->). apply list_elem_of_In, list_elem_of_fmap in Hin as (q&[= -> ->]&Hq).
    destruct (wi_heap _ Hw q) as [c Hc].
    { apply list_elem_of_In, in_concat. exists th. split; apply list_elem_of_In; [by eapply list_elem_of_lookup_2|done]. }
    mstep. apply hoare_get_coro with c; [done|]. unfold SetTaskRemoved. mstep. eexists. reflexivity.
  - exists (removed_tasks (base w)). destruct w as [? [] ?]. done.
  - intros [] w' (r&->). apply HQ.
Qed.

(** ** Generations *)

(** The population: every solution has a bad history of the round. *)
Definition population_ok w (l : list Solution) : Prop := Forall (λ sol, bad_ok w (nonlinear_histories sol)) l.

Lemma population_shape w w' l :
  Inv w → Inv w' → same_shape w w' → population_ok w l → population_ok w' l.
Proof. intros Hi Hi' Hs Hp. eapply Forall_impl; [exact Hp|]. intros sol. by apply (sl_bad w w'). Qed.

Lemma insert_solution_perm sol l : insert_solution sol l ≡ₚ sol :: l.
Proof.
  induction l as [|x l IH]; simpl; [done|]. destruct (SFltb _ _); [done|].
  rewrite IH. apply Permutation_swap.
Qed.

Lemma insert_all_perm (l pop : list (Solution (Event := Event))) : fold_left (λ l s, insert_solution s l) l pop ≡ₚ l ++ pop.
Proof.
  revert pop. induction l as [|x l IH]; intros pop; simpl; [done|].
  rewrite IH, insert_solution_perm. by rewrite Permutation_middle.
Qed.

(** The world a step of the minimizer works in. *)
Record working w0 w : Prop := {
  wk_inv : Inv w;
  wk_shape : same_shape w0 w;
}.

Section Evolve.
Context (exploration_runs max_offsprings attempts : nat) (w0 : W).
Context (Hsized : sized w0) (Hw0 : winv w0).
Abbreviation total := (length (slots w0)).

Lemma hoare_generate_one n p1 p2 sm w :
  working w0 w →
  hoare F (generate_one eo sched exploration_runs total n p1 p2 sm)
    (λ r w', working w0 w' ∧ same_shape w w' ∧ ∀ sol, r.1 = Some sol → bad_ok w' (nonlinear_histories sol)) w.
Proof.
  revert sm w. induction n as [|n IH]; intros sm w [Hi Hs]; simpl.
  { mstep. split_and!; [done|apply same_shape_refl|done]. }
  destruct (CrossProduct _ _ _) as [ths r1]. destruct (mutate _ _ _ _) as [ths' r2]. mstep.
  pose proof (sl_winv _ Hi) as Hw. apply hoare_RemoveInvalidTasks; [done|]. intros r. mstep.
  eapply hoare_weaken; [apply sl_explore; by apply sl_removed|]. intros res w1 (Hi1&Hs1&_&Hres).
  assert (same_shape w w1) as Hs01 by (destruct Hs1; by split).
  assert (same_shape w0 w1) as Hsh1 by exact (same_shape_trans _ _ _ Hw Hs Hs01).
  assert (hoare F (generate_one eo sched exploration_runs total n p1 p2 (mkSmart (mutations_count sm) r2))
    (λ r w', working w0 w' ∧ same_shape w w' ∧ ∀ sol, r.1 = Some sol → bad_ok w' (nonlinear_histories sol)) w1)
    as Hagain.
  { eapply hoare_weaken; [by apply IH|]. intros a w2 (Hk&Hs2&Hsol). split_and!; [done| |done].
    exact (same_shape_trans _ _ _ (sl_winv _ Hi1) Hs01 Hs2). }
  destruct res as [bad|]; [|done]. destruct (Hres bad eq_refl) as [Hb Hu].
  mstep. eapply hoare_Ret; [by apply sl_meaningful|]. simpl. mstep.
  apply hoare_make_solution; [done|by eapply sized_shape|by rewrite (same_shape_slots _ _ Hsh1)|].
  intros sol Hsol. mstep. split_and!; [done..|]. intros ? [= <-]. by rewrite Hsol.
Qed.

Lemma hoare_generate_loop n p1 p2 sm w :
  working w0 w →
  hoare F (generate_loop eo sched exploration_runs attempts total n p1 p2 sm)
    (λ r w', working w0 w' ∧ same_shape w w' ∧ population_ok w' r.1) w.
Proof.
  revert sm w. induction n as [|n IH]; intros sm w Hk; simpl.
  { mstep. split_and!; [done|apply same_shape_refl|constructor]. }
  mstep. eapply hoare_weaken; [by apply hoare_generate_one|]. intros [o sm1] w1 (Hk1&Hs1&Ho). simpl in *. mstep.
  eapply hoare_weaken; [by apply IH|]. intros [l sm2] w2 (Hk2&Hs2&Hl). mstep. simpl in *.
  assert (winv w1) as Hw1 by (apply sl_winv, Hk1).
  split_and!; [done|exact (same_shape_trans _ _ _ Hw1 Hs1 Hs2)|].
  destruct o as [sol|]; [|done]. constructor; [|done]. apply (sl_bad w1 w2); [apply Hk1|apply Hk2|done|by apply Ho].
Qed.

Lemma hoare_evolve runs pop sm w :
  attempts ≠ 0 → working w0 w → population_ok w pop → pop ≠ [] → length pop ≤ max_population_size →
  hoare F (evolve eo sched exploration_runs max_offsprings attempts total runs pop sm)
    (λ r w', working w0 w' ∧ same_shape w w' ∧ population_ok w' r.1 ∧ r.1 ≠ [] ∧
             length r.1 ≤ max_population_size) w.
Proof.
  intros Hat. revert pop sm w. induction runs as [|runs IH]; intros pop sm w Hk Hp Hne Hle; simpl.
  { mstep. split_and!; [done|apply same_shape_refl|done..]. }
  destruct pop as [|p1 pop]; [done|]. mstep. apply hoare_deref with p1; [done|]. mstep.
  assert (∀ Q : Solution → W → Prop, (∀ p2, Q p2 w) →
    hoare F (if length (p1 :: pop) <? 2 then mret p1 else mderef ((p1 :: pop) !! 1)) Q w) as Hp2.
  { intros Q HQ. destruct (Nat.ltb_spec (length (p1 :: pop)) 2); [by mstep|]. destruct pop as [|p2 pop]; [simpl in *; lia|].
    by apply hoare_deref with p2. }
  apply Hp2. intros p2. clear Hp2. unfold GenerateOffsprings. mstep. mstep. apply hoare_assert.
  { apply Nat.ltb_lt. lia. }
  mstep. eapply hoare_weaken; [by apply hoare_generate_loop|]. intros [l sm1] w1 (Hk1&Hs1&Hl). mstep. cbn [fst snd].
  set (pop' := take _ _). assert (pop' ⊆ l ++ p1 :: pop) as Hsub.
  { intros x Hx. rewrite <-insert_all_perm. apply (subseteq_take max_population_size). exact Hx. }
  assert (population_ok w1 pop') as Hpop'.
  { apply Forall_forall. intros x [Hx|Hx]%Hsub%elem_of_app.
    - by apply (proj1 (Forall_forall _ _) Hl).
    - pose proof (population_shape w w1 _ (wk_inv _ _ Hk) (wk_inv _ _ Hk1) Hs1 Hp) as H.
      by apply (proj1 (Forall_forall _ _) H). }
  assert (pop' ≠ []) as Hne'.
  { unfold pop'. intros E. apply (f_equal length) in E. 
    rewrite length_take, insert_all_perm, length_app, length_cons in E. cbn [length] in E.
    unfold max_population_size in E. lia. }
  assert (length pop' ≤ max_population_size) as Hlen by (unfold pop'; rewrite length_take; lia).
  eapply hoare_weaken; [by apply IH|]. intros r w2 (Hk2&Hs2&Hr&Hrn&Hrl).
  assert (winv w1) as Hw1 by (apply sl_winv, Hk1).
  split_and!; [done|exact (same_shape_trans _ _ _ Hw1 Hs1 Hs2)|done..].
Qed.
End Evolve.

Lemma hoare_replay_modes ids modes bad w :
  Inv w → bad_ok w bad → (∀ id, id ∈ ids → known_id w id) →
  hoare F (replay_modes eo sched ids modes bad) (λ bad' w', Inv w' ∧ same_shape w w' ∧ bad_ok w' bad') w.
Proof.
  revert w. induction modes as [|mode modes IH]; intros w Hi Hb Hids; simpl.
  { mstep. split_and!; [done|apply same_shape_refl|done]. }
  mstep. eapply hoare_weaken; [by apply sl_replay|]. intros res w1 (Hi1&Hs1&_&Hres).
  destruct res as [new|].
  - destruct (Hres new eq_refl) as [Hn _]. mstep. eapply hoare_Ret; [by apply sl_meaningful|]. simpl. by mstep.
  - eapply hoare_weaken; [apply IH; [done|by apply (sl_bad w w1)|]|].
    + intros id Hid. eapply same_shape_known_id; [by apply sl_winv|done|by apply Hids].
    + intros bad' w2 (Hi2&Hs2&Hb2). split_and!; [done| |done].
      exact (same_shape_trans _ _ _ (sl_winv _ Hi1) Hs1 Hs2).
Qed.

Lemma hoare_SmartMinimize exploration_runs minimization_runs max_offsprings attempts sm bad w :
  attempts ≠ 0 → sized w → min_ok Inv bad_ok uses w bad →
  hoare F (SmartMinimize eo sched exploration_runs minimization_runs max_offsprings attempts sm bad)
    (λ bad' w', Inv w' ∧ same_shape w w' ∧ bad_ok w' bad') w.
Proof.
  intros Hat Hsz Hm. pose proof Hm as [Hi Hb Hu]. pose proof (sl_winv _ Hi) as Hw.
  unfold SmartMinimize. mstep. mstep. mstep. apply hoare_make_solution; [done..|]. intros first Hfirst. mstep.
  change (GetTotalTasksCount w) with (length (slots w)).
  eapply hoare_weaken; [apply (hoare_evolve _ _ _ w)|].
  { exact Hsz. } { done. } { split; [done|apply same_shape_refl]. } { constructor; [by rewrite Hfirst|constructor]. }
  { done. } { unfold max_population_size. simpl. lia. }
  intros [pop sm1] w1 ([Hi1 _]&Hs1&Hpop&Hne&_). simpl in *. destruct pop as [|best pop]; [done|].
  apply Forall_cons in Hpop as [Hbest _]. mstep. apply hoare_deref with best; [done|]. mstep.
  pose proof (sl_winv _ Hi1) as Hw1. apply hoare_RemoveInvalidTasks; [done|]. intros r. mstep.
  assert (Inv (upd_base (set_removed r) w1)) as Hi2 by by apply sl_removed.
  assert (same_shape w1 (upd_base (set_removed r) w1)) as Hs2 by apply removed_shape.
  assert (same_shape w (upd_base (set_removed r) w1)) as Hs02 by exact (same_shape_trans _ _ _ Hw1 Hs1 Hs2).
  apply hoare_GetTasksOrdering; [by apply sl_winv| |].
  { intros s Hs. eapply sl_full; [|done]. by apply (sl_bad w1). }
  intros ids Hids. eapply hoare_weaken; [apply hoare_replay_modes; [done|by apply (sl_bad w)|]|].
  - intros id (_&s&c&_&?&?)%Hids. by exists s, c.
  - intros bad' w3 (Hi3&Hs3&Hb3). split_and!; [done| |done].
    exact (same_shape_trans _ _ _ (sl_winv _ Hi2) Hs02 Hs3).
Qed.
End Smart.
