(* ===== verification/CustomRounds.v ===== *)
(** * Custom rounds

    [SetCustomRound] builds exactly the tasks of a scenario, thread by thread,
    with distinct ids, and leaves a round that can be explored. *)
From stdpp Require Import base list gmap strings.
From Stdlib Require Import ZArith.
From S2P Require Import Prelude Effects BlockManager Runtime Verifier Strategy Strategies.
From S2P Require Import WorldInv Choosing Slices Resets StrategyLaws.

Open Scope nat_scope.

Section CustomRounds.
Context `{TT : TargetTypes, TC : !TargetCode, RN : Random, TO : !TargetObject}.
Context {B X : Type}.
Abbreviation W := (World B X).
Implicit Types (w : W) (bs : list TaskBuilder) (cr : CustomRound).

(** The coroutine of a task that was just built. *)
Definition task_of (b : TaskBuilder) (id : Z) (c : Coro) : Prop :=
  co_id c = id ∧ co_name c = tb_name b ∧ co_returned c = false ∧
  co_ctx c = Some (fiber_new (co_func c) (co_this c) (co_args c)).

(** [w'] has the tasks of [bs] at the end of its heap. *)
Record built_all w w' bs : Prop := {
  ba_next : next_ptr (rt w') = next_ptr (rt w) + length bs;
  ba_ids : new_task_id (base w') = (new_task_id (base w) + Z.of_nat (length bs))%Z;
  ba_old q : q < next_ptr (rt w) → coro w' q = coro w q;
  ba_new i b : bs !! i = Some b →
    ∃ c, coro w' (next_ptr (rt w) + i) = Some c ∧ task_of b (new_task_id (base w) + Z.of_nat i)%Z c;
  ba_beyond q : is_Some (coro w' q) → q < next_ptr (rt w') ∨ is_Some (coro w q);
  ba_info : thread_info (rt w') = thread_info (rt w);
}.

Lemma built_all_nil w : built_all w w [].
Proof. split; simpl; auto with lia. intros i b Hb. done. Qed.

Lemma built_all_app w w1 w2 bs1 bs2 :
  built_all w w1 bs1 → built_all w1 w2 bs2 → built_all w w2 (bs1 ++ bs2).
Proof.
  intros [N1 I1 O1 B1 G1 F1] [N2 I2 O2 B2 G2 F2]. split; try congruence.
  - rewrite N2, N1, length_app. lia.
  - rewrite I2, I1, length_app. lia.
  - intros q Hq. rewrite O2 by lia. by apply O1.
  - intros i b. rewrite lookup_app_Some. intros [Hb|[Hle Hb]].
    + destruct (B1 i b Hb) as (c&Hc&Ht). exists c. split; [|done]. rewrite O2; [done|].
      apply lookup_lt_Some in Hb. lia.
    + destruct (B2 _ _ Hb) as (c&Hc&Ht). exists c. rewrite N1, I1 in *. split.
      * rewrite <-Hc. f_equal. lia.
      * destruct Ht as (Hid&?). split; [rewrite Hid; lia|done].
  - intros q [?|[?|?]%G1]%G2; [by left| |by right]. left. lia.
Qed.

Lemma built_built_all w w' b p c : built w w' b p c → p = next_ptr (rt w) ∧ built_all w w' [b].
Proof.
  intros [-> Hn Hh Hid Hname Hret Hctx Hinfo Hb He]. split; [done|]. unfold coro. split; simpl; try done.
  - lia.
  - by rewrite Hb.
  - intros q Hq. unfold coro. rewrite Hh, lookup_insert_ne by lia. done.
  - intros [|i] b' [= <-]. exists c. unfold coro. rewrite Hh, Nat.add_0_r, lookup_insert_eq.
    split; [done|]. split_and!; [lia|done..].
  - intros q. unfold coro. rewrite Hh. destruct (decide (q = next_ptr (rt w))) as [->|]; [left; lia|].
    rewrite lookup_insert_ne by done. by right.
Qed.

(** The rest of the state is as it was. *)
Definition same_base w w' : Prop :=
  ext w' = ext w ∧ ∃ n, base w' = set_new_task_id n (base w).

Lemma same_base_trans w1 w2 w3 : same_base w1 w2 → same_base w2 w3 → same_base w1 w3.
Proof. intros [E1 [n1 B1]] [E2 [n2 B2]]. split; [congruence|]. exists n2. by rewrite B2, B1. Qed.

Lemma hoare_build_thread fuel t bs (Q : list nat → W → Prop) w :
  (∀ w', built_all w w' bs → same_base w w' → Q (seq (next_ptr (rt w)) (length bs)) w') →
  hoare fuel (build_thread t bs) Q w.
Proof.
  revert w Q. induction bs as [|b bs IH]; intros w Q HQ; simpl.
  { mstep. apply HQ; [apply built_all_nil|]. split; [done|]. exists (new_task_id (base w)). by destruct (base w). }
  mstep. apply hoare_build_task. intros w1 p c Hb1. destruct (built_built_all _ _ _ _ _ Hb1) as [-> Ha1].
  mstep. apply IH. intros w2 Ha2 Hs2. mstep. rewrite (bu_next _ _ _ _ _ Hb1). apply HQ.
  - exact (built_all_app w w1 w2 [b] bs Ha1 Ha2).
  - eapply same_base_trans; [|done]. split; [apply Hb1|]. eexists. apply Hb1.
Qed.

(** ** The whole round *)

(** The tasks of [w'] are those of the scenario. *)
Record custom_started cr w w' : Prop := {
  cs_shape : length <$> threads (base w') = length <$> cr;
  cs_built : built_all w w' (concat cr);
  cs_slots : slots w' = seq (next_ptr (rt w)) (length (concat cr));
  cs_schedule : round_schedule (base w') = resize (round_schedule (base w)) (length cr) (-1)%Z;
  cs_joins : join_pairs (base w') = join_pairs (base w);
  cs_removed : removed_tasks (base w') = removed_tasks (base w);
  cs_count : threads_count (base w') = threads_count (base w);
  cs_constructors : constructors (base w') = constructors (base w);
  cs_ext : ext w' = ext w;
}.

Lemma custom_coro cr w w' p :
  custom_started cr w w' → p ∈ slots w' →
  ∃ i b c, p = next_ptr (rt w) + i ∧ concat cr !! i = Some b ∧ coro w' p = Some c ∧
           task_of b (new_task_id (base w) + Z.of_nat i)%Z c.
Proof.
  intros Hc Hp. rewrite (cs_slots _ _ _ Hc), elem_of_seq in Hp.
  destruct (lookup_lt_is_Some_2 (concat cr) (p - next_ptr (rt w))) as [b Hb]; [lia|].
  destruct (ba_new _ _ _ (cs_built _ _ _ Hc) _ _ Hb) as (c&Hco&Ht).
  exists (p - next_ptr (rt w)), b, c. split_and!; [lia|done| |done]. rewrite <-Hco. f_equal. lia.
Qed.

Lemma custom_winv cr w w' : winv w → custom_started cr w w' → winv w'.
Proof.
  intros Hw Hc. pose proof (λ p, custom_coro cr w w' p Hc) as Hco.
  pose proof (cs_built _ _ _ Hc) as Hb. split.
  - intros p (i&b&c&_&_&->&_)%Hco. done.
  - intros p [?|Hp]%(ba_beyond _ _ _ Hb); [done|]. rewrite (ba_next _ _ _ Hb). apply (wi_fresh _ Hw) in Hp. lia.
  - rewrite (cs_slots _ _ _ Hc). apply NoDup_seq.
  - intros p c Hp Hpc _. destruct (Hco p Hp) as (i&b&d&_&_&Hd&_&_&_&Hctx).
    replace c with d by congruence. by rewrite Hctx.
  - intros p c Hp Hpc. destruct (Hco p Hp) as (i&b&d&_&Hi&Hd&Hid&_). replace c with d by congruence.
    apply lookup_lt_Some in Hi. rewrite Hid, (ba_ids _ _ _ Hb). lia.
  - intros p q c d Hp Hq Hpc Hqd. destruct (Hco p Hp) as (i&b&c'&->&_&Hc'&Hid&_).
    destruct (Hco q Hq) as (j&b'&d'&->&_&Hd'&Hid'&_). simplify_eq. rewrite Hid, Hid'. lia.
Qed.

Lemma custom_names P cr w w' :
  custom_started cr w w' → names_in P w → (∀ row b, row ∈ cr → b ∈ row → P (tb_name b)) → names_in P w'.
Proof.
  intros Hc [_ Hn] Hcr. split; [|by rewrite (cs_constructors _ _ _ Hc)].
  intros p c Hp Hpc. destruct (custom_coro _ _ _ _ Hc Hp) as (i&b&d&_&Hi&Hd&_&Hname&_).
  simplify_eq. rewrite Hname. apply list_elem_of_lookup_2, list_elem_of_In, in_concat in Hi as (row&?&?).
  by apply (Hcr row); apply list_elem_of_In.
Qed.

Section Rows.
Context (vo : VerifierOps B).

(** The rows that are left to build, from row [k] on. *)
Definition build_rows (l : list (nat * list TaskBuilder)) : M W unit :=
  for_each (λ '(t, builders),
      ps ← build_thread t builders;
      modify (upd_base (λ b, set_threads (<[t := ps]> (threads b)) b))) l.

(** What the loop changes besides the tasks: the rows. *)
Definition same_but_rows w w' (rows : list (list nat)) : Prop :=
  ext w' = ext w ∧ ∃ n, base w' = set_threads rows (set_new_task_id n (base w)).

Lemma hoare_build_rows fuel k rows done (Q : unit → W → Prop) w :
  threads (base w) = done ++ replicate (length rows) [] → length done = k →
  (∀ w' new, built_all w w' (concat rows) → same_but_rows w w' (done ++ new) →
     length <$> new = length <$> rows → concat new = seq (next_ptr (rt w)) (length (concat rows)) → Q () w') →
  hoare fuel (build_rows (imap (λ i row, (k + i, row)) rows)) Q w.
Proof.
  revert k done w Q. induction rows as [|row rows IH]; intros k done w Q Ht Hk HQ; unfold build_rows; simpl.
  { mstep. simpl in Ht. apply (HQ w []); [apply built_all_nil| |done|done]. split; [done|]. exists (new_task_id (base w)).
    rewrite app_nil_r in Ht |- *. rewrite <-Ht. by destruct (base w). }
  mstep. rewrite Nat.add_0_r. mstep. apply hoare_build_thread. intros w1 Ha1 [He1 [n1 Hb1]]. mstep.
  set (ps := seq _ _). set (w2 := upd_base _ w1).
  assert (imap ((λ i row0, (k + i, row0)) ∘ S) rows = imap (λ i row0, (S k + i, row0)) rows) as ->.
  { apply imap_ext. intros i x _. simpl. f_equal. lia. }
  apply (IH (S k) (done ++ [ps])).
  - simpl. rewrite Hb1. simpl. rewrite Ht. subst k. simpl. rewrite insert_app_r_alt by lia.
    rewrite Nat.sub_diag. simpl. by rewrite <-app_assoc.
  - rewrite length_app. simpl. lia.
  - intros w' new Ha2 [He2 [n2 Hb2]] Hl Hc.
    assert (built_all w1 w' (concat rows)) as Ha2' by (destruct Ha2; by split).
    apply (HQ w' (ps :: new)).
    + simpl. by eapply built_all_app.
    + split; [by rewrite He2|]. exists n2. rewrite Hb2. simpl. rewrite Hb1. by rewrite <-app_assoc.
    + simpl. f_equal; [|done]. unfold ps. by rewrite length_seq.
    + simpl. rewrite Hc. simpl. rewrite (ba_next _ _ _ Ha1), length_app, seq_app. done.
Qed.

Lemma resize_empty w n : slots w = [] → resize (threads (base w)) n [] = replicate n [].
Proof.
  unfold slots, resize. intros Hs. revert n. induction (threads (base w)) as [|th ths IH]; intros n; simpl in *.
  - by rewrite take_nil, Nat.sub_0_r.
  - apply app_eq_nil in Hs as [-> Hs]. destruct n as [|n]; simpl; [done|]. f_equal. by apply IH.
Qed.

Lemma hoare_SetCustomRound fuel cr (Q : unit → W → Prop) w :
  slots w = [] → (∀ w', custom_started cr w w' → Q () w') → hoare fuel (SetCustomRound vo cr) Q w.
Proof.
  intros Hs HQ. unfold SetCustomRound. mstep. mstep. mstep.
  assert (concat (drop (length cr) (threads (base w))) = []) as ->.
  { unfold slots in Hs. rewrite <-(take_drop (length cr) (threads (base w))) in Hs.
    rewrite concat_app in Hs. by apply app_eq_nil in Hs as [_ ->]. }
  simpl. msteps. unfold ResetChecker, ResetWmmGraph, ResetTargetState, on_rt. msteps.
  destruct (target_factory _) as [tgt m]. msteps. set (w1 := upd_base (set_target tgt) _).
  assert (imap pair cr = imap (λ i row, (0 + i, row)) cr) as -> by done.
  apply (hoare_build_rows _ 0 cr []); [simpl; by apply resize_empty|done|].
  intros w2 new Ha [He [n Hb]] Hl Hc. apply hoare_OnRoundStart. intros w3 [Hh Hn Ht [F1 F2 F3 F4 F5 F6 F7]] Hrt Hsch Hj _.
  simpl in Hb. apply HQ. split; try (rewrite ?Hsch, ?Hj, ?F3, ?F4, ?F5, ?F7, ?Hb; done).
  - by rewrite Ht, Hb.
  - destruct Ha as [A1 A2 A3 A4 A5 A6]. unfold coro in *. split; unfold coro; rewrite ?Hrt, ?F2; done.
  - unfold slots. rewrite Ht, Hb. done.
Qed.
End Rows.
End CustomRounds.

(** What a strategy promises of [SetCustomRound] on a world without tasks. *)
Class CustomLaws `{TT : TargetTypes, TC : !TargetCode, RN : Random} {B X : Type}
    (ops : StrategyOps (World B X)) (sinv : X → nat → Prop) : Prop := {
  cl_custom cr w : winv w → slots w = [] →
    wp (so_SetCustomRound ops cr) (λ _ w', ∃ w1, custom_started cr w w1 ∧ w' = set_ext (ext w') w1 ∧
      (sinv (ext w) (length (threads (base w))) → sinv (ext w') (length cr))) w;
}.

Section CustomInstances.
Context `{TT : TargetTypes, TC : !TargetCode, RN : Random, TO : !TargetObject}.
Context {B : Type} (vo : VerifierOps B).

#[export] Instance round_robin_custom : CustomLaws (RoundRobin.RoundRobinStrategy vo) (λ _ _, True).
Proof.
  split. intros cr w _ Hs. simpl. apply hoare_SetCustomRound; [done|]. intros w' Hc. exists w'.
  split_and!; [done|by destruct w'|done].
Qed.

#[export] Instance random_custom : CustomLaws (RandomPick.RandomStrategy vo) weights_inv.
Proof.
  split. intros cr w _ Hs. simpl. unfold RandomPick.RandomSetCustomRound. mstep.
  apply hoare_SetCustomRound; [done|]. intros w' Hc. mstep. exists w'. split_and!; [done|done|].
  intros _. unfold weights_inv. simpl. unfold resize. rewrite length_app, length_take, length_replicate. lia.
Qed.
End CustomInstances.
