(* ===== verification/RunCorrect.v ===== *)
(** * The test loop

    [StrategyScheduler] keeps the laws that the minimizers ask for, and
    [Run] composes rounds, custom rounds and minimization: whatever it reports
    is a bad history of the tasks of the last round. *)
From stdpp Require Import base list gmap strings.
From Stdlib Require Import ZArith.
From S2P Require Import Prelude LinSpec Events History Linearizability Wgl LincheckDual Checkers.
From S2P Require Import Effects BlockManager Runtime Verifier Strategy Scheduler Rounds Minimization Run.
From S2P Require Import WorldInv Choosing Slices Resets Recorded RoundCorrect StrategyLaws Scheduling.
From S2P Require Import ReplayCorrect MinimizeCorrect CustomRounds.

Open Scope nat_scope.

Section RunLaws.
Context `{TT : TargetTypes, TC : !TargetCode, RN : Random, TO : !TargetObject, PT : !PlainTarget}.
Context {B X : Type} (vo : VerifierOps B) `{VT : !VerifierTotal vo}.
Abbreviation W := (World B X).
Context (ops : StrategyOps W) (sinv : X → nat → Prop).
Context `{NL : !NextLaws ops sinv, RL : !ReplayLaws ops sinv, CL : !CustomLaws ops sinv}.
Context {St : Type} (methods : MethodMap St Args Value) (veq : Value → Value → bool) (s0 : St).
Context (checker : list (HistoryEvent Args Value) → outcome bool).
Context `{MC : !ModelChecker methods veq s0 checker}.
Context (o : RunOptions) (fuel : nat) (seed : Rng).
Context (rank : Fiber → nat) (K : nat) (R : Prop) (HR : R → RankLaws rank K).
(** Bounds on the tasks and the threads of a round. *)
Context (N T : nat).
Implicit Types (w : W) (bad : NonLinearizableHistory SchedEvent).
Abbreviation known := (λ n, is_Some (methods !! n)).
Abbreviation eo := (ordinary_events checker ops).
Abbreviation policy := (deadlock_policy o).
Abbreviation ready := (ready sinv methods).
Abbreviation replayable := (replayable sinv methods).
Abbreviation bad_ok := (bad_ok methods veq s0 policy).
Abbreviation sched := (StrategyScheduler vo ops o fuel checker).
Abbreviation F := (R → fuel ≤ N * (K + 2)).

Definition sched_inv w : Prop := replayable w ∧ length (slots w) ≤ N.

(** A history without an invocation is linearizable. *)
Lemma no_invoke_explained w seq :
  existsb ev_invoke seq = false → linearizable methods veq task_ref (history_view w seq) s0.
Proof.
  intros Hno. exists []. assert (∀ i r, ¬ answers task_ref (history_view w seq) i r) as Ha.
  { intros i r (ei&er&Hi&_&Hinv&_). apply history_view_lookup in Hi as (e&He&->).
    rewrite event_view_invoke in Hinv. assert (existsb ev_invoke seq = true); [|congruence].
    apply existsb_exists. exists e. split; [by apply list_elem_of_In; eapply list_elem_of_lookup_2|done]. }
  split; [constructor| | |constructor].
  - intros i r H. by destruct (Ha i r).
  - intros p q i j r Hp. done.
Qed.

Lemma bad_invoke w bad : bad_ok w bad → existsb ev_invoke (nl_seq bad) = true.
Proof.
  intros [Hs Hf Hr]. destruct (existsb ev_invoke (nl_seq bad)) eqn:E; [done|]. exfalso.
  destruct (nl_reason bad); [done| |].
  - destruct Hr as [_ (s&t&Hin&_)]. assert (existsb ev_invoke (nl_seq bad) = true); [|congruence].
    apply existsb_exists. exists (EvInvoke s t). split; [by apply list_elem_of_In|done].
  - by apply Hr, no_invoke_explained.
Qed.

Lemma bad_meaningful w bad : winv w → bad_ok w bad → IsMeaningfulBadResult eo bad w = Ret (true, w).
Proof.
  intros Hw Hb. pose proof (bad_invoke _ _ Hb) as Hi. destruct Hb as [Hs Hf Hr].
  destruct (hoare_run (IsMeaningfulBadResult eo bad) (λ b w', b = true ∧ w' = w) w) as (b&w'&->&->&->); [|done].
  unfold IsMeaningfulBadResult. mstep. apply (hoare_HasAnyStartedOp checker ops); [done..|]. rewrite Hi. simpl.
  case_bool_decide as Hd; [|by mstep]. rewrite Hd in Hr. destruct Hr as [_ Hp].
  apply (hoare_HasPendingVisibleOp methods veq s0 checker); [done..|]. intros b Hbp. split; [by apply Hbp|done].
Qed.

Lemma bad_some w bad : winv w → bad_ok w bad → ∃ id, uses w bad id ∧ known_id w id.
Proof.
  intros Hw Hb. pose proof (bad_invoke _ _ Hb) as (e&He%list_elem_of_In&_)%existsb_exists.
  destruct (proj1 (winv_slot_coro w (ev_slot e) Hw)) as [c Hc]; [by apply (bo_seq _ _ _ _ _ _ Hb)|].
  exists (co_id c). split; [|by exists (ev_slot e), c]. exists (ev_slot e), c. split_and!; [done..|]. right. eauto.
Qed.

Lemma uses_shape w w' bad id : winv w → same_shape w w' → uses w' bad id → uses w bad id.
Proof.
  intros Hw Hs (s&c'&Hc'&<-&Hin). destruct (proj1 (winv_slot_coro w s Hw)) as [c Hc].
  { apply (ss_slots _ _ Hs). apply slot_coro_Some in Hc' as (p&->&_). done. }
  exists s, c. split_and!; [done| |done]. symmetry. by destruct (ss_tasks _ _ Hs s c c' Hc Hc') as (->&_).
Qed.

Lemma replayable_removed r w : replayable w → replayable (upd_base (set_removed r) w).
Proof. intros [[[] Ho Hx Hn] Hl]. split; [split; [split|..]|]; assumption. Qed.

#[export] Instance strategy_scheduler_laws :
  SchedulerLaws eo sched F sched_inv bad_ok uses.
Proof.
  split.
  - intros w [[Hr _] _]. apply Hr.
  - intros w r [Hr Hn]. split; [by apply replayable_removed|done].
  - intros w w' bad [[Hr _] _] [[Hr' _] _]. apply bad_ok_carried; [apply Hr|apply Hr'].
  - intros w w' bad id [[Hr _] _] _. apply uses_shape, Hr.
  - intros w bad s Hb. apply Hb.
  - intros w bad s c Hin Hc. exists s, c. auto.
  - intros w bad [[Hr _] _]. apply bad_some, Hr.
  - intros w bad [[Hr _] _]. apply bad_meaningful, Hr.
  - intros w bad e [[Hr _] _] Hb He. destruct e as [s t|s v t]; [|by exists None].
    destruct (bo_seq _ _ _ _ _ _ Hb _ He) as [p Hp]. destruct (winv_slot _ _ _ (rd_winv _ _ _ Hr) Hp) as [c Hc].
    exists (Some (co_id c)). simpl.
    destruct (hoare_run (StartTaskId (EvInvoke s t)) (λ r w', r = Some (co_id c) ∧ w' = w) w)
      as (r&w'&E&->&->); [|done]. simpl. mstep. eapply hoare_slot_id; [done..|]. by mstep.
  - intros runs w [Hr Hn]. eapply hoare_weaken; [eapply hoare_fuel; [by apply (hoare_ExploreRound vo ops sinv methods veq s0 checker policy rank K R HR)|]|].
    { intros Hf HRR. specialize (Hf HRR). nia. }
    intros res w' (Hr'&Hca&Hb). split_and!; [|apply Hca|apply Hca|].
    + split; [done|]. by rewrite (same_shape_slots _ _ (ca_shape _ _ Hca)).
    + intros bad Hres. rewrite (ca_removed _ _ Hca). by apply Hb.
  - intros ids mode w [Hr Hn] Hids. apply (hoare_fuel False); [|intros []].
    eapply hoare_weaken; [by apply (hoare_ReplayRound vo ops sinv methods veq s0 checker policy)|].
    intros res w' (Hr'&Hca&Hb). split_and!; [|apply Hca|apply Hca|done].
    split; [done|]. by rewrite (same_shape_slots _ _ (ca_shape _ _ Hca)).
  - intros w [Hr Hn]. apply (hoare_fuel False); [|intros []].
    eapply hoare_weaken; [apply rl_reset, Hr|]. intros [] w' Hrs.
    destruct (restarted_ready sinv methods _ _ Hr Hrs) as (Hr'&_&Hca). split_and!; [|apply Hca|apply Hca].
    split; [done|]. by rewrite (same_shape_slots _ _ (ca_shape _ _ Hca)).
Qed.

(** ** Minimization of a report *)

Context (Hmin : should_minimize_history o = true → N ≤ fitness_bound ∧ T ≤ fitness_bound).

(** A report about a round. *)
Record reported w bad : Prop := {
  re_ready : replayable w;
  re_bad : bad_ok w bad;
}.

Lemma hoare_minimize_all bad w :
  min_ok sched_inv bad_ok uses w bad → length (threads (base w)) ≤ T →
  hoare F (minimize_all o seed eo sched bad) (λ bad' w', reported w' bad') w.
Proof.
  intros Hm HT. unfold minimize_all. destruct (should_minimize_history o) eqn:Hs; simpl.
  2:{ mstep. split; [apply (mo_inv _ _ _ _ _ Hm)|apply (mo_bad _ _ _ _ _ Hm)]. }
  case_bool_decide; [mstep; split; [apply (mo_inv _ _ _ _ _ Hm)|apply (mo_bad _ _ _ _ _ Hm)]|].
  mstep. eapply hoare_weaken; [by apply (hoare_GreedyMinimize eo sched F sched_inv bad_ok uses _
    (SameInterleaving_ok eo sched F sched_inv bad_ok uses))|].
  intros bad1 w1 [Hs1 Hm1]. mstep.
  eapply hoare_weaken; [by apply (hoare_GreedyMinimize eo sched F sched_inv bad_ok uses _
    (StrategyExploration_ok eo sched F sched_inv bad_ok uses _))|].
  intros bad2 w2 [Hs2 Hm2]. eapply hoare_weaken; [apply (hoare_SmartMinimize eo sched F sched_inv bad_ok uses)|].
  - done.
  - destruct (Hmin eq_refl) as [HN HT']. split.
    + pose proof (proj2 (mo_inv _ _ _ _ _ Hm2)). lia.
    + rewrite (ss_threads _ _ Hs2), (ss_threads _ _ Hs1). lia.
  - done.
  - intros bad3 w3 ([Hr3 _]&_&Hb3). by split.
Qed.

(** ** Rounds *)

(** The threads of generated rounds. *)
Context (n : nat) (HnT : n ≤ T) (HN : max_tasks o ≤ N).
Abbreviation fresh := (fresh_round sinv methods n).

(** A finished round without a report. *)
Record settled w : Prop := {
  se_ready : ready w;
  se_removed : removed_tasks (base w) = ∅;
  se_sinv : sinv (ext w) n;
  se_count : threads_count (base w) = n;
}.

Lemma new_round_fresh w w' : settled w → new_round w w' → fresh w'.
Proof.
  intros [[Hw [Hi _] _ [_ Hn]] Hr Hx Hct] [Hw' Ht Hid Hinf Hj Hrm Hal Hc Hk Hsch He]. rewrite Hct in *.
  assert (slots w' = []) as Hs by (unfold slots; rewrite Ht; apply concat_replicate_nil).
  split; [split; [done|split; congruence| |]|done|congruence| | |done].
  - by rewrite He, Ht, length_replicate.
  - split; [rewrite Hs; by intros p c Hp%not_elem_of_nil|by rewrite Hk].
  - rewrite Ht, Hsch. unfold resize. rewrite length_app, length_take, !length_replicate. lia.
  - by rewrite Ht, length_replicate.
Qed.

(** What a run promises. *)
Definition run_result (res : Result SchedEvent) w : Prop :=
  match res with
  | Some bad => reported w bad
  | None => fresh w
  end.

(** What a round leaves to the loop. *)
Definition round_done (res : Result SchedEvent) w : Prop :=
  match res with
  | Some bad => min_ok sched_inv bad_ok uses w bad ∧ length (threads (base w)) ≤ T
  | None => settled w
  end.

(** A report is minimized; without one the next round starts. *)
Lemma hoare_round_end (m : M W (Result SchedEvent)) res w :
  round_done res w → (∀ w', fresh w' → hoare F m run_result w') →
  hoare F (match res with
           | Some bad => bad ← minimize_all o seed eo sched bad; mret (Some bad)
           | None => so_StartNextRound ops;; m
           end) run_result w.
Proof.
  intros Hres Hm. destruct res as [bad|]; mstep.
  - destruct Hres. eapply hoare_weaken; [by apply hoare_minimize_all|]. intros bad' w' Hb. by mstep.
  - apply (hoare_fuel False); [|intros []]. eapply hoare_weaken; [apply rl_start, Hres|]. intros [] w' Hn.
    by apply Hm, (new_round_fresh w).
Qed.

Lemma reported_done w w' res :
  sched_inv w → removed_tasks (base w) = ∅ → length (threads (base w)) ≤ T →
  report_ok sinv methods veq s0 policy (λ id, id ∉ removed_tasks (base w)) w res w' →
  (sinv (ext w') (length (threads (base w'))) → sinv (ext w') n) → threads_count (base w) = n →
  round_done res w'.
Proof.
  intros [_ Hn] Hrm HT (Hr&Hca&Hb) Hx Hct. destruct res as [bad|]; simpl.
  - destruct (Hb bad eq_refl) as [Hbad Hu]. rewrite (ss_threads _ _ (ca_shape _ _ Hca)). split; [|done].
    split; [split; [done|]|done|by rewrite (ca_removed _ _ Hca)].
    by rewrite (same_shape_slots _ _ (ca_shape _ _ Hca)).
  - split; [apply Hr|by rewrite (ca_removed _ _ Hca)|apply Hx, Hr|by rewrite (ca_count _ _ Hca)].
Qed.

Lemma running_inv w st : running sinv methods (max_tasks o) n w st → sched_inv w.
Proof.
  intros Hr. split; [split; apply Hr|]. rewrite <-(rn_count _ _ _ _ _ _ Hr).
  pose proof (rn_bound _ _ _ _ _ _ Hr). lia.
Qed.

Lemma hoare_generated_round w :
  fresh w → hoare F (RunRound vo ops checker (max_tasks o) (exploration_runs o) policy fuel) round_done w.
Proof.
  intros Hf. eapply hoare_fuel.
  - apply (hoare_RunRound_explore vo ops sinv methods veq s0 checker (max_tasks o) n _ _ rank K R HR); [done|..].
    + intros res w' (st&Hr&Hres) Hrm. pose proof (running_inv _ _ Hr) as Hi. destruct res as [bad|]; simpl.
      * rewrite (rn_threads _ _ _ _ _ _ Hr). split; [|done]. destruct Hres as (Es&Ef&Hre).
        split; [done| |rewrite Hrm; intros ? _; apply not_elem_of_empty].
        split; rewrite ?Es, ?Ef; [exact (rc_slot _ _ (rn_recorded _ _ _ _ _ _ Hr))| |done].
        intros s Hs. by apply not_elem_of_nil in Hs.
      * split; [apply Hr|done| |apply Hr]. rewrite <-(rn_threads _ _ _ _ _ _ Hr). apply Hr.
    + intros w' st _ _ Hr Hrm _ _. pose proof (running_inv _ _ Hr) as Hi. pose proof (rn_threads _ _ _ _ _ _ Hr) as Ht.
      eapply hoare_weaken; [eapply hoare_fuel;
        [apply (hoare_ExploreRound vo ops sinv methods veq s0 checker policy rank K R HR); apply Hi|]|].
      * intros Hfu HRR. specialize (Hfu HRR). rewrite <-(rn_count _ _ _ _ _ _ Hr) in Hfu.
        pose proof (rn_bound _ _ _ _ _ _ Hr). nia.
      * intros res w2 Hre. apply (reported_done w'); [done|done|lia|done| |apply Hr].
        destruct Hre as (_&Hca&_). by rewrite (ss_threads _ _ (ca_shape _ _ Hca)), Ht.
  - intros Hfu HRR. specialize (Hfu HRR). nia.
Qed.

Lemma hoare_run_rounds rounds w :
  fresh w → hoare F (run_rounds vo ops o fuel seed checker rounds) run_result w.
Proof.
  revert w. induction rounds as [|rounds IH]; intros w Hf; simpl; [by mstep|].
  mstep. eapply hoare_weaken; [by apply hoare_generated_round|]. intros res w' Hd. by apply hoare_round_end.
Qed.

(** A scenario: its tasks can be checked and are not too many. *)
Record custom_ok (cr : CustomRound) : Prop := {
  co_known row b : row ∈ cr → b ∈ row → known (tb_name b);
  co_tasks : length (concat cr) ≤ N;
  co_threads : length cr ≤ T;
}.

(** After a scenario the strategy can go on with generated rounds. *)
Definition survives (cr : CustomRound) : Prop := ∀ x, sinv x (length cr) → sinv x n.

Lemma custom_inv cr w w1 x :
  fresh w → custom_ok cr → custom_started cr w w1 → sinv x (length cr) → sched_inv (set_ext x w1).
Proof.
  intros Hf Hok Hc Hx. pose proof (fr_ready _ _ _ _ Hf) as [Hw [Hi Ho] _ Hn].
  pose proof (f_equal length (cs_shape _ _ _ Hc)) as Hl. rewrite !length_fmap in Hl.
  pose proof (custom_winv _ _ _ Hw Hc) as Hw1. split; [split; [split|]|].
  - destruct Hw1. by split.
  - split; simpl; [by rewrite (ba_info _ _ _ (cs_built _ _ _ Hc))|by rewrite (cs_joins _ _ _ Hc)].
  - simpl. by rewrite Hl.
  - apply (custom_names _ cr w w1); [done..|apply Hok].
  - simpl. rewrite (cs_schedule _ _ _ Hc), Hl. unfold resize. rewrite length_app, length_take, length_replicate. lia.
  - change (slots (set_ext x w1)) with (slots w1). rewrite (cs_slots _ _ _ Hc), length_seq. apply Hok.
Qed.

Lemma hoare_Run rounds w :
  fresh w → Forall custom_ok rounds → Forall survives rounds →
  hoare F (Run vo ops o fuel seed checker rounds) run_result w.
Proof.
  revert w. induction rounds as [|cr rounds IH]; intros w Hf Hok Hsu; simpl; [by apply hoare_run_rounds|].
  apply Forall_cons in Hok as [Hcr Hok]. apply Forall_cons in Hsu as [Hsx Hsu]. pose proof (fr_ready _ _ _ _ Hf) as Hr.
  mstep. apply (hoare_fuel False); [|intros []]. eapply hoare_weaken; [apply cl_custom; [apply Hr|apply Hf]|].
  intros [] w1 (w2&Hc&E&Hx). specialize (Hx (rd_sinv _ _ _ Hr)).
  assert (sched_inv w1) as Hi1. { rewrite E. by apply (custom_inv cr w). }
  assert (length (threads (base w1)) = length cr) as Hl.
  { rewrite E. simpl. pose proof (f_equal length (cs_shape _ _ _ Hc)) as H. by rewrite !length_fmap in H. }
  assert (removed_tasks (base w1) = ∅) as Hrm.
  { rewrite E. simpl. rewrite (cs_removed _ _ _ Hc). apply Hf. }
  mstep. eapply hoare_weaken; [eapply hoare_fuel;
    [apply (hoare_ExploreRound vo ops sinv methods veq s0 checker policy rank K R HR); apply Hi1|]|].
  { intros Hfu HRR. specialize (Hfu HRR). destruct Hi1 as [_ Hn1]. nia. }
  intros res w3 Hre. apply hoare_round_end; [|intros w' Hf'; by apply IH].
  apply (reported_done w1); [done|done|rewrite Hl; apply Hcr|done| |].
  - destruct Hre as (_&Hca&_). rewrite (ss_threads _ _ (ca_shape _ _ Hca)), Hl. apply Hsx.
  - rewrite E. simpl. rewrite (cs_count _ _ _ Hc). apply Hf.
Qed.
End RunLaws.
