(* ===== verification/Program.v ===== *)
(** * The program

    The entry point of a test binary (src/runtime/include/verifying.h): options,
    the strategy and the scheduler they select, the run, and the exit code.
    gflags, which overwrites the flags from the command line, is a parameter,
    and so are the random device and the engine it seeds. *)
From stdpp Require Import base list gmap strings.
From Stdlib Require Import ZArith.
From S2P Require Import Prelude LinSpec Events History Linearizability LincheckRecursive LincheckDual Checkers.
From S2P Require Import Effects BlockManager Runtime Verifier Strategy Strategies Tla Scheduler Rounds.
From S2P Require Import Minimization Run Options.

Open Scope nat_scope.

(** ** Construction of a strategy *)
Section Construct.
Context `{TT : TargetTypes, TC : !TargetCode, RN : Random, TO : !TargetObject}.
Context {B X : Type} (vo : VerifierOps B).
Abbreviation W := (World B X).

(** The members before the body of the constructor runs. *)
Definition members (n : nat) (constructors : list TaskBuilder) (r : Rng) : Base B :=
  mkBase 0 ∅ [] true (vo_init vo) 0 n [] constructors r ∅.

(** The body of [BaseStrategyWithThreads]. *)
Definition construct : M W unit :=
  w ← get;
  let n := threads_count (base w) in
  ResetWmmGraph n;;
  modify (upd_base (λ b, set_round_schedule (resize (round_schedule b) n (-1)%Z) b));;
  ResetTargetState;;
  modify (upd_base (λ b, set_threads (threads b ++ replicate n []) b));;
  OnRoundStart vo n.
End Construct.

(** ** The run and its exit code *)
Section TrapRun.
Context `{TT : TargetTypes, TC : !TargetCode, RN : Random, TO : !TargetObject}.
Context {B X : Type}.
Abbreviation W := (World B X).

(** The exit code and the history that is printed. *)
Definition Report : Type := Z * option (list (HistoryEvent Args Value)).
Definition DualReport : Type := Z * option (list (DualHistoryEvent Args Value)).

Definition TrapRun (run : M W (Result SchedEvent)) : M W Report :=
  on_rt ClearTestFailure;;
  result ← run;
  w ← get;
  if HasTestFailure (rt w) then mret (1%Z, None)
  else
    match result with
    | Some bad =>
        match nl_reason bad with
        | DEADLOCK_FOUND => h ← mapM view_event (nl_seq bad); mret (4%Z, Some h)
        | NON_LINEARIZABLE_HISTORY => h ← mapM view_event (nl_seq bad); mret (3%Z, Some h)
        | ASSERT_FAILURE => lift AssertFail
        end
    | None => mret (0%Z, None)
    end.

(** The dual runner does not look at the test failure. *)
Definition TrapRunDual (run : M W (Result DualSchedEvent)) : M W DualReport :=
  result ← run;
  match result with
  | Some bad =>
      match nl_reason bad with
      | DEADLOCK_FOUND => h ← mapM view_dual_event (nl_seq bad); mret (4%Z, Some h)
      | NON_LINEARIZABLE_HISTORY => h ← mapM view_dual_event (nl_seq bad); mret (3%Z, Some h)
      | ASSERT_FAILURE => lift AssertFail
      end
  | None => mret (0%Z, None)
  end.

(** The result of a computation, without the state it leaves. *)
Definition exec {S A} (m : M S A) (s : S) : outcome A := '(a, _) ← m s; Ret a.
End TrapRun.

(** ** [ltest::Run] *)
Section Program.
Context `{TT : TargetTypes, TC : !TargetCode, RN : Random, TO : !TargetObject}.
Context {B : Type} (vo : VerifierOps B).

(** [std::mt19937(seed)], and what the random device returns. *)
Context (engine : Z → Rng) (device : Z).
(** The globals before [main]. *)
Context (start : Runtime).
(** Fuel of the rounds, and the seed of the genetic minimizer. *)
Context (fuel : nat) (minimizer_seed : Rng).
(** [task_builders], filled by the macros. *)
Context (task_builders : list TaskBuilder).

Definition make_rng (seed : Z) : Rng := engine (if (seed =? 0)%Z then device else seed).

Definition run_options (opts : Opts) : RunOptions :=
  mkRunOptions (Z.to_nat (op_tasks opts)) (Z.to_nat (op_rounds opts)) (op_minimize opts)
    (Z.to_nat (op_exploration_runs opts)) (Z.to_nat (op_minimization_runs opts)) (op_deadlock_policy opts).

(** The thread weights of the random strategy. *)
Definition make_weights (opts : Opts) : outcome (list Z) :=
  let weights := match op_thread_weights opts with [] => replicate (Z.to_nat (op_threads opts)) 1%Z | ws => ws end in
  if (length weights =? Z.to_nat (op_threads opts)) then Ret weights
  else Throw "number of threads not equal to number of weights".

Definition initial_world {X} (opts : Opts) (x : X) : World B X :=
  mkWorld start (members vo (Z.to_nat (op_threads opts)) task_builders (make_rng (op_seed opts))) x.

(** [MakeStrategy], and the client [k] of the strategy that it makes. The
    constructor of the PCT strategy also draws its first priorities. *)
Definition MakeStrategy {A} (opts : Opts)
    (k : ∀ X, StrategyOps (World B X) → M (World B X) A) : outcome A :=
  match op_typ opts with
  | RR => exec (construct vo;; k _ (RoundRobin.RoundRobinStrategy vo)) (initial_world opts 0%Z)
  | RND =>
      ws ← make_weights opts;
      exec (construct vo;; k _ (RandomPick.RandomStrategy vo)) (initial_world opts (RandomPick.mk ws []))
  | PCT =>
      exec (construct vo;; Pct.PrepareForDepth 1 1;; k _ (Pct.PctStrategy vo))
        (initial_world opts (Pct.pct_init (engine 5489)))
  | TLA => exec (construct vo;; k _ (TLAStrategy vo)) (initial_world opts tla_init)
  end.

(** [MakeScheduler] and [TrapRun]. *)
Definition run_program (opts : Opts) (custom_rounds : list CustomRound)
    (checker : list (HistoryEvent Args Value) → outcome bool) : outcome Report :=
  MakeStrategy opts (λ _ ops, TrapRun (Run vo ops (run_options opts) fuel minimizer_seed checker custom_rounds)).

Definition run_dual_program (opts : Opts)
    (checker : list (DualHistoryEvent Args Value) → outcome bool) : outcome DualReport :=
  MakeStrategy opts (λ _ ops, TrapRunDual (DualRun vo ops (run_options opts) fuel minimizer_seed checker)).

(** The options of a program: the defaults of the specification, then the
    command line. *)
Definition read_options (override : option DefaultOptions) (command_line : Flags → Flags) : outcome Opts :=
  ParseOpts (command_line (match override with Some d => SetOpts d default_flags | None => default_flags end)).

Definition ltest_Run {St} (override : option DefaultOptions) (command_line : Flags → Flags)
    (custom_rounds : list CustomRound) (Hash : St → Z) (Equal : St → St → bool) (cached : bool)
    (veq : Value → Value → bool) (methods : MethodMap St Args Value) (first_state : St) : outcome Report :=
  opts ← read_options override command_line;
  run_program opts custom_rounds (recursive_checker methods first_state Hash Equal veq cached).

Definition ltest_RunDual (override : option DefaultOptions) (command_line : Flags → Flags)
    (checker : list (DualHistoryEvent Args Value) → outcome bool) : outcome DualReport :=
  opts ← read_options override command_line; run_dual_program opts checker.
End Program.
