(* ===== verification/ProgramCorrect.v ===== *)
(** * What the exit code means

    The composition of the parts: options, construction of the strategy, test
    loop, minimization and checker, for the strategies whose laws are proved. *)
From stdpp Require Import base list gmap strings.
From Stdlib Require Import ZArith.
From S2P Require Import Prelude LinSpec Events History Linearizability LincheckRecursive LincheckDual Checkers.
From S2P Require Import Effects BlockManager Runtime Verifier Strategy Strategies Tla Scheduler Rounds.
From S2P Require Import Minimization Run Options Program.
From S2P Require Import WorldInv Choosing Slices Resets Recorded RoundCorrect StrategyLaws Scheduling.
From S2P Require Import ReplayCorrect MinimizeCorrect CustomRounds RunCorrect.

Open Scope nat_scope.

Section Exit.
Context `{TT : TargetTypes, TC : !TargetCode, RN : Random, TO : !TargetObject, PT : !PlainTarget}.
Context {B : Type} (vo : VerifierOps B) `{VT : !VerifierTotal vo}.
Context {St : Type} (methods : MethodMap St Args Value) (veq : Value → Value → bool) (s0 : St).
Abbreviation known := (λ n, is_Some (methods !! n)).

(** ** A constructed strategy is ready for a round *)
Section Ready.
Context {X : Type} (sinv : X → nat → Prop).
Implicit Types (w : World B X).

Lemma hoare_construct start n ctors r (x : X) fuel :
  heap start = ∅ → thread_info start = None → sinv x n → (∀ b, b ∈ ctors → known (tb_name b)) →
  hoare fuel (construct vo) (λ _ w', fresh_round sinv methods n w') (mkWorld start (members vo n ctors r) x).
Proof.
  intros Hh Hi Hx Hk. unfold construct, ResetWmmGraph, ResetTargetState, on_rt. msteps. simpl.
  destruct (target_factory _) as [tgt m]. msteps. apply hoare_OnRoundStart. intros w' Hr Hrt Hsch Hj Hal.
  assert (threads (base w') = replicate n []) as Et by by rewrite (rr_threads _ _ Hr).
  assert (slots w' = []) as Es. { unfold slots. rewrite Et. apply concat_replicate_nil. }
  pose proof (rr_frame _ _ Hr) as [Hf1 Hf2 Hf3 Hf4 Hf5 Hf6 Hf7]. simpl in *.
  assert (heap (rt w') = ∅) as Hh' by (rewrite Hrt; simpl; done).
  split; [split| | | | |].
  - split; rewrite ?Es; [by intros p Hp%not_elem_of_nil| |constructor|by intros p c Hp%not_elem_of_nil
      |by intros p c Hp%not_elem_of_nil|by intros p q c d Hp%not_elem_of_nil].
    unfold coro. rewrite Hh'. by intros p [c Hc].
  - split; [rewrite Hrt|rewrite Hj]; done.
  - rewrite Et, length_replicate. congruence.
  - split; [rewrite Es; by intros p c Hp%not_elem_of_nil|]. intros b Hb. apply Hk. congruence.
  - done.
  - congruence.
  - rewrite Et, Hsch. simpl. unfold resize. rewrite length_app, length_take, !length_replicate. simpl. lia.
  - by rewrite Et, length_replicate.
  - congruence.
Qed.

Lemma fresh_clear_failure n w :
  fresh_round sinv methods n w → hoare False (on_rt ClearTestFailure) (λ _ w', fresh_round sinv methods n w') w.
Proof.
  intros [[[] Ho ? Hn] ?????]. unfold on_rt, ClearTestFailure. msteps. split; [split|..]; try done.
Qed.
End Ready.

(** ** Reports *)

(** An operation of the history was started and has not returned. *)
Definition stuck_operation (h : list (HistoryEvent Args Value)) : Prop :=
  ∃ i e, h !! i = Some e ∧ is_invoke e = true ∧ ∀ r, ¬ answers task_ref h i r.

(** What an exit code and a printed history claim. *)
Definition truthful (policy : DeadlockPolicy) (r : Report) : Prop :=
  match r with
  | (code, None) => code = 0%Z ∨ code = 1%Z
  | (code, Some h) =>
      (code = 3%Z ∧ ¬ linearizable methods veq task_ref h s0) ∨
      (code = 4%Z ∧ policy = PolicyFail ∧ stuck_operation h)
  end.

Lemma pending_stuck {X} (w : World B X) seq : pending seq → stuck_operation (history_view w seq).
Proof.
  intros (s&t&Hin&Hno). apply list_elem_of_lookup_1 in Hin as [i Hi]. exists i, (event_view w (EvInvoke s t)).
  split_and!; [by unfold history_view; rewrite list_lookup_fmap, Hi|done|].
  intros r (ei&er&Hei&Her&_&Hir&Hk).
  apply history_view_lookup in Hei as (e&He&->). apply history_view_lookup in Her as (e'&He'&->).
  rewrite Hi in He. injection He as <-. rewrite event_view_invoke in Hir. rewrite !event_view_ref in Hk.
  apply (inj encode_nat) in Hk. destruct e' as [|s' v u]; [done|]. simpl in Hk. subst s'.
  apply (Hno v u). by eapply list_elem_of_lookup_2.
Qed.

Lemma hoare_print {X} F (w : World B X) policy bad (code : Z) (Q : Report → World B X → Prop) :
  winv w → bad_ok methods veq s0 policy w bad → Q (code, Some (history_view w (nl_seq bad))) w →
  hoare F (h ← mapM view_event (nl_seq bad); mret (code, Some h)) Q w.
Proof.
  intros Hw Hb HQ. mstep. apply hoare_view_history; [done| |by mstep].
  apply Forall_forall. intros e He. by apply (bo_seq _ _ _ _ _ _ Hb).
Qed.

(** ** The run *)
Context (Hash : St → Z) (Equal : St → St → bool) (eqv : relation St) `{SC : !SpecCongruence methods Equal eqv}.
Context (cached : bool) (rank : Fiber → nat) (K : nat) `{RK : !RankLaws rank K} (N T : nat).
Context (engine : Z → Rng) (device : Z) (start : Runtime) (fuel : nat) (seed : Rng) (builders : list TaskBuilder).
Abbreviation checker := (recursive_checker methods s0 Hash Equal veq cached).
Abbreviation n_of opts := (Z.to_nat (op_threads opts)).

Lemma hoare_TrapRun {X} (ops : StrategyOps (World B X)) sinv
    `{NL : !NextLaws ops sinv, RL : !ReplayLaws ops sinv, CL : !CustomLaws ops sinv} o n rounds w :
  (should_minimize_history o = true → N ≤ fitness_bound ∧ T ≤ fitness_bound) →
  n ≤ T → max_tasks o ≤ N → N * (K + 2) < fuel →
  fresh_round sinv methods n w → Forall (custom_ok methods N T) rounds → Forall (survives sinv n) rounds →
  hoare False (TrapRun (Run vo ops o fuel seed checker rounds)) (λ r _, truthful (deadlock_policy o) r) w.
Proof.
  intros Hmin HT HN Hfuel Hf Hr Hsu. unfold TrapRun. mstep.
  eapply hoare_weaken; [by apply fresh_clear_failure|]. intros [] w1 Hf1. mstep.
  pose proof (recursive_model_checker methods s0 Hash Equal veq eqv cached) as MC.
  pose proof (hoare_Run vo ops sinv methods veq s0 checker o fuel seed rank K True (λ _, RK) N T Hmin n HT HN
    rounds w1 Hf1 Hr Hsu) as H.
  apply (hoare_fuel _ False) in H; [|intros F; specialize (F I); lia].
  eapply hoare_weaken; [exact H|]. intros res w2 Hres. mstep. mstep. cbn beta.
  destruct (HasTestFailure (rt w2)); [mstep; simpl; by right|]. destruct res as [bad|]; [|mstep; simpl; by left].
  destruct Hres as [Hre Hb]. pose proof (rd_winv _ _ _ (ry_ready _ _ _ Hre)) as Hw2.
  pose proof (bo_reason _ _ _ _ _ _ Hb) as Hreason. destruct (nl_reason bad); [done|..].
  - eapply hoare_print; [done|exact Hb|]. simpl. right. destruct Hreason as [? Hp]. split_and!; [done..|by apply pending_stuck].
  - eapply hoare_print; [done|exact Hb|]. simpl. by left.
Qed.

(** A program that the bounds and the specification fit. *)
Record testable (opts : Opts) (rounds : list CustomRound) : Prop := {
  te_strategy : op_typ opts = RR ∨ op_typ opts = RND ∧ ∃ ws, make_weights opts = Ret ws;
  te_builders b : b ∈ builders → known (tb_name b);
  te_start : heap start = ∅ ∧ thread_info start = None;
  te_minimize : op_minimize opts = true → N ≤ fitness_bound ∧ T ≤ fitness_bound;
  te_threads : n_of opts ≤ T;
  te_tasks : Z.to_nat (op_tasks opts) ≤ N;
  te_fuel : N * (K + 2) < fuel;
  te_rounds cr : cr ∈ rounds →
    (∀ row b, row ∈ cr → b ∈ row → known (tb_name b)) ∧ length (concat cr) ≤ N ∧ length cr ≤ T ∧
    (** the random strategy keeps the weights of the scenario *)
    (op_typ opts = RND → n_of opts ≤ length cr);
}.

Lemma exec_truthful {X} (m : M (World B X) Report) policy w :
  hoare False m (λ r _, truthful policy r) w → ∃ r, exec m w = Ret r ∧ truthful policy r.
Proof. intros (r&w'&E&Hr)%hoare_run. exists r. unfold exec. by rewrite E. Qed.

(** C27. The exit code of a test program is truthful. Under the conditions of
    [testable] (the round-robin strategy, or the random one with a weight for
    every thread; methods that the specification knows; a target whose slices
    lower a rank of at most [K]; rounds and scenarios of at most [N] tasks and
    [T] threads, both at most 64 if histories are minimized; under the random
    strategy no scenario with fewer threads than a generated round, as the
    code then reads past its weights) and with any deadlock policy the program
    returns; it exits with 3 only with a printed history that has no
    linearization, with 4 only under the policy that reports deadlocks and
    with a history in which an operation is stuck, and otherwise with 0, or
    with 1 for a failed test. *)
Theorem exit_code_truthful `{RW : !RandomLaws} override command_line opts rounds :
  read_options override command_line = Ret opts → testable opts rounds →
  ∃ r, ltest_Run vo engine device start fuel seed builders override command_line rounds Hash Equal cached veq
         methods s0 = Ret r ∧ truthful (op_deadlock_policy opts) r.
Proof.
  intros Ho [Hs Hb [Hh Hi] Hmin Ht Hta Hfu Hro]. unfold ltest_Run. rewrite Ho. simpl.
  unfold run_program, MakeStrategy. destruct Hs as [->|[Hrnd [ws Hws]]].
  - apply exec_truthful. mstep. eapply hoare_weaken; [by apply (hoare_construct (λ _ _, True))|]. intros [] w Hf.
    eapply (hoare_TrapRun _ (λ _ _, True)); [done..| |].
    + apply Forall_forall. intros cr (?&?&?&_)%Hro. by split.
    + apply Forall_forall. by intros cr _ x.
  - rewrite Hrnd, Hws. simpl. apply exec_truthful. mstep.
    eapply hoare_weaken; [apply (hoare_construct weights_inv); try done|].
    { unfold make_weights in Hws. unfold weights_inv. simpl.
      destruct (Nat.eqb_spec (length (match op_thread_weights opts with [] => replicate (n_of opts) 1%Z | l => l end)) (n_of opts))
        as [El|]; [|done]. injection Hws as <-. lia. }
    intros [] w Hf. eapply (hoare_TrapRun _ weights_inv); [done..| |].
    + apply Forall_forall. intros cr (?&?&?&_)%Hro. by split.
    + apply Forall_forall. intros cr (_&_&_&Hlen)%Hro x. unfold survives, weights_inv. specialize (Hlen Hrnd). lia.
Qed.
End Exit.

(** A failed test in a dual run is not reported: the exit code is 0. *)
Lemma dual_test_failure_ignored `{TT : TargetTypes, RN : Random} {B X} (run : M (World B X) (Result DualSchedEvent))
    w w' message :
  run w = Ret (None, w') → test_failure (rt w') = Some message → exec (TrapRunDual run) w = Ret (0%Z, None).
Proof. intros E _. unfold exec, TrapRunDual. by rewrite (bind_run _ _ _ _ _ E). Qed.
