(* ===== verification/StrategyRounds.v ===== *)
(** * Strategies over several picks and rounds: round robin is fair, and
    what the rounds leave to the PCT strategy

    [RoundRobinStrategy::Pick] tries the threads in a cycle: it picks the first
    one that passes, and a thread that always passes is picked in one turn. *)
From Stdlib Require Import ZArith.
From stdpp Require Import base list gmap strings.
From S2P Require Import Prelude Verifier BlockManager Effects Runtime Strategy Strategies WorldInv Choosing.
From S2P Require Import Slices StrategyLaws PctLaws Resets.

Open Scope nat_scope.

Section Fair.
Context `{TT : TargetTypes, TC : !TargetCode, RN : Random, TO : !TargetObject}.
Context {B : Type} (vo : VerifierOps B) `{VT : !VerifierTotal vo}.
Abbreviation W := (World B Z).
Implicit Types (w : W) (u t : nat).

(** The thread that is tried [i] attempts from now. *)
Definition tried w (i : nat) : nat :=
  Z.to_nat ((ext w + Z.of_nat i) mod Z.of_nat (length (threads (base w)))).

(** The thread passes, whatever was asked of the verifier before. *)
Definition willing w u : Prop :=
  ∀ w', stable w w' → wp (eligible vo u) (λ b _, b = true) w'.

Lemma willing_stable w w' u : stable w w' → willing w u → willing w' u.
Proof. intros Hs Hw w2 Hs2. apply Hw. by etrans. Qed.

(** What a turn does: the first thread that passes. *)
Definition turn w (attempts : nat) (o : option nat) w' : Prop :=
  stable w w' ∧
  match o with
  | Some t => ∃ j, j < attempts ∧ t = tried w j ∧ ext w' = (ext w + Z.of_nat j + 1)%Z ∧
                   pick_ok vo w' t ∧ ∀ i, i < j → ¬ willing w (tried w i)
  | None => ∀ i, i < attempts → ¬ willing w (tried w i)
  end.

Lemma rr_turn attempts w :
  choosing w → attempts ≤ length (threads (base w)) →
  (0 ≤ ext w ∧ ext w + Z.of_nat attempts < 2 ^ 64)%Z →
  wp (RoundRobin.pick_loop (eligible vo) attempts) (turn w attempts) w.
Proof.
  revert w. induction attempts as [|attempts IH]; intros w [Hw Ho] Hn Hx; simpl.
  { mstep. split; [done|]. lia. }
  mstep. mstep. mstep. mstep. set (n := length (threads (base w))) in *.
  set (cur := Z.to_nat (ext w `mod` Z.of_nat n)). set (w1 := set_ext _ w).
  assert (stable w w1) as Hs1 by apply set_ext_stable.
  assert (ext w1 = (ext w + 1)%Z) as He1 by (simpl; unfold wrap64; apply Z.mod_small; lia).
  assert (cur < n) as Hcur. { unfold cur. pose proof (Z.mod_pos_bound (ext w) (Z.of_nat n)). lia. }
  assert (tried w 0 = cur) as E0 by (unfold tried; by rewrite Z.add_0_r).
  mstep. assert (willing w cur → wp (eligible vo cur) (λ b _, b = true) w1) as Hwill by (intros H; by apply H).
  destruct (hoare_run (eligible vo cur) (λ b w2, stable w1 w2 ∧ ext w2 = ext w1 ∧ (b = true → pick_ok vo w1 cur)) w1)
    as (b&w2&E&Hs2&He2&Hb).
  { apply (pt_ok _ _ _ (eligible_pick_test vo)); [|done|auto]. by eapply choosing_stable. }
  assert (stable w w2) as Hs by by etrans.
  unfold hoare at 1. rewrite E. destruct b.
  - mstep. split; [done|]. exists 0. rewrite E0, He2, He1. split_and!; [lia|done|lia| |lia].
    apply (stable_pick_ok vo w1); auto.
  - assert (¬ willing w cur) as Hno.
    { intros H%Hwill. unfold hoare in H. by rewrite E in H. }
    assert (length (threads (base w2)) = n) as Hn2 by by rewrite (st_threads _ _ Hs).
    assert (∀ i, tried w2 i = tried w (S i)) as Htr.
    { intros i. unfold tried. rewrite Hn2, He2, He1. fold n. do 2 f_equal. lia. }
    eapply hoare_weaken; [apply IH|].
    + by eapply choosing_stable.
    + rewrite Hn2. lia.
    + rewrite He2, He1. lia.
    + intros o w3 [Hs3 Hturn]. split; [by etrans|].
      assert (∀ i, ¬ willing w2 (tried w2 i) → ¬ willing w (tried w (S i))) as Hback.
      { intros i Hi Hw'. apply Hi. rewrite Htr. by eapply willing_stable. }
      destruct o as [t|].
      * destruct Hturn as (j&Hj&->&Hex&Hp&Hbefore). exists (S j). rewrite Htr in *.
        split_and!; [lia|done|rewrite Hex, He2, He1; lia|done|].
        intros [|i] Hi; [by rewrite E0|]. apply Hback, Hbefore. lia.
      * intros [|i] Hi; [by rewrite E0|]. apply Hback, Hturn. lia.
Qed.

(** Turns that picked the threads of the list; [u] passes in each of them, and
    between them the rest of the world changes as it likes. *)
Inductive always (u : nat) : list nat → W → Prop :=
  | always_nil w : always u [] w
  | always_cons t ts w w1 w2 :
      willing w u → RoundRobin.Pick vo w = Ret (Some t, w1) → choosing w2 → ext w2 = ext w1 →
      length (threads (base w2)) = length (threads (base w)) →
      always u ts w2 → always u (t :: ts) w.

(** The attempts left before [u] is tried. *)
Definition distance w u : nat :=
  Z.to_nat ((Z.of_nat u - ext w) mod Z.of_nat (length (threads (base w)))).

Lemma tried_distance w u : u < length (threads (base w)) → tried w (distance w u) = u.
Proof.
  intros Hu. unfold tried, distance. set (n := Z.of_nat (length (threads (base w)))).
  assert (0 < n)%Z as Hn by (unfold n; lia). pose proof (Z.mod_pos_bound (Z.of_nat u - ext w) n Hn).
  rewrite Z2Nat.id by lia. rewrite Z.add_mod_idemp_r by lia.
  replace (ext w + (Z.of_nat u - ext w))%Z with (Z.of_nat u) by lia.
  rewrite Z.mod_small by (unfold n; lia). lia.
Qed.

Lemma distance_lt w u : u < length (threads (base w)) → distance w u < length (threads (base w)).
Proof. intros Hu. unfold distance. pose proof (Z.mod_pos_bound (Z.of_nat u - ext w) (Z.of_nat (length (threads (base w))))). lia. Qed.

(** A turn that picks another thread brings [u] closer. *)
Lemma turn_distance w w1 w2 u t :
  turn w (length (threads (base w))) (Some t) w1 → willing w u → u < length (threads (base w)) →
  ext w2 = ext w1 → length (threads (base w2)) = length (threads (base w)) →
  t = u ∨ (distance w2 u < distance w u ∧ (ext w2 + Z.of_nat (distance w2 u) = ext w + Z.of_nat (distance w u))%Z).
Proof.
  intros [_ (j&Hj&->&Hex&_&Hbefore)] Hwill Hu He Hl. pose proof (tried_distance w u Hu) as Hd.
  destruct (decide (j = distance w u)) as [->|Hne]; [by left|]. right.
  assert (j < distance w u) as Hlt.
  { destruct (decide (distance w u < j)); [|lia]. destruct (Hbefore (distance w u)); [done|by rewrite Hd]. }
  pose proof (distance_lt w u Hu). unfold distance in *. rewrite Hl, He, Hex.
  set (n := Z.of_nat (length (threads (base w)))) in *.
  pose proof (Z.mod_pos_bound (Z.of_nat u - ext w) n) as Hb.
  assert ((Z.of_nat u - (ext w + Z.of_nat j + 1)) mod n = (Z.of_nat u - ext w) mod n - (Z.of_nat j + 1))%Z as E.
  { symmetry. apply (Z.mod_unique_pos _ _ ((Z.of_nat u - ext w) / n)); [lia|].
    pose proof (Z.div_mod (Z.of_nat u - ext w) n). lia. }
  rewrite E. lia.
Qed.

Lemma round_robin_turns u ts w :
  choosing w → u < length (threads (base w)) →
  (0 ≤ ext w ∧ ext w + 2 * Z.of_nat (length (threads (base w))) < 2 ^ 64)%Z →
  distance w u < length ts → always u ts w → u ∈ ts.
Proof.
  intros Hc Hu Hx Hlen Hal.
  assert (ext w + Z.of_nat (distance w u) + Z.of_nat (length (threads (base w))) < 2 ^ 64)%Z as Hx'.
  { pose proof (distance_lt w u Hu). lia. }
  destruct Hx as [Hx0 _]. revert Hc Hu Hx0 Hx' Hlen.
  induction Hal as [w|t ts w w1 w2 Hwill Hpick Hc2 He Hl Hrest IH]; intros Hc Hu Hx0 Hx' Hlen; [simpl in Hlen; lia|].
  assert (turn w (length (threads (base w))) (Some t) w1) as Hturn.
  { assert (wp (RoundRobin.Pick vo) (turn w (length (threads (base w)))) w) as H.
    { unfold RoundRobin.Pick. mstep. mstep. apply rr_turn; [done|done|lia]. }
    exact (hoare_inv _ _ _ _ _ _ H Hpick). }
  destruct (turn_distance w w1 w2 u t Hturn Hwill Hu He Hl) as [->|[Hlt Hsum]]; [by left|].
  right. apply IH.
  - done.
  - by rewrite Hl.
  - destruct Hturn as [_ (j&_&_&Hex&_)]. lia.
  - rewrite Hl. lia.
  - simpl in Hlen. lia.
Qed.
End Fair.

(** * Between the rounds of [PctStrategy]

    [ResetCurrentRound] and [StartNextRound] record the length of the last
    schedule and draw new priorities and change points. The range of the
    change points is the mean of the recorded lengths: when it falls below 1
    the distribution is constructed with an empty range. *)
Import Pct.


Section PctRounds.
Context `{TT : TargetTypes, TC : !TargetCode, RN : Random, TO : !TargetObject, SL : !ShuffleLaws}.
Context {B : Type} (vo : VerifierOps B).
Abbreviation W := (World B t).
Implicit Types (w : W) (x : t).

Definition next_depth (d : Z) : Z := if (50 <=? d + 1)%Z then 50%Z else (d + 1)%Z.
(** The statistics after a round, and their mean. *)
Definition next_statistics x : list Z := k_statistics x ++ [current_schedule_length x].

Lemma UpdateStatistics_undefined w : (mean (next_statistics (ext w)) < 1)%Z → UpdateStatistics w = UB.
Proof.
  intros Hm. unfold UpdateStatistics. erewrite bind_run by done. erewrite bind_run by done.
  unfold PrepareForDepth. erewrite bind_run by done. simpl. fold (next_statistics (ext w)).
  case_match. by rewrite (proj2 (Z.ltb_lt _ _) Hm).
Qed.

(** What the strategy knows after a reset. *)
Record prepared x x' (n : nat) : Prop := {
  pr_inv : pct_inv x' n;
  pr_priorities : priorities x' ≡ₚ base_priorities (next_depth (current_depth x)) n;
  pr_statistics : k_statistics x' = next_statistics x;
  pr_length : current_schedule_length x' = 0%Z;
  pr_depth : current_depth x' = next_depth (current_depth x);
}.

Lemma hoare_UpdateStatistics fuel (Q : unit → W → Prop) w :
  (1 ≤ mean (next_statistics (ext w)))%Z → (0 ≤ current_depth (ext w) ≤ 50)%Z →
  (Z.of_nat (length (threads (base w))) < 2 ^ 30)%Z →
  (∀ x, prepared (ext w) x (length (threads (base w))) → Q () (set_ext x w)) →
  hoare fuel UpdateStatistics Q w.
Proof.
  intros Hm Hd Hn HQ. unfold UpdateStatistics, upd. mstep. mstep. mstep. mstep.
  set (w1 := set_ext _ w). apply (hoare_fuel False); [|intros []].
  assert (current_depth (ext w1) = next_depth (current_depth (ext w))) as Ed by done.
  apply (hoare_PrepareForDepth w1); [done| |done|].
  - rewrite Ed. unfold next_depth. destruct (Z.leb_spec 50 (current_depth (ext w) + 1)); lia.
  - intros x Hi Hp Hk Hl Hde. apply (HQ x). split; [done|by rewrite <-Ed|done..].
Qed.

(** ** [ResetCurrentRound] *)

Lemma hoare_PctReset fuel (Q : unit → W → Prop) w :
  winv w → (1 ≤ mean (next_statistics (ext w)))%Z → (0 ≤ current_depth (ext w) ≤ 50)%Z →
  (Z.of_nat (length (threads (base w))) < 2 ^ 30)%Z →
  (∀ w' x, restarted w w' → prepared (ext w) x (length (threads (base w'))) → Q () (set_ext x w')) →
  hoare fuel (PctResetCurrentRound vo) Q w.
Proof.
  intros Hw Hm Hd Hn HQ. unfold PctResetCurrentRound. mstep. apply hoare_ResetCurrentRound; [done|].
  intros w' Hrs. pose proof (sf_ext _ _ (rs_frame _ _ Hrs)) as He. pose proof (ss_threads _ _ (rs_shape _ _ Hrs)) as Ht.
  apply hoare_UpdateStatistics; rewrite ?He; [done|done|by rewrite Ht|]. intros x Hx. by apply HQ.
Qed.

Lemma PctReset_undefined w :
  winv w → (mean (next_statistics (ext w)) < 1)%Z → PctResetCurrentRound vo w = UB.
Proof.
  intros Hw Hm. unfold PctResetCurrentRound.
  destruct (hoare_run (ResetCurrentRound vo) (λ _ w', restarted w w') w) as ([]&w'&E&Hrs).
  { by apply hoare_ResetCurrentRound. }
  rewrite (bind_run _ _ _ _ _ E). apply UpdateStatistics_undefined.
  by rewrite (sf_ext _ _ (rs_frame _ _ Hrs)).
Qed.

(** Replays that schedule nothing, one after another. *)
Fixpoint resets (n : nat) : M W unit :=
  match n with
  | 0 => mret ()
  | S n => PctResetCurrentRound vo;; resets n
  end.

Definition total (l : list Z) : Z := fold_left Z.add l 0%Z.

Lemma total_zero l : total (l ++ [0%Z]) = total l.
Proof. unfold total. rewrite fold_left_app. simpl. lia. Qed.

Lemma mean_small l : (0 ≤ total l < 2 ^ 64)%Z →
  (mean l < 1)%Z ↔ l = [] ∨ (total l < Z.of_nat (length l))%Z.
Proof.
  intros Hl. unfold mean. fold (total l). unfold wrap64. rewrite Z.mod_small by done.
  destruct l as [|a l]; [split; [by left|done]|]. set (k := Z.of_nat (length (a :: l))).
  assert (0 < k)%Z by (unfold k; simpl; lia). split.
  - intros H'. right. destruct (Z.lt_ge_cases (total (a :: l)) k); [done|].
    pose proof (Z.div_le_lower_bound (total (a :: l)) k 1). lia.
  - intros [|H']; [done|]. rewrite Z.div_small; lia.
Qed.

(** Once there are more records than recorded slices, a reset is undefined. *)
Lemma resets_undefined n w :
  winv w → current_schedule_length (ext w) = 0%Z → (0 ≤ current_depth (ext w) ≤ 50)%Z →
  (Z.of_nat (length (threads (base w))) < 2 ^ 30)%Z →
  (0 ≤ total (k_statistics (ext w)) < 2 ^ 64)%Z → n ≠ 0 →
  (total (k_statistics (ext w)) < Z.of_nat (length (k_statistics (ext w)) + n))%Z →
  resets n w = UB.
Proof.
  revert w. induction n as [|n IH]; intros w Hw Hz Hd Hn Ht Hne Hlt; [done|]. simpl.
  assert (total (next_statistics (ext w)) = total (k_statistics (ext w))) as Etot.
  { unfold next_statistics. rewrite Hz. apply total_zero. }
  assert (length (next_statistics (ext w)) = S (length (k_statistics (ext w)))) as El.
  { unfold next_statistics. rewrite length_app. simpl. lia. }
  pose proof (mean_small (next_statistics (ext w))) as Hms. rewrite Etot, El in Hms. specialize (Hms Ht).
  destruct (Z.lt_ge_cases (mean (next_statistics (ext w))) 1) as [Hm|Hm].
  { unfold mbind, M_bind. by rewrite PctReset_undefined. }
  destruct (hoare_run (PctResetCurrentRound vo)
    (λ _ w', ∃ w1 x, w' = set_ext x w1 ∧ restarted w w1 ∧ prepared (ext w) x (length (threads (base w1)))) w)
    as ([]&w'&E&w1&x&->&Hrs&Hx).
  { apply hoare_PctReset; [done..|]. intros w1 x Hrs Hx. by exists w1, x. }
  rewrite (bind_run _ _ _ _ _ E).
  assert (¬ (total (k_statistics (ext w)) < Z.of_nat (S (length (k_statistics (ext w)))))%Z) as Hge.
  { intros H. pose proof (proj2 Hms (or_intror H)). lia. }
  apply IH; simpl; rewrite ?(pr_statistics _ _ _ Hx), ?(pr_depth _ _ _ Hx), ?Etot, ?El.
  - pose proof (rs_winv _ _ Hrs) as []. by split.
  - apply Hx.
  - unfold next_depth. destruct (Z.leb_spec 50 (current_depth (ext w) + 1)); lia.
  - by rewrite (ss_threads _ _ (rs_shape _ _ Hrs)).
  - done.
  - intros ->. lia.
  - lia.
Qed.
End PctRounds.
