(* ===== verification/DualRounds.v ===== *)
(** * Dual rounds

    The events that dual tasks emit reach the history in the order in which
    they happened; a task appended for a rollback can be removed again only
    once it has returned. *)
From stdpp Require Import base list gmap strings sorting.
From Stdlib Require Import ZArith.
From S2P Require Import Prelude Effects BlockManager Runtime Verifier Strategy Scheduler Rounds.
From S2P Require Import WorldInv Choosing Slices Resets Scheduling.

Open Scope nat_scope.

Section Drained.
Context `{TT : TargetTypes, TC : !TargetCode, RN : Random}.
Context {B X : Type}.
Abbreviation W := (World B X).
Implicit Types (w : W) (p : nat) (c : Coro).

(** The events a task has emitted since the last slice. *)
Definition emitted w (t p : nat) : list DrainedDualEventRecord :=
  match coro w p with
  | Some c => if co_dual c then mkDrained p t <$> co_events c else []
  | None => []
  end.

(** Those of all tasks, thread by thread from thread [t] on. *)
Fixpoint emitted_from w (t : nat) (ths : list (list nat)) : list DrainedDualEventRecord :=
  match ths with
  | [] => []
  | th :: ths => concat (emitted w t <$> th) ++ emitted_from w (S t) ths
  end.
Definition all_emitted w : list DrainedDualEventRecord := emitted_from w 0 (threads (base w)).

(** [w'] is [w] after the events of the dual tasks [ps] were taken. *)
Record drained w w' (ps : list nat) : Prop := {
  dr_world : w' = set_rt (rt w') w;
  dr_heap p : coro w' p = if bool_decide (p ∈ ps) then
      (λ c, if co_dual c then set_events [] c else c) <$> coro w p else coro w p;
}.

Lemma drained_nil w : drained w w [].
Proof. split; [by destruct w|]. intros p. by rewrite bool_decide_eq_false_2 by apply not_elem_of_nil. Qed.

Lemma drained_app w w1 w2 ps qs :
  (∀ p, p ∈ ps → p ∉ qs) → drained w w1 ps → drained w1 w2 qs → drained w w2 (ps ++ qs).
Proof.
  intros Hd [E1 H1] [E2 H2]. split.
  - rewrite E2, E1. done.
  - intros p. rewrite H2, H1. specialize (Hd p). rewrite !bool_decide_decide. repeat case_decide; set_solver.
Qed.

Lemma emitted_drained w w' ps t q : drained w w' ps → q ∉ ps → emitted w' t q = emitted w t q.
Proof. intros [_ H] Hq. unfold emitted. rewrite H. by rewrite bool_decide_eq_false_2. Qed.

Lemma hoare_collect fuel tasks t (Q : list DrainedDualEventRecord → W → Prop) w :
  NoDup tasks → (∀ p, p ∈ tasks → is_Some (coro w p)) →
  (∀ w', drained w w' tasks → Q (concat (emitted w t <$> tasks)) w') →
  hoare fuel (CollectDrainedDualEvents tasks t) Q w.
Proof.
  revert w Q. induction tasks as [|p tasks IH]; intros w Q Hnd Hps HQ; simpl.
  { mstep. apply HQ, drained_nil. }
  apply NoDup_cons in Hnd as [Hp Hnd]. destruct (Hps p) as [c Hc]; [by left|].
  mstep. apply hoare_get_coro with c; [done|]. mstep.
  assert (∀ w1, drained w w1 [p] →
    hoare fuel (CollectDrainedDualEvents tasks t) (λ rest, hoare fuel (mret (emitted w t p ++ rest)) Q) w1) as Hrest.
  { intros w1 Hd. apply IH; [done|..].
    - intros q Hq. destruct (Hps q) as [d Hq']; [by right|]. rewrite (dr_heap _ _ _ Hd), Hq'.
      case_bool_decide; [by eexists|done].
    - intros w2 Hd2. mstep.
      replace (concat (emitted w1 t <$> tasks)) with (concat (emitted w t <$> tasks)).
      + apply HQ. apply (drained_app w w1 w2 [p] tasks); [set_solver|done..].
      + f_equal. apply list_fmap_ext. intros i q Hq. symmetry. apply (emitted_drained w w1 [p]); [done|].
        apply list_elem_of_lookup_2 in Hq. set_solver. }
  assert (emitted w t p = if co_dual c then mkDrained p t <$> co_events c else []) as Ee by (unfold emitted; by rewrite Hc).
  assert (∀ f, coro w p = Some (f c) → (co_dual c = true → f c = set_events [] c) → drained w w [p]) as Hsame.
  { intros f Hf Hdu. split; [by destruct w|]. intros q. case_bool_decide as Hq; [|done].
    apply list_elem_of_singleton in Hq as ->. rewrite Hc. simpl. f_equal. rewrite Hc in Hf. injection Hf as Hf.
    destruct (co_dual c); [|done]. by rewrite <-Hdu. }
  destruct (co_dual c) eqn:Hdual; simpl.
  - destruct (HasDualEvents c) eqn:Hev; simpl.
    + unfold on_rt, DrainDualEvents, get_coro, set_coro. msteps. apply hoare_deref with c; [done|]. msteps.
      rewrite <-Ee. apply Hrest. split; [done|]. intros q. unfold coro. simpl.
      case_bool_decide as Hq; [apply list_elem_of_singleton in Hq as ->|].
      * rewrite lookup_insert_eq. unfold coro in Hc. rewrite Hc. simpl. by rewrite Hdual.
      * rewrite lookup_insert_ne; [done|]. intros ->. apply Hq. by left.
    + mstep. mstep. assert (co_events c = []) as Hnil by (unfold HasDualEvents in Hev; by destruct (co_events c)).
      rewrite Hnil in Ee. rewrite Ee in Hrest. apply Hrest, (Hsame id); [done|]. intros _. simpl.
      destruct c; simpl in *; by subst.
  - mstep. mstep. rewrite Ee in Hrest. by apply Hrest, (Hsame id).
Qed.

Lemma hoare_collect_all fuel t ths (Q : list DrainedDualEventRecord → W → Prop) w :
  NoDup (concat ths) → (∀ p, p ∈ concat ths → is_Some (coro w p)) →
  (∀ w', drained w w' (concat ths) → Q (emitted_from w t ths) w') →
  hoare fuel (collect_all t ths) Q w.
Proof.
  revert t w Q. induction ths as [|th ths IH]; intros t w Q Hnd Hps HQ; simpl in *.
  { mstep. apply HQ, drained_nil. }
  apply NoDup_app in Hnd as (Hth&Hdis&Hnd). mstep. apply hoare_collect; [done|set_solver|]. intros w1 Hd1. mstep.
  apply IH; [done|..].
  - intros p Hp. rewrite (dr_heap _ _ _ Hd1). destruct (Hps p) as [d Hd]; [set_solver|]. rewrite Hd.
    case_bool_decide; [by eexists|done].
  - intros w2 Hd2. mstep. replace (emitted_from w1 (S t) ths) with (emitted_from w (S t) ths).
    + apply HQ. by apply (drained_app w w1).
    + clear IH HQ Hd2 Hnd. revert Hdis. generalize (S t). induction ths as [|th2 ths IH2]; intros k Hdis; simpl; [done|].
      f_equal; [|apply IH2; set_solver]. f_equal. apply list_fmap_ext. intros i q Hq. symmetry.
      apply (emitted_drained w w1 th); [done|]. apply list_elem_of_lookup_2 in Hq. intros Hin.
      apply (Hdis q Hin). simpl. set_solver.
Qed.

Lemma emitted_nothing w :
  (∀ p, p ∈ concat (threads (base w)) → ∀ t, emitted w t p = []) → all_emitted w = [].
Proof.
  unfold all_emitted. generalize 0. induction (threads (base w)) as [|th ths IH]; intros t H; simpl; [done|].
  rewrite IH by (intros p Hp; apply H; simpl; set_solver). rewrite app_nil_r.
  assert (∀ p, p ∈ th → emitted w t p = []) as Hth by (intros p Hp; apply H; simpl; set_solver).
  clear -Hth. induction th as [|p th IH]; simpl; [done|]. rewrite Hth by by left. apply IH. intros q Hq. apply Hth. by right.
Qed.

Lemma seqno_le_total : Total seqno_le.
Proof. intros r1 r2. unfold seqno_le. lia. Qed.

(** The new events of the history. *)
Lemma hoare_AppendDrained fuel (Q : list DualSchedEvent → W → Prop) w :
  winv w →
  (∀ l w', l ≡ₚ all_emitted w → Sorted seqno_le l → drained w w' (slots w) → Q (drained_event <$> l) w') →
  hoare fuel AppendDrainedDualEvents Q w.
Proof.
  intros Hw HQ. unfold AppendDrainedDualEvents. mstep. mstep. mstep.
  apply hoare_collect_all; [apply (wi_nodup _ Hw)|apply (wi_heap _ Hw)|]. intros w' Hd. mstep.
  pose proof seqno_le_total. apply HQ; [apply merge_sort_Permutation|by apply Sorted_merge_sort|done].
Qed.
End Drained.

(** ** Appending and removing a task *)

Section Rollback.
Context `{TT : TargetTypes, TC : !TargetCode, RN : Random, TO : !TargetObject}.
Context {B X : Type}.
Abbreviation W := (World B X).
Implicit Types (w : W) (p t : nat) (c : Coro) (th : list nat).

(** [AppendTaskForReplay] fails or adds one unstarted task at the end of the
    thread. *)
Lemma hoare_AppendTask fuel name t (Q : option Z → W → Prop) w :
  winv w →
  (length (threads (base w)) ≤ t ∨ (∀ b, b ∈ constructors (base w) → tb_name b ≠ name) → Q None w) →
  (∀ w' th p c b, started w w' t th p c → b ∈ constructors (base w) → tb_name b = name →
     co_name c = name → Q (Some (co_id c)) w') →
  hoare fuel (AppendTaskForReplay name t) Q w.
Proof.
  intros Hw HN HS. unfold AppendTaskForReplay. mstep. mstep. cbn beta.
  destruct (Nat.leb_spec (length (threads (base w))) t) as [Hle|Hlt]; [mstep; auto|].
  destruct (find _ (constructors (base w))) as [b|] eqn:Hf.
  2:{ mstep. apply HN. right. intros b Hb. apply list_elem_of_In in Hb.
      pose proof (find_none _ _ Hf b Hb) as H. by apply bool_decide_eq_false in H. }
  apply find_some in Hf as [Hin%list_elem_of_In Hname%bool_decide_eq_true].
  mstep. apply hoare_build_task. intros w1 p c Hb. mstep.
  apply hoare_get_coro with c. { unfold coro. rewrite (bu_heap _ _ _ _ _ Hb). apply lookup_insert_eq. }
  destruct (lookup_lt_is_Some_2 (threads (base w)) t Hlt) as [th Hth].
  assert (threads (base w1) = threads (base w)) as Et by by rewrite (bu_base _ _ _ _ _ Hb).
  mstep. unfold push_task. mstep. mstep. mstep. apply hoare_deref with th; [by rewrite Et|]. mstep. mstep.
  eapply HS; [by eapply (built_started w w1 w1)|done..|]. by rewrite (bu_name _ _ _ _ _ Hb).
Qed.

Lemma RemoveLast_unreturned t th p c w :
  threads (base w) !! t = Some (th ++ [p]) → coro w p = Some c → co_returned c = false →
  RemoveLastTaskForReplay t (co_id c) w = AssertFail.
Proof.
  intros Ht Hc Hr. unfold RemoveLastTaskForReplay, mbind, M_bind, get. cbn beta iota.
  rewrite Ht. destruct (th ++ [p]) as [|x l] eqn:E; [by destruct th|]. rewrite <-E, last_snoc. simpl.
  unfold drop_handle, on_rt, zoom, get_coro, mbind, M_bind, get. cbn beta iota.
  unfold coro in Hc. rewrite !Hc. simpl. rewrite set_rt_self, bool_decide_eq_true_2 by done. simpl.
  rewrite !Hc. simpl. by rewrite Hr.
Qed.

(** A task that has returned is removed, and the thread is as before. *)
Lemma hoare_RemoveLast fuel t th p c (Q : bool → W → Prop) w :
  threads (base w) !! t = Some (th ++ [p]) → coro w p = Some c → co_returned c = true →
  (∀ w', threads (base w') = <[t := th]> (threads (base w)) → rt w' = rt w → ext w' = ext w →
     removed_tasks (base w') = removed_tasks (base w) ∖ {[co_id c]} → Q true w') →
  hoare fuel (RemoveLastTaskForReplay t (co_id c)) Q w.
Proof.
  intros Ht Hc Hr HQ. unfold RemoveLastTaskForReplay. mstep. mstep. cbn beta. rewrite Ht.
  destruct (th ++ [p]) as [|x l] eqn:E; [by destruct th|]. rewrite <-E, last_snoc. mstep.
  apply hoare_deref with p; [done|]. mstep. apply hoare_get_coro with c; [done|].
  rewrite bool_decide_eq_true_2 by done. simpl. unfold drop_handle. mstep. mstep.
  apply hoare_get_coro with c; [done|]. apply hoare_assert; [done|]. unfold SetTaskRemoved. msteps.
  apply HQ; [|done..]. simpl. rewrite length_app. simpl. replace (length th + 1 - 1) with (length th) by lia.
  by rewrite take_app_length.
Qed.

(** After the exploration state was reset, the appended task is unstarted:
    removing it violates the assertion of its destructor. *)
Lemma rollback_asserts (ops : StrategyOps W) sinv `{RL : !ReplayLaws ops sinv} t th p c w :
  winv w → threads (base w) !! t = Some (th ++ [p]) → coro w p = Some c →
  co_id c ∉ removed_tasks (base w) →
  (so_ResetExplorationState ops;; RemoveLastTaskForReplay t (co_id c)) w = AssertFail.
Proof.
  intros Hw Ht Hc Hrm. destruct (hoare_run _ _ _ (rl_reset_explore w Hw)) as ([]&w'&E&Hrs).
  rewrite (bind_run _ _ _ _ _ E).
  assert (slot_coro w (t, length th) = Some c) as Hsc.
  { apply slot_coro_Some. exists p. unfold slot_ptr. simpl. rewrite Ht. simpl.
    by rewrite list_lookup_middle. }
  pose proof (rs_shape _ _ Hrs) as [Hl Hs Htk]. pose proof (rs_winv _ _ Hrs) as Hw'.
  destruct (proj1 (winv_slot_coro w' (t, length th) Hw')) as [c' Hc'].
  { apply Hs. apply slot_coro_Some in Hsc as (q&->&_). done. }
  pose proof (rs_tasks _ _ Hrs _ _ Hc') as Htr. destruct (Htk _ _ _ Hsc Hc') as (Hid&_).
  unfold task_restarted in Htr. rewrite Hid, bool_decide_eq_false_2 in Htr.
  2:{ by rewrite (sf_removed _ _ (rs_frame _ _ Hrs)). }
  pose proof Hc' as (q&Hq&Hqc)%slot_coro_Some. pose proof Hq as (th'&Ht'&Hq')%bind_Some. simpl in *.
  (* the row still ends with this task *)
  assert (th' !! S (length th) = None) as Hend.
  { destruct (th' !! S (length th)) as [x|] eqn:Ex; [|done].
    destruct (proj1 (Hs (t, S (length th)))) as [y Hy].
    { unfold slot_ptr. simpl. rewrite Ht'. by exists x. }
    unfold slot_ptr in Hy. simpl in Hy. rewrite Ht in Hy. simpl in Hy.
    apply lookup_lt_Some in Hy. rewrite length_app in Hy. simpl in Hy. lia. }
  assert (th' = take (length th) th' ++ [q]) as Eth.
  { rewrite <-(take_drop (length th) th') at 1. f_equal. rewrite (drop_S _ q) by done. f_equal.
    apply drop_ge. by apply lookup_ge_None. }
  rewrite <-Hid. eapply RemoveLast_unreturned; [by rewrite <-Eth|done|apply Htr].
Qed.
End Rollback.
