(* ===== verification/TaskVerifiers.v ===== *)
(** * The task verifiers

    The guards that keep rounds meaningful: [DefaultStrategyTaskVerifier],
    [OnlyOneTaskPerThreadVerifier] and [ReservePolicyVerifier] of the runtime,
    and the verifiers of mutexes, shared mutexes and channels under
    verifying/blocking/verifiers and verifying/dual/folly/verifiers. Each is a
    [VerifierOps], as the strategies call it. *)
From stdpp Require Import base list gmap strings.
From Stdlib Require Import ZArith.
From S2P Require Import Prelude Effects BlockManager Runtime Verifier Strategy Choosing.

Open Scope nat_scope.

(** The reading of a result as a [bool]: [GetValue<bool>] is [std::any_cast]. *)
Class BoolResults `{TargetTypes} := { value_bool : Value → option bool }.

Section Verifiers.
Context `{TT : TargetTypes, BR : !BoolResults}.

Definition get_bool (c : Coro) : outcome bool :=
  if negb (co_returned c) then AssertFail
  else match value_bool (co_ret c) with Some b => Ret b | None => Throw "bad_any_cast" end.

(** What a verifier that derives from [DefaultStrategyTaskVerifier] inherits:
    its [VerifyExisting] calls the [Verify] of the default, which allows
    everything, and its [Reset] does nothing. *)
Definition derived {B} (init : B) (verify : B → string → nat → bool → outcome (bool * B))
    (finished : B → Coro → nat → outcome B) : VerifierOps B :=
  mkVerifierOps init verify finished (λ b, b) (Some (λ b _, b)) (Some (λ b _ _ _, b))
    (Some (λ b _ _ _, (true, b))) (Some (λ b _ _, Ret (true, b))) (Some (λ _ _, [])) false.

Definition default_ops : VerifierOps unit :=
  derived () (λ b _ _ _, Ret (true, b)) (λ b _ _, Ret b).

(** [OnlyOneTaskPerThreadVerifier]: one task, on thread 0. *)
Definition only_one_Verify (has_started : bool) (name : string) (thread_id : nat) (is_new : bool) :
    outcome (bool * bool) :=
  if negb is_new then Ret (true, has_started)
  else if negb (thread_id =? 0) || has_started then Ret (false, has_started)
  else Ret (true, true).
Definition only_one_ops : VerifierOps bool :=
  mkVerifierOps false only_one_Verify (λ b _ _, Ret b) (λ _, false) None None None None None true.

(** [ReservePolicyVerifier] over a base verifier; the counters are those of
    [Verifier.ReservePolicyVerifier]. *)
Section Reserve.
Context {B : Type} (pol : WorkloadPolicy) (base : VerifierOps B).
Abbreviation R := (B * ReservePolicyVerifier unit)%type.

Definition reserve_Verify (v : R) (name : string) (t : nat) (is_new : bool) : outcome (bool * R) :=
  r ← vo_Verify base v.1 name t is_new; Ret (r.1, (r.2, v.2)).
Definition reserve_OnFinished (v : R) (c : Coro) (t : nat) : outcome R :=
  b ← vo_OnFinished base v.1 c t; Ret (b, v.2).
Definition reserve_Reset (v : R) : R := (vo_Reset base v.1, Verifier.Reset v.2).
Definition reserve_OnRoundStart (v : R) (n : nat) : R :=
  (match vo_OnRoundStart base with Some f => f v.1 n | None => v.1 end,
   Verifier.OnRoundStart v.2 (Z.of_nat n)).
Definition reserve_OnTaskStarted (v : R) (name : string) (t : nat) (id : Z) : R :=
  if decide (id ∈ started_task_ids_ v.2) then v
  else (match vo_OnTaskStarted base with Some f => f v.1 name t id | None => v.1 end,
        Verifier.OnTaskStarted v.2 name (Z.of_nat t) id).
Definition reserve_VerifyStart (v : R) (name : string) (t : nat) (ctx : StartContext) : bool * R :=
  let '(ok, b) := match vo_VerifyStart base with Some f => f v.1 name t ctx | None => (true, v.1) end in
  if negb ok then (false, (b, v.2))
  else ((Verifier.VerifyStart pol v.2 name (Z.of_nat t) ctx).1, (b, v.2)).
Definition reserve_VerifyExisting (v : R) (c : Coro) (t : nat) : outcome (bool * R) :=
  match vo_VerifyExisting base with
  | Some f => r ← f v.1 c t; Ret (r.1, (r.2, v.2))
  | None => r ← vo_Verify base v.1 (co_name c) t true; Ret (r.1, (r.2, v.2))
  end.

Definition reserve_ops : VerifierOps R :=
  mkVerifierOps (vo_init base, verifier_init) reserve_Verify reserve_OnFinished reserve_Reset
    (Some reserve_OnRoundStart) (Some reserve_OnTaskStarted) (Some reserve_VerifyStart)
    (Some reserve_VerifyExisting) (Some (λ _, Verifier.GetDeadlockProgressMethods pol)) false.
End Reserve.

(** ** Mutexes *)

(** [MutexVerifier]: 1 for a thread that holds the mutex. *)
Abbreviation Status := (gmap nat nat).
Definition status_of (s : Status) (t : nat) : nat := default 0 (s !! t).
(** [if (status.count(t) == 0) status[t] = 0] *)
Definition ensure (s : Status) (t : nat) : Status := <[t := status_of s t]> s.

Definition mutex_Verify (s : Status) (name : string) (t : nat) (is_new : bool) : outcome (bool * Status) :=
  let s := ensure s t in
  if bool_decide (name = "Lock") then Ret (status_of s t =? 0, s)
  else if bool_decide (name = "Unlock") then Ret (status_of s t =? 1, s)
  else AssertFail.
Definition mutex_OnFinished (s : Status) (c : Coro) (t : nat) : outcome Status :=
  Ret (if bool_decide (co_name c = "Lock") then <[t := 1]> s
       else if bool_decide (co_name c = "Unlock") then <[t := 0]> s
       else s).
Definition mutex_ops : VerifierOps Status :=
  mkVerifierOps ∅ mutex_Verify mutex_OnFinished (λ _, ∅) None None None None None false.

(** The codes of [SharedMutexVerifier] and [LibcoroSharedMutexVerifier]. *)
Record codes := mkCodes { FREE : nat; WRITER : nat; READER : nat }.
Definition shared_mutex_codes : codes := mkCodes 0 1 4.
Definition libcoro_codes : codes := mkCodes 0 1 2.

Definition shared_Verify (k : codes) (s : Status) (name : string) (t : nat) : outcome (bool * Status) :=
  let s := ensure s t in
  if bool_decide (name = "lock") then Ret (status_of s t =? FREE k, s)
  else if bool_decide (name = "unlock") then Ret (status_of s t =? WRITER k, s)
  else if bool_decide (name = "lock_shared") then Ret (status_of s t =? FREE k, s)
  else if bool_decide (name = "unlock_shared") then Ret (status_of s t =? READER k, s)
  else AssertFail.

Definition shared_mutex_Verify (s : Status) (name : string) (t : nat) (is_new : bool) :=
  shared_Verify shared_mutex_codes s name t.
Definition shared_mutex_OnFinished (s : Status) (c : Coro) (t : nat) : outcome Status :=
  if bool_decide (co_name c = "lock") then Ret (<[t := WRITER shared_mutex_codes]> s)
  else if bool_decide (co_name c = "unlock") then Ret (<[t := FREE shared_mutex_codes]> s)
  else if bool_decide (co_name c = "lock_shared") then Ret (<[t := READER shared_mutex_codes]> s)
  else if bool_decide (co_name c = "unlock_shared") then Ret (<[t := FREE shared_mutex_codes]> s)
  else AssertFail.
Definition shared_mutex_progress (s : Status) (name : string) : list string :=
  if bool_decide (name = "lock") || bool_decide (name = "lock_shared")
  then ["unlock"; "unlock_shared"] else [].
Definition shared_mutex_ops : VerifierOps Status :=
  mkVerifierOps ∅ shared_mutex_Verify shared_mutex_OnFinished (λ _, ∅) None None None None
    (Some shared_mutex_progress) false.

Definition libcoro_shared_Verify (s : Status) (name : string) (t : nat) (is_new : bool) :=
  shared_Verify libcoro_codes s name t.
Definition libcoro_shared_OnFinished (s : Status) (c : Coro) (t : nat) : outcome Status :=
  if bool_decide (co_name c = "lock") then
    Ret (if co_returned c then <[t := WRITER libcoro_codes]> s else s)
  else if bool_decide (co_name c = "lock_shared") then
    Ret (if co_returned c then <[t := READER libcoro_codes]> s else s)
  else if bool_decide (co_name c = "unlock") then Ret (<[t := FREE libcoro_codes]> s)
  else if bool_decide (co_name c = "unlock_shared") then Ret (<[t := FREE libcoro_codes]> s)
  else AssertFail.
Definition libcoro_shared_mutex_ops : VerifierOps Status :=
  mkVerifierOps ∅ libcoro_shared_Verify libcoro_shared_OnFinished (λ _, ∅) None None None None None false.

(** [LibcoroMutexVerifierBase] and [FollyCoroMutexVerifierBase]: the owner. *)
Definition IsOwner (owner : option nat) (t : nat) : bool := bool_decide (owner = Some t).

Definition owner_Verify (owner : option nat) (name : string) (t : nat) (is_new : bool) :
    outcome (bool * option nat) :=
  if bool_decide (name = "lock") || bool_decide (name = "try_lock") then Ret (negb (IsOwner owner t), owner)
  else if bool_decide (name = "unlock") then Ret (IsOwner owner t, owner)
  else AssertFail.
Definition owner_OnFinished (owner : option nat) (c : Coro) (t : nat) : outcome (option nat) :=
  if bool_decide (co_name c = "lock") then Ret (if co_returned c then Some t else owner)
  else if bool_decide (co_name c = "try_lock") then
    ok ← get_bool c; Ret (if (ok : bool) then Some t else owner)
  else if bool_decide (co_name c = "unlock") then Ret (if IsOwner owner t then None else owner)
  else AssertFail.
Definition LibcoroMutexVerifierBase : VerifierOps (option nat) := derived None owner_Verify owner_OnFinished.
Definition FollyCoroMutexVerifierBase : VerifierOps (option nat) := derived None owner_Verify owner_OnFinished.

(** [FollyCoroSharedMutexVerifierBase] *)
Record FollyShared := mkFollyShared { exclusive_owner : option nat; shared_counts : list Z }.

Definition EnsureThread (s : FollyShared) (t : nat) : FollyShared :=
  mkFollyShared (exclusive_owner s)
    (if length (shared_counts s) <=? t then resize (shared_counts s) (t + 1) 0%Z else shared_counts s).
Definition shared_count (s : FollyShared) (t : nat) : Z := default 0%Z (shared_counts s !! t).
Definition add_shared (s : FollyShared) (t : nat) (d : Z) : FollyShared :=
  mkFollyShared (exclusive_owner s) (<[t := (shared_count s t + d)%Z]> (shared_counts s)).
Definition IsExclusiveOwner (s : FollyShared) (t : nat) : bool := bool_decide (exclusive_owner s = Some t).

Definition folly_shared_Verify (s : FollyShared) (name : string) (t : nat) (is_new : bool) :
    outcome (bool * FollyShared) :=
  let s := EnsureThread s t in
  if bool_decide (name = "lock") || bool_decide (name = "try_lock") then
    Ret (negb (IsExclusiveOwner s t) && (shared_count s t =? 0)%Z, s)
  else if bool_decide (name = "lock_shared") || bool_decide (name = "try_lock_shared") then
    Ret (negb (IsExclusiveOwner s t) && (shared_count s t =? 0)%Z, s)
  else if bool_decide (name = "unlock") then Ret (IsExclusiveOwner s t, s)
  else if bool_decide (name = "unlock_shared") then Ret ((0 <? shared_count s t)%Z, s)
  else AssertFail.

Definition folly_shared_OnFinished (s : FollyShared) (c : Coro) (t : nat) : outcome FollyShared :=
  let s := EnsureThread s t in
  let name := co_name c in
  if bool_decide (name = "lock") then
    Ret (if co_returned c then mkFollyShared (Some t) (shared_counts s) else s)
  else if bool_decide (name = "try_lock") then
    ok ← get_bool c; Ret (if (ok : bool) then mkFollyShared (Some t) (shared_counts s) else s)
  else if bool_decide (name = "lock_shared") then
    Ret (if co_returned c then add_shared s t 1 else s)
  else if bool_decide (name = "try_lock_shared") then
    ok ← get_bool c; Ret (if (ok : bool) then add_shared s t 1 else s)
  else if bool_decide (name = "unlock") then
    Ret (if IsExclusiveOwner s t then mkFollyShared None (shared_counts s) else s)
  else if bool_decide (name = "unlock_shared") then
    Ret (if (0 <? shared_count s t)%Z then add_shared s t (-1) else s)
  else AssertFail.
Definition FollyCoroSharedMutexVerifierBase : VerifierOps FollyShared :=
  derived (mkFollyShared None []) folly_shared_Verify folly_shared_OnFinished.

(** ** Channels *)

Record Channel := mkChannel { senders : Z; receivers : Z; chan_size : Z }.

Definition channel_Verify (s : Channel) (name : string) (t : nat) (is_new : bool) : outcome (bool * Channel) :=
  if bool_decide (name = "Send") then
    Ret (if (senders s =? 0)%Z
         then (true, mkChannel (wrap64 (senders s + 1)) (receivers s) (wrap64 (chan_size s + 1)))
         else (false, s))
  else if bool_decide (name = "Recv") then
    Ret (if (receivers s =? 0)%Z
         then (true, mkChannel (senders s) (wrap64 (receivers s + 1))
                       (if (0 <? chan_size s)%Z then wrap64 (chan_size s - 1) else chan_size s))
         else (false, s))
  else AssertFail.
Definition channel_OnFinished (s : Channel) (c : Coro) (t : nat) : outcome Channel :=
  if bool_decide (co_name c = "Send") then
    Ret (mkChannel (wrap64 (senders s - 1)) (receivers s) (chan_size s))
  else if bool_decide (co_name c = "Recv") then
    Ret (mkChannel (senders s) (wrap64 (receivers s - 1)) (chan_size s))
  else AssertFail.
Definition BufferedChannelVerifier : VerifierOps Channel :=
  mkVerifierOps (mkChannel 0 0 0) channel_Verify channel_OnFinished (λ _, mkChannel 0 0 0)
    None None None None None false.

(** ** The verifiers of the runtime never fail *)

#[export] Instance default_total : VerifierTotal default_ops.
Proof. split; simpl; try by eauto. intros f b c t [= <-]. eauto. Qed.

#[export] Instance only_one_total : VerifierTotal only_one_ops.
Proof.
  split; simpl; [|by eauto|done]. intros b m t n. unfold only_one_Verify. repeat case_match; eauto.
Qed.

#[export] Instance reserve_total {B} pol (base : VerifierOps B) `{VT : !VerifierTotal base} :
  VerifierTotal (reserve_ops pol base).
Proof.
  split; simpl.
  - intros [b v] m t n. unfold reserve_Verify. simpl. destruct (vt_Verify b m t n) as [r ->]. simpl. eauto.
  - intros [b v] c t. unfold reserve_OnFinished. simpl. destruct (vt_OnFinished b c t) as [r ->]. simpl. eauto.
  - intros f [b v] c t [= <-]. unfold reserve_VerifyExisting. simpl.
    destruct (vo_VerifyExisting base) as [f|] eqn:Hf.
    + destruct (vt_VerifyExisting f b c t Hf) as [r ->]. simpl. eauto.
    + destruct (vt_Verify b (co_name c) t true) as [r ->]. simpl. eauto.
Qed.

(** ** The protocol of a thread *)

(** The tasks that finished since the last reset, oldest first. *)
Fixpoint finish_all {B} (vo : VerifierOps B) (b : B) (l : list (Coro * nat)) : outcome B :=
  match l with
  | [] => Ret b
  | (c, t) :: l => b ← vo_OnFinished vo b c t; finish_all vo b l
  end.

(** The last method that thread [t] finished. *)
Fixpoint last_finished (t : nat) (l : list (Coro * nat)) : option string :=
  match l with
  | [] => None
  | (c, t') :: l =>
      match last_finished t l with
      | Some n => Some n
      | None => if decide (t' = t) then Some (co_name c) else None
      end
  end.

Definition plain_finish (names : list string) (l : list (Coro * nat)) : Prop :=
  Forall (λ ct, co_name ct.1 ∈ names ∧ co_returned ct.1 = true) l.

(** A verifier that tracks, per thread, the state that the last finished
    method left it in. *)
Lemma finish_all_status (vo : VerifierOps Status) (code : string → nat) names l s :
  (∀ s c t, co_name c ∈ names → co_returned c = true → vo_OnFinished vo s c t = Ret (<[t := code (co_name c)]> s)) →
  plain_finish names l →
  ∃ s', finish_all vo s l = Ret s' ∧
    ∀ t, status_of s' t = match last_finished t l with Some n => code n | None => status_of s t end.
Proof.
  intros Hstep. revert s. induction l as [|[c t0] l IH]; intros s Hl; simpl; [eauto|].
  apply Forall_cons in Hl as [[Hn Hr] Hl]. rewrite Hstep by done. simpl.
  destruct (IH (<[t0 := code (co_name c)]> s) Hl) as (s'&->&Hs'). exists s'. split; [done|]. intros t. rewrite Hs'.
  destruct (last_finished t l); [done|]. unfold status_of. case_decide as Ht; [subst; by rewrite lookup_insert_eq|].
  by rewrite lookup_insert_ne.
Qed.

Lemma status_ensure s t u : status_of (ensure s t) u = status_of s u.
Proof.
  unfold ensure, status_of at 1. destruct (decide (u = t)) as [->|].
  - by rewrite lookup_insert_eq.
  - by rewrite lookup_insert_ne.
Qed.

(** A thread may lock iff it holds nothing, and unlock iff it holds it. *)
Definition held_by (lock : string) (t : nat) (l : list (Coro * nat)) : bool :=
  bool_decide (last_finished t l = Some lock).

Definition mutex_code (n : string) : nat := if bool_decide (n = "Lock") then 1 else 0.
Definition shared_code (k : codes) (n : string) : nat :=
  if bool_decide (n = "lock") then WRITER k else if bool_decide (n = "lock_shared") then READER k else FREE k.

Definition mutex_methods : list string := ["Lock"; "Unlock"].
Definition shared_methods : list string := ["lock"; "unlock"; "lock_shared"; "unlock_shared"].

Lemma mutex_finish s c t : co_name c ∈ mutex_methods → co_returned c = true →
  vo_OnFinished mutex_ops s c t = Ret (<[t := mutex_code (co_name c)]> s).
Proof.
  intros Hn _. simpl. unfold mutex_OnFinished, mutex_code.
  repeat (apply elem_of_cons in Hn as [->|Hn]; [done|]). by apply not_elem_of_nil in Hn.
Qed.

Lemma shared_finish s c t : co_name c ∈ shared_methods → co_returned c = true →
  vo_OnFinished shared_mutex_ops s c t = Ret (<[t := shared_code shared_mutex_codes (co_name c)]> s) ∧
  vo_OnFinished libcoro_shared_mutex_ops s c t = Ret (<[t := shared_code libcoro_codes (co_name c)]> s).
Proof.
  intros Hn Hr. simpl. unfold shared_mutex_OnFinished, libcoro_shared_OnFinished, shared_code. rewrite Hr.
  repeat (apply elem_of_cons in Hn as [->|Hn]; [done|]). by apply not_elem_of_nil in Hn.
Qed.

Lemma last_finished_in names t l n : plain_finish names l → last_finished t l = Some n → n ∈ names.
Proof.
  induction 1 as [|[c t'] l [Hn _] _ IH]; simpl; [done|]. destruct (last_finished t l); [done|].
  case_decide; [|done]. by intros [= <-].
Qed.

(** After any tasks have finished, a thread may lock exactly when the mutex is
    not the last thing it took, and unlock exactly when it is. *)
Lemma mutex_verifier_protocol l t is_new :
  plain_finish mutex_methods l →
  ∃ s s', finish_all mutex_ops (vo_init mutex_ops) l = Ret s ∧
    vo_Verify mutex_ops s "Lock" t is_new = Ret (negb (held_by "Lock" t l), s') ∧
    vo_Verify mutex_ops s "Unlock" t is_new = Ret (held_by "Lock" t l, s').
Proof.
  intros Hl. destruct (finish_all_status mutex_ops mutex_code mutex_methods l ∅ mutex_finish Hl) as (s&E&Hs).
  exists s, (ensure s t). split; [done|]. simpl. unfold mutex_Verify. simpl. rewrite status_ensure, Hs.
  unfold held_by. destruct (last_finished t l) as [n|] eqn:En; [|done].
  pose proof (last_finished_in _ _ _ _ Hl En) as Hn.
  repeat (apply elem_of_cons in Hn as [->|Hn]; [done|]). by apply not_elem_of_nil in Hn.
Qed.

(** The same for the two verifiers of shared mutexes, which differ only in
    their codes. *)
Lemma shared_verifier_protocol l t is_new :
  plain_finish shared_methods l →
  ∀ vo, vo = shared_mutex_ops ∨ vo = libcoro_shared_mutex_ops →
  ∃ s s', finish_all vo (vo_init vo) l = Ret s ∧
    (∀ m, m = "lock" ∨ m = "lock_shared" →
       vo_Verify vo s m t is_new = Ret (negb (held_by "lock" t l || held_by "lock_shared" t l), s')) ∧
    vo_Verify vo s "unlock" t is_new = Ret (held_by "lock" t l, s') ∧
    vo_Verify vo s "unlock_shared" t is_new = Ret (held_by "lock_shared" t l, s').
Proof.
  intros Hl vo Hvo.
  assert (∀ n, last_finished t l = Some n → n ∈ shared_methods) as Hin.
  { intros n. by apply last_finished_in. }
  destruct Hvo as [->| ->].
  - destruct (finish_all_status shared_mutex_ops (shared_code shared_mutex_codes) shared_methods l ∅)
      as (s&E&Hs); [intros; by apply shared_finish|done|].
    exists s, (ensure s t). split; [done|]. simpl. unfold shared_mutex_Verify, shared_Verify. rewrite status_ensure, Hs.
    unfold held_by. destruct (last_finished t l) as [n|]; [|by split_and!; [intros m [->| ->]|..]].
    specialize (Hin n eq_refl). repeat (apply elem_of_cons in Hin as [->|Hin]; [by split_and!; [intros m [->| ->]|..]|]).
    by apply not_elem_of_nil in Hin.
  - destruct (finish_all_status libcoro_shared_mutex_ops (shared_code libcoro_codes) shared_methods l ∅)
      as (s&E&Hs); [intros; by apply shared_finish|done|].
    exists s, (ensure s t). split; [done|]. simpl. unfold libcoro_shared_Verify, shared_Verify. rewrite status_ensure, Hs.
    unfold held_by. destruct (last_finished t l) as [n|]; [|by split_and!; [intros m [->| ->]|..]].
    specialize (Hin n eq_refl). repeat (apply elem_of_cons in Hin as [->|Hin]; [by split_and!; [intros m [->| ->]|..]|]).
    by apply not_elem_of_nil in Hin.
Qed.

(** ** Ownership outlives the round

    The mutex verifiers inherit an empty [Reset]: a thread that holds the
    mutex when a round ends may unlock the new, free one of the next round. *)
Lemma owner_survives_reset pol c t n v :
  co_name c = "lock" → co_returned c = true →
  let vo := reserve_ops pol LibcoroMutexVerifierBase in
  ∃ v' v'', vo_OnFinished vo v c t = Ret v' ∧
    vo_Verify vo (reserve_OnRoundStart LibcoroMutexVerifierBase (vo_Reset vo v') n) "unlock" t true = Ret (true, v'').
Proof.
  intros Hn Hr vo. destruct v as [b v].
  assert (vo_OnFinished vo (b, v) c t = Ret (Some t, v)) as E.
  { simpl. unfold reserve_OnFinished. simpl. unfold owner_OnFinished. rewrite Hn, Hr. done. }
  eexists _, _. split; [exact E|]. simpl. unfold reserve_Verify. simpl. unfold owner_Verify. simpl.
  unfold IsOwner. by rewrite bool_decide_eq_true_2.
Qed.

(** A channel task that was started is refused when the strategy asks again
    whether it may go on. *)
Lemma channel_task_refused s s' name t u is_new is_new' :
  (name = "Send" ∨ name = "Recv") → channel_Verify s name t is_new = Ret (true, s') →
  channel_Verify s' name u is_new' = Ret (false, s').
Proof.
  intros [->| ->]; unfold channel_Verify; simpl.
  - destruct (Z.eqb_spec (senders s) 0) as [E|]; intros [= <-]; simpl. by rewrite E.
  - destruct (Z.eqb_spec (receivers s) 0) as [E|]; intros [= <-]; simpl. by rewrite E.
Qed.

End Verifiers.
