(* ===== verification/SchedulerCorrect.v ===== *)
(** * What the schedulers promise

    The main theorems about rounds, replays, minimization and the test loop
    of [StrategyScheduler], over any strategy that keeps the laws of
    [NextLaws], [ReplayLaws] and [CustomLaws] and any checker that decides
    linearizability. *)
From stdpp Require Import base list gmap strings.
From Stdlib Require Import ZArith.
From S2P Require Import Prelude LinSpec Events History Linearizability Wgl LincheckDual Checkers.
From S2P Require Import Effects BlockManager Runtime Verifier Strategy Scheduler Rounds Minimization Run.
From S2P Require Import WorldInv Choosing Slices Resets Recorded RoundCorrect StrategyLaws Scheduling.
From S2P Require Import ReplayCorrect MinimizeCorrect CustomRounds RunCorrect.

Open Scope nat_scope.

Section Correct.
Context `{TT : TargetTypes, TC : !TargetCode, RN : Random, TO : !TargetObject, PT : !PlainTarget}.
Context {B X : Type} (vo : VerifierOps B) `{VT : !VerifierTotal vo}.
Abbreviation W := (World B X).
Context (ops : StrategyOps W) (sinv : X → nat → Prop).
Context {St : Type} (methods : MethodMap St Args Value) (veq : Value → Value → bool) (s0 : St).
Context (checker : list (HistoryEvent Args Value) → outcome bool).
Context `{MC : !ModelChecker methods veq s0 checker}.
Implicit Types (w : W).
Abbreviation eo := (ordinary_events checker ops).

(** C2. The test loop is sound and returns. The code under test lowers a rank
    of at most [K] with every slice; the rounds, generated or scenarios, have
    at most [N] tasks and [T] threads; the strategy can go on with generated
    rounds after each scenario ([survives]: for the random strategy, no
    scenario has fewer threads than a generated round, as otherwise it reads
    past its weights); and if histories are minimized, [N] and [T] are at most
    64, for which the assertions on fitness are proved. Then [Run] with any
    deadlock policy neither fails nor runs out of a fuel of more than
    [N * (K + 2)]; a history it reports consists of tasks of the last round
    and is not linearizable, or has a pending operation under the policy that
    reports deadlocks; without a report the world is ready for a fresh
    round. *)
Theorem run_correct `{NL : !NextLaws ops sinv, RL : !ReplayLaws ops sinv, CL : !CustomLaws ops sinv}
    (o : RunOptions) (seed : Rng) rank K `{RK : !RankLaws rank K} (N T n fuel : nat) rounds w :
  (should_minimize_history o = true → N ≤ fitness_bound ∧ T ≤ fitness_bound) →
  n ≤ T → max_tasks o ≤ N → N * (K + 2) < fuel →
  fresh_round sinv methods n w → Forall (custom_ok methods N T) rounds → Forall (survives sinv n) rounds →
  ∃ res w', Run vo ops o fuel seed checker rounds w = Ret (res, w') ∧
    match res with
    | Some bad => bad_ok methods veq s0 (deadlock_policy o) w' bad ∧ winv w'
    | None => fresh_round sinv methods n w'
    end.
Proof.
  intros Hmin HT HN Hfuel Hf Hr Hsu.
  pose proof (hoare_Run vo ops sinv methods veq s0 checker o fuel seed rank K True (λ _, RK) N T Hmin n HT HN
    rounds w Hf Hr Hsu) as H.
  apply (hoare_fuel _ False) in H; [|intros F; specialize (F I); lia].
  apply hoare_run in H as (res&w'&E&Hres). exists res, w'. split; [done|].
  destruct res as [bad|]; [|done]. destruct Hres as [Hre Hb]. split; [done|apply Hre].
Qed.

(** What [RunRound] returns under any policy: the exact verdict on the history
    that it recorded; or, under a policy that explores deadlocks, when the
    round stopped before all tasks had returned and its history is
    linearizable, what the exploration of the same tasks reports. *)
Definition round_outcome (max_tasks n : nat) (policy : DeadlockPolicy) (res : Result SchedEvent) w' : Prop :=
  round_result sinv methods veq s0 max_tasks n policy res w' ∨
  (policy = PolicyExplore ∨ policy = PolicyRollback) ∧
  ∃ w1 st, running sinv methods max_tasks n w1 st ∧ (rn_started st = max_tasks → ¬ all_returned w1) ∧
    linearizable methods veq task_ref (history_view w1 (rn_seq st)) s0 ∧
    replayable sinv methods w' ∧ carried w1 w' ∧ ∀ bad, res = Some bad → bad_ok methods veq s0 policy w' bad.

Lemma hoare_round_outcome `{NL : !NextLaws ops sinv, RL : !ReplayLaws ops sinv} rank K (R : Prop)
    (HR : R → RankLaws rank K) (max_tasks exploration_runs n fuel : nat) (policy : DeadlockPolicy) w :
  fresh_round sinv methods n w →
  hoare (R → fuel ≤ max_tasks * (K + 2)) (RunRound vo ops checker max_tasks exploration_runs policy fuel)
    (round_outcome max_tasks n policy) w.
Proof.
  intros Hf. apply (hoare_RunRound_explore vo ops sinv methods veq s0 checker max_tasks n _ _ rank K R HR); [done|..].
  - intros res w' Hres _. by left.
  - intros w1 st Hp Hp' Hr Hrm He Hd.
    assert (replayable sinv methods w1) as Hre by (split; apply Hr).
    eapply hoare_weaken; [eapply hoare_fuel;
      [by apply (hoare_ExploreRound vo ops sinv methods veq s0 checker policy rank K R HR)|]|].
    + intros Hfu HRR. specialize (Hfu HRR). rewrite <-(rn_count _ _ _ _ _ _ Hr) in Hfu.
      pose proof (rn_bound _ _ _ _ _ _ Hr). nia.
    + intros res w' (Hr'&Hca&Hb). right. split; [by destruct policy; auto|].
      exists w1, st. split_and!; [done..|]. intros bad Hbad. by apply Hb.
Qed.


(** C4. A generated round ends: when every slice of the code under test lowers
    a rank that starts at most at [K], [RunRound] returns under every deadlock
    policy with any fuel of more than [max_tasks * (K + 2)] iterations, with
    the verdict of C3. *)
Theorem run_round_terminates `{NL : !NextLaws ops sinv, RL : !ReplayLaws ops sinv} rank K `{RK : !RankLaws rank K}
    (max_tasks exploration_runs n fuel : nat) (policy : DeadlockPolicy) w :
  fresh_round sinv methods n w → max_tasks * (K + 2) < fuel →
  ∃ res w', RunRound vo ops checker max_tasks exploration_runs policy fuel w = Ret (res, w') ∧
    round_outcome max_tasks n policy res w'.
Proof.
  intros Hf Hfuel.
  pose proof (hoare_round_outcome rank K True (λ _, RK) max_tasks exploration_runs n fuel policy w Hf) as H.
  apply (hoare_fuel _ False) in H; [|intros F; specialize (F I); lia].
  by apply hoare_run in H.
Qed.

(** C15. [ExploreRound] re-runs the tasks of a round under the strategy's
    schedules: when every slice of the code under test lowers a rank that
    starts at most at [K], it returns with any fuel of more than
    [tasks * (K + 1)] slices per run; whatever the code under test does, when
    it returns the result does not depend on the fuel. It keeps the tasks,
    their threads and which of them are removed, and reports only bad
    histories in which no removed task occurs. *)
Theorem explore_round_correct `{RL : !ReplayLaws ops sinv} (policy : DeadlockPolicy) (fuel runs : nat) w :
  replayable sinv methods w →
  (∀ rank K, RankLaws rank K → length (slots w) * (K + 1) < fuel →
     ExploreRound vo ops eo policy fuel runs w ≠ OutOfFuel) ∧
  (ExploreRound vo ops eo policy fuel runs w = OutOfFuel ∨
   ∃ res w', (∀ fuel', fuel ≤ fuel' → ExploreRound vo ops eo policy fuel' runs w = Ret (res, w')) ∧
     replayable sinv methods w' ∧ carried w w' ∧
     ∀ bad, res = Some bad → bad_ok methods veq s0 policy w' bad ∧
       ∀ id, uses w' bad id → id ∉ removed_tasks (base w)).
Proof.
  intros Hr. split.
  - intros rank K RK Hfuel.
    pose proof (hoare_ExploreRound vo ops sinv methods veq s0 checker policy rank K True (λ _, RK) fuel runs w Hr) as H.
    apply (hoare_fuel _ False) in H; [|intros F; specialize (F I); lia].
    apply hoare_run in H as (res&w'&->&_). done.
  - pose proof (hoare_ExploreRound vo ops sinv methods veq s0 checker policy (λ _, 0) 0 False
      (λ f, match f with end) fuel runs w Hr) as H. unfold hoare in H.
    destruct (ExploreRound vo ops eo policy fuel runs w) as [[res w']| | | |] eqn:E; [right|done..|by left].
    exists res, w'. split; [|done]. intros fuel' Hle.
    destruct (ExploreRound_extends vo ops eo policy fuel fuel' runs Hle w) as [?|Hs]; congruence.
Qed.

(** C16. [ReplayRound] on ids of the round is total: it returns for every order
    of the ids, in both modes, keeps the tasks of the round, and reports only
    bad histories made of the replayed tasks. *)
Theorem replay_round_correct `{RL : !ReplayLaws ops sinv} (policy : DeadlockPolicy)
    (ordering : list Z) (mode : ReplayMode) w :
  replayable sinv methods w → (∀ id, id ∈ ordering → known_id w id) →
  ∃ res w', ReplayRound vo ops eo policy ordering mode w = Ret (res, w') ∧
    replayable sinv methods w' ∧ carried w w' ∧
    ∀ bad, res = Some bad → bad_ok methods veq s0 policy w' bad ∧ ∀ id, uses w' bad id → id ∈ ordering.
Proof.
  intros Hr Hids.
  pose proof (hoare_ReplayRound vo ops sinv methods veq s0 checker policy ordering mode w Hr Hids) as H.
  apply hoare_run in H as (res&w'&E&?&?&?). eauto 10.
Qed.

(** [ReplayRound] rejects an id that is not of the round: it throws, after
    replaying the ids before it. *)
Theorem replay_unknown_task `{RL : !ReplayLaws ops sinv} (policy : DeadlockPolicy)
    (before after : list Z) (id : Z) (mode : ReplayMode) w :
  replayable sinv methods w → (∀ i, i ∈ before → known_id w i) → ¬ known_id w id →
  ReplayRound vo ops eo policy (before ++ id :: after) mode w = Throw "Invalid task id".
Proof. apply (replay_round_unknown vo ops sinv methods veq s0 checker policy). Qed.

End Correct.

(** ** Minimization *)
Section Minimizers.
Context `{TT : TargetTypes, TC : !TargetCode, RN : Random, TO : !TargetObject}.
Context {B X Event : Type}.
Abbreviation W := (World B X).
Abbreviation Bad := (NonLinearizableHistory Event).
Context (eo : EventOps W Event) (sched : SchedulerOps W Event) (F : Prop).
Context (Inv : W → Prop) (bad_ok : W → Bad → Prop) (uses : W → Bad → Z → Prop).
Implicit Types (w : W) (bad : Bad).

(** C18. The greedy minimizers are sound: over any scheduler that keeps
    [SchedulerLaws], minimizing by replaying the same interleaving and by
    exploring with the strategy both return a bad history of the same round,
    and no task that was marked removed occurs in it. They run out of fuel
    only if the scheduler may, which is the proposition [F]. *)
Theorem greedy_minimize_correct `{SL : !SchedulerLaws eo sched F Inv bad_ok uses} (runs : nat) bad w :
  min_ok Inv bad_ok uses w bad →
  hoare F (GreedyMinimize eo sched (SameInterleaving sched) bad)
    (λ bad' w', same_shape w w' ∧ min_ok Inv bad_ok uses w' bad') w ∧
  hoare F (GreedyMinimize eo sched (StrategyExploration sched runs) bad)
    (λ bad' w', same_shape w w' ∧ min_ok Inv bad_ok uses w' bad') w.
Proof.
  intros Hm. split; apply (hoare_GreedyMinimize eo sched F Inv bad_ok uses); try done.
  - by apply (SameInterleaving_ok eo sched F).
  - by apply (StrategyExploration_ok eo sched F).
Qed.

(** C19. The genetic minimizer is sound, and its assertions that fitness lies
    between 0 and 1 hold in single precision: for rounds of at most 64 tasks
    and 64 threads [SmartMinimize] returns a bad history of the same round,
    again with no fuel spent but the scheduler's. *)
Theorem smart_minimize_correct `{SL : !SchedulerLaws eo sched F Inv bad_ok uses}
    (exploration_runs minimization_runs max_offsprings attempts : nat) (sm : Smart) bad w :
  attempts ≠ 0 → sized w → min_ok Inv bad_ok uses w bad →
  hoare F (SmartMinimize eo sched exploration_runs minimization_runs max_offsprings attempts sm bad)
    (λ bad' w', Inv w' ∧ same_shape w w' ∧ bad_ok w' bad') w.
Proof. apply (hoare_SmartMinimize eo sched F Inv bad_ok uses). Qed.
End Minimizers.
