(* ===== verification/StrategyCorrect.v ===== *)
(** * What the strategies promise

    The theorems about resets, custom rounds, the picking strategies and the
    bookkeeping of dual rounds. *)
From stdpp Require Import base list gmap strings sorting.
From Stdlib Require Import ZArith.
From S2P Require Import Prelude LincheckDual Effects BlockManager Runtime Verifier Strategy Strategies Scheduler Rounds.
From S2P Require Import WorldInv Choosing Slices Resets RoundCorrect StrategyLaws PctLaws Scheduling.
From S2P Require Import CustomRounds StrategyRounds DualRounds.

Open Scope nat_scope.

(** ** Lists of lists of the same shape *)

Lemma concat_lookup {A} (l : list (list A)) t r i x :
  l !! t = Some r → r !! i = Some x → concat l !! (length (concat (take t l)) + i) = Some x.
Proof.
  revert t. induction l as [|r' l IH]; intros [|t] Ht Hi; simplify_eq/=.
  - by apply lookup_app_l_Some.
  - rewrite length_app, <-Nat.add_assoc. rewrite lookup_app_r by lia.
    rewrite <-(IH t Ht Hi). f_equal. lia.
Qed.

Lemma concat_take_length {A C} (l : list (list A)) (l' : list (list C)) t :
  length <$> l = length <$> l' → length (concat (take t l)) = length (concat (take t l')).
Proof.
  revert t l'. induction l as [|r l IH]; intros [|t] [|r' l'] [=]; simpl; try done.
  rewrite !length_app. f_equal; [done|by apply IH].
Qed.

Section Strategies.
Context `{TT : TargetTypes, TC : !TargetCode, RN : Random, TO : !TargetObject}.
Context {B : Type} (vo : VerifierOps B).

(** C20. [ResetCurrentRound] brings a round back to its start: it succeeds on
    every well-formed world, the tasks keep their slots, ids, methods and
    arguments, every task that is not removed is unstarted with a fresh fibre
    and no trace of the last run, removed tasks have returned, the schedule is
    cleared and new tasks are allowed. *)
Theorem reset_current_round_restarts {X} (w : World B X) :
  winv w →
  ∃ w', ResetCurrentRound vo w = Ret ((), w') ∧ winv w' ∧ same_shape w w' ∧
    (∀ s c, slot_coro w' s = Some c →
       if bool_decide (co_id c ∈ removed_tasks (base w)) then co_returned c = true else unstarted c) ∧
    round_schedule (base w') = (λ _, (-1)%Z) <$> round_schedule (base w) ∧
    join_pairs (base w') = ∅ ∧ allow_new_tasks_ (base w') = true ∧
    removed_tasks (base w') = removed_tasks (base w) ∧ new_task_id (base w') = new_task_id (base w).
Proof.
  intros Hw. destruct (hoare_run (ResetCurrentRound vo) (λ _ w', restarted w w') w) as ([]&w'&E&Hrs).
  { by apply hoare_ResetCurrentRound. }
  pose proof (sf_removed _ _ (rs_frame _ _ Hrs)) as Hrm.
  exists w'. split_and!; [done|apply Hrs|apply Hrs| |apply Hrs|apply Hrs|apply Hrs|done|apply Hrs].
  intros s c Hc. rewrite <-Hrm. exact (rs_tasks _ _ Hrs s c Hc).
Qed.

(** [SetCustomRound] builds the scenario it is given: on a world without
    tasks, row [t] of the threads has exactly the tasks of row [t] of the
    scenario, in order, each unstarted and with the name of its builder, ids
    count up from the next free id, and the world is well formed. *)
Theorem set_custom_round_exact {X} (cr : list (list TaskBuilder)) (w : World B X) :
  winv w → slots w = [] →
  ∃ w', SetCustomRound vo cr w = Ret ((), w') ∧ winv w' ∧ length <$> threads (base w') = length <$> cr ∧
    (∀ t row i b, cr !! t = Some row → row !! i = Some b →
       ∃ c, slot_coro w' (t, i) = Some c ∧ co_name c = tb_name b ∧ co_returned c = false ∧
         co_ctx c = Some (fiber_new (co_func c) (co_this c) (co_args c)) ∧
         co_id c = (new_task_id (base w) + Z.of_nat (length (concat (take t cr)) + i))%Z) ∧
    round_schedule (base w') = resize (round_schedule (base w)) (length cr) (-1)%Z.
Proof.
  intros Hw Hs. destruct (hoare_run (SetCustomRound vo cr) (λ _ w', custom_started cr w w') w) as ([]&w'&E&Hc).
  { by apply hoare_SetCustomRound. }
  exists w'. split_and!; [done|by eapply custom_winv|apply Hc| |apply Hc].
  intros t row i b Hrow Hb. pose proof (cs_shape _ _ _ Hc) as Hsh.
  assert (∃ th, threads (base w') !! t = Some th ∧ length th = length row) as (th&Hth&Hl).
  { apply (f_equal (λ l, l !! t)) in Hsh. rewrite !list_lookup_fmap, Hrow in Hsh. simpl in Hsh.
    by apply fmap_Some in Hsh as (th&?&?); exists th. }
  destruct (lookup_lt_is_Some_2 th i) as [p Hp]; [rewrite Hl; by eapply lookup_lt_Some|].
  pose proof (concat_lookup _ _ _ _ _ Hth Hp) as Hslot. pose proof (concat_lookup _ _ _ _ _ Hrow Hb) as Hbuild.
  rewrite (concat_take_length _ _ t Hsh) in Hslot. change (concat (threads (base w'))) with (slots w') in Hslot.
  rewrite (cs_slots _ _ _ Hc) in Hslot. apply lookup_seq in Hslot as [-> _].
  destruct (ba_new _ _ _ (cs_built _ _ _ Hc) _ _ Hbuild) as (c&Hco&Hid&Hname&Hret&Hctx).
  exists c. split_and!; [|done..]. apply slot_coro_Some. eexists. split; [|exact Hco].
  unfold slot_ptr. simpl. rewrite Hth. exact Hp.
Qed.

(** C22. [RandomStrategy] preserves the type of the scheduler's state. In a
    well-formed world without simulated threads in which every thread has a
    weight, [Next], [UpdateSimulatorState], [ResetCurrentRound] and
    [ResetExplorationState] succeed and leave such a world, and so do
    [NextSchedule] when the schedule of the round points at tasks of it and
    [SetCustomRound] when the round has no tasks yet. [StartNextRound]
    succeeds, but the weights stay those of the last round: every thread of
    the new round has one exactly when there are as many weights as threads in
    a generated round, which a shorter scenario before it violates. *)
Theorem random_strategy_keeps_world `{VT : !VerifierTotal vo, SL : !ShuffleLaws} (w : World B RandomPick.t) :
  winv w → no_os w → weights_inv (ext w) (length (threads (base w))) →
  let ops := RandomPick.RandomStrategy vo in
  let keeps {A} (m : M (World B RandomPick.t) A) :=
    ∃ a w', m w = Ret (a, w') ∧ winv w' ∧ no_os w' ∧ weights_inv (ext w') (length (threads (base w'))) in
  keeps (so_Next ops) ∧ (schedule_ok w → keeps (so_NextSchedule ops)) ∧
  keeps (so_ResetCurrentRound ops) ∧ keeps (so_ResetExplorationState ops) ∧
  (∀ t h, keeps (so_UpdateSimulatorState ops t h)) ∧
  (slots w = [] → ∀ cr, keeps (so_SetCustomRound ops cr)) ∧
  ∃ w', so_StartNextRound ops w = Ret ((), w') ∧ winv w' ∧ no_os w' ∧
    length (threads (base w')) = threads_count (base w) ∧
    (weights_inv (ext w') (length (threads (base w'))) ↔
     threads_count (base w) ≤ length (RandomPick.weights (ext w))).
Proof.
  intros Hw Ho Hx ops keeps.
  assert (∀ w', restarted w w' → winv w' ∧ no_os w' ∧ weights_inv (ext w') (length (threads (base w')))) as Hrest.
  { intros w' Hrs. pose proof (rs_frame _ _ Hrs) as Hf. split_and!; [apply Hrs| |].
    - split; [rewrite (sf_info _ _ Hf); apply Ho|apply Hrs].
    - by rewrite (sf_ext _ _ Hf), (ss_threads _ _ (rs_shape _ _ Hrs)). }
  split_and!.
  - destruct (hoare_run _ _ _ (nl_next (ops := ops) w Hw Ho Hx)) as (r&w'&E&Hpost&Hx'). exists r, w'.
    split_and!; [done|..|done]; destruct r as [[]|s [] t]; simpl in Hpost; try done.
    + by eapply stable_winv.
    + destruct Hpost as (_&_&th&p&c&_&_&Hst). by eapply started_winv.
    + destruct Hpost as (_&Hs&_). by eapply stable_winv.
    + by eapply stable_no_os.
    + destruct Hpost as (_&_&th&p&c&_&_&Hst). destruct Ho, Hst. split; congruence.
    + destruct Hpost as (_&Hs&_). by eapply stable_no_os.
  - intros Hok. destruct (hoare_run _ _ _ (rl_schedule (ops := ops) w Hw Ho Hx Hok)) as (r&w'&E&(l&Hl)&_&Hx'&_).
    exists r, w'. split_and!; [done| | |done].
    + eapply stable_winv; [exact Hl|]. destruct Hw. by split.
    + by eapply stable_no_os.
  - destruct (hoare_run _ _ _ (rl_reset (ops := ops) w Hw)) as (r&w'&E&Hrs). exists r, w'. split; [done|auto].
  - destruct (hoare_run _ _ _ (rl_reset_explore (ops := ops) w Hw)) as (r&w'&E&Hrs). exists r, w'. split; [done|auto].
  - intros t h. exists h, w. split_and!; [by apply (nl_update (ops := ops) (sinv := weights_inv))|done..].
  - intros Hs cr. destruct (hoare_run _ _ _ (cl_custom (ops := ops) cr w Hw Hs)) as (r&w'&E&w1&Hc&Ew&Hx').
    specialize (Hx' Hx). pose proof (f_equal length (cs_shape _ _ _ Hc)) as Hl. rewrite !length_fmap in Hl.
    exists r, w'. split; [done|]. rewrite Ew. split_and!.
    + pose proof (custom_winv _ _ _ Hw Hc) as []. by split.
    + destruct Ho. split; simpl; [by rewrite (ba_info _ _ _ (cs_built _ _ _ Hc))|by rewrite (cs_joins _ _ _ Hc)].
    + simpl. by rewrite Hl.
  - destruct (hoare_run _ _ _ (rl_start (ops := ops) w Hw)) as ([]&w'&E&Hn). exists w'.
    rewrite (nr_ext _ _ Hn), (nr_empty _ _ Hn), length_replicate. split_and!; [done|apply Hn| |done|done].
    split; [rewrite (nr_info _ _ Hn); apply Ho|apply Hn].
Qed.

(** C23. [RoundRobinStrategy] is fair: among as many consecutive picks as there
    are threads, a thread that passes the tests whenever it is tried is
    picked, whatever happens to the rest of the world between the picks. *)
Theorem round_robin_fair `{VT : !VerifierTotal vo} (u : nat) (picks : list nat) (w : World B Z) :
  choosing w → u < length (threads (base w)) →
  (0 ≤ ext w ∧ ext w + 2 * Z.of_nat (length (threads (base w))) < 2 ^ 64)%Z →
  length (threads (base w)) ≤ length picks → always vo u picks w → u ∈ picks.
Proof.
  intros Hc Hu Hx Hl Ha. apply (round_robin_turns vo u picks w); [done..| |done].
  pose proof (distance_lt w u Hu). lia.
Qed.

(** C24. [PctStrategy] follows priorities: outside the fair stage it asks the
    tests about every thread in turn, where a thread passes if it may run (it
    is not blocked, and has an unfinished task or may take a new one) and the
    verifier allows its unfinished task, if it has one. It picks, among the
    threads that pass, the last one of the greatest priority, and it gives up
    only when no thread passes. *)
Theorem pct_picks_highest `{VT : !VerifierTotal vo, SL : !ShuffleLaws} (w : World B Pct.t) :
  let tids := seq 0 (length (threads (base w))) in
  winv w → no_os w → pct_inv (ext w) (length (threads (base w))) → Pct.fair_stage (ext w) = 0%Z →
  ∃ o w' bs, Pct.NextThreadId vo w = Ret (o, w') ∧
    test_answers vo w tids (sched_checker (base w)) = Ret (bs, sched_checker (base w')) ∧
    pct_inv (ext w') (length (threads (base w'))) ∧
    match o with
    | Some i => ∃ p, Pct.priorities (ext w) !! i = Some p ∧ passed tids bs i ∧
        ∀ j q, passed tids bs j → Pct.priorities (ext w) !! j = Some q → (q < p)%Z ∨ q = p ∧ j ≤ i
    | None => ∀ j, ¬ passed tids bs j
    end.
Proof.
  intros tids Hw Ho Hi Hf. destruct (hoare_run _ _ _ (hoare_NextThreadId vo w Hw Ho Hi)) as (o&w'&E&_&Hi'&_&Hb).
  destruct (Hb Hf) as (bs&Ha&Hm). by exists o, w', bs.
Qed.

(** Replays starve the change points of [PctStrategy]: each
    [ResetCurrentRound] records the length of a schedule, which is 0 when the
    round was replayed rather than scheduled, so after at most as many resets
    as slices were ever recorded the range of the change points is empty and
    its distribution is undefined behaviour. *)
Theorem pct_resets_undefined `{SL : !ShuffleLaws} (n : nat) (w : World B Pct.t) :
  let recorded := Pct.k_statistics (ext w) in
  winv w → Pct.current_schedule_length (ext w) = 0%Z → (0 ≤ Pct.current_depth (ext w) ≤ 50)%Z →
  (Z.of_nat (length (threads (base w))) < 2 ^ 30)%Z → (0 ≤ total recorded < 2 ^ 64)%Z →
  n ≠ 0 → (total recorded < Z.of_nat (length recorded + n))%Z →
  resets vo n w = UB.
Proof. intros rec. apply resets_undefined. Qed.

End Strategies.

(** ** Dual rounds *)
Section Dual.
Context `{TT : TargetTypes, TC : !TargetCode, RN : Random, TO : !TargetObject}.
Context {B X : Type}.
Implicit Types (w : World B X).

(** C26. The history of a dual round is chronological: after a slice the events
    that the dual tasks emitted are appended exactly once, as a permutation of
    what was emitted that is sorted by the global sequence number, and nothing
    is left to drain. *)
Theorem dual_events_chronological w :
  winv w →
  ∃ l w', AppendDrainedDualEvents w = Ret (drained_event <$> l, w') ∧
    l ≡ₚ all_emitted w ∧ Sorted seqno_le l ∧ all_emitted w' = [] ∧ base w' = base w.
Proof.
  intros Hw.
  destruct (hoare_run AppendDrainedDualEvents (λ evs w', ∃ l, evs = drained_event <$> l ∧ l ≡ₚ all_emitted w ∧
    Sorted seqno_le l ∧ drained w w' (slots w)) w) as (evs&w'&E&l&->&Hl&Hs&Hd).
  { apply hoare_AppendDrained; [done|]. intros l w' Hl Hs Hd. by exists l. }
  assert (base w' = base w) as Eb by by rewrite (dr_world _ _ _ Hd).
  exists l, w'. split_and!; [done..| |done]. apply emitted_nothing. intros p Hp t. unfold emitted.
  rewrite Eb in Hp. rewrite (dr_heap _ _ _ Hd), bool_decide_eq_true_2 by done.
  destruct (coro w p) as [c|]; simpl; [|done]. by destruct (co_dual c) eqn:Hdu; simpl; rewrite Hdu.
Qed.

(** Appending a task for a replay and removing it again restores the
    threads: when the method can be built, [AppendTaskForReplay] adds one
    unstarted task with the next id at the end of the thread, and once that
    task has been terminated [RemoveLastTaskForReplay] takes exactly it away. *)
Theorem append_remove_roundtrip w (t : nat) (name : string) (b : TaskBuilder) :
  winv w → t < length (threads (base w)) → b ∈ constructors (base w) → tb_name b = name →
  ∃ w1 w2, AppendTaskForReplay name t w = Ret (Some (new_task_id (base w)), w1) ∧
    winv w1 ∧ length (slots w1) = S (length (slots w)) ∧
    (on_rt (update_coro (next_ptr (rt w)) Terminate);; RemoveLastTaskForReplay t (new_task_id (base w))) w1
      = Ret (true, w2) ∧
    threads (base w2) = threads (base w) ∧
    removed_tasks (base w2) = removed_tasks (base w) ∖ {[new_task_id (base w)]}.
Proof.
  intros Hw Ht Hb Hn.
  destruct (hoare_run (AppendTaskForReplay name t) (λ o w1, ∃ th p c, o = Some (co_id c) ∧ started w w1 t th p c) w)
    as (o&w1&E&th&p&c&->&Hst).
  { apply hoare_AppendTask; [done|..].
    - intros [?|Hno]; [lia|]. by destruct (Hno b Hb).
    - intros w' th p c b' Hst _ _ _. by exists th, p, c. }
  pose proof (sd_id _ _ _ _ _ _ Hst) as Hid. pose proof (sd_ptr _ _ _ _ _ _ Hst) as Hp. subst p.
  assert (coro w1 (next_ptr (rt w)) = Some c) as Hc.
  { rewrite (started_coro _ _ _ _ _ _ _ Hst). by rewrite decide_True. }
  assert (threads (base w1) !! t = Some (th ++ [next_ptr (rt w)])) as Hth.
  { rewrite (sd_threads _ _ _ _ _ _ Hst). by apply list_lookup_insert_eq. }
  destruct (hoare_run (on_rt (update_coro (next_ptr (rt w)) Terminate);; RemoveLastTaskForReplay t (co_id c))
    (λ r w2, r = true ∧ threads (base w2) = threads (base w) ∧
       removed_tasks (base w2) = removed_tasks (base w) ∖ {[co_id c]}) w1) as (r&w2&E2&->&Et&Er).
  { mstep. eapply hoare_touch; [done|done|done|]. intros w3 Htc.
    eapply (hoare_RemoveLast _ t th (next_ptr (rt w)) (Terminate c)).
    - by rewrite (to_base _ _ _ _ _ Htc).
    - rewrite (touched_coro _ _ _ _ _ _ Htc). by rewrite decide_True.
    - done.
    - intros w4 H4 _ _ Hr4. split_and!; [done|..].
      + rewrite H4, (to_base _ _ _ _ _ Htc), (sd_threads _ _ _ _ _ _ Hst), list_insert_insert_eq.
        by rewrite list_insert_id by apply Hst.
      + by rewrite Hr4, (to_base _ _ _ _ _ Htc), (sd_removed _ _ _ _ _ _ Hst). }
  rewrite Hid in *. exists w1, w2. split_and!; [done|by eapply started_winv| |done..].
  by rewrite (started_slots _ _ _ _ _ _ Hst).
Qed.

(** C28. The rollback of a deadlock ends in a failed assertion: when the
    exploration after the waiting task was replaced by a progress method finds
    nothing and leaves the appended task last in its thread,
    [ResetExplorationState] restarts that task, and [RemoveLastTaskForReplay]
    then destroys it before it has returned. *)
Theorem rollback_destroys_unstarted (vo : VerifierOps B)
    (ops : StrategyOps (World B X)) sinv `{RL : !ReplayLaws ops sinv}
    (checker : list (DualHistoryEvent Args Value) → outcome bool)
    (policy : DeadlockPolicy) (fuel : nat) (candidate : RollbackCandidate) (method : string)
    (th : list nat) (p : nat) (c : Coro) w w1 w2 :
  let t := rc_thread_id candidate in
  (SetTaskRemoved (rc_task_id candidate) true;; AppendTaskForReplay method t) w = Ret (Some (co_id c), w1) →
  DualExploreRound vo ops checker policy fuel 1 w1 = Ret (None, w2) →
  winv w2 → threads (base w2) !! t = Some (th ++ [p]) → coro w2 p = Some c →
  co_id c ∉ removed_tasks (base w2) →
  rollback_attempt vo ops checker policy fuel candidate method w = AssertFail.
Proof.
  intros t Happ Hexp Hw Ht Hc Hrm. pose proof (rollback_asserts ops sinv t th p c w2 Hw Ht Hc Hrm) as Hra.
  apply bind_ret_inv in Happ as ([]&w0&E0&Happ). unfold rollback_attempt.
  rewrite (bind_run _ _ _ _ _ E0), (bind_run _ _ _ _ _ Happ), (bind_run _ _ _ _ _ Hexp).
  by apply bind_assert.
Qed.

End Dual.
