(* ===== verification/Witnesses.v ===== *)
(** * Concrete instances

    For every theorem with hypotheses, an input on which they hold, with the
    conclusion the theorem gives there. *)
From Stdlib Require Import ZArith.
From stdpp Require Import base list gmap strings relations.
From S2P Require Import Prelude LinSpec Events History Linearizability Search LincheckRecursive Wgl LincheckDual.
From S2P Require Import Checkers VectorClock WmmEvent Graph GraphConsistent GraphSteps GraphInvariant GraphRead.
From S2P Require Import GraphTry WmmCorrect Latomic Specs SpecsDual SpecsLocks SpecsQueues SpecsCorrect.

(** ** Histories *)

Definition push_task : Task Args ValueWrapper := mkTask 0 10 0 "Push" [5%Z] (Some VoidValue).
Definition pop_task : Task Args ValueWrapper := mkTask 1 11 1 "Pop" [] (Some (IntValue 5)).

(** A pop that overlaps the push whose value it returns. *)
Definition queue_history : list (HistoryEvent Args ValueWrapper) :=
  [Invoke push_task 0; Invoke pop_task 1; Response push_task VoidValue 0;
   Response pop_task (IntValue 5) 1].

Lemma queue_history_wf_ref : wf_history task_ref queue_history.
Proof. apply wf_eventsb_sound. by vm_compute. Qed.

Lemma queue_history_wf_ptr : wf_history task_ptr queue_history.
Proof. apply wf_eventsb_sound. by vm_compute. Qed.

Lemma queue_history_known : methods_known Queue.methods queue_history.
Proof. intros [|[|[|[|i]]]] t th Hi; simplify_eq/=; by eexists. Qed.

Lemma queue_history_returns : returns_recorded queue_history.
Proof.
  intros [|[|[|[|i]]]] [|[|[|[|r]]]] t th u w th' (ei&er&Hi&Hr&Ii&Ir&Hk) Hi' Hr';
    simplify_eq/=; done.
Qed.

Lemma queue_history_handles : handles_agree queue_history.
Proof. intros [|[|[|[|i]]]] [|[|[|[|j]]]] e f Hi Hj; by simplify_eq/=. Qed.

#[local] Instance queue_methods_sound : SpecCongruence Queue.methods Queue.QueueEquals eq :=
  Queue.queue_congruence.
#[local] Instance channel_methods_sound :
  DualSpecCongruence CoroutineQueue.methods CoroutineQueue.Equals eq := coroutine_queue_sound.

Lemma wgl_check_correct_witness :
  ∃ b, Check (λ _, 0%Z) Queue.QueueHash Queue.QueueEquals value_eq Queue.methods (Queue.mk [])
         queue_history (S (check_fuel queue_history)) = Ret b ∧
    (b = true ↔ linearizable Queue.methods value_eq task_ref queue_history (Queue.mk [])).
Proof.
  apply (wgl_check_correct Queue.methods (Queue.mk []) Queue.QueueHash Queue.QueueEquals value_eq eq).
  - exact queue_history_wf_ref.
  - exact queue_history_known.
  - exact queue_history_returns.
  - apply Nat.lt_succ_diag_r.
Defined.

Lemma recursive_check_correct_witness :
  ∃ b, CheckRecursive Queue.QueueHash Queue.QueueEquals true value_eq Queue.methods (Queue.mk [])
         queue_history = Ret b ∧
    (b = true ↔ linearizable Queue.methods value_eq task_ptr queue_history (Queue.mk [])).
Proof.
  apply (recursive_check_correct Queue.methods (Queue.mk []) Queue.QueueHash Queue.QueueEquals value_eq eq).
  - exact queue_history_wf_ptr.
  - exact queue_history_known.
Defined.

Lemma wgl_recursive_equivalent_witness :
  Check (λ _, 0%Z) Queue.QueueHash Queue.QueueEquals value_eq Queue.methods (Queue.mk [])
    queue_history (S (check_fuel queue_history)) =
  CheckRecursive Queue.QueueHash Queue.QueueEquals true value_eq Queue.methods (Queue.mk [])
    queue_history.
Proof.
  apply (wgl_recursive_equivalent Queue.methods (Queue.mk []) Queue.QueueHash Queue.QueueEquals value_eq eq).
  - exact queue_history_wf_ref.
  - exact queue_history_known.
  - exact queue_history_returns.
  - exact queue_history_handles.
  - apply Nat.lt_succ_diag_r.
Defined.

Lemma recursive_check_unknown_method_witness :
  ∃ what, CheckRecursive Stack.StackHash Stack.StackEquals false value_eq (∅ : MethodMap Stack.t Args ValueWrapper)
            (Stack.mk []) queue_history = Throw what.
Proof.
  apply (recursive_check_unknown_method Stack.StackHash Stack.StackEquals false value_eq ∅
           (Stack.mk []) queue_history 1 pop_task 1).
  - exact queue_history_wf_ptr.
  - reflexivity.
  - reflexivity.
Defined.

Lemma inv_res_mapping_exact_witness :
  ∃ m, get_inv_res_mapping queue_history = Ret m ∧
    ∀ i r, m !! i = Some r ↔ answers task_ref queue_history i r.
Proof. apply (inv_res_mapping_exact queue_history). exact queue_history_wf_ref. Defined.

(** A send and a receive on the channel, the receive requested first. *)
Definition send_task : Task Args ValueWrapper := mkTask 0 20 7 "send" [9%Z] (Some VoidValue).
Definition receive_task : Task Args ValueWrapper := mkTask 1 21 8 "receive" [] (Some (IntValue 9)).

Definition channel_history : list (DualHistoryEvent Args ValueWrapper) :=
  [RequestInvoke receive_task 1; RequestResponse receive_task 1;
   RequestInvoke send_task 0; RequestResponse send_task 0;
   FollowUpInvoke receive_task 1; FollowUpResponse receive_task (IntValue 9) 1;
   FollowUpInvoke send_task 0].

Lemma channel_history_wf : wf_dual channel_history.
Proof. apply wf_eventsb_sound. by vm_compute. Qed.

Lemma channel_history_known : dual_methods_known CoroutineQueue.methods channel_history.
Proof. intros [|[|[|[|[|[|[|i]]]]]]] e Hi Ie; simplify_eq/=; by eexists. Qed.

Lemma dual_check_correct_witness :
  ∃ b, CheckDual (λ _, 0%Z) CoroutineQueue.Equals true value_eq CoroutineQueue.methods
         (CoroutineQueue.mk [] [] ∅ ∅) channel_history = Ret b ∧
    (b = true ↔ dual_linearizable value_eq CoroutineQueue.methods (CoroutineQueue.mk [] [] ∅ ∅)
                  channel_history).
Proof.
  apply (dual_check_correct CoroutineQueue.methods (CoroutineQueue.mk [] [] ∅ ∅) (λ _, 0%Z)
           CoroutineQueue.Equals value_eq eq).
  - exact channel_history_wf.
  - exact channel_history_known.
Defined.

(** The three checkers accept the histories. *)
Example histories_accepted :
  Check (λ _, 0%Z) Queue.QueueHash Queue.QueueEquals value_eq Queue.methods (Queue.mk [])
    queue_history 100 = Ret true ∧
  CheckRecursive Queue.QueueHash Queue.QueueEquals true value_eq Queue.methods (Queue.mk [])
    queue_history = Ret true ∧
  CheckDual (λ _, 0%Z) CoroutineQueue.Equals true value_eq CoroutineQueue.methods
    (CoroutineQueue.mk [] [] ∅ ∅) channel_history = Ret true.
Proof. by vm_compute. Qed.

(** ** Specifications *)

Lemma queue_spec_fifo_witness :
  pushed [("Push", [3%Z]); ("Push", [4%Z]); ("Pop", [])] = [3%Z; 4%Z] ∧
  [3%Z; 4%Z] = popped [VoidValue; VoidValue; IntValue 3] ++ Queue.deq (Queue.mk [4%Z]).
Proof.
  split; [reflexivity|].
  apply (queue_spec_fifo [("Push", [3%Z]); ("Push", [4%Z]); ("Pop", [])] (Queue.mk [4%Z])
           [VoidValue; VoidValue; IntValue 3]).
  - repeat constructor; done.
  - vm_compute. reflexivity.
Defined.

Lemma stack_spec_lifo_witness :
  ∃ vs, run_calls Stack.spec (("Push", [1%Z]) :: [("Push", [2%Z]); ("Pop", [])] ++ [("Pop", [])])
          (Stack.mk [9%Z]) = Some (Stack.mk [9%Z], vs) ∧ last vs = Some (IntValue 1).
Proof.
  apply (stack_spec_lifo (Stack.mk [9%Z]) [1%Z] [] [("Push", [2%Z]); ("Pop", [])]).
  apply (balanced_wrap [2%Z] [] [] []); constructor.
Defined.

Lemma bank_transfer_conserves_witness :
  ∃ l' r, LinearBank.Transfer LinearBank.initial 0 1 30 = Ret (l', r) ∧ total l' = 100%Z.
Proof.
  destruct (bank_transfer_conserves LinearBank.initial 0 1 30 50 50)
    as (l'&r&Ht&_&Htot&_).
  - split; [repeat constructor; done|]. vm_compute. reflexivity.
  - done.
  - reflexivity.
  - reflexivity.
  - exists l', r. split; [exact Ht|]. rewrite Htot. reflexivity.
Defined.

(** Two lock requests, of which the first is granted and returns. *)
Lemma coro_mutex_exclusive_witness :
  (1 + size (CoroMutex.ready_locks (CoroMutex.mk true [2%Z] ∅)) ≤ 1)%nat.
Proof.
  apply (coro_mutex_exclusive fifo (CoroMutex.mk true [2%Z] ∅) 1 {[2%Z]}); [by right|].
  pose proof (run_init fifo) as H0.
  apply (run_request fifo _ _ _ 1%Z) in H0; [|by vm_compute].
  apply (run_request fifo _ _ _ 2%Z) in H0; [|by vm_compute].
  eapply (run_follow_up fifo _ _ _ 1%Z VoidValue) in H0; [|vm_compute; reflexivity].
  exact H0.
Defined.

Lemma dual_stack_split_refines_witness :
  ∃ l', DualStackSplit.Push DualStackSplit.initial 6 = Ret l' ∧
    abs l' = CoroAsyncStack.Push (abs DualStackSplit.initial) 6.
Proof. apply (dual_stack_split_refines DualStackSplit.initial). constructor. Defined.

(** A receive, then a send of 9. *)
Definition paired : CoroutineQueue.t :=
  CoroutineQueue.RequestSend (CoroutineQueue.RequestReceive (CoroutineQueue.mk [] [] ∅ ∅) 8) 7 9.

Lemma paired_run : channel_run [(7%Z, 9%Z)] [8%Z] ∅ ∅ paired.
Proof.
  apply (channel_send [] [8%Z] ∅ ∅ _ 7 9); [|apply not_elem_of_nil].
  apply (channel_receive [] [] ∅ ∅ _ 8); [apply channel_init|apply not_elem_of_nil].
Qed.

Lemma coroutine_queue_pairs_witness :
  (CoroutineQueue.FollowUpReceive paired 8).1 = Some (IntValue 9).
Proof.
  destruct (coroutine_queue_pairs [(7%Z, 9%Z)] [8%Z] ∅ ∅ paired paired_run) as (_&Hp&_).
  apply (Hp 0%nat 8%Z 7%Z 9%Z).
  - reflexivity.
  - reflexivity.
  - by vm_compute.
Defined.

(** * Concrete instances for the weak-memory execution graph

    For every theorem of [WmmCorrect] with hypotheses, an input on which they
    hold, with the conclusion the theorem gives there. *)
Local Open Scope nat_scope.

(** The state of an outcome that is known to be a return. *)
Definition returned {A} (o : outcome A) (d : A) : A := match o with Ret a => a | _ => d end.

(** Two threads, one location with the initial value 0, and a sequentially
    consistent store of 1 by thread 0. *)
Definition start : ExecutionGraph Z := ResetExecution (mkExec 0 empty_graph) 2.
Definition registered : ExecutionGraph Z := (returned (RegisterLocation start 0%Z) (0%Z, start)).2.
Definition stored : ExecutionGraph Z := returned (Store registered 0 0 SeqCst 1%Z) start.

Lemma IntOps_refl v : v_eqb IntOps v v = true.
Proof. apply Z.eqb_refl. Qed.

Lemma start_reachable : reachable IntOps start.
Proof. apply reach_start. Qed.

Lemma registered_reachable : reachable IntOps registered.
Proof.
  eapply reach_step; [exact start_reachable|]. eapply (step_register _ _ 0%Z 0%Z).
  - by vm_compute.
  - vm_compute. lia.
  - by vm_compute.
Qed.

Lemma stored_reachable : reachable IntOps stored.
Proof.
  eapply reach_step; [exact registered_reachable|]. eapply (step_store _ _ 0%Z 0 SeqCst 1%Z).
  - by vm_compute.
  - vm_compute. lia.
  - by vm_compute.
Qed.

Lemma stored_small : small (graph stored).
Proof. by vm_compute. Qed.
Lemma stored_thread : 1 < nThreads (graph stored).
Proof. vm_compute. lia. Qed.
Lemma stored_location : (0 ≤ 0 < nextLocationId stored)%Z.
Proof. by vm_compute. Qed.

Lemma wmm_invariant_witness : acyclic (mo (graph stored)).
Proof. apply (wmm_invariant IntOps IntOps_refl stored stored_reachable). Defined.

Lemma wmm_load_returns_store_witness :
  ∃ v x' we, Load IntOps (λ l, l) stored 0 1 Relaxed = Ret (v, x') ∧ GetWrittenValue we = Ret v.
Proof.
  destruct (wmm_load_returns_store IntOps IntOps_refl (λ l, l) stored 0 1 Relaxed stored_reachable
              (λ l, Permutation_refl l) stored_small stored_thread stored_location)
    as [[Hf _]|(v&x'&w&we&ev&Hl&_&_&_&Hw&_)].
  - exfalso. vm_compute in Hf. discriminate Hf.
  - exact (ex_intro _ v (ex_intro _ x' (ex_intro _ we (conj Hl Hw)))).
Defined.

Lemma wmm_store_succeeds_witness :
  ∃ x' we, Store stored 0 1 Release 7%Z = Ret x' ∧ ev_kind we = WriteEvent 7%Z ∧ graph_wf (graph x').
Proof.
  destruct (wmm_store_succeeds IntOps IntOps_refl stored 0 1 Release 7%Z stored_reachable
              stored_small stored_thread) as (x'&we&Hs&_&Hk&_&_&_&Hwf).
  exact (ex_intro _ x' (ex_intro _ we (conj Hs (conj Hk Hwf)))).
Defined.

Lemma wmm_cas_semantics_witness :
  ∃ v cell x', ReadModifyWrite IntOps (λ l, l) stored 0 1 0%Z 5%Z AcqRel Relaxed =
    Ret (v_eqb IntOps v 0%Z, v, cell, x').
Proof.
  destruct (wmm_cas_semantics IntOps IntOps_refl (λ l, l) stored 0 1 0%Z 5%Z AcqRel Relaxed
              stored_reachable (λ l, Permutation_refl l) stored_small stored_thread stored_location)
    as [[Hf _]|(v&cell&x'&w&we&ev&Hl&_)].
  - exfalso. vm_compute in Hf. discriminate Hf.
  - exact (ex_intro _ v (ex_intro _ cell (ex_intro _ x' Hl))).
Defined.

Lemma wmm_rmw_semantics_witness :
  ∃ v v' x', UnconditionalReadModifyWrite IntOps (λ l, l) stored 0 1 FetchOr 4%Z 0%Z AcqRel = Ret (v, x') ∧
    ApplyAtomicRmwOp IntOps FetchOr v 4%Z = Ret v'.
Proof.
  destruct (wmm_rmw_semantics IntOps IntOps_refl (λ l, l) stored 0 1 FetchOr 4%Z 0%Z AcqRel
              stored_reachable (λ l, Permutation_refl l) stored_small stored_thread stored_location)
    as [(w&we&v&_&_&_&_&Hn&_)|[[Hf _]|(v&v'&x'&w&we&ev&Hl&_&_&_&_&_&_&_&Hop)]].
  - destruct (Hn _ eq_refl).
  - exfalso. vm_compute in Hf. discriminate Hf.
  - exact (ex_intro _ v (ex_intro _ v' (ex_intro _ x' (conj Hl Hop)))).
Defined.

(** A compare-exchange of thread 1 that may not read the initial store. *)
Definition cas_event : Event Z :=
  new_event (graph stored) 0 1 SeqCst (CASRMWEvent None STATE_UNSET 0%Z 0%Z 0%Z 5%Z Relaxed).
Definition cas_appended : Graph Z := returned (CreatePoEdgeToEvent (graph stored) cas_event) (graph stored).
Definition after_rejection : Graph Z := (returned (TryCreateRfEdge IntOps cas_appended 2 4) (true, cas_appended)).2.

Lemma cas_appended_opened :
  opened 4 cas_appended ∧ ∃ c, g_events cas_appended !! 4 = Some (set_clock c cas_event).
Proof.
  destruct (CreatePo_opened (graph stored) cas_event
              (xi_wf _ (exec_reachable_inv IntOps IntOps_refl stored stored_reachable))
              eq_refl eq_refl stored_thread stored_small) as (g1&c&Hpo&Hop&He&_).
  assert (Heq : CreatePoEdgeToEvent (graph stored) cas_event = Ret cas_appended) by (vm_compute; reflexivity).
  rewrite Hpo in Heq. assert (Hg : g1 = cas_appended) by congruence. subst g1.
  assert (Hid : ev_id cas_event = 4) by (vm_compute; reflexivity). rewrite Hid in Hop, He. eauto.
Qed.

Lemma try_rf_edge_undone_witness :
  ∃ r c k, g_events cas_appended !! 4 = Some r ∧
    after_rejection = set_event cas_appended 4 (set_clock c (set_kind k r)).
Proof.
  destruct cas_appended_opened as [Hop [c0 Hr]].
  destruct (try_rf_edge_undone IntOps IntOps_refl 4 2 cas_appended after_rejection (set_clock c0 cas_event))
    as (c&k&Heq&_).
  - exact Hop.
  - exact Hr.
  - exact (conj eq_refl eq_refl).
  - eexists. split; [vm_compute; reflexivity|]. split; vm_compute; reflexivity.
  - eexists. vm_compute. reflexivity.
  - vm_compute. reflexivity.
  - eauto.
Defined.

Lemma is_consistent_sound_witness :
  ∃ b, IsConsistent diamond = Ret b ∧ (b = true → acyclic (mo diamond)).
Proof. apply (is_consistent_sound diamond). exact diamond_struct. Defined.

(** An atomic at location 0 of the graph [stored], used by thread 1. *)
Definition shared_flag : latomic Z := mkLatomic 1%Z 0.

