(* ===== verification/SchedulerWitnesses.v ===== *)
(** * Concrete rounds

    A small target, a counter whose increment may be interrupted between its
    read and its write, on which the hypotheses of the theorems about rounds
    hold and the schedulers can be run. *)
From stdpp Require Import base list gmap strings sorting.
From Stdlib Require Import ZArith.
From S2P Require Import Prelude LinSpec Events History Linearizability LincheckRecursive Wgl LincheckDual Checkers.
From S2P Require Import Effects BlockManager Runtime Verifier Strategy Strategies Scheduler Rounds.
From S2P Require Import Minimization Run.
From S2P Require Import WorldInv Choosing Slices Resets Recorded RoundCorrect StrategyLaws PctLaws Scheduling.
From S2P Require Import ReplayCorrect MinimizeCorrect CustomRounds RunCorrect.
From S2P Require Import StrategyRounds DualRounds TaskVerifiers.
From S2P Require Import SchedulerCorrect StrategyCorrect Options Program ProgramCorrect.

Open Scope nat_scope.

(** ** The target *)

Inductive counter_fiber := ReadsCounter | WritesCounter (v : Z).

#[local] Instance counter_types : TargetTypes := {|
  Args := unit; Value := Z; Func := unit; Fiber := counter_fiber; Memory := Z;
  empty_value := (-1)%Z; void_v := (-2)%Z; no_args := ();
|}.

#[local] Instance counter_code : TargetCode := {|
  fiber_new _ _ _ := ReadsCounter;
  fiber_run f r _ :=
    match f with
    | ReadsCounter => ([], Yields (WritesCounter (memory r)))
    | WritesCounter v => ([Writes (v + 1)%Z], Returns v)
    end;
|}.

#[local] Instance counter_object : TargetObject := {|
  target_factory _ := (0, 0%Z); reset_os_memory m := m; reset_wmm_graph m _ := m;
|}.

#[local] Instance counter_plain : PlainTarget.
Proof. split; intros [] ? ?; simpl; try done; by repeat constructor. Qed.

(** The generator that always draws the least value. *)
#[local] Instance least_random : Random := {|
  Rng := unit;
  shuffle _ r l := (l, r);
  discrete_distribution r _ := (0, r);
  uniform_int_distribution r a _ := (a, r);
  uniform_real_distribution r := (0%Z, r);
|}.
Definition seed : Rng := ().
#[local] Instance least_shuffle : ShuffleLaws.
Proof. by split. Qed.

Definition counter_rank (f : counter_fiber) : nat := match f with ReadsCounter => 1 | WritesCounter _ => 0 end.
#[local] Instance counter_bounded : RankLaws counter_rank 1.
Proof. split; [simpl; lia|]. intros [] r t f'; simpl; [intros [= <-]; simpl; lia|done]. Qed.

(** ** The specification *)

Definition counter_veq : Value → Value → bool := Z.eqb.

Definition counter_methods : MethodMap Z Args Value := {["next" := λ s _, ((s + 1)%Z, s)]}.

#[local] Instance counter_spec : SpecCongruence counter_methods Z.eqb eq.
Proof.
  split; [apply _|by intros s t ->%Z.eqb_eq|]. by intros name m args s t _ ->.
Qed.

Definition counter_checker : list (HistoryEvent Args Value) → outcome bool :=
  wgl_checker counter_methods 0%Z (λ s, s) Z.eqb counter_veq (λ _, 0%Z).

#[local] Instance counter_decides : ModelChecker counter_methods counter_veq 0%Z counter_checker :=
  wgl_model_checker counter_methods 0%Z (λ s, s) Z.eqb counter_veq eq (λ _, 0%Z).

(** ** Worlds *)

Definition next_builder : TaskBuilder := mkBuilder "next" () (λ m _, ((), m)) false.

Definition start_world {X} (x : X) : World unit X :=
  mkWorld (mkRuntime ∅ 0 ∅ 0 None 0 None 0%Z)
    (mkBase 0 ∅ [-1; -1]%Z true () 0 2 [[]; []] [next_builder] () ∅) x.

Lemma start_winv {X} (x : X) : winv (start_world x).
Proof.
  split; unfold slots, coro; simpl.
  - intros p Hp. by apply not_elem_of_nil in Hp.
  - intros p [c Hc]. by rewrite lookup_empty in Hc.
  - constructor.
  - intros p c Hp. by apply not_elem_of_nil in Hp.
  - intros p c Hp. by apply not_elem_of_nil in Hp.
  - intros p q c d Hp. by apply not_elem_of_nil in Hp.
Qed.

Lemma start_choosing {X} (x : X) : choosing (start_world x).
Proof. split; [apply start_winv|done]. Qed.

Lemma start_fresh {X} (x : X) (sinv : X → nat → Prop) :
  sinv x 2 → fresh_round sinv counter_methods 2 (start_world x).
Proof.
  intros Hx. split; [split; [apply start_winv|done|done|]|done..].
  split; [intros p c Hp; by apply not_elem_of_nil in Hp|].
  intros b ->%list_elem_of_singleton. by eexists.
Qed.

Abbreviation rr := (RoundRobin.RoundRobinStrategy default_ops).
Abbreviation rr_inv := (λ (_ : Z) (_ : nat), True).

Definition counter_options : RunOptions := mkRunOptions 2 1 true 1 1 PolicyCheck.
Definition scenario : CustomRound := [[next_builder]; [next_builder]].

Lemma scenario_ok : custom_ok counter_methods 2 2 scenario.
Proof.
  split; [|by vm_compute; lia..].
  intros row b Hr Hb. unfold scenario in Hr.
  repeat (apply elem_of_cons in Hr as [->|Hr]; [apply list_elem_of_singleton in Hb as ->; by eexists|]).
  by apply not_elem_of_nil in Hr.
Qed.

(** Two interrupted increments read the same value: a report. *)
Example counter_round_reported :
  match RunRound default_ops rr counter_checker 2 1 PolicyCheck 20 (start_world 0%Z) with
  | Ret (Some bad, _) => nl_seq bad =
      [EvInvoke (0, 0) 0%Z; EvInvoke (1, 0) 1%Z; EvResponse (0, 0) (0%Z : Value) 0%Z;
       EvResponse (1, 0) (0%Z : Value) 1%Z]
  | _ => False
  end.
Proof. vm_compute. reflexivity. Qed.

Lemma run_correct_witness :
  ∃ res w', Run default_ops rr counter_options 10 seed counter_checker [scenario] (start_world 0%Z) = Ret (res, w') ∧
    match res with
    | Some bad => bad_ok counter_methods counter_veq 0%Z PolicyCheck w' bad ∧ winv w'
    | None => fresh_round rr_inv counter_methods 2 w'
    end.
Proof.
  apply (run_correct default_ops rr rr_inv counter_methods counter_veq 0%Z counter_checker counter_options seed
    counter_rank 1 2 2 2 10 [scenario]).
  - intros _. unfold fitness_bound. lia.
  - lia.
  - simpl. lia.
  - lia.
  - by apply start_fresh.
  - constructor; [exact scenario_ok|constructor].
  - constructor; [by intros x|constructor].
Defined.


Lemma run_round_terminates_witness :
  ∃ res w', RunRound default_ops rr counter_checker 2 1 PolicyExplore 7 (start_world 0%Z) = Ret (res, w') ∧
    round_outcome rr_inv counter_methods counter_veq 0%Z 2 2 PolicyExplore res w'.
Proof.
  apply (run_round_terminates default_ops rr rr_inv counter_methods counter_veq 0%Z counter_checker counter_rank 1 2 1 2 7 PolicyExplore).
  - by apply start_fresh.
  - lia.
Defined.

(** ** A round with a task on each of two threads *)

Definition next_coro (id : Z) (dual : bool) (evs : list DualEvent) : Coro :=
  mkCoro id "next" () 0 () dual (-1)%Z false None (mkBlockState 0 0) (Some ReadsCounter) evs.

Definition round_world {X} (dual : bool) (evs0 evs1 : list DualEvent) (x : X) : World unit X :=
  mkWorld (mkRuntime {[0 := next_coro 0 dual evs0; 1 := next_coro 1 dual evs1]} 2 ∅ 0 None 0 None 0%Z)
    (mkBase 2 ∅ [-1; -1]%Z true () 0 2 [[0]; [1]] [next_builder] () ∅) x.

Lemma round_coros {X} dual evs0 evs1 (x : X) p c :
  coro (round_world dual evs0 evs1 x) p = Some c →
  (p = 0 ∧ c = next_coro 0 dual evs0) ∨ (p = 1 ∧ c = next_coro 1 dual evs1).
Proof.
  unfold coro. simpl. intros [[<- <-]|[_ [<- <-]%lookup_singleton_Some]]%lookup_insert_Some; auto.
Qed.

Lemma round_winv {X} dual evs0 evs1 (x : X) : winv (round_world dual evs0 evs1 x).
Proof.
  split.
  - intros p Hp. unfold slots in Hp. simpl in Hp.
    repeat (apply elem_of_cons in Hp as [->|Hp]; [by eexists|]). by apply not_elem_of_nil in Hp.
  - intros p [c [[-> _]|[-> _]]%round_coros]; simpl; lia.
  - unfold slots. simpl. apply NoDup_cons. split; [by apply not_elem_of_cons; split; [|apply not_elem_of_nil]|].
    apply NoDup_singleton.
  - intros p c _ [[_ ->]|[_ ->]]%round_coros _; by eexists.
  - intros p c _ [[_ ->]|[_ ->]]%round_coros; simpl; lia.
  - intros p q c d _ _ [[-> ->]|[-> ->]]%round_coros [[-> ->]|[-> ->]]%round_coros; simpl; done.
Qed.

Lemma round_replayable {X} evs0 evs1 (x : X) (sinv : X → nat → Prop) :
  sinv x 2 → replayable sinv counter_methods (round_world false evs0 evs1 x).
Proof.
  intros Hx. split; [split; [apply round_winv|done|done|]|simpl; lia]. split.
  - intros p c _ [[_ ->]|[_ ->]]%round_coros; by eexists.
  - intros b ->%list_elem_of_singleton. by eexists.
Qed.

Lemma round_known {X} dual evs0 evs1 (x : X) id : known_id (round_world dual evs0 evs1 x) id ↔ id = 0%Z ∨ id = 1%Z.
Proof.
  split.
  - intros (s&c&(p&_&[[_ ->]|[_ ->]]%round_coros)%slot_coro_Some&<-); auto.
  - intros [->| ->]; [exists (0, 0)|exists (1, 0)]; by eexists.
Qed.

Lemma explore_round_correct_witness :
  ∃ res w', ExploreRound default_ops rr (ordinary_events counter_checker rr) PolicyCheck 5 1
              (round_world false [] [] 0%Z) = Ret (res, w') ∧
    replayable rr_inv counter_methods w' ∧ carried (round_world false [] [] 0%Z) w' ∧
    ∀ bad, res = Some bad → bad_ok counter_methods counter_veq 0%Z PolicyCheck w' bad ∧
      ∀ id, uses w' bad id → id ∉ removed_tasks (base (round_world false [] [] 0%Z)).
Proof.
  destruct (explore_round_correct default_ops rr rr_inv counter_methods counter_veq 0%Z counter_checker
    PolicyCheck 5 1 (round_world false [] [] 0%Z)) as [Hends [E|(res&w'&Hfuel&Hres)]].
  - by apply round_replayable.
  - destruct (Hends counter_rank 1 counter_bounded); [vm_compute; lia|exact E].
  - exists res, w'. split; [exact (Hfuel 5 (le_n 5))|exact Hres].
Defined.

Lemma replay_round_correct_witness :
  ∃ res w', ReplayRound default_ops rr (ordinary_events counter_checker rr) PolicyCheck [0; 1; 0; 1]%Z NoForceComplete
              (round_world false [] [] 0%Z) = Ret (res, w') ∧
    replayable rr_inv counter_methods w' ∧ carried (round_world false [] [] 0%Z) w' ∧
    ∀ bad, res = Some bad → bad_ok counter_methods counter_veq 0%Z PolicyCheck w' bad ∧
      ∀ id, uses w' bad id → id ∈ [0; 1; 0; 1]%Z.
Proof.
  apply (replay_round_correct default_ops rr rr_inv counter_methods counter_veq 0%Z counter_checker PolicyCheck).
  - by apply round_replayable.
  - intros id Hid. apply round_known.
    repeat (apply elem_of_cons in Hid as [->|Hid]; [auto|]). by apply not_elem_of_nil in Hid.
Defined.

Lemma replay_unknown_task_witness :
  ReplayRound default_ops rr (ordinary_events counter_checker rr) PolicyCheck ([0%Z] ++ 7%Z :: [1%Z]) CompleteOnLast
    (round_world false [] [] 0%Z) = Throw "Invalid task id".
Proof.
  apply (replay_unknown_task default_ops rr rr_inv counter_methods counter_veq 0%Z counter_checker PolicyCheck).
  - by apply round_replayable.
  - intros i ->%list_elem_of_singleton. apply round_known. auto.
  - intros [H|H]%round_known; discriminate H.
Defined.

(** The bad history that interrupting both increments gives. *)
Definition counter_bad : NonLinearizableHistory SchedEvent :=
  mkBad [(0, 0); (1, 0); (0, 0); (1, 0)]
    [EvInvoke (0, 0) 0%Z; EvInvoke (1, 0) 1%Z; EvResponse (0, 0) (0%Z : Value) 0%Z;
     EvResponse (1, 0) (0%Z : Value) 1%Z] NON_LINEARIZABLE_HISTORY.

Abbreviation two_tasks := (round_world false [] [] 0%Z).

Lemma counter_bad_history : ¬ linearizable counter_methods counter_veq task_ref (history_view two_tasks (nl_seq counter_bad)) 0%Z.
Proof.
  set (h := history_view two_tasks (nl_seq counter_bad)).
  assert (wf_history task_ptr h) as Hwf by (apply wf_eventsb_sound; by vm_compute).
  assert (methods_known counter_methods h) as Hk.
  { intros [|[|[|[|i]]]] t th Hi; vm_compute in Hi; simplify_eq; by eexists. }
  assert (handles_agree h) as Ha.
  { intros [|[|[|[|i]]]] [|[|[|[|j]]]] e f Hi Hj; vm_compute in Hi, Hj; by simplify_eq. }
  destruct (recursive_check_decides counter_methods 0%Z (λ s, s) Z.eqb counter_veq eq true h Hwf Hk) as (b&Hb&Hl).
  rewrite (linearizable_agree counter_methods counter_veq h 0%Z Ha), <-Hl.
  assert (CheckRecursive (λ s, s) Z.eqb true counter_veq counter_methods 0%Z h = Ret false) as E by by vm_compute.
  congruence.
Qed.

(** ** Minimization of it *)

Definition counter_sched : SchedulerOps (World unit Z) SchedEvent :=
  StrategyScheduler default_ops rr counter_options 10 counter_checker.
Abbreviation counter_inv := (sched_inv (X := Z) (B := unit) rr_inv counter_methods 2).
Abbreviation counter_bad_ok := (bad_ok counter_methods counter_veq 0%Z PolicyCheck).
Abbreviation counter_fuel := (True → 10 ≤ 2 * (1 + 2)).

#[local] Instance counter_sched_laws :
  SchedulerLaws (ordinary_events counter_checker rr) counter_sched counter_fuel counter_inv counter_bad_ok uses :=
  strategy_scheduler_laws default_ops rr rr_inv counter_methods counter_veq 0%Z counter_checker counter_options 10
    counter_rank 1 True (λ _, counter_bounded) 2.

Lemma counter_min_ok : min_ok counter_inv counter_bad_ok uses two_tasks counter_bad.
Proof.
  split.
  - split; [by apply round_replayable|by vm_compute].
  - split; simpl; [..|exact counter_bad_history].
    + intros e He. repeat (apply elem_of_cons in He as [->|He]; [by eexists|]). by apply not_elem_of_nil in He.
    + intros s Hs. repeat (apply elem_of_cons in Hs as [->|Hs]; [by eexists|]). by apply not_elem_of_nil in Hs.
  - intros id _. apply not_elem_of_empty.
Qed.

Lemma greedy_minimize_correct_witness :
  hoare counter_fuel (GreedyMinimize (ordinary_events counter_checker rr) counter_sched
      (SameInterleaving counter_sched) counter_bad)
    (λ bad' w', same_shape two_tasks w' ∧ min_ok counter_inv counter_bad_ok uses w' bad') two_tasks ∧
  hoare counter_fuel (GreedyMinimize (ordinary_events counter_checker rr) counter_sched
      (StrategyExploration counter_sched 1) counter_bad)
    (λ bad' w', same_shape two_tasks w' ∧ min_ok counter_inv counter_bad_ok uses w' bad') two_tasks.
Proof.
  apply (greedy_minimize_correct (ordinary_events counter_checker rr) counter_sched counter_fuel counter_inv
    counter_bad_ok uses 1 counter_bad).
  exact counter_min_ok.
Defined.

Lemma smart_minimize_correct_witness :
  hoare counter_fuel (SmartMinimize (ordinary_events counter_checker rr) counter_sched 1 1 5 10
      (mkSmart 10 seed) counter_bad)
    (λ bad' w', counter_inv w' ∧ same_shape two_tasks w' ∧ counter_bad_ok w' bad') two_tasks.
Proof.
  apply (smart_minimize_correct (ordinary_events counter_checker rr) counter_sched counter_fuel counter_inv
    counter_bad_ok uses 1 1 5 10 (mkSmart 10 seed) counter_bad).
  - discriminate.
  - split; vm_compute; lia.
  - exact counter_min_ok.
Defined.

(** ** Strategies *)

Lemma reset_current_round_restarts_witness :
  ∃ w', ResetCurrentRound default_ops two_tasks = Ret ((), w') ∧ winv w' ∧ same_shape two_tasks w' ∧
    (∀ s c, slot_coro w' s = Some c →
       if bool_decide (co_id c ∈ removed_tasks (base two_tasks)) then co_returned c = true else unstarted c) ∧
    round_schedule (base w') = (λ _, (-1)%Z) <$> round_schedule (base two_tasks) ∧
    join_pairs (base w') = ∅ ∧ allow_new_tasks_ (base w') = true ∧
    removed_tasks (base w') = removed_tasks (base two_tasks) ∧ new_task_id (base w') = new_task_id (base two_tasks).
Proof. apply (reset_current_round_restarts default_ops two_tasks). apply round_winv. Defined.

Lemma set_custom_round_exact_witness :
  ∃ w', SetCustomRound default_ops scenario (start_world 0%Z) = Ret ((), w') ∧ winv w' ∧
    length <$> threads (base w') = length <$> (scenario : list (list TaskBuilder)) ∧
    (∀ t row i b, (scenario : list (list TaskBuilder)) !! t = Some row → row !! i = Some b →
       ∃ c, slot_coro w' (t, i) = Some c ∧ co_name c = tb_name b ∧ co_returned c = false ∧
         co_ctx c = Some (fiber_new (co_func c) (co_this c) (co_args c)) ∧
         co_id c = (new_task_id (base (start_world 0%Z)) + Z.of_nat (length (concat (take t scenario)) + i))%Z) ∧
    round_schedule (base w') = resize (round_schedule (base (start_world 0%Z))) 2 (-1)%Z.
Proof. apply (set_custom_round_exact default_ops scenario (start_world 0%Z)); [apply start_winv|done]. Defined.

Definition two_weights : RandomPick.t := RandomPick.mk [1; 1]%Z [].

Lemma random_strategy_keeps_world_witness :
  let w := start_world two_weights in
  let keeps {A} (m : M (World unit RandomPick.t) A) :=
    ∃ a w', m w = Ret (a, w') ∧ winv w' ∧ no_os w' ∧ weights_inv (ext w') (length (threads (base w'))) in
  keeps (so_Next (RandomPick.RandomStrategy default_ops)) ∧
  keeps (so_SetCustomRound (RandomPick.RandomStrategy default_ops) scenario) ∧
  keeps (so_StartNextRound (RandomPick.RandomStrategy default_ops)).
Proof.
  intros w keeps.
  destruct (random_strategy_keeps_world default_ops w) as (Hn&_&_&_&_&Hc&w'&E&Hw&Ho&_&Hx).
  - apply start_winv.
  - done.
  - unfold weights_inv. simpl. lia.
  - split; [exact Hn|]. split; [by apply Hc|]. exists (), w'. split; [exact E|]. split; [exact Hw|]. split; [exact Ho|].
    apply Hx. simpl. lia.
Defined.

Lemma start_willing (k : Z) u : u < 2 → willing default_ops (start_world k) u.
Proof.
  intros Hu w' Hs. apply hoare_eligible; [apply _|..].
  - eapply stable_winv; [exact Hs|apply start_winv].
  - by eapply stable_no_os.
  - by rewrite (st_threads _ _ Hs).
  - intros b w2 _ _ Hb. apply (test_result_free _ _ _ _ _ Hb).
    + rewrite (stable_may_run default_ops _ _ _ Hs). destruct u as [|[|u]]; [by vm_compute..|lia].
    + rewrite (stable_freeb _ _ _ Hs). destruct u as [|[|u]]; [by vm_compute..|lia].
Qed.

Lemma round_robin_fair_witness : 1 ∈ [0; 1].
Proof.
  apply (round_robin_fair default_ops 1 [0; 1] (start_world 0%Z)).
  - apply start_choosing.
  - simpl. lia.
  - simpl. lia.
  - simpl. lia.
  - eapply always_cons with (w2 := start_world 1%Z); [by apply start_willing; lia|by vm_compute|apply start_choosing|by vm_compute|done|].
    eapply always_cons with (w2 := start_world 2%Z); [by apply start_willing; lia|by vm_compute|apply start_choosing|by vm_compute|done|].
    constructor.
Defined.

Definition two_priorities : Pct.t := Pct.mk [3%Z] 1 0 0 0 0 0 [2; 1]%Z [] seed.

(** A verifier that lets no unfinished task of thread 0 run. *)
Definition thread0_held : VerifierOps unit :=
  mkVerifierOps () (λ b _ _ _, Ret (true, b)) (λ b _ _, Ret b) (λ b, b) None None None
    (Some (λ b _ t, Ret (negb (Nat.eqb t 0), b))) None false.
#[local] Instance thread0_held_total : VerifierTotal thread0_held.
Proof. split; [by intros; eexists|by intros; eexists|]. intros f b c t [= <-]. by eexists. Qed.

(** Thread 0 has the greater priority and an unfinished task, which the
    verifier refuses: thread 1 is picked. *)
Lemma pct_picks_highest_witness :
  ∃ w', Pct.NextThreadId thread0_held (round_world false [] [] two_priorities) = Ret (Some 1, w') ∧
    test_answers thread0_held (round_world false [] [] two_priorities) [0; 1] () = Ret ([false; true], ()) ∧
    ∀ j q, passed [0; 1] [false; true] j → Pct.priorities two_priorities !! j = Some q → (q < 1)%Z ∨ q = 1%Z ∧ j ≤ 1.
Proof.
  destruct (pct_picks_highest thread0_held (round_world false [] [] two_priorities)) as (o&w'&bs&E&Ha&_&Hm).
  - apply round_winv.
  - done.
  - split; simpl; [lia|by repeat constructor|lia|lia].
  - done.
  - assert (bs = [false; true]) as ->. { vm_compute in Ha. injection Ha as <-. reflexivity. }
    destruct o as [i|].
    + destruct Hm as (p&Hp&Hpass&Hall).
      assert (i = 1) as ->. { destruct Hpass as ([|[|k]]&Hk&Hb); vm_compute in Hk, Hb; congruence. }
      vm_compute in Hp. injection Hp as <-. exists w'. split; [exact E|]. split; [vm_compute; reflexivity|exact Hall].
    + exfalso. apply (Hm 1). exists 1. split; reflexivity.
Defined.

Lemma pct_resets_undefined_witness : resets default_ops 3 (start_world two_priorities) = UB.
Proof.
  apply (pct_resets_undefined default_ops 3 (start_world two_priorities)).
  - apply start_winv.
  - done.
  - simpl. lia.
  - simpl. lia.
  - by vm_compute.
  - discriminate.
  - by vm_compute.
Defined.

(** ** Dual rounds *)

Definition dual_world : World unit Z :=
  round_world true [mkDualEvent DualRequestResponse 1 (0%Z : Value)] [mkDualEvent DualRequestResponse 0 (0%Z : Value)] 0%Z.

Lemma dual_events_chronological_witness :
  ∃ l w', AppendDrainedDualEvents dual_world = Ret (drained_event <$> l, w') ∧
    l ≡ₚ all_emitted dual_world ∧ Sorted seqno_le l ∧ all_emitted w' = [] ∧ base w' = base dual_world.
Proof. apply (dual_events_chronological dual_world). apply round_winv. Defined.

Example dual_events_sorted :
  match AppendDrainedDualEvents dual_world with
  | Ret (evs, _) => evs = [DevRequestResponse 1 1%Z; DevRequestResponse 0 0%Z]
  | _ => False
  end.
Proof. vm_compute. reflexivity. Qed.

Lemma append_remove_roundtrip_witness :
  ∃ w1 w2, AppendTaskForReplay "next" 1 two_tasks = Ret (Some 2%Z, w1) ∧
    winv w1 ∧ length (slots w1) = 3 ∧
    (on_rt (update_coro 2 Terminate);; RemoveLastTaskForReplay 1 2%Z) w1 = Ret (true, w2) ∧
    threads (base w2) = threads (base two_tasks) ∧ removed_tasks (base w2) = removed_tasks (base two_tasks) ∖ {[2%Z]}.
Proof.
  apply (append_remove_roundtrip two_tasks 1 "next" next_builder).
  - apply round_winv.
  - simpl. lia.
  - by left.
  - done.
Defined.

(** Well-formedness by computation. *)
Definition winvb {X} (w : World unit X) : bool :=
  bool_decide (NoDup (slots w)) &&
  bool_decide (map_Forall (λ p _, p < next_ptr (rt w)) (heap (rt w))) &&
  forallb (λ p, match coro w p with
    | Some c => (co_returned c || bool_decide (is_Some (co_ctx c))) && bool_decide (co_id c < new_task_id (base w))%Z &&
        forallb (λ q, bool_decide (p = q) || bool_decide (co_id <$> coro w q ≠ Some (co_id c))) (slots w)
    | None => false
    end) (slots w).

Lemma winvb_sound {X} (w : World unit X) : winvb w = true → winv w.
Proof.
  unfold winvb. rewrite !andb_true_iff, !bool_decide_eq_true, forallb_forall. intros [[Hn Hf] Hs].
  setoid_rewrite <-list_elem_of_In in Hs. split; [..|done| | |].
  - intros p Hp. specialize (Hs p Hp). destruct (coro w p); [by eexists|done].
  - intros p [c Hc]. by apply (Hf p c).
  - intros p c Hp Hc Hr. specialize (Hs p Hp). rewrite Hc, Hr, !andb_true_iff in Hs.
    by destruct Hs as [[?%bool_decide_eq_true _] _].
  - intros p c Hp Hc. specialize (Hs p Hp). rewrite Hc, !andb_true_iff, !bool_decide_eq_true in Hs. apply Hs.
  - intros p q c d Hp Hq Hc Hd E. specialize (Hs p Hp). rewrite Hc, !andb_true_iff, forallb_forall in Hs.
    destruct Hs as [_ Hs]. apply list_elem_of_In in Hq. specialize (Hs q Hq).
    rewrite Hd, orb_true_iff, !bool_decide_eq_true in Hs. destruct Hs as [?|Hne]; [done|].
    destruct Hne. simpl. by rewrite E.
Qed.

(** The world [two_tasks] after the first task was replaced and explored. *)
Definition rollback_candidate : RollbackCandidate := mkCandidate 0 0 "next" ["next"].
Definition world_after {A X} (r : outcome (A * World unit X)) (w : World unit X) : World unit X :=
  match r with Ret (_, w') => w' | _ => w end.
Definition dual_accepts : list (DualHistoryEvent Args Value) → outcome bool := λ _, Ret true.

Definition appended : World unit Z :=
  world_after ((SetTaskRemoved 0 true;; AppendTaskForReplay "next" 0) two_tasks) two_tasks.
Definition explored : World unit Z :=
  world_after (DualExploreRound default_ops rr dual_accepts PolicyRollback 20 1 appended) appended.
Definition appended_coro : Coro := default (next_coro 2 false []) (coro explored 3).

Lemma rollback_destroys_unstarted_witness :
  rollback_attempt default_ops rr dual_accepts PolicyRollback 20 rollback_candidate "next" two_tasks = AssertFail.
Proof.
  apply (rollback_destroys_unstarted default_ops rr rr_inv dual_accepts PolicyRollback 20 rollback_candidate "next"
    [0] 3 appended_coro two_tasks appended explored).
  - by vm_compute.
  - by vm_compute.
  - by apply winvb_sound; vm_compute.
  - by vm_compute.
  - by vm_compute.
  - by apply (bool_decide_eq_true_1 _); vm_compute.
Defined.

(** ** The program *)

Definition no_tasks : Runtime := mkRuntime ∅ 0 ∅ 0 None 0 None 0%Z.

(** The command line [--tasks 2 --rounds 1 --deadlock_policy Checker]. *)
Definition two_tasks_line (f : Flags) : Flags :=
  mkFlags (FLAGS_threads f) 2 (FLAGS_switches f) 1 (FLAGS_minimize f) (FLAGS_exploration_runs f)
    (FLAGS_minimization_runs f) (FLAGS_wmm_enabled f) (FLAGS_depth f) (FLAGS_verbose f) (FLAGS_strategy f)
    (FLAGS_weights f) "Checker" (FLAGS_seed f).

Definition counter_opts : Opts :=
  mkOpts 2 2 100000000 1 false 15 15 false 0 false false false RR [] PolicyCheck 0.

Abbreviation counter_program rounds :=
  (ltest_Run default_ops (λ _, seed) 0 no_tasks 10 seed [next_builder] None two_tasks_line rounds
     (λ s, s) Z.eqb true counter_veq counter_methods 0%Z).

#[local] Instance least_laws : RandomLaws.
Proof. split; [apply _|by intros r [|z ws]; simpl; [|lia]|simpl; lia]. Qed.

Lemma exit_code_truthful_witness :
  ∃ r, counter_program [scenario] = Ret r ∧ truthful counter_methods counter_veq 0%Z PolicyCheck r.
Proof.
  apply (exit_code_truthful default_ops counter_methods counter_veq 0%Z (λ s, s) Z.eqb eq true counter_rank 1 2 2
    (λ _, seed) 0 no_tasks 10 seed [next_builder] None two_tasks_line counter_opts [scenario]).
  - vm_compute. reflexivity.
  - split.
    + by left.
    + intros b ->%list_elem_of_singleton. by eexists.
    + done.
    + discriminate.
    + vm_compute. lia.
    + vm_compute. lia.
    + vm_compute. lia.
    + intros cr ->%list_elem_of_singleton. pose proof scenario_ok as [? ? ?]. split_and!; [done|done|done|discriminate].
Defined.

(** The interrupted increments make it exit with 3. *)
Example counter_program_exits : match counter_program [] with Ret (code, Some _) => code = 3%Z | _ => False end.
Proof. vm_compute. reflexivity. Qed.

(** Options of a target with weights for its threads. *)
Lemma parse_opts_roundtrip_witness :
  ParseOpts (SetOpts (describe (mkOpts 3 10 50 7 false 4 6 true 0 false true false RND [1; -20; 300]%Z PolicyRollback 42)
    "RollBack") default_flags) =
  Ret (mkOpts 3 10 50 7 false 4 6 true 0 false true false RND [1; -20; 300]%Z PolicyRollback 42).
Proof.
  apply (parse_opts_roundtrip (mkOpts 3 10 50 7 false 4 6 true 0 false true false RND [1; -20; 300]%Z PolicyRollback 42)).
  - split; repeat (apply Forall_cons; split; [unfold INT_MIN, INT_MAX; simpl; lia|]); apply Forall_nil_2.
  - reflexivity.
Defined.

(** ** Findings on concrete rounds *)

(** A scenario with fewer threads than generated rounds leaves
    [RandomStrategy] with too few weights: the next pick reads past them. *)
Example random_weights_after_scenario :
  (so_SetCustomRound (RandomPick.RandomStrategy default_ops) [[next_builder]];;
   so_StartNextRound (RandomPick.RandomStrategy default_ops);;
   so_Next (RandomPick.RandomStrategy default_ops)) (start_world two_weights) = UB.
Proof. vm_compute. reflexivity. Qed.
