(* ===== verification/RuntimeWitnesses.v ===== *)
(** * Concrete instances for the runtime's data structures

    For every theorem about the stable vector, the strategy verifier, the
    blocking primitives, the dual methods, the simulated system, the options,
    the tables and the compiler passes with hypotheses, an input on which they
    hold, with the conclusion the theorem gives there. *)
From stdpp Require Import base list gmap strings numbers.
From Stdlib Require Import ZArith.
From S2P Require Import Prelude StableVector Verifier BlockManager Blocking SharedMutex.
Open Scope Z_scope.

(** ** Stable vectors *)

(** A vector with the elements [l], built by [emplace_back]. *)
Fixpoint filled (l : list Z) (v : StableVector Z) : StableVector Z :=
  match l with
  | [] => v
  | x :: l => filled l (match emplace_back v x with Ret v => v | _ => v end)
  end.

Definition three : StableVector Z := filled [1; 2; 3] empty_vec.

Lemma filled_repr l v l0 :
  repr v l0 → Z.of_nat (length l0) + Z.of_nat (length l) < 2 ^ 31 → repr (filled l v) (l0 ++ l).
Proof.
  revert v l0. induction l as [|x l IH]; intros v l0 Hr Hb; simpl.
  { by rewrite app_nil_r. }
  cbn [length] in Hb. destruct (emplace_back_ok v l0 x Hr) as (v1&->&Hr1); [lia|].
  rewrite cons_middle, assoc by apply _. apply IH; [done|]. rewrite length_app. simpl. lia.
Qed.

Lemma three_repr : repr three [1; 2; 3].
Proof. apply (filled_repr [1; 2; 3] empty_vec []); [apply repr_empty|done]. Qed.

Lemma stable_vector_refines_witness :
  (∃ v', emplace_back three 4 = Ret v' ∧ repr v' [1; 2; 3; 4] ∧
    ∀ i y, [1; 2; 3] !! i = Some y → StableVector.subscript v' (Z.of_nat i) = Ret y) ∧
  ∃ v', pop_back three = Ret v' ∧ repr v' [1; 2].
Proof.
  destruct (stable_vector_refines three [1; 2; 3] three_repr) as [He Hp].
  split; [apply (He 4); reflexivity|apply (Hp [1; 2] 3); [reflexivity|discriminate]].
Defined.

(** A vector of [2^30] elements exists. *)
Lemma stable_vector_pop_back_bound_witness :
  ∃ (v : StableVector Z) l, repr v l ∧ Z.of_nat (length l) = 2 ^ 30 ∧ pop_back v = UB.
Proof.
  destruct (grow_loop_ok (Z.to_nat (2 ^ 30)) empty_vec [] 0 repr_empty) as (v&_&Hr).
  { rewrite Z2Nat.id; done. }
  assert (Hl : Z.of_nat (length ([] ++ replicate (Z.to_nat (2 ^ 30)) 0)) = 2 ^ 30).
  { rewrite app_nil_l, length_replicate. by apply Z2Nat.id. }
  exists v, ([] ++ replicate (Z.to_nat (2 ^ 30)) 0). split; [exact Hr|]. split; [exact Hl|].
  exact (stable_vector_pop_back_bound v _ Hr Hl).
Defined.

Lemma stable_vector_resize_witness : ∃ v', resize three 5 0 = Ret v' ∧ repr v' [1; 2; 3; 0; 0].
Proof. apply (stable_vector_resize three [1; 2; 3] 5 0 three_repr); [done|]. intros []. done. Defined.

Lemma stable_vector_destroy_witness : destroy three = [Some 1; Some 2; Some 3].
Proof. apply (stable_vector_destroy three [1; 2; 3] three_repr). Defined.

Lemma stable_vector_move_assign_witness :
  repr (move_assign three empty_vec).1 [] ∧ destroy (move_assign three empty_vec).2 = [].
Proof. apply (stable_vector_move_assign three [1; 2; 3] empty_vec [] three_repr repr_empty). Defined.

(** ** Strategy verifier *)

(** One prefix budget: [pop] may start at most [push] + threads - 1 times. *)
Definition pop_rule : PrefixBudgetRule := mkBudget "pop" ["push"] 1 0.
Definition pop_policy : WorkloadPolicy := mkPolicy [] [pop_rule] [] [] [].
Definition two_threads : StartContext := mkContext 2 2 ∅ ∅.
Definition round : ReservePolicyVerifier unit := OnRoundStart verifier_init 2.

Lemma started_counts_tasks_witness :
  count (started_by_method_ (starts (OnRoundStart (verifier_init (B := unit)) 2)
          [("pop", 0, 5); ("pop", 0, 5); ("pop", 1, 6)])) "pop" = 2.
Proof.
  rewrite (started_counts_tasks (verifier_init (B := unit)) 2
             [("pop", 0, 5); ("pop", 0, 5); ("pop", 1, 6)] "pop"); [vm_compute; reflexivity|].
  vm_compute. reflexivity.
Defined.

Lemma count_empty n : count ∅ n = 0.
Proof. unfold count. by rewrite lookup_empty. Qed.

Lemma round_in_range : in_range pop_policy round two_threads.
Proof.
  split; simpl; try (intros n; rewrite count_empty; done); try done.
  - intros r ->%list_elem_of_singleton. done.
  - by intros r ?%elem_of_nil.
Qed.

Lemma verify_start_exact_witness :
  (VerifyStart pop_policy round "pop" 0 two_threads).1 = true ↔
  (base_VerifyStart (base_ round) "pop" 0 two_threads).1 = true ∧
  start_allowed pop_policy round "pop" two_threads.
Proof. apply (verify_start_exact pop_policy round "pop" 0 two_threads). exact round_in_range. Defined.

Lemma prefix_budget_invariant_witness :
  within_budget 2 (OnTaskStarted round "pop" 0 5) pop_rule.
Proof.
  apply (prefix_budget_invariant pop_policy 2 1 (OnTaskStarted round "pop" 0 5) pop_rule).
  - eapply (guarded_start pop_policy 2 0 round round "pop" 0 5 two_threads).
    + apply guarded_round.
    + reflexivity.
    + vm_compute. reflexivity.
  - done.
  - by left.
  - unfold rule_fits. simpl. lia.
Defined.

(** ** Blocking *)

Lemma set_blocked_unblock_witness :
  (CoroIsBlocked (SetBlocked ∅ (mkBlockState 64 1) 3).2 (mkBlockState 64 1) None 3).1 = true.
Proof.
  pose proof (set_blocked_unblock ∅ (mkBlockState 64 1) 3) as H. simpl in H.
  destruct (H ltac:(discriminate)) as (Hb&_&_). exact Hb.
Defined.

(** Coroutine 0 holds the mutex at address 64 and coroutine 1 waits. *)
Lemma mutex_correct_witness :
  (countb Mutex.is_holding
     (Mutex.pcs (Mutex.lock 64 (Mutex.lock 64 (Mutex.mkSt 0 ∅ [Mutex.Outside; Mutex.Outside]) 0) 1)) ≤ 1)%nat.
Proof.
  apply (Mutex.mutex_correct 64 ltac:(discriminate)).
  eapply Mutex.reach_step; [eapply Mutex.reach_step; [apply (Mutex.reach_init 64 2)|]|].
  - apply (Mutex.step_lock 64 _ 0). reflexivity.
  - apply (Mutex.step_lock 64 _ 1). reflexivity.
Defined.

(** Coroutine 0 writes, coroutine 1 waits to read. *)
Lemma shared_mutex_r_correct_witness :
  (SharedMutexR.writers
     (SharedMutexR.lock_shared 64
        (SharedMutexR.lock 64 (SharedMutexR.mkSt 0 ∅ [SharedMutexR.Outside; SharedMutexR.Outside]) 0) 1)
   ≤ 1)%nat.
Proof.
  apply (SharedMutexR.shared_mutex_r_correct 64 ltac:(discriminate)).
  eapply SharedMutexR.reach_step;
    [eapply SharedMutexR.reach_step; [apply (SharedMutexR.reach_init 64 2)|]|].
  - apply (SharedMutexR.step_lock 64 _ 0). reflexivity.
  - apply (SharedMutexR.step_lock_shared 64 _ 1). reflexivity.
Defined.

(** Coroutine 0 has locked the shared mutex. *)
Definition idle : st := mkSt 0 0 None ∅ [Outside; Outside].
Definition writer_in : st := mkSt 0 0 (Some 0%nat) ∅ [WriterHolding; Outside].

Lemma writer_in_lock : lock 64 72 80 idle 0 = Ret writer_in.
Proof. vm_compute. reflexivity. Qed.

Lemma writer_in_reachable : reachable 64 72 80 writer_in.
Proof.
  apply (reach_step 64 72 80 idle writer_in 0); [apply (reach_init 64 72 80 2)|].
  rewrite <-writer_in_lock. apply runs_lock. reflexivity.
Qed.

Lemma shared_mutex_correct_witness :
  pcs writer_in !! 0%nat = Some WriterHolding ∧ readers writer_in = 0%nat.
Proof.
  split; [reflexivity|].
  destruct (shared_mutex_correct 64 72 80 ltac:(discriminate) ltac:(discriminate) ltac:(discriminate)
              ltac:(discriminate) ltac:(discriminate) ltac:(discriminate) writer_in
              writer_in_reachable) as (_&Hr&_).
  apply (Hr 0%nat). reflexivity.
Defined.

(** * A concrete call that waits

    Coroutine 7 calls a dual method whose awaiter is not ready and suspends;
    its waker runs while it is blocked. *)
From stdpp Require Import base list gmap relations.
From Stdlib Require Import ZArith.
From S2P Require Import Prelude BlockManager Effects Runtime DualMethods.

Open Scope nat_scope.

Definition call_step : st (V := Z) → st (V := Z) := run_step 0%Z false true 42%Z false true 7 64.
Abbreviation call_reachable := (reachable 0%Z false true 42%Z false true 7 64).

Definition called : st (V := Z) := mkSt CallsReady None false ∅ [].
Definition waiting_call : st (V := Z) := Nat.iter 8 call_step called.
Definition woken_call : st (V := Z) := wake 64 waiting_call.

Lemma call_step_reachable s :
  call_reachable s → at_pc s ≠ Done → at_pc s ≠ AssertFailed → at_pc s ≠ Yielded → call_reachable (call_step s).
Proof. intros Hr H1 H2 H3. eapply reach_step; [exact Hr|]. by apply step_own. Qed.

Lemma waiting_call_reachable : call_reachable waiting_call.
Proof.
  unfold waiting_call, Nat.iter. do 8 (apply call_step_reachable; [|by vm_compute..]). by apply reach_call.
Qed.

(** Blocked until its waker runs. *)
Example waiting_call_blocked : at_pc waiting_call = Yielded ∧ blocked 7 64 waiting_call = true.
Proof. by vm_compute. Qed.

Lemma dual_method_protocol_witness :
  blocked 7 64 woken_call = false ∧
  ∃ k s', k ≤ 10 ∧ nsteps (own_step 0%Z false true 42%Z false true 7 64) k woken_call s' ∧ at_pc s' = Done.
Proof.
  assert (call_reachable woken_call) as Hr.
  { eapply reach_step; [exact waiting_call_reachable|]. by apply step_wake. }
  destruct (dual_method_protocol 0%Z false true 42%Z false true 7 64 ltac:(done) woken_call Hr)
    as (_&_&_&_&Hb&Hf).
  split; [by apply Hb|]. apply Hf. by left.
Defined.

(** * Examples for the simulated system and the printed tables

    Concrete threads, blocks of memory and events at which the theorems of
    [Pthread], [Resources] and [PrettyPrint] apply. *)
From stdpp Require Import base list gmap strings.
From Stdlib Require Import ZArith.
From S2P Require Import Prelude BlockManager Blocking SharedMutex Options Pthread.
From S2P Require Import Resources History LincheckDual PrettyPrint.

Open Scope Z_scope.

(** ** Two threads and one mutex *)

Definition two_pthreads : Pthread.sys := mkSys (mkTables ∅ ∅ ∅ ∅ 4096 2) [None; None].

Definition after (s : Pthread.sys) (t : nat) (x : pcall) : Pthread.sys :=
  match call (tables s) t x with Ret r => finish s t r | _ => s end.

(** Thread 0 has the mutex, thread 1 waits for it. *)
Definition contended : Pthread.sys := after (after two_pthreads 0 (MutexLock 100)) 1 (MutexLock 100).

Lemma after_reachable s t x r :
  Pthread.reachable s → points s !! t = Some None → Pthread.allowed s t x → call (tables s) t x = Ret r →
  Pthread.reachable (after s t x).
Proof. intros Hr Hp Ha E. unfold after. rewrite E. eapply Pthread.reach_step; [done|]. rewrite <-E. by constructor. Qed.

Lemma contended_reachable : Pthread.reachable contended.
Proof.
  assert (Pthread.reachable two_pthreads) as H0 by (by apply (Pthread.reach_init 2 4096)).
  eapply after_reachable; [eapply after_reachable; [exact H0|reflexivity..]|reflexivity..].
Qed.

Lemma pthread_calls_correct_witness :
  (∀ t m, acts contended t m → ∃ r, m = Ret r) ∧
  ∀ c, mutexes (tables contended) !! 100 = Some c → countb Mutex.is_holding (m_pcs c) = 1%nat.
Proof.
  destruct (pthread_calls_correct contended contended_reachable) as (Ha&Hm&_). split; [exact Ha|].
  intros c Hc. apply (Hm 100 c Hc) with (t := 1%nat); vm_compute; reflexivity.
Defined.

(** ** A round that allocates *)

(** A coroutine allocates two blocks and frees one; the scheduler allocates
    one in between. *)
Definition round_ops : list Resources.op :=
  [Context true; Malloc 8; Context false; Malloc 16; Context true; Realloc 8 64 24; Calloc 32; Free 32; Context false].

Lemma no_blocks_repr preload : Resources.repr (no_blocks preload) ∅.
Proof.
  split; simpl; [|done|done|].
  - intros x. rewrite lookup_empty. split; [set_solver|by intros []].
  - exists []. split_and!; [done|constructor|]. intros x. rewrite lookup_empty. split; [by intros ?%not_elem_of_nil|done].
Qed.

Ltac op_ok := split; [simpl; try done|intros ? [= <-]].

Lemma round_ops_allowed : allowed_all (no_blocks true) ∅ round_ops.
Proof.
  op_ok. op_ok; [by split; [|right]|]. op_ok. op_ok; [by split; [|right]|]. op_ok.
  op_ok; [split_and!; [done|right; by eexists|done|by right|done]|].
  op_ok; [by split; [|right]|]. op_ok; [split; [done|right; by eexists]|]. op_ok. done.
Qed.

Lemma memory_of_round_witness :
  ∃ h', exec_all (no_blocks true) round_ops = Ret h' ∧
  ∃ h'', FreeAllMemory h' = Ret h'' ∧ memory_handler h'' = Some [].
Proof.
  destruct (memory_of_round (no_blocks true) ∅ round_ops (no_blocks_repr true) round_ops_allowed)
    as (h'&o'&E&_&_&h''&E'&Hm&_).
  exists h'. split; [exact E|]. exists h''. split; [exact E'|exact Hm].
Defined.

(** ** Tables of two threads *)

Definition push_task : Task nat nat := mkTask 0 7 1 "push" 5%nat None.
Definition str_nat (n : nat) : string := toString (Z.of_nat n).

Definition two_events : list (HistoryEvent nat nat) := [Invoke push_task 0; Response push_task 3%nat 0].
Definition dual_events : list (DualHistoryEvent nat nat) := [RequestInvoke push_task 1; RequestResponse push_task 1].
Definition full_events : list (Z * FullEvent nat nat) :=
  [(0, FullTask push_task); (1, FullStatus (mkStatus "co" true)); (1, FullStatus (mkStatus "co" false))].

Ltac in_range := repeat (apply Forall_cons; split; [simpl; lia|]); by apply Forall_nil.

(** The step of the only object has the number 0. *)
Lemma pretty_print_tables_witness :
  (∃ table, PrettyPrint (λ n, [str_nat n]) str_nat two_events 2 = Some table ∧
    aligned 0 cell_width 2 (entry (λ n, [str_nat n]) str_nat <$> two_events) table) ∧
  first_seen (objects full_events) = [7%nat] ∧
  ∃ table, PrettyPrintFull (λ n, [str_nat n]) full_events 2 = Some table ∧
    ∃ line, table !! 3%nat = Some line ∧ String.substring 0 7 line = label 0.
Proof.
  destruct (pretty_print_tables (λ n, [str_nat n]) str_nat 2 two_events dual_events full_events)
    as (H&_&_&_&table&Ht&_&Hl).
  - done.
  - in_range.
  - in_range.
  - in_range.
  - done.
  - split; [exact H|]. split; [vm_compute; reflexivity|]. exists table. split; [exact Ht|].
    destruct (Hl 0%nat 0 push_task eq_refl) as (line&k&Hline&Hk&Hs). exists line. split; [exact Hline|].
    assert (k = 0%nat) as ->; [|exact Hs]. vm_compute in Hk. destruct k as [|k]; [reflexivity|discriminate Hk].
Defined.

(** * The passes on a small module

    A module with an annotated function that loads, calls a helper and
    stores, an atomic helper that allocates, and the declarations they use.
    Each theorem about the passes is instantiated at it. *)
From stdpp Require Import base list strings gmap.
From S2P Require Import Prelude Ir YieldPass CoYieldPass.
From S2P Require Import ResMockPass LaunchPasses.
Local Open Scope nat_scope.

(** Names are not mangled here. *)
Definition plain (s : string) : string := s.

Definition work_fun : Function :=
  mkFun 0 "work" 0 "" ExternalLinkage false
    [[mkInst 10 LoadInst [VGlobal "x"];
      mkInst 11 (CallInst (Some 1)) [VInst 10];
      mkInst 12 StoreInst [VInst 11; VGlobal "x"];
      mkInst 13 ReturnInst []]].
Definition helper_fun : Function :=
  mkFun 1 "helper" 1 "" ExternalLinkage false
    [[mkInst 20 (CallInst (Some 2)) [VArg 0];
      mkInst 21 StoreInst [VConst (ConstInt 0); VInst 20];
      mkInst 22 (CallInst (Some 3)) [VInst 20; VArg 0];
      mkInst 23 ReturnInst [VInst 20]]].
Definition main_fun : Function :=
  mkFun 4 "main" 0 "" ExternalLinkage false [[mkInst 30 (CallInst (Some 0)) []; mkInst 31 ReturnInst []]].

Definition annotations : GlobalVariable :=
  mkGlobal "llvm.global.annotations" "llvm.metadata" false false true
    (Some (ConstAnnotations [(AnnotatedFunction 0, "ltest_nonatomic"); (AnnotatedFunction 1, "ltest_atomic")])).
Definition var_x : GlobalVariable := mkGlobal "x" "" false false false (Some (ConstInt 7)).
Definition var_k : GlobalVariable := mkGlobal "k" "" false true false (Some (ConstInt 8)).

Definition small : Module_ :=
  mkModule [work_fun; helper_fun; declare 2 "malloc" 1; declare 3 "operator delete(void*, unsigned long)" 2;
            main_fun] [annotations; var_x; var_k] 40.

(** Membership in a concrete list. *)
Ltac each :=
  repeat match goal with
    | H : _ ∈ _ :: _ |- _ => apply elem_of_cons in H as [->|H]
    | H : _ ∈ [] |- _ => by apply not_elem_of_nil in H
    end.

Lemma small_wf : module_wf small.
Proof.
  split.
  - apply (bool_decide_unpack _). vm_compute. exact I.
  - apply (bool_decide_unpack _). vm_compute. exact I.
  - intros F HF. simpl in HF. each; simpl; lia.
  - intros F i p HF Hi Hp. simpl in HF. each; simpl in Hi; each; cbv in Hp; simplify_eq; eexists; reflexivity.
  - intros F b HF Hb. simpl in HF. each; simpl in Hb; each; done.
Qed.

Definition small_index : FunIndex := {[("ltest_nonatomic", "work"); ("ltest_atomic", "helper")]}.
Definition small1 : Module_ := (getOrInsertFunction "CoroYield" 0 small).1.

Definition small_functions : list Function := functions small.
Lemma small1_functions : functions small1 = small_functions ++ [declare 40 "CoroYield" 0].
Proof. reflexivity. Qed.

Lemma yield_pass_correct_witness :
  ∃ M', YieldInsertPass false false small = Ret M' ∧ globals M' = globals small.
Proof.
  edestruct (yield_pass_correct false false small small_index small1 40) as (M'&E&EG&_).
  - exact small_wf.
  - vm_compute. reflexivity.
  - vm_compute. reflexivity.
  - intros F HF. simpl in HF. each; done.
  - intros F HF HT. rewrite small1_functions in HF. unfold small_functions, small, functions in HF.
    simpl in HF. each; first [by right|exfalso; vm_compute in HT; discriminate HT].
  - exists M'. split; [exact E|exact EG].
Defined.

(** The module with the two functions of the runtime. *)
Definition small2 : Module_ :=
  (getOrInsertFunction ltest_deallocation_fun_name 1
    (getOrInsertFunction ltest_allocation_fun_name 1 small).1).1.

Lemma small2_functions :
  functions small2 = small_functions ++ [declare 40 ltest_allocation_fun_name 1; declare 41 ltest_deallocation_fun_name 1].
Proof. reflexivity. Qed.

Lemma small2_mockable : mockable plain small2.
Proof.
  intros F HF. rewrite small2_functions in HF. unfold small_functions, small, functions in HF. simpl in HF. split.
  - each; apply (bool_decide_unpack _); vm_compute; exact I.
  - intros i Hi. each; simpl in Hi; each;
      (split; [intros name r E1 E2; vm_compute in E1; simplify_eq; vm_compute in E2; simplify_eq; reflexivity
              |change (next_ptr small2) with 42; simpl; lia]).
Qed.

Lemma resmock_pass_correct_witness :
  ∃ M', ResMockPass plain small = Ret M' ∧ globals M' = globals small.
Proof.
  edestruct (resmock_pass_correct plain small (getOrInsertFunction ltest_allocation_fun_name 1 small).1 40 small2 41)
    as (M'&E&EG&_).
  - exact small_wf.
  - vm_compute. reflexivity.
  - vm_compute. reflexivity.
  - exact small2_mockable.
  - vm_compute. reflexivity.
  - vm_compute. reflexivity.
  - exists M'. split; [exact E|exact EG].
Defined.

(** The calls of [helper] in [work] are reported. *)
Definition small3 : Module_ := (getOrInsertFunction costatus_change 2 small).1.
Definition helper_filter : list CoroutineFilter := [mkFilter (Some "work") (Some "helper") "helper"].

Lemma work_body_ok : body_ok (blocks work_fun).
Proof.
  intros l Hl. simpl in Hl. each. split; [split|].
  - intros [|[|[|[|k]]]] i c Hk Hc; simplify_eq/=; lia.
  - simpl. lia.
  - intros i c n u Hi Hop. each; simplify_eq/=.
Qed.

Lemma coyield_function_exact_witness :
  CoYieldPass.InsertYields plain (visit_fuel work_fun) 40 helper_filter work_fun small3 =
  r ← expand_blocks plain small3 40 helper_filter (blocks work_fun)
        (mkEState (next_ptr small3) (globals small3) 0);
  Ret (mkModule (functions (set_blocks 0 r.1 small3)) (e_globals r.2) (e_next r.2)).
Proof.
  apply (coyield_function_exact plain small3 40 helper_filter work_fun (visit_fuel work_fun)).
  - reflexivity.
  - exact work_body_ok.
  - intros Y HY. vm_compute in HY. simplify_eq. split; [vm_compute; reflexivity|].
    repeat constructor.
  - intros l Hl i p n u F Hi Hop. simpl in Hl. each; each; simplify_eq/=.
  - lia.
Defined.

(** The bracketed call. *)
Example helper_bracketed :
  (λ r, fmap (M := list) (fmap (M := list) opcode) r.1) <$>
    expand_blocks plain small3 40 helper_filter (blocks work_fun) (mkEState 41 [] 0) =
  Ret [[LoadInst; CallInst (Some 40); CallInst (Some 1); CallInst (Some 40); StoreInst; ReturnInst]].
Proof. vm_compute. reflexivity. Qed.

(** A filter that names no coroutine keeps the pass busy for ever. *)
Example unnamed_filter_diverges fuel :
  CoYieldPass.InsertYields plain (S fuel) 40 [mkFilter (Some "work") None "any"] work_fun small3 = OutOfFuel.
Proof.
  set (st := mkCState (blocks work_fun) (globals small3) (next_ptr small3) 0 0 0).
  assert (E : visit plain (S fuel) small3 40 [mkFilter (Some "work") None "any"] st = OutOfFuel).
  { change (visit plain fuel small3 40 [mkFilter (Some "work") None "any"] (next_inst st) = OutOfFuel).
    apply (visit_diverges _ _ _ _ _ _ (mkInst 11 (CallInst (Some 1)) [VInst 10]) 1 (mkFilter (Some "work") None "any")).
    - intros name. unfold matching. rewrite filter_cons_True by (by left). done.
    - eexists. vm_compute. reflexivity.
    - exact work_body_ok.
    - by eexists.
    - done.
    - eexists. vm_compute. reflexivity. }
  unfold CoYieldPass.InsertYields. change (isDeclaration work_fun) with false. cbn match.
  fold st. by rewrite E.
Qed.

(** The new entry point, and the globals after a reset. *)
Example small_main_replaced :
  (λ M, fmap (M := list) fun_name (functions M)) <$> MainReplacer_Run plain plain small =
  Ret ["work"; "helper"; "malloc"; "operator delete(void*, unsigned long)"; "test_main"; "ltest_main"; "main"].
Proof. vm_compute. reflexivity. Qed.

Example small_reset :
  ResetStaticVariables (λ _ m, m) (GlobalReplacer_Run plain small) [None; Some 40; None]
    {["x" := ConstInt 1; "k" := ConstInt 8]} = {["x" := ConstInt 7; "k" := ConstInt 8]}.
Proof. vm_compute. reflexivity. Qed.
